(* ===== verification/_CoqProject ===== *)
-Q . S2P
Prelude.v
Rbuf.v
Fbuf.v
Linklist.v
LinklistRemove.v
Hashtable.v
HashtableMap.v
HashtableSpec.v
HtStatus.v
Comparators.v
SortedDict.v
Ptree.v
PtreeSearch.v
Rbtree.v
RbtreeShape.v
RbtreeAdd.v
RbtreeRepair.v
RbtreeInsert.v
RbtreeColors.v
RbtreeRemove.v
RbtreeInner.v
RbtreeWalk.v
RbtreeDelete.v
RbtreeSpec.v
Avltree.v
AvltreeShape.v
AvltreeBalance.v
AvltreeJoin.v
AvltreeAdd.v
AvltreeInsert.v
AvltreeLoop.v
AvltreeDelete.v
AvltreeWalk.v
AvltreeSpec.v
Binheap.v
BinheapForest.v
BinheapOps.v
BinheapRemove.v
BinheapInsert.v
BinheapSearch.v
BinheapSpec.v
BinheapWalk.v
Pqueue.v
PqueueSpec.v
Skiplist.v
SkiplistQueue.v
SkiplistSearch.v
SkiplistInsert.v
SkiplistOps.v
SkiplistRemove.v
SkiplistSpec.v
Trie.v
TrieMap.v
TrieRemove.v
TrieSpec.v
Graph.v
GraphSpec.v
Rqueue.v
RqueueRing.v
RqueueOps.v
RqueueWrite.v
RqueueSpec.v
PtrQueue.v
Refcnt.v
RefcntOps.v
RefcntSpec.v
Queue.v
QueueOps.v
QueueEntries.v
QueueEnds.v
QueueLife.v
QueueDestroy.v
QueueSpec.v
