(* ===== verification/Prelude.v ===== *)
(** * libhl: a verification development

    libhl is a C library of data structures (src/src/).  This development
    models them as Rocq functions and proves what they promise:

    - the ring buffer, src/src/rbuf.c: [Rbuf];
    - the flat byte buffer, src/src/fbuf.c: [Fbuf];
    - the tagged doubly linked list, src/src/linklist.c: [Linklist];
    - the hash table, src/src/hashtable.c: [Hashtable] (its operations),
      [HashtableMap] (its invariant and the correctness of each operation),
      [HashtableSpec] (what it promises) and [HtStatus] (its status word, with
      several threads);
    - the trie, src/src/trie.c: [Trie] (its operations), [TrieMap] (its
      invariant, lookup and insertion), [TrieRemove] (removal) and [TrieSpec]
      (what it promises);
    - the comparators, src/src/comparators.h: [Comparators], with the type
      class of a comparator that is an order;
    - the binomial heap, src/src/binheap.c: [Binheap] (its operations),
      [BinheapForest] (the invariant of its forest), [BinheapOps] (its roots in
      a list, the choice of a node, the ends of the heap), [BinheapRemove],
      [BinheapInsert] and [BinheapSearch] (removal, insertion, search of a
      key), [BinheapSpec] (what it promises) and [BinheapWalk] (walking it);
      [LinklistRemove] is the one traversal of the list of roots that removes;
    - the priority queue, src/src/pqueue.c: [Pqueue] (its operations, over the
      binomial heap) and [PqueueSpec] (what it promises);
    - the red-black tree, src/src/rbtree.c: [Rbtree] (its operations),
      [RbtreeShape] (the invariant of its tree: order and colours),
      [RbtreeAdd], [RbtreeRepair] and [RbtreeInsert] (lookup, insertion and the
      repair of the colours), [RbtreeWalk] (walks), [RbtreeRemove],
      [RbtreeColors], [RbtreeInner] and [RbtreeDelete] (removal and
      destruction), [RbtreeSpec] (what it promises).  What does not depend on
      colours is shared by the search trees: [SortedDict] (a dictionary as a
      list sorted by a comparator), [Ptree] (a store of nodes with parent
      pointers, and when it holds a tree) and [PtreeSearch] (search trees);
    - the AVL tree, src/src/avltree.c: [Avltree] (its operations),
      [AvltreeShape] (heights and rotations), [AvltreeBalance] and
      [AvltreeJoin] (one turn and all turns of the balancing loop),
      [AvltreeAdd], [AvltreeInsert], [AvltreeLoop] and [AvltreeDelete]
      (insertion and removal), [AvltreeWalk] (walks and destruction),
      [AvltreeSpec] (what it promises);
    - the skip list, src/src/skiplist.c: [Skiplist] (its operations, with the
      TAILQ macros of bsd_queue.h), [SkiplistQueue] (the queue of a layer),
      [SkiplistSearch], [SkiplistInsert], [SkiplistOps] and [SkiplistRemove]
      (the operations), [SkiplistSpec] (what it promises);
    - the graph, src/src/graph.c: [Graph] (its operations, over the hash table)
      and [GraphSpec] (what it promises);
    - the ring queue, src/src/rqueue.c: [Rqueue] (its operations), [RqueueRing]
      (the ring of pages and its flags), [RqueueOps] and [RqueueWrite] (reading
      and writing), [RqueueSpec] (what it promises);
    - the interface of a queue of pointers: [PtrQueue], a type class with its
      laws, which the ring queue implements and the next two use;
    - the reference counters, src/src/refcnt.c: [Refcnt] (its operations),
      [RefcntOps] (counted objects) and [RefcntSpec] (what a client sees);
    - the linked queue, src/src/queue.c: [Queue] (its operations, over the
      reference counters), [QueueOps] (its invariant), [QueueEntries],
      [QueueEnds], [QueueLife] and [QueueDestroy] (entries, the two ends, the
      pool and clearing, destruction), [QueueSpec] (what it promises).

    ** How C is modelled

    A function of the C code is a function of the same name; a guard, an early
    return or a call of the code is one of the model, in the same order.  A
    loop of the code, or a branch that is used more than once, is a definition
    of its own next to its function.  The outcome of a computation is
    [Ret a], [Undef] (undefined behaviour: an access outside a live block, an
    indeterminate byte, signed overflow, a null dereference, a double free) or
    [Diverge]; [returns m Q] is total correctness: defined, terminating, and
    with a result in [Q].  Theorems are stated with it, so none of them holds
    because the code loops or is undefined.

    State is explicit.  [Rbuf] and [Fbuf] keep a record per buffer and blocks
    of bytes, some of them indeterminate ([byte option]).  The other
    components run in the state monad [ST] over a store of objects addressed
    by pointers (null is 0): list entries, tagged values, bucket lists, trie
    nodes.  A mutation through one pointer is seen through the others, freed
    objects are gone from the store, and what the callback for values is
    called with is recorded.  [heap] of [Linklist] is also the allocator of
    the components above it: [hp_alloc] lists which allocations succeed, so
    that out-of-memory branches are run, and [alloc_ok] says that all do.  The
    nodes of a binomial heap, those of a search tree, the items of a skip list,
    the nodes of a graph, the pages of a ring queue, and the nodes and entries
    of the counters and of the linked queue have stores, addresses and lists of
    allocations of their own.  A component that calls another one has its state
    in its own: a call is a lens, and a callback that the other component
    stores is called, in its order, on what the call has given up.

    Integers are [Z]; [u32], [int32] and the like wrap or check at the width of
    the C type.  [size_t] sums that the code does not check are bounded by
    hypotheses of the theorems ([8 * size < 2 ^ 63], for instance).

    Loops run [loop], which makes up to [2 ^ 64] iterations before it answers
    [Diverge]: an iteration of the C loops allocates, frees, visits or consumes
    an object of a 64-bit address space, so a terminating loop stays below it,
    and each theorem proves that its loops do.  Recursive functions take a
    [depth]: [list_quick_sort] the length of the list, [trie_node_destroy] the
    length of the longest key below the node, [binomial_tree_walk] the number
    of nodes, the recursive functions of [Rbtree] the height of the tree, which
    [rbt_add_red_black] bounds by twice the logarithm of the number of keys;
    their theorems say which depth suffices.  The balancing of an AVL tree is
    shown to take fewer than [2 ^ 64] turns for trees of fewer than
    [2 ^ 31 - 5] nodes, whose heights are an [int].

    Code outside src/ (the callbacks of a client, the seed of the hash
    function, the results of random() and of the clock, the functions that
    choose a node of a graph, a thread scheduler) is an argument.  Locks are words that are
    taken and released: taking a lock twice, or leaving a function with a lock
    held, is an error that the theorems exclude.

    ** What is shown

    Each component has an invariant, a functional specification of its
    operations on every branch, and a refinement theorem for sequences of
    operations:

    - [Rbuf.rbuf_refines_queue]: a ring buffer is a bounded queue of bytes, in
      both modes; [rbuf_find_first], [rbuf_read_until_prefix],
      [rbuf_move_to_cleared];
    - [Fbuf.fbuf_refines_bytes]: a flat buffer is a string of bytes with a
      read position; contracts of the growth and shrinking of its block, line
      reading, and conservation of bytes between the buffer and a descriptor;
    - [Linklist.list_refines_sequence]: a list is a sequence, whatever its
      cached position; traversal with a callback, tagged values, destruction,
      sorting;
    - [HashtableSpec.ht_refines_map]: a hash table is a finite map from byte
      strings to values, through collisions and growth; traversal,
      destruction, copies, compare-and-set;
    - [HtStatus.ht_status_exclusion], [ht_reader_release_bounded]: the
      protocol of the status word, a step relation over any number of threads,
      excludes readers and writers from each other and lets a reader leave;
    - [TrieSpec.trie_refines_map], [trie_destroy_frees]: a trie is a finite map
      from strings of bytes 1 to 127 to references, while the keys that are
      looked up or removed are no prefixes of others; in every case it is one
      where a removal removes all keys with a prefix; its node count is that of
      the prefixes of the keys, no node leaks, and destruction frees each
      value once;
    - [BinheapSpec.binheap_refines_queue], [binheap_destroy_frees],
      [BinheapWalk.binheap_walk_visits]: a binomial heap is a multiset of keys
      with values, for any comparator that is an order ([Comparator]) and in
      both modes: its top precedes every item, nothing is lost or duplicated,
      the order of the trees and the head are kept by every operation;
    - [PqueueSpec.pqueue_refines_bag], [pqueue_destroy_frees]: a priority queue
      is a bounded multiset of prioritised values, for priorities below
      [2 ^ 31]; they are proved from those of the heap with the comparator
      [libhl_cmp_keys_uint64], whose order is [cmp_keys_uint64_difference];
    - [RbtreeSpec.rbt_refines_dict]: a red-black tree is a sorted dictionary,
      for any comparator that is an order, under additions, lookups and walks;
      [rbt_add_red_black]: an addition keeps the order and the colours, so the
      height is logarithmic; [rbt_add_any_tree] needs no colours;
      [rbt_remove_deletes]: a removal, where the tree is left well linked
      ([clean_removal]), deletes the key and nothing else;
      [rbt_walk_visits] and [rbt_destroy_frees];
    - [AvltreeSpec.avlt_refines_dict]: an AVL tree is a sorted dictionary when
      a new node takes over a subtree on one side of its key;
      [avlt_add_balanced]: an addition keeps the heights right and balanced, in
      any tree; [avlt_balance_terminates], [avlt_add_inserts],
      [avlt_remove_deletes], [avlt_walk_visits] and [avlt_destroy_frees];
    - [SkiplistSpec.skiplist_refines_dict], [skiplist_destroy_frees]: a skip
      list of one or two layers is a sorted dictionary when no key comes before
      the first;
    - [GraphSpec.graph_refines_nodes], [graph_destroy_frees],
      [graph_node_next_chooses]: a graph is a set of labelled nodes with
      connections in order; they are proved from what the hash table promises;
    - [RqueueSpec.rqueue_refines_bounded_queue], [rqueue_destroy_frees]: used by
      one thread, with values that are not null, a ring queue is a bounded
      queue, which refuses a value or drops the oldest one when it is full;
    - [RefcntSpec.refcnt_refines_objects], [refcnt_destroy_frees]: the count of
      an object is the number of registers and links that refer to it, for
      thresholds [t] with [t + t / 2] at most [INT_MAX] and fewer than
      [INT_MAX] places; an object is terminated when the last one is gone, and
      freed later;
    - [QueueSpec.queue_refines_deque], [queue_destroy_frees]: used by one
      thread, a linked queue is a double-ended queue, and nothing is left of it
      when it is destroyed.  Its theorems use those of the counters, and both
      use the ring queue through [PtrQueueLaws] only.

    A second group of theorems shows, on concrete or general states, where the
    code does something else than its documentation or its purpose: reads
    past the written bytes ([rbuf_find_overread]), growth and shrinking that do
    not end ([fbuf_extend_diverges], [fbuf_shrink_diverges]), a traversal that skips
    entries it should visit ([list_foreach_remove_half]), values lost after an
    unset ([ht_set_after_unset_lost]), a bucket computed for a table that
    another thread has grown ([ht_get_list_stale_index]), a bucket that a
    growing table loses ([ht_set_list_lost_bucket]), a trie without its root
    ([trie_remove_root_dangling]), a freed copy handed out
    ([trie_remove_copy_dangling]), a least item that is not the least
    ([binheap_minimum_not_least]), merged heaps whose nodes belong to the old
    ones ([binheap_merge_stale_nodes]), a removal that never removes
    ([pqueue_remove_nothing]), priorities that are truncated
    ([pqueue_priorities_truncated]), the root of a tree that is freed and kept
    ([rbt_remove_root_dangling]), a parent pointer to a freed node
    ([rbt_remove_stale_parent]), keys lost with the one removed
    ([rbt_remove_loses_others]), a walk that does not stop or does not remove
    ([rbt_walk_stop_goes_on], [rbt_walk_keeps_deleted]), an AVL tree out of
    order or with a key twice ([avlt_add_misorders], [avlt_add_duplicates]),
    walks over freed nodes ([avlt_walk_reads_removed]), an item of a skip list
    in the wrong place or used after it was freed
    ([skiplist_insert_first_misplaced], [skiplist_destroy_use_after_free]), a
    probability that is inverted ([skiplist_toss_inverted]), a deletion from a
    graph that dereferences null ([graph_node_delete_null]), a connection to a
    freed node ([graph_node_add_dangling]), messages shifted by one
    ([graph_strerror_shifted]), a shift that overflows
    ([rqueue_backoff_overflows]), a null value that a ring queue loses
    ([rqueue_write_null]), a count of 0 without termination
    ([compare_and_swap_ref_drops_last]), a free list smaller than its threshold
    ([free_list_too_small]), an insertion that dereferences null without memory
    ([queue_push_no_memory]), values behind a null one that are not cleared
    ([queue_clear_stops_at_null]).

    ** Files

    [Prelude] has the outcomes, the loops, the machine integers, the blocks of
    bytes, the state monad with its rules, and the tactics: [go] runs the head
    of a [returns] goal symbolically and discharges the side conditions of
    checked arithmetic, [case_if] and [bool_prop] split the tests of the code,
    [len] does the arithmetic of list lengths, [pointwise] proves lists equal
    index by index.  Each component file has its data and operations, then its
    lemmas, then its theorems with a witness each; the larger ones are split
    as listed above.
    [Hashtable] uses [Linklist] for its lists of keys and values, [Binheap] for
    its roots; [Trie] uses its heap; [Pqueue] uses [Binheap].  [Rbtree] and
    [Avltree] use the store of [Ptree] and [Comparators], [Skiplist] uses
    [Comparators], [Graph] uses [Hashtable], [Refcnt] and [Queue] use [PtrQueue].

    ** Not modelled

    - Hash table with several threads: the operations of [Hashtable] run one at
      a time; the step relation of [HtStatus] covers the status word, and the
      two races there interleave the parts of [ht_get_list] and [ht_set_list]
      with whole operations of another thread.
    - Trie: the refinement is for values stored by reference; the bytes of
      values stored with [copy] are modelled, with the concrete theorem
      [trie_remove_copy_dangling] only.
    - Binomial heap: the refinement is for one heap in the store of nodes, with
      allocations that succeed, and covers insertion, both ends, deletion by
      key and counting.  Merging, changing the key of an end and walks that
      remove are modelled; for them there are the concrete theorems above
      only, because they break the invariant.  The comparators and callbacks
      for float and double are not modelled.
    - Red-black tree: every removal is modelled, but its positive theorem is
      for the removals that leave the tree well linked; for the others there
      are concrete theorems of what goes wrong.  The printing of a tree
      ([DEBUG_RBTREE]) is not modelled.
    - AVL tree: the printing of a tree ([DEBUG_AVLT]) and the default
      comparator, which nothing calls.
    - Ring queue, reference counters and linked queue with several threads: a
      compare and swap is a test and an assignment, and waiting for another
      thread diverges.  The text of [rqueue_stats] is not modelled.
    - The macros of atomic_defs.h are modelled where they are used; the list
      macros of bsd_queue.h are vendored: those that the skip list uses are
      modelled with their links, and the lists of the hash table and of the
      graph as the sequences they implement.
    - Tests and build files. *)

From stdpp Require Export base tactics numbers list list_numbers gmap.

#[global] Open Scope Z_scope.

(** ** Outcomes of running C code

    [Ret a]: the code returns [a].  [Undef]: it executes an operation with
    undefined behaviour (an access outside a live block, a use of an
    indeterminate byte, a signed overflow, a null dereference, a double
    free).  [Diverge]: a loop does not terminate. *)

Inductive outcome (A : Type) : Type :=
  | Ret (a : A)
  | Undef
  | Diverge.
Arguments Ret {A} a.
Arguments Undef {A}.
Arguments Diverge {A}.

#[global] Instance outcome_ret : MRet outcome := @Ret.
#[global] Instance outcome_bind : MBind outcome := λ A B f m,
  match m with Ret a => f a | Undef => Undef | Diverge => Diverge end.
#[global] Instance outcome_fmap : FMap outcome := λ A B f m,
  match m with Ret a => Ret (f a) | Undef => Undef | Diverge => Diverge end.

(** [returns m Q]: [m] has defined behaviour, terminates, and its result
    satisfies [Q] (total correctness). *)
Definition returns {A} (m : outcome A) (Q : A → Prop) : Prop :=
  match m with Ret a => Q a | _ => False end.

Lemma returns_Ret {A} (a : A) Q : returns (Ret a) Q ↔ Q a.
Proof. done. Qed.
Lemma returns_mret {A} (a : A) Q : returns (mret a) Q ↔ Q a.
Proof. done. Qed.
Lemma returns_bind {A B} (m : outcome A) (f : A → outcome B) Q :
  returns (m ≫= f) Q ↔ returns m (λ a, returns (f a) Q).
Proof. by destruct m. Qed.
Lemma bind_Ret {A B} (a : A) (f : A → outcome B) : Ret a ≫= f = f a.
Proof. done. Qed.
Lemma bind_Undef {A B} (f : A → outcome B) : Undef ≫= f = Undef.
Proof. done. Qed.
Lemma returns_fmap {A B} (f : A → B) (m : outcome A) Q :
  returns (f <$> m) Q ↔ returns m (λ a, Q (f a)).
Proof. by destruct m. Qed.
Lemma returns_mono {A} (m : outcome A) (P Q : A → Prop) :
  returns m P → (∀ a, P a → Q a) → returns m Q.
Proof. destruct m; simpl; auto. Qed.
Lemma returns_inv {A} (m : outcome A) Q : returns m Q → ∃ a, m = Ret a ∧ Q a.
Proof. destruct m; simpl; [eauto|done|done]. Qed.
Lemma returns_eq {A} (m : outcome A) a : m = Ret a → returns m (λ x, x = a).
Proof. by intros ->. Qed.
Lemma returns_if {A} (b : bool) (m1 m2 : outcome A) Q :
  (b = true → returns m1 Q) → (b = false → returns m2 Q) →
  returns (if b then m1 else m2) Q.
Proof. destruct b; auto. Qed.

(** [check b] continues when [b] holds and is undefined behaviour otherwise. *)
Definition check (b : bool) : outcome unit := if b then Ret tt else Undef.

Lemma returns_check (b : bool) Q : b = true → Q tt → returns (check b) Q.
Proof. by intros ->. Qed.

(** ** Loops

    A loop body maps the loop variables either to new ones ([inl]) or to the
    value the loop exits with ([inr]).  [loop] runs it for at most [2 ^ 64]
    iterations: [loop_pow n] makes [2 ^ n] of them, so the fuel is the small
    number [64] and evaluation stops as soon as the body exits.  The loops of
    the program range over 32-bit counters or over the blocks of a 64-bit
    address space, so a loop that is still running after [2 ^ 64] iterations
    has repeated a state. *)

Section loop.
Context {X R : Type} (body : X → outcome (X + R)).

Fixpoint loop_pow (n : nat) (x : X) : outcome (X + R) :=
  match n with
  | O => body x
  | S n =>
      r ← loop_pow n x;
      match r with inl x' => loop_pow n x' | inr v => Ret (inr v) end
  end.

Definition loop (x : X) : outcome R :=
  r ← loop_pow 64 x;
  match r with inl _ => Diverge | inr v => Ret v end.

Context (I : X → Prop) (μ : X → Z) (Q : R → Prop).
Context (Hbody : ∀ x, I x → 0 ≤ μ x →
  returns (body x) (λ r,
    match r with inl x' => I x' ∧ 0 ≤ μ x' < μ x | inr v => Q v end)).

Lemma loop_pow_returns n x :
  I x → 0 ≤ μ x →
  returns (loop_pow n x) (λ r,
    match r with
    | inl x' => I x' ∧ 0 ≤ μ x' ≤ μ x - 2 ^ Z.of_nat n
    | inr v => Q v
    end).
Proof using Hbody.
  revert x; induction n as [|n IH]; intros x Hx Hμ; simpl loop_pow.
  - eapply returns_mono; [by apply Hbody|].
    intros [x'|v]; [|done]. intros [??]. split; [done|]. simpl. lia.
  - apply returns_bind. eapply returns_mono; [by apply IH|].
    intros [x'|v]; [|done]. intros [? ?].
    eapply returns_mono; [apply IH; [done|lia]|].
    intros [x''|v]; [|done]. intros [??]. split; [done|].
    rewrite Nat2Z.inj_succ, Z.pow_succ_r by lia. lia.
Qed.

(** Total correctness of a loop: an invariant and a decreasing measure. *)
Lemma loop_returns x : I x → 0 ≤ μ x < 2 ^ 64 → returns (loop x) Q.
Proof using Hbody.
  intros Hx Hμ. unfold loop. apply returns_bind.
  eapply returns_mono; [apply loop_pow_returns; [done|lia]|].
  intros [x'|v]; [|done]. simpl. lia.
Qed.
End loop.

(** Runs of a loop, by the number of iterations before it exits: a
    traversal is proved by induction over what it traverses. *)
Inductive runs {X R} (body : X → outcome (X + R)) : X → Z → R → Prop :=
  | runs_exit x v : body x = Ret (inr v) → runs body x 0 v
  | runs_step x x' n v :
      body x = Ret (inl x') → runs body x' n v → runs body x (n + 1) v.

Section runs.
Context {X R : Type} (body : X → outcome (X + R)).

Lemma runs_nonneg x m v : runs body x m v → 0 ≤ m.
Proof. induction 1; lia. Qed.

Lemma runs_loop_pow n x m v :
  runs body x m v →
  (m < 2 ^ Z.of_nat n ∧ loop_pow body n x = Ret (inr v)) ∨
  (∃ x', loop_pow body n x = Ret (inl x') ∧ runs body x' (m - 2 ^ Z.of_nat n) v).
Proof.
  revert x m. induction n as [|n IH]; intros x m Hr; simpl loop_pow.
  - destruct Hr as [x v Hb|x x' m v Hb Hr]; [left; done|right].
    exists x'. split; [done|]. by replace (m + 1 - _) with m by (simpl; lia).
  - rewrite Nat2Z.inj_succ, Z.pow_succ_r by lia.
    destruct (IH x m Hr) as [[? ->]|(x1&->&Hr1)]; [left; split; [lia|done]|].
    simpl. destruct (IH x1 _ Hr1) as [[? ->]|(x2&->&Hr2)].
    + left. split; [lia|done].
    + right. exists x2. split; [done|].
      by replace (m - 2 * _) with (m - 2 ^ Z.of_nat n - 2 ^ Z.of_nat n) by lia.
Qed.

Lemma runs_loop x m v : runs body x m v → m < 2 ^ 64 → loop body x = Ret v.
Proof.
  intros Hr Hm. unfold loop.
  destruct (runs_loop_pow 64 x m v Hr) as [[_ ->]|(x'&_&Hr')]; [done|].
  apply runs_nonneg in Hr'. simpl in Hr'. lia.
Qed.
End runs.

(** A loop that is undefined from its first iteration. *)
Lemma loop_undef {X R} (body : X → outcome (X + R)) x : body x = Undef → loop body x = Undef.
Proof.
  intros Hb. unfold loop. generalize 64%nat. intros n.
  assert (loop_pow body n x = Undef) as ->; [|done].
  induction n as [|n IH]; simpl; [done|]. by rewrite IH.
Qed.

(** A loop whose body keeps an invariant and never exits diverges. *)
Lemma loop_diverges {X R} (body : X → outcome (X + R)) (I : X → Prop) x :
  (∀ x, I x → ∃ x', body x = Ret (inl x') ∧ I x') → I x →
  loop body x = Diverge.
Proof.
  intros Hb Hx. unfold loop. generalize 64%nat; intros n.
  enough (∃ x', loop_pow body n x = Ret (inl x') ∧ I x') as (x'&->&_) by done.
  revert x Hx; induction n as [|n IH]; intros x Hx; simpl; [by apply Hb|].
  destruct (IH x Hx) as (x1&->&Hx1). simpl. by apply IH.
Qed.

#[global] Opaque loop.

(** ** Machine integers *)

Definition INT_MIN : Z := -2147483648.
Definition INT_MAX : Z := 2147483647.
Definition UINT_MAX : Z := 4294967295.

(** The result of a signed [int] operation: overflow is undefined. *)
Definition int32 (z : Z) : outcome Z :=
  if (INT_MIN <=? z) && (z <=? INT_MAX) then Ret z else Undef.

(** Unsigned 32-bit and 64-bit arithmetic wraps around. *)
Definition u32 (z : Z) : Z := z mod 2 ^ 32.
Definition u64 (z : Z) : Z := z mod 2 ^ 64.

(** An [unsigned int] converted to [int]. *)
Definition as_int (z : Z) : Z := if z <=? INT_MAX then z else z - 2 ^ 32.

Lemma returns_int32 z Q : INT_MIN ≤ z ≤ INT_MAX → Q z → returns (int32 z) Q.
Proof.
  intros [??] HQ. unfold int32.
  by rewrite (proj2 (Z.leb_le _ _)), (proj2 (Z.leb_le _ _)) by done.
Qed.
Lemma as_int_small z : 0 ≤ z ≤ INT_MAX → as_int z = z.
Proof. intros [_ ?]. unfold as_int. by rewrite (proj2 (Z.leb_le _ _)). Qed.
Lemma as_int_le z : as_int z ≤ z.
Proof. unfold as_int. destruct (z <=? INT_MAX); lia. Qed.
Lemma u32_small z : 0 ≤ z < 2 ^ 32 → u32 z = z.
Proof. apply Z.mod_small. Qed.
Lemma u64_small z : 0 ≤ z < 2 ^ 64 → u64 z = z.
Proof. apply Z.mod_small. Qed.
Lemma as_int_u32 z : INT_MIN ≤ z ≤ INT_MAX → as_int (u32 z) = z.
Proof.
  unfold INT_MIN, INT_MAX. intros ?. destruct (decide (0 ≤ z)).
  - rewrite u32_small by lia. apply as_int_small. unfold INT_MAX. lia.
  - unfold u32. rewrite <- (Z_mod_plus_full z 1), Z.mod_small by lia.
    unfold as_int, INT_MAX. destruct (Z.leb_spec (z + 1 * 2 ^ 32) 2147483647); lia.
Qed.
Lemma u32_range z : 0 ≤ u32 z < 2 ^ 32.
Proof. by apply Z.mod_pos_bound. Qed.
Lemma u64_range z : 0 ≤ u64 z < 2 ^ 64.
Proof. by apply Z.mod_pos_bound. Qed.

(** ** Byte blocks

    A block of bytes is a list of cells; [None] is a byte that was never
    written (fresh from [malloc]).  A use of such a byte in a decision of
    the code is [Undef]; copying it is not. *)

Abbreviation cell := (option Z).
Abbreviation block := (list cell).

Definition read_cell (b : block) (i : Z) : outcome Z :=
  if (0 <=? i) && (i <? Z.of_nat (length b)) then
    match b !!! Z.to_nat i with Some v => Ret v | None => Undef end
  else Undef.

Definition in_block (b : block) (off len : Z) : bool :=
  (0 <=? off) && (0 <=? len) && (off + len <=? Z.of_nat (length b)).

(** The cells [off .. off+len-1], undefined when they are not all in [b]. *)
Definition read_range (b : block) (off len : Z) : outcome block :=
  if in_block b off len
  then Ret (take (Z.to_nat len) (drop (Z.to_nat off) b)) else Undef.

(** [overwrite b n s] is [b] with [s] written from index [n]. *)
Definition overwrite (b : block) (n : nat) (s : block) : block :=
  take n b ++ s ++ drop (n + length s) b.

Definition write_range (b : block) (off : Z) (s : block) : outcome block :=
  if in_block b off (Z.of_nat (length s))
  then Ret (overwrite b (Z.to_nat off) s) else Undef.

(** [memcpy(dst + doff, src + soff, len)] between two blocks; [memmove] is
    the same with [src = dst]. *)
Definition memcpy (dst : block) (doff : Z) (src : block) (soff len : Z) :
    outcome block :=
  s ← read_range src soff len;
  write_range dst doff s.

Definition bytes (l : list Z) : block := Some <$> l.

Lemma read_cell_Ret b i v :
  0 ≤ i → b !! Z.to_nat i = Some (Some v) → read_cell b i = Ret v.
Proof.
  intros Hi Hb. unfold read_cell. pose proof (lookup_lt_Some _ _ _ Hb).
  rewrite (proj2 (Z.leb_le _ _)), (proj2 (Z.ltb_lt _ _)) by lia. simpl.
  by rewrite (list_lookup_total_correct _ _ _ Hb).
Qed.
Lemma int32_Ret z : INT_MIN ≤ z ≤ INT_MAX → int32 z = Ret z.
Proof.
  intros ?. destruct (returns_inv (int32 z) (λ x, x = z)) as (?&->&->); [|done].
  by apply returns_int32.
Qed.

Lemma in_block_true b off len :
  in_block b off len = true ↔
  0 ≤ off ∧ 0 ≤ len ∧ off + len ≤ Z.of_nat (length b).
Proof. unfold in_block. rewrite !andb_true_iff, !Z.leb_le. tauto. Qed.

Lemma returns_read_range b off len Q :
  0 ≤ off → 0 ≤ len → off + len ≤ Z.of_nat (length b) →
  Q (take (Z.to_nat len) (drop (Z.to_nat off) b)) →
  returns (read_range b off len) Q.
Proof.
  intros ??? HQ. unfold read_range.
  by rewrite (proj2 (in_block_true b off len)) by lia.
Qed.

Lemma returns_write_range b off s Q :
  0 ≤ off → off + Z.of_nat (length s) ≤ Z.of_nat (length b) →
  Q (overwrite b (Z.to_nat off) s) → returns (write_range b off s) Q.
Proof.
  intros ?? HQ. unfold write_range.
  by rewrite (proj2 (in_block_true b off _)) by lia.
Qed.

Lemma returns_memcpy dst doff src soff len Q :
  0 ≤ doff → 0 ≤ soff → 0 ≤ len →
  doff + len ≤ Z.of_nat (length dst) → soff + len ≤ Z.of_nat (length src) →
  Q (overwrite dst (Z.to_nat doff)
       (take (Z.to_nat len) (drop (Z.to_nat soff) src))) →
  returns (memcpy dst doff src soff len) Q.
Proof.
  intros ????? HQ. unfold memcpy. apply returns_bind.
  apply returns_read_range; [done..|].
  apply returns_write_range; [done| |done].
  rewrite length_take, length_drop. lia.
Qed.

Lemma length_overwrite b n s :
  (n + length s ≤ length b)%nat → length (overwrite b n s) = length b.
Proof.
  intros ?. unfold overwrite. rewrite !length_app, length_take, length_drop. lia.
Qed.

(** Pointwise view of an overwritten block. *)
Lemma lookup_overwrite b n s i :
  (n + length s ≤ length b)%nat →
  overwrite b n s !! i =
    if decide (n ≤ i < n + length s)%nat then s !! (i - n)%nat else b !! i.
Proof.
  intros ?. unfold overwrite. case_decide.
  - rewrite lookup_app_r by (rewrite length_take; lia).
    rewrite length_take, Nat.min_l by lia. by rewrite lookup_app_l by lia.
  - destruct (decide (i < n)%nat).
    + rewrite lookup_app_l by (rewrite length_take; lia).
      by rewrite lookup_take_lt by lia.
    + rewrite lookup_app_r by (rewrite length_take; lia).
      rewrite length_take, Nat.min_l by lia.
      rewrite lookup_app_r by lia. rewrite lookup_drop. f_equal. lia.
Qed.

(** Two writes next to each other are one write. *)
Lemma overwrite_app b n s t :
  (n + length s + length t ≤ length b)%nat →
  overwrite (overwrite b n s) (n + length s) t = overwrite b n (s ++ t).
Proof.
  intros ?. apply list_eq; intros i.
  rewrite !lookup_overwrite by (rewrite ?length_overwrite, ?length_app; lia).
  rewrite length_app. repeat case_decide; try lia; [| |done].
  - rewrite lookup_app_r by lia. f_equal; lia.
  - by rewrite lookup_app_l by lia.
Qed.

(** What was written at the start can be read back. *)
Lemma take_overwrite b s :
  (length s ≤ length b)%nat → take (length s) (overwrite b 0 s) = s.
Proof.
  intros ?. unfold overwrite. simpl. apply take_app_length.
Qed.

Lemma lookup_take_drop {A} (l : list A) n m i :
  (take n (drop m l)) !! i = if decide (i < n)%nat then l !! (m + i)%nat else None.
Proof.
  case_decide; [rewrite lookup_take_lt, lookup_drop by lia; done|].
  by rewrite lookup_take_ge by lia.
Qed.

Lemma delete_ge {A} (l : list A) i : (length l ≤ i)%nat → delete i l = l.
Proof. intros ?. by rewrite delete_take_drop, take_ge, drop_ge, app_nil_r by lia. Qed.

(** [malloc(n)]: the allocator either fails or returns a block of [n] bytes
    that are not initialised.  [n] is a [size_t]; no object is larger than
    [PTRDIFF_MAX]. *)
Definition malloc (ok : bool) (n : Z) : option block :=
  if ok && (n <? 2 ^ 63) then Some (replicate (Z.to_nat n) None) else None.

(** ** Stateful code

    [ST W A]: code that reads and changes a state [W] (the globals, the heap,
    the environment's answers) and returns an [A]. *)

Definition ST (W A : Type) : Type := W → outcome (A * W).

#[global] Instance st_ret W : MRet (ST W) := λ A a w, Ret (a, w).
#[global] Instance st_bind W : MBind (ST W) := λ A B f m w,
  '(a, w') ← m w; f a w'.

Definition lift {W A} (m : outcome A) : ST W A := λ w, a ← m; Ret (a, w).
Definition gets {W A} (f : W → A) : ST W A := λ w, Ret (f w, w).
Definition modify {W} (f : W → W) : ST W unit := λ w, Ret (tt, f w).
Definition undef {W A} : ST W A := λ _, Undef.

(** A loop whose body is stateful. *)
Definition loop_body {W X R} (body : X → ST W (X + R)) (xw : X * W) :
    outcome ((X * W) + (R * W)) :=
  '(r, w') ← body xw.1 xw.2;
  Ret (match r with inl x' => inl (x', w') | inr v => inr (v, w') end).
Definition loopS {W X R} (body : X → ST W (X + R)) (x : X) : ST W R :=
  λ w, loop (loop_body body) (x, w).

Lemma returns_st_ret {W A} (a : A) (w : W) Q :
  returns ((mret a : ST W A) w) Q ↔ Q (a, w).
Proof. done. Qed.
Lemma returns_st_bind {W A B} (m : ST W A) (f : A → ST W B) w Q :
  returns ((m ≫= f) w) Q ↔ returns (m w) (λ '(a, w'), returns (f a w') Q).
Proof.
  unfold mbind at 1, st_bind. rewrite returns_bind. by destruct (m w) as [[]| |].
Qed.
Lemma returns_lift {W A} (m : outcome A) (w : W) Q :
  returns (lift m w) Q ↔ returns m (λ a, Q (a, w)).
Proof. unfold lift. by rewrite returns_bind. Qed.
Lemma returns_gets {W A} (f : W → A) w Q : returns (gets f w) Q ↔ Q (f w, w).
Proof. done. Qed.
Lemma returns_modify {W} (f : W → W) w Q : returns (modify f w) Q ↔ Q (tt, f w).
Proof. done. Qed.
Lemma st_bind_Ret {W A B} (m : ST W A) (f : A → ST W B) w a w' :
  m w = Ret (a, w') → (m ≫= f) w = f a w'.
Proof. intros Hm. unfold mbind, st_bind. by rewrite Hm. Qed.

Lemma st_bind_Undef {W A B} (m : ST W A) (f : A → ST W B) w : m w = Undef → (m ≫= f) w = Undef.
Proof. intros Hm. unfold mbind, st_bind. by rewrite Hm. Qed.

(** A computation whose result is known. *)
Lemma returns_exact {A} (m : outcome A) a : returns m (λ x, x = a) → m = Ret a.
Proof. intros Hm. apply returns_inv in Hm as (x&->&->). done. Qed.
Lemma returns_Ret_at {W A} (m : ST W A) a w Q : m w = Ret (a, w) → Q (a, w) → returns (m w) Q.
Proof. by intros ->. Qed.
Lemma returns_Ret_to {W A} (m : ST W A) a w w' Q : m w = Ret (a, w') → Q (a, w') → returns (m w) Q.
Proof. by intros ->. Qed.

(** Total correctness of a stateful loop. *)
Lemma loopS_returns {W X R} (body : X → ST W (X + R))
    (I : X → W → Prop) (μ : X → W → Z) (Q : R * W → Prop) x w :
  (∀ x w, I x w → 0 ≤ μ x w →
    returns (body x w) (λ '(r, w'),
      match r with inl x' => I x' w' ∧ 0 ≤ μ x' w' < μ x w | inr v => Q (v, w') end)) →
  I x w → 0 ≤ μ x w < 2 ^ 64 → returns (loopS body x w) Q.
Proof.
  intros Hb Hx Hμ. unfold loopS.
  apply (loop_returns _ (λ '(x, w), I x w) (λ '(x, w), μ x w)); [|done..].
  intros [x' w'] HI Hμ'. unfold loop_body. apply returns_bind. simpl.
  eapply returns_mono; [by apply Hb|]. by intros [[x''|v] w''].
Qed.

(** A loop that exits in its first iteration, or in its second. *)
Lemma returns_loopS_exit {W X R} (body : X → ST W (X + R)) x w Q :
  returns (body x w) (λ '(r, w'), match r with inl _ => False | inr v => Q (v, w') end) →
  returns (loopS body x w) Q.
Proof.
  intros Hb. apply returns_inv in Hb as ([[x'|v] w']&Hb&HQ); [done|].
  unfold loopS. rewrite (runs_loop _ _ 0 (v, w')); [done| |done].
  apply runs_exit. unfold loop_body. simpl. by rewrite Hb.
Qed.
Lemma returns_loopS_second {W X R} (body : X → ST W (X + R)) x w Q :
  returns (body x w) (λ '(r, w'), match r with
    | inl x' => returns (body x' w') (λ '(r, w''), match r with inl _ => False | inr v => Q (v, w'') end)
    | inr v => False
    end) →
  returns (loopS body x w) Q.
Proof.
  intros Hb. apply returns_inv in Hb as ([[x'|v] w']&Hb&Hb2); [|done].
  apply returns_inv in Hb2 as ([[x''|v] w'']&Hb2&HQ); [done|].
  unfold loopS. rewrite (runs_loop _ _ (0 + 1) (v, w'')); [done| |done].
  eapply runs_step; [|apply runs_exit]; unfold loop_body; simpl; [by rewrite Hb|]. simpl. by rewrite Hb2.
Qed.

(** ** Maps

    The keys of a map in which a key is inserted. *)

Lemma lookup_insert_dom {A} (N : gmap Z A) k x p :
  is_Some (N !! k) → is_Some (<[k := x]> N !! p) ↔ is_Some (N !! p).
Proof.
  intros Hk. destruct (decide (p = k)) as [->|Hp]; [|by rewrite lookup_insert_ne].
  rewrite lookup_insert_eq. split; [done|by eexists].
Qed.

Lemma lookup_insert_mono {A} (N : gmap Z A) k x p : is_Some (N !! p) → is_Some (<[k := x]> N !! p).
Proof. intros Hp. rewrite lookup_insert. by case_decide. Qed.

(** ** Automation

    [go] symbolically executes the head of a [returns] goal: binds, returns,
    checked arithmetic and block accesses, leaving the side conditions [lia]
    cannot prove. *)

Ltac int_bounds := unfold INT_MIN, INT_MAX, UINT_MAX in *.

(** Reduction of the binds whose left-hand side is known. *)
Ltac run_bind := repeat (rewrite bind_Ret; cbv beta iota zeta).

Ltac go_step :=
  lazymatch goal with
  | |- returns (Ret _) _ => apply returns_Ret
  | |- returns (mret _) _ => apply returns_mret
  | |- returns (_ ≫= _) _ => apply returns_bind
  | |- returns (_ <$> _) _ => apply returns_fmap
  | |- returns (mret _ _) _ => apply returns_st_ret
  | |- returns ((_ ≫= _) _) _ => apply returns_st_bind
  | |- returns (lift _ _) _ => apply returns_lift
  | |- returns (gets _ _) _ => apply returns_gets
  | |- returns (modify _ _) _ => apply returns_modify
  | |- returns (int32 _) _ => apply returns_int32; [int_bounds; lia|]
  | |- returns (check _) _ => apply returns_check; [lia|]
  | |- returns (memcpy _ _ _ _ _) _ => apply returns_memcpy; [lia..|]
  | |- returns (read_range _ _ _) _ => apply returns_read_range; [lia..|]
  | |- returns (write_range _ _ _) _ =>
      apply returns_write_range; [lia|simpl; lia|]
  end.
Ltac go := cbn [andb orb negb]; cbv beta iota zeta; repeat (go_step; cbv beta iota zeta).

(** Case analysis on the Boolean tests of the code, as propositions. *)
Ltac bool_prop :=
  repeat match goal with
  | H : (_ && _) = true |- _ => apply andb_true_iff in H as [? ?]
  | H : (_ || _) = false |- _ => apply orb_false_iff in H as [? ?]
  | H : negb _ = true |- _ => apply negb_true_iff in H
  | H : negb _ = false |- _ => apply negb_false_iff in H
  | H : (_ <? _) = true |- _ => apply Z.ltb_lt in H
  | H : (_ <? _) = false |- _ => apply Z.ltb_ge in H
  | H : (_ <=? _) = true |- _ => apply Z.leb_le in H
  | H : (_ <=? _) = false |- _ => apply Z.leb_gt in H
  | H : (_ =? _) = true |- _ => apply Z.eqb_eq in H
  | H : (_ =? _) = false |- _ => apply Z.eqb_neq in H
  end.

Ltac case_if :=
  lazymatch goal with
  | |- context [if ?b then _ else _] =>
      let E := fresh "E" in destruct b eqn:E; bool_prop
  end.

(** Arithmetic on the lengths of blocks. *)
Ltac len :=
  repeat first
    [ progress rewrite ?length_take, ?length_drop, ?length_app,
        ?length_replicate, ?length_fmap, ?length_insert
    | rewrite length_overwrite by len ];
  simpl length; lia.

(** Equality of two lists, index by index. *)
Ltac pointwise i := apply list_eq; intros i.
