(* ===== verification/Rbuf.v ===== *)
(** * Byte-oriented ring buffers (src/src/rbuf.c)

    [rbuf_t] is the C structure, with the malloc'd byte array as a block of
    cells; each operation is the C function with the same name, its [int]
    arithmetic checked for overflow and its [memcpy] calls checked against
    the bounds of the blocks.  [contents] is the abstraction: the bytes
    waiting to be read, oldest first.  The theorems show that, on a
    well-formed buffer, the operations are those of a bounded byte queue. *)

From S2P Require Import Prelude.

Definition RBUF_DEFAULT_SIZE : Z := 4096.
Definition RBUF_MODE_BLOCKING : Z := 0.
Definition RBUF_MODE_OVERWRITE : Z := 1.

Record rbuf_t := mk_rbuf {
  rb_buf : block;   (* the buffer *)
  rb_size : Z;      (* buffer size *)
  rb_used : Z;      (* used size *)
  rb_rfx : Z;       (* read offset *)
  rb_wfx : Z;       (* write offset *)
  rb_mode : Z       (* the ringbuffer mode (blocking/overwrite) *)
}.

(** ** The operations *)

(** [rbuf_create]: the two Booleans say whether [calloc] and [malloc]
    succeed; [None] is the null pointer. *)
Definition rbuf_create (calloc_ok malloc_ok : bool) (size : Z) : option rbuf_t :=
  if negb calloc_ok then None
  else
    let new_size := if size =? 0 then RBUF_DEFAULT_SIZE else size in
    match malloc malloc_ok (u64 new_size) with
    | None => None
    | Some b => Some (mk_rbuf b new_size 0 0 0 0)
    end.

Definition rbuf_set_mode (rb : rbuf_t) (mode : Z) : rbuf_t :=
  mk_rbuf (rb_buf rb) (rb_size rb) (rb_used rb) (rb_rfx rb) (rb_wfx rb) mode.

Definition rbuf_mode (rb : rbuf_t) : Z := rb_mode rb.

(** The buffer with other offsets and another fill count. *)
Definition rbuf_upd (rb : rbuf_t) (b : block) (used rfx wfx : Z) : rbuf_t :=
  mk_rbuf b (rb_size rb) used rfx wfx (rb_mode rb).

Definition rbuf_skip (rb : rbuf_t) (size : Z) : outcome rbuf_t :=
  if rb_used rb <=? size then
    (* just empty the ringbuffer *)
    Ret (rbuf_upd rb (rb_buf rb) 0 (rb_wfx rb) (rb_wfx rb))
  else
    used ← int32 (rb_used rb - size);
    to_end ← int32 (rb_size rb - rb_rfx rb);
    rfx ← (if to_end <? size then int32 (size - to_end)
           else int32 (rb_rfx rb + size));
    Ret (rbuf_upd rb (rb_buf rb) used rfx (rb_wfx rb)).

(** [rbuf_read(rb, out + ooff, size)]: the updated buffer, the caller's
    memory and the number of bytes read. *)
Definition rbuf_read (rb : rbuf_t) (out : block) (ooff : Z) (size : Z) :
    outcome (rbuf_t * block * Z) :=
  let read_size := if rb_used rb <? size then rb_used rb else size in
  to_end ← int32 (rb_size rb - rb_rfx rb);
  '(out, rfx) ←
    (if to_end <? read_size then (* check if we need to wrap around *)
       out ← memcpy out ooff (rb_buf rb) (rb_rfx rb) to_end;
       start_size ← int32 (read_size - to_end);
       out ← memcpy out (ooff + to_end) (rb_buf rb) 0 start_size;
       Ret (out, start_size)
     else
       out ← memcpy out ooff (rb_buf rb) (rb_rfx rb) read_size;
       rfx ← int32 (rb_rfx rb + read_size);
       Ret (out, rfx));
  used ← int32 (rb_used rb - read_size);
  Ret (rbuf_upd rb (rb_buf rb) used rfx (rb_wfx rb), out, read_size).

(** The part of [rbuf_write] after the mode has been dealt with: [write_size]
    bytes of [inp] are stored at the write offset, whose distance to the end
    of the array is [to_end]. *)
Definition rbuf_store (rb : rbuf_t) (inp : block) (to_end write_size : Z) :
    outcome (rbuf_t * Z) :=
  '(b, wfx) ←
    (if to_end <? write_size then
       b ← memcpy (rb_buf rb) (rb_wfx rb) inp 0 to_end;
       from_start ← int32 (write_size - to_end);
       b ← memcpy b 0 inp to_end from_start;
       Ret (b, from_start)
     else
       b ← memcpy (rb_buf rb) (rb_wfx rb) inp 0 write_size;
       wfx ← int32 (rb_wfx rb + write_size);
       Ret (b, wfx));
  used ← int32 (rb_used rb + write_size);
  Ret (rbuf_upd rb b used (rb_rfx rb) wfx, write_size).

(** [rbuf_write(rb, in, size)]; [None] is a null [rb] or [in]. *)
Definition rbuf_write (orb : option rbuf_t) (oin : option block) (size : Z) :
    outcome (option rbuf_t * Z) :=
  match orb, oin with
  | Some rb, Some inp =>
    if size =? 0 then Ret (orb, 0) else
    available_size ← int32 (rb_size rb - rb_used rb);
    to_end ← int32 (rb_size rb - rb_wfx rb);
    let write_size := if available_size <? size then available_size else size in
    if (write_size <? size) && (rb_mode rb =? RBUF_MODE_OVERWRITE) then
      if rb_size rb <? size then
        (* only the last chunk will be actually stored *)
        let write_size := rb_size rb in
        off ← int32 (size - write_size);
        b ← memcpy (rb_buf rb) 0 inp off write_size;
        Ret (Some (rbuf_upd rb b write_size 0 0), size)
      else
        (* make some space by advancing the read offset *)
        diff ← int32 (size - write_size);
        rfx ← int32 (rb_rfx rb + diff);
        write_size ← int32 (write_size + diff);
        rfx ← (if rb_size rb <=? rfx then int32 (rfx - rb_size rb) else Ret rfx);
        used ← int32 (rb_used rb - diff);
        '(rb, n) ← rbuf_store (rbuf_upd rb (rb_buf rb) used rfx (rb_wfx rb))
                     inp to_end write_size;
        Ret (Some rb, n)
    else
      '(rb, n) ← rbuf_store rb inp to_end write_size;
      Ret (Some rb, n)
  | _, _ => Ret (orb, 0) (* safety belt *)
  end.

Definition rbuf_used (rb : rbuf_t) : Z := rb_used rb.
Definition rbuf_size (rb : rbuf_t) : Z := rb_size rb.
Definition rbuf_available (rb : rbuf_t) : outcome Z :=
  int32 (rb_size rb - rb_used rb).

Definition rbuf_clear (rb : rbuf_t) : rbuf_t :=
  rbuf_upd rb (rb_buf rb) 0 0 0.

(** The scan of [rbuf_find]: [for (i = start; cond(i); i++)], stopping at the
    first byte that equals [octet]. *)
Definition rbuf_scan_body (b : block) (octet : Z) (cond : Z → bool) (i : Z) :
    outcome (Z + option Z) :=
  if cond i then
    v ← read_cell b i;
    if v =? octet then Ret (inr (Some i))
    else i' ← int32 (i + 1); Ret (inl i')
  else Ret (inr None).
Definition rbuf_scan (b : block) (octet : Z) (cond : Z → bool) (start : Z) :
    outcome (option Z) :=
  loop (rbuf_scan_body b octet cond) start.

Definition rbuf_find (rb : rbuf_t) (octet : Z) : outcome Z :=
  let to_read := rbuf_used rb in
  if to_read =? 0 then Ret (-1)
  else if rb_rfx rb <? rb_wfx rb then
    r ← rbuf_scan (rb_buf rb) octet (λ i, i <=? rb_wfx rb) (rb_rfx rb);
    match r with Some i => int32 (i - rb_rfx rb) | None => Ret (-1) end
  else
    r ← rbuf_scan (rb_buf rb) octet (λ i, i <? rb_size rb) (rb_rfx rb);
    match r with
    | Some i => int32 (i - rb_rfx rb)
    | None =>
        r ← rbuf_scan (rb_buf rb) octet (λ i, i <=? rb_wfx rb) 0;
        match r with
        | Some i => int32 (rb_size rb - rb_rfx rb + i)
        | None => Ret (-1)
        end
    end.

(** The loops of [rbuf_read_until]: [i] walks over the array, [j] over the
    caller's memory [out]; the result says whether [octet] was met. *)
Definition rbuf_until_body (b : block) (octet used maxsize : Z)
    (cond : Z → Z → bool) (x : Z * Z * Z * block) :
    outcome (Z * Z * Z * block + bool * Z * Z * block) :=
  let '(i, j, to_read, out) := x in
  if cond i to_read && (used - to_read <? maxsize) then
    to_read ← int32 (to_read - 1);
    out ← memcpy out j b i 1;
    v ← read_cell b i;
    if v =? octet then Ret (inr (true, j, to_read, out))
    else
      i ← int32 (i + 1);
      j ← int32 (j + 1);
      Ret (inl (i, j, to_read, out))
  else Ret (inr (false, j, to_read, out)).
Definition rbuf_until_loop (b : block) (octet used maxsize : Z)
    (cond : Z → Z → bool) (i j to_read : Z) (out : block) :
    outcome (bool * Z * Z * block) :=
  loop (rbuf_until_body b octet used maxsize cond) (i, j, to_read, out).

Definition rbuf_read_until (rb : rbuf_t) (octet : Z) (out : block) (maxsize : Z) :
    outcome (rbuf_t * block * Z) :=
  let size := rb_used rb in
  '(found, j, to_read, out) ←
    rbuf_until_loop (rb_buf rb) octet size maxsize
      (λ i _, i <? rb_size rb) (rb_rfx rb) 0 size out;
  '(_, _, to_read, out) ←
    (if found : bool then Ret (found, j, to_read, out)
     else rbuf_until_loop (rb_buf rb) octet size maxsize
            (λ _ to_read, 0 <? to_read) 0 j to_read out);
  n ← int32 (size - to_read);
  rb ← rbuf_skip rb n;
  Ret (rb, out, n).

(** [rbuf_copy_internal]: the four shapes of the copy.  The destination
    array is the memory the data goes to, as [&dst->buf[...]]. *)
Definition rbuf_copy_internal (osrc odst : option rbuf_t) (len : Z) (move : bool) :
    outcome (option rbuf_t * option rbuf_t * Z) :=
  match osrc, odst with
  | Some src, Some dst =>
    if len =? 0 then Ret (osrc, odst, 0) else
    to_copy ← rbuf_available dst;
    let to_copy := if len <? to_copy then len else to_copy in
    let available := rbuf_used src in
    let to_copy := if available <? to_copy then available else to_copy in
    contiguous ← (if rb_rfx dst <? rb_wfx dst
                  then int32 (rb_size dst - rb_wfx dst)
                  else int32 (rb_rfx dst - rb_wfx dst));
    '(src, b, wfx) ←
      (if to_copy <=? contiguous then
         '(src, b, wfx) ←
           (if move then
              '(src, b, _) ← rbuf_read src (rb_buf dst) (rb_wfx dst) to_copy;
              Ret (src, b, rb_wfx dst)
            else if rb_rfx src <? rb_wfx src then
              b ← memcpy (rb_buf dst) (rb_wfx dst) (rb_buf src) (rb_rfx src) to_copy;
              Ret (src, b, rb_wfx dst)
            else
              to_end ← int32 (rb_size src - rb_rfx src);
              b ← memcpy (rb_buf dst) (rb_wfx dst) (rb_buf src) (rb_rfx src) to_end;
              wfx ← int32 (rb_wfx dst + to_end);
              b ← memcpy b wfx (rb_buf src) 0 (to_copy - to_end);
              Ret (src, b, wfx));
         wfx ← int32 (wfx + to_copy);
         Ret (src, b, wfx)
       else
         remainder ← int32 (to_copy - contiguous);
         '(src, b) ←
           (if move then
              '(src, b, _) ← rbuf_read src (rb_buf dst) (rb_wfx dst) contiguous;
              '(src, b, _) ← rbuf_read src b 0 remainder;
              Ret (src, b)
            else if rb_rfx src <? rb_wfx src then
              b ← memcpy (rb_buf dst) (rb_wfx dst) (rb_buf src) (rb_rfx src) contiguous;
              b ← memcpy b 0 (rb_buf src) (rb_rfx src + contiguous) remainder;
              Ret (src, b)
            else
              to_end ← int32 (rb_size src - rb_rfx src);
              if contiguous <? to_end then
                b ← memcpy (rb_buf dst) (rb_wfx dst) (rb_buf src) (rb_rfx dst) contiguous;
                diff ← int32 (to_end - contiguous);
                if remainder <? diff then
                  b ← memcpy b 0 (rb_buf src) (rb_rfx dst + contiguous) remainder;
                  Ret (src, b)
                else
                  b ← memcpy b 0 (rb_buf src) (rb_rfx dst + contiguous) diff;
                  b ← memcpy b diff (rb_buf src) 0 (remainder - diff);
                  Ret (src, b)
              else
                b ← memcpy (rb_buf dst) (rb_wfx dst) (rb_buf src) (rb_rfx dst) to_end;
                diff ← int32 (contiguous - to_end);
                if diff =? 0 then Ret (src, b)
                else
                  b ← memcpy b (rb_wfx dst + to_end) (rb_buf src) 0 diff;
                  b ← memcpy b 0 (rb_buf src) diff remainder;
                  Ret (src, b));
         Ret (src, b, remainder));
    Ret (Some src, Some (rbuf_upd dst b to_copy (rb_rfx dst) wfx), to_copy)
  | _, _ => Ret (osrc, odst, 0)
  end.

Definition rbuf_move (src dst : option rbuf_t) (len : Z) :=
  rbuf_copy_internal src dst len true.
Definition rbuf_copy (src dst : option rbuf_t) (len : Z) :=
  rbuf_copy_internal src dst len false.

(** ** The abstraction and the invariant *)

(** The stored bytes in reading order. *)
Definition contents (rb : rbuf_t) : block :=
  take (Z.to_nat (rb_used rb))
    (drop (Z.to_nat (rb_rfx rb)) (rb_buf rb) ++ rb_buf rb).

(** The array has the declared size, the offsets are in it (its end
    included) and the write offset is [used] bytes after the read offset. *)
Record wf (rb : rbuf_t) : Prop := {
  wf_len : Z.of_nat (length (rb_buf rb)) = rb_size rb;
  wf_size : 0 < rb_size rb ≤ INT_MAX;
  wf_used : 0 ≤ rb_used rb ≤ rb_size rb;
  wf_rfx : 0 ≤ rb_rfx rb ≤ rb_size rb;
  wf_wfx : 0 ≤ rb_wfx rb ≤ rb_size rb;
  wf_gap : rb_wfx rb = rb_rfx rb + rb_used rb ∨
           rb_wfx rb = rb_rfx rb + rb_used rb - rb_size rb ∨
           rb_wfx rb = rb_rfx rb + rb_used rb + rb_size rb
}.

(** The array index of the [i]th byte of the contents. *)
Definition slot (size rfx : Z) (i : nat) : nat :=
  Z.to_nat (if rfx + Z.of_nat i <? size then rfx + Z.of_nat i
            else rfx + Z.of_nat i - size).

Lemma lookup_contents rb i :
  wf rb →
  contents rb !! i =
    if decide (Z.of_nat i < rb_used rb)
    then rb_buf rb !! slot (rb_size rb) (rb_rfx rb) i else None.
Proof.
  intros [Hl Hs Hu Hr Hw Hg]. unfold contents, slot.
  case_decide; [|by rewrite lookup_take_ge by lia].
  rewrite lookup_take_lt by lia. case_if.
  - rewrite lookup_app_l by len. rewrite lookup_drop. f_equal. lia.
  - rewrite lookup_app_r by len. rewrite length_drop. f_equal. lia.
Qed.

Lemma length_contents rb : wf rb → Z.of_nat (length (contents rb)) = rb_used rb.
Proof. intros [Hl Hs Hu Hr Hw Hg]. unfold contents. len. Qed.

(** Contents that grow at the end, and contents that lose a prefix, in terms
    of the array slots. *)
Lemma contents_grow rb rb' inp n :
  wf rb → wf rb' → rb_size rb' = rb_size rb → rb_rfx rb' = rb_rfx rb →
  0 ≤ n ≤ Z.of_nat (length inp) → rb_used rb' = rb_used rb + n →
  (∀ k, Z.of_nat k < rb_used rb →
    rb_buf rb' !! slot (rb_size rb) (rb_rfx rb) k =
    rb_buf rb !! slot (rb_size rb) (rb_rfx rb) k) →
  (∀ k, Z.of_nat k < n →
    rb_buf rb' !! slot (rb_size rb) (rb_rfx rb + rb_used rb) k = inp !! k) →
  contents rb' = contents rb ++ take (Z.to_nat n) inp.
Proof.
  intros Hwf Hwf' Hs Hr Hn Hu Hold Hnew.
  pose proof (length_contents rb Hwf). pose proof (wf_used rb Hwf).
  pointwise i. rewrite lookup_contents by done. rewrite Hs, Hr, Hu.
  destruct (decide (Z.of_nat i < rb_used rb)).
  - rewrite lookup_app_l, lookup_contents by (done || lia).
    rewrite !decide_True by lia. by apply Hold.
  - rewrite lookup_app_r by lia. case_decide.
    + rewrite lookup_take_lt by lia. rewrite <- Hnew by lia.
      f_equal. unfold slot. f_equal. repeat case_if; lia.
    + by rewrite lookup_take_ge by lia.
Qed.

Lemma contents_drop rb rb' n :
  wf rb → wf rb' → rb_size rb' = rb_size rb → rb_buf rb' = rb_buf rb →
  0 ≤ n ≤ rb_used rb → rb_used rb' = rb_used rb - n →
  (n < rb_used rb →
   rb_rfx rb' = rb_rfx rb + n ∨ rb_rfx rb' = rb_rfx rb + n - rb_size rb) →
  contents rb' = drop (Z.to_nat n) (contents rb).
Proof.
  intros Hwf Hwf' Hs Hb Hn Hu Hr.
  pose proof Hwf as [???? _ _]. pose proof Hwf' as [_ ? _ ? _ _].
  pointwise i. rewrite lookup_drop, !lookup_contents by done.
  repeat case_decide; try lia; [|done].
  rewrite Hb. destruct (decide (rb_buf rb = [])) as [->|]; [done|].
  assert (slot (rb_size rb') (rb_rfx rb') i =
          slot (rb_size rb) (rb_rfx rb) (Z.to_nat n + i)) as ->; [|done].
  unfold slot. f_equal. repeat case_if; lia.
Qed.

(** Every lookup in an updated array is reduced to one in the original
    blocks; the remaining equations are between indices. *)
Ltac array_lookups :=
  repeat first
    [ rewrite lookup_overwrite by len
    | rewrite lookup_take_drop
    | progress rewrite ?length_overwrite, ?length_take, ?length_drop by len ].
Ltac indices :=
  unfold slot in *; repeat (case_decide || case_if);
  first [done | lia | f_equal; lia | idtac].

Ltac wf_solve := split; simpl; first [len | lia].

Lemma rbuf_store_returns rb inp n :
  wf rb → 0 ≤ n ≤ rb_size rb - rb_used rb → n ≤ Z.of_nat (length inp) →
  returns (rbuf_store rb inp (rb_size rb - rb_wfx rb) n) (λ '(rb', m),
    m = n ∧ wf rb' ∧ rb_size rb' = rb_size rb ∧ rb_mode rb' = rb_mode rb ∧
    contents rb' = contents rb ++ take (Z.to_nat n) inp).
Proof.
  intros Hwf Hn Hi. pose proof Hwf as [Hl Hs Hu Hr Hw Hg].
  unfold rbuf_store. go. apply returns_if; intros E; bool_prop; go;
    [apply returns_memcpy; [lia|lia|lia|len|lia|]; go|].
  all: match goal with |- context [contents ?rb'] =>
         assert (wf rb') by wf_solve end.
  all: do 4 (split; [done|]).
  all: apply contents_grow; [done..|lia|done| |]; simpl.
  all: intros k ?; array_lookups; indices.
Qed.

(** ** The specification: a bounded queue of bytes *)

Module BoundedQueue.
(** The last [n] elements of a list. *)
Definition lastn {A} (n : nat) (l : list A) : list A := drop (length l - n) l.

(** Writing [inp] to a queue of capacity [cap]: in blocking mode what fits
    is appended; in overwrite mode everything is, and the oldest bytes go. *)
Definition write (ovw : bool) (cap : nat) (q inp : block) : block * Z :=
  if ovw then (lastn cap (q ++ inp), Z.of_nat (length inp))
  else
    let n := Nat.min (length inp) (cap - length q) in
    (q ++ take n inp, Z.of_nat n).
Definition read (q : block) (n : nat) : block * block := (drop n q, take n q).
End BoundedQueue.
Import BoundedQueue.

Definition is_overwrite (rb : rbuf_t) : bool := rb_mode rb =? RBUF_MODE_OVERWRITE.

(** The same capacity and mode, a well-formed buffer and the given contents. *)
Definition becomes (rb rb' : rbuf_t) (q : block) : Prop :=
  wf rb' ∧ rb_size rb' = rb_size rb ∧ rb_mode rb' = rb_mode rb ∧ contents rb' = q.

(** Overwrite mode, the data is larger than the buffer. *)
Lemma rbuf_write_large rb inp size :
  wf rb → is_overwrite rb = true → rb_size rb < size ≤ INT_MAX →
  size ≤ Z.of_nat (length inp) →
  returns (rbuf_write (Some rb) (Some inp) size) (λ '(orb, n),
    n = size ∧ ∃ rb', orb = Some rb' ∧
      becomes rb rb' (take (Z.to_nat (rb_size rb))
                        (drop (Z.to_nat (size - rb_size rb)) inp))).
Proof.
  intros Hwf Hm Hsz Hin. pose proof Hwf as [Hl Hs Hu Hr Hw Hg].
  unfold rbuf_write, is_overwrite in *. rewrite Hm.
  rewrite (proj2 (Z.eqb_neq size 0)) by lia. go.
  rewrite (proj2 (Z.ltb_lt (rb_size rb - rb_used rb) size)) by lia. go.
  rewrite (proj2 (Z.ltb_lt (rb_size rb - rb_used rb) size)) by lia.
  rewrite (proj2 (Z.ltb_lt (rb_size rb) size)) by lia. go. split; [done|]. eexists; split; [done|].
  match goal with |- becomes _ ?rb' _ => assert (wf rb') as Hwf' by wf_solve end.
  unfold becomes; split_and!; [done..|].
  pointwise i. rewrite lookup_contents, lookup_take_drop by done. simpl.
  array_lookups. indices.
Qed.

(** Blocking mode, or the data fits. *)
Lemma rbuf_write_fits rb inp size :
  wf rb → 0 < size ≤ INT_MAX → size ≤ Z.of_nat (length inp) →
  is_overwrite rb = false ∨ size ≤ rb_size rb - rb_used rb →
  let n := Z.min size (rb_size rb - rb_used rb) in
  returns (rbuf_write (Some rb) (Some inp) size) (λ '(orb, m),
    m = n ∧ ∃ rb', orb = Some rb' ∧
      becomes rb rb' (contents rb ++ take (Z.to_nat n) inp)).
Proof.
  intros Hwf Hsz Hin Hm n. pose proof Hwf as [Hl Hs Hu Hr Hw Hg].
  unfold rbuf_write, is_overwrite in *.
  rewrite (proj2 (Z.eqb_neq size 0)) by lia. go.
  assert ((if rb_size rb - rb_used rb <? size then rb_size rb - rb_used rb else size)
          = n) as -> by (subst n; case_if; lia).
  apply returns_if; intros E; bool_prop.
  { destruct Hm as [Hm|Hm]; bool_prop; [done|lia]. }
  go. eapply returns_mono; [apply rbuf_store_returns; [done|lia|lia]|].
  intros [rb' m] (->&?&?&?&?). go. split; [done|].
  exists rb'. by unfold becomes.
Qed.

(** Overwrite mode, the oldest bytes make room for the new ones. *)
Lemma rbuf_write_evicts rb inp size :
  wf rb → 2 * rb_size rb ≤ INT_MAX → is_overwrite rb = true →
  rb_size rb - rb_used rb < size ≤ rb_size rb → size ≤ Z.of_nat (length inp) →
  returns (rbuf_write (Some rb) (Some inp) size) (λ '(orb, n),
    n = size ∧ ∃ rb', orb = Some rb' ∧
      becomes rb rb'
        (drop (Z.to_nat (size - (rb_size rb - rb_used rb))) (contents rb) ++
         take (Z.to_nat size) inp)).
Proof.
  intros Hwf Hbig Hm Hsz Hin. pose proof Hwf as [Hl Hs Hu Hr Hw Hg].
  unfold rbuf_write, is_overwrite in *. rewrite Hm.
  rewrite (proj2 (Z.eqb_neq size 0)) by lia. go.
  rewrite (proj2 (Z.ltb_lt (rb_size rb - rb_used rb) size)) by lia. go.
  rewrite (proj2 (Z.ltb_lt (rb_size rb - rb_used rb) size)) by lia.
  rewrite (proj2 (Z.ltb_ge (rb_size rb) size)) by lia. go.
  set (diff := size - (rb_size rb - rb_used rb)) in *.
  assert (returns (if rb_size rb <=? rb_rfx rb + diff
                   then int32 (rb_rfx rb + diff - rb_size rb)
                   else Ret (rb_rfx rb + diff))
            (λ r, 0 ≤ r ≤ rb_size rb ∧
               (r = rb_rfx rb + diff ∨ r = rb_rfx rb + diff - rb_size rb))) as Hrfx.
  { apply returns_if; intros E; bool_prop; go; lia. }
  eapply returns_mono; [exact Hrfx|]. intros rfx [??]. go.
  set (rb1 := rbuf_upd rb (rb_buf rb) (rb_used rb - diff) rfx (rb_wfx rb)).
  assert (wf rb1) as Hwf1 by wf_solve.
  assert (contents rb1 = drop (Z.to_nat diff) (contents rb)) as Hc1
    by (apply contents_drop; simpl; done || lia).
  replace (rb_size rb - rb_used rb + diff) with size by lia.
  eapply returns_mono; [apply (rbuf_store_returns rb1); [done|simpl; lia|lia]|].
  intros [rb' m] (->&?&?&?&Hc). go. split; [done|].
  exists rb'. unfold becomes; split_and!; [done..|]. by rewrite Hc, Hc1.
Qed.

Lemma lastn_small {A} n (l : list A) : (length l ≤ n)%nat → lastn n l = l.
Proof. intros. unfold lastn. by rewrite (proj2 (Nat.sub_0_le _ _)). Qed.

(** [rbuf_write] implements the bounded queue's [write]. *)
Lemma rbuf_write_returns rb inp size :
  wf rb → 2 * rb_size rb ≤ INT_MAX →
  0 ≤ size ≤ INT_MAX → size ≤ Z.of_nat (length inp) →
  returns (rbuf_write (Some rb) (Some inp) size) (λ '(orb, n),
    let '(q, m) := write (is_overwrite rb) (Z.to_nat (rb_size rb)) (contents rb)
                     (take (Z.to_nat size) inp) in
    n = m ∧ ∃ rb', orb = Some rb' ∧ becomes rb rb' q).
Proof.
  intros Hwf Hbig Hsz Hin. pose proof Hwf as [Hl Hs Hu Hr Hw Hg].
  pose proof (length_contents rb Hwf) as Hlc. unfold write.
  destruct (decide (size = 0)) as [->|Hnz].
  { simpl. destruct (is_overwrite rb); (split; [done|]); exists rb; unfold becomes; split_and!; try done; rewrite app_nil_r; [|done].
    symmetry; apply lastn_small; lia. }
  destruct (is_overwrite rb) eqn:Hm.
  - destruct (decide (rb_size rb < size)) as [|];
      [|destruct (decide (size ≤ rb_size rb - rb_used rb)) as [|]].
    + eapply returns_mono; [apply rbuf_write_large; done || lia|].
      intros [orb m] [-> (rb'&->&?&?&?&Hc)]. split; [len|].
      exists rb'. unfold becomes; split_and!; [done..|]. rewrite Hc.
      unfold lastn. rewrite drop_app_ge by len.
      pointwise i.
      rewrite lookup_take_drop, lookup_drop, lookup_take, !length_app, length_take.
      indices.
    + eapply returns_mono; [apply rbuf_write_fits; try done; lia || auto|].
      intros [orb m] [-> (rb'&->&?&?&?&Hc)]. split; [len|].
      exists rb'. unfold becomes; split_and!; [done..|]. rewrite Hc.
      rewrite lastn_small by len. do 2 f_equal. lia.
    + eapply returns_mono; [apply rbuf_write_evicts; try done; lia|].
      intros [orb m] [-> (rb'&->&?&?&?&Hc)]. split; [len|].
      exists rb'. unfold becomes; split_and!; [done..|]. rewrite Hc.
      unfold lastn. rewrite <- drop_app_le by len. f_equal. len.
  - eapply returns_mono; [apply rbuf_write_fits; try done; lia || auto|].
    intros [orb m] [-> (rb'&->&?&?&?&Hc)]. split; [len|].
    exists rb'. unfold becomes; split_and!; [done..|]. rewrite Hc.
    f_equal. rewrite take_take. f_equal. len.
Qed.

(** A prefix of the contents, when it does and when it does not reach the
    end of the array. *)
Lemma take_contents_wrap rb n :
  wf rb → rb_size rb - rb_rfx rb < n ≤ rb_used rb →
  take (Z.to_nat n) (contents rb) =
    take (Z.to_nat (rb_size rb - rb_rfx rb)) (drop (Z.to_nat (rb_rfx rb)) (rb_buf rb)) ++
    take (Z.to_nat (n - (rb_size rb - rb_rfx rb))) (drop (Z.to_nat 0) (rb_buf rb)).
Proof.
  intros [Hl Hs Hu Hr Hw Hg] Hn. unfold contents. rewrite take_take.
  rewrite Nat.min_l by lia. rewrite take_app, length_drop.
  f_equal; [|rewrite drop_0; f_equal; lia].
  rewrite !take_ge by len. done.
Qed.

Lemma take_contents rb n :
  wf rb → 0 ≤ n ≤ rb_size rb - rb_rfx rb → n ≤ rb_used rb →
  take (Z.to_nat n) (contents rb) =
    take (Z.to_nat n) (drop (Z.to_nat (rb_rfx rb)) (rb_buf rb)).
Proof.
  intros [Hl Hs Hu Hr Hw Hg] Hn ?. unfold contents. rewrite take_take.
  rewrite Nat.min_l by lia. by rewrite take_app_le by len.
Qed.

(** [rbuf_read] implements the queue's [read] and copies what it read to the
    caller's memory. *)
Lemma rbuf_read_returns rb out ooff size :
  wf rb → 0 ≤ size ≤ INT_MAX → 0 ≤ ooff →
  ooff + Z.min size (rb_used rb) ≤ Z.of_nat (length out) →
  returns (rbuf_read rb out ooff size) (λ '(rb', out', n),
    let '(q, r) := read (contents rb) (Z.to_nat size) in
    n = Z.of_nat (length r) ∧ out' = overwrite out (Z.to_nat ooff) r ∧
    becomes rb rb' q).
Proof.
  intros Hwf Hsz Hoff Hout. pose proof Hwf as [Hl Hs Hu Hr Hw Hg].
  pose proof (length_contents rb Hwf) as Hlc.
  set (n := Z.min size (rb_used rb)) in *. unfold read.
  assert (take (Z.to_nat size) (contents rb) = take (Z.to_nat n) (contents rb)) as ->.
  { destruct (decide (size ≤ rb_used rb)); [f_equal; lia|].
    rewrite !take_ge by lia. done. }
  assert (drop (Z.to_nat size) (contents rb) = drop (Z.to_nat n) (contents rb)) as ->.
  { destruct (decide (size ≤ rb_used rb)); [f_equal; lia|].
    rewrite !drop_ge by lia. done. }
  unfold rbuf_read.
  assert ((if rb_used rb <? size then rb_used rb else size) = n) as ->
    by (subst n; case_if; lia).
  go. apply returns_if; intros E; bool_prop; go.
  - apply returns_memcpy; [lia|lia|lia|len|lia|]. go.
    split_and!; [len| |].
    + rewrite (take_contents_wrap rb n) by (done || lia).
      rewrite <- overwrite_app by len. f_equal. len.
    + unfold becomes; simpl; split_and!; [wf_solve|done..|].
      apply contents_drop; [done|wf_solve|simpl; done || lia..].
  - split_and!; [len| |].
    + by rewrite (take_contents rb n) by (done || lia).
    + unfold becomes; simpl; split_and!; [wf_solve|done..|].
      apply contents_drop; [done|wf_solve|simpl; done || lia..].
Qed.

Lemma rbuf_skip_returns rb size :
  wf rb → 0 ≤ size ≤ INT_MAX →
  returns (rbuf_skip rb size) (λ rb',
    becomes rb rb' (drop (Z.to_nat size) (contents rb))).
Proof.
  intros Hwf Hsz. pose proof Hwf as [Hl Hs Hu Hr Hw Hg].
  pose proof (length_contents rb Hwf) as Hlc.
  unfold rbuf_skip. apply returns_if; intros E; bool_prop; go.
  - unfold becomes; simpl; split_and!; [wf_solve|done..|].
    rewrite drop_ge by lia. done.
  - apply returns_if; intros E'; bool_prop; go;
      unfold becomes; simpl; split_and!; try done; try wf_solve;
      (apply contents_drop; [done|wf_solve|simpl; done || lia..]).
Qed.

Lemma rbuf_clear_becomes rb : wf rb → becomes rb (rbuf_clear rb) [].
Proof. intros [Hl Hs Hu Hr Hw Hg]. unfold becomes; split_and!; [wf_solve|done..]. Qed.

Lemma rbuf_create_wf size rb :
  rbuf_create true true size = Some rb → 0 ≤ size ≤ INT_MAX →
  wf rb ∧ contents rb = [] ∧
  rb_size rb = (if size =? 0 then RBUF_DEFAULT_SIZE else size) ∧
  rb_mode rb = RBUF_MODE_BLOCKING.
Proof.
  unfold rbuf_create. simpl negb. cbv iota. intros Hc Hs.
  set (n := if size =? 0 then RBUF_DEFAULT_SIZE else size) in *.
  assert (0 < n ≤ INT_MAX)
    by (subst n; case_if; unfold INT_MAX, RBUF_DEFAULT_SIZE in *; lia).
  rewrite u64_small in Hc by (unfold INT_MAX in *; lia).
  unfold malloc in Hc. cbn [andb] in Hc.
  rewrite (proj2 (Z.ltb_lt n _)) in Hc by (unfold INT_MAX in *; lia).
  injection Hc as <-. split_and!; [wf_solve|done..].
Qed.

(** ** Refinement of whole runs *)

(** A client's call, and what it observes: the bytes handed back to it and
    the returned number. *)
Inductive op :=
  | OpWrite (data : list Z)
  | OpRead (n : Z)
  | OpSkip (n : Z)
  | OpClear
  | OpSetMode (m : Z).
Definition obs : Type := block * Z.

(** The call on the C structure; a read is given [n] bytes of memory. *)
Definition run_op (rb : rbuf_t) (o : op) : outcome (rbuf_t * obs) :=
  match o with
  | OpWrite data =>
      '(orb, n) ← rbuf_write (Some rb) (Some (bytes data)) (Z.of_nat (length data));
      match orb with Some rb' => Ret (rb', ([], n)) | None => Undef end
  | OpRead n =>
      '(rb', out, m) ← rbuf_read rb (replicate (Z.to_nat n) None) 0 n;
      Ret (rb', (take (Z.to_nat m) out, m))
  | OpSkip n => rb' ← rbuf_skip rb n; Ret (rb', ([], 0))
  | OpClear => Ret (rbuf_clear rb, ([], 0))
  | OpSetMode m => Ret (rbuf_set_mode rb m, ([], 0))
  end.

Fixpoint run (rb : rbuf_t) (os : list op) : outcome (rbuf_t * list obs) :=
  match os with
  | [] => Ret (rb, [])
  | o :: os =>
      '(rb1, x) ← run_op rb o;
      '(rb2, xs) ← run rb1 os;
      Ret (rb2, x :: xs)
  end.

(** The same call on the queue: its mode and the bytes in it. *)
Definition spec_op (cap : nat) (s : Z * block) (o : op) : (Z * block) * obs :=
  let '(m, q) := s in
  match o with
  | OpWrite data =>
      let '(q', n) := write (m =? RBUF_MODE_OVERWRITE) cap q (bytes data) in
      ((m, q'), ([], n))
  | OpRead n =>
      let '(q', r) := read q (Z.to_nat n) in ((m, q'), (r, Z.of_nat (length r)))
  | OpSkip n => ((m, drop (Z.to_nat n) q), ([], 0))
  | OpClear => ((m, []), ([], 0))
  | OpSetMode m' => ((m', q), ([], 0))
  end.

Fixpoint spec_run (cap : nat) (s : Z * block) (os : list op) :
    (Z * block) * list obs :=
  match os with
  | [] => (s, [])
  | o :: os =>
      let '(s1, x) := spec_op cap s o in
      let '(s2, xs) := spec_run cap s1 os in
      (s2, x :: xs)
  end.

(** The arguments are non-negative [int]s. *)
Definition op_ok (o : op) : Prop :=
  match o with
  | OpWrite data => Z.of_nat (length data) ≤ INT_MAX
  | OpRead n | OpSkip n => 0 ≤ n ≤ INT_MAX
  | OpClear | OpSetMode _ => True
  end.

Lemma run_op_refines rb o :
  wf rb → 2 * rb_size rb ≤ INT_MAX → op_ok o →
  returns (run_op rb o) (λ '(rb', x),
    wf rb' ∧ rb_size rb' = rb_size rb ∧
    spec_op (Z.to_nat (rb_size rb)) (rb_mode rb, contents rb) o =
      ((rb_mode rb', contents rb'), x)).
Proof.
  intros Hwf Hbig Hok. pose proof (length_contents rb Hwf) as Hlc.
  pose proof (wf_used rb Hwf) as Hu.
  destruct o as [data|n|n| |m]; simpl in *; go.
  - eapply returns_mono; [apply rbuf_write_returns; unfold bytes; (done || len)|].
    rewrite take_ge by (unfold bytes; len). unfold is_overwrite.
    destruct (write _ _ _ _) as [q k]. intros [orb n] (->&rb'&->&?&?&Hm&Hc). go.
    by rewrite Hm, Hc.
  - eapply returns_mono; [apply rbuf_read_returns; (done || len)|].
    intros [[rb' out] k] (->&->&?&?&Hm&Hc). go. rewrite Hm, Hc.
    split_and!; [done..|]. by rewrite Nat2Z.id, take_overwrite by len.
  - eapply returns_mono; [by apply rbuf_skip_returns|].
    intros rb' (?&?&Hm&Hc). go. by rewrite Hm, Hc.
  - by destruct (rbuf_clear_becomes rb Hwf) as (?&?&?&->).
  - split_and!; [|done..]. destruct Hwf; by split.
Qed.

(** C1 — Refinement of runs.  On a freshly created ring buffer, any sequence
    of writes (in blocking or overwrite mode), reads, skips, clears and mode
    changes has defined behaviour, and hands the client exactly the bytes and
    the counts a bounded byte queue of that capacity does; the bytes left in
    the array are the queue's.  Twice the capacity must fit in an [int]. *)
Theorem rbuf_refines_queue size rb os :
  rbuf_create true true size = Some rb →
  0 < size → 2 * size ≤ INT_MAX → Forall op_ok os →
  returns (run rb os) (λ '(rb', xs),
    wf rb' ∧
    spec_run (Z.to_nat size) (RBUF_MODE_BLOCKING, []) os =
      ((rb_mode rb', contents rb'), xs)).
Proof.
  intros Hc H0 Hbig Hos. apply rbuf_create_wf in Hc as (Hwf&Hq&Hs&Hm); [|lia].
  rewrite (proj2 (Z.eqb_neq size 0)) in Hs by lia.
  rewrite <- Hq, <- Hm, <- Hs in *. clear Hq Hm Hs H0 size.
  revert rb Hwf Hbig. induction Hos as [|o os Ho _ IH]; intros rb Hwf Hbig;
    cbn [run spec_run]; [by split|].
  go. eapply returns_mono; [by apply run_op_refines|].
  intros [rb1 x] (Hwf1&Hs1&Hop). go.
  eapply returns_mono; [apply IH; [done|by rewrite Hs1]|].
  intros [rb2 xs] [Hwf2 Hrun]. go. rewrite Hop, <- Hs1. by rewrite Hrun.
Qed.

Definition example_run : list op :=
  [OpWrite [1; 2; 3]; OpRead 2; OpSetMode 1; OpWrite [4; 5; 6; 7]; OpSkip 1; OpRead 9].

Lemma rbuf_refines_queue_witness :
  returns (run (mk_rbuf (replicate 4 None) 4 0 0 0 0) example_run) (λ '(rb', xs),
    wf rb' ∧
    spec_run 4 (RBUF_MODE_BLOCKING, []) example_run =
      ((rb_mode rb', contents rb'), xs)).
Proof.
  apply (rbuf_refines_queue 4);
    [reflexivity|lia|unfold INT_MAX; lia|repeat constructor; simpl; unfold INT_MAX; lia].
Defined.

(** ** Searching *)

Definition is_byte (b : block) (i : Z) (P : Z → Prop) : Prop :=
  ∃ v, b !! Z.to_nat i = Some (Some v) ∧ P v.

(** A scan over [n] other bytes goes on at [start + n]. *)
Lemma rbuf_scan_skip b octet cond start n m r :
  0 ≤ start → start + Z.of_nat n ≤ INT_MAX →
  (∀ i, start ≤ i < start + Z.of_nat n →
     cond i = true ∧ is_byte b i (λ v, v ≠ octet)) →
  runs (rbuf_scan_body b octet cond) (start + Z.of_nat n) m r →
  runs (rbuf_scan_body b octet cond) start (Z.of_nat n + m) r.
Proof.
  revert start. induction n as [|n IH]; intros start H0 Hmax Hb Hr.
  { replace (start + Z.of_nat 0) with start in Hr by lia.
    by replace (Z.of_nat 0 + m) with m by lia. }
  replace (Z.of_nat (S n) + m) with (Z.of_nat n + m + 1) by lia.
  destruct (Hb start) as [Hc (v&Hv&Hne)]; [lia|].
  apply runs_step with (x' := start + 1).
  - unfold rbuf_scan_body. rewrite Hc, (read_cell_Ret b start v) by done. simpl.
    rewrite (proj2 (Z.eqb_neq v octet)) by done.
    rewrite int32_Ret by (int_bounds; lia). done.
  - apply IH; [lia|lia| |].
    + intros i Hi. apply Hb. lia.
    + by replace (start + 1 + Z.of_nat n) with (start + Z.of_nat (S n)) by lia.
Qed.

Lemma rbuf_scan_hit b octet cond start k :
  0 ≤ start ≤ k → k ≤ INT_MAX → cond k = true → is_byte b k (λ v, v = octet) →
  (∀ i, start ≤ i < k → cond i = true ∧ is_byte b i (λ v, v ≠ octet)) →
  rbuf_scan b octet cond start = Ret (Some k).
Proof.
  intros Hs Hk Hck (v&Hv&->) Hb.
  eapply runs_loop; [apply (rbuf_scan_skip b octet cond start (Z.to_nat (k - start)) 0)|].
  - lia.
  - lia.
  - intros i Hi. apply Hb. lia.
  - replace (start + _) with k by lia. apply runs_exit.
    unfold rbuf_scan_body. rewrite Hck, (read_cell_Ret b k octet) by (done || lia). simpl.
    by rewrite Z.eqb_refl.
  - int_bounds. lia.
Qed.

Lemma rbuf_scan_miss b octet cond start stop :
  0 ≤ start ≤ stop → stop ≤ INT_MAX → cond stop = false →
  (∀ i, start ≤ i < stop → cond i = true ∧ is_byte b i (λ v, v ≠ octet)) →
  rbuf_scan b octet cond start = Ret None.
Proof.
  intros Hs Hk Hck Hb.
  eapply runs_loop; [apply (rbuf_scan_skip b octet cond start (Z.to_nat (stop - start)) 0)|].
  - lia.
  - lia.
  - intros i Hi. apply Hb. lia.
  - replace (start + _) with stop by lia. apply runs_exit.
    unfold rbuf_scan_body. by rewrite Hck.
  - int_bounds. lia.
Qed.

(** [octet] is the [k]th stored byte and no earlier byte equals it. *)
Definition first_at (q : block) (octet : Z) (k : nat) : Prop :=
  q !! k = Some (Some octet) ∧
  ∀ j, (j < k)%nat → ∃ v, q !! j = Some (Some v) ∧ v ≠ octet.

(** The stored bytes, found in the array before its end and after the wrap. *)
Lemma byte_before_end rb i (P : Z → Prop) :
  wf rb → rb_rfx rb ≤ i < rb_size rb →
  (∃ v, contents rb !! Z.to_nat (i - rb_rfx rb) = Some (Some v) ∧ P v) →
  is_byte (rb_buf rb) i P.
Proof.
  intros Hwf Hi (v&Hv&HP). exists v. split; [|done].
  rewrite lookup_contents in Hv by done. case_decide; [|done].
  rewrite <- Hv. unfold slot. f_equal. f_equal. case_if; lia.
Qed.

Lemma byte_after_wrap rb i (P : Z → Prop) :
  wf rb → 0 ≤ i →
  (∃ v, contents rb !! Z.to_nat (i + rb_size rb - rb_rfx rb) = Some (Some v) ∧ P v) →
  is_byte (rb_buf rb) i P.
Proof.
  intros Hwf Hi (v&Hv&HP). pose proof (wf_rfx rb Hwf). exists v. split; [|done].
  rewrite lookup_contents in Hv by done. case_decide; [|done].
  rewrite <- Hv. unfold slot. f_equal. f_equal. case_if; lia.
Qed.

(** When the byte searched for is in the buffer, [rbuf_find] returns the
    offset of its first occurrence in reading order, with no access outside
    the array, wherever the stored bytes wrap around. *)
Theorem rbuf_find_first rb octet k :
  wf rb → first_at (contents rb) octet k →
  rbuf_find rb octet = Ret (Z.of_nat k).
Proof.
  intros Hwf [Hk Hj]. pose proof Hwf as [Hl Hs Hu Hr Hw Hg].
  assert (Z.of_nat k < rb_used rb) as Hku.
  { apply lookup_lt_Some in Hk. pose proof (length_contents rb Hwf). lia. }
  assert (∀ z, z = Z.of_nat k → ∃ v,
    contents rb !! Z.to_nat z = Some (Some v) ∧ v = octet) as Hhit.
  { intros z ->. rewrite Nat2Z.id. eauto. }
  unfold rbuf_find, rbuf_used. rewrite (proj2 (Z.eqb_neq _ 0)) by lia.
  destruct (Z.ltb_spec (rb_rfx rb) (rb_wfx rb));
    [|destruct (decide (rb_rfx rb + Z.of_nat k < rb_size rb))].
  - rewrite (rbuf_scan_hit _ _ _ _ (rb_rfx rb + Z.of_nat k)); [|lia|lia|lia| |].
    + run_bind. rewrite int32_Ret by (int_bounds; lia). f_equal. lia.
    + apply byte_before_end; [done|lia|apply Hhit; lia].
    + intros i Hi. split; [lia|]. apply byte_before_end; [done|lia|apply Hj; lia].
  - rewrite (rbuf_scan_hit _ _ (λ i, i <? rb_size rb) _ (rb_rfx rb + Z.of_nat k));
      [|lia|lia|lia| |].
    + run_bind. rewrite int32_Ret by (int_bounds; lia). f_equal. lia.
    + apply byte_before_end; [done|lia|apply Hhit; lia].
    + intros i Hi. split; [lia|]. apply byte_before_end; [done|lia|apply Hj; lia].
  - rewrite (rbuf_scan_miss _ _ (λ i, i <? rb_size rb) _ (rb_size rb)); [|lia|lia|lia|].
    2:{ intros i Hi. split; [lia|]. apply byte_before_end; [done|lia|apply Hj; lia]. }
    run_bind. rewrite (rbuf_scan_hit _ _ _ _ (rb_rfx rb + Z.of_nat k - rb_size rb));
      [|lia|lia|lia| |].
    + run_bind. rewrite int32_Ret by (int_bounds; lia). f_equal. lia.
    + apply byte_after_wrap; [done|lia|apply Hhit; lia].
    + intros i Hi. split; [lia|]. apply byte_after_wrap; [done|lia|apply Hj; lia].
Qed.

Lemma rbuf_find_first_witness :
  rbuf_find (mk_rbuf (bytes [7; 8; 5; 6]) 4 4 2 2 0) 8 = Ret 3.
Proof.
  apply (rbuf_find_first _ 8 3).
  - split; simpl; unfold INT_MAX; lia.
  - split; [reflexivity|]. intros j Hj.
    destruct j as [|[|[|j]]]; [exists 5|exists 6|exists 7|lia]; by vm_compute.
Defined.

(** The scans of [rbuf_find] run up to and including the write offset.
    When the byte is not in the buffer they read a byte that is not part of
    the contents: past the end of the array if the write offset is there, and
    otherwise a stale byte, which can be reported as found. *)
Theorem rbuf_find_overread :
  let full := mk_rbuf (bytes [1; 2]) 2 2 0 2 0 in
  let stale := mk_rbuf (bytes [1; 2; 9; 9]) 4 1 0 1 0 in
  (wf full ∧ rbuf_find full 9 = Undef) ∧
  (wf stale ∧ contents stale = bytes [1] ∧ rbuf_find stale 2 = Ret 1).
Proof.
  simpl. split_and!; try (by vm_compute); split; simpl; unfold INT_MAX; lia.
Qed.

(** ** Reading up to a byte *)

(** The number of bytes up to and including the first [octet], all of them
    when there is none. *)
Fixpoint until (octet : Z) (q : list Z) : nat :=
  match q with
  | v :: q => if v =? octet then 1%nat else S (until octet q)
  | [] => O
  end.

Lemma until_le octet q : (until octet q ≤ length q)%nat.
Proof. induction q as [|v q IH]; simpl; [done|]. case_if; lia. Qed.
Lemma until_app_in octet q1 q2 :
  octet ∈ q1 → until octet (q1 ++ q2) = until octet q1.
Proof.
  induction q1 as [|v q1 IH]; simpl; [by intros ?%not_elem_of_nil|].
  intros [->|?]%elem_of_cons; [by rewrite Z.eqb_refl|]. case_if; auto.
Qed.
Lemma until_app_notin octet q1 q2 :
  octet ∉ q1 → until octet (q1 ++ q2) = (length q1 + until octet q2)%nat.
Proof.
  induction q1 as [|v q1 IH]; simpl; [done|].
  intros [? ?]%not_elem_of_cons. rewrite (proj2 (Z.eqb_neq v octet)) by done. auto.
Qed.

Lemma memcpy_one dst doff src soff c :
  0 ≤ doff < Z.of_nat (length dst) → 0 ≤ soff → src !! Z.to_nat soff = Some c →
  memcpy dst doff src soff 1 = Ret (overwrite dst (Z.to_nat doff) [c]).
Proof.
  intros Hd Hs Hc. pose proof (lookup_lt_Some _ _ _ Hc).
  destruct (returns_inv (memcpy dst doff src soff 1)
    (λ x, x = overwrite dst (Z.to_nat doff) [c])) as (?&->&->); [|done].
  apply returns_memcpy; [lia..|]. f_equal.
  apply drop_S in Hc. by rewrite Hc.
Qed.

(** One iteration that finds the byte [v]. *)
Lemma rbuf_until_body_step b octet used maxsize cond i j to_read out v :
  b !! Z.to_nat i = Some (Some v) →
  0 ≤ i < INT_MAX → 0 ≤ j < INT_MAX → j < Z.of_nat (length out) →
  INT_MIN < to_read ≤ INT_MAX →
  cond i to_read && (used - to_read <? maxsize) = true →
  rbuf_until_body b octet used maxsize cond (i, j, to_read, out) =
    let out := overwrite out (Z.to_nat j) [Some v] in
    Ret (if v =? octet then inr (true, j, to_read - 1, out)
         else inl (i + 1, j + 1, to_read - 1, out)).
Proof.
  intros Hv Hi Hj Hout Ht Hc. unfold rbuf_until_body. rewrite Hc.
  rewrite (int32_Ret (to_read - 1)) by (int_bounds; lia). run_bind.
  rewrite (memcpy_one _ _ _ _ (Some v)) by (done || lia). run_bind.
  rewrite (read_cell_Ret b i v) by (done || lia). run_bind.
  destruct (v =? octet); [reflexivity|].
  rewrite (int32_Ret (i + 1)) by (int_bounds; lia). run_bind.
  rewrite (int32_Ret (j + 1)) by (int_bounds; lia). reflexivity.
Qed.

(** What the loop sees ([cs]), where it stops, and what it leaves behind. *)
Lemma rbuf_until_loop_Ret b octet used maxsize cond cs i j to_read out :
  let m := Z.of_nat (length cs) in
  let n := Z.of_nat (until octet cs) in
  (∀ k v, cs !! k = Some v → b !! Z.to_nat (i + Z.of_nat k) = Some (Some v)) →
  0 ≤ i → i + m ≤ INT_MAX → 0 ≤ j → j + m ≤ Z.of_nat (length out) →
  j + m ≤ INT_MAX → to_read ≤ INT_MAX → INT_MIN ≤ to_read - m →
  (∀ k, 0 ≤ k < m → cond (i + k) (to_read - k) && (used - (to_read - k) <? maxsize) = true) →
  octet ∈ cs ∨ cond (i + m) (to_read - m) && (used - (to_read - m) <? maxsize) = false →
  rbuf_until_loop b octet used maxsize cond i j to_read out =
    Ret (bool_decide (octet ∈ cs),
         if bool_decide (octet ∈ cs) then j + n - 1 else j + n,
         to_read - n, overwrite out (Z.to_nat j) (bytes (take (until octet cs) cs))).
Proof.
  intros m n Hb Hi HiM Hj Hout HjM Ht HtM Hgo Hstop.
  unfold rbuf_until_loop.
  match goal with |- _ = Ret ?r =>
    enough (∃ k, k ≤ m ∧ runs (rbuf_until_body b octet used maxsize cond)
              (i, j, to_read, out) k r) as (k&Hk&Hr)
      by (eapply runs_loop; [done|int_bounds; lia]) end.
  subst m n. revert i j to_read out Hb Hi HiM Hj Hout HjM Ht HtM Hgo Hstop.
  induction cs as [|v cs IH]; intros i j to_read out Hb Hi HiM Hj Hout HjM Ht HtM Hgo Hstop.
  { exists 0. split; [done|]. apply runs_exit. unfold rbuf_until_body.
    rewrite bool_decide_eq_false_2 by apply not_elem_of_nil.
    destruct Hstop as [?%not_elem_of_nil|Hstop]; [done|]. simpl in *.
    rewrite !Z.add_0_r, !Z.sub_0_r in *. rewrite Hstop.
    unfold overwrite. simpl. by rewrite Nat.add_0_r, take_drop. }
  simpl length in *. pose proof (Hgo 0 ltac:(lia)) as Hgo0.
  rewrite !Z.add_0_r, !Z.sub_0_r in Hgo0.
  pose proof (Hb 0%nat v eq_refl) as Hv. rewrite Z.add_0_r in Hv.
  pose proof (rbuf_until_body_step b octet used maxsize cond i j to_read out v Hv
    ltac:(lia) ltac:(lia) ltac:(lia) ltac:(lia) Hgo0) as Hstep. cbv zeta in Hstep.
  destruct (Z.eqb_spec v octet) as [->|Hne].
  { exists 0. split; [lia|]. apply runs_exit. rewrite Hstep.
    rewrite bool_decide_eq_true_2 by (apply elem_of_cons; auto).
    simpl until. rewrite Z.eqb_refl. by replace (j + Z.of_nat 1 - 1) with j by lia. }
  destruct (IH (i + 1) (j + 1) (to_read - 1) (overwrite out (Z.to_nat j) [Some v]))
    as (k&Hk&Hr); [|lia|lia|lia|len|lia|lia|lia| | |].
  { intros k w Hw. rewrite <- (Hb (S k) w Hw). f_equal. lia. }
  { intros k Hk. rewrite <- (Hgo (k + 1) ltac:(lia)). f_equal; f_equal; lia. }
  { destruct Hstop as [Hin|Hstop].
    - left. apply elem_of_cons in Hin as [?|?]; [by subst|done].
    - right. rewrite <- Hstop. f_equal; f_equal; lia. }
  exists (k + 1). split; [lia|]. eapply runs_step; [exact Hstep|].
  rewrite (bool_decide_ext (octet ∈ v :: cs) (octet ∈ cs))
    by (rewrite elem_of_cons; split; [by intros [?|?]; subst|by right]).
  simpl until. rewrite (proj2 (Z.eqb_neq v octet)) by done. simpl take.
  replace (bytes (v :: take (until octet cs) cs))
    with ([Some v] ++ bytes (take (until octet cs) cs)) by done.
  rewrite <- overwrite_app by (unfold bytes; pose proof (until_le octet cs); len).
  replace (Z.to_nat (j + 1)) with (Z.to_nat j + length [Some v])%nat in Hr by (simpl; lia).
  match type of Hr with runs _ _ _ ?r =>
    match goal with |- runs _ _ _ ?r' => replace r' with r; [exact Hr|] end end.
  repeat (apply f_equal2; [|done]). apply f_equal2; [apply f_equal|lia].
  case_bool_decide; lia.
Qed.

(** The bytes of the array the first loop can visit, and those the second
    one visits after a wrap. *)
Lemma contents_lookup_fst rb q k v :
  wf rb → contents rb = bytes q → q !! k = Some v →
  rb_rfx rb + Z.of_nat k < rb_size rb →
  rb_buf rb !! Z.to_nat (rb_rfx rb + Z.of_nat k) = Some (Some v).
Proof.
  intros Hwf Hq Hk Hlt. pose proof (wf_rfx rb Hwf).
  destruct (byte_before_end rb (rb_rfx rb + Z.of_nat k) (λ w, w = v)) as (?&?&->);
    [done|lia| |done].
  exists v. split; [|done]. rewrite Hq. unfold bytes.
  replace (Z.to_nat _) with k by lia. by rewrite list_lookup_fmap, Hk.
Qed.

Lemma contents_lookup_snd rb q k v :
  wf rb → contents rb = bytes q →
  q !! (Z.to_nat (rb_size rb - rb_rfx rb) + k)%nat = Some v →
  rb_buf rb !! Z.to_nat (Z.of_nat k) = Some (Some v).
Proof.
  intros Hwf Hq Hk. pose proof (wf_rfx rb Hwf).
  destruct (byte_after_wrap rb (Z.of_nat k) (λ w, w = v)) as (?&?&->);
    [done|lia| |done].
  exists v. split; [|done]. rewrite Hq. unfold bytes.
  replace (Z.to_nat _) with (Z.to_nat (rb_size rb - rb_rfx rb) + k)%nat by lia.
  by rewrite list_lookup_fmap, Hk.
Qed.

(** The loops, from the bytes [p] that may be read: the first covers those
    before the end of the array, the second the others. *)
Section until_loops.
Context (rb : rbuf_t) (octet maxsize : Z) (q : list Z) (out : block).
Context (Hwf : wf rb) (Hq : contents rb = bytes q).
Context (Hmax : 0 ≤ maxsize ≤ INT_MAX) (Hout : maxsize ≤ Z.of_nat (length out)).
Let p := take (Z.to_nat maxsize) q.
Let e := Z.to_nat (rb_size rb - rb_rfx rb).
Context (Hstop : octet ∈ p ∨ maxsize ≤ rb_used rb).

Lemma length_until_q : Z.of_nat (length q) = rb_used rb.
Proof using Hwf Hq.
  rewrite <- (length_contents rb Hwf), Hq. unfold bytes. by rewrite length_fmap.
Qed.
Lemma lookup_until_p k v : p !! k = Some v → q !! k = Some v.
Proof. unfold p. rewrite lookup_take. by case_decide. Qed.

Lemma rbuf_until_fst :
  let n := until octet (take e p) in
  rbuf_until_loop (rb_buf rb) octet (rb_used rb) maxsize
    (λ i _, i <? rb_size rb) (rb_rfx rb) 0 (rb_used rb) out =
  Ret (bool_decide (octet ∈ take e p),
       if bool_decide (octet ∈ take e p) then 0 + Z.of_nat n - 1 else 0 + Z.of_nat n,
       rb_used rb - Z.of_nat n, overwrite out 0 (bytes (take n (take e p)))).
Proof using Hwf Hq Hmax Hout Hstop.
  intros n. pose proof Hwf as [Hl Hs Hu Hr Hw Hg].
  pose proof length_until_q as Hlq.
  assert (Z.of_nat (length (take e p)) =
    Z.min (rb_size rb - rb_rfx rb) (Z.min maxsize (rb_used rb))) as Hlen
    by (unfold p, e; len).
  apply (rbuf_until_loop_Ret _ _ _ _ _ (take e p));
    rewrite ?Hlen; try (int_bounds; lia).
  - intros k v. rewrite lookup_take. case_decide; [|done].
    intros Hk%lookup_until_p. apply (contents_lookup_fst rb q); try done. lia.
  - assert (Z.of_nat (length p) = Z.min maxsize (rb_used rb)) as Hlp
      by (unfold p; len).
    destruct (decide (length (take e p) = length p)%nat) as [Heq|Hne]; [|right; lia].
    destruct Hstop as [Hin|Hle]; [left|right; lia].
    rewrite take_ge; [done|]. rewrite <- Heq, length_take. lia.
Qed.

Lemma rbuf_until_snd n :
  octet ∉ take e p → n = length (take e p) →
  let k := until octet (drop e p) in
  rbuf_until_loop (rb_buf rb) octet (rb_used rb) maxsize
    (λ _ to_read, 0 <? to_read) 0 (0 + Z.of_nat n) (rb_used rb - Z.of_nat n)
    (overwrite out 0 (bytes (take e p))) =
  Ret (bool_decide (octet ∈ drop e p),
       if bool_decide (octet ∈ drop e p)
       then 0 + Z.of_nat n + Z.of_nat k - 1 else 0 + Z.of_nat n + Z.of_nat k,
       rb_used rb - Z.of_nat n - Z.of_nat k,
       overwrite (overwrite out 0 (bytes (take e p))) n (bytes (take k (drop e p)))).
Proof using Hwf Hq Hmax Hout Hstop.
  intros Hni -> k. pose proof Hwf as [Hl Hs Hu Hr Hw Hg].
  pose proof length_until_q as Hlq.
  assert (Z.of_nat (length (take e p)) =
    Z.min (rb_size rb - rb_rfx rb) (Z.min maxsize (rb_used rb))) as Hlen
    by (unfold p, e; len).
  assert (Z.of_nat (length (drop e p)) =
    Z.min maxsize (rb_used rb) - Z.of_nat (length (take e p))) as Hlen2
    by (unfold p, e; len).
  rewrite (rbuf_until_loop_Ret _ _ _ _ _ (drop e p));
    rewrite ?Hlen2; try (int_bounds; lia).
  - by replace (Z.to_nat (0 + _)) with (length (take e p)) by lia.
  - intros i v. rewrite lookup_drop. intros Hi%lookup_until_p.
    by apply (contents_lookup_snd rb q).
  - unfold bytes. rewrite length_overwrite by (unfold p; len). lia.
Qed.
End until_loops.

(** [rbuf_read_until] hands over the stored bytes up to and including
    the first [octet], at most [maxsize] of them, and removes them, whenever
    it can stop inside the contents: the byte is among the first [maxsize]
    stored ones, or that many are stored. *)
Theorem rbuf_read_until_prefix rb octet q out maxsize :
  wf rb → contents rb = bytes q →
  0 ≤ maxsize ≤ INT_MAX → maxsize ≤ Z.of_nat (length out) →
  octet ∈ take (Z.to_nat maxsize) q ∨ maxsize ≤ rb_used rb →
  let n := until octet (take (Z.to_nat maxsize) q) in
  returns (rbuf_read_until rb octet out maxsize) (λ '(rb', out', m),
    m = Z.of_nat n ∧ out' = overwrite out 0 (bytes (take n q)) ∧
    becomes rb rb' (bytes (drop n q))).
Proof.
  intros Hwf Hq Hmax Hout Hstop n.
  pose proof (length_until_q rb q Hwf Hq) as Hlq. pose proof (wf_used rb Hwf).
  pose proof (wf_size rb Hwf).
  set (e := Z.to_nat (rb_size rb - rb_rfx rb)).
  set (p := take (Z.to_nat maxsize) q) in *.
  pose proof (until_le octet p) as Hn. fold n in Hn.
  assert (length p ≤ Z.to_nat maxsize ∧ length p ≤ length q)%nat as [? ?]
    by (unfold p; split; len).
  assert (take n q = take n p) as ->
    by (unfold p; rewrite take_take; f_equal; lia).
  unfold rbuf_read_until. rewrite rbuf_until_fst with (q := q) by done.
  fold e p. run_bind. case_bool_decide as Hin.
  - assert (n = until octet (take e p)) as Hne.
    { unfold n. rewrite <- (take_drop e p) at 1. by apply until_app_in. }
    pose proof (until_le octet (take e p)) as Hle. rewrite <- Hne in *.
    revert Hle. rewrite length_take. intros Hle.
    run_bind. go. eapply returns_mono; [apply rbuf_skip_returns; [done|int_bounds; lia]|].
    intros rb' Hb. go. split_and!; [lia| |].
    + do 2 f_equal. rewrite take_take. f_equal. lia.
    + replace (Z.to_nat _) with n in Hb by lia. rewrite Hq in Hb.
      unfold bytes in *. by rewrite <- fmap_drop in Hb.
  - assert (until octet (take e p) = length (take e p)) as Hall.
    { rewrite <- (app_nil_r (take e p)) at 1. rewrite until_app_notin by done.
      simpl. lia. }
    rewrite Hall, (take_ge (take e p)) by done.
    rewrite (rbuf_until_snd rb octet maxsize q out) by done. fold e p. run_bind.
    set (k := until octet (drop e p)).
    assert (n = length (take e p) + k)%nat as Hnk.
    { unfold n. rewrite <- (take_drop e p) at 1. by apply until_app_notin. }
    pose proof (until_le octet (drop e p)) as Hk. fold k in Hk.
    go. eapply returns_mono; [apply rbuf_skip_returns; [done|int_bounds; lia]|].
    intros rb' Hb. go. split_and!; [lia| |].
    + replace (length (take e p)) with (0 + length (bytes (take e p)))%nat
        by (unfold bytes; by rewrite length_fmap).
      revert Hk. rewrite length_drop. intros Hk. revert Hnk. rewrite length_take. intros Hnk.
      rewrite overwrite_app by (unfold bytes; len). f_equal.
      unfold bytes. rewrite <- fmap_app. f_equal.
      rewrite take_take_drop.
      destruct (decide (e ≤ length p)%nat); [f_equal; lia|by rewrite !take_ge by lia].
    + replace (Z.to_nat _) with n in Hb by lia. rewrite Hq in Hb.
      unfold bytes in *. by rewrite <- fmap_drop in Hb.
Qed.

Lemma rbuf_read_until_prefix_witness :
  let rb := mk_rbuf (bytes [7; 8; 5; 6]) 4 4 2 2 0 in
  returns (rbuf_read_until rb 7 (replicate 8 None) 8) (λ '(rb', out', m),
    m = 3 ∧ out' = overwrite (replicate 8 None) 0 (bytes [5; 6; 7]) ∧
    becomes rb rb' (bytes [8])).
Proof.
  apply (rbuf_read_until_prefix (mk_rbuf (bytes [7; 8; 5; 6]) 4 4 2 2 0) 7 [5; 6; 7; 8]).
  - split; simpl; unfold INT_MAX; lia.
  - reflexivity.
  - unfold INT_MAX; lia.
  - simpl; lia.
  - left. simpl. set_solver.
Defined.

(** The first loop of [rbuf_read_until] is bounded by the end of the
    array, not by the number of stored bytes.  With one byte stored and the
    byte not found, it hands over stale bytes as if they had been written,
    or reads bytes that were never initialised. *)
Theorem rbuf_read_until_overread :
  let stale := mk_rbuf (bytes [1; 2; 3; 4]) 4 1 0 1 0 in
  let fresh := mk_rbuf (Some 1 :: replicate 3 None) 4 1 0 1 0 in
  (wf stale ∧ contents stale = bytes [1] ∧
   rbuf_read_until stale 9 (replicate 4 None) 4 =
     Ret (mk_rbuf (bytes [1; 2; 3; 4]) 4 0 1 1 0, bytes [1; 2; 3; 4], 4)) ∧
  (wf fresh ∧ rbuf_read_until fresh 9 (replicate 4 None) 4 = Undef).
Proof.
  simpl. split_and!; try (by vm_compute); split; simpl; unfold INT_MAX; lia.
Qed.

(** ** Moving between buffers *)

(** Moving to a cleared buffer transfers the oldest bytes of the source:
    as many as asked for, stored and fitting, from the front of the source to
    the destination. *)
Theorem rbuf_move_to_cleared src dst len :
  wf src → wf dst → rb_used dst = 0 → rb_rfx dst = 0 → rb_wfx dst = 0 →
  0 ≤ len ≤ INT_MAX →
  let n := Z.min len (Z.min (rb_size dst) (rb_used src)) in
  returns (rbuf_move (Some src) (Some dst) len) (λ '(osrc, odst, m),
    m = n ∧ ∃ src' dst', osrc = Some src' ∧ odst = Some dst' ∧
      becomes src src' (drop (Z.to_nat n) (contents src)) ∧
      becomes dst dst' (take (Z.to_nat n) (contents src))).
Proof.
  intros Hws Hwd Hdu Hdr Hdw Hlen n.
  pose proof Hws as [Hl Hs Hu Hr Hw Hg]. pose proof Hwd as [Hl' Hs' Hu' Hr' Hw' Hg'].
  pose proof (length_contents src Hws) as Hlc.
  unfold rbuf_move, rbuf_copy_internal.
  destruct (Z.eqb_spec len 0) as [->|Hnz].
  { replace n with 0 by lia. go. split; [done|]. exists src, dst.
    unfold becomes; split_and!; try done. unfold contents. by rewrite Hdu. }
  unfold rbuf_available, rbuf_used. go. rewrite Hdu, Hdr, Hdw.
  rewrite Z.ltb_irrefl, !Z.sub_0_r.
  assert ((if rb_used src <? (if len <? rb_size dst then len else rb_size dst)
           then rb_used src else if len <? rb_size dst then len else rb_size dst) = n)
    as -> by (subst n; destruct (Z.ltb_spec len (rb_size dst)); case_if; lia).
  go. apply returns_if; intros E; bool_prop; go.
  - assert (n = 0) as -> by lia.
    eapply returns_mono; [apply (rbuf_read_returns src (rb_buf dst)); [done|lia..]|].
    intros [[src' b] m] (->&->&Hsrc). go. split; [done|].
    eexists _, _; split_and!; [done|done|done|].
    unfold becomes; split_and!; [wf_solve|done..].
  - eapply returns_mono; [apply (rbuf_read_returns src (rb_buf dst)); [done|lia..]|].
    intros [[src1 b] m] (->&->&Hw1&Hs1&Hm1&Hc1). go. simpl in Hc1.
    pose proof (length_contents src1 Hw1) as Hlc1. rewrite drop_0 in Hc1.
    rewrite Hc1 in Hlc1. eapply returns_mono.
    { apply (rbuf_read_returns src1); [done|lia|lia|len]. }
    intros [[src' b'] m'] (->&->&Hw2&Hs2&Hm2&Hc2). go. split; [done|].
    rewrite Hc1 in *. replace (n - 0) with n in * by lia.
    eexists _, _; split_and!; [done|done| |].
    { unfold becomes; split_and!; congruence. }
    unfold becomes; split_and!; [|done..|].
    + split; simpl; first [len | lia].
    + unfold contents. simpl. rewrite drop_0.
      rewrite take_app_le by len.
      replace (Z.to_nat n) with (length (take (Z.to_nat n) (contents src))) at 1 by len.
      apply take_overwrite. len.
Qed.

Lemma rbuf_move_to_cleared_witness :
  let src := mk_rbuf (bytes [7; 8; 5; 6]) 4 4 2 2 0 in
  let dst := mk_rbuf (replicate 8 None) 8 0 0 0 0 in
  returns (rbuf_move (Some src) (Some dst) 3) (λ '(osrc, odst, m),
    m = 3 ∧ ∃ src' dst', osrc = Some src' ∧ odst = Some dst' ∧
      becomes src src' (bytes [8]) ∧ becomes dst dst' (bytes [5; 6; 7])).
Proof.
  apply (rbuf_move_to_cleared (mk_rbuf (bytes [7; 8; 5; 6]) 4 4 2 2 0)
           (mk_rbuf (replicate 8 None) 8 0 0 0 0) 3);
    try reflexivity; try (unfold INT_MAX; lia); split; simpl; unfold INT_MAX; lia.
Defined.

(** [rbuf_copy] from a buffer whose bytes wrap around indexes the source
    with the destination's read offset, and copies the wrong bytes; and both
    [rbuf_copy] and [rbuf_move] set the fill count of a destination that was
    not empty to the number of new bytes, losing the stored ones. *)
Theorem rbuf_copy_wrong_bytes :
  let src := mk_rbuf (bytes [3; 4; 1; 2]) 4 4 2 2 0 in
  let dst := mk_rbuf (replicate 4 None) 4 0 0 0 0 in
  let src1 := mk_rbuf (bytes [1; 2; 3; 4]) 4 1 0 1 0 in
  let dst1 := mk_rbuf (bytes [9; 0; 0; 0]) 4 1 0 1 0 in
  (wf src ∧ contents src = bytes [1; 2; 3; 4] ∧
   rbuf_copy (Some src) (Some dst) 4 =
     Ret (Some src, Some (mk_rbuf (bytes [3; 4; 3; 4]) 4 4 0 4 0), 4)) ∧
  (contents dst1 = bytes [9] ∧ contents src1 = bytes [1] ∧
   rbuf_move (Some src1) (Some dst1) 1 =
     Ret (Some (mk_rbuf (bytes [1; 2; 3; 4]) 4 0 1 1 0),
          Some (mk_rbuf (bytes [9; 1; 0; 0]) 4 1 0 2 0), 1)).
Proof.
  simpl. split_and!; try (by vm_compute); split; simpl; unfold INT_MAX; lia.
Qed.
