(* ===== verification/Fbuf.v ===== *)
(** * Dynamic flat buffers (src/src/fbuf.c, src/src/fbuf.h)

    [fbuf_t] is the C structure with the heap buffer as a block of cells
    ([None] is the null pointer); its fields are 32-bit unsigned integers and
    the arithmetic on them wraps around.  The allocator, [errno], the buffer
    counter and the files are the state [world] the operations run in. *)

From S2P Require Import Prelude.

Definition FBUF_MINLEN : Z := 128.
Definition FBUF_FASTGROWSIZE : Z := Z.shiftl 1 14.
Definition FBUF_SLOWGROWSIZE : Z := Z.shiftl 1 10.
Definition FBUF_MAXLEN_NONE : Z := 0.
Definition FBUF_LINE_EST : Z := 128.
Definition FBUF_READ_EST : Z := 1024.
Definition ENOMEM : Z := 12.

Record fbuf_t := mk_fbuf {
  fb_id : Z;
  fb_data : option block;
  fb_len : Z;           (* allocated length of buffer *)
  fb_maxlen : Z;        (* preferred maximum allocated length of buffer *)
  fb_minlen : Z;        (* the minimum allocated length of the buffer *)
  fb_fastgrowsize : Z;
  fb_slowgrowsize : Z;
  fb_used : Z;          (* number of bytes used in buffer *)
  fb_skip : Z           (* how many bytes to ignore from the beginning *)
}.

(** What the operations see and change outside the structure:
    [w_alloc] holds the answers of the coming allocation requests (they
    succeed once it is exhausted) and [w_live] counts the live heap buffers;
    [w_in] holds what the coming [read] calls deliver ([None] is an error,
    the end of the list the end of the file), [w_acc] how many bytes the
    coming [write] calls accept (all when exhausted, an error when negative)
    and [w_out] is what was written. *)
Record world := mk_world {
  w_alloc : list bool;
  w_live : Z;
  w_errno : Z;
  w_fbuf_count : Z;
  w_in : list (option (list Z));
  w_acc : list Z;
  w_out : block
}.

Abbreviation M := (ST world).

(** ** The C library *)

Definition set_alloc (a : list bool) (live : Z) (w : world) : world :=
  mk_world a live (w_errno w) (w_fbuf_count w) (w_in w) (w_acc w) (w_out w).
Definition set_errno (e : Z) : M unit :=
  modify (λ w, mk_world (w_alloc w) (w_live w) e (w_fbuf_count w) (w_in w) (w_acc w) (w_out w)).

(** The allocator's answer to the next request. *)
Definition alloc_answer : M bool := λ w,
  match w_alloc w with
  | [] => Ret (true, w)
  | b :: a => Ret (b, set_alloc a (w_live w) w)
  end.
Definition count_live (d : Z) : M unit :=
  modify (λ w, set_alloc (w_alloc w) (w_live w + d) w).

Definition malloc_ (n : Z) : M (option block) :=
  ok ← alloc_answer;
  match malloc ok n with
  | Some b => _ ← count_live 1; mret (Some b)
  | None => mret None
  end.

Definition free_ (p : option block) : M unit :=
  match p with Some _ => count_live (-1) | None => mret () end.

(** [realloc(p, n)]: on success the first [n] bytes are kept and the bytes
    past the old end are not initialised; on failure [p] stays valid. *)
Definition resize (b : block) (n : nat) : block :=
  take n b ++ replicate (n - length b) None.
Definition realloc_ (p : option block) (n : Z) : M (option block) :=
  if n <=? 0 then undef else
  match p with
  | None => malloc_ n
  | Some b =>
      ok ← alloc_answer;
      mret (if ok : bool then Some (resize b (Z.to_nat n)) else None)
  end.

(** A pointer that is dereferenced. *)
Definition deref (p : option block) : outcome block :=
  match p with Some b => Ret b | None => Undef end.

(** [memcpy] and [memmove] of [n] bytes; nothing is accessed when [n = 0]. *)
Definition memcpy_ (dst : option block) (doff : Z) (src : option block) (soff n : Z) :
    M (option block) :=
  if n =? 0 then mret dst else
  d ← lift (deref dst);
  s ← lift (deref src);
  b ← lift (memcpy d doff s soff n);
  mret (Some b).

(** [p[i] = v]. *)
Definition store_ (p : option block) (i v : Z) : M (option block) :=
  d ← lift (deref p);
  b ← lift (write_range d i [Some v]);
  mret (Some b).

(** [vsnprintf(p + off, n, fmt, args)] where [text] is what the format
    produces: at most [n - 1] bytes and a terminator are stored, and the
    length of [text] is returned. *)
Definition vsnprintf_ (p : option block) (off n : Z) (text : list Z) :
    M (option block * Z) :=
  if n =? 0 then mret (p, u32 (Z.of_nat (length text))) else
  d ← lift (deref p);
  b ← lift (write_range d off (bytes (take (Z.to_nat (n - 1)) text) ++ [Some 0]));
  mret (Some b, u32 (Z.of_nat (length text))).

(** [read(fd, p, n)]: the bytes one call delivers, [None] on error. *)
Definition set_in (i : list (option (list Z))) (w : world) : world :=
  mk_world (w_alloc w) (w_live w) (w_errno w) (w_fbuf_count w) i (w_acc w) (w_out w).
Definition read_bytes (n : nat) (i : list (option (list Z))) :
    option (list Z) * list (option (list Z)) :=
  match i with
  | [] => (Some [], [])
  | None :: i => (None, i)
  | Some bs :: i =>
      if (length bs <=? n)%nat then (Some bs, i)
      else (Some (take n bs), Some (drop n bs) :: i)
  end.
Definition read_ (n : Z) : M (option (list Z)) := λ w,
  let '(r, i) := read_bytes (Z.to_nat n) (w_in w) in Ret (r, set_in i w).

(** [fread(p, 1, n, file)] calls [read] until it has [n] bytes, or the file
    ends or fails. *)
Fixpoint fread_bytes (n : nat) (i : list (option (list Z))) :
    list Z * list (option (list Z)) :=
  match i with
  | [] => ([], [])
  | None :: i => ([], i)
  | Some [] :: i => ([], i)
  | Some bs :: i =>
      if (n <? length bs)%nat then (take n bs, Some (drop n bs) :: i)
      else if (n =? length bs)%nat then (bs, i)
      else let '(cs, i) := fread_bytes (n - length bs) i in (bs ++ cs, i)
  end.
Definition fread_ (n : Z) : M (list Z) := λ w,
  let '(bs, i) := fread_bytes (Z.to_nat n) (w_in w) in Ret (bs, set_in i w).

(** [write(fd, p, n)]: the number of bytes taken, [-1] on error. *)
Definition set_out (acc : list Z) (out : block) (w : world) : world :=
  mk_world (w_alloc w) (w_live w) (w_errno w) (w_fbuf_count w) (w_in w) acc out.
Definition write_ (bs : block) : M Z := λ w,
  match w_acc w with
  | [] => Ret (Z.of_nat (length bs), set_out [] (w_out w ++ bs) w)
  | k :: acc =>
      if k <? 0 then Ret (-1, set_out acc (w_out w) w)
      else
        let n := Nat.min (Z.to_nat k) (length bs) in
        Ret (Z.of_nat n, set_out acc (w_out w ++ take n bs) w)
  end.

(** [isspace] in the C locale (the table lookup of the common C libraries
    also answers for the negative values of a signed [char]). *)
Definition isspace (c : Z) : bool := (c =? 32) || ((9 <=? c) && (c <=? 13)).

(** ** The operations *)

(** The structure with other buffer fields. *)
Definition fbuf_upd (f : fbuf_t) (data : option block) (len used skip : Z) : fbuf_t :=
  mk_fbuf (fb_id f) data len (fb_maxlen f) (fb_minlen f)
    (fb_fastgrowsize f) (fb_slowgrowsize f) used skip.

(** [__sync_fetch_and_add(&fbuf_count, 1)] *)
Definition next_id : M Z := λ w,
  Ret (w_fbuf_count w,
       mk_world (w_alloc w) (w_live w) (w_errno w) (u32 (w_fbuf_count w + 1))
         (w_in w) (w_acc w) (w_out w)).

Definition fbuf_create (maxlen : Z) : M (option fbuf_t) :=
  ok ← alloc_answer;
  if ok : bool then
    id ← next_id;
    mret (Some (mk_fbuf id None 0 maxlen FBUF_MINLEN
                  FBUF_FASTGROWSIZE FBUF_SLOWGROWSIZE 0 0))
  else mret None.

Definition fbuf_fastgrowsize (f : fbuf_t) (size : Z) : fbuf_t * Z :=
  (if size =? 0 then f else
   mk_fbuf (fb_id f) (fb_data f) (fb_len f) (fb_maxlen f) (fb_minlen f)
     size (fb_slowgrowsize f) (fb_used f) (fb_skip f), fb_fastgrowsize f).

Definition fbuf_slowgrowsize (f : fbuf_t) (size : Z) : fbuf_t * Z :=
  (if size =? 0 then f else
   mk_fbuf (fb_id f) (fb_data f) (fb_len f) (fb_maxlen f) (fb_minlen f)
     (fb_fastgrowsize f) size (fb_used f) (fb_skip f), fb_slowgrowsize f).

(** The contents moved to the start of the buffer, with the byte after them:
    [memmove(data, data + skip, used + 1)], or just the terminator. *)
Definition fbuf_unskip (f : fbuf_t) : M fbuf_t :=
  d ← (if fb_used f =? 0 then store_ (fb_data f) 0 0
       else memcpy_ (fb_data f) 0 (fb_data f) (fb_skip f) (u32 (fb_used f + 1)));
  mret (fbuf_upd f d (fb_len f) (fb_used f) 0).

(** The growth loop of [fbuf_extend] on [fbuf->len]. *)
Definition grow_body (f : fbuf_t) (fast slow newlen len : Z) : outcome (Z + Z) :=
  if len <? newlen then
    Ret (inl (if len =? 0 then (if fb_minlen f =? 0 then FBUF_MINLEN else fb_minlen f)
              else if len <? fast then fast
              else u32 (len + slow)))
  else Ret (inr len).

Definition fast_of (f : fbuf_t) : Z :=
  if fb_fastgrowsize f =? 0 then FBUF_FASTGROWSIZE else fb_fastgrowsize f.
Definition slow_of (f : fbuf_t) : Z :=
  if fb_slowgrowsize f =? 0 then FBUF_SLOWGROWSIZE else fb_slowgrowsize f.

Definition fbuf_extend (f : fbuf_t) (newlen : Z) : M (fbuf_t * Z) :=
  let newlen := u32 (newlen + 1) in (* include room for a '\0' terminator *)
  let available_space := u32 (fb_len f - fb_skip f) in
  if newlen <=? available_space then mret (f, fb_len f)
  else if negb (fb_skip f =? 0) && (newlen <=? fb_len f) then
    f ← fbuf_unskip f;
    mret (f, fb_len f)
  else if negb (fb_maxlen f =? FBUF_MAXLEN_NONE) && (u32 (fb_maxlen f + 1) <? newlen) then
    _ ← set_errno ENOMEM;
    mret (f, 0)
  else
    len ← lift (loop (grow_body f (fast_of f) (slow_of f) newlen) (fb_len f));
    let len := if negb (fb_maxlen f =? 0) && (fb_maxlen f <? len)
               then u32 (fb_maxlen f + 1) else len in
    let f := fbuf_upd f (fb_data f) len (fb_used f) (fb_skip f) in
    if len =? 0 then mret (f, 0) else
    '(f, p) ←
      (if negb (fb_skip f =? 0) then
         p ← malloc_ len;
         match p with
         | None => mret (f, None)
         | Some _ =>
             p ← memcpy_ p 0 (fb_data f) (fb_skip f) (fb_used f);
             mret (fbuf_upd f (fb_data f) len (fb_used f) 0, p)
         end
       else
         p ← realloc_ (fb_data f) len;
         mret (f, p));
    match p with
    | None => mret (f, 0)
    | Some _ =>
        p ← (match fb_data f with
             | None => store_ p 0 0 (* terminate the new buffer string *)
             | Some _ => mret p
             end);
        mret (fbuf_upd f p len (fb_used f) (fb_skip f), len)
    end.

(** The [do ... while] of [fbuf_shrink]: the last size that fits. *)
Definition shrink_body (f : fbuf_t) (fast slow len : Z) : outcome (Z + Z) :=
  if len <=? fb_minlen f then Ret (inr len)
  else
    let len' := if len <=? fast then len / 2 else u32 (len - slow) in
    if u32 (fb_used f + 1) <=? len' then Ret (inl len') else Ret (inr len).

Definition fbuf_shrink (f : fbuf_t) : M (fbuf_t * Z) :=
  f ← (if negb (fb_skip f =? 0) then fbuf_unskip f else mret f);
  let len := if fb_used f =? 0 then 0 else fb_len f in
  newlen ← lift (loop (shrink_body f (fast_of f) (slow_of f)) len);
  if newlen =? fb_len f then mret (f, fb_len f) (* nothing to be done *)
  else if newlen =? 0 then
    _ ← free_ (fb_data f);
    mret (fbuf_upd f None 0 (fb_used f) (fb_skip f), 0)
  else
    p ← realloc_ (fb_data f) newlen;
    match p with
    | None => mret (f, fb_len f)
    | Some _ => mret (fbuf_upd f p newlen (fb_used f) (fb_skip f), newlen)
    end.

Definition fbuf_maxlen (f : fbuf_t) (len : Z) : M (fbuf_t * Z) :=
  let old := fb_maxlen f in
  let f := if len <? UINT_MAX then
             mk_fbuf (fb_id f) (fb_data f) (fb_len f) len (fb_minlen f)
               (fb_fastgrowsize f) (fb_slowgrowsize f) (fb_used f) (fb_skip f)
           else f in
  if fb_maxlen f <? fb_len f then
    '(f, _) ← fbuf_shrink f;
    p ← realloc_ (fb_data f) (u32 (fb_maxlen f + 1));
    match p with
    | None => mret (f, 0)
    | Some _ =>
        let used := if fb_maxlen f <=? fb_used f then fb_maxlen f else fb_used f in
        p ← store_ p (fb_maxlen f) 0;
        mret (fbuf_upd f p (u32 (fb_maxlen f + 1)) used (fb_skip f), old)
    end
  else mret (f, old).

Definition fbuf_minlen (f : fbuf_t) (len : Z) : M (fbuf_t * Z) :=
  let old := fb_minlen f in
  if len =? 0 then mret (f, old) else
  let f := mk_fbuf (fb_id f) (fb_data f) (fb_len f) (fb_maxlen f) len
             (fb_fastgrowsize f) (fb_slowgrowsize f) (fb_used f) (fb_skip f) in
  if (fb_used f <? fb_minlen f) && (fb_minlen f <? fb_len f) then
    p ← realloc_ (fb_data f) (fb_minlen f);
    match p with
    | None => mret (f, 0)
    | Some _ => mret (fbuf_upd f p (fb_minlen f) (fb_used f) (fb_skip f), old)
    end
  else mret (f, old).

Definition fbuf_clear (f : fbuf_t) : M fbuf_t :=
  d ← (if 0 <? fb_len f then store_ (fb_data f) 0 0 else mret (fb_data f));
  mret (fbuf_upd f d (fb_len f) 0 0).

Definition fbuf_destroy (f : fbuf_t) : M fbuf_t :=
  _ ← free_ (fb_data f);
  mret (fbuf_upd f None 0 0 0).

(** The structure itself is gone after [fbuf_free]. *)
Definition fbuf_free (f : fbuf_t) : M unit := free_ (fb_data f).

(** [fbuf_move(src, dst)]: the new source and destination. *)
Definition fbuf_move (src dst : fbuf_t) : M (fbuf_t * fbuf_t) :=
  _ ← fbuf_destroy dst;
  let dst := src in
  id ← next_id;
  mret (mk_fbuf id None 0 (fb_maxlen src) (fb_minlen src)
          (fb_fastgrowsize src) (fb_slowgrowsize src) 0 0, dst).

Definition fbuf_swap (f1 f2 : fbuf_t) : fbuf_t * fbuf_t := (f2, f1).

(** [fbuf_attach(fbuf, buf, len, used)] takes over the heap buffer [buf]. *)
Definition fbuf_attach (f : fbuf_t) (buf : block) (len used : Z) : M (fbuf_t * Z) :=
  let previously_used := fb_used f in
  _ ← free_ (fb_data f);
  data ← (if used <? len then mret (Some buf)
          else n ← lift (int32 (used + 1)); realloc_ (Some buf) n);
  match data with
  | None => mret (fbuf_upd f None (fb_len f) (fb_used f) 0, 0)
  | Some _ =>
      data ← store_ data used 0;
      mret (fbuf_upd f data (u32 len) (u32 used) 0, previously_used)
  end.

(** [fbuf_detach]: the buffer and its length are handed to the caller. *)
Definition fbuf_detach (f : fbuf_t) : M (fbuf_t * option (option block * Z) * Z) :=
  if fb_used f =? 0 then mret (f, None, 0) else
  f ← (if negb (fb_skip f =? 0) then '(f, _) ← fbuf_shrink f; mret f else mret f);
  mret (fbuf_upd f None 0 0 0, Some (fb_data f, fb_len f), fb_used f).

Definition fbuf_add_binary (f : fbuf_t) (data : option block) (len : Z) :
    M (fbuf_t * Z) :=
  if len <=? 0 then mret (f, -1) else
  '(f, r) ← fbuf_extend f (u32 (fb_used f + len));
  if r =? 0 then mret (f, -1) else
  d ← memcpy_ (fb_data f) (fb_skip f + fb_used f) data 0 len;
  let used := u32 (fb_used f + len) in
  d ← store_ d (u32 (fb_skip f + used)) 0;
  mret (fbuf_upd f d (fb_len f) used (fb_skip f), len).

(** A C string: its bytes before the terminator; [None] is null. *)
Definition cstring (s : list Z) : block := bytes s ++ [Some 0].

Definition fbuf_add (f : fbuf_t) (data : option (list Z)) : M (fbuf_t * Z) :=
  match data with
  | None | Some [] => mret (f, 0) (* nothing to be done *)
  | Some s => fbuf_add_binary f (Some (cstring s)) (as_int (u32 (Z.of_nat (length s))))
  end.

Definition fbuf_prepend_binary (f : fbuf_t) (data : option block) (len : Z) :
    M (fbuf_t * Z) :=
  match data with
  | None => mret (f, 0)
  | Some _ =>
    if len <=? 0 then mret (f, 0) else
    if len <=? as_int (fb_skip f) then
      d ← memcpy_ (fb_data f) (fb_skip f - len) data 0 len;
      mret (fbuf_upd f d (fb_len f) (u32 (fb_used f + len)) (fb_skip f - len), len)
    else
      '(f, r) ← fbuf_extend f (u32 (fb_used f + len));
      if r =? 0 then mret (f, -1) else
      d ← memcpy_ (fb_data f) (fb_skip f + len) (fb_data f) (fb_skip f)
            (u32 (fb_used f + 1));
      d ← memcpy_ d (fb_skip f) data 0 len;
      mret (fbuf_upd f d (fb_len f) (u32 (fb_used f + len)) (fb_skip f), len)
  end.

Definition fbuf_prepend (f : fbuf_t) (data : option (list Z)) : M (fbuf_t * Z) :=
  match data with
  | None | Some [] => mret (f, 0) (* nothing to be done *)
  | Some s => fbuf_prepend_binary f (Some (cstring s)) (as_int (u32 (Z.of_nat (length s))))
  end.

Definition fbuf_add_ln (f : fbuf_t) (data : option (list Z)) : M (fbuf_t * Z) :=
  '(f, n1) ← fbuf_add f data;
  if n1 =? -1 then mret (f, -1) else
  '(f, n2) ← fbuf_add f (Some [10]);
  if n2 =? -1 then mret (f, -1) else
  n ← lift (int32 (n1 + n2));
  mret (f, n).

Definition fbuf_duplicate (src : fbuf_t) : M (option fbuf_t) :=
  odst ← fbuf_create (fb_maxlen src);
  match odst with
  | None => mret None
  | Some dst =>
      if fb_used src =? 0 then mret (Some dst)
      else
        s ← lift (deref (fb_data src));
        '(dst, _) ← fbuf_add_binary dst (Some (drop (Z.to_nat (fb_skip src)) s))
                      (as_int (fb_used src));
        mret (Some dst)
  end.

(** [fbuf_concat(dst, src)] on distinct buffers: the new destination. *)
Definition fbuf_concat (dst src : fbuf_t) : M (fbuf_t * Z) :=
  if fb_used src =? 0 then mret (dst, 0) else
  let datalen := as_int (fb_used src) in
  '(dst, r) ← fbuf_extend dst (u32 (fb_used dst + datalen));
  if r =? 0 then mret (dst, -1) else
  n ← lift (int32 (datalen + 1));
  d ← memcpy_ (fb_data dst) (fb_skip dst + fb_used dst)
        (fb_data src) (fb_skip src) n;
  mret (fbuf_upd dst d (fb_len dst) (u32 (fb_used dst + datalen)) (fb_skip dst), datalen).

(** [fbuf_copy(src, dst)] on distinct buffers: the new destination. *)
Definition fbuf_copy (src dst : fbuf_t) : M (fbuf_t * Z) :=
  '(dst, r) ← fbuf_extend dst (fb_used src);
  if r =? 0 then mret (dst, -1) else
  dst ← fbuf_clear dst;
  d ← memcpy_ (fb_data dst) (fb_skip dst) (fb_data src) (fb_skip src) (fb_used src);
  d ← store_ d (u32 (fb_skip dst + fb_used src)) 0;
  mret (fbuf_upd dst d (fb_len dst) (fb_used src) (fb_skip dst), as_int (fb_used src)).

Definition fbuf_set (f : fbuf_t) (s : list Z) : M (fbuf_t * Z) :=
  let datalen := as_int (u32 (Z.of_nat (length s))) in
  '(f, r) ← fbuf_extend f (u32 datalen);
  if r =? 0 then mret (f, -1) else
  n ← lift (int32 (datalen + 1));
  d ← memcpy_ (fb_data f) (fb_skip f) (Some (cstring s)) 0 n;
  mret (fbuf_upd f d (fb_len f) (u32 datalen) (fb_skip f), datalen).

(** The room [vsnprintf] is told it has. *)
Definition fbuf_room (f : fbuf_t) : Z := u32 (fb_len f - u32 (fb_skip f + fb_used f)).

(** [used += n] and a new terminator. *)
Definition fbuf_grown (f : fbuf_t) (d : option block) (n : Z) : M fbuf_t :=
  let used := u32 (fb_used f + n) in
  d ← store_ d (u32 (fb_skip f + used)) 0;
  mret (fbuf_upd f d (fb_len f) used (fb_skip f)).

(** [text] is what the format and its arguments produce. *)
Definition fbuf_nprintf (f : fbuf_t) (max : Z) (text : list Z) : M (fbuf_t * Z) :=
  '(f, r) ← fbuf_extend f (u32 (fb_used f + max));
  if r =? 0 then mret (f, -1) else
  '(d, n) ← vsnprintf_ (fb_data f) (fb_skip f + fb_used f) (fbuf_room f) text;
  f ← fbuf_grown f d n;
  mret (f, as_int n).

Definition fbuf_printf (f : fbuf_t) (text : list Z) : M (fbuf_t * Z) :=
  '(f, r) ← fbuf_extend f (u32 (fb_used f + FBUF_LINE_EST));
  if r =? 0 then mret (f, -1) else
  '(d, n) ← vsnprintf_ (fb_data f) (fb_skip f + fb_used f) (fbuf_room f) text;
  let f := fbuf_upd f d (fb_len f) (fb_used f) (fb_skip f) in
  if fbuf_room f <=? n then (* some chars were discarded *)
    '(f, r) ← fbuf_extend f (u32 (fb_used f + n));
    if r =? 0 then
      d ← store_ (fb_data f) (u32 (fb_skip f + fb_used f)) 0;
      mret (fbuf_upd f d (fb_len f) (fb_used f) (fb_skip f), -1)
    else
      '(d, n) ← vsnprintf_ (fb_data f) (fb_skip f + fb_used f) (fbuf_room f) text;
      f ← fbuf_grown f d n;
      mret (f, as_int n)
  else
    f ← fbuf_grown f d n;
    mret (f, as_int n).

(** [bs] stored at offset [off], where [fread] and [read] deliver them. *)
Definition put_ (p : option block) (off : Z) (bs : list Z) : M (option block) :=
  match bs with
  | [] => mret p
  | _ =>
      d ← lift (deref p);
      b ← lift (write_range d off (bytes bs));
      mret (Some b)
  end.

Definition fbuf_fread (f : fbuf_t) (explen : Z) : M (fbuf_t * Z) :=
  let explen := if explen =? 0 then FBUF_READ_EST else explen in
  '(f, r) ← fbuf_extend f (u32 (fb_used f + explen));
  if r =? 0 then mret (f, -1) else
  bs ← fread_ explen;
  d ← put_ (fb_data f) (fb_skip f + fb_used f) bs;
  let n := as_int (u32 (Z.of_nat (length bs))) in
  f ← fbuf_grown f d (if 0 <? n then n else 0);
  mret (f, n).

Definition fbuf_read (f : fbuf_t) (explen : Z) : M (fbuf_t * Z) :=
  let explen := if explen =? 0 then FBUF_READ_EST else explen in
  '(f, r) ← fbuf_extend f (u32 (fb_used f + explen));
  if r =? 0 then mret (f, -1) else
  obs ← read_ explen;
  d ← put_ (fb_data f) (fb_skip f + fb_used f) (default [] obs);
  let n := match obs with Some bs => as_int (u32 (Z.of_nat (length bs))) | None => -1 end in
  f ← fbuf_grown f d (if 0 <? n then n else 0);
  mret (f, n).

(** The last byte of the contents. *)
Definition fbuf_last (f : fbuf_t) : M Z :=
  d ← lift (deref (fb_data f));
  lift (read_cell d (u32 (u32 (fb_skip f + fb_used f) - 1))).

(** The loop of [fbuf_fread_ln] and [fbuf_read_ln]: bytes are appended one at
    a time by [get] until the last one is a newline; [false] when the loop is
    left with [return -1]. *)
Definition read_ln_body (get : M (list Z)) (f : fbuf_t) :
    M (fbuf_t + (fbuf_t * bool)) :=
  more ← (if fb_used f =? 0 then mret true
          else c ← fbuf_last f; mret (negb (c =? 10)));
  if more : bool then
    '(f, r) ← fbuf_extend f (u32 (fb_used f + 1));
    if r =? 0 then mret (inr (f, false)) else
    bs ← get;
    match bs with
    | [] => mret (inr (f, false))
    | _ =>
        d ← put_ (fb_data f) (fb_skip f + fb_used f) bs;
        mret (inl (fbuf_upd f d (fb_len f) (u32 (fb_used f + 1)) (fb_skip f)))
    end
  else mret (inr (f, true)).

(** The last byte of the contents is dropped. *)
Definition fbuf_chop (f : fbuf_t) : M fbuf_t :=
  let used := u32 (fb_used f - 1) in
  d ← store_ (fb_data f) (u32 (fb_skip f + used)) 0;
  mret (fbuf_upd f d (fb_len f) used (fb_skip f)).

Definition read_ln (get : M (list Z)) (f : fbuf_t) : M (fbuf_t * Z) :=
  let initial := fb_used f in
  '(f, ok) ← loopS (read_ln_body get) f;
  if ok : bool then
    f ← fbuf_chop f;
    f ← (if fb_used f =? 0 then mret f
         else c ← fbuf_last f; if c =? 13 then fbuf_chop f else mret f);
    mret (f, as_int (u32 (fb_used f - initial)))
  else mret (f, -1).

Definition fbuf_fread_ln (f : fbuf_t) : M (fbuf_t * Z) := read_ln (fread_ 1) f.
Definition fbuf_read_ln (f : fbuf_t) : M (fbuf_t * Z) :=
  read_ln (obs ← read_ 1; mret (default [] obs)) f.

Definition fbuf_remove (f : fbuf_t) (len : Z) : M (fbuf_t * Z) :=
  if fb_used f <=? len then
    d ← store_ (fb_data f) 0 0; (* terminate the buffer string *)
    mret (fbuf_upd f d (fb_len f) 0 0, 0)
  else if len =? 0 then mret (f, as_int (fb_used f))
  else
    let skip := u32 (fb_skip f + len) in
    let used := fb_used f - len in
    if fb_len f / 2 <=? skip then
      d ← memcpy_ (fb_data f) 0 (fb_data f) skip (u32 (used + 1));
      mret (fbuf_upd f d (fb_len f) used 0, as_int used)
    else mret (fbuf_upd f (fb_data f) (fb_len f) used skip, as_int used).

Definition fbuf_write (f : fbuf_t) (nbytes : Z) : M (fbuf_t * Z) :=
  let nbytes := if nbytes =? 0 then fb_used f else nbytes in
  let nbytes := if fb_used f <? nbytes then fb_used f else nbytes in
  if 0 <? nbytes then
    d ← lift (deref (fb_data f));
    bs ← lift (read_range d (fb_skip f) nbytes);
    n ← write_ bs;
    let n := as_int (u32 n) in
    if 0 <? n then
      '(f, _) ← fbuf_remove f n;
      mret (f, n)
    else mret (f, n)
  else mret (f, 0).

(** The scan of [fbuf_trim]: the number of leading white-space bytes. *)
Definition trim_body (f : fbuf_t) (i : Z) : outcome (Z + Z) :=
  if i <? fb_used f then
    d ← deref (fb_data f);
    c ← read_cell d (u32 (fb_skip f + i));
    if isspace c then Ret (inl (u32 (i + 1))) else Ret (inr i)
  else Ret (inr i).

Definition fbuf_trim (f : fbuf_t) : M (fbuf_t * Z) :=
  i ← lift (loop (trim_body f) 0);
  '(f, _) ← fbuf_remove f i;
  mret (f, as_int i).

(** The scan of [fbuf_rtrim]: [used] and the number of bytes dropped. *)
Definition rtrim_body (f : fbuf_t) (x : Z * Z) : outcome (Z * Z + Z * Z) :=
  let '(used, i) := x in
  if 0 <? used then
    d ← deref (fb_data f);
    c ← read_cell d (u32 (u32 (fb_skip f + used) - 1));
    if isspace c then Ret (inl (used - 1, u32 (i + 1))) else Ret (inr (used, i))
  else Ret (inr (used, i)).

Definition fbuf_rtrim (f : fbuf_t) : M (fbuf_t * Z) :=
  '(used, i) ← lift (loop (rtrim_body f) (fb_used f, 0));
  d ← store_ (fb_data f) (u32 (fb_skip f + used)) 0;
  mret (fbuf_upd f d (fb_len f) used (fb_skip f), as_int i).

(** The memory [fbuf_data] and [fbuf_end] point to. *)
Definition fbuf_data (f : fbuf_t) : option block :=
  drop (Z.to_nat (fb_skip f)) <$> fb_data f.
Definition fbuf_end (f : fbuf_t) : option block :=
  drop (Z.to_nat (fb_skip f + fb_used f)) <$> fb_data f.

Definition fbuf_set_used (f : fbuf_t) (newused : Z) : M (fbuf_t * Z) :=
  if newused <? fb_used f then
    d ← store_ (fb_data f) (u32 (fb_skip f + newused)) 0;
    mret (fbuf_upd f d (fb_len f) newused (fb_skip f), as_int newused)
  else mret (f, as_int (fb_used f)).

Definition fbuf_used (f : fbuf_t) : Z := fb_used f.
Definition fbuf_len (f : fbuf_t) : Z := fb_len f.

(** ** The invariant *)

(** The buffer holds the bytes [s]: a null buffer is empty; otherwise the
    block has the recorded length, the bytes are there after [skip] and one
    more byte fits after them. *)
Record holds (f : fbuf_t) (s : list Z) : Prop := {
  h_len : 0 ≤ fb_len f < 2 ^ 32;
  h_maxlen : 0 ≤ fb_maxlen f < UINT_MAX;
  h_minlen : 0 ≤ fb_minlen f < 2 ^ 32;
  h_fast : 0 ≤ fb_fastgrowsize f < 2 ^ 32;
  h_slow : 0 ≤ fb_slowgrowsize f < 2 ^ 32;
  h_used : fb_used f = Z.of_nat (length s);
  h_data : match fb_data f with
           | None => fb_len f = 0 ∧ s = [] ∧ fb_skip f = 0
           | Some b =>
               Z.of_nat (length b) = fb_len f ∧ 0 ≤ fb_skip f ∧
               fb_skip f + fb_used f < fb_len f ∧
               take (length s) (drop (Z.to_nat (fb_skip f)) b) = bytes s
           end
}.

(** The byte after the contents is the terminator. *)
Definition terminated (f : fbuf_t) : Prop :=
  match fb_data f with
  | None => True
  | Some b => b !! Z.to_nat (fb_skip f + fb_used f) = Some (Some 0)
  end.

(** The number of heap buffers the structure owns. *)
Definition owned (f : fbuf_t) : Z :=
  match fb_data f with Some _ => 1 | None => 0 end.

(** No coming allocation request is refused. *)
Definition alloc_ok (w : world) : Prop := Forall (λ b, b = true) (w_alloc w).

(** From [w] to [w'] only the allocator was used, and the number of live
    buffers changed by [d]. *)
Record allocd (w w' : world) (d : Z) : Prop := {
  a_ok : alloc_ok w';
  a_live : w_live w' = w_live w + d;
  a_in : w_in w' = w_in w;
  a_acc : w_acc w' = w_acc w;
  a_out : w_out w' = w_out w
}.

Lemma allocd_refl w : alloc_ok w → allocd w w 0.
Proof. intros ?. split; try done. lia. Qed.
Lemma allocd_trans w1 w2 w3 d e :
  allocd w1 w2 d → allocd w2 w3 e → allocd w1 w3 (d + e).
Proof. intros [] []. split; try done; try congruence. lia. Qed.

Lemma returns_alloc_answer w Q :
  alloc_ok w → (∀ w', allocd w w' 0 → Q (true, w')) → returns (alloc_answer w) Q.
Proof.
  intros Hok HQ. unfold alloc_answer, alloc_ok in *.
  destruct (w_alloc w) as [|b a] eqn:Ha.
  - apply HQ. by apply allocd_refl; unfold alloc_ok; rewrite Ha.
  - inversion Hok; subst. apply HQ. split; simpl; try done. lia.
Qed.

Lemma returns_count_live d w Q :
  alloc_ok w → (∀ w', allocd w w' d → Q (tt, w')) → returns (count_live d w) Q.
Proof. intros Hok HQ. apply HQ. by split. Qed.

Lemma returns_malloc_ n w Q :
  alloc_ok w → 0 ≤ n < 2 ^ 63 →
  (∀ w', allocd w w' 1 → Q (Some (replicate (Z.to_nat n) None), w')) →
  returns (malloc_ n w) Q.
Proof.
  intros Hok Hn HQ. unfold malloc_. go.
  apply returns_alloc_answer; [done|]. intros w1 H1.
  unfold malloc. rewrite (proj2 (Z.ltb_lt n _)) by lia. simpl andb. go.
  apply returns_count_live; [by destruct H1|]. intros w2 H2. go.
  apply HQ. replace 1 with (0 + 1) by lia. by eapply allocd_trans.
Qed.

Lemma returns_realloc_ (p : option block) n w Q :
  alloc_ok w → 0 < n < 2 ^ 63 →
  (∀ w', allocd w w' (match p with Some _ => 0 | None => 1 end) →
     Q (Some (resize (default [] p) (Z.to_nat n)), w')) →
  returns (realloc_ p n w) Q.
Proof.
  intros Hok Hn HQ. unfold realloc_. rewrite (proj2 (Z.leb_gt n 0)) by lia.
  destruct p as [b|].
  - go. apply returns_alloc_answer; [done|]. intros w1 H1. go. by apply HQ.
  - apply returns_malloc_; [done|lia|]. intros w1 H1. simpl in HQ.
    unfold resize in HQ. rewrite take_nil, Nat.sub_0_r in HQ. by apply HQ.
Qed.

Lemma returns_memcpy_ d doff s soff n w Q :
  0 ≤ doff → 0 ≤ soff → 0 ≤ n →
  doff + n ≤ Z.of_nat (length d) → soff + n ≤ Z.of_nat (length s) →
  Q (Some (overwrite d (Z.to_nat doff)
       (take (Z.to_nat n) (drop (Z.to_nat soff) s))), w) →
  returns (memcpy_ (Some d) doff (Some s) soff n w) Q.
Proof.
  intros ????? HQ. unfold memcpy_. case_if.
  - subst n. go. rewrite take_0 in HQ. unfold overwrite in HQ. simpl in HQ.
    by rewrite Nat.add_0_r, take_drop in HQ.
  - simpl deref. go. done.
Qed.

Lemma returns_store_ d i v w Q :
  0 ≤ i < Z.of_nat (length d) →
  Q (Some (<[Z.to_nat i := Some v]> d), w) → returns (store_ (Some d) i v w) Q.
Proof.
  intros Hi HQ. unfold store_. simpl deref. go.
  replace (overwrite d (Z.to_nat i) [Some v]) with (<[Z.to_nat i := Some v]> d);
    [done|].
  apply list_eq; intros j. rewrite lookup_overwrite by (simpl; lia).
  case_decide as Hj; simpl in Hj.
  - assert (j = Z.to_nat i) as -> by lia. rewrite Nat.sub_diag.
    by rewrite list_lookup_insert_eq by lia.
  - rewrite list_lookup_insert_ne by lia. done.
Qed.

(** ** Extending the buffer *)

Lemma slow_of_range f s : holds f s → 0 < slow_of f < 2 ^ 32.
Proof.
  intros []. assert (FBUF_SLOWGROWSIZE = 1024) by done. unfold slow_of. case_if; lia.
Qed.
Lemma fast_of_range f s : holds f s → 0 < fast_of f < 2 ^ 32.
Proof.
  intros []. assert (FBUF_FASTGROWSIZE = 16384) by done. unfold fast_of. case_if; lia.
Qed.

(** The growth loop ends with a length that fits, as long as the last step
    cannot wrap around. *)
Lemma grow_returns f s newlen :
  holds f s → 0 ≤ newlen → newlen + slow_of f ≤ 2 ^ 32 →
  returns (loop (grow_body f (fast_of f) (slow_of f) newlen) (fb_len f)) (λ len,
    newlen ≤ len < 2 ^ 32 ∧ fb_len f ≤ len).
Proof.
  intros Hf Hn Hw. pose proof (slow_of_range f s Hf). pose proof (fast_of_range f s Hf).
  destruct Hf. apply loop_returns with
    (I := λ l, fb_len f ≤ l < 2 ^ 32) (μ := λ l, 2 ^ 32 - l); [|lia|lia].
  intros l Hl _. unfold grow_body, FBUF_MINLEN.
  apply returns_if; intros E; bool_prop; go; [|lia].
  repeat case_if; rewrite ?u32_small by lia; lia.
Qed.

(** The parameters are unchanged. *)
Definition same_params (f f' : fbuf_t) : Prop :=
  fb_maxlen f' = fb_maxlen f ∧ fb_minlen f' = fb_minlen f ∧
  fb_fastgrowsize f' = fb_fastgrowsize f ∧ fb_slowgrowsize f' = fb_slowgrowsize f.

Lemma same_params_trans f1 f2 f3 :
  same_params f1 f2 → same_params f2 f3 → same_params f1 f3.
Proof. unfold same_params. intuition congruence. Qed.

(** Extending to [newlen] moves the contents to a new block. *)
Definition regrown (f : fbuf_t) (newlen : Z) : bool :=
  negb (fb_skip f =? 0) && (fb_len f <=? newlen).

Record extended (f : fbuf_t) (s : list Z) (newlen : Z) (w : world)
    (f' : fbuf_t) (r : Z) (w' : world) : Prop := {
  e_len : r = fb_len f' ∧ 0 < r;
  e_holds : holds f' s;
  e_room : newlen < fb_len f' - fb_skip f';
  e_params : same_params f f';
  e_world : allocd w w' (owned f' - owned f + if regrown f newlen then 1 else 0);
  e_term : regrown f newlen = false → terminated f → terminated f'
}.

(** The buffer is not allowed to grow to [newlen]. *)
Definition over_limit (f : fbuf_t) (newlen : Z) : bool :=
  negb (fb_maxlen f =? 0) && (fb_maxlen f <? newlen) &&
  (fb_len f - fb_skip f <=? newlen) && negb (negb (fb_skip f =? 0) && (newlen <? fb_len f)).

Lemma fbuf_unskip_returns f s w :
  holds f s → fb_skip f ≠ 0 →
  returns (fbuf_unskip f w) (λ '(f', w'),
    w' = w ∧ holds f' s ∧ fb_len f' = fb_len f ∧ fb_skip f' = 0 ∧
    same_params f f' ∧ owned f' = owned f ∧ fb_maxlen f' = fb_maxlen f ∧
    (terminated f → terminated f')).
Proof.
  intros [] Hs. destruct (fb_data f) as [b|] eqn:Hd; [|lia].
  destruct h_data0 as (Hb&Hk&Hu&Hc). unfold fbuf_unskip. rewrite Hd.
  assert (length (take (length s) (drop (Z.to_nat (fb_skip f)) b)) = length s) as Hls
    by (rewrite Hc; unfold bytes; by rewrite length_fmap).
  case_if.
  - go. apply returns_store_; [lia|]. go.
    assert (s = []) as -> by (destruct s; [done|simpl in *; lia]).
    split_and!; try done; [|unfold owned; simpl; by rewrite Hd|].
    + split; simpl; try done. split_and!; [len|lia|lia|done].
    + intros _. unfold terminated. simpl. rewrite E. simpl.
      by rewrite list_lookup_insert_eq by lia.
  - rewrite u32_small by lia. go. apply returns_memcpy_; [lia..|]. go.
    split_and!; try done; [|unfold owned; simpl; by rewrite Hd|].
    + split; simpl; try done. split_and!; [len|lia|lia|].
      rewrite drop_0. rewrite <- Hc. pointwise i.
      rewrite lookup_take, lookup_overwrite by len. rewrite !lookup_take_drop.
      rewrite length_take, length_drop. repeat case_decide; try lia; try done.
      f_equal. lia.
    + unfold terminated. rewrite Hd. simpl. intros Ht.
      rewrite lookup_overwrite by len. rewrite length_take, length_drop.
      rewrite decide_True by lia. rewrite lookup_take_drop, decide_True by lia.
      rewrite <- Ht. f_equal. lia.
Qed.

(** The two ways the contents get to a longer block. *)
Lemma holds_realloc f s len :
  holds f s → fb_skip f = 0 → fb_len f < len < 2 ^ 32 →
  let b := resize (default [] (fb_data f)) (Z.to_nat len) in
  let d := match fb_data f with Some _ => b | None => <[0%nat := Some 0]> b end in
  let f' := fbuf_upd f (Some d) len (fb_used f) 0 in
  holds f' s ∧ (terminated f → terminated f').
Proof.
  intros [] Hs Hl b d f'. unfold f', d, b, terminated, resize. clear d b f'.
  destruct (fb_data f) as [b|] eqn:Hd; simpl.
  - destruct h_data0 as (Hb&Hk&Hu&Hc). rewrite Hs in *. split.
    + split; simpl; try done; [lia|]. split_and!; [len|lia|lia|].
      rewrite <- Hc. rewrite !drop_0, take_app_le by len.
      rewrite take_take. f_equal. lia.
    + intros Ht. rewrite <- Ht. simpl. rewrite lookup_app_l by len.
      by rewrite lookup_take_lt by lia.
  - destruct h_data0 as (Hb&->&Hk). simpl in *. split.
    + split; simpl; try done; [lia|].
      split_and!; [rewrite take_nil; simpl; len|lia|lia|done].
    + intros _. rewrite take_nil. simpl. rewrite h_used0. simpl.
      rewrite list_lookup_insert_eq; [done|len].
Qed.

Lemma holds_regrow f s len b :
  holds f s → fb_data f = Some b → fb_len f < len < 2 ^ 32 →
  holds (fbuf_upd f (Some (overwrite (replicate (Z.to_nat len) None) (Z.to_nat 0)
           (take (Z.to_nat (fb_used f)) (drop (Z.to_nat (fb_skip f)) b))))
           len (fb_used f) 0) s.
Proof.
  intros [] Hd Hl. rewrite Hd in h_data0. destruct h_data0 as (Hb&Hk&Hu&Hc).
  split; simpl; try done; [lia|]. split_and!; [len|lia|lia|].
  rewrite h_used0, Nat2Z.id, Hc, drop_0.
  replace (length s) with (length (bytes s)) by (unfold bytes; len).
  apply take_overwrite. unfold bytes. len.
Qed.

(** Projections of updated structures. *)
Ltac fb := cbn [fbuf_upd fb_id fb_data fb_len fb_maxlen fb_minlen
  fb_fastgrowsize fb_slowgrowsize fb_used fb_skip].

(** A growing [fbuf_extend], after the tests that need no allocation. *)
Lemma fbuf_extend_grow f s newlen w :
  holds f s → alloc_ok w → 0 ≤ newlen → newlen + 1 + slow_of f ≤ 2 ^ 32 →
  fb_len f - fb_skip f ≤ newlen → (fb_skip f = 0 ∨ fb_len f ≤ newlen) →
  (fb_maxlen f = 0 ∨ newlen ≤ fb_maxlen f) →
  returns (fbuf_extend f newlen w) (λ '((f', r), w'), extended f s newlen w f' r w').
Proof.
  intros Hf Hok Hn Hw Hroom Hskip Hmax. pose proof Hf as [].
  pose proof (slow_of_range f s Hf).
  assert (0 ≤ fb_skip f ≤ fb_len f) by (destruct (fb_data f); lia).
  unfold fbuf_extend, FBUF_MAXLEN_NONE. int_bounds.
  rewrite (u32_small (newlen + 1)), (u32_small (fb_len f - fb_skip f)),
    (u32_small (fb_maxlen f + 1)) by lia.
  rewrite (proj2 (Z.leb_gt (newlen + 1) _)) by lia.
  replace (negb (fb_skip f =? 0) && (newlen + 1 <=? fb_len f)) with false by lia.
  replace (negb (fb_maxlen f =? 0) && (fb_maxlen f + 1 <? newlen + 1)) with false by lia.
  go. eapply returns_mono; [apply (grow_returns f s); [done|lia|lia]|].
  intros l [[? ?] ?]. cbv beta iota.
  set (len := if negb (fb_maxlen f =? 0) && (fb_maxlen f <? l)
              then fb_maxlen f + 1 else l).
  assert (newlen < len < 2 ^ 32) by (subst len; case_if; lia).
  rewrite (proj2 (Z.eqb_neq len 0)) by lia. go.
  fb. destruct (Z.eqb_spec (fb_skip f) 0) as [Hs|Hs]; go.
  - apply returns_realloc_; [done|lia|]. intros w1 Hw1. go. fb.
    destruct (holds_realloc f s len Hf Hs ltac:(lia)) as [Hh Ht].
    destruct (fb_data f) as [b|] eqn:Hd; go.
    + split; simpl; rewrite ?Hs; try done; try lia.
      unfold owned, regrown. simpl. rewrite Hd, Hs. done.
    + apply returns_store_; [unfold resize; len|]. go.
      split; simpl; rewrite ?Hs; try done; try lia.
      unfold owned, regrown. simpl. rewrite Hd, Hs. done.
  - destruct (fb_data f) as [b|] eqn:Hd; [|lia].
    apply returns_malloc_; [done|lia|]. intros w1 Hw1. go.
    destruct h_data0 as (Hb&Hk&Hu&Hc).
    apply returns_memcpy_; [lia|lia|lia|len|lia|]. go. fb. go.
    pose proof (holds_regrow f s len b Hf Hd ltac:(lia)) as Hh.
    assert (regrown f newlen = true) as Hr by (unfold regrown; lia).
    split; simpl; try done; try lia; rewrite Hr; [|done].
    unfold owned. simpl. by rewrite Hd.
Qed.

(** [fbuf_extend] when no request is refused: either the limit forbids it and
    nothing changes but [errno], or the buffer holds the same bytes and has
    room for [newlen] bytes and a terminator. *)
Lemma fbuf_extend_returns f s newlen w :
  holds f s → alloc_ok w → 0 ≤ newlen → newlen + 1 + slow_of f ≤ 2 ^ 32 →
  returns (fbuf_extend f newlen w) (λ '((f', r), w'),
    if over_limit f newlen
    then f' = f ∧ r = 0 ∧ allocd w w' 0 ∧ w_errno w' = ENOMEM
    else extended f s newlen w f' r w').
Proof.
  intros Hf Hok Hn Hw. pose proof Hf as [].
  pose proof (slow_of_range f s Hf).
  assert (0 ≤ fb_skip f ≤ fb_len f) by (destruct (fb_data f); lia).
  destruct (over_limit f newlen) eqn:Hov; unfold over_limit in Hov.
  { unfold fbuf_extend, FBUF_MAXLEN_NONE. int_bounds.
    rewrite (u32_small (newlen + 1)), (u32_small (fb_len f - fb_skip f)),
      (u32_small (fb_maxlen f + 1)) by lia.
    rewrite (proj2 (Z.leb_gt (newlen + 1) _)) by lia.
    replace (negb (fb_skip f =? 0) && (newlen + 1 <=? fb_len f)) with false by lia.
    replace (negb (fb_maxlen f =? 0) && (fb_maxlen f + 1 <? newlen + 1)) with true by lia.
    unfold set_errno. go. split_and!; try done. split; simpl; try done. lia. }
  destruct (decide (newlen + 1 ≤ fb_len f - fb_skip f)) as [Hroom|Hroom].
  { unfold fbuf_extend. rewrite (u32_small (newlen + 1)), (u32_small (fb_len f - fb_skip f)) by lia.
    rewrite (proj2 (Z.leb_le (newlen + 1) _)) by lia. go.
    assert (regrown f newlen = false) as Hr by (unfold regrown; lia).
    split; try done; try lia. rewrite Hr.
    replace (owned f - owned f + 0) with 0 by lia. by apply allocd_refl. }
  destruct (decide (fb_skip f ≠ 0 ∧ newlen + 1 ≤ fb_len f)) as [[Hs Hl]|Hs].
  { unfold fbuf_extend. rewrite (u32_small (newlen + 1)), (u32_small (fb_len f - fb_skip f)) by lia.
    rewrite (proj2 (Z.leb_gt (newlen + 1) _)) by lia.
    replace (negb (fb_skip f =? 0) && (newlen + 1 <=? fb_len f)) with true by lia. go.
    eapply returns_mono; [by apply fbuf_unskip_returns|].
    intros [f' w'] (->&Hh&Hl'&Hk&Hp&Ho&_&Ht). go.
    assert (regrown f newlen = false) as Hr by (unfold regrown; lia).
    split; try done; try lia. rewrite Hr, Ho.
    replace (owned f - owned f + 0) with 0 by lia. by apply allocd_refl. }
  apply fbuf_extend_grow; try done; int_bounds; lia.
Qed.

(** ** Adding bytes *)

(** The first [n] bytes, cut off by a terminator. *)
Lemma holds_cut f s b n :
  holds f s → fb_data f = Some b → 0 ≤ n ≤ fb_used f →
  let f' := fbuf_upd f (Some (<[Z.to_nat (fb_skip f + n) := Some 0]> b))
              (fb_len f) n (fb_skip f) in
  holds f' (take (Z.to_nat n) s) ∧ terminated f'.
Proof.
  intros [] Hd Hn f'. rewrite Hd in h_data0. destruct h_data0 as (Hb&Hk&Hu&Hc).
  split; [|unfold terminated; simpl; by rewrite list_lookup_insert_eq by lia].
  split; simpl; try done; [len|]. split_and!; [len|lia|lia|].
  unfold bytes. rewrite fmap_take. fold (bytes s). rewrite <- Hc.
  pointwise i. rewrite lookup_take_drop, lookup_take, lookup_take_drop, length_take.
  repeat case_decide; try lia; try done. by rewrite list_lookup_insert_ne by lia.
Qed.

(** Bytes written where the contents end do not change the contents, and
    become part of them once they are counted in. *)
Lemma holds_scribble f s b t :
  holds f s → fb_data f = Some b →
  fb_skip f + fb_used f + Z.of_nat (length t) ≤ fb_len f →
  holds (fbuf_upd f (Some (overwrite b (Z.to_nat (fb_skip f + fb_used f)) t))
           (fb_len f) (fb_used f) (fb_skip f)) s.
Proof.
  intros [] Hd Hn. rewrite Hd in h_data0. destruct h_data0 as (Hb&Hk&Hu&Hc).
  split; simpl; try done. split_and!; [len|lia|lia|]. rewrite <- Hc.
  pointwise i. rewrite !lookup_take_drop. case_decide; [|done].
  rewrite lookup_overwrite by len. by rewrite decide_False by lia.
Qed.

Lemma holds_append_raw f s b n t :
  holds f s → fb_data f = Some b → n = Z.of_nat (length t) →
  fb_used f + n < fb_len f - fb_skip f →
  holds (fbuf_upd f (Some (overwrite b (Z.to_nat (fb_skip f + fb_used f)) (bytes t)))
           (fb_len f) (fb_used f + n) (fb_skip f)) (s ++ t).
Proof.
  intros [] Hd -> Hroom. rewrite Hd in h_data0. destruct h_data0 as (Hb&Hk&Hu&Hc).
  assert (length (bytes t) = length t) as Hlt by (unfold bytes; len).
  split; simpl; try done; [len|]. split_and!; [len|lia|lia|].
  unfold bytes. rewrite fmap_app. fold (bytes s) (bytes t). rewrite <- Hc.
  pointwise i. rewrite lookup_take_drop, length_app. case_decide.
  - rewrite lookup_overwrite, Hlt by len. case_decide.
    + rewrite lookup_app_r by len. rewrite length_take, length_drop. f_equal. lia.
    + rewrite lookup_app_l by len. rewrite lookup_take_drop. by rewrite decide_True by lia.
  - symmetry. apply lookup_ge_None_2. len.
Qed.

(** The bytes [s] followed by [t] and a terminator. *)
Lemma holds_append f s b n t :
  holds f s → fb_data f = Some b → n = Z.of_nat (length t) →
  fb_used f + n < fb_len f - fb_skip f →
  let off := Z.to_nat (fb_skip f + fb_used f) in
  let d := <[Z.to_nat (fb_skip f + (fb_used f + n)) := Some 0]> (overwrite b off (bytes t)) in
  let f' := fbuf_upd f (Some d) (fb_len f) (fb_used f + n) (fb_skip f) in
  holds f' (s ++ t) ∧ terminated f'.
Proof.
  intros Hf Hb Hn Hroom off d f'.
  pose proof (holds_append_raw f s b n t Hf Hb Hn Hroom) as Hh. pose proof (h_used f s Hf).
  destruct (holds_cut _ _ _ (fb_used f + n) Hh eq_refl) as [Hh' Ht']; [fb; lia|].
  rewrite take_ge in Hh' by len. done.
Qed.

(** What an operation that adds [n] bytes does: all or nothing. *)
Definition adds (f : fbuf_t) (n : Z) (s' : list Z) (f' : fbuf_t) (r : Z) : Prop :=
  if over_limit f (fb_used f + n) then f' = f ∧ r = -1
  else r = n ∧ holds f' s' ∧ same_params f f' ∧ 0 < fb_len f'.


Lemma holds_some f s :
  holds f s → 0 < fb_len f → ∃ b, fb_data f = Some b ∧ Z.of_nat (length b) = fb_len f ∧
    0 ≤ fb_skip f ∧ fb_skip f + fb_used f < fb_len f ∧
    take (length s) (drop (Z.to_nat (fb_skip f)) b) = bytes s.
Proof.
  intros [] Hl. destruct (fb_data f) as [b|]; [|lia].
  exists b. by split.
Qed.

Lemma fbuf_add_binary_returns f s d t w :
  holds f s → alloc_ok w → t ≠ [] →
  take (length t) d = bytes t → Z.of_nat (length t) ≤ INT_MAX →
  fb_used f + Z.of_nat (length t) + 1 + slow_of f ≤ 2 ^ 32 →
  returns (fbuf_add_binary f (Some d) (Z.of_nat (length t)) w) (λ '((f', r), w'),
    alloc_ok w' ∧ adds f (Z.of_nat (length t)) (s ++ t) f' r ∧ (0 ≤ r → terminated f')).
Proof.
  intros Hf Hok Hnil Hd Ht Hw. set (n := Z.of_nat (length t)) in *.
  assert (0 < n) by (destruct t; [done|subst n; simpl; lia]).
  pose proof (slow_of_range f s Hf). pose proof (h_used f s Hf).
  assert (length t ≤ length d)%nat as Hld.
  { apply (f_equal length) in Hd. revert Hd. unfold bytes.
    rewrite length_take, length_fmap. lia. }
  unfold fbuf_add_binary, adds. rewrite (proj2 (Z.leb_gt n 0)) by lia. go.
  rewrite (u32_small (fb_used f + n)) by lia.
  eapply returns_mono; [apply (fbuf_extend_returns f s); [done|done|lia|lia]|].
  intros [[f1 r] w1]. destruct (over_limit f (fb_used f + n)).
  { intros (->&->&Hw1&_). go. split_and!; try done. by destruct Hw1. }
  intros [[-> Hr] Hh Hroom Hp Hw1 _].
  rewrite (proj2 (Z.eqb_neq _ 0)) by lia. go.
  destruct (holds_some f1 s Hh Hr) as (b&Hb&Hlb&Hk&Hu&Hc).
  pose proof (h_len f1 s Hh). pose proof (h_used f1 s Hh).
  rewrite Hb. apply returns_memcpy_; [lia|lia|lia|lia|lia|]. go.
  rewrite (u32_small (fb_used f1 + n)), u32_small by lia.
  assert (take (Z.to_nat n) (drop (Z.to_nat 0) d) = bytes t) as ->
    by (rewrite <- Hd, drop_0; f_equal; lia).
  apply returns_store_; [unfold bytes; len|]. go.
  destruct (holds_append f1 s b n t Hh Hb eq_refl ltac:(lia)) as [Hh' Ht'].
  split_and!; try done. by destruct Hw1.
Qed.

(** [t] written before the contents, in the skipped bytes. *)
Lemma holds_prepend_skip f s b t :
  holds f s → fb_data f = Some b → Z.of_nat (length t) ≤ fb_skip f →
  let n := Z.of_nat (length t) in
  let f' := fbuf_upd f (Some (overwrite b (Z.to_nat (fb_skip f - n)) (bytes t)))
              (fb_len f) (fb_used f + n) (fb_skip f - n) in
  holds f' (t ++ s) ∧ (terminated f → terminated f').
Proof.
  intros [] Hd Hn n f'. rewrite Hd in h_data0. destruct h_data0 as (Hb&Hk&Hu&Hc).
  assert (length (bytes t) = length t) as Hlt by (unfold bytes; len).
  split.
  - split; simpl; try done; [len|]. split_and!; [len|lia|lia|].
    unfold bytes. rewrite fmap_app. fold (bytes s) (bytes t). rewrite <- Hc.
    pointwise i. rewrite lookup_take_drop, lookup_overwrite, length_app, lookup_app, Hlt by len.
    rewrite lookup_take_drop.
    destruct (decide (i < length t)%nat).
    + rewrite decide_True, decide_True by lia.
      replace (Z.to_nat (fb_skip f - n) + i - Z.to_nat (fb_skip f - n))%nat with i by lia.
      destruct (lookup_lt_is_Some_2 (bytes t) i) as [x ->]; [lia|done].
    + rewrite (lookup_ge_None_2 (bytes t) i) by lia.
      repeat case_decide; try lia; [|done]. f_equal. lia.
  - unfold terminated. rewrite Hd. simpl. intros Ht.
    rewrite lookup_overwrite by len. rewrite decide_False by len.
    rewrite <- Ht. f_equal. lia.
Qed.

(** The contents moved up by [length t] bytes, and [t] in their place. *)
Lemma holds_prepend_move f s b t :
  holds f s → fb_data f = Some b →
  let n := Z.of_nat (length t) in
  fb_used f + n < fb_len f - fb_skip f →
  let d := overwrite b (Z.to_nat (fb_skip f + n))
             (take (Z.to_nat (fb_used f + 1)) (drop (Z.to_nat (fb_skip f)) b)) in
  let f' := fbuf_upd f (Some (overwrite d (Z.to_nat (fb_skip f)) (bytes t)))
              (fb_len f) (fb_used f + n) (fb_skip f) in
  holds f' (t ++ s) ∧ (terminated f → terminated f').
Proof.
  intros [] Hd n Hn d f'. rewrite Hd in h_data0. destruct h_data0 as (Hb&Hk&Hu&Hc).
  assert (length (bytes t) = length t) as Hlt by (unfold bytes; len).
  assert (length d = length b) as Hld by (unfold d; len).
  split.
  - split; simpl; try done; [len|]. split_and!; [len|lia|lia|].
    unfold bytes. rewrite fmap_app. fold (bytes s) (bytes t). rewrite <- Hc.
    pointwise i. rewrite lookup_take_drop, lookup_overwrite, length_app, lookup_app, Hlt by len.
    rewrite lookup_take_drop. unfold d. rewrite lookup_overwrite by len.
    rewrite lookup_take_drop, length_take, length_drop.
    destruct (decide (i < length t)%nat).
    + rewrite decide_True, decide_True by lia.
      replace (Z.to_nat (fb_skip f) + i - Z.to_nat (fb_skip f))%nat with i by lia.
      destruct (lookup_lt_is_Some_2 (bytes t) i) as [x ->]; [lia|done].
    + rewrite (lookup_ge_None_2 (bytes t) i) by lia.
      repeat case_decide; try lia; [|done]. f_equal. lia.
  - unfold terminated. rewrite Hd. simpl. intros Ht.
    rewrite lookup_overwrite by len. rewrite decide_False by len.
    unfold d. rewrite lookup_overwrite by len. rewrite decide_True by len.
    rewrite lookup_take_drop, decide_True by lia. rewrite <- Ht. f_equal. lia.
Qed.

Lemma fbuf_prepend_binary_returns f s d t w :
  holds f s → alloc_ok w → t ≠ [] →
  take (length t) d = bytes t → Z.of_nat (length t) ≤ INT_MAX →
  fb_used f + Z.of_nat (length t) + 1 + slow_of f ≤ 2 ^ 32 →
  let n := Z.of_nat (length t) in
  returns (fbuf_prepend_binary f (Some d) n w) (λ '((f', r), w'),
    alloc_ok w' ∧
    (if n <=? as_int (fb_skip f)
     then r = n ∧ holds f' (t ++ s) ∧ same_params f f' ∧ 0 < fb_len f'
     else adds f n (t ++ s) f' r) ∧
    (terminated f → n ≤ as_int (fb_skip f) ∨ regrown f (fb_used f + n) = false →
     terminated f')).
Proof.
  intros Hf Hok Hnil Hd Ht Hw n.
  assert (0 < n) by (destruct t; [done|subst n; simpl; lia]).
  pose proof (slow_of_range f s Hf). pose proof (h_used f s Hf). pose proof (h_len f s Hf).
  assert (length t ≤ length d)%nat as Hld.
  { apply (f_equal length) in Hd. revert Hd. unfold bytes.
    rewrite length_take, length_fmap. lia. }
  assert (take (Z.to_nat n) (drop (Z.to_nat 0) d) = bytes t) as Htd
    by (rewrite <- Hd, drop_0; f_equal; lia).
  assert (0 ≤ fb_skip f) by (destruct Hf; destruct (fb_data f); lia).
  unfold fbuf_prepend_binary. rewrite (proj2 (Z.leb_gt n 0)) by lia.
  pose proof (as_int_le (fb_skip f)). case_if.
  - destruct (holds_some f s Hf) as (b&Hb&Hlb&Hk&Hu&Hc).
    { destruct Hf. destruct (fb_data f); lia. }
    rewrite Hb. go. apply returns_memcpy_; [lia|lia|lia|lia|lia|]. go.
    rewrite Htd, (u32_small (fb_used f + n)) by lia.
    destruct (holds_prepend_skip f s b t Hf Hb) as [Hh Hterm]; [lia|].
    split_and!; try done; [fb; lia|auto].
  - go. rewrite (u32_small (fb_used f + n)) by lia. unfold adds.
    eapply returns_mono; [apply (fbuf_extend_returns f s); [done|done|lia|lia]|].
    intros [[f1 r] w1]. destruct (over_limit f (fb_used f + n)).
    { intros (->&->&Hw1&_). go. split_and!; try done. by destruct Hw1. }
    intros [[-> Hr] Hh Hroom Hp Hw1 Hterm].
    rewrite (proj2 (Z.eqb_neq _ 0)) by lia. go.
    destruct (holds_some f1 s Hh Hr) as (b&Hb&Hlb&Hk&Hu&Hc).
    pose proof (h_len f1 s Hh). pose proof (h_used f1 s Hh).
    rewrite Hb, (u32_small (fb_used f1 + 1)), (u32_small (fb_used f1 + n)) by lia.
    apply returns_memcpy_; [lia|lia|lia|lia|lia|]. go.
    apply returns_memcpy_; [lia|lia|lia|len|lia|]. go. rewrite Htd.
    destruct (holds_prepend_move f1 s b t Hh Hb ltac:(lia)) as [Hh' Ht'].
    split_and!; try done; [by destruct Hw1|]. intros ? [?|?]; [lia|auto].
Qed.

(** ** Removing bytes *)

(** What an operation that only changes the contents keeps. *)
Record keeps (f : fbuf_t) (w : world) (s' : list Z) (f' : fbuf_t) (w' : world) : Prop := {
  k_world : w' = w;
  k_holds : holds f' s';
  k_params : same_params f f';
  k_len : fb_len f' = fb_len f;
  k_term : terminated f → terminated f'
}.

(** The contents of [f] without their first [n] bytes, at offset [skip]. *)
Lemma holds_drop f s b n :
  holds f s → fb_data f = Some b → 0 ≤ n ≤ fb_used f →
  let f' := fbuf_upd f (Some b) (fb_len f) (fb_used f - n) (fb_skip f + n) in
  holds f' (drop (Z.to_nat n) s) ∧ (terminated f → terminated f').
Proof.
  intros [] Hd Hn f'. rewrite Hd in h_data0. destruct h_data0 as (Hb&Hk&Hu&Hc).
  split.
  - split; simpl; try done; [len|]. split_and!; [len|lia|lia|].
    unfold bytes. rewrite fmap_drop. fold (bytes s). rewrite <- Hc.
    pointwise i. rewrite lookup_drop, !lookup_take_drop, length_drop.
    repeat case_decide; try lia; [|done]. f_equal. lia.
  - unfold terminated. rewrite Hd. simpl. intros Ht. rewrite <- Ht. f_equal. lia.
Qed.

(** A terminator at the start and nothing in the buffer. *)
Lemma holds_empty f s b len :
  holds f s → fb_data f = Some b → len = fb_len f →
  let f' := fbuf_upd f (Some (<[0%nat := Some 0]> b)) len 0 0 in
  holds f' [] ∧ terminated f'.
Proof.
  intros [] Hd ->. rewrite Hd in h_data0. destruct h_data0 as (Hb&Hk&Hu&Hc).
  split; [|unfold terminated; simpl; by rewrite list_lookup_insert_eq by lia].
  split; simpl; try done. split_and!; [len|lia|lia|done].
Qed.

Lemma fbuf_remove_returns f s n w :
  holds f s → 0 < fb_len f → 0 ≤ n →
  returns (fbuf_remove f n w) (λ '((f', r), w'),
    keeps f w (drop (Z.to_nat n) s) f' w' ∧
    r = as_int (Z.of_nat (length s) - n `min` Z.of_nat (length s))).
Proof.
  intros Hf Hl Hn. destruct (holds_some f s Hf Hl) as (b&Hb&Hlb&Hk&Hu&Hc).
  pose proof (h_len f s Hf). pose proof (h_used f s Hf) as Hus.
  unfold fbuf_remove. rewrite Hb. case_if.
  { go. apply returns_store_; [lia|]. go.
    destruct (holds_empty f s b (fb_len f) Hf Hb eq_refl) as [Hh Ht].
    rewrite drop_ge by lia. split; [by split|].
    replace (_ - _) with 0 by lia. done. }
  case_if.
  { subst n. go. rewrite drop_0. split; [by split|].
    rewrite Hus. f_equal. lia. }
  destruct (holds_drop f s b n Hf Hb) as [Hh Ht]; [lia|].
  rewrite (u32_small (fb_skip f + n)) by lia. case_if.
  - set (f1 := fbuf_upd _ _ _ _ _) in Hh, Ht.
    assert (fb_skip f1 ≠ 0 ∧ fb_used f1 ≠ 0) as [Hs1 Hu1] by (unfold f1; simpl; lia).
    pose proof (fbuf_unskip_returns f1 _ w Hh Hs1) as Hun. unfold fbuf_unskip in Hun.
    rewrite (proj2 (Z.eqb_neq _ 0)) in Hun by done. unfold f1 in Hun. simpl in Hun.
    apply returns_st_bind in Hun. go. eapply returns_mono; [exact Hun|].
    intros [d w1]. intros (->&Hh'&Hl'&Hk'&Hp'&Ho'&_&Ht'). go. split.
    + split; try done. intros ?. by apply Ht', Ht.
    + rewrite Hus. f_equal. lia.
  - go. split; [by split|]. rewrite Hus. f_equal. lia.
Qed.

Lemma fbuf_clear_returns f s w :
  holds f s →
  returns (fbuf_clear f w) (λ '(f', w'),
    keeps f w [] f' w' ∧ terminated f' ∧ fb_skip f' = 0).
Proof.
  intros Hf. unfold fbuf_clear. case_if.
  - destruct (holds_some f s Hf ltac:(lia)) as (b&Hb&Hlb&Hk&Hu&Hc).
    rewrite Hb. go. apply returns_store_; [lia|]. go.
    destruct (holds_empty f s b (fb_len f) Hf Hb eq_refl) as [Hh Ht].
    split; [by split|done].
  - go. pose proof Hf as []. destruct (fb_data f) as [b|] eqn:Hd; [lia|].
    assert (terminated (fbuf_upd f None (fb_len f) 0 0)) by done.
    split; [|done]. split; try done. split; simpl; try done. by destruct h_data0.
Qed.

Lemma fbuf_set_used_returns f s n w :
  holds f s → 0 ≤ n →
  returns (fbuf_set_used f n w) (λ '((f', r), w'),
    keeps f w (take (Z.to_nat n) s) f' w' ∧
    r = as_int (n `min` Z.of_nat (length s))).
Proof.
  intros Hf Hn. unfold fbuf_set_used. pose proof (h_used f s Hf) as Hus. case_if.
  - destruct (holds_some f s Hf) as (b&Hb&Hlb&Hk&Hu&Hc).
    { destruct Hf. destruct (fb_data f); [lia|].
      destruct h_data0 as (?&->&?). simpl in *. lia. }
    pose proof (h_len f s Hf). rewrite Hb, u32_small by lia. go.
    apply returns_store_; [lia|]. go.
    destruct (holds_cut f s b n Hf Hb ltac:(lia)) as [Hh Ht].
    split; [by split|]. f_equal. lia.
  - go. rewrite take_ge by lia. split; [by split|]. f_equal. lia.
Qed.

(** ** Trimming *)

Fixpoint ltrim (s : list Z) : list Z :=
  match s with c :: s' => if isspace c then ltrim s' else s | [] => [] end.
Definition rtrim (s : list Z) : list Z := reverse (ltrim (reverse s)).

Lemma ltrim_length s : (length (ltrim s) ≤ length s)%nat.
Proof. induction s as [|c s IH]; simpl; [done|]. case_if; simpl; lia. Qed.
Lemma rtrim_snoc s c : rtrim (s ++ [c]) = if isspace c then rtrim s else s ++ [c].
Proof.
  unfold rtrim. rewrite reverse_app. simpl. case_if; [done|].
  by rewrite reverse_cons, reverse_involutive.
Qed.

(** The byte at index [i] of the contents. *)
Lemma holds_byte f s b i c :
  holds f s → fb_data f = Some b → 0 ≤ i → s !! Z.to_nat i = Some c →
  0 ≤ fb_skip f ∧ fb_skip f + i < fb_len f ∧ read_cell b (fb_skip f + i) = Ret c.
Proof.
  intros [] Hd Hi Hc. rewrite Hd in h_data0. destruct h_data0 as (Hb&Hk&Hu&Hs).
  pose proof (lookup_lt_Some _ _ _ Hc). split_and!; [lia|lia|].
  apply read_cell_Ret; [lia|].
  assert (bytes s !! Z.to_nat i = Some (Some c)) as Hbi
    by (unfold bytes; by rewrite list_lookup_fmap, Hc).
  rewrite <- Hs, lookup_take_drop, decide_True in Hbi by lia.
  rewrite <- Hbi. f_equal. lia.
Qed.

Lemma trim_loop f s b :
  holds f s → fb_data f = Some b →
  returns (loop (trim_body f) 0) (λ i,
    0 ≤ i ≤ fb_used f ∧ ltrim s = drop (Z.to_nat i) s).
Proof.
  intros Hf Hb. pose proof (h_used f s Hf). pose proof (h_len f s Hf).
  assert (fb_used f < 2 ^ 32) by (destruct Hf; rewrite Hb in *; lia).
  apply loop_returns with
    (I := λ i, 0 ≤ i ≤ fb_used f ∧ ltrim s = ltrim (drop (Z.to_nat i) s))
    (μ := λ i, fb_used f - i); [|by rewrite drop_0; split; [lia|]|lia].
  intros i [Hi Ht] _. unfold trim_body. apply returns_if; intros E; bool_prop.
  - destruct (lookup_lt_is_Some_2 s (Z.to_nat i)) as [c Hc]; [lia|].
    destruct (holds_byte f s b i c Hf Hb ltac:(lia) Hc) as (?&?&Hr).
    rewrite Hb. simpl deref. rewrite (u32_small (fb_skip f + i)) by lia. go. rewrite Hr. go.
    rewrite (drop_S _ _ _ Hc) in Ht. simpl in Ht. case_if; go.
    + rewrite u32_small by lia. split; [|lia]. split; [lia|].
      rewrite Ht. f_equal. f_equal. lia.
    + rewrite (drop_S _ _ _ Hc). split; [lia|done].
  - go. split; [lia|]. rewrite Ht, drop_ge by lia. done.
Qed.

Lemma fbuf_trim_returns f s w :
  holds f s → 0 < fb_len f → fb_used f ≤ INT_MAX →
  returns (fbuf_trim f w) (λ '((f', r), w'),
    keeps f w (ltrim s) f' w' ∧ r = Z.of_nat (length s - length (ltrim s))).
Proof.
  intros Hf Hl Hi. destruct (holds_some f s Hf Hl) as (b&Hb&_).
  pose proof (h_used f s Hf). unfold fbuf_trim. go.
  eapply returns_mono; [by apply (trim_loop f s b)|]. intros i [Hr ->]. go.
  eapply returns_mono; [apply (fbuf_remove_returns f s); [done|done|lia]|].
  intros [[f' r] w'] [Hkeep _]. go. split; [done|].
  rewrite as_int_small, length_drop by lia. lia.
Qed.

Lemma rtrim_loop f s b :
  holds f s → fb_data f = Some b →
  returns (loop (rtrim_body f) (fb_used f, 0)) (λ '(used, i),
    0 ≤ used ≤ fb_used f ∧ i = fb_used f - used ∧ rtrim s = take (Z.to_nat used) s).
Proof.
  intros Hf Hb. pose proof (h_used f s Hf). pose proof (h_len f s Hf).
  assert (fb_used f < 2 ^ 32) by (destruct Hf; rewrite Hb in *; lia).
  apply loop_returns with
    (I := λ '(used, i), 0 ≤ used ≤ fb_used f ∧ i = fb_used f - used ∧
            rtrim s = rtrim (take (Z.to_nat used) s))
    (μ := λ '(used, i), used); [|rewrite take_ge by lia; split_and!; [lia..|done]|lia].
  intros [u i] (Hu&Hi&Ht) _. unfold rtrim_body. apply returns_if; intros E; bool_prop.
  - destruct (lookup_lt_is_Some_2 s (Z.to_nat (u - 1))) as [c Hc]; [lia|].
    destruct (holds_byte f s b (u - 1) c Hf Hb ltac:(lia) Hc) as (?&?&Hr).
    rewrite Hb. simpl deref. rewrite (u32_small (fb_skip f + u)), (u32_small (_ - 1)) by lia.
    replace (fb_skip f + u - 1) with (fb_skip f + (u - 1)) by lia.
    go. rewrite Hr. go.
    assert (take (Z.to_nat u) s = take (Z.to_nat (u - 1)) s ++ [c]) as Htu
      by (rewrite <- (take_S_r _ _ _ Hc); f_equal; lia).
    rewrite Htu, rtrim_snoc in Ht. case_if; go.
    + rewrite u32_small by lia. split_and!; try lia. done.
    + rewrite Htu. split_and!; try lia. done.
  - go. split_and!; try lia. rewrite Ht. replace u with 0 by lia. done.
Qed.

Lemma fbuf_rtrim_returns f s w :
  holds f s → 0 < fb_len f → fb_used f ≤ INT_MAX →
  returns (fbuf_rtrim f w) (λ '((f', r), w'),
    keeps f w (rtrim s) f' w' ∧ r = Z.of_nat (length s - length (rtrim s))).
Proof.
  intros Hf Hl Hi. destruct (holds_some f s Hf Hl) as (b&Hb&Hlb&Hk&Hu&Hc).
  pose proof (h_used f s Hf). pose proof (h_len f s Hf). unfold fbuf_rtrim. go.
  eapply returns_mono; [by apply (rtrim_loop f s b)|].
  intros [u i]. intros (Hr&->&->). go. rewrite u32_small, Hb by lia.
  apply returns_store_; [lia|]. go.
  destruct (holds_cut f s b u Hf Hb Hr) as [Hh Ht]. split; [by split|].
  rewrite as_int_small, length_take by lia. lia.
Qed.

(** ** Whole contents: set, concatenate, copy, duplicate *)

Lemma overwrite_snoc b n l x :
  (n + length l < length b)%nat →
  overwrite b n (l ++ [x]) = <[(n + length l)%nat := x]> (overwrite b n l).
Proof.
  intros ?. pointwise i. rewrite lookup_overwrite by len.
  rewrite length_app. simpl length.
  destruct (decide (i = n + length l)%nat) as [->|].
  - rewrite list_lookup_insert_eq by len. rewrite decide_True by lia.
    rewrite lookup_app_r by lia. by replace (_ - _ - _)%nat with 0%nat by lia.
  - rewrite list_lookup_insert_ne, lookup_overwrite by len.
    repeat case_decide; try lia; [|done]. by rewrite lookup_app_l by lia.
Qed.

(** Writing [t] and a terminator where the contents end appends [t]. *)
Lemma holds_append_cstring f s b t :
  holds f s → fb_data f = Some b →
  let n := Z.of_nat (length t) in
  fb_used f + n < fb_len f - fb_skip f →
  let f' := fbuf_upd f (Some (overwrite b (Z.to_nat (fb_skip f + fb_used f)) (cstring t)))
              (fb_len f) (fb_used f + n) (fb_skip f) in
  holds f' (s ++ t) ∧ terminated f'.
Proof.
  intros Hf Hb n Hn f'. destruct (holds_append f s b n t Hf Hb eq_refl Hn) as [Hh Ht].
  pose proof Hf as []. rewrite Hb in h_data0.
  assert (length (bytes t) = length t) as Hlt by (unfold bytes; len).
  unfold f', cstring. rewrite overwrite_snoc by lia. rewrite Hlt.
  replace (Z.to_nat (fb_skip f + fb_used f) + length t)%nat
    with (Z.to_nat (fb_skip f + (fb_used f + n))) by lia. done.
Qed.

(** The same bytes with nothing of them in use. *)
Lemma holds_reset f s :
  holds f s → 0 < fb_len f →
  holds (fbuf_upd f (fb_data f) (fb_len f) 0 (fb_skip f)) [].
Proof.
  intros Hf Hl. destruct (holds_some f s Hf Hl) as (b&Hb&Hlb&Hk&Hu&Hc).
  pose proof Hf as []. split; simpl; try done. rewrite Hb. split_and!; try done; lia.
Qed.

Lemma holds_cstring f s b :
  holds f s → terminated f → fb_data f = Some b →
  take (Z.to_nat (fb_used f + 1)) (drop (Z.to_nat (fb_skip f)) b) = cstring s.
Proof.
  intros [] Ht Hb. unfold terminated in Ht. rewrite Hb in *.
  destruct h_data0 as (Hlb&Hk&Hu&Hc).
  replace (Z.to_nat (fb_used f + 1)) with (S (length s)) by lia.
  unfold cstring. rewrite <- Hc. apply take_S_r. rewrite lookup_drop.
  rewrite <- Ht. f_equal. lia.
Qed.

Lemma length_cstring t : length (cstring t) = S (length t).
Proof. unfold cstring, bytes. len. Qed.

(** What replacing the contents by [t] does, when there may be no room. *)
Definition sets (f : fbuf_t) (t : list Z) (f' : fbuf_t) (r : Z) : Prop :=
  if over_limit f (Z.of_nat (length t)) then f' = f ∧ r = -1
  else r = Z.of_nat (length t) ∧ holds f' t ∧ terminated f' ∧
       same_params f f' ∧ 0 < fb_len f'.

Lemma fbuf_set_returns f s t w :
  holds f s → alloc_ok w → Z.of_nat (length t) < INT_MAX →
  Z.of_nat (length t) + 1 + slow_of f ≤ 2 ^ 32 →
  returns (fbuf_set f t w) (λ '((f', r), w'), alloc_ok w' ∧ sets f t f' r).
Proof.
  intros Hf Hok Hn Hw. set (n := Z.of_nat (length t)) in *.
  pose proof (slow_of_range f s Hf). pose proof length_cstring t as Hlc.
  unfold fbuf_set, sets. fold n.
  rewrite (u32_small n), as_int_small, (u32_small n) by (int_bounds; lia). go.
  eapply returns_mono; [apply (fbuf_extend_returns f s); [done|done|lia|lia]|].
  intros [[f1 r] w1]. destruct (over_limit f n).
  { intros (->&->&Hw1&_). go. split_and!; try done. by destruct Hw1. }
  intros [[-> Hr] Hh Hroom Hp Hw1 _].
  rewrite (proj2 (Z.eqb_neq _ 0)) by lia. go.
  destruct (holds_some f1 s Hh Hr) as (b&Hb&Hlb&Hk&Hu&Hc).
  rewrite Hb. apply returns_memcpy_; [lia..|]. go.
  destruct (holds_append_cstring _ [] b t (holds_reset f1 s Hh Hr) Hb) as [Hh' Ht'];
    [fb; lia|]. revert Hh' Ht'. fb. rewrite Z.add_0_r, drop_0, take_ge by lia.
  intros. split_and!; try done. by destruct Hw1.
Qed.

Lemma fbuf_concat_returns f s g t w :
  holds f s → holds g t → terminated g → alloc_ok w → t ≠ [] →
  Z.of_nat (length t) < INT_MAX →
  fb_used f + Z.of_nat (length t) + 1 + slow_of f ≤ 2 ^ 32 →
  returns (fbuf_concat f g w) (λ '((f', r), w'),
    alloc_ok w' ∧ adds f (Z.of_nat (length t)) (s ++ t) f' r ∧ (0 ≤ r → terminated f')).
Proof.
  intros Hf Hg Htg Hok Hnil Hn Hw. set (n := Z.of_nat (length t)) in *.
  assert (0 < n) by (destruct t; [done|subst n; simpl; lia]).
  pose proof (slow_of_range f s Hf). pose proof (h_used f s Hf). pose proof (h_used g t Hg) as Hgu.
  unfold fbuf_concat, adds. rewrite Hgu. fold n.
  rewrite (proj2 (Z.eqb_neq n 0)), as_int_small by lia. go.
  rewrite (u32_small (fb_used f + n)) by lia.
  eapply returns_mono; [apply (fbuf_extend_returns f s); [done|done|lia|lia]|].
  intros [[f1 r] w1]. destruct (over_limit f (fb_used f + n)).
  { intros (->&->&Hw1&_). go. split_and!; try done. by destruct Hw1. }
  intros [[-> Hr] Hh Hroom Hp Hw1 _].
  rewrite (proj2 (Z.eqb_neq _ 0)) by lia. go.
  destruct (holds_some f1 s Hh Hr) as (b&Hb&Hlb&Hk&Hu&Hc).
  destruct (holds_some g t Hg) as (c&Hcd&Hlc&Hck&Hcu&_).
  { destruct Hg. destruct (fb_data g); [lia|]. by destruct h_data0 as (_&?&_). }
  pose proof (h_len f1 s Hh). pose proof (h_used f1 s Hh).
  rewrite Hb, Hcd. apply returns_memcpy_; [lia..|]. go.
  pose proof (holds_cstring g t c Hg Htg Hcd) as Hcs. rewrite Hgu in Hcs. fold n in Hcs.
  rewrite Hcs, u32_small by lia.
  destruct (holds_append_cstring f1 s b t Hh Hb) as [Hh' Ht']; [lia|].
  split_and!; try done. by destruct Hw1.
Qed.

(** The length is a power-of-two bound away from wrapping for the default
    growth sizes a new buffer has. *)
Lemma holds_new id maxlen :
  0 ≤ maxlen < UINT_MAX →
  holds (mk_fbuf id None 0 maxlen FBUF_MINLEN FBUF_FASTGROWSIZE FBUF_SLOWGROWSIZE 0 0) [].
Proof. by split. Qed.

Lemma fbuf_copy_returns f s g t w :
  holds g t → holds f s → alloc_ok w →
  Z.of_nat (length t) < INT_MAX →
  Z.of_nat (length t) + 1 + slow_of f ≤ 2 ^ 32 →
  returns (fbuf_copy g f w) (λ '((f', r), w'), alloc_ok w' ∧ sets f t f' r).
Proof.
  intros Hg Hf Hok Hn Hw. set (n := Z.of_nat (length t)) in *.
  pose proof (slow_of_range f s Hf). pose proof (h_used g t Hg) as Hgu.
  unfold fbuf_copy, sets. rewrite Hgu. fold n. go.
  eapply returns_mono; [apply (fbuf_extend_returns f s); [done|done|lia|lia]|].
  intros [[f1 r] w1]. destruct (over_limit f n).
  { intros (->&->&Hw1&_). go. split_and!; try done. by destruct Hw1. }
  intros [[-> Hr] Hh Hroom Hp Hw1 _].
  rewrite (proj2 (Z.eqb_neq _ 0)) by lia. go.
  eapply returns_mono; [by apply (fbuf_clear_returns f1 s)|].
  intros [f2 w2] [[-> Hh2 Hp2 Hl2 _] [_ Hs2]]. go.
  assert (0 ≤ fb_skip f1) by (destruct Hh; destruct (fb_data f1); lia).
  destruct (holds_some f2 [] Hh2 ltac:(lia)) as (b&Hb&Hlb&Hk&Hu&_).
  pose proof (h_len f2 _ Hh2). pose proof (h_used f2 _ Hh2) as Hu2. simpl in Hu2.
  rewrite Hb, Hs2, u32_small by lia.
  destruct (holds_append f2 [] b n t Hh2 Hb eq_refl ltac:(lia)) as [Hh' Ht'].
  revert Hh' Ht'. rewrite Hs2, Hu2, !Z.add_0_l. intros Hh' Ht'.
  assert (same_params f f2) by (by eauto using same_params_trans).
  rewrite as_int_small by lia.
  assert (returns (memcpy_ (Some b) 0 (fb_data g) (fb_skip g) n w1) (λ '(d, w'),
    w' = w1 ∧ d = Some (overwrite b 0 (bytes t)))) as Hm.
  { destruct (decide (n = 0)) as [Hn0|].
    - rewrite Hn0. destruct t; [|simpl in *; lia]. simpl. split; [done|].
      unfold overwrite. simpl. done.
    - destruct (holds_some g t Hg) as (c&->&Hlc&Hck&Hcu&Hct).
      { destruct Hg. destruct (fb_data g); [lia|]. by destruct h_data0 as (_&->&_). }
      apply returns_memcpy_; [lia..|]. split; [done|].
      replace (Z.to_nat n) with (length t) by lia. by rewrite Hct. }
  go. eapply returns_mono; [exact Hm|]. intros [d w3] [-> ->]. go.
  apply returns_store_; [unfold bytes; len|]. go.
  split_and!; try done; [by destruct Hw1|fb; lia].
Qed.

Lemma fbuf_duplicate_returns g t w :
  holds g t → alloc_ok w → Z.of_nat (length t) ≤ INT_MAX →
  (fb_maxlen g = 0 ∨ Z.of_nat (length t) ≤ fb_maxlen g) →
  returns (fbuf_duplicate g w) (λ '(od, w'),
    alloc_ok w' ∧ ∃ d, od = Some d ∧ holds d t ∧ terminated d ∧ fb_maxlen d = fb_maxlen g).
Proof.
  intros Hg Hok Hn Hmax. pose proof Hg as []. unfold fbuf_duplicate, fbuf_create. go.
  apply returns_alloc_answer; [done|]. intros w1 Hw1. go. unfold next_id. go.
  set (w2 := mk_world _ _ _ _ _ _ _).
  assert (alloc_ok w2) by (by destruct Hw1).
  set (d := mk_fbuf _ _ _ _ _ _ _ _ _).
  assert (holds d []) as Hd by by apply holds_new.
  case_if; go.
  - assert (t = []) as -> by (destruct t; [done|simpl in *; lia]).
    split; [done|]. exists d. by split_and!.
  - destruct (holds_some g t Hg) as (b&Hb&Hlb&Hk&Hu&Hc).
    { destruct (fb_data g); [lia|]. by destruct h_data0 as (_&->&_). }
    rewrite Hb. simpl deref. go. rewrite h_used0, as_int_small by lia.
    assert (slow_of d = 1024) as Hs by done. assert (fb_used d = 0) as Hdu by done.
    assert (t ≠ []) by (intros ->; simpl in *; lia).
    eapply returns_mono; [apply (fbuf_add_binary_returns d []); try done|].
    { rewrite Hdu, Hs. int_bounds. lia. }
    intros [[d1 r] w3]. intros (Hw3&Ha&Ht). go. split; [done|]. exists d1. unfold adds in Ha.
    replace (over_limit d _) with false in Ha.
    + destruct Ha as (->&?&Hp&?). split_and!; try done; [apply Ht; lia|by destruct Hp].
    + symmetry. unfold over_limit. change (fb_maxlen d) with (fb_maxlen g).
      rewrite Hdu. lia.
Qed.

(** ** Shrinking *)

Lemma shrink_returns f s len :
  holds f s → slow_of f ≤ fast_of f → fb_used f + 1 ≤ len < 2 ^ 32 →
  returns (loop (shrink_body f (fast_of f) (slow_of f)) len) (λ l,
    fb_used f + 1 ≤ l ≤ len).
Proof.
  intros Hf Hsf Hl. pose proof (slow_of_range f s Hf). pose proof Hf as [].
  apply loop_returns with (I := λ l, fb_used f + 1 ≤ l ≤ len) (μ := λ l, l); [|lia|lia].
  intros l Hll _. unfold shrink_body. apply returns_if; intros E; bool_prop; go; [lia|].
  set (l' := if l <=? fast_of f then l / 2 else u32 (l - slow_of f)).
  assert (l' < l).
  { unfold l'. case_if; [apply Z.div_lt; lia|]. rewrite u32_small by lia. lia. }
  rewrite u32_small by lia. apply returns_if; intros E'; bool_prop; go; lia.
Qed.

(** A prefix of the buffer that still has the contents and the terminator. *)
Lemma holds_truncate f s b len :
  holds f s → fb_data f = Some b → fb_skip f = 0 → fb_used f < len ≤ fb_len f →
  let f' := fbuf_upd f (Some (resize b (Z.to_nat len))) len (fb_used f) (fb_skip f) in
  holds f' s ∧ (terminated f → terminated f').
Proof.
  intros [] Hb Hs Hl f'. rewrite Hb in h_data0. destruct h_data0 as (Hlb&Hk&Hu&Hc).
  assert (resize b (Z.to_nat len) = take (Z.to_nat len) b) as Hre.
  { unfold resize. replace (Z.to_nat len - length b)%nat with 0%nat by lia.
    by rewrite app_nil_r. }
  unfold f', terminated. rewrite Hre, Hb. fb. split.
  - split; fb; try done; [lia|]. split_and!; [len|lia|lia|].
    rewrite <- Hc, Hs, !drop_0, take_take. f_equal. lia.
  - intros Ht. by rewrite lookup_take_lt by lia.
Qed.

(** The outcome of [fbuf_shrink]: the contents are kept, the buffer is not
    longer than before and is given back entirely when it is empty. *)
Record shrunk (f : fbuf_t) (s : list Z) (w : world) (f' : fbuf_t) (r : Z) (w' : world) :
    Prop := {
  sh_ret : r = fb_len f';
  sh_holds : holds f' s;
  sh_len : fb_len f' ≤ fb_len f;
  sh_empty : s = [] → fb_data f' = None;
  sh_params : same_params f f';
  sh_world : allocd w w' (owned f' - owned f);
  sh_term : terminated f → terminated f'
}.

Lemma fbuf_shrink_start f s w :
  holds f s → alloc_ok w →
  returns ((if negb (fb_skip f =? 0) then fbuf_unskip f else mret f) w) (λ '(f', w'),
    w' = w ∧ holds f' s ∧ fb_len f' = fb_len f ∧ fb_skip f' = 0 ∧
    same_params f f' ∧ owned f' = owned f ∧ (terminated f → terminated f')).
Proof.
  intros Hf Hok. case_if.
  - eapply returns_mono; [by apply (fbuf_unskip_returns f s)|].
    intros [f' w']. intros (->&?&?&?&?&?&_&?). by split_and!.
  - go. split_and!; try done.
Qed.

Lemma fbuf_shrink_returns f s w :
  holds f s → alloc_ok w → slow_of f ≤ fast_of f →
  returns (fbuf_shrink f w) (λ '((f', r), w'), shrunk f s w f' r w').
Proof.
  intros Hf Hok Hsf. unfold fbuf_shrink. go.
  eapply returns_mono; [by apply (fbuf_shrink_start f s)|].
  intros [f1 w1]. intros (->&Hh&Hl&Hs&Hp&Ho&Ht). go.
  pose proof Hh as [].
  assert (slow_of f1 = slow_of f ∧ fast_of f1 = fast_of f) as [Hs1 Hf1].
  { unfold slow_of, fast_of. by destruct Hp as (_&_&->&->). }
  assert (∀ q, allocd w q 0 → allocd w q (owned f1 - owned f)) as Hz
    by (intros q; by replace (owned f1 - owned f) with 0 by lia).
  destruct (fb_used f1 =? 0) eqn:E; bool_prop.
  - assert (s = []) as -> by (destruct s; [done|simpl in *; lia]).
    eapply returns_mono with (P := λ l, l = 0).
    { apply loop_returns with (I := λ l, l = 0) (μ := λ l, 0); [|done|done].
      intros l -> _. unfold shrink_body. by rewrite (proj2 (Z.leb_le 0 _)) by lia. }
    intros l ->. case_if; go.
    + split; try done; [lia|intros _; destruct (fb_data f1); [lia|done]|].
      by apply Hz, allocd_refl.
    + unfold free_. destruct (fb_data f1) as [b|] eqn:Hb; [|lia].
      change (0 =? 0) with true. go. apply returns_count_live; [done|]. intros w2 Hw2. go.
      split; fb; try done; [lia|].
      rewrite <- Ho. unfold owned. rewrite Hb. done.
  - rewrite Hs1, Hf1. rewrite <- Hs1, <- Hf1.
    eapply returns_mono; [apply (shrink_returns f1 s); [done|lia|]|].
    { destruct (fb_data f1); [lia|]. destruct h_data0 as (_&->&_). done. }
    intros l [Hll1 Hll2]. case_if; go.
    { split; try done; [lia| |by apply Hz, allocd_refl].
      intros ->. simpl in *. lia. }
    rewrite (proj2 (Z.eqb_neq l 0)) by lia. go.
    destruct (fb_data f1) as [b|] eqn:Hb; [|destruct h_data0 as (_&->&_); done].
    apply returns_realloc_; [done|lia|]. intros w2 Hw2. go.
    destruct (holds_truncate f1 s b l Hh Hb Hs ltac:(lia)) as [Hh' Ht'].
    split; try done; fb; [lia|intros ->; simpl in *; lia| |intros ?; by apply Ht', Ht].
    rewrite <- Ho. unfold owned. simpl. by rewrite Hb.
Qed.

(** ** Formatted output and input *)

(** What an operation that appends [t] to an extended buffer gives. *)
Record appended (f : fbuf_t) (s t : list Z) (f' : fbuf_t) : Prop := {
  ap_holds : holds f' (s ++ t);
  ap_term : terminated f';
  ap_params : same_params f f';
  ap_len : fb_len f' = fb_len f
}.

Lemma fbuf_grown_returns f s b t tail n w :
  holds f s → fb_data f = Some b → n = Z.of_nat (length t) →
  fb_used f + n < fb_len f - fb_skip f →
  fb_used f + n + Z.of_nat (length tail) ≤ fb_len f - fb_skip f →
  returns (fbuf_grown f (Some (overwrite b (Z.to_nat (fb_skip f + fb_used f))
             (bytes t ++ tail))) n w) (λ '(f', w'), w' = w ∧ appended f s t f').
Proof.
  intros Hf Hb Hn Hr Htl. pose proof (h_len f s Hf). pose proof (h_used f s Hf).
  assert (length (bytes t) = length t) as Hlt by (unfold bytes; len).
  destruct (holds_some f s Hf) as (b'&Hb'&Hlb&Hk&Hu&Hc).
  { destruct Hf. rewrite Hb in *. lia. }
  assert (b' = b) as -> by congruence. set (off := Z.to_nat (fb_skip f + fb_used f)).
  pose proof (holds_append_raw f s b n t Hf Hb Hn Hr) as Hh. fold off in Hh.
  eapply holds_scribble with (t := tail) in Hh; [|reflexivity|fb; lia]. revert Hh. fb.
  replace (Z.to_nat (fb_skip f + (fb_used f + n))) with (off + length (bytes t))%nat by lia.
  rewrite overwrite_app by lia. intros Hh.
  destruct (holds_cut _ _ _ (fb_used f + n) Hh eq_refl) as [Hh' Ht']; [fb; lia|].
  rewrite take_ge in Hh' by len. unfold fbuf_grown.
  rewrite (u32_small (fb_used f + n)), u32_small by lia. go.
  apply returns_store_; [rewrite length_overwrite by len; lia|]. go. done.
Qed.

Lemma returns_vsnprintf_ d off n text w Q :
  0 ≤ off → 0 < n → off + n ≤ Z.of_nat (length d) →
  Z.of_nat (length text) < 2 ^ 32 →
  Q ((Some (overwrite d (Z.to_nat off) (cstring (take (Z.to_nat (n - 1)) text))),
      Z.of_nat (length text)), w) →
  returns (vsnprintf_ (Some d) off n text w) Q.
Proof.
  intros ???? HQ. unfold vsnprintf_. rewrite (proj2 (Z.eqb_neq n 0)) by lia.
  simpl deref. go. apply returns_write_range; [lia|unfold bytes; len|]. go.
  by rewrite u32_small by lia.
Qed.

(** One formatted write into an extended buffer with enough room. *)
Lemma fbuf_print_fits f s text w :
  holds f s → 0 < fb_len f → fb_used f + Z.of_nat (length text) < fb_len f - fb_skip f →
  returns ((vsnprintf_ (fb_data f) (fb_skip f + fb_used f) (fbuf_room f) text ≫=
      λ '(d, n), fbuf_grown f d n ≫= λ f', mret (f', as_int n)) w)
    (λ '((f', r), w'), w' = w ∧ appended f s text f' ∧ r = as_int (Z.of_nat (length text))).
Proof.
  intros Hf Hl Hr. destruct (holds_some f s Hf Hl) as (b&Hb&Hlb&Hk&Hu&Hc).
  pose proof (h_len f s Hf). pose proof (h_used f s Hf).
  unfold fbuf_room. rewrite (u32_small (fb_skip f + fb_used f)), u32_small, Hb by lia. go.
  apply returns_vsnprintf_; [lia..|]. go. rewrite take_ge by lia. unfold cstring.
  eapply returns_mono; [by apply (fbuf_grown_returns f s); simpl; try lia|].
  intros [f' w']. intros [-> Ha]. go. done.
Qed.

Lemma fbuf_nprintf_returns f s max text w :
  holds f s → alloc_ok w → Z.of_nat (length text) ≤ max →
  fb_used f + max + 1 + slow_of f ≤ 2 ^ 32 →
  returns (fbuf_nprintf f max text w) (λ '((f', r), w'),
    alloc_ok w' ∧
    if over_limit f (fb_used f + max) then f' = f ∧ r = -1
    else holds f' (s ++ text) ∧ terminated f' ∧ same_params f f' ∧ 0 < fb_len f' ∧
         r = as_int (Z.of_nat (length text))).
Proof.
  intros Hf Hok Hm Hw. pose proof (slow_of_range f s Hf). pose proof (h_used f s Hf).
  unfold fbuf_nprintf. go. rewrite (u32_small (fb_used f + max)) by lia.
  eapply returns_mono; [apply (fbuf_extend_returns f s); [done|done|lia|lia]|].
  intros [[f1 r] w1]. destruct (over_limit f (fb_used f + max)).
  { intros (->&->&Hw1&_). go. split_and!; try done. by destruct Hw1. }
  intros [[-> Hr] Hh Hroom Hp Hw1 _]. rewrite (proj2 (Z.eqb_neq _ 0)) by lia.
  pose proof (h_used f1 s Hh).
  eapply returns_mono; [apply (fbuf_print_fits f1 s text w1); [done|done|lia]|].
  intros [[f2 r2] w2]. intros (->&[? ? Hp2 ->]&->). split_and!; try done; [by destruct Hw1|].
  by eauto using same_params_trans.
Qed.

(** The outcome of [fbuf_printf]: everything is printed, or the limit does not
    allow it and the contents are what they were. *)
Definition printed (f : fbuf_t) (s text : list Z) (f' : fbuf_t) (r : Z) : Prop :=
  same_params f f' ∧ (0 < fb_len f → 0 < fb_len f') ∧
  (holds f' (s ++ text) ∧ terminated f' ∧ r = as_int (Z.of_nat (length text)) ∨
   holds f' s ∧ r = -1 ∧ (terminated f → terminated f') ∧
   0 < fb_maxlen f < fb_used f + FBUF_LINE_EST `max` Z.of_nat (length text)).

Lemma fbuf_printf_returns f s text w :
  holds f s → alloc_ok w →
  fb_used f + FBUF_LINE_EST + Z.of_nat (length text) + 1 + slow_of f ≤ 2 ^ 32 →
  returns (fbuf_printf f text w) (λ '((f', r), w'),
    alloc_ok w' ∧ printed f s text f' r).
Proof.
  intros Hf Hok Hw. pose proof (slow_of_range f s Hf). pose proof (h_used f s Hf).
  pose proof (h_maxlen f s Hf). set (n := Z.of_nat (length text)) in *.
  assert (FBUF_LINE_EST = 128) as He by done. unfold fbuf_printf, printed. go. rewrite He in *.
  rewrite (u32_small (fb_used f + 128)) by lia.
  eapply returns_mono; [apply (fbuf_extend_returns f s); [done|done|lia|lia]|].
  intros [[f1 r] w1]. destruct (over_limit f (fb_used f + 128)) eqn:Ho.
  { intros (->&->&Hw1&_). go. split; [by destruct Hw1|]. do 2 (split; [done|]). right.
    unfold over_limit in Ho. split_and!; try done; lia. }
  intros [[-> Hr] Hh Hroom Hp Hw1 _]. rewrite (proj2 (Z.eqb_neq _ 0)) by lia.
  destruct (holds_some f1 s Hh Hr) as (b&Hb&Hlb&Hk&Hu&Hc).
  pose proof (h_len f1 s Hh). pose proof (h_used f1 s Hh).
  assert (fbuf_room f1 = fb_len f1 - (fb_skip f1 + fb_used f1)) as Hfr
    by (unfold fbuf_room; rewrite (u32_small (fb_skip f1 + _)), u32_small; lia).
  assert (alloc_ok w1) as Hok1 by (by destruct Hw1).
  go. rewrite Hfr, Hb. apply returns_vsnprintf_; [lia..|]. go. fold n.
  set (text' := take _ text). set (f2 := fbuf_upd f1 _ _ _ _).
  assert (fbuf_room f2 = fbuf_room f1) as Hfr2 by done. rewrite Hfr2, Hfr.
  assert (length text' ≤ length text)%nat by (unfold text'; len).
  case_if; go.
  - assert (holds f2 s) as Hh2.
    { apply holds_scribble; [done|done|]. rewrite length_cstring. unfold text'. len. }
    assert (same_params f f2 ∧ fb_len f2 = fb_len f1 ∧ fb_used f2 = fb_used f1 ∧
      fb_skip f2 = fb_skip f1) as (Hp2&Hl2&Hu2&Hk2) by (by split_and!).
    clearbody f2. rewrite u32_small by lia.
    assert (slow_of f2 = slow_of f) as Hs2
      by (unfold slow_of; by destruct Hp2 as (_&_&_&->)).
    eapply returns_mono; [apply (fbuf_extend_returns f2 s); [done|done|lia|lia]|].
    intros [[f3 r] w3]. destruct (over_limit f2 (fb_used f2 + n)) eqn:Ho2.
    + intros (->&->&Hw3&_). rewrite u32_small by lia. go.
      destruct (holds_some f2 s Hh2 ltac:(lia)) as (c&Hc2&Hlc&_). rewrite Hc2. change (0 =? 0) with true. go.
      apply returns_store_; [lia|]. go. split; [by destruct Hw3|].
      do 2 (split; [done || (intros _; fb; lia)|]). right. destruct (holds_cut f2 s c (fb_used f2) Hh2 Hc2 ltac:(lia)) as [Hh' Ht'].
      rewrite take_ge in Hh' by lia. split_and!; try done; unfold over_limit in Ho2;
      destruct Hp2 as (Hm2&_); lia.
    + intros [[-> Hr3] Hh3 Hroom3 Hp3 Hw3 _]. rewrite (proj2 (Z.eqb_neq _ 0)) by lia.
      pose proof (h_used f3 s Hh3).
      eapply returns_mono; [apply (fbuf_print_fits f3 s text w3); [done|done|lia]|].
      intros [[f4 r4] w4]. intros (->&[? ? Hp4 Hl4]&->). split; [by destruct Hw3|].
      split; [|split; [intros _; lia|left; by split_and!]].
      by eauto using same_params_trans.
  - assert (text' = text) as -> by (unfold text'; apply take_ge; lia).
    change (fbuf_grown f2) with (fbuf_grown f1).
    eapply returns_mono; [apply (fbuf_grown_returns f1 s b text [Some 0]); simpl; try done; lia|].
    intros [f4 w4]. intros (->&[? ? Hp4 Hl4]). go. split; [done|].
    split; [|split; [intros _; lia|left; by split_and!]].
    by eauto using same_params_trans.
Qed.

Lemma read_bytes_length n i bs i' : read_bytes n i = (Some bs, i') → (length bs ≤ n)%nat.
Proof.
  destruct i as [|[cs|] i]; simpl; intros ?; simplify_eq; [simpl; lia|].
  case_match eqn:E; simplify_eq; [by apply Nat.leb_le in E|]. len.
Qed.
Lemma fread_bytes_length n i bs i' : fread_bytes n i = (bs, i') → (length bs ≤ n)%nat.
Proof.
  revert n bs i'. induction i as [|[[|c cs]|] i IH]; intros n bs i'; simpl; intros He;
    simplify_eq; simpl; try lia.
  case_match eqn:E; simplify_eq; [len|]. apply Nat.ltb_ge in E.
  case_match eqn:E'; simplify_eq; [by apply Nat.eqb_eq in E'; simpl in *; lia|].
  destruct (fread_bytes (n - S (length cs)) i) as [ds i1] eqn:Hd.
  injection He as <- <-. apply IH in Hd. simpl in *. rewrite length_app. lia.
Qed.

Lemma returns_put_ b off bs w Q :
  0 ≤ off → off + Z.of_nat (length bs) ≤ Z.of_nat (length b) →
  Q (Some (overwrite b (Z.to_nat off) (bytes bs)), w) →
  returns (put_ (Some b) off bs w) Q.
Proof.
  intros Ho Hb HQ. destruct bs as [|c bs].
  - simpl. unfold overwrite in HQ. simpl in HQ. rewrite Nat.add_0_r in HQ.
    by rewrite take_drop in HQ.
  - unfold put_. simpl deref. go.
    apply returns_write_range; [lia|unfold bytes; rewrite length_fmap; lia|]. go. done.
Qed.

(** The number of bytes that [read], [fread] and [write] return is stored in an
    [int]: it is negative above [INT_MAX], and no byte counts then. *)
Definition counted (bs : list Z) : list Z := if Z.of_nat (length bs) <=? INT_MAX then bs else [].
Definition int_count (n : nat) : Z := as_int (u32 (Z.of_nat n)).

Lemma int_count_small n : Z.of_nat n ≤ INT_MAX → int_count n = Z.of_nat n.
Proof. intros Hn. unfold int_count. rewrite u32_small by (int_bounds; lia). by rewrite as_int_small by lia. Qed.
Lemma int_count_large n : INT_MAX < Z.of_nat n < 2 ^ 32 → int_count n = Z.of_nat n - 2 ^ 32.
Proof.
  intros Hn. unfold int_count. rewrite u32_small by (int_bounds; lia). unfold as_int.
  by rewrite (proj2 (Z.leb_gt _ _)) by lia.
Qed.
Lemma int_count_counted bs :
  Z.of_nat (length bs) < 2 ^ 32 →
  (if 0 <? int_count (length bs) then int_count (length bs) else 0) = Z.of_nat (length (counted bs)).
Proof.
  intros Hbs. unfold counted. destruct (Z.leb_spec (Z.of_nat (length bs)) INT_MAX) as [H|H].
  - rewrite int_count_small by done. destruct (Z.ltb_spec 0 (Z.of_nat (length bs))); lia.
  - rewrite int_count_large by lia. rewrite (proj2 (Z.ltb_ge _ _)) by (int_bounds; lia). done.
Qed.

(** Bytes delivered after the contents of an extended buffer. *)
Lemma fbuf_deliver f s bs (r : Z) w :
  holds f s → 0 < fb_len f → fb_used f + Z.of_nat (length bs) < fb_len f - fb_skip f →
  returns ((put_ (fb_data f) (fb_skip f + fb_used f) bs ≫= λ d,
      fbuf_grown f d (Z.of_nat (length (counted bs))) ≫= λ f', mret (f', r)) w)
    (λ '((f', r'), w'), w' = w ∧ appended f s (counted bs) f' ∧ r' = r).
Proof.
  intros Hf Hl Hr. destruct (holds_some f s Hf Hl) as (b&Hb&Hlb&Hk&Hu&Hc).
  pose proof (h_used f s Hf). rewrite Hb. go. apply returns_put_; [lia..|]. go.
  assert (∃ tail, bytes bs = bytes (counted bs) ++ tail ∧ length bs = (length (counted bs) + length tail)%nat) as (tail&->&Hlen).
  { unfold counted. case_if; [exists []; rewrite app_nil_r; simpl; split; [done|lia]|].
    exists (bytes bs). unfold bytes. by rewrite length_fmap. }
  eapply returns_mono; [apply (fbuf_grown_returns f s); simpl; try done; lia|].
  intros [f' w']. intros [-> Ha]. go. done.
Qed.

(** The length [fbuf_read] and [fbuf_fread] ask for. *)
Definition expected (explen : Z) : Z := if explen =? 0 then FBUF_READ_EST else explen.

(** The outcome of one [read]: its bytes are appended, unless their number is
    not an [int]; on an error the contents stay and [-1] is returned. *)
Definition received (f : fbuf_t) (s : list Z) (got : option (list Z)) (f' : fbuf_t) (r : Z) :
    Prop :=
  same_params f f' ∧ terminated f' ∧ 0 < fb_len f' ∧
  match got with
  | Some bs => holds f' (s ++ counted bs) ∧ r = int_count (length bs)
  | None => holds f' s ∧ r = -1
  end.

Lemma fbuf_read_returns f s explen w :
  holds f s → alloc_ok w → 0 ≤ explen →
  fb_used f + expected explen + 1 + slow_of f ≤ 2 ^ 32 →
  over_limit f (fb_used f + expected explen) = false →
  let '(got, rest) := read_bytes (Z.to_nat (expected explen)) (w_in w) in
  returns (fbuf_read f explen w) (λ '((f', r), w'),
    alloc_ok w' ∧ w_in w' = rest ∧ received f s got f' r).
Proof.
  intros Hf Hok He Hw Hov. pose proof (slow_of_range f s Hf). pose proof (h_used f s Hf).
  destruct (read_bytes _ (w_in w)) as [got rest] eqn:Hrd. unfold fbuf_read.
  fold (expected explen). assert (0 < expected explen) by (unfold expected; case_if; [done|lia]).
  go. rewrite (u32_small (fb_used f + _)) by lia.
  eapply returns_mono; [apply (fbuf_extend_returns f s); [done|done|lia|lia]|].
  intros [[f1 r] w1]. rewrite Hov.
  intros [[-> Hr] Hh Hroom Hp [Hok1 _ Hin _ _] _]. rewrite (proj2 (Z.eqb_neq _ 0)) by lia.
  pose proof (h_used f1 s Hh). go. unfold read_ at 1. rewrite Hin, Hrd.
  apply returns_Ret. cbv beta iota zeta.
  destruct got as [bs|]; simpl default.
  - apply read_bytes_length in Hrd. fold (int_count (length bs)). rewrite int_count_counted by lia.
    eapply returns_mono; [apply (fbuf_deliver f1 s bs); [done|done|lia]|].
    intros [[f2 r2] w2]. intros (->&[? ? Hp2 Hl2]&->). unfold received.
    split_and!; try done; [|lia]. by eauto using same_params_trans.
  - pose proof (fbuf_deliver f1 s [] (-1) (set_in rest w1) Hh Hr ltac:(simpl; lia)) as Hd.
    eapply returns_mono; [exact Hd|].
    intros [[f2 r2] w2]. intros (->&[Hh2 ? Hp2 Hl2]&->). unfold received.
    rewrite app_nil_r in Hh2. split_and!; try done; [|lia].
    by eauto using same_params_trans.
Qed.

Lemma fbuf_fread_returns f s explen w :
  holds f s → alloc_ok w → 0 ≤ explen →
  fb_used f + expected explen + 1 + slow_of f ≤ 2 ^ 32 →
  over_limit f (fb_used f + expected explen) = false →
  let '(bs, rest) := fread_bytes (Z.to_nat (expected explen)) (w_in w) in
  returns (fbuf_fread f explen w) (λ '((f', r), w'),
    alloc_ok w' ∧ w_in w' = rest ∧ received f s (Some bs) f' r).
Proof.
  intros Hf Hok He Hw Hov. pose proof (slow_of_range f s Hf). pose proof (h_used f s Hf).
  destruct (fread_bytes _ (w_in w)) as [bs rest] eqn:Hrd. unfold fbuf_fread.
  fold (expected explen). assert (0 < expected explen) by (unfold expected; case_if; [done|lia]).
  go. rewrite (u32_small (fb_used f + _)) by lia.
  eapply returns_mono; [apply (fbuf_extend_returns f s); [done|done|lia|lia]|].
  intros [[f1 r] w1]. rewrite Hov.
  intros [[-> Hr] Hh Hroom Hp [Hok1 _ Hin _ _] _]. rewrite (proj2 (Z.eqb_neq _ 0)) by lia.
  pose proof (h_used f1 s Hh). go. unfold fread_ at 1. rewrite Hin, Hrd.
  apply returns_Ret. cbv beta iota zeta.
  apply fread_bytes_length in Hrd. fold (int_count (length bs)). rewrite int_count_counted by lia.
  eapply returns_mono; [apply (fbuf_deliver f1 s bs); [done|done|lia]|].
  intros [[f2 r2] w2]. intros (->&[? ? Hp2 Hl2]&->). unfold received.
  split_and!; try done; [|lia]. by eauto using same_params_trans.
Qed.

(** ** Reading lines *)

(** Input that never fails and delivers at least one byte per call. *)
Definition streaming (i : list (option (list Z))) : Prop :=
  Forall (λ c, ∃ b bs, c = Some (b :: bs)) i.
Definition stream (i : list (option (list Z))) : list Z := mjoin (default [] <$> i).

(** A way to get one byte of the input. *)
Class Reader (get : M (list Z)) : Prop :=
  reader_next w c l : streaming (w_in w) → stream (w_in w) = c :: l →
    ∃ i, get w = Ret ([c], set_in i w) ∧ streaming i ∧ stream i = l.

Lemma streaming_inv i c l :
  streaming i → stream i = c :: l →
  ∃ cs i', i = Some (c :: cs) :: i' ∧ l = cs ++ stream i' ∧ streaming i'.
Proof.
  intros Hs Hl. destruct Hs as [|? i (b&bs&->) Hs]; [done|].
  unfold stream in Hl. simpl in Hl. simplify_eq. by exists bs, i.
Qed.

#[global] Instance fread_reader : Reader (fread_ 1).
Proof.
  intros w c l Hs Hl. apply streaming_inv in Hl as (cs&i&Hi&->&Hs'); [|done].
  unfold fread_. rewrite Hi. change (Z.to_nat 1) with 1%nat. simpl fread_bytes.
  destruct cs as [|d cs]; simpl; eexists; (split; [done|]); split; try done.
  constructor; [by eauto|done].
Qed.

#[global] Instance read_reader : Reader (obs ← read_ 1; mret (default [] obs)).
Proof.
  intros w c l Hs Hl. apply streaming_inv in Hl as (cs&i&Hi&->&Hs'); [|done].
  unfold mbind, st_bind, read_. rewrite Hi. change (Z.to_nat 1) with 1%nat.
  destruct cs as [|d cs]; simpl; eexists; (split; [done|]); split; try done.
  constructor; [by eauto|done].
Qed.

Lemma holds_used_some f s : holds f s → s ≠ [] → 0 < fb_len f.
Proof.
  intros [] Hs. destruct (fb_data f); [lia|]. by destruct h_data0 as (_&?&_).
Qed.

Lemma fbuf_last_returns f s c w :
  holds f s → last s = Some c → fbuf_last f w = Ret (c, w).
Proof.
  intros Hf Hl. rewrite last_lookup in Hl. pose proof (lookup_lt_Some _ _ _ Hl).
  destruct (holds_some f s Hf) as (b&Hb&Hlb&Hk&Hu&_).
  { apply (holds_used_some f s); [done|]. by intros ->. }
  pose proof (h_used f s Hf). pose proof (h_len f s Hf).
  destruct (holds_byte f s b (fb_used f - 1) c Hf Hb) as (_&_&Hr); [lia| |].
  { rewrite <- Hl. f_equal. lia. }
  unfold fbuf_last. rewrite Hb, (u32_small (fb_skip f + _)), u32_small by lia.
  replace (fb_skip f + fb_used f - 1) with (fb_skip f + (fb_used f - 1)) by lia.
  unfold lift, mbind, st_bind. simpl. by rewrite Hr.
Qed.

Lemma fbuf_chop_returns f s c w :
  holds f (s ++ [c]) →
  returns (fbuf_chop f w) (λ '(f', w'),
    w' = w ∧ holds f' s ∧ terminated f' ∧ same_params f f').
Proof.
  intros Hf. destruct (holds_some f _ Hf) as (b&Hb&Hlb&Hk&Hu&_).
  { apply (holds_used_some f _ Hf). by destruct s. }
  pose proof (h_used f _ Hf) as Hus. pose proof (h_len f _ Hf). rewrite length_app in Hus.
  simpl in Hus. unfold fbuf_chop. rewrite (u32_small (fb_used f - 1)), u32_small, Hb by lia.
  go. apply returns_store_; [lia|]. go.
  destruct (holds_cut f _ b (fb_used f - 1) Hf Hb ltac:(lia)) as [Hh Ht].
  rewrite take_app_le, take_ge in Hh by lia. by split_and!.
Qed.

(** A line without its carriage return. *)
Definition chomp (l : list Z) : list Z :=
  if decide (last l = Some 13) then take (length l - 1) l else l.

Lemma chomp_snoc l c : chomp (l ++ [c]) = if decide (c = 13) then l else l ++ [c].
Proof.
  unfold chomp. rewrite last_snoc, length_app. simpl length. rewrite Nat.add_sub.
  rewrite take_app_length. repeat case_decide; congruence.
Qed.
Lemma chomp_app s l : last s ≠ Some 13 → chomp (s ++ l) = s ++ chomp l.
Proof.
  intros Hs. destruct l as [|c l _] using rev_ind.
  - rewrite app_nil_r. unfold chomp. by rewrite decide_False, app_nil_r by done.
  - rewrite app_assoc, !chomp_snoc. case_decide; [done|]. by rewrite app_assoc.
Qed.
Lemma chomp_length l : (length (chomp l) ≤ length l)%nat.
Proof. unfold chomp. case_decide; len. Qed.

Section read_ln.
Context (s l rest : list Z).
Context (Hs : last s ≠ Some 10) (Hl : 10 ∉ l).

(** [p] of the line and its newline is read, [q] is still to come. *)
Definition reading (f0 f : fbuf_t) (p q : list Z) (w : world) : Prop :=
  l ++ [10] = p ++ q ∧ holds f (s ++ p) ∧ same_params f0 f ∧
  alloc_ok w ∧ streaming (w_in w) ∧ stream (w_in w) = q ++ rest.

(** No byte before the newline is one. *)
Lemma reading_last p q : l ++ [10] = p ++ q → last (s ++ p) = Some 10 ↔ q = [].
Proof using Hs Hl.
  intros Hpq. destruct q as [|c q _] using rev_ind.
  - rewrite app_nil_r in Hpq. rewrite <- Hpq, app_assoc, last_snoc. done.
  - rewrite app_assoc in Hpq. apply app_inj_tail in Hpq as [Hlp <-].
    split; [|by destruct q]. destruct p as [|d p _] using rev_ind.
    + rewrite app_nil_r. by intros ?%Hs.
    + rewrite app_assoc, last_snoc. intros [= ->]. rewrite Hlp in Hl. set_solver.
Qed.

Lemma read_ln_more f p q w :
  l ++ [10] = p ++ q → holds f (s ++ p) →
  ((if fb_used f =? 0 then mret true
    else c ← fbuf_last f; mret (negb (c =? 10))) : M bool) w =
  Ret (bool_decide (q ≠ []), w).
Proof using Hs Hl.
  intros Hpq Hf. pose proof (reading_last p q Hpq) as Hr.
  pose proof (h_used f _ Hf) as Hu. case_if.
  - destruct (s ++ p) as [|c r] eqn:Esp; [|simpl in *; lia].
    apply app_nil in Esp as [-> ->]. simpl in Hpq. subst q.
    unfold mret, st_ret. do 2 f_equal. symmetry. apply bool_decide_eq_true. by destruct l.
  - destruct (last (s ++ p)) as [c|] eqn:Hc; [|by apply last_None in Hc; rewrite Hc in Hu].
    rewrite (st_bind_Ret _ _ _ _ _ (fbuf_last_returns f _ c w Hf Hc)).
    unfold mret, st_ret. do 2 f_equal. destruct (Z.eqb_spec c 10) as [->|]; simpl; symmetry.
    + apply bool_decide_eq_false. intros H. by apply H, Hr.
    + apply bool_decide_eq_true. intros ->. assert (Some c = Some 10) by (by apply Hr). congruence.
Qed.
Context (get : M (list Z)) `{!Reader get}.

(** One round of the loop moves one byte from the input to the buffer. *)
Lemma read_ln_step f0 f p c q w :
  reading f0 f p (c :: q) w → fb_maxlen f0 = 0 →
  Z.of_nat (length s + length l) + 2 + slow_of f0 ≤ 2 ^ 32 →
  returns (read_ln_body get f w) (λ '(r, w'),
    ∃ f', r = inl f' ∧ reading f0 f' (p ++ [c]) q w').
Proof.
  intros (Hpq&Hf&Hp&Hok&Hst&Hin) Hmax Hw. simpl in Hin.
  assert (slow_of f = slow_of f0) as Hsl by (unfold slow_of; by destruct Hp as (_&_&_&->)).
  pose proof (slow_of_range f _ Hf). pose proof (h_used f _ Hf) as Hu.
  assert (length (l ++ [10]) = length (p ++ c :: q)) as Hlen by (by rewrite Hpq).
  rewrite !length_app in Hlen. rewrite length_app in Hu. simpl in Hlen.
  unfold read_ln_body. apply returns_st_bind.
  rewrite (read_ln_more f p (c :: q) w) by done. rewrite bool_decide_true by done. go.
  rewrite (u32_small (fb_used f + 1)) by lia.
  eapply returns_mono; [apply (fbuf_extend_returns f (s ++ p)); [done|done|lia|lia]|].
  intros [[f1 r] w1].
  replace (over_limit f (fb_used f + 1)) with false
    by (symmetry; unfold over_limit; destruct Hp as (->&_); by rewrite Hmax).
  intros [[-> Hr] Hh Hroom Hp1 [Hok1 _ Hin1 _ _] _]. rewrite (proj2 (Z.eqb_neq _ 0)) by lia.
  destruct (reader_next w1 c (q ++ rest)) as (i&Hg&Hsi&Hi); [by rewrite Hin1..|].
  go. rewrite Hg. apply returns_Ret. cbv beta iota. go.
  destruct (holds_some f1 _ Hh Hr) as (b&Hb&Hlb&Hk&Hu1&_). pose proof (h_used f1 _ Hh) as Hu2.
  rewrite length_app in Hu2. rewrite Hb. apply returns_put_; [lia|simpl; lia|]. go.
  rewrite u32_small by lia. eexists; split; [done|]. split_and!; try done.
  - by rewrite <- app_assoc.
  - rewrite app_assoc. by apply holds_append_raw; simpl; try lia.
  - by apply (same_params_trans _ f), (same_params_trans _ f1).
Qed.

Lemma read_ln_loop f w :
  holds f s → alloc_ok w → streaming (w_in w) → stream (w_in w) = l ++ 10 :: rest →
  fb_maxlen f = 0 → Z.of_nat (length s + length l) + 2 + slow_of f ≤ 2 ^ 32 →
  returns (loopS (read_ln_body get) f w) (λ '((f', ok), w'),
    ok = true ∧ reading f f' (l ++ [10]) [] w').
Proof.
  intros Hf Hok Hst Hin Hmax Hw. pose proof (h_used f s Hf).
  pose proof (slow_of_range f s Hf).
  apply loopS_returns with
    (I := λ f' w', ∃ p q, reading f f' p q w')
    (μ := λ f' _, Z.of_nat (length s + length l) + 1 - fb_used f').
  - intros f1 w1 (p&q&Hrd) _. destruct q as [|c q].
    + unfold read_ln_body. apply returns_st_bind. pose proof Hrd as (Hpq&Hf1&_).
      rewrite (read_ln_more f1 p [] w1) by done. rewrite bool_decide_false by (by intros Hq; apply Hq).
      go. split; [done|]. rewrite app_nil_r in Hpq. by rewrite Hpq.
    + eapply returns_mono; [by apply (read_ln_step f f1 p c q w1)|].
      intros [r w2]. intros (f2&->&Hrd2). split; [by exists (p ++ [c]), q|].
      destruct Hrd as (Hpq&Hf1&_). destruct Hrd2 as (Hpq2&Hf2&_).
      apply h_used in Hf1, Hf2. apply (f_equal length) in Hpq.
      rewrite !length_app in Hpq. rewrite !length_app in Hf1. rewrite !length_app in Hf2.
      simpl in *. lia.
  - exists [], (l ++ [10]). split_and!; try done; [by rewrite app_nil_r|].
    by rewrite <- app_assoc.
  - lia.
Qed.

Lemma read_ln_returns f w :
  holds f s → alloc_ok w → streaming (w_in w) → stream (w_in w) = l ++ 10 :: rest →
  fb_maxlen f = 0 → Z.of_nat (length s + length l) + 2 + slow_of f ≤ 2 ^ 32 →
  returns (read_ln get f w) (λ '((f', r), w'),
    holds f' (chomp (s ++ l)) ∧ terminated f' ∧ same_params f f' ∧ alloc_ok w' ∧
    streaming (w_in w') ∧ stream (w_in w') = rest ∧
    r = as_int (u32 (Z.of_nat (length (chomp (s ++ l))) - Z.of_nat (length s)))).
Proof.
  intros Hf Hok Hst Hin Hmax Hw. unfold read_ln. go. pose proof (h_used f s Hf) as Hu.
  eapply returns_mono; [by apply read_ln_loop|].
  intros [[f1 ok] w1] [-> (_&Hf1&Hp1&Hok1&Hst1&Hin1)]. go. rewrite app_assoc in Hf1.
  eapply returns_mono; [by apply (fbuf_chop_returns f1 (s ++ l) 10)|].
  intros [f2 w2]. intros (->&Hf2&Ht2&Hp2). go. pose proof (h_used f2 _ Hf2) as Hu2.
  pose proof (same_params_trans _ _ _ Hp1 Hp2).
  assert (∀ f3, holds f3 (chomp (s ++ l)) →
    as_int (u32 (fb_used f3 - fb_used f)) =
    as_int (u32 (Z.of_nat (length (chomp (s ++ l))) - Z.of_nat (length s)))) as Hret.
  { intros f3 Hf3. by rewrite (h_used f3 _ Hf3), Hu. }
  destruct (last (s ++ l)) as [c|] eqn:Hlast.
  2:{ apply last_None in Hlast. unfold chomp. unfold chomp in Hret. rewrite Hlast in *.
      rewrite Hu2. change (0 =? 0) with true. go. split_and!; try done. by apply Hret. }
  assert (fb_used f2 ≠ 0).
  { rewrite Hu2. intros H0. destruct (s ++ l); [done|simpl in *; lia]. }
  rewrite (proj2 (Z.eqb_neq _ 0)) by done. go.
  rewrite (fbuf_last_returns f2 _ c w1 Hf2 Hlast). go.
  unfold chomp in *. rewrite Hlast in *. case_if.
  - subst c. rewrite decide_True in * by done.
    rewrite last_lookup in Hlast. pose proof (lookup_lt_Some _ _ _ Hlast).
    assert (s ++ l = take (length (s ++ l) - 1) (s ++ l) ++ [13]) as Hsl.
    { rewrite <- (take_S_r _ _ 13), take_ge; [done|lia|].
      rewrite <- Hlast. f_equal. lia. }
    rewrite Hsl in Hf2.
    eapply returns_mono; [exact (fbuf_chop_returns f2 _ 13 w1 Hf2)|].
    intros [f3 w3]. intros (->&Hf3&Ht3&Hp3). go. split_and!; try done.
    + by apply (same_params_trans _ f2).
    + by apply Hret.
  - rewrite decide_False in * by congruence. go. split_and!; try done. by apply Hret.
Qed.
End read_ln.

(** ** A buffer is a byte string

    [bop] are the operations on the contents and [step] their meaning on a
    plain list of bytes: the new contents and the result.  An operation may
    only be refused when the buffer has a maximum length that is exceeded. *)

Module ByteString.
Inductive bop : Type :=
  | Add (t : list Z)
  | Prepend (t : list Z)
  | SetTo (t : list Z)
  | Printf (text : list Z)
  | Remove (n : Z)
  | Clear
  | SetUsed (n : Z)
  | Trim
  | Rtrim.

(** The number of bytes the operation may need room for. *)
Definition needs (s : list Z) (o : bop) : Z :=
  match o with
  | Add t | Prepend t => Z.of_nat (length s + length t)
  | SetTo t => Z.of_nat (length t)
  | Printf t => Z.of_nat (length s) + FBUF_LINE_EST `max` Z.of_nat (length t)
  | _ => 0
  end.

Definition apply (s : list Z) (o : bop) : list Z * Z :=
  match o with
  | Add t => (s ++ t, Z.of_nat (length t))
  | Prepend t => (t ++ s, Z.of_nat (length t))
  | SetTo t => (t, Z.of_nat (length t))
  | Printf t => (s ++ t, Z.of_nat (length t))
  | Remove n => let s' := drop (Z.to_nat n) s in (s', Z.of_nat (length s'))
  | Clear => ([], 0)
  | SetUsed n => let s' := take (Z.to_nat n) s in (s', Z.of_nat (length s'))
  | Trim => (ltrim s, Z.of_nat (length s - length (ltrim s)))
  | Rtrim => (rtrim s, Z.of_nat (length s - length (rtrim s)))
  end.

(** One operation under the limit [max] ([0]: none). *)
Inductive step (max : Z) (s : list Z) (o : bop) : list Z * Z → Prop :=
  | step_done : step max s o (apply s o)
  | step_refused : 0 < max < needs s o → step max s o (s, -1).

Inductive steps (max : Z) : list Z → list bop → list Z → list Z → Prop :=
  | steps_nil s : steps max s [] s []
  | steps_cons s o os s1 r s' rs :
      step max s o (s1, r) → steps max s1 os s' rs →
      steps max s (o :: os) s' (r :: rs).

(** The arguments make sense: nothing empty is added, counts are unsigned. *)
Definition valid (o : bop) : Prop :=
  match o with
  | Add t | Prepend t => t ≠ []
  | Remove n | SetUsed n => 0 ≤ n
  | _ => True
  end.
#[global] Instance valid_dec o : Decision (valid o).
Proof. destruct o; apply _. Defined.

(** How much longer the contents may get. *)
Definition weight (o : bop) : Z :=
  match o with
  | Add t | Prepend t | SetTo t | Printf t => Z.of_nat (length t)
  | _ => 0
  end.
Fixpoint weights (os : list bop) : Z :=
  match os with [] => 0 | o :: os => weight o + weights os end.

Definition is_prepend (o : bop) : bool :=
  match o with Prepend _ => true | _ => false end.

Lemma step_weight max s o s' r :
  step max s o (s', r) → 0 ≤ weight o ∧ Z.of_nat (length s') ≤ Z.of_nat (length s) + weight o.
Proof.
  assert (length (rtrim s) ≤ length s)%nat.
  { unfold rtrim. rewrite length_reverse.
    etrans; [apply ltrim_length|]. by rewrite length_reverse. }
  pose proof (ltrim_length s). inversion 1 as [Ha|]; [|destruct o; simpl; lia].
  destruct o; simpl in *; simplify_eq; rewrite ?length_app, ?length_drop, ?length_take;
    simpl; lia.
Qed.
Lemma weights_nonneg os : 0 ≤ weights os.
Proof. induction os as [|o os IH]; simpl; [done|]. destruct o; simpl; lia. Qed.
End ByteString.

Definition run_bop (f : fbuf_t) (o : ByteString.bop) : M (fbuf_t * Z) :=
  match o with
  | ByteString.Add t => fbuf_add_binary f (Some (bytes t)) (Z.of_nat (length t))
  | ByteString.Prepend t => fbuf_prepend_binary f (Some (bytes t)) (Z.of_nat (length t))
  | ByteString.SetTo t => fbuf_set f t
  | ByteString.Printf t => fbuf_printf f t
  | ByteString.Remove n => fbuf_remove f n
  | ByteString.Clear => f ← fbuf_clear f; mret (f, 0)
  | ByteString.SetUsed n => fbuf_set_used f n
  | ByteString.Trim => fbuf_trim f
  | ByteString.Rtrim => fbuf_rtrim f
  end.

Fixpoint run_bops (f : fbuf_t) (os : list ByteString.bop) : M (fbuf_t * list Z) :=
  match os with
  | [] => mret (f, [])
  | o :: os =>
      '(f, r) ← run_bop f o;
      '(f, rs) ← run_bops f os;
      mret (f, r :: rs)
  end.

(** The buffer [f'] left by operation [o] on [f] with contents [s]. *)
Record bstepped (f : fbuf_t) (s : list Z) (o : ByteString.bop) (f' : fbuf_t) (r : Z)
    (w' : world) : Prop := {
  bs_step : ∃ s', ByteString.step (fb_maxlen f) s o (s', r) ∧ holds f' s';
  bs_params : same_params f f';
  bs_len : 0 < fb_len f';
  bs_alloc : alloc_ok w';
  bs_term : ByteString.is_prepend o = false → terminated f → terminated f'
}.

Lemma over_limit_needs f s n :
  holds f s → over_limit f n = true → 0 < fb_maxlen f < n.
Proof. intros [] Ho. unfold over_limit in Ho. lia. Qed.
Lemma bytes_take t : take (length t) (bytes t) = bytes t.
Proof. apply take_ge. unfold bytes. by rewrite length_fmap. Qed.

(** The operations that keep the length of the buffer. *)
Lemma bstepped_keeps f s o f' r w w' s' :
  keeps f w s' f' w' → alloc_ok w → 0 < fb_len f →
  (s', r) = ByteString.apply s o → bstepped f s o f' r w'.
Proof.
  intros [-> Hh Hp Hl Ht] Hok Hl0 Ha. split; try done; [|lia].
  exists s'. rewrite Ha. split; [constructor|done].
Qed.

(** The operations that add [n] bytes or are refused. *)
Lemma bstepped_adds f s o n f' r w' s' :
  adds f n s' f' r → holds f s → alloc_ok w' → 0 < fb_len f →
  ByteString.needs s o = fb_used f + n → (s', n) = ByteString.apply s o →
  (ByteString.is_prepend o = false → 0 ≤ r → terminated f') →
  bstepped f s o f' r w'.
Proof.
  unfold adds. intros Ha Hf Hok Hl Hn Hap Ht.
  destruct (over_limit f (fb_used f + n)) eqn:Ho.
  - destruct Ha as [-> ->]. split; try done. exists s. split; [|done].
    apply ByteString.step_refused. rewrite Hn. by apply (over_limit_needs f s).
  - destruct Ha as (->&Hh&Hp&Hl'). split; try done.
    + exists s'. rewrite Hap. split; [constructor|done].
    + intros Hpr _. apply Ht; [done|]. destruct o; simpl in Hap; simplify_eq; lia.
Qed.

Lemma run_bop_returns f s o w :
  holds f s → 0 < fb_len f → alloc_ok w → ByteString.valid o →
  Z.of_nat (length s) + ByteString.weight o < INT_MAX →
  Z.of_nat (length s) + ByteString.weight o + 129 + slow_of f ≤ 2 ^ 32 →
  returns (run_bop f o w) (λ '((f', r), w'), bstepped f s o f' r w').
Proof.
  intros Hf Hl Hok Hv Hi Hw. pose proof (h_used f s Hf) as Hu.
  pose proof (slow_of_range f s Hf).
  destruct o as [t|t|t|t|n| |n| |]; simpl in *.
  - eapply returns_mono;
      [apply (fbuf_add_binary_returns f s); try done; try lia; apply bytes_take|].
    intros [[f' r] w']. intros (Hok'&Ha&Ht).
    eapply bstepped_adds; try done; simpl; lia.
  - eapply returns_mono;
      [apply (fbuf_prepend_binary_returns f s); try done; try lia; apply bytes_take|].
    intros [[f' r] w']. intros (Hok'&Ha&_). destruct (_ <=? _) in Ha.
    + destruct Ha as (->&?&?&?). split; try done. exists (t ++ s). split; [|done].
      apply (ByteString.step_done _ _ (ByteString.Prepend t)).
    + eapply bstepped_adds; try done; simpl; lia.
  - eapply returns_mono; [apply (fbuf_set_returns f s); try done; lia|].
    intros [[f' r] w']. intros (Hok'&Ha). unfold sets in Ha.
    destruct (over_limit f _) eqn:Ho.
    + destruct Ha as [-> ->]. split; try done. exists s. split; [|done].
      apply ByteString.step_refused. by apply (over_limit_needs f s) in Ho.
    + destruct Ha as (->&?&?&?&?). split; try done. exists t. split; [|done].
      apply (ByteString.step_done _ _ (ByteString.SetTo t)).
  - eapply returns_mono; [apply (fbuf_printf_returns f s); try done|].
    { change FBUF_LINE_EST with 128. lia. }
    intros [[f' r] w']. intros (Hok'&Hp&Hl'&[(?&?&->)|(?&->&?&Hm)]); split; try done; auto.
    + exists (s ++ t). rewrite as_int_small by lia. split; [|done].
      apply (ByteString.step_done _ _ (ByteString.Printf t)).
    + exists s. split; [|done]. apply ByteString.step_refused. simpl. by rewrite <- Hu.
  - eapply returns_mono; [by apply (fbuf_remove_returns f s)|].
    intros [[f' r] w']. intros [Hk ->]. eapply bstepped_keeps; try done. simpl.
    f_equal. rewrite as_int_small, length_drop by lia. lia.
  - go. eapply returns_mono; [by apply (fbuf_clear_returns f s)|].
    intros [f' w']. intros [Hk _]. go. by eapply bstepped_keeps.
  - eapply returns_mono; [by apply (fbuf_set_used_returns f s)|].
    intros [[f' r] w']. intros [Hk ->]. eapply bstepped_keeps; try done. simpl.
    f_equal. rewrite as_int_small, length_take by lia. lia.
  - eapply returns_mono; [apply (fbuf_trim_returns f s); try done; lia|].
    intros [[f' r] w']. intros [Hk ->]. by eapply bstepped_keeps.
  - eapply returns_mono; [apply (fbuf_rtrim_returns f s); try done; lia|].
    intros [[f' r] w']. intros [Hk ->]. by eapply bstepped_keeps.
Qed.

(** What [fbuf_data] and [fbuf_used] show of a buffer. *)
Definition shows (f : fbuf_t) (s : list Z) : Prop :=
  fbuf_used f = Z.of_nat (length s) ∧
  ∃ b, fbuf_data f = Some b ∧ take (length s) b = bytes s.

Lemma holds_shows f s : holds f s → 0 < fb_len f → shows f s.
Proof.
  intros Hf Hl. destruct (holds_some f s Hf Hl) as (b&Hb&_&_&_&Hc).
  split; [by apply h_used|]. exists (drop (Z.to_nat (fb_skip f)) b).
  unfold fbuf_data. by rewrite Hb.
Qed.

(** ** Properties *)

(** C2 — Any sequence of add, prepend, set, printf, remove, clear, set-used,
    trim and right-trim calls on a buffer with contents [s] behaves like the
    same sequence on the byte string [s]: it has defined behaviour and
    terminates, every call returns what the byte string operation returns (or
    [-1] with the contents unchanged, which happens only when a maximum length
    is set and exceeded), and [fbuf_data]/[fbuf_used] show the resulting
    string; the byte after it is still the terminator unless something was
    prepended. *)
Theorem fbuf_refines_bytes f s os w :
  holds f s → 0 < fb_len f → alloc_ok w → Forall ByteString.valid os →
  Z.of_nat (length s) + ByteString.weights os < INT_MAX →
  Z.of_nat (length s) + ByteString.weights os + 129 + slow_of f ≤ 2 ^ 32 →
  returns (run_bops f os w) (λ '((f', rs), _),
    ∃ s', ByteString.steps (fb_maxlen f) s os s' rs ∧ holds f' s' ∧ shows f' s' ∧
      (forallb (λ o, negb (ByteString.is_prepend o)) os = true →
       terminated f → terminated f')).
Proof.
  revert f s w. induction os as [|o os IH]; intros f s w Hf Hl Hok Hv Hi Hw; simpl.
  - exists s. split_and!; try done; [constructor|by apply holds_shows].
  - inversion Hv; subst. pose proof (ByteString.weights_nonneg os). simpl in Hi, Hw. go.
    eapply returns_mono; [apply (run_bop_returns f s o w); try done; lia|].
    intros [[f1 r] w1] [(s1&Hst&Hf1) Hp1 Hl1 Hok1 Ht1]. go.
    pose proof (ByteString.step_weight _ _ _ _ _ Hst).
    assert (slow_of f1 = slow_of f) as Hsl by (unfold slow_of; by destruct Hp1 as (_&_&_&->)).
    eapply returns_mono; [apply (IH f1 s1 w1); try done; lia|].
    intros [[f2 rs] w2]. intros (s2&Hss&Hf2&Hsh&Ht2). go. exists s2. split_and!; try done.
    + destruct Hp1 as (Hm&_). rewrite Hm in Hss. by econstructor.
    + intros [Hb1 Hb2]%andb_true_iff ?. apply Ht2; [done|].
      apply Ht1; [by apply negb_true_iff in Hb1|done].
Qed.

Lemma fbuf_refines_bytes_witness :
  let w := mk_world [] 0 0 0 [] [] [] in
  let b := <[0%nat := Some 0]> (replicate 128 None) in
  let f := mk_fbuf 0 (Some b) 128 0 128 16384 1024 0 0 in
  let os := [ByteString.Add [32; 65; 66; 10]; ByteString.Trim; ByteString.Remove 1;
             ByteString.Prepend [67]; ByteString.Rtrim; ByteString.Printf [68]] in
  returns (run_bops f os w) (λ '((f', rs), _),
    ∃ s', ByteString.steps 0 [] os s' rs ∧ holds f' s' ∧ shows f' s' ∧
      (forallb (λ o, negb (ByteString.is_prepend o)) os = true →
       terminated f → terminated f')).
Proof.
  intros w b f os. apply (fbuf_refines_bytes f [] os w).
  - by split.
  - done.
  - by constructor.
  - repeat (constructor; [done|]). constructor.
  - done.
  - done.
Defined.

(** The same run, evaluated. *)
Example fbuf_bytes_run :
  let b := <[0%nat := Some 0]> (replicate 128 None) in
  let f := mk_fbuf 0 (Some b) 128 0 128 16384 1024 0 0 in
  match run_bops f [ByteString.Add [32; 65; 66; 10]; ByteString.Trim; ByteString.Remove 1;
             ByteString.Prepend [67]; ByteString.Rtrim; ByteString.Printf [68]]
          (mk_world [] 0 0 0 [] [] []) with
  | Ret ((f', rs), _) =>
      rs = [4; 1; 2; 1; 1; 1] ∧ (take 3 <$> fbuf_data f') = Some (bytes [67; 66; 68])
  | _ => False
  end.
Proof. vm_compute. done. Qed.

(** A world in which every request succeeds. *)
Definition calm : world := mk_world [] 0 0 0 [] [] [].
Lemma calm_ok : alloc_ok calm.
Proof. constructor. Qed.

(** A buffer of [len] bytes with contents [s] after [skip] bytes. *)
Definition sample (len skip maxlen : nat) (s : list Z) : fbuf_t :=
  mk_fbuf 0
    (Some (replicate skip None ++ cstring s ++ replicate (len - skip - S (length s)) None))
    (Z.of_nat len) (Z.of_nat maxlen) 128 16384 1024 (Z.of_nat (length s)) (Z.of_nat skip).

(** C35 — [fbuf_extend] when no allocation fails: it returns [0], sets [ENOMEM]
    and changes nothing exactly when the buffer has to grow for more bytes than
    the maximum length, also when it is longer than that already, where fbuf.h
    says that it extends once; otherwise it returns the (positive) new buffer
    length, the contents are the same and there is room for [newlen] bytes and a
    terminator. *)
Theorem fbuf_extend_contract f s newlen w :
  holds f s → alloc_ok w → 0 ≤ newlen → newlen + 1 + slow_of f ≤ 2 ^ 32 →
  returns (fbuf_extend f newlen w) (λ '((f', r), w'),
    if over_limit f newlen
    then f' = f ∧ r = 0 ∧ w_errno w' = ENOMEM ∧ w_live w' = w_live w
    else r = fb_len f' ∧ 0 < r ∧ holds f' s ∧ newlen < fb_len f' - fb_skip f' ∧
         same_params f f').
Proof.
  intros Hf Hok Hn Hw. eapply returns_mono; [by apply (fbuf_extend_returns f s)|].
  intros [[f' r] w']. destruct (over_limit f newlen).
  - intros (->&->&[]&?). split_and!; try done. lia.
  - intros [[-> ?] ????]. by split_and!.
Qed.

Lemma fbuf_extend_contract_witness :
  let f := sample 16 4 0 [1; 2; 3] in
  returns (fbuf_extend f 20 calm) (λ '((f', r), w'),
    if over_limit f 20
    then f' = f ∧ r = 0 ∧ w_errno w' = ENOMEM ∧ w_live w' = w_live calm
    else r = fb_len f' ∧ 0 < r ∧ holds f' [1; 2; 3] ∧ 20 < fb_len f' - fb_skip f' ∧
         same_params f f').
Proof.
  intros f. apply (fbuf_extend_contract f [1; 2; 3]); [|apply calm_ok|done|done].
  by split.
Defined.

(** C32 — [fbuf_shrink], when the slow step is not larger than the fast one
    (otherwise the loop may not end, see [fbuf_shrink_diverges]): the loop terminates, the contents are kept, the buffer does not get longer,
    an empty buffer is given back to the allocator, and the new length is
    returned. *)
Theorem fbuf_shrink_contract f s w :
  holds f s → alloc_ok w → slow_of f ≤ fast_of f →
  returns (fbuf_shrink f w) (λ '((f', r), w'),
    r = fb_len f' ∧ holds f' s ∧ fb_len f' ≤ fb_len f ∧
    (s = [] → fb_data f' = None) ∧ (terminated f → terminated f') ∧
    w_live w' = w_live w + (owned f' - owned f)).
Proof.
  intros Hf Hok Hs. eapply returns_mono; [by apply (fbuf_shrink_returns f s)|].
  intros [[f' r] w']. intros [? ? ? ? ? [] ?]. by split_and!.
Qed.

Lemma fbuf_shrink_contract_witness :
  let f := sample 1000 4 0 [1; 2; 3] in
  returns (fbuf_shrink f calm) (λ '((f', r), w'),
    r = fb_len f' ∧ holds f' [1; 2; 3] ∧ fb_len f' ≤ fb_len f ∧
    ([1; 2; 3] = [] → fb_data f' = None) ∧ (terminated f → terminated f') ∧
    w_live w' = w_live calm + (owned f' - owned f)).
Proof.
  intros f. apply (fbuf_shrink_contract f [1; 2; 3]); [|apply calm_ok|done].
  by split.
Defined.

(** When the slow step is larger than the length and the fast one is smaller,
    the length wraps around instead of getting smaller: the loop of
    [fbuf_shrink] comes back to where it was and never ends. *)
Theorem fbuf_shrink_diverges f s w :
  holds f s → s ≠ [] → fb_skip f = 0 → slow_of f = 1024 →
  fast_of f < fb_len f mod 1024 → fb_minlen f < fb_len f mod 1024 → fb_used f < fb_len f mod 1024 →
  fbuf_shrink f w = Diverge.
Proof.
  intros Hf Hs Hk Hslow Hfast Hmin Hused. pose proof (h_used f s Hf) as Hu.
  assert (fb_used f ≠ 0) as Hu0 by (destruct s; [done|simpl in Hu; lia]).
  assert (loop (shrink_body f (fast_of f) (slow_of f)) (fb_len f) = Diverge) as Hloop.
  { apply loop_diverges with (I := λ l, l mod 1024 = fb_len f mod 1024 ∧ 0 ≤ l < 2 ^ 32); [|destruct Hf; lia].
    intros l [Hl Hr]. pose proof (Z.mod_le l 1024). rewrite Hslow. exists (u32 (l - 1024)).
    assert (u32 (l - 1024) mod 1024 = l mod 1024) as Hm.
    { unfold u32. rewrite <- (Z.mod_unique_pos ((l - 1024) mod 2 ^ 32) 1024
        (((l - 1024) mod 2 ^ 32) / 1024) (l mod 1024)); [done|by apply Z.mod_pos_bound|].
      pose proof (Z.div_mod (l - 1024) (2 ^ 32)). pose proof (Z.div_mod l 1024). pose proof (Z.mod_pos_bound (l - 1024) (2 ^ 32)).
      rewrite (Z.div_mod ((l - 1024) mod 2 ^ 32) 1024) at 1 by done. f_equal.
      replace ((l - 1024) mod 2 ^ 32) with (l + (- 1 - (l - 1024) / 2 ^ 32 * 4194304) * 1024) by lia. by apply Z.mod_add. }
    pose proof (u32_range (l - 1024)). pose proof (Z.mod_le (u32 (l - 1024)) 1024).
    unfold shrink_body. rewrite (proj2 (Z.leb_gt l _)), (proj2 (Z.leb_gt l _)) by lia. cbv zeta.
    rewrite (u32_small (fb_used f + 1)) by lia. rewrite (proj2 (Z.leb_le _ _)) by lia. split; [done|]. lia. }
  unfold fbuf_shrink. rewrite Hk. change (negb (0 =? 0)) with false. cbv iota.
  rewrite (st_bind_Ret _ _ _ f w eq_refl). cbv zeta. rewrite (proj2 (Z.eqb_neq (fb_used f) 0)) by done.
  unfold lift, mbind, st_bind. by rewrite Hloop.
Qed.

(** Half a kilobyte, and a client that has set a fast step of 16. *)
Lemma fbuf_shrink_diverges_witness :
  fbuf_shrink (mk_fbuf 0 (Some (cstring [1; 2; 3] ++ replicate 496 None)) 500 0 128 16 1024 3 0) calm = Diverge.
Proof.
  apply (fbuf_shrink_diverges _ [1; 2; 3]); [by split|done|done|done|done|done|done].
Defined.

(** [fbuf_duplicate]: the copy holds the same bytes in a block of its own,
    terminated, with the same maximum length. *)
Theorem fbuf_duplicate_same g t w :
  holds g t → alloc_ok w → Z.of_nat (length t) ≤ INT_MAX →
  (fb_maxlen g = 0 ∨ Z.of_nat (length t) ≤ fb_maxlen g) →
  returns (fbuf_duplicate g w) (λ '(od, _),
    ∃ d, od = Some d ∧ holds d t ∧ terminated d ∧ fb_maxlen d = fb_maxlen g).
Proof.
  intros. eapply returns_mono; [by apply (fbuf_duplicate_returns g t)|].
  by intros [od w'] [_ ?].
Qed.

Lemma fbuf_duplicate_same_witness :
  let g := sample 16 4 10 [1; 2; 3] in
  returns (fbuf_duplicate g calm) (λ '(od, _),
    ∃ d, od = Some d ∧ holds d [1; 2; 3] ∧ terminated d ∧ fb_maxlen d = fb_maxlen g).
Proof.
  intros g. apply (fbuf_duplicate_same g [1; 2; 3]);
    [by split|apply calm_ok|done|by right].
Defined.

(** [fbuf_concat] appends the contents of a terminated source buffer to
    the destination and [fbuf_copy] replaces them, or they return [-1] and
    leave the destination alone because its limit would be exceeded. *)
Theorem fbuf_concat_copy f s g t w :
  holds f s → holds g t → terminated g → alloc_ok w → t ≠ [] →
  Z.of_nat (length t) < INT_MAX →
  fb_used f + Z.of_nat (length t) + 1 + slow_of f ≤ 2 ^ 32 →
  returns (fbuf_concat f g w) (λ '((f', r), _),
    adds f (Z.of_nat (length t)) (s ++ t) f' r) ∧
  returns (fbuf_copy g f w) (λ '((f', r), _), sets f t f' r).
Proof.
  intros Hf Hg Ht Hok Hn Hi Hw. pose proof (h_used f s Hf). split.
  - eapply returns_mono; [by apply (fbuf_concat_returns f s g t)|].
    by intros [[f' r] w'] (_&?&_).
  - eapply returns_mono; [apply (fbuf_copy_returns f s g t); try done; lia|].
    by intros [[f' r] w'] [_ ?].
Qed.

Lemma fbuf_concat_copy_witness :
  let f := sample 16 4 10 [1; 2; 3] in
  let g := sample 8 0 0 [4; 5] in
  returns (fbuf_concat f g calm) (λ '((f', r), _), adds f 2 [1; 2; 3; 4; 5] f' r) ∧
  returns (fbuf_copy g f calm) (λ '((f', r), _), sets f [4; 5] f' r).
Proof.
  intros f g. apply (fbuf_concat_copy f [1; 2; 3] g [4; 5]);
    [by split|by split|done|apply calm_ok|done|done|done].
Defined.

(** Reading a line: when the input goes on with a line [l], a newline
    and [rest], both [fbuf_fread_ln] and [fbuf_read_ln] append [l] without a
    trailing carriage return to the buffer, terminate it, consume the newline
    and nothing after it, and return the number of bytes added, however the
    input is split into chunks. *)
Theorem fbuf_read_ln_line f s l rest w :
  holds f s → last s ≠ Some 10 → 10 ∉ l → last s ≠ Some 13 →
  alloc_ok w → streaming (w_in w) → stream (w_in w) = l ++ 10 :: rest →
  fb_maxlen f = 0 → Z.of_nat (length s + length l) + 2 + slow_of f ≤ 2 ^ 32 →
  Z.of_nat (length s + length l) ≤ INT_MAX →
  let line := λ '((f', r), w'),
    holds f' (s ++ chomp l) ∧ terminated f' ∧ stream (w_in w') = rest ∧
    r = Z.of_nat (length (chomp l)) in
  returns (fbuf_fread_ln f w) line ∧ returns (fbuf_read_ln f w) line.
Proof.
  intros Hf Hs Hl Hs' Hok Hst Hin Hmax Hw Hi line.
  pose proof (chomp_app s l Hs') as Hch. pose proof (chomp_length l).
  assert (∀ get `{!Reader get}, returns (read_ln get f w) line) as Hrd; [|split; apply Hrd, _].
  intros get Hget. eapply returns_mono; [by apply (read_ln_returns s l rest Hs Hl get)|].
  intros [[f' r] w']. intros (Hh&Ht&_&_&_&Hr&->). rewrite Hch in *.
  split_and!; try done. rewrite length_app.
  rewrite u32_small, as_int_small by (int_bounds; lia). lia.
Qed.

Lemma fbuf_read_ln_line_witness :
  let f := sample 16 0 0 [1; 2; 3] in
  let w := mk_world [] 0 0 0 [Some [65; 66]; Some [67; 13; 10; 68]; Some [69]] [] [] in
  let line := λ '((f', r), w'),
    holds f' [1; 2; 3; 65; 66; 67] ∧ terminated f' ∧ stream (w_in w') = [68; 69] ∧ r = 3 in
  returns (fbuf_fread_ln f w) line ∧ returns (fbuf_read_ln f w) line.
Proof.
  intros f w. apply (fbuf_read_ln_line f [1; 2; 3] [65; 66; 67; 13] [68; 69] w).
  - by split.
  - done.
  - by apply (bool_decide_unpack _); vm_compute.
  - done.
  - constructor.
  - repeat constructor; by eauto.
  - done.
  - done.
  - done.
  - done.
Defined.

(** [fbuf_read] appends exactly the bytes one [read] call delivers, at most
    [INT_MAX], terminates the buffer and returns their number; when [read] fails
    it returns [-1] and the contents are what they were. *)
Theorem fbuf_read_delivers f s explen w :
  holds f s → alloc_ok w → 0 ≤ explen →
  fb_used f + expected explen + 1 + slow_of f ≤ 2 ^ 32 →
  over_limit f (fb_used f + expected explen) = false →
  let '(got, rest) := read_bytes (Z.to_nat (expected explen)) (w_in w) in
  returns (fbuf_read f explen w) (λ '((f', r), w'),
    w_in w' = rest ∧ terminated f' ∧
    holds f' (s ++ counted (default [] got)) ∧
    r = match got with Some bs => int_count (length bs) | None => -1 end).
Proof.
  intros Hf Hok He Hw Ho. pose proof (fbuf_read_returns f s explen w Hf Hok He Hw Ho) as H.
  destruct (read_bytes _ _) as [got rest]. eapply returns_mono; [exact H|].
  intros [[f' r] w']. intros (_&->&_&Ht&_&Hg).
  destruct got; destruct Hg as [Hh ->]; simpl; [|change (counted []) with (@nil Z)]; rewrite ?app_nil_r; by split_and!.
Qed.

Lemma fbuf_read_delivers_witness :
  let w := mk_world [] 0 0 0 [Some [65; 66]; None] [] [] in
  returns (fbuf_read (sample 16 4 0 [1; 2; 3]) 0 w) (λ '((f', r), w'),
    w_in w' = [None] ∧ terminated f' ∧ holds f' [1; 2; 3; 65; 66] ∧ r = 2).
Proof.
  intros w. apply (fbuf_read_delivers (sample 16 4 0 [1; 2; 3]) [1; 2; 3] 0 w).
  - by split.
  - constructor.
  - done.
  - done.
  - done.
Defined.

(** The number of bytes that [fbuf_write] hands to [write], and that the file
    takes of them: [None] when [write] fails; it is not called for no bytes. *)
Definition write_count (f : fbuf_t) (n : Z) : nat := Z.to_nat (if n =? 0 then fb_used f else Z.min n (fb_used f)).
Definition file_takes (m : nat) (w : world) : option nat :=
  match m, w_acc w with
  | O, _ => Some O
  | _, [] => Some m
  | _, a :: _ => if a <? 0 then None else Some (Nat.min (Z.to_nat a) m)
  end.

Lemma holds_used_lt f s : holds f s → fb_used f < 2 ^ 32.
Proof. intros []. destruct (fb_data f) as [b|]; [lia|]. destruct h_data0 as (_&->&_). simpl in *. lia. Qed.

(** The bytes taken are removed and counted; more than an [int] can hold are
    not removed, and the result is negative. *)
Definition write_post (f : fbuf_t) (s : list Z) (out : block) (k : nat) (x : fbuf_t * Z * world) : Prop :=
  let '((f', r), w') := x in
  w_out w' = out ++ bytes (take k s) ∧ holds f' (drop (length (counted (take k s))) s) ∧
  r = int_count k.

Lemma write_remove_ok f s k out w :
  holds f s → 0 < fb_len f → (k ≤ length s)%nat → w_out w = out ++ bytes (take k s) →
  returns ((let n := as_int (u32 (Z.of_nat k)) in
            if 0 <? n then '(f', _) ← fbuf_remove f n; mret (f', n) else mret (f, n)) w) (write_post f s out k).
Proof.
  intros Hf Hl Hk Hout. pose proof (h_used f s Hf) as Hu. assert (fb_used f < 2 ^ 32) as Hu32 by (by eapply holds_used_lt).
  fold (int_count k). assert (length (take k s) = k) as Hlt by (rewrite length_take; lia).
  pose proof (int_count_counted (take k s)) as Hc. rewrite Hlt in Hc. specialize (Hc ltac:(lia)).
  cbv zeta. destruct (Z.ltb_spec 0 (int_count k)) as [Hpos|Hneg].
  - go. eapply returns_mono; [apply (fbuf_remove_returns f s); [done|done|lia]|].
    intros [[f' r] w'] [[-> Hh _ _ _] _]. go. unfold write_post. split; [done|]. split; [|done].
    rewrite <- (Nat2Z.id (length (counted (take k s)))), <- Hc. exact Hh.
  - go. unfold write_post. split; [done|]. split; [|done]. replace (length (counted (take k s))) with 0%nat by lia. done.
Qed.

(** C16 — [fbuf_write] repeats nothing: what the file takes is a prefix of the
    bytes to be written, and it is removed from the buffer, the result being its
    length; when [write] fails the buffer stays and the result is [-1].  More
    than [INT_MAX] bytes taken by one [write] are not removed, and the result
    is negative. *)
Theorem fbuf_write_conserves f s n w :
  holds f s → 0 < fb_len f → 0 ≤ n →
  returns (fbuf_write f n w) (λ '((f', r), w'),
    match file_takes (write_count f n) w with
    | None => w_out w' = w_out w ∧ holds f' s ∧ r = -1
    | Some k =>
        (k ≤ write_count f n ≤ length s)%nat ∧ w_out w' = w_out w ++ bytes (take k s) ∧
        if Z.of_nat k <=? INT_MAX then holds f' (drop k s) ∧ r = Z.of_nat k else holds f' s ∧ r = Z.of_nat k - 2 ^ 32
    end).
Proof.
  intros Hf Hl Hn. destruct (holds_some f s Hf Hl) as (b&Hb&Hlb&Hk&Hu&Hc).
  pose proof (h_used f s Hf) as Hus. assert (fb_used f < 2 ^ 32) as Hu32 by (by eapply holds_used_lt).
  set (m := write_count f n). assert (Hmu : Z.of_nat m ≤ fb_used f) by (unfold m, write_count; case_if; lia).
  assert (Hpost : ∀ k x, (k ≤ m)%nat → write_post f s (w_out w) k x → let '((f', r), w') := x in
    (k ≤ m ≤ length s)%nat ∧ w_out w' = w_out w ++ bytes (take k s) ∧
    if Z.of_nat k <=? INT_MAX then holds f' (drop k s) ∧ r = Z.of_nat k else holds f' s ∧ r = Z.of_nat k - 2 ^ 32).
  { intros k [[f' r] w'] Hkm (Ho&Hh&->). split; [lia|]. split; [done|].
    assert (length (take k s) = k) as Hlt by (rewrite length_take; lia). unfold counted in Hh. rewrite Hlt in Hh.
    destruct (Z.leb_spec (Z.of_nat k) INT_MAX); [rewrite Hlt in Hh; by rewrite int_count_small|].
    by rewrite int_count_large by lia. }
  unfold fbuf_write. set (m1 := if n =? 0 then fb_used f else n).
  assert ((if fb_used f <? m1 then fb_used f else m1) = Z.of_nat m) as ->.
  { unfold m, m1, write_count. repeat case_if; lia. }
  case_if; go.
  2:{ replace m with 0%nat by lia. split; [lia|]. by rewrite app_nil_r. }
  rewrite Hb. simpl deref. go.
  set (bs := take (Z.to_nat (Z.of_nat m)) (drop (Z.to_nat (fb_skip f)) b)).
  assert (bs = bytes (take m s)) as Hbs.
  { unfold bytes. rewrite fmap_take. fold (bytes s). rewrite <- Hc. unfold bs. rewrite take_take. f_equal. lia. }
  assert (length bs = m) as Hlbs by (unfold bs; len).
  unfold write_, file_takes. destruct m as [|m'] eqn:Em; [lia|]. rewrite <- Em in *.
  destruct (w_acc w) as [|a acc]; [|destruct (Z.ltb_spec a 0)].
  - go. rewrite Hlbs. eapply returns_mono; [apply (write_remove_ok f s m (w_out w)); [done|done|lia|by simpl; rewrite Hbs]|].
    intros x Hx. by apply (Hpost m).
  - go. change (0 <? as_int (u32 (-1))) with false. go. split; [done|]. split; [done|]. done.
  - go. rewrite Hlbs. set (k := Nat.min (Z.to_nat a) m).
    eapply returns_mono; [apply (write_remove_ok f s k (w_out w)); [done|done|lia|]|].
    { simpl. rewrite Hbs. unfold bytes. rewrite <- fmap_take, take_take. do 3 f_equal. lia. }
    intros x Hx. apply (Hpost k); [lia|done].
Qed.

Lemma fbuf_write_conserves_witness :
  let w := mk_world [] 0 0 0 [] [2] [] in
  returns (fbuf_write (sample 16 4 0 [1; 2; 3]) 0 w) (λ '((f', r), w'),
    (2 ≤ 3 ≤ length [1; 2; 3])%nat ∧ w_out w' = [] ++ bytes [1; 2] ∧ holds f' [3] ∧ r = 2).
Proof.
  intros w. apply (fbuf_write_conserves (sample 16 4 0 [1; 2; 3]) [1; 2; 3] 0 w);
    [by split|done|done].
Defined.

(** When [fbuf_extend] has to move the contents of a buffer with skipped
    bytes to a longer block, the old block is not freed: one more buffer is
    live although the structure still owns one. *)
Theorem fbuf_extend_leaks f s newlen w :
  holds f s → alloc_ok w → 0 ≤ newlen → newlen + 1 + slow_of f ≤ 2 ^ 32 →
  over_limit f newlen = false → regrown f newlen = true →
  returns (fbuf_extend f newlen w) (λ '((f', _), w'),
    owned f' = owned f ∧ w_live w' = w_live w + 1).
Proof.
  intros Hf Hok Hn Hw Ho Hr. eapply returns_mono; [by apply (fbuf_extend_returns f s)|].
  intros [[f' r] w']. rewrite Ho. intros [[-> Hl] Hh _ _ [_ Hlive _ _ _] _].
  rewrite Hr in Hlive. destruct (holds_some f' s Hh Hl) as (b&Hb&_).
  assert (owned f' = 1 ∧ owned f = 1) as [H1 H2]; [|split; lia].
  unfold owned. rewrite Hb. split; [done|].
  destruct Hf. unfold regrown in Hr. by destruct (fb_data f); [|lia].
Qed.

Lemma fbuf_extend_leaks_witness :
  let f := sample 16 4 0 [1; 2; 3] in
  returns (fbuf_extend f 20 calm) (λ '((f', _), w'),
    owned f' = owned f ∧ w_live w' = w_live calm + 1).
Proof.
  intros f. apply (fbuf_extend_leaks f [1; 2; 3]);
    [by split|apply calm_ok|done|done|done|done].
Defined.

(** Prepending 20 bytes to a buffer whose first 4 bytes are skipped
    succeeds, but the terminator is not copied to the new block: the byte after
    the contents is not initialised, so [fbuf_data] is no longer a C string. *)
Theorem fbuf_prepend_unterminated :
  let f := sample 16 4 0 [1; 2; 3] in
  terminated f ∧
  match fbuf_prepend f (Some (replicate 20 65)) calm with
  | Ret ((f', r), _) =>
      r = 20 ∧ fbuf_used f' = 23 ∧ (λ b, b !! 23%nat) <$> fbuf_data f' = Some (Some None)
  | _ => False
  end.
Proof. vm_compute. done. Qed.

(** The growth loop on the lengths a buffer with the default sizes goes
    through: it never reaches the last kilobyte of the 32-bit range. *)
Lemma grow_stuck f newlen :
  fb_minlen f = FBUF_MINLEN → 2 ^ 32 - 1024 < newlen →
  loop (grow_body f FBUF_FASTGROWSIZE FBUF_SLOWGROWSIZE newlen) 0 = Diverge.
Proof.
  intros Hm Hn. change FBUF_FASTGROWSIZE with 16384. change FBUF_SLOWGROWSIZE with 1024.
  apply loop_diverges with (I := λ l, l = 0 ∨ l = 128 ∨
    ∃ k, l = 1024 * k ∧ 16 ≤ k ≤ 2 ^ 22 - 1); [|by left].
  intros l Hl. unfold grow_body. rewrite Hm. change FBUF_MINLEN with 128.
  rewrite (proj2 (Z.ltb_lt l newlen)) by (destruct Hl as [->|[->|(k&->&?)]]; lia).
  eexists; split; [done|]. destruct Hl as [->|[->|(k&->&Hk)]]; simpl.
  - by right; left.
  - right; right. exists 16. lia.
  - rewrite (proj2 (Z.eqb_neq _ 0)), (proj2 (Z.ltb_ge _ _)) by lia.
    destruct (decide (k = 2 ^ 22 - 1)) as [->|]; [by left|]. right; right.
    exists (k + 1). rewrite u32_small by lia. lia.
Qed.

(** C37 — Extending a new unlimited buffer to more than [2^32 - 1025] bytes
    neither succeeds nor fails: the growth loop wraps around and never ends. *)
Theorem fbuf_extend_diverges id newlen w :
  2 ^ 32 - 1024 ≤ newlen < 2 ^ 32 - 1 →
  fbuf_extend (mk_fbuf id None 0 FBUF_MAXLEN_NONE FBUF_MINLEN
    FBUF_FASTGROWSIZE FBUF_SLOWGROWSIZE 0 0) newlen w = Diverge.
Proof.
  intros Hn. unfold fbuf_extend. fb. rewrite (u32_small (newlen + 1)) by lia.
  change (u32 (0 - 0)) with 0. rewrite (proj2 (Z.leb_gt _ _)) by lia.
  change (negb (0 =? 0)) with false. change (negb (FBUF_MAXLEN_NONE =? FBUF_MAXLEN_NONE)) with false.
  cbn [andb]. cbv iota. unfold lift, mbind at 1, st_bind at 1, fast_of, slow_of. fb.
  change (FBUF_FASTGROWSIZE =? 0) with false. change (FBUF_SLOWGROWSIZE =? 0) with false.
  cbv iota. rewrite grow_stuck by (simpl; lia). done.
Qed.

Lemma fbuf_extend_diverges_witness :
  fbuf_extend (mk_fbuf 7 None 0 FBUF_MAXLEN_NONE FBUF_MINLEN
    FBUF_FASTGROWSIZE FBUF_SLOWGROWSIZE 0 0) 4294967000 calm = Diverge.
Proof. apply fbuf_extend_diverges. lia. Defined.

(** A failed allocation does change the buffer: [fbuf_extend] returns [0]
    but [len] already has the new value, so the next call believes the room is
    there and the following write is outside of the block. *)
Theorem fbuf_extend_failure_len :
  let f := sample 8 0 0 [1; 2; 3] in
  let w := mk_world [false] 1 0 0 [] [] [] in
  match fbuf_add_binary f (Some (bytes (replicate 9 65))) 9 w with
  | Ret ((f', r), w') =>
      r = -1 ∧ fbuf_len f' = 16384 ∧ (length <$> fb_data f') = Some 8%nat ∧
      fbuf_add_binary f' (Some (bytes (replicate 9 65))) 9 w' = Undef
  | _ => False
  end.
Proof. vm_compute. done. Qed.

(** [fbuf_maxlen(f, FBUF_MAXLEN_NONE)], which should remove the limit,
    cuts a buffer down to its terminator. *)
Theorem fbuf_maxlen_none_truncates :
  match fbuf_maxlen (sample 16 0 10 [1; 2; 3]) FBUF_MAXLEN_NONE calm with
  | Ret ((f', r), _) => r = 10 ∧ fbuf_used f' = 0 ∧ fb_data f' = Some [Some 0]
  | _ => False
  end.
Proof. vm_compute. done. Qed.

(** [fbuf_remove], [fbuf_trim] and [fbuf_rtrim] write the terminator of an
    empty buffer without looking whether it was ever allocated: on a new buffer
    they dereference the null pointer. *)
Theorem fbuf_new_remove_null id maxlen n w :
  0 ≤ n →
  let f := mk_fbuf id None 0 maxlen FBUF_MINLEN FBUF_FASTGROWSIZE FBUF_SLOWGROWSIZE 0 0 in
  fbuf_remove f n w = Undef ∧ fbuf_trim f w = Undef ∧ fbuf_rtrim f w = Undef.
Proof.
  intros Hn f. split_and!.
  - unfold fbuf_remove. change (fb_used f) with 0. by rewrite (proj2 (Z.leb_le 0 n)).
  - reflexivity.
  - reflexivity.
Qed.

Lemma fbuf_new_remove_null_witness :
  let f := mk_fbuf 7 None 0 100 FBUF_MINLEN FBUF_FASTGROWSIZE FBUF_SLOWGROWSIZE 0 0 in
  fbuf_remove f 3 calm = Undef ∧ fbuf_trim f calm = Undef ∧ fbuf_rtrim f calm = Undef.
Proof. apply fbuf_new_remove_null. lia. Defined.

(** [fbuf_nprintf] does not limit what it adds to the maximum: a text
    longer than the room makes [used] larger than the buffer and the terminator
    is stored outside of it. *)
Theorem fbuf_nprintf_overflow :
  fbuf_nprintf (sample 16 0 0 [1; 2; 3]) 4 (replicate 20 65) calm = Undef.
Proof. vm_compute. done. Qed.
