(* ===== verification/Linklist.v ===== *)
(** * Linked lists (src/src/linklist.c, src/src/linklist.h)

    Doubly linked lists with a cursor ([cur], [pos]) that remembers the last
    entry picked by position, tagged values and slices.  The heap maps
    addresses to C objects; the null pointer is [0], an address is never used
    twice, and an access to an address that holds no object of the right type
    (null, freed, never allocated) is undefined behaviour, as is freeing it
    twice.  Values are opaque pointers; the locks are left out (one thread). *)

From S2P Require Import Prelude.

(** ** The heap *)

Record list_entry_t := mk_entry {
  e_list : Z; e_prev : Z; e_next : Z; e_value : Z; e_tagged : bool
}.

Record linked_list_t := mk_list {
  l_head : Z; l_tail : Z; l_cur : Z; l_pos : Z; l_length : Z;
  l_free_value_cb : bool;   (* is a callback set? *)
  l_slices : Z
}.

Record slice_t := mk_slice { s_list : Z; s_offset : Z; s_length : Z }.

Inductive tv_type := TV_TYPE_STRING | TV_TYPE_BINARY | TV_TYPE_LIST.

Record tagged_value_t := mk_tagged {
  tv_tag : Z; tv_value : Z; tv_vlen : Z; tv_kind : tv_type
}.

Inductive obj :=
  | OEntry (e : list_entry_t)
  | OList (l : linked_list_t)
  | OSlice (s : slice_t)
  | OTagged (t : tagged_value_t)
  | OBytes (s : list Z).      (* a string or a copied value *)

(** [hp_next] is the next address to hand out, [hp_alloc] the allocator's
    answers to the coming requests (success once it is exhausted), and
    [hp_freed] the values the user's callback was called with. *)
Record heap := mk_heap {
  hp : gmap Z obj; hp_next : Z; hp_alloc : list bool; hp_freed : list Z
}.

Abbreviation M := (ST heap).

Definition upd_hp (f : gmap Z obj → gmap Z obj) (h : heap) : heap :=
  mk_heap (f (hp h)) (hp_next h) (hp_alloc h) (hp_freed h).

(** [calloc]/[malloc]/[strdup]: a new object or null. *)
Definition alloc (o : obj) : M Z := λ h,
  match hp_alloc h with
  | false :: a => Ret (0, mk_heap (hp h) (hp_next h) a (hp_freed h))
  | a =>
      Ret (hp_next h, mk_heap (<[hp_next h := o]> (hp h)) (hp_next h + 1) (tail a) (hp_freed h))
  end.

Definition free (p : Z) : M unit := λ h,
  if p =? 0 then Ret (tt, h) else
  match hp h !! p with
  | Some _ => Ret (tt, upd_hp (delete p) h)
  | None => Undef
  end.

Definition load_entry (p : Z) : M list_entry_t := λ h,
  match hp h !! p with Some (OEntry e) => Ret (e, h) | _ => Undef end.
Definition load_list (p : Z) : M linked_list_t := λ h,
  match hp h !! p with Some (OList l) => Ret (l, h) | _ => Undef end.
Definition load_slice (p : Z) : M slice_t := λ h,
  match hp h !! p with Some (OSlice s) => Ret (s, h) | _ => Undef end.
Definition load_tagged (p : Z) : M tagged_value_t := λ h,
  match hp h !! p with Some (OTagged t) => Ret (t, h) | _ => Undef end.
Definition load_bytes (p : Z) : M (list Z) := λ h,
  match hp h !! p with Some (OBytes s) => Ret (s, h) | _ => Undef end.

Definition store (p : Z) (o : obj) : M unit := modify (upd_hp <[p := o]>).

(** [p->field = v] for the fields of an entry, a list and a slice. *)
Definition set_entry (p : Z) (f : list_entry_t → list_entry_t) : M unit :=
  e ← load_entry p; store p (OEntry (f e)).
Definition set_list (p : Z) (f : linked_list_t → linked_list_t) : M unit :=
  l ← load_list p; store p (OList (f l)).
Definition set_slice (p : Z) (f : slice_t → slice_t) : M unit :=
  s ← load_slice p; store p (OSlice (f s)).

Definition with_list (v : Z) (e : list_entry_t) :=
  mk_entry v (e_prev e) (e_next e) (e_value e) (e_tagged e).
Definition with_prev (v : Z) (e : list_entry_t) :=
  mk_entry (e_list e) v (e_next e) (e_value e) (e_tagged e).
Definition with_next (v : Z) (e : list_entry_t) :=
  mk_entry (e_list e) (e_prev e) v (e_value e) (e_tagged e).
Definition with_value (v : Z) (e : list_entry_t) :=
  mk_entry (e_list e) (e_prev e) (e_next e) v (e_tagged e).
Definition with_tagged (b : bool) (e : list_entry_t) :=
  mk_entry (e_list e) (e_prev e) (e_next e) (e_value e) b.

Definition with_head (v : Z) (l : linked_list_t) :=
  mk_list v (l_tail l) (l_cur l) (l_pos l) (l_length l) (l_free_value_cb l) (l_slices l).
Definition with_tail (v : Z) (l : linked_list_t) :=
  mk_list (l_head l) v (l_cur l) (l_pos l) (l_length l) (l_free_value_cb l) (l_slices l).
Definition with_cur (v : Z) (l : linked_list_t) :=
  mk_list (l_head l) (l_tail l) v (l_pos l) (l_length l) (l_free_value_cb l) (l_slices l).
Definition with_pos (v : Z) (l : linked_list_t) :=
  mk_list (l_head l) (l_tail l) (l_cur l) v (l_length l) (l_free_value_cb l) (l_slices l).
Definition with_length (v : Z) (l : linked_list_t) :=
  mk_list (l_head l) (l_tail l) (l_cur l) (l_pos l) v (l_free_value_cb l) (l_slices l).
Definition with_free_value_cb (v : bool) (l : linked_list_t) :=
  mk_list (l_head l) (l_tail l) (l_cur l) (l_pos l) (l_length l) v (l_slices l).
Definition with_slices (v : Z) (l : linked_list_t) :=
  mk_list (l_head l) (l_tail l) (l_cur l) (l_pos l) (l_length l) (l_free_value_cb l) v.

(** The user's [free_value_cb]. *)
Definition call_free_value_cb (v : Z) : M unit :=
  modify (λ h, mk_heap (hp h) (hp_next h) (hp_alloc h) (hp_freed h ++ [v])).

(** ** Entries *)

Definition create_entry : M Z := alloc (OEntry (mk_entry 0 0 0 0 false)).

Definition list_create : M Z := alloc (OList (mk_list 0 0 0 0 0 false 0)).

Definition list_init (list : Z) : M Z := mret 0.

Definition list_count (l : Z) : M Z :=
  l ← load_list l; mret (l_length l).

Definition list_set_free_value_callback (list : Z) (cb : bool) : M unit :=
  set_list list (with_free_value_cb cb).

(** [if(p) p->... = v]: a store through a pointer that may be null. *)
Definition set_entry_if (p : Z) (f : list_entry_t → list_entry_t) : M unit :=
  if p =? 0 then mret tt else set_entry p f.

(** [entry->list = entry->prev = entry->next = NULL]. *)
Definition unlinked (e : list_entry_t) : list_entry_t :=
  mk_entry 0 0 0 (e_value e) (e_tagged e).

(** [if(list->length == 0) list->head = list->tail = NULL]. *)
Definition reset_if_empty (list : Z) : M unit :=
  l ← load_list list;
  if l_length l =? 0 then set_list list (λ l, with_head 0 (with_tail 0 l)) else mret tt.

Definition pop_entry (list : Z) : M Z :=
  l ← load_list list;
  let entry := l_tail l in
  _ ← (if entry =? 0 then mret tt else
    e ← load_entry entry;
    _ ← set_list list (with_tail (e_prev e));
    _ ← set_entry_if (e_prev e) (with_next 0);
    _ ← set_list list (λ l, with_length (u64 (l_length l - 1)) l);
    _ ← set_entry entry unlinked;
    l ← load_list list;
    if l_cur l =? entry then set_list list (with_cur 0) else mret tt);
  _ ← reset_if_empty list;
  mret entry.

Definition push_entry (list entry : Z) : M Z :=
  if entry =? 0 then mret (-1) else
  l ← load_list list;
  _ ← (if l_length l =? 0 then
         set_list list (λ l, with_head entry (with_tail entry l))
       else
         let p := l_tail l in
         _ ← set_entry p (with_next entry);
         _ ← set_entry entry (λ e, with_next 0 (with_prev p e));
         set_list list (with_tail entry));
  _ ← set_list list (λ l, with_length (u64 (l_length l + 1)) l);
  _ ← set_entry entry (with_list list);
  mret 0.

Definition shift_entry (list : Z) : M Z :=
  l ← load_list list;
  let entry := l_head l in
  _ ← (if entry =? 0 then mret tt else
    e ← load_entry entry;
    _ ← set_list list (with_head (e_next e));
    _ ← set_entry_if (e_next e) (with_prev 0);
    _ ← set_list list (λ l, with_length (u64 (l_length l - 1)) l);
    _ ← set_entry entry unlinked;
    l ← load_list list;
    if l_cur l =? entry then set_list list (with_cur 0)
    else if negb (l_pos l =? 0) then set_list list (with_pos (l_pos l - 1))
    else mret tt);
  _ ← reset_if_empty list;
  mret entry.

Definition unshift_entry (list entry : Z) : M Z :=
  if entry =? 0 then mret (-1) else
  l ← load_list list;
  _ ← (if l_length l =? 0 then
         set_list list (λ l, with_head entry (with_tail entry l))
       else
         let p := l_head l in
         _ ← set_entry p (with_prev entry);
         _ ← set_entry entry (λ e, with_next p (with_prev 0 e));
         set_list list (with_head entry));
  _ ← set_list list (λ l, with_length (u64 (l_length l + 1)) l);
  _ ← set_entry entry (with_list list);
  l ← load_list list;
  _ ← (if l_cur l =? 0 then mret tt
       else set_list list (with_pos (u64 (l_pos l + 1))));
  mret 0.

(** The loops of [pick_entry]: [for (i = i0; cond(i); i = step(i)) entry =
    entry->link]. *)
Definition follow_body (cond : Z → bool) (step : Z → Z) (link : list_entry_t → Z)
    (x : Z * Z) : M (Z * Z + Z) :=
  let '(i, entry) := x in
  if cond i then
    e ← load_entry entry;
    mret (inl (u32 (step i), link e))
  else mret (inr entry).
Definition follow (cond : Z → bool) (step : Z → Z) (link : list_entry_t → Z)
    (i entry : Z) : M Z :=
  loopS (follow_body cond step link) (i, entry).

(** [(size_t)abs((int)(a - b))] *)
Definition abs_diff (a b : Z) : M Z :=
  lift (int32 (Z.abs (as_int (u32 (a - b))))).

(** The walk to position [pos] from the cursor, the tail or the head. *)
Definition walk_to (l : linked_list_t) (pos half_length : Z) (near : bool) : M Z :=
  if near then
    if l_pos l <? pos then
      follow (λ i, i <? pos) (λ i, i + 1) e_next (u32 (l_pos l)) (l_cur l)
    else if pos <? l_pos l then
      follow (λ i, pos <? i) (λ i, i - 1) e_prev (u32 (l_pos l)) (l_cur l)
    else mret (l_cur l)
  else if half_length <? pos then
    follow (λ i, pos <? i) (λ i, i - 1) e_prev (u32 (l_length l - 1)) (l_tail l)
  else
    follow (λ i, i <? pos) (λ i, i + 1) e_next 0 (l_head l).

Definition pick_entry (list pos : Z) : M Z :=
  l ← load_list list;
  if l_length l <=? pos then mret 0 else
  let half_length := Z.shiftr (l_length l) 1 in
  near ← (if l_cur l =? 0 then mret false
          else d ← abs_diff (l_pos l) pos; mret (d <? half_length));
  entry ← walk_to l pos half_length near;
  _ ← (if entry =? 0 then mret tt
       else set_list list (λ l, with_pos pos (with_cur entry l)));
  mret entry.

Definition remove_entry (list pos : Z) : M Z :=
  entry ← pick_entry list pos;
  if entry =? 0 then mret 0 else
  e ← load_entry entry;
  let prev := e_prev e in
  let next := e_next e in
  l ← load_list list;
  _ ← (if pos =? 0 then set_list list (with_head next)
       else if pos =? u64 (l_length l - 1) then set_list list (with_tail prev)
       else mret tt);
  _ ← set_entry_if prev (with_next next);
  _ ← set_entry_if next (with_prev prev);
  _ ← set_list list (λ l, with_length (u64 (l_length l - 1)) l);
  _ ← set_entry entry unlinked;
  l ← load_list list;
  _ ← (if l_cur l =? entry then set_list list (λ l, with_pos 0 (with_cur 0 l))
       else if pos <? l_pos l then set_list list (with_pos (l_pos l - 1))
       else mret tt);
  mret entry.

(** The scan of [get_entry_position]. *)
Definition position_body (entry : Z) (x : Z * Z) : M (Z * Z + Z) :=
  let '(i, p) := x in
  if p =? 0 then mret (inr (-1))
  else if p =? entry then mret (inr i)
  else
    e ← load_entry p;
    i ← lift (int32 (i + 1));
    mret (inl (i, e_next e)).
Definition get_entry_position (entry : Z) : M Z :=
  e ← load_entry entry;
  if e_list e =? 0 then mret (-1) else
  l ← load_list (e_list e);
  loopS (position_body entry) (0, l_head l).

Definition destroy_entry (entry : Z) : M unit :=
  if entry =? 0 then mret tt else
  e ← load_entry entry;
  _ ← (if e_list e =? 0 then mret 0 else
         pos ← get_entry_position entry;
         if 0 <=? pos then remove_entry (e_list e) pos else mret 0);
  free entry.

(** The padding loop of [insert_entry]: empty entries are pushed until
    position [pos] is the end; [false] when an allocation fails. *)
Definition pad_body (list pos : Z) (i : Z) : M (Z + bool) :=
  if i <? pos then
    emptyEntry ← create_entry;
    if emptyEntry =? 0 then mret (inr false) else
    r ← push_entry list emptyEntry;
    if r =? 0 then mret (inl (u32 (i + 1)))
    else _ ← destroy_entry emptyEntry; mret (inr false)
  else mret (inr true).

Definition insert_entry (list entry pos : Z) : M Z :=
  l ← load_list list;
  '(ret, failed) ←
    (if pos =? 0 then r ← unshift_entry list entry; mret (r, false)
     else if pos =? l_length l then r ← push_entry list entry; mret (r, false)
     else if l_length l <? pos then
       ok ← loopS (pad_body list pos) (u32 (l_length l));
       if ok : bool then r ← push_entry list entry; mret (r, false)
       else mret (-1, true)
     else mret (-1, false));
  if failed : bool then mret (-1)
  else if ret =? 0 then mret ret
  else
    prev ← pick_entry list (u64 (pos - 1));
    if prev =? 0 then mret ret else
    p ← load_entry prev;
    let next := e_next p in
    _ ← set_entry prev (with_next entry);
    _ ← set_entry entry (with_prev prev);
    _ ← set_entry entry (with_next next);
    _ ← set_entry_if next (with_prev entry);
    _ ← set_list list (λ l, with_length (u64 (l_length l + 1)) l);
    mret 0.

Definition fetch_entry (list pos : Z) : M Z :=
  if pos =? 0 then shift_entry list
  else
    n ← list_count list;
    if pos =? u64 (n - 1) then pop_entry list
    else remove_entry list pos.

Definition move_entry (list srcPos dstPos : Z) : M Z :=
  e ← fetch_entry list srcPos;
  if e =? 0 then mret (-1) else
  r ← insert_entry list e dstPos;
  if r =? 0 then mret 0 else
  _ ← insert_entry list e srcPos;
  mret (-1).

Definition swap_entries (list pos1 pos2 : Z) : M Z :=
  if pos1 <? pos2 then
    e2 ← fetch_entry list pos2;
    _ ← insert_entry list e2 pos1;
    e1 ← fetch_entry list (u64 (pos1 + 1));
    _ ← insert_entry list e1 pos2;
    mret 0
  else if pos2 <? pos1 then
    e1 ← fetch_entry list pos1;
    _ ← insert_entry list e1 pos2;
    e2 ← fetch_entry list (u64 (pos2 + 1));
    _ ← insert_entry list e2 pos1;
    mret 0
  else mret (-1).

Definition subst_entry (list pos entry : Z) : M Z :=
  old ← fetch_entry list pos;
  if old =? 0 then mret 0 else
  _ ← insert_entry list entry pos;
  mret old.

(** ** Values *)

(** [val = entry->value; destroy_entry(entry)] for an entry that may be null. *)
Definition take_value (entry : Z) : M Z :=
  if entry =? 0 then mret 0 else
  e ← load_entry entry;
  _ ← destroy_entry entry;
  mret (e_value e).

(** The common part of the functions that add a value: a new entry with
    [value] and [tagged] is handed to [add], and destroyed if that fails. *)
Definition add_value (add : Z → M Z) (tagged : bool) (val nomem : Z) : M Z :=
  new_entry ← create_entry;
  if new_entry =? 0 then mret nomem else
  _ ← set_entry new_entry (λ e, with_value val (with_tagged tagged e));
  res ← add new_entry;
  _ ← (if res =? 0 then mret tt else destroy_entry new_entry);
  mret res.

Definition list_pop_value (list : Z) : M Z :=
  entry ← pop_entry list; take_value entry.
Definition list_push_value (list val : Z) : M Z :=
  add_value (push_entry list) false val (-1).
Definition list_unshift_value (list val : Z) : M Z :=
  add_value (unshift_entry list) false val (-1).
Definition list_shift_value (list : Z) : M Z :=
  entry ← shift_entry list; take_value entry.
Definition list_insert_value (list val pos : Z) : M Z :=
  add_value (λ e, insert_entry list e pos) false val (-1).
Definition list_pick_value (list pos : Z) : M Z :=
  entry ← pick_entry list pos;
  if entry =? 0 then mret 0 else e ← load_entry entry; mret (e_value e).
Definition list_fetch_value (list pos : Z) : M Z :=
  entry ← fetch_entry list pos; take_value entry.
Definition list_move_value (list srcPos dstPos : Z) : M Z :=
  move_entry list srcPos dstPos.
Definition list_subst_value (list pos newval : Z) : M Z :=
  entry ← pick_entry list pos;
  if entry =? 0 then mret 0 else
  e ← load_entry entry;
  _ ← set_entry entry (with_value newval);
  mret (e_value e).
Definition list_set_value (list pos newval : Z) : M Z :=
  entry ← pick_entry list pos;
  if entry =? 0 then
    _ ← list_insert_value list newval pos; mret 0
  else
    e ← load_entry entry;
    _ ← set_entry entry (with_value newval);
    mret (e_value e).
Definition list_swap_values (list pos1 pos2 : Z) : M Z := swap_entries list pos1 pos2.

(** ** Slices and iteration *)

(** Removal of entry [d] from the list while iterating; [e] is its successor. *)
Definition foreach_unlink (list d e : Z) : M unit :=
  l ← load_list list;
  if (l_head l =? l_tail l) && (l_tail l =? d) then
    set_list list (λ l, with_head 0 (with_tail 0 l))
  else if d =? l_head l then
    x ← load_entry d;
    _ ← set_list list (with_head (e_next x));
    set_entry (e_next x) (with_prev 0)
  else if d =? l_tail l then
    x ← load_entry d;
    _ ← set_list list (with_tail (e_prev x));
    set_entry (e_prev x) (with_next 0)
  else
    x ← load_entry d;
    _ ← set_entry e (with_prev (e_prev x));
    set_entry (e_prev x) (with_next e).

(** [slice_foreach_value] keeps the length of the slice in the loop state;
    the handler is a function of the item, its index and the user's state. *)
Definition foreach_body {U} (item_handler : Z → Z → U → Z * U) (list : Z)
    (x : Z * Z * Z * U) : M (Z * Z * Z * U + Z * Z * U) :=
  let '(e, idx, length, user) := x in
  if negb (e =? 0) && (idx <? length) then
    x ← load_entry e;
    let '(rc, user) := item_handler (e_value x) idx user in
    let idx := u64 (idx + 1) in
    if rc =? 0 then mret (inr (idx, length, user))
    else if (rc =? -1) || (rc =? -2) then
      let d := e in
      let e := e_next x in
      _ ← foreach_unlink list d e;
      _ ← set_entry d (with_list 0);
      l ← load_list list;
      _ ← (if l_cur l =? d then set_list list (with_cur 0) else mret tt);
      _ ← set_list list (λ l, with_length (u64 (l_length l - 1)) l);
      let length := u64 (length - 1) in
      _ ← destroy_entry d;
      if rc =? -2 then mret (inr (idx, length, user))
      else mret (inl (e, idx, length, user))
    else mret (inl (e_next x, idx, length, user))
  else mret (inr (idx, length, user)).

(** The loop on a slice given by its fields: the index reached, the length
    left and the user's state. *)
Definition foreach {U} (item_handler : Z → Z → U → Z * U) (list offset length : Z) (user : U) :
    M (Z * Z * U) :=
  e ← pick_entry list offset;
  loopS (foreach_body item_handler list) (e, 0, length, user).

Definition slice_foreach_value {U} (slice : Z) (item_handler : Z → Z → U → Z * U) (user : U) :
    M (Z * U) :=
  s ← load_slice slice;
  '(idx, length, user) ← foreach item_handler (s_list s) (s_offset s) (s_length s) user;
  _ ← set_slice slice (λ s, mk_slice (s_list s) (s_offset s) length);
  mret (as_int (u32 idx), user).

(** The slice of [list_foreach_value] is a local variable. *)
Definition list_foreach_value {U} (list : Z) (item_handler : Z → Z → U → Z * U) (user : U) :
    M (Z * U) :=
  l ← load_list list;
  '(idx, _, user) ← foreach item_handler list 0 (l_length l) user;
  mret (as_int (u32 idx), user).

Definition last_slice_body (cur : Z) : M (Z + Z) :=
  e ← load_entry cur;
  mret (if e_next e =? 0 then inr cur else inl (e_next e)).

Definition slice_create (list offset length : Z) : M Z :=
  slice ← alloc (OSlice (mk_slice 0 0 0));
  _ ← set_slice slice (λ _, mk_slice list offset length);
  e ← create_entry;
  _ ← set_entry e (with_value slice);
  l ← load_list list;
  let cur := l_slices l in
  _ ← (if cur =? 0 then set_list list (with_slices e)
       else
         cur ← loopS last_slice_body cur;
         _ ← set_entry cur (with_next e);
         set_entry e (with_prev cur));
  mret slice.

Definition slice_destroy_body (list slice : Z) (x : Z * Z) : M (Z * Z + unit) :=
  let '(cur, prev) := x in
  if cur =? 0 then mret (inr tt) else
  e ← load_entry cur;
  if e_value e =? slice then
    _ ← (if prev =? 0 then set_list list (with_slices (e_next e))
         else
           _ ← set_entry prev (with_next (e_next e));
           set_entry (e_next e) (with_prev prev));
    _ ← destroy_entry cur;
    mret (inr tt)
  else mret (inl (e_next e, cur)).

Definition slice_destroy (slice : Z) : M unit :=
  s ← load_slice slice;
  l ← load_list (s_list s);
  _ ← loopS (slice_destroy_body (s_list s) slice) (l_slices l, 0);
  free slice.

(** ** Tagged values *)

(** A string, or the bytes of a value. *)
Abbreviation cstr := (list Z).

(** [strdup(s)], or null for the null pointer. *)
Definition strdup (s : option cstr) : M Z :=
  match s with Some s => alloc (OBytes s) | None => mret 0 end.

Definition list_create_tagged_value_nocopy (tag : option cstr) (val : Z) : M Z :=
  newval ← alloc (OTagged (mk_tagged 0 0 0 TV_TYPE_STRING));
  if newval =? 0 then mret 0 else
  t ← strdup tag;
  _ ← store newval (OTagged (mk_tagged t val 0 TV_TYPE_STRING));
  mret newval.

(** [val] is the memory the value is copied from; when [vlen = 0] it is a
    string. *)
Definition list_create_tagged_value (tag val : option cstr) (vlen : Z) : M Z :=
  newval ← alloc (OTagged (mk_tagged 0 0 0 TV_TYPE_STRING));
  if newval =? 0 then mret 0 else
  t ← strdup tag;
  match val with
  | None => _ ← store newval (OTagged (mk_tagged t 0 0 TV_TYPE_STRING)); mret newval
  | Some v =>
      if negb (vlen =? 0) then
        p ← alloc (OBytes []);
        if p =? 0 then
          _ ← free t; _ ← free newval; mret 0
        else
          _ ← lift (check (vlen <=? Z.of_nat (length v)));
          _ ← store p (OBytes (take (Z.to_nat vlen) v ++ [0]));
          _ ← store newval (OTagged (mk_tagged t p vlen TV_TYPE_BINARY));
          mret newval
      else
        p ← strdup val;
        _ ← store newval (OTagged (mk_tagged t p (Z.of_nat (length v)) TV_TYPE_STRING));
        mret newval
  end.

Definition list_create_tagged_sublist (tag : option cstr) (sublist : Z) : M Z :=
  newval ← alloc (OTagged (mk_tagged 0 0 0 TV_TYPE_STRING));
  if newval =? 0 then mret 0 else
  t ← strdup tag;
  _ ← store newval (OTagged (mk_tagged t sublist 0 TV_TYPE_LIST));
  mret newval.

(** The functions that destroy lists and tagged values call each other: a
    tagged value may hold a list.  [destroy_list] destroys the lists inside. *)
Section destroy.
Context (destroy_list : Z → M unit).

Definition list_destroy_tagged_value_internal (tval : Z) (free_cb : bool) : M unit :=
  if tval =? 0 then mret tt else
  t ← load_tagged tval;
  _ ← free (tv_tag t);
  _ ← (if tv_value t =? 0 then mret tt
       else match tv_kind t with
            | TV_TYPE_LIST => destroy_list (tv_value t)
            | _ =>
                if free_cb then call_free_value_cb (tv_value t)
                else if negb (tv_vlen t =? 0) then free (tv_value t) else mret tt
            end);
  free tval.

Definition clear_body (list : Z) (_ : unit) : M (unit + unit) :=
  e ← shift_entry list;
  if e =? 0 then mret (inr tt) else
  x ← load_entry e;
  l ← load_list list;
  _ ← (if e_tagged x && negb (e_value x =? 0) then
         list_destroy_tagged_value_internal (e_value x) (l_free_value_cb l)
       else if l_free_value_cb l then call_free_value_cb (e_value x)
       else mret tt);
  _ ← destroy_entry e;
  mret (inl tt).
Definition clear (list : Z) : M unit := loopS (clear_body list) tt.

Definition destroy_slices_body (list : Z) (_ : unit) : M (unit + unit) :=
  l ← load_list list;
  if l_slices l =? 0 then mret (inr tt) else
  e ← load_entry (l_slices l);
  _ ← slice_destroy (e_value e);
  mret (inl tt).

Definition destroy (list : Z) : M unit :=
  if list =? 0 then mret tt else
  _ ← loopS (destroy_slices_body list) tt;
  _ ← clear list;
  free list.
End destroy.

(** [depth] bounds how deep lists are nested in tagged values. *)
Fixpoint list_destroy (depth : nat) (list : Z) : M unit :=
  match depth with
  | O => λ _, Diverge
  | S depth => destroy (list_destroy depth) list
  end.
Definition list_clear (depth : nat) (list : Z) : M unit := clear (list_destroy depth) list.
Definition list_destroy_tagged_value (depth : nat) (tval : Z) : M unit :=
  list_destroy_tagged_value_internal (list_destroy depth) tval false.

Definition list_pop_tagged_value (list : Z) : M Z := list_pop_value list.
Definition shift_tagged_value (list : Z) : M Z := list_shift_value list.
Definition list_pick_tagged_value (list pos : Z) : M Z := list_pick_value list pos.
Definition list_fetch_tagged_value (list pos : Z) : M Z := list_fetch_value list pos.

Definition list_push_tagged_value (list tval : Z) : M Z :=
  if tval =? 0 then mret 0 else add_value (push_entry list) true tval 0.
Definition list_unshift_tagged_value (list tval : Z) : M Z :=
  if tval =? 0 then mret 0 else add_value (unshift_entry list) true tval 0.
Definition list_insert_tagged_value (list tval pos : Z) : M Z :=
  if tval =? 0 then mret 0 else add_value (λ e, insert_entry list e pos) true tval 0.

(** [strcmp(p, tag) == 0] for a tag in memory. *)
Definition tag_is (p : Z) (tag : cstr) : M bool :=
  s ← load_bytes p; mret (bool_decide (s = tag)).

Definition get_tagged_body (list : Z) (tag : cstr) (i : Z) : M (Z + Z) :=
  n ← list_count list;
  if i <? as_int (u32 n) then
    tval ← list_pick_tagged_value list i;
    if tval =? 0 then mret (inl (i + 1)) else
    t ← load_tagged tval;
    found ← tag_is (tv_tag t) tag;
    if found : bool then mret (inr tval) else mret (inl (i + 1))
  else mret (inr 0).
Definition list_get_tagged_value (list : Z) (tag : cstr) : M Z :=
  loopS (get_tagged_body list tag) 0.

Definition get_tagged_values_body (list : Z) (tag : cstr) (values : Z) (x : Z * Z) :
    M (Z * Z + Z) :=
  let '(i, ret) := x in
  n ← list_count list;
  if i <? as_int (u32 n) then
    tval ← list_pick_tagged_value list i;
    if tval =? 0 then mret (inl (i + 1, ret)) else
    t ← load_tagged tval;
    found ← tag_is (tv_tag t) tag;
    if found : bool then
      _ ← list_push_value values (tv_value t);
      mret (inl (i + 1, ret + 1))
    else mret (inl (i + 1, ret))
  else mret (inr ret).
Definition list_get_tagged_values (list : Z) (tag : cstr) (values : Z) : M Z :=
  loopS (get_tagged_values_body list tag values) (0, 0).

(** The index of the first entry with the tag and its tagged value. *)
Definition set_tagged_body (list : Z) (tag : cstr) (i : Z) : M (Z + option (Z * Z)) :=
  l ← load_list list;
  if i <? as_int (u32 (l_length l)) then
    tv ← list_pick_tagged_value list i;
    if tv =? 0 then mret (inl (i + 1)) else
    t ← load_tagged tv;
    if tv_tag t =? 0 then mret (inl (i + 1)) else
    found ← tag_is (tv_tag t) tag;
    if found : bool then mret (inr (Some (i, tv))) else mret (inl (i + 1))
  else mret (inr None).

(** [value] and [copy]: the memory to copy from with [len], or the pointer. *)
Inductive tv_source := Copy (val : option cstr) (len : Z) | NoCopy (val : Z).

Definition list_set_tagged_value (depth : nat) (list : Z) (tag : cstr) (value : tv_source) :
    M Z :=
  tval ← (match value with
          | Copy v len => list_create_tagged_value (Some tag) v len
          | NoCopy v => list_create_tagged_value_nocopy (Some tag) v
          end);
  r ← loopS (set_tagged_body list tag) 0;
  match r with
  | Some (i, tv) =>
      old ← list_set_value list i tval;
      if old =? 0 then _ ← list_destroy_tagged_value depth tval; mret 0
      else mret tv
  | None =>
      res ← list_push_tagged_value list tval;
      _ ← (if res =? 0 then list_destroy_tagged_value depth tval else mret tt);
      mret 0
  end.

(** ** Sorting *)

Definition swap_entry_node_val (p1 p2 : Z) : M unit :=
  if (p1 =? 0) || (p2 =? 0) then mret tt else
  e1 ← load_entry p1;
  e2 ← load_entry p2;
  _ ← set_entry p1 (with_value (e_value e2));
  set_entry p2 (with_value (e_value e1)).

Section sort.
Context (comparator : Z → Z → Z).

(** [while (p && p != pivot && keep(comparator(p->value, pvalue))) p = p->link] *)
Definition scan_body (keep : Z → bool) (link : list_entry_t → Z) (pivot pvalue p : Z) :
    M (Z + Z) :=
  if (p =? 0) || (p =? pivot) then mret (inr p) else
  e ← load_entry p;
  mret (if keep (comparator (e_value e) pvalue) then inl (link e) else inr p).

(** The entry [p2], on the right of the pivot, is moved to its left. *)
Definition move_before_pivot (pivot p2 : Z) : M Z :=
  e2 ← load_entry p2;
  _ ← set_entry_if (e_prev e2) (with_next (e_next e2));
  e2 ← load_entry p2;
  _ ← set_entry_if (e_next e2) (with_prev (e_prev e2));
  pv ← load_entry pivot;
  _ ← (if negb (e_prev pv =? 0) then set_entry (e_prev pv) (with_next p2)
       else
         l ← load_list (e_list pv);
         if pivot =? l_head l then set_list (e_list pv) (with_head p2) else mret tt);
  l ← load_list (e_list pv);
  e2 ← load_entry p2;
  _ ← (if p2 =? l_tail l then set_list (e_list pv) (with_tail (e_prev e2)) else mret tt);
  let tmp := e_prev e2 in
  pv ← load_entry pivot;
  _ ← set_entry p2 (with_prev (e_prev pv));
  _ ← set_entry pivot (with_prev p2);
  _ ← set_entry_if (e_prev pv) (with_next p2);
  _ ← set_entry p2 (with_next pivot);
  mret tmp.

(** The entry [p1], on the left of the pivot, is moved to its right. *)
Definition move_after_pivot (pivot p1 : Z) : M Z :=
  e1 ← load_entry p1;
  _ ← set_entry_if (e_prev e1) (with_next (e_next e1));
  e1 ← load_entry p1;
  _ ← set_entry_if (e_next e1) (with_prev (e_prev e1));
  pv ← load_entry pivot;
  _ ← (if negb (e_next pv =? 0) then set_entry (e_next pv) (with_prev p1)
       else
         l ← load_list (e_list pv);
         if pivot =? l_tail l then set_list (e_list pv) (with_tail p1) else mret tt);
  l ← load_list (e_list pv);
  e1 ← load_entry p1;
  _ ← (if p1 =? l_head l then set_list (e_list pv) (with_head (e_next e1)) else mret tt);
  let tmp := e_next e1 in
  pv ← load_entry pivot;
  _ ← set_entry p1 (with_next (e_next pv));
  _ ← set_entry pivot (with_next p1);
  _ ← set_entry_if (e_next pv) (with_prev p1);
  _ ← set_entry p1 (with_prev pivot);
  mret tmp.

(** One round of the [for (;;)] loop: the ends of the part being sorted and
    the two scanning pointers. *)
Definition partition_body (pivot pvalue : Z) (x : Z * Z * Z * Z) :
    M (Z * Z * Z * Z + Z * Z) :=
  let '(head, tail, p1, p2) := x in
  p1 ← loopS (scan_body (λ c, 0 <? c) e_next pivot pvalue) p1;
  p2 ← loopS (scan_body (λ c, c <? 0) e_prev pivot pvalue) p2;
  if (p1 =? p2) || (p1 =? 0) || (p2 =? 0) then mret (inr (head, tail))
  else if p1 =? pivot then
    tmp ← move_before_pivot pivot p2;
    let head := if pivot =? head then p2 else head in
    let tail := if p2 =? tail then tmp else tail in
    mret (inl (head, tail, p1, tmp))
  else if p2 =? pivot then
    tmp ← move_after_pivot pivot p1;
    let tail := if pivot =? tail then p1 else tail in
    let head := if p1 =? head then tmp else head in
    mret (inl (head, tail, tmp, p2))
  else
    _ ← swap_entry_node_val p1 p2;
    e1 ← load_entry p1;
    e2 ← load_entry p2;
    mret (inl (head, tail, e_next e1, e_prev e2)).

(** [while (p1 != pivot) { p1 = p1->next; l1++; }] *)
Definition distance_body (pivot : Z) (x : Z * Z) : M (Z * Z + Z) :=
  let '(p1, l1) := x in
  if p1 =? pivot then mret (inr l1) else
  e ← load_entry p1;
  l1 ← lift (int32 (l1 + 1));
  mret (inl (e_next e, l1)).

(** [for (i = 0; pv && pv->link && i < n; ++i) pv = pv->link] *)
Definition advance_body (link : list_entry_t → Z) (n : Z) (x : Z * Z) : M (Z * Z + Z) :=
  let '(pv, i) := x in
  if pv =? 0 then mret (inr pv) else
  e ← load_entry pv;
  if negb (link e =? 0) && (i <? n) then mret (inl (link e, i + 1)) else mret (inr pv).

(** [depth] bounds the recursion; the length of the list is enough. *)
Fixpoint list_quick_sort (depth : nat) (head tail pivot length : Z) : M unit :=
  match depth with
  | O => λ _, Diverge
  | S depth =>
    if (head =? 0) || (tail =? 0) || (pivot =? 0) || (length <? 2) then mret tt
    else if length =? 2 then
      h ← load_entry head;
      t ← load_entry tail;
      if comparator (e_value h) (e_value t) <? 0 then swap_entry_node_val head tail
      else mret tt
    else
      pv ← load_entry pivot;
      '(head, tail) ← loopS (partition_body pivot (e_value pv)) (head, tail, head, tail);
      l1 ← loopS (distance_body pivot) (head, 0);
      l2 ← lift (int32 (length - (l1 + 1)));
      pv1 ← loopS (advance_body e_next (Z.quot l1 2)) (head, 0);
      pv2 ← loopS (advance_body e_prev (Z.quot l2 2)) (tail, 0);
      pv ← load_entry pivot;
      _ ← (if (1 <? l1) && negb (e_prev pv =? 0) && negb (head =? e_prev pv)
           then list_quick_sort depth head (e_prev pv) pv1 l1 else mret tt);
      pv ← load_entry pivot;
      if (1 <? l2) && negb (e_next pv =? 0) && negb (tail =? e_next pv)
      then list_quick_sort depth (e_next pv) tail pv2 l2 else mret tt
  end.

Definition list_sort (list : Z) : M unit :=
  l ← load_list list;
  pivot ← pick_entry list (u64 (l_length l / 2 - 1));
  l ← load_list list;
  _ ← list_quick_sort (S (Z.to_nat (l_length l))) (l_head l) (l_tail l) pivot
        (as_int (u32 (l_length l)));
  set_list list (λ l, with_pos 0 (with_cur 0 l)).
End sort.

(** ** Lists in the heap *)

(** An entry of a list: its address and what it carries.  [n_owner] is the
    back pointer to the list, which some operations leave null. *)
Record node := mk_node { n_loc : Z; n_val : Z; n_tagged : bool; n_owner : Z }.

Abbreviation locs ns := (n_loc <$> ns).

Definition first (ns : list node) (d : Z) : Z :=
  match ns with [] => d | n :: _ => n_loc n end.
Fixpoint lastl (ns : list node) (d : Z) : Z :=
  match ns with [] => d | n :: ns => lastl ns (n_loc n) end.

(** The entry of node [n] between [prev] and [next]. *)
Definition entry_of (n : node) (prev next : Z) : obj :=
  OEntry (mk_entry (n_owner n) prev next (n_val n) (n_tagged n)).

(** [ns] are linked in [m], after [prev] and before [nxt]. *)
Fixpoint chain (m : gmap Z obj) (prev : Z) (ns : list node) (nxt : Z) : Prop :=
  match ns with
  | [] => True
  | n :: ns =>
      m !! n_loc n = Some (entry_of n prev (first ns nxt)) ∧ chain m (n_loc n) ns nxt
  end.

(** The cursor is unset or at its position. *)
Definition cursor (ns : list node) (cur pos : Z) : Prop :=
  0 ≤ pos < 2 ^ 64 ∧ (cur = 0 ∨ ∃ n, ns !! Z.to_nat pos = Some n ∧ n_loc n = cur).

(** Only addresses that were handed out hold objects. *)
Definition wf_heap (h : heap) : Prop :=
  0 < hp_next h ∧ ∀ a o, hp h !! a = Some o → 0 < a < hp_next h.

(** No coming request is refused. *)
Definition alloc_ok (h : heap) : Prop := Forall (λ b, b = true) (hp_alloc h).

(** The list object of a list of [ns]. *)
Definition list_of (ns : list node) (cur pos : Z) (cb : bool) (sl : Z) : obj :=
  OList (mk_list (first ns 0) (lastl ns 0) cur pos (Z.of_nat (length ns)) cb sl).

(** At [p] there is a list of the entries [ns]. *)
Record is_list (h : heap) (p : Z) (cb : bool) (sl : Z) (ns : list node) : Prop := {
  il_wf : wf_heap h;
  il_obj : ∃ cur pos, hp h !! p = Some (list_of ns cur pos cb sl) ∧ cursor ns cur pos;
  il_chain : chain (hp h) 0 ns 0;
  il_nodup : NoDup (locs ns)
}.

Lemma first_app xs ys d : first (xs ++ ys) d = first xs (first ys d).
Proof. by destruct xs. Qed.
Lemma lastl_app xs ys d : lastl (xs ++ ys) d = lastl ys (lastl xs d).
Proof. revert d. induction xs as [|x xs IH]; intros d; simpl; [done|apply IH]. Qed.
Lemma chain_app m p xs ys q :
  chain m p (xs ++ ys) q ↔ chain m p xs (first ys q) ∧ chain m (lastl xs p) ys q.
Proof.
  revert p. induction xs as [|x xs IH]; intros p; simpl; [tauto|].
  rewrite IH, first_app. tauto.
Qed.
Lemma chain_frame m m' p ns q :
  (∀ a, a ∈ locs ns → m' !! a = m !! a) → chain m p ns q → chain m' p ns q.
Proof.
  revert p. induction ns as [|n ns IH]; intros p Hm; simpl; [done|].
  intros [Hn Hc]. rewrite fmap_cons in Hm. split; [rewrite Hm by left; done|].
  apply IH; [|done]. intros a Ha. apply Hm. by right.
Qed.
Lemma chain_lookup m p ns q i n :
  chain m p ns q → ns !! i = Some n →
  m !! n_loc n = Some (entry_of n (lastl (take i ns) p) (first (drop (S i) ns) q)).
Proof.
  intros Hc Hi. rewrite <- (take_drop_middle ns i n Hi) in Hc.
  apply chain_app in Hc as [_ [Hn _]]. done.
Qed.
Lemma chain_elem m p ns q a : chain m p ns q → a ∈ locs ns → ∃ e, m !! a = Some (OEntry e).
Proof.
  intros Hc (n&->&(i&Hi)%list_elem_of_lookup_1)%list_elem_of_fmap_1.
  eexists. by apply (chain_lookup m p ns q i n).
Qed.

Lemma lastl_snoc xs x d : lastl (xs ++ [x]) d = n_loc x.
Proof. by rewrite lastl_app. Qed.
Lemma lastl_cases (xs : list node) : xs = [] ∨ ∃ xs' x, xs = xs' ++ [x].
Proof. destruct xs as [|x xs' _] using rev_ind; eauto. Qed.

Lemma chain_notin m p ns q a : chain m p ns q → m !! a = None → a ∉ locs ns.
Proof. intros Hc Ha Hin. destruct (chain_elem m p ns q a Hc Hin) as [e ?]. congruence. Qed.
Lemma lastl_in xs d : xs ≠ [] → lastl xs d ∈ locs xs.
Proof.
  intros ?. destruct (lastl_cases xs) as [->|(xs'&x&->)]; [done|].
  rewrite lastl_snoc, fmap_app. apply elem_of_app. right. by left.
Qed.
Lemma first_in xs d : xs ≠ [] → first xs d ∈ locs xs.
Proof. destruct xs; [done|]. by left. Qed.

(** A change of the successor of the last entry, and of the predecessor of
    the first one. *)
Lemma chain_new_next m m' p xs q q' :
  chain m p xs q → NoDup (locs xs) →
  (xs ≠ [] → ∀ e, m !! lastl xs p = Some (OEntry e) →
     m' !! lastl xs p = Some (OEntry (with_next q' e))) →
  (∀ a, a ∈ locs xs → a ≠ lastl xs p → m' !! a = m !! a) →
  chain m' p xs q'.
Proof.
  intros Hc Hd Hl Hf. destruct (lastl_cases xs) as [->|(xs'&y&->)]; [done|].
  rewrite lastl_snoc in *. apply chain_app in Hc as [Hc [Hy _]].
  rewrite fmap_app in *. apply NoDup_app in Hd as (_&Hd&_). simpl in *.
  apply chain_app; simpl. split_and!; [|by rewrite (Hl ltac:(by destruct xs') _ Hy)|done].
  apply (chain_frame m); [|done]. intros a Ha. apply Hf.
  - apply elem_of_app. by left.
  - intros ->. apply (Hd _ Ha). by left.
Qed.
Lemma chain_new_prev m m' p p' ys q :
  chain m p ys q → NoDup (locs ys) →
  (ys ≠ [] → ∀ e, m !! first ys q = Some (OEntry e) →
     m' !! first ys q = Some (OEntry (with_prev p' e))) →
  (∀ a, a ∈ locs ys → a ≠ first ys q → m' !! a = m !! a) →
  chain m' p' ys q.
Proof.
  intros Hc Hd Hr Hf. destruct ys as [|z ys]; [done|]. simpl in *.
  destruct Hc as [Hz Hc]. apply NoDup_cons in Hd as [Hd _]. split.
  - by rewrite (Hr ltac:(done) _ Hz).
  - apply (chain_frame m); [|done]. intros a Ha. apply Hf; [by right|]. by intros ->.
Qed.

(** A node linked in between [xs] and [ys]. *)
Lemma chain_link m m' xs x ys :
  m !! 0 = None → chain m 0 (xs ++ ys) 0 → NoDup (locs (xs ++ ys)) →
  m' !! n_loc x = Some (entry_of x (lastl xs 0) (first ys 0)) →
  (xs ≠ [] → ∀ e, m !! lastl xs 0 = Some (OEntry e) →
     m' !! lastl xs 0 = Some (OEntry (with_next (n_loc x) e))) →
  (ys ≠ [] → ∀ e, m !! first ys 0 = Some (OEntry e) →
     m' !! first ys 0 = Some (OEntry (with_prev (n_loc x) e))) →
  (∀ a, a ∈ locs (xs ++ ys) → a ≠ lastl xs 0 → a ≠ first ys 0 → m' !! a = m !! a) →
  chain m' 0 (xs ++ x :: ys) 0.
Proof.
  intros H0 Hc Hnd Hx Hl Hr Hf. rewrite fmap_app in Hf, Hnd.
  apply NoDup_app in Hnd as (Hd1&Hd2&Hd3). apply chain_app in Hc as [Hc1 Hc2].
  pose proof (chain_notin _ _ _ _ _ Hc1 H0). pose proof (chain_notin _ _ _ _ _ Hc2 H0).
  apply chain_app; simpl. split_and!; [| done |].
  - apply (chain_new_next m m' 0 xs (first ys 0)); try done.
    intros a Ha Hne. apply Hf; [apply elem_of_app; by left|done|]. intros ->.
    destruct ys as [|y ys]; [done|]. apply (Hd2 _ Ha). by left.
  - apply (chain_new_prev m m' (lastl xs 0) (n_loc x) ys 0); try done.
    intros a Ha Hne. apply Hf; [apply elem_of_app; by right| |done]. intros ->.
    destruct (decide (xs = [])) as [->|Hxs]; [done|]. apply (Hd2 (lastl xs 0)); [|done].
    by apply lastl_in.
Qed.

(** A node taken out from between [xs] and [ys]. *)
Lemma chain_unlink m m' xs x ys :
  m !! 0 = None → chain m 0 (xs ++ x :: ys) 0 → NoDup (locs (xs ++ x :: ys)) →
  (xs ≠ [] → ∀ e, m !! lastl xs 0 = Some (OEntry e) →
     m' !! lastl xs 0 = Some (OEntry (with_next (first ys 0) e))) →
  (ys ≠ [] → ∀ e, m !! first ys 0 = Some (OEntry e) →
     m' !! first ys 0 = Some (OEntry (with_prev (lastl xs 0) e))) →
  (∀ a, a ∈ locs (xs ++ ys) → a ≠ lastl xs 0 → a ≠ first ys 0 → m' !! a = m !! a) →
  chain m' 0 (xs ++ ys) 0 ∧ NoDup (locs (xs ++ ys)) ∧ n_loc x ∉ locs (xs ++ ys).
Proof.
  intros H0 Hc Hnd Hl Hr Hf. rewrite fmap_app in Hf, Hnd |- *. rewrite fmap_cons in Hnd.
  apply NoDup_app in Hnd as (Hd1&Hd3&Hd2). apply NoDup_cons in Hd2 as [Hdx Hd2].
  apply chain_app in Hc as [Hc1 [Hx Hc2]].
  pose proof (chain_notin _ _ _ _ _ Hc1 H0). pose proof (chain_notin _ _ _ _ _ Hc2 H0).
  assert (∀ a, a ∈ locs xs → a ∉ locs ys) as Hxy.
  { intros a Ha Hy. apply (Hd3 _ Ha). by right. }
  split_and!; [apply chain_app; split| |].
  - apply (chain_new_next m m' 0 xs (n_loc x)); try done.
    intros a Ha Hne. apply Hf; [apply elem_of_app; by left|done|]. intros ->.
    destruct ys as [|y ys]; [done|]. apply (Hxy _ Ha). by left.
  - apply (chain_new_prev m m' (n_loc x) (lastl xs 0) ys 0); try done.
    intros a Ha Hne. apply Hf; [apply elem_of_app; by right| |done]. intros ->.
    destruct (decide (xs = [])) as [->|Hxs]; [done|]. apply (Hxy (lastl xs 0)); [|done].
    by apply lastl_in.
  - apply NoDup_app. by split_and!.
  - intros [Ha|Ha]%elem_of_app; [|done]. apply (Hd3 _ Ha). by left.
Qed.

(** ** Running code on the heap *)

Definition with_hp (h : heap) (m : gmap Z obj) : heap :=
  mk_heap m (hp_next h) (hp_alloc h) (hp_freed h).
Lemma with_hp_id h : with_hp h (hp h) = h.
Proof. by destruct h. Qed.

Definition on_entry (f : list_entry_t → list_entry_t) (o : obj) : obj :=
  match o with OEntry e => OEntry (f e) | o => o end.
Definition on_list (f : linked_list_t → linked_list_t) (o : obj) : obj :=
  match o with OList l => OList (f l) | o => o end.

Lemma returns_load_entry h m p e Q :
  m !! p = Some (OEntry e) → Q (e, with_hp h m) → returns (load_entry p (with_hp h m)) Q.
Proof. intros Hp HQ. unfold load_entry. simpl. by rewrite Hp. Qed.
Lemma returns_load_list h m p l Q :
  m !! p = Some (OList l) → Q (l, with_hp h m) → returns (load_list p (with_hp h m)) Q.
Proof. intros Hp HQ. unfold load_list. simpl. by rewrite Hp. Qed.
Lemma returns_set_entry h m p f Q :
  (∃ e, m !! p = Some (OEntry e)) → Q (tt, with_hp h (alter (on_entry f) p m)) →
  returns (set_entry p f (with_hp h m)) Q.
Proof.
  intros [e Hp] HQ. unfold set_entry. apply returns_st_bind.
  apply (returns_load_entry _ _ _ e); [done|]. unfold store. apply returns_modify.
  unfold upd_hp. simpl. replace (<[p:=OEntry (f e)]> m) with (alter (on_entry f) p m); [done|].
  apply map_eq. intros a. rewrite lookup_alter, lookup_insert.
  case_decide; [subst; by rewrite Hp|done].
Qed.
Lemma returns_set_list h m p f Q :
  (∃ l, m !! p = Some (OList l)) → Q (tt, with_hp h (alter (on_list f) p m)) →
  returns (set_list p f (with_hp h m)) Q.
Proof.
  intros [l Hp] HQ. unfold set_list. apply returns_st_bind.
  apply (returns_load_list _ _ _ l); [done|]. unfold store. apply returns_modify.
  unfold upd_hp. simpl. replace (<[p:=OList (f l)]> m) with (alter (on_list f) p m); [done|].
  apply map_eq. intros a. rewrite lookup_alter, lookup_insert.
  case_decide; [subst; by rewrite Hp|done].
Qed.
(** With no object at [0], a store through a null pointer that is guarded is
    the same as one that finds nothing to change. *)
Lemma returns_set_entry_if h m p f Q :
  m !! 0 = None → (p ≠ 0 → ∃ e, m !! p = Some (OEntry e)) →
  Q (tt, with_hp h (alter (on_entry f) p m)) →
  returns (set_entry_if p f (with_hp h m)) Q.
Proof.
  intros H0 Hp HQ. unfold set_entry_if. destruct (Z.eqb_spec p 0) as [->|Hne].
  - apply returns_st_ret. rewrite alter_id in HQ; [done|]. intros o Ho. congruence.
  - apply returns_set_entry; auto.
Qed.

Lemma wf_alter h m p f : wf_heap (with_hp h m) → wf_heap (with_hp h (alter f p m)).
Proof.
  intros [Hn Hw]. split; [done|]. simpl. intros a o Ha.
  rewrite lookup_alter in Ha. case_decide; [subst|by apply (Hw a o)].
  destruct (m !! a) as [o'|] eqn:Ho; [|done]. by apply (Hw a o').
Qed.
Lemma wf_null h : wf_heap h → hp h !! 0 = None.
Proof. intros [_ Hw]. destruct (hp h !! 0) as [o|] eqn:Ho; [|done]. apply Hw in Ho. lia. Qed.

(** Only the addresses [X] were touched. *)
Record frame (X : list Z) (h h' : heap) : Prop := {
  fr_hp : ∀ a, a ∉ X → hp h' !! a = hp h !! a;
  fr_next : hp_next h' = hp_next h;
  fr_alloc : hp_alloc h' = hp_alloc h;
  fr_freed : hp_freed h' = hp_freed h
}.

Lemma is_list_facts h p cb sl ns :
  is_list h p cb sl ns →
  hp h !! 0 = None ∧ (p ∉ locs ns) ∧ (0 ∉ locs ns) ∧ p ≠ 0 ∧ first ns 0 ≠ p ∧ lastl ns 0 ≠ p.
Proof.
  intros [Hwf (cur&pos&Hp&_) Hc _]. pose proof (wf_null h Hwf) as H0.
  assert (p ≠ 0) as Hp0 by congruence. assert (p ∉ locs ns) as Hpn.
  { intros Hin. destruct (chain_elem _ _ _ _ _ Hc Hin) as [e He]. unfold list_of in Hp. congruence. }
  split_and!; try done; [by apply (chain_notin _ _ _ _ _ Hc)| |].
  - destruct (decide (ns = [])) as [->|]; [done|]. intros <-. by apply Hpn, first_in.
  - destruct (decide (ns = [])) as [->|]; [done|]. intros <-. by apply Hpn, lastl_in.
Qed.

(** The list after [x] was taken out of [xs ++ x :: ys]. *)
Record detached (h : heap) (p : Z) (cb : bool) (sl : Z) (xs : list node) (x : node)
    (ys : list node) (h' : heap) : Prop := {
  dt_list : is_list h' p cb sl (xs ++ ys);
  dt_entry : hp h' !! n_loc x = Some (OEntry (mk_entry 0 0 0 (n_val x) (n_tagged x)));
  dt_notin : n_loc x ∉ locs (xs ++ ys);
  dt_frame : frame (p :: locs (xs ++ x :: ys)) h h'
}.

Lemma detached_intro h m' p cb sl xs x ys cur' pos' :
  is_list h p cb sl (xs ++ x :: ys) → wf_heap (with_hp h m') →
  m' !! p = Some (list_of (xs ++ ys) cur' pos' cb sl) → cursor (xs ++ ys) cur' pos' →
  m' !! n_loc x = Some (OEntry (mk_entry 0 0 0 (n_val x) (n_tagged x))) →
  (xs ≠ [] → ∀ e, hp h !! lastl xs 0 = Some (OEntry e) →
     m' !! lastl xs 0 = Some (OEntry (with_next (first ys 0) e))) →
  (ys ≠ [] → ∀ e, hp h !! first ys 0 = Some (OEntry e) →
     m' !! first ys 0 = Some (OEntry (with_prev (lastl xs 0) e))) →
  (∀ a, a ≠ p → a ≠ n_loc x → a ≠ lastl xs 0 → a ≠ first ys 0 → m' !! a = hp h !! a) →
  detached h p cb sl xs x ys (with_hp h m').
Proof.
  intros Hil Hwf Hp Hcur Hx Hl Hr Hf. pose proof (is_list_facts _ _ _ _ _ Hil) as (H0&Hpn&Hzn&_).
  destruct Hil as [Hwf0 _ Hc Hnd].
  destruct (chain_unlink (hp h) m' xs x ys) as (Hc'&Hnd'&Hni); try done.
  { intros a Ha ??. apply Hf; try done.
    - intros ->. apply Hpn. rewrite fmap_app in Ha |- *.
      apply elem_of_app in Ha as [?|?]; apply elem_of_app; [by left|right; by right].
    - intros ->. rewrite fmap_app in Hnd, Ha. apply NoDup_app in Hnd as (_&Hd1&Hd2).
      apply NoDup_cons in Hd2 as [Hd2 _]. apply elem_of_app in Ha as [Ha|Ha]; [|done].
      apply (Hd1 _ Ha). by left. }
  split; try done; [split; try done; simpl; eauto|]. split; try done. simpl.
  intros a Ha. apply not_elem_of_cons in Ha as [Hap Ha].
  rewrite fmap_app, elem_of_app in Ha. apply Decidable.not_or in Ha as [Ha1 Ha2].
  rewrite fmap_cons in Ha2. apply not_elem_of_cons in Ha2 as [Ha2 Ha3].
  destruct (decide (a = 0)) as [->|Ha0].
  { rewrite H0. by apply wf_null in Hwf. }
  apply Hf; try done.
  - destruct (decide (xs = [])) as [->|Hne]; [done|]. intros ->. by apply Ha1, lastl_in.
  - destruct (decide (ys = [])) as [->|Hne]; [done|]. intros ->. by apply Ha3, first_in.
Qed.

(** ** Taking entries out *)

(** Evaluation of a lookup in a sequence of updates. *)
Ltac lookups :=
  cbn [n_loc];
  repeat first
    [ rewrite lookup_alter_ne by congruence
    | rewrite lookup_alter_eq
    | rewrite lookup_insert_ne by congruence
    | rewrite lookup_insert_eq ].
(** Projections of updated objects. *)
Ltac proj := cbv beta iota delta [on_entry on_list fmap option_fmap option_map
  e_list e_prev e_next e_value e_tagged with_list with_prev with_next with_value with_tagged
  unlinked l_head l_tail l_cur l_pos l_length l_free_value_cb l_slices
  with_head with_tail with_cur with_pos with_length with_free_value_cb with_slices].
(** Tests that the context decides. *)
Ltac decide_tests :=
  repeat first
    [ rewrite Z.eqb_refl
    | rewrite (proj2 (Z.eqb_neq _ _)) by (congruence || lia)
    | rewrite (proj2 (Z.eqb_eq _ _)) by (congruence || lia)
    | rewrite (proj2 (Z.ltb_lt _ _)) by lia
    | rewrite (proj2 (Z.ltb_ge _ _)) by lia
    | rewrite (proj2 (Z.leb_le _ _)) by lia
    | rewrite (proj2 (Z.leb_gt _ _)) by lia ].
Ltac known :=
  lookups;
  repeat match goal with
  | H : ?m !! ?a = _ |- context [?m !! ?a] => rewrite H
  end; proj.
Ltac found := known; reflexivity.
Ltac heap_op :=
  lazymatch goal with
  | |- returns (load_entry _ (with_hp _ _)) _ => eapply returns_load_entry; [found|]
  | |- returns (load_list _ (with_hp _ _)) _ => eapply returns_load_list; [found|]
  | |- returns (set_list _ _ (with_hp _ _)) _ => eapply returns_set_list; [eexists; found|]
  | |- returns (set_entry _ _ (with_hp _ _)) _ => eapply returns_set_entry; [eexists; found|]
  | |- returns (set_entry_if _ _ (with_hp _ _)) _ =>
      apply returns_set_entry_if; [found| |]
  end.
Ltac cproj := cbn [e_list e_prev e_next e_value e_tagged
  l_head l_tail l_cur l_pos l_length l_free_value_cb l_slices].
Ltac heap_go := go; repeat (heap_op; cproj; go).

Lemma pop_entry_empty h p cb sl :
  is_list h p cb sl [] →
  returns (pop_entry p h) (λ '(r, h'), r = 0 ∧ is_list h' p cb sl [] ∧ frame [p] h h').
Proof.
  intros Hil. pose proof Hil as [Hwf (cur&pos&Hp&Hcur) _ Hnd].
  rewrite <- (with_hp_id h) at 1. unfold list_of in Hp. simpl in Hp.
  unfold pop_entry, reset_if_empty. heap_go. decide_tests. heap_go. decide_tests. heap_go.
  split; [done|]. split.
  - split; try done; [by apply wf_alter; rewrite with_hp_id|].
    exists cur, pos. split; [|done]. simpl. rewrite lookup_alter_eq, Hp. done.
  - split; try done. intros a Ha. simpl. rewrite lookup_alter_ne; [done|].
    intros ->. apply Ha. by left.
Qed.

(** What is known of the entry [x] of a list and of its neighbours. *)
Lemma is_list_middle h p cb sl xs x ys :
  is_list h p cb sl (xs ++ x :: ys) →
  hp h !! n_loc x = Some (entry_of x (lastl xs 0) (first ys 0)) ∧
  n_loc x ≠ 0 ∧ n_loc x ≠ p ∧
  n_loc x ≠ lastl xs 0 ∧ n_loc x ≠ first ys 0 ∧
  lastl xs 0 ≠ p ∧ first ys 0 ≠ p ∧
  (lastl xs 0 ≠ 0 → ∃ e, hp h !! lastl xs 0 = Some (OEntry e)) ∧
  (first ys 0 ≠ 0 → ∃ e, hp h !! first ys 0 = Some (OEntry e)) ∧
  (xs ≠ [] → lastl xs 0 ≠ 0) ∧ (ys ≠ [] → first ys 0 ≠ 0) ∧
  (lastl xs 0 = first ys 0 → xs = [] ∧ ys = []).
Proof.
  intros Hil. pose proof (is_list_facts _ _ _ _ _ Hil) as (H0&Hpn&Hzn&Hp0&_).
  destruct Hil as [_ _ Hc Hnd]. rewrite fmap_app, fmap_cons in Hpn, Hzn, Hnd.
  rewrite not_elem_of_app, not_elem_of_cons in Hpn, Hzn.
  destruct Hpn as (Hp1&Hp2&Hp3). destruct Hzn as (Hz1&Hz2&Hz3).
  apply NoDup_app in Hnd as (Hd1&Hd2&[Hd3 Hd4]%NoDup_cons).
  apply chain_app in Hc as [Hc1 [Hx Hc2]].
  assert (xs = [] ∧ lastl xs 0 = 0 ∨
    xs ≠ [] ∧ lastl xs 0 ≠ 0 ∧ lastl xs 0 ∈ locs xs) as Hl.
  { destruct (decide (xs = [])) as [->|Hxs]; [by left|right].
    pose proof (lastl_in xs 0 Hxs). split_and!; [done| |done]. congruence. }
  assert (ys = [] ∧ first ys 0 = 0 ∨
    ys ≠ [] ∧ first ys 0 ≠ 0 ∧ first ys 0 ∈ locs ys) as Hf.
  { destruct (decide (ys = [])) as [->|Hys]; [by left|right].
    pose proof (first_in ys 0 Hys). split_and!; [done| |done]. congruence. }
  pose proof (chain_elem _ _ _ _ (lastl xs 0) Hc1) as He1.
  pose proof (chain_elem _ _ _ _ (first ys 0) Hc2) as He2.
  assert (∀ a, a ∈ locs xs → a ≠ n_loc x ∧ a ∉ locs ys) as Hd.
  { intros a Ha. apply Hd2 in Ha. by apply not_elem_of_cons in Ha. }
  clear Hc1 Hc2 H0 Hd1 Hd2 Hd4. revert Hl Hf He1 He2 Hx.
  generalize (lastl xs 0) (first ys 0). intros a b Hl Hf He1 He2 Hx.
  destruct Hl as [[-> ->]|(Hxs&Ha0&Ha)]; destruct Hf as [[-> ->]|(Hys&Hb0&Hb)];
    try (destruct (Hd a Ha)); split_and!;
    try done; auto; try (by intros ->); try (by intros <-).
Qed.

Definition reset (l : linked_list_t) : linked_list_t :=
  if l_length l =? 0 then with_head 0 (with_tail 0 l) else l.

Lemma returns_reset_if_empty h m p Q :
  (∃ l, m !! p = Some (OList l)) → Q (tt, with_hp h (alter (on_list reset) p m)) →
  returns (reset_if_empty p (with_hp h m)) Q.
Proof.
  intros [l Hp] HQ. unfold reset_if_empty. go.
  apply (returns_load_list _ _ _ l); [done|]. unfold reset in HQ.
  assert (∀ f, f l = l → alter (on_list f) p m = m) as Hid.
  { intros f Hf. apply alter_id. intros o Ho. rewrite Hp in Ho. simplify_eq. simpl. by rewrite Hf. }
  destruct (l_length l =? 0) eqn:E.
  - apply returns_set_list; [by eauto|].
    replace (alter (on_list (λ l, with_head 0 (with_tail 0 l))) p m)
      with (alter (on_list (λ l, if l_length l =? 0 then with_head 0 (with_tail 0 l) else l)) p m);
      [done|].
    apply map_eq. intros a. rewrite !lookup_alter. case_decide; [|done].
    subst. rewrite Hp. simpl. by rewrite E.
  - go. rewrite Hid in HQ; [done|]. by rewrite E.
Qed.

Lemma reset_list_of ns hd tl cur pos cb sl :
  (ns ≠ [] → hd = first ns 0 ∧ tl = lastl ns 0) →
  OList (reset (mk_list hd tl cur pos (Z.of_nat (length ns)) cb sl)) = list_of ns cur pos cb sl.
Proof.
  intros Hns. unfold reset, list_of. proj. destruct ns as [|n ns]; [done|].
  destruct Hns as [-> ->]; [done|]. by rewrite (proj2 (Z.eqb_neq _ 0)) by (simpl; lia).
Qed.

(** The cursor when the last or the first entry goes. *)
Lemma cursor_pop xs x cur pos :
  NoDup (locs (xs ++ [x])) → cursor (xs ++ [x]) cur pos → cur ≠ n_loc x →
  cursor xs cur pos.
Proof.
  intros _ [Hpos [->|(n&Hn&Hcur)]] Hne; (split; [done|]); [by left|right].
  exists n. split; [|done]. apply lookup_app_Some in Hn as [?|[_ Hn]]; [done|].
  apply list_lookup_singleton_Some in Hn as [_ <-]. congruence.
Qed.
Lemma cursor_shift x ys cur pos :
  cursor (x :: ys) cur pos → cur ≠ n_loc x →
  cursor ys cur (if pos =? 0 then pos else pos - 1).
Proof.
  intros [Hpos [->|(n&Hn&Hcur)]] Hne; (split; [case_if; lia|]); [by left|right].
  exists n. split; [|done]. case_if; [subst pos; simpl in Hn; simplify_eq|].
  replace (Z.to_nat pos) with (S (Z.to_nat (pos - 1))) in Hn by lia. done.
Qed.
Lemma cursor_none ns pos : 0 ≤ pos < 2 ^ 64 → cursor ns 0 pos.
Proof. intros ?. split; [done|by left]. Qed.

Lemma pop_entry_returns h p cb sl xs x :
  is_list h p cb sl (xs ++ [x]) → Z.of_nat (length xs) < 2 ^ 62 →
  returns (pop_entry p h) (λ '(r, h'), r = n_loc x ∧ detached h p cb sl xs x [] h').
Proof.
  intros Hil Hlen.
  destruct (is_list_middle _ _ _ _ _ _ _ Hil) as (Hx&Hx0&Hxp&Hxl&_&Hlp&_&Hl&_&Hln&_&_).
  pose proof (is_list_facts _ _ _ _ _ Hil) as (H0&_&_&Hp0&_).
  pose proof Hil as [Hwf (cur&pos&Hp&Hcur) Hc Hnd].
  rewrite <- (with_hp_id h) at 1. unfold list_of in Hp.
  rewrite lastl_snoc, length_app in Hp. simpl length in Hp. unfold entry_of in Hx. simpl in Hx.
  assert (u64 (Z.of_nat (length xs + 1) - 1) = Z.of_nat (length xs)) as Hu
    by (rewrite u64_small; lia).
  unfold pop_entry. heap_go. decide_tests. heap_go.
  { intros Ha. lookups. by apply Hl. }
  heap_go. set (cur' := if cur =? n_loc x then 0 else cur).
  assert (cursor xs cur' pos) as Hcur'.
  { unfold cur'. destruct (Z.eqb_spec cur (n_loc x));
      [apply cursor_none; by destruct Hcur|by apply (cursor_pop xs x)]. }
  assert (first (xs ++ [x]) 0 = first xs (n_loc x)) as Hfst by apply first_app.
  destruct (Z.eqb_spec cur (n_loc x)) as [->|Hcx]; heap_go.
  all: apply returns_reset_if_empty; [eexists; found|]; go; split; [done|].
  all: apply detached_intro with (cur' := cur') (pos' := pos); rewrite ?app_nil_r; try done.
  all: try (by repeat apply wf_alter; rewrite with_hp_id).
  all: try (known; rewrite Hu, reset_list_of by (intros; split; [by destruct xs|done]);
            unfold cur'; decide_tests; done).
  all: try (by known).
  all: try (intros Hne e He; known; done).
  all: intros a Hap Hax Hal _; lookups; done.
Qed.

Lemma shift_entry_empty h p cb sl :
  is_list h p cb sl [] →
  returns (shift_entry p h) (λ '(r, h'), r = 0 ∧ is_list h' p cb sl [] ∧ frame [p] h h').
Proof.
  intros Hil. pose proof Hil as [Hwf (cur&pos&Hp&Hcur) _ Hnd].
  rewrite <- (with_hp_id h) at 1. unfold list_of in Hp. simpl in Hp.
  unfold shift_entry, reset_if_empty. heap_go. decide_tests. heap_go. decide_tests. heap_go.
  split; [done|]. split.
  - split; try done; [by apply wf_alter; rewrite with_hp_id|].
    exists cur, pos. split; [|done]. simpl. rewrite lookup_alter_eq, Hp. done.
  - split; try done. intros a Ha. simpl. rewrite lookup_alter_ne; [done|].
    intros ->. apply Ha. by left.
Qed.

Lemma shift_entry_returns h p cb sl x ys :
  is_list h p cb sl (x :: ys) → Z.of_nat (length ys) < 2 ^ 62 →
  returns (shift_entry p h) (λ '(r, h'), r = n_loc x ∧ detached h p cb sl [] x ys h').
Proof.
  intros Hil Hlen.
  destruct (is_list_middle _ _ _ _ [] _ _ Hil) as (Hx&Hx0&Hxp&_&Hxr&_&Hrp&_&Hr&_&_&_).
  pose proof (is_list_facts _ _ _ _ _ Hil) as (H0&_&_&Hp0&_).
  pose proof Hil as [Hwf (cur&pos&Hp&Hcur) Hc Hnd].
  rewrite <- (with_hp_id h) at 1. unfold list_of in Hp.
  simpl first in Hp. simpl length in Hp. unfold entry_of in Hx. simpl in Hx.
  assert (u64 (Z.of_nat (S (length ys)) - 1) = Z.of_nat (length ys)) as Hu
    by (rewrite u64_small; lia).
  assert (ys ≠ [] → lastl (x :: ys) 0 = lastl ys 0) as Hlast by (by destruct ys).
  set (cur' := if cur =? n_loc x then 0 else cur).
  set (pos' := if cur =? n_loc x then pos else if pos =? 0 then pos else pos - 1).
  assert (cursor ys cur' pos') as Hcur'.
  { unfold cur', pos'. destruct (Z.eqb_spec cur (n_loc x));
      [apply cursor_none; by destruct Hcur|by apply (cursor_shift x ys)]. }
  unfold shift_entry. heap_go. decide_tests. heap_go.
  { intros Ha. lookups. by apply Hr. }
  heap_go. destruct (Z.eqb_spec cur (n_loc x)) as [->|Hcx];
    [|destruct (Z.eqb_spec pos 0) as [Hpos|Hpos]]; heap_go.
  all: apply returns_reset_if_empty; [eexists; found|]; go; split; [done|].
  all: apply detached_intro with (cur' := cur') (pos' := pos'); try done.
  all: try (by repeat apply wf_alter; rewrite with_hp_id).
  all: try (known; rewrite Hu, reset_list_of by auto; unfold cur', pos'; decide_tests; done).
  all: try (by known).
  all: try (intros Hne e He; known; done).
  all: intros a Hap Hax _ Har; lookups; done.
Qed.

(** ** Putting entries in *)

(** The list after [x] was put between [xs] and [ys]. *)
Record attached (h : heap) (p : Z) (cb : bool) (sl : Z) (xs : list node) (x : node)
    (ys : list node) (h' : heap) : Prop := {
  at_list : is_list h' p cb sl (xs ++ x :: ys);
  at_frame : frame (p :: n_loc x :: locs (xs ++ ys)) h h'
}.

(** An entry that is in no list. *)
Definition loose (h : heap) (ns : list node) (e : Z) (v : Z) (t : bool) : Prop :=
  (∃ own, hp h !! e = Some (OEntry (mk_entry own 0 0 v t))) ∧ e ∉ locs ns.

Lemma loose_facts h p cb sl xs ys e v t :
  is_list h p cb sl (xs ++ ys) → loose h (xs ++ ys) e v t →
  e ≠ 0 ∧ e ≠ p ∧ e ≠ lastl xs 0 ∧ e ≠ first ys 0.
Proof.
  intros Hil [[own He] Hni]. pose proof (is_list_facts _ _ _ _ _ Hil) as (H0&_).
  destruct Hil as [_ (cur&pos&Hp&_) _ _]. rewrite fmap_app, not_elem_of_app in Hni.
  destruct Hni as [Hn1 Hn2]. assert (e ≠ 0) by congruence.
  split_and!; [done|unfold list_of in Hp; congruence| |].
  - destruct (decide (xs = [])) as [->|Hne]; [done|]. intros ->. by apply Hn1, lastl_in.
  - destruct (decide (ys = [])) as [->|Hne]; [done|]. intros ->. by apply Hn2, first_in.
Qed.

Lemma attached_intro h m' p cb sl xs x ys cur' pos' :
  is_list h p cb sl (xs ++ ys) → n_loc x ∉ locs (xs ++ ys) → wf_heap (with_hp h m') →
  m' !! p = Some (list_of (xs ++ x :: ys) cur' pos' cb sl) → cursor (xs ++ x :: ys) cur' pos' →
  m' !! n_loc x = Some (entry_of x (lastl xs 0) (first ys 0)) →
  (xs ≠ [] → ∀ e, hp h !! lastl xs 0 = Some (OEntry e) →
     m' !! lastl xs 0 = Some (OEntry (with_next (n_loc x) e))) →
  (ys ≠ [] → ∀ e, hp h !! first ys 0 = Some (OEntry e) →
     m' !! first ys 0 = Some (OEntry (with_prev (n_loc x) e))) →
  (∀ a, a ≠ p → a ≠ n_loc x → a ≠ lastl xs 0 → a ≠ first ys 0 → m' !! a = hp h !! a) →
  attached h p cb sl xs x ys (with_hp h m').
Proof.
  intros Hil Hni Hwf Hp Hcur Hx Hl Hr Hf.
  pose proof (is_list_facts _ _ _ _ _ Hil) as (H0&Hpn&Hzn&_). destruct Hil as [Hwf0 _ Hc Hnd].
  split; [split|]; try done.
  - by exists cur', pos'.
  - apply (chain_link (hp h)); try done. intros a Ha ??. apply Hf; try done.
    + by intros ->.
    + by intros ->.
  - rewrite fmap_app in *. rewrite fmap_cons. apply NoDup_app in Hnd as (Hd1&Hd2&Hd3).
    rewrite not_elem_of_app in Hni. destruct Hni as [Hn1 Hn2].
    apply NoDup_app. split_and!; [done| |by apply NoDup_cons].
    intros a Ha. apply not_elem_of_cons. split; [by intros ->|by apply Hd2].
  - split; try done. simpl. intros a Ha. apply not_elem_of_cons in Ha as [Hap Ha].
    apply not_elem_of_cons in Ha as [Hax Ha]. rewrite fmap_app, not_elem_of_app in Ha.
    destruct Ha as [Ha1 Ha2]. destruct (decide (a = 0)) as [->|Ha0].
    { rewrite H0. by apply wf_null in Hwf. }
    apply Hf; try done.
    + destruct (decide (xs = [])) as [->|Hne]; [done|]. intros ->. by apply Ha1, lastl_in.
    + destruct (decide (ys = [])) as [->|Hne]; [done|]. intros ->. by apply Ha2, first_in.
Qed.

Lemma cursor_push ns x cur pos : cursor ns cur pos → cursor (ns ++ [x]) cur pos.
Proof.
  intros [Hpos [->|(n&Hn&Hcur)]]; (split; [done|]); [by left|right].
  exists n. split; [|done]. by apply lookup_app_l_Some.
Qed.
Lemma cursor_unshift ns x cur pos :
  0 ≤ pos < 2 ^ 64 - 1 → cursor ns cur pos →
  cursor (x :: ns) cur (if cur =? 0 then pos else pos + 1).
Proof.
  intros Hb [Hpos [->|(n&Hn&Hcur)]]; [by split; [|left]|]. case_if; [split; [done|by left]|].
  split; [lia|]. right. exists n. split; [|done].
  by replace (Z.to_nat (pos + 1)) with (S (Z.to_nat pos)) by lia.
Qed.

Lemma push_entry_returns h p cb sl ns e v t :
  is_list h p cb sl ns → loose h ns e v t → Z.of_nat (length ns) < 2 ^ 62 →
  returns (push_entry p e h) (λ '(r, h'),
    r = 0 ∧ attached h p cb sl ns (mk_node e v t p) [] h').
Proof.
  intros Hil Hlo Hlen. rewrite <- (app_nil_r ns) in Hil, Hlo.
  pose proof (loose_facts _ _ _ _ _ _ _ _ _ Hil Hlo) as (He0&Hep&Hel&_).
  rewrite app_nil_r in Hil, Hlo. destruct Hlo as [[own He] Hni].
  pose proof (is_list_facts _ _ _ _ _ Hil) as (H0&_&_&Hp0&_&Hlp).
  pose proof Hil as [Hwf (cur&pos&Hp&Hcur) Hc Hnd].
  pose proof (cursor_push ns (mk_node e v t p) cur pos Hcur) as Hcur'.
  rewrite <- (with_hp_id h) at 1. unfold list_of in Hp. unfold push_entry.
  assert (u64 (Z.of_nat (length ns) + 1) = Z.of_nat (length (ns ++ [mk_node e v t p]))) as Hu
    by (rewrite u64_small, length_app; simpl; lia).
  decide_tests. heap_go. destruct (decide (ns = [])) as [->|Hne].
  - simpl length. decide_tests. heap_go. split; [done|].
    apply attached_intro with (cur' := cur) (pos' := pos); try done.
    + by repeat apply wf_alter; rewrite with_hp_id.
    + by known.
    + by known.
    + intros a Hap Hax _ _. simpl in Hax. by lookups.
  - destruct (chain_elem (hp h) 0 ns 0 (lastl ns 0) Hc) as [et Het]; [by apply lastl_in|].
    assert (length ns ≠ 0%nat) by (by destruct ns). decide_tests. heap_go. split; [done|].
    apply attached_intro with (cur' := cur) (pos' := pos); try done.
    + by rewrite app_nil_r.
    + by rewrite app_nil_r.
    + by repeat apply wf_alter; rewrite with_hp_id.
    + known. rewrite Hu. unfold list_of. rewrite lastl_snoc, first_app. by destruct ns.
    + by known.
    + intros _ e1 He1. by known.
    + intros a Hap Hax Hal _. simpl in Hax. by lookups.
Qed.

Lemma unshift_entry_returns h p cb sl ns e v t :
  is_list h p cb sl ns → loose h ns e v t → Z.of_nat (length ns) < 2 ^ 62 →
  returns (unshift_entry p e h) (λ '(r, h'),
    r = 0 ∧ attached h p cb sl [] (mk_node e v t p) ns h').
Proof.
  intros Hil Hlo Hlen.
  pose proof (loose_facts _ _ _ _ [] ns _ _ _ Hil Hlo) as (He0&Hep&_&Hef).
  destruct Hlo as [[own He] Hni].
  pose proof (is_list_facts _ _ _ _ _ Hil) as (H0&_&_&Hp0&Hfp&_).
  pose proof Hil as [Hwf (cur&pos&Hp&Hcur) Hc Hnd].
  set (x := mk_node e v t p). set (pos' := if cur =? 0 then pos else u64 (pos + 1)).
  assert (cursor (x :: ns) cur pos') as Hcur'.
  { destruct Hcur as [Hpos [->|(n&Hn&Hcur)]]; [by split; [|left]|]. unfold pos'.
    apply lookup_lt_Some in Hn as Hlt. rewrite u64_small by lia.
    apply cursor_unshift; [lia|]. split; [done|]. right. eauto. }
  rewrite <- (with_hp_id h) at 1. unfold list_of in Hp. unfold unshift_entry.
  assert (u64 (Z.of_nat (length ns) + 1) = Z.of_nat (length (x :: ns))) as Hu
    by (rewrite u64_small; simpl; lia).
  subst x. decide_tests. heap_go. destruct (decide (ns = [])) as [->|Hne].
  - simpl length. decide_tests. heap_go.
    destruct (Z.eqb_spec cur 0) as [Hc0|Hc0]; heap_go; (split; [done|]).
    all: apply attached_intro with (cur' := cur) (pos' := pos'); try done.
    all: try (by repeat apply wf_alter; rewrite with_hp_id).
    all: try (known; unfold list_of, pos'; decide_tests; done).
    all: try (by known).
    all: intros a Hap Hax _ _; simpl in Hax; by lookups.
  - destruct (chain_elem (hp h) 0 ns 0 (first ns 0) Hc) as [et Het]; [by apply first_in|].
    assert (length ns ≠ 0%nat) by (by destruct ns). decide_tests. heap_go.
    assert (lastl ns e = lastl ns 0) as Hll by (by destruct ns).
    destruct (Z.eqb_spec cur 0) as [Hc0|Hc0]; heap_go; (split; [done|]).
    all: apply attached_intro with (cur' := cur) (pos' := pos'); try done.
    all: try (by repeat apply wf_alter; rewrite with_hp_id).
    all: try (known; rewrite Hu; unfold list_of, pos'; decide_tests; simpl;
              rewrite ?Hll; done).
    all: try (intros _ e1 He1; by known).
    all: try (by known).
    all: intros a Hap Hax _ Haf; simpl in Hax; by lookups.
Qed.

(** ** Finding an entry by position *)

Lemma first_drop ns i n d : ns !! i = Some n → first (drop i ns) d = n_loc n.
Proof. intros Hi. by rewrite (drop_S _ _ _ Hi). Qed.
Lemma lastl_take ns i n d : ns !! i = Some n → lastl (take (S i) ns) d = n_loc n.
Proof. intros Hi. by rewrite (take_S_r _ _ _ Hi), lastl_snoc. Qed.

Section follow.
Context (h : heap) (ns : list node) (pos : Z).
Context (Hc : chain (hp h) 0 ns 0) (Hlen : Z.of_nat (length ns) ≤ INT_MAX).

Lemma follow_next i a n :
  ns !! Z.to_nat i = Some a → ns !! Z.to_nat pos = Some n → 0 ≤ i ≤ pos →
  returns (follow (λ i, i <? pos) (λ i, i + 1) e_next i (n_loc a) h) (λ '(r, h'),
    r = n_loc n ∧ h' = h).
Proof using Hc Hlen.
  intros Ha Hn Hi. unfold follow. apply lookup_lt_Some in Hn as Hlt.
  apply loopS_returns with
    (I := λ '(i, e) w, w = h ∧ 0 ≤ i ≤ pos ∧ ∃ a, ns !! Z.to_nat i = Some a ∧ n_loc a = e)
    (μ := λ '(i, e) _, pos - i); [|by eauto|int_bounds; lia].
  intros [j e] w (->&Hj&b&Hb&<-) _. unfold follow_body. case_if.
  - rewrite <- (with_hp_id h). pose proof (chain_lookup _ _ _ _ _ _ Hc Hb) as Hl.
    unfold entry_of in Hl. heap_go. rewrite u32_small by (int_bounds; lia). cproj.
    destruct (lookup_lt_is_Some_2 ns (S (Z.to_nat j))) as [c Hc']; [lia|].
    rewrite (first_drop _ _ _ _ Hc'). split; [|lia]. split_and!; try done; try lia.
    exists c. split; [|done]. by replace (Z.to_nat (j + 1)) with (S (Z.to_nat j)) by lia.
  - go. assert (j = pos) as -> by lia. split; [congruence|done].
Qed.

Lemma follow_prev i a n :
  ns !! Z.to_nat i = Some a → ns !! Z.to_nat pos = Some n → 0 ≤ pos ≤ i →
  returns (follow (λ i, pos <? i) (λ i, i - 1) e_prev i (n_loc a) h) (λ '(r, h'),
    r = n_loc n ∧ h' = h).
Proof using Hc Hlen.
  intros Ha Hn Hi. unfold follow. apply lookup_lt_Some in Ha as Hlt.
  apply loopS_returns with
    (I := λ '(j, e) w, w = h ∧ pos ≤ j ≤ i ∧ ∃ a, ns !! Z.to_nat j = Some a ∧ n_loc a = e)
    (μ := λ '(j, e) _, j - pos); [|split_and!; [done|lia|lia|by eauto]|int_bounds; lia].
  intros [j e] w (->&Hj&b&Hb&<-) _. unfold follow_body. case_if.
  - rewrite <- (with_hp_id h). pose proof (chain_lookup _ _ _ _ _ _ Hc Hb) as Hl.
    unfold entry_of in Hl. heap_go. rewrite u32_small by (int_bounds; lia). cproj.
    destruct (lookup_lt_is_Some_2 ns (Z.to_nat (j - 1))) as [c Hc']; [lia|].
    replace (Z.to_nat j) with (S (Z.to_nat (j - 1))) by lia.
    rewrite (lastl_take _ _ _ _ Hc'). split; [|lia]. split_and!; try done; try lia.
    by exists c.
  - go. assert (j = pos) as -> by lia. split; [congruence|done].
Qed.
End follow.

(** After a successful pick the cursor is at the entry. *)
Record picked (h : heap) (p : Z) (cb : bool) (sl : Z) (ns : list node) (pos : Z) (n : node)
    (h' : heap) : Prop := {
  pk_list : is_list h' p cb sl ns;
  pk_obj : hp h' !! p = Some (list_of ns (n_loc n) pos cb sl);
  pk_frame : frame [p] h h'
}.

Lemma picked_intro h p cb sl ns pos n :
  is_list h p cb sl ns → ns !! Z.to_nat pos = Some n → 0 ≤ pos < 2 ^ 64 →
  picked h p cb sl ns pos n
    (with_hp h (alter (on_list (λ l, with_pos pos (with_cur (n_loc n) l))) p (hp h))).
Proof.
  intros Hil Hn Hb. pose proof (is_list_facts _ _ _ _ _ Hil) as (_&Hpn&_).
  destruct Hil as [Hwf (cur&pos0&Hp&Hcur) Hc Hnd].
  assert (alter (on_list (λ l, with_pos pos (with_cur (n_loc n) l))) p (hp h) !! p =
    Some (list_of ns (n_loc n) pos cb sl)) as Hp' by (rewrite lookup_alter_eq, Hp; done).
  split; [split| |split]; try done.
  - apply wf_alter. by rewrite with_hp_id.
  - exists (n_loc n), pos. split; [done|]. split; [done|]. right. eauto.
  - simpl. apply (chain_frame (hp h)); [|done]. intros a Ha.
    rewrite lookup_alter_ne; [done|]. by intros ->.
  - intros a Ha. simpl. rewrite lookup_alter_ne; [done|].
    intros ->. apply Ha. by left.
Qed.

Lemma pick_entry_returns h p cb sl ns pos n :
  is_list h p cb sl ns → Z.of_nat (length ns) ≤ INT_MAX →
  0 ≤ pos → ns !! Z.to_nat pos = Some n →
  returns (pick_entry p pos h) (λ '(r, h'), r = n_loc n ∧ picked h p cb sl ns pos n h').
Proof.
  intros Hil Hlen Hpos Hn. apply lookup_lt_Some in Hn as Hlt.
  assert (0 ≤ pos < 2 ^ 64) as Hpos' by (int_bounds; lia).
  pose proof (picked_intro h p cb sl ns pos n Hil Hn Hpos') as Hpk.
  pose proof (is_list_facts _ _ _ _ _ Hil) as (H0&Hpn&Hzn&Hp0&_).
  pose proof Hil as [Hwf (cur&pos0&Hp&Hcur) Hc Hnd].
  assert (n_loc n ≠ 0).
  { intros Heq. apply Hzn. rewrite <- Heq.
    by apply list_elem_of_fmap_2, (list_elem_of_lookup_2 _ (Z.to_nat pos)). }
  unfold pick_entry. rewrite <- (with_hp_id h). unfold list_of in Hp. heap_go.
  set (l := mk_list _ _ _ _ _ _ _) in *. change (l_length l) with (Z.of_nat (length ns)).
  decide_tests. go. rewrite with_hp_id.
  assert (∀ near, (near = true → cur ≠ 0) →
    returns (walk_to l pos (Z.shiftr (Z.of_nat (length ns)) 1) near h)
      (λ '(r, h'), r = n_loc n ∧ h' = h)) as Hwalk.
  { intros near Hnear. unfold walk_to. unfold l. cproj.
    destruct near; [specialize (Hnear eq_refl)|].
    - destruct Hcur as [Hp1 [?|(a&Ha&<-)]]; [done|]. apply lookup_lt_Some in Ha as Hlt0.
      rewrite u32_small by (int_bounds; lia). repeat case_if.
      + apply (follow_next h ns); try done; lia.
      + apply (follow_prev h ns); try done; lia.
      + go. assert (pos0 = pos) as -> by lia. split; [congruence|done].
    - destruct (lookup_lt_is_Some_2 ns (length ns - 1)) as [z Hz]; [lia|].
      destruct (lookup_lt_is_Some_2 ns 0) as [y Hy]; [lia|]. case_if.
      + rewrite u32_small by (int_bounds; lia).
        replace (lastl ns 0) with (n_loc z).
        2:{ rewrite <- (lastl_take ns _ z 0 Hz), take_ge by lia. done. }
        apply (follow_prev h ns pos); try done; [|lia].
        by replace (Z.to_nat (_ - 1)) with (length ns - 1)%nat by lia.
      + replace (first ns 0) with (n_loc y) by (by rewrite <- (first_drop ns 0 y 0 Hy), drop_0).
        apply (follow_next h ns pos Hc Hlen 0 y); try done; lia. }
  change (l_cur l) with cur. change (l_pos l) with pos0. destruct (Z.eqb_spec cur 0) as [Hc0|Hc0].
  - go. eapply returns_mono; [by apply Hwalk|]. intros [r h'] [-> ->]. decide_tests.
    go. rewrite <- (with_hp_id h) at 1. heap_go. by split.
  - destruct Hcur as [Hp1 [?|(a&Ha&_)]]; [done|]. apply lookup_lt_Some in Ha as Hlt0.
    unfold abs_diff. go. rewrite as_int_u32 by (int_bounds; lia). go.
    eapply returns_mono; [by apply Hwalk|]. intros [r h'] [-> ->]. decide_tests.
    go. rewrite <- (with_hp_id h) at 1. heap_go. by split.
Qed.

Lemma pick_entry_out h p cb sl ns pos :
  is_list h p cb sl ns → Z.of_nat (length ns) ≤ pos →
  pick_entry p pos h = Ret (0, h).
Proof.
  intros [_ (cur&pos0&Hp&_) _ _] Hpos. unfold pick_entry, mbind, st_bind, load_list.
  rewrite Hp. simpl. by rewrite (proj2 (Z.leb_le _ _)) by lia.
Qed.

Lemma frame_trans X Y Y' h1 h2 h3 :
  frame X h1 h2 → frame Y h2 h3 → X ⊆ Y' → Y ⊆ Y' → frame Y' h1 h3.
Proof.
  intros [H1 ? ? ?] [H2 ? ? ?] HX HY. split; try congruence.
  intros a Ha. rewrite H2, H1; [done| |]; intros Hin; apply Ha; auto.
Qed.
Lemma frame_mono X Y h h' : frame X h h' → X ⊆ Y → frame Y h h'.
Proof. intros [H1 ? ? ?] HX. split; try done. intros a Ha. apply H1. auto. Qed.
Lemma frame_refl X h : frame X h h.
Proof. by split. Qed.

Lemma detached_picked h p cb sl xs x ys pos n h1 h2 :
  picked h p cb sl (xs ++ x :: ys) pos n h1 → detached h1 p cb sl xs x ys h2 →
  detached h p cb sl xs x ys h2.
Proof.
  intros [_ _ Hf1] [? ? ? Hf2]. split; try done.
  eapply frame_trans; [exact Hf1|exact Hf2| |done].
  intros a Ha. apply list_elem_of_singleton in Ha as ->. by left.
Qed.
Lemma attached_picked h p cb sl xs x ys pos n h1 h2 :
  picked h p cb sl (xs ++ ys) pos n h1 → attached h1 p cb sl xs x ys h2 →
  attached h p cb sl xs x ys h2.
Proof.
  intros [_ _ Hf1] [? Hf2]. split; try done.
  eapply frame_trans; [exact Hf1|exact Hf2| |done].
  intros a Ha. apply list_elem_of_singleton in Ha as ->. by left.
Qed.

Lemma lookup_middle (xs : list node) x ys : (xs ++ x :: ys) !! length xs = Some x.
Proof. by rewrite lookup_app_r, Nat.sub_diag by lia. Qed.

(** [remove_entry] in the middle of a list. *)
Lemma remove_entry_returns h p cb sl xs x ys :
  is_list h p cb sl (xs ++ x :: ys) → xs ≠ [] → ys ≠ [] →
  Z.of_nat (length (xs ++ x :: ys)) ≤ INT_MAX →
  returns (remove_entry p (Z.of_nat (length xs)) h) (λ '(r, h'),
    r = n_loc x ∧ detached h p cb sl xs x ys h').
Proof.
  intros Hil Hxs Hys Hlen. unfold remove_entry. go.
  eapply returns_mono; [apply (pick_entry_returns _ _ _ _ _ _ x Hil Hlen); [lia|]|].
  { by rewrite Nat2Z.id, lookup_middle. }
  intros [r h1] [-> Hpk]. pose proof Hpk as [Hil1 Hp _]. clear Hil. rename Hil1 into Hil.
  destruct (is_list_middle _ _ _ _ _ _ _ Hil) as
    (Hx&Hx0&Hxp&Hxl&Hxr&Hlp&Hrp&Hl&Hr&Hln&Hrn&Hlr).
  pose proof (is_list_facts _ _ _ _ _ Hil) as (H0&_&_&Hp0&_). pose proof Hil as [Hwf _ _ _].
  specialize (Hln Hxs). specialize (Hrn Hys). destruct (Hl Hln) as [el Hel].
  destruct (Hr Hrn) as [er Her].
  assert (lastl xs 0 ≠ first ys 0) by (intros Heq; by apply Hlr in Heq as [? _]).
  rewrite length_app in Hlen. simpl in Hlen.
  assert (length xs ≠ 0%nat ∧ length ys ≠ 0%nat) as [Hlx Hly] by (by destruct xs, ys).
  unfold list_of in Hp. rewrite first_app, lastl_app, length_app in Hp. simpl in Hp.
  unfold entry_of in Hx. rewrite <- (with_hp_id h1). decide_tests. heap_go.
  rewrite (u64_small (_ - 1)) by (int_bounds; lia). decide_tests. heap_go.
  { intros _. by eexists; known. }
  heap_go. { intros _. by eexists; known. }
  heap_go. decide_tests. heap_go. split; [done|].
  apply (detached_picked _ _ _ _ _ _ _ _ _ _ _ Hpk).
  apply detached_intro with (cur' := 0) (pos' := 0); try done.
  - by repeat apply wf_alter; rewrite with_hp_id.
  - known. rewrite u64_small by (int_bounds; lia). unfold list_of.
    rewrite first_app, lastl_app, length_app.
    replace (Z.of_nat (length xs + S (length ys)) - 1)
      with (Z.of_nat (length xs + length ys)) by lia.
    destruct ys as [|y ys]; [done|]. destruct xs; done.
  - by apply cursor_none.
  - by known.
  - intros _ e1 He1. by known.
  - intros _ e1 He1. by known.
  - intros a Hap Hax Hal Har. by lookups.
Qed.

(** ** Ownership

    [owns h p cb sl ns R]: the heap consists of the list [ns] at [p] and of
    [R], the objects that do not belong to it.  An operation that leaves [R]
    as it was neither touches nor leaks anything. *)

Definition outside (h : heap) (X : list Z) : gmap Z obj := filter (λ kv, kv.1 ∉ X) (hp h).

Lemma lookup_outside h X a :
  outside h X !! a = if decide (a ∈ X) then None else hp h !! a.
Proof.
  unfold outside. rewrite map_lookup_filter. case_decide.
  - destruct (hp h !! a); simpl; [|done]. by rewrite option_guard_False by (simpl; tauto).
  - destruct (hp h !! a); simpl; [|done]. by rewrite option_guard_True by done.
Qed.

Record owns (h : heap) (p : Z) (cb : bool) (sl : Z) (ns : list node) (R : gmap Z obj) : Prop := {
  ow_list : is_list h p cb sl ns;
  ow_rest : outside h (p :: locs ns) = R;
  ow_alloc : alloc_ok h
}.

Lemma owns_lookup h p cb sl ns R a :
  owns h p cb sl ns R → R !! a = if decide (a ∈ p :: locs ns) then None else hp h !! a.
Proof. intros [_ <- _]. apply lookup_outside. Qed.
Lemma owns_some h p cb sl ns R a o :
  owns h p cb sl ns R → R !! a = Some o → (a ∉ locs ns) ∧ a ≠ p ∧ a ≠ 0 ∧ hp h !! a = Some o.
Proof.
  intros Hw Ha. rewrite (owns_lookup _ _ _ _ _ _ _ Hw) in Ha. case_decide as Hd; [done|].
  apply not_elem_of_cons in Hd as [? ?]. split_and!; try done. intros ->.
  destruct Hw as [[Hwf _ _ _] _ _]. rewrite (wf_null h Hwf) in Ha. done.
Qed.

(** The triples below have this form: an entry leaves [R] and joins the list,
    or the other way round. *)
Lemma owns_attached h p cb sl xs x ys R h' o :
  owns h p cb sl (xs ++ ys) R → R !! n_loc x = Some o → attached h p cb sl xs x ys h' →
  owns h' p cb sl (xs ++ x :: ys) (delete (n_loc x) R).
Proof.
  intros Hw Hx [Hil [Hf _ Hal _]]. split; [done| |unfold alloc_ok; rewrite Hal; by destruct Hw].
  apply map_eq. intros a. rewrite lookup_outside, lookup_delete, (owns_lookup _ _ _ _ _ _ _ Hw).
  rewrite !fmap_app, fmap_cons. rewrite fmap_app in Hf.
  destruct (decide (n_loc x = a)) as [<-|Hne].
  - rewrite decide_True; [done|]. right. apply elem_of_app. right. by left.
  - destruct (decide (a ∈ p :: locs xs ++ locs ys)) as [Hin|Hout].
    + rewrite decide_True; [done|]. apply elem_of_cons in Hin as [->|Hin]; [by left|right].
      apply elem_of_app in Hin as [?|?]; apply elem_of_app; [by left|right; by right].
    + rewrite decide_False.
      * apply Hf. intros Hin. apply Hout. apply elem_of_cons in Hin as [->|Hin]; [by left|].
        apply elem_of_cons in Hin as [->|Hin]; [done|by right].
      * intros Hin. apply Hout. apply elem_of_cons in Hin as [->|Hin]; [by left|right].
        apply elem_of_app in Hin as [?|Hin]; apply elem_of_app; [by left|right].
        by apply elem_of_cons in Hin as [->|?].
Qed.

Definition blank (x : node) : obj := OEntry (mk_entry 0 0 0 (n_val x) (n_tagged x)).

Lemma owns_detached h p cb sl xs x ys R h' :
  owns h p cb sl (xs ++ x :: ys) R → detached h p cb sl xs x ys h' →
  owns h' p cb sl (xs ++ ys) (<[n_loc x := blank x]> R) ∧ R !! n_loc x = None.
Proof.
  intros Hw [Hil Hx Hni [Hf _ Hal _]].
  assert (R !! n_loc x = None) as HR.
  { rewrite (owns_lookup _ _ _ _ _ _ _ Hw). rewrite decide_True; [done|]. right.
    rewrite fmap_app. apply elem_of_app. right. by left. }
  assert (n_loc x ≠ p) as Hxp.
  { destruct Hil as [_ (c&q&Hp&_) _ _]. unfold list_of in Hp. congruence. }
  split; [|done]. split; [done| |unfold alloc_ok; rewrite Hal; by destruct Hw].
  apply map_eq. intros a. rewrite lookup_outside, lookup_insert, (owns_lookup _ _ _ _ _ _ _ Hw).
  rewrite !fmap_app, fmap_cons in *.
  destruct (decide (n_loc x = a)) as [<-|Hne].
  - rewrite decide_False; [done|]. by rewrite not_elem_of_cons.
  - destruct (decide (a ∈ p :: locs xs ++ locs ys)) as [Hin|Hout].
    + rewrite decide_True; [done|]. apply elem_of_cons in Hin as [->|Hin]; [by left|right].
      apply elem_of_app in Hin as [?|?]; apply elem_of_app; [by left|right; by right].
    + assert (a ∉ p :: locs xs ++ n_loc x :: locs ys) as Hout'.
      { intros Hin. apply Hout. apply elem_of_cons in Hin as [->|Hin]; [by left|right].
        apply elem_of_app in Hin as [?|Hin]; apply elem_of_app; [by left|right].
        by apply elem_of_cons in Hin as [->|?]. }
      rewrite decide_False by done. by apply Hf.
Qed.

(** Lists of a reasonable length. *)
Definition short (ns : list node) : Prop := Z.of_nat (length ns) ≤ INT_MAX.

Section triples.
Context (p : Z) (cb : bool) (sl : Z).

(** A loose entry of [R]. *)
Definition spare (R : gmap Z obj) (e v : Z) (t : bool) : Prop :=
  ∃ own, R !! e = Some (OEntry (mk_entry own 0 0 v t)).

Lemma spare_loose h ns R e v t :
  owns h p cb sl ns R → spare R e v t → loose h ns e v t.
Proof.
  intros Hw [own He]. apply (owns_some _ _ _ _ _ _ _ _ Hw) in He as (?&_&_&?).
  split; eauto.
Qed.

Lemma push_entry_owns h ns R e v t :
  owns h p cb sl ns R → spare R e v t → short ns →
  returns (push_entry p e h) (λ '(r, h'),
    r = 0 ∧ owns h' p cb sl (ns ++ [mk_node e v t p]) (delete e R)).
Proof.
  intros Hw Hs Hsh. pose proof (spare_loose _ _ _ _ _ _ Hw Hs) as Hlo. destruct Hs as [own He].
  eapply returns_mono; [apply (push_entry_returns h p cb sl ns e v t); [by destruct Hw|done|]|].
  { unfold short in Hsh. int_bounds. lia. }
  intros [r h'] [-> Ha]. split; [done|].
  rewrite <- (app_nil_r ns) in Hw. by eapply (owns_attached _ _ _ _ ns (mk_node e v t p) []).
Qed.

Lemma unshift_entry_owns h ns R e v t :
  owns h p cb sl ns R → spare R e v t → short ns →
  returns (unshift_entry p e h) (λ '(r, h'),
    r = 0 ∧ owns h' p cb sl (mk_node e v t p :: ns) (delete e R)).
Proof.
  intros Hw Hs Hsh. pose proof (spare_loose _ _ _ _ _ _ Hw Hs) as Hlo. destruct Hs as [own He].
  eapply returns_mono; [apply (unshift_entry_returns h p cb sl ns e v t); [by destruct Hw|done|]|].
  { unfold short in Hsh. int_bounds. lia. }
  intros [r h'] [-> Ha]. split; [done|].
  by eapply (owns_attached _ _ _ _ [] (mk_node e v t p) ns).
Qed.

(** What taking [x] out of the list gives. *)
Definition taken (R : gmap Z obj) (x : node) (ns' : list node) (r : Z) (h' : heap) : Prop :=
  r = n_loc x ∧ r ≠ 0 ∧ owns h' p cb sl ns' (<[n_loc x := blank x]> R) ∧ R !! n_loc x = None.

Lemma taken_intro h xs x ys R h' :
  owns h p cb sl (xs ++ x :: ys) R → detached h p cb sl xs x ys h' →
  taken R x (xs ++ ys) (n_loc x) h'.
Proof.
  intros Hw Hd. destruct (owns_detached _ _ _ _ _ _ _ _ _ Hw Hd) as [? ?].
  destruct (is_list_middle h p cb sl xs x ys) as (_&?&_); [by destruct Hw|]. by split_and!.
Qed.

Lemma pop_entry_owns h xs x R :
  owns h p cb sl (xs ++ [x]) R → short xs →
  returns (pop_entry p h) (λ '(r, h'), taken R x xs r h').
Proof.
  intros Hw Hsh.
  eapply returns_mono; [apply (pop_entry_returns h p cb sl xs x); [by destruct Hw|]|].
  { unfold short in Hsh. int_bounds. lia. }
  intros [r h'] [-> Hd]. pose proof (taken_intro _ _ _ _ _ _ Hw Hd) as Ht.
  by rewrite app_nil_r in Ht.
Qed.
Lemma shift_entry_owns h x ys R :
  owns h p cb sl (x :: ys) R → short ys →
  returns (shift_entry p h) (λ '(r, h'), taken R x ys r h').
Proof.
  intros Hw Hsh.
  eapply returns_mono; [apply (shift_entry_returns h p cb sl x ys); [by destruct Hw|]|].
  { unfold short in Hsh. int_bounds. lia. }
  intros [r h'] [-> Hd]. exact (taken_intro _ [] _ _ _ _ Hw Hd).
Qed.
Lemma remove_entry_owns h xs x ys R :
  owns h p cb sl (xs ++ x :: ys) R → xs ≠ [] → ys ≠ [] → short (xs ++ x :: ys) →
  returns (remove_entry p (Z.of_nat (length xs)) h) (λ '(r, h'), taken R x (xs ++ ys) r h').
Proof.
  intros Hw Hxs Hys Hsh.
  eapply returns_mono; [apply (remove_entry_returns h p cb sl xs x ys); [by destruct Hw|done..]|].
  intros [r h'] [-> Hd]. exact (taken_intro _ _ _ _ _ _ Hw Hd).
Qed.

Lemma owns_frame h ns R h' :
  owns h p cb sl ns R → is_list h' p cb sl ns → frame [p] h h' → owns h' p cb sl ns R.
Proof.
  intros Hw Hil [Hf _ Hal _]. split; [done| |unfold alloc_ok; rewrite Hal; by destruct Hw].
  apply map_eq. intros a. rewrite lookup_outside, (owns_lookup _ _ _ _ _ _ _ Hw).
  case_decide as Hd; [done|]. apply Hf. intros Hin. apply Hd.
  apply list_elem_of_singleton in Hin as ->. by left.
Qed.

Lemma pop_shift_empty h R :
  owns h p cb sl [] R →
  returns (pop_entry p h) (λ '(r, h'), r = 0 ∧ owns h' p cb sl [] R) ∧
  returns (shift_entry p h) (λ '(r, h'), r = 0 ∧ owns h' p cb sl [] R).
Proof.
  intros Hw. split.
  - eapply returns_mono; [apply (pop_entry_empty h p cb sl); by destruct Hw|].
    intros [r h'] (->&?&?). split; [done|]. by apply (owns_frame h).
  - eapply returns_mono; [apply (shift_entry_empty h p cb sl); by destruct Hw|].
    intros [r h'] (->&?&?). split; [done|]. by apply (owns_frame h).
Qed.

Lemma pick_entry_owns h ns R pos n :
  owns h p cb sl ns R → short ns → 0 ≤ pos → ns !! Z.to_nat pos = Some n →
  returns (pick_entry p pos h) (λ '(r, h'),
    r = n_loc n ∧ r ≠ 0 ∧ owns h' p cb sl ns R ∧
    hp h' !! p = Some (list_of ns r pos cb sl)).
Proof.
  intros Hw Hsh Hpos Hn.
  eapply returns_mono;
    [apply (pick_entry_returns h p cb sl ns pos n); [by destruct Hw|done..]|].
  intros [r h'] [-> [Hil Hp Hf]]. split_and!; try done; [|by apply (owns_frame h)].
  pose proof (is_list_facts _ _ _ _ _ Hil) as (_&_&Hz&_). intros Heq. apply Hz.
  rewrite <- Heq. by apply list_elem_of_fmap_2, (list_elem_of_lookup_2 _ (Z.to_nat pos)).
Qed.

(** *** Objects outside the list *)

Lemma is_list_other h h' ns :
  is_list h p cb sl ns → wf_heap h' → (∀ a, a ∈ p :: locs ns → hp h' !! a = hp h !! a) →
  is_list h' p cb sl ns.
Proof.
  intros [_ (cur&pos&Hp&Hcur) Hc Hnd] Hwf Ha. split; try done.
  - exists cur, pos. split; [|done]. rewrite Ha; [done|by left].
  - apply (chain_frame (hp h)); [|done]. intros a Hin. apply Ha. by right.
Qed.

(** The heap of [h'] is that of [h] changed at [a], outside the list. *)
Lemma owns_other h h' ns R a (g : gmap Z obj → gmap Z obj) :
  owns h p cb sl ns R → a ∉ p :: locs ns → wf_heap h' → alloc_ok h' →
  (∀ (m : gmap Z obj) b, b ≠ a → g m !! b = m !! b) →
  (∀ m1 m2 : gmap Z obj, m1 !! a = m2 !! a → g m1 !! a = g m2 !! a) →
  hp h' = g (hp h) → owns h' p cb sl ns (g R).
Proof.
  intros Hw Ha Hwf Hal Hg1 Hg2 Hh. split; [|apply map_eq; intros b|done].
  - apply (is_list_other h); [by destruct Hw|done|]. intros b Hb. rewrite Hh, Hg1; [done|].
    by intros ->.
  - rewrite lookup_outside, Hh. destruct (decide (b = a)) as [->|Hne].
    + rewrite decide_False by done. apply Hg2. rewrite (owns_lookup _ _ _ _ _ _ _ Hw).
      by rewrite decide_False by done.
    + rewrite !Hg1 by done. by rewrite (owns_lookup _ _ _ _ _ _ _ Hw).
Qed.

Lemma owns_outside_notin h ns R a o :
  owns h p cb sl ns R → R !! a = Some o → a ∉ p :: locs ns.
Proof.
  intros Hw Ha. apply (owns_some _ _ _ _ _ _ _ _ Hw) in Ha as (?&?&_). by apply not_elem_of_cons.
Qed.

Lemma create_entry_owns h ns R :
  owns h p cb sl ns R →
  returns (create_entry h) (λ '(r, h'),
    r ≠ 0 ∧ R !! r = None ∧
    owns h' p cb sl ns (<[r := OEntry (mk_entry 0 0 0 0 false)]> R)).
Proof.
  intros Hw. pose proof Hw as [[[Hnx Hwf] (cur&pos&Hp&_) Hc _] HR Hal].
  unfold create_entry, alloc. set (e := hp_next h). set (o := OEntry _).
  assert (hp h !! e = None) as He.
  { destruct (hp h !! e) as [o'|] eqn:He; [|done]. apply Hwf in He. unfold e in He. lia. }
  assert (e ∉ p :: locs ns) as Hni.
  { apply not_elem_of_cons. split; [congruence|]. by apply (chain_notin _ _ _ _ _ Hc). }
  assert (∀ a f, Forall (λ b, b = true) a →
    owns (mk_heap (<[e := o]> (hp h)) (e + 1) a f) p cb sl ns (<[e := o]> R)) as Hgo.
  { intros a f Ha. apply (owns_other h _ ns R e (λ m, <[e := o]> m)); try done.
    - split; simpl; [unfold e; lia|]. intros b ob. rewrite lookup_insert.
      case_decide; [intros _; unfold e in *; lia|]. intros Hb%Hwf. unfold e. lia.
    - intros m b Hb. by rewrite lookup_insert_ne.
    - intros m1 m2 _. by rewrite !lookup_insert_eq. }
  assert (e ≠ 0 ∧ R !! e = None) as [He0 HRe].
  { split; [unfold e; lia|]. rewrite (owns_lookup _ _ _ _ _ _ _ Hw). by rewrite decide_False. }
  unfold alloc_ok in Hal. destruct (hp_alloc h) as [|[|] al]; [| |by inversion Hal];
    go; split_and!; try done; apply Hgo; by inversion Hal.
Qed.

Lemma set_spare_owns h ns R e x f :
  owns h p cb sl ns R → R !! e = Some (OEntry x) →
  returns (set_entry e f h) (λ '(_, h'), owns h' p cb sl ns (<[e := OEntry (f x)]> R)).
Proof.
  intros Hw He. pose proof (owns_outside_notin _ _ _ _ _ Hw He) as Hni.
  apply (owns_some _ _ _ _ _ _ _ _ Hw) in He as (_&_&_&He).
  pose proof Hw as [[[Hnx Hwf] _ _ _] _ Hal]. unfold set_entry, load_entry. go. rewrite He. go.
  unfold store. go. apply (owns_other h _ ns R e (λ m, <[e := OEntry (f x)]> m)); try done.
  - split; [done|]. simpl. intros b ob. rewrite lookup_insert.
    case_decide as Hd; [intros _; subst; by apply (Hwf _ _ He)|]. apply Hwf.
  - intros m b Hb. by rewrite lookup_insert_ne.
  - intros m1 m2 _. by rewrite !lookup_insert_eq.
Qed.

Lemma free_owns h ns R e o :
  owns h p cb sl ns R → R !! e = Some o →
  returns (free e h) (λ '(_, h'),
    owns h' p cb sl ns (delete e R) ∧ hp_freed h' = hp_freed h).
Proof.
  intros Hw He. pose proof (owns_outside_notin _ _ _ _ _ Hw He) as Hni.
  apply (owns_some _ _ _ _ _ _ _ _ Hw) in He as (_&_&He0&He).
  pose proof Hw as [[[Hnx Hwf] _ _ _] _ Hal]. unfold free. decide_tests. rewrite He. go.
  split; [|done]. apply (owns_other h _ ns R e (delete e)); try done.
  - split; [done|]. simpl. intros b ob. rewrite lookup_delete.
    case_decide as Hd; [done|]. apply Hwf.
  - intros m b Hb. by rewrite lookup_delete_ne.
  - intros m1 m2 _. by rewrite !lookup_delete_eq.
Qed.

(** An entry that is in no list is just freed. *)
Lemma destroy_entry_owns h ns R e prev next v t :
  owns h p cb sl ns R → R !! e = Some (OEntry (mk_entry 0 prev next v t)) →
  returns (destroy_entry e h) (λ '(_, h'),
    owns h' p cb sl ns (delete e R) ∧ hp_freed h' = hp_freed h).
Proof.
  intros Hw He. unfold destroy_entry.
  pose proof He as (_&_&He0&Hh)%(owns_some _ _ _ _ _ _ _ _ Hw).
  decide_tests. unfold load_entry. go. rewrite Hh. go. cproj. decide_tests. go.
  eapply returns_mono; [by eapply free_owns|]. by intros [[] h'].
Qed.

(** *** Insertion and removal at a position *)

(** What the entries carry: values and whether they are tagged. *)
Definition data (ns : list node) : list (Z * bool) := (λ n, (n_val n, n_tagged n)) <$> ns.

Lemma data_app xs ys : data (xs ++ ys) = data xs ++ data ys.
Proof. apply fmap_app. Qed.
Lemma data_length ns : length (data ns) = length ns.
Proof. apply length_fmap. Qed.

(** A new item at a position; the gap past the end is filled with nulls. *)
Definition insert_at (pos : Z) (d : Z * bool) (ds : list (Z * bool)) : list (Z * bool) :=
  take (Z.to_nat pos) ds ++ replicate (Z.to_nat pos - length ds) (0, false) ++
  d :: drop (Z.to_nat pos) ds.

Lemma owns_length h ns R :
  owns h p cb sl ns R → ∃ l, hp h !! p = Some (OList l) ∧ l_length l = Z.of_nat (length ns).
Proof. intros [[_ (cur&pos&Hp&_) _ _] _ _]. by eexists. Qed.

Lemma pad_owns h ns R pos :
  owns h p cb sl ns R → Z.of_nat (length ns) ≤ pos ≤ INT_MAX →
  returns (loopS (pad_body p pos) (Z.of_nat (length ns)) h) (λ '(ok, h'),
    ok = true ∧ ∃ bs, owns h' p cb sl (ns ++ bs) R ∧
      data bs = replicate (Z.to_nat pos - length ns) (0, false)).
Proof.
  intros Hw Hpos. apply loopS_returns with
    (I := λ i w, Z.of_nat (length ns) ≤ i ≤ pos ∧ ∃ bs, owns w p cb sl (ns ++ bs) R ∧
            data bs = replicate (Z.to_nat i - length ns) (0, false))
    (μ := λ i _, pos - i); [| |int_bounds; lia].
  - intros i w (Hi&bs&Hwi&Hbs) _. unfold pad_body. case_if.
    + go. eapply returns_mono; [by apply (create_entry_owns w (ns ++ bs) R)|].
      intros [r w1]. intros (Hr0&HR&Hw1). decide_tests. go.
      assert (length bs = (Z.to_nat i - length ns)%nat) as Hlb
        by (rewrite <- data_length, Hbs; apply length_replicate).
      eapply returns_mono; [eapply (push_entry_owns w1 (ns ++ bs)); [exact Hw1| |]|].
      { exists 0. apply lookup_insert_eq. }
      { unfold short. rewrite length_app. int_bounds. lia. }
      intros [r2 w2]. intros [-> Hw2]. change (0 =? 0) with true. go.
      rewrite u32_small by (int_bounds; lia). split; [|lia]. split; [lia|].
      exists (bs ++ [mk_node r 0 false p]). rewrite app_assoc.
      rewrite delete_insert_id in Hw2 by done. split; [done|].
      rewrite data_app, Hbs. replace (Z.to_nat (i + 1) - length ns)%nat
        with (Z.to_nat i - length ns + 1)%nat by lia. by rewrite replicate_add.
    + go. split; [done|]. exists bs. assert (i = pos) as -> by lia. done.
  - split; [lia|]. exists []. rewrite app_nil_r. split; [done|].
    by replace (Z.to_nat _ - length ns)%nat with 0%nat by lia.
Qed.

Lemma insert_middle_owns h xs ys R e v t own :
  owns h p cb sl (xs ++ ys) R → R !! e = Some (OEntry (mk_entry own 0 0 v t)) →
  xs ≠ [] → ys ≠ [] → short (xs ++ ys) →
  returns (insert_entry p e (Z.of_nat (length xs)) h) (λ '(r, h'),
    r = 0 ∧ owns h' p cb sl (xs ++ mk_node e v t own :: ys) (delete e R)).
Proof.
  intros Hw He Hxs Hys Hsh. destruct (owns_length _ _ _ Hw) as (l&Hl&Hlen).
  unfold short in Hsh. rewrite length_app in Hsh, Hlen.
  assert (length xs ≠ 0%nat ∧ length ys ≠ 0%nat) as [Hlx Hly] by (by destruct xs, ys).
  unfold insert_entry. rewrite <- (with_hp_id h). heap_go. rewrite Hlen. decide_tests. go.
  change (-1 =? 0) with false. rewrite u64_small by (int_bounds; lia). go. rewrite with_hp_id.
  destruct (lastl_cases xs) as [->|(xs0&a&->)]; [done|].
  rewrite length_app in *. simpl length in *.
  eapply returns_mono; [apply (pick_entry_owns h _ R _ a Hw); [|lia|]|].
  { unfold short. rewrite !length_app. simpl. int_bounds. lia. }
  { replace (Z.to_nat _) with (length xs0) by lia. rewrite <- app_assoc. apply lookup_middle. }
  intros [r h1]. intros (->&Ha0&Hw1&Hp1). clear h Hw l Hl Hlen.
  pose proof He as (Hen&Hep&He0&Hh)%(owns_some _ _ _ _ _ _ _ _ Hw1).
  pose proof Hw1 as [Hil _ _]. pose proof Hil as [Hwf _ Hc Hnd].
  pose proof (is_list_facts _ _ _ _ _ Hil) as (H0&Hpn&Hzn&Hp0&_).
  pose proof (loose_facts h1 p cb sl (xs0 ++ [a]) ys e v t Hil) as (_&_&Hea&Hey).
  { split; [eauto|done]. }
  rewrite lastl_snoc in Hea. destruct ys as [|y ys]; [done|].
  rewrite <- app_assoc in Hil. simpl in Hil.
  destruct (is_list_middle _ _ _ _ _ _ _ Hil) as (Hx&_&Hap&_&Hay&_&Hyp&_&Hy&_&Hy0&_).
  simpl in Hx, Hay, Hyp, Hy, Hy0, Hey. specialize (Hy0 ltac:(done)). destruct (Hy Hy0) as [ey Hey'].
  rewrite <- app_assoc in Hnd, Hpn, Hzn.
  unfold list_of in Hp1. rewrite lastl_app, length_app in Hp1. simpl in Hp1.
  unfold entry_of in Hx. simpl in Hx. rewrite <- (with_hp_id h1). decide_tests. heap_go.
  { intros _. by eexists; known. }
  heap_go. split; [done|].
  eapply (owns_attached h1 p cb sl (xs0 ++ [a]) (mk_node e v t own) (y :: ys)); [done|exact He|].
  apply attached_intro with (cur' := n_loc a) (pos' := Z.of_nat (length xs0 + 1) - 1); try done.
  - rewrite <- app_assoc. done.
  - by repeat apply wf_alter; rewrite with_hp_id.
  - known. rewrite length_app in *. simpl length in *. rewrite u64_small by (int_bounds; lia).
    unfold list_of. rewrite !first_app, !lastl_app, !length_app. simpl.
    do 3 f_equal. lia.
  - split; [int_bounds; lia|]. right. exists a. split; [|done].
    rewrite <- app_assoc. replace (Z.to_nat _) with (length xs0) by lia. apply lookup_middle.
  - rewrite lastl_snoc. by known.
  - rewrite lastl_snoc. intros _ e1 He1. by known.
  - intros _ e1 He1. simpl in *. by known.
  - rewrite lastl_snoc. intros b Hb1 Hb2 Hb3 Hb4. simpl in *. by lookups.
Qed.

Lemma insert_entry_owns h ns R e v t pos :
  owns h p cb sl ns R → spare R e v t → short ns → 0 ≤ pos < INT_MAX →
  returns (insert_entry p e pos h) (λ '(r, h'),
    r = 0 ∧ ∃ ns', owns h' p cb sl ns' (delete e R) ∧
      data ns' = insert_at pos (v, t) (data ns)).
Proof.
  intros Hw Hsp Hsh Hpos. unfold insert_at. rewrite data_length.
  destruct (decide (0 < pos < Z.of_nat (length ns))) as [Hmid|Hend].
  { set (xs := take (Z.to_nat pos) ns). set (ys := drop (Z.to_nat pos) ns).
    assert (ns = xs ++ ys) as Hns by (unfold xs, ys; by rewrite take_drop).
    assert (length xs = Z.to_nat pos) as Hlx by (unfold xs; rewrite length_take; lia).
    destruct Hsp as [own He]. rewrite Hns in Hw, Hsh.
    replace pos with (Z.of_nat (length xs)) by lia.
    eapply returns_mono; [apply (insert_middle_owns h xs ys R e v t own); try done|].
    { intros Hx. rewrite Hx in Hlx. simpl in Hlx. lia. }
    { intros Hy. apply (f_equal length) in Hy. unfold ys in Hy. rewrite length_drop in Hy.
      simpl in Hy. lia. }
    intros [r h'] [-> Hw']. split; [done|]. eexists; split; [exact Hw'|].
    rewrite data_app, Nat2Z.id. replace (_ - _)%nat with 0%nat by lia. simpl.
    rewrite Hns, !data_app, take_app_length', drop_app_length' by (rewrite data_length; done).
    done. }
  unfold insert_entry. destruct (owns_length _ _ _ Hw) as (l&Hl&Hlen).
  unfold load_list at 1. go. rewrite Hl. go. rewrite Hlen. unfold short in Hsh. case_if.
  - subst pos. go. eapply returns_mono; [by apply (unshift_entry_owns h ns R e v t)|].
    intros [r h'] [-> Hw']. go. change (0 =? 0) with true. go. split; [done|].
    eexists; split; [exact Hw'|]. simpl. by rewrite drop_0.
  - case_if.
    + subst pos. go. eapply returns_mono; [by apply (push_entry_owns h ns R e v t)|].
      intros [r h'] [-> Hw']. go. change (0 =? 0) with true. go. split; [done|].
      eexists; split; [exact Hw'|]. rewrite Nat2Z.id, Nat.sub_diag, data_app.
      rewrite take_ge, drop_ge by (rewrite data_length; lia). done.
    + decide_tests. go. rewrite u32_small by (int_bounds; lia).
      eapply returns_mono; [apply (pad_owns h ns R pos Hw); int_bounds; lia|].
      intros [ok h1]. intros (->&bs&Hw1&Hbs). go.
      assert (length bs = (Z.to_nat pos - length ns)%nat) as Hlb
        by (rewrite <- data_length, Hbs; apply length_replicate).
      eapply returns_mono; [apply (push_entry_owns h1 (ns ++ bs) R e v t Hw1 Hsp)|].
      { unfold short. rewrite length_app. int_bounds. lia. }
      intros [r h'] [-> Hw']. go. change (0 =? 0) with true. go. split; [done|].
      eexists; split; [exact Hw'|]. rewrite !data_app, Hbs.
      rewrite take_ge, drop_ge by (rewrite data_length; lia). by rewrite <- app_assoc.
Qed.

(** [fetch_entry] takes the entry at a position out of the list. *)
Lemma fetch_entry_owns h ns R pos n :
  owns h p cb sl ns R → short ns → 0 ≤ pos → ns !! Z.to_nat pos = Some n →
  returns (fetch_entry p pos h) (λ '(r, h'),
    taken R n (delete (Z.to_nat pos) ns) r h').
Proof.
  intros Hw Hsh Hpos Hn. apply lookup_lt_Some in Hn as Hlt. unfold short in Hsh.
  pose proof (take_drop_middle _ _ _ Hn) as Hns. set (xs := take (Z.to_nat pos) ns) in *.
  set (ys := drop (S (Z.to_nat pos)) ns) in *.
  assert (length xs = Z.to_nat pos) as Hlx by (unfold xs; rewrite length_take; lia).
  assert (length ns = length xs + S (length ys))%nat as Hl by (rewrite <- Hns, length_app; done).
  rewrite delete_take_drop. fold xs ys. rewrite <- Hns in Hw.
  unfold fetch_entry. case_if.
  { subst pos. destruct xs; [|done]. simpl. apply shift_entry_owns; [done|].
    unfold short. int_bounds. simpl in *. lia. }
  destruct (owns_length _ _ _ Hw) as (l&Hlp&Hlen). unfold list_count. go. unfold load_list at 1.
  rewrite Hlp. go. rewrite Hlen, Hns, u64_small by (int_bounds; lia). case_if.
  - destruct ys as [|y ys]; [|simpl in *; lia]. rewrite app_nil_r.
    apply pop_entry_owns; [done|]. unfold short. int_bounds. lia.
  - replace pos with (Z.of_nat (length xs)) by lia. apply remove_entry_owns; try done.
    + intros ->. simpl in *. lia.
    + intros ->. simpl in *. lia.
    + unfold short. by rewrite Hns.
Qed.

Lemma fetch_entry_out h ns R pos :
  owns h p cb sl ns R → short ns → Z.of_nat (length ns) ≤ pos < 2 ^ 64 - 1 →
  returns (fetch_entry p pos h) (λ '(r, h'), r = 0 ∧ owns h' p cb sl ns R).
Proof.
  intros Hw Hsh Hpos. unfold fetch_entry. case_if.
  { subst pos. destruct ns; [|simpl in *; lia]. by apply pop_shift_empty. }
  destruct (owns_length _ _ _ Hw) as (l&Hlp&Hlen). unfold list_count. go. unfold load_list at 1.
  rewrite Hlp. go. rewrite Hlen. unfold short in Hsh.
  assert (pos ≠ u64 (Z.of_nat (length ns) - 1)) as Hne.
  { destruct (decide (length ns = 0%nat)) as [->|]; [|rewrite u64_small; int_bounds; lia].
    change (u64 (Z.of_nat 0 - 1)) with (2 ^ 64 - 1). lia. }
  decide_tests. unfold remove_entry. go.
  rewrite (pick_entry_out h p cb sl ns) by first [lia | by destruct Hw]. go.
  change (0 =? 0) with true. go. done.
Qed.

(** *** The operations on values *)

Lemma take_value_owns h R n ns' r :
  taken R n ns' r h →
  returns (take_value r h) (λ '(v, h'), v = n_val n ∧ owns h' p cb sl ns' R).
Proof.
  intros (->&Hr0&Hw&HR). unfold take_value. decide_tests.
  assert (hp h !! n_loc n = Some (blank n)) as Hn.
  { eapply (owns_some _ _ _ _ _ _ _ _ Hw). apply lookup_insert_eq. }
  unfold blank in *. unfold load_entry at 1. go. rewrite Hn. go.
  eapply returns_mono; [eapply destroy_entry_owns; [exact Hw|apply lookup_insert_eq]|].
  intros [[] h'] [Hw' _]. go. rewrite delete_insert_id in Hw' by done. done.
Qed.

Lemma add_value_owns add h ns R tagged val nomem (P : list node → Prop) :
  owns h p cb sl ns R →
  (∀ h1 e R1, owns h1 p cb sl ns R1 → spare R1 e val tagged →
     returns (add e h1) (λ '(r, h'), r = 0 ∧ ∃ ns', owns h' p cb sl ns' (delete e R1) ∧ P ns')) →
  returns (add_value add tagged val nomem h) (λ '(r, h'),
    r = 0 ∧ ∃ ns', owns h' p cb sl ns' R ∧ P ns').
Proof.
  intros Hw Hadd. unfold add_value. go.
  eapply returns_mono; [by apply (create_entry_owns h ns R)|].
  intros [e h1]. intros (He0&HR&Hw1). decide_tests. go.
  eapply returns_mono; [eapply (set_spare_owns h1 ns _ e); [exact Hw1|apply lookup_insert_eq]|].
  intros [[] h2] Hw2. go. rewrite insert_insert_eq in Hw2.
  eapply returns_mono; [apply (Hadd h2 e _ Hw2); exists 0; by rewrite lookup_insert_eq|].
  intros [r h3]. intros (->&ns'&Hw3&HP). change (0 =? 0) with true. go. split; [done|].
  exists ns'. by rewrite delete_insert_id in Hw3 by done.
Qed.

(** An entry is taken out at [src] and put in at [dst]. *)
Lemma relocate_owns h ns R src dst d :
  owns h p cb sl ns R → short ns → 0 ≤ src → 0 ≤ dst < INT_MAX →
  data ns !! Z.to_nat src = Some d →
  returns (fetch_entry p src h) (λ '(e, h1), e ≠ 0 ∧
    returns (insert_entry p e dst h1) (λ '(r, h'),
      r = 0 ∧ ∃ ns', owns h' p cb sl ns' R ∧
        data ns' = insert_at dst d (delete (Z.to_nat src) (data ns)))).
Proof.
  intros Hw Hsh Hsrc Hdst Hd. apply list_lookup_fmap_Some in Hd as (n&->&Hn).
  eapply returns_mono; [by apply (fetch_entry_owns h ns R src n)|].
  intros [e h1]. intros (->&He0&Hw1&HR). split; [done|].
  eapply returns_mono;
    [apply (insert_entry_owns h1 _ _ (n_loc n) (n_val n) (n_tagged n) dst Hw1); try done|].
  { exists 0. apply lookup_insert_eq. }
  { unfold short in *. rewrite length_delete by (by eexists). lia. }
  intros [r h']. intros (->&ns'&Hw'&Hd'). split; [done|]. exists ns'.
  rewrite delete_insert_id in Hw' by done. split; [done|]. rewrite Hd'. f_equal.
  unfold data. apply list_fmap_delete.
Qed.

(** A node with another value. *)
Definition revalue (v : Z) (n : node) : node := mk_node (n_loc n) v (n_tagged n) (n_owner n).

Lemma set_value_owns h xs n ys R v :
  owns h p cb sl (xs ++ n :: ys) R →
  returns (set_entry (n_loc n) (with_value v) h) (λ '(_, h'),
    owns h' p cb sl (xs ++ revalue v n :: ys) R).
Proof.
  intros Hw. pose proof Hw as [Hil _ Hal].
  destruct (is_list_middle _ _ _ _ _ _ _ Hil) as (Hn&Hn0&Hnp&_).
  pose proof Hil as [Hwf (cur&pos&Hp&Hcur) Hc Hnd]. unfold entry_of in Hn.
  rewrite <- (with_hp_id h). heap_go.
  assert (locs (xs ++ revalue v n :: ys) = locs (xs ++ n :: ys)) as Hlocs
    by (by rewrite !fmap_app, !fmap_cons).
  rewrite fmap_app, fmap_cons in Hnd. apply NoDup_app in Hnd as (Hd1&Hd2&Hd3).
  apply NoDup_cons in Hd3 as [Hd3 Hd4].
  assert (n_loc n ∉ locs xs) as Hnx by (intros Hin; apply (Hd2 _ Hin); by left).
  split; [split| |done]; simpl.
  - by apply wf_alter; rewrite with_hp_id.
  - exists cur, pos. split.
    + rewrite lookup_alter_ne, Hp by congruence. unfold list_of.
      by rewrite !first_app, !lastl_app, !length_app.
    + destruct Hcur as [Hpos [->|(a&Ha&Hac)]]; (split; [done|]); [by left|right].
      destruct (decide (Z.to_nat pos = length xs)) as [Heq|Hne].
      * exists (revalue v n). rewrite Heq in *. rewrite lookup_middle in *. by simplify_eq.
      * exists a. split; [|done]. rewrite <- Ha, !lookup_app.
        destruct (xs !! Z.to_nat pos) eqn:Hx; [done|]. apply lookup_ge_None_1 in Hx.
        destruct (Z.to_nat pos - length xs)%nat eqn:Hk; [lia|done].
  - apply chain_app in Hc as [Hc1 [_ Hc2]]. apply chain_app; simpl. split_and!.
    + apply (chain_frame (hp h)); [|done]. intros a Ha. apply lookup_alter_ne. by intros <-.
    + rewrite lookup_alter_eq, Hn. done.
    + apply (chain_frame (hp h)); [|done]. intros a Ha. apply lookup_alter_ne. by intros <-.
  - rewrite Hlocs, fmap_app, fmap_cons. apply NoDup_app. split_and!; try done. by apply NoDup_cons.
  - apply map_eq. intros a. rewrite lookup_outside, Hlocs, (owns_lookup _ _ _ _ _ _ _ Hw).
    case_decide as Hd; [done|]. simpl. apply lookup_alter_ne. intros <-. apply Hd. right.
    rewrite fmap_app. apply elem_of_app. right. by left.
Qed.

(** Picking an entry and exchanging its value. *)
Lemma subst_value_owns h ns R pos v w tg :
  owns h p cb sl ns R → short ns → 0 ≤ pos → data ns !! Z.to_nat pos = Some (w, tg) →
  returns (list_subst_value p pos v h) (λ '(r, h'),
    r = w ∧ ∃ ns', owns h' p cb sl ns' R ∧ data ns' = <[Z.to_nat pos := (v, tg)]> (data ns)) ∧
  returns (list_set_value p pos v h) (λ '(r, h'),
    r = w ∧ ∃ ns', owns h' p cb sl ns' R ∧ data ns' = <[Z.to_nat pos := (v, tg)]> (data ns)).
Proof.
  intros Hw Hsh Hpos Hd. apply list_lookup_fmap_Some in Hd as (n&Hn&Hi). simplify_eq.
  unfold list_subst_value, list_set_value. rewrite <- (take_drop_middle _ _ _ Hi) in Hw, Hsh.
  set (xs := take (Z.to_nat pos) ns) in *. set (ys := drop (S (Z.to_nat pos)) ns) in *.
  assert (length xs = Z.to_nat pos) as Hlx
    by (apply lookup_lt_Some in Hi; unfold xs; rewrite length_take; lia).
  assert (∀ h1, owns h1 p cb sl (xs ++ n :: ys) R →
    returns ((e ← load_entry (n_loc n); _ ← set_entry (n_loc n) (with_value v); mret (e_value e)) h1)
      (λ '(r, h'), r = n_val n ∧ ∃ ns', owns h' p cb sl ns' R ∧
        data ns' = <[Z.to_nat pos := (v, n_tagged n)]> (data ns))) as Hset.
  { intros h1 Hw1. destruct (is_list_middle h1 p cb sl xs n ys) as (Hn&_); [by destruct Hw1|].
    unfold load_entry at 1. go. rewrite Hn. unfold entry_of. go.
    eapply returns_mono; [by apply (set_value_owns h1 xs n ys R v)|].
    intros [[] h2] Hw2. go. split; [done|]. eexists; split; [exact Hw2|].
    rewrite <- (take_drop_middle _ _ _ Hi). fold xs ys. rewrite !data_app.
    rewrite insert_app_r_alt by (rewrite data_length; lia). rewrite data_length, Hlx, Nat.sub_diag.
    done. }
  split; go; (eapply returns_mono;
    [apply (pick_entry_owns h _ R pos n Hw Hsh Hpos); rewrite <- Hlx; apply lookup_middle|]);
    intros [r h1]; intros (->&Hr0&Hw1&_); decide_tests; by apply Hset.
Qed.
End triples.

(** ** A linked list is a sequence

    The operations of the interface and what they mean on a plain sequence of
    items, a value with the flag that says whether it is a tagged value. *)

Module Sequence.
Abbreviation item := (Z * bool)%type.

Inductive lop :=
  | Push (v : Z) | Unshift (v : Z) | Pop | Shift
  | Insert (v pos : Z) | Pick (pos : Z) | Fetch (pos : Z)
  | SetAt (pos v : Z) | Subst (pos v : Z)
  | Move (src dst : Z) | Swap (pos1 pos2 : Z) | Count
  | PushTagged (v : Z) | UnshiftTagged (v : Z) | InsertTagged (v pos : Z).

Definition val_at (ds : list item) (pos : Z) : Z :=
  match ds !! Z.to_nat pos with Some (v, _) => v | None => 0 end.

(** Items [i] and [j] exchanged. *)
Definition swap (ds : list item) (i j : nat) : list item :=
  match ds !! i, ds !! j with
  | Some x, Some y => <[i := y]> (<[j := x]> ds)
  | _, _ => ds
  end.

Definition apply (ds : list item) (o : lop) : list item * Z :=
  match o with
  | Push v => (ds ++ [(v, false)], 0)
  | Unshift v => ((v, false) :: ds, 0)
  | Pop => (take (length ds - 1) ds, val_at ds (Z.of_nat (length ds) - 1))
  | Shift => (drop 1 ds, val_at ds 0)
  | Insert v pos => (insert_at pos (v, false) ds, 0)
  | Pick pos => (ds, val_at ds pos)
  | Fetch pos => (delete (Z.to_nat pos) ds, val_at ds pos)
  | SetAt pos v =>
      match ds !! Z.to_nat pos with
      | Some (w, t) => (<[Z.to_nat pos := (v, t)]> ds, w)
      | None => (insert_at pos (v, false) ds, 0)
      end
  | Subst pos v =>
      match ds !! Z.to_nat pos with
      | Some (w, t) => (<[Z.to_nat pos := (v, t)]> ds, w)
      | None => (ds, 0)
      end
  | Move src dst =>
      match ds !! Z.to_nat src with
      | Some d => (insert_at dst d (delete (Z.to_nat src) ds), 0)
      | None => (ds, -1)
      end
  | Swap pos1 pos2 =>
      if pos1 =? pos2 then (ds, -1)
      else (swap ds (Z.to_nat pos1) (Z.to_nat pos2), 0)
  | Count => (ds, Z.of_nat (length ds))
  | PushTagged v => (if v =? 0 then ds else ds ++ [(v, true)], 0)
  | UnshiftTagged v => (if v =? 0 then ds else (v, true) :: ds, 0)
  | InsertTagged v pos => (if v =? 0 then ds else insert_at pos (v, true) ds, 0)
  end.

(** Positions are unsigned; an item is only put where the list stays shorter
    than [2^31], and only positions inside the list are swapped. *)
Definition ok (ds : list item) (o : lop) : Prop :=
  match o with
  | Insert _ pos | SetAt pos _ | InsertTagged _ pos => 0 ≤ pos < INT_MAX
  | Pick pos | Fetch pos | Subst pos _ => 0 ≤ pos < 2 ^ 64 - 1
  | Move src dst => 0 ≤ src < 2 ^ 64 - 1 ∧ 0 ≤ dst < INT_MAX
  | Swap pos1 pos2 =>
      pos1 = pos2 ∨ 0 ≤ pos1 < Z.of_nat (length ds) ∧ 0 ≤ pos2 < Z.of_nat (length ds)
  | _ => True
  end ∧ Z.of_nat (length ds) < INT_MAX.
#[global] Instance ok_dec ds o : Decision (ok ds o).
Proof. destruct o; apply _. Defined.

Fixpoint run (ds : list item) (os : list lop) : list item * list Z :=
  match os with
  | [] => (ds, [])
  | o :: os =>
      let '(ds, r) := apply ds o in
      let '(ds, rs) := run ds os in
      (ds, r :: rs)
  end.
Fixpoint run_ok (ds : list item) (os : list lop) : Prop :=
  match os with [] => True | o :: os => ok ds o ∧ run_ok (apply ds o).1 os end.
#[global] Instance run_ok_dec ds os : Decision (run_ok ds os).
Proof. revert ds. induction os; intros ds; simpl; apply _. Defined.
End Sequence.

Definition run_lop (p : Z) (o : Sequence.lop) : M Z :=
  match o with
  | Sequence.Push v => list_push_value p v
  | Sequence.Unshift v => list_unshift_value p v
  | Sequence.Pop => list_pop_value p
  | Sequence.Shift => list_shift_value p
  | Sequence.Insert v pos => list_insert_value p v pos
  | Sequence.Pick pos => list_pick_value p pos
  | Sequence.Fetch pos => list_fetch_value p pos
  | Sequence.SetAt pos v => list_set_value p pos v
  | Sequence.Subst pos v => list_subst_value p pos v
  | Sequence.Move src dst => list_move_value p src dst
  | Sequence.Swap pos1 pos2 => list_swap_values p pos1 pos2
  | Sequence.Count => list_count p
  | Sequence.PushTagged v => list_push_tagged_value p v
  | Sequence.UnshiftTagged v => list_unshift_tagged_value p v
  | Sequence.InsertTagged v pos => list_insert_tagged_value p v pos
  end.
Fixpoint run_lops (p : Z) (os : list Sequence.lop) : M (list Z) :=
  match os with
  | [] => mret []
  | o :: os => r ← run_lop p o; rs ← run_lops p os; mret (r :: rs)
  end.

Section refine.
Context (p : Z) (cb : bool) (sl : Z).

(** The list at [p] holds [ds]; everything else in the heap is [R]. *)
Definition holds (h : heap) (ds : list (Z * bool)) (R : gmap Z obj) : Prop :=
  ∃ ns, owns h p cb sl ns R ∧ data ns = ds.

Lemma holds_short h ds R ns :
  owns h p cb sl ns R → data ns = ds → Z.of_nat (length ds) < INT_MAX → short ns.
Proof. intros _ <-. rewrite data_length. unfold short. lia. Qed.

Lemma add_returns add h ds R tagged val nomem ds' :
  holds h ds R → Z.of_nat (length ds) < INT_MAX →
  (∀ h1 e R1 ns, owns h1 p cb sl ns R1 → data ns = ds → short ns → spare R1 e val tagged →
     returns (add e h1) (λ '(r, h'), r = 0 ∧ ∃ ns', owns h' p cb sl ns' (delete e R1) ∧
       data ns' = ds')) →
  returns (add_value add tagged val nomem h) (λ '(r, h'), r = 0 ∧ holds h' ds' R).
Proof.
  intros (ns&Hw&Hd) Hlen Hadd.
  apply (add_value_owns p cb sl add h ns R tagged val nomem (λ ns', data ns' = ds') Hw).
  intros h1 e R1 Hw1 Hsp. apply (Hadd h1 e R1 ns); try done. by eapply holds_short.
Qed.

(** The ways to add an item. *)
Lemma push_adds val tagged ds h1 e R1 ns :
  owns h1 p cb sl ns R1 → data ns = ds → short ns → spare R1 e val tagged →
  returns (push_entry p e h1) (λ '(r, h'), r = 0 ∧ ∃ ns',
    owns h' p cb sl ns' (delete e R1) ∧ data ns' = ds ++ [(val, tagged)]).
Proof.
  intros Hw <- Hsh Hsp. eapply returns_mono; [by apply push_entry_owns|].
  intros [r h'] [-> Hw']. split; [done|]. eexists; split; [exact Hw'|]. by rewrite data_app.
Qed.
Lemma unshift_adds val tagged ds h1 e R1 ns :
  owns h1 p cb sl ns R1 → data ns = ds → short ns → spare R1 e val tagged →
  returns (unshift_entry p e h1) (λ '(r, h'), r = 0 ∧ ∃ ns',
    owns h' p cb sl ns' (delete e R1) ∧ data ns' = (val, tagged) :: ds).
Proof.
  intros Hw <- Hsh Hsp. eapply returns_mono; [by apply unshift_entry_owns|].
  intros [r h'] [-> Hw']. split; [done|]. by eexists; split; [exact Hw'|].
Qed.
Lemma insert_adds val tagged pos ds h1 e R1 ns :
  0 ≤ pos < INT_MAX →
  owns h1 p cb sl ns R1 → data ns = ds → short ns → spare R1 e val tagged →
  returns (insert_entry p e pos h1) (λ '(r, h'), r = 0 ∧ ∃ ns',
    owns h' p cb sl ns' (delete e R1) ∧ data ns' = insert_at pos (val, tagged) ds).
Proof. intros Hpos Hw <- Hsh Hsp. by apply insert_entry_owns. Qed.

(** Taking an item out. *)
Lemma fetch_returns h ds R pos :
  holds h ds R → Z.of_nat (length ds) < INT_MAX → 0 ≤ pos < 2 ^ 64 - 1 →
  returns (list_fetch_value p pos h) (λ '(r, h'),
    r = Sequence.val_at ds pos ∧ holds h' (delete (Z.to_nat pos) ds) R).
Proof.
  intros (ns&Hw&<-) Hlen Hpos. rewrite data_length in Hlen.
  assert (short ns) as Hsh by (unfold short; lia).
  unfold list_fetch_value, Sequence.val_at. go. unfold data at 1. rewrite list_lookup_fmap.
  destruct (ns !! Z.to_nat pos) as [n|] eqn:Hn; simpl.
  - eapply returns_mono; [by apply (fetch_entry_owns p cb sl h ns R pos n); try done; lia|].
    intros [e h1] Ht. eapply returns_mono; [by apply (take_value_owns p cb sl h1 R n)|].
    intros [v h'] [-> Hw']. split; [done|]. eexists; split; [exact Hw'|].
    unfold data. apply list_fmap_delete.
  - apply lookup_ge_None_1 in Hn.
    eapply returns_mono; [apply (fetch_entry_out p cb sl h ns R pos); try done; lia|].
    intros [e h1] [-> Hw']. unfold take_value. change (0 =? 0) with true. go. split; [done|].
    exists ns. split; [done|]. unfold data. by rewrite delete_ge by (rewrite length_fmap; lia).
Qed.

Lemma pop_shift_returns h ds R :
  holds h ds R → Z.of_nat (length ds) < INT_MAX →
  returns (list_pop_value p h) (λ '(r, h'),
    r = Sequence.val_at ds (Z.of_nat (length ds) - 1) ∧ holds h' (take (length ds - 1) ds) R) ∧
  returns (list_shift_value p h) (λ '(r, h'),
    r = Sequence.val_at ds 0 ∧ holds h' (drop 1 ds) R).
Proof.
  intros (ns&Hw&<-) Hlen. rewrite data_length in *. unfold list_pop_value, list_shift_value.
  unfold Sequence.val_at, data. rewrite !list_lookup_fmap. split; go.
  - destruct (lastl_cases ns) as [->|(xs&x&->)].
    + eapply returns_mono; [by apply pop_shift_empty|]. intros [r h1] [-> Hw1].
      unfold take_value. change (0 =? 0) with true. go. split; [done|]. by exists [].
    + rewrite length_app in *. simpl in *.
      replace (Z.to_nat _) with (length xs) by lia. rewrite lookup_middle.
      eapply returns_mono; [apply (pop_entry_owns p cb sl h xs x R Hw); unfold short; lia|].
      intros [e h1] Ht. eapply returns_mono; [by apply (take_value_owns p cb sl h1 R x)|].
      intros [v h'] [-> Hw']. split; [done|]. exists xs. split; [done|].
      rewrite fmap_app, Nat.add_sub, take_app_length' by (by rewrite length_fmap). done.
  - destruct ns as [|x ys].
    + eapply returns_mono; [by apply pop_shift_empty|]. intros [r h1] [-> Hw1].
      unfold take_value. change (0 =? 0) with true. go. split; [done|]. by exists [].
    + simpl in *.
      eapply returns_mono; [apply (shift_entry_owns p cb sl h x ys R Hw); unfold short; lia|].
      intros [e h1] Ht. eapply returns_mono; [by apply (take_value_owns p cb sl h1 R x)|].
      intros [v h'] [-> Hw']. split; [done|]. exists ys. split; [done|]. by rewrite drop_0.
Qed.

Lemma pick_returns h ds R pos :
  holds h ds R → Z.of_nat (length ds) < INT_MAX → 0 ≤ pos →
  returns (list_pick_value p pos h) (λ '(r, h'), r = Sequence.val_at ds pos ∧ holds h' ds R).
Proof.
  intros (ns&Hw&<-) Hlen Hpos. rewrite data_length in Hlen.
  unfold list_pick_value, Sequence.val_at. go. unfold data at 1. rewrite list_lookup_fmap.
  destruct (ns !! Z.to_nat pos) as [n|] eqn:Hn; simpl.
  - eapply returns_mono;
      [apply (pick_entry_owns p cb sl h ns R pos n); try done; unfold short; lia|].
    intros [e h1]. intros (->&He0&Hw1&_). decide_tests. go.
    pose proof Hw1 as [[_ _ Hc _] _ _].
    pose proof (chain_lookup _ _ _ _ _ _ Hc Hn) as He. unfold load_entry. rewrite He.
    unfold entry_of. go. split; [done|]. by exists ns.
  - apply lookup_ge_None_1 in Hn.
    rewrite (pick_entry_out h p cb sl ns pos) by first [lia|by destruct Hw]. go.
    change (0 =? 0) with true. go. split; [done|]. by exists ns.
Qed.

Lemma subst_returns h ds R pos v :
  holds h ds R → Z.of_nat (length ds) < INT_MAX → 0 ≤ pos →
  returns (list_subst_value p pos v h) (λ '(r, h'),
    (r = (Sequence.apply ds (Sequence.Subst pos v)).2) ∧
    holds h' (Sequence.apply ds (Sequence.Subst pos v)).1 R).
Proof.
  intros (ns&Hw&<-) Hlen Hpos. rewrite data_length in Hlen. simpl.
  destruct (data ns !! Z.to_nat pos) as [[w t]|] eqn:Hn; simpl.
  - by apply (subst_value_owns p cb sl h ns R pos v w t); try done; unfold short; lia.
  - apply lookup_ge_None_1 in Hn. rewrite data_length in Hn. unfold list_subst_value. go.
    rewrite (pick_entry_out h p cb sl ns pos) by first [lia|by destruct Hw]. go.
    change (0 =? 0) with true. go. split; [done|]. by exists ns.
Qed.

Lemma set_returns h ds R pos v :
  holds h ds R → Z.of_nat (length ds) < INT_MAX → 0 ≤ pos < INT_MAX →
  returns (list_set_value p pos v h) (λ '(r, h'),
    (r = (Sequence.apply ds (Sequence.SetAt pos v)).2) ∧
    holds h' (Sequence.apply ds (Sequence.SetAt pos v)).1 R).
Proof.
  intros (ns&Hw&<-) Hlen Hpos. rewrite data_length in Hlen. simpl.
  destruct (data ns !! Z.to_nat pos) as [[w t]|] eqn:Hn; simpl.
  - by apply (subst_value_owns p cb sl h ns R pos v w t); try done; unfold short; lia.
  - apply lookup_ge_None_1 in Hn. rewrite data_length in Hn. unfold list_set_value. go.
    rewrite (pick_entry_out h p cb sl ns pos) by first [lia|by destruct Hw]. go.
    change (0 =? 0) with true. go. unfold list_insert_value.
    eapply returns_mono; [apply (add_returns _ h (data ns) R false v (-1)
      (insert_at pos (v, false) (data ns)))|].
    { by exists ns. }
    { by rewrite data_length. }
    { intros. by eapply insert_adds. }
    intros [r h'] [-> Hh']. go. done.
Qed.

Lemma relocate_returns h ds R src dst d :
  holds h ds R → Z.of_nat (length ds) < INT_MAX → 0 ≤ src → 0 ≤ dst < INT_MAX →
  ds !! Z.to_nat src = Some d →
  returns (fetch_entry p src h) (λ '(e, h1), e ≠ 0 ∧
    returns (insert_entry p e dst h1) (λ '(r, h'),
      r = 0 ∧ holds h' (insert_at dst d (delete (Z.to_nat src) ds)) R)).
Proof.
  intros (ns&Hw&<-) Hlen Hsrc Hdst Hd. rewrite data_length in Hlen.
  apply (relocate_owns p cb sl h ns R src dst d); try done. unfold short. lia.
Qed.

Lemma move_returns h ds R src dst :
  holds h ds R → Z.of_nat (length ds) < INT_MAX →
  0 ≤ src < 2 ^ 64 - 1 → 0 ≤ dst < INT_MAX →
  returns (list_move_value p src dst h) (λ '(r, h'),
    (r = (Sequence.apply ds (Sequence.Move src dst)).2) ∧
    holds h' (Sequence.apply ds (Sequence.Move src dst)).1 R).
Proof.
  intros Hh Hlen Hsrc Hdst. unfold list_move_value, move_entry. simpl. go.
  destruct (ds !! Z.to_nat src) as [d|] eqn:Hd; simpl.
  - eapply returns_mono; [apply (relocate_returns h ds R src dst d); try done; lia|].
    intros [e h1]. intros (He0&Hi). decide_tests. go.
    eapply returns_mono; [exact Hi|]. intros [r h'] [-> Hh']. change (0 =? 0) with true. go. done.
  - destruct Hh as (ns&Hw&<-). apply lookup_ge_None_1 in Hd. rewrite data_length in *.
    eapply returns_mono; [apply (fetch_entry_out p cb sl h ns R src); try done; unfold short; lia|].
    intros [e h1] [-> Hw1]. change (0 =? 0) with true. go. split; [done|]. by exists ns.
Qed.
End refine.

(** The two moves of a swap, on the sequence. *)
Lemma swap_insert_at (ds : list (Z * bool)) (i j : Z) x y :
  0 ≤ i < j → ds !! Z.to_nat i = Some x → ds !! Z.to_nat j = Some y →
  insert_at i y (delete (Z.to_nat j) ds) !! Z.to_nat (i + 1) = Some x ∧
  insert_at j x (delete (Z.to_nat (i + 1)) (insert_at i y (delete (Z.to_nat j) ds))) =
    Sequence.swap ds (Z.to_nat i) (Z.to_nat j).
Proof.
  intros Hij Hx Hy. pose proof (lookup_lt_Some _ _ _ Hy).
  set (a := take (Z.to_nat i) ds). set (b := take (Z.to_nat j - S (Z.to_nat i)) (drop (S (Z.to_nat i)) ds)).
  set (c := drop (S (Z.to_nat j)) ds).
  assert (length a = Z.to_nat i) as Ha by (unfold a; rewrite length_take; lia).
  assert (length b = Z.to_nat j - S (Z.to_nat i))%nat as Hb
    by (unfold b; rewrite length_take, length_drop; lia).
  assert (ds = a ++ x :: b ++ y :: c) as Hds.
  { rewrite <- (take_drop_middle ds (Z.to_nat i) x Hx) at 1. fold a. do 2 f_equal.
    rewrite <- (take_drop_middle (drop (S (Z.to_nat i)) ds) (Z.to_nat j - S (Z.to_nat i)) y).
    - fold b. rewrite drop_drop. do 2 f_equal. unfold c. f_equal. lia.
    - rewrite lookup_drop, <- Hy. f_equal. lia. }
  assert (delete (Z.to_nat j) ds = a ++ x :: b ++ c) as Hdel.
  { rewrite Hds. replace (Z.to_nat j) with (length (a ++ x :: b)) by len.
    rewrite (app_comm_cons b (y :: c) x), app_assoc, delete_middle. by rewrite <- app_assoc. }
  assert (insert_at i y (a ++ x :: b ++ c) = a ++ y :: x :: b ++ c) as Hins.
  { unfold insert_at. replace (Z.to_nat i - length _)%nat with 0%nat by len.
    rewrite <- Ha, take_app_length, drop_app_length. done. }
  rewrite Hdel, Hins. split.
  { rewrite lookup_app_r by lia. by replace (Z.to_nat (i + 1) - length a)%nat with 1%nat by lia. }
  assert (delete (Z.to_nat (i + 1)) (a ++ y :: x :: b ++ c) = (a ++ y :: b) ++ c) as ->.
  { replace (Z.to_nat (i + 1)) with (length (a ++ [y])) by len.
    replace (a ++ y :: x :: b ++ c) with ((a ++ [y]) ++ x :: b ++ c) by (by rewrite <- app_assoc).
    rewrite delete_middle. by rewrite <- !app_assoc. }
  unfold insert_at, Sequence.swap. rewrite Hx, Hy.
  replace (Z.to_nat j - length _)%nat with 0%nat by len.
  rewrite take_app_length', drop_app_length' by len. simpl.
  assert (<[Z.to_nat j := x]> ds = a ++ x :: b ++ x :: c) as ->.
  { rewrite Hds. replace (Z.to_nat j) with (length (a ++ x :: b) + 0)%nat by len.
    rewrite (app_comm_cons b (y :: c) x), app_assoc, insert_app_r. by rewrite <- app_assoc. }
  replace (Z.to_nat i) with (length a + 0)%nat by lia. rewrite insert_app_r.
  by rewrite <- app_assoc.
Qed.

Lemma swap_comm ds i j : i ≠ j → Sequence.swap ds i j = Sequence.swap ds j i.
Proof.
  intros Hne. unfold Sequence.swap. destruct (ds !! i), (ds !! j); try done.
  by rewrite list_insert_insert_ne by done.
Qed.

Section run.
Context (p : Z) (cb : bool) (sl : Z).

Lemma swap_returns h ds R i j :
  holds p cb sl h ds R → Z.of_nat (length ds) < INT_MAX → 0 ≤ i < j → j < Z.of_nat (length ds) →
  returns ((e2 ← fetch_entry p j; _ ← insert_entry p e2 i;
            e1 ← fetch_entry p (u64 (i + 1)); _ ← insert_entry p e1 j; mret 0) h)
    (λ '(r, h'), r = 0 ∧ holds p cb sl h' (Sequence.swap ds (Z.to_nat i) (Z.to_nat j)) R).
Proof.
  intros Hh Hlen Hij Hj.
  destruct (lookup_lt_is_Some_2 ds (Z.to_nat i)) as [x Hx]; [lia|].
  destruct (lookup_lt_is_Some_2 ds (Z.to_nat j)) as [y Hy]; [lia|].
  destruct (swap_insert_at ds i j x y Hij Hx Hy) as [Hx' Hsw].
  go. eapply returns_mono; [apply (relocate_returns p cb sl h ds R j i y); try done; int_bounds; lia|].
  intros [e2 h1] [_ Hi]. go. eapply returns_mono; [exact Hi|].
  intros [r h2] [-> Hh2]. go. rewrite u64_small by (int_bounds; lia).
  eapply returns_mono; [apply (relocate_returns p cb sl h2 _ R (i + 1) j x Hh2); try done; try lia|].
  { unfold insert_at. rewrite !length_app, length_take, length_replicate. simpl.
    rewrite length_drop, length_delete by (by eexists). int_bounds. lia. }
  intros [e1 h3] [_ Hi']. go. eapply returns_mono; [exact Hi'|].
  intros [r h4] [-> Hh4]. go. split; [done|]. by rewrite <- Hsw.
Qed.

Lemma run_lop_returns h ds R o :
  holds p cb sl h ds R → Sequence.ok ds o →
  returns (run_lop p o h) (λ '(r, h'),
    (r = (Sequence.apply ds o).2) ∧ holds p cb sl h' (Sequence.apply ds o).1 R).
Proof.
  intros Hh [Hok Hlen]. destruct o; simpl run_lop; simpl in Hok.
  - eapply add_returns; try done. intros. by eapply push_adds.
  - eapply add_returns; try done. intros. by eapply unshift_adds.
  - by apply pop_shift_returns.
  - by apply pop_shift_returns.
  - eapply add_returns; try done. intros. by eapply insert_adds.
  - apply pick_returns; try done; lia.
  - by apply fetch_returns.
  - by apply set_returns.
  - apply subst_returns; try done; lia.
  - by destruct Hok; apply move_returns.
  - unfold list_swap_values, swap_entries. simpl.
    destruct (Z.eqb_spec pos1 pos2) as [->|Hne].
    { rewrite Z.ltb_irrefl. go. done. }
    destruct Hok as [?|[H1 H2]]; [done|]. simpl.
    destruct (Z.ltb_spec pos1 pos2); [apply swap_returns; try done; lia|].
    destruct (Z.ltb_spec pos2 pos1); [|lia]. rewrite swap_comm by lia.
    apply swap_returns; try done; lia.
  - destruct Hh as (ns&Hw&<-). destruct (owns_length _ _ _ _ _ _ Hw) as (l&Hl&Hn).
    unfold list_count, load_list. go. rewrite Hl. go. simpl. rewrite data_length.
    split; [done|]. by exists ns.
  - unfold list_push_tagged_value. simpl. case_if; [by go|].
    eapply add_returns; try done. intros. by eapply push_adds.
  - unfold list_unshift_tagged_value. simpl. case_if; [by go|].
    eapply add_returns; try done. intros. by eapply unshift_adds.
  - unfold list_insert_tagged_value. simpl. case_if; [by go|].
    eapply add_returns; try done. intros. by eapply insert_adds.
Qed.

(** A fresh list is empty. *)
Lemma list_create_returns h :
  wf_heap h → alloc_ok h →
  returns (list_create h) (λ '(r, h'), r ≠ 0 ∧ holds r false 0 h' [] (hp h)).
Proof.
  intros [Hn Hw] Hal. unfold list_create, alloc.
  assert (hp h !! hp_next h = None) as He.
  { destruct (hp h !! hp_next h) as [o|] eqn:Ho; [|done]. apply Hw in Ho. lia. }
  assert (∀ a f, Forall (λ b, b = true) a →
    holds (hp_next h) false 0
      (mk_heap (<[hp_next h := OList (mk_list 0 0 0 0 0 false 0)]> (hp h)) (hp_next h + 1) a f)
      [] (hp h)) as Hgo.
  { intros a f Ha. exists []. split; [|done]. split; [split| |done]; simpl.
    - split; simpl; [lia|]. intros b o. rewrite lookup_insert.
      case_decide; [lia|]. intros ?%Hw. lia.
    - exists 0, 0. rewrite lookup_insert_eq. split; [done|]. by apply cursor_none.
    - done.
    - apply NoDup_nil_2.
    - apply map_eq. intros b. rewrite lookup_outside. simpl. case_decide as Hd.
      + apply list_elem_of_singleton in Hd as ->. done.
      + rewrite lookup_insert_ne; [done|]. intros <-. apply Hd. by left. }
  unfold alloc_ok in Hal. destruct (hp_alloc h) as [|[|] al]; [| |by inversion Hal];
    go; (split; [lia|]); apply Hgo; by inversion Hal.
Qed.
End run.

(** ** Iteration *)

Section foreach.
Context {U : Type} (f : Z → Z → U → Z * U).
Context (Hf : ∀ v i u, (f v i u).1 ≠ -1 ∧ (f v i u).1 ≠ -2).

(** The handler on the values in order, with their indices, until it returns
    [0]: the number of calls and the user's state. *)
Fixpoint visit (vs : list Z) (idx : Z) (u : U) : Z * U :=
  match vs with
  | [] => (idx, u)
  | v :: vs =>
      let '(rc, u) := f v idx u in
      if rc =? 0 then (idx + 1, u) else visit vs (idx + 1) u
  end.

Lemma visit_bound vs idx u : idx ≤ (visit vs idx u).1 ≤ idx + Z.of_nat (length vs).
Proof.
  revert idx u. induction vs as [|v vs IH]; intros idx u; simpl; [lia|].
  destruct (f v idx u) as [rc u']. case_if; simpl; [lia|]. specialize (IH (idx + 1) u'). lia.
Qed.

Context (p : Z) (cb : bool) (sl : Z).

Lemma foreach_loop h ns R xs ys n idx u :
  owns h p cb sl ns R → short ns → ns = xs ++ ys → 0 ≤ idx → 0 ≤ n < 2 ^ 64 →
  idx + Z.of_nat (length ys) < 2 ^ 63 →
  returns (loopS (foreach_body f p) (first ys 0, idx, n, u) h) (λ '(r, h'),
    h' = h ∧ r.1.1 = (visit (take (Z.to_nat (n - idx)) (n_val <$> ys)) idx u).1 ∧
    r.2 = (visit (take (Z.to_nat (n - idx)) (n_val <$> ys)) idx u).2).
Proof using Hf.
  intros Hw Hsh Hns Hidx Hn Hb.
  set (target := visit (take (Z.to_nat (n - idx)) (n_val <$> ys)) idx u).
  apply loopS_returns with
    (I := λ '(e, i, m, u') w, w = h ∧ m = n ∧ ∃ xs' ys', ns = xs' ++ ys' ∧ e = first ys' 0 ∧
       0 ≤ i ∧ i + Z.of_nat (length ys') < 2 ^ 63 ∧
       visit (take (Z.to_nat (n - i)) (n_val <$> ys')) i u' = target)
    (μ := λ '(e, i, m, u') _, 2 ^ 63 - i); [| |lia].
  - intros [[[e i] m] u'] w (->&->&xs'&ys'&Hns'&->&Hi&Hb'&Ht) _. unfold foreach_body.
    destruct ys' as [|y ys'].
    { simpl. change (0 =? 0) with true. simpl. go. simpl in Ht. rewrite take_nil in Ht. by rewrite <- Ht. }
    rewrite Hns' in Hw. destruct (is_list_middle h p cb sl xs' y ys') as (Hy&Hy0&_);
      [by destruct Hw|]. cbn [first]. decide_tests. simpl negb. cbn [andb].
    case_if.
    + unfold load_entry at 1. go. rewrite Hy. unfold entry_of. go. cproj.
      replace (Z.to_nat (n - i)) with (S (Z.to_nat (n - (i + 1)))) in Ht by lia.
      simpl in Ht. specialize (Hf (n_val y) i u'). destruct (f (n_val y) i u') as [rc u''].
      simpl in Hf. simpl length in Hb'. rewrite u64_small by lia. case_if.
      * go. rewrite <- Ht. done.
      * destruct Hf as [Hf1 Hf2]. rewrite (proj2 (Z.eqb_neq rc _) Hf1), (proj2 (Z.eqb_neq rc _) Hf2).
        cbn [orb]. go. split; [|lia]. split_and!; try done. exists (xs' ++ [y]), ys'.
        split_and!; try done; try lia. by rewrite <- app_assoc.
    + go. replace (Z.to_nat (n - i)) with 0%nat in Ht by lia. by rewrite <- Ht.
  - split_and!; try done. by exists xs, ys.
Qed.

Lemma foreach_returns h ns R offset n u :
  owns h p cb sl ns R → short ns → 0 ≤ offset → 0 ≤ n < 2 ^ 64 →
  returns (foreach f p offset n u h) (λ '((idx, _, u'), h'),
    owns h' p cb sl ns R ∧
    (idx, u') = visit (take (Z.to_nat n) (drop (Z.to_nat offset) (n_val <$> ns))) 0 u).
Proof using Hf.
  intros Hw Hsh Ho Hn. unfold foreach. go. unfold short in Hsh.
  set (xs := take (Z.to_nat offset) ns). set (ys := drop (Z.to_nat offset) ns).
  assert (ns = xs ++ ys) as Hns by (unfold xs, ys; by rewrite take_drop).
  assert (length ys ≤ length ns)%nat as Hly by (unfold ys; rewrite length_drop; lia).
  rewrite <- fmap_drop. fold ys.
  assert (∀ h1, owns h1 p cb sl ns R →
    returns (loopS (foreach_body f p) (first ys 0, 0, n, u) h1) (λ '((idx, _, u'), h'),
      owns h' p cb sl ns R ∧ (idx, u') = visit (take (Z.to_nat n) (n_val <$> ys)) 0 u)) as Hgo.
  { intros h1 Hw1.
    eapply returns_mono; [apply (foreach_loop h1 ns R xs ys n 0 u); try done; int_bounds; lia|].
    intros [[[idx m] u'] h']. rewrite Z.sub_0_r. simpl. intros (->&->&->). split; [done|].
    by destruct (visit _ 0 u). }
  destruct (ns !! Z.to_nat offset) as [x|] eqn:Hx.
  - eapply returns_mono; [by apply (pick_entry_owns p cb sl h ns R offset x)|].
    intros [e h1]. intros (->&_&Hw1&_). rewrite <- (first_drop _ _ _ 0 Hx). by apply Hgo.
  - apply lookup_ge_None_1 in Hx.
    rewrite (pick_entry_out h p cb sl ns offset) by first [lia|by destruct Hw]. go.
    assert (ys = []) as Hy by (unfold ys; apply drop_ge; lia).
    specialize (Hgo h Hw). rewrite Hy in Hgo |- *. exact Hgo.
Qed.
End foreach.

(** ** Clearing and destroying *)

Lemma call_free_owns h p cb sl ns R v :
  owns h p cb sl ns R →
  returns (call_free_value_cb v h) (λ '(_, h'),
    owns h' p cb sl ns R ∧ hp_freed h' = hp_freed h ++ [v]).
Proof. intros [[] ? ?]. unfold call_free_value_cb. go. split; [|done]. by split. Qed.

(** *** The values of a list

    The tagged value that an entry points to, the blocks that it owns, and the
    values that go to the callback.  The bytes of a tagged value are its own
    when it has a length and no callback is set. *)
Definition payload (R : gmap Z obj) (d : Z * bool) : option tagged_value_t :=
  if d.2 && negb (d.1 =? 0) then match R !! d.1 with Some (OTagged t) => Some t | _ => None end else None.
Definition not_null (a : Z) : list Z := if a =? 0 then [] else [a].
Definition blocks (cb : bool) (R : gmap Z obj) (d : Z * bool) : list Z :=
  match payload R d with
  | Some t => not_null (tv_tag t) ++ (if cb || (tv_vlen t =? 0) then [] else not_null (tv_value t)) ++ [d.1]
  | None => []
  end.
Definition handed (R : gmap Z obj) (d : Z * bool) : list Z :=
  match payload R d with Some t => not_null (tv_value t) | None => [d.1] end.
Definition holds_bytes (R : gmap Z obj) (d : Z * bool) : Prop :=
  d.2 = true → d.1 ≠ 0 → ∃ t, R !! d.1 = Some (OTagged t) ∧ tv_kind t ≠ TV_TYPE_LIST.

Lemma value_block cb R v : holds_bytes R (v, true) → v ≠ 0 → v ∈ blocks cb R (v, true).
Proof.
  intros Ht Hv. destruct (Ht eq_refl Hv) as (t&Et&_). unfold blocks, payload. simpl in *.
  rewrite (proj2 (Z.eqb_neq v 0)) by done. simpl. rewrite Et. rewrite !elem_of_app. right. right. by left.
Qed.

(** [R] without some blocks. *)
Definition without_blocks (bs : list Z) (R : gmap Z obj) : gmap Z obj := filter (λ x, x.1 ∉ bs) R.

Lemma lookup_without_blocks bs R a : without_blocks bs R !! a = if decide (a ∈ bs) then None else R !! a.
Proof. unfold without_blocks. rewrite map_lookup_filter. destruct (R !! a); simpl; try case_guard; by repeat case_decide. Qed.
Lemma without_blocks_nil R : without_blocks [] R = R.
Proof. apply map_eq. intros a. rewrite lookup_without_blocks. by rewrite decide_False by (by intros ?%not_elem_of_nil). Qed.
Lemma without_blocks_app bs cs R : without_blocks (bs ++ cs) R = without_blocks cs (without_blocks bs R).
Proof.
  apply map_eq. intros a. rewrite !lookup_without_blocks. repeat case_decide; try done; set_solver.
Qed.
Lemma without_blocks_one a R : without_blocks [a] R = delete a R.
Proof.
  apply map_eq. intros b. rewrite lookup_without_blocks, lookup_delete. repeat case_decide; try done; set_solver.
Qed.
Lemma without_blocks_insert bs a o R : a ∉ bs → without_blocks bs (<[a := o]> R) = <[a := o]> (without_blocks bs R).
Proof.
  intros Ha. apply map_eq. intros b. rewrite lookup_without_blocks, !lookup_insert, lookup_without_blocks. repeat case_decide; subst; done.
Qed.

(** *** Clearing *)

(** [free] of a pointer that may be null. *)
Lemma free_maybe_owns p cb sl h ns R a :
  owns h p cb sl ns R → (∀ b, b ∈ not_null a → is_Some (R !! b)) →
  returns (free a h) (λ '(_, h'), owns h' p cb sl ns (without_blocks (not_null a) R) ∧ hp_freed h' = hp_freed h).
Proof.
  intros Hw Ha. unfold not_null in *. destruct (Z.eqb_spec a 0) as [->|Ha0].
  - unfold free. simpl. go. by rewrite without_blocks_nil.
  - destruct (Ha a) as [o Ho]; [left|]. rewrite without_blocks_one. by eapply free_owns.
Qed.

Section clear.
Context (destroy_list : Z → M unit) (p : Z) (cb : bool) (sl : Z).

(** The blocks of a value are freed; it was not freed before. *)
Lemma tagged_value_owns h ns R R0 v :
  owns h p cb sl ns R → v ≠ 0 → R !! v = R0 !! v → holds_bytes R0 (v, true) → NoDup (blocks cb R0 (v, true)) →
  (∀ a, a ∈ blocks cb R0 (v, true) → is_Some (R !! a)) →
  returns (list_destroy_tagged_value_internal destroy_list v cb h) (λ '(_, h'),
    owns h' p cb sl ns (without_blocks (blocks cb R0 (v, true)) R) ∧
    hp_freed h' = hp_freed h ++ if cb then handed R0 (v, true) else []).
Proof.
  intros Hw Hv HR Ht Hnd Hin. destruct (Ht eq_refl Hv) as (t&Et&Hk). simpl in Et.
  unfold blocks, handed, payload in *. simpl in *. rewrite (proj2 (Z.eqb_neq v 0)) in * by done. simpl in *. rewrite Et in *.
  unfold list_destroy_tagged_value_internal. rewrite (proj2 (Z.eqb_neq v 0)) by done.
  pose proof (owns_some _ _ _ _ _ _ _ _ Hw HR) as (_&_&_&Hh). unfold load_tagged. go. rewrite Hh. go.
  set (own := if cb || (tv_vlen t =? 0) then [] else not_null (tv_value t)) in *.
  rewrite !NoDup_app in Hnd. destruct Hnd as (_&Hd1&_&Hd2&_).
  eapply returns_mono; [apply (free_maybe_owns p cb sl h ns R (tv_tag t) Hw); intros b Hb; apply Hin, elem_of_app; by left|].
  intros [[] h1] [Hw1 Hf1]. go.
  eapply returns_mono with (P := λ '(_, h2), owns h2 p cb sl ns (without_blocks own (without_blocks (not_null (tv_tag t)) R)) ∧
    hp_freed h2 = hp_freed h ++ if cb then not_null (tv_value t) else []).
  - assert (Hown : ∀ b, b ∈ own → is_Some (without_blocks (not_null (tv_tag t)) R !! b)).
    { intros b Hb. rewrite lookup_without_blocks, decide_False; [apply Hin; rewrite !elem_of_app; tauto|].
      intros Hb'. apply (Hd1 b Hb'), elem_of_app. by left. }
    destruct (Z.eqb_spec (tv_value t) 0) as [E|E].
    + assert (own = []) as Ho by (unfold own, not_null; rewrite E; simpl; by destruct (cb || _)).
      go. rewrite Ho, without_blocks_nil, Hf1. split; [done|]. unfold not_null. rewrite E. simpl. by destruct cb; rewrite app_nil_r.
    + assert (Hnn : not_null (tv_value t) = [tv_value t]) by (unfold not_null; by rewrite (proj2 (Z.eqb_neq _ 0) E)).
      assert (returns ((if cb then call_free_value_cb (tv_value t) else
          if negb (tv_vlen t =? 0) then free (tv_value t) else mret tt) h1) (λ '(_, h2),
        owns h2 p cb sl ns (without_blocks own (without_blocks (not_null (tv_tag t)) R)) ∧
        hp_freed h2 = hp_freed h ++ if cb then not_null (tv_value t) else [])); [|by destruct (tv_kind t)].
      destruct cb; simpl in own.
      * eapply returns_mono; [by apply call_free_owns|]. intros [[] h2] [Hw2 Hf2].
        unfold own. by rewrite without_blocks_nil, Hf2, Hf1, Hnn.
      * destruct (tv_vlen t =? 0); simpl; [go; unfold own; by rewrite without_blocks_nil, Hf1, app_nil_r|].
        eapply returns_mono; [by apply (free_maybe_owns p false sl h1 ns _ (tv_value t) Hw1)|].
        intros [[] h2] [Hw2 Hf2]. by rewrite Hf2, Hf1, app_nil_r.
  - intros [[] h2] [Hw2 Hf2]. rewrite !without_blocks_app, without_blocks_one.
    eapply returns_mono; [apply (free_owns p cb sl h2 ns _ v (OTagged t) Hw2)|].
    { rewrite !lookup_without_blocks, !decide_False; [done| |].
      - intros Hb. apply (Hd1 v Hb), elem_of_app. right. by left.
      - intros Hb. apply (Hd2 v Hb). by left. }
    intros [[] h'] [Hw' Hf']. by rewrite Hf', Hf2.
Qed.

(** One round: the first entry goes, and its value.  [R0] is the rest of the
    heap before the values of the first entries were freed. *)
Lemma clear_body_returns h x ys R R0 (d := (n_val x, n_tagged x)) :
  owns h p cb sl (x :: ys) R → short ys → (∀ a, a ∈ blocks cb R0 d → R !! a = R0 !! a) → holds_bytes R0 d →
  NoDup (blocks cb R0 d) → (∀ a, a ∈ blocks cb R0 d → is_Some (R !! a)) →
  returns (clear_body destroy_list p tt h) (λ '(r, h'),
    r = inl tt ∧ owns h' p cb sl ys (without_blocks (blocks cb R0 d) R) ∧
    hp_freed h' = hp_freed h ++ if cb then handed R0 d else []).
Proof.
  intros Hw Hsh HR0 Ht Hnd Hin. unfold clear_body. go.
  eapply returns_mono; [apply (shift_entry_returns h p cb sl x ys); [by destruct Hw|]|].
  { unfold short in Hsh. int_bounds. lia. }
  intros [e h1] [-> Hd]. pose proof (taken_intro p cb sl h [] x ys R h1 Hw Hd) as (_&Hx0&Hw1&HR).
  simpl in Hw1. destruct Hd as [_ Hx _ [_ _ _ Hfr]].
  pose proof Hw1 as [[_ (cur&pos&Hp&_) _ _] _ _].
  decide_tests. rewrite <- (with_hp_id h1). unfold list_of in Hp. heap_go. rewrite with_hp_id.
  rewrite <- Hfr. set (x0 := n_loc x) in *.
  assert (∀ h2 bs, owns h2 p cb sl ys (<[x0 := blank x]> (without_blocks bs R)) →
    returns ((destroy_entry x0 ≫= λ _, mret (inl tt : unit + unit)) h2) (λ '(r, h'),
      r = inl tt ∧ owns h' p cb sl ys (without_blocks bs R) ∧ hp_freed h' = hp_freed h2)) as Hdes.
  { intros h2 bs Hw2. go.
    eapply returns_mono; [eapply destroy_entry_owns; [exact Hw2|apply lookup_insert_eq]|].
    intros [[] h'] [Hw' Hf']. go. rewrite delete_insert_id in Hw'; [done|]. rewrite lookup_without_blocks. by case_decide. }
  destruct (n_tagged x && negb (n_val x =? 0)) eqn:Etag.
  - apply andb_prop in Etag as [Etag Ev]. apply negb_true_iff, Z.eqb_neq in Ev.
    assert (d = (n_val x, true)) as Ed by (unfold d; by rewrite Etag). rewrite Ed in *.
    assert (Hx0v : ∀ a, is_Some (R !! a) → a ≠ x0) by (intros a [o Ho] ->; congruence).
    pose proof (value_block cb R0 (n_val x) Ht Ev) as Hvb.
    go. eapply returns_mono; [apply (tagged_value_owns h1 ys _ R0 (n_val x) Hw1 Ev)|].
    + rewrite lookup_insert_ne; [by apply HR0|]. by apply not_eq_sym, Hx0v, Hin.
    + done.
    + done.
    + intros a Ha. rewrite lookup_insert_ne; [by apply Hin|]. by apply not_eq_sym, Hx0v, Hin.
    + intros [[] h2] [Hw2 Hf2]. rewrite without_blocks_insert in Hw2 by (intros Hb; by apply (Hx0v x0 (Hin _ Hb))).
      rewrite <- Hf2. by apply Hdes.
  - assert (payload R0 d = None) as Epay by (unfold payload, d; simpl; by rewrite Etag).
    unfold blocks, handed. rewrite Epay. simpl.
    rewrite <- (without_blocks_nil R) in Hw1. destruct cb.
    + go. eapply returns_mono; [by apply call_free_owns|]. intros [[] h2] [Hw2 <-]. by apply Hdes.
    + rewrite app_nil_r. apply (Hdes h1 [] Hw1).
Qed.

(** The blocks of the values are there, each owned once, and no tagged value
    is a list. *)
Definition owns_values (R : gmap Z obj) (ds : list (Z * bool)) : Prop :=
  NoDup (ds ≫= blocks cb R) ∧ (∀ a, a ∈ ds ≫= blocks cb R → is_Some (R !! a)) ∧ Forall (holds_bytes R) ds.

Lemma clear_returns h ns R :
  owns h p cb sl ns R → short ns → owns_values R (data ns) →
  returns (clear destroy_list p h) (λ '(_, h'),
    owns h' p cb sl [] (without_blocks (data ns ≫= blocks cb R) R) ∧
    hp_freed h' = hp_freed h ++ if cb then data ns ≫= handed R else []).
Proof.
  intros Hw Hsh (Hnd&Hin&Ht). unfold clear. apply loopS_returns with
    (I := λ _ w, ∃ xs ys, ns = xs ++ ys ∧ owns w p cb sl ys (without_blocks (data xs ≫= blocks cb R) R) ∧
       hp_freed w = hp_freed h ++ if cb then data xs ≫= handed R else [])
    (μ := λ _ w, match hp w !! p with Some (OList l) => l_length l | _ => 0 end).
  - intros [] w (xs&ys&Hns&Hw1&Hfr) _. destruct (owns_length _ _ _ _ _ _ Hw1) as (l&Hl&Hll).
    rewrite Hl, Hll. destruct ys as [|y ys].
    + unfold clear_body. go.
      eapply returns_mono; [apply (shift_entry_empty w p cb sl); by destruct Hw1|].
      intros [e w1]. intros (->&Hil&Hfm). change (0 =? 0) with true. go.
      rewrite app_nil_r in Hns. subst ns.
      split; [by apply (owns_frame p cb sl w)|]. by destruct Hfm as [_ _ _ ->].
    + rewrite Hns in Hsh, Ht, Hnd, Hin. unfold short in Hsh. rewrite length_app in Hsh. simpl in Hsh.
      rewrite data_app in Ht, Hnd, Hin. apply Forall_app in Ht as [_ [Hty _]%Forall_cons].
      rewrite bind_app in Hnd, Hin. simpl in Hnd, Hin. rewrite !NoDup_app in Hnd. destruct Hnd as (_&Hd&Hndy&_).
      assert (∀ a, a ∈ blocks cb R (n_val y, n_tagged y) → is_Some (without_blocks (data xs ≫= blocks cb R) R !! a)) as Hiny.
      { intros a Ha. rewrite lookup_without_blocks, decide_False; [apply Hin; rewrite !elem_of_app; tauto|].
        intros Ha'. apply (Hd a Ha'), elem_of_app. by left. }
      eapply returns_mono; [apply (clear_body_returns w y ys _ R Hw1); [unfold short; lia| |done|done|done]|].
      { intros a Ha. rewrite lookup_without_blocks, decide_False; [done|]. intros Ha'. apply (Hd a Ha'), elem_of_app. by left. }
      intros [r w1]. intros (->&Hw2&Hfr2). destruct (owns_length _ _ _ _ _ _ Hw2) as (l2&Hl2&Hll2).
      rewrite Hl2, Hll2. split; [|simpl; lia]. exists (xs ++ [y]), ys.
      rewrite data_app, !bind_app. simpl. rewrite !app_nil_r, without_blocks_app.
      split_and!; [by rewrite <- app_assoc|done|]. rewrite Hfr2, Hfr, <- app_assoc. by destruct cb.
  - exists [], ns. split_and!; try done; [by rewrite without_blocks_nil|]. by destruct cb; rewrite app_nil_r.
  - destruct (owns_length _ _ _ _ _ _ Hw) as (l&Hl&Hll). rewrite Hl, Hll.
    unfold short in Hsh. int_bounds. lia.
Qed.

(** [list_destroy] of a list without slices. *)
Lemma destroy_values h ns R :
  sl = 0 → owns h p cb sl ns R → short ns → owns_values R (data ns) →
  returns (destroy destroy_list p h) (λ '(_, h'),
    hp h' = without_blocks (data ns ≫= blocks cb R) R ∧
    hp_freed h' = hp_freed h ++ if cb then data ns ≫= handed R else []).
Proof.
  intros Hsl Hw Hsh Ht. unfold destroy.
  pose proof (is_list_facts h p cb sl ns) as (_&_&_&Hp0&_); [by destruct Hw|]. decide_tests. go.
  eapply returns_mono with (P := λ '(_, h1), h1 = h).
  { apply loopS_returns with (I := λ _ w, w = h) (μ := λ _ _, 0); [|done|done].
    intros [] w -> _. destruct Hw as [[_ (cur&pos&Hp&_) _ _] _ _].
    unfold destroy_slices_body, load_list. go. rewrite Hp. unfold list_of. go. cproj.
    rewrite Hsl. change (0 =? 0) with true. go. done. }
  intros [[] h1] ->. go. eapply returns_mono; [by apply clear_returns|].
  intros [[] h2] [Hw2 Hfr]. unfold free. decide_tests.
  destruct (owns_length _ _ _ _ _ _ Hw2) as (l&Hl&_). rewrite Hl. go. split; [|done].
  simpl. apply map_eq. intros a. rewrite lookup_delete, (owns_lookup _ _ _ _ _ _ _ Hw2).
  simpl. repeat case_decide; subst; try done.
  - exfalso. apply H0. by left.
  - apply list_elem_of_singleton in H0. congruence.
Qed.

(** The values are not tagged. *)
Lemma plain_values R ds :
  Forall (λ d, d.2 = false) ds → ds ≫= blocks cb R = [] ∧ ds ≫= handed R = ds.*1 ∧ owns_values R ds.
Proof.
  intros Hds. assert (ds ≫= blocks cb R = [] ∧ ds ≫= handed R = ds.*1 ∧ Forall (holds_bytes R) ds) as (Hb&Hh&Ht).
  { induction Hds as [|[v b] ds Hd Hds (IH1&IH2&IH3)]; [done|]. simpl in Hd. subst b.
    split; [exact IH1|]. split; [by simpl; f_equal|]. by constructor. }
  split; [done|]. split; [done|]. unfold owns_values. rewrite Hb. split; [constructor|]. split; [|done].
  by intros a ?%not_elem_of_nil.
Qed.
Lemma destroy_returns h ns R :
  sl = 0 → owns h p cb sl ns R → short ns → Forall (λ n, n_tagged n = false) ns →
  returns (destroy destroy_list p h) (λ '(_, h'),
    hp h' = R ∧ hp_freed h' = hp_freed h ++ if cb then n_val <$> ns else []).
Proof.
  intros Hsl Hw Hsh Ht. destruct (plain_values R (data ns)) as (Hb&Hh&Hv); [by apply Forall_fmap|].
  eapply returns_mono; [by apply destroy_values|]. rewrite Hb, Hh, without_blocks_nil. intros [[] h']. unfold data.
  by rewrite <- list_fmap_compose.
Qed.
End clear.

(** ** Looking up tags *)

Section tags.
Context (p : Z) (cb : bool) (sl : Z) (R : gmap Z obj) (tag : cstr).

(** The pointer [v] is a tagged value with tag [tg]. *)
Definition has_tag (v : Z) (tg : cstr) : Prop :=
  v ≠ 0 ∧ ∃ t, R !! v = Some (OTagged t) ∧ R !! tv_tag t = Some (OBytes tg).

(** The first value with the tag, null if there is none. *)
Fixpoint find_tag (vts : list (Z * cstr)) : Z :=
  match vts with
  | [] => 0
  | (v, tg) :: vts => if decide (tg = tag) then v else find_tag vts
  end.

Lemma get_tagged_loop h ds tags i :
  holds p cb sl h ds R → Z.of_nat (length ds) < INT_MAX → Forall2 has_tag ds.*1 tags → 0 ≤ i →
  returns (loopS (get_tagged_body p tag) i h) (λ '(r, h'),
    r = find_tag (drop (Z.to_nat i) (zip ds.*1 tags)) ∧ holds p cb sl h' ds R).
Proof.
  intros Hh Hlen Ht Hi0. pose proof (Forall2_length _ _ _ Ht) as Hlt. rewrite length_fmap in Hlt.
  set (target := find_tag (drop (Z.to_nat i) (zip ds.*1 tags))).
  apply loopS_returns with
    (I := λ i w, holds p cb sl w ds R ∧ 0 ≤ i ∧
            find_tag (drop (Z.to_nat i) (zip ds.*1 tags)) = target)
    (μ := λ i _, INT_MAX - i `min` INT_MAX); [|done|int_bounds; lia].
  intros j w (Hw&Hj&Htg) _. unfold get_tagged_body, list_count. pose proof Hw as (ns&Hown&Hd).
  destruct (owns_length _ _ _ _ _ _ Hown) as (l&Hl&Hll). unfold load_list. go. rewrite Hl. go.
  rewrite Hll. rewrite <- data_length, Hd. rewrite as_int_u32 by (int_bounds; lia). case_if.
  - go. unfold list_pick_tagged_value. eapply returns_mono; [by apply (pick_returns p cb sl w ds R j)|].
    intros [v w1]. intros [-> Hw1]. unfold Sequence.val_at.
    destruct (lookup_lt_is_Some_2 ds (Z.to_nat j)) as [[v b] Hv]; [lia|]. rewrite Hv.
    destruct (lookup_lt_is_Some_2 tags (Z.to_nat j)) as [tg Htgs]; [lia|].
    assert (ds.*1 !! Z.to_nat j = Some v) as Hv1 by (by rewrite list_lookup_fmap, Hv).
    destruct (Forall2_lookup_lr _ _ _ _ _ _ Ht Hv1 Htgs) as [Hv0 (t&HRt&HRs)].
    decide_tests. go. pose proof Hw1 as (ns1&Hown1&_).
    apply (owns_some _ _ _ _ _ _ _ _ Hown1) in HRt as (_&_&_&HRt).
    apply (owns_some _ _ _ _ _ _ _ _ Hown1) in HRs as (_&_&_&HRs).
    unfold load_tagged, tag_is, load_bytes. rewrite HRt. go. rewrite HRs. go.
    assert (zip ds.*1 tags !! Z.to_nat j = Some (v, tg)) as Hz
      by (apply lookup_zip_with_Some; eauto).
    rewrite (drop_S _ _ _ Hz) in Htg. simpl in Htg.
    destruct (decide (tg = tag)) as [->|Hne].
    + rewrite bool_decide_true by done. go. done.
    + rewrite bool_decide_false by done. go. split; [|int_bounds; lia].
      split_and!; [done|lia|]. by replace (Z.to_nat (j + 1)) with (S (Z.to_nat j)) by lia.
  - go. split; [|done]. rewrite <- Htg, drop_ge; [done|].
    rewrite length_zip_with, length_fmap. lia.
Qed.
End tags.

(** ** Properties *)

(** C3 — Any sequence of push, unshift, pop, shift, insert, pick, fetch, set,
    substitute, move, swap and count calls (and their tagged variants) on a
    list that holds the items [ds] has defined behaviour, terminates, returns
    what the same operations return on the sequence [ds], and leaves the list
    holding the resulting sequence, whatever the state of the cursor; the rest
    [R] of the heap is unchanged, so nothing is leaked, freed twice or
    overwritten. *)
Theorem list_refines_sequence p cb sl h ds R os :
  holds p cb sl h ds R → Sequence.run_ok ds os →
  returns (run_lops p os h) (λ '(rs, h'),
    (rs = (Sequence.run ds os).2) ∧ holds p cb sl h' (Sequence.run ds os).1 R).
Proof.
  revert h ds. induction os as [|o os IH]; intros h ds Hh Hok; [by go|].
  destruct Hok as [Ho Hok]. simpl run_lops. go.
  eapply returns_mono; [by apply (run_lop_returns p cb sl h ds R o)|].
  intros [r h1] [-> Hh1]. go. eapply returns_mono; [by apply IH|].
  intros [rs h2] [-> Hh2]. go. simpl. destruct (Sequence.apply ds o) as [ds1 r1]. simpl in *.
  by destruct (Sequence.run ds1 os).
Qed.

(** A list of three entries and an unrelated object. *)
Definition sample_heap : heap :=
  mk_heap (<[1 := OBytes [7]]> (<[2 := OList (mk_list 3 5 4 1 3 false 0)]>
    (<[3 := OEntry (mk_entry 2 0 4 10 false)]> (<[4 := OEntry (mk_entry 2 3 5 20 false)]>
    (<[5 := OEntry (mk_entry 2 4 0 30 false)]> ∅))))) 6 [] [].

Lemma sample_holds :
  holds 2 false 0 sample_heap [(10, false); (20, false); (30, false)] {[1 := OBytes [7]]}.
Proof.
  exists [mk_node 3 10 false 2; mk_node 4 20 false 2; mk_node 5 30 false 2].
  split; [|done]. split; [split| |].
  - split; [done|]. intros a o. unfold sample_heap. simpl.
    rewrite !lookup_insert. repeat case_decide; try (intros _; lia). by rewrite lookup_empty.
  - exists 4, 1. split; [done|]. split; [done|]. right. by exists (mk_node 4 20 false 2).
  - by split_and!.
  - by apply (bool_decide_unpack _).
  - by vm_compute.
  - constructor.
Qed.

Lemma list_refines_sequence_witness :
  returns (run_lops 2 [Sequence.Pick 2; Sequence.Insert 15 1; Sequence.Swap 0 3;
                       Sequence.Fetch 2; Sequence.Pop; Sequence.Count] sample_heap)
    (λ '(rs, h'), rs = [30; 0; 0; 20; 10; 2] ∧
       holds 2 false 0 h' [(30, false); (15, false)] {[1 := OBytes [7]]}).
Proof.
  apply (list_refines_sequence 2 false 0 sample_heap
           [(10, false); (20, false); (30, false)] {[1 := OBytes [7]]}
           [Sequence.Pick 2; Sequence.Insert 15 1; Sequence.Swap 0 3;
            Sequence.Fetch 2; Sequence.Pop; Sequence.Count] sample_holds).
  apply (bool_decide_unpack _). by vm_compute.
Defined.

(** Iterating over a list or a slice of it, with a handler that removes
    nothing, calls the handler on exactly the values of the slice, in order and
    with their indices, up to the first call that returns [0]; the number of
    calls is returned and the list is as before. *)
Theorem list_foreach_visits {U} (f : Z → Z → U → Z * U) p cb sl h ds R (u : U) :
  (∀ v i u, (f v i u).1 ≠ -1 ∧ (f v i u).1 ≠ -2) →
  holds p cb sl h ds R → Z.of_nat (length ds) < INT_MAX →
  returns (list_foreach_value p f u h) (λ '(r, h'),
    r = visit f ds.*1 0 u ∧ holds p cb sl h' ds R) ∧
  ∀ offset n, 0 ≤ offset → 0 ≤ n < 2 ^ 64 →
  returns (foreach f p offset n u h) (λ '((idx, _, u'), h'),
    (idx, u') = visit f (take (Z.to_nat n) (drop (Z.to_nat offset) ds.*1)) 0 u ∧
    holds p cb sl h' ds R).
Proof.
  intros Hf (ns&Hw&<-) Hlen. rewrite data_length in Hlen.
  assert ((data ns).*1 = n_val <$> ns) as Hv by (unfold data; by rewrite <- list_fmap_compose).
  assert (short ns) as Hsh by (unfold short; lia). rewrite Hv. split.
  - unfold list_foreach_value. destruct (owns_length _ _ _ _ _ _ Hw) as (l&Hl&Hll).
    unfold load_list. go. rewrite Hl. go. rewrite Hll.
    eapply returns_mono; [apply (foreach_returns f Hf p cb sl h ns R); try done; int_bounds; lia|].
    intros [[[idx m] u'] h']. intros [Hw' He]. go.
    rewrite drop_0, Nat2Z.id, take_ge in He by (rewrite length_fmap; lia).
    split; [|by exists ns]. rewrite <- He. f_equal.
    pose proof (visit_bound f (n_val <$> ns) 0 u) as Hb. rewrite <- He in Hb. simpl in Hb.
    rewrite length_fmap in Hb. apply as_int_u32. int_bounds. lia.
  - intros offset n Ho Hn. eapply returns_mono; [by apply (foreach_returns f Hf p cb sl h ns R)|].
    intros [[[idx m] u'] h']. intros [Hw' He]. split; [done|]. by exists ns.
Qed.

(** Collect the values until 20 is met. *)
Definition until_20 (v i : Z) (acc : list Z) : Z * list Z := (if v =? 20 then 0 else 1, acc ++ [v]).

Lemma list_foreach_visits_witness :
  returns (list_foreach_value 2 until_20 [] sample_heap) (λ '(r, h'),
    r = (2, [10; 20]) ∧
    holds 2 false 0 h' [(10, false); (20, false); (30, false)] {[1 := OBytes [7]]}) ∧
  ∀ offset n, 0 ≤ offset → 0 ≤ n < 2 ^ 64 →
  returns (foreach until_20 2 offset n [] sample_heap) (λ '((idx, _, u'), h'),
    (idx, u') = visit until_20 (take (Z.to_nat n) (drop (Z.to_nat offset) [10; 20; 30])) 0 [] ∧
    holds 2 false 0 h' [(10, false); (20, false); (30, false)] {[1 := OBytes [7]]}).
Proof.
  apply (list_foreach_visits until_20 2 false 0 sample_heap
    [(10, false); (20, false); (30, false)] {[1 := OBytes [7]]} []).
  - intros v i u. unfold until_20. simpl. destruct (v =? 20); lia.
  - apply sample_holds.
  - done.
Defined.

(** C17 — [list_destroy] on a list without slices, whose tagged values are not
    lists, frees the list and all its entries, and each tagged value with its
    tag and, when no callback is set, the bytes that it owns; nothing else is
    touched.  The callback, if there is one, gets every plain value and what
    every tagged value holds, unless that is null, once and in order. *)
Theorem list_destroy_frees depth p cb h ds R :
  holds p cb 0 h ds R → Z.of_nat (length ds) < INT_MAX → owns_values cb R ds →
  returns (list_destroy (S depth) p h) (λ '(_, h'),
    hp h' = without_blocks (ds ≫= blocks cb R) R ∧
    hp_freed h' = hp_freed h ++ if cb then ds ≫= handed R else []).
Proof.
  intros (ns&Hw&<-) Hlen Ht. rewrite data_length in Hlen.
  by apply (destroy_values (list_destroy depth) p cb 0 h ns R); [..|unfold short; lia|].
Qed.

(** The list at 4 holds the plain value 10 and a tagged value at 2, with the
    tag at 1 and the bytes at 3. *)
Definition mixed_rest : gmap Z obj :=
  <[1 := OBytes [97]]> (<[2 := OTagged (mk_tagged 1 3 1 TV_TYPE_BINARY)]> (<[3 := OBytes [98; 0]]> {[7 := OBytes [7]]})).
Definition mixed_heap : heap :=
  mk_heap (<[4 := OList (mk_list 5 6 0 0 2 true 0)]>
    (<[5 := OEntry (mk_entry 4 0 6 10 false)]> (<[6 := OEntry (mk_entry 4 5 0 2 true)]> mixed_rest))) 8 [] [].
Lemma mixed_holds : holds 4 true 0 mixed_heap [(10, false); (2, true)] mixed_rest.
Proof.
  exists [mk_node 5 10 false 4; mk_node 6 2 true 4].
  split; [|done]. split; [split| |].
  - split; [done|]. intros a o. unfold mixed_heap, mixed_rest. simpl.
    rewrite !lookup_insert. repeat case_decide; try (intros _; lia). rewrite lookup_singleton. case_decide; [lia|done].
  - exists 0, 0. split; [done|]. by apply cursor_none.
  - by split_and!.
  - by apply (bool_decide_unpack _).
  - by vm_compute.
  - constructor.
Qed.

Lemma list_destroy_frees_witness :
  returns (list_destroy 1 4 mixed_heap) (λ '(_, h'),
    hp h' = without_blocks [1; 2] mixed_rest ∧ hp_freed h' = [10; 3]).
Proof.
  apply (list_destroy_frees 0 4 true mixed_heap [(10, false); (2, true)] mixed_rest).
  - apply mixed_holds.
  - done.
  - split; [by apply (bool_decide_unpack _); vm_compute|]. split.
    + intros a Ha. apply (bool_decide_unpack _). change (a ∈ [1; 2]) in Ha.
      apply elem_of_cons in Ha as [->|[->|[]%elem_of_nil]%elem_of_cons]; by vm_compute.
    + repeat constructor; [done|]. intros _ _. by eexists.
Defined.

(** [list_get_tagged_value] on a list of tagged values returns the first
    one with the tag, or null, and leaves the list alone. *)
Theorem list_get_tagged_value_first p cb sl h ds R tags tag :
  holds p cb sl h ds R → Z.of_nat (length ds) < INT_MAX → Forall2 (has_tag R) ds.*1 tags →
  returns (list_get_tagged_value p tag h) (λ '(r, h'),
    r = find_tag tag (zip ds.*1 tags) ∧ holds p cb sl h' ds R).
Proof.
  intros Hh Hlen Ht. pose proof (get_tagged_loop p cb sl R tag h ds tags 0 Hh Hlen Ht) as Hl.
  rewrite drop_0 in Hl. apply Hl. lia.
Qed.

(** A list of two tagged values. *)
Definition tagged_heap : heap :=
  mk_heap (<[1 := OBytes [97]]> (<[2 := OTagged (mk_tagged 1 70 0 TV_TYPE_STRING)]>
    (<[3 := OBytes [98]]> (<[4 := OTagged (mk_tagged 3 80 0 TV_TYPE_STRING)]>
    (<[5 := OList (mk_list 6 7 0 0 2 false 0)]>
    (<[6 := OEntry (mk_entry 5 0 7 2 true)]> (<[7 := OEntry (mk_entry 5 6 0 4 true)]> ∅)))))))
    8 [] [].
Definition tagged_rest : gmap Z obj :=
  <[1 := OBytes [97]]> (<[2 := OTagged (mk_tagged 1 70 0 TV_TYPE_STRING)]>
    (<[3 := OBytes [98]]> (<[4 := OTagged (mk_tagged 3 80 0 TV_TYPE_STRING)]> ∅))).

Lemma tagged_holds : holds 5 false 0 tagged_heap [(2, true); (4, true)] tagged_rest.
Proof.
  exists [mk_node 6 2 true 5; mk_node 7 4 true 5].
  split; [|done]. split; [split| |].
  - split; [done|]. intros a o. unfold tagged_heap. simpl.
    rewrite !lookup_insert. repeat case_decide; try (intros _; lia). by rewrite lookup_empty.
  - exists 0, 0. split; [done|]. by apply cursor_none.
  - by split_and!.
  - by apply (bool_decide_unpack _).
  - by vm_compute.
  - constructor.
Qed.

Lemma list_get_tagged_value_first_witness :
  returns (list_get_tagged_value 5 [98] tagged_heap) (λ '(r, h'),
    r = 4 ∧ holds 5 false 0 h' [(2, true); (4, true)] tagged_rest).
Proof.
  apply (list_get_tagged_value_first 5 false 0 tagged_heap [(2, true); (4, true)] tagged_rest
    [[97]; [98]] [98]).
  - apply tagged_holds.
  - done.
  - constructor; [split; [done|by eexists]|]. constructor; [split; [done|by eexists]|]. constructor.
Defined.

(** A heap with nothing in it, and a list made by pushing values. *)
Definition no_heap : heap := mk_heap ∅ 1 [] [].
Fixpoint push_all (list : Z) (vs : cstr) : M unit :=
  match vs with [] => mret tt | v :: vs => _ ← list_push_value list v; push_all list vs end.

(** A handler that asks to remove every item ([-1]) is not called on every
    item: the index goes up and the length of the slice down with each removal,
    so the iteration stops half way and half of the items stay. *)
Theorem list_foreach_remove_half :
  match (l ← list_create; _ ← push_all l [1; 2; 3; 4];
         '(n, seen) ← list_foreach_value l (λ v _ acc, (-1, acc ++ [v])) [];
         c ← list_count l; mret (n, seen, c)) no_heap with
  | Ret ((n, seen, c), _) => n = 2 ∧ seen = [1; 2] ∧ c = 2
  | _ => False
  end.
Proof. vm_compute. done. Qed.

(** [list_set_tagged_value] for a tag that is not in the list pushes the
    new tagged value and then destroys it, because the push returned [0]: the
    list keeps a pointer to freed memory, and looking up the tag reads it. *)
Theorem list_set_tagged_value_dangling :
  match (l ← list_create;
         _ ← list_set_tagged_value 1 l [97] (Copy (Some [98]) 1);
         v ← list_pick_value l 0; mret (l, v)) no_heap with
  | Ret ((l, v), h) =>
      v ≠ 0 ∧ hp h !! v = None ∧ list_get_tagged_value l [97] h = Undef
  | _ => False
  end.
Proof. vm_compute. done. Qed.

(** Destroying the last of two slices dereferences the null [next] pointer
    of its entry; destroying them in the order of creation works. *)
Theorem slice_destroy_last_null :
  (l ← list_create; _ ← push_all l [1; 2; 3];
   s1 ← slice_create l 0 1; s2 ← slice_create l 1 1; slice_destroy s2) no_heap = Undef ∧
  match (l ← list_create; _ ← push_all l [1; 2; 3];
         s1 ← slice_create l 0 1; s2 ← slice_create l 1 1;
         _ ← slice_destroy s1; _ ← slice_destroy s2; list_destroy 1 l) no_heap with
  | Ret (_, h) => hp h = ∅
  | _ => False
  end.
Proof. vm_compute. done. Qed.

(** Swapping with a position past the end takes nothing out and links the
    null pointer in: the entry before it is cut off and null is dereferenced. *)
Theorem list_swap_out_of_range_null :
  (l ← list_create; _ ← push_all l [1; 2; 3]; list_swap_values l 1 10) no_heap = Undef.
Proof. vm_compute. done. Qed.

(** An entry inserted in the middle of a list does not get its back pointer
    to the list; when it is the pivot, [list_sort] follows the null pointer. *)
Theorem list_sort_inserted_pivot_null :
  (l ← list_create; _ ← push_all l [5; 3; 6]; _ ← list_insert_value l 4 1;
   list_sort (λ a b, a - b) l) no_heap = Undef.
Proof. vm_compute. done. Qed.

(** The values of a list, taken out from the front. *)
Fixpoint shift_all (list : Z) (n : nat) : M cstr :=
  match n with
  | O => mret []
  | S n => v ← list_shift_value list; vs ← shift_all list n; mret (v :: vs)
  end.

(** A list of [vs] after sorting. *)
Definition sort_pushed (vs : cstr) : option cstr :=
  match (l ← list_create; _ ← push_all l vs; _ ← list_sort (λ a b, a - b) l;
         shift_all l (length vs)) no_heap with
  | Ret (r, _) => Some r
  | _ => None
  end.

(** [list_sort] puts the values of a pushed list in descending order of the
    comparator: checked for every order of four values, and with repeated ones. *)
Theorem list_sort_four :
  sort_pushed <$> permutations [1; 2; 3; 4] = replicate 24 (Some [4; 3; 2; 1]) ∧
  sort_pushed <$> permutations [1; 2; 1; 2] = replicate 24 (Some [2; 2; 1; 1]).
Proof. vm_compute. done. Qed.
