(* ===== verification/LinklistRemove.v ===== *)
(** * A callback that removes an item and stops

    [list_foreach_value] of src/src/linklist.c with a callback that asks for
    the removal of one item and the end of the traversal. *)

From S2P Require Import Prelude Linklist.

(** The traversal leaves the cursor at the first entry. *)
Definition foreach_cursor (xs : list node) : Z := if decide (xs = []) then 0 else first xs 0.

Section unlink.
Context (h : heap) (p : Z) (cb : bool) (sl : Z) (xs : list node) (x : node) (ys : list node).
Context (R : gmap Z obj).
Context (Hw : owns h p cb sl (xs ++ x :: ys) R).
Context (Hp : hp h !! p = Some (list_of (xs ++ x :: ys) (first xs (n_loc x)) 0 cb sl)).
Context (Hlen : Z.of_nat (length (xs ++ x :: ys)) ≤ INT_MAX).

(** The entry is out of the list and still linked to its neighbours; once it
    is freed, nothing of it is left. *)
Lemma unlinked_owns m' e' :
  wf_heap (with_hp h m') →
  m' !! n_loc x = Some e' →
  m' !! p = Some (list_of (xs ++ ys) (foreach_cursor xs) 0 cb sl) →
  (xs ≠ [] → ∀ e, hp h !! lastl xs 0 = Some (OEntry e) →
     m' !! lastl xs 0 = Some (OEntry (with_next (first ys 0) e))) →
  (ys ≠ [] → ∀ e, hp h !! first ys 0 = Some (OEntry e) →
     m' !! first ys 0 = Some (OEntry (with_prev (lastl xs 0) e))) →
  (∀ a, a ≠ p → a ≠ n_loc x → a ≠ lastl xs 0 → a ≠ first ys 0 → m' !! a = hp h !! a) →
  owns (with_hp h (delete (n_loc x) m')) p cb sl (xs ++ ys) R.
Proof using Hw Hp Hlen.
  intros Hwf Hx Hp' Hl Hr Hf. pose proof Hw as [Hil _ _].
  destruct (is_list_middle _ _ _ _ _ _ _ Hil) as (_&Hx0&Hxp&Hxl&Hxr&_).
  set (m2 := <[n_loc x := blank x]> m').
  assert (wf_heap (with_hp h m2)) as Hwf2.
  { destruct Hwf as [H1 H2]. split; [done|]. simpl. intros a o. unfold m2. rewrite lookup_insert.
    case_decide; [subst; intros _; by eapply H2|apply H2]. }
  assert (detached h p cb sl xs x ys (with_hp h m2)) as Hd.
  { eapply (detached_intro h m2 p cb sl xs x ys (foreach_cursor xs) 0); try done; unfold m2.
    - by rewrite lookup_insert_ne by done.
    - unfold foreach_cursor, cursor. case_decide as Hxs; [split; [done|by left]|].
      split; [done|]. right. destruct xs as [|y xs']; [done|]. by exists y.
    - by rewrite lookup_insert_eq.
    - intros Hxs e He. rewrite lookup_insert_ne by done. by apply Hl.
    - intros Hys e He. rewrite lookup_insert_ne by done. by apply Hr.
    - intros a ????. rewrite lookup_insert_ne by done. by apply Hf. }
  destruct (owns_detached _ _ _ _ _ _ _ _ _ Hw Hd) as [Hw2 HR].
  pose proof (free_owns p cb sl (with_hp h m2) (xs ++ ys) _ (n_loc x) _ Hw2 (lookup_insert_eq _ _ _)) as Hfr.
  unfold free in Hfr. rewrite (proj2 (Z.eqb_neq _ 0)) in Hfr by done. simpl in Hfr.
  unfold m2 in Hfr at 1. rewrite lookup_insert_eq in Hfr. simpl in Hfr.
  destruct Hfr as [Hfr _]. rewrite delete_insert_id in Hfr by done.
  unfold upd_hp in Hfr. simpl in Hfr. unfold m2 in Hfr. rewrite delete_insert_eq in Hfr.
  exact Hfr.
Qed.
End unlink.

(** The last step: the entry is freed. *)
Lemma free_last h p cb sl ns R a m' o (Q : unit * heap → Prop) :
  a ≠ 0 → m' !! a = Some o → owns (with_hp h (delete a m')) p cb sl ns R →
  (∀ h', owns h' p cb sl ns R → Q (tt, h')) → returns (free a (with_hp h m')) Q.
Proof.
  intros Ha Ho Hw HQ. unfold free. rewrite (proj2 (Z.eqb_neq a 0)) by done. simpl. rewrite Ho.
  by apply HQ.
Qed.

Lemma foreach_removes {U} (f : Z → Z → U → Z * U) h p cb sl xs x ys R idx n u u' :
  owns h p cb sl (xs ++ x :: ys) R →
  hp h !! p = Some (list_of (xs ++ x :: ys) (first xs (n_loc x)) 0 cb sl) →
  Z.of_nat (length (xs ++ x :: ys)) ≤ INT_MAX →
  f (n_val x) idx u = (-2, u') → 0 ≤ idx < n → n < 2 ^ 32 →
  returns (foreach_body f p (n_loc x, idx, n, u) h) (λ '(r, h'),
    r = inr (idx + 1, n - 1, u') ∧ owns h' p cb sl (xs ++ ys) R).
Proof.
  intros Hw Hp Hlen Hfx Hi Hn. pose proof Hw as [Hil _ _].
  destruct (is_list_middle _ _ _ _ _ _ _ Hil) as
    (Hx&Hx0&Hxp&Hxl&Hxr&Hlp&Hrp&Hl&Hr&Hln&Hrn&Hlr).
  pose proof (is_list_facts _ _ _ _ _ Hil) as (H0&_&_&Hp0&_). pose proof Hil as [Hwf _ _ _].
  pose proof (unlinked_owns h p cb sl xs x ys R Hw Hp Hlen) as Huo. unfold list_of in Hp. rewrite first_app, lastl_app in Hp.
  cbn [first lastl] in Hp. unfold entry_of in Hx.
  unfold foreach_body. rewrite (proj2 (Z.eqb_neq _ 0)), (proj2 (Z.ltb_lt _ _)) by (done || lia).
  cbn [negb andb]. rewrite <- (with_hp_id h). heap_go. rewrite Hfx.
  rewrite !u64_small by lia. change (-2 =? 0) with false. change (-2 =? -1) with false.
  change (-2 =? -2) with true. go. unfold foreach_unlink.
  assert (NoDup (locs (xs ++ x :: ys))) as Hnd by by destruct Hil.
  rewrite fmap_app, fmap_cons in Hnd. apply NoDup_app in Hnd as (_&Hd1&[Hd2 _]%NoDup_cons).
  assert (xs ≠ [] → first xs (n_loc x) ≠ n_loc x) as Hhd.
  { intros Hne E. apply (Hd1 (n_loc x)); [|by left]. rewrite <- E. destruct xs; [done|by left]. }
  assert (ys ≠ [] → lastl ys (n_loc x) ≠ n_loc x) as Htl.
  { intros Hne E. apply Hd2. rewrite <- E. by apply lastl_in. }
  assert (ys ≠ [] → lastl ys (n_loc x) = lastl ys 0) as Htl0 by (by destruct ys).
  assert (xs ≠ [] → first xs (n_loc x) = first xs 0) as Hhd0 by (by destruct xs).
  heap_go.
  destruct (decide (xs = [])) as [Exs|Hxs]; destruct (decide (ys = [])) as [Eys|Hys].
  - subst xs ys. simpl first. simpl lastl. decide_tests. cbn [andb]. heap_go.
    decide_tests. heap_go. unfold destroy_entry. decide_tests. heap_go. decide_tests. go.
    eapply free_last; [done|by known| |intros h' Hw'; go; by split].
    apply (Huo _ (OEntry (mk_entry 0 0 0 (n_val x) (n_tagged x)))); try done.
    + by repeat apply wf_alter; rewrite with_hp_id.
    + by known.
    + known. rewrite u64_small by (simpl in *; lia). done.
    + intros a ????. by lookups.
  - subst xs. specialize (Hrn Hys). destruct (Hr Hrn) as [er Her]. specialize (Htl Hys).
    assert (n_loc x ≠ lastl ys (n_loc x)) by congruence.
    cbn [first lastl] in *. decide_tests. cbn [andb]. heap_go. decide_tests. heap_go.
    decide_tests. heap_go. unfold destroy_entry. decide_tests. heap_go. decide_tests. go.
    eapply free_last; [done|by known| |intros h' Hw'; go; by split].
    eapply Huo; try done.
    + by repeat apply wf_alter; rewrite with_hp_id.
    + by known.
    + known. rewrite u64_small by (int_bounds; simpl in *; lia). unfold list_of. simpl. rewrite (Htl0 Hys).
      do 2 f_equal. f_equal; [lia].
    + intros _ e He. by known.
    + intros a ????. by lookups.
  - subst ys. specialize (Hln Hxs). destruct (Hl Hln) as [el Hel]. specialize (Hhd Hxs).
    assert (n_loc x ≠ first xs (n_loc x)) by congruence. cbn [first lastl] in *.
    decide_tests. cbn [andb]. heap_go. decide_tests. heap_go. decide_tests. heap_go.
    unfold destroy_entry. decide_tests. heap_go. decide_tests. go.
    eapply free_last; [done|by known| |intros h' Hw'; go; by split].
    rewrite app_nil_r in *. eapply Huo; try done.
    + by repeat apply wf_alter; rewrite with_hp_id.
    + by known.
    + known. rewrite length_app in *. rewrite u64_small by (int_bounds; simpl in *; lia).
      unfold list_of, foreach_cursor. rewrite decide_False, (Hhd0 Hxs) by done. simpl.
      do 2 f_equal. f_equal; lia.
    + intros _ e He. by known.
    + intros a ????. by lookups.
  - specialize (Hln Hxs). destruct (Hl Hln) as [el Hel]. specialize (Hhd Hxs).
    specialize (Hrn Hys). destruct (Hr Hrn) as [er Her]. specialize (Htl Hys).
    assert (n_loc x ≠ first xs (n_loc x)) by congruence.
    assert (n_loc x ≠ lastl ys (n_loc x)) by congruence.
    assert (lastl xs 0 ≠ first ys 0) by (intros Heq; by apply Hlr in Heq as [? _]).
    assert ((first xs (n_loc x) =? lastl ys (n_loc x)) && (lastl ys (n_loc x) =? n_loc x) = false)
      as Htest by (apply andb_false_iff; right; by apply Z.eqb_neq).
    rewrite Htest. decide_tests. heap_go. decide_tests. heap_go. decide_tests. heap_go.
    unfold destroy_entry. decide_tests. heap_go. decide_tests. go.
    eapply free_last; [done|by known| |intros h' Hw'; go; by split].
    eapply Huo; try done.
    + by repeat apply wf_alter; rewrite with_hp_id.
    + by known.
    + known. rewrite length_app in *. rewrite u64_small by (int_bounds; simpl in *; lia).
      unfold list_of, foreach_cursor. rewrite decide_False, (Hhd0 Hxs) by done. simpl.
      do 2 f_equal. rewrite first_app, lastl_app, length_app. rewrite (Htl0 Hys).
      destruct xs; [done|]. destruct ys; [done|]. simpl. f_equal. lia.
    + intros _ e He. by known.
    + intros _ e He. by known.
    + intros a ????. by lookups.
Qed.

(** ** The traversal *)

Lemma foreach_remove_one {U} (f : Z → Z → U → Z * U) p cb sl h vs v tg ws R (u u' : U) :
  holds p cb sl h (vs ++ (v, tg) :: ws) R → Z.of_nat (length (vs ++ (v, tg) :: ws)) < INT_MAX →
  (∀ i w, w ∈ vs.*1 → f w i u = (1, u)) → (∀ i, f v i u = (-2, u')) →
  returns (list_foreach_value p f u h) (λ '((r, u2), h'),
    r = Z.of_nat (length vs) + 1 ∧ u2 = u' ∧ holds p cb sl h' (vs ++ ws) R).
Proof.
  intros (ns&Hw&Hd) Hlen Hvs Hv. unfold data in Hd.
  apply fmap_app_inv in Hd as (xs&ns'&->&Hd&->). symmetry in Hd.
  apply fmap_cons_inv in Hd as (x&ys&[= -> ->]&->&->).
  rewrite length_app, length_cons, !length_fmap in Hlen.
  assert (short (xs ++ x :: ys)) as Hsh by (unfold short; rewrite length_app; simpl; lia).
  unfold list_foreach_value, foreach. pose proof Hw as [[_ (cur&pos&Hp&_) _ _] _ _].
  unfold load_list. go. rewrite Hp. unfold list_of. go. cproj.
  set (len := Z.of_nat (length (xs ++ x :: ys))).
  assert (∃ y, (xs ++ x :: ys) !! 0%nat = Some y) as [y Hy] by (destruct xs; by eexists).
  eapply returns_mono; [apply (pick_entry_returns h p cb sl (xs ++ x :: ys) 0 y); [by destruct Hw|done|done|done]|].
  intros [e h1] [-> [Hil1 Hp1 Hfr1]]. go.
  assert (owns h1 p cb sl (xs ++ x :: ys) R) as Hw1.
  { eapply owns_frame; [exact Hw|exact Hil1|]. eapply frame_mono; [exact Hfr1|].
    intros a Ha. apply list_elem_of_singleton in Ha as ->. by left. }
  assert (n_loc y = first xs (n_loc x)) as Hye.
  { destruct xs; simpl in Hy; by simplify_eq. }
  rewrite Hye in *. clear y Hy Hye.
  apply loopS_returns with
    (I := λ '(e, i, m, u1) w, w = h1 ∧ m = len ∧ u1 = u ∧ ∃ xs1 xs2, xs = xs1 ++ xs2 ∧
       e = first xs2 (n_loc x) ∧ i = Z.of_nat (length xs1))
    (μ := λ '(e, i, m, u1) _, Z.of_nat (length xs) - i).
  2:{ split_and!; try done. exists [], xs. done. }
  2:{ int_bounds. lia. }
  intros [[[e i] m] u1] w (->&->&->&xs1&xs2&->&->&->) _.
  assert (len = Z.of_nat (length xs1 + length xs2 + S (length ys))) as Hl.
  { unfold len. rewrite !length_app. simpl. lia. }
  rewrite length_app in Hlen. destruct xs2 as [|y xs2].
  - cbn [first]. rewrite app_nil_r in *. simpl in Hl, Hlen.
    eapply returns_mono; [eapply (foreach_removes f h1 p cb sl xs1 x ys R _ len u u'); try done|].
    + lia.
    + int_bounds. lia.
    + intros [r h2] [-> Hw2]. go. rewrite u32_small, as_int_small by (int_bounds; lia).
      split_and!; [by rewrite length_fmap|done|]. exists (xs1 ++ ys). split; [done|]. by rewrite data_app.
  - simpl first. simpl in Hl, Hlen. rewrite <- app_assoc in Hw1. simpl in Hw1.
    destruct (is_list_middle h1 p cb sl xs1 y (xs2 ++ x :: ys)) as (Hy&Hy0&_); [by destruct Hw1|].
    unfold foreach_body. rewrite (proj2 (Z.eqb_neq _ 0)), (proj2 (Z.ltb_lt _ _)) by (done || lia).
    cbn [negb andb]. unfold load_entry. go. rewrite Hy. unfold entry_of. go. cproj.
    rewrite Hvs.
    2:{ rewrite <- list_fmap_compose. apply list_elem_of_fmap. exists y. split; [done|].
        apply elem_of_app. right. by left. }
    change (1 =? 0) with false. change (1 =? -1) with false. change (1 =? -2) with false. cbn [orb]. go.
    rewrite u64_small by (int_bounds; lia). split; [|rewrite length_app; simpl; lia].
    split_and!; try done. exists (xs1 ++ [y]), xs2. split_and!.
    + by rewrite <- app_assoc.
    + by rewrite first_app.
    + rewrite length_app. simpl. lia.
Qed.
