(* ===== verification/Hashtable.v ===== *)
(** * Hash table (src/src/hashtable.c, src/src/hashtable.h)

    Open hashing: [items] is an array of pointers to bucket lists, each bucket
    list is a TAILQ of items and carries its index in the array and a spin
    lock, and the bucket lists that exist are chained in the iterator list.
    The bucket lists are objects of a store, referred to both by the array
    and by the iterator list; a TAILQ is a list and an item lives in the TAILQ
    that holds it, with its key (in [kbuf] or in a block of its own).  Values
    are pointers; the byte blocks they may point to, the lists the table
    hands out and the allocator are those of the linked-list component.

    This file is the code as one thread runs it.  Locks are part of the
    state: taking a lock that is held, or waiting for a table status nobody
    will set, diverges; releasing a lock that is not held is undefined.
    The status word shared by several threads is in HtStatus. *)

From S2P Require Import Prelude Linklist.

(** ** Data *)

Record ht_item_t := mk_item {
  it_hash : Z; it_key : list Z; it_data : Z; it_dlen : Z
}.

Record ht_items_list_t := mk_ilist {
  ils_head : list ht_item_t; ils_lock : bool; ils_index : Z
}.

Definition HT_STATUS_CLEAR : Z := 0.
Definition HT_STATUS_WRITE : Z := 1.
Definition HT_STATUS_GROW : Z := 2.
Definition HT_STATUS_IDLE : Z := 3.
Definition HT_STATUS_READ : Z := 4.

Definition HT_SIZE_MIN : Z := 128.

(** [items] is the array of pointers to bucket lists (null where there is
    none), [iterator_list] the TAILQ of those that exist. *)
Record hashtable_t := mk_table {
  t_size : Z; t_max_size : Z; t_count : Z; t_status : Z; t_seed : Z;
  t_items : list Z;
  t_free_item_cb : bool;      (* is a callback set? *)
  t_iterator_list : list Z;
  t_iterator_lock : bool
}.

Record hashtable_key_t := mk_key { k_data : Z; k_len : Z; k_vlen : Z }.

(** [v->key] points to the item's own key: its bytes. *)
Record hashtable_value_t := mk_value {
  v_key : list Z; v_klen : Z; v_data : Z; v_len : Z
}.

Inductive hobj :=
  | OItems (l : ht_items_list_t)
  | OKey (k : hashtable_key_t)
  | OValue (v : hashtable_value_t).

(** [w_table] is the table the calls are made on, if it is allocated;
    [w_objs] holds the objects of this component, [w_heap] the linked lists
    and byte blocks (addresses of both come from the same allocator), and
    [w_freed] the values the table's [free_item_cb] was called with. *)
Record world := mk_world {
  w_table : option hashtable_t; w_objs : gmap Z hobj; w_heap : heap; w_freed : list Z
}.

Abbreviation H := (ST world).
Abbreviation tailq := (list ht_item_t).
Abbreviation ptrs := (list Z).

(** ** Access to the state *)

Definition load_table : H hashtable_t := λ w,
  match w_table w with Some t => Ret (t, w) | None => Undef end.
Definition set_table (f : hashtable_t → hashtable_t) : H unit := λ w,
  match w_table w with
  | Some t => Ret (tt, mk_world (Some (f t)) (w_objs w) (w_heap w) (w_freed w))
  | None => Undef
  end.

Definition with_size (v : Z) (t : hashtable_t) :=
  mk_table v (t_max_size t) (t_count t) (t_status t) (t_seed t) (t_items t)
    (t_free_item_cb t) (t_iterator_list t) (t_iterator_lock t).
Definition with_count (v : Z) (t : hashtable_t) :=
  mk_table (t_size t) (t_max_size t) v (t_status t) (t_seed t) (t_items t)
    (t_free_item_cb t) (t_iterator_list t) (t_iterator_lock t).
Definition with_status (v : Z) (t : hashtable_t) :=
  mk_table (t_size t) (t_max_size t) (t_count t) v (t_seed t) (t_items t)
    (t_free_item_cb t) (t_iterator_list t) (t_iterator_lock t).
Definition with_items (v : list Z) (t : hashtable_t) :=
  mk_table (t_size t) (t_max_size t) (t_count t) (t_status t) (t_seed t) v
    (t_free_item_cb t) (t_iterator_list t) (t_iterator_lock t).
Definition with_free_item_cb (v : bool) (t : hashtable_t) :=
  mk_table (t_size t) (t_max_size t) (t_count t) (t_status t) (t_seed t) (t_items t)
    v (t_iterator_list t) (t_iterator_lock t).
Definition with_iterator_list (v : list Z) (t : hashtable_t) :=
  mk_table (t_size t) (t_max_size t) (t_count t) (t_status t) (t_seed t) (t_items t)
    (t_free_item_cb t) v (t_iterator_lock t).
Definition with_iterator_lock (v : bool) (t : hashtable_t) :=
  mk_table (t_size t) (t_max_size t) (t_count t) (t_status t) (t_seed t) (t_items t)
    (t_free_item_cb t) (t_iterator_list t) v.

(** Code of the linked-list component, run on its part of the state. *)
Definition on_heap {A} (m : ST heap A) : H A := λ w,
  '(a, h) ← m (w_heap w);
  Ret (a, mk_world (w_table w) (w_objs w) h (w_freed w)).

(** An allocation whose address is not modelled (the table, its array, an
    item): only whether it succeeds. *)
Definition alloc_ans : H bool := λ w,
  let h := w_heap w in
  match hp_alloc h with
  | [] => Ret (true, w)
  | b :: a => Ret (b, mk_world (w_table w) (w_objs w)
                (mk_heap (hp h) (hp_next h) a (hp_freed h)) (w_freed w))
  end.

(** [calloc(n, sizeof(void * ))]: fails when the size in bytes overflows. *)
Definition calloc_array (n : Z) : H bool :=
  ok ← alloc_ans; mret (ok && (8 * n <? 2 ^ 63)).

Definition upd_objs (f : gmap Z hobj → gmap Z hobj) (w : world) : world :=
  mk_world (w_table w) (f (w_objs w)) (w_heap w) (w_freed w).

(** [malloc] of an object of this component: its address or null. *)
Definition new_obj (o : hobj) : H Z := λ w,
  let h := w_heap w in
  match hp_alloc h with
  | false :: a =>
      Ret (0, mk_world (w_table w) (w_objs w)
                (mk_heap (hp h) (hp_next h) a (hp_freed h)) (w_freed w))
  | a =>
      Ret (hp_next h, mk_world (w_table w) (<[hp_next h := o]> (w_objs w))
                (mk_heap (hp h) (hp_next h + 1) (tail a) (hp_freed h)) (w_freed w))
  end.

Definition free_obj (p : Z) : H unit := λ w,
  match w_objs w !! p with
  | Some _ => Ret (tt, upd_objs (delete p) w)
  | None => Undef
  end.

Definition load_items (p : Z) : H ht_items_list_t := λ w,
  match w_objs w !! p with Some (OItems l) => Ret (l, w) | _ => Undef end.
Definition store_items (p : Z) (l : ht_items_list_t) : H unit :=
  modify (upd_objs <[p := OItems l]>).

(** [list->head], [list->lock] and [list->index] of a bucket list. *)
Definition set_head (p : Z) (f : list ht_item_t → list ht_item_t) : H unit :=
  l ← load_items p; store_items p (mk_ilist (f (ils_head l)) (ils_lock l) (ils_index l)).
Definition set_lock (p : Z) (b : bool) : H unit :=
  l ← load_items p; store_items p (mk_ilist (ils_head l) b (ils_index l)).
Definition set_index (p : Z) (i : Z) : H unit :=
  l ← load_items p; store_items p (mk_ilist (ils_head l) (ils_lock l) i).

(** [table->items[index]]. *)
Definition get_slot (index : Z) : H Z :=
  t ← load_table;
  match t_items t !! Z.to_nat index with
  | Some p => if 0 <=? index then mret p else undef
  | None => undef
  end.
Definition set_slot (index p : Z) : H unit :=
  _ ← get_slot index;
  set_table (λ t, with_items (<[Z.to_nat index := p]> (t_items t)) t).

(** The user's [free_item_cb], if it is set. *)
Definition call_free_item_cb (data : Z) : H unit :=
  t ← load_table;
  if t_free_item_cb t
  then modify (λ w, mk_world (w_table w) (w_objs w) (w_heap w) (w_freed w ++ [data]))
  else mret tt.

(** ** Atomics and locks *)

Definition deadlock {A} : H A := λ _, Diverge.

(** [ATOMIC_CAS] and [ATOMIC_CAS_RETURN] on [table->status]. *)
Definition ATOMIC_CAS_RETURN (o n : Z) : H Z :=
  t ← load_table;
  _ ← (if t_status t =? o then set_table (with_status n) else mret tt);
  mret (t_status t).
Definition ATOMIC_CAS (o n : Z) : H bool :=
  v ← ATOMIC_CAS_RETURN o n; mret (v =? o).

Definition ATOMIC_INCREMENT_count : H unit :=
  set_table (λ t, with_count (u64 (t_count t + 1)) t).
Definition ATOMIC_DECREMENT_count : H unit :=
  set_table (λ t, with_count (u64 (t_count t - 1)) t).

Definition SPIN_LOCK (p : Z) : H unit :=
  l ← load_items p; if ils_lock l then deadlock else set_lock p true.
Definition SPIN_UNLOCK (p : Z) : H unit :=
  l ← load_items p; if ils_lock l then set_lock p false else undef.
Definition MUTEX_LOCK : H unit :=
  t ← load_table; if t_iterator_lock t then deadlock else set_table (with_iterator_lock true).
Definition MUTEX_UNLOCK : H unit :=
  t ← load_table; if t_iterator_lock t then set_table (with_iterator_lock false) else undef.

(** [while (!ATOMIC_CAS(table->status, o, n)) sched_yield();] *)
Definition spin_body (o n : Z) (_ : unit) : H (unit + unit) :=
  b ← ATOMIC_CAS o n; mret (if b : bool then inr tt else inl tt).
Definition spin_status (o n : Z) : H unit := loopS (spin_body o n) tt.

(** ** Hash function *)

Definition hash_step (hash c : Z) : Z :=
  let hash := u32 (hash + c) in
  let hash := u32 (hash + u32 (Z.shiftl hash 10)) in
  Z.lxor hash (Z.shiftr hash 6).

Definition ht_hash_one_at_a_time (seed : Z) (str : list Z) : Z :=
  let hash := u32 (seed + Z.of_nat (length str)) in
  let hash := fold_left hash_step str hash in
  let hash := u32 (hash + u32 (Z.shiftl hash 3)) in
  let hash := Z.lxor hash (Z.shiftr hash 11) in
  u32 (hash + u32 (Z.shiftl hash 15)).

(** ** Creation *)

Definition ht_set_free_item_callback (cb : bool) : H unit := set_table (with_free_item_cb cb).

(** [rnd] is what [random()] answers. *)
Definition ht_init (initial_size max_size : Z) (cb : bool) (rnd : Z) : H Z :=
  let size := if HT_SIZE_MIN <? initial_size then initial_size else HT_SIZE_MIN in
  _ ← set_table (λ t,
        mk_table size max_size (t_count t) (t_status t) (t_seed t) (t_items t)
          (t_free_item_cb t) (t_iterator_list t) (t_iterator_lock t));
  ok ← calloc_array size;
  if negb ok then mret (-1) else
  _ ← set_table (with_items (replicate (Z.to_nat size) 0));
  _ ← set_table (with_status HT_STATUS_IDLE);
  _ ← ht_set_free_item_callback cb;
  _ ← set_table (λ t,
        mk_table (t_size t) (t_max_size t) (t_count t) (t_status t) (rnd mod UINT_MAX)
          (t_items t) (t_free_item_cb t) (t_iterator_list t) (t_iterator_lock t));
  ok ← alloc_ans;
  if negb ok then mret (-1) else
  _ ← set_table (with_iterator_list []);
  _ ← set_table (with_iterator_lock false);
  mret 0.

(** A table fresh from [calloc], and the release of the table. *)
Definition new_table : H unit := λ w,
  Ret (tt, mk_world (Some (mk_table 0 0 0 0 0 [] false [] false))
             (w_objs w) (w_heap w) (w_freed w)).
Definition free_table : H unit := λ w,
  match w_table w with
  | Some _ => Ret (tt, mk_world None (w_objs w) (w_heap w) (w_freed w))
  | None => Undef
  end.

(** Is the returned pointer not null?  The table is then [w_table]. *)
Definition ht_create (initial_size max_size : Z) (cb : bool) (rnd : Z) : H bool :=
  ok ← alloc_ans;
  if negb ok then mret false else
  _ ← new_table;
  r ← ht_init initial_size max_size cb rnd;
  if negb (r =? 0) then _ ← free_table; mret false else mret true.

(** ** Release *)

(** [TAILQ_REMOVE(&table->iterator_list->head, list, iterator_next)]. *)
Definition iterator_remove (list : Z) : H unit :=
  set_table (λ t, with_iterator_list (filter (λ p, p ≠ list) (t_iterator_list t)) t).

Fixpoint clear_items (list : Z) (items : tailq) : H unit :=
  match items with
  | [] => mret tt
  | item :: rest =>
      _ ← set_head list (λ _, rest);
      _ ← call_free_item_cb (it_data item);
      _ ← ATOMIC_DECREMENT_count;
      clear_items list rest
  end.

Fixpoint clear_lists (lists : ptrs) : H unit :=
  match lists with
  | [] => mret tt
  | list :: rest =>
      _ ← SPIN_LOCK list;
      l ← load_items list;
      _ ← clear_items list (ils_head l);
      _ ← set_slot (ils_index l) 0;
      _ ← iterator_remove list;
      _ ← SPIN_UNLOCK list;
      _ ← free_obj list;
      clear_lists rest
  end.

Definition ht_clear : H unit :=
  _ ← spin_status HT_STATUS_IDLE HT_STATUS_CLEAR;
  _ ← MUTEX_LOCK;
  t ← load_table;
  _ ← clear_lists (t_iterator_list t);
  _ ← MUTEX_UNLOCK;
  _ ← ATOMIC_CAS HT_STATUS_CLEAR HT_STATUS_IDLE;
  mret tt.

Definition ht_destroy : H unit :=
  _ ← ht_clear;
  free_table.

(** ** Growing *)

(** The items of [list], moved one by one to the buckets of the new array
    (already [table->items]); the bucket lists created for them are added to
    the new iterator list.  A failed [malloc] is dereferenced. *)
Fixpoint move_items (list new_size : Z) (items : tailq) (new_iterator_list : ptrs) :
    H ptrs :=
  match items with
  | [] => mret new_iterator_list
  | item :: rest =>
      let index := it_hash item mod new_size in
      new_list ← get_slot index;
      '(new_list, new_iterator_list) ←
        (if new_list =? 0 then
           new_list ← new_obj (OItems (mk_ilist [] false 0));
           if new_list =? 0 then undef else
           _ ← set_slot index new_list;
           _ ← set_index new_list index;
           mret (new_list, new_iterator_list ++ [new_list])
         else mret (new_list, new_iterator_list));
      _ ← set_head list (λ _, rest);
      _ ← set_head new_list (λ head, head ++ [item]);
      move_items list new_size rest new_iterator_list
  end.

Fixpoint grow_lists (lists : ptrs) (new_size : Z) (old_items new_iterator_list : ptrs) :
    H ptrs :=
  match lists with
  | [] => mret new_iterator_list
  | list :: rest =>
      l ← load_items list;
      _ ← lift (check ((0 <=? ils_index l) && (ils_index l <? Z.of_nat (length old_items))));
      let old_items := <[Z.to_nat (ils_index l) := 0]> old_items in
      _ ← SPIN_LOCK list;
      l ← load_items list;
      new_iterator_list ← move_items list new_size (ils_head l) new_iterator_list;
      _ ← iterator_remove list;
      _ ← SPIN_UNLOCK list;
      _ ← free_obj list;
      grow_lists rest new_size old_items new_iterator_list
  end.

Definition ht_grow_table : H unit :=
  b ← ATOMIC_CAS HT_STATUS_IDLE HT_STATUS_GROW;
  if negb b then mret tt else
  t ← load_table;
  if negb (t_max_size t =? 0) && (t_max_size t <=? t_size t) then
    _ ← ATOMIC_CAS HT_STATUS_GROW HT_STATUS_IDLE; mret tt
  else
  ok ← alloc_ans;
  if negb ok then _ ← ATOMIC_CAS HT_STATUS_GROW HT_STATUS_IDLE; mret tt else
  let new_size := u64 (Z.shiftl (t_size t) 1) in
  let new_size :=
    if negb (t_max_size t =? 0) && (t_max_size t <? new_size) then t_max_size t else new_size in
  ok ← calloc_array new_size;
  if negb ok then _ ← ATOMIC_CAS HT_STATUS_GROW HT_STATUS_IDLE; mret tt else
  _ ← MUTEX_LOCK;
  t ← load_table;
  let old_items := t_items t in
  _ ← set_table (with_items (replicate (Z.to_nat new_size) 0));
  _ ← set_table (with_size new_size);
  new_iterator_list ← grow_lists (t_iterator_list t) new_size old_items [];
  _ ← set_table (with_iterator_list new_iterator_list);
  _ ← MUTEX_UNLOCK;
  _ ← ATOMIC_CAS HT_STATUS_GROW HT_STATUS_IDLE;
  mret tt.

(** ** Bucket lists *)

(** [hash % table->size]. *)
Definition bucket_index (hash : Z) : H Z :=
  t ← load_table;
  if t_size t =? 0 then undef else mret (hash mod t_size t).

(** The three loops of [ht_get_list]: wait until no writer is active, become
    one more reader, and stop being one.  [sched_yield] succeeds. *)
Definition get_list_wait (_ : unit) : H (unit + Z) :=
  status ← ATOMIC_CAS_RETURN HT_STATUS_IDLE HT_STATUS_READ;
  mret (if status <? HT_STATUS_IDLE then inl tt else inr status).
Definition get_list_join (status : Z) : H (Z + Z) :=
  if status =? HT_STATUS_IDLE then mret (inr status) else
  b ← (if HT_STATUS_READ <=? status then ATOMIC_CAS status (u32 (status + 1)) else mret false);
  if b : bool then mret (inr status) else
  status ← ATOMIC_CAS_RETURN HT_STATUS_IDLE HT_STATUS_READ;
  mret (inl status).
Definition get_list_release (status : Z) : H (Z + unit) :=
  b ← ATOMIC_CAS status (status - 1);
  if b : bool then mret (inr tt) else
  status ← ATOMIC_CAS_RETURN HT_STATUS_READ HT_STATUS_IDLE;
  mret (if HT_STATUS_READ <? status then inl status else inr tt).

(** The part of [ht_get_list] after the index is computed. *)
Definition get_list_at (index : Z) : H Z :=
  status ← loopS get_list_wait tt;
  status ← loopS get_list_join status;
  let status := u32 (status + 1) in
  list ← get_slot index;
  _ ← (if list =? 0 then mret tt else SPIN_LOCK list);
  _ ← loopS get_list_release status;
  mret list.

Definition ht_get_list (hash : Z) : H Z :=
  index ← bucket_index hash;
  get_list_at index.

(** The new list is entered in the array, with the status back to idle ... *)
Definition set_list_publish (hash : Z) : H (Z * bool) :=
  list ← new_obj (OItems (mk_ilist [] false 0));
  if list =? 0 then mret (0, false) else
  _ ← SPIN_LOCK list;
  index ← bucket_index hash;
  _ ← set_index list index;
  _ ← spin_status HT_STATUS_IDLE HT_STATUS_WRITE;
  index ← bucket_index hash;
  _ ← set_index list index;
  cur ← get_slot index;
  if negb (cur =? 0) then
    _ ← SPIN_UNLOCK list;
    _ ← free_obj list;
    _ ← SPIN_LOCK cur;
    _ ← ATOMIC_CAS HT_STATUS_WRITE HT_STATUS_IDLE;
    mret (cur, false)
  else
  _ ← set_slot index list;
  _ ← ATOMIC_CAS HT_STATUS_WRITE HT_STATUS_IDLE;
  mret (list, true).

(** ... and then chained in the iterator list. *)
Definition set_list_register (list : Z) : H unit :=
  _ ← MUTEX_LOCK;
  _ ← set_table (λ t, with_iterator_list (t_iterator_list t ++ [list]) t);
  MUTEX_UNLOCK.

Definition ht_set_list (hash : Z) : H Z :=
  '(list, created) ← set_list_publish hash;
  _ ← (if created : bool then set_list_register list else mret tt);
  mret list.

(** ** Items *)

(** The bytes of the two keys; a first byte that does not exist is read. *)
Definition HT_KEY_EQUALS (k1 k2 : cstr) : outcome bool :=
  match k1, k2 with
  | a :: _, b :: _ =>
      Ret ((a =? b) && (length k1 =? length k2)%nat && bool_decide (k1 = k2))
  | _, _ => Undef
  end.

(** The scan of a bucket: the first item with the key, between the items
    before and after it. *)
Fixpoint find_item (items : tailq) (key : cstr) : outcome (option (tailq * ht_item_t * tailq)) :=
  match items with
  | [] => Ret None
  | item :: rest =>
      b ← HT_KEY_EQUALS (it_key item) key;
      if b : bool then Ret (Some ([], item, rest)) else
      r ← find_item rest key;
      Ret (match r with
           | Some (before, it, after) => Some (item :: before, it, after)
           | None => None
           end)
  end.

(** The first [n] bytes of the block [p] points to. *)
Definition load_prefix (p n : Z) : H cstr :=
  if n =? 0 then mret [] else
  s ← on_heap (load_bytes p);
  _ ← lift (check ((0 <=? n) && (n <=? Z.of_nat (length s))));
  mret (take (Z.to_nat n) s).

(** [q = malloc(len); if (q) memcpy(q, data, len)]. *)
Definition copy_block (data len : Z) : H Z :=
  q ← on_heap (alloc (OBytes []));
  if q =? 0 then mret 0 else
  s ← load_prefix data len;
  _ ← on_heap (store q (OBytes s));
  mret q.

(** What is stored through the [prev_data] and [prev_len] arguments. *)
Record out := mk_out { out_data : option Z; out_len : option Z }.
Definition no_out : out := mk_out None None.
Definition when {A} (b : bool) (a : A) : option A := if b then Some a else None.

(** The new item of [ht_set_internal]: [false] when an allocation fails. *)
Definition add_item (list hash : Z) (key : cstr) (data dlen : Z) (copy : bool) : H bool :=
  ok ← alloc_ans;
  if negb ok then mret false else
  ok ← (if 32 <? Z.of_nat (length key) then alloc_ans else mret true);
  if negb ok then mret false else
  data ← (if copy then (if negb (dlen =? 0) then copy_block data dlen else mret 0) else mret data);
  if copy && negb (dlen =? 0) && (data =? 0) then mret false else
  _ ← set_head list (λ head, head ++ [mk_item hash key data dlen]);
  _ ← ATOMIC_INCREMENT_count;
  mret true.

(** The change of an item that is there: [item->dlen] before the copy. *)
Definition replace_item (list : Z) (before : tailq) (item : ht_item_t) (after : tailq)
    (data dlen : Z) (copy : bool) : H bool :=
  let put it := set_head list (λ _, before ++ it :: after) in
  let item := mk_item (it_hash item) (it_key item) (it_data item) dlen in
  _ ← put item;
  data ← (if copy then copy_block data dlen else mret data);
  if copy && (data =? 0) then mret false else
  _ ← put (mk_item (it_hash item) (it_key item) data (it_dlen item));
  mret true.

(** The end of [ht_set_internal]: grow if needed, hand out the old value. *)
Definition set_done (list prev plen : Z) (prev_data prev_len : bool) : H (Z * out) :=
  _ ← SPIN_UNLOCK list;
  t ← load_table;
  let current_size := t_size t in
  _ ← (if (u64 (current_size + current_size / 3) <? t_count t) &&
          ((t_max_size t =? 0) || (current_size <? t_max_size t))
       then ht_grow_table else mret tt);
  od ← (if negb (prev =? 0) then
          if prev_data then mret (Some prev) else _ ← call_free_item_cb prev; mret None
        else mret (when prev_data 0));
  mret (0, mk_out od (when prev_len plen)).

(** [prev_data] and [prev_len]: are these pointers not null? *)
Definition ht_set_internal (key : cstr) (data dlen : Z) (prev_data prev_len copy inx : bool) :
    H (Z * out) :=
  if (length key =? 0)%nat then mret (-1, no_out) else
  t ← load_table;
  let hash := ht_hash_one_at_a_time (t_seed t) key in
  list ← ht_get_list hash;
  list ← (if list =? 0 then ht_set_list hash else mret list);
  if list =? 0 then mret (-1, no_out) else
  l ← load_items list;
  found ← lift (find_item (ils_head l) key);
  let '(prev, plen) :=
    match found with Some (_, item, _) => (it_data item, it_dlen item) | None => (0, 0) end in
  if prev =? 0 then
    ok ← add_item list hash key data dlen copy;
    if negb ok then _ ← SPIN_UNLOCK list; mret (-1, no_out) else
    set_done list prev plen prev_data prev_len
  else
    match found with
    | None => undef
    | Some (before, item, after) =>
        if inx then
          _ ← SPIN_UNLOCK list;
          mret (1, mk_out (when prev_data prev) (when prev_len plen))
        else
        ok ← replace_item list before item after data dlen copy;
        if negb ok then _ ← SPIN_UNLOCK list; mret (-1, no_out) else
        set_done list prev plen prev_data prev_len
    end.

Definition ht_set (key : cstr) (data dlen : Z) : H Z :=
  '(r, _) ← ht_set_internal key data dlen false false false false; mret r.
Definition ht_set_if_not_exists (key : cstr) (data dlen : Z) : H Z :=
  '(r, _) ← ht_set_internal key data dlen false false false true; mret r.
Definition ht_get_or_set (key : cstr) (data dlen : Z) (cur_data cur_len : bool) : H (Z * out) :=
  ht_set_internal key data dlen cur_data cur_len false true.
Definition ht_get_and_set (key : cstr) (data dlen : Z) (prev_data prev_len : bool) : H (Z * out) :=
  ht_set_internal key data dlen prev_data prev_len false false.
Definition ht_set_copy (key : cstr) (data dlen : Z) (prev_data prev_len : bool) : H (Z * out) :=
  ht_set_internal key data dlen prev_data prev_len true false.

(** ** Calls on the item of a key *)

(** A callback gets the key and the item's value and length, which it may
    change, and its [user] argument; it runs with the bucket locked. *)
Abbreviation pair_callback U := (cstr → Z → Z → U → H (Z * (Z * Z) * U)).

Definition ht_call_internal {U} (key : cstr) (cb : option (pair_callback U)) (user : U) :
    H (Z * U) :=
  t ← load_table;
  let hash := ht_hash_one_at_a_time (t_seed t) key in
  list ← ht_get_list hash;
  if list =? 0 then mret (-1, user) else
  l ← load_items list;
  found ← lift (find_item (ils_head l) key);
  '(ret, user) ←
    match found with
    | None => mret (-1, user)
    | Some (before, item, after) =>
        match cb with
        | None => mret (0, user)
        | Some cb =>
            '(ret, (data, dlen), user) ← cb key (it_data item) (it_dlen item) user;
            let item := mk_item (it_hash item) (it_key item) data dlen in
            _ ← set_head list (λ _, before ++ item :: after);
            if ret =? 1 then
              _ ← set_head list (λ _, before ++ after);
              _ ← ATOMIC_DECREMENT_count;
              mret (0, user)
            else mret (ret, user)
        end
    end;
  _ ← SPIN_UNLOCK list;
  mret (ret, user).

Definition ht_call {U} (key : cstr) (cb : option (pair_callback U)) (user : U) : H (Z * U) :=
  ht_call_internal key cb user.

(** [memcmp(p, q, n) == 0]. *)
Definition memcmp_eq (p q n : Z) : H bool :=
  a ← load_prefix p n;
  b ← load_prefix q n;
  mret (bool_decide (a = b)).

(** [((char * )p)[0]]. *)
Definition first_byte (p : Z) : H Z :=
  s ← load_prefix p 1;
  match s with c :: _ => mret c | [] => undef end.

Record set_arg := mk_set_arg { sa_matched : bool; sa_out : out }.

Definition ht_set_if_equals_helper (data dlen match_ match_size : Z) (prev_data prev_len : bool) :
    pair_callback set_arg := λ key value vlen arg,
  let o := mk_out (when prev_data value) (when prev_len vlen) in
  same ← (if match_size =? vlen then
            a ← first_byte value;
            b ← first_byte match_;
            if a =? b then memcmp_eq value match_ match_size else mret false
          else mret false);
  if same : bool then
    _ ← (if negb prev_data then call_free_item_cb value else mret tt);
    mret (0, (data, dlen), mk_set_arg true o)
  else mret (0, (value, vlen), mk_set_arg (sa_matched arg) o).

Definition ht_set_if_equals (key : cstr) (data dlen match_ match_size : Z)
    (prev_data prev_len : bool) : H (Z * out) :=
  if (match_ =? 0) && (match_size =? 0) then
    r ← ht_set_if_not_exists key data dlen; mret (r, no_out)
  else
  '(r, arg) ← ht_call_internal key
     (Some (ht_set_if_equals_helper data dlen match_ match_size prev_data prev_len))
     (mk_set_arg false no_out);
  mret (if r =? 0 then (if sa_matched arg then 0 else 1) else -1, sa_out arg).

Definition ht_delete_helper (unset : bool) (prev_data prev_len : bool) (match_ match_size : Z) :
    pair_callback out := λ key value vlen arg,
  differs ← (if match_ =? 0 then mret false else
             if negb (match_size =? vlen) then mret true else
             b ← memcmp_eq match_ value vlen; mret (negb b));
  if differs : bool then mret (-1, (value, vlen), arg) else
  _ ← (if prev_data then mret tt else call_free_item_cb value);
  let o := mk_out (when prev_data value) (when prev_len vlen) in
  if unset then mret (0, (0, 0), o) else mret (1, (value, vlen), o).

Definition ht_unset (key : cstr) (prev_data prev_len : bool) : H (Z * out) :=
  ht_call_internal key (Some (ht_delete_helper true prev_data prev_len 0 0)) no_out.

Definition ht_delete_internal (key : cstr) (prev_data prev_len : bool) (match_ match_size : Z) :
    H (Z * out) :=
  ht_call_internal key (Some (ht_delete_helper false prev_data prev_len match_ match_size)) no_out.

Definition ht_delete (key : cstr) (prev_data prev_len : bool) : H (Z * out) :=
  ht_delete_internal key prev_data prev_len 0 0.
Definition ht_delete_if_equals (key : cstr) (match_ match_size : Z) : H Z :=
  '(r, _) ← ht_delete_internal key false false match_ match_size; mret r.

Definition ht_exists (key : cstr) : H bool :=
  '(r, _) ← ht_call_internal key (None : option (pair_callback unit)) tt; mret (r =? 0).

(** [copy_cb], when it is set, is the user's deep copy. *)
Definition ht_get_helper (dlen copy : bool) (copy_cb : option (Z → Z → H Z)) :
    pair_callback out := λ key value vlen arg,
  data ← (if copy then
            match copy_cb with
            | Some cb => cb value vlen
            | None => copy_block value vlen
            end
          else mret value);
  match copy, copy_cb with
  | true, None =>
      if data =? 0 then mret (-1, (value, vlen), mk_out (Some 0) (out_len arg))
      else mret (0, (value, vlen), mk_out (Some data) (when dlen vlen))
  | _, _ => mret (0, (value, vlen), mk_out (Some data) (when dlen vlen))
  end.

(** The returned pointer, and what is stored through [dlen]. *)
Definition ht_get_internal (key : cstr) (dlen copy : bool) (copy_cb : option (Z → Z → H Z)) :
    H (Z * option Z) :=
  '(_, arg) ← ht_call_internal key (Some (ht_get_helper dlen copy copy_cb)) (mk_out (Some 0) None);
  mret (default 0 (out_data arg), out_len arg).

Definition ht_get (key : cstr) (dlen : bool) : H (Z * option Z) :=
  ht_get_internal key dlen false None.
Definition ht_get_copy (key : cstr) (dlen : bool) : H (Z * option Z) :=
  ht_get_internal key dlen true None.
Definition ht_get_deep_copy (key : cstr) (dlen : bool) (copy_cb : option (Z → Z → H Z)) :
    H (Z * option Z) :=
  ht_get_internal key dlen true copy_cb.

Definition ht_count : H Z := t ← load_table; mret (t_count t).

(** ** Iteration *)

Definition HT_ITERATOR_STOP : Z := 0.
Definition HT_ITERATOR_CONTINUE : Z := 1.
Definition HT_ITERATOR_REMOVE : Z := -1.
Definition HT_ITERATOR_REMOVE_AND_STOP : Z := -2.

(** An iteration callback gets the key, the value and its length and its
    [user] argument, and returns an iterator status; it does not change the
    item. *)
Abbreviation iterator_callback U := (cstr → Z → Z → U → Z * U).

(** The items [kept] of the bucket were visited and stay; stop or not? *)
Fixpoint foreach_items {U} (cb : iterator_callback U) (list : Z) (kept items : tailq) (user : U) :
    H (bool * U) :=
  match items with
  | [] => mret (false, user)
  | item :: rest =>
      let '(rc, user) := cb (it_key item) (it_data item) (it_dlen item) user in
      if rc =? HT_ITERATOR_CONTINUE then foreach_items cb list (kept ++ [item]) rest user
      else if rc =? HT_ITERATOR_STOP then mret (true, user)
      else
        _ ← set_head list (λ _, kept ++ rest);
        _ ← call_free_item_cb (it_data item);
        _ ← ATOMIC_DECREMENT_count;
        if rc =? HT_ITERATOR_REMOVE_AND_STOP then mret (true, user)
        else foreach_items cb list kept rest user
  end.

Fixpoint foreach_lists {U} (cb : iterator_callback U) (lists : ptrs) (user : U) : H U :=
  match lists with
  | [] => mret user
  | list :: rest =>
      _ ← SPIN_LOCK list;
      l ← load_items list;
      '(stop, user) ← foreach_items cb list [] (ils_head l) user;
      _ ← SPIN_UNLOCK list;
      if stop : bool then mret user else foreach_lists cb rest user
  end.

Definition ht_foreach_pair {U} (cb : iterator_callback U) (user : U) : H U :=
  _ ← MUTEX_LOCK;
  t ← load_table;
  user ← foreach_lists cb (t_iterator_list t) user;
  _ ← MUTEX_UNLOCK;
  mret user.

Definition ht_foreach_key_helper {U} (cb : cstr → U → Z * U) : iterator_callback U :=
  λ key value vlen user, cb key user.
Definition ht_foreach_key {U} (cb : cstr → U → Z * U) (user : U) : H U :=
  ht_foreach_pair (ht_foreach_key_helper cb) user.

Definition ht_foreach_value_helper {U} (cb : Z → Z → U → Z * U) : iterator_callback U :=
  λ key value vlen user, cb value vlen user.
Definition ht_foreach_value {U} (cb : Z → Z → U → Z * U) (user : U) : H U :=
  ht_foreach_pair (ht_foreach_value_helper cb) user.

(** ** Collecting keys and values in a linked list *)

Definition free_key (key : Z) : H unit := λ w,
  match w_objs w !! key with
  | Some (OKey k) => (_ ← on_heap (free (k_data k)); free_obj key) w
  | _ => Undef
  end.

(** [list_destroy(output)], and the list's callback on each of its values. *)
Fixpoint call_all (cb : Z → H unit) (vs : ptrs) : H unit :=
  match vs with
  | [] => mret tt
  | v :: vs => _ ← cb v; call_all cb vs
  end.
Definition destroy_output (cb : Z → H unit) (output : Z) : H unit :=
  before ← gets (λ w, length (hp_freed (w_heap w)));
  _ ← on_heap (list_destroy 1 output);
  vs ← gets (λ w, drop before (hp_freed (w_heap w)));
  call_all cb vs.

(** One item: [false] when an allocation fails. *)
Definition collect_key (output : Z) (item : ht_item_t) : H bool :=
  let klen := Z.of_nat (length (it_key item)) in
  key ← new_obj (OKey (mk_key 0 0 0));
  if key =? 0 then mret false else
  data ← on_heap (alloc (OBytes []));
  if data =? 0 then _ ← free_obj key; mret false else
  _ ← on_heap (store data (OBytes (it_key item)));
  _ ← modify (upd_objs <[key := OKey (mk_key data klen (it_dlen item))]>);
  _ ← on_heap (list_push_value output key);
  mret true.

Definition collect_value (output : Z) (item : ht_item_t) : H bool :=
  v ← new_obj (OValue (mk_value [] 0 0 0));
  if v =? 0 then mret false else
  _ ← modify (upd_objs <[v := OValue (mk_value (it_key item)
        (Z.of_nat (length (it_key item))) (it_data item) (it_dlen item))]>);
  _ ← on_heap (list_push_value output v);
  mret true.

Fixpoint collect_items (f : ht_item_t → H bool) (items : tailq) : H bool :=
  match items with
  | [] => mret true
  | item :: rest => ok ← f item; if ok : bool then collect_items f rest else mret false
  end.

Fixpoint collect_lists (f : ht_item_t → H bool) (lists : ptrs) : H bool :=
  match lists with
  | [] => mret true
  | list :: rest =>
      _ ← SPIN_LOCK list;
      l ← load_items list;
      ok ← collect_items f (ils_head l);
      _ ← SPIN_UNLOCK list;
      if ok : bool then collect_lists f rest else mret false
  end.

(** [list_create] is not checked: its null is dereferenced. *)
Definition collect (f : Z → ht_item_t → H bool) (free_value : Z → H unit) : H Z :=
  output ← on_heap list_create;
  _ ← on_heap (list_set_free_value_callback output true);
  _ ← MUTEX_LOCK;
  t ← load_table;
  ok ← collect_lists (f output) (t_iterator_list t);
  _ ← MUTEX_UNLOCK;
  if ok : bool then mret output else
  _ ← destroy_output free_value output;
  mret 0.

Definition ht_get_all_keys : H Z := collect collect_key free_key.
Definition ht_get_all_values : H Z := collect collect_value free_obj.
