(* ===== verification/HashtableMap.v ===== *)
(** * The hash table as a finite map

    The invariant of src/src/hashtable.c and what its operations do.  In a
    first layer, [repr] says that the array, the iterator list and the bucket
    objects are a list of buckets; in a second, the buckets are a finite map
    from keys to values.  Every operation is proved against the map. *)

From S2P Require Import Prelude Linklist Hashtable.

(** ** Steps of the state *)

Section steps.
Context (t : hashtable_t) (o : gmap Z hobj) (h : heap) (f : list Z).
Local Abbreviation W := (mk_world (Some t) o h f).

Lemma returns_load_table Q : Q (t, W) → returns (load_table W) Q.
Proof. done. Qed.
Lemma returns_set_table g Q :
  Q (tt, mk_world (Some (g t)) o h f) → returns (set_table g W) Q.
Proof. done. Qed.
Lemma returns_load_items p l Q :
  o !! p = Some (OItems l) → Q (l, W) → returns (load_items p W) Q.
Proof. intros Hp HQ. unfold load_items. simpl. by rewrite Hp. Qed.
Lemma returns_set_head p l g Q :
  o !! p = Some (OItems l) →
  Q (tt, mk_world (Some t)
       (<[p := OItems (mk_ilist (g (ils_head l)) (ils_lock l) (ils_index l))]> o) h f) →
  returns (set_head p g W) Q.
Proof. intros Hp HQ. unfold set_head. go. eapply returns_load_items; [done|]. done. Qed.
Lemma returns_set_index p l i Q :
  o !! p = Some (OItems l) →
  Q (tt, mk_world (Some t) (<[p := OItems (mk_ilist (ils_head l) (ils_lock l) i)]> o) h f) →
  returns (set_index p i W) Q.
Proof. intros Hp HQ. unfold set_index. go. eapply returns_load_items; [done|]. done. Qed.
Lemma returns_SPIN_LOCK p l i Q :
  o !! p = Some (OItems (mk_ilist l false i)) →
  Q (tt, mk_world (Some t) (<[p := OItems (mk_ilist l true i)]> o) h f) →
  returns (SPIN_LOCK p W) Q.
Proof.
  intros Hp HQ. unfold SPIN_LOCK, set_lock. go. eapply returns_load_items; [done|].
  simpl. go. by eapply returns_load_items.
Qed.
Lemma returns_SPIN_UNLOCK p l i Q :
  o !! p = Some (OItems (mk_ilist l true i)) →
  Q (tt, mk_world (Some t) (<[p := OItems (mk_ilist l false i)]> o) h f) →
  returns (SPIN_UNLOCK p W) Q.
Proof.
  intros Hp HQ. unfold SPIN_UNLOCK, set_lock. go. eapply returns_load_items; [done|].
  simpl. go. by eapply returns_load_items.
Qed.
Lemma returns_MUTEX_LOCK Q :
  t_iterator_lock t = false →
  Q (tt, mk_world (Some (with_iterator_lock true t)) o h f) → returns (MUTEX_LOCK W) Q.
Proof. intros Hl HQ. unfold MUTEX_LOCK. go. apply returns_load_table. by rewrite Hl. Qed.
Lemma returns_MUTEX_UNLOCK Q :
  t_iterator_lock t = true →
  Q (tt, mk_world (Some (with_iterator_lock false t)) o h f) → returns (MUTEX_UNLOCK W) Q.
Proof. intros Hl HQ. unfold MUTEX_UNLOCK. go. apply returns_load_table. by rewrite Hl. Qed.
Lemma returns_get_slot i p Q :
  0 ≤ i → t_items t !! Z.to_nat i = Some p → Q (p, W) → returns (get_slot i W) Q.
Proof.
  intros Hi Hp HQ. unfold get_slot. go. apply returns_load_table. rewrite Hp.
  by rewrite (proj2 (Z.leb_le _ _)) by done.
Qed.
Lemma returns_set_slot i p q Q :
  0 ≤ i → t_items t !! Z.to_nat i = Some p →
  Q (tt, mk_world (Some (with_items (<[Z.to_nat i := q]> (t_items t)) t)) o h f) →
  returns (set_slot i q W) Q.
Proof. intros Hi Hp HQ. unfold set_slot. go. by eapply returns_get_slot. Qed.
Lemma returns_free_obj p x Q :
  o !! p = Some x → Q (tt, mk_world (Some t) (delete p o) h f) → returns (free_obj p W) Q.
Proof. intros Hp HQ. unfold free_obj. simpl. by rewrite Hp. Qed.
Lemma returns_call_free_item_cb d Q :
  Q (tt, mk_world (Some t) o h (f ++ (if t_free_item_cb t then [d] else []))) →
  returns (call_free_item_cb d W) Q.
Proof.
  intros HQ. unfold call_free_item_cb. go. apply returns_load_table.
  destruct (t_free_item_cb t); [done|]. by rewrite app_nil_r in HQ.
Qed.
Lemma returns_CAS_RETURN a b Q :
  Q (t_status t, mk_world (Some (if t_status t =? a then with_status b t else t)) o h f) →
  returns (ATOMIC_CAS_RETURN a b W) Q.
Proof.
  intros HQ. unfold ATOMIC_CAS_RETURN. go. apply returns_load_table.
  by destruct (t_status t =? a).
Qed.
Lemma returns_CAS a b Q :
  t_status t = a → Q (true, mk_world (Some (with_status b t)) o h f) →
  returns (ATOMIC_CAS a b W) Q.
Proof.
  intros Ha HQ. unfold ATOMIC_CAS. go. apply returns_CAS_RETURN. rewrite Ha, Z.eqb_refl. done.
Qed.
Lemma returns_bucket_index hash Q :
  0 < t_size t → Q (hash mod t_size t, W) → returns (bucket_index hash W) Q.
Proof.
  intros Hs HQ. unfold bucket_index. go. apply returns_load_table.
  by rewrite (proj2 (Z.eqb_neq _ _)) by lia.
Qed.
End steps.

Lemma returns_spin_status t o h f a b Q :
  t_status t = a → Q (tt, mk_world (Some (with_status b t)) o h f) →
  returns (spin_status a b (mk_world (Some t) o h f)) Q.
Proof.
  intros Ha HQ. apply returns_loopS_exit. unfold spin_body. go. by apply returns_CAS.
Qed.

(** The allocator, when it does not refuse. *)
Record grown (h h' : heap) : Prop := {
  gr_hp : hp h' = hp h; gr_next : hp_next h ≤ hp_next h';
  gr_alloc : alloc_ok h'; gr_freed : hp_freed h' = hp_freed h
}.

Lemma grown_refl h : alloc_ok h → grown h h.
Proof. by split. Qed.
Lemma grown_trans h1 h2 h3 : grown h1 h2 → grown h2 h3 → grown h1 h3.
Proof. intros [] []. split; [congruence|lia|done|congruence]. Qed.

Lemma returns_alloc_ans t o h f Q :
  alloc_ok h →
  (∀ h', grown h h' → hp_next h' = hp_next h → Q (true, mk_world t o h' f)) →
  returns (alloc_ans (mk_world t o h f)) Q.
Proof.
  intros Hal HQ. unfold alloc_ans, alloc_ok in *. simpl.
  destruct (hp_alloc h) as [|b al] eqn:Ha.
  - apply HQ; [|done]. apply grown_refl. unfold alloc_ok. by rewrite Ha.
  - inversion Hal; subst. simpl. apply HQ; [|done]. by split.
Qed.
Lemma returns_calloc_array t o h f n Q :
  alloc_ok h →
  (∀ h', grown h h' → hp_next h' = hp_next h →
     Q (8 * n <? 2 ^ 63, mk_world t o h' f)) →
  returns (calloc_array n (mk_world t o h f)) Q.
Proof.
  intros Hal HQ. unfold calloc_array. go. apply returns_alloc_ans; [done|].
  intros h' ??. go. auto.
Qed.
Lemma returns_new_obj t o h f x Q :
  alloc_ok h →
  (∀ h', grown h h' → hp_next h' = hp_next h + 1 →
     Q (hp_next h, mk_world t (<[hp_next h := x]> o) h' f)) →
  returns (new_obj x (mk_world t o h f)) Q.
Proof.
  intros Hal HQ. unfold new_obj, alloc_ok in *. simpl.
  destruct (hp_alloc h) as [|b al] eqn:Ha.
  - apply HQ; [|done]. split; simpl; [done|lia|by constructor|done].
  - inversion Hal; subst. apply HQ; [|done]. split; simpl; [done|lia|done|done].
Qed.

(** ** Buckets *)

Abbreviation bucket := (Z * tailq)%type.

(** At [p] is the bucket list of [b], registered at its index; [lk] is the
    index of the bucket that is locked, if any. *)
Record slot_ok (o : gmap Z hobj) (items : ptrs) (lk : option Z) (p : Z) (b : bucket) : Prop := {
  so_obj : o !! p = Some (OItems (mk_ilist b.2 (bool_decide (lk = Some b.1)) b.1));
  so_slot : items !! Z.to_nat b.1 = Some p;
  so_index : 0 ≤ b.1;
  so_ptr : p ≠ 0
}.

(** The array [items] and the iterator list [iter] hold the buckets [bs]. *)
Record repr (o : gmap Z hobj) (items iter : ptrs) (lk : option Z) (bs : list bucket) : Prop := {
  rp_lists : Forall2 (slot_ok o items lk) iter bs;
  rp_nodup : NoDup bs.*1;
  rp_null : ∀ i p, 0 ≤ i → items !! Z.to_nat i = Some p → p ≠ 0 → i ∈ bs.*1
}.

Lemma repr_split o items iter lk b1 i l b2 :
  repr o items iter lk (b1 ++ (i, l) :: b2) →
  ∃ i1 p i2, iter = i1 ++ p :: i2 ∧ length i1 = length b1 ∧ slot_ok o items lk p (i, l).
Proof.
  intros [Hf _ _]. apply Forall2_app_inv_r in Hf as (i1&i2'&H1&H2&->).
  inversion H2 as [|p ? i2 ? Hp Hr]; subst. exists i1, p, i2.
  split_and!; [done| |done]. by eapply Forall2_length.
Qed.

Lemma lookup_fst_in (bs : list bucket) k b : bs !! k = Some b → b.1 ∈ bs.*1.
Proof.
  intros Hb. apply list_elem_of_fmap. exists b.
  split; [done|]. by apply list_elem_of_lookup_2 in Hb.
Qed.

Lemma in_split_fst (bs : list bucket) i :
  i ∈ bs.*1 → ∃ b1 l b2, bs = b1 ++ (i, l) :: b2.
Proof.
  intros Hi. apply list_elem_of_fmap in Hi as ([j l]&->&Hi).
  apply list_elem_of_split in Hi as (b1&b2&->). by exists b1, l, b2.
Qed.

(** What a slot of the array says about the buckets. *)
Lemma repr_lookup o items iter lk bs i p :
  repr o items iter lk bs → 0 ≤ i → items !! Z.to_nat i = Some p →
  (p = 0 ∧ i ∉ bs.*1) ∨
  (p ≠ 0 ∧ ∃ b1 l b2, bs = b1 ++ (i, l) :: b2 ∧ slot_ok o items lk p (i, l)).
Proof.
  intros Hr Hi Hp. destruct (decide (i ∈ bs.*1)) as [Hin|Hin].
  - right. apply in_split_fst in Hin as (b1&l&b2&->).
    destruct (repr_split _ _ _ _ _ _ _ _ Hr) as (i1&q&i2&?&?&Hs).
    pose proof (so_slot _ _ _ _ _ Hs) as Hq. simpl in Hq. rewrite Hp in Hq. simplify_eq.
    split; [by destruct Hs|]. by exists b1, l, b2.
  - left. split; [|done]. destruct (decide (p = 0)); [done|].
    exfalso. apply Hin. by eapply rp_null.
Qed.

Lemma repr_iter_nodup o items iter lk bs : repr o items iter lk bs → NoDup iter.
Proof.
  intros [Hf Hn _]. revert Hn. induction Hf as [|p b iter bs Hp Hf IH]; simpl; intros Hn.
  { constructor. }
  inversion Hn as [|? ? Hb Hn']; subst. constructor; [|by apply IH].
  intros Hin. apply list_elem_of_lookup_1 in Hin as [k Hk].
  destruct (Forall2_lookup_l _ _ _ _ _ Hf Hk) as (b'&Hb'&Hs).
  apply Hb. destruct Hp as [Ho _ _ _], Hs as [Ho' _ _ _]. rewrite Ho in Ho'. simplify_eq.
  apply list_elem_of_fmap. exists b'. split; [congruence|]. by apply list_elem_of_lookup_2 in Hb'.
Qed.

(** Changes of objects that are not bucket lists of the table. *)
Lemma repr_frame o o' items iter lk bs :
  repr o items iter lk bs → (∀ p, p ∈ iter → o' !! p = o !! p) → repr o' items iter lk bs.
Proof.
  intros [Hf Hn H0] Ho. split; [|done..].
  apply Forall2_same_length_lookup in Hf as [Hlen Hf]. apply Forall2_same_length_lookup.
  split; [done|]. intros k p b Hp Hb. destruct (Hf k p b Hp Hb) as [??? ?].
  split; try done. rewrite Ho; [done|]. by apply list_elem_of_lookup_2 in Hp.
Qed.

Lemma slot_ok_other o items lk lk' i p x q b :
  slot_ok o items lk q b → b.1 ≠ i → q ≠ p →
  (∀ j, j ≠ i → lk = Some j ↔ lk' = Some j) → slot_ok (<[p := x]> o) items lk' q b.
Proof.
  intros [Ho ???] Hb Hq Hlk. split; try done. rewrite lookup_insert_ne by done.
  rewrite Ho. do 3 f_equal. apply bool_decide_ext. by apply Hlk.
Qed.

(** A change of the items or the lock of one bucket. *)
Lemma repr_update o items iter lk lk' b1 i l b2 p l' :
  repr o items iter lk (b1 ++ (i, l) :: b2) → items !! Z.to_nat i = Some p →
  (∀ j, j ≠ i → lk = Some j ↔ lk' = Some j) →
  repr (<[p := OItems (mk_ilist l' (bool_decide (lk' = Some i)) i)]> o) items iter lk'
    (b1 ++ (i, l') :: b2).
Proof.
  intros Hr Hp Hlk. pose proof (repr_iter_nodup _ _ _ _ _ Hr) as Hni.
  destruct Hr as [Hf Hn H0].
  assert ((b1 ++ (i, l) :: b2).*1 = (b1 ++ (i, l') :: b2).*1) as Hfst.
  { by rewrite !fmap_app. }
  split; [|by rewrite <- Hfst|by rewrite <- Hfst].
  apply Forall2_app_inv_r in Hf as (i1&i2'&H1&H2&->).
  inversion H2 as [|q ? i2 ? Hq H2']; subst.
  assert (q = p) as ->. { destruct Hq as [_ Hs _ _]. simpl in Hs. congruence. }
  rewrite fmap_app in Hn. simpl in Hn. apply NoDup_app in Hn as (_&Hd&Hn2).
  inversion Hn2 as [|?? Hi2 _]; subst. apply NoDup_app in Hni as (_&Hdi&Hni2).
  inversion Hni2 as [|?? Hp2 _]; subst.
  apply Forall2_app; [|constructor].
  - apply Forall2_same_length_lookup in H1 as [Hl1 H1]. apply Forall2_same_length_lookup.
    split; [done|]. intros k q b Hqk Hb.
    apply (slot_ok_other _ _ lk _ i); [by eapply H1| | |done].
    + intros <-. apply (Hd b.1); [|by left]. by eapply lookup_fst_in.
    + intros ->. apply (Hdi p); [by apply list_elem_of_lookup_2 in Hqk|by left].
  - destruct Hq as [_ ? ? ?]. split; simpl; try done. by rewrite lookup_insert_eq.
  - apply Forall2_same_length_lookup in H2' as [Hl1 H2']. apply Forall2_same_length_lookup.
    split; [done|]. intros k q b Hqk Hb.
    apply (slot_ok_other _ _ lk _ i); [by eapply H2'| | |done].
    + intros <-. apply Hi2. by eapply lookup_fst_in.
    + intros ->. apply Hp2. by apply list_elem_of_lookup_2 in Hqk.
Qed.

(** A new empty bucket. *)
Lemma repr_new o items iter lk lk' bs i p :
  repr o items iter lk bs → 0 ≤ i → items !! Z.to_nat i = Some 0 → p ∉ iter → p ≠ 0 →
  (∀ j, j ≠ i → lk = Some j ↔ lk' = Some j) →
  repr (<[p := OItems (mk_ilist [] (bool_decide (lk' = Some i)) i)]> o)
    (<[Z.to_nat i := p]> items) (iter ++ [p]) lk' (bs ++ [(i, [])]).
Proof.
  intros Hr Hi H0 Hpn Hp0 Hlk.
  destruct (repr_lookup _ _ _ _ _ _ _ Hr Hi H0) as [[_ Hin]|[? _]]; [|done].
  destruct Hr as [Hf Hn Hnull]. split.
  - apply Forall2_app.
    + apply Forall2_same_length_lookup in Hf as [Hl1 Hf]. apply Forall2_same_length_lookup.
      split; [done|]. intros k q b Hqk Hb.
      assert (b.1 ≠ i) as Hbi.
      { intros <-. apply Hin. by eapply lookup_fst_in. }
      destruct (slot_ok_other o items lk lk' i p
        (OItems (mk_ilist [] (bool_decide (lk' = Some i)) i)) q b) as [??? ?]; try done.
      { by eapply Hf. }
      { intros ->. apply Hpn. by apply list_elem_of_lookup_2 in Hqk. }
      split; try done. rewrite list_lookup_insert_ne; [done|]. lia.
    + constructor; [|constructor]. split; simpl; try done.
      * by rewrite lookup_insert_eq.
      * rewrite list_lookup_insert_eq; [done|]. by eapply lookup_lt_Some.
  - rewrite fmap_app. apply NoDup_app. split_and!; [done| |apply NoDup_singleton].
    simpl. intros j Hj ->%list_elem_of_singleton. done.
  - intros j q Hj Hq Hq0. rewrite fmap_app, elem_of_app. simpl.
    destruct (decide (j = i)) as [->|]; [right; by left|]. left.
    rewrite list_lookup_insert_ne in Hq by lia. by eapply Hnull.
Qed.

(** The same when no bucket is locked. *)
Lemma repr_update_open o items iter b1 i l b2 p l' :
  repr o items iter None (b1 ++ (i, l) :: b2) → items !! Z.to_nat i = Some p →
  repr (<[p := OItems (mk_ilist l' false i)]> o) items iter None (b1 ++ (i, l') :: b2).
Proof.
  intros Hr Hp. pose proof (repr_update o items iter None None b1 i l b2 p l' Hr Hp) as Hu.
  rewrite bool_decide_eq_false_2 in Hu by done. by apply Hu.
Qed.
Lemma repr_new_open o items iter bs i p :
  repr o items iter None bs → 0 ≤ i → items !! Z.to_nat i = Some 0 → p ∉ iter → p ≠ 0 →
  repr (<[p := OItems (mk_ilist [] false i)]> o)
    (<[Z.to_nat i := p]> items) (iter ++ [p]) None (bs ++ [(i, [])]).
Proof.
  intros Hr Hi H0 Hp Hp0. pose proof (repr_new o items iter None None bs i p Hr Hi H0 Hp Hp0) as Hu.
  rewrite bool_decide_eq_false_2 in Hu by done. by apply Hu.
Qed.

(** The first bucket goes away. *)
Lemma repr_drop o items p iter i l bs :
  repr o items (p :: iter) None ((i, l) :: bs) →
  repr (delete p o) (<[Z.to_nat i := 0]> items) iter None bs.
Proof.
  intros Hr. pose proof (repr_iter_nodup _ _ _ _ _ Hr) as Hni. destruct Hr as [Hf Hn Hnull].
  inversion Hf as [|???? Hp Hf']; subst. inversion Hn as [|?? Hi Hn']; subst.
  inversion Hni as [|?? Hpi _]; subst. destruct Hp as [Ho Hs Hi0 Hp0]. simpl in *.
  split; [|done|].
  - apply Forall2_same_length_lookup in Hf' as [Hl1 Hf']. apply Forall2_same_length_lookup.
    split; [done|]. intros k q b Hqk Hb. destruct (Hf' k q b Hqk Hb) as [Hob Hsb ??].
    split; try done.
    + rewrite lookup_delete_ne; [done|]. intros <-. apply Hpi.
      by apply list_elem_of_lookup_2 in Hqk.
    + rewrite list_lookup_insert_ne; [done|].
      assert (i ≠ b.1); [|lia]. intros ->. apply Hi. by eapply lookup_fst_in.
  - intros j q Hj Hq Hq0. destruct (decide (Z.to_nat j = Z.to_nat i)) as [E|E].
    { rewrite E, list_lookup_insert_eq in Hq by (by eapply lookup_lt_Some). congruence. }
    rewrite list_lookup_insert_ne in Hq by done.
    pose proof (Hnull j q Hj Hq Hq0) as Hin.
    apply list_elem_of_In in Hin. simpl in Hin. destruct Hin as [->|Hin]; [done|].
    by apply list_elem_of_In.
Qed.

(** ** Tables *)

(** The table [t] with the buckets [bs], no operation under way except, when
    [lk] is the index of a bucket, one that has locked that bucket. *)
Record is_table (lk : option Z) (t : hashtable_t) (o : gmap Z hobj) (h : heap)
    (bs : list bucket) : Prop := {
  tb_status : t_status t = HT_STATUS_IDLE;
  tb_lock : t_iterator_lock t = false;
  tb_size : 0 < t_size t;
  tb_small : 8 * t_size t < 2 ^ 63;
  tb_length : Z.of_nat (length (t_items t)) = t_size t;
  tb_max : 0 ≤ t_max_size t;
  tb_repr : repr o (t_items t) (t_iterator_list t) lk bs;
  tb_fresh : ∀ p x, o !! p = Some x → 0 < p < hp_next h;
  tb_heap : wf_heap h
}.

Lemma tb_slot lk t o h bs hash :
  is_table lk t o h bs → ∃ p, t_items t !! Z.to_nat (hash mod t_size t) = Some p.
Proof.
  intros Ht. apply lookup_lt_is_Some.
  pose proof (Z.mod_pos_bound hash (t_size t) (tb_size _ _ _ _ _ Ht)).
  pose proof (tb_length _ _ _ _ _ Ht). lia.
Qed.
Lemma tb_slot_nonneg lk t o h bs hash : is_table lk t o h bs → 0 ≤ hash mod t_size t.
Proof. intros Ht. by apply Z.mod_pos_bound, (tb_size _ _ _ _ _ Ht). Qed.

(** The objects and the heap change, the buckets do not. *)
Lemma is_table_frame lk t o h o' h' bs :
  is_table lk t o h bs → (∀ p, p ∈ t_iterator_list t → o' !! p = o !! p) →
  (∀ p x, o' !! p = Some x → 0 < p < hp_next h') → wf_heap h' →
  is_table lk t o' h' bs.
Proof. intros [] ???. split; try done. by eapply repr_frame. Qed.
Lemma is_table_heap lk t o h h' bs :
  is_table lk t o h bs → hp_next h ≤ hp_next h' → wf_heap h' → is_table lk t o h' bs.
Proof.
  intros Ht Hn Hw. eapply is_table_frame; [done|done| |done].
  intros p x Hp. pose proof (tb_fresh _ _ _ _ _ Ht p x Hp). lia.
Qed.
Lemma is_table_count lk t o h bs c :
  is_table lk t o h bs → is_table lk (with_count c t) o h bs.
Proof. intros []. by split. Qed.
Lemma grown_wf h h' : wf_heap h → grown h h' → wf_heap h'.
Proof.
  intros [Hn Hw] [Hh Hnx _ _]. split; [lia|]. intros a x. rewrite Hh. intros ?%Hw. lia.
Qed.
Lemma is_table_grown lk t o h h' bs :
  is_table lk t o h bs → grown h h' → is_table lk t o h' bs.
Proof.
  intros Ht Hg. eapply is_table_heap; [done|by destruct Hg|].
  eapply grown_wf; [|done]. by destruct Ht.
Qed.

(** A bucket is changed, locked or released. *)
Lemma is_table_update lk lk' t o h b1 i l b2 p l' :
  is_table lk t o h (b1 ++ (i, l) :: b2) → t_items t !! Z.to_nat i = Some p →
  (∀ j, j ≠ i → lk = Some j ↔ lk' = Some j) →
  is_table lk' t (<[p := OItems (mk_ilist l' (bool_decide (lk' = Some i)) i)]> o) h
    (b1 ++ (i, l') :: b2).
Proof.
  intros Ht Hp Hlk. pose proof Ht as []. split; try done; [by eapply repr_update|].
  intros q x. rewrite lookup_insert. case_decide as E; [|by apply tb_fresh0].
  intros _. subst q.
  destruct (repr_split _ _ _ _ _ _ _ _ tb_repr0) as (i1&q&i2&?&?&[Ho Hs _ _]).
  simpl in Hs. rewrite Hp in Hs. simplify_eq. by eapply tb_fresh0.
Qed.

Lemma is_table_lock t o h b1 i l b2 p :
  is_table None t o h (b1 ++ (i, l) :: b2) → t_items t !! Z.to_nat i = Some p →
  is_table (Some i) t (<[p := OItems (mk_ilist l true i)]> o) h (b1 ++ (i, l) :: b2).
Proof.
  intros Ht Hp. pose proof (is_table_update None (Some i) t o h b1 i l b2 p l Ht Hp) as Hu.
  rewrite bool_decide_eq_true_2 in Hu by done. apply Hu. naive_solver.
Qed.
Lemma is_table_put t o h b1 i l b2 p l' :
  is_table (Some i) t o h (b1 ++ (i, l) :: b2) → t_items t !! Z.to_nat i = Some p →
  is_table (Some i) t (<[p := OItems (mk_ilist l' true i)]> o) h (b1 ++ (i, l') :: b2).
Proof.
  intros Ht Hp. pose proof (is_table_update (Some i) (Some i) t o h b1 i l b2 p l' Ht Hp) as Hu.
  rewrite bool_decide_eq_true_2 in Hu by done. apply Hu. naive_solver.
Qed.
Lemma is_table_unlock t o h b1 i l b2 p :
  is_table (Some i) t o h (b1 ++ (i, l) :: b2) → t_items t !! Z.to_nat i = Some p →
  is_table None t (<[p := OItems (mk_ilist l false i)]> o) h (b1 ++ (i, l) :: b2).
Proof.
  intros Ht Hp. pose proof (is_table_update (Some i) None t o h b1 i l b2 p l Ht Hp) as Hu.
  rewrite bool_decide_eq_false_2 in Hu by done. apply Hu. naive_solver.
Qed.

Lemma locked_slot i t o h b1 l b2 p :
  is_table (Some i) t o h (b1 ++ (i, l) :: b2) → t_items t !! Z.to_nat i = Some p →
  o !! p = Some (OItems (mk_ilist l true i)).
Proof.
  intros Ht Hp. destruct (repr_split _ _ _ _ _ _ _ _ (tb_repr _ _ _ _ _ Ht))
    as (i1&q&i2&?&?&[Ho Hs _ _]).
  simpl in *. rewrite Hp in Hs. simplify_eq. by rewrite Ho, bool_decide_eq_true_2.
Qed.

Lemma with_status_back t s : t_status t = s → with_status s t = t.
Proof. by intros <-; destruct t. Qed.

(** [ht_get_list] finds the bucket and locks it. *)
Lemma ht_get_list_returns t o h f bs hash Q :
  is_table None t o h bs →
  let i := hash mod t_size t in
  (i ∉ bs.*1 → Q (0, mk_world (Some t) o h f)) →
  (∀ o' p b1 l b2, bs = b1 ++ (i, l) :: b2 → t_items t !! Z.to_nat i = Some p → p ≠ 0 →
     is_table (Some i) t o' h bs → Q (p, mk_world (Some t) o' h f)) →
  returns (ht_get_list hash (mk_world (Some t) o h f)) Q.
Proof.
  intros Ht i HQ0 HQ. destruct (tb_slot _ _ _ _ _ hash Ht) as [p Hp].
  pose proof (tb_slot_nonneg _ _ _ _ _ hash Ht) as Hi. fold i in Hp, Hi.
  pose proof (tb_status _ _ _ _ _ Ht) as Hst.
  unfold ht_get_list, get_list_at. go. apply returns_bucket_index; [by destruct Ht|]. fold i.
  go. apply returns_loopS_exit. unfold get_list_wait. go. apply returns_CAS_RETURN.
  rewrite Hst. simpl. go. apply returns_loopS_exit. unfold get_list_join. simpl. go.
  eapply returns_get_slot; [done|exact Hp|]. go.
  assert (∀ o' (Q' : unit * world → Prop), Q' (tt, mk_world (Some t) o' h f) →
    returns (loopS get_list_release (u32 (HT_STATUS_IDLE + 1))
      (mk_world (Some (with_status HT_STATUS_READ t)) o' h f)) Q') as Hrel.
  { intros o' Q' HQ'. apply returns_loopS_exit. unfold get_list_release. go.
    apply returns_CAS; [done|]. simpl. change (with_status _ (with_status _ t))
      with (with_status HT_STATUS_IDLE t). by rewrite (with_status_back t). }
  destruct (repr_lookup _ _ _ _ _ _ _ (tb_repr _ _ _ _ _ Ht) Hi Hp)
    as [[-> Hin]|(Hp0&b1&l&b2&Hbs&[Ho _ _ _])].
  - rewrite Z.eqb_refl. go. apply Hrel. go. by apply HQ0.
  - rewrite (proj2 (Z.eqb_neq _ _)) by done. simpl in Ho.
    eapply returns_SPIN_LOCK; [exact Ho|]. go. apply Hrel. go. eapply HQ; try done.
    subst bs. by apply is_table_lock.
Qed.

(** [ht_set_list] adds an empty bucket, locked. *)
Lemma ht_set_list_returns t o h f bs hash Q :
  is_table None t o h bs → alloc_ok h →
  let i := hash mod t_size t in
  i ∉ bs.*1 →
  (∀ its itr o' h' p,
     let t' := with_iterator_list itr (with_items its t) in
     is_table (Some i) t' o' h' (bs ++ [(i, [])]) → grown h h' →
     its !! Z.to_nat i = Some p → p ≠ 0 → Q (p, mk_world (Some t') o' h' f)) →
  returns (ht_set_list hash (mk_world (Some t) o h f)) Q.
Proof.
  intros Ht Hal i Hin HQ. destruct (tb_slot _ _ _ _ _ hash Ht) as [p Hp].
  pose proof (tb_slot_nonneg _ _ _ _ _ hash Ht) as Hi. fold i in Hp, Hi.
  destruct (repr_lookup _ _ _ _ _ _ _ (tb_repr _ _ _ _ _ Ht) Hi Hp)
    as [[-> _]|(?&b1&l&b2&Hbs&_)].
  2:{ destruct Hin. subst bs. rewrite fmap_app. apply elem_of_app. right. by left. }
  pose proof (proj1 (tb_heap _ _ _ _ _ Ht)) as Hnx.
  assert (hp_next h ∉ t_iterator_list t) as Hfr.
  { intros Hin'. destruct (tb_repr _ _ _ _ _ Ht) as [Hf _ _].
    apply list_elem_of_lookup_1 in Hin' as [k Hk].
    destruct (Forall2_lookup_l _ _ _ _ _ Hf Hk) as (b'&_&[Ho _ _ _]).
    apply (tb_fresh _ _ _ _ _ Ht) in Ho. lia. }
  unfold ht_set_list, set_list_publish, set_list_register. go. apply returns_new_obj; [done|]. intros h' Hg Hn'. go.
  rewrite (proj2 (Z.eqb_neq _ _)) by lia. go.
  eapply returns_SPIN_LOCK; [by rewrite lookup_insert_eq|]. rewrite insert_insert_eq. go.
  apply returns_bucket_index; [by destruct Ht|]. fold i. go.
  eapply returns_set_index; [by rewrite lookup_insert_eq|]. rewrite insert_insert_eq. go.
  apply returns_spin_status; [by destruct Ht|]. go.
  apply returns_bucket_index; [by destruct Ht|]. simpl t_size. fold i. go.
  eapply returns_set_index; [by rewrite lookup_insert_eq|]. rewrite insert_insert_eq. go.
  eapply returns_get_slot; [done|exact Hp|]. rewrite Z.eqb_refl. go.
  eapply returns_set_slot; [done|exact Hp|]. go. apply returns_CAS; [done|]. go.
  apply returns_MUTEX_LOCK; [by destruct Ht|]. go. apply returns_set_table. go.
  apply returns_MUTEX_UNLOCK; [done|]. go.
  match goal with |- Q (_, mk_world (Some ?t1) _ _ _) =>
    replace t1 with (with_iterator_list (t_iterator_list t ++ [hp_next h])
      (with_items (<[Z.to_nat i := hp_next h]> (t_items t)) t))
  end.
  2:{ pose proof (tb_status _ _ _ _ _ Ht). pose proof (tb_lock _ _ _ _ _ Ht).
      destruct t; simpl in *. subst. done. }
  apply HQ; [|done| |lia]; simpl.
  - pose proof (grown_wf h h' (tb_heap _ _ _ _ _ Ht) Hg).
    pose proof Ht as []. split; simpl; try done.
    + by rewrite length_insert.
    + rewrite <- (bool_decide_eq_true_2 (Some i = Some i)) by done.
      apply (repr_new _ _ _ None); try done; [lia|]. intros j Hj. split; congruence.
    + intros q x. rewrite lookup_insert. case_decide; [lia|].
      intros Hq. apply tb_fresh0 in Hq. lia.
  - rewrite list_lookup_insert_eq; [done|]. by eapply lookup_lt_Some.
Qed.

(** ** The map *)

Definition items_of (bs : list bucket) : tailq := concat bs.*2.

Definition entry (it : ht_item_t) : cstr * (Z * Z) := (it_key it, (it_data it, it_dlen it)).

(** The finite map of the buckets. *)
Definition tmap (bs : list bucket) : gmap cstr (Z * Z) :=
  list_to_map (entry <$> items_of bs).

(** An item is in the bucket of its hash and its value is not null. *)
Record item_ok (seed size i : Z) (it : ht_item_t) : Prop := {
  io_hash : it_hash it = ht_hash_one_at_a_time seed (it_key it);
  io_bucket : it_hash it mod size = i;
  io_key : it_key it ≠ [];
  io_data : it_data it ≠ 0
}.

Record buckets_ok (seed size : Z) (bs : list bucket) : Prop := {
  bo_items : ∀ i l it, (i, l) ∈ bs → it ∈ l → item_ok seed size i it;
  bo_keys : NoDup (it_key <$> items_of bs)
}.

Lemma items_of_app b1 i l b2 :
  items_of (b1 ++ (i, l) :: b2) = items_of b1 ++ l ++ items_of b2.
Proof. unfold items_of. by rewrite fmap_app, concat_app. Qed.

Lemma elem_items_of it bs : it ∈ items_of bs ↔ ∃ i l, (i, l) ∈ bs ∧ it ∈ l.
Proof.
  unfold items_of. induction bs as [|[i l] bs IH]; simpl.
  - split; [by intros ?%elem_of_nil|]. by intros (?&?&?%elem_of_nil&_).
  - rewrite elem_of_app, IH. setoid_rewrite elem_of_cons. split.
    + intros [?|(j&l'&?&?)]; [by exists i, l; auto|by exists j, l'; auto].
    + intros (j&l'&[?|?]&?); [simplify_eq; auto|eauto].
Qed.

Lemma keys_entry (l : tailq) : (entry <$> l).*1 = it_key <$> l.
Proof. by rewrite <- list_fmap_compose. Qed.

(** Order does not matter when the keys are distinct. *)
Lemma tmap_perm bs bs' :
  NoDup (it_key <$> items_of bs) → items_of bs ≡ₚ items_of bs' → tmap bs = tmap bs'.
Proof.
  intros Hn Hp. apply list_to_map_proper; [by rewrite keys_entry|by rewrite Hp].
Qed.

Lemma tmap_lookup bs k v :
  NoDup (it_key <$> items_of bs) →
  tmap bs !! k = Some v ↔ ∃ it, it ∈ items_of bs ∧ it_key it = k ∧ (it_data it, it_dlen it) = v.
Proof.
  intros Hn. unfold tmap. rewrite <- elem_of_list_to_map by (by rewrite keys_entry).
  rewrite list_elem_of_fmap. unfold entry. split.
  - intros (it&?&?). simplify_eq. eauto.
  - intros (it&?&<-&<-). eauto.
Qed.

Lemma tmap_size bs :
  NoDup (it_key <$> items_of bs) → size (tmap bs) = length (items_of bs).
Proof.
  intros Hn. unfold tmap.
  rewrite map_size_list_to_map by (by rewrite keys_entry). by rewrite length_fmap.
Qed.

Lemma HT_KEY_EQUALS_spec k1 k2 :
  k1 ≠ [] → k2 ≠ [] → HT_KEY_EQUALS k1 k2 = Ret (bool_decide (k1 = k2)).
Proof.
  intros H1 H2. destruct k1 as [|a k1], k2 as [|b k2]; try done. unfold HT_KEY_EQUALS.
  f_equal. case_bool_decide as E.
  - simplify_eq. by rewrite Z.eqb_refl, Nat.eqb_refl.
  - by rewrite andb_false_r.
Qed.

Lemma find_item_returns l key Q :
  key ≠ [] → (∀ it, it ∈ l → it_key it ≠ []) →
  (key ∉ it_key <$> l → Q None) →
  (∀ before it after, l = before ++ it :: after → it_key it = key →
     Q (Some (before, it, after))) →
  returns (find_item l key) Q.
Proof.
  intros Hk. revert Q. induction l as [|it l IH]; simpl; intros Q Hne HQ0 HQ.
  { apply HQ0. by intros ?%elem_of_nil. }
  rewrite HT_KEY_EQUALS_spec by (done || by apply Hne; left).
  simpl. case_bool_decide as E; go.
  - by apply (HQ []).
  - apply IH.
    + intros it' Hit. apply Hne. by right.
    + intros Hn. go. apply HQ0. by intros [->|?]%elem_of_cons.
    + intros before it' after -> ?. go. by apply (HQ (it :: before)).
Qed.

(** A key is looked for in its bucket only. *)
Lemma bucket_of_key seed size bs it k :
  buckets_ok seed size bs → it ∈ items_of bs → it_key it = k →
  ∃ l, (ht_hash_one_at_a_time seed k mod size, l) ∈ bs ∧ it ∈ l.
Proof.
  intros [Hi _] Hit <-. apply elem_items_of in Hit as (i&l&Hb&Hit).
  destruct (Hi _ _ _ Hb Hit) as [Hh <- _ _]. rewrite Hh in Hb. eauto.
Qed.

(** An item in the middle of a bucket, and the buckets without it. *)
Section middle.
Context (b1 : list bucket) (i : Z) (before after : tailq) (b2 : list bucket).
Local Abbreviation without := (b1 ++ (i, before ++ after) :: b2).
Local Abbreviation with_ it := (b1 ++ (i, before ++ it :: after) :: b2).

Lemma middle_perm it : items_of (with_ it) ≡ₚ it :: items_of without.
Proof.
  rewrite !items_of_app, <- !app_assoc. simpl.
  by rewrite <- Permutation_middle, <- Permutation_middle.
Qed.
Lemma middle_length it : length (items_of (with_ it)) = S (length (items_of without)).
Proof. by rewrite middle_perm. Qed.
Lemma middle_nodup it :
  NoDup (it_key <$> items_of (with_ it)) ↔
  (it_key it ∉ it_key <$> items_of without) ∧ NoDup (it_key <$> items_of without).
Proof. rewrite middle_perm. simpl. apply NoDup_cons. Qed.
Lemma middle_tmap it :
  it_key it ∉ it_key <$> items_of without → NoDup (it_key <$> items_of without) →
  tmap (with_ it) = <[it_key it := (it_data it, it_dlen it)]> (tmap without).
Proof.
  intros Hn Hnd. unfold tmap. rewrite <- (list_to_map_cons (M := gmap cstr)).
  apply list_to_map_proper.
  - rewrite keys_entry. by apply middle_nodup.
  - by rewrite middle_perm.
Qed.
Lemma middle_none it :
  it_key it ∉ it_key <$> items_of without → tmap without !! it_key it = None.
Proof. intros Hn. apply not_elem_of_list_to_map. by rewrite keys_entry. Qed.

Lemma middle_ok seed size it :
  buckets_ok seed size (with_ it) ↔
  item_ok seed size i it ∧ (it_key it ∉ it_key <$> items_of without) ∧ buckets_ok seed size without.
Proof.
  split.
  - intros [Hi [Hk Hn]%middle_nodup]. split; [|split; [done|split; [|done]]].
    + apply (Hi i (before ++ it :: after)); set_solver.
    + intros j l x Hj Hx. apply elem_of_app in Hj as [Hj|Hj]; [apply (Hi j l); set_solver|].
      apply elem_of_cons in Hj as [Hj|Hj]; [|apply (Hi j l); set_solver].
      simplify_eq. apply (Hi i (before ++ it :: after)); set_solver.
  - intros (Hit&Hk&[Hi Hn]). split; [|by apply middle_nodup].
    intros j l x Hj Hx. apply elem_of_app in Hj as [Hj|[Hj|Hj]%elem_of_cons].
    + apply (Hi j l); set_solver.
    + simplify_eq. apply elem_of_app in Hx as [Hx|Hx].
      { apply (Hi i (before ++ after)); set_solver. }
      apply elem_of_cons in Hx as [->|Hx]; [done|].
      apply (Hi i (before ++ after)); set_solver.
    + apply (Hi j l); set_solver.
Qed.
End middle.

(** A key that its bucket does not hold is nowhere. *)
Lemma key_nowhere seed size b1 l b2 key :
  let i := ht_hash_one_at_a_time seed key mod size in
  buckets_ok seed size (b1 ++ (i, l) :: b2) → NoDup (b1 ++ (i, l) :: b2).*1 →
  key ∉ it_key <$> l → key ∉ it_key <$> items_of (b1 ++ (i, l) :: b2).
Proof.
  intros i Hok Hn Hl Hin. apply list_elem_of_fmap in Hin as (it&->&Hit).
  destruct (bucket_of_key _ _ _ _ _ Hok Hit eq_refl) as (l'&Hb&Hit'). fold i in Hb.
  apply Hl. apply list_elem_of_fmap. exists it. split; [done|].
  rewrite fmap_app in Hn. simpl in Hn. apply NoDup_app in Hn as (_&Hd&Hn).
  inversion Hn as [|?? Hi _]; subst.
  apply elem_of_app in Hb as [Hb|[Hb|Hb]%elem_of_cons].
  - destruct (Hd i); [|by left]. apply list_elem_of_fmap. by exists (i, l').
  - by simplify_eq.
  - destruct Hi. apply list_elem_of_fmap. by exists (i, l').
Qed.

Lemma bucket_keys seed size b1 i l b2 it :
  buckets_ok seed size (b1 ++ (i, l) :: b2) → it ∈ l → it_key it ≠ [].
Proof.
  intros [Hi _] Hit. apply (Hi i l it); [|done]. apply elem_of_app. right. by left.
Qed.

Lemma key_no_bucket seed size bs key :
  buckets_ok seed size bs → ht_hash_one_at_a_time seed key mod size ∉ bs.*1 →
  tmap bs !! key = None.
Proof.
  intros Hok Hn. apply not_elem_of_list_to_map. rewrite keys_entry.
  intros Hin. apply list_elem_of_fmap in Hin as (it&->&Hit).
  destruct (bucket_of_key _ _ _ _ _ Hok Hit eq_refl) as (l'&Hb&_).
  apply Hn. apply list_elem_of_fmap. eexists; split; [|done]. done.
Qed.

(** [w] holds a table that is the map [m], with or without a free callback. *)
Record map_at (cb : bool) (m : gmap cstr (Z * Z)) (t : hashtable_t) (o : gmap Z hobj) (h : heap)
    (bs : list bucket) : Prop := {
  ma_table : is_table None t o h bs;
  ma_ok : buckets_ok (t_seed t) (t_size t) bs;
  ma_count : t_count t = Z.of_nat (length (items_of bs));
  ma_small : Z.of_nat (length (items_of bs)) < 2 ^ 64;
  ma_map : tmap bs = m;
  ma_cb : t_free_item_cb t = cb
}.

Definition map_in (cb : bool) (w : world) (m : gmap cstr (Z * Z)) : Prop :=
  ∃ t bs, w_table w = Some t ∧ map_at cb m t (w_objs w) (w_heap w) bs.

Lemma map_in_size cb w m :
  map_in cb w m → ∃ t, w_table w = Some t ∧ t_count t = Z.of_nat (size m).
Proof.
  intros (t&bs&Hw&[_ Hok Hc _ <- _]). exists t. split; [done|].
  rewrite Hc, tmap_size; [done|]. by destruct Hok.
Qed.

Lemma map_at_table cb m t o h o' h' bs :
  map_at cb m t o h bs → is_table None t o' h' bs → map_at cb m t o' h' bs.
Proof. intros [] ?. by split. Qed.

(** The map after an item is changed, removed or added. *)
Lemma map_at_replace cb m t o h o' h' b1 i before it after b2 d l :
  let it' := mk_item (it_hash it) (it_key it) d l in
  map_at cb m t o h (b1 ++ (i, before ++ it :: after) :: b2) →
  is_table None t o' h' (b1 ++ (i, before ++ it' :: after) :: b2) → d ≠ 0 →
  map_at cb (<[it_key it := (d, l)]> m) t o' h' (b1 ++ (i, before ++ it' :: after) :: b2).
Proof.
  intros it' [_ Hok Hc Hs <- Hcb] Ht Hd. apply middle_ok in Hok as (Hit&Hn&Hok).
  rewrite middle_length in Hc, Hs. split; rewrite ?middle_length; try done.
  - apply middle_ok. split; [|done]. by destruct Hit.
  - rewrite !middle_tmap by (done || by destruct Hok). simpl. by rewrite insert_insert_eq.
Qed.
Lemma map_at_remove cb m t o h o' h' b1 i before it after b2 :
  map_at cb m t o h (b1 ++ (i, before ++ it :: after) :: b2) →
  is_table None t o' h' (b1 ++ (i, before ++ after) :: b2) →
  map_at cb (delete (it_key it) m) (with_count (u64 (t_count t - 1)) t) o' h'
    (b1 ++ (i, before ++ after) :: b2).
Proof.
  intros [_ Hok Hc Hs <- Hcb] Ht. apply middle_ok in Hok as (Hit&Hn&Hok).
  rewrite middle_length in Hc, Hs. split; simpl; try done.
  - by apply is_table_count.
  - rewrite Hc, u64_small by lia. lia.
  - lia.
  - rewrite middle_tmap by (done || by destruct Hok).
    by rewrite delete_insert_id by (by apply middle_none).
Qed.
Lemma map_at_add cb m t o h o' h' b1 i l b2 it :
  map_at cb m t o h (b1 ++ (i, l) :: b2) →
  is_table None t o' h' (b1 ++ (i, l ++ [it]) :: b2) →
  item_ok (t_seed t) (t_size t) i it → m !! it_key it = None →
  Z.of_nat (size m) + 1 < 2 ^ 64 →
  map_at cb (<[it_key it := (it_data it, it_dlen it)]> m) (with_count (u64 (t_count t + 1)) t)
    o' h' (b1 ++ (i, l ++ [it]) :: b2).
Proof.
  intros [_ Hok Hc Hs <- Hcb] Ht Hit Hm Hsz. rewrite <- (app_nil_r l) in *.
  rewrite <- app_assoc in *. simpl in *.
  assert (it_key it ∉ it_key <$> items_of (b1 ++ (i, l ++ []) :: b2)) as Hn.
  { rewrite <- keys_entry. by apply not_elem_of_list_to_map. }
  rewrite tmap_size in Hsz by (by destruct Hok).
  split; simpl; rewrite ?middle_length; try done.
  - by apply is_table_count.
  - by apply middle_ok.
  - rewrite Hc, u64_small by lia. lia.
  - lia.
  - rewrite middle_tmap by (done || by destruct Hok). done.
Qed.

Lemma rp_nodup_tb lk t o h bs : is_table lk t o h bs → NoDup bs.*1.
Proof. intros []. by destruct tb_repr0. Qed.

(** What a callback on the item of [key] may do: it keeps the table, and its
    result is a removal (1) or a new value that is not null. *)
Definition callback_ok {U : Type} (cb : bool) (m : gmap cstr (Z * Z)) (key : cstr) (h : heap)
    (t : option hashtable_t) (o : gmap Z hobj) (Q : Z * U * world → Prop)
    (r : Z * (Z * Z) * U * world) : Prop :=
  let '(ret, (d, l), u, w1) := r in
  w_table w1 = t ∧ w_objs w1 = o ∧ hp_next h ≤ hp_next (w_heap w1) ∧ wf_heap (w_heap w1) ∧
  (ret ≠ 1 → d ≠ 0) ∧
  ∀ w', w_heap w' = w_heap w1 → w_freed w' = w_freed w1 →
    map_in cb w' (if ret =? 1 then delete key m else <[key := (d, l)]> m) →
    Q (if ret =? 1 then 0 else ret, u, w').

Section call.
Context {U : Type} (key : cstr) (c : option (pair_callback U)) (u : U).
Context (cb : bool) (w : world) (m : gmap cstr (Z * Z)) (Q : Z * U * world → Prop).
Context (Hkey : key ≠ []).
Context (Hnone : m !! key = None →
  ∀ w', w_heap w' = w_heap w → w_freed w' = w_freed w → map_in cb w' m → Q (-1, u, w')).
Context (Hsome : ∀ d l, m !! key = Some (d, l) →
  match c with
  | None => ∀ w', w_heap w' = w_heap w → w_freed w' = w_freed w → map_in cb w' m → Q (0, u, w')
  | Some g =>
      ∀ t o, t_free_item_cb t = cb →
        returns (g key d l u (mk_world (Some t) o (w_heap w) (w_freed w)))
          (callback_ok cb m key (w_heap w) (Some t) o Q)
  end).

Lemma call_found t o o' i before it after b1 b2 p :
  map_at cb m t o (w_heap w) (b1 ++ (i, before ++ it :: after) :: b2) →
  is_table (Some i) t o' (w_heap w) (b1 ++ (i, before ++ it :: after) :: b2) →
  t_items t !! Z.to_nat i = Some p → it_key it = key →
  returns
    (('(ret, user) ←
        match c with
        | None => mret (0, u)
        | Some cb =>
            '(ret, (data, dlen), user) ← cb key (it_data it) (it_dlen it) u;
            let item := mk_item (it_hash it) (it_key it) data dlen in
            _ ← set_head p (λ _, before ++ item :: after);
            if ret =? 1 then
              _ ← set_head p (λ _, before ++ after);
              _ ← ATOMIC_DECREMENT_count;
              mret (0, user)
            else mret (ret, user)
        end;
      _ ← SPIN_UNLOCK p;
      mret (ret, user)) (mk_world (Some t) o' (w_heap w) (w_freed w))) Q.
Proof.
  intros Hma Ht Hp <-. pose proof Hma as [_ Hok Hc Hs Hm Hcb].
  apply middle_ok in Hok as (Hit&Hn&Hok).
  pose proof (middle_tmap b1 i before after b2 it Hn (bo_keys _ _ _ Hok)) as Hmt.
  assert (m !! it_key it = Some (it_data it, it_dlen it)) as Hl.
  { by rewrite <- Hm, Hmt, lookup_insert_eq. }
  specialize (Hsome _ _ Hl).
  destruct c as [g|]; go.
  - specialize (Hsome t o' Hcb). eapply returns_mono; [exact Hsome|].
    intros [[[ret [d l]] u'] [t1 o1 h1 f1]] (?&?&Hnx&Hwf&Hd&HQ). simpl in *. subst t1 o1. go.
    apply (is_table_heap _ _ _ _ h1) in Ht; [|done..].
    eapply returns_set_head; [by eapply locked_slot|]. simpl. go.
    destruct (Z.eqb_spec ret 1) as [->|Hret]; go.
    + eapply returns_set_head; [by rewrite lookup_insert_eq|]. rewrite insert_insert_eq. go.
      apply returns_set_table. go.
      eapply returns_SPIN_UNLOCK; [by rewrite lookup_insert_eq|]. rewrite insert_insert_eq. go.
      apply HQ; [done..|]. eexists _, _. split; [done|].
      eapply map_at_remove; [exact Hma|]. simpl.
      rewrite <- (insert_insert_eq o' p _ (OItems (mk_ilist (before ++ after) true i))).
      eapply is_table_unlock; [|done]. by eapply is_table_put.
    + eapply returns_SPIN_UNLOCK; [by rewrite lookup_insert_eq|]. rewrite insert_insert_eq. go.
      apply HQ; [done..|]. eexists _, _. split; [done|].
      eapply map_at_replace; [exact Hma| |by apply Hd]. simpl.
      set (it' := mk_item _ _ d l).
      rewrite <- (insert_insert_eq o' p _ (OItems (mk_ilist (before ++ it' :: after) true i))).
      eapply is_table_unlock; [|done]. by eapply is_table_put.
  - eapply returns_SPIN_UNLOCK; [by eapply locked_slot|]. go. apply Hsome; [done..|].
    eexists _, _. split; [done|]. eapply map_at_table; [exact Hma|]. by eapply is_table_unlock.
Qed.

(** [ht_call_internal] runs the callback on the value of the key, if any. *)
Lemma ht_call_returns : map_in cb w m → returns (ht_call_internal key c u w) Q.
Proof.
  intros (t&bs&Hw&Hm). pose proof Hm as [Ht Hok _ _ Hmm _].
  assert (w = mk_world (Some t) (w_objs w) (w_heap w) (w_freed w)) as Ew.
  { rewrite <- Hw. by destruct w. }
  rewrite Ew. unfold ht_call_internal. go. apply returns_load_table. go.
  eapply ht_get_list_returns; [done| |].
  - intros Hin. rewrite Z.eqb_refl. go. apply Hnone; [|done..|by exists t, bs].
    rewrite <- Hmm. by eapply key_no_bucket.
  - intros o' p b1 l b2 -> Hp Hp0 Ht'. rewrite (proj2 (Z.eqb_neq _ _)) by done. go.
    eapply returns_load_items; [by eapply locked_slot|]. go. cbn [ils_head].
    apply find_item_returns; [done| | |].
    + intros it. by eapply bucket_keys.
    + intros Hn. go. eapply returns_SPIN_UNLOCK; [by eapply locked_slot|]. go.
      apply Hnone; [|done..|].
      * rewrite <- Hmm. apply not_elem_of_list_to_map. rewrite keys_entry.
        eapply key_nowhere; [done| |done]. by eapply rp_nodup_tb.
      * eexists t, _. split; [done|]. eapply map_at_table; [exact Hm|]. by eapply is_table_unlock.
    + intros before it after -> Hk. eapply call_found; [exact Hm|..]; done.
Qed.
End call.

(** ** Growing *)

(** An item appended to the bucket [i], created at the end if needed. *)
Fixpoint add_to (i : Z) (it : ht_item_t) (bs : list bucket) : list bucket :=
  match bs with
  | [] => [(i, [it])]
  | (j, l) :: bs => if j =? i then (j, l ++ [it]) :: bs else (j, l) :: add_to i it bs
  end.

(** The buckets of a table of size [n] that gets the items in this order. *)
Definition rehash (n : Z) (bs : list bucket) (items : tailq) : list bucket :=
  fold_left (λ bs it, add_to (it_hash it mod n) it bs) items bs.

Lemma add_to_new i it bs : i ∉ bs.*1 → add_to i it bs = bs ++ [(i, [it])].
Proof.
  induction bs as [|[j l] bs IH]; simpl; intros Hn; [done|].
  apply not_elem_of_cons in Hn as [? ?]. rewrite (proj2 (Z.eqb_neq _ _)) by done.
  by rewrite IH.
Qed.
Lemma add_to_old i it b1 l b2 :
  i ∉ b1.*1 → add_to i it (b1 ++ (i, l) :: b2) = b1 ++ (i, l ++ [it]) :: b2.
Proof.
  induction b1 as [|[j l'] bs IH]; simpl; intros Hn; [by rewrite Z.eqb_refl|].
  apply not_elem_of_cons in Hn as [? ?]. rewrite (proj2 (Z.eqb_neq _ _)) by done.
  by rewrite IH.
Qed.
Lemma add_to_items i it bs : items_of (add_to i it bs) ≡ₚ it :: items_of bs.
Proof.
  unfold items_of. induction bs as [|[j l] bs IH]; simpl; [done|].
  destruct (j =? i); simpl.
  - rewrite <- app_assoc. simpl. by rewrite <- Permutation_middle.
  - rewrite IH. by rewrite <- Permutation_middle.
Qed.
Lemma rehash_items n items bs : items_of (rehash n bs items) ≡ₚ items ++ items_of bs.
Proof.
  revert bs. induction items as [|it items IH]; intros bs; [done|].
  unfold rehash in *. simpl. rewrite IH, add_to_items. by rewrite Permutation_middle.
Qed.

Definition placed (n : Z) (bs : list bucket) : Prop :=
  ∀ i l it, (i, l) ∈ bs → it ∈ l → it_hash it mod n = i.

Lemma add_to_elem i it bs j l :
  (j, l) ∈ add_to i it bs →
  (j, l) ∈ bs ∨ (j = i ∧ ((l = [it]) ∨ ∃ l', (j, l') ∈ bs ∧ l = l' ++ [it])).
Proof.
  induction bs as [|[k lk] bs IH]; simpl.
  - intros Hin%list_elem_of_singleton. simplify_eq. auto.
  - case_if; intros Hin; apply elem_of_cons in Hin as [Hin|Hin].
    + simplify_eq. right. split; [done|]. right. exists lk. split; [by left|done].
    + left. by right.
    + simplify_eq. left. by left.
    + destruct (IH Hin) as [?|(->&[?|(l'&?&?)])]; [left; by right|auto|].
      right. split; [done|]. right. exists l'. split; [by right|done].
Qed.
Lemma add_to_placed n it bs : placed n bs → placed n (add_to (it_hash it mod n) it bs).
Proof.
  intros Hp i l x Hin Hx. apply add_to_elem in Hin as [?|(->&[->|(l'&?&->)])].
  - by eapply Hp.
  - by apply list_elem_of_singleton in Hx as ->.
  - apply elem_of_app in Hx as [?|?%list_elem_of_singleton]; [by eapply Hp|by subst].
Qed.
Lemma rehash_placed n items bs : placed n bs → placed n (rehash n bs items).
Proof.
  revert bs. induction items as [|it items IH]; intros bs Hp; [done|].
  by apply IH, add_to_placed.
Qed.

(** The new array holds the rehashed items of the bucket being emptied. *)
Record moving (t : hashtable_t) (o : gmap Z hobj) (h : heap) (niter : ptrs) (bs : list bucket)
    (n : Z) : Prop := {
  mv_repr : repr o (t_items t) niter None bs;
  mv_length : Z.of_nat (length (t_items t)) = n;
  mv_size : 0 < n;
  mv_fresh : ∀ p x, o !! p = Some x → 0 < p < hp_next h;
  mv_iter : ∀ p, p ∈ niter → p < hp_next h;
  mv_heap : wf_heap h;
  mv_alloc : alloc_ok h
}.

(** The pointers of a table's buckets hold bucket lists. *)
Lemma repr_iter_obj o items iter lk bs p :
  repr o items iter lk bs → p ∈ iter → ∃ x, o !! p = Some x.
Proof.
  intros [Hf _ _] Hin. apply list_elem_of_lookup_1 in Hin as [k Hk].
  destruct (Forall2_lookup_l _ _ _ _ _ Hf Hk) as (b'&_&[Ho _ _ _]). eauto.
Qed.
Lemma repr_slot_iter o items iter lk b1 i l b2 p :
  repr o items iter lk (b1 ++ (i, l) :: b2) → items !! Z.to_nat i = Some p →
  p ∈ iter ∧ o !! p = Some (OItems (mk_ilist l (bool_decide (lk = Some i)) i)).
Proof.
  intros Hr Hp. destruct (repr_split _ _ _ _ _ _ _ _ Hr) as (i1&q&i2&->&_&[Ho Hs _ _]).
  simpl in *. rewrite Hp in Hs. simplify_eq. split; [|done]. set_solver.
Qed.

(** One item goes from [list] to its new bucket. *)
Lemma moving_put t o h niter b1 idx l b2 n list i it rest p :
  moving t o h niter (b1 ++ (idx, l) :: b2) n → list ∉ niter →
  o !! list = Some (OItems (mk_ilist (it :: rest) true i)) →
  t_items t !! Z.to_nat idx = Some p →
  moving t (<[p := OItems (mk_ilist (l ++ [it]) false idx)]>
             (<[list := OItems (mk_ilist rest true i)]> o)) h niter
    (b1 ++ (idx, l ++ [it]) :: b2) n ∧ p ∈ niter ∧ p ≠ list ∧
  o !! p = Some (OItems (mk_ilist l false idx)).
Proof.
  intros [Hr Hlen Hn Hfr Hi Hw Hal] Hl Ho Hp.
  destruct (repr_slot_iter _ _ _ _ _ _ _ _ _ Hr Hp) as [Hpi Hop].
  split_and!; [|done|set_solver|done]. split; try done.
  - apply (repr_update_open _ _ _ _ _ l); [|done..].
    eapply repr_frame; [done|]. intros q Hq. rewrite lookup_insert_ne; [done|]. set_solver.
  - intros q x. rewrite !lookup_insert. repeat case_decide; subst; intros; by eapply Hfr.
Qed.

(** A bucket list of the new array is created. *)
Lemma moving_new t o h niter bs n idx h' :
  moving t o h niter bs n → 0 ≤ idx → t_items t !! Z.to_nat idx = Some 0 →
  grown h h' → hp_next h' = hp_next h + 1 →
  moving (with_items (<[Z.to_nat idx := hp_next h]> (t_items t)) t)
    (<[hp_next h := OItems (mk_ilist [] false idx)]> o) h' (niter ++ [hp_next h])
    (bs ++ [(idx, [])]) n.
Proof.
  intros [Hr Hlen Hn Hfr Hi Hw Hal] Hx Hp Hg Hnx. split; simpl; try done.
  - apply repr_new_open; try done; [|destruct Hw; lia].
    intros Hin. apply Hi in Hin. lia.
  - by rewrite length_insert.
  - intros q x. rewrite lookup_insert. destruct Hw. case_decide; subst; [lia|].
    intros Hq. apply Hfr in Hq. lia.
  - intros q. rewrite elem_of_app, list_elem_of_singleton. intros [Hq| ->]; [|lia].
    apply Hi in Hq. lia.
  - by eapply grown_wf.
  - by destruct Hg.
Qed.

Lemma move_items_returns list n i items t o h f niter bs :
  moving t o h niter bs n → list ∉ niter →
  o !! list = Some (OItems (mk_ilist items true i)) →
  returns (move_items list n items niter (mk_world (Some t) o h f)) (λ '(niter', w'),
    ∃ its o' h', w' = mk_world (Some (with_items its t)) o' h' f ∧
      moving (with_items its t) o' h' niter' (rehash n bs items) n ∧
      o' !! list = Some (OItems (mk_ilist [] true i)) ∧
      (∀ q, q ∉ niter' → q ≠ list → o' !! q = o !! q) ∧
      (∀ q, q ∈ niter → q ∈ niter') ∧
      (∀ q, q ∈ niter' → q ∈ niter ∨ hp_next h ≤ q) ∧ grown h h').
Proof.
  revert t o h niter bs. induction items as [|it items IH]; intros t o h niter bs Hmv Hl Ho.
  { simpl. go. exists (t_items t), o, h.
    split_and!; try done; [by destruct t|by destruct t|auto|]. apply grown_refl. by destruct Hmv. }
  cbn [move_items]. go. set (idx := it_hash it mod n).
  assert (0 ≤ idx < n) as Hidx by (apply Z.mod_pos_bound; by destruct Hmv).
  assert (∃ p, t_items t !! Z.to_nat idx = Some p) as [p Hp].
  { apply lookup_lt_is_Some. destruct Hmv. lia. }
  eapply returns_get_slot; [lia|exact Hp|]. go.
  destruct (repr_lookup _ _ _ _ _ _ _ (mv_repr _ _ _ _ _ _ Hmv) (proj1 Hidx) Hp)
    as [[-> Hin]|(Hp0&b1&l&b2&Hbs&_)].
  - rewrite Z.eqb_refl. go. apply returns_new_obj; [by destruct Hmv|]. intros h1 Hg1 Hn1.
    assert (0 < hp_next h) by (by destruct Hmv as [_ _ _ _ _ [? _] _]).
    rewrite (proj2 (Z.eqb_neq _ _)) by lia. go. eapply returns_set_slot; [lia|exact Hp|]. go.
    eapply returns_set_index; [by rewrite lookup_insert_eq|]. rewrite insert_insert_eq. simpl. go.
    assert (hp_next h ≠ list) as Hne. { intros <-. apply (mv_fresh _ _ _ _ _ _ Hmv) in Ho. lia. }
    pose proof (moving_new _ _ _ _ _ _ _ _ Hmv (proj1 Hidx) Hp Hg1 Hn1) as Hmv1.
    assert (<[Z.to_nat idx := hp_next h]> (t_items t) !! Z.to_nat idx = Some (hp_next h)) as Hp1.
    { rewrite list_lookup_insert_eq; [done|]. by eapply lookup_lt_Some. }
    eapply (moving_put _ _ _ _ bs idx [] [] n list i it items) in Hmv1 as (Hmv2&Hq1&_&Hq2);
      [|set_solver|by rewrite lookup_insert_ne|exact Hp1].
    eapply returns_set_head; [by rewrite lookup_insert_ne|]. go.
    eapply returns_set_head; [by rewrite lookup_insert_ne|]. go. simpl.
    eapply returns_mono; [apply IH; [exact Hmv2|set_solver|by rewrite lookup_insert_ne, lookup_insert_eq]|].
    intros [niter' w'] (its&o'&h'&->&Hmv'&Ho'&Hfr&Hsub&Hnew&Hg'). exists its, o', h'.
    split_and!; try done.
    + unfold rehash in *. simpl. fold idx. by rewrite add_to_new.
    + intros q Hq Hql. rewrite Hfr by done. 
      assert (hp_next h ≠ q) by (intros <-; apply Hq, Hsub; set_solver).
      by rewrite !lookup_insert_ne by done.
    + set_solver.
    + intros q [[?|?%list_elem_of_singleton]%elem_of_app|?]%Hnew; [auto|right; lia|right; lia].
    + by eapply grown_trans.
  - rewrite (proj2 (Z.eqb_neq _ _)) by done. go.
    rewrite Hbs in Hmv. pose proof (moving_put _ _ _ _ _ _ _ _ _ _ _ _ _ _ Hmv Hl Ho Hp)
      as (Hmv2&Hpi&Hpl&Hop).
    eapply returns_set_head; [done|]. go.
    eapply returns_set_head; [by rewrite lookup_insert_ne|]. go. simpl.
    eapply returns_mono; [apply IH; [exact Hmv2|done|by rewrite lookup_insert_ne, lookup_insert_eq]|].
    intros [niter' w'] (its&o'&h'&->&Hmv'&Ho'&Hfr&Hsub&Hnew&Hg'). exists its, o', h'.
    split_and!; try done.
    + unfold rehash in *. simpl. fold idx. rewrite Hbs, add_to_old; [done|].
      destruct Hmv as [[_ Hnd _] _ _ _ _ _ _]. rewrite fmap_app in Hnd.
      apply NoDup_app in Hnd as (_&Hd&_). intros ?. apply (Hd idx); [done|by left].
    + intros q Hq Hql. rewrite Hfr by done.
      assert (p ≠ q) by (intros <-; by apply Hq, Hsub). by rewrite !lookup_insert_ne by done.
Qed.

(** The old bucket lists [ps] still to be emptied hold [bsr]. *)
Definition pending (o : gmap Z hobj) (len : nat) (ps : ptrs) (bsr : list bucket) : Prop :=
  Forall2 (λ p b, o !! p = Some (OItems (mk_ilist b.2 false b.1)) ∧
                  0 ≤ b.1 < Z.of_nat len) ps bsr.

Lemma pending_frame o o' len ps bsr :
  pending o len ps bsr → (∀ p, p ∈ ps → o' !! p = o !! p) → pending o' len ps bsr.
Proof.
  unfold pending. rewrite !Forall2_same_length_lookup. intros [Hl Hf] Ho. split; [done|].
  intros k p b Hp Hb. rewrite Ho; [by eapply Hf|]. by apply list_elem_of_lookup_2 in Hp.
Qed.

Lemma moving_frame t t' o o' h h' niter bs n :
  moving t o h niter bs n → t_items t' = t_items t → (∀ p, p ∈ niter → o' !! p = o !! p) →
  (∀ p x, o' !! p = Some x → ∃ y, o !! p = Some y) → grown h h' →
  moving t' o' h' niter bs n.
Proof.
  intros [Hr Hlen Hn Hfr Hi Hw Hal] Ht Ho Hd Hg. pose proof (gr_next _ _ Hg).
  split; rewrite ?Ht; try done.
  - by eapply repr_frame.
  - intros p x Hp. apply Hd in Hp as [y Hp]. apply Hfr in Hp. lia.
  - intros p Hp. apply Hi in Hp. lia.
  - by eapply grown_wf.
  - by destruct Hg.
Qed.

Lemma grow_lists_returns n ps bsr old t o h f niter bs :
  moving t o h niter bs n → pending o (length old) ps bsr → NoDup ps →
  (∀ p, p ∈ ps → p ∉ niter) →
  returns (grow_lists ps n old niter (mk_world (Some t) o h f)) (λ '(niter', w'),
    ∃ its itr o' h', let t' := with_iterator_list itr (with_items its t) in
      w' = mk_world (Some t') o' h' f ∧
      moving t' o' h' niter' (rehash n bs (items_of bsr)) n ∧ grown h h').
Proof.
  revert bsr old t o h niter bs. induction ps as [|p ps IH];
    intros bsr old t o h niter bs Hmv Hp Hnd Hdis.
  { inversion Hp; subst. simpl. go. exists (t_items t), (t_iterator_list t), o, h.
    assert (with_iterator_list (t_iterator_list t) (with_items (t_items t) t) = t) as ->
      by (by destruct t).
    split_and!; try done. apply grown_refl. by destruct Hmv. }
  inversion Hp as [|? [i l] ? bsr' [Hop Hi] Hp']; subst. simpl in Hop, Hi.
  apply NoDup_cons in Hnd as [Hpn Hnd]. cbn [grow_lists]. go.
  eapply returns_load_items; [exact Hop|]. simpl ils_index. go.
  eapply returns_SPIN_LOCK; [exact Hop|]. go.
  eapply returns_load_items; [by rewrite lookup_insert_eq|]. simpl ils_head. go.
  assert (p ∉ niter) as Hpi by (apply Hdis; by left).
  assert (moving t (<[p := OItems (mk_ilist l true i)]> o) h niter bs n) as Hmv1.
  { apply (moving_frame t t o _ h h); try done.
    - intros q Hq. rewrite lookup_insert_ne; [done|]. by intros ->.
    - intros q x. rewrite lookup_insert. case_decide; subst; eauto.
    - apply grown_refl. by destruct Hmv. }
  eapply returns_mono; [eapply move_items_returns; [exact Hmv1|done|by rewrite lookup_insert_eq]|].
  intros [niter1 w1] (its&o1&h1&->&Hmv2&Ho1&Hfr&Hsub&Hnew&Hg1). go.
  apply returns_set_table. go. eapply returns_SPIN_UNLOCK; [exact Ho1|]. go.
  eapply returns_free_obj; [by rewrite lookup_insert_eq|]. go. rewrite delete_insert_eq.
  assert (∀ q, q ∈ ps → q ∉ niter1) as Hdis1.
  { intros q Hq Hq1. apply Hnew in Hq1 as [Hq1|Hq1].
    - apply (Hdis q); [by right|done].
    - apply list_elem_of_lookup_1 in Hq as [k Hk].
      destruct (Forall2_lookup_l _ _ _ _ _ Hp' Hk) as (b'&_&[Hob _]).
      apply (mv_fresh _ _ _ _ _ _ Hmv) in Hob. lia. }
  assert (p ∉ niter1) as Hpi1.
  { intros Hq1. apply Hnew in Hq1 as [Hq1|Hq1]; [done|].
    apply (mv_fresh _ _ _ _ _ _ Hmv) in Hop. lia. }
  eapply returns_mono; [eapply (IH bsr')|].
  - eapply (moving_frame _ _ o1 _ h1 h1); [exact Hmv2|done| | |].
    + intros q Hq. rewrite lookup_delete_ne; [done|]. by intros ->.
    + intros q x. rewrite lookup_delete. case_decide; [done|eauto].
    + apply grown_refl. by destruct Hmv2.
  - rewrite length_insert. eapply pending_frame; [exact Hp'|]. intros q Hq.
    assert (q ≠ p) by (by intros ->).
    rewrite lookup_delete_ne, Hfr, lookup_insert_ne by (done || by apply Hdis1). done.
  - done.
  - done.
  - intros [niter' w'] (its'&itr'&o'&h'&->&Hmv'&Hg'). exists its', itr', o', h'.
    split_and!; [done| |by eapply grown_trans].
    unfold items_of, rehash in *. simpl. by rewrite fold_left_app.
Qed.

Lemma repr_empty o n : repr o (replicate n 0) [] None [].
Proof.
  split; [constructor|constructor|].
  intros i p _ Hp. apply lookup_replicate in Hp as [-> _]. done.
Qed.

Lemma repr_pending o items iter bs :
  repr o items iter None bs → pending o (length items) iter bs.
Proof.
  intros [Hf _ _]. eapply Forall2_impl; [exact Hf|].
  intros p b [Ho Hs Hi _]. split; [by rewrite Ho, bool_decide_eq_false_2|].
  apply lookup_lt_Some in Hs. lia.
Qed.

(** The rehashed table holds the same map. *)
Lemma map_at_rehash cb m t o h bs t' o' h' niter n :
  map_at cb m t o h bs → moving t' o' h' niter (rehash n [] (items_of bs)) n →
  t_iterator_list t' = niter → t_status t' = HT_STATUS_IDLE → t_iterator_lock t' = false →
  t_size t' = n → 8 * n < 2 ^ 63 → t_max_size t' = t_max_size t → t_seed t' = t_seed t →
  t_count t' = t_count t → t_free_item_cb t' = t_free_item_cb t →
  map_at cb m t' o' h' (rehash n [] (items_of bs)).
Proof.
  intros [[] [Hit Hnd] Hc Hs Hm Hcb] [] <- ?? Hsz ???? Hcb'.
  assert (items_of (rehash n [] (items_of bs)) ≡ₚ items_of bs) as Hp.
  { rewrite rehash_items. unfold items_of at 2. simpl. by rewrite app_nil_r. }
  assert (placed n (rehash n [] (items_of bs))) as Hpl.
  { apply rehash_placed. by intros i l it ?%elem_of_nil. }
  split; rewrite ?Hp; try congruence.
  - split; try done; congruence.
  - split; [|by rewrite Hp]. intros i l it Hb Hi.
    assert (it ∈ items_of bs) as Hin. { rewrite <- Hp. apply elem_items_of. eauto. }
    apply elem_items_of in Hin as (j&l'&Hj&Hil'). destruct (Hit _ _ _ Hj Hil') as [Hh _ ??].
    split; try done; [congruence|]. rewrite Hsz. by eapply Hpl.
  - subst m. symmetry. by apply tmap_perm.
Qed.

(** The size after growing: doubled up to the maximum, unless the new array
    would not fit in memory. *)
Definition grown_size (t : hashtable_t) : Z :=
  if negb (t_max_size t =? 0) && (t_max_size t <=? t_size t) then t_size t else
  let n := if negb (t_max_size t =? 0) && (t_max_size t <? 2 * t_size t)
           then t_max_size t else 2 * t_size t in
  if 8 * n <? 2 ^ 63 then n else t_size t.

Lemma ht_grow_table_returns cb m t o h f bs :
  map_at cb m t o h bs → alloc_ok h →
  returns (ht_grow_table (mk_world (Some t) o h f)) (λ '(_, w'),
    w_freed w' = f ∧ grown h (w_heap w') ∧ map_in cb w' m ∧
    t_size <$> w_table w' = Some (grown_size t)).
Proof.
  intros Hm Hal. pose proof (ma_table _ _ _ _ _ _ Hm) as Ht.
  pose proof (tb_status _ _ _ _ _ Ht) as Hst.
  assert (∀ h' (Q : unit * world → Prop),
    grown h h' → (∀ w', w_freed w' = f → grown h (w_heap w') → map_in cb w' m →
      t_size <$> w_table w' = Some (t_size t) → Q (tt, w')) →
    returns ((ATOMIC_CAS HT_STATUS_GROW HT_STATUS_IDLE ≫= λ _, mret ())
      (mk_world (Some (with_status HT_STATUS_GROW t)) o h' f)) Q) as Hback.
  { intros h' Q Hg HQ. go. apply returns_CAS; [done|]. go. apply HQ; [done..| |done].
    change (with_status _ (with_status _ t)) with (with_status HT_STATUS_IDLE t).
    rewrite (with_status_back t) by done. exists t, bs. split; [done|].
    eapply map_at_table; [done|]. by eapply is_table_grown. }
  unfold ht_grow_table. go. apply returns_CAS; [done|]. go. apply returns_load_table.
  change (t_max_size (with_status HT_STATUS_GROW t)) with (t_max_size t).
  change (t_size (with_status HT_STATUS_GROW t)) with (t_size t).
  unfold grown_size. case_if; [apply Hback; [by apply grown_refl|auto]|]. go.
  apply returns_alloc_ans; [done|]. intros h1 Hg1 _. go.
  set (ns := u64 (Z.shiftl (t_size t) 1)).
  assert (ns = 2 * t_size t) as Hns.
  { unfold ns. rewrite Z.shiftl_mul_pow2 by lia. destruct Ht. rewrite u64_small; lia. }
  rewrite Hns.
  match goal with |- context [calloc_array ?x] => set (n := x) end.
  assert (0 < n) as Hn.
  { unfold n. destruct Ht. case_if; [|lia].
    destruct (Z.eqb_spec (t_max_size t) 0); [done|]. simpl in *. lia. }
  apply returns_calloc_array; [by destruct Hg1|]. intros h2 Hg2 _. go.
  pose proof (grown_trans _ _ _ Hg1 Hg2) as Hg.
  destruct (8 * n <? 2 ^ 63) eqn:Hsm; [|by apply Hback; auto]. bool_prop. go.
  apply returns_MUTEX_LOCK; [by destruct Ht|]. go. apply returns_load_table. go.
  apply returns_set_table. go. apply returns_set_table. go. simpl t_items. simpl t_iterator_list.
  eapply returns_mono; [eapply grow_lists_returns with (bs := []) (bsr := bs)|].
  - destruct Ht. split; simpl; try done; [apply repr_empty|rewrite length_replicate; lia| | | |].
    + intros p x Hp. apply tb_fresh0 in Hp. pose proof (gr_next _ _ Hg). lia.
    + by intros p ?%elem_of_nil.
    + by eapply grown_wf.
    + by destruct Hg.
  - apply repr_pending. by destruct Ht.
  - eapply repr_iter_nodup. by destruct Ht.
  - intros p _ ?%elem_of_nil. done.
  - intros [niter w'] (its&itr&o'&h'&->&Hmv&Hg'). go. apply returns_set_table. go.
    apply returns_MUTEX_UNLOCK; [done|]. go. apply returns_CAS; [done|]. go. simpl.
    split; [done|]. split; [by eapply grown_trans|]. split; [|done].
    eexists _, _. split; [done|]. eapply map_at_rehash; [exact Hm|..]; simpl; try done.
    eapply moving_frame; [exact Hmv|done|done|eauto|]. apply grown_refl. by destruct Hmv.
Qed.

(** ** Setting *)

(** The heap after a call: what was there stays. *)
Record extends (h h' : heap) : Prop := {
  ex_hp : hp h ⊆ hp h'; ex_next : hp_next h ≤ hp_next h';
  ex_wf : wf_heap h'; ex_alloc : alloc_ok h'; ex_freed : hp_freed h' = hp_freed h
}.

Lemma extends_refl h : wf_heap h → alloc_ok h → extends h h.
Proof. by split. Qed.
Lemma extends_trans h1 h2 h3 : extends h1 h2 → extends h2 h3 → extends h1 h3.
Proof. intros [] []. split; [by etrans|lia|done|done|congruence]. Qed.
Lemma grown_extends h h' : wf_heap h → grown h h' → extends h h'.
Proof.
  intros Hw Hg. pose proof (grown_wf h h' Hw Hg). destruct Hg as [Hh ? ? ?].
  split; try done. by rewrite Hh.
Qed.
Lemma extends_lookup h h' a x : extends h h' → hp h !! a = Some x → hp h' !! a = Some x.
Proof. intros [] ?. by eapply lookup_weaken. Qed.

Lemma load_prefix_returns t o h f p s n Q :
  hp h !! p = Some (OBytes s) → 0 ≤ n ≤ Z.of_nat (length s) →
  Q (take (Z.to_nat n) s, mk_world t o h f) → returns (load_prefix p n (mk_world t o h f)) Q.
Proof.
  intros Hp Hn HQ. unfold load_prefix. case_if; [by subst n|].
  go. unfold on_heap. go. unfold load_bytes. simpl. rewrite Hp. go.
  exact HQ.
Qed.

Lemma copy_block_returns t o h f data len s Q :
  wf_heap h → alloc_ok h → hp h !! data = Some (OBytes s) → 0 ≤ len ≤ Z.of_nat (length s) →
  (∀ q h', extends h h' → hp h !! q = None → q ≠ 0 →
     hp h' !! q = Some (OBytes (take (Z.to_nat len) s)) →
     Q (q, mk_world t o h' f)) →
  returns (copy_block data len (mk_world t o h f)) Q.
Proof.
  intros [Hn Hw] Hal Hd Hlen HQ. unfold copy_block. go. unfold on_heap at 1. go.
  assert (data ≠ hp_next h) as Hne by (intros ->; apply Hw in Hd; lia).
  assert (hp h !! hp_next h = None) as Hnew.
  { destruct (hp h !! hp_next h) eqn:E; [apply Hw in E; lia|done]. }
  assert (∀ al, Forall (λ b, b = true) al →
    returns ((if hp_next h =? 0 then mret 0
       else load_prefix data len ≫= λ s0,
              on_heap (store (hp_next h) (OBytes s0)) ≫= λ _, mret (hp_next h))
      (mk_world t o (mk_heap (<[hp_next h := OBytes []]> (hp h)) (hp_next h + 1) al (hp_freed h)) f)) Q)
    as Hgo.
  { intros al Hf. rewrite (proj2 (Z.eqb_neq _ _)) by lia. go.
    eapply load_prefix_returns; [simpl; by rewrite lookup_insert_ne|done|].
    go. unfold on_heap. go. apply HQ; [|done|lia|].
    - split; simpl; try done; [|lia|].
      + rewrite insert_insert_eq. by apply insert_subseteq.
      + split; simpl; [lia|]. intros a x. rewrite !lookup_insert.
        repeat case_decide; subst; try (intros; lia). intros Ha. apply Hw in Ha. lia.
    - simpl. by rewrite lookup_insert_eq. }
  unfold alloc. unfold alloc_ok in Hal. cbn [w_heap].
  destruct (hp_alloc h) as [|b al]; [|inversion Hal; subst]; go; by apply Hgo.
Qed.

(** The value to be stored: the pointer, or a copy of the block at it. *)
Definition value_ok (copy : bool) (data dlen : Z) (h : heap) : Prop :=
  if copy then ∃ s, hp h !! data = Some (OBytes s) ∧ 0 < dlen ≤ Z.of_nat (length s)
  else data ≠ 0.
Definition value_is (copy : bool) (data dlen : Z) (h : heap) (q : Z) : Prop :=
  q ≠ 0 ∧
  if copy then q ≠ data ∧
    ∃ s, hp h !! data = Some (OBytes s) ∧ hp h !! q = Some (OBytes (take (Z.to_nat dlen) s))
  else q = data.

Lemma value_ok_extends copy data dlen h h' :
  value_ok copy data dlen h → extends h h' → value_ok copy data dlen h'.
Proof.
  unfold value_ok. destruct copy; [|done]. intros (s&Hs&?) He. exists s.
  split; [by eapply extends_lookup|done].
Qed.
Lemma value_is_extends copy data dlen h h' q :
  value_is copy data dlen h q → extends h h' → value_is copy data dlen h' q.
Proof.
  unfold value_is. destruct copy; [|done]. intros (?&?&s&Hs&Hq) He. do 2 (split; [done|]).
  exists s. split; by eapply extends_lookup.
Qed.

Lemma value_returns t o h f copy data dlen Q :
  wf_heap h → alloc_ok h → value_ok copy data dlen h →
  (∀ q h', extends h h' → value_is copy data dlen h' q → Q (q, mk_world t o h' f)) →
  returns ((if copy then copy_block data dlen else mret data) (mk_world t o h f)) Q.
Proof.
  intros Hw Hal Hv HQ. unfold value_ok, value_is in *. destruct copy.
  - destruct Hv as (s&Hs&Hl). eapply copy_block_returns; [done|done|exact Hs|lia|].
    intros q h' He Hnew Hq0 Hq. apply HQ; [done|]. split; [done|].
    split; [by intros ->; congruence|]. exists s.
    split; [by eapply extends_lookup|done].
  - go. apply HQ; [by apply extends_refl|done].
Qed.

(** The bucket [i] at [p] is locked by an operation on a table that is [m]. *)
Record locked_at (cb : bool) (m : gmap cstr (Z * Z)) (t : hashtable_t) (o : gmap Z hobj)
    (h : heap) (p : Z) (b1 : list bucket) (i : Z) (l : tailq) (b2 : list bucket) : Prop := {
  la_table : is_table (Some i) t o h (b1 ++ (i, l) :: b2);
  la_slot : t_items t !! Z.to_nat i = Some p;
  la_ptr : p ≠ 0;
  la_map : map_at cb m t (<[p := OItems (mk_ilist l false i)]> o) h (b1 ++ (i, l) :: b2)
}.

Lemma la_obj cb m t o h p b1 i l b2 :
  locked_at cb m t o h p b1 i l b2 → o !! p = Some (OItems (mk_ilist l true i)).
Proof. intros []. by eapply locked_slot. Qed.

Lemma locked_at_heap cb m t o h h' p b1 i l b2 :
  locked_at cb m t o h p b1 i l b2 → extends h h' → locked_at cb m t o h' p b1 i l b2.
Proof.
  intros [Ht Hs Hp Hm] [_ Hn Hw _ _]. split; try done.
  - by eapply is_table_heap.
  - eapply map_at_table; [exact Hm|]. eapply is_table_heap; [by destruct Hm|done..].
Qed.

(** Another list of items in the locked bucket. *)
Lemma locked_at_put cb m m' t t' o h p b1 i l l' b2 :
  locked_at cb m t o h p b1 i l b2 → t_items t' = t_items t →
  is_table (Some i) t' (<[p := OItems (mk_ilist l' true i)]> o) h (b1 ++ (i, l') :: b2) →
  (is_table None t (<[p := OItems (mk_ilist l' false i)]> o) h (b1 ++ (i, l') :: b2) →
   map_at cb m' t' (<[p := OItems (mk_ilist l' false i)]> o) h (b1 ++ (i, l') :: b2)) →
  locked_at cb m' t' (<[p := OItems (mk_ilist l' true i)]> o) h p b1 i l' b2.
Proof.
  intros [Ht Hs Hp Hm] Hi Ht' Hm'. split; try done; [by rewrite Hi|].
  rewrite insert_insert_eq. apply Hm'.
  rewrite <- (insert_insert_eq o p _ (OItems (mk_ilist l' true i))).
  eapply is_table_unlock; [|exact Hs]. by eapply is_table_put.
Qed.

(** What a setting operation leaves behind: [fr] are the freed values. *)
Definition set_result (cb : bool) (w : world) (m : gmap cstr (Z * Z)) (fr : list Z) (w' : world) :
    Prop :=
  extends (w_heap w) (w_heap w') ∧ w_freed w' = w_freed w ++ fr ∧ map_in cb w' m.

Definition prev_freed (cb prev_data : bool) (prev : Z) : list Z :=
  if cb && negb prev_data && negb (prev =? 0) then [prev] else [].

Lemma set_done_returns cb m t o h f p b1 i l b2 prev plen pd pl :
  locked_at cb m t o h p b1 i l b2 → alloc_ok h → (prev = 0 → plen = 0) →
  returns (set_done p prev plen pd pl (mk_world (Some t) o h f)) (λ '(r, w'),
    r = (0, mk_out (when pd prev) (when pl plen)) ∧
    set_result cb (mk_world (Some t) o h f) m (prev_freed cb pd prev) w').
Proof.
  intros Hla Hal Hpl. unfold set_done. go.
  eapply returns_SPIN_UNLOCK; [by eapply la_obj|]. go. apply returns_load_table. go.
  pose proof (la_map _ _ _ _ _ _ _ _ _ _ Hla) as Hm.
  set (w1 := mk_world (Some t) (<[p := OItems (mk_ilist l false i)]> o) h f).
  pose proof (tb_heap _ _ _ _ _ (la_table _ _ _ _ _ _ _ _ _ _ Hla)) as Hwf.
  match goal with |- returns ?g _ => 
    apply (returns_mono g (λ '(_, w'), w_freed w' = f ∧ grown h (w_heap w') ∧ map_in cb w' m)) end.
  { case_if.
    { eapply returns_mono; [by eapply ht_grow_table_returns|]. intros [? w']. naive_solver. }
    go. split; [done|].
    split; [by apply grown_refl|]. by eexists _, _. }
  intros [[] w2] (Hf2&Hg2&t2&bs2&Ht2&Hm2). go. unfold set_result, prev_freed.
  apply (grown_extends _ _ Hwf) in Hg2.
  destruct (Z.eqb_spec prev 0) as [->|Hp0]; go.
  - rewrite andb_false_r, app_nil_r. split_and!; try done. by exists t2, bs2.
  - rewrite andb_true_r. destruct pd; go.
    + rewrite andb_false_r, app_nil_r. split_and!; try done. by exists t2, bs2.
    + rewrite andb_true_r. destruct w2 as [wt o2 h2 f2]. simpl in *. subst wt f2.
      apply returns_call_free_item_cb. go. simpl.
      rewrite (ma_cb _ _ _ _ _ _ Hm2). split_and!; try done. by exists t2, bs2.
Qed.

Lemma add_item_returns cb m t o h f p b1 i l b2 hash key data dlen copy :
  locked_at cb m t o h p b1 i l b2 → alloc_ok h →
  hash = ht_hash_one_at_a_time (t_seed t) key → hash mod t_size t = i → key ≠ [] →
  m !! key = None → Z.of_nat (size m) + 1 < 2 ^ 64 → value_ok copy data dlen h →
  returns (add_item p hash key data dlen copy (mk_world (Some t) o h f)) (λ '(ok, w'),
    ok = true ∧ ∃ q t' o' h' l', w' = mk_world (Some t') o' h' f ∧ extends h h' ∧
      value_is copy data dlen h' q ∧
      locked_at cb (<[key := (q, dlen)]> m) t' o' h' p b1 i l' b2).
Proof.
  intros Hla Hal Hh Hi Hk Hm Hs Hv.
  pose proof (tb_heap _ _ _ _ _ (la_table _ _ _ _ _ _ _ _ _ _ Hla)) as Hwf.
  unfold add_item. go. apply returns_alloc_ans; [done|]. intros h1 Hg1 _. go.
  match goal with |- returns ?g _ => apply (returns_mono g (λ '(ok, w'),
    ok = true ∧ ∃ h2, w' = mk_world (Some t) o h2 f ∧ grown h1 h2)) end.
  { case_if.
    - apply returns_alloc_ans; [by destruct Hg1|]. intros h2 Hg2 _. eauto.
    - go. split; [done|]. exists h1. split; [done|]. apply grown_refl. by destruct Hg1. }
  intros [ok w2] (->&h2&->&Hg2). go.
  pose proof (grown_extends _ _ Hwf (grown_trans _ _ _ Hg1 Hg2)) as He2.
  match goal with |- returns ?g _ => apply (returns_mono g (λ '(q, w'),
    ∃ h3, w' = mk_world (Some t) o h3 f ∧ extends h2 h3 ∧ value_is copy data dlen h3 q)) end.
  { pose proof (value_ok_extends _ _ _ _ _ Hv He2) as Hv2.
    assert ((if copy then if negb (dlen =? 0) then copy_block data dlen else mret 0 else mret data) =
      (if copy then copy_block data dlen else mret data)) as ->.
    { destruct copy; [|done]. destruct Hv as (s&_&?).
      by rewrite (proj2 (Z.eqb_neq _ _)) by lia. }
    eapply value_returns; [by destruct He2|by destruct He2|exact Hv2|]. eauto. }
  intros [q w3] (h3&->&He3&Hq). go. pose proof (extends_trans _ _ _ He2 He3) as He.
  rewrite (proj2 (Z.eqb_neq q 0)), andb_false_r by (by destruct Hq).
  pose proof (locked_at_heap _ _ _ _ _ _ _ _ _ _ _ Hla He) as Hla3. go.
  eapply returns_set_head; [by eapply la_obj|]. go. apply returns_set_table. go. simpl.
  split; [done|]. eexists q, _, _, h3, _. split_and!; [done..|].
  set (it := mk_item hash key q dlen).
  eapply (locked_at_put _ _ _ _ _ _ _ _ _ _ _ (l ++ [it])); [exact Hla3|done| |].
  - apply is_table_count. eapply is_table_put; by destruct Hla3.
  - intros Ht. eapply (map_at_add _ _ _ _ _ _ _ _ _ _ _ it); try done; [by destruct Hla3|].
    destruct Hq. by split.
Qed.

Lemma replace_item_returns cb m t o h f p b1 i before it after b2 data dlen copy :
  locked_at cb m t o h p b1 i (before ++ it :: after) b2 → alloc_ok h →
  value_ok copy data dlen h →
  returns (replace_item p before it after data dlen copy (mk_world (Some t) o h f))
    (λ '(ok, w'), ok = true ∧ ∃ q o' h' l', w' = mk_world (Some t) o' h' f ∧ extends h h' ∧
      value_is copy data dlen h' q ∧
      locked_at cb (<[it_key it := (q, dlen)]> m) t o' h' p b1 i l' b2).
Proof.
  intros Hla Hal Hv.
  pose proof (tb_heap _ _ _ _ _ (la_table _ _ _ _ _ _ _ _ _ _ Hla)) as Hwf.
  unfold replace_item. go. eapply returns_set_head; [by eapply la_obj|]. go.
  eapply value_returns; [done..|]. intros q h' He Hq. go.
  rewrite (proj2 (Z.eqb_neq q 0)), andb_false_r by (by destruct Hq). go.
  eapply returns_set_head; [by rewrite lookup_insert_eq|]. go. simpl.
  rewrite insert_insert_eq. split; [done|]. eexists q, _, h', _. split_and!; [done..|].
  pose proof (locked_at_heap _ _ _ _ _ _ _ _ _ _ _ Hla He) as Hla'.
  eapply (locked_at_put _ _ _ _ _ _ _ _ _ _ _ (before ++ mk_item _ _ q dlen :: after));
    [exact Hla'|done| |].
  - eapply is_table_put; by destruct Hla'.
  - intros Ht. eapply map_at_replace; [by destruct Hla'|done|]. by destruct Hq.
Qed.

(** The bucket of a key: found and locked, or created. *)
Lemma set_bucket_returns {A} cb m t o h f hash (K : Z → H A) Q bs :
  map_at cb m t o h bs → alloc_ok h →
  let i := hash mod t_size t in
  (∀ t' o' h' p b1 l b2,
     locked_at cb m t' o' h' p b1 i l b2 → grown h h' →
     t_size t' = t_size t → t_seed t' = t_seed t →
     returns (K p (mk_world (Some t') o' h' f)) Q) →
  returns ((list ← ht_get_list hash;
            list ← (if list =? 0 then ht_set_list hash else mret list);
            K list) (mk_world (Some t) o h f)) Q.
Proof.
  intros Hm Hal i HK. pose proof (ma_table _ _ _ _ _ _ Hm) as Ht. go.
  eapply ht_get_list_returns; [exact Ht| |].
  - intros Hin. rewrite Z.eqb_refl. go.
    eapply ht_set_list_returns; [exact Ht|done|exact Hin|].
    intros its itr o' h' p t' Ht' Hg Hp Hp0.
    eapply (HK t' o' h' p bs [] []); [|done..]. split; [exact Ht'|done|done|].
    destruct Hm as [_ [Hi Hn] Hc Hs Hmm Hcb].
    assert (items_of (bs ++ [(i, [])]) = items_of bs) as Hit.
    { rewrite items_of_app. unfold items_of at 2. simpl. by rewrite app_nil_r. }
    split; rewrite ?Hit; try done.
    + by eapply is_table_unlock.
    + split; [|by rewrite Hit]. intros j l it Hj Hx.
      apply elem_of_app in Hj as [Hj|Hj%list_elem_of_singleton]; [by eapply Hi|].
      simplify_eq. by apply elem_of_nil in Hx.
    + unfold tmap. by rewrite Hit.
  - intros o' p b1 l b2 -> Hp Hp0 Ht'. rewrite (proj2 (Z.eqb_neq _ _)) by done. go.
    eapply HK; [|by apply grown_refl|done..]. split; [exact Ht'|done|done|].
    eapply map_at_table; [exact Hm|]. by eapply is_table_unlock.
Qed.

(** What [ht_set_internal] does to the map. *)
Definition set_spec (cb : bool) (w : world) (m : gmap cstr (Z * Z)) (key : cstr) (data dlen : Z)
    (pd pl copy inx : bool) (r : Z * out) (w' : world) : Prop :=
  match m !! key with
  | Some (d, n) =>
      if inx
      then r = (1, mk_out (when pd d) (when pl n)) ∧ set_result cb w m [] w'
      else r = (0, mk_out (when pd d) (when pl n)) ∧
           ∃ q, value_is copy data dlen (w_heap w') q ∧
                set_result cb w (<[key := (q, dlen)]> m) (prev_freed cb pd d) w'
  | None =>
      r = (0, mk_out (when pd 0) (when pl 0)) ∧
      ∃ q, value_is copy data dlen (w_heap w') q ∧
           set_result cb w (<[key := (q, dlen)]> m) [] w'
  end.

(** What a locked bucket says about a key that belongs to it. *)
Lemma locked_none cb m t o h p b1 l b2 key :
  locked_at cb m t o h p b1 (ht_hash_one_at_a_time (t_seed t) key mod t_size t) l b2 →
  key ∉ it_key <$> l → m !! key = None.
Proof.
  intros [Ht _ _ [_ Hok _ _ <- _]] Hn. apply not_elem_of_list_to_map. rewrite keys_entry.
  eapply key_nowhere; [exact Hok| |done]. by eapply rp_nodup_tb.
Qed.
Lemma locked_some cb m t o h p b1 i before it after b2 :
  locked_at cb m t o h p b1 i (before ++ it :: after) b2 →
  m !! it_key it = Some (it_data it, it_dlen it) ∧ it_data it ≠ 0.
Proof.
  intros [_ _ _ [_ Hok _ _ <- _]]. apply middle_ok in Hok as (Hit&Hn&Hok).
  split; [|by destruct Hit]. by rewrite middle_tmap, lookup_insert_eq by (done || by destruct Hok).
Qed.

Lemma set_result_trans cb w m fr w' t o h f :
  set_result cb (mk_world (Some t) o h f) m fr w' → extends (w_heap w) h → w_freed w = f →
  set_result cb w m fr w'.
Proof.
  intros (He&Hf&Hm) Hx <-. split_and!; [by eapply extends_trans|done|done].
Qed.

Lemma ht_set_internal_returns cb w m key data dlen pd pl copy inx :
  map_in cb w m → alloc_ok (w_heap w) → key ≠ [] → value_ok copy data dlen (w_heap w) →
  Z.of_nat (size m) + 1 < 2 ^ 64 →
  returns (ht_set_internal key data dlen pd pl copy inx w) (λ '(r, w'),
    set_spec cb w m key data dlen pd pl copy inx r w').
Proof.
  intros (t&bs&Hw&Hm) Hal Hkey Hv Hs.
  assert (w = mk_world (Some t) (w_objs w) (w_heap w) (w_freed w)) as Ew.
  { rewrite <- Hw. by destruct w. }
  pose proof (tb_heap _ _ _ _ _ (ma_table _ _ _ _ _ _ Hm)) as Hwf.
  unfold ht_set_internal. destruct (length key =? 0)%nat eqn:Hk0.
  { apply Nat.eqb_eq in Hk0. by destruct key. }
  rewrite Ew at 1. rewrite returns_st_bind. apply returns_load_table. cbv beta iota zeta.
  eapply (set_bucket_returns cb m t (w_objs w) (w_heap w) (w_freed w) _ _ _ bs Hm Hal).
  intros t' o' h' p b1 l b2 Hla Hg Hsz Hsd.
  apply (grown_extends _ _ Hwf) in Hg. rewrite <- Hsz, <- Hsd in *.
  pose proof (value_ok_extends _ _ _ _ _ Hv Hg) as Hv'.
  rewrite (proj2 (Z.eqb_neq p 0)) by (by destruct Hla). go.
  eapply returns_load_items; [by eapply la_obj|]. go. cbn [ils_head].
  apply find_item_returns; [done| | |].
  - intros it. eapply bucket_keys. by destruct Hla as [_ _ _ []].
  - intros Hn. pose proof (locked_none _ _ _ _ _ _ _ _ _ _ Hla Hn) as Hmk. go.
    rewrite Z.eqb_refl. go.
    eapply returns_mono; [eapply add_item_returns; try done; by destruct Hg|].
    intros [ok w1] (->&q&t1&o1&h1&l'&->&He1&Hq&Hla1). go.
    eapply returns_mono; [eapply set_done_returns; [exact Hla1|by destruct He1|done]|].
    intros [r w'] [-> Hr]. unfold set_spec. rewrite Hmk. split; [done|]. exists q.
    unfold prev_freed in Hr. rewrite andb_false_r in Hr. split.
    + eapply value_is_extends; [done|]. by destruct Hr.
    + eapply set_result_trans; [done| |done]. by eapply extends_trans.
  - intros before it after Hl Hk. subst l key.
    destruct (locked_some _ _ _ _ _ _ _ _ _ _ _ _ Hla) as [Hmk Hd]. go.
    rewrite (proj2 (Z.eqb_neq (it_data it) 0)) by done. unfold set_spec. rewrite Hmk.
    destruct inx; go.
    + eapply returns_SPIN_UNLOCK; [by eapply la_obj|]. go. split; [done|].
      split_and!; [done|by rewrite app_nil_r|]. eexists _, _. split; [done|]. by destruct Hla.
    + eapply returns_mono; [eapply replace_item_returns; try done; by destruct Hg|].
      intros [ok w1] (->&q&o1&h1&l'&->&He1&Hq&Hla1). go.
      eapply returns_mono; [eapply set_done_returns; [exact Hla1|by destruct He1|done]|].
      intros [r w'] [-> Hr]. split; [done|]. exists q. split.
      * eapply value_is_extends; [done|]. by destruct Hr.
      * eapply set_result_trans; [done| |done]. by eapply extends_trans.
Qed.
