(* ===== verification/HashtableSpec.v ===== *)
(** * Correctness of the hash table

    Creation, release and iteration of src/src/hashtable.c, and the theorems
    that the table implements a finite map from keys to values. *)

From S2P Require Import Prelude Linklist Hashtable HashtableMap.

(** The values of a map, and the size of the array of a table. *)
Definition values (m : gmap cstr (Z * Z)) : list Z := (fst ∘ snd) <$> map_to_list m.
Definition array_size (w : world) : option Z := t_size <$> w_table w.

(** ** Creation *)

Lemma map_at_new cb size mx seed o h :
  0 < size → 8 * size < 2 ^ 63 → 0 ≤ mx →
  (∀ p x, o !! p = Some x → 0 < p < hp_next h) → wf_heap h →
  map_at cb ∅ (mk_table size mx 0 HT_STATUS_IDLE seed (replicate (Z.to_nat size) 0) cb [] false)
    o h [].
Proof.
  intros. split; simpl; try done.
  - split; simpl; try done; [rewrite length_replicate; lia|apply repr_empty].
  - split; [by intros ??? ?%elem_of_nil|constructor].
Qed.

Lemma ht_create_returns size mx cb rnd w :
  0 ≤ size → 8 * size < 2 ^ 63 → 0 ≤ mx →
  (∀ p x, w_objs w !! p = Some x → 0 < p < hp_next (w_heap w)) →
  wf_heap (w_heap w) → alloc_ok (w_heap w) →
  returns (ht_create size mx cb rnd w) (λ '(ok, w'),
    ok = true ∧ set_result cb w ∅ [] w').
Proof.
  intros Hs Hs2 Hmx Hfr Hwf Hal. destruct w as [wt o h f]. simpl in *.
  unfold ht_create. go. apply returns_alloc_ans; [done|]. intros h1 Hg1 Hn1. go.
  unfold new_table. go. unfold ht_init. go.
  set (sz := if HT_SIZE_MIN <? size then size else HT_SIZE_MIN).
  assert (0 < sz ∧ 8 * sz < 2 ^ 63) as [Hsz Hsz2].
  { unfold sz. destruct (Z.ltb_spec HT_SIZE_MIN size); unfold HT_SIZE_MIN in *; lia. }
  apply returns_set_table. go. apply returns_calloc_array; [by destruct Hg1|].
  intros h2 Hg2 Hn2. rewrite (proj2 (Z.ltb_lt _ _)) by done. go.
  apply returns_set_table. go. apply returns_set_table. go. apply returns_set_table. go.
  apply returns_set_table. go. apply returns_alloc_ans; [by destruct Hg2|].
  intros h3 Hg3 Hn3. go. apply returns_set_table. go. apply returns_set_table. go.
  split; [done|].
  pose proof (grown_trans _ _ _ (grown_trans _ _ _ Hg1 Hg2) Hg3) as Hg.
  split_and!; simpl; [by apply grown_extends|by rewrite app_nil_r|].
  eexists _, []. split; [done|]. apply map_at_new; try done.
  - intros p x Hp. apply Hfr in Hp. pose proof (gr_next _ _ Hg). simpl in *. lia.
  - by eapply grown_wf.
Qed.

(** ** Iteration *)

(** What an iteration callback does to a sequence of items: the items that
    stay, the values that are freed, and whether the iteration stops. *)
Fixpoint visit {U} (g : iterator_callback U) (items : tailq) (u : U) :
    tailq * list Z * bool * U :=
  match items with
  | [] => ([], [], false, u)
  | it :: rest =>
      let '(rc, u) := g (it_key it) (it_data it) (it_dlen it) u in
      if rc =? HT_ITERATOR_CONTINUE then
        let '(kept, fr, stop, u) := visit g rest u in (it :: kept, fr, stop, u)
      else if rc =? HT_ITERATOR_STOP then (it :: rest, [], true, u)
      else if rc =? HT_ITERATOR_REMOVE_AND_STOP then (rest, [it_data it], true, u)
      else let '(kept, fr, stop, u) := visit g rest u in (kept, it_data it :: fr, stop, u)
  end.

Lemma visit_app {U} (g : iterator_callback U) l1 l2 u :
  visit g (l1 ++ l2) u =
    let '(k1, f1, s1, u1) := visit g l1 u in
    if s1 : bool then (k1 ++ l2, f1, true, u1)
    else let '(k2, f2, s2, u2) := visit g l2 u1 in (k1 ++ k2, f1 ++ f2, s2, u2).
Proof.
  revert u. induction l1 as [|it l1 IH]; intros u; simpl.
  { by destruct (visit g l2 u) as [[[? ?] ?] ?]. }
  destruct (g _ _ _ u) as [rc u0]. rewrite IH.
  destruct (visit g l1 u0) as [[[k1 f1] s1] u1].
  repeat case_match; by simplify_eq.
Qed.

(** A table of which a bucket gets locked. *)
Lemma map_at_lock cb m t o h b1 i l b2 p :
  map_at cb m t o h (b1 ++ (i, l) :: b2) → t_items t !! Z.to_nat i = Some p → p ≠ 0 →
  locked_at cb m t (<[p := OItems (mk_ilist l true i)]> o) h p b1 i l b2.
Proof.
  intros Hm Hp Hp0. pose proof (ma_table _ _ _ _ _ _ Hm) as Ht.
  assert (is_table (Some i) t (<[p := OItems (mk_ilist l true i)]> o) h (b1 ++ (i, l) :: b2)) as Hl
    by (by apply is_table_lock).
  split; try done. eapply map_at_table; [exact Hm|]. by eapply is_table_unlock.
Qed.

(** An item of the locked bucket is removed. *)
Lemma locked_at_remove cb m t o h p b1 i before it after b2 :
  locked_at cb m t o h p b1 i (before ++ it :: after) b2 →
  locked_at cb (delete (it_key it) m) (with_count (u64 (t_count t - 1)) t)
    (<[p := OItems (mk_ilist (before ++ after) true i)]> o) h p b1 i (before ++ after) b2.
Proof.
  intros Hla. eapply locked_at_put; [exact Hla|done| |].
  - apply is_table_count. eapply is_table_put; by destruct Hla.
  - intros Ht. eapply map_at_remove; [by destruct Hla|done].
Qed.

Section foreach.
Context {U : Type} (g : iterator_callback U) (cb : bool).

Local Abbreviation fr_log fr := (if cb then fr else []).

Lemma foreach_items_returns m t o h f p b1 i kept items b2 u :
  locked_at cb m t o h p b1 i (kept ++ items) b2 →
  returns (foreach_items g p kept items u (mk_world (Some (with_iterator_lock true t)) o h f))
    (λ '(r, w'), let '(k, fr, s, u1) := visit g items u in
       r = (s, u1) ∧ ∃ m' c o', let t' := with_count c t in
       w' = mk_world (Some (with_iterator_lock true t')) o' h (f ++ fr_log fr) ∧
       locked_at cb m' t' o' h p b1 i (kept ++ k) b2).
Proof.
  revert m t o f kept u. induction items as [|it items IH]; intros m t o f kept u Hla; simpl.
  { go. split; [done|]. exists m, (t_count t), o. 
    replace (with_count (t_count t) t) with t by (by destruct t).
    replace (fr_log []) with (@nil Z) by (by destruct cb). by rewrite app_nil_r. }
  destruct (g _ _ _ u) as [rc u0].
  destruct (rc =? HT_ITERATOR_CONTINUE).
  { rewrite cons_middle, app_assoc in Hla. eapply returns_mono; [by apply (IH m t o f (kept ++ [it]) u0)|].
    intros [r w']. destruct (visit g items u0) as [[[k fr] s] u1]. by rewrite <- app_assoc. }
  destruct (rc =? HT_ITERATOR_STOP); go.
  { split; [done|]. exists m, (t_count t), o.
    replace (with_count (t_count t) t) with t by (by destruct t).
    replace (fr_log []) with (@nil Z) by (by destruct cb). by rewrite app_nil_r. }
  eapply returns_set_head; [by eapply la_obj|]. go. apply returns_call_free_item_cb. go.
  apply returns_set_table. go. apply locked_at_remove in Hla as Hla'. simpl.
  rewrite (ma_cb _ _ _ _ _ _ (la_map _ _ _ _ _ _ _ _ _ _ Hla)).
  destruct (rc =? HT_ITERATOR_REMOVE_AND_STOP); go.
  { split; [done|]. by eexists _, _, _. }
  eapply returns_mono; [by eapply (IH _ (with_count (u64 (t_count t - 1)) t))|].
  intros [r w']. destruct (visit g items u0) as [[[k fr] s] u1].
  intros (->&m'&c&o'&->&Hla2). split; [done|]. exists m', c, o'. split; [|done].
  rewrite <- app_assoc. by destruct cb.
Qed.

Lemma foreach_lists_returns ps m t o h f i1 b1 bs u :
  map_at cb m t o h (b1 ++ bs) → t_iterator_list t = i1 ++ ps → length i1 = length b1 →
  returns (foreach_lists g ps u (mk_world (Some (with_iterator_lock true t)) o h f))
    (λ '(r, w'), let '(k, fr, s, u1) := visit g (items_of bs) u in
       r = u1 ∧ ∃ m' c o' bs', let t' := with_count c t in
       w' = mk_world (Some (with_iterator_lock true t')) o' h (f ++ fr_log fr) ∧
       map_at cb m' t' o' h (b1 ++ bs') ∧ items_of bs' = k).
Proof.
  revert m t o f i1 b1 bs u. induction ps as [|p ps IH]; intros m t o f i1 b1 bs u Hm Hi Hlen.
  { pose proof (Forall2_length _ _ _ (rp_lists _ _ _ _ _ (tb_repr _ _ _ _ _ (ma_table _ _ _ _ _ _ Hm))))
      as Hl. rewrite Hi, !length_app in Hl. simpl in Hl. destruct bs; [|simpl in Hl; lia].
    simpl. go. split; [done|]. exists m, (t_count t), o, [].
    replace (with_count (t_count t) t) with t by (by destruct t).
    replace (fr_log []) with (@nil Z) by (by destruct cb). by rewrite !app_nil_r in *. }
  pose proof (rp_lists _ _ _ _ _ (tb_repr _ _ _ _ _ (ma_table _ _ _ _ _ _ Hm))) as Hf.
  rewrite Hi in Hf. apply Forall2_app_inv in Hf as [_ Hf]; [|done].
  inversion Hf as [|? [i l] ? bs' [Ho Hs Hi0 Hp0] Hf']; subst. simpl in *. 
  pose proof (map_at_lock _ _ _ _ _ _ _ _ _ _ Hm Hs Hp0) as Hla. go.
  eapply returns_SPIN_LOCK; [exact Ho|]. go.
  eapply returns_load_items; [by rewrite lookup_insert_eq|]. go. cbn [ils_head].
  eapply returns_mono; [by eapply (foreach_items_returns m t _ _ _ _ b1 i [] l bs')|].
  change (items_of ((i, l) :: bs')) with (l ++ items_of bs'). rewrite visit_app.
  intros [[s u'] w1]. destruct (visit g l u) as [[[k1 f1] s1] u1] eqn:Hv.
  intros (?&m1&c1&o1&->&Hla1). simplify_eq. go.
  eapply returns_SPIN_UNLOCK; [by eapply la_obj|]. go.
  apply la_map in Hla1. simpl in Hla1. destruct s1; go.
  - split; [done|]. eexists m1, c1, _, _. split; [done|]. split; [exact Hla1|]. done.
  - rewrite cons_middle, app_assoc in Hla1.
    eapply returns_mono; [eapply (IH _ (with_count c1 t) _ _ (i1 ++ [p]) (b1 ++ [(i, k1)]));
      [exact Hla1|simpl; by rewrite <- app_assoc|rewrite !length_app; simpl; lia]|].
    intros [r w']. destruct (visit g (items_of bs') u1) as [[[k2 f2] s2] u2].
    intros (->&m2&c2&o2&bs2&->&Hm2&<-). split; [done|]. rewrite <- app_assoc in Hm2.
    exists m2, c2, o2, ((i, k1) :: bs2). split_and!; [|exact Hm2|done].
    rewrite <- app_assoc. by destruct cb.
Qed.
End foreach.

Lemma ht_foreach_pair_returns {U} (g : iterator_callback U) cb w m u :
  map_in cb w m →
  returns (ht_foreach_pair g u w) (λ '(u', w'), ∃ its : tailq,
    entry <$> its ≡ₚ map_to_list m ∧
    let '(kept, fr, _, u1) := visit g its u in
    u' = u1 ∧ w_heap w' = w_heap w ∧ w_freed w' = w_freed w ++ (if cb then fr else []) ∧
    map_in cb w' (list_to_map (entry <$> kept))).
Proof.
  intros (t&bs&Hw&Hm). destruct w as [wt o h f]. simpl in *. subst wt.
  pose proof (ma_table _ _ _ _ _ _ Hm) as Ht.
  unfold ht_foreach_pair. go. apply returns_MUTEX_LOCK; [by destruct Ht|]. go.
  apply returns_load_table. go.
  eapply returns_mono; [by apply (foreach_lists_returns g cb _ m t o h f [] [] bs)|].
  intros [r w']. destruct (visit g (items_of bs) u) as [[[k fr] s] u1] eqn:Hv.
  intros (->&m'&c&o'&bs'&->&Hm'&Hk). go. apply returns_MUTEX_UNLOCK; [done|]. go.
  exists (items_of bs). rewrite Hv. simpl. split_and!; try done.
  - destruct Hm as [_ [_ Hn] _ _ <- _]. unfold tmap.
    rewrite map_to_list_to_map; [done|]. by rewrite keys_entry.
  - simpl in Hm'. eexists (with_count c t), bs'. split; simpl.
    + f_equal. pose proof (tb_lock _ _ _ _ _ Ht). destruct t; simpl in *. by subst.
    + subst k. fold (tmap bs'). by rewrite (ma_map _ _ _ _ _ _ Hm').
Qed.

(** ** Release *)

Lemma clear_items_returns t o h f p i items :
  o !! p = Some (OItems (mk_ilist items true i)) →
  t_count t < 2 ^ 64 → Z.of_nat (length items) ≤ t_count t →
  returns (clear_items p items (mk_world (Some t) o h f)) (λ '(_, w'),
    w' = mk_world (Some (with_count (t_count t - Z.of_nat (length items)) t))
           (<[p := OItems (mk_ilist [] true i)]> o) h
           (f ++ if t_free_item_cb t then it_data <$> items else [])).
Proof.
  revert t o f. induction items as [|it items IH]; intros t o f Ho Hc Hl; simpl.
  { go. rewrite Z.sub_0_r. replace (with_count (t_count t) t) with t by (by destruct t).
    rewrite insert_id by done. by destruct (t_free_item_cb t); rewrite app_nil_r. }
  simpl in Hl. go. eapply returns_set_head; [exact Ho|]. go.
  apply returns_call_free_item_cb. go. apply returns_set_table. go.
  assert (u64 (t_count t - 1) = t_count t - 1) as Hu by (rewrite u64_small; lia).
  eapply returns_mono; [apply IH; simpl; [by rewrite lookup_insert_eq|lia|lia]|].
  intros [[] w'] ->. rewrite insert_insert_eq. simpl. rewrite Hu. f_equal.
  - f_equal. unfold with_count. simpl. f_equal. lia.
  - destruct (t_free_item_cb t); by rewrite <- ?app_assoc, ?app_nil_r.
Qed.

Lemma filter_ne_cons (p : Z) ps : NoDup (p :: ps) → filter (λ q, q ≠ p) (p :: ps) = ps.
Proof.
  intros [Hp _]%NoDup_cons. rewrite filter_cons_False by (intros ?; done).
  induction ps as [|q ps IH]; [done|]. apply not_elem_of_cons in Hp as [? ?].
  rewrite filter_cons_True by done. by rewrite IH.
Qed.

Lemma clear_lists_returns ps t o h f bs :
  t_iterator_list t = ps → repr o (t_items t) ps None bs →
  t_count t = Z.of_nat (length (items_of bs)) → t_count t < 2 ^ 64 →
  returns (clear_lists ps (mk_world (Some t) o h f)) (λ '(_, w'), ∃ its o',
    let t' := with_items its (with_count 0 (with_iterator_list [] t)) in
    w' = mk_world (Some t') o' h
           (f ++ if t_free_item_cb t then it_data <$> items_of bs else []) ∧
    repr o' its [] None [] ∧ length its = length (t_items t) ∧
    (∀ q, o' !! q = if decide (q ∈ ps) then None else o !! q)).
Proof.
  revert t o f bs. induction ps as [|p ps IH]; intros t o f bs Hi Hr Hc Hs.
  { pose proof (rp_lists _ _ _ _ _ Hr) as Hf. inversion Hf; subst. simpl. go.
    exists (t_items t), o. split_and!; try done.
    f_equal; [f_equal; destruct t; simpl in *; by subst|].
    destruct (t_free_item_cb t); by rewrite app_nil_r. }
  pose proof (rp_lists _ _ _ _ _ Hr) as Hf. pose proof (repr_iter_nodup _ _ _ _ _ Hr) as Hnd.
  inversion Hf as [|? [i l] ? bs' [Ho Hsl Hi0 Hp0] Hf']; subst. simpl in *.
  change (items_of ((i, l) :: bs')) with (l ++ items_of bs') in *. rewrite length_app in Hc. go.
  eapply returns_SPIN_LOCK; [exact Ho|]. go.
  eapply returns_load_items; [by rewrite lookup_insert_eq|]. go. cbn [ils_head ils_index].
  eapply returns_mono; [apply clear_items_returns; [by rewrite lookup_insert_eq|lia|lia]|].
  intros [[] w1] ->. rewrite insert_insert_eq. go.
  eapply returns_set_slot; [done|exact Hsl|]. go. apply returns_set_table. go.
  eapply returns_SPIN_UNLOCK; [by rewrite lookup_insert_eq|]. rewrite insert_insert_eq. go.
  eapply returns_free_obj; [by rewrite lookup_insert_eq|]. rewrite delete_insert_eq. go.
  eapply returns_mono; [eapply (IH _ _ _ bs')|]; simpl.
  - rewrite Hi. by apply filter_ne_cons.
  - by eapply repr_drop.
  - lia.
  - lia.
  - intros [[] w'] (its&o'&->&Hr'&Hl'&Ho'). rewrite length_insert in Hl'.
    exists its, o'. split_and!; [|done|done|].
    + rewrite fmap_app. by destruct (t_free_item_cb t); rewrite <- ?app_assoc, ?app_nil_r.
    + intros q. rewrite Ho'. destruct (decide (q = p)) as [->|Hq].
      * rewrite lookup_delete_eq, (decide_True (P := p ∈ p :: ps)) by (by left). by case_decide.
      * rewrite lookup_delete_ne by done.
        destruct (decide (q ∈ ps)); case_decide as E; try done.
        -- destruct E. by right.
        -- apply elem_of_cons in E as [?|?]; done.
Qed.

Lemma ht_clear_returns cb w m :
  map_in cb w m →
  returns (ht_clear w) (λ '(_, w'), ∃ fr,
    fr ≡ₚ values m ∧ w_heap w' = w_heap w ∧
    w_freed w' = w_freed w ++ (if cb then fr else []) ∧ map_in cb w' ∅ ∧
    (∀ t q, w_table w = Some t →
       w_objs w' !! q = if decide (q ∈ t_iterator_list t) then None else w_objs w !! q)).
Proof.
  intros (t&bs&Hw&Hm). destruct w as [wt o h f]. simpl in *. subst wt.
  pose proof (ma_table _ _ _ _ _ _ Hm) as Ht. pose proof Ht as [].
  unfold ht_clear. go. apply returns_spin_status; [done|]. go.
  apply returns_MUTEX_LOCK; [done|]. go. apply returns_load_table. go.
  eapply returns_mono; [apply (clear_lists_returns _ _ o h f bs); [done|done| |]|].
  - by destruct Hm.
  - simpl. destruct Hm. lia.
  - intros [[] w'] (its&o'&->&Hr'&Hl'&Ho'). go. apply returns_MUTEX_UNLOCK; [done|]. go.
    apply returns_CAS; [done|]. go. simpl in *. exists (it_data <$> items_of bs).
    split_and!; [|done|by destruct Hm as [_ _ _ _ _ ->]| |].
    + destruct Hm as [_ [_ Hn] _ _ <- _]. unfold values, tmap.
      rewrite map_to_list_to_map by (by rewrite keys_entry). by rewrite <- list_fmap_compose.
    + eexists _, []. split; [done|]. split; simpl; try done; [| |by destruct Hm].
      * split; simpl; try done; [by rewrite Hl'|]. intros q x Hq. rewrite Ho' in Hq.
        case_decide; [done|]. by eapply tb_fresh.
      * split; [by intros ??? ?%elem_of_nil|constructor].
    + intros ? q [= <-]. apply Ho'.
Qed.

Lemma ht_destroy_returns cb w m t :
  map_in cb w m → w_table w = Some t →
  returns (ht_destroy w) (λ '(_, w'), ∃ fr,
    fr ≡ₚ values m ∧ w_freed w' = w_freed w ++ (if cb then fr else []) ∧
    w_table w' = None ∧ w_heap w' = w_heap w ∧
    ∀ q, w_objs w' !! q = if decide (q ∈ t_iterator_list t) then None else w_objs w !! q).
Proof.
  intros Hm Ht. unfold ht_destroy. go. eapply returns_mono; [by apply ht_clear_returns|].
  intros [[] w1] (fr&Hfr&Hh&Hf&(t1&bs&Ht1&_)&Ho). unfold free_table. rewrite Ht1. go.
  exists fr. naive_solver.
Qed.

(** ** The operations on the map *)

(** A call that leaves the table as it was, but for the map [m']. *)
Definition call_result (cb : bool) (w : world) (m' : gmap cstr (Z * Z)) (fr : list Z) (w' : world) :
    Prop :=
  w_heap w' = w_heap w ∧ w_freed w' = w_freed w ++ fr ∧ map_in cb w' m'.

(** Stored values are not null. *)
Lemma map_in_data cb w m key d n : map_in cb w m → m !! key = Some (d, n) → d ≠ 0.
Proof.
  intros (t&bs&_&[_ [Hi Hn] _ _ <- _]) Hs.
  apply tmap_lookup in Hs as (it&Hit&_&?); [|done]. simplify_eq.
  apply elem_items_of in Hit as (i&l'&Hb&Hl). by destruct (Hi _ _ _ Hb Hl).
Qed.

Section operations.
Context (cb : bool) (w : world) (m : gmap cstr (Z * Z)) (key : cstr).
Context (Hm : map_in cb w m) (Hkey : key ≠ []).

Lemma map_in_heap : wf_heap (w_heap w).
Proof using Hm. clear Hkey. destruct Hm as (t&bs&_&[Ht]). by destruct Ht. Qed.

Lemma ht_exists_returns :
  returns (ht_exists key w) (λ '(r, w'),
    r = bool_decide (is_Some (m !! key)) ∧ call_result cb w m [] w').
Proof using Hm Hkey.
  unfold ht_exists. go. apply (ht_call_returns _ _ _ cb w m); [done| | |done].
  - intros Hn w' ? ? ?. go. rewrite Hn. unfold call_result. by rewrite app_nil_r.
  - intros d l Hs w' ? ? ?. go. rewrite Hs. unfold call_result. by rewrite app_nil_r.
Qed.

Lemma ht_get_returns dl :
  returns (ht_get key dl w) (λ '(r, w'),
    r = match m !! key with Some (d, n) => (d, when dl n) | None => (0, None) end ∧
    call_result cb w m [] w').
Proof using Hm Hkey.
  unfold ht_get, ht_get_internal. go. apply (ht_call_returns _ _ _ cb w m); [done| | |done].
  - intros Hn w' ? ? ?. go. rewrite Hn. unfold call_result. by rewrite app_nil_r.
  - intros d l Hs t o Ht. unfold ht_get_helper. go. split_and!; try done; [apply map_in_heap| |].
    + intros _. by eapply map_in_data.
    + intros w' ? ? Hmi. go. rewrite Hs. simpl. unfold call_result. rewrite app_nil_r.
      rewrite insert_id in Hmi by done. done.
Qed.

Lemma ht_delete_returns pd pl :
  returns (ht_delete key pd pl w) (λ '(r, w'),
    match m !! key with
    | Some (d, n) =>
        r = (0, mk_out (when pd d) (when pl n)) ∧
        call_result cb w (delete key m) (if cb && negb pd then [d] else []) w'
    | None => r = (-1, no_out) ∧ call_result cb w m [] w'
    end).
Proof using Hm Hkey.
  unfold ht_delete, ht_delete_internal. apply (ht_call_returns _ _ _ cb w m); [done| | |done].
  - intros Hn w' ? ? ?. rewrite Hn. split; [done|]. unfold call_result. by rewrite app_nil_r.
  - intros d l Hs t o Ht. rewrite Hs. unfold ht_delete_helper. go.
    rewrite Z.eqb_refl. go. destruct pd; go; [|apply returns_call_free_item_cb; go];
      (split_and!; try done; [apply map_in_heap|]); intros w' Hh Hf Hmi; simpl in *.
    + rewrite andb_false_r. split; [done|]. unfold call_result. by rewrite app_nil_r.
    + rewrite Ht in Hf. rewrite andb_true_r. done.
Qed.
End operations.

Lemma ht_count_returns cb w m :
  map_in cb w m → returns (ht_count w) (λ '(r, w'), r = Z.of_nat (size m) ∧ w' = w).
Proof.
  intros Hm. apply map_in_size in Hm as (t&Ht&Hc). unfold ht_count. go.
  unfold load_table. rewrite Ht. go. done.
Qed.

(** ** Sequences of operations *)

Module Spec.
Inductive op :=
  | Set_ (key : cstr) (data dlen : Z)
  | SetIfNotExists (key : cstr) (data dlen : Z)
  | GetOrSet (key : cstr) (data dlen : Z) (cur_data cur_len : bool)
  | GetAndSet (key : cstr) (data dlen : Z) (prev_data prev_len : bool)
  | Get (key : cstr) (dlen : bool)
  | Exists_ (key : cstr)
  | Delete (key : cstr) (prev_data prev_len : bool)
  | Count.

(** The result of an operation: an integer, what is stored through the
    arguments, and the values that were freed. *)
Record res := mk_res { r_int : Z; r_out : out; r_freed : list Z }.

(** Setting a key of a finite map, its old value being freed or handed out. *)
Definition set (cb : bool) (m : gmap cstr (Z * Z)) (key : cstr) (v : Z * Z) (pd pl inx : bool) :
    gmap cstr (Z * Z) * res :=
  match m !! key with
  | Some (d, n) =>
      let o := mk_out (when pd d) (when pl n) in
      if inx then (m, mk_res 1 o [])
      else (<[key := v]> m, mk_res 0 o (if cb && negb pd then [d] else []))
  | None => (<[key := v]> m, mk_res 0 (mk_out (when pd 0) (when pl 0)) [])
  end.

(** The operations on a finite map. *)
Definition apply (cb : bool) (m : gmap cstr (Z * Z)) (o : op) : gmap cstr (Z * Z) * res :=
  match o with
  | Set_ k d n => set cb m k (d, n) false false false
  | SetIfNotExists k d n => set cb m k (d, n) false false true
  | GetOrSet k d n pd pl => set cb m k (d, n) pd pl true
  | GetAndSet k d n pd pl => set cb m k (d, n) pd pl false
  | Get k dl =>
      (m, match m !! k with
          | Some (d, n) => mk_res d (mk_out None (when dl n)) []
          | None => mk_res 0 no_out []
          end)
  | Exists_ k => (m, mk_res (if decide (is_Some (m !! k)) then 1 else 0) no_out [])
  | Delete k pd pl =>
      match m !! k with
      | Some (d, n) =>
          (delete k m, mk_res 0 (mk_out (when pd d) (when pl n)) (if cb && negb pd then [d] else []))
      | None => (m, mk_res (-1) no_out [])
      end
  | Count => (m, mk_res (Z.of_nat (size m)) no_out [])
  end.

(** Keys are not empty, values are not null, the count does not overflow. *)
Definition ok (m : gmap cstr (Z * Z)) (o : op) : Prop :=
  match o with
  | Set_ k d _ | SetIfNotExists k d _ | GetOrSet k d _ _ _ | GetAndSet k d _ _ _ =>
      k ≠ [] ∧ d ≠ 0 ∧ Z.of_nat (size m) + 1 < 2 ^ 64
  | Get k _ | Exists_ k | Delete k _ _ => k ≠ []
  | Count => True
  end.

Fixpoint run (cb : bool) (m : gmap cstr (Z * Z)) (os : list op) : gmap cstr (Z * Z) * list res :=
  match os with
  | [] => (m, [])
  | o :: os => let '(m, r) := apply cb m o in let '(m, rs) := run cb m os in (m, r :: rs)
  end.

Fixpoint run_ok (cb : bool) (m : gmap cstr (Z * Z)) (os : list op) : Prop :=
  match os with [] => True | o :: os => ok m o ∧ run_ok cb (apply cb m o).1 os end.
End Spec.

(** The same operations on a table; the freed values are those the callback
    got during the call. *)
Definition run_op (o : Spec.op) : H Spec.res := λ w,
  '((r, out), w') ← (match o with
    | Spec.Set_ k d n => r ← ht_set k d n; mret (r, no_out)
    | Spec.SetIfNotExists k d n => r ← ht_set_if_not_exists k d n; mret (r, no_out)
    | Spec.GetOrSet k d n pd pl => ht_get_or_set k d n pd pl
    | Spec.GetAndSet k d n pd pl => ht_get_and_set k d n pd pl
    | Spec.Get k dl => '(p, n) ← ht_get k dl; mret (p, mk_out None n)
    | Spec.Exists_ k => b ← ht_exists k; mret (if b : bool then 1 else 0, no_out)
    | Spec.Delete k pd pl => ht_delete k pd pl
    | Spec.Count => n ← ht_count; mret (n, no_out)
    end) w;
  Ret (Spec.mk_res r out (drop (length (w_freed w)) (w_freed w')), w').

Fixpoint run_ops (os : list Spec.op) : H (list Spec.res) :=
  match os with
  | [] => mret []
  | o :: os => r ← run_op o; rs ← run_ops os; mret (r :: rs)
  end.

Lemma set_value_returns cb w m key d n pd pl inx (Q : Z * out * world → Prop) :
  map_in cb w m → alloc_ok (w_heap w) → key ≠ [] → d ≠ 0 → Z.of_nat (size m) + 1 < 2 ^ 64 →
  (∀ w', let '(m', r) := Spec.set cb m key (d, n) pd pl inx in
     set_result cb w m' (Spec.r_freed r) w' → Q (Spec.r_int r, Spec.r_out r, w')) →
  returns (ht_set_internal key d n pd pl false inx w) Q.
Proof.
  intros Hm Hal Hk Hd Hs HQ.
  eapply returns_mono; [by apply (ht_set_internal_returns cb w m _ d n pd pl false inx)|].
  intros [r w']. specialize (HQ w'). unfold set_spec, Spec.set in *.
  destruct (m !! key) as [[d0 n0]|] eqn:E.
  - destruct inx; [by intros [-> ?]; apply HQ|]. intros [-> (q&[_ ->]&Hr)]. apply HQ.
    unfold prev_freed in Hr. rewrite (proj2 (Z.eqb_neq d0 0)), andb_true_r in Hr by (by eapply map_in_data). done.
  - intros [-> (q&[_ ->]&Hr)]. by apply HQ.
Qed.

Lemma run_op_returns cb w m o :
  map_in cb w m → alloc_ok (w_heap w) → Spec.ok m o →
  returns (run_op o w) (λ '(r, w'), let '(m', r') := Spec.apply cb m o in
    r = r' ∧ set_result cb w m' (Spec.r_freed r') w').
Proof.
  intros Hm Hal Hok. pose proof (map_in_heap cb w m Hm) as Hwf.
  assert (∀ r fr m' w' ro, set_result cb w m' fr w' → ro = Spec.mk_res (r : Z * out).1 r.2 fr →
    Spec.mk_res r.1 r.2 (drop (length (w_freed w)) (w_freed w')) = ro ∧
    set_result cb w m' (Spec.r_freed ro) w') as Hfin.
  { intros r fr m' w' ro Hr ->. split; [|done]. destruct Hr as (_&Hf&_). rewrite Hf.
    by rewrite drop_app_length. }
  assert (∀ m' fr w', call_result cb w m' fr w' → set_result cb w m' fr w') as Hcall.
  { intros m' fr w' (Hh&?&?). split_and!; [rewrite Hh; by apply extends_refl|done..]. }
  assert (∀ key d n pd pl inx, key ≠ [] → d ≠ 0 → Z.of_nat (size m) + 1 < 2 ^ 64 →
    returns (ht_set_internal key d n pd pl false inx w) (λ '(r, w'),
      let '(m', r') := Spec.set cb m key (d, n) pd pl inx in
      Spec.mk_res r.1 r.2 (drop (length (w_freed w)) (w_freed w')) = r' ∧
      set_result cb w m' (Spec.r_freed r') w')) as Hset.
  { intros key d n pd pl inx ???. eapply set_value_returns; [done..|]. intros w'.
    destruct (Spec.set cb m key (d, n) pd pl inx) as [m' [ri ro rf]] eqn:E. simpl. intros Hr.
    by apply (Hfin (ri, ro) rf). }
  assert (∀ key d n inx, key ≠ [] → d ≠ 0 → Z.of_nat (size m) + 1 < 2 ^ 64 →
    returns (ht_set_internal key d n false false false inx w) (λ '((r, _), w'),
      let '(m', r') := Spec.set cb m key (d, n) false false inx in
      Spec.mk_res r no_out (drop (length (w_freed w)) (w_freed w')) = r' ∧
      set_result cb w m' (Spec.r_freed r') w')) as Hset0.
  { intros key d n inx ???. eapply set_value_returns; [done..|]. intros w'.
    unfold Spec.set. destruct (m !! key) as [[d0 n0]|]; [destruct inx|]; simpl; intros Hr;
      (split; [|done]); destruct Hr as (_&Hf&_); by rewrite Hf, drop_app_length. }
  unfold run_op. apply returns_bind.
  destruct o as [key d n|key d n|key d n pd pl|key d n pd pl|key dl|key|key pd pl|]; simpl in *.
  - destruct Hok as (?&?&?). unfold ht_set. go. eapply returns_mono; [by apply Hset0|].
    intros [[r x] w']. go. auto.
  - destruct Hok as (?&?&?). unfold ht_set_if_not_exists. go. eapply returns_mono; [by apply Hset0|].
    intros [[r x] w']. go. auto.
  - destruct Hok as (?&?&?). eapply returns_mono; [by apply Hset|]. intros [[r x] w']. go. auto.
  - destruct Hok as (?&?&?). eapply returns_mono; [by apply Hset|]. intros [[r x] w']. go. auto.
  - go. eapply returns_mono; [by apply (ht_get_returns cb w m)|].
    intros [[d n] w'] [Hr Hc]. go. apply (Hfin (d, mk_out None n) []); [by apply Hcall|].
    destruct (m !! key) as [[d0 n0]|]; by simplify_eq.
  - go. eapply returns_mono; [by apply (ht_exists_returns cb w m)|].
    intros [b w'] [-> Hc]. go. apply (Hfin (_, no_out) []); [by apply Hcall|].
    case_decide as E; [by rewrite bool_decide_eq_true_2|by rewrite bool_decide_eq_false_2].
  - eapply returns_mono; [by apply (ht_delete_returns cb w m)|].
    intros [r w']. destruct (m !! key) as [[d0 n0]|]; intros [-> Hc]; go;
      eapply (Hfin (_, _)); try by apply Hcall. done. done.
  - go. eapply returns_mono; [by apply (ht_count_returns cb w m)|].
    intros [n w'] [-> ->]. go. apply (Hfin (_, no_out) []); [|done].
    split_and!; [by apply extends_refl|by rewrite app_nil_r|done].
Qed.

Lemma run_ops_returns cb w m os :
  map_in cb w m → alloc_ok (w_heap w) → Spec.run_ok cb m os →
  returns (run_ops os w) (λ '(rs, w'),
    rs = (Spec.run cb m os).2 ∧ map_in cb w' (Spec.run cb m os).1).
Proof.
  revert w m. induction os as [|o os IH]; intros w m Hm Hal Hok; simpl in *; [by go|].
  destruct Hok as [Ho Hok]. go. eapply returns_mono; [by apply (run_op_returns cb w m)|].
  intros [r w1]. destruct (Spec.apply cb m o) as [m1 r1]. intros [-> (He&_&Hm1)]. go.
  eapply returns_mono; [apply (IH w1 m1); [done|by destruct He|done]|].
  intros [rs w2]. destruct (Spec.run cb m1 os) as [m2 rs2]. intros [-> ?]. by go.
Qed.

(** ** Copies and comparisons *)

(** The first [n] bytes at [p]. *)
Definition content (h : heap) (p n : Z) : cstr :=
  match hp h !! p with Some (OBytes s) => take (Z.to_nat n) s | _ => [] end.
Definition readable (h : heap) (p n : Z) : Prop :=
  ∃ s, hp h !! p = Some (OBytes s) ∧ 0 < n ≤ Z.of_nat (length s).

Lemma load_prefix_content t o h f p n n' Q :
  readable h p n → 0 ≤ n' ≤ n → Q (content h p n', mk_world t o h f) →
  returns (load_prefix p n' (mk_world t o h f)) Q.
Proof.
  intros (s&Hs&?) ? HQ. unfold content in HQ. rewrite Hs in HQ.
  eapply load_prefix_returns; [done|lia|done].
Qed.

Lemma ht_get_copy_returns cb w m key dl :
  map_in cb w m → key ≠ [] → alloc_ok (w_heap w) →
  (∀ d n, m !! key = Some (d, n) → readable (w_heap w) d n) →
  returns (ht_get_copy key dl w) (λ '(r, w'),
    map_in cb w' m ∧ extends (w_heap w) (w_heap w') ∧ w_freed w' = w_freed w ∧
    match m !! key with
    | Some (d, n) => r.2 = when dl n ∧ r.1 ≠ 0 ∧ hp (w_heap w) !! r.1 = None ∧
        hp (w_heap w') !! r.1 = Some (OBytes (content (w_heap w) d n))
    | None => r = (0, None)
    end).
Proof.
  intros Hm Hkey Hal Hrd. pose proof (map_in_heap _ _ _ Hm) as Hwf.
  unfold ht_get_copy, ht_get_internal. go. apply (ht_call_returns _ _ _ cb w m); [done| | |done].
  - intros Hn w' Hh Hf Hmi. go. rewrite Hn. split_and!; try done. rewrite Hh.
    by apply extends_refl.
  - intros d n Hs t o Ht. destruct (Hrd d n Hs) as (s&Hd&Hl). unfold ht_get_helper. go.
    eapply copy_block_returns; [done|done|exact Hd|lia|]. intros q h' He Hnew Hq0 Hq.
    rewrite (proj2 (Z.eqb_neq q 0)) by done. go. split_and!; try done; try by destruct He.
    { intros _. by eapply map_in_data. }
    intros w' Hh Hf Hmi. go. simpl in *. rewrite insert_id in Hmi by done. rewrite Hs, Hh.
    split_and!; try done. unfold content. by rewrite Hd.
Qed.

Lemma memcmp_eq_returns t o h f p q n n1 n2 Q :
  readable h p n1 → readable h q n2 → 0 ≤ n ≤ n1 → n ≤ n2 →
  Q (bool_decide (content h p n = content h q n), mk_world t o h f) →
  returns (memcmp_eq p q n (mk_world t o h f)) Q.
Proof.
  intros Hp Hq ?? HQ. unfold memcmp_eq. go. eapply load_prefix_content; [exact Hp|lia|]. go.
  eapply load_prefix_content; [exact Hq|lia|]. by go.
Qed.

(** The first byte decides early. *)
Lemma first_byte_returns t o h f p n Q :
  readable h p n → (∀ c, head (content h p n) = Some c → Q (c, mk_world t o h f)) →
  returns (first_byte p (mk_world t o h f)) Q.
Proof.
  intros Hp HQ. pose proof Hp as (s&Hs&?). unfold first_byte. go.
  eapply load_prefix_content; [exact Hp|lia|]. unfold content in *. rewrite Hs in *.
  destruct s as [|c s]; [simpl in *; lia|]. simpl. go. apply HQ.
  destruct (Z.to_nat n) eqn:E; [lia|done].
Qed.

(** The comparison of [ht_set_if_equals_helper]. *)
Lemma compare_returns t o h f p n d l :
  readable h p n → readable h d l →
  returns ((if n =? l then
              a ← first_byte d;
              b ← first_byte p;
              if a =? b then memcmp_eq d p n else mret false
            else mret false) (mk_world t o h f)) (λ '(b, w'),
    b = bool_decide (l = n ∧ content h d n = content h p n) ∧ w' = mk_world t o h f).
Proof.
  intros Hp Hd. destruct (Z.eqb_spec n l) as [->|Hne].
  2:{ go. by rewrite bool_decide_eq_false_2 by (intros [? _]; congruence). }
  go. eapply first_byte_returns; [exact Hd|]. intros a Ha. go.
  eapply first_byte_returns; [exact Hp|]. intros b Hb. go.
  destruct (Z.eqb_spec a b) as [->|Hab]; go.
  - pose proof Hp as (?&_&?).
    eapply memcmp_eq_returns; [exact Hd|exact Hp|lia|lia|]. split; [|done].
    apply bool_decide_ext. naive_solver.
  - rewrite bool_decide_eq_false_2; [done|]. intros [_ E]. rewrite E in Ha. congruence.
Qed.

(** ** A table to try the theorems on *)

Definition world0 : world :=
  mk_world None ∅ (mk_heap {[ 1 := OBytes [7; 8; 9]; 2 := OBytes [7; 8] ]} 3 [] []) [].

Definition run_from {A} (p : H A) (w : world) : world :=
  match p w with Ret (_, w') => w' | _ => w end.

Lemma run_from_returns {A} (p : H A) w Q :
  returns (p w) Q → ∃ a, Q (a, run_from p w).
Proof. unfold run_from. destruct (p w) as [[a w']| |]; [|done..]. by exists a. Qed.

Definition new_world : world := run_from (ht_create 0 0 true 12345) world0.
Definition sample_ops : list Spec.op :=
  [Spec.Set_ [1; 2] 1 3; Spec.Set_ [3] 2 2; Spec.SetIfNotExists [3] 9 1].
Definition sample_world : world := run_from (run_ops sample_ops) new_world.
Definition sample_map : gmap cstr (Z * Z) := {[ [3] := (2, 2); [1; 2] := (1, 3) ]}.

Lemma world0_wf : wf_heap (w_heap world0).
Proof.
  split; [done|]. intros a x. simpl. rewrite lookup_insert. case_decide; [intros; lia|].
  rewrite lookup_singleton. case_decide; [intros; lia|done].
Qed.

Lemma new_world_in : set_result true world0 ∅ [] new_world.
Proof.
  destruct (run_from_returns (ht_create 0 0 true 12345) world0 _
    (ht_create_returns 0 0 true 12345 world0 ltac:(lia) ltac:(lia) ltac:(lia)
       ltac:(by intros) world0_wf ltac:(constructor))) as (?&_&Hr). exact Hr.
Qed.

Lemma sample_ops_ok : Spec.run_ok true ∅ sample_ops.
Proof. repeat split; done. Qed.

Lemma sample_in : map_in true sample_world sample_map.
Proof.
  destruct new_world_in as (He&_&Hn).
  destruct (run_from_returns (run_ops sample_ops) new_world _
    (run_ops_returns true new_world ∅ sample_ops Hn (ex_alloc _ _ He) sample_ops_ok)) as (?&_&Hr).
  exact Hr.
Qed.

Lemma sample_readable d n :
  (∃ k, sample_map !! k = Some (d, n)) → readable (w_heap sample_world) d n.
Proof.
  intros [k Hk]. unfold sample_map in Hk. rewrite lookup_insert in Hk.
  unfold readable. case_decide; [simplify_eq|].
  - exists [7; 8]. split; [by vm_compute|simpl; lia].
  - apply lookup_singleton_Some in Hk as [_ [= <- <-]].
    exists [7; 8; 9]. split; [by vm_compute|simpl; lia].
Qed.
Lemma sample_alloc : alloc_ok (w_heap sample_world).
Proof. vm_compute. constructor. Qed.

(** ** Theorems *)

(** C4 — A new table run through any sequence of set, set-if-not-exists,
    get-or-set, get-and-set, get, exists, delete and count calls returns,
    stores through its arguments and frees exactly what the same operations
    on a finite map do, and is again a well-formed table of that map (all
    locks released, status idle, every item in the bucket of its hash). *)
Theorem ht_refines_map size mx cb rnd w os :
  0 ≤ size → 8 * size < 2 ^ 63 → 0 ≤ mx →
  (∀ p x, w_objs w !! p = Some x → 0 < p < hp_next (w_heap w)) →
  wf_heap (w_heap w) → alloc_ok (w_heap w) → Spec.run_ok cb ∅ os →
  returns ((ok ← ht_create size mx cb rnd; rs ← run_ops os; mret (ok, rs)) w)
    (λ '((ok, rs), w'), ok = true ∧ rs = (Spec.run cb ∅ os).2 ∧
       map_in cb w' (Spec.run cb ∅ os).1).
Proof.
  intros ?????? Hok. go. eapply returns_mono; [by apply ht_create_returns|].
  intros [ok w1] [-> (He&_&Hm)]. go.
  eapply returns_mono; [apply (run_ops_returns cb w1 ∅ os Hm); [by destruct He|done]|].
  intros [rs w2] [??]. by go.
Qed.

Definition witness_ops : list Spec.op :=
  [Spec.Set_ [1] 10 3; Spec.Set_ [2] 20 2; Spec.Get [1] true; Spec.Set_ [1] 11 4;
   Spec.GetOrSet [2] 21 5 true true; Spec.Delete [2] false true; Spec.Exists_ [2]; Spec.Count].

Lemma ht_refines_map_witness :
  Spec.r_freed <$> (Spec.run true ∅ witness_ops).2 = [[]; []; []; [10]; []; [20]; []; []] ∧
  returns ((ok ← ht_create 0 0 true 12345; rs ← run_ops witness_ops; mret (ok, rs)) world0)
    (λ '((ok, rs), w'), ok = true ∧ rs = (Spec.run true ∅ witness_ops).2 ∧
       map_in true w' (Spec.run true ∅ witness_ops).1).
Proof.
  split; [by vm_compute|].
  apply (ht_refines_map 0 0 true 12345 world0 witness_ops); try done; try apply world0_wf.
  constructor.
Defined.

(** C15 — Growing a table keeps its map (every item is rehashed into a bucket
    of the new array) and doubles the array up to the maximum size. *)
Theorem ht_grow_keeps_map cb w m t :
  map_in cb w m → w_table w = Some t → alloc_ok (w_heap w) →
  returns (ht_grow_table w) (λ '(_, w'),
    map_in cb w' m ∧ w_freed w' = w_freed w ∧ array_size w' = Some (grown_size t)).
Proof.
  intros (t'&bs&Hw&Hm) Ht Hal. destruct w as [wt o h f]. simpl in *. simplify_eq.
  eapply returns_mono; [by eapply ht_grow_table_returns|]. intros [[] w']. naive_solver.
Qed.

Lemma ht_grow_keeps_map_witness :
  ∃ t, w_table sample_world = Some t ∧ grown_size t = 256 ∧
    returns (ht_grow_table sample_world) (λ '(_, w'),
      map_in true w' sample_map ∧ w_freed w' = w_freed sample_world ∧
      array_size w' = Some (grown_size t)).
Proof.
  pose proof sample_in as (t&_&Ht&_). exists t. split; [done|]. split.
  - vm_compute in Ht. injection Ht as <-. by vm_compute.
  - apply (ht_grow_keeps_map true sample_world sample_map t); [apply sample_in|done|apply sample_alloc].
Defined.

(** C36 — ht_foreach_pair calls the callback on each pair of the map once, in
    some order, until it answers STOP or REMOVE_AND_STOP; the items it asks
    to remove leave the map and their values are freed, the others stay. *)
Theorem ht_foreach_pair_visits {U} (g : iterator_callback U) cb w m u :
  map_in cb w m →
  returns (ht_foreach_pair g u w) (λ '(u', w'), ∃ its : tailq,
    entry <$> its ≡ₚ map_to_list m ∧
    let '(kept, fr, _, u1) := visit g its u in
    u' = u1 ∧ w_freed w' = w_freed w ++ (if cb then fr else []) ∧
    map_in cb w' (list_to_map (entry <$> kept))).
Proof.
  intros Hm. eapply returns_mono; [by apply ht_foreach_pair_returns|].
  intros [u' w'] (its&?&Hv). exists its. split; [done|].
  destruct (visit g its u) as [[[k fr] s] u1]. naive_solver.
Qed.

Definition remove_short : iterator_callback Z := λ key d n u, (if n =? 2 then -1 else 1, u + n).

Lemma ht_foreach_pair_visits_witness :
  returns (ht_foreach_pair remove_short 0 sample_world) (λ '(u', w'), ∃ its : tailq,
    entry <$> its ≡ₚ map_to_list sample_map ∧
    let '(kept, fr, _, u1) := visit remove_short its 0 in
    u' = u1 ∧ w_freed w' = w_freed sample_world ++ fr ∧
    map_in true w' (list_to_map (entry <$> kept))).
Proof. apply (ht_foreach_pair_visits remove_short true sample_world sample_map 0), sample_in. Defined.

(** C18 — ht_destroy gives every value of the map to the free callback exactly
    once and releases the table and all of its bucket lists, and no other
    object; the heap is not touched. *)
Theorem ht_destroy_frees cb w m t :
  map_in cb w m → w_table w = Some t →
  returns (ht_destroy w) (λ '(_, w'), ∃ fr,
    fr ≡ₚ values m ∧ w_freed w' = w_freed w ++ (if cb then fr else []) ∧
    w_table w' = None ∧ w_heap w' = w_heap w ∧
    ∀ q, w_objs w' !! q = if decide (q ∈ t_iterator_list t) then None else w_objs w !! q).
Proof. apply ht_destroy_returns. Qed.

Lemma ht_destroy_frees_witness :
  ∃ t, w_table sample_world = Some t ∧
    returns (ht_destroy sample_world) (λ '(_, w'), ∃ fr,
      fr ≡ₚ values sample_map ∧ w_freed w' = w_freed sample_world ++ fr ∧
      w_table w' = None ∧ w_heap w' = w_heap sample_world ∧
      ∀ q, w_objs w' !! q =
        if decide (q ∈ t_iterator_list t) then None else w_objs sample_world !! q).
Proof.
  pose proof sample_in as (t&_&Ht&_). exists t. split; [done|].
  apply (ht_destroy_frees true sample_world sample_map t); [apply sample_in|done].
Defined.

(** C30 — ht_set_copy followed by ht_get_copy: the table keeps a private copy
    of the bytes and the caller gets another one, in a block that did not
    exist before. *)
Theorem ht_set_copy_get_copy cb w m key data dlen pd pl :
  map_in cb w m → alloc_ok (w_heap w) → key ≠ [] → readable (w_heap w) data dlen →
  Z.of_nat (size m) + 1 < 2 ^ 64 →
  returns ((_ ← ht_set_copy key data dlen pd pl; ht_get_copy key true) w) (λ '((q, n), w'),
    n = Some dlen ∧ hp (w_heap w') !! q = Some (OBytes (content (w_heap w) data dlen)) ∧
    ∃ p, map_in cb w' (<[key := (p, dlen)]> m) ∧ p ≠ 0 ∧ q ≠ 0 ∧ p ≠ data ∧ q ≠ data ∧ q ≠ p ∧
      hp (w_heap w') !! p = Some (OBytes (content (w_heap w) data dlen))).
Proof.
  intros Hm Hal Hkey (s&Hs&Hl) Hsz. go. unfold ht_set_copy.
  eapply returns_mono; [apply (ht_set_internal_returns cb w m); try done; by exists s|].
  intros [r w1] Hset.
  assert (∃ p, value_is true data dlen (w_heap w1) p ∧ extends (w_heap w) (w_heap w1) ∧
            map_in cb w1 (<[key := (p, dlen)]> m)) as (p&(Hp0&Hpd&s'&Hs'&Hp)&He&Hm1).
  { unfold set_spec, set_result in Hset. destruct (m !! key) as [[d n]|]; naive_solver. }
  pose proof (extends_lookup _ _ _ _ He Hs) as Hs1. simplify_eq. go.
  assert (content (w_heap w) data dlen = take (Z.to_nat dlen) s') as -> by (unfold content; by rewrite Hs).
  eapply returns_mono; [apply (ht_get_copy_returns cb w1 _ key true Hm1 Hkey); [by destruct He|]|].
  { intros d n. rewrite lookup_insert_eq. intros [= <- <-]. exists (take (Z.to_nat dlen) s').
    split; [done|]. rewrite length_take. lia. }
  intros [[q n] w2] (Hm2&He2&_&Hr). rewrite lookup_insert_eq in Hr. simpl in Hr.
  destruct Hr as (->&Hq0&Hqn&Hq).
  assert (content (w_heap w1) p dlen = take (Z.to_nat dlen) s') as Hc.
  { unfold content. rewrite Hp. rewrite take_take. f_equal. lia. }
  rewrite Hc in Hq. split_and!; [done..|]. exists p. split_and!; try done; [congruence..|].
  by eapply extends_lookup.
Qed.

Lemma ht_set_copy_get_copy_witness :
  content (w_heap sample_world) 1 3 = [7; 8; 9] ∧
  returns ((_ ← ht_set_copy [5] 1 3 false false; ht_get_copy [5] true) sample_world)
    (λ '((q, n), w'), n = Some 3 ∧
      hp (w_heap w') !! q = Some (OBytes (content (w_heap sample_world) 1 3)) ∧
      ∃ p, map_in true w' (<[ [5] := (p, 3) ]> sample_map) ∧
        p ≠ 0 ∧ q ≠ 0 ∧ p ≠ 1 ∧ q ≠ 1 ∧ q ≠ p ∧
        hp (w_heap w') !! p = Some (OBytes (content (w_heap sample_world) 1 3))).
Proof.
  split; [by vm_compute|].
  apply (ht_set_copy_get_copy true sample_world sample_map [5] 1 3 false false);
    [apply sample_in|apply sample_alloc|done| |by vm_compute].
  apply sample_readable. by exists [1; 2].
Defined.

(** ht_set_if_equals is a compare-and-set: it replaces the value of a
    key exactly when its length and bytes are those of the block to match
    (0), else leaves the table alone (1, or -1 without the key). *)
Theorem ht_set_if_equals_cas cb w m key data dlen p n pd pl :
  map_in cb w m → key ≠ [] → data ≠ 0 → p ≠ 0 → readable (w_heap w) p n →
  (∀ d l, m !! key = Some (d, l) → readable (w_heap w) d l) →
  returns (ht_set_if_equals key data dlen p n pd pl w) (λ '(r, w'),
    match m !! key with
    | Some (d, l) =>
        r.2 = mk_out (when pd d) (when pl l) ∧
        if decide (l = n ∧ content (w_heap w) d n = content (w_heap w) p n)
        then r.1 = 0 ∧ call_result cb w (<[key := (data, dlen)]> m)
                         (if cb && negb pd then [d] else []) w'
        else r.1 = 1 ∧ call_result cb w m [] w'
    | None => r = (-1, no_out) ∧ call_result cb w m [] w'
    end).
Proof.
  intros Hm Hkey Hdata Hp0 Hp Hrd. pose proof (map_in_heap _ _ _ Hm) as Hwf.
  unfold ht_set_if_equals. rewrite (proj2 (Z.eqb_neq p 0)) by done. go.
  apply (ht_call_returns _ _ _ cb w m); [done| | |done].
  { intros Hn w' ???. go. rewrite Hn. split; [done|]. unfold call_result. by rewrite app_nil_r. }
  intros d l Hs t o Ht. rewrite Hs. specialize (Hrd d l Hs). unfold ht_set_if_equals_helper. go.
  eapply returns_mono; [by apply compare_returns|]. intros [b w1] [-> ->].
  case_bool_decide as E.
  - destruct pd; go; [|apply returns_call_free_item_cb; go];
      (split_and!; try done); intros w' Hh Hf Hmi; simpl in *; go; (split; [done|]);
      rewrite decide_True by done; (split; [done|]); split_and!; try done.
    + by rewrite andb_false_r, app_nil_r.
    + by rewrite Hf, Ht, andb_true_r.
  - go. split_and!; try done; [by intros _; eapply map_in_data|].
    intros w' Hh Hf Hmi. simpl in *. go. split; [done|]. rewrite decide_False by done.
    split; [done|]. rewrite insert_id in Hmi by done. split_and!; try done. by rewrite app_nil_r.
Qed.

Lemma ht_set_if_equals_cas_witness :
  returns (ht_set_if_equals [3] 1 3 2 2 false false sample_world) (λ '(r, w'),
    r = (0, no_out) ∧ call_result true sample_world (<[ [3] := (1, 3) ]> sample_map) [2] w').
Proof.
  eapply returns_mono.
  - apply (ht_set_if_equals_cas true sample_world sample_map [3] 1 3 2 2 false false);
      [apply sample_in|done|done|done| |].
    + apply sample_readable. by exists [3].
    + intros d l Hk. apply sample_readable. by exists [3].
  - intros [[r ro] w']. simpl. intros [-> Hr]. change (r = 0 ∧ call_result true sample_world
      (<[ [3] := (1, 3) ]> sample_map) [2] w') in Hr. destruct Hr as [-> Hr]. done.
Defined.

(** A value that was unset is taken for no value at all: setting the key
    again reports success but appends a second item, the lookup still finds
    the first one and returns null, and the key is counted twice. *)
Theorem ht_set_after_unset_lost :
  match (_ ← ht_create 0 0 true 12345;
         _ ← ht_set [1] 10 4;
         _ ← ht_unset [1] false false;
         r ← ht_set [1] 20 5;
         '(p, n) ← ht_get [1] true;
         c ← ht_count;
         mret (r, p, n, c)) world0 with
  | Ret (r, _) => r = (0, 0, Some 0, 2)
  | _ => False
  end.
Proof. by vm_compute. Qed.

(** When the copy of a new value cannot be allocated, ht_set_copy
    reports the failure but has already stored the new length: the old
    one-byte value is then returned with a length of three. *)
Theorem ht_set_copy_failure_length :
  match (_ ← ht_create 0 0 true 12345;
         _ ← ht_set [1] 2 1;
         _ ← (λ w, Ret (tt, mk_world (w_table w) (w_objs w)
                (mk_heap (hp (w_heap w)) (hp_next (w_heap w)) [false] []) (w_freed w)));
         '(r, _) ← ht_set_copy [1] 1 3 false false;
         '(p, n) ← ht_get [1] true;
         mret (r, p, n)) world0 with
  | Ret (r, _) => r = (-1, 2, Some 3)
  | _ => False
  end.
Proof. by vm_compute. Qed.
