(* ===== verification/HtStatus.v ===== *)
(** * The hash table shared by several threads (src/src/hashtable.c)

    The table's status word arbitrates between readers, which count
    themselves in it, and writers, which claim it exclusively.  Here its
    protocol is a step relation: any number of threads, each at a point of
    [ht_get_list] or of one of the functions that wait for the idle status
    ([ht_set_list], [ht_grow_table], [ht_clear]), one atomic operation on the
    word per step.  The second part interleaves the operations of Hashtable
    themselves: the index of a bucket and the registration of a new bucket
    are not protected by the protocol. *)

From S2P Require Import Prelude Linklist Hashtable.

(** ** The protocol *)

(** [ATOMIC_CAS_RETURN] returns the value it found; this is what it leaves. *)
Definition cas (v o n : Z) : Z := if v =? o then n else v.

(** Where a thread is.  [status] is its local variable of that name. *)
Inductive pc :=
  | Out
  | Wait                        (* first loop of ht_get_list *)
  | Got (status : Z)            (* at the condition of the second loop *)
  | Rejoin                      (* in the body of the second loop *)
  | Reading (status : Z)        (* counted; reads table->items *)
  | Release (status : Z)        (* about to decrement *)
  | ReleaseLast                 (* the decrement failed *)
  | Spin (k : Z)                (* waits to set the status to k *)
  | Critical (k : Z).           (* has set it *)

Inductive tstep : Z * pc → Z * pc → Prop :=
  | t_enter v : tstep (v, Out) (v, Wait)
  | t_wait v :
      v < HT_STATUS_IDLE → tstep (v, Wait) (cas v HT_STATUS_IDLE HT_STATUS_READ, Wait)
  | t_got v :   (* no writer, or sched_yield failed *)
      tstep (v, Wait) (cas v HT_STATUS_IDLE HT_STATUS_READ, Got v)
  | t_first v : tstep (v, Got HT_STATUS_IDLE) (v, Reading (u32 (HT_STATUS_IDLE + 1)))
  | t_join v :
      HT_STATUS_READ ≤ v → tstep (v, Got v) (u32 (v + 1), Reading (u32 (v + 1)))
  | t_join_fail v s :
      s ≠ HT_STATUS_IDLE → s < HT_STATUS_READ ∨ v ≠ s → tstep (v, Got s) (v, Rejoin)
  | t_rejoin v : tstep (v, Rejoin) (cas v HT_STATUS_IDLE HT_STATUS_READ, Got v)
  | t_read v s : tstep (v, Reading s) (v, Release s)
  | t_release v : tstep (v, Release v) (v - 1, Out)
  | t_release_fail v s : v ≠ s → tstep (v, Release s) (v, ReleaseLast)
  | t_last v :
      tstep (v, ReleaseLast)
        (cas v HT_STATUS_READ HT_STATUS_IDLE, if HT_STATUS_READ <? v then Release v else Out)
  | t_spin v k : 0 ≤ k < HT_STATUS_IDLE → tstep (v, Out) (v, Spin k)
  | t_claim k : tstep (HT_STATUS_IDLE, Spin k) (k, Critical k)
  | t_spin_fail v k : v ≠ HT_STATUS_IDLE → tstep (v, Spin k) (v, Spin k)
  | t_give_up v : v ≠ HT_STATUS_IDLE → tstep (v, Spin HT_STATUS_GROW) (v, Out)
  | t_leave v k : tstep (v, Critical k) (cas v k HT_STATUS_IDLE, Out).

(** One thread moves. *)
Inductive step : Z * list pc → Z * list pc → Prop :=
  | step_thread v v' ts1 p p' ts2 :
      tstep (v, p) (v', p') → step (v, ts1 ++ p :: ts2) (v', ts1 ++ p' :: ts2).

Definition reachable (n : nat) (st : Z * list pc) : Prop :=
  rtc step (HT_STATUS_IDLE, replicate n Out) st.

(** Threads that are counted as readers, and threads that hold the word. *)
Definition counted (p : pc) : bool :=
  match p with
  | Got s => s =? HT_STATUS_IDLE
  | Reading _ | Release _ | ReleaseLast => true
  | _ => false
  end.
Definition critical (p : pc) : bool := match p with Critical _ => true | _ => false end.

Definition count (f : pc → bool) (ts : list pc) : Z :=
  Z.of_nat (length (filter (λ p, f p = true) ts)).

Lemma count_app f ts1 ts2 : count f (ts1 ++ ts2) = count f ts1 + count f ts2.
Proof. unfold count. rewrite filter_app, length_app. lia. Qed.
Lemma count_cons f p ts : count f (p :: ts) = Z.b2z (f p) + count f ts.
Proof.
  unfold count. destruct (f p) eqn:E.
  - rewrite filter_cons_True by done. simpl. lia.
  - rewrite filter_cons_False by congruence. done.
Qed.
Lemma count_nonneg f ts : 0 ≤ count f ts.
Proof. unfold count. lia. Qed.
Lemma count_le f ts : count f ts ≤ Z.of_nat (length ts).
Proof. unfold count. pose proof (length_filter (λ p, f p = true) ts). lia. Qed.
Lemma count_zero f ts p : count f ts = 0 → p ∈ ts → f p = false.
Proof.
  intros Hc [ts1 [ts2 ->]]%list_elem_of_split.
  rewrite count_app, count_cons in Hc. pose proof (count_nonneg f ts1).
  pose proof (count_nonneg f ts2). destruct (f p); simpl in *; [lia|done].
Qed.

Definition pc_ok (p : pc) : Prop :=
  match p with
  | Reading s | Release s => HT_STATUS_READ ≤ s
  | Spin k | Critical k => 0 ≤ k < HT_STATUS_IDLE
  | _ => True
  end.

(** No writer and the readers are counted; or one writer and no reader. *)
Definition inv (n : nat) (st : Z * list pc) : Prop :=
  let '(v, ts) := st in
  length ts = n ∧ Forall pc_ok ts ∧
  ((count critical ts = 0 ∧ v = HT_STATUS_IDLE + count counted ts) ∨
   (count critical ts = 1 ∧ count counted ts = 0 ∧ 0 ≤ v < HT_STATUS_IDLE ∧ Critical v ∈ ts)).

Lemma inv_initial n : inv n (HT_STATUS_IDLE, replicate n Out).
Proof.
  split; [by rewrite length_replicate|]. split; [by apply Forall_replicate|]. left.
  assert (∀ f, f Out = false → count f (replicate n Out) = 0) as Hc.
  { intros f Hf. induction n as [|n IH]; [done|]. simpl. rewrite count_cons, Hf, IH. done. }
  rewrite !Hc by done. done.
Qed.

Ltac status_consts :=
  unfold HT_STATUS_IDLE, HT_STATUS_READ, HT_STATUS_CLEAR, HT_STATUS_WRITE, HT_STATUS_GROW in *.

(** In the middle of the threads: the counts of the others. *)
Lemma inv_middle n v ts1 p ts2 :
  inv n (v, ts1 ++ p :: ts2) ↔
  length (ts1 ++ ts2) = pred n ∧ (0 < n)%nat ∧ Forall pc_ok (ts1 ++ ts2) ∧ pc_ok p ∧
  let r := count counted (ts1 ++ ts2) in let c := count critical (ts1 ++ ts2) in
  ((c = 0 ∧ critical p = false ∧ v = HT_STATUS_IDLE + r + Z.b2z (counted p)) ∨
   (c = 0 ∧ r = 0 ∧ 0 ≤ v < HT_STATUS_IDLE ∧ p = Critical v) ∨
   (c = 1 ∧ r = 0 ∧ critical p = false ∧ counted p = false ∧ 0 ≤ v < HT_STATUS_IDLE ∧
    Critical v ∈ ts1 ++ ts2)).
Proof.
  unfold inv. rewrite !count_app, !count_cons, !length_app, !Forall_app, Forall_cons. simpl.
  rewrite !elem_of_app, elem_of_cons.
  pose proof (count_nonneg critical ts1) as Hc1. pose proof (count_nonneg critical ts2) as Hc2.
  pose proof (count_nonneg counted ts1) as Hr1. pose proof (count_nonneg counted ts2) as Hr2.
  assert (critical p = true → counted p = false) as Hx by by destruct p.
  assert (∀ ts, count critical ts = 0 → Critical v ∉ ts) as Hno.
  { intros ts Hz Hin. by apply (count_zero _ _ _ Hz) in Hin. }
  split.
  - intros (Hl&(H1&Hp&H2)&Hs). split_and!; try done; try lia.
    destruct Hs as [[Hc Hv]|(Hc&Hr&Hv&Hin)].
    + left. destruct (critical p); simpl in *; [exfalso; lia|]. split_and!; try done; lia.
    + destruct (critical p) eqn:E; simpl in *.
      * right; left. rewrite (Hx eq_refl) in Hr. simpl in Hr. split_and!; try lia.
        destruct Hin as [Hin|[Hin|Hin]]; [|done|]; exfalso; eapply Hno; try exact Hin; lia.
      * right; right. destruct (counted p); simpl in *; [exfalso; lia|]. split_and!; try lia; try done.
        destruct Hin as [Hin|[Hin|Hin]]; [by left| |by right]. by subst p.
  - intros (Hl&Hn&(H1&H2)&Hp&Hs). split; [lia|]. split; [done|].
    destruct Hs as [(Hc&E&Hv)|[(Hc&Hr&Hv&->)|(Hc&Hr&E&E'&Hv&Hin)]].
    + left. rewrite E. simpl. lia.
    + right. simpl. split_and!; try lia. by right; left.
    + right. rewrite E, E'. simpl. split_and!; try lia. destruct Hin; auto.
Qed.

Lemma inv_step n st st' :
  Z.of_nat n + 4 < 2 ^ 32 → inv n st → step st st' → inv n st'.
Proof.
  intros Hn Hi Hs. destruct Hs as [v v' ts1 p p' ts2 Ht].
  apply inv_middle in Hi as (Hl&Hn0&Hf&Hp&Hs). apply inv_middle.
  split; [done|]. split; [done|]. split; [done|].
  pose proof (count_le counted (ts1 ++ ts2)) as Hrl. rewrite Hl in Hrl.
  pose proof (count_nonneg counted (ts1 ++ ts2)) as Hr0.
  pose proof (count_nonneg critical (ts1 ++ ts2)) as Hc0.
  set (r := count counted (ts1 ++ ts2)) in *. set (c := count critical (ts1 ++ ts2)) in *.
  inversion Ht; subst; clear Ht; unfold cas in *; simpl in *;
    status_consts; simpl in *;
    repeat match goal with
    | |- context [?a =? ?b] => destruct (Z.eqb_spec a b); subst; simpl in *
    | H : context [?a =? ?b] |- _ => destruct (Z.eqb_spec a b); subst; simpl in *
    | |- context [?a <? ?b] => destruct (Z.ltb_spec a b); subst; simpl in *
    end;
    try (rewrite !u32_small in * by lia); simpl in *;
    (split; [try lia; try done|]); try intuition (lia || congruence).
  all: status_consts; lia.
Qed.

Lemma reachable_inv n st : Z.of_nat n + 4 < 2 ^ 32 → reachable n st → inv n st.
Proof.
  intros Hn Hr. unfold reachable in Hr.
  apply (rtc_ind_r (inv n) _ (inv_initial n)) in Hr; [done|].
  intros st1 st2 _ Hs Hi. by eapply inv_step.
Qed.

(** Steps of thread [i] alone. *)
Inductive solo (i : nat) : nat → Z * list pc → Z * list pc → Prop :=
  | solo_done st : solo i 0 st st
  | solo_step m v v' ts p p' st :
      ts !! i = Some p → tstep (v, p) (v', p') → solo i m (v', <[i := p']> ts) st →
      solo i (S m) (v, ts) st.

Lemma insert_middle (ts1 : list pc) p p' ts2 : <[length ts1 := p']> (ts1 ++ p :: ts2) = ts1 ++ p' :: ts2.
Proof. rewrite insert_app_r_alt by lia. by rewrite Nat.sub_diag. Qed.
Lemma lookup_at (ts1 : list pc) p ts2 : (ts1 ++ p :: ts2) !! length ts1 = Some p.
Proof. rewrite lookup_app_r by lia. by rewrite Nat.sub_diag. Qed.

Lemma solo_one v v' ts1 p p' ts2 m st :
  tstep (v, p) (v', p') → solo (length ts1) m (v', ts1 ++ p' :: ts2) st →
  solo (length ts1) (S m) (v, ts1 ++ p :: ts2) st.
Proof.
  intros Ht Hs. eapply solo_step; [apply lookup_at|exact Ht|]. by rewrite insert_middle.
Qed.

(** ** Theorems *)

(** C19 — Mutual exclusion: whatever the interleaving of any number of threads,
    a thread that has claimed the table (to write, grow or clear) excludes
    every other thread from reading and from claiming it, and the word
    returns to idle when all threads are out. *)
Theorem ht_status_exclusion n v ts :
  Z.of_nat n + 4 < 2 ^ 32 → reachable n (v, ts) →
  (∀ i j p q, ts !! i = Some p → ts !! j = Some q → i ≠ j → critical p = true →
     critical q = false ∧ counted q = false) ∧
  ((∀ p, p ∈ ts → p = Out) → v = HT_STATUS_IDLE).
Proof.
  intros Hn Hr. apply reachable_inv in Hr; [|done]. split.
  - intros i j p q Hi Hj Hij Hp. apply list_elem_of_split_length in Hi as (ts1&ts2&->&->).
    apply inv_middle in Hr as (_&_&_&_&Hs).
    assert (q ∈ ts1 ++ ts2) as Hq.
    { destruct (decide (j < length ts1)%nat).
      - rewrite lookup_app_l in Hj by done. apply elem_of_app. left.
        by eapply list_elem_of_lookup_2.
      - rewrite lookup_app_r in Hj by lia. destruct (j - length ts1)%nat eqn:E; [lia|].
        apply elem_of_app. right. by eapply list_elem_of_lookup_2. }
    destruct Hs as [(_&E&_)|[(Hc&Hr0&_)|(_&_&E&_)]]; [congruence| |congruence].
    split; by eapply count_zero.
  - intros Hout. destruct Hr as (_&_&[[_ ->]|(_&_&_&Hin)]); [|by apply Hout in Hin].
    assert (count counted ts = 0) as ->; [|done].
    clear -Hout. induction ts as [|p ts IH]; [done|].
    rewrite count_cons, IH by (intros; apply Hout; by right). by rewrite (Hout p) by left.
Qed.

Lemma ht_status_exclusion_witness :
  let ts := [Critical HT_STATUS_GROW; Wait] in
  reachable 2 (HT_STATUS_GROW, ts) ∧
  (∀ i j p q, ts !! i = Some p → ts !! j = Some q → i ≠ j → critical p = true →
     critical q = false ∧ counted q = false) ∧
  ((∀ p, p ∈ ts → p = Out) → HT_STATUS_GROW = HT_STATUS_IDLE).
Proof.
  intros ts. assert (reachable 2 (HT_STATUS_GROW, ts)) as Hr.
  { eapply rtc_l; [apply (step_thread _ HT_STATUS_IDLE [] Out (Spin HT_STATUS_GROW) [Out]), t_spin; by vm_compute|].
    eapply rtc_l; [apply (step_thread _ HT_STATUS_GROW [] _ (Critical HT_STATUS_GROW) [Out]), t_claim|].
    eapply rtc_l; [apply (step_thread _ HT_STATUS_GROW [Critical HT_STATUS_GROW] Out Wait []), t_enter|].
    apply rtc_refl. }
  split; [exact Hr|]. by apply (ht_status_exclusion 2 HT_STATUS_GROW ts).
Defined.

(** C33 — A reader that leaves cannot be blocked: from any reachable state,
    run alone, it decrements the word exactly once and is out after at most
    three atomic operations. *)
Theorem ht_reader_release_bounded n v ts i p :
  Z.of_nat n + 4 < 2 ^ 32 → reachable n (v, ts) → ts !! i = Some p →
  (∃ s, p = Release s) ∨ p = ReleaseLast →
  ∃ m, (m ≤ 3)%nat ∧ solo i m (v, ts) (v - 1, <[i := Out]> ts).
Proof.
  intros Hn Hr Hi Hp. apply reachable_inv in Hr; [|done].
  apply list_elem_of_split_length in Hi as (ts1&ts2&->&->). apply inv_middle in Hr as (_&_&_&_&Hs).
  pose proof (count_nonneg counted (ts1 ++ ts2)) as Hr0. rewrite insert_middle.
  assert (HT_STATUS_READ ≤ v) as Hv.
  { destruct Hs as [(_&_&->)|[(_&_&_&->)|(_&_&_&E&_)]].
    - destruct Hp as [[s ->]| ->]; simpl; status_consts; lia.
    - destruct Hp as [[s ?]|?]; done.
    - destruct Hp as [[s ->]| ->]; done. }
  assert (∃ m, (m ≤ 2)%nat ∧
    solo (length ts1) m (v, ts1 ++ ReleaseLast :: ts2) (v - 1, ts1 ++ Out :: ts2)) as (m&Hm&Hsolo).
  { destruct (decide (v = HT_STATUS_READ)) as [->|Hne].
    - exists 1%nat. split; [lia|]. eapply solo_one; [apply t_last|]. apply solo_done.
    - exists 2%nat. split; [lia|]. eapply solo_one; [apply t_last|].
      unfold cas. rewrite (proj2 (Z.eqb_neq _ _)), (proj2 (Z.ltb_lt _ _)) by lia.
      eapply solo_one; [apply t_release|]. apply solo_done. }
  destruct Hp as [[s ->]| ->]; [|exists m; split; [lia|done]].
  destruct (decide (v = s)) as [<-|Hne].
  - exists 1%nat. split; [lia|]. eapply solo_one; [apply t_release|]. apply solo_done.
  - exists (S m). split; [lia|]. eapply solo_one; [by apply t_release_fail|]. done.
Qed.

Lemma ht_reader_release_bounded_witness :
  ∃ m, (m ≤ 3)%nat ∧ solo 0 m (HT_STATUS_READ, [Release 4]) (HT_STATUS_READ - 1, [Out]).
Proof.
  apply (ht_reader_release_bounded 1 HT_STATUS_READ [Release 4] 0 (Release 4)); try done; [|eauto].
  eapply rtc_l; [apply (step_thread _ HT_STATUS_IDLE [] Out Wait []), t_enter|].
  eapply rtc_l; [apply (step_thread _ HT_STATUS_READ [] Wait (Got HT_STATUS_IDLE) []), t_got|].
  eapply rtc_l; [apply (step_thread _ HT_STATUS_READ [] _ (Reading 4) []), t_first|].
  eapply rtc_l; [apply (step_thread _ HT_STATUS_READ [] _ (Release 4) []), t_read|]. apply rtc_refl.
Defined.

(** ** What the protocol does not protect

    Two threads interleaved on one table.  The parts of [ht_get_list] and
    [ht_set_list] are those of Hashtable; between them another thread runs a
    whole [ht_set], which is possible because the first thread holds no lock
    the other needs and the status is idle. *)

(** The rest of a lookup once the index has been computed: the value, or
    null. *)
Definition lookup_in (index : Z) (key : cstr) : H Z :=
  list ← get_list_at index;
  if list =? 0 then mret 0 else
  l ← load_items list;
  found ← lift (find_item (ils_head l) key);
  _ ← SPIN_UNLOCK list;
  mret (match found with Some (_, item, _) => it_data item | None => 0 end).

(** [n] keys of two bytes, their numbers as values. *)
Definition key_of (n : Z) : cstr := [n mod 256; n / 256].
Fixpoint fill (n : nat) : H unit :=
  match n with
  | O => mret tt
  | S k => _ ← ht_set (key_of (Z.of_nat n)) (Z.of_nat n) 1; fill k
  end.
Definition empty_world : world := mk_world None ∅ (mk_heap ∅ 1 [] []) [].

(** ht_get_list computes the bucket index before it is counted as a
    reader.  When another thread grows the table in between, the reader looks
    into the bucket of the old size: it does not find a key that is in the
    table before, during and after its lookup. *)
Theorem ht_get_list_stale_index :
  let key := key_of 2 in
  match (_ ← ht_create 0 0 false 12345;
         _ ← fill 170;
         t ← load_table;
         '(before, _) ← ht_get key false;
         index ← bucket_index (ht_hash_one_at_a_time (t_seed t) key);
         (* another thread *)
         r ← ht_set (key_of 171) 171 1;
         (* the reader goes on *)
         found ← lookup_in index key;
         '(after, _) ← ht_get key false;
         mret (before, r, found, after)) empty_world with
  | Ret (res, _) => res = (2, 0, 0, 2)
  | _ => False
  end.
Proof. by vm_compute. Qed.

(** ht_set_list gives the table back before it enters its new bucket in
    the iterator list.  When another thread grows the table in between, the
    bucket is not carried over: the first thread's ht_set succeeds and is
    counted, but its key is not in the table. *)
Theorem ht_set_list_lost_bucket :
  let key := key_of 200 in
  match (_ ← ht_create 0 0 false 12345;
         _ ← fill 170;
         t ← load_table;
         let hash := ht_hash_one_at_a_time (t_seed t) key in
         none ← ht_get_list hash;
         '(list, created) ← set_list_publish hash;
         (* another thread *)
         r ← ht_set (key_of 171) 171 1;
         (* ht_set_list and ht_set_internal go on *)
         _ ← set_list_register list;
         ok ← add_item list hash key 200 1 false;
         '(ret, _) ← set_done list 0 0 false false;
         '(value, _) ← ht_get key false;
         c ← ht_count;
         mret (none, created, r, ok, ret, value, c)) empty_world with
  | Ret (res, _) => res = (0, true, 0, true, 0, 0, 172)
  | _ => False
  end.
Proof. by vm_compute. Qed.
