(* ===== verification/Comparators.v ===== *)
(** * Comparison of keys (src/src/comparators.h)

    A key is a list of bytes; the integer comparators read it as a
    little-endian integer of the size of their type and return the difference
    of the two, converted to [int]. *)

From S2P Require Import Prelude.

Abbreviation key := (list Z).

(** [libhl_cmp_callback_t]. *)
Abbreviation libhl_cmp_callback_t := (key → key → outcome Z).

(** The bytes of an unsigned integer, and back. *)
Fixpoint le_bytes (n : nat) (v : Z) : key :=
  match n with O => [] | S n => v mod 256 :: le_bytes n (v / 256) end.
Fixpoint le_value (k : key) : Z :=
  match k with [] => 0 | b :: k => b + 256 * le_value k end.

(** The integer types; [int_value] reads one at the start of a key. *)
Record int_type := mk_int_type { it_signed : bool; it_size : nat }.
Definition int16_t := mk_int_type true 2.
Definition int32_t := mk_int_type true 4.
Definition int64_t := mk_int_type true 8.
Definition uint16_t := mk_int_type false 2.
Definition uint32_t := mk_int_type false 4.
Definition uint64_t := mk_int_type false 8.

Definition it_bits (t : int_type) : Z := 8 * Z.of_nat (it_size t).
Definition int_wrap (t : int_type) (v : Z) : Z :=
  let u := v mod 2 ^ it_bits t in
  if it_signed t && (2 ^ (it_bits t - 1) <=? u) then u - 2 ^ it_bits t else u.
Definition int_value (t : int_type) (k : key) : Z :=
  int_wrap t (le_value (take (it_size t) k)).

(** [_k1i - _k2i]: types shorter than [int] are promoted to it; a signed
    difference that overflows is undefined, an unsigned one wraps. *)
Definition int_sub (t : int_type) (a b : Z) : outcome Z :=
  if (it_size t <? 4)%nat then Ret (a - b)
  else if it_signed t then
    _ ← check ((- 2 ^ (it_bits t - 1) <=? a - b) && (a - b <? 2 ^ (it_bits t - 1)));
    Ret (a - b)
  else Ret ((a - b) mod 2 ^ it_bits t).

(** [LIBHL_CMP_KEYS_TYPE]; the value returned is converted to [int]. *)
Definition LIBHL_CMP_KEYS_TYPE (t : int_type) : libhl_cmp_callback_t := λ k1 k2,
  if (length k1 <? it_size t)%nat || (length k2 <? it_size t)%nat
     || negb (length k1 =? length k2)%nat
  then Ret (as_int (u32 (Z.of_nat (length k1) - Z.of_nat (length k2))))
  else
    d ← int_sub t (int_value t k1) (int_value t k2);
    Ret (as_int (u32 d)).

Definition libhl_cmp_keys_int16 := LIBHL_CMP_KEYS_TYPE int16_t.
Definition libhl_cmp_keys_int32 := LIBHL_CMP_KEYS_TYPE int32_t.
Definition libhl_cmp_keys_int64 := LIBHL_CMP_KEYS_TYPE int64_t.
Definition libhl_cmp_keys_uint16 := LIBHL_CMP_KEYS_TYPE uint16_t.
Definition libhl_cmp_keys_uint32 := LIBHL_CMP_KEYS_TYPE uint32_t.
Definition libhl_cmp_keys_uint64 := LIBHL_CMP_KEYS_TYPE uint64_t.

(** ** The contract of a comparator

    On the keys [ok] it returns a number whose sign is a total order. *)

Class Comparator (cmp : libhl_cmp_callback_t) (ok : key → Prop) := {
  cmp_sign : key → key → Z;
  cmp_ret k1 k2 : ok k1 → ok k2 → cmp k1 k2 = Ret (cmp_sign k1 k2);
  cmp_anti k1 k2 : ok k1 → ok k2 → 0 ≤ cmp_sign k1 k2 ↔ cmp_sign k2 k1 ≤ 0;
  cmp_trans k1 k2 k3 : ok k1 → ok k2 → ok k3 →
    cmp_sign k1 k2 ≤ 0 → cmp_sign k2 k3 ≤ 0 → cmp_sign k1 k3 ≤ 0
}.

(** *** The integer comparators *)

Definition is_byte (b : Z) : Prop := 0 ≤ b < 256.

Lemma le_value_bounds k : Forall is_byte k → 0 ≤ le_value k < 2 ^ (8 * Z.of_nat (length k)).
Proof.
  induction 1 as [|b k Hb _ IH]; [simpl; lia|]. unfold is_byte in Hb.
  rewrite length_cons, Nat2Z.inj_succ, Z.mul_succ_r, Z.pow_add_r by lia. simpl le_value. lia.
Qed.
Lemma length_le_bytes n v : length (le_bytes n v) = n.
Proof. revert v. induction n as [|n IH]; intros v; simpl; [done|]. by rewrite IH. Qed.
Lemma le_bytes_byte n v : Forall is_byte (le_bytes n v).
Proof.
  revert v. induction n as [|n IH]; intros v; simpl; constructor; [|done].
  unfold is_byte. apply Z.mod_pos_bound. lia.
Qed.
Lemma le_value_bytes n v : 0 ≤ v < 2 ^ (8 * Z.of_nat n) → le_value (le_bytes n v) = v.
Proof.
  revert v. induction n as [|n IH]; intros v Hv; simpl; [simpl in Hv; lia|].
  rewrite Nat2Z.inj_succ, Z.mul_succ_r, Z.pow_add_r in Hv by lia.
  rewrite IH by (split; [apply Z.div_pos; lia|apply Z.div_lt_upper_bound; lia]).
  pose proof (Z.div_mod v 256). lia.
Qed.

(** Priorities of 64 bits whose differences fit an [int]. *)
Definition small_key (k : key) : Prop :=
  length k = 8%nat ∧ Forall is_byte k ∧ le_value k < 2 ^ 31.

(** A 64-bit key. *)
Definition k64 (n : Z) : key := le_bytes 8 n.
Lemma small_le_bytes v : 0 ≤ v < 2 ^ 31 → small_key (le_bytes 8 v).
Proof.
  intros Hv. split; [apply length_le_bytes|]. split; [apply le_bytes_byte|].
  rewrite le_value_bytes; simpl; lia.
Qed.

Lemma int_value_uint64 k : length k = 8%nat → Forall is_byte k → int_value uint64_t k = le_value k.
Proof.
  intros Hl Hb. unfold int_value. simpl it_size. rewrite take_ge by lia. unfold int_wrap. simpl.
  pose proof (le_value_bounds k Hb) as Hv. rewrite Hl in Hv. apply Z.mod_small. exact Hv.
Qed.

Lemma as_int_wrap64 d : - 2 ^ 31 ≤ d < 2 ^ 31 → as_int (u32 (d mod 2 ^ 64)) = d.
Proof.
  intros Hd. unfold u32.
  rewrite Z.mod_mod_divide by (by exists (2 ^ 32)).
  unfold as_int, INT_MAX. destruct (Z.leb_spec (d mod 2 ^ 32) 2147483647) as [Hle|Hle].
  - destruct (decide (0 ≤ d)); [by rewrite Z.mod_small by lia|].
    replace (d mod 2 ^ 32) with (d + 2 ^ 32) in * by (rewrite <- (Z_mod_plus_full d 1), Z.mod_small; lia). lia.
  - destruct (decide (0 ≤ d)); [rewrite Z.mod_small in Hle by lia; lia|].
    rewrite <- (Z_mod_plus_full d 1), Z.mod_small by lia. lia.
Qed.

#[global] Program Instance uint64_comparator : Comparator libhl_cmp_keys_uint64 small_key := {
  cmp_sign k1 k2 := le_value k1 - le_value k2
}.
Next Obligation.
  intros k1 k2 (Hl1&Hb1&Hv1) (Hl2&Hb2&Hv2). unfold libhl_cmp_keys_uint64, LIBHL_CMP_KEYS_TYPE.
  rewrite Hl1, Hl2. simpl. rewrite !int_value_uint64 by done. unfold int_sub. simpl.
  pose proof (le_value_bounds k1 Hb1). pose proof (le_value_bounds k2 Hb2).
  by rewrite as_int_wrap64 by lia.
Qed.
Next Obligation. intros. simpl. lia. Qed.
Next Obligation. intros. simpl in *. lia. Qed.

(** C31 — on 64-bit unsigned keys below [2 ^ 31] the comparator is the
    difference of the numbers the keys hold. *)
Theorem cmp_keys_uint64_difference a b :
  0 ≤ a < 2 ^ 31 → 0 ≤ b < 2 ^ 31 → libhl_cmp_keys_uint64 (le_bytes 8 a) (le_bytes 8 b) = Ret (a - b).
Proof.
  intros Ha Hb. rewrite (cmp_ret (Comparator := uint64_comparator)) by (by apply small_le_bytes).
  cbn [cmp_sign uint64_comparator]. by rewrite !le_value_bytes by (simpl; lia).
Qed.

Lemma cmp_keys_uint64_difference_witness :
  libhl_cmp_keys_uint64 (le_bytes 8 3) (le_bytes 8 2147483647) = Ret (3 - 2147483647).
Proof. apply cmp_keys_uint64_difference; done. Defined.
