(* ===== verification/SortedDict.v ===== *)
(** * Sorted dictionaries

    What the search structures (src/src/rbtree.c, src/src/avltree.c,
    src/src/skiplist.c) promise: a list of keys with values, strictly sorted
    by a comparator, with insertion, lookup and removal.  The lemmas state the
    operations on a list cut at the place of a key, which is how a search
    leaves it. *)

From stdpp Require Import sorting.
From S2P Require Import Prelude Comparators.

Abbreviation items := (list (key * Z)).

Section dict.
Context {cmp : libhl_cmp_callback_t} {ok : key → Prop} `{!Comparator cmp ok}.

(** ** The order of keys *)

Definition before_key (k1 k2 : key) : Prop := cmp_sign k1 k2 < 0.
Definition same_key (k1 k2 : key) : Prop := cmp_sign k1 k2 = 0.

Lemma sign_swap k1 k2 : ok k1 → ok k2 → cmp_sign k1 k2 < 0 ↔ 0 < cmp_sign k2 k1.
Proof. intros H1 H2. pose proof (cmp_anti k1 k2 H1 H2). lia. Qed.
Lemma sign_refl k : ok k → cmp_sign k k = 0.
Proof. intros Hk. pose proof (cmp_anti k k Hk Hk). lia. Qed.
Lemma sign_zero k1 k2 : ok k1 → ok k2 → cmp_sign k1 k2 = 0 → cmp_sign k2 k1 = 0.
Proof. intros H1 H2. pose proof (cmp_anti k1 k2 H1 H2). pose proof (cmp_anti k2 k1 H2 H1). lia. Qed.
Lemma sign_lt_le k1 k2 k3 :
  ok k1 → ok k2 → ok k3 → cmp_sign k1 k2 < 0 → cmp_sign k2 k3 ≤ 0 → cmp_sign k1 k3 < 0.
Proof.
  intros H1 H2 H3 H12 H23. pose proof (cmp_anti k1 k3 H1 H3). pose proof (cmp_anti k1 k2 H1 H2).
  destruct (decide (cmp_sign k1 k3 < 0)); [done|].
  pose proof (cmp_trans k2 k3 k1 H2 H3 H1). pose proof (sign_swap k1 k2 H1 H2). lia.
Qed.
Lemma sign_le_lt k1 k2 k3 :
  ok k1 → ok k2 → ok k3 → cmp_sign k1 k2 ≤ 0 → cmp_sign k2 k3 < 0 → cmp_sign k1 k3 < 0.
Proof.
  intros H1 H2 H3 H12 H23. destruct (decide (cmp_sign k1 k3 < 0)); [done|].
  pose proof (cmp_anti k1 k3 H1 H3). pose proof (cmp_trans k3 k1 k2 H3 H1 H2).
  pose proof (sign_swap k2 k3 H2 H3). lia.
Qed.

(** ** Dictionaries *)

Fixpoint dict_find (k : key) (s : items) : option Z :=
  match s with
  | [] => None
  | (k', v) :: s => if cmp_sign k' k =? 0 then Some v else dict_find k s
  end.
(** An item with the same key is replaced, key included. *)
Fixpoint dict_insert (k : key) (v : Z) (s : items) : items :=
  match s with
  | [] => [(k, v)]
  | (k', v') :: s =>
      if cmp_sign k' k =? 0 then (k, v) :: s
      else if 0 <? cmp_sign k' k then (k, v) :: (k', v') :: s
      else (k', v') :: dict_insert k v s
  end.
Fixpoint dict_remove (k : key) (s : items) : items :=
  match s with
  | [] => []
  | (k', v) :: s => if cmp_sign k' k =? 0 then s else (k', v) :: dict_remove k s
  end.

Definition dict (s : items) : Prop :=
  Forall (λ x, ok x.1) s ∧ StronglySorted (λ x y, before_key x.1 y.1) s.

(** All keys of [s] come before, or after, [k]. *)
Definition all_before (k : key) (s : items) : Prop := Forall (λ x, cmp_sign x.1 k < 0) s.
Definition all_after (k : key) (s : items) : Prop := Forall (λ x, 0 < cmp_sign x.1 k) s.

Lemma dict_nil : dict [].
Proof. split; constructor. Qed.
Lemma dict_app s1 s2 :
  dict (s1 ++ s2) ↔ dict s1 ∧ dict s2 ∧ (∀ x y, x ∈ s1 → y ∈ s2 → before_key x.1 y.1).
Proof.
  unfold dict. rewrite Forall_app, StronglySorted_app. split.
  - intros [[??] (Hc&?&?)]. split_and!; try done.
  - intros ([??]&[??]&Hc). split_and!; try done.
Qed.
Lemma dict_cons k v s :
  dict ((k, v) :: s) ↔ ok k ∧ dict s ∧ (∀ y, y ∈ s → before_key k y.1).
Proof.
  unfold dict. rewrite Forall_cons. split.
  - intros [[??] Hs]. apply StronglySorted_inv in Hs as [? Hf].
    split_and!; [done|done|done|]. by rewrite Forall_forall in Hf.
  - intros (?&[??]&Hc). split; [done|]. constructor; [done|]. by rewrite Forall_forall.
Qed.
Lemma dict_snoc_cons s1 k v s2 :
  dict (s1 ++ (k, v) :: s2) ↔
    ok k ∧ dict (s1 ++ s2) ∧ (∀ x, x ∈ s1 → before_key x.1 k) ∧ (∀ y, y ∈ s2 → before_key k y.1).
Proof.
  rewrite !dict_app, dict_cons. split.
  - intros (?&(?&?&?)&Hc). split_and!; try done.
    + intros x y Hx Hy. apply Hc; [done|]. by right.
    + intros x Hx. apply (Hc x (k, v)); [done|left].
  - intros (?&(?&?&Hc)&Hl&?). split_and!; try done.
    intros x y Hx Hy. apply elem_of_cons in Hy as [->|Hy]; [by apply Hl|by apply Hc].
Qed.
Lemma dict_ok s x : dict s → x ∈ s → ok x.1.
Proof. intros [Hf _]. rewrite Forall_forall in Hf. apply Hf. Qed.

(** ** The operations at the place of a key *)

Section place.
Context (k : key) (Hk : ok k).

Lemma find_before s1 s2 : all_before k s1 → dict_find k (s1 ++ s2) = dict_find k s2.
Proof using Type.
  induction 1 as [|[k' v'] s1 Hx _ IH]; [done|]. simpl in *.
  by destruct (Z.eqb_spec (cmp_sign k' k) 0); [lia|].
Qed.
Lemma find_after s : all_after k s → dict_find k s = None.
Proof using Type.
  induction 1 as [|[k' v'] s Hx _ IH]; [done|]. simpl in *.
  by destruct (Z.eqb_spec (cmp_sign k' k) 0); [lia|].
Qed.
Lemma find_hit s1 k0 v0 s2 :
  all_before k s1 → same_key k0 k → dict_find k (s1 ++ (k0, v0) :: s2) = Some v0.
Proof using Type. intros ? Hs. rewrite find_before by done. simpl. by rewrite Hs. Qed.
Lemma find_miss s1 s2 : all_before k s1 → all_after k s2 → dict_find k (s1 ++ s2) = None.
Proof using Type. intros ??. rewrite find_before by done. by apply find_after. Qed.

Lemma insert_before v s1 s2 :
  all_before k s1 → dict_insert k v (s1 ++ s2) = s1 ++ dict_insert k v s2.
Proof using Type.
  induction 1 as [|[k' v'] s1 Hx _ IH]; [done|]. simpl in *.
  destruct (Z.eqb_spec (cmp_sign k' k) 0); [lia|].
  destruct (Z.ltb_spec 0 (cmp_sign k' k)); [lia|]. by rewrite IH.
Qed.
Lemma insert_hit v s1 k0 v0 s2 :
  all_before k s1 → same_key k0 k → dict_insert k v (s1 ++ (k0, v0) :: s2) = s1 ++ (k, v) :: s2.
Proof using Type. intros ? Hs. rewrite insert_before by done. simpl. by rewrite Hs. Qed.
Lemma insert_miss v s1 s2 :
  all_before k s1 → all_after k s2 → dict_insert k v (s1 ++ s2) = s1 ++ (k, v) :: s2.
Proof using Type.
  intros ? Ha. rewrite insert_before by done. f_equal. destruct Ha as [|[k' v'] s Hx _]; [done|].
  simpl in *. destruct (Z.eqb_spec (cmp_sign k' k) 0); [lia|].
  by destruct (Z.ltb_spec 0 (cmp_sign k' k)); [|lia].
Qed.

Lemma remove_before s1 s2 : all_before k s1 → dict_remove k (s1 ++ s2) = s1 ++ dict_remove k s2.
Proof using Type.
  induction 1 as [|[k' v'] s1 Hx _ IH]; [done|]. simpl in *.
  destruct (Z.eqb_spec (cmp_sign k' k) 0); [lia|]. by rewrite IH.
Qed.
Lemma remove_hit s1 k0 v0 s2 :
  all_before k s1 → same_key k0 k → dict_remove k (s1 ++ (k0, v0) :: s2) = s1 ++ s2.
Proof using Type. intros ? Hs. rewrite remove_before by done. simpl. by rewrite Hs. Qed.
Lemma remove_absent s : dict_find k s = None → dict_remove k s = s.
Proof using Type.
  induction s as [|[k' v'] s IH]; simpl; [done|]. case_match; [done|]. intros ?. by rewrite IH.
Qed.

(** A dictionary cut at an item: everything else is on its side. *)
Lemma dict_split s1 k0 v0 s2 :
  dict (s1 ++ (k0, v0) :: s2) → same_key k0 k → all_before k s1 ∧ all_after k s2.
Proof using Hk.
  rewrite dict_snoc_cons. intros (Hk0&Hd&Hl&Hr) Hs. unfold same_key in Hs. split; apply Forall_forall; intros x Hx.
  - apply (sign_lt_le _ k0); [by eapply dict_ok, elem_of_app; eauto|done..|by apply Hl|lia].
  - assert (Hox : ok x.1) by (by eapply dict_ok, elem_of_app; eauto).
    apply sign_swap; [done..|]. apply (sign_le_lt _ k0); [done..| |by apply Hr].
    rewrite sign_zero; [lia|done..].
Qed.

Lemma dict_hit s1 k0 v0 s2 :
  dict (s1 ++ (k0, v0) :: s2) → same_key k0 k → dict_find k (s1 ++ (k0, v0) :: s2) = Some v0.
Proof using Hk. intros Hd Hs. apply find_hit; [by eapply dict_split|done]. Qed.
(** What comes before a key that comes before, and after one that comes after. *)
Lemma dict_before s1 k0 v0 s2 :
  dict (s1 ++ (k0, v0) :: s2) → cmp_sign k0 k < 0 → all_before k (s1 ++ [(k0, v0)]).
Proof using Hk.
  rewrite dict_snoc_cons. intros (Hk0&Hd&Hl&_) Hs. apply Forall_app. split; [|by repeat constructor].
  apply Forall_forall. intros x Hx. apply (sign_lt_le _ k0);
    [by eapply dict_ok, elem_of_app; eauto|done..|by apply Hl|lia].
Qed.
Lemma dict_after s1 k0 v0 s2 :
  dict (s1 ++ (k0, v0) :: s2) → 0 < cmp_sign k0 k → all_after k ((k0, v0) :: s2).
Proof using Hk.
  rewrite dict_snoc_cons. intros (Hk0&Hd&_&Hr) Hs. constructor; [done|].
  apply Forall_forall. intros x Hx. assert (Hox : ok x.1) by (by eapply dict_ok, elem_of_app; eauto).
  apply sign_swap; [done..|]. apply (sign_lt_le _ k0); [done..| |].
  - by apply sign_swap.
  - specialize (Hr x Hx). unfold before_key in Hr. lia.
Qed.

(** Inserting keeps the dictionary, whatever the cut. *)
Lemma dict_put_hit v s1 k0 v0 s2 :
  dict (s1 ++ (k0, v0) :: s2) → same_key k0 k → dict (s1 ++ (k, v) :: s2).
Proof using Hk.
  intros Hd Hs. pose proof (dict_split _ _ _ _ Hd Hs) as [Hb Ha].
  apply dict_snoc_cons in Hd as (?&?&_&_). apply dict_snoc_cons. split_and!; [done|done| |].
  - intros x Hx. unfold all_before in Hb. rewrite Forall_forall in Hb. by apply Hb.
  - intros y Hy. unfold all_after in Ha. rewrite Forall_forall in Ha.
    apply sign_swap; [done|by eapply dict_ok, elem_of_app; eauto|by apply Ha].
Qed.
Lemma dict_put_miss v s1 s2 :
  dict (s1 ++ s2) → all_before k s1 → all_after k s2 → dict (s1 ++ (k, v) :: s2).
Proof using Hk.
  intros Hd Hb Ha. apply dict_snoc_cons. split_and!; [done|done| |].
  - intros x Hx. unfold all_before in Hb. rewrite Forall_forall in Hb. by apply Hb.
  - intros y Hy. unfold all_after in Ha. rewrite Forall_forall in Ha.
    apply sign_swap; [done|by eapply dict_ok, elem_of_app; eauto|by apply Ha].
Qed.
Lemma dict_cut s1 x s2 : dict (s1 ++ x :: s2) → dict (s1 ++ s2).
Proof using Type. destruct x. rewrite dict_snoc_cons. tauto. Qed.

(** *** The operations keep the order *)

(** Every dictionary is cut at the place of a key. *)
Lemma dict_place s :
  dict s → ∃ s1 s2, all_before k s1 ∧ all_after k s2 ∧
    (s = s1 ++ s2 ∨ ∃ k0 v0, same_key k0 k ∧ s = s1 ++ (k0, v0) :: s2).
Proof using Hk.
  induction s as [|[k' v'] s IH]; intros Hd.
  { exists [], []. split_and!; [constructor..|by left]. }
  pose proof (dict_split [] k' v' s Hd) as Hcut.
  apply dict_cons in Hd as (Hk'&Hd&Hlt).
  destruct (Z.lt_trichotomy (cmp_sign k' k) 0) as [Hl|[He|Hg]].
  - destruct (IH Hd) as (s1&s2&Hb&Ha&Hs). exists ((k', v') :: s1), s2.
    split_and!; [by constructor|done|]. destruct Hs as [->|(k0&v0&?&->)]; [by left|right; eauto].
  - exists [], s. destruct (Hcut He) as [_ Ha]. split_and!; [constructor|done|]. right. by exists k', v'.
  - exists [], ((k', v') :: s). split_and!; [constructor| |by left]. constructor; [done|].
    apply Forall_forall. intros y Hy. pose proof (dict_ok _ _ Hd Hy).
    apply sign_swap; [done..|]. apply (sign_lt_le _ k'); [done..| |].
    + apply sign_swap; [done..|lia].
    + specialize (Hlt y Hy). unfold before_key in Hlt. lia.
Qed.
Lemma dict_insert_dict v s : dict s → dict (dict_insert k v s).
Proof using Hk.
  intros Hd. destruct (dict_place s Hd) as (s1&s2&Hb&Ha&[->|(k0&v0&Hs&->)]).
  - rewrite insert_miss by done. by apply dict_put_miss.
  - rewrite insert_hit by done. by apply (dict_put_hit _ _ k0 v0).
Qed.
Lemma dict_remove_dict s : dict s → dict (dict_remove k s).
Proof using Hk.
  intros Hd. destruct (dict_place s Hd) as (s1&s2&Hb&Ha&[->|(k0&v0&Hs&->)]).
  - by rewrite remove_absent by (by apply find_miss).
  - rewrite remove_hit by done. by eapply dict_cut.
Qed.
End place.
End dict.
#[global] Arguments dict _ _ {_} _.

(** ** Walks

    A walk calls a function of the client on a key, a value and the state of
    the client, which it returns with what the walk does next. *)

Section calls.
Context {U : Type} (cbk : key → Z → U → Z * U).

(** The state after the calls on the items [s]. *)
Definition call_all (s : items) (u : U) : U := foldl (λ u x, (cbk x.1 x.2 u).2) u s.
(** The callback neither stops nor deletes. *)
Definition goes_on : Prop := ∀ k v u, (cbk k v u).1 ∉ [-2; -1; 0].

Lemma call_all_app s1 s2 u : call_all (s1 ++ s2) u = call_all s2 (call_all s1 u).
Proof. unfold call_all. by rewrite foldl_app. Qed.
Lemma call_all_cons x s u : call_all (x :: s) u = call_all s (cbk x.1 x.2 u).2.
Proof. done. Qed.
End calls.

(** The callback that collects the items. *)
Definition collect (k : key) (v : Z) (s : items) : Z * items := (1, s ++ [(k, v)]).
Lemma call_collect s s' : call_all collect s s' = s' ++ s.
Proof.
  revert s'. induction s as [|[k v] s IH]; intros s'; [by rewrite app_nil_r|].
  rewrite call_all_cons, IH. simpl. by rewrite <- app_assoc.
Qed.
Lemma collect_goes_on : goes_on collect.
Proof. intros k v u. simpl. rewrite !not_elem_of_cons. split_and!; [lia..|apply not_elem_of_nil]. Qed.
