(* ===== verification/Ptree.v ===== *)
(** * Binary trees with parent pointers

    The nodes of src/src/rbtree.c and src/src/avltree.c: objects of a store,
    with pointers to two children and to their parent, a private copy of a key
    and a value.  [X] is what each tree keeps besides: a colour, or heights.
    The second half says when a store holds a tree, seen as a subtree and the
    path above it (a zipper), so that an operation on the links of a few nodes
    is an equation between trees. *)

From S2P Require Import Prelude Comparators SortedDict.

(** ** The store *)

(** The key block is [None] before it is allocated and after it is freed. *)
Record pnode (X : Type) := mk_pnode {
  pn_key : option key; pn_klen : Z; pn_value : Z; pn_extra : X;
  pn_left : Z; pn_right : Z; pn_parent : Z
}.
Arguments mk_pnode {X}.
Arguments pn_key {X}.
Arguments pn_klen {X}.
Arguments pn_value {X}.
Arguments pn_extra {X}.
Arguments pn_left {X}.
Arguments pn_right {X}.
Arguments pn_parent {X}.

(** A tree: its root, the comparator and the free callback of the client. *)
Record ptree := mk_ptree {
  pt_root : Z; cmp_keys_cb : option libhl_cmp_callback_t; free_value_cb : bool
}.

(** [pw_alloc] lists which allocations succeed, [pw_freed] the values given to
    the free callback; [pw_prevnext] is the static counter of [rbt_remove]. *)
Record pworld (X : Type) := mk_pworld {
  pw_tree : option ptree; pw_nodes : gmap Z (pnode X); pw_next : Z; pw_alloc : list bool;
  pw_freed : list Z; pw_prevnext : Z
}.
Arguments mk_pworld {X}.
Arguments pw_tree {X}.
Arguments pw_nodes {X}.
Arguments pw_next {X}.
Arguments pw_alloc {X}.
Arguments pw_freed {X}.
Arguments pw_prevnext {X}.

Section store.
Context {X : Type}.
Abbreviation P := (ST (pworld X)).

Definition load_ptree : P ptree := λ w,
  match pw_tree w with Some t => Ret (t, w) | None => Undef end.
Definition load_pn (p : Z) : P (pnode X) := λ w,
  match pw_nodes w !! p with Some n => Ret (n, w) | None => Undef end.
Definition put_tree (t : option ptree) (w : pworld X) : pworld X :=
  mk_pworld t (pw_nodes w) (pw_next w) (pw_alloc w) (pw_freed w) (pw_prevnext w).
Definition put_nodes (N : gmap Z (pnode X)) (w : pworld X) : pworld X :=
  mk_pworld (pw_tree w) N (pw_next w) (pw_alloc w) (pw_freed w) (pw_prevnext w).
Definition with_root (r : Z) (t : ptree) : ptree := mk_ptree r (cmp_keys_cb t) (free_value_cb t).
Definition set_root (r : Z) : P unit :=
  t ← load_ptree; modify (put_tree (Some (with_root r t))).
Definition set_pn (p : Z) (f : pnode X → pnode X) : P unit :=
  _ ← load_pn p; modify (λ w, put_nodes (alter f p (pw_nodes w)) w).

Definition with_key (k : option key) (n : pnode X) :=
  mk_pnode k (pn_klen n) (pn_value n) (pn_extra n) (pn_left n) (pn_right n) (pn_parent n).
Definition with_klen (l : Z) (n : pnode X) :=
  mk_pnode (pn_key n) l (pn_value n) (pn_extra n) (pn_left n) (pn_right n) (pn_parent n).
Definition with_value (v : Z) (n : pnode X) :=
  mk_pnode (pn_key n) (pn_klen n) v (pn_extra n) (pn_left n) (pn_right n) (pn_parent n).
Definition with_extra (x : X) (n : pnode X) :=
  mk_pnode (pn_key n) (pn_klen n) (pn_value n) x (pn_left n) (pn_right n) (pn_parent n).
Definition with_left (p : Z) (n : pnode X) :=
  mk_pnode (pn_key n) (pn_klen n) (pn_value n) (pn_extra n) p (pn_right n) (pn_parent n).
Definition with_right (p : Z) (n : pnode X) :=
  mk_pnode (pn_key n) (pn_klen n) (pn_value n) (pn_extra n) (pn_left n) p (pn_parent n).
Definition with_parent (p : Z) (n : pnode X) :=
  mk_pnode (pn_key n) (pn_klen n) (pn_value n) (pn_extra n) (pn_left n) (pn_right n) p.

(** The bytes of the key of a node. *)
Definition key_bytes (n : pnode X) : outcome key :=
  match pn_key n with
  | Some b => _ ← check ((0 <=? pn_klen n) && (pn_klen n <=? Z.of_nat (length b)));
              Ret (take (Z.to_nat (pn_klen n)) b)
  | None => Undef
  end.
Definition load_key (p : Z) : P key := n ← load_pn p; lift (key_bytes n).

(** The answer of the allocator. *)
Definition put_alloc (a : list bool) (w : pworld X) : pworld X :=
  mk_pworld (pw_tree w) (pw_nodes w) (pw_next w) a (pw_freed w) (pw_prevnext w).
Definition next_alloc : P bool := λ w,
  Ret (default true (head (pw_alloc w)), put_alloc (tail (pw_alloc w)) w).

Definition put_next (p : Z) (w : pworld X) : pworld X :=
  mk_pworld (pw_tree w) (pw_nodes w) p (pw_alloc w) (pw_freed w) (pw_prevnext w).
(** [calloc] of a node, [x0] the zeroed extra part: the node or null. *)
Definition new_node (x0 : X) : P Z :=
  ok ← next_alloc;
  if negb ok then mret 0 else
  p ← gets pw_next;
  _ ← modify (λ w, put_next (p + 1) (put_nodes (<[p := mk_pnode None 0 0 x0 0 0 0]> (pw_nodes w)) w));
  mret p.

(** [free] of the key and of the node.  A node freed before its key would lose
    the only pointer to the key block: this counts as an error too. *)
Definition free_key (p : Z) : P unit :=
  n ← load_pn p;
  match pn_key n with Some _ => set_pn p (with_key None) | None => undef end.
Definition free_pn (p : Z) : P unit :=
  n ← load_pn p;
  match pn_key n with
  | Some _ => undef
  | None => modify (λ w, put_nodes (delete p (pw_nodes w)) w)
  end.
Definition give (l : list Z) (w : pworld X) : pworld X :=
  mk_pworld (pw_tree w) (pw_nodes w) (pw_next w) (pw_alloc w) (pw_freed w ++ l) (pw_prevnext w).
Definition call_free_value (v : Z) : P unit := modify (give [v]).
Definition free_ptree : P unit := modify (put_tree None).

(** [if (p) p->parent = q], and the link of [parent] to its child [old] set to
    [new]. *)
Definition reparent (p q : Z) : P unit :=
  if p =? 0 then mret tt else set_pn p (with_parent q).
Definition relink_child (parent old new : Z) : P unit :=
  n ← load_pn parent;
  if pn_left n =? old then set_pn parent (with_left new) else set_pn parent (with_right new).

(** The leftmost and rightmost node below [p]. *)
Definition leftmost_body (p : Z) : P (Z + Z) :=
  n ← load_pn p; if pn_left n =? 0 then mret (inr p) else mret (inl (pn_left n)).
Definition rightmost_body (p : Z) : P (Z + Z) :=
  n ← load_pn p; if pn_right n =? 0 then mret (inr p) else mret (inl (pn_right n)).

(** *** Their rules *)

Lemma returns_load_pn p n w Q :
  pw_nodes w !! p = Some n → Q (n, w) → returns (load_pn p w) Q.
Proof. intros Hn HQ. unfold load_pn. by rewrite Hn. Qed.
Lemma returns_load_ptree t w Q : pw_tree w = Some t → Q (t, w) → returns (load_ptree w) Q.
Proof. intros Ht HQ. unfold load_ptree. by rewrite Ht. Qed.
Lemma returns_set_root r t w Q :
  pw_tree w = Some t → Q (tt, put_tree (Some (with_root r t)) w) → returns (set_root r w) Q.
Proof. intros Ht HQ. unfold set_root. go. eapply returns_load_ptree; [done|]. by go. Qed.
Lemma returns_set_pn p f n w Q :
  pw_nodes w !! p = Some n → Q (tt, put_nodes (alter f p (pw_nodes w)) w) →
  returns (set_pn p f w) Q.
Proof. intros Hn HQ. unfold set_pn. go. eapply returns_load_pn; [done|]. by go. Qed.
Lemma returns_next_alloc w Q :
  (∀ b, (b = false → false ∈ pw_alloc w) →
     (false ∈ tail (pw_alloc w) → false ∈ pw_alloc w) → Q (b, put_alloc (tail (pw_alloc w)) w)) →
  returns (next_alloc w) Q.
Proof.
  intros HQ. unfold next_alloc. apply returns_Ret, HQ.
  - destruct (pw_alloc w) as [|b a]; simpl; [done|]. intros ->. left.
  - destruct (pw_alloc w); simpl; [done|]. by right.
Qed.
Lemma returns_free_key p n b w Q :
  pw_nodes w !! p = Some n → pn_key n = Some b →
  Q (tt, put_nodes (alter (with_key None) p (pw_nodes w)) w) → returns (free_key p w) Q.
Proof.
  intros Hn Hb HQ. unfold free_key. go. eapply returns_load_pn; [done|]. go. rewrite Hb.
  by eapply returns_set_pn.
Qed.
Lemma returns_free_pn p n w Q :
  pw_nodes w !! p = Some n → pn_key n = None →
  Q (tt, put_nodes (delete p (pw_nodes w)) w) → returns (free_pn p w) Q.
Proof.
  intros Hn Hb HQ. unfold free_pn. go. eapply returns_load_pn; [done|]. go. by rewrite Hb.
Qed.
End store.

(** ** Counting addresses

    That no address occurs twice, and every consequence of it, is linear
    arithmetic on the numbers of occurrences of one address. *)

Definition same_addr (z x : Z) : nat := if decide (z = x) then 1%nat else 0%nat.
Fixpoint occ (z : Z) (l : list Z) : nat :=
  match l with [] => 0%nat | x :: l => (same_addr z x + occ z l)%nat end.

Lemma same_addr_refl z : same_addr z z = 1%nat.
Proof. unfold same_addr. by case_decide. Qed.
Lemma occ_app z l1 l2 : occ z (l1 ++ l2) = (occ z l1 + occ z l2)%nat.
Proof. induction l1 as [|x l1 IH]; simpl; [done|]. rewrite IH. lia. Qed.
Lemma elem_of_occ z l : z ∈ l ↔ (0 < occ z l)%nat.
Proof.
  induction l as [|x l IH]; simpl; [split; [by intros ?%elem_of_nil|lia]|].
  rewrite elem_of_cons, IH. unfold same_addr. case_decide; split; intros; try lia; try tauto.
Qed.
Lemma NoDup_occ l : NoDup l ↔ ∀ z, (occ z l ≤ 1)%nat.
Proof.
  induction l as [|x l IH]; simpl; [split; [lia|constructor]|].
  rewrite NoDup_cons, IH, elem_of_occ. split.
  - intros [Hx Hl] z. specialize (Hl z). unfold same_addr. case_decide; subst; lia.
  - intros Hz. split.
    + specialize (Hz x). rewrite same_addr_refl in Hz. lia.
    + intros z. specialize (Hz z). lia.
Qed.

Create Rewrite HintDb occ.
#[export] Hint Rewrite @fmap_app @fmap_cons @fmap_nil @elem_of_occ @occ_app same_addr_refl : occ.

(** [count z] proves a fact about memberships from the hypotheses, with each
    [NoDup] used at [z]; [apart] proves that two addresses differ. *)
Ltac occ_simpl := repeat (progress (autorewrite with occ; cbn [fst snd app occ])).
Ltac count z :=
  repeat match goal with
  | H : NoDup _ |- _ => generalize (proj1 (NoDup_occ _) H z); clear H
  | H : _ ∈ _ |- _ => revert H
  | H : _ ∉ _ |- _ => revert H
  end;
  clear; occ_simpl; lia.

(** ** Trees and paths *)

Section trees.
Context {X : Type}.
Abbreviation nodes := (gmap Z (pnode X)).

(** Address, key with value and extra part, children. *)
Inductive tree := E | T (p : Z) (d : key * Z * X) (l r : tree).

(** The path from a subtree to the root: [FL] from the left child of [p],
    whose right child is [r]; [FR] from the right child. *)
Inductive frame := FL (p : Z) (d : key * Z * X) (r : tree) | FR (p : Z) (d : key * Z * X) (l : tree).
Abbreviation path := (list frame).

Definition root (t : tree) : Z := match t with E => 0 | T p _ _ _ => p end.
Definition frame_addr (f : frame) : Z := match f with FL p _ _ | FR p _ _ => p end.
Definition top (c : path) : Z := match c with [] => 0 | f :: _ => frame_addr f end.

Fixpoint flat (t : tree) : list (Z * (key * Z)) :=
  match t with E => [] | T p d l r => flat l ++ (p, d.1) :: flat r end.
Fixpoint plug (c : path) (t : tree) : tree :=
  match c with
  | [] => t
  | FL p d r :: c => plug c (T p d t r)
  | FR p d l :: c => plug c (T p d l t)
  end.
(** What comes before and after a subtree. *)
Fixpoint pre (c : path) : list (Z * (key * Z)) :=
  match c with
  | [] => []
  | FL _ _ _ :: c => pre c
  | FR p d l :: c => pre c ++ flat l ++ [(p, d.1)]
  end.
Fixpoint post (c : path) : list (Z * (key * Z)) :=
  match c with
  | [] => []
  | FL p d r :: c => (p, d.1) :: flat r ++ post c
  | FR _ _ _ :: c => post c
  end.

Lemma flat_E : flat E = [].
Proof. done. Qed.
Lemma flat_T p d l r : flat (T p d l r) = flat l ++ (p, d.1) :: flat r.
Proof. done. Qed.
Lemma pre_nil : pre [] = [].
Proof. done. Qed.
Lemma pre_FL p d r c : pre (FL p d r :: c) = pre c.
Proof. done. Qed.
Lemma pre_FR p d l c : pre (FR p d l :: c) = pre c ++ flat l ++ [(p, d.1)].
Proof. done. Qed.
Lemma post_nil : post [] = [].
Proof. done. Qed.
Lemma post_FL p d r c : post (FL p d r :: c) = (p, d.1) :: flat r ++ post c.
Proof. done. Qed.
Lemma post_FR p d l c : post (FR p d l :: c) = post c.
Proof. done. Qed.

Lemma flat_plug c t : flat (plug c t) = pre c ++ flat t ++ post c.
Proof.
  revert t. induction c as [|[p d r|p d l] c IH]; intros t; simpl; [by rewrite app_nil_r|..];
    rewrite IH; simpl; by rewrite <- !app_assoc.
Qed.

Lemma pre_app c1 c2 : pre (c1 ++ c2) = pre c2 ++ pre c1.
Proof. induction c1 as [|[p d r|p d l] c1 IH]; simpl; [by rewrite app_nil_r|done|]. by rewrite IH, <- app_assoc. Qed.
Lemma post_app c1 c2 : post (c1 ++ c2) = post c1 ++ post c2.
Proof. induction c1 as [|[p d r|p d l] c1 IH]; simpl; [done| |done]. by rewrite IH, <- app_assoc. Qed.

Fixpoint height (t : tree) : nat :=
  match t with E => 0%nat | T _ _ l r => S (height l `max` height r) end.
Lemma height_plug c t : (length c + height t ≤ height (plug c t))%nat.
Proof.
  revert t. induction c as [|[p d r|p d l] c IH]; intros t; simpl; [lia|..];
    (etransitivity; [|apply IH]); simpl; lia.
Qed.
Lemma plug_app c1 c2 t : plug (c1 ++ c2) t = plug c2 (plug c1 t).
Proof. revert t. induction c1 as [|[] c1 IH]; intros t; simpl; [done|apply IH..]. Qed.

#[local] Hint Rewrite flat_E flat_T pre_nil pre_FL pre_FR pre_app post_nil post_FL post_FR post_app : occ.

(** ** A store holds a tree *)

Definition node_of (d : key * Z * X) (l r par : Z) : pnode X :=
  mk_pnode (Some d.1.1) (Z.of_nat (length d.1.1)) d.1.2 d.2 l r par.

Fixpoint shape (N : nodes) (par : Z) (t : tree) : Prop :=
  match t with
  | E => True
  | T p d l r =>
      p ≠ 0 ∧ N !! p = Some (node_of d (root l) (root r) par) ∧ shape N p l ∧ shape N p r
  end.
Fixpoint path_shape (N : nodes) (c : path) (hole : Z) : Prop :=
  match c with
  | [] => True
  | FL p d r :: c =>
      p ≠ 0 ∧ N !! p = Some (node_of d hole (root r) (top c)) ∧ shape N p r ∧ path_shape N c p
  | FR p d l :: c =>
      p ≠ 0 ∧ N !! p = Some (node_of d (root l) hole (top c)) ∧ shape N p l ∧ path_shape N c p
  end.

Lemma shape_plug N c t : shape N 0 (plug c t) ↔ shape N (top c) t ∧ path_shape N c (root t).
Proof.
  revert t. induction c as [|[p d r|p d l] c IH]; intros t; simpl; [tauto|..]; rewrite IH; simpl; tauto.
Qed.

Abbreviation addrs t := ((flat t).*1).
Abbreviation path_addrs c := ((pre c).*1 ++ (post c).*1).

Lemma shape_frame N N' par t :
  shape N par t → (∀ q, q ∈ addrs t → N' !! q = N !! q) → shape N' par t.
Proof.
  revert par. induction t as [|p d l IHl r IHr]; intros par Hs Hf; simpl in *; [done|].
  destruct Hs as (?&Hp&?&?). split_and!; [done| | |].
  - rewrite Hf; [done|]. count p.
  - apply IHl; [done|]. intros q Hq. apply Hf. count q.
  - apply IHr; [done|]. intros q Hq. apply Hf. count q.
Qed.
Lemma path_frame N N' c h :
  path_shape N c h → (∀ q, q ∈ path_addrs c → N' !! q = N !! q) → path_shape N' c h.
Proof.
  revert h. induction c as [|[p d r|p d l] c IH]; intros h Hs Hf; simpl in *; [done|..];
    destruct Hs as (?&Hp&?&?); (split_and!; [done|rewrite Hf; [done|count p]| |]).
  - eapply shape_frame; [done|]. intros q Hq. apply Hf. count q.
  - apply IH; [done|]. intros q Hq. apply Hf. count q.
  - eapply shape_frame; [done|]. intros q Hq. apply Hf. count q.
  - apply IH; [done|]. intros q Hq. apply Hf. count q.
Qed.

Lemma root_elem t : root t ≠ 0 → root t ∈ addrs t.
Proof. destruct t as [|p d l r]; simpl; [done|]. intros _. count p. Qed.
Lemma top_elem c : top c ≠ 0 → top c ∈ path_addrs c.
Proof. destruct c as [|[p d r|p d l]]; simpl; [done|..]; intros _; count p. Qed.
Lemma path_top N c h : path_shape N c h → c ≠ [] → top c ≠ 0.
Proof. destruct c as [|[p d r|p d l] c]; simpl; [done|..]; by intros (?&_). Qed.
Lemma shape_no_null N par t : shape N par t → 0 ∉ addrs t.
Proof.
  revert par. induction t as [|p d l IHl r IHr]; intros par; simpl; [count 0|].
  intros (?&_&Hl%IHl&Hr%IHr). assert (Hp : same_addr 0 p = 0%nat) by (unfold same_addr; by case_decide).
  revert Hp. count 0.
Qed.

(** The store holds exactly the nodes of [t]. *)
Definition holds (N : nodes) (t : tree) : Prop :=
  shape N 0 t ∧ NoDup (addrs t) ∧ (∀ p, is_Some (N !! p) ↔ p ∈ addrs t).

(** *** The two ways links change *)

Lemma alter_frame N f p par t :
  shape N par t → p ∉ addrs t → shape (alter f p N) par t.
Proof.
  intros Hs Hp. eapply shape_frame; [done|]. intros q Hq. apply lookup_alter_ne. by intros ->.
Qed.
Lemma alter_path_frame N f p c h :
  path_shape N c h → p ∉ path_addrs c → path_shape (alter f p N) c h.
Proof.
  intros Hs Hp. eapply path_frame; [done|]. intros q Hq. apply lookup_alter_ne. by intros ->.
Qed.

(** [if (h) h->parent = q] on the root [h] of a subtree. *)
Lemma shape_reparent N par q t :
  shape N par t → NoDup (addrs t) → shape (alter (with_parent q) (root t) N) q t.
Proof.
  destruct t as [|p d l r]; simpl; [done|]. intros (?&Hp&Hl&Hr) Hnd.
  split_and!; [done|by rewrite lookup_alter_eq, Hp|apply alter_frame; [done|count p]..].
Qed.

(** The parent's link to a child [h] is set to [h']. *)
Definition relink (h h' : Z) (n : pnode X) : pnode X :=
  if pn_left n =? h then with_left h' n else with_right h' n.
Lemma path_relink N c h h' :
  path_shape N c h → NoDup (path_addrs c) → h ∉ path_addrs c → h ≠ 0 →
  path_shape (alter (relink h h') (top c) N) c h'.
Proof.
  destruct c as [|[p d r|p d l] c]; simpl; [done|..]; intros (?&Hp&Hs&Hc) Hnd Hh Hh0.
  - split_and!; [done| |apply alter_frame; [done|count p]|apply alter_path_frame; [done|count p]].
    rewrite lookup_alter_eq, Hp. unfold relink. simpl. by rewrite Z.eqb_refl.
  - split_and!; [done| |apply alter_frame; [done|count p]|apply alter_path_frame; [done|count p]].
    rewrite lookup_alter_eq, Hp. unfold relink. simpl.
    destruct (Z.eqb_spec (root l) h) as [He|]; [|done].
    exfalso. apply Hh. subst h. pose proof (root_elem l Hh0). count (root l).
Qed.
End trees.
#[global] Arguments tree : clear implicits.
#[global] Arguments frame : clear implicits.
#[export] Hint Rewrite @flat_E @flat_T @pre_nil @pre_FL @pre_FR @pre_app @post_nil @post_FL @post_FR
  @post_app : occ.

(** ** The world of a tree *)

Section world.
Context {X : Type} (cb : option libhl_cmp_callback_t) (fr : bool).
Implicit Types (t : tree X) (w : pworld X).

Definition tree_in t w : Prop :=
  pw_tree w = Some (mk_ptree (root t) cb fr) ∧ holds (pw_nodes w) t.
(** What the links do not touch. *)
Definition rest w := (pw_next w, pw_alloc w, pw_freed w, pw_prevnext w).

Lemma holds_plug (N : gmap Z (pnode X)) c t :
  holds N (plug c t) ↔
    shape N (top c) t ∧ path_shape N c (root t) ∧ NoDup ((pre c).*1 ++ (flat t).*1 ++ (post c).*1) ∧
    (∀ p, is_Some (N !! p) ↔ p ∈ (pre c).*1 ++ (flat t).*1 ++ (post c).*1).
Proof. unfold holds. rewrite shape_plug, flat_plug, !fmap_app. tauto. Qed.
Lemma root_plug c t t' : root t = root t' → root (plug c t) = root (plug c t').
Proof. revert t t'. induction c as [|[] c IH]; intros t t' Ht; simpl; [done|by apply IH..]. Qed.
Lemma holds_E : holds (∅ : gmap Z (pnode X)) E.
Proof.
  split_and!; [done|constructor|]. intros p. rewrite lookup_empty. split; [by intros []|by intros ?%elem_of_nil].
Qed.
Lemma holds_null (N : gmap Z (pnode X)) t : holds N t → N !! 0 = None.
Proof.
  intros (Hs&_&Hdom). destruct (N !! 0) eqn:H0; [|done].
  destruct (shape_no_null _ _ _ Hs). apply Hdom. eauto.
Qed.
Lemma plug_null (N : gmap Z (pnode X)) c t :
  holds N (plug c t) → 0 ∉ (pre c).*1 ++ (flat t).*1 ++ (post c).*1.
Proof. intros (Hs%shape_no_null&_&_). by rewrite flat_plug, !fmap_app in Hs. Qed.
Lemma alter_null (N : gmap Z (pnode X)) f p : N !! p = None → alter f p N = N.
Proof.
  intros Hp. apply map_eq. intros q. destruct (decide (p = q)) as [<-|Hq].
  - by rewrite lookup_alter_eq, Hp.
  - by rewrite lookup_alter_ne.
Qed.
Lemma put_nodes_twice N N' w : put_nodes N (put_nodes N' w) = put_nodes N w.
Proof. done. Qed.
Lemma give_nil w : give [] w = w.
Proof. unfold give. rewrite app_nil_r. by destruct w. Qed.
Lemma returns_free_if (b : bool) v w Q :
  Q (tt, give (if b then [v] else []) w) → returns ((if b then call_free_value v else mret tt) w) Q.
Proof. destruct b; intros HQ; [by go|]. rewrite give_nil in HQ. by go. Qed.
Lemma put_nodes_id w : put_nodes (pw_nodes w) w = w.
Proof. by destruct w. Qed.
Lemma alter_is_Some (N : gmap Z (pnode X)) f p q : is_Some (alter f p N !! q) ↔ is_Some (N !! q).
Proof.
  destruct (decide (p = q)) as [<-|Hq].
  - by rewrite lookup_alter_eq, fmap_is_Some.
  - by rewrite lookup_alter_ne.
Qed.
Lemma returns_reparent t par q w Q :
  shape (pw_nodes w) par t → pw_nodes w !! 0 = None →
  Q (tt, put_nodes (alter (with_parent q) (root t) (pw_nodes w)) w) →
  returns (reparent (root t) q w) Q.
Proof.
  intros Hs H0 HQ. unfold reparent. destruct t as [|p d l r]; simpl in *.
  - rewrite alter_null, put_nodes_id in HQ by done. by go.
  - destruct Hs as (Hp0&Hp&_). rewrite (proj2 (Z.eqb_neq p 0)) by done. by eapply returns_set_pn.
Qed.
Lemma returns_relink_child c h h' w Q :
  path_shape (pw_nodes w) c h → top c ≠ 0 →
  Q (tt, put_nodes (alter (relink h h') (top c) (pw_nodes w)) w) →
  returns (relink_child (top c) h h' w) Q.
Proof.
  intros Hc H0 HQ. assert (∃ n, pw_nodes w !! top c = Some n) as [n Hn].
  { destruct c as [|[]]; simpl in *; [done|..]; destruct Hc as (_&?&_); eauto. }
  unfold relink_child. go. eapply returns_load_pn; [done|].
  assert (alter (relink h h') (top c) (pw_nodes w) =
          alter (if pn_left n =? h then with_left h' else with_right h') (top c) (pw_nodes w)) as Ha.
  { apply alter_ext. rewrite Hn. intros m [= <-]. unfold relink. by case_match. }
  rewrite Ha in HQ. case_if; by eapply returns_set_pn.
Qed.
Lemma holds_focus (N : gmap Z (pnode X)) c p d l r :
  holds N (plug c (T p d l r)) → N !! p = Some (node_of d (root l) (root r) (top c)) ∧ p ≠ 0.
Proof. intros (Hs&_)%holds_plug. simpl in Hs. tauto. Qed.
(** The link of the parent, when there is one. *)
Lemma returns_relink_if c h h' w Q :
  path_shape (pw_nodes w) c h → pw_nodes w !! 0 = None →
  Q (tt, put_nodes (alter (relink h h') (top c) (pw_nodes w)) w) →
  returns ((if top c =? 0 then mret tt else relink_child (top c) h h') w) Q.
Proof.
  intros Hc H0 HQ. destruct (Z.eqb_spec (top c) 0) as [E0|E0].
  - rewrite E0, alter_null, put_nodes_id in HQ by done. by go.
  - by eapply returns_relink_child.
Qed.
Lemma returns_load_key p d l r par w Q :
  pw_nodes w !! p = Some (node_of d l r par) → Q (d.1.1, w) → returns (load_key p w) Q.
Proof.
  intros Hp HQ. unfold load_key. go. eapply returns_load_pn; [done|]. go.
  unfold key_bytes. cbn [pn_key pn_klen node_of]. rewrite (proj2 (Z.leb_le 0 _)), Z.leb_refl by lia.
  go. simpl. rewrite Nat2Z.id, take_ge by done. exact HQ.
Qed.
Lemma delete_frame (N : gmap Z (pnode X)) p par t :
  shape N par t → p ∉ (flat t).*1 → shape (delete p N) par t.
Proof.
  intros Hs Hp. eapply shape_frame; [done|]. intros q Hq. apply lookup_delete_ne. by intros ->.
Qed.
Lemma delete_path_frame (N : gmap Z (pnode X)) p c h :
  path_shape N c h → p ∉ (pre c).*1 ++ (post c).*1 → path_shape (delete p N) c h.
Proof.
  intros Hs Hp. eapply path_frame; [done|]. intros q Hq. apply lookup_delete_ne. by intros ->.
Qed.
(** A new node [p], in the store but not in the tree. *)
Definition beside (N : gmap Z (pnode X)) p t : Prop :=
  shape N 0 t ∧ NoDup (p :: (flat t).*1) ∧ (∀ q, is_Some (N !! q) ↔ q ∈ p :: (flat t).*1).
Lemma beside_plug (N : gmap Z (pnode X)) p c t :
  beside N p (plug c t) ↔
    shape N (top c) t ∧ path_shape N c (root t) ∧
    NoDup (p :: (pre c).*1 ++ (flat t).*1 ++ (post c).*1) ∧
    (∀ q, is_Some (N !! q) ↔ q ∈ p :: (pre c).*1 ++ (flat t).*1 ++ (post c).*1).
Proof. unfold beside. rewrite shape_plug, flat_plug, !fmap_app. tauto. Qed.
Lemma beside_null (N : gmap Z (pnode X)) p c t :
  p ≠ 0 → beside N p (plug c t) →
  N !! 0 = None ∧ 0 ∉ p :: (pre c).*1 ++ (flat t).*1 ++ (post c).*1.
Proof.
  intros Hp (Hs%shape_no_null&_&Hdom). rewrite flat_plug, !fmap_app in *.
  assert (0 ∉ p :: (pre c).*1 ++ (flat t).*1 ++ (post c).*1) as H0.
  { apply not_elem_of_cons. by split. }
  split; [|done]. destruct (N !! 0) eqn:E0; [|done]. destruct H0. apply Hdom. eauto.
Qed.
Lemma root_plug_any c t t' : top c ≠ 0 → root (plug c t) = root (plug c t').
Proof. destruct c as [|[]]; simpl; [done|..]; intros _; by apply root_plug. Qed.

(** [y] takes the place of [x], which hangs below [c]. *)
Lemma returns_take_place c t t' w Q :
  pw_tree w = Some (mk_ptree (root (plug c t)) cb fr) → path_shape (pw_nodes w) c (root t) →
  pw_nodes w !! 0 = None →
  Q (tt, put_tree (Some (mk_ptree (root (plug c t')) cb fr))
           (put_nodes (alter (relink (root t) (root t')) (top c) (pw_nodes w)) w)) →
  returns ((if top c =? 0 then set_root (root t') else relink_child (top c) (root t) (root t')) w) Q.
Proof.
  intros Ht Hc H0 HQ. destruct (Z.eqb_spec (top c) 0) as [E0|E0].
  - destruct c as [|[]]; simpl in *; [|destruct Hc; done..].
    eapply returns_set_root; [done|]. rewrite alter_null, put_nodes_id in HQ by done. exact HQ.
  - eapply returns_relink_child; [done..|]. rewrite (root_plug_any c t' t) in HQ by done.
    rewrite <- Ht in HQ. by destruct w.
Qed.

(** A tree in a world whose next address is fresh. *)
Definition tree_world t w : Prop :=
  tree_in t w ∧ 0 < pw_next w ∧ Forall (λ p, p < pw_next w) (flat t).*1.
Lemma tree_world_fresh t w : tree_world t w → pw_nodes w !! pw_next w = None.
Proof.
  intros ([_ (_&_&Hdom)]&_&Hlt). destruct (pw_nodes w !! pw_next w) eqn:E0; [|done].
  rewrite Forall_forall in Hlt. assert (pw_next w < pw_next w); [|lia]. apply Hlt, Hdom. eauto.
Qed.
(** The fresh address is used for a node, to be linked. *)
Lemma beside_new t w n :
  tree_world t w → beside (<[pw_next w := n]> (pw_nodes w)) (pw_next w) t.
Proof.
  intros Hw. pose proof (tree_world_fresh t w Hw) as Hfresh. destruct Hw as ([_ (Hs&Hnd&Hdom)]&_&Hlt).
  rewrite Forall_forall in Hlt. split; [|split].
  - eapply shape_frame; [done|]. intros q Hq. apply lookup_insert_ne. intros E0. specialize (Hlt q Hq). lia.
  - constructor; [|done]. intros Hin. specialize (Hlt _ Hin). lia.
  - intros q. rewrite lookup_insert_is_Some', Hdom, elem_of_cons. naive_solver.
Qed.
End world.

(** ** Running code on a tree *)

(** That two addresses differ; one may be the root of a subtree, or null. *)
Ltac apart_root E b :=
  let Hm := fresh in
  assert (Hm : root b ∈ (flat b).*1) by (apply root_elem; rewrite ?E; congruence); rewrite E in Hm.
Ltac apart_top E c :=
  let Hm := fresh in
  assert (Hm : top c ∈ (pre c).*1 ++ (post c).*1) by (apply top_elem; rewrite ?E; congruence);
  rewrite E in Hm.
Ltac differ :=
  let E := fresh in intros E;
  lazymatch type of E with
  | root ?b = ?q => apart_root E b; count q
  | ?q = root ?b => symmetry in E; apart_root E b; count q
  | top ?c = ?q => apart_top E c; count q
  | ?q = top ?c => symmetry in E; apart_top E c; count q
  | ?x = ?y => rewrite <- E in *; count x
  end.

(** Reduction of the fields of nodes and worlds. *)
Ltac fields :=
  cbn [pn_key pn_klen pn_value pn_extra pn_left pn_right pn_parent node_of with_key with_klen with_value
       with_extra with_left with_right with_parent root top frame_addr put_nodes put_tree put_alloc put_next give with_root
       pw_tree pw_nodes pw_next pw_alloc pw_freed pw_prevnext pt_root cmp_keys_cb free_value_cb fst snd].
(** Tests for null and comparisons of addresses. *)
Ltac nulls :=
  repeat match goal with
  | |- context [?p =? ?q] =>
      first [ rewrite (Z.eqb_refl p) | rewrite (proj2 (Z.eqb_neq p q)) by first [done | differ] ]
  end.
(** A lookup in a store that was changed at known addresses. *)
Ltac look :=
  fields; repeat first [ rewrite lookup_alter_eq | rewrite lookup_alter_ne by first [done | differ]
                        | rewrite lookup_delete_ne by first [done | differ] ];
  first [ eassumption | reflexivity
        | match goal with H : _ !! ?p = Some _ |- context [_ !! ?p] => rewrite H; reflexivity end ].
Ltac run_step :=
  lazymatch goal with
  | |- returns (load_pn _ _) _ => eapply returns_load_pn; [look|]
  | |- returns (set_pn _ _ _) _ => eapply returns_set_pn; [look|]
  | |- returns (load_ptree _) _ => eapply returns_load_ptree; [eassumption|]
  | |- returns (set_root _ _) _ => eapply returns_set_root; [eassumption|]
  | |- returns (free_key _ _) _ => eapply returns_free_key; [look|reflexivity|]
  | |- returns (free_pn _ _) _ => eapply returns_free_pn; [look|reflexivity|]
  | |- returns ((if _ then call_free_value _ else mret tt) _) _ => apply returns_free_if
  end; rewrite ?put_nodes_twice.
Ltac run := repeat (progress (go; fields; nulls)); try (run_step; run).
(** A change elsewhere leaves a subtree and a path alone. *)
Ltac absent :=
  lazymatch goal with
  | |- root ?b ∉ _ =>
      let E := fresh in
      destruct (Z.eq_dec (root b) 0) as [E|E];
      [rewrite E; count 0|pose proof (root_elem b E); count (root b)]
  | |- top ?c ∉ _ =>
      let E := fresh in
      destruct (Z.eq_dec (top c) 0) as [E|E];
      [rewrite E; count 0|pose proof (top_elem c E); count (top c)]
  | |- ?p ∉ _ => count p
  end.
Ltac frames :=
  fields; repeat first
    [ apply alter_frame; [|absent] | apply alter_path_frame; [|absent]
    | apply delete_frame; [|absent] | apply delete_path_frame; [|absent] ]; try eassumption.
Ltac moved :=
  lazymatch goal with
  | |- shape (alter (with_parent _) _ _) _ _ => eapply shape_reparent; [frames|]
  | |- path_shape (alter (relink _ _) _ _) _ _ => eapply path_relink; [frames|..]
  end; first [done | lazymatch goal with
              | |- _ ∉ _ => absent
              | |- NoDup _ => apply NoDup_occ; let z := fresh in intros z; count z end].
Ltac no_null := fields; rewrite ?lookup_alter_None; assumption.

(** The addresses of a tree that was rearranged. *)
Lemma holds_dom {X} (N N' : gmap Z (pnode X)) l l' :
  (∀ p, is_Some (N !! p) ↔ p ∈ l) → (∀ p, is_Some (N' !! p) ↔ is_Some (N !! p)) →
  (∀ z, occ z l' = occ z l) → ∀ p, is_Some (N' !! p) ↔ p ∈ l'.
Proof. intros HN HN' Hl p. by rewrite HN', HN, !elem_of_occ, Hl. Qed.
Lemma holds_NoDup l l' : NoDup l → (∀ z, occ z l' ≤ occ z l)%nat → NoDup l'.
Proof. rewrite !NoDup_occ. intros Hl Ho z. specialize (Hl z). specialize (Ho z). lia. Qed.
Lemma holds_dom_delete {X} (N N' : gmap Z (pnode X)) p l l' :
  (∀ q, is_Some (N !! q) ↔ q ∈ l) → NoDup l → (∀ q, is_Some (N' !! q) ↔ is_Some (N !! q)) →
  (∀ z, occ z l = same_addr z p + occ z l')%nat → ∀ q, is_Some (delete p N' !! q) ↔ q ∈ l'.
Proof.
  intros HN Hnd HN' Hl q. rewrite NoDup_occ in Hnd. specialize (Hnd q). specialize (Hl q).
  rewrite lookup_delete_is_Some, HN', HN, !elem_of_occ. unfold same_addr in Hl. case_decide; subst.
  - split; [by intros []|lia].
  - split; [intros [_ ?]; lia|intros ?; split; [by intros ->|lia]].
Qed.
Ltac same_addrs := let z := fresh "z" in intros z; occ_simpl; lia.
Ltac rebuild :=
  fields; lazymatch goal with |- holds _ _ => apply holds_plug end;
  cbn [shape path_shape root top frame_addr]; split_and!;
  lazymatch goal with
  | |- _ !! _ = _ => look
  | |- shape _ _ _ => first [by frames|fields; frames; moved]
  | |- path_shape _ _ _ => first [by frames|fields; frames; moved]
  | |- NoDup _ => eapply holds_NoDup; [eassumption|same_addrs]
  | |- ∀ _, is_Some (delete _ _ !! _) ↔ _ =>
      eapply holds_dom_delete; [eassumption|eassumption|intros ?; by rewrite !alter_is_Some|same_addrs]
  | |- ∀ _, is_Some _ ↔ _ => eapply holds_dom; [eassumption|intros ?; by rewrite !alter_is_Some|same_addrs]
  | |- _ => done
  end.

(** The extra part of a node is changed. *)
Section extra.
Context {X : Type} (cb : option libhl_cmp_callback_t) (fr : bool).

Lemma holds_extra (N : gmap Z (pnode X)) c p d l r x :
  holds N (plug c (T p d l r)) →
  holds (alter (with_extra x) p N) (plug c (T p (d.1, x) l r)).
Proof.
  intros (Hs&Hc&Hnd&Hdom)%holds_plug. simpl in Hs, Hc. destruct Hs as (Hp0&Hp&Hl&Hr). rebuild.
Qed.
Lemma returns_extra c p d l r x (w : pworld X) :
  tree_in cb fr (plug c (T p d l r)) w →
  returns (set_pn p (with_extra x) w) (λ '(_, w'),
    tree_in cb fr (plug c (T p (d.1, x) l r)) w' ∧ rest w' = rest w).
Proof.
  intros [Ht Hh]. eapply returns_set_pn; [by apply holds_focus in Hh as [Hp _]|].
  split; [|done]. split; [|by apply holds_extra].
  rewrite (root_plug c _ (T p d l r)) by done. exact Ht.
Qed.
End extra.

(** A node with at most one child goes, and its child takes its place. *)
Section bypass.
Context {X : Type}.
Implicit Types (N : gmap Z (pnode X)) (t l r : tree X).

Lemma holds_bypass N c n d l r t :
  holds N (plug c (T n d l r)) → (r = E ∧ t = l) ∨ (l = E ∧ t = r) →
  holds (delete n (alter (with_key None) n
           (alter (with_parent (top c)) (root t) (alter (relink n (root t)) (top c) N)))) (plug c t).
Proof.
  intros Hh Ht. pose proof (plug_null _ _ _ Hh) as Hz.
  apply holds_plug in Hh as (Hs&Hc&Hnd&Hdom). cbn [shape root] in Hs, Hc. destruct Hs as (Hn0&Hn&Hl&Hr).
  destruct Ht as [[-> ->]|[-> ->]]; rebuild.
Qed.

(** A node takes the item of another, whose key is as long. *)
Lemma holds_item N c p d l r k v :
  holds N (plug c (T p d l r)) → length k = length d.1.1 →
  holds (alter (with_value v) p (alter (with_key (Some k)) p N)) (plug c (T p (k, v, d.2) l r)).
Proof.
  intros (Hs&Hc&Hnd&Hdom)%holds_plug Hk. cbn [shape root] in Hs, Hc. destruct Hs as (Hp0&Hp&Hl&Hr).
  apply holds_plug. cbn [shape root]. split_and!; try done; try frames.
  - rewrite !lookup_alter_eq, Hp. unfold node_of. simpl. by rewrite Hk.
  - eapply holds_NoDup; [exact Hnd|same_addrs].
  - eapply holds_dom; [exact Hdom|intros ?; by rewrite !alter_is_Some|same_addrs].
Qed.

Lemma relink_left N p n h h' :
  N !! p = Some n → pn_left n = h → alter (relink h h') p N = alter (with_left h') p N.
Proof.
  intros Hp Hn. apply alter_ext. intros m Hm. rewrite Hp in Hm. injection Hm as <-.
  unfold relink. by rewrite Hn, Z.eqb_refl.
Qed.
Lemma relink_right N p n h h' :
  N !! p = Some n → pn_left n ≠ h → alter (relink h h') p N = alter (with_right h') p N.
Proof.
  intros Hp Hn. apply alter_ext. intros m Hm. rewrite Hp in Hm. injection Hm as <-.
  unfold relink. by rewrite (proj2 (Z.eqb_neq _ _)).
Qed.

(** ** The neighbours of a node *)

Fixpoint rightmost (c : list (frame X)) t : list (frame X) * tree X :=
  match t with
  | E => (c, E)
  | T p d l r => match r with E => (c, t) | _ => rightmost (FR p d l :: c) r end
  end.
Fixpoint leftmost (c : list (frame X)) t : list (frame X) * tree X :=
  match t with
  | E => (c, E)
  | T p d l r => match l with E => (c, t) | _ => leftmost (FL p d r :: c) l end
  end.

Lemma rightmost_ok c t :
  t ≠ E → ∃ n d l c', rightmost c t = (c', T n d l E) ∧ plug c' (T n d l E) = plug c t.
Proof.
  revert c. induction t as [|p d l _ r IH]; intros c Ht; [done|]. simpl.
  destruct r as [|q e r1 r2]; [by eexists p, d, l, c|]. by apply (IH (FR p d l :: c)).
Qed.
Lemma leftmost_ok c t :
  t ≠ E → ∃ n d r c', leftmost c t = (c', T n d E r) ∧ plug c' (T n d E r) = plug c t.
Proof.
  revert c. induction t as [|p d l IH r _]; intros c Ht; [done|]. simpl.
  destruct l as [|q e l1 l2]; [by eexists p, d, r, c|]. by apply (IH (FL p d r :: c)).
Qed.

(** The path goes on from [c], down right links only. *)
Definition goes_right (f : frame X) : Prop := match f with FR _ _ _ => True | FL _ _ _ => False end.
Definition goes_left (f : frame X) : Prop := match f with FL _ _ _ => True | FR _ _ _ => False end.
Lemma rightmost_path c t : ∃ c0, (rightmost c t).1 = c0 ++ c ∧ Forall goes_right c0.
Proof.
  revert c. induction t as [|p d l _ r IH]; intros c; [by exists []|]. simpl.
  destruct r as [|q e r1 r2]; [by exists []|]. destruct (IH (FR p d l :: c)) as (c0&->&Hc0).
  exists (c0 ++ [FR p d l]). rewrite <- app_assoc. split; [done|]. apply Forall_app. by repeat constructor.
Qed.
Lemma leftmost_path c t : ∃ c0, (leftmost c t).1 = c0 ++ c ∧ Forall goes_left c0.
Proof.
  revert c. induction t as [|p d l IH r _]; intros c; [by exists []|]. simpl.
  destruct l as [|q e l1 l2]; [by exists []|]. destruct (IH (FL p d r :: c)) as (c0&->&Hc0).
  exists (c0 ++ [FL p d r]). rewrite <- app_assoc. split; [done|]. apply Forall_app. by repeat constructor.
Qed.

Lemma goes_right_post c0 : Forall goes_right c0 → post c0 = [].
Proof. induction 1 as [|[p d r|p d l] c0 Hf _ IH]; simpl in *; done. Qed.
Lemma goes_left_pre c0 : Forall goes_left c0 → pre c0 = [].
Proof. induction 1 as [|[p d r|p d l] c0 Hf _ IH]; simpl in *; done. Qed.
(** The root of a tree is on every path that is not empty. *)
Lemma root_plug_path c t : c ≠ [] → root (plug c t) ∈ (pre c).*1 ++ (post c).*1.
Proof.
  revert t. induction c as [|f c IH]; intros t Hc; [done|].
  destruct c as [|f' c].
  - destruct f as [p d r|p d l]; cbn [plug root]; count p.
  - assert (root (plug (f :: f' :: c) t) ∈ (pre (f' :: c)).*1 ++ (post (f' :: c)).*1) as Hin
      by (destruct f; cbn [plug]; by apply (IH (T _ _ _ _))).
    revert Hin. generalize (root (plug (f :: f' :: c) t)). generalize (f' :: c). intros c' z Hin.
    destruct f as [p d r|p d l]; count z.
Qed.

(** The loops that look for them. *)
Lemma rightmost_loop par c t (w : pworld X) :
  shape (pw_nodes w) par t → t ≠ E → Z.of_nat (height t) < 2 ^ 64 →
  loopS rightmost_body (root t) w = Ret (root (rightmost c t).2, w).
Proof.
  intros Hs Ht Hh. unfold loopS.
  assert (∃ m, runs (loop_body rightmost_body) (root t, w) m (root (rightmost c t).2, w) ∧
               m < Z.of_nat (height t)) as (m&Hr&Hm).
  { clear Hh. revert par c Hs Ht. induction t as [|p d l _ r IH]; intros par c Hs Ht; [done|].
    cbn [shape] in Hs. destruct Hs as (Hp0&Hp&_&Hr).
    assert (Hbody : loop_body rightmost_body (p, w) =
      if root r =? 0 then Ret (inr (p, w)) else Ret (inl (root r, w))).
    { unfold loop_body, rightmost_body. cbn [fst snd].
      rewrite (st_bind_Ret (load_pn p) _ w _ w (ltac:(unfold load_pn; by rewrite Hp))). cbn [pn_right node_of].
      by case_if. }
    destruct r as [|q e r1 r2].
    - exists 0. split; [by apply runs_exit|simpl; lia].
    - destruct (IH p (FR p d l :: c) Hr) as (m&Hrun&Hm); [done|].
      exists (m + 1). split; [|cbn [height] in *; lia].
      eapply runs_step; [|exact Hrun]. cbn [root] in *. rewrite Hbody.
      destruct Hr as (Hq0&_). by rewrite (proj2 (Z.eqb_neq q 0)). }
  apply (runs_loop _ _ m); [done|lia].
Qed.
Lemma leftmost_loop par c t (w : pworld X) :
  shape (pw_nodes w) par t → t ≠ E → Z.of_nat (height t) < 2 ^ 64 →
  loopS leftmost_body (root t) w = Ret (root (leftmost c t).2, w).
Proof.
  intros Hs Ht Hh. unfold loopS.
  assert (∃ m, runs (loop_body leftmost_body) (root t, w) m (root (leftmost c t).2, w) ∧
               m < Z.of_nat (height t)) as (m&Hr&Hm).
  { clear Hh. revert par c Hs Ht. induction t as [|p d l IH r _]; intros par c Hs Ht; [done|].
    cbn [shape] in Hs. destruct Hs as (Hp0&Hp&Hl&_).
    assert (Hbody : loop_body leftmost_body (p, w) =
      if root l =? 0 then Ret (inr (p, w)) else Ret (inl (root l, w))).
    { unfold loop_body, leftmost_body. cbn [fst snd].
      rewrite (st_bind_Ret (load_pn p) _ w _ w (ltac:(unfold load_pn; by rewrite Hp))). cbn [pn_left node_of].
      by case_if. }
    destruct l as [|q e l1 l2].
    - exists 0. split; [by apply runs_exit|simpl; lia].
    - destruct (IH p (FL p d r :: c) Hl) as (m&Hrun&Hm); [done|].
      exists (m + 1). split; [|cbn [height] in *; lia].
      eapply runs_step; [|exact Hrun]. cbn [root] in *. rewrite Hbody.
      destruct Hl as (Hq0&_). by rewrite (proj2 (Z.eqb_neq q 0)). }
  apply (runs_loop _ _ m); [done|lia].
Qed.
End bypass.
