(* ===== verification/PtreeSearch.v ===== *)
(** * Searching a binary tree

    The place of a key in a tree, as the path that a search follows, and what
    a dictionary is there. *)

From S2P Require Import Prelude Comparators SortedDict Ptree.

Section search.
Context {X : Type} {cmp : libhl_cmp_callback_t} {ok : key → Prop} `{!Comparator cmp ok}.
Implicit Types (t : tree X) (c : list (frame X)).

Definition entries t : items := (flat t).*2.
(** A search tree: its items in order are a dictionary. *)
Definition bst t : Prop := dict cmp ok (entries t).

Fixpoint locate (k : key) c t : list (frame X) * tree X :=
  match t with
  | E => (c, E)
  | T p d l r =>
      if cmp_sign d.1.1 k =? 0 then (c, t)
      else if 0 <? cmp_sign d.1.1 k then locate k (FL p d r :: c) l
      else locate k (FR p d l :: c) r
  end.

(** The path is the one to the place of [k], and the place is [k]'s. *)
Fixpoint directs (k : key) c : Prop :=
  match c with
  | [] => True
  | FL _ d _ :: c => 0 < cmp_sign d.1.1 k ∧ directs k c
  | FR _ d _ :: c => cmp_sign d.1.1 k < 0 ∧ directs k c
  end.
Definition place_of (k : key) t : Prop :=
  match t with E => True | T _ d _ _ => cmp_sign d.1.1 k = 0 end.

Lemma entries_plug c t : entries (plug c t) = (pre c).*2 ++ entries t ++ (post c).*2.
Proof. unfold entries. by rewrite flat_plug, !fmap_app. Qed.

Lemma locate_ok k c t :
  directs k c →
  let '(c', t') := locate k c t in plug c' t' = plug c t ∧ directs k c' ∧ place_of k t'.
Proof.
  revert c. induction t as [|p d l IHl r IHr]; intros c Hd; simpl; [done|].
  destruct (Z.eqb_spec (cmp_sign d.1.1 k) 0) as [E0|E0]; [done|].
  destruct (Z.ltb_spec 0 (cmp_sign d.1.1 k)).
  - by apply (IHl (FL p d r :: c)).
  - apply (IHr (FR p d l :: c)). split; [lia|done].
Qed.
Lemma locate_height k c t :
  let '(c', t') := locate k c t in (length c' + height t' ≤ length c + height t)%nat.
Proof.
  revert c. induction t as [|p d l IHl r IHr]; intros c; simpl; [done|].
  case_if; [simpl; lia|]. case_if.
  - specialize (IHl (FL p d r :: c)). destruct (locate k (FL p d r :: c) l). simpl in IHl. lia.
  - specialize (IHr (FR p d l :: c)). destruct (locate k (FR p d l :: c) r). simpl in IHr. lia.
Qed.

Lemma locate_longer k c t : (length c ≤ length (locate k c t).1)%nat.
Proof.
  revert c. induction t as [|p d l IHl r IHr]; intros c; simpl; [done|].
  case_if; [done|]. case_if; (etransitivity; [|by eauto]); simpl; lia.
Qed.

(** A search goes along the path to its place. *)
Lemma locate_along k c1 c t : directs k c1 → locate k c (plug c1 t) = locate k (c1 ++ c) t.
Proof.
  revert t. induction c1 as [|[p d r|p d l] c1 IH]; intros t; simpl; [done|..]; intros [Hs Hd];
    rewrite IH by done; simpl.
  - destruct (Z.eqb_spec (cmp_sign d.1.1 k) 0); [lia|].
    by destruct (Z.ltb_spec 0 (cmp_sign d.1.1 k)); [|lia].
  - destruct (Z.eqb_spec (cmp_sign d.1.1 k) 0); [lia|].
    by destruct (Z.ltb_spec 0 (cmp_sign d.1.1 k)); [lia|].
Qed.
Lemma locate_there k c t : directs k c → place_of k t → locate k [] (plug c t) = (c, t).
Proof.
  intros Hd Hp. rewrite locate_along, app_nil_r by done.
  destruct t as [|p d l r]; simpl in *; [done|]. by rewrite Hp.
Qed.

(** ** Search trees *)

Context (k : key) (Hk : ok k).

Lemma bst_sides c p d l r :
  bst (plug c (T p d l r)) → cmp_sign d.1.1 k = 0 →
  all_before k ((pre c).*2 ++ entries l) ∧ all_after k (entries r ++ (post c).*2).
Proof using Hk.
  unfold bst. rewrite entries_plug. unfold entries. simpl. rewrite fmap_app. simpl.
  rewrite <- app_assoc. simpl. rewrite app_assoc. destruct d as [[k0 v0] x]. intros Hd Hs.
  by apply (dict_split k Hk _ k0 v0).
Qed.
(** On a path that leads to [k], all that comes before is before [k]. *)
Lemma directs_sides c t :
  bst (plug c t) → directs k c → all_before k (pre c).*2 ∧ all_after k (post c).*2.
Proof using Hk.
  revert t. induction c as [|[p [[k0 v0] x] r|p [[k0 v0] x] l] c IH]; intros t Hb Hd; simpl in *;
    [split; constructor|..]; destruct Hd as [Hs Hd]; destruct (IH _ Hb Hd) as [Hl Hr]; split; try done.
  - constructor; [done|]. rewrite fmap_app. apply Forall_app. split; [|done].
    apply Forall_forall. intros y Hy. unfold bst in Hb. rewrite entries_plug in Hb.
    apply dict_app in Hb as (_&Hb&_). apply dict_app in Hb as (Hb&_&_). unfold entries in Hb. simpl in Hb.
    rewrite fmap_app in Hb. simpl in Hb. apply dict_app in Hb as (_&Hb&_).
    apply dict_cons in Hb as (Hk0&Hb&Hlt). pose proof (dict_ok _ _ Hb Hy) as Hoy.
    apply sign_swap; [done..|]. apply (sign_lt_le _ k0); [done..| |].
    + by apply sign_swap.
    + specialize (Hlt y Hy). unfold before_key in Hlt. lia.
  - rewrite !fmap_app. apply Forall_app. split; [done|]. apply Forall_app. split; [|by repeat constructor].
    apply Forall_forall. intros y Hy. unfold bst in Hb. rewrite entries_plug in Hb.
    apply dict_app in Hb as (_&Hb&_). apply dict_app in Hb as (Hb&_&_). unfold entries in Hb. simpl in Hb.
    rewrite fmap_app in Hb. simpl in Hb. apply dict_app in Hb as (Hbl&Hb&Hlt).
    apply dict_cons in Hb as (Hk0&_&_). pose proof (dict_ok _ _ Hbl Hy) as Hoy.
    apply (sign_lt_le _ k0); [done..| |lia]. apply (Hlt y (k0, v0)); [done|left].
Qed.
Lemma bst_subtree c t : bst (plug c t) → Forall (λ x, ok x.1) (entries t) ∧ bst t.
Proof using Type.
  unfold bst. rewrite entries_plug. intros (_&Hb&_)%dict_app.
  apply dict_app in Hb as (Hb&_&_). split; [by destruct Hb|done].
Qed.
Lemma bst_path_directs c p d l r :
  bst (plug c (T p d l r)) → cmp_sign d.1.1 k = 0 → directs k c.
Proof using Hk.
  intros Hb Hs. destruct (bst_sides c p d l r Hb Hs) as [Hl Hr].
  apply Forall_app in Hl as [Hl _]. apply Forall_app in Hr as [_ Hr]. clear Hb.
  induction c as [|[q e r'|q e l'] c IH]; simpl in *; [done|..].
  - apply Forall_cons in Hr as [Hq Hr]. rewrite fmap_app in Hr. apply Forall_app in Hr as [_ Hr]. auto.
  - rewrite !fmap_app in Hl. apply Forall_app in Hl as [Hl Hq]. apply Forall_app in Hq as [_ Hq].
    simpl in Hq. apply Forall_cons in Hq as [Hq _]. auto.
Qed.

(** *** The dictionary at a place *)

Lemma find_place c t :
  bst (plug c t) → directs k c → place_of k t →
  dict_find k (entries (plug c t)) = match t with E => None | T _ d _ _ => Some d.1.2 end.
Proof using Hk.
  intros Hb Hd Hp. destruct (directs_sides c t Hb Hd) as [Hl Hr].
  destruct t as [|p [[k0 v0] x] l r]; simpl in Hp.
  - rewrite entries_plug. simpl. by apply find_miss.
  - destruct (bst_sides c p (k0, v0, x) l r Hb Hp) as [Hl' _].
    rewrite entries_plug. unfold entries at 1. simpl. rewrite fmap_app. simpl.
    rewrite <- app_assoc, app_assoc. by apply find_hit.
Qed.
(** A node put at the place of [k]. *)
Lemma insert_place c t v p x l r :
  bst (plug c t) → directs k c → place_of k t →
  (match t with E => l = E ∧ r = E | T _ _ l0 r0 => l = l0 ∧ r = r0 end) →
  entries (plug c (T p (k, v, x) l r)) = dict_insert k v (entries (plug c t)).
Proof using Hk.
  intros Hb Hd Hp Ht. destruct (directs_sides c t Hb Hd) as [Hl Hr].
  rewrite !entries_plug. destruct t as [|q [[k0 v0] y] l0 r0]; destruct Ht as [-> ->]; simpl in Hp.
  - simpl. by rewrite insert_miss.
  - destruct (bst_sides c q (k0, v0, y) l0 r0 Hb Hp) as [Hl' _].
    unfold entries. simpl. rewrite !fmap_app. simpl. rewrite <- !app_assoc, !(app_assoc (pre c).*2).
    simpl. symmetry. by apply insert_hit.
Qed.
End search.
#[global] Arguments bst {X} _ _ {_} _.
