(* ===== verification/Rbtree.v ===== *)
(** * Red-black trees (src/src/rbtree.c)

    A red-black tree over the nodes of Ptree, coloured.  The functions are
    those of the file but for its printing code.  [memcmp] is the function of
    the C library, whose result has a sign only; it is used when the client
    gives no comparator.  Recursive functions take a [depth]. *)

From S2P Require Import Prelude Comparators SortedDict Ptree.

(** ** Data *)

Inductive rbt_color_t := RBTREE_COLOR_RED | RBTREE_COLOR_BLACK.
#[global] Instance rbt_color_dec : EqDecision rbt_color_t.
Proof. solve_decision. Defined.

Definition rbt_node_t := pnode rbt_color_t.
Definition rbt_t := ptree.

Abbreviation P := (ST (pworld rbt_color_t)).

Definition is_color (c : rbt_color_t) (n : rbt_node_t) : bool := bool_decide (pn_extra n = c).

Definition IS_BLACK (p : Z) : P bool :=
  if p =? 0 then mret true else n ← load_pn p; mret (is_color RBTREE_COLOR_BLACK n).
Definition IS_RED (p : Z) : P bool :=
  if p =? 0 then mret false else n ← load_pn p; mret (is_color RBTREE_COLOR_RED n).
Definition PAINT_BLACK (p : Z) : P unit :=
  if p =? 0 then mret tt else set_pn p (with_extra RBTREE_COLOR_BLACK).
Definition PAINT_RED (p : Z) : P unit :=
  if p =? 0 then mret tt else set_pn p (with_extra RBTREE_COLOR_RED).

(** ** Creation and destruction *)

(** Whether the tree was allocated. *)
Definition rbt_create (cmp_keys_cb : option libhl_cmp_callback_t) (free_value_cb : bool) : P bool :=
  ok ← next_alloc;
  if negb ok then mret false else
  _ ← modify (put_tree (Some (mk_ptree 0 cmp_keys_cb free_value_cb)));
  mret true.

Fixpoint rbt_destroy_internal (depth : nat) (node : Z) (free_value_cb : bool) : P unit :=
  if node =? 0 then mret tt else
  match depth with
  | O => λ _, Diverge
  | S depth =>
      n ← load_pn node;
      _ ← rbt_destroy_internal depth (pn_left n) free_value_cb;
      n ← load_pn node;
      _ ← rbt_destroy_internal depth (pn_right n) free_value_cb;
      _ ← free_key node;
      n ← load_pn node;
      _ ← (if free_value_cb then call_free_value (pn_value n) else mret tt);
      free_pn node
  end.
Definition rbt_destroy (depth : nat) : P unit :=
  t ← load_ptree;
  _ ← rbt_destroy_internal depth (pt_root t) (free_value_cb t);
  free_ptree.

(** ** Relatives *)

Definition rbt_grandparent (node : Z) : P Z :=
  if node =? 0 then mret 0 else
  n ← load_pn node;
  if pn_parent n =? 0 then mret 0 else
  p ← load_pn (pn_parent n); mret (pn_parent p).
Definition rbt_uncle (node : Z) : P Z :=
  gp ← rbt_grandparent node;
  if gp =? 0 then mret 0 else
  n ← load_pn node;
  g ← load_pn gp;
  mret (if pn_parent n =? pn_left g then pn_right g else pn_left g).
Definition rbt_sibling (node : Z) : P Z :=
  n ← load_pn node;
  p ← load_pn (pn_parent n);
  mret (if node =? pn_left p then pn_right p else pn_left p).
Definition rbt_find_next (node : Z) : P Z :=
  n ← load_pn node;
  if pn_right n =? 0 then mret 0 else loopS leftmost_body (pn_right n).
Definition rbt_find_prev (node : Z) : P Z :=
  n ← load_pn node;
  if pn_left n =? 0 then mret 0 else loopS rightmost_body (pn_left n).

(** ** Rotations *)

(** What follows once [node] hangs below [p]: [p] takes its place. *)
Definition rotate_parent (node p : Z) : P unit :=
  n ← load_pn node;
  let parent := pn_parent n in
  _ ← set_pn node (with_parent p);
  if p =? 0 then set_root node else
  _ ← set_pn p (with_parent parent);
  if parent =? 0 then set_root p else relink_child parent node p.
Definition rbt_rotate_right (node : Z) : P unit :=
  n ← load_pn node;
  let p := pn_left n in
  pr ← (if p =? 0 then mret 0 else m ← load_pn p; mret (pn_right m));
  _ ← set_pn node (with_left pr);
  _ ← (if p =? 0 then mret tt else set_pn p (with_right node));
  _ ← reparent pr node;
  rotate_parent node p.
Definition rbt_rotate_left (node : Z) : P unit :=
  n ← load_pn node;
  let p := pn_right n in
  pl ← (if p =? 0 then mret 0 else m ← load_pn p; mret (pn_left m));
  _ ← set_pn node (with_right pl);
  _ ← (if p =? 0 then mret tt else set_pn p (with_left node));
  _ ← reparent pl node;
  rotate_parent node p.

Section rbtree.
Context (memcmp : key → key → Z).

(** The sum of the [int] of [memcmp] and a [size_t] is a [size_t], converted
    to [int]. *)
Definition rbt_compare_keys (cb : option libhl_cmp_callback_t) : libhl_cmp_callback_t := λ k1 k2,
  match cb with
  | Some f => f k1 k2
  | None =>
      let n1 := length k1 in let n2 := length k2 in
      if negb (n1 =? n2)%nat then
        if (n1 <? n2)%nat
        then Ret (as_int (u32 (memcmp k1 (take n1 k2) - (Z.of_nat n2 - Z.of_nat n1))))
        else Ret (as_int (u32 (memcmp (take n2 k1) k2 + (Z.of_nat n1 - Z.of_nat n2))))
      else Ret (memcmp k1 k2)
  end.
Definition compare_keys (k1 k2 : key) : P Z :=
  t ← load_ptree; lift (rbt_compare_keys (cmp_keys_cb t) k1 k2).

(** ** Insertion *)

(** The branch for a key that is in the tree: the new node replaces it. *)
Definition replace_node (cur_node new_node : Z) : P Z :=
  cur ← load_pn cur_node;
  _ ← set_pn new_node (with_parent (pn_parent cur));
  _ ← set_pn new_node (with_extra (pn_extra cur));
  _ ← (if pn_parent cur =? 0 then mret tt else relink_child (pn_parent cur) cur_node new_node);
  _ ← set_pn new_node (with_left (pn_left cur));
  _ ← set_pn new_node (with_right (pn_right cur));
  _ ← reparent (pn_left cur) new_node;
  _ ← reparent (pn_right cur) new_node;
  new ← load_pn new_node;
  t ← load_ptree;
  _ ← (if negb (pn_value new =? pn_value cur) && free_value_cb t
       then call_free_value (pn_value cur) else mret tt);
  _ ← free_key cur_node;
  _ ← free_pn cur_node;
  mret 1.

Fixpoint rbt_add_internal (depth : nat) (cur_node new_node : Z) : P Z :=
  match depth with
  | O => λ _, Diverge
  | S depth =>
      k1 ← load_key cur_node;
      k2 ← load_key new_node;
      rc ← compare_keys k1 k2;
      if rc =? 0 then replace_node cur_node new_node
      else
        cur ← load_pn cur_node;
        if 0 <? rc then
          if negb (pn_left cur =? 0) then rbt_add_internal depth (pn_left cur) new_node
          else
            _ ← set_pn cur_node (with_left new_node);
            _ ← set_pn new_node (with_parent cur_node);
            mret 0
        else
          if negb (pn_right cur =? 0) then rbt_add_internal depth (pn_right cur) new_node
          else
            _ ← set_pn cur_node (with_right new_node);
            _ ← set_pn new_node (with_parent cur_node);
            mret 0
  end.

(** The start of [rbt_add]: a node with a copy of the key, or null. *)
Definition create_node (k : key) (v : Z) : P Z :=
  node ← new_node RBTREE_COLOR_RED;
  if node =? 0 then mret 0 else
  ok ← next_alloc;
  if negb ok then _ ← free_pn node; mret 0 else
  _ ← set_pn node (with_key (Some k));
  _ ← set_pn node (with_klen (Z.of_nat (length k)));
  _ ← set_pn node (with_value v);
  mret node.

(** Case 5: the node and its red parent are on the same side. *)
Definition add_case5 (node rc : Z) : P Z :=
  grandparent ← rbt_grandparent node;
  n ← load_pn node;
  if pn_parent n =? 0 then mret (-1) else
  _ ← PAINT_BLACK (pn_parent n);
  _ ← PAINT_RED grandparent;
  p ← load_pn (pn_parent n);
  _ ← (if node =? pn_left p then rbt_rotate_right grandparent else rbt_rotate_left grandparent);
  mret rc.

(** Case 4, and then case 5. *)
Definition add_rotate (node grandparent rc : Z) : P Z :=
  n ← load_pn node;
  p ← load_pn (pn_parent n);
  g ← load_pn grandparent;
  node ←
    (if (node =? pn_right p) && (pn_parent n =? pn_left g) then
       _ ← rbt_rotate_left (pn_parent n);
       n ← load_pn node; mret (pn_left n)
     else if (node =? pn_left p) && (pn_parent n =? pn_right g) then
       _ ← rbt_rotate_right (pn_parent n);
       n ← load_pn node; mret (pn_right n)
     else mret node);
  add_case5 node rc.

(** Case 3: the parent is red; [add] is the recursive call. *)
Definition add_red_parent (add : key → Z → P Z) (node rc : Z) : P Z :=
  uncle ← rbt_uncle node;
  grandparent ← rbt_grandparent node;
  red ← IS_RED uncle;
  if red : bool then
    n ← load_pn node;
    _ ← PAINT_BLACK (pn_parent n);
    _ ← PAINT_BLACK uncle;
    if grandparent =? 0 then mret rc else
    _ ← PAINT_RED grandparent;
    k ← load_key grandparent;
    g ← load_pn grandparent;
    _ ← add k (pn_value g);
    mret rc
  else if grandparent =? 0 then mret rc else add_rotate node grandparent rc.

(** What follows [rbt_add_internal]. *)
Definition add_finish (add : key → Z → P Z) (node rc : Z) : P Z :=
  black ← IS_BLACK node;
  n ← load_pn node;
  if black : bool then
    _ ← (if pn_parent n =? 0 then set_root node else mret tt);
    mret 1
  else if pn_parent n =? 0 then
    _ ← PAINT_BLACK node;
    _ ← set_root node;
    mret rc
  else
    black ← IS_BLACK (pn_parent n);
    if black : bool then mret rc else add_red_parent add node rc.

Fixpoint rbt_add (depth : nat) (k : key) (v : Z) : P Z :=
  match depth with
  | O => λ _, Diverge
  | S depth' =>
      node ← create_node k v;
      if node =? 0 then mret (-1) else
      t ← load_ptree;
      if pt_root t =? 0 then
        _ ← PAINT_BLACK node;
        _ ← set_root node;
        mret 0
      else
        rc ← rbt_add_internal depth (pt_root t) node;
        add_finish (rbt_add depth') node rc
  end.

(** ** Lookup *)

Fixpoint rbt_find_internal (depth : nat) (node : Z) (k : key) : P Z :=
  if node =? 0 then mret 0 else
  match depth with
  | O => λ _, Diverge
  | S depth =>
      k1 ← load_key node;
      rc ← compare_keys k1 k;
      n ← load_pn node;
      if rc =? 0 then mret node
      else if 0 <? rc then rbt_find_internal depth (pn_left n) k
      else rbt_find_internal depth (pn_right n) k
  end.
(** The return code and what is stored through [v]. *)
Definition rbt_find (depth : nat) (k : key) : P (Z * option Z) :=
  t ← load_ptree;
  node ← rbt_find_internal depth (pt_root t) k;
  if node =? 0 then mret (-1, None) else
  n ← load_pn node; mret (0, Some (pn_value n)).

(** ** Removal *)

(** [sibling && IS_BLACK(sibling) && IS_BLACK(sibling->left) &&
    IS_BLACK(sibling->right)]. *)
Definition black_family (sibling : Z) : P bool :=
  if sibling =? 0 then mret false else
  b ← IS_BLACK sibling;
  s ← load_pn sibling;
  l ← IS_BLACK (pn_left s);
  r ← IS_BLACK (pn_right s);
  mret (b && l && r).

(** Delete case 5 turns the sibling; [left] says that [node] is a left child. *)
Definition paint_case5 (left : bool) (sibling : Z) : P unit :=
  if sibling =? 0 then mret tt else
  s ← load_pn sibling;
  bl ← IS_BLACK (pn_left s);
  br ← IS_BLACK (pn_right s);
  if left && br && negb bl then
    _ ← PAINT_RED sibling;
    _ ← PAINT_BLACK (pn_left s);
    rbt_rotate_right sibling
  else if negb left && bl && negb br then
    _ ← PAINT_RED sibling;
    _ ← PAINT_BLACK (pn_right s);
    rbt_rotate_left sibling
  else mret tt.

Definition paint_case6 (node sibling : Z) : P unit :=
  n ← load_pn node;
  p ← load_pn (pn_parent n);
  _ ← (if sibling =? 0 then mret tt else set_pn sibling (with_extra (pn_extra p)));
  _ ← PAINT_BLACK (pn_parent n);
  s ← (if sibling =? 0 then mret (0, 0) else s ← load_pn sibling; mret (pn_left s, pn_right s));
  if node =? pn_left p then
    _ ← PAINT_BLACK s.2; rbt_rotate_left (pn_parent n)
  else
    _ ← PAINT_BLACK s.1; rbt_rotate_right (pn_parent n).

Fixpoint rbt_paint_onremove (depth : nat) (node : Z) : P unit :=
  match depth with
  | O => λ _, Diverge
  | S depth =>
      if node =? 0 then mret tt else
      n ← load_pn node;
      if pn_parent n =? 0 then mret tt else
      sibling ← rbt_sibling node;
      red ← IS_RED sibling;
      _ ← (if red : bool then
             _ ← PAINT_RED (pn_parent n);
             _ ← PAINT_BLACK sibling;
             p ← load_pn (pn_parent n);
             if node =? pn_left p then rbt_rotate_left (pn_parent n)
             else rbt_rotate_right (pn_parent n)
           else mret tt);
      n ← load_pn node;
      pblack ← IS_BLACK (pn_parent n);
      family ← black_family sibling;
      if pblack && family then
        _ ← PAINT_RED sibling;
        rbt_paint_onremove depth (pn_parent n)
      else if negb pblack && family then
        _ ← PAINT_RED sibling;
        PAINT_BLACK (pn_parent n)
      else
        sblack ← IS_BLACK sibling;
        p ← load_pn (pn_parent n);
        _ ← (if sblack : bool then paint_case5 (node =? pn_left p) sibling else mret tt);
        paint_case6 node sibling
  end.

(** [prevnext++ % 2 == 0]. *)
Definition next_isprev : P bool :=
  c ← gets pw_prevnext;
  c' ← lift (int32 (c + 1));
  _ ← modify (λ w, mk_pworld (pw_tree w) (pw_nodes w) (pw_next w) (pw_alloc w) (pw_freed w) c');
  mret (Z.rem c 2 =? 0).

(** What becomes of the value given up: stored through [v], or freed. *)
Definition release_value (v : bool) (value : Z) : P (option Z) :=
  if v then mret (Some value) else
  t ← load_ptree;
  _ ← (if free_value_cb t then call_free_value value else mret tt);
  mret None.

(** The neighbour [n] of [node] leaves its place to its child; [m] and [nn]
    are the two nodes. *)
Definition unlink_neighbour (isprev : bool) (node n : Z) (m nn : rbt_node_t) : P unit :=
  if isprev then
    _ ← (if n =? pn_left m then set_pn node (with_left (pn_left nn))
         else set_pn (pn_parent nn) (with_right (pn_left nn)));
    reparent (pn_left nn) node
  else
    _ ← (if n =? pn_right m then set_pn node (with_right (pn_right nn))
         else set_pn (pn_parent nn) (with_left (pn_right nn)));
    reparent (pn_right nn) node.

(** The two children case: the node takes the item of its neighbour [n].
    [realloc] with a size of 0 is implementation-defined. *)
Definition remove_inner (node : Z) (v : bool) : P (Z * option Z) :=
  isprev ← next_isprev;
  n ← (if isprev : bool then rbt_find_prev node else rbt_find_next node);
  nn ← load_pn n;
  m ← load_pn node;
  _ ← lift (check (0 <? pn_klen nn));
  _ ← lift (check (bool_decide (is_Some (pn_key m))));
  ok ← next_alloc;
  if negb ok then mret (-1, None) else
  k ← load_key n;
  _ ← set_pn node (with_key (Some k));
  _ ← set_pn node (with_value (pn_value nn));
  _ ← unlink_neighbour isprev node n m nn;
  _ ← free_key n;
  r ← release_value v (pn_value m);
  _ ← free_pn n;
  mret (0, r).

(** The one child case. *)
Definition remove_one_child (depth : nat) (node : Z) (v : bool) : P (Z * option Z) :=
  n ← load_pn node;
  let child := if pn_right n =? 0 then pn_left n else pn_right n in
  _ ← set_pn child (with_parent (pn_parent n));
  _ ← (if pn_parent n =? 0 then mret tt else relink_child (pn_parent n) node child);
  black ← IS_BLACK node;
  _ ← (if black : bool then
         red ← IS_RED child;
         if red : bool then PAINT_BLACK child else rbt_paint_onremove depth child
       else mret tt);
  n ← load_pn node;
  r ← release_value v (pn_value n);
  _ ← free_key node;
  _ ← free_pn node;
  mret (0, r).

Definition remove_leaf (node : Z) (v : bool) : P (Z * option Z) :=
  n ← load_pn node;
  _ ← (if pn_parent n =? 0 then mret tt else relink_child (pn_parent n) node 0);
  r ← (if v || negb (pn_value n =? 0) then release_value v (pn_value n) else mret None);
  _ ← free_key node;
  _ ← free_pn node;
  mret (0, r).

(** The return code and what is stored through [v] when it is not null. *)
Definition rbt_remove (depth : nat) (k : key) (v : bool) : P (Z * option Z) :=
  t ← load_ptree;
  node ← rbt_find_internal depth (pt_root t) k;
  if node =? 0 then mret (-1, None) else
  n ← load_pn node;
  if negb (pn_left n =? 0) || negb (pn_right n =? 0) then
    if negb (pn_left n =? 0) && negb (pn_right n =? 0) then remove_inner node v
    else remove_one_child depth node v
  else remove_leaf node v.

(** ** Walking *)

(** The callback on key, value and state of the user. *)
Abbreviation rbt_walk_callback U := (key → Z → U → Z * U).

(** The result of a walk of a subtree added to the count, [None] when it
    ended the walk. *)
Definition add_walked (rc rrc : Z) : P (option Z) :=
  if rrc =? 0 then mret None else rc ← lift (int32 (rc + rrc)); mret (Some rc).

(** The walk of the child [p], when there is one, before [rest]. *)
Definition walk_part {U} (walk : Z → U → P (Z * U)) (rc p : Z) (priv : U) (rest : Z → U → P (Z * U)) :
    P (Z * U) :=
  if p =? 0 then rest rc priv else
  '(rrc, priv) ← walk p priv;
  rc' ← add_walked rc rrc;
  match rc' with
  | None => rc ← lift (int32 (rc + 1)); mret (rc, priv)
  | Some rc => rest rc priv
  end.

(** [depth] bounds the recursion, [height] the one of the removals. *)
Fixpoint rbt_walk_internal {U} (height depth : nat) (node : Z) (sorted : bool)
    (cb : rbt_walk_callback U) (priv : U) : P (Z * U) :=
  if node =? 0 then mret (0, priv) else
  match depth with
  | O => λ _, Diverge
  | S depth =>
      let walk p priv := rbt_walk_internal height depth p sorted cb priv in
      n ← load_pn node;
      walk_part walk 1 (if sorted then pn_left n else 0) priv (λ rc priv,
        n ← load_pn node;
        k ← load_key node;
        let '(cbrc, priv) := cb k (pn_value n) priv in
        if cbrc =? -2 then _ ← rbt_remove height k false; mret (0, priv)
        else if cbrc =? -1 then
          if negb (pn_left n =? 0) && negb (pn_right n =? 0) then
            _ ← rbt_remove height k false; walk node priv
          else if negb (pn_left n =? 0) || negb (pn_right n =? 0) then
            walk (if pn_left n =? 0 then pn_right n else pn_left n) priv
          else mret (1, priv)
        else if cbrc =? 0 then mret (0, priv)
        else
          walk_part walk rc (if sorted then 0 else pn_left n) priv (λ rc priv,
            n ← load_pn node;
            walk_part walk rc (pn_right n) priv (λ rc priv, mret (rc, priv))))
  end.

Definition rbt_walk_from {U} (height depth : nat) (sorted : bool) (cb : rbt_walk_callback U)
    (priv : U) : P (Z * U) :=
  t ← load_ptree;
  if pt_root t =? 0 then mret (0, priv)
  else rbt_walk_internal height depth (pt_root t) sorted cb priv.
Definition rbt_walk {U} (height depth : nat) (cb : rbt_walk_callback U) (priv : U) : P (Z * U) :=
  rbt_walk_from height depth false cb priv.
Definition rbt_walk_sorted {U} (height depth : nat) (cb : rbt_walk_callback U) (priv : U) :
    P (Z * U) :=
  rbt_walk_from height depth true cb priv.
End rbtree.
