(* ===== verification/RbtreeShape.v ===== *)
(** * Red-black trees: rotations, lookup and insertion

    Each operation on the links is an equation between trees. *)

From S2P Require Import Prelude Comparators SortedDict Ptree PtreeSearch Rbtree.

Section rotations.
Context (cb : option libhl_cmp_callback_t) (fr : bool).
Abbreviation tree := (tree rbt_color_t).




(** A rotation of the child [y] of [x] over it. *)
Ltac rotation f x y t t' :=
  lazymatch goal with |- tree_in ?cb ?fr (plug ?c _) _ → _ =>
    let Ht := fresh "Ht" in let Hh := fresh "Hh" in
    intros [Ht Hh]; pose proof (holds_null _ _ Hh) as H0; pose proof (plug_null _ _ _ Hh) as Hz;
    apply holds_plug in Hh as (Hs&Hc&Hnd&Hdom); simpl in Hs, Hc; destruct_and!;
    unfold f; run; (eapply returns_reparent; [by frames|by no_null|]);
    unfold rotate_parent; run;
    (apply (returns_take_place cb fr c t t'); [done|by frames|by no_null|]);
    (split; [|done]); (split; [done|]); rebuild
  end.

Lemma rotate_right_ok c x dx y dy (a b e : tree) w :
  tree_in cb fr (plug c (T x dx (T y dy a b) e)) w →
  returns (rbt_rotate_right x w) (λ '(_, w'),
    tree_in cb fr (plug c (T y dy a (T x dx b e))) w' ∧ rest w' = rest w).
Proof. rotation rbt_rotate_right x y (T x dx (T y dy a b) e) (T y dy a (T x dx b e)). Qed.
Lemma rotate_left_ok c x dx y dy (a b e : tree) w :
  tree_in cb fr (plug c (T x dx a (T y dy b e))) w →
  returns (rbt_rotate_left x w) (λ '(_, w'),
    tree_in cb fr (plug c (T y dy (T x dx a b) e)) w' ∧ rest w' = rest w).
Proof. rotation rbt_rotate_left x y (T x dx a (T y dy b e)) (T y dy (T x dx a b) e). Qed.
End rotations.

(** ** Lookup *)

Section tree.
Context (memcmp : key → key → Z) (cb : option libhl_cmp_callback_t) (fr : bool) {ok : key → Prop}.
Context `{!Comparator (rbt_compare_keys memcmp cb) ok}.
Abbreviation tree := (tree rbt_color_t).
Abbreviation bst := (bst (rbt_compare_keys memcmp cb) ok).

Lemma returns_compare_keys r k1 k2 (w : pworld rbt_color_t) Q :
  pw_tree w = Some (mk_ptree r cb fr) → ok k1 → ok k2 → Q (cmp_sign k1 k2, w) →
  returns (compare_keys memcmp k1 k2 w) Q.
Proof.
  intros Ht H1 H2 HQ. unfold compare_keys. go. eapply returns_load_ptree; [done|]. go. simpl.
  by rewrite cmp_ret.
Qed.

Lemma find_internal_ok depth k c (t : tree) w :
  tree_in cb fr (plug c t) w → Forall (λ x, ok x.1) (entries t) → ok k → (height t ≤ depth)%nat →
  rbt_find_internal memcmp depth (root t) k w = Ret (root (locate k c t).2, w).
Proof.
  intros Hw Ho Hk Hd.
  apply returns_exact.
  revert depth c Hw Ho Hd. induction t as [|p [[k0 v0] x] l IHl r IHr]; intros depth c Hw Ho Hd; simpl root.
  { by destruct depth. }
  simpl in Hd. destruct depth as [|depth]; [lia|].
  pose proof Hw as [Ht [Hp Hp0]%holds_focus].
  unfold entries in Ho. simpl in Ho. rewrite fmap_app in Ho. apply Forall_app in Ho as [Hol Hor].
  simpl in Hor. apply Forall_cons in Hor as [Hok Hor].
  cbn [rbt_find_internal]. rewrite (proj2 (Z.eqb_neq p 0)) by done. go.
  eapply returns_load_key; [done|]. go. eapply returns_compare_keys; [done..|].
  go. eapply returns_load_pn; [done|]. go. simpl.
  destruct (cmp_sign k0 k =? 0); [by go|]. destruct (0 <? cmp_sign k0 k).
  - apply (IHl depth (FL p (k0, v0, x) r :: c)); [done..|lia].
  - apply (IHr depth (FR p (k0, v0, x) l :: c)); [done..|lia].
Qed.
End tree.
