(* ===== verification/RbtreeAdd.v ===== *)
(** * Red-black trees: insertion

    [rbt_add] as a function on trees: the node is put at the place of its key,
    and the colours are repaired from there up. *)

From S2P Require Import Prelude Comparators SortedDict Ptree PtreeSearch Rbtree RbtreeShape.

Section add.
Context (memcmp : key → key → Z) (cb : option libhl_cmp_callback_t) (fr : bool) {ok : key → Prop}.
Context `{!Comparator (rbt_compare_keys memcmp cb) ok}.
Abbreviation tree := (tree rbt_color_t).

(** The values freed when [v] replaces [old]. *)
Definition released (old v : Z) : list Z := if negb (v =? old) && fr then [old] else [].

Lemma replace_node_ok c p d (l r : tree) nn k v rt w :
  pw_tree w = Some (mk_ptree rt cb fr) → beside (pw_nodes w) nn (plug c (T p d l r)) → nn ≠ 0 →
  pw_nodes w !! nn = Some (node_of (k, v, RBTREE_COLOR_RED) 0 0 0) →
  returns (replace_node p nn w) (λ '(rc, w'),
    rc = 1 ∧ pw_tree w' = pw_tree w ∧ holds (pw_nodes w') (plug c (T nn (k, v, d.2) l r)) ∧
    rest w' = (pw_next w, pw_alloc w, pw_freed w ++ released d.1.2 v, pw_prevnext w)).
Proof.
  intros Ht Hb Hn0 Hn. destruct (beside_null _ _ _ _ Hn0 Hb) as [H0 Hz].
  apply beside_plug in Hb as (Hs&Hc&Hnd&Hdom). simpl in Hs, Hc. destruct Hs as (Hp0&Hp&Hl&Hr).
  unfold replace_node. run.
  eapply returns_relink_if; [by frames|by no_null|]. run.
  eapply returns_reparent; [by frames|by no_null|]. run.
  eapply returns_reparent; [by frames|by no_null|]. run.
  split_and!; try done. rebuild.
Qed.

(** A new leaf. *)
Lemma attach_left_ok c p d (r : tree) nn dn rt w :
  pw_tree w = Some (mk_ptree rt cb fr) → beside (pw_nodes w) nn (plug c (T p d E r)) → nn ≠ 0 →
  pw_nodes w !! nn = Some (node_of dn 0 0 0) →
  returns ((_ ← set_pn p (with_left nn); _ ← set_pn nn (with_parent p); mret 0) w) (λ '(rc, w'),
    rc = 0 ∧ pw_tree w' = pw_tree w ∧ holds (pw_nodes w') (plug c (T p d (T nn dn E E) r)) ∧
    rest w' = rest w).
Proof.
  intros Ht Hb Hn0 Hn. apply beside_plug in Hb as (Hs&Hc&Hnd&Hdom). simpl in Hs, Hc.
  destruct Hs as (Hp0&Hp&_&Hr). run. split_and!; try done. rebuild.
Qed.
Lemma attach_right_ok c p d (l : tree) nn dn rt w :
  pw_tree w = Some (mk_ptree rt cb fr) → beside (pw_nodes w) nn (plug c (T p d l E)) → nn ≠ 0 →
  pw_nodes w !! nn = Some (node_of dn 0 0 0) →
  returns ((_ ← set_pn p (with_right nn); _ ← set_pn nn (with_parent p); mret 0) w) (λ '(rc, w'),
    rc = 0 ∧ pw_tree w' = pw_tree w ∧ holds (pw_nodes w') (plug c (T p d l (T nn dn E E))) ∧
    rest w' = rest w).
Proof.
  intros Ht Hb Hn0 Hn. apply beside_plug in Hb as (Hs&Hc&Hnd&Hdom). simpl in Hs, Hc.
  destruct Hs as (Hp0&Hp&Hl&_). run. split_and!; try done. rebuild.
Qed.

(** What the search of [rbt_add_internal] leaves at the place it found. *)
Definition put_at (nn : Z) (k : key) (v : Z) (s : tree) : tree :=
  match s with
  | E => T nn (k, v, RBTREE_COLOR_RED) E E
  | T _ d l r => T nn (k, v, d.2) l r
  end.
Definition put_rc (s : tree) : Z := match s with E => 0 | T _ _ _ _ => 1 end.
Definition put_freed (v : Z) (s : tree) : list Z :=
  match s with E => [] | T _ d _ _ => released d.1.2 v end.

Lemma add_internal_ok depth c (t : tree) nn k v rt w :
  pw_tree w = Some (mk_ptree rt cb fr) → beside (pw_nodes w) nn (plug c t) → nn ≠ 0 →
  pw_nodes w !! nn = Some (node_of (k, v, RBTREE_COLOR_RED) 0 0 0) →
  t ≠ E → Forall (λ x, ok x.1) (entries t) → ok k →
  (length (locate k c t).1 < length c + depth)%nat →
  returns (rbt_add_internal memcmp depth (root t) nn w) (λ '(rc, w'),
    let '(c', s) := locate k c t in
    rc = put_rc s ∧ pw_tree w' = pw_tree w ∧ holds (pw_nodes w') (plug c' (put_at nn k v s)) ∧
    rest w' = (pw_next w, pw_alloc w, pw_freed w ++ put_freed v s, pw_prevnext w)).
Proof.
  intros Ht Hb Hn0 Hn Hne Ho Hk.
  revert depth c Hb Hne Ho. induction t as [|p d l IHl r IHr]; intros depth c Hb Hne Ho Hd; [done|].
  destruct depth as [|depth]; [pose proof (locate_longer k c (T p d l r)); lia|].
  pose proof Hb as (Hs&_&_)%beside_plug. simpl in Hs. destruct Hs as (Hp0&Hp&_&_).
  unfold entries in Ho. simpl in Ho. rewrite fmap_app in Ho. apply Forall_app in Ho as [Hol Hor].
  simpl in Hor. apply Forall_cons in Hor as [Hok Hor].
  cbn [rbt_add_internal root]. go. eapply returns_load_key; [done|]. go.
  eapply returns_load_key; [done|]. go. simpl.
  eapply (returns_compare_keys memcmp cb fr); [done..|]. go. simpl in Hd |- *.
  destruct (cmp_sign d.1.1 k =? 0).
  { by eapply replace_node_ok. }
  go. eapply returns_load_pn; [done|]. go. fields.
  destruct (0 <? cmp_sign d.1.1 k).
  - destruct l as [|q e l1 l2]; cbn [root].
    + simpl. eapply returns_mono; [by eapply attach_left_ok|]. intros [rc w'] (->&->&?&Hr).
      split_and!; [done..|]. rewrite app_nil_r. exact Hr.
    + pose proof Hb as (Hs&_&_)%beside_plug. simpl in Hs. destruct Hs as (_&_&(Hq0&_)&_).
      rewrite (proj2 (Z.eqb_neq q 0)) by done. cbn [negb].
      apply (IHl depth (FL p d r :: c)); try done. simpl in *. lia.
  - destruct r as [|q e r1 r2]; cbn [root].
    + simpl. eapply returns_mono; [by eapply attach_right_ok|]. intros [rc w'] (->&->&?&Hr).
      split_and!; [done..|]. rewrite app_nil_r. exact Hr.
    + pose proof Hb as (Hs&_&_)%beside_plug. simpl in Hs. destruct Hs as (_&_&_&Hq0&_).
      rewrite (proj2 (Z.eqb_neq q 0)) by done. cbn [negb].
      apply (IHr depth (FR p d l :: c)); try done. simpl in *. lia.
Qed.
(** ** Colours at a place *)

Definition tcolor (t : tree) : rbt_color_t :=
  match t with E => RBTREE_COLOR_BLACK | T _ d _ _ => d.2 end.
Definition paint (x : rbt_color_t) (t : tree) : tree :=
  match t with E => E | T p d l r => T p (d.1, x) l r end.
Definition fcolor (f : frame rbt_color_t) : rbt_color_t := match f with FL _ d _ | FR _ d _ => d.2 end.
Definition fsib (f : frame rbt_color_t) : tree := match f with FL _ _ t | FR _ _ t => t end.
Definition fill (f : frame rbt_color_t) (t : tree) : tree :=
  match f with FL p d r => T p d t r | FR p d l => T p d l t end.

Lemma plug_fill f c t : plug (f :: c) t = plug c (fill f t).
Proof. by destruct f. Qed.

Lemma is_black_ok (w : pworld rbt_color_t) par t :
  shape (pw_nodes w) par t →
  IS_BLACK (root t) w = Ret (bool_decide (tcolor t = RBTREE_COLOR_BLACK), w).
Proof.
  destruct t as [|p d l r]; [done|]. intros (Hp0&Hp&_). unfold IS_BLACK. cbn [root].
  rewrite (proj2 (Z.eqb_neq p 0)) by done.
  apply returns_exact.
  run. done.
Qed.
Lemma is_red_ok (w : pworld rbt_color_t) par t :
  shape (pw_nodes w) par t →
  IS_RED (root t) w = Ret (bool_decide (tcolor t = RBTREE_COLOR_RED), w).
Proof.
  destruct t as [|p d l r]; [done|]. intros (Hp0&Hp&_). unfold IS_RED. cbn [root].
  rewrite (proj2 (Z.eqb_neq p 0)) by done.
  apply returns_exact.
  run. done.
Qed.

(** The painting of a subtree; [paint_on x] is [PAINT_BLACK] or [PAINT_RED]. *)
Definition paint_on (x : rbt_color_t) (p : Z) : P unit :=
  if p =? 0 then mret tt else set_pn p (with_extra x).
Lemma paint_ok c t x w :
  tree_in cb fr (plug c t) w →
  returns (paint_on x (root t) w) (λ '(_, w'),
    tree_in cb fr (plug c (paint x t)) w' ∧ rest w' = rest w).
Proof.
  intros Hw. unfold paint_on. destruct t as [|p d l r]; cbn [root]; [by go|].
  rewrite (proj2 (Z.eqb_neq p 0)) by (by destruct Hw as [_ [_ ?]%holds_focus]).
  by apply returns_extra.
Qed.

(** The relatives of the node at a place. *)
Lemma grandparent_ok f c p d (l r : tree) w :
  tree_in cb fr (plug (f :: c) (T p d l r)) w → rbt_grandparent p w = Ret (top c, w).
Proof.
  intros [_ (Hs&Hc&_)%holds_plug].
  apply returns_exact.
  unfold rbt_grandparent. cbn [shape] in Hs. destruct_and!. destruct f as [q dq s|q dq s];
    cbn [path_shape top frame_addr] in *; destruct_and!; run; done.
Qed.
Lemma uncle_ok f c p d (l r : tree) w :
  tree_in cb fr (plug (f :: c) (T p d l r)) w →
  rbt_uncle p w = Ret (match c with [] => 0 | f2 :: _ => root (fsib f2) end, w).
Proof.
  intros Hw. apply returns_exact.
  unfold rbt_uncle. go. rewrite (grandparent_ok f c p d l r) by done.
  destruct Hw as [_ Hh]. pose proof (plug_null _ _ _ Hh) as Hz.
  apply holds_plug in Hh as (Hs&Hc&Hnd&_). cbn [shape] in Hs. destruct_and!.
  destruct c as [|f2 c]; [by go|].
  destruct f as [q dq s|q dq s], f2 as [g dg u|g dg u]; cbn [path_shape top frame_addr] in *;
    destruct_and!; run; done.
Qed.
End add.
