(* ===== verification/RbtreeRepair.v ===== *)
(** * Red-black trees: the colours after an insertion

    [repaired c t t'] is what [rbt_add] makes of the tree with the new node
    [t] below [c]: its cases are those of the code. *)

From S2P Require Import Prelude Comparators SortedDict Ptree PtreeSearch Rbtree RbtreeShape RbtreeAdd.

Abbreviation rtree := (tree rbt_color_t).
Abbreviation RED := RBTREE_COLOR_RED.
Abbreviation BLACK := RBTREE_COLOR_BLACK.

(** The grandparent [f2] painted red, its child [s] and the uncle black. *)
Definition recolored (f2 : frame rbt_color_t) (s : rtree) : rtree :=
  match f2 with
  | FL g d u => T g (d.1, RED) s (paint BLACK u)
  | FR g d u => T g (d.1, RED) (paint BLACK u) s
  end.
Definition with_addr (p : Z) (t : rtree) : rtree :=
  match t with E => E | T _ d l r => T p d l r end.
Definition fpaint (x : rbt_color_t) (f : frame rbt_color_t) : frame rbt_color_t :=
  match f with FL p d t => FL p (d.1, x) t | FR p d t => FR p (d.1, x) t end.

(** [oom]: an allocation fails. *)
Inductive repaired (oom : Prop) : list (frame rbt_color_t) → rtree → rtree → Prop :=
  | rp_black_node c t : tcolor t = BLACK → repaired oom c t (plug c t)
  | rp_root p d l r : d.2 = RED → repaired oom [] (T p d l r) (T p (d.1, BLACK) l r)
  | rp_black_parent f c t :
      tcolor t = RED → fcolor f = BLACK → repaired oom (f :: c) t (plug (f :: c) t)
  | rp_red_root f t : tcolor t = RED → fcolor f = RED → repaired oom [f] t (plug [f] t)
  | rp_recolor f1 f2 c t p t' :
      tcolor t = RED → fcolor f1 = RED → tcolor (fsib f2) = RED →
      repaired oom c (with_addr p (recolored f2 (fill (fpaint BLACK f1) t))) t' →
      repaired oom (f1 :: f2 :: c) t t'
  | rp_recolor_oom f1 f2 c t : oom →
      tcolor t = RED → fcolor f1 = RED → tcolor (fsib f2) = RED →
      repaired oom (f1 :: f2 :: c) t (plug c (recolored f2 (fill (fpaint BLACK f1) t)))
  | rp_left_left p dp s g dg u c t :
      tcolor t = RED → dp.2 = RED → tcolor u = BLACK →
      repaired oom (FL p dp s :: FL g dg u :: c) t
        (plug c (T p (dp.1, BLACK) t (T g (dg.1, RED) s u)))
  | rp_right_right p dp s g dg u c t :
      tcolor t = RED → dp.2 = RED → tcolor u = BLACK →
      repaired oom (FR p dp s :: FR g dg u :: c) t
        (plug c (T p (dp.1, BLACK) (T g (dg.1, RED) u s) t))
  | rp_left_right p dp s g dg u c x dx l r :
      dx.2 = RED → dp.2 = RED → tcolor u = BLACK →
      repaired oom (FR p dp s :: FL g dg u :: c) (T x dx l r)
        (plug c (T x (dx.1, BLACK) (T p dp s l) (T g (dg.1, RED) r u)))
  | rp_right_left p dp s g dg u c x dx l r :
      dx.2 = RED → dp.2 = RED → tcolor u = BLACK →
      repaired oom (FL p dp s :: FR g dg u :: c) (T x dx l r)
        (plug c (T x (dx.1, BLACK) (T g (dg.1, RED) u l) (T p dp r s))).

(** Two trees with the same items in order. *)
Ltac flat_eq :=
  cbn [plug]; rewrite !flat_plug; cbn [flat];
  repeat (progress (rewrite <- ?app_assoc; cbn [app fst])); done.
Ltac entries_eq := unfold entries; f_equal; flat_eq.

(** Whatever the case, the items stay in order; only addresses change. *)
Lemma entries_with_addr p t : entries (with_addr p t) = entries t.
Proof. destruct t; [done|]. unfold entries. simpl. by rewrite !fmap_app. Qed.
Lemma flat_paint x (t : rtree) : flat (paint x t) = flat t.
Proof. by destruct t. Qed.
Lemma flat_recolored f1 f2 (t : rtree) :
  flat (recolored f2 (fill (fpaint BLACK f1) t)) = flat (fill f2 (fill f1 t)).
Proof. destruct f1, f2; simpl; by rewrite flat_paint. Qed.

Lemma repaired_entries oom c t t' : repaired oom c t t' → entries t' = entries (plug c t).
Proof.
  induction 1 as [| | | |f1 f2 c t p t' _ _ _ _ IH| | | | |]; try done.
  - rewrite IH. rewrite !plug_fill, !entries_plug, entries_with_addr. unfold entries.
    by rewrite flat_recolored.
  - rewrite !plug_fill, !entries_plug. unfold entries. by rewrite flat_recolored.
  - entries_eq.
  - entries_eq.
  - entries_eq.
  - entries_eq.
Qed.

(** ** Cases 4 and 5 *)

Section rotate.
Context (cb : option libhl_cmp_callback_t) (fr : bool).

Ltac places Hw :=
  let Hh := fresh in
  pose proof Hw as [_ Hh]; pose proof (plug_null _ _ _ Hh) as Hz;
  apply holds_plug in Hh as (Hs&Hc&Hnd&_); cbn [shape path_shape root top frame_addr] in Hs, Hc;
  destruct_and!.


Lemma case5_left p dp s g dg u c x dx (l r : rtree) rc w :
  tree_in cb fr (plug (FL p dp s :: FL g dg u :: c) (T x dx l r)) w →
  returns (add_case5 x rc w) (λ '(a, w'), a = rc ∧
    tree_in cb fr (plug c (T p (dp.1, BLACK) (T x dx l r) (T g (dg.1, RED) s u))) w' ∧
    rest w' = rest w).
Proof.
  intros Hw. unfold add_case5. go.
  eapply returns_Ret_at; [by eapply grandparent_ok|].
  assert (Hp0 : p ≠ 0 ∧ g ≠ 0) by (places Hw; done). destruct Hp0 as [Hp0 Hg0].
  go. eapply returns_load_pn; [by places Hw|]. cbn [top frame_addr]. run.
  eapply returns_mono; [by apply (paint_ok cb fr (FL g dg u :: c) (T p dp (T x dx l r) s) BLACK)|].
  intros [[] w1] [Hw1 Hr1]. cbn [paint] in Hw1. go.
  eapply returns_mono; [by apply (paint_ok cb fr c (T g dg (T p (dp.1, BLACK) (T x dx l r) s) u) RED)|].
  intros [[] w2] [Hw2 Hr2]. cbn [paint] in Hw2. go.
  eapply returns_load_pn.
  { by apply (holds_focus _ (FL g (dg.1, RED) u :: c) p), Hw2. }
  cbn [pn_left node_of root]. rewrite Z.eqb_refl. go.
  eapply returns_mono; [by eapply rotate_right_ok|].
  intros [[] w3] [Hw3 Hr3]. go. split_and!; [done|done|congruence].
Qed.
Lemma case5_right p dp s g dg u c x dx (l r : rtree) rc w :
  tree_in cb fr (plug (FR p dp s :: FR g dg u :: c) (T x dx l r)) w →
  returns (add_case5 x rc w) (λ '(a, w'), a = rc ∧
    tree_in cb fr (plug c (T p (dp.1, BLACK) (T g (dg.1, RED) u s) (T x dx l r))) w' ∧
    rest w' = rest w).
Proof.
  intros Hw. unfold add_case5. go.
  eapply returns_Ret_at; [by eapply grandparent_ok|].
  assert (Hp0 : p ≠ 0 ∧ g ≠ 0 ∧ x ≠ root s).
  { places Hw. split_and!; [done|done|differ]. }
  destruct Hp0 as (Hp0&Hg0&Hx).
  go. eapply returns_load_pn; [by places Hw|]. cbn [top frame_addr]. run.
  eapply returns_mono; [by apply (paint_ok cb fr (FR g dg u :: c) (T p dp s (T x dx l r)) BLACK)|].
  intros [[] w1] [Hw1 Hr1]. cbn [paint] in Hw1. go.
  eapply returns_mono; [by apply (paint_ok cb fr c (T g dg u (T p (dp.1, BLACK) s (T x dx l r))) RED)|].
  intros [[] w2] [Hw2 Hr2]. cbn [paint] in Hw2. go.
  eapply returns_load_pn.
  { by apply (holds_focus _ (FR g (dg.1, RED) u :: c) p), Hw2. }
  cbn [pn_left node_of root]. rewrite (proj2 (Z.eqb_neq x (root s))) by done. go.
  eapply returns_mono; [by eapply rotate_left_ok|].
  intros [[] w3] [Hw3 Hr3]. go. split_and!; [done|done|congruence].
Qed.

(** What [add_rotate] makes of a red node below a red parent whose sibling is
    black. *)
Lemma add_rotate_ok oom f1 f2 c x dx (l r : rtree) rc w :
  tree_in cb fr (plug (f1 :: f2 :: c) (T x dx l r)) w →
  dx.2 = RED → fcolor f1 = RED → tcolor (fsib f2) = BLACK →
  returns (add_rotate x (frame_addr f2) rc w) (λ '(a, w'), a = rc ∧ rest w' = rest w ∧
    ∃ t', repaired oom (f1 :: f2 :: c) (T x dx l r) t' ∧
      flat t' = flat (plug (f1 :: f2 :: c) (T x dx l r)) ∧ tree_in cb fr t' w').
Proof.
  intros Hw Hdx Hf1 Hu. unfold add_rotate.
  destruct f1 as [p dp s|p dp s], f2 as [g dg u|g dg u]; cbn [frame_addr fsib fcolor] in *.
  - assert (returns (add_case5 x rc w) (λ '(a, w'), a = rc ∧ rest w' = rest w ∧
      ∃ t', repaired oom (FL p dp s :: FL g dg u :: c) (T x dx l r) t' ∧
        flat t' = flat (plug (FL p dp s :: FL g dg u :: c) (T x dx l r)) ∧ tree_in cb fr t' w')) as Hgoal.
    { eapply returns_mono; [by eapply case5_left|]. intros [a w'] (->&Hw'&Hr). split_and!; [done..|].
      eexists. split_and!; [by apply rp_left_left|flat_eq|done]. }
    places Hw. run. exact Hgoal.
  - assert (returns (rbt_rotate_right p w) (λ '(_, w'),
      tree_in cb fr (plug (FR g dg u :: c) (T x dx l (T p dp r s))) w' ∧ rest w' = rest w)) as Hrot.
    { by apply (rotate_right_ok cb fr (FR g dg u :: c)). }
    places Hw. run. eapply returns_mono; [exact Hrot|]. intros [[] w1] [Hw1 Hr1]. go.
    eapply returns_load_pn; [by apply (holds_focus _ (FR g dg u :: c) x), Hw1|]. run.
    eapply returns_mono; [by eapply (case5_right x dx l g dg u c p dp r s)|].
    intros [a w2] (->&Hw2&Hr2). split_and!; [done|congruence|].
    eexists. split_and!; [by apply rp_right_left|flat_eq|done].
  - assert (returns (rbt_rotate_left p w) (λ '(_, w'),
      tree_in cb fr (plug (FL g dg u :: c) (T x dx (T p dp s l) r)) w' ∧ rest w' = rest w)) as Hrot.
    { by apply (rotate_left_ok cb fr (FL g dg u :: c)). }
    places Hw. run. eapply returns_mono; [exact Hrot|]. intros [[] w1] [Hw1 Hr1]. go.
    eapply returns_load_pn; [by apply (holds_focus _ (FL g dg u :: c) x), Hw1|]. run.
    eapply returns_mono; [by eapply (case5_left x dx r g dg u c p dp s l)|].
    intros [a w2] (->&Hw2&Hr2). split_and!; [done|congruence|].
    eexists. split_and!; [by apply rp_left_right|flat_eq|done].
  - assert (returns (add_case5 x rc w) (λ '(a, w'), a = rc ∧ rest w' = rest w ∧
      ∃ t', repaired oom (FR p dp s :: FR g dg u :: c) (T x dx l r) t' ∧
        flat t' = flat (plug (FR p dp s :: FR g dg u :: c) (T x dx l r)) ∧ tree_in cb fr t' w')) as Hgoal.
    { eapply returns_mono; [by eapply case5_right|]. intros [a w'] (->&Hw'&Hr). split_and!; [done..|].
      eexists. split_and!; [by apply rp_right_right|flat_eq|done]. }
    places Hw. run. exact Hgoal.
Qed.

(** The three paints of case 3. *)
Lemma recolor_ok f1 f2 c x dx (l r : rtree) w (k : P Z) Q :
  tree_in cb fr (plug (f1 :: f2 :: c) (T x dx l r)) w →
  (∀ w', tree_in cb fr (plug c (recolored f2 (fill (fpaint BLACK f1) (T x dx l r)))) w' →
    rest w' = rest w → returns (k w') Q) →
  returns ((_ ← PAINT_BLACK (frame_addr f1); _ ← PAINT_BLACK (root (fsib f2));
            _ ← PAINT_RED (frame_addr f2); k) w) Q.
Proof.
  intros Hw Hk. go.
  eapply returns_mono.
  { rewrite plug_fill in Hw. apply (paint_ok cb fr _ _ BLACK) in Hw. destruct f1; exact Hw. }
  intros [[] w1] [Hw1 Hr1].
  assert (Hw1' : tree_in cb fr (plug (f2 :: c) (fill (fpaint BLACK f1) (T x dx l r))) w1) by (by destruct f1).
  clear Hw1. go. rename Hw1' into Hw1.
  eapply returns_mono.
  { apply (paint_ok cb fr (match f2 with
      | FL g d _ => FR g d (fill (fpaint BLACK f1) (T x dx l r)) :: c
      | FR g d _ => FL g d (fill (fpaint BLACK f1) (T x dx l r)) :: c end) (fsib f2) BLACK).
    destruct f2; exact Hw1. }
  intros [[] w2] [Hw2 Hr2]. go.
  eapply returns_mono.
  {
    instantiate (1 := λ '(_, w'), tree_in cb fr (plug c (recolored f2 (fill (fpaint BLACK f1) (T x dx l r)))) w' ∧ rest w' = rest w2).
    destruct f2 as [g dg u|g dg u].
    - by apply (paint_ok cb fr c (T g dg (fill (fpaint BLACK f1) (T x dx l r)) (paint BLACK u)) RED).
    - by apply (paint_ok cb fr c (T g dg (paint BLACK u) (fill (fpaint BLACK f1) (T x dx l r))) RED). }
  intros [[] w3] [Hw3 Hr3]. apply Hk; [done|congruence].
Qed.
End rotate.
