(* ===== verification/RbtreeInsert.v ===== *)
(** * Red-black trees: insertion is insertion in a dictionary

    [rbt_add] on any coloured search tree, and on a red-black tree. *)

From S2P Require Import Prelude Comparators SortedDict Ptree PtreeSearch.
From S2P Require Import Rbtree RbtreeShape RbtreeAdd RbtreeRepair.

Section insert.
Context (memcmp : key → key → Z) (cb : option libhl_cmp_callback_t) (fr : bool) {ok : key → Prop}.
Context `{!Comparator (rbt_compare_keys memcmp cb) ok}.
Abbreviation bst := (bst (rbt_compare_keys memcmp cb) ok).

Abbreviation tree_world := (tree_world cb fr).

(** An out-of-memory [rbt_add] leaves the tree. *)
Definition failed (t : rtree) (w w' : pworld rbt_color_t) : Prop :=
  tree_world t w' ∧ false ∈ pw_alloc w ∧ pw_freed w' = pw_freed w ∧ pw_prevnext w' = pw_prevnext w.

Lemma create_node_ok t k v w :
  tree_world t w →
  returns (create_node k v w) (λ '(p, w'),
    (false ∈ pw_alloc w' → false ∈ pw_alloc w) ∧
    ((p = 0 ∧ failed t w w') ∨
     (p = pw_next w ∧ pw_next w' = p + 1 ∧ pw_tree w' = pw_tree w ∧ beside (pw_nodes w') p t ∧
      pw_nodes w' !! p = Some (node_of (k, v, RED) 0 0 0) ∧
      pw_freed w' = pw_freed w ∧ pw_prevnext w' = pw_prevnext w))).
Proof.
  intros Hw. pose proof (tree_world_fresh cb fr t w Hw) as Hfresh. pose proof Hw as ([Ht (Hs&Hnd&Hdom)]&Hn0&Hlt).
  assert (Hins : ∀ n, shape (<[pw_next w := n]> (pw_nodes w)) 0 t).
  { intros n. eapply shape_frame; [done|]. intros q Hq. apply lookup_insert_ne. intros E.
    rewrite Forall_forall in Hlt. specialize (Hlt q Hq). lia. }
  unfold create_node, new_node. go. apply returns_next_alloc. intros b1 Hb1 Ht1.
  destruct b1; cbn [negb].
  2:{ run. split; [done|]. left. split; [done|]. split_and!; try done; auto. }
  go. fields. rewrite (proj2 (Z.eqb_neq (pw_next w) 0)) by lia. go.
  apply returns_next_alloc. fields. intros b2 Hb2 Ht2. destruct b2; cbn [negb].
  - run. eapply returns_set_pn; [fields; apply lookup_insert_eq|]. rewrite ?put_nodes_twice. run.
    eapply returns_set_pn; [fields; rewrite lookup_alter_eq, lookup_insert_eq; done|].
    run. eapply returns_set_pn; [fields; rewrite !lookup_alter_eq, lookup_insert_eq; done|].
    run. split; [by intros ?%Ht2%Ht1|]. right. split_and!; try done.
    + split_and!.
      * do 3 (apply alter_frame; [|intros Hin; rewrite Forall_forall in Hlt; specialize (Hlt _ Hin); lia]).
        apply Hins.
      * apply NoDup_cons. split; [|done].
        intros Hin. rewrite Forall_forall in Hlt. specialize (Hlt _ Hin). lia.
      * intros q. rewrite !alter_is_Some, lookup_insert_is_Some, Hdom, elem_of_cons.
        destruct (decide (q = pw_next w)) as [->|Hq]; [tauto|].
        split; [intros [?|[_ ?]]; auto|intros [?|?]; [done|by right]].
    + rewrite !lookup_alter_eq, lookup_insert_eq. done.
  - run. eapply returns_free_pn; [apply lookup_insert_eq|done|]. run.
    split; [by intros ?%Ht2%Ht1|]. left. split; [done|].
    rewrite delete_insert_id by done. split_and!; [|by apply Ht1, Hb2|done..].
    split_and!; simpl; [|lia|].
    + split; [done|]. simpl. by split_and!.
    + eapply Forall_impl; [exact Hlt|]. simpl. lia.
Qed.

(** ** [rbt_add] *)

(** What [rbt_add] returns and does: with [c] and [s] the place of the key. *)
Definition added (oom : Prop) (k : key) (v : Z) (t : rtree) (w : pworld rbt_color_t) (rc : Z) (t' : rtree)
    (w' : pworld rbt_color_t) : Prop :=
  (false ∈ pw_alloc w' → false ∈ pw_alloc w) ∧ pw_prevnext w' = pw_prevnext w ∧
  ((oom ∧ rc = -1 ∧ t' = t ∧ pw_freed w' = pw_freed w) ∨
   (∃ p, p ≠ 0 ∧ rc = put_rc (locate k [] t).2 ∧
     repaired oom (locate k [] t).1 (put_at p k v (locate k [] t).2) t' ∧
     pw_freed w' = pw_freed w ++ put_freed fr v (locate k [] t).2)).

Lemma recolored_node f s : ∃ k v a b, recolored f s = T (frame_addr f) (k, v, RED) a b.
Proof. destruct f as [p [[k v] x] u|p [[k v] x] u]; simpl; eauto. Qed.
Lemma entries_root_ok p k v x (l r : rtree) :
  Forall (λ y, ok y.1) (entries (T p (k, v, x) l r)) → ok k.
Proof.
  unfold entries. cbn [flat]. rewrite fmap_app, fmap_cons, Forall_app, Forall_cons. simpl. tauto.
Qed.

(** The node is in place; its colour is to be repaired. *)
Lemma add_red_parent_ok oom depth f1 c p d (l r : rtree) rc w :
  tree_world (plug (f1 :: c) (T p d l r)) w → bst (plug (f1 :: c) (T p d l r)) →
  d.2 = RED → fcolor f1 = RED → (false ∈ pw_alloc w → oom) → (length (f1 :: c) < S depth)%nat →
  (∀ k v t w, tree_world t w → bst t → ok k → (false ∈ pw_alloc w → oom) →
     (length (locate k [] t).1 < depth)%nat →
     returns (rbt_add memcmp depth k v w) (λ '(rc, w'), ∃ t', tree_world t' w' ∧ added oom k v t w rc t' w')) →
  returns (add_red_parent (rbt_add memcmp depth) p rc w) (λ '(a, w'), a = rc ∧
    ∃ t', tree_world t' w' ∧ repaired oom (f1 :: c) (T p d l r) t' ∧
      (false ∈ pw_alloc w' → false ∈ pw_alloc w) ∧ pw_prevnext w' = pw_prevnext w ∧
      pw_freed w' = pw_freed w).
Proof.
  intros (Hw&Hn&Hlt) Hb Hd Hf Hoom Hdepth IH. unfold add_red_parent. go.
  eapply returns_Ret_at; [by eapply uncle_ok|]. go.
  eapply returns_Ret_at; [by eapply grandparent_ok|]. go.
  destruct c as [|f2 c].
  { cbn [top]. unfold IS_RED. rewrite Z.eqb_refl. go. split; [done|].
    eexists. split; [done|]. split; [by apply rp_red_root|done]. }
  assert (Hg0 : frame_addr f2 ≠ 0 ∧ ∃ par, shape (pw_nodes w) par (fsib f2)).
  { destruct Hw as [_ (_&Hc&_)%holds_plug]. destruct f1, f2; simpl in Hc; destruct_and!; simpl; eauto. }
  destruct Hg0 as (Hg0&par&Hu).
  eapply returns_Ret_at; [by eapply is_red_ok|]. cbn [top].
  destruct (decide (tcolor (fsib f2) = RED)) as [Hr|Hr].
  - rewrite bool_decide_eq_true_2 by done. go.
    eapply returns_load_pn.
    { destruct Hw as [_ [Hp _]%holds_focus]. exact Hp. }
    cbn [pn_parent node_of top]. rewrite (proj2 (Z.eqb_neq _ 0)) by done.
    eapply (recolor_ok cb fr f1 f2 c p d l r); [done|]. intros w1 Hw1 Hr1.
    pose proof (flat_recolored f1 f2 (T p d l r)) as Hflat.
    destruct (recolored_node f2 (fill (fpaint BLACK f1) (T p d l r))) as (k&v&a&b&Hnode).
    rewrite Hnode in Hw1, Hflat. pose proof Hw1 as [_ [Hg _]%holds_focus]. go.
    eapply returns_load_key; [done|]. go. eapply returns_load_pn; [done|]. go. fields.
    assert (Hflat' : flat (plug c (T (frame_addr f2) (k, v, RED) a b)) =
                     flat (plug (f1 :: f2 :: c) (T p d l r))).
    { rewrite !plug_fill, !flat_plug. by rewrite Hflat. }
    assert (Hb1 : bst (plug c (T (frame_addr f2) (k, v, RED) a b))).
    { unfold PtreeSearch.bst, entries in *. by rewrite Hflat'. }
    assert (Hk : ok k) by (eapply bst_subtree in Hb1 as [Hb1 _]; by eapply entries_root_ok).
    unfold rest in Hr1. injection Hr1 as Hnx Hal Hfd Hpn.
    assert (Hloc : locate k [] (plug c (T (frame_addr f2) (k, v, RED) a b)) =
                   (c, T (frame_addr f2) (k, v, RED) a b)).
    { apply locate_there; [|by apply sign_refl]. eapply bst_path_directs; [done..|by apply sign_refl]. }
    eapply returns_mono.
    { apply (IH k v (plug c (T (frame_addr f2) (k, v, RED) a b)) w1); [|done|done|by rewrite Hal|].
      - split; [done|]. rewrite Hnx, Hflat'. done.
      - rewrite Hloc. simpl in *. lia. }
    intros [rc' w2] (t'&Hw2&Hadd). go. split; [done|]. exists t'.
    destruct Hadd as (Hal'&Hpn'&Hadd). rewrite Hloc in Hadd. cbn [fst snd] in Hadd.
    split_and!; [done| |by rewrite <- Hal|congruence|].
    + destruct Hadd as [(Ho&_&->&_)|(q&Hq&_&Hrep&_)].
      * rewrite <- Hnode. by apply rp_recolor_oom.
      * apply (rp_recolor oom f1 f2 c _ q); try done. rewrite Hnode. exact Hrep.
    + destruct Hadd as [(_&_&_&->)|(q&_&_&_&->)]; [done|].
      unfold put_freed, released. simpl. by rewrite Z.eqb_refl, app_nil_r.
  - rewrite bool_decide_eq_false_2 by done. rewrite (proj2 (Z.eqb_neq _ 0)) by done.
    eapply returns_mono; [eapply (add_rotate_ok cb fr oom); try done|].
    { by destruct (tcolor (fsib f2)). }
    intros [a w'] (->&Hrest&t'&Ht'&Hflat&Hw'). split; [done|]. exists t'.
    injection Hrest as Hnx Hal Hfd Hpn.
    split_and!; [|done|by rewrite Hal|done|done]. split; [done|]. rewrite Hnx. split; [done|].
    by rewrite Hflat.
Qed.

Lemma put_bst k v p t c s :
  bst t → ok k → locate k [] t = (c, s) →
  bst (plug c (put_at p k v s)) ∧ entries (plug c (put_at p k v s)) = dict_insert k v (entries t).
Proof.
  intros Hb Hk Hloc. pose proof (locate_ok k [] t I) as Hl. rewrite Hloc in Hl.
  destruct Hl as (Hplug&Hdir&Hpl). simpl in Hplug. subst t.
  assert (entries (plug c (put_at p k v s)) = dict_insert k v (entries (plug c s))) as Hins.
  { destruct s as [|q d l r]; [by apply insert_place|].
    by apply (insert_place k Hk c (T q d l r) v p d.2 l r). }
  split; [|done]. unfold PtreeSearch.bst. rewrite Hins. by apply dict_insert_dict.
Qed.
Lemma put_fresh k v t c s n :
  Forall (λ p, p < n) (flat t).*1 → locate k [] t = (c, s) →
  Forall (λ p, p < n + 1) (flat (plug c (put_at n k v s))).*1.
Proof.
  intros Hlt Hloc. pose proof (locate_ok k [] t I) as Hl. rewrite Hloc in Hl.
  destruct Hl as (Hplug&_&_). simpl in Hplug. subst t.
  assert (Hlt' : Forall (λ p, p < n + 1) (flat (plug c s)).*1).
  { eapply Forall_impl; [exact Hlt|]. simpl. lia. }
  clear Hlt. rewrite flat_plug, !fmap_app, !Forall_app in *. destruct Hlt' as (?&Hs&?).
  split_and!; [done| |done]. destruct s as [|q d l r]; cbn [put_at flat] in *.
  - repeat constructor; simpl; lia.
  - rewrite !fmap_app, !fmap_cons, !Forall_app, !Forall_cons in *. simpl in *. destruct_and!.
    split_and!; try done. lia.
Qed.
Lemma put_root k v p c s t (w w' : pworld rbt_color_t) :
  tree_in cb fr t w → pw_tree w' = pw_tree w → locate k [] t = (c, s) → top c ≠ 0 →
  pw_tree w' = Some (mk_ptree (root (plug c (put_at p k v s))) cb fr).
Proof.
  intros [Ht _] -> Hloc Hc. rewrite Ht. pose proof (locate_ok k [] t I) as Hl. rewrite Hloc in Hl.
  destruct Hl as (Hplug&_&_). simpl in Hplug. subst t. by rewrite (root_plug_any c s (put_at p k v s)).
Qed.

Lemma is_black_frame f c (t : rtree) (w : pworld rbt_color_t) :
  path_shape (pw_nodes w) (f :: c) (root t) →
  IS_BLACK (frame_addr f) w = Ret (bool_decide (fcolor f = BLACK), w).
Proof.
  intros Hc. apply returns_exact.
  unfold IS_BLACK. destruct f; simpl in *; destruct_and!;
    (rewrite (proj2 (Z.eqb_neq _ 0)) by done); run; done.
Qed.

(** The node becomes the root. *)
Lemma paint_root_ok p k v x (l r : rtree) q (rc : Z) w :
  holds (pw_nodes w) (T p (k, v, x) l r) → pw_tree w = Some (mk_ptree q cb fr) →
  returns ((_ ← PAINT_BLACK p; _ ← set_root p; mret rc) w) (λ '(a, w'),
    a = rc ∧ tree_in cb fr (T p (k, v, BLACK) l r) w' ∧ rest w' = rest w).
Proof.
  intros Hh Ht. pose proof (holds_focus _ [] p (k, v, x) l r Hh) as [Hp Hp0].
  unfold PAINT_BLACK. go. rewrite (proj2 (Z.eqb_neq p 0)) by done. run.
  split_and!; [done| |done]. split; [done|]. by apply (holds_extra _ [] p (k, v, x)).
Qed.

Lemma add_finish_ok oom depth c p k v x (l r : rtree) q rc w :
  holds (pw_nodes w) (plug c (T p (k, v, x) l r)) → bst (plug c (T p (k, v, x) l r)) →
  pw_tree w = Some (mk_ptree q cb fr) → (top c ≠ 0 → q = root (plug c (T p (k, v, x) l r))) →
  0 < pw_next w → Forall (λ z, z < pw_next w) (flat (plug c (T p (k, v, x) l r))).*1 →
  (x = BLACK → rc = 1) → (false ∈ pw_alloc w → oom) → (length c < S depth)%nat →
  (∀ k v t w, tree_world t w → bst t → ok k → (false ∈ pw_alloc w → oom) →
     (length (locate k [] t).1 < depth)%nat →
     returns (rbt_add memcmp depth k v w) (λ '(rc, w'), ∃ t', tree_world t' w' ∧ added oom k v t w rc t' w')) →
  returns (add_finish (rbt_add memcmp depth) p rc w) (λ '(a, w'), a = rc ∧
    ∃ t', tree_world t' w' ∧ repaired oom c (T p (k, v, x) l r) t' ∧
      (false ∈ pw_alloc w' → false ∈ pw_alloc w) ∧ pw_prevnext w' = pw_prevnext w ∧
      pw_freed w' = pw_freed w).
Proof.
  intros Hh Hb Ht Hq Hn Hlt Hrc Hoom Hdepth IH. pose proof Hh as (Hs&Hc&_)%holds_plug.
  assert (Hdone : ∀ w' : pworld rbt_color_t, pw_tree w' = Some (mk_ptree (root (plug c (T p (k, v, x) l r))) cb fr) →
    pw_nodes w' = pw_nodes w → rest w' = rest w →
    repaired oom c (T p (k, v, x) l r) (plug c (T p (k, v, x) l r)) →
    ∃ t', tree_world t' w' ∧ repaired oom c (T p (k, v, x) l r) t' ∧
      (false ∈ pw_alloc w' → false ∈ pw_alloc w) ∧ pw_prevnext w' = pw_prevnext w ∧
      pw_freed w' = pw_freed w).
  { intros w' Htr' Hnd' Hrest' Hrep. injection Hrest' as Hnx' Hal' Hfd' Hpn'.
    eexists. split; [|split_and!; [done|by rewrite Hal'|done|done]].
    split_and!; [split; [done|by rewrite Hnd']|lia|by rewrite Hnx']. }
  unfold add_finish. go.
  eapply (returns_Ret_at (IS_BLACK p)); [by apply (is_black_ok w (top c) (T p (k, v, x) l r))|]. go.
  eapply returns_load_pn; [by apply Hs|]. cbn [pn_parent node_of tcolor snd].
  assert (Hf0 : c = [] ∨ ∃ f c', c = f :: c' ∧ top c ≠ 0 ∧ q = root (plug c (T p (k, v, x) l r))).
  { destruct c as [|f c]; [by left|right]. assert (top (f :: c) ≠ 0) by (destruct f; simpl in Hc; by destruct_and!).
    eauto 6. }
  destruct (decide (x = BLACK)) as [Hx|Hx];
    [rewrite bool_decide_eq_true_2 by done|rewrite bool_decide_eq_false_2 by done; assert (x = RED) as -> by (by destruct x)].
  - rewrite (Hrc Hx) in *. destruct Hf0 as [->|(f&c'&->&Hc0&->)].
    + cbn [top]. rewrite Z.eqb_refl. go. eapply returns_set_root; [done|]. go. split; [done|].
      apply Hdone; [done..|]. by apply rp_black_node.
    + rewrite (proj2 (Z.eqb_neq _ 0)) by done. go. split; [done|]. apply Hdone; [done..|]. by apply rp_black_node.
  - destruct Hf0 as [->|(f&c'&->&Hc0&->)].
    + cbn [top]. rewrite Z.eqb_refl. eapply returns_mono; [by eapply paint_root_ok|].
      intros [a w'] (->&Hw'&Hrest'). injection Hrest' as Hnx' Hal' Hfd' Hpn'.
      split; [done|]. exists (T p (k, v, BLACK) l r). cbn [plug] in Hlt.
      split; [split_and!; [done|lia|by rewrite Hnx']|].
      split_and!; [by apply (rp_root oom p (k, v, RED))|by rewrite Hal'|done|done].
    + rewrite (proj2 (Z.eqb_neq _ 0)) by done. go.
      eapply (returns_Ret_at (IS_BLACK _)); [by apply (is_black_frame f c' (T p (k, v, RED) l r))|]. cbv beta iota.
      destruct (decide (fcolor f = BLACK)) as [Hf|Hf].
      * rewrite bool_decide_eq_true_2 by done. go. split; [done|]. apply Hdone; [done..|]. by apply rp_black_parent.
      * rewrite bool_decide_eq_false_2 by done.
        apply (add_red_parent_ok oom depth f c' p (k, v, RED) l r rc w); try done.
        by destruct (fcolor f).
Qed.

Lemma add_ok oom depth k v t w :
  tree_world t w → bst t → ok k → (false ∈ pw_alloc w → oom) →
  (length (locate k [] t).1 < depth)%nat →
  returns (rbt_add memcmp depth k v w) (λ '(rc, w'), ∃ t', tree_world t' w' ∧ added oom k v t w rc t' w').
Proof.
  revert k v t w. induction depth as [|depth IH]; intros k v t w Hw Hb Hk Hoom Hdepth; [lia|].
  cbn [rbt_add]. go. eapply returns_mono; [by apply (create_node_ok t)|].
  intros [p w1] [Hal1 [(->&Hfail)|(Hp&Hnx&Htr&Hbes&Hnode&Hfd1&Hpn1)]].
  { rewrite Z.eqb_refl. go. destruct Hfail as (Hw1&Hin&Hfd&Hpn). exists t. split; [done|].
    split_and!; [done|done|]. left. split_and!; [by apply Hoom|done..]. }
  pose proof Hw as ([Ht Hh]&Hn0&Hlt). rewrite <- Htr in Ht.
  assert (Hp0 : p ≠ 0) by lia. rewrite (proj2 (Z.eqb_neq p 0)) by done. go.
  eapply returns_load_ptree; [done|]. go. cbn [pt_root].
  destruct (locate k [] t) as [c s] eqn:Hloc. cbn [fst] in Hdepth.
  destruct (put_bst k v p t c s Hb Hk Hloc) as [Hb' _].
  pose proof (put_fresh k v t c s (pw_next w) Hlt Hloc) as Hlt'. rewrite <- Hp, <- Hnx in Hlt'.
  destruct (Z.eqb_spec (root t) 0) as [E0|E0].
  - destruct t as [|q e tl tr]; [|by destruct Hh as ((?&_)&_)]. injection Hloc as <- <-.
    eapply returns_mono.
    { eapply (paint_root_ok p k v RED E E); [|done]. destruct Hbes as (_&Hnd&Hdom). by split_and!. }
    intros [a w'] (->&Hw'&Hrest'). injection Hrest' as Hnx' Hal' Hfd' Hpn'.
    exists (T p (k, v, BLACK) E E). split; [split_and!; [done|lia|by rewrite Hnx']|].
    split_and!; [by rewrite Hal'|congruence|]. right. exists p.
    split_and!; [done|done|by apply (rp_root oom p (k, v, RED))|]. simpl. rewrite app_nil_r. congruence.
  - pose proof (bst_subtree [] _ Hb) as [Hoks _]. go. eapply returns_mono.
    { eapply (add_internal_ok memcmp cb fr (S depth) [] t p k v); [done|done|done|done|by intros ->|done|done|].
      rewrite Hloc. simpl. lia. }
    intros [rc w2] Hw2. rewrite Hloc in Hw2. destruct Hw2 as (->&Htr2&Hh2&Hrest).
    injection Hrest as Hnx2 Hal2 Hfd2 Hpn2.
    assert (Hput : ∃ x l r, put_at p k v s = T p (k, v, x) l r ∧ (x = BLACK → put_rc s = 1)).
    { destruct s as [|z [z' y] l r]; simpl; [by exists RED, E, E|by exists y, l, r]. }
    destruct Hput as (x&l&r&Hput&Hrc). rewrite Hput in *.
    eapply returns_mono.
    { apply (add_finish_ok oom depth c p k v x l r (root t) (put_rc s) w2); try done.
      - congruence.
      - intros Hc. rewrite <- Hput. pose proof (locate_ok k [] t I) as Hl. rewrite Hloc in Hl.
        destruct Hl as (Hl&_&_). simpl in Hl. rewrite <- Hl. by apply root_plug_any.
      - lia.
      - by rewrite Hnx2.
      - rewrite Hal2. auto. }
    intros [a w3] (->&t'&Hw3&Hrep&Hal3&Hpn3&Hfd3). exists t'. split; [done|].
    split_and!; [intros Hin3; apply Hal3 in Hin3; rewrite Hal2 in Hin3; auto|congruence|].
    right. exists p. rewrite Hloc. cbn [fst snd]. rewrite Hput. split_and!; [done..|congruence].
Qed.
End insert.
