(* ===== verification/RbtreeColors.v ===== *)
(** * Red-black trees: the colours

    A red-black tree has a black root, no red node with a red child, and the
    same number of black nodes on every path down.  Insertion keeps it so, and
    its height is logarithmic. *)

From S2P Require Import Prelude Comparators SortedDict Ptree PtreeSearch.
From S2P Require Import Rbtree RbtreeShape RbtreeAdd RbtreeRepair RbtreeInsert.

(** [n] black nodes on every path from the root to a leaf. *)
Fixpoint black_height (n : nat) (t : rtree) : Prop :=
  match t with
  | E => n = 0%nat
  | T _ d l r =>
      match d.2 with
      | RBTREE_COLOR_RED => black_height n l ∧ black_height n r
      | RBTREE_COLOR_BLACK => match n with O => False | S n => black_height n l ∧ black_height n r end
      end
  end.
Fixpoint no_red_red (t : rtree) : Prop :=
  match t with
  | E => True
  | T _ d l r =>
      (d.2 = RED → tcolor l = BLACK ∧ tcolor r = BLACK) ∧ no_red_red l ∧ no_red_red r
  end.
Definition red_black (t : rtree) : Prop :=
  tcolor t = BLACK ∧ no_red_red t ∧ ∃ n, black_height n t.

(** ** The same on a path *)

Definition parent_black (c : list (frame rbt_color_t)) : Prop :=
  match c with [] => True | f :: _ => fcolor f = BLACK end.
Fixpoint path_no_red_red (c : list (frame rbt_color_t)) : Prop :=
  match c with
  | [] => True
  | f :: c =>
      no_red_red (fsib f) ∧ (fcolor f = RED → tcolor (fsib f) = BLACK ∧ parent_black c) ∧
      path_no_red_red c
  end.
(** [n] below the path, [m] from its top. *)
Fixpoint path_height (c : list (frame rbt_color_t)) (n m : nat) : Prop :=
  match c with
  | [] => n = m
  | f :: c =>
      black_height n (fsib f) ∧
      path_height c (match fcolor f with RBTREE_COLOR_RED => n | RBTREE_COLOR_BLACK => S n end) m
  end.
Fixpoint top_black (c : list (frame rbt_color_t)) : Prop :=
  match c with [] => True | f :: c => match c with [] => fcolor f = BLACK | _ => top_black c end end.

Lemma no_red_red_plug c t :
  no_red_red (plug c t) ↔
    no_red_red t ∧ path_no_red_red c ∧ (tcolor t = RED → parent_black c).
Proof.
  revert t. induction c as [|f c IH]; intros t; [simpl; tauto|].
  rewrite plug_fill, IH. destruct f as [p d s|p d s]; simpl; destruct d.2, (tcolor t); simpl; clear IH;
    intuition congruence.
Qed.
Lemma black_height_plug c t m :
  black_height m (plug c t) ↔ ∃ n, black_height n t ∧ path_height c n m.
Proof.
  revert t. induction c as [|f c IH]; intros t.
  { simpl. split; [eauto|]. by intros (n&?&->). }
  rewrite plug_fill, IH. destruct f as [p d s|p d s]; simpl; destruct d.2; clear IH; split.
  - intros (n&[? ?]&?). eauto.
  - intros (n&?&?&?). eauto.
  - intros ([|n]&?&?); [done|]. destruct_and!. eauto.
  - intros (n&?&?&?). by exists (S n).
  - intros (n&[? ?]&?). eauto.
  - intros (n&?&?&?). eauto.
  - intros ([|n]&?&?); [done|]. destruct_and!. eauto.
  - intros (n&?&?&?). by exists (S n).
Qed.
Lemma top_black_plug c t : c ≠ [] → tcolor (plug c t) = BLACK ↔ top_black c.
Proof.
  revert t. induction c as [|f c IH]; intros t Hc; [done|]. rewrite plug_fill.
  destruct c as [|f2 c]; [by destruct f|]. rewrite IH by done. done.
Qed.

(** ** Insertion *)

Lemma red_black_plug c s n m :
  no_red_red s → black_height n s → tcolor s = BLACK ∨ (c ≠ [] ∧ parent_black c) →
  path_no_red_red c → path_height c n m → top_black c → red_black (plug c s).
Proof.
  intros Hrr Hbh Hcol Hpr Hph Htop. split_and!.
  - destruct c as [|f c]; [by destruct Hcol as [?|[? _]]|]. by apply top_black_plug.
  - apply no_red_red_plug. split_and!; [done|done|]. intros Hred.
    destruct Hcol as [Hb|[_ Hb]]; [congruence|done].
  - exists m. apply black_height_plug. eauto.
Qed.
Lemma black_height_paint n t :
  black_height n t → tcolor t = RED → black_height (S n) (paint BLACK t).
Proof. destruct t as [|p [d []] l r]; simpl; done. Qed.
Lemma no_red_red_paint t : no_red_red t → no_red_red (paint BLACK t) ∧ tcolor (paint BLACK t) = BLACK.
Proof. destruct t; simpl; intuition congruence. Qed.

Lemma repaired_red_black c t t' n m :
  repaired False c t t' → tcolor t = RED → no_red_red t → black_height n t →
  path_no_red_red c → path_height c n m → top_black c → red_black t'.
Proof.
  intros Hrep. revert n m.
  induction Hrep as [c t Hb|p d l r Hd|f c t _ Hf|f t _ Hf|f1 f2 c t p t' _ Hf Hu Hrep IH|
    |p dp s g dg u c t _ Hp Hu|p dp s g dg u c t _ Hp Hu|p dp s g dg u c x dx l r Hx Hp Hu
    |p dp s g dg u c x dx l r Hx Hp Hu]; intros n m Ht Hrr Hbh Hpr Hph Htop; try done; try congruence.
  - (* the root is painted *)
    simpl in *. rewrite Hd in Hbh. split_and!; [done|naive_solver|]. exists (S n). simpl. done.
  - apply (red_black_plug _ _ n m); try done. by right.
  - (* recolouring goes on from the grandparent *)
    assert (Hf2 : fcolor f2 = BLACK) by (by apply Hpr).
    destruct Hpr as (Hs1&Hb1&Hs2&_&Hpr). specialize (Hb1 Hf) as [Hb1 _].
    simpl in Hph. rewrite Hf, Hf2 in Hph. destruct Hph as (Hh1&Hh2&Hph).
    pose proof (no_red_red_paint _ Hs2) as [Hu1 Hu2]. pose proof (black_height_paint _ _ Hh2 Hu) as Hu3.
    apply (IH (S n) m); [..|done| |by destruct c]; try done; destruct f1, f2; simpl in *; naive_solver.
  - destruct Hpr as (Hs1&Hb1&Hs2&_&Hpr). simpl in Hph, Hb1. specialize (Hb1 Hp) as [Hb1 Hg]. simpl in *.
    rewrite Hp, Hg in Hph. destruct Hph as (Hh1&Hh2&Hph).
    apply (red_black_plug _ _ (S n) m); simpl; [naive_solver|naive_solver|by left|done|done|by destruct c].
  - destruct Hpr as (Hs1&Hb1&Hs2&_&Hpr). simpl in Hph, Hb1. specialize (Hb1 Hp) as [Hb1 Hg]. simpl in *.
    rewrite Hp, Hg in Hph. destruct Hph as (Hh1&Hh2&Hph).
    apply (red_black_plug _ _ (S n) m); simpl; [naive_solver|naive_solver|by left|done|done|by destruct c].
  - destruct Hpr as (Hs1&Hb1&Hs2&_&Hpr). simpl in Hph, Hb1. specialize (Hb1 Hp) as [Hb1 Hg]. simpl in *.
    rewrite Hp, Hg in Hph. rewrite Hx in Hbh. destruct Hph as (Hh1&Hh2&Hph).
    apply (red_black_plug _ _ (S n) m); simpl; rewrite ?Hp; [naive_solver|naive_solver|by left|done|done|by destruct c].
  - destruct Hpr as (Hs1&Hb1&Hs2&_&Hpr). simpl in Hph, Hb1. specialize (Hb1 Hp) as [Hb1 Hg]. simpl in *.
    rewrite Hp, Hg in Hph. rewrite Hx in Hbh. destruct Hph as (Hh1&Hh2&Hph).
    apply (red_black_plug _ _ (S n) m); simpl; rewrite ?Hp; [naive_solver|naive_solver|by left|done|done|by destruct c].
Qed.

(** ** The height *)

Lemma black_height_size n t : black_height n t → (2 ^ n ≤ length (entries t) + 1)%nat.
Proof.
  revert n. induction t as [|p [d x] l IHl r IHr]; intros n; [by intros ->|].
  unfold entries in *. cbn [flat]. rewrite fmap_app, fmap_cons, length_app, length_cons. simpl.
  destruct x; [|destruct n as [|n]; [done|]]; intros [Hl%IHl Hr%IHr]; simpl in *; lia.
Qed.
Lemma black_height_height n t :
  black_height n t → no_red_red t →
  (height t ≤ 2 * n + match tcolor t with RBTREE_COLOR_RED => 1 | RBTREE_COLOR_BLACK => 0 end)%nat.
Proof.
  revert n. induction t as [|p [d x] l IHl r IHr]; intros n; [simpl; lia|]. simpl.
  destruct x; [|destruct n as [|n]; [done|]]; intros [Hl Hr] (Hcol&Hnl&Hnr);
    specialize (IHl _ Hl Hnl); specialize (IHr _ Hr Hnr).
  - destruct (Hcol eq_refl) as [Hcl Hcr]. rewrite Hcl in IHl. rewrite Hcr in IHr. lia.
  - destruct (tcolor l), (tcolor r); lia.
Qed.
(** [2 ^ (height / 2)] is at most the number of entries and one. *)
Lemma red_black_height t :
  red_black t → (height t ≤ 2 * Nat.log2 (length (entries t) + 1))%nat.
Proof.
  intros (Hc&Hrr&n&Hbh). pose proof (black_height_height n t Hbh Hrr) as Hh. rewrite Hc in Hh.
  pose proof (black_height_size n t Hbh) as Hs. apply Nat.log2_le_pow2 in Hs; lia.
Qed.

(** ** [rbt_add] on a red-black tree *)

Section insert.
Context (memcmp : key → key → Z) (cb : option libhl_cmp_callback_t) (fr : bool) {ok : key → Prop}.
Context `{!Comparator (rbt_compare_keys memcmp cb) ok}.
Abbreviation bst := (bst (rbt_compare_keys memcmp cb) ok).

(** A red-black search tree, in a world where allocations succeed. *)
Definition rb_world (t : rtree) (w : pworld rbt_color_t) : Prop :=
  tree_world cb fr t w ∧ bst t ∧ red_black t ∧ false ∉ pw_alloc w.

Lemma place_find k (t : rtree) c s :
  bst t → ok k → locate k [] t = (c, s) →
  dict_find k (entries t) = match s with E => None | T _ d _ _ => Some d.1.2 end.
Proof.
  intros Hb Hk Hloc. pose proof (locate_ok k [] t I) as Hl. rewrite Hloc in Hl.
  destruct Hl as (Hplug&Hdir&Hpl). simpl in Hplug. subst t. by apply find_place.
Qed.

Lemma put_red_black k v p t c s t' :
  red_black t → locate k [] t = (c, s) → repaired False c (put_at p k v s) t' → red_black t'.
Proof.
  intros (Hc&Hrr&m&Hbh) Hloc Hrep. pose proof (locate_ok k [] t I) as Hl. rewrite Hloc in Hl.
  destruct Hl as (Hplug&_&_). simpl in Hplug. subst t.
  pose proof Hrr as (Hrs&Hpr&Hpb)%no_red_red_plug. pose proof Hbh as (n&Hbs&Hph)%black_height_plug.
  assert (Htop : c ≠ [] → top_black c) by (intros; by eapply top_black_plug).
  destruct (decide (tcolor (put_at p k v s) = RED)) as [Hred|Hblack].
  - eapply repaired_red_black; try done.
    + destruct s as [|q [d x] l r]; simpl in *; intuition congruence.
    + destruct s as [|q [d x] l r]; simpl in *; [by subst n|done].
    + destruct c; [done|by apply Htop].
  - assert (t' = plug c (put_at p k v s)) as ->.
    { destruct Hrep; try done; try (by destruct Hblack).
      all: try (destruct Hblack; by rewrite <- ?H). }
    apply (red_black_plug _ _ n m); try done.
    + destruct s as [|q [d x] l r]; simpl in *; [done|]. intuition congruence.
    + destruct s as [|q [d x] l r]; simpl in *; done.
    + left. by destruct (tcolor (put_at p k v s)).
    + destruct c; [done|by apply Htop].
Qed.

Lemma add_red_black depth k v t w :
  rb_world t w → ok k → (height t < depth)%nat →
  returns (rbt_add memcmp depth k v w) (λ '(rc, w'), ∃ t',
    rb_world t' w' ∧ entries t' = dict_insert k v (entries t) ∧
    rc = match dict_find k (entries t) with Some _ => 1 | None => 0 end ∧
    pw_freed w' = pw_freed w ++ match dict_find k (entries t) with Some old => released fr old v | None => [] end ∧
    pw_prevnext w' = pw_prevnext w).
Proof.
  intros (Hw&Hb&Hrb&Hal) Hk Hd. destruct (locate k [] t) as [c s] eqn:Hloc.
  pose proof (locate_height k [] t) as Hlh. rewrite Hloc in Hlh. simpl in Hlh.
  eapply returns_mono.
  { apply (add_ok memcmp cb fr False depth k v t w); try done. rewrite Hloc. simpl. lia. }
  intros [rc w'] (t'&Hw'&Hal'&Hpn'&[(?&_)|(p&Hp&->&Hrep&Hfd)]); [done|].
  rewrite Hloc in *. cbn [fst snd] in *.
  destruct (put_bst memcmp cb k v p t c s Hb Hk Hloc) as [Hb' Hent].
  pose proof (repaired_entries _ _ _ _ Hrep) as Hent'. rewrite (place_find k t c s Hb Hk Hloc).
  exists t'. split_and!; [|by rewrite Hent'|by destruct s|rewrite Hfd; by destruct s|done].
  split_and!; [done| |by eapply put_red_black|auto].
  unfold PtreeSearch.bst in *. by rewrite Hent'.
Qed.
End insert.
