(* ===== verification/RbtreeRemove.v ===== *)
(** * Red-black trees: removal

    [rbt_remove] does not repair the tree in general.  It deletes the entry
    and leaves a search tree when the node is a leaf or has one child, with a
    parent and no black node below a removed black one, or when it has two and
    its neighbour is a child or has none. *)

From S2P Require Import Prelude Comparators SortedDict Ptree PtreeSearch.
From S2P Require Import Rbtree RbtreeShape RbtreeAdd RbtreeRepair RbtreeInsert RbtreeColors.

Section remove.
Context (cb : option libhl_cmp_callback_t) (fr : bool).

Definition dropped (v : bool) (value : Z) : list Z := if v then [] else if fr then [value] else [].

Lemma returns_release (v : bool) value r w Q :
  pw_tree w = Some (mk_ptree r cb fr) →
  Q (if v then Some value else None, give (dropped v value) w) → returns (release_value v value w) Q.
Proof.
  intros Ht HQ. unfold release_value, dropped in *. destruct v; [rewrite give_nil in HQ; by go|].
  go. eapply returns_load_ptree; [done|]. go. apply returns_free_if. by go.
Qed.

(** What a removal that succeeds does, with [t'] the tree left. *)
Definition removed (v : bool) (value : Z) (t' : rtree) (w : pworld rbt_color_t) (r : Z * option Z)
    (w' : pworld rbt_color_t) : Prop :=
  r = (0, if v then Some value else None) ∧ tree_in cb fr t' w' ∧
  pw_next w' = pw_next w ∧ (false ∈ pw_alloc w' → false ∈ pw_alloc w) ∧
  filter (λ x, x ≠ 0) (pw_freed w') = filter (λ x, x ≠ 0) (pw_freed w ++ dropped v value).

Lemma remove_leaf_ok c p d v w :
  c ≠ [] → tree_in cb fr (plug c (T p d E E)) w →
  returns (remove_leaf p v w) (λ '(r, w'), removed v d.1.2 (plug c E) w r w').
Proof.
  intros Hne [Ht Hh]. pose proof (holds_null _ _ Hh) as H0. pose proof (plug_null _ _ _ Hh) as Hz.
  apply holds_plug in Hh as (Hs&Hc&Hnd&Hdom). cbn [shape root] in Hs, Hc. destruct Hs as (Hp0&Hp&_).
  assert (Hroot : root (plug c (T p d E E)) = root (plug c E)).
  { apply root_plug_any. by eapply path_top. }
  unfold remove_leaf. run.
  (eapply (returns_relink_if c p 0); [by frames|by no_null|]). go.
  assert (Hrel : ∀ w1 Q, pw_tree w1 = pw_tree w →
    (∀ l, filter (λ x, x ≠ 0) l = filter (λ x, x ≠ 0) (dropped v d.1.2) →
       Q (if v then Some d.1.2 else None, give l w1)) →
    returns ((if v || negb (d.1.2 =? 0) then release_value v d.1.2 else mret None) w1) Q).
  { intros w1 Q Ht1 HQ. destruct (v || negb (d.1.2 =? 0)) eqn:Ev.
    - eapply returns_release; [by rewrite Ht1|]. by apply HQ.
    - apply orb_false_iff in Ev as [-> Ev]. apply negb_false_iff, Z.eqb_eq in Ev.
      go. rewrite <- (give_nil w1). apply HQ. unfold dropped. rewrite Ev. by destruct fr. }
  apply Hrel; [done|]. intros l Hl. run.
  split_and!; [done| |done|done|fields; by rewrite !filter_app, Hl].
  split; [by rewrite <- Hroot|]. rebuild.
Qed.

(** Tests of known colours. *)
Ltac colors :=
  repeat first [rewrite bool_decide_eq_true_2 by done | rewrite bool_decide_eq_false_2 by done].

(** The child takes the place of the node, painted black if that was black. *)
Definition child_up (d : key * Z * rbt_color_t) (t : rtree) : rtree :=
  match d.2 with RBTREE_COLOR_RED => t | RBTREE_COLOR_BLACK => paint BLACK t end.

Lemma remove_one_child_ok depth c p d q e (a b l r : rtree) v w :
  c ≠ [] → tree_in cb fr (plug c (T p d l r)) w →
  (l = T q e a b ∧ r = E) ∨ (l = E ∧ r = T q e a b) → d.2 = RED ∨ e.2 = RED →
  returns (remove_one_child depth p v w) (λ '(res, w'),
    removed v d.1.2 (plug c (child_up d (T q e a b))) w res w').
Proof.
  intros Hne [Ht Hh] Hlr Hcol. pose proof (holds_null _ _ Hh) as H0. pose proof (plug_null _ _ _ Hh) as Hz.
  apply holds_plug in Hh as (Hs&Hc&Hnd&Hdom). cbn [shape root] in Hs, Hc. destruct Hs as (Hp0&Hp&Hl&Hr).
  assert (Hroot : root (plug c (T p d l r)) = root (plug c (child_up d (T q e a b)))).
  { apply root_plug_any. by eapply path_top. }
  rewrite Hroot in Ht. clear Hroot. unfold remove_one_child.
  destruct Hlr as [[-> ->]|[-> ->]]; cbn [shape root] in *; destruct_and!; run;
    (eapply (returns_relink_if c p q); [by frames|by no_null|]); run;
    unfold IS_BLACK, IS_RED, PAINT_BLACK; run; destruct d as [dk []], e as [ek []];
    cbn [is_color pn_extra snd] in *; unfold is_color; fields; colors; run; colors; run;
    try (destruct Hcol; discriminate);
    (eapply returns_release; [fields; exact Ht|]); run;
    (split_and!; [done| |done|done|fields; by rewrite !filter_app]); (split; [done|]);
    cbn [child_up paint snd fst]; rebuild.
Qed.
End remove.
