(* ===== verification/RbtreeInner.v ===== *)
(** * Red-black trees: removal of a node with two children

    The node takes the item of its neighbour, which leaves the tree.  The
    child of the neighbour must be re-attached to the right parent: it is when
    the neighbour is a child of the node, or has no child. *)

From S2P Require Import Prelude Comparators SortedDict Ptree PtreeSearch.
From S2P Require Import Rbtree RbtreeShape RbtreeAdd RbtreeRepair RbtreeInsert RbtreeColors RbtreeRemove.

Section inner.
Context (cb : option libhl_cmp_callback_t) (fr : bool).

(** The links of the neighbour [n], below [c]: the store that [unlink_neighbour]
    leaves, and that of [holds_bypass]. *)
Definition bypassed (c : list (frame rbt_color_t)) (n : Z) (t : rtree) (N : gmap Z (pnode rbt_color_t)) :=
  alter (with_parent (top c)) (root t) (alter (relink n (root t)) (top c) N).

Lemma unlink_child (isprev : bool) p d s c n dn (a : rtree) m nn w :
  let c' := (if isprev then FL p d s else FR p d s) :: c in
  let l := if isprev then a else E in let r := if isprev then E else a in
  holds (pw_nodes w) (plug c' (T n dn l r)) →
  (if isprev then pn_left m else pn_right m) = n →
  nn = node_of dn (root l) (root r) p →
  unlink_neighbour isprev p n m nn w = Ret (tt, put_nodes (bypassed c' n a (pw_nodes w)) w).
Proof.
  intros c' l r Hh Hm ->. pose proof (holds_null _ _ Hh) as H0. pose proof (plug_null _ _ _ Hh) as Hz.
  apply holds_plug in Hh as (Hs&Hc&Hnd&Hdom). subst c' l r. apply returns_exact.
  unfold unlink_neighbour, bypassed. destruct isprev; cbn [shape path_shape root top frame_addr] in *;
    destruct_and!; rewrite Hm; run.
  - rewrite <- (relink_left _ p _ n (root a)) by (try eassumption; done).
    eapply returns_reparent; [by frames|by no_null|]. done.
  - rewrite <- (relink_right _ p _ n (root a)) by (try eassumption; fields; differ).
    eapply returns_reparent; [by frames|by no_null|]. done.
Qed.
Lemma unlink_deep (isprev : bool) p q d s c n dn m nn w :
  let c' := (if isprev then FR q d s else FL q d s) :: c in
  holds (pw_nodes w) (plug c' (T n dn E E)) →
  (if isprev then pn_left m else pn_right m) ≠ n →
  nn = node_of dn 0 0 q →
  unlink_neighbour isprev p n m nn w = Ret (tt, put_nodes (bypassed c' n E (pw_nodes w)) w).
Proof.
  intros c' Hh Hm ->. pose proof (holds_null _ _ Hh) as H0. pose proof (plug_null _ _ _ Hh) as Hz.
  apply holds_plug in Hh as (Hs&Hc&Hnd&Hdom). subst c'. apply returns_exact.
  unfold unlink_neighbour, bypassed. destruct isprev; cbn [shape path_shape root top frame_addr] in *;
    destruct_and!; (rewrite (proj2 (Z.eqb_neq n _)) by done); run; unfold reparent; run.
  - rewrite <- (relink_right _ q _ n 0) by (try eassumption; fields; differ).
    cbn [root]. by rewrite (alter_null _ _ 0) by no_null.
  - rewrite <- (relink_left _ q _ n 0) by (try eassumption; done).
    cbn [root]. by rewrite (alter_null _ _ 0) by no_null.
Qed.

(** The counter of the removals. *)
Lemma returns_next_isprev (w : pworld rbt_color_t) Q :
  INT_MIN ≤ pw_prevnext w < INT_MAX →
  (∀ w', pw_tree w' = pw_tree w → pw_nodes w' = pw_nodes w → pw_next w' = pw_next w →
     pw_alloc w' = pw_alloc w → pw_freed w' = pw_freed w → pw_prevnext w' = pw_prevnext w + 1 →
     Q (Z.rem (pw_prevnext w) 2 =? 0, w')) →
  returns (next_isprev w) Q.
Proof. intros Hi HQ. unfold next_isprev. go. by apply HQ. Qed.

Lemma bypassed_self c n d (l r t : rtree) N :
  holds N (plug c (T n d l r)) → (r = E ∧ t = l) ∨ (l = E ∧ t = r) →
  bypassed c n t N !! n = N !! n.
Proof.
  intros Hh Ht. pose proof (plug_null _ _ _ Hh) as Hz.
  apply holds_plug in Hh as (Hs&Hc&Hnd&Hdom). cbn [shape root] in Hs. destruct Hs as (Hn0&Hn&_).
  unfold bypassed. destruct Ht as [[-> ->]|[-> ->]];
    rewrite !lookup_alter_ne by differ; done.
Qed.

(** The end of the removal: the neighbour leaves the tree. *)
Lemma inner_finish isprev p n c dn (l r a : rtree) m nn v value w :
  pw_tree w = Some (mk_ptree (root (plug c (T n dn l r))) cb fr) →
  holds (pw_nodes w) (plug c (T n dn l r)) → (r = E ∧ a = l) ∨ (l = E ∧ a = r) → c ≠ [] →
  unlink_neighbour isprev p n m nn w = Ret (tt, put_nodes (bypassed c n a (pw_nodes w)) w) →
  returns ((_ ← unlink_neighbour isprev p n m nn; _ ← free_key n; res ← release_value v value;
            _ ← free_pn n; mret (0, res)) w) (λ '(res, w'),
    removed cb fr v value (plug c a) w res w' ∧ pw_prevnext w' = pw_prevnext w).
Proof.
  intros Ht Hh Ha Hc Hu. go. eapply returns_Ret_to; [exact Hu|]. go.
  pose proof Hh as [Hn Hn0]%holds_focus. pose proof (bypassed_self _ _ _ _ _ _ _ Hh Ha) as Hself.
  pose proof Hh as (_&Hps&_)%holds_plug.
  eapply returns_free_key; [fields; by rewrite Hself|done|]. rewrite put_nodes_twice. go.
  eapply returns_release; [fields; exact Ht|]. go.
  eapply returns_free_pn; [fields; by rewrite lookup_alter_eq, Hself, Hn|done|]. go.
  split; [|done]. split_and!; [done| |done|done|done]. split.
  - fields. rewrite Ht. by rewrite (root_plug_any c _ a) by (by eapply path_top).
  - fields. by eapply holds_bypass.
Qed.

(** The neighbour is a child of the node, or has none. *)
Definition only_child (isprev : bool) (t : rtree) : rtree :=
  match t with E => E | T _ _ l r => if isprev then l else r end.
Definition detachable (isprev : bool) (l r : rtree) : bool :=
  let '(c, n) := if isprev then rightmost [] l else leftmost [] r in
  match c, only_child isprev n with [], _ | _, E => true | _, _ => false end.

(** The links after the node has taken the item of its neighbour. *)
Lemma unlink_prev c0 p d r c n dn (a : rtree) m w :
  holds (pw_nodes w) (plug (c0 ++ FL p d r :: c) (T n dn a E)) → Forall goes_right c0 →
  c0 = [] ∨ a = E → pn_left m = root (plug c0 (T n dn a E)) →
  unlink_neighbour true p n m (node_of dn (root a) 0 (top (c0 ++ FL p d r :: c))) w =
    Ret (tt, put_nodes (bypassed (c0 ++ FL p d r :: c) n a (pw_nodes w)) w).
Proof.
  intros Hh Hr Ha Hm. destruct c0 as [|[q e s|q e s] c0].
  - by apply (unlink_child true p d r c n dn a).
  - apply Forall_cons in Hr as [Hr _]. done.
  - destruct Ha as [?| ->]; [done|].
    apply (unlink_deep true p q e s (c0 ++ FL p d r :: c) n dn); [done| |done].
    rewrite Hm. clear Hm. pose proof (root_plug_path (FR q e s :: c0) (T n dn E E)) as Hp.
    apply holds_plug in Hh as (_&_&Hnd&_). intros E0. rewrite E0 in Hp. specialize (Hp ltac:(done)).
    cbn [root app] in *. count n.
Qed.
Lemma unlink_next c0 p d l c n dn (a : rtree) m w :
  holds (pw_nodes w) (plug (c0 ++ FR p d l :: c) (T n dn E a)) → Forall goes_left c0 →
  c0 = [] ∨ a = E → pn_right m = root (plug c0 (T n dn E a)) →
  unlink_neighbour false p n m (node_of dn 0 (root a) (top (c0 ++ FR p d l :: c))) w =
    Ret (tt, put_nodes (bypassed (c0 ++ FR p d l :: c) n a (pw_nodes w)) w).
Proof.
  intros Hh Hr Ha Hm. destruct c0 as [|[q e s|q e s] c0].
  - by apply (unlink_child false p d l c n dn a).
  - destruct Ha as [?| ->]; [done|].
    apply (unlink_deep false p q e s (c0 ++ FR p d l :: c) n dn); [done| |done].
    rewrite Hm. clear Hm. pose proof (root_plug_path (FL q e s :: c0) (T n dn E E)) as Hp.
    apply holds_plug in Hh as (_&_&Hnd&_). intros E0. rewrite E0 in Hp. specialize (Hp ltac:(done)).
    cbn [root app] in *. count n.
  - apply Forall_cons in Hr as [Hr _]. done.
Qed.

(** The start of the removal: the node has the item of its neighbour [n]. *)
Lemma inner_start c p d (l r : rtree) n nn k v w Q (rest : P (Z * option Z)) :
  holds (pw_nodes w) (plug c (T p d l r)) → false ∉ pw_alloc w →
  pw_nodes w !! n = Some nn → pn_klen nn = Z.of_nat (length k) → pn_key nn = Some k →
  pn_value nn = v → n ≠ p → length k = length d.1.1 → 0 < Z.of_nat (length k) →
  (∀ w', pw_tree w' = pw_tree w → pw_next w' = pw_next w → pw_freed w' = pw_freed w →
     pw_prevnext w' = pw_prevnext w → (false ∈ pw_alloc w' → false ∈ pw_alloc w) →
     holds (pw_nodes w') (plug c (T p (k, v, d.2) l r)) → returns (rest w') Q) →
  returns ((_ ← lift (check (0 <? pn_klen nn));
            _ ← lift (check (bool_decide (is_Some (pn_key (node_of d (root l) (root r) (top c))))));
            ok ← next_alloc;
            if negb ok then mret (-1, None) else
            k ← load_key n;
            _ ← set_pn p (with_key (Some k));
            _ ← set_pn p (with_value (pn_value nn));
            rest) w) Q.
Proof.
  intros Hh Hal Hnn Hkl Hk Hv Hnp Hlen Hpos Hrest. rewrite Hkl. go.
  rewrite bool_decide_eq_true_2 by (by eexists). go. apply returns_next_alloc. intros b Hb Hal'.
  destruct b; [|by destruct Hal; apply Hb]. cbn [negb]. unfold load_key. go.
  eapply returns_load_pn; [exact Hnn|]. unfold key_bytes. rewrite Hk, Hkl.
  rewrite (proj2 (Z.leb_le 0 _)), Z.leb_refl by lia. go. rewrite Nat2Z.id, take_ge by done.
  pose proof Hh as [Hp _]%holds_focus.
  eapply returns_set_pn; [exact Hp|].
  go. eapply returns_set_pn; [fields; by rewrite lookup_alter_eq, Hp|].
  apply Hrest; try done. fields. rewrite Hv. by apply holds_item.
Qed.

(** A removal that gives its item up and keeps the others in order. *)
Definition inner_removed (c : list (frame rbt_color_t)) (d : key * Z * rbt_color_t) (l r : rtree) (v : bool)
    (w : pworld rbt_color_t) (res : Z * option Z) (w' : pworld rbt_color_t) : Prop :=
  ∃ t', removed cb fr v d.1.2 t' w res w' ∧
    entries t' = (pre c).*2 ++ entries l ++ entries r ++ (post c).*2 ∧
    (∀ z, z ∈ (flat t').*1 → is_Some (pw_nodes w !! z)) ∧ pw_prevnext w' = pw_prevnext w + 1.

Lemma remove_prev_ok c p d (l r : rtree) v w :
  tree_in cb fr (plug c (T p d l r)) w → l ≠ E → r ≠ E → Z.of_nat (height l) < 2 ^ 64 →
  INT_MIN ≤ pw_prevnext w < INT_MAX → false ∉ pw_alloc w →
  (∀ x, x ∈ entries l → length x.1 = length d.1.1) → 0 < Z.of_nat (length d.1.1) →
  (Z.rem (pw_prevnext w) 2 =? 0) = true → detachable true l r = true →
  returns (remove_inner p v w) (λ '(res, w'), inner_removed c d l r v w res w').
Proof.
  intros [Ht Hh] Hl Hr Hhl Hpn Hal Hlen Hpos Heven Hdet.
  destruct (rightmost_ok [] l Hl) as (n&dn&a&c0&Hmost&Hplug). simpl in Hplug.
  destruct (rightmost_path [] l) as (c0'&Hc0&Hright). rewrite Hmost in Hc0. simpl in Hc0.
  rewrite app_nil_r in Hc0. subst c0'.
  assert (Hca : c0 = [] ∨ a = E).
  { unfold detachable in Hdet. rewrite Hmost in Hdet. simpl in Hdet. destruct c0; [by left|]. destruct a; [by right|done]. }
  pose proof Hh as (Hs&_&Hnd&Hdom)%holds_plug. cbn [shape] in Hs. destruct Hs as (_&Hp&Hsl&Hsr).
  assert (Hl0 : root l ≠ 0) by (destruct l; [done|by destruct Hsl]).
  assert (Hr0 : root r ≠ 0) by (destruct r; [done|by destruct Hsr]).
  unfold remove_inner. go. apply returns_next_isprev; [done|]. rewrite Heven.
  intros w1 Ht1 Hn1 Hx1 Ha1 Hf1 Hp1. rewrite <- Hn1 in *. cbn [negb]. go.
  unfold rbt_find_prev. go. eapply returns_load_pn; [done|]. cbn [pn_left node_of].
  rewrite (proj2 (Z.eqb_neq _ 0)) by done.
  eapply returns_Ret_at; [by eapply (rightmost_loop p [])|]. rewrite Hmost. cbn [fst snd root]. go.
  assert (Hfocus : ∀ x s, plug (c0 ++ FL p x r :: c) s = plug c (T p x (plug c0 s) r))
    by (intros; by rewrite plug_app).
  pose proof Hh as Hn. rewrite <- Hplug, <- Hfocus in Hn. apply holds_focus in Hn as [Hn Hn0].
  assert (Hflat : flat l = pre c0 ++ flat a ++ [(n, dn.1)]).
  { rewrite <- Hplug, flat_plug, (goes_right_post c0) by done. cbn [flat]. by rewrite app_nil_r. }
  assert (Hnp : n ≠ p).
  { assert (n ∈ (flat l).*1) by (rewrite Hflat; count n). differ. }
  assert (Hk : length dn.1.1 = length d.1.1).
  { apply (Hlen dn.1). unfold entries. rewrite Hflat, !fmap_app. apply elem_of_app. right.
    apply elem_of_app. right. left. }
  eapply returns_load_pn; [done|]. go. eapply returns_load_pn; [exact Hp|]. cbv beta iota.
  eapply (inner_start c p d l r n _ dn.1.1 dn.1.2 w1 _ _ Hh);
    [by rewrite Ha1|exact Hn|reflexivity|reflexivity|reflexivity|exact Hnp|exact Hk|by rewrite Hk|].
  intros w2 Ht2 Hx2 Hf2 Hp2 Ha2 Hh2.
  assert (Hh2' : holds (pw_nodes w2) (plug (c0 ++ FL p (dn.1, d.2) r :: c) (T n dn a E))).
  { rewrite Hfocus, Hplug. by destruct dn as [[? ?] ?]. }
  assert (Htop : top (c0 ++ FL p (dn.1, d.2) r :: c) = top (c0 ++ FL p d r :: c)) by (by destruct c0).
  eapply returns_mono.
  { eapply (inner_finish true p n (c0 ++ FL p (dn.1, d.2) r :: c) dn a E a); [|done|by left|by destruct c0|].
    - rewrite Hfocus, Hplug, Ht2, Ht1, Ht. by erewrite (root_plug c (T p d l r)).
    - rewrite <- Htop. apply (unlink_prev c0 p (dn.1, d.2) r c n dn a); [exact Hh2'|done|done|by rewrite Hplug]. }
  intros [res w3] ((->&Hin&Hx3&Ha3&Hf3)&Hp3). exists (plug (c0 ++ FL p (dn.1, d.2) r :: c) a).
  assert (Hflat' : flat (plug (c0 ++ FL p (dn.1, d.2) r :: c) a) =
    pre c ++ pre c0 ++ flat a ++ (p, dn.1) :: flat r ++ post c).
  { rewrite flat_plug, pre_app, post_app, (goes_right_post c0), pre_FL, post_FL, <- app_assoc by done. done. }
  split_and!; [split_and!; [done|done|congruence|by intros ?%Ha3%Ha2; rewrite <- Ha1|by rewrite Hf3, Hf2, Hf1]|..|lia].
  - unfold entries. rewrite Hflat', Hflat, !fmap_app, fmap_cons, !fmap_app, <- !app_assoc. done.
  - intros z. rewrite Hflat', <- Hn1, Hdom. cbn [flat]. rewrite Hflat. intros Hz. count z.
Qed.
Lemma remove_next_ok c p d (l r : rtree) v w :
  tree_in cb fr (plug c (T p d l r)) w → l ≠ E → r ≠ E → Z.of_nat (height r) < 2 ^ 64 →
  INT_MIN ≤ pw_prevnext w < INT_MAX → false ∉ pw_alloc w →
  (∀ x, x ∈ entries r → length x.1 = length d.1.1) → 0 < Z.of_nat (length d.1.1) →
  (Z.rem (pw_prevnext w) 2 =? 0) = false → detachable false l r = true →
  returns (remove_inner p v w) (λ '(res, w'), inner_removed c d l r v w res w').
Proof.
  intros [Ht Hh] Hl Hr Hhl Hpn Hal Hlen Hpos Heven Hdet.
  destruct (leftmost_ok [] r Hr) as (n&dn&a&c0&Hmost&Hplug). simpl in Hplug.
  destruct (leftmost_path [] r) as (c0'&Hc0&Hright). rewrite Hmost in Hc0. simpl in Hc0.
  rewrite app_nil_r in Hc0. subst c0'.
  assert (Hca : c0 = [] ∨ a = E).
  { unfold detachable in Hdet. rewrite Hmost in Hdet. simpl in Hdet. destruct c0; [by left|]. destruct a; [by right|done]. }
  pose proof Hh as (Hs&_&Hnd&Hdom)%holds_plug. cbn [shape] in Hs. destruct Hs as (_&Hp&Hsl&Hsr).
  assert (Hl0 : root l ≠ 0) by (destruct l; [done|by destruct Hsl]).
  assert (Hr0 : root r ≠ 0) by (destruct r; [done|by destruct Hsr]).
  unfold remove_inner. go. apply returns_next_isprev; [done|]. rewrite Heven.
  intros w1 Ht1 Hn1 Hx1 Ha1 Hf1 Hp1. rewrite <- Hn1 in *. cbn [negb]. go.
  unfold rbt_find_next. go. eapply returns_load_pn; [done|]. cbn [pn_right node_of].
  rewrite (proj2 (Z.eqb_neq _ 0)) by done.
  eapply returns_Ret_at; [by eapply (leftmost_loop p [])|]. rewrite Hmost. cbn [fst snd root]. go.
  assert (Hfocus : ∀ x s, plug (c0 ++ FR p x l :: c) s = plug c (T p x l (plug c0 s)))
    by (intros; by rewrite plug_app).
  pose proof Hh as Hn. rewrite <- Hplug, <- Hfocus in Hn. apply holds_focus in Hn as [Hn Hn0].
  assert (Hflat : flat r = (n, dn.1) :: flat a ++ post c0).
  { rewrite <- Hplug, flat_plug, (goes_left_pre c0) by done. done. }
  assert (Hnp : n ≠ p).
  { assert (n ∈ (flat r).*1) by (rewrite Hflat; count n). differ. }
  assert (Hk : length dn.1.1 = length d.1.1).
  { apply (Hlen dn.1). unfold entries. rewrite Hflat, fmap_cons. left. }
  eapply returns_load_pn; [done|]. go. eapply returns_load_pn; [exact Hp|]. cbv beta iota.
  eapply (inner_start c p d l r n _ dn.1.1 dn.1.2 w1 _ _ Hh);
    [by rewrite Ha1|exact Hn|reflexivity|reflexivity|reflexivity|exact Hnp|exact Hk|by rewrite Hk|].
  intros w2 Ht2 Hx2 Hf2 Hp2 Ha2 Hh2.
  assert (Hh2' : holds (pw_nodes w2) (plug (c0 ++ FR p (dn.1, d.2) l :: c) (T n dn E a))).
  { rewrite Hfocus, Hplug. by destruct dn as [[? ?] ?]. }
  assert (Htop : top (c0 ++ FR p (dn.1, d.2) l :: c) = top (c0 ++ FR p d l :: c)) by (by destruct c0).
  eapply returns_mono.
  { eapply (inner_finish false p n (c0 ++ FR p (dn.1, d.2) l :: c) dn E a a); [|done|by right|by destruct c0|].
    - rewrite Hfocus, Hplug, Ht2, Ht1, Ht. by erewrite (root_plug c (T p d l r)).
    - rewrite <- Htop. apply (unlink_next c0 p (dn.1, d.2) l c n dn a); [exact Hh2'|done|done|by rewrite Hplug]. }
  intros [res w3] ((->&Hin&Hx3&Ha3&Hf3)&Hp3). exists (plug (c0 ++ FR p (dn.1, d.2) l :: c) a).
  assert (Hflat' : flat (plug (c0 ++ FR p (dn.1, d.2) l :: c) a) =
    pre c ++ flat l ++ (p, dn.1) :: flat a ++ post c0 ++ post c).
  { rewrite flat_plug, pre_app, post_app, (goes_left_pre c0), pre_FR, post_FR, app_nil_r, <- !app_assoc by done. done. }
  split_and!; [split_and!; [done|done|congruence|by intros ?%Ha3%Ha2; rewrite <- Ha1|by rewrite Hf3, Hf2, Hf1]|..|lia].
  - unfold entries. rewrite Hflat', Hflat, !fmap_app, !fmap_cons, !fmap_app, <- ?app_assoc. cbn [app]. by rewrite <- ?app_assoc.
  - intros z. rewrite Hflat', <- Hn1, Hdom. cbn [flat]. rewrite Hflat. intros Hz. count z.
Qed.
End inner.
