(* ===== verification/RbtreeWalk.v ===== *)
(** * Red-black trees: walking and destroying

    Both go over every node of a subtree, whatever its colours. *)

From S2P Require Import Prelude Comparators SortedDict Ptree PtreeSearch.
From S2P Require Import Rbtree RbtreeShape RbtreeAdd RbtreeRepair.

(** ** Walks that go on *)

(** The items in the order of a walk. *)
Fixpoint visits (sorted : bool) (t : rtree) : items :=
  match t with
  | E => []
  | T _ d l r =>
      if sorted then visits sorted l ++ d.1 :: visits sorted r
      else d.1 :: visits sorted l ++ visits sorted r
  end.
Lemma visits_sorted t : visits true t = entries t.
Proof.
  unfold entries. induction t as [|p d l IHl r IHr]; simpl; [done|].
  by rewrite IHl, IHr, fmap_app, fmap_cons.
Qed.
Lemma visits_perm sorted t : visits sorted t ≡ₚ entries t.
Proof.
  unfold entries. induction t as [|p d l IHl r IHr]; simpl; [done|].
  rewrite fmap_app, fmap_cons, <- IHl, <- IHr. destruct sorted; [done|]. by rewrite Permutation_middle.
Qed.
Lemma visits_length sorted t : length (visits sorted t) = length (entries t).
Proof.
  unfold entries. induction t as [|p d l IHl r IHr]; simpl; [done|].
  rewrite fmap_app, fmap_cons, length_app, length_cons, <- IHl, <- IHr.
  destruct sorted; simpl; rewrite length_app; simpl; lia.
Qed.

Section walk.
Context (memcmp : key → key → Z) {U : Type} (cbk : key → Z → U → Z * U).

Abbreviation call_all := (call_all cbk).
Abbreviation goes_on := (goes_on cbk).

Lemma entries_length_pos (t : rtree) : t ≠ E → 1 ≤ Z.of_nat (length (entries t)).
Proof.
  destruct t; [done|]. intros _. unfold entries. simpl. rewrite fmap_app, length_app. simpl. lia.
Qed.

Lemma returns_walk_part (walk : Z → U → P (Z * U)) rc (t : rtree) n u u' w rest Q :
  walk (root t) u w = Ret (n, u', w) → n = Z.of_nat (length (entries t)) → (t = E → u' = u) →
  1 ≤ rc → rc + n ≤ INT_MAX → (root t = 0 → t = E) → returns (rest (rc + n) u' w) Q →
  returns (walk_part walk rc (root t) u rest w) Q.
Proof.
  intros Hw Hn Hu Hrc Hmax Ht HQ. unfold walk_part. destruct (Z.eqb_spec (root t) 0) as [E0|E0].
  - rewrite (Ht E0) in Hn. rewrite (Hu (Ht E0)) in HQ. simpl in Hn. subst n. by rewrite Z.add_0_r in HQ.
  - go. rewrite Hw. cbn [returns]. unfold add_walked.
    assert (t ≠ E) as Hne by (by intros ->). pose proof (entries_length_pos t Hne).
    rewrite (proj2 (Z.eqb_neq n 0)) by lia. go. exact HQ.
Qed.

Lemma walk_internal_ok height' depth sorted par t u w :
  goes_on → shape (pw_nodes w) par t → (height t ≤ depth)%nat →
  Z.of_nat (length (entries t)) ≤ INT_MAX →
  rbt_walk_internal memcmp height' depth (root t) sorted cbk u w =
    Ret (Z.of_nat (length (entries t)), call_all (visits sorted t) u, w).
Proof.
  intros Hgo. revert par depth u. induction t as [|p d l IHl r IHr]; intros par depth u Hs Hd Hsz.
  { by destruct depth. }
  cbn [height] in Hd. destruct depth as [|depth]; [lia|]. destruct Hs as (Hp0&Hp&Hsl&Hsr).
  assert (Hlen : Z.of_nat (length (entries (T p d l r))) =
    Z.of_nat (length (entries l)) + 1 + Z.of_nat (length (entries r))).
  { unfold entries. cbn [flat]. rewrite fmap_app, fmap_cons, length_app, length_cons. lia. }
  rewrite Hlen in *.
  specialize (IHl p depth). specialize (IHr p depth).
  cbn [rbt_walk_internal root]. rewrite (proj2 (Z.eqb_neq p 0)) by done. apply returns_exact.
  assert (Hnull : ∀ par s, shape (pw_nodes w) par s → root s = 0 → s = E).
  { intros par' [|q e s1 s2]; [done|]. by intros (?&_). }

  assert (Hend : ∀ rc u' Q, 1 ≤ rc → rc + Z.of_nat (length (entries r)) ≤ INT_MAX →
    Q (rc + Z.of_nat (length (entries r)), call_all (visits sorted r) u', w) →
    returns ((n ← load_pn p; walk_part (λ p u, rbt_walk_internal memcmp height' depth p sorted cbk u)
                rc (pn_right n) u' (λ rc u, mret (rc, u))) w) Q).
  { intros rc u' Q Hrc Hmax HQ. go. eapply returns_load_pn; [done|]. cbn [pn_right node_of].
    eapply (returns_walk_part _ rc r); [apply IHr; [done|lia|lia]|done|by intros ->|lia|lia|by eapply Hnull|].
    by go. }
  pose proof (Hgo d.1.1 d.1.2) as Hcb.
  destruct sorted; cbn [visits] in *.
  - go. eapply returns_load_pn; [done|]. cbn [pn_left node_of].
    eapply (returns_walk_part _ 1 l); [apply IHl; [done|lia|lia]|done|by intros ->|lia|lia|by eapply Hnull|].
    go. eapply returns_load_pn; [done|]. go. eapply returns_load_key; [done|]. cbn [pn_value node_of].
    specialize (Hcb (call_all (visits true l) u)).
    destruct (cbk d.1.1 d.1.2 (call_all (visits true l) u)) as [cbrc u1] eqn:Hc. cbn [fst] in Hcb.
    rewrite !not_elem_of_cons in Hcb. destruct Hcb as (Hc1&Hc2&Hc3&_).
    rewrite !(proj2 (Z.eqb_neq cbrc _)) by done. unfold walk_part at 1. rewrite Z.eqb_refl.
    apply Hend; [lia|lia|]. rewrite call_all_app, call_all_cons, Hc. f_equal. f_equal. lia.
  - go. eapply returns_load_pn; [done|]. unfold walk_part at 1. rewrite Z.eqb_refl.
    go. eapply returns_load_pn; [done|]. go. eapply returns_load_key; [done|]. cbn [pn_value pn_left node_of].
    specialize (Hcb u). destruct (cbk d.1.1 d.1.2 u) as [cbrc u1] eqn:Hc. cbn [fst] in Hcb.
    rewrite !not_elem_of_cons in Hcb. destruct Hcb as (Hc1&Hc2&Hc3&_).
    rewrite !(proj2 (Z.eqb_neq cbrc _)) by done.
    eapply (returns_walk_part _ 1 l); [apply IHl; [done|lia|lia]|done|by intros ->|lia|lia|by eapply Hnull|].
    apply Hend; [lia|lia|]. rewrite call_all_cons, Hc, call_all_app.
    f_equal. f_equal. lia.
Qed.
End walk.

(** ** Destruction *)

(** The values in the order they are freed. *)
Fixpoint bottom_up (t : rtree) : list Z :=
  match t with E => [] | T _ d l r => bottom_up l ++ bottom_up r ++ [d.1.2] end.
Lemma bottom_up_values t : bottom_up t ≡ₚ (entries t).*2.
Proof.
  unfold entries. induction t as [|p d l IHl r IHr]; simpl; [done|].
  rewrite IHl, IHr, !fmap_app, !fmap_cons. simpl. f_equiv. by rewrite Permutation_app_comm.
Qed.

Section destroy.
Context (fr : bool).

(** [w'] is [w] without the nodes of [t] and with their values freed. *)
Definition destroyed (t : rtree) (w w' : pworld rbt_color_t) : Prop :=
  (∀ q, q ∈ (flat t).*1 → pw_nodes w' !! q = None) ∧
  (∀ q, q ∉ (flat t).*1 → pw_nodes w' !! q = pw_nodes w !! q) ∧
  pw_freed w' = pw_freed w ++ (if fr then bottom_up t else []) ∧
  pw_tree w' = pw_tree w ∧ pw_next w' = pw_next w ∧ pw_alloc w' = pw_alloc w ∧
  pw_prevnext w' = pw_prevnext w.

Lemma destroyed_shape t t' par w w' :
  destroyed t w w' → shape (pw_nodes w) par t' → (∀ q, q ∈ (flat t').*1 → q ∉ (flat t).*1) →
  shape (pw_nodes w') par t'.
Proof. intros (_&Hout&_) Hs Hd. eapply shape_frame; [done|]. auto. Qed.

Lemma destroy_internal_ok depth par t w :
  shape (pw_nodes w) par t → NoDup (flat t).*1 → (height t ≤ depth)%nat →
  returns (rbt_destroy_internal depth (root t) fr w) (λ '(_, w'), destroyed t w w').
Proof.
  revert depth par w. induction t as [|p d l IHl r IHr]; intros depth par w Hs Hnd Hd.
  { destruct depth; simpl; (split_and!; [by intros q ?%elem_of_nil|done|destruct fr; by rewrite app_nil_r|done..]). }
  cbn [height] in Hd. destruct depth as [|depth]; [lia|]. destruct Hs as (Hp0&Hp&Hsl&Hsr).
  assert (Hndl : NoDup (flat l).*1) by (eapply holds_NoDup; [exact Hnd|intros z; occ_simpl; lia]).
  assert (Hndr : NoDup (flat r).*1) by (eapply holds_NoDup; [exact Hnd|intros z; occ_simpl; lia]).
  assert (Hpl : p ∉ (flat l).*1) by count p.
  assert (Hpr : p ∉ (flat r).*1) by count p.
  cbn [rbt_destroy_internal root]. rewrite (proj2 (Z.eqb_neq p 0)) by done. go.
  eapply returns_load_pn; [done|]. cbn [pn_left node_of]. go.
  eapply returns_mono; [by eapply IHl; [done..|lia]|]. intros [[] w1] H1.
  pose proof H1 as (Hin1&Hout1&Hf1&Ht1&Hx1&Ha1&Hn1). go.
  eapply returns_load_pn; [by rewrite Hout1|]. cbn [pn_right node_of]. go.
  eapply returns_mono.
  { eapply IHr; [eapply destroyed_shape; [exact H1|exact Hsr|]|done|lia]. intros q Hq. count q. }
  intros [[] w2] (Hin2&Hout2&Hf2&Ht2&Hx2&Ha2&Hn2). go.
  assert (Hp2 : pw_nodes w2 !! p = Some (node_of d (root l) (root r) par)).
  { by rewrite Hout2, Hout1. }
  eapply returns_free_key; [done|done|]. go.
  eapply returns_load_pn; [fields; by rewrite lookup_alter_eq, Hp2|]. cbn [pn_value with_key node_of]. go.
  apply returns_free_if.
  eapply returns_free_pn; [fields; by rewrite lookup_alter_eq, Hp2|done|].
  assert (Hall : ∀ q, delete p (alter (with_key None) p (pw_nodes w2)) !! q =
            if decide (q = p) then None else pw_nodes w2 !! q).
  { intros q. case_decide as Hq; [subst; by rewrite lookup_delete_eq|].
    by rewrite lookup_delete_ne, lookup_alter_ne by done. }
  split_and!; fields; try congruence.
  - intros q. rewrite Hall. case_decide; [done|]. cbn [flat]. rewrite fmap_app, fmap_cons. simpl.
    rewrite elem_of_app, elem_of_cons. intros [Hq|[?|Hq]]; [|done|by apply Hin2].
    rewrite Hout2; [by apply Hin1|]. count q.
  - intros q. rewrite Hall. cbn [flat]. rewrite fmap_app, fmap_cons. simpl.
    rewrite not_elem_of_app, not_elem_of_cons. intros (?&?&?). rewrite decide_False by done.
    by rewrite Hout2, Hout1.
  - rewrite Hf2, Hf1. simpl. destruct fr; [by rewrite <- !app_assoc|by rewrite !app_nil_r].
Qed.
End destroy.
