(* ===== verification/RbtreeDelete.v ===== *)
(** * Red-black trees: removal is removal in a dictionary

    The three cases of [rbt_remove] put together, on a red-black tree. *)

From S2P Require Import Prelude Comparators SortedDict Ptree PtreeSearch.
From S2P Require Import Rbtree RbtreeShape RbtreeAdd RbtreeRepair RbtreeInsert RbtreeColors RbtreeRemove RbtreeInner.

Section delete.
Context (memcmp : key → key → Z) (cb : option libhl_cmp_callback_t) (fr : bool) {ok : key → Prop}.
Context `{!Comparator (rbt_compare_keys memcmp cb) ok}.
Abbreviation bst := (bst (rbt_compare_keys memcmp cb) ok).
Abbreviation rb_world := (rb_world memcmp cb fr (ok := ok)).

(** The entry of [d] goes, from between [l] and [r]. *)
Definition entry_removed (c : list (frame rbt_color_t)) (d : key * Z * rbt_color_t) (l r : rtree) (v : bool)
    (w : pworld rbt_color_t) (res : Z * option Z) (w' : pworld rbt_color_t) : Prop :=
  ∃ t', removed cb fr v d.1.2 t' w res w' ∧
    entries t' = (pre c).*2 ++ entries l ++ entries r ++ (post c).*2 ∧
    (∀ z, z ∈ (flat t').*1 → is_Some (pw_nodes w !! z)).

(** The place of a node with less than two children. *)
Lemma small_place c p d (l r : rtree) :
  red_black (plug c (T p d l r)) → (2 < length (entries (plug c (T p d l r))))%nat → l = E ∨ r = E →
  c ≠ [] ∧ (d.2 = RED ∨ (l = E ∧ r = E) ∨ (tcolor l = RED ∧ r = E) ∨ (l = E ∧ tcolor r = RED)).
Proof.
  intros (Hc&Hrr&m&Hbh) Hsz Hlr. pose proof Hrr as (Hrs&_)%no_red_red_plug.
  pose proof Hbh as (n&Hbs&_)%black_height_plug.
  assert (Hleaf : ∀ s : rtree, tcolor s = BLACK → black_height 0 s → s = E).
  { intros [|q [e []] a b]; simpl; done. }
  assert (Hcol : d.2 = RED ∨ (l = E ∧ r = E) ∨ (tcolor l = RED ∧ r = E) ∨ (l = E ∧ tcolor r = RED)).
  { destruct d as [d []]; [by left|right]. simpl in Hbs. destruct n as [|n]; [done|]. destruct Hbs as [Hl Hr].
    destruct Hlr as [->| ->]; simpl in Hl, Hr; subst n.
    - destruct (tcolor r) eqn:E1; [tauto|]. left. split; [done|by apply Hleaf].
    - destruct (tcolor l) eqn:E1; [tauto|]. left. split; [by apply Hleaf|done]. }
  split; [|done]. intros ->. cbn [plug] in *. destruct d as [d []]; [done|]. simpl in Hc, Hbs, Hrs.
  destruct n as [|n]; [done|]. destruct Hbs as [Hl Hr]. destruct Hrs as (_&Hnl&Hnr).
  assert (Hone : ∀ s : rtree, black_height 0 s → no_red_red s → (length (entries s) ≤ 1)%nat).
  { intros [|q [e []] a b]; simpl; [lia|intros [Ha Hb] (Hab&_)|done]. destruct (Hab eq_refl) as [Hca Hcb].
    rewrite (Hleaf a Hca Ha), (Hleaf b Hcb Hb). done. }
  unfold entries in *. cbn [flat] in Hsz. rewrite fmap_app, fmap_cons, length_app, length_cons in Hsz.
  destruct Hlr as [->| ->]; simpl in Hl, Hr; subst n;
    [pose proof (Hone r Hr Hnr)|pose proof (Hone l Hl Hnl)]; simpl in *; lia.
Qed.

Lemma removed_entry c p d (l r s : rtree) v w res w' :
  holds (pw_nodes w) (plug c (T p d l r)) →
  (l = E ∧ flat s = flat r) ∨ (r = E ∧ flat s = flat l) →
  removed cb fr v d.1.2 (plug c s) w res w' → entry_removed c d l r v w res w'.
Proof.
  intros (_&_&_&Hdom)%holds_plug Hs Hrem. exists (plug c s). split; [done|]. unfold entries.
  rewrite flat_plug. split.
  - rewrite !fmap_app. destruct Hs as [[-> ->]|[-> ->]]; [done|]. by rewrite app_nil_l.
  - intros z. rewrite !fmap_app, Hdom. cbn [flat]. destruct Hs as [[-> ->]|[-> ->]]; intros Hz; count z.
Qed.

(** A node that was found is removed. *)
Lemma remove_found_ok depth c p d (l r : rtree) v L w :
  rb_world (plug c (T p d l r)) w → (2 < length (entries (plug c (T p d l r))))%nat →
  Forall (λ x, length x.1 = L) (entries (plug c (T p d l r))) → 0 < Z.of_nat L →
  INT_MIN ≤ pw_prevnext w < INT_MAX → Z.of_nat (height (plug c (T p d l r))) < 2 ^ 64 →
  (l ≠ E → r ≠ E → detachable (Z.rem (pw_prevnext w) 2 =? 0) l r = true) →
  returns ((n ← load_pn p;
            if negb (pn_left n =? 0) || negb (pn_right n =? 0) then
              if negb (pn_left n =? 0) && negb (pn_right n =? 0) then remove_inner p v
              else remove_one_child depth p v
            else remove_leaf p v) w) (λ '(res, w'), entry_removed c d l r v w res w').
Proof.
  intros ((Hin&_)&_&Hrb&Hal) Hsz HL HLpos Hpn Hhb Hdet. pose proof Hin as [_ Hh].
  pose proof Hh as (Hs&_)%holds_plug. cbn [shape] in Hs. destruct Hs as (Hp0&Hp&Hsl&Hsr).
  pose proof (height_plug c (T p d l r)) as Hhp. cbn [height] in Hhp.
  rewrite entries_plug in HL. unfold entries at 1 in HL. cbn [flat] in HL.
  rewrite fmap_app, fmap_cons, !Forall_app, Forall_cons in HL. simpl in HL.
  destruct HL as (_&(HLl&HLd&HLr)&_). rewrite Forall_forall in HLl, HLr.
  go. eapply returns_load_pn; [done|]. cbn [pn_left pn_right node_of].
  destruct l as [|ql dl al bl], r as [|qr dr ar br]; cbn [root].
  - destruct (small_place c p d E E Hrb Hsz ltac:(by left)) as [Hc _]. cbn [Z.eqb negb orb].
    eapply returns_mono; [by apply (remove_leaf_ok cb fr c p d v w)|].
    intros [res w'] Hrem. eapply (removed_entry c p d E E E); [done|by left|done].
  - destruct Hsr as (Hq0&_). rewrite (proj2 (Z.eqb_neq qr 0)) by done. cbn [Z.eqb negb orb andb].
    destruct (small_place c p d E (T qr dr ar br) Hrb Hsz ltac:(by left)) as [Hc Hcol].
    eapply returns_mono.
    { apply (remove_one_child_ok cb fr depth c p d qr dr ar br E (T qr dr ar br) v w); [done|done|by right|].
      simpl in Hcol. intuition congruence. }
    intros [res w'] Hrem. eapply (removed_entry c p d E (T qr dr ar br)); [done| |exact Hrem].
    left. split; [done|]. unfold child_up. destruct d.2; [done|by rewrite flat_paint].
  - destruct Hsl as (Hq0&_). rewrite (proj2 (Z.eqb_neq ql 0)) by done. cbn [Z.eqb negb orb andb].
    destruct (small_place c p d (T ql dl al bl) E Hrb Hsz ltac:(by right)) as [Hc Hcol].
    eapply returns_mono.
    { apply (remove_one_child_ok cb fr depth c p d ql dl al bl (T ql dl al bl) E v w); [done|done|by left|].
      simpl in Hcol. intuition congruence. }
    intros [res w'] Hrem. eapply (removed_entry c p d (T ql dl al bl) E); [done| |exact Hrem].
    right. split; [done|]. unfold child_up. destruct d.2; [done|by rewrite flat_paint].
  - destruct Hsl as (Hq0&_), Hsr as (Hq1&_). rewrite (proj2 (Z.eqb_neq ql 0)), (proj2 (Z.eqb_neq qr 0)) by done.
    cbn [negb orb andb]. specialize (Hdet ltac:(done) ltac:(done)).
    assert (Hinner : ∀ res w', inner_removed cb fr c d (T ql dl al bl) (T qr dr ar br) v w res w' →
      entry_removed c d (T ql dl al bl) (T qr dr ar br) v w res w').
    { intros res w' (t'&?&?&?&_). by exists t'. }
    apply (returns_mono _ (λ '(res, w'), inner_removed cb fr c d (T ql dl al bl) (T qr dr ar br) v w res w'));
      [|intros [res w']; apply Hinner].
    destruct (Z.rem (pw_prevnext w) 2 =? 0) eqn:Hev.
    + apply (remove_prev_ok cb fr c p d (T ql dl al bl) (T qr dr ar br) v w); try done; [lia| |lia].
      intros x Hx. rewrite HLd. by apply HLl.
    + apply (remove_next_ok cb fr c p d (T ql dl al bl) (T qr dr ar br) v w); try done; [lia| |lia].
      intros x Hx. rewrite HLd. by apply HLr.
Qed.

(** Whether the removal of [k] leaves the parents of all nodes right. *)
Definition clean_removal (isprev : bool) (k : key) (t : rtree) : bool :=
  match (locate k [] t).2 with
  | T _ _ (T _ _ _ _ as l) (T _ _ _ _ as r) => detachable isprev l r
  | _ => true
  end.

(** What [rbt_remove] returns. *)
Definition remove_result (v : bool) (found : option Z) : Z * option Z :=
  match found with Some value => (0, if v then Some value else None) | None => (-1, None) end.

Lemma remove_ok depth k v t L w :
  rb_world t w → ok k → (2 < length (entries t))%nat →
  Forall (λ x, length x.1 = L) (entries t) → 0 < Z.of_nat L →
  INT_MIN ≤ pw_prevnext w < INT_MAX → (height t ≤ depth)%nat → Z.of_nat (height t) < 2 ^ 64 →
  clean_removal (Z.rem (pw_prevnext w) 2 =? 0) k t = true →
  returns (rbt_remove memcmp depth k v w) (λ '(res, w'), ∃ t',
    tree_world cb fr t' w' ∧ bst t' ∧ entries t' = dict_remove k (entries t) ∧
    res = remove_result v (dict_find k (entries t)) ∧
    filter (λ x, x ≠ 0) (pw_freed w') = filter (λ x, x ≠ 0) (pw_freed w ++
      match dict_find k (entries t) with Some value => dropped fr v value | None => [] end)).
Proof.
  intros Hw Hk Hsz HL HLpos Hpn Hd Hhb Hclean. pose proof Hw as (Htw&Hb&Hrb&Hal).
  pose proof Htw as ([Ht Hh]&Hn0&Hlt). pose proof (bst_subtree [] _ Hb) as [Hoks _].
  destruct (locate k [] t) as [c s] eqn:Hloc. unfold clean_removal in Hclean. rewrite Hloc in Hclean.
  rewrite (place_find memcmp cb k t c s Hb Hk Hloc).
  pose proof (locate_ok k [] t I) as Hl. rewrite Hloc in Hl. destruct Hl as (Hplug&_&Hpl). simpl in Hplug.
  unfold rbt_remove. go. eapply returns_load_ptree; [done|]. go. cbn [pt_root].
  eapply returns_Ret_at; [by apply (find_internal_ok memcmp cb fr depth k [])|]. rewrite Hloc. cbn [snd].
  destruct s as [|p d l r]; cbn [root].
  { rewrite Z.eqb_refl. go. exists t. split_and!; [done|done| |done|by rewrite app_nil_r].
    rewrite remove_absent; [done|]. by rewrite (place_find memcmp cb k t c E Hb Hk Hloc). }
  subst t. pose proof Hh as [Hp Hp0]%holds_focus. rewrite (proj2 (Z.eqb_neq p 0)) by done.
  eapply returns_mono.
  { apply (remove_found_ok depth c p d l r v L w); try done. intros Hl Hr. simpl in Hclean. by destruct l, r. }
  intros [res w'] (t'&(->&Hin'&Hx'&Ha'&Hf')&Hent&Haddr). exists t'.
  assert (Hrem : entries t' = dict_remove k (entries (plug c (T p d l r)))).
  { destruct d as [[k0 v0] x]. simpl in Hpl. pose proof (bst_sides k Hk c p (k0, v0, x) l r Hb Hpl) as [Hl _].
    assert (Hcut : entries (plug c (T p (k0, v0, x) l r)) =
      ((pre c).*2 ++ entries l) ++ (k0, v0) :: entries r ++ (post c).*2).
    { rewrite entries_plug. unfold entries. cbn [flat]. by rewrite fmap_app, fmap_cons, <- !app_assoc. }
    by rewrite Hent, Hcut, remove_hit, <- app_assoc by done. }
  split; [|split; [unfold PtreeSearch.bst; rewrite Hrem; by apply dict_remove_dict|done]].
  split; [done|]. rewrite Hx'. split; [done|].
  apply Forall_forall. intros z Hz. rewrite Forall_forall in Hlt. apply Hlt.
  destruct Hh as (_&_&Hdom). by apply Hdom, Haddr.
Qed.
End delete.
