(* ===== verification/RbtreeSpec.v ===== *)
(** * Red-black trees implement dictionaries

    The specification of src/src/rbtree.c is a sorted dictionary.  Additions,
    lookups and walks refine it; removals do where the code leaves a tree. *)

From S2P Require Import Prelude Comparators SortedDict Ptree PtreeSearch.
From S2P Require Import Rbtree RbtreeShape RbtreeAdd RbtreeRepair RbtreeInsert RbtreeColors RbtreeRemove.
From S2P Require Import RbtreeInner RbtreeWalk RbtreeDelete.

(** ** Operations and results *)

Inductive dop := DAdd (k : key) (v : Z) | DFind (k : key) | DWalk.
Inductive dres := RAdded (rc : Z) | RFound (rc : Z) (v : option Z) | RWalked (n : Z) (s : items).

Section run.
Context (memcmp : key → key → Z) (depth : nat).

Definition run_dop (o : dop) : P dres :=
  match o with
  | DAdd k v => rc ← rbt_add memcmp depth k v; mret (RAdded rc)
  | DFind k => '(rc, v) ← rbt_find memcmp depth k; mret (RFound rc v)
  | DWalk => '(n, s) ← rbt_walk_sorted memcmp depth depth collect []; mret (RWalked n s)
  end.
Fixpoint run_dops (os : list dop) : P (list dres) :=
  match os with
  | [] => mret []
  | o :: os => r ← run_dop o; rs ← run_dops os; mret (r :: rs)
  end.
End run.

(** ** The specification *)

Section spec.
Context {cmp : libhl_cmp_callback_t} {ok : key → Prop} `{!Comparator cmp ok} (fr : bool).

(** The result, the dictionary after it and the values freed. *)
Definition dict_step (s : items) (o : dop) : dres * items * list Z :=
  match o with
  | DAdd k v =>
      (RAdded (match dict_find k s with Some _ => 1 | None => 0 end), dict_insert k v s,
       match dict_find k s with Some old => released fr old v | None => [] end)
  | DFind k =>
      (match dict_find k s with Some v => RFound 0 (Some v) | None => RFound (-1) None end, s, [])
  | DWalk => (RWalked (Z.of_nat (length s)) s, s, [])
  end.
Fixpoint dict_run (s : items) (os : list dop) : list dres * items * list Z :=
  match os with
  | [] => ([], s, [])
  | o :: os =>
      let '(r, s1, f1) := dict_step s o in
      let '(rs, s2, f2) := dict_run s1 os in (r :: rs, s2, f1 ++ f2)
  end.

Definition dop_ok (o : dop) : Prop := match o with DAdd k _ | DFind k => ok k | DWalk => True end.

Lemma dict_insert_length k v s : (length (dict_insert k v s) ≤ S (length s))%nat.
Proof.
  induction s as [|[k' v'] s IH]; simpl; [done|]. repeat case_if; simpl; lia.
Qed.
End spec.

(** ** One operation *)

Section refine.
Context (memcmp : key → key → Z) (cb : option libhl_cmp_callback_t) (fr : bool) {ok : key → Prop}.
Context `{!Comparator (rbt_compare_keys memcmp cb) ok}.
Abbreviation rb_world := (rb_world memcmp cb fr (ok := ok)).

Lemma rbt_find_ok depth k t w :
  tree_world cb fr t w → bst (rbt_compare_keys memcmp cb) ok t → ok k → (height t ≤ depth)%nat →
  rbt_find memcmp depth k w =
    Ret (match dict_find k (entries t) with Some v => (0, Some v) | None => (-1, None) end, w).
Proof.
  intros ([Ht Hh]&_) Hb Hk Hd. destruct (locate k [] t) as [c s] eqn:Hloc.
  rewrite (place_find memcmp cb k t c s Hb Hk Hloc).
  pose proof (locate_ok k [] t I) as Hl. rewrite Hloc in Hl. destruct Hl as (Hplug&_). simpl in Hplug.
  pose proof (bst_subtree [] _ Hb) as [Hoks _].
  apply returns_exact. unfold rbt_find. go. eapply returns_load_ptree; [done|]. go. cbn [pt_root].
  eapply returns_Ret_at; [by apply (find_internal_ok memcmp cb fr depth k [])|]. rewrite Hloc. cbn [snd].
  destruct s as [|p d l r]; cbn [root]; [by rewrite Z.eqb_refl; go|].
  subst t. pose proof Hh as [Hp Hp0]%holds_focus. rewrite (proj2 (Z.eqb_neq p 0)) by done. go.
  eapply returns_load_pn; [done|]. by go.
Qed.
Lemma rbt_walk_from_ok {U} hh depth sorted (cbk : key → Z → U → Z * U) t u w :
  goes_on cbk → tree_in cb fr t w → (height t ≤ depth)%nat → Z.of_nat (length (entries t)) ≤ INT_MAX →
  rbt_walk_from memcmp hh depth sorted cbk u w =
    Ret (Z.of_nat (length (entries t)), call_all cbk (visits sorted t) u, w).
Proof.
  intros Hgo [Ht (Hs&_)] Hd Hsz. apply returns_exact. unfold rbt_walk_from. go.
  eapply returns_load_ptree; [done|]. cbn [pt_root].
  destruct (Z.eqb_spec (root t) 0) as [E0|E0].
  - destruct t as [|p d l r]; [|by destruct Hs]. go. by destruct sorted.
  - by rewrite (walk_internal_ok memcmp cbk hh depth sorted 0 t).
Qed.

Lemma run_dop_ok depth t w o :
  rb_world t w → dop_ok (ok := ok) o → (height t < depth)%nat → Z.of_nat (length (entries t)) ≤ INT_MAX →
  returns (run_dop memcmp depth o w) (λ '(r, w'), ∃ t',
    rb_world t' w' ∧ dict_step fr (entries t) o = (r, entries t', drop (length (pw_freed w)) (pw_freed w')) ∧
    pw_freed w' = pw_freed w ++ drop (length (pw_freed w)) (pw_freed w')).
Proof.
  intros Hw Hok Hd Hsz. pose proof Hw as (Htw&Hb&Hrb&Hal).
  assert (Hsame : ∀ r, dict_step fr (entries t) o = (r, entries t, []) → ∃ t',
    rb_world t' w ∧ dict_step fr (entries t) o = (r, entries t', drop (length (pw_freed w)) (pw_freed w)) ∧
    pw_freed w = pw_freed w ++ drop (length (pw_freed w)) (pw_freed w)).
  { intros r Hr. exists t. rewrite drop_ge by done. by rewrite app_nil_r. }
  destruct o as [k v|k|]; cbn [run_dop dop_ok] in *; go.
  - eapply returns_mono; [by apply (add_red_black memcmp cb fr depth k v t w)|].
    intros [rc w'] (t'&Hw'&Hent&->&Hfd&Hpn). go. exists t'. split; [done|].
    rewrite Hfd, drop_app_length. split; [|done]. simpl. by rewrite Hent.
  - rewrite (rbt_find_ok depth k t w) by (done || lia).
    destruct (dict_find k (entries t)) eqn:Hf; go; apply Hsame; simpl; by rewrite Hf.
  - unfold rbt_walk_sorted. rewrite (rbt_walk_from_ok _ _ true collect t); [|apply collect_goes_on|by destruct Htw|lia|done].
    go. apply Hsame. simpl. by rewrite visits_sorted, call_collect.
Qed.

Lemma run_dops_ok depth os n t w :
  rb_world t w → Forall (dop_ok (ok := ok)) os → (length (entries t) + length os ≤ n)%nat →
  (2 * Nat.log2 (n + 1) < depth)%nat → Z.of_nat n ≤ INT_MAX →
  returns (run_dops memcmp depth os w) (λ '(rs, w'), ∃ t',
    rb_world t' w' ∧ dict_run fr (entries t) os = (rs, entries t', drop (length (pw_freed w)) (pw_freed w')) ∧
    pw_freed w' = pw_freed w ++ drop (length (pw_freed w)) (pw_freed w')).
Proof.
  revert t w. induction os as [|o os IH]; intros t w Hw Hos Hn Hd Hsz; cbn [run_dops length] in *; go.
  - exists t. rewrite drop_ge, app_nil_r by done. done.
  - apply Forall_cons in Hos as [Ho Hos]. pose proof Hw as (_&_&Hrb&_).
    pose proof (red_black_height t Hrb) as Hh.
    assert (Nat.log2 (length (entries t) + 1) ≤ Nat.log2 (n + 1))%nat by (apply Nat.log2_le_mono; lia).
    eapply returns_mono; [apply run_dop_ok; [done|done|lia|lia]|].
    intros [r w1] (t1&Hw1&Hstep&Hf1). go.
    assert (Hlen : (length (entries t1) ≤ S (length (entries t)))%nat).
    { destruct o as [k v| |]; simpl in Hstep; injection Hstep as _ Hent _; rewrite <- Hent;
        [apply dict_insert_length|lia..]. }
    eapply returns_mono; [apply (IH t1 w1); [done|done|lia|done|done]|].
    intros [rs w2] (t2&Hw2&Hrun&Hf2). go. exists t2. split; [done|]. cbn [dict_run]. rewrite Hstep, Hrun.
    revert Hf1 Hf2. generalize (drop (length (pw_freed w)) (pw_freed w1)).
    generalize (drop (length (pw_freed w1)) (pw_freed w2)). intros f2 f1 Hf1 Hf2.
    by rewrite Hf2, Hf1, <- app_assoc, drop_app_length.
Qed.
End refine.

(** ** Comparators *)

#[global] Instance rbt_comparator memcmp f ok `{!Comparator f ok} :
  Comparator (rbt_compare_keys memcmp (Some f)) ok := _ : Comparator f ok.

(** Without a comparator: the order of the bytes, on keys of one length. *)
Fixpoint lex (k1 k2 : key) : Z :=
  match k1, k2 with
  | a :: k1, b :: k2 => if a =? b then lex k1 k2 else a - b
  | _, _ => 0
  end.
Lemma lex_anti k1 k2 : lex k2 k1 = - lex k1 k2.
Proof.
  revert k2. induction k1 as [|a k1 IH]; intros [|b k2]; simpl; [done..|].
  rewrite (Z.eqb_sym b a). destruct (Z.eqb_spec a b); [apply IH|lia].
Qed.
Lemma lex_trans k1 k2 k3 :
  length k1 = length k2 → length k2 = length k3 → lex k1 k2 ≤ 0 → lex k2 k3 ≤ 0 → lex k1 k3 ≤ 0.
Proof.
  revert k2 k3. induction k1 as [|a k1 IH]; intros [|b k2] [|c k3]; simpl; try done.
  intros [= H12] [= H23]. specialize (IH k2 k3 H12 H23).
  destruct (Z.eqb_spec a b), (Z.eqb_spec b c), (Z.eqb_spec a c); lia.
Qed.
(** What the C library says of [memcmp]. *)
Definition memcmp_spec (memcmp : key → key → Z) : Prop :=
  ∀ k1 k2, length k1 = length k2 → Z.sgn (memcmp k1 k2) = Z.sgn (lex k1 k2).
Lemma default_comparator memcmp L :
  memcmp_spec memcmp → Comparator (rbt_compare_keys memcmp None) (λ k, length k = L).
Proof.
  intros Hm.
  assert (Hle : ∀ k1 k2, length k1 = length k2 → memcmp k1 k2 ≤ 0 ↔ lex k1 k2 ≤ 0).
  { intros k1 k2 Hl. by rewrite <- (Z.sgn_nonpos (memcmp k1 k2)), <- (Z.sgn_nonpos (lex k1 k2)), Hm. }
  assert (Hge : ∀ k1 k2, length k1 = length k2 → 0 ≤ memcmp k1 k2 ↔ 0 ≤ lex k1 k2).
  { intros k1 k2 Hl. by rewrite <- (Z.sgn_nonneg (memcmp k1 k2)), <- (Z.sgn_nonneg (lex k1 k2)), Hm. }
  exists (λ k1 k2, memcmp k1 k2).
  - intros k1 k2 H1 H2. cbv beta in H1, H2. unfold rbt_compare_keys. by rewrite H1, H2, Nat.eqb_refl.
  - intros k1 k2 H1 H2. cbv beta in H1, H2. rewrite Hge, Hle, (lex_anti k1 k2) by lia. lia.
  - intros k1 k2 k3 H1 H2 H3. cbv beta in H1, H2, H3. rewrite !Hle by lia. apply lex_trans; lia.
Qed.

(** The worlds of the witnesses: an empty tree, and one of three entries. *)
Definition no_tree : pworld rbt_color_t := mk_pworld None ∅ 1 [] [] 0.
Definition empty_tree : pworld rbt_color_t :=
  mk_pworld (Some (mk_ptree 0 (Some libhl_cmp_keys_uint64) true)) ∅ 1 [] [] 0.
Definition three : rtree :=
  T 1 (k64 20, 200, BLACK) (T 2 (k64 10, 100, RED) E E) (T 3 (k64 30, 300, RED) E E).
Definition three_world : pworld rbt_color_t :=
  mk_pworld (Some (mk_ptree 1 (Some libhl_cmp_keys_uint64) true))
    (<[1 := node_of (k64 20, 200, BLACK) 2 3 0]> (<[2 := node_of (k64 10, 100, RED) 0 0 1]>
       {[3 := node_of (k64 30, 300, RED) 0 0 1]})) 4 [] [] 0.

Lemma empty_rb_world memcmp : rb_world memcmp (Some libhl_cmp_keys_uint64) true (ok := small_key) E empty_tree.
Proof.
  split; [split; [split; [done|apply holds_E]|split; [done|constructor]]|].
  split; [apply dict_nil|]. split; [split_and!; [done|done|by exists 0%nat]|apply not_elem_of_nil].
Qed.
Lemma three_rb_world memcmp :
  rb_world memcmp (Some libhl_cmp_keys_uint64) true (ok := small_key) three three_world.
Proof.
  split; [split; [split; [done|]|]|].
  - split_and!; [done..|by apply (bool_decide_unpack _)|].
    intros p. simpl. rewrite !lookup_insert_is_Some', lookup_singleton_is_Some, !elem_of_cons. set_solver.
  - split; [done|]. by apply (bool_decide_unpack _).
  - split; [|split; [split_and!; [done|done|by exists 1%nat]|apply not_elem_of_nil]].
    unfold PtreeSearch.bst. change (entries three) with [(k64 10, 100); (k64 20, 200); (k64 30, 300)].
    rewrite !dict_cons. split_and!; try (by apply small_le_bytes); try apply dict_nil.
    all: intros y; rewrite ?elem_of_cons, elem_of_nil; intros Hy; destruct_or?; subst; done.
Qed.

(** ** The claims *)

Section claims.
Context (memcmp : key → key → Z).

(** C8 — a new red-black tree, with any comparator that is an order, behaves
    as a sorted dictionary under any sequence of additions, lookups and walks
    in order: the same results and values freed, and a recursion depth of
    [2 * log2 (n + 1) + 1] for [n] operations is enough.  It is a red-black
    tree of the dictionary at the end. *)
Theorem rbt_refines_dict cb fr ok `{!Comparator (rbt_compare_keys memcmp cb) ok} os depth w :
  Forall (dop_ok (ok := ok)) os → (2 * Nat.log2 (length os + 1) < depth)%nat →
  Z.of_nat (length os) ≤ INT_MAX → pw_nodes w = ∅ → 0 < pw_next w → false ∉ pw_alloc w →
  returns ((_ ← rbt_create cb fr; run_dops memcmp depth os) w) (λ '(rs, w'), ∃ t,
    rb_world memcmp cb fr (ok := ok) t w' ∧
    dict_run fr [] os = (rs, entries t, drop (length (pw_freed w)) (pw_freed w')) ∧
    pw_freed w' = pw_freed w ++ drop (length (pw_freed w)) (pw_freed w')).
Proof.
  intros Hos Hd Hsz HN Hn Hal. go. unfold rbt_create. go. apply returns_next_alloc. intros b Hb Hal'.
  destruct b; [|by destruct Hal; apply Hb]. cbn [negb]. go.
  change (pw_freed w) with (pw_freed (put_tree (Some (mk_ptree 0 cb fr)) (put_alloc (tail (pw_alloc w)) w))).
  eapply (run_dops_ok memcmp cb fr (ok := ok) depth os (length os) E); [|done..].
  split; [split; [split; [done|]|split; [done|constructor]]|].
  - fields. rewrite HN. apply holds_E.
  - split; [apply dict_nil|]. split; [by split_and!; [| |exists 0%nat]|by intros ?%Hal'].
Qed.

(** C38 — a red-black search tree stays one when an entry is added, in any state
    of the colours and links that is one: no node is lost, the root is black,
    no red node has a red child, all paths have the same number of black nodes,
    and the height is at most [2 * log2 (n + 1)]. *)
Theorem rbt_add_red_black cb fr ok `{!Comparator (rbt_compare_keys memcmp cb) ok} depth k v t w :
  rb_world memcmp cb fr (ok := ok) t w → ok k → (height t < depth)%nat →
  returns (rbt_add memcmp depth k v w) (λ '(rc, w'), ∃ t',
    rb_world memcmp cb fr (ok := ok) t' w' ∧ entries t' = dict_insert k v (entries t) ∧
    (height t' ≤ 2 * Nat.log2 (length (entries t') + 1))%nat).
Proof.
  intros Hw Hk Hd. eapply returns_mono; [by eapply add_red_black|].
  intros [rc w'] (t'&Hw'&Hent&_). exists t'. split; [done|]. split; [done|].
  apply red_black_height. by destruct Hw' as (_&_&?&_).
Qed.

(** whatever the colours of a search tree and whichever allocations fail,
    [rbt_add] is defined: it returns -1 and leaves the tree, or adds the entry
    and keeps a search tree. *)
Theorem rbt_add_any_tree cb fr ok `{!Comparator (rbt_compare_keys memcmp cb) ok} depth k v t w :
  tree_world cb fr t w → bst (rbt_compare_keys memcmp cb) ok t → ok k → (height t < depth)%nat →
  returns (rbt_add memcmp depth k v w) (λ '(rc, w'), ∃ t',
    tree_world cb fr t' w' ∧ bst (rbt_compare_keys memcmp cb) ok t' ∧
    ((rc = -1 ∧ false ∈ pw_alloc w ∧ t' = t) ∨
     (rc = match dict_find k (entries t) with Some _ => 1 | None => 0 end ∧
      entries t' = dict_insert k v (entries t)))).
Proof.
  intros Hw Hb Hk Hd. destruct (locate k [] t) as [c s] eqn:Hloc.
  pose proof (locate_height k [] t) as Hlh. rewrite Hloc in Hlh. simpl in Hlh.
  eapply returns_mono.
  { apply (add_ok memcmp cb fr (false ∈ pw_alloc w) depth k v t w); try done. rewrite Hloc. simpl. lia. }
  intros [rc w'] (t'&Hw'&_&_&[(Hoom&->&->&_)|(p&_&->&Hrep&_)]).
  { exists t. split; [done|]. split; [done|]. by left. }
  rewrite Hloc in *. cbn [fst snd] in *. destruct (put_bst memcmp cb k v p t c s Hb Hk Hloc) as [Hb' Hent].
  apply repaired_entries in Hrep. rewrite (place_find memcmp cb k t c s Hb Hk Hloc). exists t'.
  split; [done|]. unfold PtreeSearch.bst in *. rewrite Hrep, Hent in *. split; [done|]. right.
  split; [by destruct s|done].
Qed.

(** on a red-black tree of at least three entries, with keys of one
    length, [rbt_remove] deletes the entry and gives its value up, when the
    neighbour of a node with two children is its child or has no child
    ([clean_removal]); the links and the order of what is left are right. *)
Theorem rbt_remove_deletes cb fr ok `{!Comparator (rbt_compare_keys memcmp cb) ok} depth k v t L w :
  rb_world memcmp cb fr (ok := ok) t w → ok k → (2 < length (entries t))%nat →
  Forall (λ x, length x.1 = L) (entries t) → 0 < Z.of_nat L →
  INT_MIN ≤ pw_prevnext w < INT_MAX → (height t ≤ depth)%nat → Z.of_nat (height t) < 2 ^ 64 →
  clean_removal memcmp cb (ok := ok) (Z.rem (pw_prevnext w) 2 =? 0) k t = true →
  returns (rbt_remove memcmp depth k v w) (λ '(res, w'), ∃ t',
    tree_world cb fr t' w' ∧ bst (rbt_compare_keys memcmp cb) ok t' ∧
    entries t' = dict_remove k (entries t) ∧ res = remove_result v (dict_find k (entries t)) ∧
    filter (λ x, x ≠ 0) (pw_freed w') = filter (λ x, x ≠ 0) (pw_freed w ++
      match dict_find k (entries t) with Some value => dropped fr v value | None => [] end)).
Proof. intros. by eapply remove_ok. Qed.

(** a walk, in order or not, with a callback that neither stops nor
    deletes calls it once on every entry, in the order of the dictionary for
    the sorted walk, returns their number and leaves the tree. *)
Theorem rbt_walk_visits {U} hh depth (cbk : key → Z → U → Z * U) cb fr t u w :
  goes_on cbk → tree_in cb fr t w → (height t ≤ depth)%nat → Z.of_nat (length (entries t)) ≤ INT_MAX →
  rbt_walk_sorted memcmp hh depth cbk u w =
    Ret (Z.of_nat (length (entries t)), call_all cbk (entries t) u, w) ∧
  ∃ s, s ≡ₚ entries t ∧ rbt_walk memcmp hh depth cbk u w =
    Ret (Z.of_nat (length (entries t)), call_all cbk s u, w).
Proof.
  intros Hgo Hin Hd Hsz. split.
  - unfold rbt_walk_sorted. by rewrite (rbt_walk_from_ok memcmp cb fr hh depth true cbk t), visits_sorted.
  - exists (visits false t). split; [apply visits_perm|]. by apply (rbt_walk_from_ok memcmp cb fr).
Qed.

(** C23 — [rbt_destroy] frees every node with its key and the tree, and gives
    every value once to the free callback. *)
Theorem rbt_destroy_frees cb fr depth t w :
  tree_in cb fr t w → (height t ≤ depth)%nat →
  returns (rbt_destroy depth w) (λ '(_, w'),
    pw_tree w' = None ∧ pw_nodes w' = ∅ ∧
    ∃ vs, vs ≡ₚ (if fr then (entries t).*2 else []) ∧ pw_freed w' = pw_freed w ++ vs).
Proof.
  intros [Ht (Hs&Hnd&Hdom)] Hd. unfold rbt_destroy. go. eapply returns_load_ptree; [done|]. go.
  eapply returns_mono; [by apply (destroy_internal_ok fr depth 0 t)|].
  intros [[] w'] (Hin&Hout&Hf&_). unfold free_ptree. go. split_and!; [done| |].
  - fields. apply map_empty. intros q. destruct (decide (q ∈ (flat t).*1)); [by apply Hin|].
    rewrite Hout by done. apply eq_None_not_Some. by rewrite Hdom.
  - fields. eexists. split; [|exact Hf]. destruct fr; [apply bottom_up_values|done].
Qed.
End claims.

(** ** Witnesses *)

Lemma rbt_refines_dict_witness :
  returns ((_ ← rbt_create (Some libhl_cmp_keys_uint64) true;
            run_dops lex 9 [DAdd (k64 5) 50; DAdd (k64 3) 30; DAdd (k64 5) 55; DFind (k64 3); DWalk]) no_tree)
    (λ '(rs, w'), ∃ t, rb_world lex (Some libhl_cmp_keys_uint64) true (ok := small_key) t w' ∧
      dict_run true [] [DAdd (k64 5) 50; DAdd (k64 3) 30; DAdd (k64 5) 55; DFind (k64 3); DWalk] =
        (rs, entries t, drop 0 (pw_freed w')) ∧
      pw_freed w' = [] ++ drop 0 (pw_freed w')).
Proof.
  apply (rbt_refines_dict lex (Some libhl_cmp_keys_uint64) true small_key
    [DAdd (k64 5) 50; DAdd (k64 3) 30; DAdd (k64 5) 55; DFind (k64 3); DWalk] 9 no_tree).
  - rewrite !Forall_cons. split_and!; try (by apply small_le_bytes); done.
  - simpl. lia.
  - simpl. int_bounds. lia.
  - done.
  - done.
  - apply not_elem_of_nil.
Defined.

Lemma rbt_add_red_black_witness :
  returns (rbt_add lex 3 (k64 25) 250 three_world) (λ '(rc, w'), ∃ t',
    rb_world lex (Some libhl_cmp_keys_uint64) true (ok := small_key) t' w' ∧
    entries t' = dict_insert (k64 25) 250 (entries three) ∧
    (height t' ≤ 2 * Nat.log2 (length (entries t') + 1))%nat).
Proof.
  apply (rbt_add_red_black lex (Some libhl_cmp_keys_uint64) true small_key 3 (k64 25) 250 three three_world).
  - apply three_rb_world.
  - by apply small_le_bytes.
  - simpl. lia.
Defined.

Lemma rbt_add_any_tree_witness :
  returns (rbt_add lex 3 (k64 25) 250 three_world) (λ '(rc, w'), ∃ t',
    tree_world (Some libhl_cmp_keys_uint64) true t' w' ∧
    bst (rbt_compare_keys lex (Some libhl_cmp_keys_uint64)) small_key t' ∧
    ((rc = -1 ∧ false ∈ pw_alloc three_world ∧ t' = three) ∨
     (rc = match dict_find (k64 25) (entries three) with Some _ => 1 | None => 0 end ∧
      entries t' = dict_insert (k64 25) 250 (entries three)))).
Proof.
  apply (rbt_add_any_tree lex (Some libhl_cmp_keys_uint64) true small_key 3 (k64 25) 250 three three_world).
  - apply (three_rb_world lex).
  - apply (three_rb_world lex).
  - by apply small_le_bytes.
  - simpl. lia.
Defined.

Lemma rbt_remove_deletes_witness :
  returns (rbt_remove lex 3 (k64 20) true three_world) (λ '(res, w'), ∃ t',
    tree_world (Some libhl_cmp_keys_uint64) true t' w' ∧
    bst (rbt_compare_keys lex (Some libhl_cmp_keys_uint64)) small_key t' ∧
    entries t' = dict_remove (k64 20) (entries three) ∧
    res = remove_result true (dict_find (k64 20) (entries three)) ∧
    filter (λ x, x ≠ 0) (pw_freed w') = filter (λ x, x ≠ 0) (pw_freed three_world ++
      match dict_find (k64 20) (entries three) with Some value => dropped true true value | None => [] end)).
Proof.
  apply (rbt_remove_deletes lex (Some libhl_cmp_keys_uint64) true small_key 3 (k64 20) true three 8 three_world).
  - apply three_rb_world.
  - by apply small_le_bytes.
  - simpl. lia.
  - unfold entries. simpl. repeat constructor.
  - done.
  - simpl. int_bounds. lia.
  - simpl. lia.
  - simpl. lia.
  - reflexivity.
Defined.

Lemma rbt_walk_visits_witness :
  rbt_walk_sorted lex 3 3 collect [] three_world =
    Ret (3, call_all collect (entries three) [], three_world) ∧
  ∃ s, s ≡ₚ entries three ∧ rbt_walk lex 3 3 collect [] three_world = Ret (3, call_all collect s [], three_world).
Proof.
  apply (rbt_walk_visits lex 3 3 collect (Some libhl_cmp_keys_uint64) true three [] three_world).
  - intros k v u. simpl. rewrite !not_elem_of_cons. split_and!; [lia..|apply not_elem_of_nil].
  - apply (three_rb_world lex).
  - simpl. lia.
  - simpl. int_bounds. lia.
Defined.

Lemma rbt_destroy_frees_witness :
  returns (rbt_destroy 2 three_world) (λ '(_, w'),
    pw_tree w' = None ∧ pw_nodes w' = ∅ ∧
    ∃ vs, vs ≡ₚ (entries three).*2 ∧ pw_freed w' = pw_freed three_world ++ vs).
Proof.
  apply (rbt_destroy_frees (Some libhl_cmp_keys_uint64) true 2 three three_world).
  - apply (three_rb_world lex).
  - simpl. lia.
Defined.

(** ** Where the code does something else *)

(** Additions ([inl]) and removals ([inr]) of 64-bit keys, and their return
    codes. *)
Fixpoint edits (memcmp : key → key → Z) (os : list (Z + Z)) : P (list Z) :=
  match os with
  | [] => mret []
  | o :: os =>
      rc ← match o with
           | inl n => rbt_add memcmp 20 (k64 n) (n + 100)
           | inr n => '(rc, _) ← rbt_remove memcmp 20 (k64 n) true; mret rc
           end;
      rcs ← edits memcmp os; mret (rc :: rcs)
  end.
Definition new_tree : P bool := rbt_create (Some libhl_cmp_keys_uint64) true.

(** C40 — the removal of the last entry leaves [root] on the freed node: every
    lookup after it is undefined. *)
Theorem rbt_remove_root_dangling memcmp cb fr ok `{!Comparator (rbt_compare_keys memcmp cb) ok} depth k k' v p d w :
  tree_in cb fr (T p d E E) w → ok d.1.1 → ok k → cmp_sign d.1.1 k = 0 →
  returns (rbt_remove memcmp (S depth) k v w) (λ '(res, w'),
    res.1 = 0 ∧ pw_nodes w' !! p = None ∧ rbt_find memcmp (S depth) k' w' = Undef).
Proof.
  intros Hin Hd Hk Hs. pose proof Hin as [Ht Hh]. pose proof (holds_focus _ [] p d E E Hh) as [Hp Hp0].
  unfold rbt_remove. go. eapply returns_load_ptree; [done|]. go. cbn [pt_root plug root].
  eapply returns_Ret_at.
  { apply (find_internal_ok memcmp cb fr (S depth) k [] (T p d E E)); [done| |done|simpl; lia].
    by repeat constructor. }
  cbn [locate]. rewrite Hs. cbn [Z.eqb snd root]. run. cbn [Z.eqb negb orb]. unfold remove_leaf. run.
  assert (Hrel : ∀ Q, (∀ l r, Q (r, give l w)) →
    returns ((if v || negb (d.1.2 =? 0) then release_value v d.1.2 else mret None) w) Q).
  { intros Q HQ. case_if; [eapply (returns_release cb fr); [done|apply HQ]|].
    go. rewrite <- (give_nil w). apply HQ. }
  apply Hrel. intros l r. run. split_and!; [done|apply lookup_delete_eq|].
  unfold rbt_find, load_ptree, mbind, st_bind. cbn [pw_tree put_nodes give outcome_bind].
  rewrite Ht. cbn [mbind outcome_bind pt_root rbt_find_internal root]. rewrite (proj2 (Z.eqb_neq p 0)) by done.
  unfold load_key, load_pn, mbind, st_bind. cbn [pw_nodes put_nodes]. by rewrite lookup_delete_eq.
Qed.

Lemma rbt_remove_root_dangling_witness :
  returns (rbt_remove lex 2 (k64 5) true (mk_pworld (Some (mk_ptree 1 (Some libhl_cmp_keys_uint64) true))
      {[1 := node_of (k64 5, 50, BLACK) 0 0 0]} 2 [] [] 0)) (λ '(res, w'),
    res.1 = 0 ∧ pw_nodes w' !! 1 = None ∧ rbt_find lex 2 (k64 7) w' = Undef).
Proof.
  apply (rbt_remove_root_dangling lex (Some libhl_cmp_keys_uint64) true small_key 1 (k64 5) (k64 7) true 1 (k64 5, 50, BLACK)).
  - split; [done|]. split_and!; [done..|by apply (bool_decide_unpack _)|].
    intros p. simpl. rewrite lookup_singleton_is_Some, !elem_of_cons, elem_of_nil. split; [intros <-|intros [->|[]]]; auto.
  - by apply small_le_bytes.
  - by apply small_le_bytes.
  - reflexivity.
Defined.

(** a removal that takes the item of a neighbour with a child of its own
    leaves that child with a wrong parent: replacing its value later frees its
    node and leaves it in the tree, and finding it is undefined. *)
Theorem rbt_remove_stale_parent memcmp :
  fst <$> (_ ← new_tree; edits memcmp (inl <$> [0; 8; 9; 3; 6; 5]) ≫= λ a,
           edits memcmp [inr 8] ≫= λ b, edits memcmp [inl 5] ≫= λ c, mret (a, b, c)) no_tree =
    Ret ([0; 0; 0; 0; 0; 0], [0], [1]) ∧
  (_ ← new_tree; _ ← edits memcmp (inl <$> [0; 8; 9; 3; 6; 5]); _ ← edits memcmp [inr 8; inl 5];
   rbt_find memcmp 20 (k64 5)) no_tree = Undef.
Proof. split; vm_compute; reflexivity. Qed.

(** a removal can lose other entries: of 1, 0, 6, 9 and 12 in the tree,
    the removal of 3 leaves 0, 1 and 6. *)
Theorem rbt_remove_loses_others memcmp :
  fst <$> (_ ← new_tree;
           rcs ← edits memcmp [inl 3; inl 0; inl 9; inl 1; inr 9; inl 10; inl 6; inl 7; inr 10; inr 7; inl 12; inl 9];
           '(n, before) ← rbt_walk_sorted memcmp 20 20 collect [];
           rc ← edits memcmp [inr 3];
           '(n', after) ← rbt_walk_sorted memcmp 20 20 collect [];
           mret (rcs, before.*2, rc, after.*2)) no_tree =
    Ret (replicate 12 0, [100; 101; 103; 106; 109; 112], [0], [100; 101; 106]).
Proof. vm_compute. reflexivity. Qed.

(** a callback that stops the walk stops it for the subtree only: stopped
    at 1, the walk goes on with 4. *)
Theorem rbt_walk_stop_goes_on memcmp :
  fst <$> (_ ← new_tree; _ ← edits memcmp (inl <$> [4; 2; 6; 1; 3; 5; 7]);
           rbt_walk_sorted memcmp 20 20 (λ k v u, (if v =? 101 then 0 else 1, u ++ [v])) []) no_tree =
    Ret (6, [101; 104; 105; 106; 107]).
Proof. vm_compute. reflexivity. Qed.

(** A callback that asks for the deletion of a leaf deletes nothing. *)
Theorem rbt_walk_keeps_deleted memcmp :
  fst <$> (_ ← new_tree; _ ← edits memcmp (inl <$> [4; 2; 6]);
           '(_, _) ← rbt_walk_sorted memcmp 20 20 (λ k v u, (if v =? 102 then -1 else 1, tt)) tt;
           rbt_find memcmp 20 (k64 2)) no_tree = Ret (0, Some 102).
Proof. vm_compute. reflexivity. Qed.

(** without a comparator, keys of different lengths that differ compare
    equal when [memcmp] returns the difference of their lengths. *)
Theorem rbt_default_compare_equates memcmp :
  memcmp [1] [0] = 1 → rbt_compare_keys memcmp None [1] [0; 0] = Ret 0.
Proof. intros Hm. unfold rbt_compare_keys. simpl. by rewrite Hm. Qed.

Lemma rbt_default_compare_equates_witness :
  lex [1] [0] = 1 ∧ rbt_compare_keys lex None [1] [0; 0] = Ret 0.
Proof. split; [reflexivity|]. apply (rbt_default_compare_equates lex). reflexivity. Defined.
