(* ===== verification/Avltree.v ===== *)
(** * AVL trees (src/src/avltree.c)

    An AVL tree over the nodes of Ptree, each with the heights [hl] and [hr] of
    its two sides.  The functions are those of the file but for its printing
    code and for [cmp_keys_default_cb], which nothing calls.  The list of the
    nodes that a walk has still to visit is the sequence of their addresses. *)

From S2P Require Import Prelude Comparators SortedDict Ptree.

(** ** Data *)

Definition avlt_node_t : Type := pnode (Z * Z).
Definition avlt_t := ptree.

Abbreviation P := (ST (pworld (Z * Z))).

Definition hl (n : avlt_node_t) : Z := (pn_extra n).1.
Definition hr (n : avlt_node_t) : Z := (pn_extra n).2.
Definition with_hl (h : Z) (n : pnode (Z * Z)) : pnode (Z * Z) := with_extra (h, hr n) n.
Definition with_hr (h : Z) (n : pnode (Z * Z)) : pnode (Z * Z) := with_extra (hl n, h) n.

(** [MAX(p->hl, p->hr) + 1], [p ? MAX(p->hl, p->hr) + 1 : 0] and
    [p->hl - p->hr]. *)
Definition load_height (p : Z) : P Z := n ← load_pn p; lift (int32 (Z.max (hl n) (hr n) + 1)).
Definition height_of (p : Z) : P Z := if p =? 0 then mret 0 else load_height p.
Definition load_factor (p : Z) : P Z := n ← load_pn p; lift (int32 (hl n - hr n)).

(** A call through [tree->cmp_keys_cb]. *)
Definition call_cmp (k1 k2 : key) : P Z :=
  t ← load_ptree;
  match cmp_keys_cb t with Some f => lift (f k1 k2) | None => undef end.
(** A call on the key of the node [p] and [k]. *)
Definition cmp_node (p : Z) (k : key) : P Z := k1 ← load_key p; call_cmp k1 k.
Definition cmp_with_node (k : key) (p : Z) : P Z := k1 ← load_key p; call_cmp k k1.

(** ** Creation *)

Definition avlt_create (cmp_keys_cb : option libhl_cmp_callback_t) (free_value_cb : bool) : P unit :=
  ok ← next_alloc;
  if negb ok then undef else modify (put_tree (Some (mk_ptree 0 cmp_keys_cb free_value_cb))).

(** A node with a copy of the key; the results of [calloc] and [malloc] are
    not checked. *)
Definition avlt_node_create (k : key) (v : Z) : P Z :=
  node ← new_node (0, 0);
  ok ← next_alloc;
  if negb ok then undef else
  _ ← set_pn node (with_key (Some k));
  _ ← set_pn node (with_klen (Z.of_nat (length k)));
  _ ← set_pn node (with_value v);
  mret node.

(** [free_value_cb] says whether the callback is given. *)
Definition avlt_node_destroy (node : Z) (free_value_cb : bool) : P unit :=
  _ ← free_key node;
  n ← load_pn node;
  _ ← (if negb (pn_value n =? 0) && free_value_cb then call_free_value (pn_value n) else mret tt);
  free_pn node.

(** ** Rotations *)

(** [parent->left = p; parent->hl = MAX(p->hl, p->hr) + 1], and the right. *)
Definition hang_left (parent p : Z) : P unit :=
  _ ← set_pn parent (with_left p); h ← load_height p; set_pn parent (with_hl h).
Definition hang_right (parent p : Z) : P unit :=
  _ ← set_pn parent (with_right p); h ← load_height p; set_pn parent (with_hr h).

Definition avlt_rotate_left (node : Z) : P unit :=
  n ← load_pn node;
  let right := pn_right n in
  if right =? 0 then mret tt else
  r ← load_pn right;
  let rl := pn_left r in
  let parent := pn_parent n in
  _ ← set_pn right (with_left node);
  _ ← set_pn node (with_parent right);
  _ ← set_pn right (with_parent parent);
  _ ← set_pn node (with_right rl);
  _ ← set_pn node (with_hr 0);
  _ ← (if rl =? 0 then mret tt else
         _ ← set_pn rl (with_parent node);
         h ← load_height rl;
         set_pn node (with_hr h));
  h ← load_height node;
  _ ← set_pn right (with_hl h);
  if parent =? 0 then mret tt else
  p ← load_pn parent;
  if pn_left p =? node then hang_left parent right else hang_right parent right.

Definition avlt_rotate_right (node : Z) : P unit :=
  n ← load_pn node;
  let left := pn_left n in
  if left =? 0 then mret tt else
  l ← load_pn left;
  let lr := pn_right l in
  let parent := pn_parent n in
  _ ← set_pn left (with_right node);
  _ ← set_pn node (with_parent left);
  _ ← set_pn left (with_parent parent);
  _ ← set_pn node (with_left lr);
  _ ← set_pn node (with_hl 0);
  _ ← (if lr =? 0 then mret tt else
         _ ← set_pn lr (with_parent node);
         h ← load_height lr;
         set_pn node (with_hl h));
  h ← load_height node;
  _ ← set_pn left (with_hr h);
  if parent =? 0 then mret tt else
  p ← load_pn parent;
  if pn_right p =? node then hang_right parent left else hang_left parent left.

(** ** Balancing *)

(** [if (tree->root == node) tree->root = node->parent]. *)
Definition update_root (node : Z) : P unit :=
  t ← load_ptree;
  if pt_root t =? node then n ← load_pn node; set_root (pn_parent n) else mret tt.
(** After a rotation: the parent when the node is balanced, or the node. *)
Definition next_node (node : Z) : P (Z + unit) :=
  balance_factor ← load_factor node;
  n ← load_pn node;
  mret (inl (if (-1 <=? balance_factor) && (balance_factor <=? 1) then pn_parent n else node)).

Definition balance_body (node : Z) : P (Z + unit) :=
  if node =? 0 then mret (inr tt) else
  n ← load_pn node;
  h ← height_of (pn_left n);
  _ ← set_pn node (with_hl h);
  h ← height_of (pn_right n);
  _ ← set_pn node (with_hr h);
  balance_factor ← load_factor node;
  if balance_factor <=? -2 then
    let right := pn_right n in
    _ ← (if right =? 0 then mret tt else
           f ← load_factor right; if f =? 1 then avlt_rotate_right right else mret tt);
    _ ← avlt_rotate_left node;
    _ ← update_root node;
    next_node node
  else if 2 <=? balance_factor then
    let left := pn_left n in
    _ ← (if left =? 0 then mret tt else
           f ← load_factor left; if f =? -1 then avlt_rotate_left left else mret tt);
    _ ← avlt_rotate_right node;
    _ ← update_root node;
    next_node node
  else
    n ← load_pn node; mret (inl (pn_parent n)).
Definition avlt_balance (node : Z) : P unit := loopS balance_body node.

(** ** Insertion *)

(** The branches "swap": the new node goes between [cur] and its child, and
    takes the inner subtree of the child when the root of that is on its other
    side.  The result is the node to balance from. *)
Definition swap_left (cur : Z) (k : key) (v : Z) : P Z :=
  new ← avlt_node_create k v;
  c ← load_pn cur;
  let left := pn_left c in
  _ ← set_pn cur (with_left new);
  l ← load_pn left;
  _ ← set_pn new (with_parent (pn_parent l));
  _ ← set_pn new (with_left left);
  h ← height_of left;
  _ ← set_pn new (with_hl h);
  _ ← set_pn left (with_parent new);
  moves ← (if pn_right l =? 0 then mret false else
             kn ← load_key new; c ← cmp_node (pn_right l) kn; mret (0 <? c));
  _ ← (if moves : bool then
         _ ← set_pn new (with_right (pn_right l));
         _ ← set_pn (pn_right l) (with_parent new);
         _ ← set_pn left (with_right 0);
         _ ← set_pn left (with_hr 0);
         h ← load_height (pn_right l);
         set_pn new (with_hr h)
       else mret tt);
  n ← load_pn new;
  mret (if negb (pn_left n =? 0) then pn_left n
        else if negb (pn_right n =? 0) then pn_right n else new).
Definition swap_right (cur : Z) (k : key) (v : Z) : P Z :=
  new ← avlt_node_create k v;
  c ← load_pn cur;
  let right := pn_right c in
  _ ← set_pn cur (with_right new);
  r ← load_pn right;
  _ ← set_pn new (with_parent (pn_parent r));
  _ ← set_pn new (with_right right);
  h ← height_of right;
  _ ← set_pn new (with_hr h);
  _ ← set_pn right (with_parent new);
  moves ← (if pn_left r =? 0 then mret false else
             kn ← load_key new; c ← cmp_node (pn_left r) kn; mret (c <? 0));
  _ ← (if moves : bool then
         _ ← set_pn new (with_left (pn_left r));
         _ ← set_pn (pn_left r) (with_parent new);
         _ ← set_pn right (with_left 0);
         _ ← set_pn right (with_hl 0);
         h ← load_height (pn_left r);
         set_pn new (with_hl h)
       else mret tt);
  n ← load_pn new;
  mret (if negb (pn_right n =? 0) then pn_right n
        else if negb (pn_left n =? 0) then pn_left n else new).

(** [!p || cmp(p->key, p->klen, key, klen) != 0]. *)
Definition not_key (p : Z) (k : key) : P bool :=
  if p =? 0 then mret true else c ← cmp_node p k; mret (negb (c =? 0)).

(** The two sides of [cur]: the next node to look at ([inl]), or the node to
    balance from, [None] for the return of -1. *)
Definition add_left (cur : Z) (k : key) (v : Z) : P (Z + option Z) :=
  n ← load_pn cur;
  let left := pn_left n in
  if negb (left =? 0) then
    c ← cmp_node left k;
    if 0 <? c then mret (inl left) else
    c ← cmp_node left k;
    l ← load_pn left;
    other ← (if c <? 0 then not_key (pn_right l) k else mret false);
    if other : bool then from ← swap_left cur k v; mret (inr (Some from))
    else mret (inr None)
  else
    new ← avlt_node_create k v;
    _ ← set_pn cur (with_left new);
    _ ← set_pn new (with_parent cur);
    n ← load_pn cur;
    h ← lift (int32 (hl n + 1));
    _ ← set_pn cur (with_hl h);
    mret (inr (Some cur)).
Definition add_right (cur : Z) (k : key) (v : Z) : P (Z + option Z) :=
  n ← load_pn cur;
  let right := pn_right n in
  if negb (right =? 0) then
    c ← cmp_node right k;
    if c <? 0 then mret (inl right) else
    c ← cmp_node right k;
    r ← load_pn right;
    other ← (if 0 <? c then not_key (pn_left r) k else mret false);
    if other : bool then from ← swap_right cur k v; mret (inr (Some from))
    else mret (inr None)
  else
    new ← avlt_node_create k v;
    _ ← set_pn cur (with_right new);
    _ ← set_pn new (with_parent cur);
    n ← load_pn cur;
    h ← lift (int32 (hr n + 1));
    _ ← set_pn cur (with_hr h);
    mret (inr (Some cur)).

Definition add_body (k : key) (v : Z) (cur : Z) : P (Z + option Z) :=
  c ← cmp_with_node k cur;
  if c <? 0 then add_left cur k v else
  c ← cmp_with_node k cur;
  if 0 <? c then add_right cur k v else mret (inr None).

Definition avlt_add (k : key) (v : Z) : P Z :=
  t ← load_ptree;
  if pt_root t =? 0 then
    root ← avlt_node_create k v;
    _ ← set_root root;
    mret 0
  else
    from ← loopS (add_body k v) (pt_root t);
    match from with
    | None => mret (-1)
    | Some cur => _ ← avlt_balance cur; mret 0
    end.

(** ** Removal *)

Definition avlt_find_next (node : Z) : P Z :=
  n ← load_pn node;
  if pn_right n =? 0 then mret 0 else loopS leftmost_body (pn_right n).
Definition avlt_find_prev (node : Z) : P Z :=
  n ← load_pn node;
  if pn_left n =? 0 then mret 0 else loopS rightmost_body (pn_left n).

(** The search of [avlt_remove]; 0 when the key is not found. *)
Definition remove_body (k : key) (cur : Z) : P (Z + Z) :=
  if cur =? 0 then mret (inr 0) else
  c ← cmp_node cur k;
  n ← load_pn cur;
  if c <? 0 then mret (inl (pn_right n)) else
  c ← cmp_node cur k;
  if 0 <? c then mret (inl (pn_left n)) else mret (inr cur).

(** The nodes [cur] and [p] exchange their items. *)
Definition swap_items (cur p : Z) : P unit :=
  c ← load_pn cur;
  n ← load_pn p;
  _ ← set_pn cur (with_key (pn_key n));
  _ ← set_pn cur (with_klen (pn_klen n));
  _ ← set_pn cur (with_value (pn_value n));
  _ ← set_pn p (with_key (pn_key c));
  _ ← set_pn p (with_klen (pn_klen c));
  set_pn p (with_value (pn_value c)).

(** The node to unlink, which holds the item removed; 0 for the return of -1. *)
Definition node_to_free (cur : Z) : P Z :=
  n ← load_pn cur;
  if negb (pn_left n =? 0) && negb (pn_right n =? 0) then
    p ← (if hr n <? hl n then avlt_find_prev cur else avlt_find_next cur);
    if negb (p =? 0) then _ ← swap_items cur p; mret p else mret 0
  else mret cur.

(** The node leaves its place to its only child. *)
Definition unlink_node (cur : Z) : P unit :=
  n ← load_pn cur;
  let parent := pn_parent n in
  let l := pn_left n in
  let r := pn_right n in
  if (l =? 0) || (r =? 0) then
    if negb (parent =? 0) then
      p ← load_pn parent;
      _ ← (if pn_left p =? cur then set_pn parent (with_left (if negb (l =? 0) then l else r))
           else set_pn parent (with_right (if negb (r =? 0) then r else l)));
      _ ← (if negb (l =? 0) then set_pn l (with_parent parent)
           else if negb (r =? 0) then set_pn r (with_parent parent) else mret tt);
      avlt_balance parent
    else if negb (l =? 0) then _ ← set_pn l (with_parent 0); set_root l
    else if negb (r =? 0) then _ ← set_pn r (with_parent 0); set_root r
    else set_root 0
  else mret tt.

(** The return code, and what is stored through [value] if it is not null. *)
Definition avlt_remove (k : key) (value : bool) : P (Z * option Z) :=
  t ← load_ptree;
  cur ← loopS (remove_body k) (pt_root t);
  if cur =? 0 then mret (0, None) else
  to_free ← node_to_free cur;
  if to_free =? 0 then mret (-1, None) else
  _ ← unlink_node to_free;
  n ← load_pn to_free;
  t ← load_ptree;
  let cb := if value then false else if negb (pn_value n =? 0) then free_value_cb t else false in
  _ ← avlt_node_destroy to_free cb;
  mret (0, if value then Some (pn_value n) else None).

(** ** Walking *)

(** The callback on key, value and state of the user. *)
Abbreviation avlt_walk_callback U := (key → Z → U → Z * U).

Definition walk_body {U} (cb : avlt_walk_callback U) (s : list Z * Z * U) : P (list Z * Z * U + Z * U) :=
  let '(head, cnt, priv) := s in
  match head with
  | [] => mret (inr (cnt, priv))
  | cur :: head =>
      k ← load_key cur;
      n ← load_pn cur;
      let '(ret, priv) := cb k (pn_value n) priv in
      if ret =? 0 then mret (inr (cnt, priv))
      else if ret =? -2 then _ ← avlt_remove k true; mret (inr (cnt, priv))
      else
        _ ← (if ret =? -1 then _ ← avlt_remove k true; mret tt else mret tt);
        cnt ← lift (int32 (cnt + 1));
        n ← load_pn cur;
        let children := (if negb (pn_left n =? 0) then [pn_left n] else []) ++
                        (if negb (pn_right n =? 0) then [pn_right n] else []) in
        mret (inl (head ++ children, cnt, priv))
  end.
Definition avlt_walk {U} (cb : avlt_walk_callback U) (priv : U) : P (Z * U) :=
  t ← load_ptree;
  if pt_root t =? 0 then mret (0, priv) else loopS (walk_body cb) ([pt_root t], 0, priv).

(** The walk of the child [p], when there is one, before [rest]. *)
Definition sorted_part {U} (walk : Z → U → P (Z * U)) (cnt p : Z) (priv : U) (rest : Z → U → P (Z * U)) :
    P (Z * U) :=
  if p =? 0 then rest cnt priv else
  '(ret, priv) ← walk p priv;
  if ret =? -1 then cnt ← lift (int32 (cnt + 1)); mret (cnt, priv)
  else cnt ← lift (int32 (cnt + ret)); rest cnt priv.

Fixpoint avt_walk_sorted_internal {U} (depth : nat) (node : Z) (cb : avlt_walk_callback U) (priv : U) :
    P (Z * U) :=
  match depth with
  | O => λ _, Diverge
  | S depth =>
      let walk p priv := avt_walk_sorted_internal depth p cb priv in
      n ← load_pn node;
      sorted_part walk 1 (pn_left n) priv (λ cnt priv,
        k ← load_key node;
        n ← load_pn node;
        let '(ret, priv) := cb k (pn_value n) priv in
        if ret =? 0 then mret (-1, priv)
        else if ret =? -2 then _ ← avlt_remove k true; mret (-1, priv)
        else
          _ ← (if ret =? -1 then _ ← avlt_remove k true; mret tt else mret tt);
          n ← load_pn node;
          sorted_part walk cnt (pn_right n) priv (λ cnt priv, mret (cnt, priv)))
  end.
Definition avlt_walk_sorted {U} (depth : nat) (cb : avlt_walk_callback U) (priv : U) : P (Z * U) :=
  t ← load_ptree;
  if negb (pt_root t =? 0) then avt_walk_sorted_internal depth (pt_root t) cb priv
  else mret (0, priv).

(** ** Destruction *)

Definition avlt_destroy_body (_ : unit) : P (unit + unit) :=
  t ← load_ptree;
  if negb (pt_root t =? 0) then
    k ← load_key (pt_root t);
    _ ← avlt_remove k false;
    mret (inl tt)
  else mret (inr tt).
Definition avlt_destroy : P unit := _ ← loopS avlt_destroy_body tt; free_ptree.
