(* ===== verification/AvltreeShape.v ===== *)
(** * AVL trees: heights and rotations

    The heights that the nodes keep, when they are right and balanced, and the
    rotations as equations between trees. *)

From S2P Require Import Prelude Comparators SortedDict Ptree PtreeSearch Avltree.

Abbreviation atree := (tree (Z * Z)).
Abbreviation apath := (list (frame (Z * Z))).

(** ** Heights *)

(** The height that a parent stores for the subtree [t]. *)
Definition hof (t : atree) : Z := match t with E => 0 | T _ d _ _ => Z.max d.2.1 d.2.2 + 1 end.

(** The heights kept are right, and those of siblings differ by one at most. *)
Fixpoint avl (t : atree) : Prop :=
  match t with
  | E => True
  | T _ d l r => d.2 = (hof l, hof r) ∧ -1 ≤ hof l - hof r ≤ 1 ∧ avl l ∧ avl r
  end.
(** The siblings along a path are such trees. *)
Fixpoint avl_path (c : apath) : Prop :=
  match c with [] => True | FL _ _ t :: c | FR _ _ t :: c => avl t ∧ avl_path c end.

Lemma avl_hof t : avl t → hof t = Z.of_nat (height t).
Proof.
  induction t as [|p d l IHl r IHr]; simpl; [done|]. intros (Hd&_&Hl&Hr).
  rewrite Hd. simpl. rewrite IHl, IHr by done. lia.
Qed.
Lemma avl_hof_nonneg t : avl t → 0 ≤ hof t.
Proof. intros Ht. rewrite avl_hof by done. lia. Qed.
Lemma avl_plug c t : avl (plug c t) → avl_path c ∧ avl t.
Proof.
  revert t. induction c as [|[p d r|p d l] c IH]; intros t; simpl; [done|..];
    intros (?&?&?&?&?)%IH; done.
Qed.

Lemma height_flat (t : atree) : (height t ≤ length (flat t))%nat.
Proof. induction t as [|p d l IHl r IHr]; simpl; [done|]. rewrite length_app. simpl. lia. Qed.
Lemma hof_flat t : avl t → 0 ≤ hof t ≤ Z.of_nat (length (flat t)).
Proof. intros Ht. rewrite avl_hof by done. pose proof (height_flat t). lia. Qed.
Lemma length_flat_T p d (l r : atree) :
  length (flat (T p d l r)) = S (length (flat l) + length (flat r)).
Proof. simpl. rewrite length_app. simpl. lia. Qed.

(** A balanced tree of height [n] has at least [2 ^ (n / 2) - 1] nodes. *)
Lemma avl_size t n : avl t → Z.of_nat (height t) = n → 2 ^ (n / 2) ≤ Z.of_nat (length (flat t)) + 1.
Proof.
  revert n. induction t as [|p d l IHl r IHr]; intros n; [intros _ <-; done|].
  intros (_&Hb&Hl&Hr) Hn. rewrite length_flat_T. rewrite !avl_hof in Hb by done. cbn [height] in Hn.
  specialize (IHl _ Hl eq_refl). specialize (IHr _ Hr eq_refl).
  assert (Hmin : n - 2 ≤ Z.of_nat (height l) ∧ n - 2 ≤ Z.of_nat (height r)) by lia.
  destruct (decide (n = 1)) as [->|Hn1]; [change (2 ^ (1 / 2)) with 1; lia|].
  assert (Hp : ∀ h, n - 2 ≤ h → 2 ^ (n / 2 - 1) ≤ 2 ^ (h / 2)).
  { intros h Hh. apply Z.pow_le_mono_r; [done|]. replace (n / 2 - 1) with ((n - 2) / 2).
    - by apply Z.div_le_mono.
    - Z.to_euclidean_division_equations. lia. }
  pose proof (Hp _ (proj1 Hmin)). pose proof (Hp _ (proj2 Hmin)).
  assert (0 < n / 2) by (apply Z.div_str_pos; lia).
  replace (2 ^ (n / 2)) with (2 * 2 ^ (n / 2 - 1)); [lia|].
  rewrite <- Z.pow_succ_r by lia. f_equal. lia.
Qed.

(** ** A store links a tree *)

(** As [holds], but the store may have other nodes. *)
Definition linked (N : gmap Z (pnode (Z * Z))) (t : atree) : Prop :=
  shape N 0 t ∧ NoDup (flat t).*1 ∧ N !! 0 = None.

Lemma linked_plug N c t :
  linked N (plug c t) ↔
    shape N (top c) t ∧ path_shape N c (root t) ∧ NoDup ((pre c).*1 ++ (flat t).*1 ++ (post c).*1) ∧
    N !! 0 = None.
Proof. unfold linked. rewrite shape_plug, flat_plug, !fmap_app. tauto. Qed.
Lemma linked_null N c t : linked N (plug c t) → 0 ∉ (pre c).*1 ++ (flat t).*1 ++ (post c).*1.
Proof. intros (Hs%shape_no_null&_&_). by rewrite flat_plug, !fmap_app in Hs. Qed.
Lemma linked_focus N c p d l r :
  linked N (plug c (T p d l r)) → N !! p = Some (node_of d (root l) (root r) (top c)) ∧ p ≠ 0.
Proof. intros (Hs&_)%linked_plug. simpl in Hs. tauto. Qed.
Lemma holds_linked N t : holds N t → linked N t.
Proof. intros Hh. pose proof (holds_null _ _ Hh). by destruct Hh as (?&?&_). Qed.
Lemma shape_elem (N : gmap Z (pnode (Z * Z))) par t p : shape N par t → p ∈ (flat t).*1 → is_Some (N !! p).
Proof.
  revert par. induction t as [|q d l IHl r IHr]; intros par; [by intros _ ?%elem_of_nil|].
  simpl. intros (_&Hq&Hl&Hr). rewrite fmap_app, fmap_cons, elem_of_app, elem_of_cons. simpl.
  intros [?|[->|?]]; [by eapply IHl|eauto|by eapply IHr].
Qed.

(** The links change, from those of [t] to those of [t']. *)
Definition relinked (t : atree) (w : pworld (Z * Z)) (t' : atree) (w' : pworld (Z * Z)) : Prop :=
  linked (pw_nodes w') t' ∧ flat t' = flat t ∧ rest w' = rest w ∧
  ∀ q, q ∉ (flat t).*1 → pw_nodes w' !! q = pw_nodes w !! q.

Lemma relinked_trans t1 w1 t2 w2 t3 w3 :
  relinked t1 w1 t2 w2 → relinked t2 w2 t3 w3 → relinked t1 w1 t3 w3.
Proof.
  intros (_&Hf1&Hr1&Hn1) (Hl&Hf2&Hr2&Hn2). split; [done|]. split; [congruence|]. split; [congruence|].
  intros q Hq. rewrite Hn2 by (by rewrite Hf1). by apply Hn1.
Qed.
Lemma relinked_holds t w t' w' : relinked t w t' w' → holds (pw_nodes w) t → holds (pw_nodes w') t'.
Proof.
  intros ((Hs&Hnd&_)&Hf&_&Hn) (Hs0&_&Hdom). split; [done|]. split; [done|]. intros q.
  destruct (decide (q ∈ (flat t).*1)) as [Hin|Hout].
  - split; [by rewrite Hf|]. intros Hq. by eapply shape_elem.
  - by rewrite Hn, Hf, Hdom.
Qed.

(** The parent of a rotated subtree keeps its new height [h]. *)
Definition retop (h : Z) (c : apath) : apath :=
  match c with
  | [] => []
  | FL p d r :: c => FL p (d.1, (h, d.2.2)) r :: c
  | FR p d l :: c => FR p (d.1, (d.2.1, h)) l :: c
  end.

Lemma retop_pre h c : pre (retop h c) = pre c.
Proof. by destruct c as [|[]]. Qed.
Lemma retop_post h c : post (retop h c) = post c.
Proof. by destruct c as [|[]]. Qed.
Lemma retop_top h c : top (retop h c) = top c.
Proof. by destruct c as [|[]]. Qed.
Lemma retop_root h c t : root (plug (retop h c) t) = root (plug c t).
Proof. destruct c as [|[] c]; [done|..]; cbn [retop plug]; by apply root_plug. Qed.
Lemma retop_avl h c : avl_path (retop h c) ↔ avl_path c.
Proof. by destruct c as [|[]]. Qed.
Lemma retop_length h c : length (retop h c) = length c.
Proof. by destruct c as [|[]]. Qed.

(** ** Rotations *)

(** Heights that can be added to. *)
Definition small_height (h : Z) : Prop := 0 ≤ h < 2 ^ 31 - 3.

Definition rot_left (x : Z) (dx : key * Z * (Z * Z)) (a : atree) (y : Z) (dy : key * Z * (Z * Z)) (b e : atree) : atree :=
  let t := T x (dx.1, (dx.2.1, hof b)) a b in T y (dy.1, (hof t, dy.2.2)) t e.
Definition rot_right (x : Z) (dx : key * Z * (Z * Z)) (y : Z) (dy : key * Z * (Z * Z)) (a b e : atree) : atree :=
  let t := T x (dx.1, (hof b, dx.2.2)) b e in T y (dy.1, (dy.2.1, hof t)) a t.

(** The parent's link to [x] becomes one to [y], of height [h]. *)
Definition relink_to (x y h : Z) (n : pnode (Z * Z)) : pnode (Z * Z) :=
  if pn_left n =? x then with_hl h (with_left y n) else with_hr h (with_right y n).
Lemma path_relink_to (N : gmap Z (pnode (Z * Z))) c x y h :
  path_shape N c x → NoDup ((pre c).*1 ++ (post c).*1) → x ∉ (pre c).*1 ++ (post c).*1 → x ≠ 0 →
  path_shape (alter (relink_to x y h) (top c) N) (retop h c) y.
Proof.
  destruct c as [|[p d r|p d l] c]; cbn [path_shape retop top frame_addr]; [done|..];
    intros (?&Hp&Hs&Hc) Hnd Hx Hx0.
  - split_and!; [done| |apply alter_frame; [done|count p]|apply alter_path_frame; [done|count p]].
    rewrite lookup_alter_eq, Hp. unfold relink_to. simpl. by rewrite Z.eqb_refl.
  - split_and!; [done| |apply alter_frame; [done|count p]|apply alter_path_frame; [done|count p]].
    rewrite lookup_alter_eq, Hp. unfold relink_to. simpl.
    destruct (Z.eqb_spec (root l) x) as [He|]; [|done].
    exfalso. apply Hx. subst x. pose proof (root_elem l Hx0). count (root l).
Qed.

(** The end of a rotation, at the parent. *)
Section parent.
Context (c : apath) (x y : Z) (w : pworld (Z * Z)) (n : pnode (Z * Z)) (h : Z) (Q : unit * pworld (Z * Z) → Prop).
Context (Hc : path_shape (pw_nodes w) c x) (Hnull : pw_nodes w !! 0 = None).
Context (Hx : x ∉ (pre c).*1 ++ (post c).*1) (Hx0 : x ≠ 0) (Hy : pw_nodes w !! y = Some n) (Hyc : y ≠ top c).
Context (Hh : h = Z.max (hl n) (hr n) + 1) (Hi : INT_MIN ≤ h ≤ INT_MAX).
Context (HQ : Q (tt, put_nodes (alter (relink_to x y h) (top c) (pw_nodes w)) w)).

Lemma returns_hang (left : bool) d l r par :
  pw_nodes w !! top c = Some (node_of d l r par) → (l =? x) = left →
  returns ((if left then hang_left (top c) y else hang_right (top c) y) w) Q.
Proof using Hy Hyc Hh Hi HQ.
  intros Hp Hl.
  assert (Ha : ∀ f : pnode (Z * Z) → pnode (Z * Z), f (node_of d l r par) = relink_to x y h (node_of d l r par) →
    alter f (top c) (pw_nodes w) = alter (relink_to x y h) (top c) (pw_nodes w)).
  { intros f Hf. apply alter_ext. intros m Hm. rewrite Hp in Hm. by injection Hm as <-. }
  destruct left; unfold hang_left, hang_right, load_height; go;
    (eapply returns_set_pn; [done|]; go; eapply returns_load_pn; [fields; by rewrite lookup_alter_ne by done|]; go;
     rewrite <- Hh; go; eapply returns_set_pn; [fields; by rewrite lookup_alter_eq, Hp|]; rewrite put_nodes_twice; fields;
     rewrite alter_alter_eq, (Ha (_ ∘ _)); [done|]; unfold relink_to; simpl; by rewrite Hl).
Qed.
(** The parent is tested for its left child, or for its right child. *)
Lemma returns_hang_if :
  returns ((if top c =? 0 then mret tt else
            p ← load_pn (top c); if pn_left p =? x then hang_left (top c) y else hang_right (top c) y) w) Q ∧
  returns ((if top c =? 0 then mret tt else
            p ← load_pn (top c); if pn_right p =? x then hang_right (top c) y else hang_left (top c) y) w) Q.
Proof using All.
  destruct (Z.eqb_spec (top c) 0) as [E0|E0].
  { rewrite E0, alter_null, put_nodes_id in HQ by done. by split; go. }
  assert (∃ d l r par, pw_nodes w !! top c = Some (node_of d l r par) ∧ (r =? x) = negb (l =? x)) as (d&l&r&par&Hp&Hlr).
  { destruct c as [|[p d s|p d s] c']; [done|..]; cbn [path_shape top frame_addr] in *; destruct Hc as (_&Hp&Hs&_).
    - exists d, x, (root s), (top c'). split; [done|]. rewrite Z.eqb_refl. apply Z.eqb_neq. intros E1.
      apply Hx. pose proof (root_elem s ltac:(by rewrite E1)) as Hin. rewrite E1 in Hin. count x.
    - exists d, (root s), x, (top c'). split; [done|]. rewrite Z.eqb_refl. symmetry. apply negb_true_iff.
      apply Z.eqb_neq. intros E1. apply Hx. pose proof (root_elem s ltac:(by rewrite E1)) as Hin.
      rewrite E1 in Hin. count x. }
  split; go; (eapply returns_load_pn; [exact Hp|]); fields.
  - by eapply (returns_hang (l =? x)).
  - rewrite Hlr. destruct (l =? x) eqn:El; simpl; [by eapply (returns_hang true)|by eapply (returns_hang false)].
Qed.
End parent.

(** The inner subtree of a rotation changes its parent. *)
Lemma returns_adopt (b : atree) par x (n : pnode (Z * Z)) w Q :
  shape (pw_nodes w) par b → pw_nodes w !! 0 = None → x ∉ (flat b).*1 → pw_nodes w !! x = Some n →
  small_height (hof b) → 
  (hr n = 0 → Q (tt, put_nodes (alter (with_hr (hof b)) x (alter (with_parent x) (root b) (pw_nodes w))) w) →
   returns ((if root b =? 0 then mret tt else
             _ ← set_pn (root b) (with_parent x); h ← load_height (root b); set_pn x (with_hr h)) w) Q) ∧
  (hl n = 0 → Q (tt, put_nodes (alter (with_hl (hof b)) x (alter (with_parent x) (root b) (pw_nodes w))) w) →
   returns ((if root b =? 0 then mret tt else
             _ ← set_pn (root b) (with_parent x); h ← load_height (root b); set_pn x (with_hl h)) w) Q).
Proof.
  intros Hs H0 Hx Hn Hb. unfold small_height in Hb. destruct b as [|z d b1 b2]; cbn [root shape hof] in *.
  - assert (Ha : ∀ f : pnode (Z * Z) → pnode (Z * Z), f n = n → alter f x (pw_nodes w) = pw_nodes w).
    { intros f Hf. apply map_eq. intros q. destruct (decide (x = q)) as [<-|]; [|by rewrite lookup_alter_ne].
      by rewrite lookup_alter_eq, Hn; simpl; rewrite Hf. }
    rewrite (alter_null _ _ 0) by done.
    split; intros Hh HQ; (rewrite Ha, put_nodes_id in HQ by (destruct n as [? ? ? [? ?] ? ? ?]; cbn in *; by subst)); by go.
  - destruct Hs as (Hz0&Hz&_). rewrite (proj2 (Z.eqb_neq z 0)) by done. unfold load_height.
    assert (z ≠ x) by (intros ->; apply Hx; count x).
    split; intros _ HQ; go; (eapply returns_set_pn; [done|]); go;
      (eapply returns_load_pn; [fields; by rewrite lookup_alter_eq, Hz|]); go; unfold hl, hr; fields; go;
      (eapply returns_set_pn; [fields; by rewrite lookup_alter_ne by done|]); by rewrite put_nodes_twice.
Qed.

Lemma lookup_alter_away (N : gmap Z (pnode (Z * Z))) f p q :
  N !! 0 = None → (p ≠ 0 → p ≠ q) → alter f p N !! q = N !! q.
Proof.
  intros H0 Hp. destruct (Z.eq_dec p 0) as [->|]; [by rewrite alter_null|]. apply lookup_alter_ne. auto.
Qed.

Ltac arun := repeat (progress (run; unfold load_height, with_hl, with_hr, hl, hr)).
(** The store of a tree that was rearranged. *)
Ltac relink_done :=
  unfold rot_left, rot_right; cbv zeta; (split; [|done]); split;
  [ apply linked_plug; rewrite ?retop_pre, ?retop_post, ?retop_top;
    cbn [shape root frame_addr fst snd] in *; split_and!;
    lazymatch goal with
    | |- _ !! 0 = None => no_null
    | |- _ !! _ = _ => look
    | |- shape _ _ _ => first [by frames|fields; frames; moved]
    | |- path_shape _ _ _ => fields; apply path_relink_to; [frames|apply NoDup_occ; let z := fresh in intros z; count z|absent|done]
    | |- NoDup _ => eapply holds_NoDup; [eassumption|same_addrs]
    | |- _ => done
    end
  | split;
    [ rewrite !flat_plug, ?retop_pre, ?retop_post; cbn [flat fst snd];
      repeat first [rewrite <- app_assoc | rewrite <- app_comm_cons]; done
    | split; [done|];
      let q := fresh "q" in let Hq := fresh in
      intros q Hq; rewrite flat_plug, !fmap_app in Hq; fields;
      repeat (rewrite lookup_alter_away; [|by no_null|intros ?; differ]); done ] ].

Lemma avl_rotate_left_ok c x dx y dy (a b e : atree) w :
  linked (pw_nodes w) (plug c (T x dx a (T y dy b e))) →
  small_height dx.2.1 → small_height dy.2.2 → small_height (hof b) →
  returns (avlt_rotate_left x w) (λ '(_, w'), let t' := rot_left x dx a y dy b e in
    relinked (plug c (T x dx a (T y dy b e))) w (plug (retop (hof t') c) t') w' ∧
    pw_tree w' = pw_tree w).
Proof.
  intros Hh Hx Hy Hb. pose proof (linked_null _ _ _ Hh) as Hz.
  apply linked_plug in Hh as (Hs&Hc&Hnd&H0). cbn [shape root] in Hs, Hc. destruct_and!.
  unfold avlt_rotate_left. arun.
  eapply returns_adopt; [by frames|by no_null|count x|look|done|done|].
  unfold small_height in *. arun.
  eapply (returns_hang_if c x y _ _ (hof (rot_left x dx a y dy b e)));
    [by frames|by no_null|count x|done|look|differ|reflexivity|unfold INT_MIN, INT_MAX; simpl; lia|].
  relink_done.
Qed.
Lemma avl_rotate_right_ok c x dx y dy (a b e : atree) w :
  linked (pw_nodes w) (plug c (T x dx (T y dy a b) e)) →
  small_height dx.2.2 → small_height dy.2.1 → small_height (hof b) →
  returns (avlt_rotate_right x w) (λ '(_, w'), let t' := rot_right x dx y dy a b e in
    relinked (plug c (T x dx (T y dy a b) e)) w (plug (retop (hof t') c) t') w' ∧
    pw_tree w' = pw_tree w).
Proof.
  intros Hh Hx Hy Hb. pose proof (linked_null _ _ _ Hh) as Hz.
  apply linked_plug in Hh as (Hs&Hc&Hnd&H0). cbn [shape root] in Hs, Hc. destruct_and!.
  unfold avlt_rotate_right. arun.
  eapply returns_adopt; [by frames|by no_null|count x|look|done|done|].
  unfold small_height in *. arun.
  eapply (returns_hang_if c x y _ _ (hof (rot_right x dx y dy a b e)));
    [by frames|by no_null|count x|done|look|differ|reflexivity|unfold INT_MIN, INT_MAX; simpl; lia|].
  relink_done.
Qed.
