(* ===== verification/AvltreeBalance.v ===== *)
(** * AVL trees: balancing

    One iteration of [avlt_balance] on a node whose two sides are balanced
    trees, of any heights.  [tilt_left] and [tilt_right] are the first of two
    rotations, that of the child. *)

From S2P Require Import Prelude Comparators SortedDict Ptree PtreeSearch Avltree AvltreeShape.

(** ** The rotation of the child *)

Definition tilt_right (t : atree) : atree :=
  match t with
  | T y dy (T z dz b1 b2) e =>
      if dy.2.1 - dy.2.2 =? 1 then rot_right y dy z dz b1 b2 e else t
  | _ => t
  end.
Definition tilt_left (t : atree) : atree :=
  match t with
  | T y dy a (T z dz b1 b2) =>
      if dy.2.1 - dy.2.2 =? -1 then rot_left y dy a z dz b1 b2 else t
  | _ => t
  end.

(** The two sides have the same height. *)
Definition even (t : atree) : bool := match t with E => true | T _ d _ _ => bool_decide (d.2.1 = d.2.2) end.

(** What the rotation of the child leaves: [outer] is its outer side. *)
Definition tilted (h : Z) (ev : bool) (inner outer : atree) : Prop :=
  avl inner ∧ avl outer ∧ hof outer = h - 1 ∧
  (ev = true → hof inner = h - 1) ∧
  (ev = false → hof inner = h - 2 ∨ (hof inner = h - 3 ∧ even outer = true)).

Lemma tilt_right_ok t :
  avl t → t ≠ E →
  ∃ y dy b e, tilt_right t = T y dy b e ∧ flat (T y dy b e) = flat t ∧ dy.2 = (hof b, hof e) ∧
              tilted (hof t) (even t) b e.
Proof.
  destruct t as [|y [dy hy] b e]; [done|]. intros Ht _. unfold tilted. simpl in Ht. destruct Ht as (Hd&Hbal&Hb&He).
  subst hy. simpl.
  destruct b as [|z [dz hz] b1 b2].
  - exists y, (dy, (hof E, hof e)), E, e. simpl in *. pose proof (avl_hof_nonneg e He).
    split_and!; try done; rewrite ?bool_decide_eq_true, ?bool_decide_eq_false; intros; lia.
  - destruct Hb as (Hz&Hzb&Hb1&Hb2). simpl in Hz. subst hz. simpl in *.
    pose proof (avl_hof_nonneg b1 Hb1). pose proof (avl_hof_nonneg b2 Hb2). pose proof (avl_hof_nonneg e He).
    destruct (Z.eqb_spec (Z.max (hof b1) (hof b2) + 1 - hof e) 1) as [E1|E1].
    + eexists z, _, b1, _. split; [reflexivity|]. cbn [flat fst snd].
      split; [repeat first [rewrite <- app_assoc | rewrite <- app_comm_cons]; done|].
      simpl. split_and!; try done; rewrite ?bool_decide_eq_true, ?bool_decide_eq_false; intros; lia.
    + exists y, (dy, (Z.max (hof b1) (hof b2) + 1, hof e)), (T z (dz, (hof b1, hof b2)) b1 b2), e.
      simpl. split_and!; try done; rewrite ?bool_decide_eq_true, ?bool_decide_eq_false; intros; lia.
Qed.
Lemma tilt_left_ok t :
  avl t → t ≠ E →
  ∃ y dy a b, tilt_left t = T y dy a b ∧ flat (T y dy a b) = flat t ∧ dy.2 = (hof a, hof b) ∧
              tilted (hof t) (even t) b a.
Proof.
  destruct t as [|y [dy hy] a b]; [done|]. intros Ht _. unfold tilted. simpl in Ht. destruct Ht as (Hd&Hbal&Ha&Hb).
  subst hy. simpl.
  destruct b as [|z [dz hz] b1 b2].
  - exists y, (dy, (hof a, hof E)), a, E. simpl in *. pose proof (avl_hof_nonneg a Ha).
    split_and!; try done; rewrite ?bool_decide_eq_true, ?bool_decide_eq_false; intros; lia.
  - destruct Hb as (Hz&Hzb&Hb1&Hb2). simpl in Hz. subst hz. simpl in *.
    pose proof (avl_hof_nonneg b1 Hb1). pose proof (avl_hof_nonneg b2 Hb2). pose proof (avl_hof_nonneg a Ha).
    destruct (Z.eqb_spec (hof a - (Z.max (hof b1) (hof b2) + 1)) (-1)) as [E1|E1].
    + eexists z, _, _, b2. split; [reflexivity|]. cbn [flat fst snd].
      split; [repeat first [rewrite <- app_assoc | rewrite <- app_comm_cons]; done|].
      simpl. split_and!; try done; rewrite ?bool_decide_eq_true, ?bool_decide_eq_false; intros; lia.
    + exists y, (dy, (hof a, Z.max (hof b1) (hof b2) + 1)), a, (T z (dz, (hof b1, hof b2)) b1 b2).
      simpl. split_and!; try done; rewrite ?bool_decide_eq_true, ?bool_decide_eq_false; intros; lia.
Qed.

(** ** One iteration *)

Section balance.
Context (cb : option libhl_cmp_callback_t) (fr : bool).
Implicit Types (t l r : atree) (c : apath) (w : pworld (Z * Z)).

Definition avl_in t w : Prop :=
  pw_tree w = Some (mk_ptree (root t) cb fr) ∧ linked (pw_nodes w) t.
Definition avl_step t w t' w' : Prop :=
  relinked t w t' w' ∧ pw_tree w' = Some (mk_ptree (root t') cb fr).
(** There are few enough nodes for their heights to be [int]s. *)
Definition few t : Prop := Z.of_nat (length (flat t)) < 2 ^ 31 - 4.

Lemma avl_step_in t w t' w' : avl_step t w t' w' → avl_in t' w'.
Proof. by intros [(?&_) ?]. Qed.
Lemma avl_step_trans t1 w1 t2 w2 t3 w3 : avl_step t1 w1 t2 w2 → avl_step t2 w2 t3 w3 → avl_step t1 w1 t3 w3.
Proof. intros [H1 _] [H2 ?]. split; [by eapply relinked_trans|done]. Qed.
Lemma avl_step_flat t w t' w' : avl_step t w t' w' → flat t' = flat t.
Proof. by intros [(_&?&_) _]. Qed.

Lemma few_plug c t : few (plug c t) → few t.
Proof. unfold few. rewrite flat_plug, !length_app. lia. Qed.
Lemma few_hof t : avl t → few t → 0 ≤ hof t < 2 ^ 31 - 4.
Proof. unfold few. intros Ht%hof_flat. lia. Qed.
Lemma few_T p d l r : few (T p d l r) → few l ∧ few r.
Proof. unfold few. rewrite length_flat_T. lia. Qed.

Lemma returns_load_height par p d l r w Q :
  shape (pw_nodes w) par (T p d l r) → small_height (hof (T p d l r)) → Q (hof (T p d l r), w) →
  returns (load_height p w) Q.
Proof.
  intros (_&Hp&_) Hs HQ. unfold small_height in Hs. cbn [hof] in Hs. unfold load_height. go.
  eapply returns_load_pn; [done|]. unfold hl, hr. fields. go. exact HQ.
Qed.
Lemma returns_height_of par t w Q :
  shape (pw_nodes w) par t → small_height (hof t) → Q (hof t, w) → returns (height_of (root t) w) Q.
Proof.
  intros Hs Hh HQ. unfold height_of. destruct t as [|p d l r]; cbn [root]; [by go|].
  pose proof Hs as (Hp0&_). rewrite (proj2 (Z.eqb_neq p 0)) by done. by eapply returns_load_height.
Qed.
Lemma returns_load_factor par p d l r w Q :
  shape (pw_nodes w) par (T p d l r) → small_height d.2.1 → small_height d.2.2 →
  Q (d.2.1 - d.2.2, w) → returns (load_factor p w) Q.
Proof.
  intros (_&Hp&_) H1 H2 HQ. unfold small_height in *. unfold load_factor. go.
  eapply returns_load_pn; [done|]. unfold hl, hr. fields. go. exact HQ.
Qed.

Lemma linked_extra (N : gmap Z (pnode (Z * Z))) c p d l r x :
  linked N (plug c (T p d l r)) → linked (alter (with_extra x) p N) (plug c (T p (d.1, x) l r)).
Proof.
  intros (Hs&Hc&Hnd&H0)%linked_plug. cbn [shape root] in Hs, Hc. destruct Hs as (Hp0&Hp&Hl&Hr).
  apply linked_plug. cbn [shape root]. split_and!; try done; try frames; [by look|no_null].
Qed.
Lemma avl_step_extra c p d l r x w :
  avl_in (plug c (T p d l r)) w →
  avl_step (plug c (T p d l r)) w (plug c (T p (d.1, x) l r)) (put_nodes (alter (with_extra x) p (pw_nodes w)) w).
Proof.
  intros [Ht Hh]. split; [split; [by apply linked_extra|split; [by rewrite !flat_plug|split; [done|]]]|].
  - intros q Hq. apply lookup_alter_ne. intros ->. apply Hq. rewrite flat_plug, !fmap_app. cbn [flat]. count q.
  - fields. by rewrite (root_plug c _ (T p d l r)).
Qed.

(** The heights of the node are set, whatever they were. *)
Lemma balance_heights c p d l r w :
  avl_in (plug c (T p d l r)) w → few (plug c (T p d l r)) → avl l → avl r →
  ∃ w', (∀ A (rest : Z → P A) Q, returns (rest (hof l - hof r) w') Q →
    returns ((h ← height_of (root l); _ ← set_pn p (with_hl h);
              h ← height_of (root r); _ ← set_pn p (with_hr h);
              balance_factor ← load_factor p; rest balance_factor) w) Q) ∧
    avl_step (plug c (T p d l r)) w (plug c (T p (d.1, (hof l, hof r)) l r)) w'.
Proof.
  intros Hin Hf Hl Hr. pose proof (avl_step_extra c p d l r (hof l, hof r) w Hin) as Hstep.
  eexists. split; [|exact Hstep]. intros A k Q Hk.
  destruct Hin as [_ Hh]. apply linked_plug in Hh as (Hs&Hc&Hnd&H0). cbn [shape root] in Hs, Hc.
  destruct Hs as (Hp0&Hp&Hsl&Hsr). apply few_plug, few_T in Hf as [Hfl Hfr].
  pose proof (few_hof _ Hl Hfl). pose proof (few_hof _ Hr Hfr).
  go. eapply returns_height_of; [done|unfold small_height; lia|]. go.
  eapply returns_set_pn; [done|]. go.
  eapply returns_height_of; [by frames|unfold small_height; lia|]. go.
  eapply returns_set_pn; [by look|]. rewrite put_nodes_twice. fields. go.
  assert (Ha : alter (with_hr (hof r)) p (alter (with_hl (hof l)) p (pw_nodes w)) =
               alter (with_extra (hof l, hof r)) p (pw_nodes w)).
  { rewrite alter_alter_eq. apply alter_ext. intros n Hn. rewrite Hp in Hn. by injection Hn as <-. }
  rewrite Ha. destruct Hstep as [((Hs&_)%linked_plug&_) _].
  eapply returns_load_factor; [exact Hs|unfold small_height; simpl; lia..|exact Hk].
Qed.

(** The rotation of the child, when it is needed. *)
Lemma tilt_right_run c p d l r w :
  avl_in (plug c (T p d l r)) w → few (plug c (T p d l r)) → avl r → r ≠ E →
  returns ((if root r =? 0 then mret tt else
            f ← load_factor (root r); if f =? 1 then avlt_rotate_right (root r) else mret tt) w) (λ '(_, w'),
    ∃ h, avl_step (plug c (T p d l r)) w (plug c (T p (d.1, (d.2.1, h)) l (tilt_right r))) w').
Proof.
  intros Hin Hf Hr Hne. pose proof Hin as [Ht Hh]. apply few_plug, few_T in Hf as [_ Hf].
  assert (Hsame : avl_step (plug c (T p d l r)) w (plug c (T p (d.1, (d.2.1, d.2.2)) l r)) w).
  { destruct d as [? [? ?]]. split; [|done]. split; [done|]. by split. }
  destruct r as [|y dy b e]; [done|]. pose proof Hr as (Hd&Hbal&Hb&He).
  apply few_T in Hf as [Hfb Hfe]. pose proof (few_hof _ Hb Hfb). pose proof (few_hof _ He Hfe).
  pose proof Hh as (Hs&_)%linked_plug. cbn [shape root] in Hs. destruct Hs as (_&_&_&Hs).
  cbn [root]. pose proof Hs as (Hy0&_). rewrite (proj2 (Z.eqb_neq y 0)) by done. go.
  eapply returns_load_factor; [exact Hs|rewrite Hd; unfold small_height; simpl; lia..|].
  destruct b as [|z dz b1 b2].
  - rewrite Hd. simpl. destruct (Z.eqb_spec (0 - hof e) 1); [lia|]. go. by eexists.
  - unfold tilt_right. destruct (Z.eqb_spec (dy.2.1 - dy.2.2) 1); [|go; by eexists].
    cbn [avl] in Hb. destruct Hb as (Hdz&Hbz&Hb1&Hb2).
    apply few_T in Hfb as [Hf1 Hf2]. pose proof (few_hof _ Hb1 Hf1). pose proof (few_hof _ Hb2 Hf2).
    eapply returns_mono.
    { apply (avl_rotate_right_ok (FR p d l :: c) y dy z dz b1 b2 e); [exact Hh|rewrite ?Hd, ?Hdz; unfold small_height; simpl; lia..]. }
    intros [[] w'] [Hrel Ht']. eexists. split; [exact Hrel|]. rewrite Ht', Ht.
    f_equal. f_equal. cbn [plug retop]. by apply root_plug.
Qed.
Lemma tilt_left_run c p d l r w :
  avl_in (plug c (T p d l r)) w → few (plug c (T p d l r)) → avl l → l ≠ E →
  returns ((if root l =? 0 then mret tt else
            f ← load_factor (root l); if f =? -1 then avlt_rotate_left (root l) else mret tt) w) (λ '(_, w'),
    ∃ h, avl_step (plug c (T p d l r)) w (plug c (T p (d.1, (h, d.2.2)) (tilt_left l) r)) w').
Proof.
  intros Hin Hf Hl Hne. pose proof Hin as [Ht Hh]. apply few_plug, few_T in Hf as [Hf _].
  assert (Hsame : avl_step (plug c (T p d l r)) w (plug c (T p (d.1, (d.2.1, d.2.2)) l r)) w).
  { destruct d as [? [? ?]]. split; [|done]. split; [done|]. by split. }
  destruct l as [|y dy a b]; [done|]. pose proof Hl as (Hd&Hbal&Ha&Hb).
  apply few_T in Hf as [Hfa Hfb]. pose proof (few_hof _ Ha Hfa). pose proof (few_hof _ Hb Hfb).
  pose proof Hh as (Hs&_)%linked_plug. cbn [shape root] in Hs. destruct Hs as (_&_&Hs&_).
  cbn [root]. pose proof Hs as (Hy0&_). rewrite (proj2 (Z.eqb_neq y 0)) by done. go.
  eapply returns_load_factor; [exact Hs|rewrite Hd; unfold small_height; simpl; lia..|].
  destruct b as [|z dz b1 b2].
  - rewrite Hd. simpl. destruct (Z.eqb_spec (hof a - 0) (-1)); [lia|]. go. by eexists.
  - unfold tilt_left. destruct (Z.eqb_spec (dy.2.1 - dy.2.2) (-1)); [|go; by eexists].
    cbn [avl] in Hb. destruct Hb as (Hdz&Hbz&Hb1&Hb2).
    apply few_T in Hfb as [Hf1 Hf2]. pose proof (few_hof _ Hb1 Hf1). pose proof (few_hof _ Hb2 Hf2).
    eapply returns_mono.
    { apply (avl_rotate_left_ok (FL p d r :: c) y dy z dz a b1 b2); [exact Hh|rewrite ?Hd, ?Hdz; unfold small_height; simpl; lia..]. }
    intros [[] w'] [Hrel Ht']. eexists. split; [exact Hrel|]. rewrite Ht', Ht.
    f_equal. f_equal. cbn [plug retop]. by apply root_plug.
Qed.

(** The rotation of the node, and where the loop goes on. *)
Definition next_of (up : Z) (p a b : Z) : Z + unit :=
  inl (if (-1 <=? a - b) && (a - b <=? 1) then up else p).

Lemma returns_update_root c x y t t' w Q :
  (c = [] → root t = x ∧ root t' = y) → (c ≠ [] → top c ≠ 0 ∧ root (plug c t) ≠ x) →
  pw_tree w = Some (mk_ptree (root (plug c t)) cb fr) →
  (∃ n, pw_nodes w !! x = Some n ∧ pn_parent n = y) →
  Q (tt, put_tree (Some (mk_ptree (root (plug c t')) cb fr)) w) → returns (update_root x w) Q.
Proof.
  intros Hnil Hcons Ht (n&Hn&Hpar) HQ. unfold update_root. go. eapply returns_load_ptree; [done|]. go. cbn [pt_root].
  destruct c as [|f c].
  - destruct (Hnil eq_refl) as [Hx Hy]. cbn [plug] in *. rewrite Hx, Z.eqb_refl. go. eapply returns_load_pn; [done|].
    rewrite Hpar. eapply returns_set_root; [done|]. unfold with_root. cbn [cmp_keys_cb free_value_cb]. by rewrite <- Hy.
  - destruct (Hcons ltac:(done)) as [Htop Hx]. rewrite (proj2 (Z.eqb_neq _ x)) by done. go.
    rewrite (root_plug_any (f :: c) t' t), <- Ht in HQ by done. by destruct w.
Qed.
(** A node of a subtree is not the root of the tree, below a path. *)
Lemma root_not_below N c t x :
  linked N (plug c t) → x ∈ (flat t).*1 → c ≠ [] → top c ≠ 0 ∧ root (plug c t) ≠ x.
Proof.
  intros (_&Hc&Hnd&_)%linked_plug Hx Hne. split; [by eapply path_top|].
  pose proof (root_plug_path c t Hne) as Hr. intros E. rewrite E in Hr. count x.
Qed.

Lemma rotate_left_run c p d l y dy b e w :
  let t := T p d l (T y dy b e) in let t' := rot_left p d l y dy b e in
  avl_in (plug c t) w → small_height d.2.1 → small_height dy.2.2 → small_height (hof b) →
  returns ((_ ← avlt_rotate_left p; _ ← update_root p; next_node p) w) (λ '(res, w'),
    res = next_of y p d.2.1 (hof b) ∧ avl_step (plug c t) w (plug (retop (hof t') c) t') w').
Proof.
  intros t t' [Ht Hh] Hd Hy Hb. go. eapply returns_mono; [by apply avl_rotate_left_ok|].
  intros [[] w1] [Hrel Ht1]. fold t' in Hrel. go.
  pose proof Hrel as (Hh1&_). pose proof Hh1 as (Hs&_)%linked_plug.
  unfold t' in Hs. cbn [rot_left shape root] in Hs. destruct Hs as (Hy0&Hpy&(Hp0&Hp&_)&_).
  eapply (returns_update_root (retop (hof t') c) p y t t').
  - destruct c as [|[]]; by intros.
  - intros Hne. rewrite retop_top, retop_root.
    apply (root_not_below (pw_nodes w)); [done| |by destruct c]. unfold t. cbn [flat]. count p.
  - by rewrite Ht1, Ht, retop_root.
  - eexists. split; [exact Hp|done].
  - go. unfold next_node, load_factor, small_height in *. go. eapply returns_load_pn; [exact Hp|].
    unfold hl, hr. fields. go. eapply returns_load_pn; [exact Hp|]. fields. split; [done|].
    split; [exact Hrel|done].
Qed.
Lemma rotate_right_run c p d y dy a b r w :
  let t := T p d (T y dy a b) r in let t' := rot_right p d y dy a b r in
  avl_in (plug c t) w → small_height d.2.2 → small_height dy.2.1 → small_height (hof b) →
  returns ((_ ← avlt_rotate_right p; _ ← update_root p; next_node p) w) (λ '(res, w'),
    res = next_of y p (hof b) d.2.2 ∧ avl_step (plug c t) w (plug (retop (hof t') c) t') w').
Proof.
  intros t t' [Ht Hh] Hd Hy Hb. go. eapply returns_mono; [by apply avl_rotate_right_ok|].
  intros [[] w1] [Hrel Ht1]. fold t' in Hrel. go.
  pose proof Hrel as (Hh1&_). pose proof Hh1 as (Hs&_)%linked_plug.
  unfold t' in Hs. cbn [rot_right shape root] in Hs. destruct Hs as (Hy0&Hpy&_&(Hp0&Hp&_)).
  eapply (returns_update_root (retop (hof t') c) p y t t').
  - destruct c as [|[]]; by intros.
  - intros Hne. rewrite retop_top, retop_root.
    apply (root_not_below (pw_nodes w)); [done| |by destruct c]. unfold t. cbn [flat]. count p.
  - by rewrite Ht1, Ht, retop_root.
  - eexists. split; [exact Hp|done].
  - go. unfold next_node, load_factor, small_height in *. go. eapply returns_load_pn; [exact Hp|].
    unfold hl, hr. fields. go. eapply returns_load_pn; [exact Hp|]. fields. split; [done|].
    split; [exact Hrel|done].
Qed.

(** The three cases of an iteration. *)
Section step.
Context (c : apath) (p : Z) (d : key * Z * (Z * Z)) (l r : atree) (w : pworld (Z * Z)).
Context (Hin : avl_in (plug c (T p d l r)) w) (Hfew : few (plug c (T p d l r))).
Context (Hl : avl l) (Hr : avl r).

Lemma balance_level :
  -1 ≤ hof l - hof r ≤ 1 →
  returns (balance_body p w) (λ '(res, w'), res = inl (top c) ∧
    avl_step (plug c (T p d l r)) w (plug c (T p (d.1, (hof l, hof r)) l r)) w').
Proof using All.
  intros Hb. destruct (balance_heights c p d l r w Hin Hfew Hl Hr) as (w1&Hrun&Hstep).
  pose proof Hin as [_ [Hp Hp0]%linked_focus]. unfold balance_body.
  rewrite (proj2 (Z.eqb_neq p 0)) by done. go. eapply returns_load_pn; [done|]. fields. apply Hrun.
  destruct (Z.leb_spec (hof l - hof r) (-2)); [lia|]. destruct (Z.leb_spec 2 (hof l - hof r)); [lia|].
  pose proof (avl_step_in _ _ _ _ Hstep) as [_ [Hp1 _]%linked_focus].
  go. eapply returns_load_pn; [exact Hp1|]. fields. by go.
Qed.
Lemma balance_right :
  hof l + 2 ≤ hof r →
  ∃ y dy b e h, tilted (hof r) (even r) b e ∧ dy.2 = (hof b, hof e) ∧ flat (T y dy b e) = flat r ∧
    let t' := rot_left p (d.1, (hof l, hof b)) l y dy b e in
    returns (balance_body p w) (λ '(res, w'), res = next_of y p (hof l) (hof b) ∧
      avl_step (plug c (T p d l r)) w (plug (retop h c) t') w').
Proof using All.
  intros Hb. destruct (balance_heights c p d l r w Hin Hfew Hl Hr) as (w1&Hrun&Hstep).
  pose proof Hin as [_ [Hp Hp0]%linked_focus]. pose proof (avl_hof_nonneg l Hl).
  assert (Hr0 : r ≠ E) by (intros ->; simpl in Hb; lia).
  destruct (tilt_right_ok r Hr Hr0) as (y&dy&b&e&Htilt&Hflat&Hdy&Ht).
  pose proof (avl_step_in _ _ _ _ Hstep) as Hin1.
  assert (Hfew1 : few (plug c (T p (d.1, (hof l, hof r)) l r))) by (unfold few; by rewrite (avl_step_flat _ _ _ _ Hstep)).
  exists y, dy, b, e, (hof (rot_left p (d.1, (hof l, hof b)) l y dy b e)).
  split; [done|]. split; [done|]. split; [done|]. cbv zeta. unfold balance_body.
  rewrite (proj2 (Z.eqb_neq p 0)) by done. go. eapply returns_load_pn; [done|]. fields. apply Hrun.
  destruct (Z.leb_spec (hof l - hof r) (-2)); [|lia]. go.
  eapply returns_mono; [by apply (tilt_right_run c p (d.1, (hof l, hof r)) l r w1)|].
  intros [[] w2] (h&Hstep2). cbn [fst snd] in Hstep2. rewrite Htilt in Hstep2.
  pose proof (few_plug _ _ Hfew) as [Hfl Hfr]%few_T. pose proof (few_hof _ Hl Hfl). pose proof (few_hof _ Hr Hfr).
  pose proof Ht as (Hab&Hae&Hoe&_).
  assert (Hfbe : few b ∧ few e) by (apply (few_T y dy); unfold few; by rewrite Hflat).
  pose proof (few_hof _ Hab (proj1 Hfbe)). pose proof (few_hof _ Hae (proj2 Hfbe)).
  eapply returns_mono.
  { apply (rotate_left_run c p (d.1, (hof l, h)) l y dy b e w2); [by eapply avl_step_in|rewrite ?Hdy; unfold small_height; simpl; lia..]. }
  intros [res w3] [-> Hstep3]. split; [done|]. eapply avl_step_trans; [exact Hstep|].
  eapply avl_step_trans; [exact Hstep2|exact Hstep3].
Qed.
Lemma balance_left :
  hof r + 2 ≤ hof l →
  ∃ y dy a b h, tilted (hof l) (even l) b a ∧ dy.2 = (hof a, hof b) ∧ flat (T y dy a b) = flat l ∧
    let t' := rot_right p (d.1, (hof b, hof r)) y dy a b r in
    returns (balance_body p w) (λ '(res, w'), res = next_of y p (hof b) (hof r) ∧
      avl_step (plug c (T p d l r)) w (plug (retop h c) t') w').
Proof using All.
  intros Hb. destruct (balance_heights c p d l r w Hin Hfew Hl Hr) as (w1&Hrun&Hstep).
  pose proof Hin as [_ [Hp Hp0]%linked_focus]. pose proof (avl_hof_nonneg r Hr).
  assert (Hl0 : l ≠ E) by (intros ->; simpl in Hb; lia).
  destruct (tilt_left_ok l Hl Hl0) as (y&dy&a&b&Htilt&Hflat&Hdy&Ht).
  pose proof (avl_step_in _ _ _ _ Hstep) as Hin1.
  assert (Hfew1 : few (plug c (T p (d.1, (hof l, hof r)) l r))) by (unfold few; by rewrite (avl_step_flat _ _ _ _ Hstep)).
  exists y, dy, a, b, (hof (rot_right p (d.1, (hof b, hof r)) y dy a b r)).
  split; [done|]. split; [done|]. split; [done|]. cbv zeta. unfold balance_body.
  rewrite (proj2 (Z.eqb_neq p 0)) by done. go. eapply returns_load_pn; [done|]. fields. apply Hrun.
  destruct (Z.leb_spec (hof l - hof r) (-2)); [lia|]. destruct (Z.leb_spec 2 (hof l - hof r)); [|lia]. go.
  eapply returns_mono; [by apply (tilt_left_run c p (d.1, (hof l, hof r)) l r w1)|].
  intros [[] w2] (h&Hstep2). cbn [fst snd] in Hstep2. rewrite Htilt in Hstep2.
  pose proof (few_plug _ _ Hfew) as [Hfl Hfr]%few_T. pose proof (few_hof _ Hl Hfl). pose proof (few_hof _ Hr Hfr).
  pose proof Ht as (Hab&Haa&Hoa&_).
  assert (Hfab : few a ∧ few b) by (apply (few_T y dy); unfold few; by rewrite Hflat).
  pose proof (few_hof _ Haa (proj1 Hfab)). pose proof (few_hof _ Hab (proj2 Hfab)).
  eapply returns_mono.
  { apply (rotate_right_run c p (d.1, (h, hof r)) y dy a b r w2); [by eapply avl_step_in|rewrite ?Hdy; unfold small_height; simpl; lia..]. }
  intros [res w3] [-> Hstep3]. split; [done|]. eapply avl_step_trans; [exact Hstep|].
  eapply avl_step_trans; [exact Hstep2|exact Hstep3].
Qed.
End step.
End balance.
