(* ===== verification/AvltreeJoin.v ===== *)
(** * AVL trees: the balancing loop

    From a node whose two sides are balanced trees of any heights, the loop
    sinks the node into the higher side until it is balanced, and climbs back:
    it leaves a balanced tree, and visits few nodes. *)

From S2P Require Import Prelude Comparators SortedDict Ptree PtreeSearch Avltree AvltreeShape AvltreeBalance.

(** ** Iterations *)

(** [m] iterations of the loop lead from the node [p] to the node [q]. *)
Inductive climbs : Z → pworld (Z * Z) → Z → Z → pworld (Z * Z) → Prop :=
  | climbs_refl p w : climbs p w 0 p w
  | climbs_step p w q w1 m r w2 :
      balance_body p w = Ret (inl q, w1) → climbs q w1 m r w2 → climbs p w (m + 1) r w2.

Lemma climbs_one p w q w1 : balance_body p w = Ret (inl q, w1) → climbs p w 1 q w1.
Proof. intros H. apply (climbs_step p w q w1 0); [done|apply climbs_refl]. Qed.
Lemma climbs_trans p w m q w1 n r w2 : climbs p w m q w1 → climbs q w1 n r w2 → climbs p w (m + n) r w2.
Proof.
  induction 1 as [|p w q' w' m r' w1' Hb _ IH]; intros H; [done|].
  replace (m + 1 + n) with (m + n + 1) by lia. eapply climbs_step; [done|]. by apply IH.
Qed.
Lemma climbs_loop p w m w' : climbs p w m 0 w' → m < 2 ^ 64 → avlt_balance p w = Ret (tt, w').
Proof.
  intros Hc Hm. unfold avlt_balance, loopS. apply (runs_loop _ _ m); [|done]. clear Hm.
  remember 0 as z eqn:Hz in Hc. induction Hc as [p w|p w q w1 m r w2 Hb _ IH]; subst.
  - by apply runs_exit.
  - eapply runs_step; [|by apply IH]. unfold loop_body. cbn [fst snd]. by rewrite Hb.
Qed.

(** ** The height of the result *)

Definition joined (l r : atree) (h : Z) : Prop :=
  if decide (-1 ≤ hof l - hof r ≤ 1) then h = Z.max (hof l) (hof r) + 1
  else if decide (hof l - hof r = 2) then h = if even l then hof l + 1 else hof l
  else if decide (hof r - hof l = 2) then h = if even r then hof r + 1 else hof r
  else h = Z.max (hof l) (hof r) ∨ h = Z.max (hof l) (hof r) + 1.

Lemma retop_self c : ∃ h, c = retop h c.
Proof. destruct c as [|[p [d [h1 h2]] t|p [d [h1 h2]] t] c]; [by exists 0|by exists h1|by exists h2]. Qed.
Lemma retop_twice h h' c : retop h (retop h' c) = retop h c.
Proof. by destruct c as [|[]]. Qed.

Section join.
Context (cb : option libhl_cmp_callback_t) (fr : bool).
Abbreviation avl_in := (avl_in cb fr).
Abbreviation avl_step := (avl_step cb fr).

(** The subtree at [c] becomes a balanced one, and the loop is at its parent. *)
Definition settles (c : apath) (t : atree) (l r : atree) (w : pworld (Z * Z)) (p bound : Z) : Prop :=
  ∃ m w' h t', climbs p w m (top c) w' ∧ m ≤ bound ∧
    avl_step (plug c t) w (plug (retop h c) t') w' ∧ avl t' ∧ flat t' = flat t ∧ joined l r (hof t').

Lemma few_step t w t' w' : avl_step t w t' w' → few t → few t'.
Proof. intros Hs. unfold few. by rewrite (avl_step_flat _ _ _ _ _ _ Hs). Qed.

Lemma settles_later c t p w m q w1 h t1 l1 r1 l r bound bound1 :
  climbs p w m q w1 → avl_step (plug c t) w (plug (retop h c) t1) w1 → flat t1 = flat t →
  settles (retop h c) t1 l1 r1 w1 q bound1 → m + bound1 ≤ bound → (∀ h', joined l1 r1 h' → joined l r h') →
  settles c t l r w p bound.
Proof.
  intros Hc Hs Hf (m1&w2&h2&t2&Hc2&Hm&Hs2&Ha&Hf2&Hj) Hb Hjj.
  rewrite retop_twice, retop_top in *. exists (m + m1), w2, h2, t2.
  split; [by eapply climbs_trans|]. split; [lia|].
  split; [by eapply avl_step_trans|]. split; [done|]. split; [congruence|auto].
Qed.

Lemma join_level c p d l r w :
  avl_in (plug c (T p d l r)) w → few (plug c (T p d l r)) → avl l → avl r → -1 ≤ hof l - hof r ≤ 1 →
  settles c (T p d l r) l r w p 1.
Proof.
  intros Hin Hf Hl Hr Hb.
  destruct (returns_inv _ _ (balance_level cb fr c p d l r w Hin Hf Hl Hr Hb)) as ([res w']&Hbody&->&Hs).
  destruct (retop_self c) as [h Hh]. exists 1, w', h, (T p (d.1, (hof l, hof r)) l r). rewrite <- Hh.
  split; [by apply climbs_one|]. split; [done|]. split; [done|]. split; [done|]. split; [done|].
  unfold joined. simpl. by rewrite decide_True.
Qed.

Ltac flats H :=
  unfold rot_left, rot_right; cbn [flat fst snd] in *; rewrite <- H;
  repeat first [rewrite <- app_assoc | rewrite <- app_comm_cons].

(** Sides whose heights differ by two: one rotation. *)
Lemma join_near c p d l r w :
  avl_in (plug c (T p d l r)) w → few (plug c (T p d l r)) → avl l → avl r → -2 ≤ hof l - hof r ≤ 2 →
  settles c (T p d l r) l r w p 2.
Proof.
  intros Hin Hf Hl Hr Hb. destruct (decide (-1 ≤ hof l - hof r ≤ 1)) as [Hlev|Hlev].
  { destruct (join_level c p d l r w) as (m&w'&h&t'&?&?&?&?&?&?); try done. exists m, w', h, t'. split_and!; try done. lia. }
  destruct (decide (hof l + 2 ≤ hof r)) as [Hright|Hright].
  - destruct (balance_right cb fr c p d l r w Hin Hf Hl Hr Hright) as (y&dy&b&e&h&Ht&Hdy&Hflat&Hbody).
    apply returns_inv in Hbody as ([res w1]&Hbody&->&Hs). destruct Ht as (Hab&Hae&Hoe&Hev&Hodd).
    assert (Hbal : -1 ≤ hof l - hof b ≤ 1) by (destruct (even r); [specialize (Hev eq_refl)|specialize (Hodd eq_refl)]; lia).
    unfold next_of in Hbody. rewrite (proj2 (Z.leb_le _ _)), (proj2 (Z.leb_le _ _)) in Hbody by lia.
    eapply (settles_later c _ p w 1 y w1 h _ _ _ l r 2 1); [by apply climbs_one|exact Hs| | |reflexivity|].
    + by flats Hflat.
    + unfold rot_left in *. apply join_level; [by eapply avl_step_in|by eapply few_step|by simpl|done|].
      simpl. destruct (even r); [specialize (Hev eq_refl)|specialize (Hodd eq_refl)]; lia.
    + intros h'. unfold joined at 1. simpl. destruct (even r) eqn:Er;
        [specialize (Hev eq_refl)|specialize (Hodd eq_refl)]; rewrite decide_True by lia; intros ->;
        unfold joined; rewrite decide_False, decide_False, decide_True, Er by lia; lia.
  - destruct (balance_left cb fr c p d l r w Hin Hf Hl Hr) as (y&dy&a&b&h&Ht&Hdy&Hflat&Hbody); [lia|].
    apply returns_inv in Hbody as ([res w1]&Hbody&->&Hs). destruct Ht as (Hab&Haa&Hoa&Hev&Hodd).
    assert (Hbal : -1 ≤ hof b - hof r ≤ 1) by (destruct (even l); [specialize (Hev eq_refl)|specialize (Hodd eq_refl)]; lia).
    unfold next_of in Hbody. rewrite (proj2 (Z.leb_le _ _)), (proj2 (Z.leb_le _ _)) in Hbody by lia.
    eapply (settles_later c _ p w 1 y w1 h _ _ _ l r 2 1); [by apply climbs_one|exact Hs| | |reflexivity|].
    + by flats Hflat.
    + unfold rot_right in *. apply join_level; [by eapply avl_step_in|by eapply few_step|done|by simpl|].
      simpl. destruct (even l); [specialize (Hev eq_refl)|specialize (Hodd eq_refl)]; lia.
    + intros h'. unfold joined at 1. simpl. destruct (even l) eqn:El;
        [specialize (Hev eq_refl)|specialize (Hodd eq_refl)]; rewrite decide_True by lia; intros ->;
        unfold joined; rewrite decide_False, decide_True, El by lia; lia.
Qed.

(** The node sinks into the higher side, and its parent there is balanced. *)
Lemma settles_left c t p y dy e l r w bound :
  settles (FL y dy e :: c) t l r w p bound →
  avl_in (plug c (T y dy t e)) w → few (plug c (T y dy t e)) → avl e →
  (∀ h', joined l r h' → -2 ≤ h' - hof e ≤ 2) →
  ∃ m w' h t' t2, climbs p w m (top c) w' ∧ m ≤ bound + 2 ∧
    avl_step (plug c (T y dy t e)) w (plug (retop h c) t') w' ∧ avl t' ∧ flat t' = flat (T y dy t e) ∧
    joined l r (hof t2) ∧ joined t2 e (hof t').
Proof.
  intros (m&w1&h&t1&Hc&Hm&Hs&Ha&Hf&Hj) Hin Hfew He Hnear. cbn [plug retop top frame_addr] in *.
  destruct (join_near c y (dy.1, (h, dy.2.2)) t1 e w1) as (m2&w2&h2&t2&Hc2&Hm2&Hs2&Ha2&Hf2&Hj2);
    [by eapply avl_step_in|by eapply few_step|done|done|by apply Hnear|].
  exists (m + m2), w2, h2, t2, t1. split; [by eapply climbs_trans|]. split; [lia|].
  split; [by eapply avl_step_trans|]. split; [done|]. split; [|done].
  rewrite Hf2. cbn [flat]. by rewrite Hf.
Qed.
Lemma settles_right c t p y dy e l r w bound :
  settles (FR y dy e :: c) t l r w p bound →
  avl_in (plug c (T y dy e t)) w → few (plug c (T y dy e t)) → avl e →
  (∀ h', joined l r h' → -2 ≤ h' - hof e ≤ 2) →
  ∃ m w' h t' t2, climbs p w m (top c) w' ∧ m ≤ bound + 2 ∧
    avl_step (plug c (T y dy e t)) w (plug (retop h c) t') w' ∧ avl t' ∧ flat t' = flat (T y dy e t) ∧
    joined l r (hof t2) ∧ joined e t2 (hof t').
Proof.
  intros (m&w1&h&t1&Hc&Hm&Hs&Ha&Hf&Hj) Hin Hfew He Hnear. cbn [plug retop top frame_addr] in *.
  destruct (join_near c y (dy.1, (dy.2.1, h)) e t1 w1) as (m2&w2&h2&t2&Hc2&Hm2&Hs2&Ha2&Hf2&Hj2);
    [by eapply avl_step_in|by eapply few_step|done|done|specialize (Hnear _ Hj); lia|].
  exists (m + m2), w2, h2, t2, t1. split; [by eapply climbs_trans|]. split; [lia|].
  split; [by eapply avl_step_trans|]. split; [done|]. split; [|done].
  rewrite Hf2. cbn [flat]. by rewrite Hf.
Qed.

(** Case analysis on which height is the greater, and by how much. *)
Ltac height_cases :=
  unfold joined in *; simpl in *;
  repeat match goal with
  | H : context [decide ?P] |- _ => destruct (decide P) in *
  | |- context [decide ?P] => destruct (decide P) in *
  | H : context [if even ?t then _ else _] |- _ => destruct (even t) in *
  | |- context [if even ?t then _ else _] => destruct (even t) in *
  end; try lia.

Lemma join_far (n : nat) c p d l r w :
  avl_in (plug c (T p d l r)) w → few (plug c (T p d l r)) → avl l → avl r →
  Z.max (hof l) (hof r) ≤ Z.of_nat n → settles c (T p d l r) l r w p (3 * Z.of_nat n + 2).
Proof.
  revert c p d l r w. induction n as [|n IH]; intros c p d l r w Hin Hf Hl Hr Hn;
    pose proof (avl_hof_nonneg l Hl) as Hl0; pose proof (avl_hof_nonneg r Hr) as Hr0.
  { destruct (join_near c p d l r w) as (m&w'&h&t'&?&?&?&?&?&?); try done; [lia|].
    exists m, w', h, t'. split; [done|]. split; [lia|done]. }
  destruct (decide (-2 ≤ hof l - hof r ≤ 2)) as [Hnear|Hfar].
  { destruct (join_near c p d l r w) as (m&w'&h&t'&?&?&?&?&?&?); try done.
    exists m, w', h, t'. split; [done|]. split; [lia|done]. }
  destruct (decide (hof l + 2 ≤ hof r)) as [Hright|Hright].
  - destruct (balance_right cb fr c p d l r w Hin Hf Hl Hr Hright) as (y&dy&b&e&h&Ht&Hdy&Hflat&Hbody).
    apply returns_inv in Hbody as ([res w1]&Hbody&->&Hs). destruct Ht as (Hab&Hae&Hoe&Hev&Hodd).
    pose proof (few_step _ _ _ _ Hs Hf) as Hf1. unfold next_of in Hbody.
    destruct ((-1 <=? hof l - hof b) && (hof l - hof b <=? 1)) eqn:Eb.
    + apply andb_true_iff in Eb as [Eb1%Z.leb_le Eb2%Z.leb_le].
      assert (Hhb : hof r - 3 ≤ hof b ≤ hof r - 2) by (destruct (even r); [specialize (Hev eq_refl)|specialize (Hodd eq_refl)]; lia).
      eapply (settles_later c _ p w 1 y w1 h _ _ _ l r _ 2); [by apply climbs_one|exact Hs|by flats Hflat| |lia|].
      * unfold rot_left in *. apply join_near; [by eapply avl_step_in|done|by simpl|done|simpl; lia].
      * intros h'. destruct (even r); [specialize (Hev eq_refl)|specialize (Hodd eq_refl)]; intros; height_cases.
    + assert (Hsink : hof l + 2 ≤ hof b).
      { apply andb_false_iff in Eb. rewrite !Z.leb_gt in Eb. destruct (even r); [specialize (Hev eq_refl)|specialize (Hodd eq_refl)]; lia. }
      unfold rot_left in *. cbv zeta in Hs, Hf1. set (dp := (d.1, (hof l, hof b)).1) in *.
      pose proof (avl_step_in _ _ _ _ _ _ Hs) as Hin1.
      destruct (settles_left (retop h c) _ p y _ e l b w1 (3 * Z.of_nat n + 2)
        (IH (FL y _ e :: retop h c) p _ l b w1 Hin1 Hf1 Hl Hab ltac:(destruct (even r); [specialize (Hev eq_refl)|specialize (Hodd eq_refl)]; lia))
        Hin1 Hf1 Hae) as (m&w2&h2&t2&t3&Hc2&Hm2&Hs2&Ha2&Hf2&Hj2&Hj3).
      { intros h'. destruct (even r); [specialize (Hev eq_refl)|specialize (Hodd eq_refl)]; intros; height_cases.
}
      exists (1 + m), w2, h2, t2. rewrite retop_twice, retop_top in *.
      split; [eapply climbs_trans; [by apply climbs_one|exact Hc2]|]. split; [lia|].
      split; [eapply avl_step_trans; [exact Hs|exact Hs2]|]. split; [done|].
      split; [rewrite Hf2; by flats Hflat|].
      destruct (even r) eqn:Er; [specialize (Hev eq_refl)|specialize (Hodd eq_refl)]; height_cases.
  - assert (Hleft : hof r + 2 ≤ hof l) by lia.
    destruct (balance_left cb fr c p d l r w Hin Hf Hl Hr Hleft) as (y&dy&a&b&h&Ht&Hdy&Hflat&Hbody).
    apply returns_inv in Hbody as ([res w1]&Hbody&->&Hs). destruct Ht as (Hab&Haa&Hoa&Hev&Hodd).
    pose proof (few_step _ _ _ _ Hs Hf) as Hf1. unfold next_of in Hbody.
    destruct ((-1 <=? hof b - hof r) && (hof b - hof r <=? 1)) eqn:Eb.
    + apply andb_true_iff in Eb as [Eb1%Z.leb_le Eb2%Z.leb_le].
      assert (Hhb : hof l - 3 ≤ hof b ≤ hof l - 2) by (destruct (even l); [specialize (Hev eq_refl)|specialize (Hodd eq_refl)]; lia).
      eapply (settles_later c _ p w 1 y w1 h _ _ _ l r _ 2); [by apply climbs_one|exact Hs|by flats Hflat| |lia|].
      * unfold rot_right in *. apply join_near; [by eapply avl_step_in|done|done|by simpl|simpl; lia].
      * intros h'. destruct (even l); [specialize (Hev eq_refl)|specialize (Hodd eq_refl)]; intros; height_cases.
    + assert (Hsink : hof r + 2 ≤ hof b).
      { apply andb_false_iff in Eb. rewrite !Z.leb_gt in Eb. destruct (even l); [specialize (Hev eq_refl)|specialize (Hodd eq_refl)]; lia. }
      unfold rot_right in *. cbv zeta in Hs, Hf1. set (dp := (d.1, (hof b, hof r)).1) in *.
      pose proof (avl_step_in _ _ _ _ _ _ Hs) as Hin1.
      destruct (settles_right (retop h c) _ p y _ a b r w1 (3 * Z.of_nat n + 2)
        (IH (FR y _ a :: retop h c) p _ b r w1 Hin1 Hf1 Hab Hr ltac:(destruct (even l); [specialize (Hev eq_refl)|specialize (Hodd eq_refl)]; lia))
        Hin1 Hf1 Haa) as (m&w2&h2&t2&t3&Hc2&Hm2&Hs2&Ha2&Hf2&Hj2&Hj3).
      { intros h'. destruct (even l); [specialize (Hev eq_refl)|specialize (Hodd eq_refl)]; intros; height_cases. }
      exists (1 + m), w2, h2, t2. rewrite retop_twice, retop_top in *.
      split; [eapply climbs_trans; [by apply climbs_one|exact Hc2]|]. split; [lia|].
      split; [eapply avl_step_trans; [exact Hs|exact Hs2]|]. split; [done|].
      split; [rewrite Hf2; by flats Hflat|].
      destruct (even l) eqn:El; [specialize (Hev eq_refl)|specialize (Hodd eq_refl)]; height_cases.
Qed.

(** ** The whole loop *)

Lemma climb_path c t w :
  avl_in (plug c t) w → few (plug c t) → avl t → avl_path c →
  ∃ m w' t', climbs (top c) w m 0 w' ∧ m ≤ Z.of_nat (length c) * (3 * 2 ^ 31) ∧
    avl_step (plug c t) w t' w' ∧ avl t'.
Proof.
  remember (length c) as n eqn:Hn. revert c t w Hn. induction n as [|n IH]; intros c t w Hn Hin Hf Ht Hc.
  { destruct c; [|done]. cbn [top plug] in *. exists 0, w, t. split; [apply climbs_refl|]. split; [lia|].
    split; [|done]. destruct Hin. split; [|done]. by split. }
  assert (∃ c1 p d l r, plug c t = plug c1 (T p d l r) ∧ top c = p ∧ avl l ∧ avl r ∧ avl_path c1 ∧ n = length c1)
    as (c1&p&d&l&r&Hplug&->&Hl&Hr&Hc1&Hn1).
  { destruct c as [|[p d s|p d s] c1]; [done|..]; cbn [avl_path length] in *; destruct Hc;
      (eexists c1, p, d, _, _; split; [reflexivity|]; split_and!; try done; lia). }
  rewrite Hplug in *. pose proof (few_T _ _ _ _ (few_plug _ _ Hf)) as [Hfl Hfr].
  pose proof (few_hof _ Hl Hfl). pose proof (few_hof _ Hr Hfr).
  destruct (join_far (Z.to_nat (Z.max (hof l) (hof r))) c1 p d l r w Hin Hf Hl Hr ltac:(lia))
    as (m1&w1&h&t1&Hc2&Hm1&Hs1&Ha1&Hf1&_).
  destruct (IH (retop h c1) t1 w1) as (m2&w2&t2&Hc3&Hm2&Hs2&Ha2);
    [by rewrite retop_length|by eapply avl_step_in|by eapply few_step|done|by apply retop_avl|].
  exists (m1 + m2), w2, t2. rewrite retop_top in Hc3. split; [by eapply climbs_trans|]. split; [lia|].
  split; [by eapply avl_step_trans|done].
Qed.

Lemma path_flat (c : apath) (t : atree) : (length c ≤ length (flat (plug c t)))%nat.
Proof. pose proof (height_plug c t). pose proof (height_flat (plug c t)). lia. Qed.

(** [avlt_balance] from a node whose two sides are balanced. *)
Lemma balance_ok c p d l r w :
  avl_in (plug c (T p d l r)) w → few (plug c (T p d l r)) → avl l → avl r → avl_path c →
  returns (avlt_balance p w) (λ '(_, w'), ∃ t', avl_step (plug c (T p d l r)) w t' w' ∧ avl t').
Proof.
  intros Hin Hf Hl Hr Hc. pose proof (few_T _ _ _ _ (few_plug _ _ Hf)) as [Hfl Hfr].
  pose proof (few_hof _ Hl Hfl). pose proof (few_hof _ Hr Hfr).
  destruct (join_far (Z.to_nat (Z.max (hof l) (hof r))) c p d l r w Hin Hf Hl Hr ltac:(lia))
    as (m1&w1&h&t1&Hc1&Hm1&Hs1&Ha1&Hf1&_).
  pose proof (few_step _ _ _ _ Hs1 Hf) as Hfew1.
  destruct (climb_path (retop h c) t1 w1) as (m2&w2&t2&Hc2&Hm2&Hs2&Ha2);
    [by eapply avl_step_in|done|done|by apply retop_avl|].
  rewrite retop_top in Hc2. pose proof (path_flat (retop h c) t1) as Hlen. unfold few in Hfew1.
  rewrite (climbs_loop p w (m1 + m2) w2); [|by eapply climbs_trans|].
  - exists t2. split; [by eapply avl_step_trans|done].
  - apply (Z.le_lt_trans _ (3 * 2 ^ 31 + 2 ^ 31 * (3 * 2 ^ 31))); [|reflexivity].
    apply Z.add_le_mono; [lia|]. etransitivity; [exact Hm2|]. apply Z.mul_le_mono_nonneg_r; lia.
Qed.
End join.
