(* ===== verification/AvltreeAdd.v ===== *)
(** * AVL trees: insertion

    [avlt_add] as a function on trees.  It puts the new node at a leaf, or
    between a node and its child, where it takes over the inner subtree of the
    child; then it balances the tree from there. *)

From S2P Require Import Prelude Comparators SortedDict Ptree PtreeSearch.
From S2P Require Import Avltree AvltreeShape AvltreeBalance AvltreeJoin.

(** ** Where the new node goes *)

Section grow.
Context {cmp : libhl_cmp_callback_t} {ok : key → Prop} `{!Comparator cmp ok}.
Context (nn : Z) (k : key) (v : Z).

(** [new] between [p] and its child [q]: the place to balance from. *)
Definition put_left (c : apath) p d q (e : key * Z * (Z * Z)) (a b r : atree) : apath * atree :=
  let h := hof (T q e a b) in
  if match b with E => false | T _ db _ _ => 0 <? cmp_sign db.1.1 k end
  then (FL nn (k, v, (h, hof b)) b :: FL p d r :: c, T q (e.1, (e.2.1, 0)) a E)
  else (FL nn (k, v, (h, 0)) E :: FL p d r :: c, T q e a b).
Definition put_right (c : apath) p d (l : atree) q (e : key * Z * (Z * Z)) (b a : atree) : apath * atree :=
  let h := hof (T q e b a) in
  if match b with E => false | T _ db _ _ => cmp_sign db.1.1 k <? 0 end
  then (FR nn (k, v, (hof b, h)) b :: FR p d l :: c, T q (e.1, (0, e.2.2)) E a)
  else (FR nn (k, v, (0, h)) E :: FR p d l :: c, T q e b a).

Definition is_key (t : atree) : bool :=
  match t with E => false | T _ d _ _ => cmp_sign d.1.1 k =? 0 end.

(** The path and the subtree to balance from; [None] when [k] was found. *)
Fixpoint grow (c : apath) (t : atree) : option (apath * atree) :=
  match t with
  | E => None
  | T p d l r =>
      if cmp_sign k d.1.1 <? 0 then
        match l with
        | E => Some (c, T p (d.1, (d.2.1 + 1, d.2.2)) (T nn (k, v, (0, 0)) E E) r)
        | T q e a b =>
            if 0 <? cmp_sign e.1.1 k then grow (FL p d r :: c) l
            else if (cmp_sign e.1.1 k <? 0) && negb (is_key b) then Some (put_left c p d q e a b r)
            else None
        end
      else if 0 <? cmp_sign k d.1.1 then
        match r with
        | E => Some (c, T p (d.1, (d.2.1, d.2.2 + 1)) l (T nn (k, v, (0, 0)) E E))
        | T q e b a =>
            if cmp_sign e.1.1 k <? 0 then grow (FR p d l :: c) r
            else if (0 <? cmp_sign e.1.1 k) && negb (is_key b) then Some (put_right c p d l q e b a)
            else None
        end
      else None
  end.

(** What the balancing needs. *)
Definition ready (c : apath) (t : atree) : Prop :=
  match t with E => False | T _ _ l r => avl l ∧ avl r ∧ avl_path c end.

Lemma grow_ready c t c' t' : avl t → avl_path c → grow c t = Some (c', t') → ready c' t'.
Proof.
  revert c. induction t as [|p d l IHl r IHr]; intros c; [done|].
  intros (_&_&Hl&Hr) Hc Hg. cbn [grow] in Hg. case_match.
  - destruct l as [|q e a b]; [injection Hg as <- <-; simpl; split_and!; (done || lia)|]. case_match; [by eapply (IHl (FL p d r :: c))|].
    case_match; [|done]. injection Hg as Hg. unfold put_left in Hg. destruct Hl as (He&Hb0&Ha&Hb).
    case_match; injection Hg as <- <-; by simpl.
  - case_match; [|done]. destruct r as [|q e b a]; [injection Hg as <- <-; simpl; split_and!; (done || lia)|].
    case_match; [by eapply (IHr (FR p d l :: c))|]. case_match; [|done]. injection Hg as Hg. unfold put_right in Hg. destruct Hr as (He&Hb0&Hb&Ha).
    case_match; injection Hg as <- <-; by simpl.
Qed.
Lemma grow_flat c t c' t' : grow c t = Some (c', t') → flat (plug c' t') ≡ₚ (nn, (k, v)) :: flat (plug c t).
Proof.
  revert c. induction t as [|p d l IHl r IHr]; intros c; [done|]. intros Hg. cbn [grow] in Hg. case_match.
  - destruct l as [|q e a b].
    + injection Hg as <- <-. rewrite !flat_plug. cbn [flat app fst]. by rewrite <- Permutation_middle.
    + case_match; [by apply (IHl (FL p d r :: c))|]. case_match; [|done]. injection Hg as Hg. unfold put_left in Hg.
      case_match; injection Hg as <- <-; rewrite !flat_plug; cbn [flat pre post app fst]; rewrite ?app_nil_r;
        solve_Permutation.
  - case_match; [|done]. destruct r as [|q e b a].
    + injection Hg as <- <-. rewrite !flat_plug. cbn [flat app fst]. solve_Permutation.
    + case_match; [by apply (IHr (FR p d l :: c))|]. case_match; [|done]. injection Hg as Hg. unfold put_right in Hg.
      case_match; injection Hg as <- <-; rewrite !flat_plug; cbn [flat pre post app fst]; rewrite ?app_nil_r;
        solve_Permutation.
Qed.

Lemma grow_root c t c' t' : grow c t = Some (c', t') → root (plug c' t') = root (plug c t).
Proof.
  revert c. induction t as [|p d l IHl r IHr]; intros c; [done|]. intros Hg. cbn [grow] in Hg. case_match.
  - destruct l as [|q e a b]; [injection Hg as <- <-; by apply root_plug|].
    case_match; [by apply (IHl (FL p d r :: c))|]. case_match; [|done]. injection Hg as Hg. unfold put_left in Hg.
    case_match; injection Hg as <- <-; cbn [plug]; by apply root_plug.
  - case_match; [|done]. destruct r as [|q e b a]; [injection Hg as <- <-; by apply root_plug|].
    case_match; [by apply (IHr (FR p d l :: c))|]. case_match; [|done]. injection Hg as Hg. unfold put_right in Hg.
    case_match; injection Hg as <- <-; cbn [plug]; by apply root_plug.
Qed.

(** ** When the order is kept *)

Definition one_side (t : atree) : bool :=
  forallb (λ x, cmp_sign x.1 k <? 0) (entries t) || forallb (λ x, 0 <? cmp_sign x.1 k) (entries t).
(** The subtree taken over, if any, is on one side of the new key. *)
Fixpoint clean_place (t : atree) : bool :=
  match t with
  | E => true
  | T p d l r =>
      if cmp_sign k d.1.1 <? 0 then
        match l with
        | E => true
        | T q e a b =>
            if 0 <? cmp_sign e.1.1 k then clean_place l
            else if (cmp_sign e.1.1 k <? 0) && negb (is_key b) then one_side b else true
        end
      else if 0 <? cmp_sign k d.1.1 then
        match r with
        | E => true
        | T q e b a =>
            if cmp_sign e.1.1 k <? 0 then clean_place r
            else if (0 <? cmp_sign e.1.1 k) && negb (is_key b) then one_side b else true
        end
      else true
  end.

Context (Hk : ok k).

Lemma between s1 s2 s s' : all_before k s1 → all_after k s2 → s = s1 ++ s2 → s' = s1 ++ (k, v) :: s2 →
  s' = dict_insert k v s ∧ dict_find k s = None.
Proof using Type. intros ?? -> ->. split; [by rewrite insert_miss|by apply find_miss]. Qed.

Lemma one_side_cases (t : atree) : one_side t = true → all_before k (entries t) ∨ all_after k (entries t).
Proof using Type.
  unfold one_side. rewrite orb_true_iff, <- !Is_true_true, !forallb_True. unfold all_before, all_after.
  intros [H|H]; [left|right]; (eapply Forall_impl; [exact H|]; simpl; intros x Hx%Is_true_true; lia).
Qed.

(** The items of a tree, as one list. *)
Ltac same_items :=
  unfold entries; rewrite ?flat_plug; cbn [flat pre post fst snd];
  repeat match goal with d : key * Z * (Z * Z) |- _ => destruct d as [[? ?] ?] end; cbn [fst snd];
  repeat first [rewrite fmap_app | rewrite fmap_cons]; cbn [fst snd];
  repeat first [rewrite <- app_assoc | rewrite <- app_comm_cons]; cbn [app]; rewrite ?app_nil_r; done.

(** The parts of a tree around a node and its child. *)
Lemma entries_child_left c p d q e (a b r : atree) :
  entries (plug c (T p d (T q e a b) r)) =
  ((pre c).*2 ++ entries a) ++ (e.1.1, e.1.2) :: (entries b ++ (d.1.1, d.1.2) :: entries r ++ (post c).*2).
Proof using Type. same_items. Qed.
Lemma entries_at c p d (l r : atree) :
  entries (plug c (T p d l r)) = (pre c).*2 ++ entries l ++ (d.1.1, d.1.2) :: (entries r ++ (post c).*2).
Proof using Type. same_items. Qed.
Lemma entries_child_right c p d q e (l b a : atree) :
  entries (plug c (T p d l (T q e b a))) =
  ((pre c).*2 ++ entries l) ++ (d.1.1, d.1.2) :: (entries b ++ (e.1.1, e.1.2) :: entries a ++ (post c).*2).
Proof using Type. same_items. Qed.

(** What the insertion does to a dictionary. *)
Definition grown (c : apath) (t : atree) (res : option (apath * atree)) : Prop :=
  match res with
  | None => is_Some (dict_find k (entries (plug c t)))
  | Some (c', t') =>
      entries (plug c' t') = dict_insert k v (entries (plug c t)) ∧ dict_find k (entries (plug c t)) = None
  end.

Lemma put_left_dict c p d q e a b r :
  bst cmp ok (plug c (T p d (T q e a b) r)) → ok d.1.1 → cmp_sign k d.1.1 < 0 → cmp_sign e.1.1 k < 0 →
  is_key b = false → one_side b = true →
  grown c (T p d (T q e a b) r) (Some (put_left c p d q e a b r)).
Proof using Hk.
  intros Hb Hd Hkd He Hnk Hside. unfold bst in Hb. rewrite entries_child_left in Hb.
  pose proof (dict_before k Hk _ _ _ _ Hb He) as Hl.
  assert (Hr : all_after k ((d.1.1, d.1.2) :: entries r ++ (post c).*2)).
  { eapply (dict_after k Hk ((((pre c).*2 ++ entries a) ++ [(e.1.1, e.1.2)]) ++ entries b)); [|by apply sign_swap].
    rewrite <- !app_assoc in *. cbn [app] in *. exact Hb. }
  unfold grown. destruct (put_left c p d q e a b r) as [c' t'] eqn:Hput. rewrite entries_child_left.
  unfold put_left in Hput.
  set (moves := match b with E => false | T _ db _ _ => 0 <? cmp_sign db.1.1 k end) in Hput.
  assert (Hmoves : if moves then all_after k (entries b) else all_before k (entries b)).
  { destruct b as [|z db b1 b2]; subst moves; [constructor|]. simpl in Hnk. apply Z.eqb_neq in Hnk.
    assert (Hin : (db.1.1, db.1.2) ∈ entries (T z db b1 b2)).
    { unfold entries. cbn [flat]. rewrite fmap_app, fmap_cons. destruct db as [[? ?] ?]. apply elem_of_app. right. left. }
    destruct (one_side_cases _ Hside) as [Ha|Ha]; pose proof (proj1 (Forall_forall _ _) Ha _ Hin) as Hs; simpl in Hs;
      destruct (Z.ltb_spec 0 (cmp_sign db.1.1 k)); done || lia. }
  destruct moves; injection Hput as <- <-.
  - apply (between (((pre c).*2 ++ entries a) ++ [(e.1.1, e.1.2)]) (entries b ++ (d.1.1, d.1.2) :: entries r ++ (post c).*2));
      [done|by apply Forall_app|same_items..].
  - apply (between ((((pre c).*2 ++ entries a) ++ [(e.1.1, e.1.2)]) ++ entries b) ((d.1.1, d.1.2) :: entries r ++ (post c).*2));
      [by apply Forall_app|done|same_items..].
Qed.
Lemma put_right_dict c p d l q e b a :
  bst cmp ok (plug c (T p d l (T q e b a))) → cmp_sign d.1.1 k < 0 → 0 < cmp_sign e.1.1 k →
  is_key b = false → one_side b = true →
  grown c (T p d l (T q e b a)) (Some (put_right c p d l q e b a)).
Proof using Hk.
  intros Hb Hkd He Hnk Hside. unfold bst in Hb. rewrite entries_child_right in Hb.
  pose proof (dict_before k Hk _ _ _ _ Hb Hkd) as Hl.
  assert (Hr : all_after k ((e.1.1, e.1.2) :: entries a ++ (post c).*2)).
  { eapply (dict_after k Hk ((((pre c).*2 ++ entries l) ++ [(d.1.1, d.1.2)]) ++ entries b)); [|done].
    rewrite <- !app_assoc in *. cbn [app] in *. exact Hb. }
  unfold grown. destruct (put_right c p d l q e b a) as [c' t'] eqn:Hput. rewrite entries_child_right.
  unfold put_right in Hput.
  set (moves := match b with E => false | T _ db _ _ => cmp_sign db.1.1 k <? 0 end) in Hput.
  assert (Hmoves : if moves then all_before k (entries b) else all_after k (entries b)).
  { destruct b as [|z db b1 b2]; subst moves; [constructor|]. simpl in Hnk. apply Z.eqb_neq in Hnk.
    assert (Hin : (db.1.1, db.1.2) ∈ entries (T z db b1 b2)).
    { unfold entries. cbn [flat]. rewrite fmap_app, fmap_cons. destruct db as [[? ?] ?]. apply elem_of_app. right. left. }
    destruct (one_side_cases _ Hside) as [Ha|Ha]; pose proof (proj1 (Forall_forall _ _) Ha _ Hin) as Hs; simpl in Hs;
      destruct (Z.ltb_spec (cmp_sign db.1.1 k) 0); done || lia. }
  destruct moves; injection Hput as <- <-.
  - apply (between ((((pre c).*2 ++ entries l) ++ [(d.1.1, d.1.2)]) ++ entries b) ((e.1.1, e.1.2) :: entries a ++ (post c).*2));
      [by apply Forall_app|done|same_items..].
  - apply (between (((pre c).*2 ++ entries l) ++ [(d.1.1, d.1.2)]) (entries b ++ (e.1.1, e.1.2) :: entries a ++ (post c).*2));
      [done|by apply Forall_app|same_items..].
Qed.

(** A key that is a node of the tree is found in the dictionary. *)
Lemma found_in (s s1 : items) k0 v0 s2 :
  dict cmp ok s → s = s1 ++ (k0, v0) :: s2 → cmp_sign k0 k = 0 → is_Some (dict_find k s).
Proof using Hk. intros Hd -> Hs. exists v0. by apply dict_hit. Qed.

Lemma grow_dict c t :
  bst cmp ok (plug c t) → directs k c → t ≠ E → clean_place t = true → grown c t (grow c t).
Proof using Hk.
  revert c. induction t as [|p d l IHl r IHr]; intros c Hb Hdir Hne Hcl; [done|].
  pose proof (directs_sides k Hk c _ Hb Hdir) as [Hpre Hpost].
  assert (Hokd : ok d.1.1).
  { unfold bst in Hb. rewrite entries_plug in Hb. apply dict_app in Hb as (_&Hb&_).
    apply dict_app in Hb as (Hb&_&_). unfold entries in Hb. cbn [flat] in Hb. rewrite fmap_app, fmap_cons in Hb.
    apply dict_app in Hb as (_&Hb&_). destruct d as [[? ?] ?]. by apply dict_cons in Hb as (?&_). }
  assert (Hnone : ∀ s1 k0 v0 s2, entries (plug c (T p d l r)) = s1 ++ (k0, v0) :: s2 → cmp_sign k0 k = 0 →
    grown c (T p d l r) None).
  { intros s1 k0 v0 s2 Hs. by apply (found_in _ _ _ _ _ Hb Hs). }
  cbn [grow clean_place] in *. destruct (Z.ltb_spec (cmp_sign k d.1.1) 0) as [Hlt|Hge].
  - assert (Hd : 0 < cmp_sign d.1.1 k) by (by apply sign_swap).
    destruct l as [|q e a b].
    + pose proof (dict_after k Hk ((pre c).*2) d.1.1 d.1.2 (entries r ++ (post c).*2)) as Ha.
      eapply (between ((pre c).*2) ((d.1.1, d.1.2) :: entries r ++ (post c).*2)); [done| |same_items..].
      apply Ha; [|done]. unfold bst in Hb. rewrite entries_at in Hb. exact Hb.
    + destruct (Z.ltb_spec 0 (cmp_sign e.1.1 k)) as [He|He].
      { by apply (IHl (FL p d r :: c)). }
      destruct (Z.ltb_spec (cmp_sign e.1.1 k) 0) as [He'|He']; cbn [andb] in *.
      * destruct (is_key b) eqn:Eb; cbn [negb] in *; [|by apply put_left_dict].
        destruct b as [|z f b1 b2]; [done|]. cbn [is_key] in Eb. apply Z.eqb_eq in Eb.
        eapply (Hnone (((pre c).*2 ++ entries a) ++ (e.1.1, e.1.2) :: entries b1) f.1.1 f.1.2
          (entries b2 ++ (d.1.1, d.1.2) :: entries r ++ (post c).*2)); [same_items|done].
      * eapply (Hnone ((pre c).*2 ++ entries a) e.1.1 e.1.2 (entries b ++ (d.1.1, d.1.2) :: entries r ++ (post c).*2)); [same_items|lia].
  - destruct (Z.ltb_spec 0 (cmp_sign k d.1.1)) as [Hgt|Hle].
    + assert (Hd : cmp_sign d.1.1 k < 0) by (by apply sign_swap).
      destruct r as [|q e b a].
      * pose proof (dict_before k Hk ((pre c).*2 ++ entries l) d.1.1 d.1.2 ((post c).*2)) as Ha.
        eapply (between (((pre c).*2 ++ entries l) ++ [(d.1.1, d.1.2)]) ((post c).*2)); [|done|same_items..].
        apply Ha; [|done]. unfold bst in Hb. rewrite (entries_at c p d l E), app_assoc in Hb. exact Hb.
      * destruct (Z.ltb_spec (cmp_sign e.1.1 k) 0) as [He|He].
        { by apply (IHr (FR p d l :: c)). }
        destruct (Z.ltb_spec 0 (cmp_sign e.1.1 k)) as [He'|He']; cbn [andb] in *.
        -- destruct (is_key b) eqn:Eb; cbn [negb] in *; [|by apply put_right_dict].
           destruct b as [|z f b1 b2]; [done|]. cbn [is_key] in Eb. apply Z.eqb_eq in Eb.
           eapply (Hnone (((pre c).*2 ++ entries l) ++ (d.1.1, d.1.2) :: entries b1) f.1.1 f.1.2
             (entries b2 ++ (e.1.1, e.1.2) :: entries a ++ (post c).*2)); [same_items|done].
        -- eapply (Hnone (((pre c).*2 ++ entries l) ++ (d.1.1, d.1.2) :: entries b) e.1.1 e.1.2
             (entries a ++ (post c).*2)); [same_items|lia].
    + eapply (Hnone ((pre c).*2 ++ entries l) d.1.1 d.1.2 (entries r ++ (post c).*2)); [same_items|]. apply sign_zero; [done..|lia].
Qed.
End grow.
