(* ===== verification/AvltreeInsert.v ===== *)
(** * AVL trees: a new node

    The new node of [avlt_add] is created and linked, at a leaf or between a
    node and its child. *)

From S2P Require Import Prelude Comparators SortedDict Ptree PtreeSearch.
From S2P Require Import Avltree AvltreeShape AvltreeBalance AvltreeJoin AvltreeAdd.

Section insert.
Context (f : libhl_cmp_callback_t) (fr : bool) {ok : key → Prop} `{!Comparator f ok}.
Abbreviation tree_world := (tree_world (Some f) fr).
Abbreviation avl_in := (avl_in (Some f) fr).

Lemma returns_cmp_node par p d (l r : atree) k r0 w Q :
  pw_tree w = Some (mk_ptree r0 (Some f) fr) → shape (pw_nodes w) par (T p d l r) → ok d.1.1 → ok k →
  Q (cmp_sign d.1.1 k, w) → returns (cmp_node p k w) Q.
Proof.
  intros Ht (_&Hp&_) Hd Hk HQ. unfold cmp_node, call_cmp. go. eapply returns_load_key; [done|]. go.
  eapply returns_load_ptree; [done|]. go. cbn [cmp_keys_cb]. by rewrite cmp_ret.
Qed.
Lemma returns_cmp_with_node par p d (l r : atree) k r0 w Q :
  pw_tree w = Some (mk_ptree r0 (Some f) fr) → shape (pw_nodes w) par (T p d l r) → ok d.1.1 → ok k →
  Q (cmp_sign k d.1.1, w) → returns (cmp_with_node k p w) Q.
Proof.
  intros Ht (_&Hp&_) Hd Hk HQ. unfold cmp_with_node, call_cmp. go. eapply returns_load_key; [done|]. go.
  eapply returns_load_ptree; [done|]. go. cbn [cmp_keys_cb]. by rewrite cmp_ret.
Qed.
Lemma returns_not_key par (t : atree) k r0 w Q :
  pw_tree w = Some (mk_ptree r0 (Some f) fr) → shape (pw_nodes w) par t → Forall (λ x, ok x.1) (entries t) → ok k →
  Q (negb (is_key k t), w) → returns (not_key (root t) k w) Q.
Proof.
  intros Ht Hs Ho Hk HQ. unfold not_key. destruct t as [|p d l r]; cbn [root is_key] in *; [by go|].
  pose proof Hs as (Hp0&_). rewrite (proj2 (Z.eqb_neq p 0)) by done. go.
  eapply returns_cmp_node; [done..| |done|by go].
  unfold entries in Ho. cbn [flat] in Ho. rewrite fmap_app, fmap_cons in Ho.
  apply Forall_app in Ho as [_ Ho]. by apply Forall_cons in Ho as [? _].
Qed.

(** ** A new node *)

Definition created (k : key) (v : Z) (t : atree) (w : pworld (Z * Z)) (nn : Z) (w' : pworld (Z * Z)) : Prop :=
  nn = pw_next w ∧ nn ≠ 0 ∧ pw_tree w' = pw_tree w ∧ beside (pw_nodes w') nn t ∧
  pw_nodes w' !! nn = Some (node_of (k, v, (0, 0)) 0 0 0) ∧ pw_next w' = nn + 1 ∧ (false ∉ pw_alloc w') ∧
  pw_freed w' = pw_freed w ∧ pw_prevnext w' = pw_prevnext w.

Lemma node_create_ok t k v w :
  tree_world t w → false ∉ pw_alloc w →
  returns (avlt_node_create k v w) (λ '(nn, w'), created k v t w nn w').
Proof.
  intros Hw Hal. pose proof Hw as (_&Hn0&_). unfold avlt_node_create, new_node. go.
  apply returns_next_alloc. intros b1 Hb1 Ht1. destruct b1; [|by destruct Hal; apply Hb1]. cbn [negb]. go. fields.
  apply returns_next_alloc. fields. intros b2 Hb2 Ht2. destruct b2; [|by destruct Hal; apply Ht1, Hb2]. cbn [negb].
  go. eapply returns_set_pn; [fields; apply lookup_insert_eq|]. rewrite ?put_nodes_twice. fields. rewrite alter_insert_eq.
  go. eapply returns_set_pn; [fields; apply lookup_insert_eq|]. rewrite ?put_nodes_twice. fields. rewrite alter_insert_eq.
  go. eapply returns_set_pn; [fields; apply lookup_insert_eq|]. rewrite ?put_nodes_twice. fields. rewrite alter_insert_eq.
  go. unfold created. fields. split; [done|]. split; [lia|]. split; [done|].
  split; [by eapply beside_new|]. split; [by rewrite lookup_insert_eq|]. split; [done|].
  split; [intros ?; by apply Hal, Ht1, Ht2|done].
Qed.

(** The new node is linked: the tree at [c] becomes that of [c'] and [t']. *)
Definition linked_in (w : pworld (Z * Z)) (t' : atree) (w' : pworld (Z * Z)) : Prop :=
  pw_tree w' = pw_tree w ∧ holds (pw_nodes w') t' ∧ pw_next w' = pw_next w + 1 ∧ (false ∉ pw_alloc w') ∧
  pw_freed w' = pw_freed w ∧ pw_prevnext w' = pw_prevnext w.

Ltac arun := repeat (progress (run; unfold load_height, with_hl, with_hr, hl, hr)).

Lemma leaf_left_ok c p d r k v w :
  tree_world (plug c (T p d E r)) w → false ∉ pw_alloc w → small_height d.2.1 →
  returns ((new ← avlt_node_create k v;
            _ ← set_pn p (with_left new); _ ← set_pn new (with_parent p);
            n ← load_pn p; h ← lift (int32 (hl n + 1)); _ ← set_pn p (with_hl h);
            mret (inr (Some p)) : P (Z + option Z)) w) (λ '(res, w'), res = inr (Some p) ∧
    linked_in w (plug c (T p (d.1, (d.2.1 + 1, d.2.2)) (T (pw_next w) (k, v, (0, 0)) E E) r)) w').
Proof.
  intros Hw Hal Hd. go. eapply returns_mono; [by apply node_create_ok|].
  intros [nn w1] (Hnn&Hn0&Ht1&Hb&Hn&Hx1&Ha1&Hf1&Hp1). rewrite <- Hnn. unfold small_height in Hd.
  apply beside_plug in Hb as (Hs&Hc&Hnd&Hdom). cbn [shape root] in Hs, Hc. destruct Hs as (Hp0&Hp&_&Hr).
  go. arun. split; [done|]. split; [done|]. split; [rebuild|]. fields. rewrite Hx1, Hnn. done.
Qed.
Lemma leaf_right_ok c p d l k v w :
  tree_world (plug c (T p d l E)) w → false ∉ pw_alloc w → small_height d.2.2 →
  returns ((new ← avlt_node_create k v;
            _ ← set_pn p (with_right new); _ ← set_pn new (with_parent p);
            n ← load_pn p; h ← lift (int32 (hr n + 1)); _ ← set_pn p (with_hr h);
            mret (inr (Some p)) : P (Z + option Z)) w) (λ '(res, w'), res = inr (Some p) ∧
    linked_in w (plug c (T p (d.1, (d.2.1, d.2.2 + 1)) l (T (pw_next w) (k, v, (0, 0)) E E))) w').
Proof.
  intros Hw Hal Hd. go. eapply returns_mono; [by apply node_create_ok|].
  intros [nn w1] (Hnn&Hn0&Ht1&Hb&Hn&Hx1&Ha1&Hf1&Hp1). rewrite <- Hnn. unfold small_height in Hd.
  apply beside_plug in Hb as (Hs&Hc&Hnd&Hdom). cbn [shape root] in Hs, Hc. destruct Hs as (Hp0&Hp&Hl&_).
  go. arun. split; [done|]. split; [done|]. split; [rebuild|]. fields. rewrite Hx1, Hnn. done.
Qed.

Lemma swap_left_ok c p d q e (a b r : atree) k v w :
  tree_world (plug c (T p d (T q e a b) r)) w → false ∉ pw_alloc w → ok k → Forall (λ x, ok x.1) (entries b) →
  small_height (hof (T q e a b)) → small_height (hof b) →
  returns (swap_left p k v w) (λ '(res, w'), let '(c', t') := put_left (pw_next w) k v c p d q e a b r in
    res = root t' ∧ linked_in w (plug c' t') w').
Proof.
  intros Hw Hal Hk Hob Hh Hhb. unfold swap_left. go. eapply returns_mono; [by apply node_create_ok|].
  intros [nn w1] (Hnn&Hn0&Ht1&Hb&Hn&Hx1&Ha1&Hf1&Hp1). rewrite <- Hnn. unfold small_height in *.
  destruct Hw as ([Ht _]&_). rewrite <- Ht1 in Ht.
  apply beside_plug in Hb as (Hs&Hc&Hnd&Hdom). cbn [shape root hof] in *. destruct Hs as (Hp0&Hp&(Hq0&Hq&Hsa&Hsb)&Hr).
  go. unfold height_of. arun. unfold put_left.
  destruct b as [|z db b1 b2]; cbn [root hof] in *.
  - arun. split; [done|]. split; [done|]. split; [rebuild|]. fields. rewrite Hx1, Hnn. done.
  - pose proof Hsb as (Hz0&Hz&Hsb1&Hsb2).
    assert (Hokz : ok db.1.1).
    { unfold entries in Hob. cbn [flat] in Hob. rewrite fmap_app, fmap_cons in Hob.
      apply Forall_app in Hob as [_ Hob]. by apply Forall_cons in Hob as [? _]. }
    arun. eapply (returns_load_key nn (k, v, (Z.max e.2.1 e.2.2 + 1, 0)) q 0 p); [look|]. go.
    eapply (returns_cmp_node q z db b1 b2); [exact Ht|by frames|done|done|]. go. cbn [fst snd].
    destruct (0 <? cmp_sign db.1.1 k).
    + arun. split; [done|]. split; [done|]. split; [rebuild|]. fields. rewrite Hx1, Hnn. done.
    + arun. split; [done|]. split; [done|]. split; [rebuild|]. fields. rewrite Hx1, Hnn. done.
Qed.
Lemma swap_right_ok c p d l q e (b a : atree) k v w :
  tree_world (plug c (T p d l (T q e b a))) w → false ∉ pw_alloc w → ok k → Forall (λ x, ok x.1) (entries b) →
  small_height (hof (T q e b a)) → small_height (hof b) →
  returns (swap_right p k v w) (λ '(res, w'), let '(c', t') := put_right (pw_next w) k v c p d l q e b a in
    res = root t' ∧ linked_in w (plug c' t') w').
Proof.
  intros Hw Hal Hk Hob Hh Hhb. unfold swap_right. go. eapply returns_mono; [by apply node_create_ok|].
  intros [nn w1] (Hnn&Hn0&Ht1&Hb&Hn&Hx1&Ha1&Hf1&Hp1). rewrite <- Hnn. unfold small_height in *.
  destruct Hw as ([Ht _]&_). rewrite <- Ht1 in Ht.
  apply beside_plug in Hb as (Hs&Hc&Hnd&Hdom). cbn [shape root hof] in *. destruct Hs as (Hp0&Hp&Hl&(Hq0&Hq&Hsb&Hsa)).
  go. unfold height_of. arun. unfold put_right.
  destruct b as [|z db b1 b2]; cbn [root hof] in *.
  - arun. split; [done|]. split; [done|]. split; [rebuild|]. fields. rewrite Hx1, Hnn. done.
  - pose proof Hsb as (Hz0&Hz&Hsb1&Hsb2).
    assert (Hokz : ok db.1.1).
    { unfold entries in Hob. cbn [flat] in Hob. rewrite fmap_app, fmap_cons in Hob.
      apply Forall_app in Hob as [_ Hob]. by apply Forall_cons in Hob as [? _]. }
    arun. eapply (returns_load_key nn (k, v, (0, Z.max e.2.1 e.2.2 + 1)) 0 q p); [look|]. go.
    eapply (returns_cmp_node q z db b1 b2); [exact Ht|by frames|done|done|]. go. cbn [fst snd].
    destruct (cmp_sign db.1.1 k <? 0).
    + arun. split; [done|]. split; [done|]. split; [rebuild|]. fields. rewrite Hx1, Hnn. done.
    + arun. split; [done|]. split; [done|]. split; [rebuild|]. fields. rewrite Hx1, Hnn. done.
Qed.
End insert.
