(* ===== verification/AvltreeLoop.v ===== *)
(** * AVL trees: [avlt_add] on the store

    The loop of [avlt_add] follows [grow]; with the balancing it keeps the
    tree balanced. *)

From S2P Require Import Prelude Comparators SortedDict Ptree PtreeSearch.
From S2P Require Import Avltree AvltreeShape AvltreeBalance AvltreeJoin AvltreeAdd AvltreeInsert.

Section loop.
Context (f : libhl_cmp_callback_t) (fr : bool) {ok : key → Prop} `{!Comparator f ok}.
Abbreviation tree_world := (tree_world (Some f) fr).

(** ** The loop *)

Definition add_result (w : pworld (Z * Z)) (g : option (apath * atree)) (res : option Z) (w' : pworld (Z * Z)) : Prop :=
  match g with
  | None => res = None ∧ w' = w
  | Some (c', t') => res = Some (root t') ∧ linked_in w (plug c' t') w'
  end.

Lemma entries_T p d (l r : atree) :
  Forall (λ x, ok x.1) (entries (T p d l r)) ↔
    Forall (λ x, ok x.1) (entries l) ∧ ok d.1.1 ∧ Forall (λ x, ok x.1) (entries r).
Proof. unfold entries. cbn [flat]. by rewrite fmap_app, fmap_cons, Forall_app, Forall_cons. Qed.

Section body.
Context (k : key) (v : Z) (Hk : ok k) (c : apath) (p : Z) (d : key * Z * (Z * Z)) (w : pworld (Z * Z)).
Context (Hal : false ∉ pw_alloc w).
Abbreviation grow := (grow (cmp := f) (pw_next w) k v).

Lemma add_left_ok l r :
  tree_world (plug c (T p d l r)) w → Forall (λ x, ok x.1) (entries (T p d l r)) → avl (T p d l r) →
  few (plug c (T p d l r)) → cmp_sign k d.1.1 < 0 →
  returns (add_left p k v w) (λ '(res, w'), match res with
    | inl q => w' = w ∧ q = root l ∧ l ≠ E ∧ grow c (T p d l r) = grow (FL p d r :: c) l
    | inr res => add_result w (grow c (T p d l r)) res w'
    end).
Proof using Hk Hal.
  intros Hw Ho Ha Hf Hlt. apply entries_T in Ho as (Hol&Hod&Hor). destruct Ha as (Hd&_&Hal'&_).
  pose proof (few_T _ _ _ _ (few_plug _ _ Hf)) as [Hfl _]. pose proof (few_hof _ Hal' Hfl).
  pose proof Hw as ([Ht Hh]&_). pose proof Hh as (Hs&_)%holds_plug. cbn [shape] in Hs. destruct Hs as (Hp0&Hp&Hsl&Hsr).
  unfold add_left. cbn [AvltreeAdd.grow]. rewrite (proj2 (Z.ltb_lt _ 0)) by done. go. eapply returns_load_pn; [done|]. fields.
  destruct l as [|q e a b]; cbn [root].
  - rewrite Z.eqb_refl. cbn [negb]. eapply returns_mono; [apply (leaf_left_ok f fr); [done|done|rewrite Hd; unfold small_height; simpl; lia]|].
    by intros [res w'] [-> Hl].
  - pose proof Hsl as (Hq0&Hq&_&Hsb). rewrite (proj2 (Z.eqb_neq q 0)) by done. cbn [negb].
    apply entries_T in Hol as (_&Hoe&Hob). destruct Hal' as (He&Hbal&Haa&Hab).
    pose proof (few_T _ _ _ _ Hfl) as [_ Hfb]. pose proof (few_hof _ Hab Hfb).
    go. eapply (returns_cmp_node f fr p q e a b); [exact Ht|done|done|done|].
    destruct (0 <? cmp_sign e.1.1 k); [go; by split_and!|].
    go. eapply (returns_cmp_node f fr p q e a b); [exact Ht|done|done|done|]. go.
    eapply returns_load_pn; [exact Hq|]. fields. go. destruct (cmp_sign e.1.1 k <? 0); cbn [andb]; [|by go].
    eapply (returns_not_key f fr q b k); [exact Ht|done|done|done|]. destruct (is_key k b); cbn [negb]; [by go|].
    go. eapply returns_mono; [apply (swap_left_ok f fr c p d q e a b r); [done|done|done|done|unfold small_height; lia..]|].
    intros [res w'] Hput. unfold add_result. destruct (put_left _ _ _ _ _ _ _ _ _ _ _) as [c' t'].
    destruct Hput as [-> Hl]. by go.
Qed.
Lemma add_right_ok l r :
  tree_world (plug c (T p d l r)) w → Forall (λ x, ok x.1) (entries (T p d l r)) → avl (T p d l r) →
  few (plug c (T p d l r)) → 0 < cmp_sign k d.1.1 →
  returns (add_right p k v w) (λ '(res, w'), match res with
    | inl q => w' = w ∧ q = root r ∧ r ≠ E ∧ grow c (T p d l r) = grow (FR p d l :: c) r
    | inr res => add_result w (grow c (T p d l r)) res w'
    end).
Proof using Hk Hal.
  intros Hw Ho Ha Hf Hlt. apply entries_T in Ho as (Hol&Hod&Hor). destruct Ha as (Hd&_&_&Hal').
  pose proof (few_T _ _ _ _ (few_plug _ _ Hf)) as [_ Hfl]. pose proof (few_hof _ Hal' Hfl).
  pose proof Hw as ([Ht Hh]&_). pose proof Hh as (Hs&_)%holds_plug. cbn [shape] in Hs. destruct Hs as (Hp0&Hp&Hsl&Hsr).
  unfold add_right. cbn [AvltreeAdd.grow]. rewrite (proj2 (Z.ltb_ge _ 0)), (proj2 (Z.ltb_lt 0 _)) by lia.
  go. eapply returns_load_pn; [done|]. fields.
  destruct r as [|q e b a]; cbn [root].
  - rewrite Z.eqb_refl. cbn [negb]. eapply returns_mono; [apply (leaf_right_ok f fr); [done|done|rewrite Hd; unfold small_height; simpl; lia]|].
    by intros [res w'] [-> Hl].
  - pose proof Hsr as (Hq0&Hq&Hsb&_). rewrite (proj2 (Z.eqb_neq q 0)) by done. cbn [negb].
    apply entries_T in Hor as (Hob&Hoe&_). destruct Hal' as (He&Hbal&Hab&Haa).
    pose proof (few_T _ _ _ _ Hfl) as [Hfb _]. pose proof (few_hof _ Hab Hfb).
    go. eapply (returns_cmp_node f fr p q e b a); [exact Ht|done|done|done|].
    destruct (cmp_sign e.1.1 k <? 0); [go; by split_and!|].
    go. eapply (returns_cmp_node f fr p q e b a); [exact Ht|done|done|done|]. go.
    eapply returns_load_pn; [exact Hq|]. fields. go. destruct (0 <? cmp_sign e.1.1 k); cbn [andb]; [|by go].
    eapply (returns_not_key f fr q b k); [exact Ht|done|done|done|]. destruct (is_key k b); cbn [negb]; [by go|].
    go. eapply returns_mono; [apply (swap_right_ok f fr c p d l q e b a); [done|done|done|done|unfold small_height; lia..]|].
    intros [res w'] Hput. unfold add_result. destruct (put_right _ _ _ _ _ _ _ _ _ _ _) as [c' t'].
    destruct Hput as [-> Hl]. by go.
Qed.
End body.

Lemma add_loop_ok k v c t w :
  tree_world (plug c t) w → false ∉ pw_alloc w → ok k → Forall (λ x, ok x.1) (entries t) → t ≠ E → avl t →
  few (plug c t) →
  returns (loopS (add_body k v) (root t) w) (λ '(res, w'),
    add_result w (grow (cmp := f) (pw_next w) k v c t) res w').
Proof.
  intros Hw Hal Hk Ho Hne Ha Hf. unfold loopS.
  assert (∃ m res w', runs (loop_body (add_body k v)) (root t, w) m (res, w') ∧ m ≤ Z.of_nat (height t) ∧
    add_result w (grow (cmp := f) (pw_next w) k v c t) res w') as (m&res&w'&Hr&Hm&Hres).
  2:{ rewrite (runs_loop _ _ _ _ Hr); [exact Hres|]. unfold few in Hf. pose proof (height_flat t).
      rewrite flat_plug, !length_app in Hf. lia. }
  revert c Hw Ho Hne Ha Hf. induction t as [|p d l IHl r IHr]; intros c Hw Ho Hne Ha Hf; [done|].
  pose proof Hw as ([Ht Hh]&_). pose proof Hh as (Hs&_)%holds_plug. pose proof Ho as (Hol&Hod&Hor)%entries_T.
  assert (Hstep : ∀ res w1 t1 c1,
    add_body k v p w = Ret (res, w1) →
    match res with
    | inl q => w1 = w ∧ q = root t1 ∧ t1 ≠ E ∧ grow (cmp := f) (pw_next w) k v c (T p d l r) = grow (cmp := f) (pw_next w) k v c1 t1
    | inr res => add_result w (grow (cmp := f) (pw_next w) k v c (T p d l r)) res w1
    end →
    (t1 ≠ E → ∃ m res w', runs (loop_body (add_body k v)) (root t1, w) m (res, w') ∧ m ≤ Z.of_nat (height t1) ∧
      add_result w (grow (cmp := f) (pw_next w) k v c1 t1) res w') →
    (height t1 < height (T p d l r))%nat →
    ∃ m res w', runs (loop_body (add_body k v)) (p, w) m (res, w') ∧ m ≤ Z.of_nat (height (T p d l r)) ∧
      add_result w (grow (cmp := f) (pw_next w) k v c (T p d l r)) res w').
  { intros [q|res] w1 t1 c1 Hbody Hpost IH Hlt.
    - destruct Hpost as (->&->&Hne1&Hg). destruct (IH Hne1) as (m&res&w'&Hr&Hm&Hres).
      exists (m + 1), res, w'. rewrite Hg. split; [|split; [lia|done]].
      eapply runs_step; [|exact Hr]. unfold loop_body. cbn [fst snd]. by rewrite Hbody.
    - exists 0, res, w1. split; [|split; [lia|done]]. apply runs_exit. unfold loop_body. cbn [fst snd]. by rewrite Hbody. }
  assert (Hfound : cmp_sign k d.1.1 = 0 → add_body k v p w = Ret (inr None, w)).
  { intros Hz. apply returns_exact. unfold add_body. go. eapply (returns_cmp_with_node f fr (top c) p d l r); [done..|].
    rewrite Hz, Z.ltb_irrefl. go. eapply (returns_cmp_with_node f fr (top c) p d l r); [done..|].
    rewrite Hz, Z.ltb_irrefl. by go. }
  assert (Hbody : ∀ Q, (cmp_sign k d.1.1 < 0 → returns (add_left p k v w) Q) →
    (0 < cmp_sign k d.1.1 → returns (add_right p k v w) Q) → cmp_sign k d.1.1 ≠ 0 → returns (add_body k v p w) Q).
  { intros Q Hl Hr Hz. unfold add_body. go. eapply (returns_cmp_with_node f fr (top c) p d l r); [done..|].
    destruct (Z.ltb_spec (cmp_sign k d.1.1) 0); [auto|]. go.
    eapply (returns_cmp_with_node f fr (top c) p d l r); [done..|]. rewrite (proj2 (Z.ltb_lt 0 _)) by lia. auto with lia. }
  pose proof Ha as (_&_&Hal1&Har1). cbn [height] in Hstep |- *.
  destruct (Z.lt_trichotomy (cmp_sign k d.1.1) 0) as [Hlt|[Heq|Hgt]].
  - destruct (returns_inv _ _ (add_left_ok k v Hk c p d w Hal l r Hw Ho Ha Hf Hlt)) as ([res w1]&Hb&Hpost).
    apply (Hstep res w1 l (FL p d r :: c)); [|exact Hpost|by intros; apply (IHl (FL p d r :: c))|lia].
    apply returns_exact, Hbody; [intros _; by rewrite Hb|lia|lia].
  - apply (Hstep _ _ E [] (Hfound Heq)); [|done|simpl; lia].
    cbn [grow]. rewrite (proj2 (Z.ltb_ge _ 0)), (proj2 (Z.ltb_ge 0 _)) by lia. done.
  - destruct (returns_inv _ _ (add_right_ok k v Hk c p d w Hal l r Hw Ho Ha Hf Hgt)) as ([res w1]&Hb&Hpost).
    apply (Hstep res w1 r (FR p d l :: c)); [|exact Hpost|by intros; apply (IHr (FR p d l :: c))|lia].
    apply returns_exact, Hbody; [lia|intros _; by rewrite Hb|lia].
Qed.

(** ** The operation *)

(** What [avlt_add] does to a tree, and what it returns. *)
Definition avl_added (nn : Z) (k : key) (v : Z) (t : atree) (rc : Z) (t' : atree) : Prop :=
  match t with
  | E => rc = 0 ∧ flat t' = [(nn, (k, v))]
  | _ =>
      match grow (cmp := f) nn k v [] t with
      | None => rc = -1 ∧ t' = t
      | Some (c', t1) => rc = 0 ∧ flat t' = flat (plug c' t1)
      end
  end.

(** The balanced tree of a world. *)
Definition avl_world (t : atree) (w : pworld (Z * Z)) : Prop :=
  tree_world t w ∧ avl t ∧ Forall (λ x, ok x.1) (entries t) ∧ false ∉ pw_alloc w.

Lemma avl_add_ok k v t w :
  avl_world t w → ok k → Z.of_nat (length (flat t)) < 2 ^ 31 - 5 →
  returns (avlt_add k v w) (λ '(rc, w'), ∃ t', avl_world t' w' ∧ avl_added (pw_next w) k v t rc t' ∧
    pw_freed w' = pw_freed w ∧ pw_prevnext w' = pw_prevnext w).
Proof.
  intros (Hw&Ha&Ho&Hal) Hk Hf. pose proof Hw as ([Ht Hh]&Hn0&Hlt). unfold avlt_add. go.
  eapply returns_load_ptree; [done|]. go. cbn [pt_root].
  destruct t as [|p d l r]; cbn [root].
  - rewrite Z.eqb_refl. go. eapply returns_mono; [by apply (node_create_ok f fr E)|].
    intros [nn w1] (Hnn&Hnn0&Ht1&Hb&Hn&Hx1&Ha1&Hf1&Hp1). go.
    eapply returns_set_root; [by rewrite Ht1|]. go. exists (T nn (k, v, (0, 0)) E E).
    split; [|split; [split; [done|by subst nn]|done]]. split; [|split; [|split]].
    + split; [|fields; rewrite Hx1; split; [lia|by repeat constructor; fields; lia]].
      split; [done|]. fields. destruct Hb as (_&Hnd&Hdom). split; [|split; [done|done]].
      split_and!; done.
    + simpl. split_and!; done || lia.
    + by repeat constructor.
    + done.
  - pose proof Hh as [Hp Hp0]%(holds_focus _ [] _ _ _ _). rewrite (proj2 (Z.eqb_neq p 0)) by done. go.
    eapply returns_mono; [by apply (add_loop_ok k v [] (T p d l r)); unfold few; try done; cbn [plug]; lia|].
    intros [res w1] Hres. unfold add_result, avl_added in *. go.
    destruct (grow _ k v [] (T p d l r)) as [[c' t1]|] eqn:Hg.
    2:{ destruct Hres as [-> ->]. go. by exists (T p d l r). }
    destruct Hres as [-> (Ht1&Hh1&Hx1&Ha1&Hf1&Hp1)].
    pose proof (grow_ready (pw_next w) k v [] (T p d l r) c' t1 Ha I Hg) as Hready.
    pose proof (grow_flat _ _ _ _ _ _ _ Hg) as Hperm. pose proof (grow_root _ _ _ _ _ _ _ Hg) as Hroot.
    cbn [plug] in Hperm, Hroot. destruct t1 as [|q e a b]; [done|]. destruct Hready as (Hra&Hrb&Hrc). cbn [root]. go.
    eapply returns_mono.
    { apply (balance_ok (Some f) fr c' q e a b); [|unfold few; rewrite Hperm; cbn [length]; lia|done..].
      split; [rewrite Hroot, Ht1; exact Ht|by apply holds_linked]. }
    intros [[] w2] (t2&[Hrel Ht2]&Ha2). go. exists t2.
    pose proof Hrel as (_&Hf2&Hr2&_). injection Hr2 as Hx2 Hal2 Hfr2 Hp2.
    split; [|split; [split; [done|exact Hf2]|by rewrite Hfr2, Hp2]]. split; [|split; [done|split]].
    + split; [split; [done|by eapply relinked_holds]|]. rewrite Hx2, Hx1, Hf2, Hperm. split; [lia|].
      constructor; [simpl; lia|]. eapply Forall_impl; [exact Hlt|]. simpl. lia.
    + unfold entries. rewrite Hf2, Hperm. by constructor.
    + by rewrite Hal2.
Qed.
End loop.
