(* ===== verification/AvltreeDelete.v ===== *)
(** * AVL trees: removal

    [avlt_remove] finds a node; one with two children exchanges its item with
    that of a neighbour, which leaves the tree in its stead. *)

From S2P Require Import Prelude Comparators SortedDict Ptree PtreeSearch.
From S2P Require Import Avltree AvltreeShape AvltreeBalance AvltreeJoin AvltreeAdd AvltreeInsert AvltreeLoop.

Lemma avl_path_app c1 c2 : avl_path (c1 ++ c2) ↔ avl_path c1 ∧ avl_path c2.
Proof. induction c1 as [|[] c1 IH]; simpl; [tauto|..]; rewrite IH; tauto. Qed.

(** A node beside the tree is freed. *)
Lemma beside_free {X} (N : gmap Z (pnode X)) n t :
  beside N n t → holds (delete n (alter (with_key None) n N)) t.
Proof.
  intros (Hs&Hnd&Hdom). apply NoDup_cons in Hnd as [Hn Hnd]. split; [|split; [done|]].
  - apply delete_frame; [|done]. by apply alter_frame.
  - intros q. rewrite lookup_delete_is_Some, alter_is_Some, Hdom, elem_of_cons. split; [by intros [? [->|?]]|].
    intros Hq. split; [by intros ->|by right].
Qed.

(** A node takes another item. *)
Definition item {X} (k : key) (v : Z) (n : pnode X) : pnode X :=
  with_value v (with_klen (Z.of_nat (length k)) (with_key (Some k) n)).
Lemma holds_reitem {X} (N : gmap Z (pnode X)) c p d l r k v :
  holds N (plug c (T p d l r)) → holds (alter (item k v) p N) (plug c (T p (k, v, d.2) l r)).
Proof.
  intros (Hs&Hc&Hnd&Hdom)%holds_plug. cbn [shape root] in Hs, Hc. destruct Hs as (Hp0&Hp&Hl&Hr).
  apply holds_plug. cbn [shape root]. split_and!; try done; try frames.
  - by rewrite lookup_alter_eq, Hp.
  - eapply holds_NoDup; [exact Hnd|same_addrs].
  - eapply holds_dom; [exact Hdom|intros ?; by rewrite !alter_is_Some|same_addrs].
Qed.

Section delete.
Context (f : libhl_cmp_callback_t) (fr : bool) {ok : key → Prop} `{!Comparator f ok}.
Abbreviation tree_world := (tree_world (Some f) fr).
Abbreviation avl_world := (avl_world f fr (ok := ok)).

(** ** The search *)

Lemma remove_loop_ok k c t w :
  tree_in (Some f) fr (plug c t) w → Forall (λ x, ok x.1) (entries t) → ok k →
  Z.of_nat (length (flat t)) < 2 ^ 62 →
  loopS (remove_body k) (root t) w = Ret (root (locate k c t).2, w).
Proof.
  intros Hw Ho Hk Hf. unfold loopS.
  assert (∃ m, runs (loop_body (remove_body k)) (root t, w) m (root (locate k c t).2, w) ∧ m ≤ Z.of_nat (height t)) as (m&Hr&Hm).
  2:{ apply (runs_loop _ _ m); [done|]. pose proof (height_flat t). lia. }
  clear Hf. revert c Hw Ho. induction t as [|p d l IHl r IHr]; intros c Hw Ho.
  { exists 0. split; [by apply runs_exit|simpl; lia]. }
  pose proof Hw as [Ht Hh]. pose proof Hh as (Hs&_)%holds_plug. pose proof Ho as (Hol&Hod&Hor)%entries_T.
  pose proof Hs as (Hp0&Hp&_).
  assert (Hbody : loop_body (remove_body k) (p, w) =
    if cmp_sign d.1.1 k =? 0 then Ret (inr (p, w)) else Ret (inl (root (if 0 <? cmp_sign d.1.1 k then l else r), w))).
  { unfold loop_body. cbn [fst snd]. rewrite (returns_exact (remove_body k p w)
      (if cmp_sign d.1.1 k =? 0 then inr p else inl (root (if 0 <? cmp_sign d.1.1 k then l else r)), w)); [by case_if|].
    unfold remove_body. rewrite (proj2 (Z.eqb_neq p 0)) by done. go.
    eapply (returns_cmp_node f fr (top c) p d l r); [done..|]. go. eapply returns_load_pn; [done|]. fields.
    destruct (Z.ltb_spec (cmp_sign d.1.1 k) 0); [|go; eapply (returns_cmp_node f fr (top c) p d l r); [done..|]];
      destruct (Z.eqb_spec (cmp_sign d.1.1 k) 0), (Z.ltb_spec 0 (cmp_sign d.1.1 k)); try lia; by go. }
  cbn [locate root height]. destruct (cmp_sign d.1.1 k =? 0).
  { exists 0. split; [by apply runs_exit|lia]. }
  destruct (0 <? cmp_sign d.1.1 k).
  - destruct (IHl (FL p d r :: c) Hw Hol) as (m&Hr&Hm). exists (m + 1). split; [|lia].
    eapply runs_step; [|exact Hr]. exact Hbody.
  - destruct (IHr (FR p d l :: c) Hw Hor) as (m&Hr&Hm). exists (m + 1). split; [|lia].
    eapply runs_step; [|exact Hr]. exact Hbody.
Qed.

(** ** A node leaves the tree *)

(** The node [n] is out of the tree, and [t'] is balanced. *)
Definition unlinked (c : apath) (n : Z) (t : atree) (w : pworld (Z * Z)) (t' : atree) (w' : pworld (Z * Z)) : Prop :=
  avl t' ∧ flat t' = flat (plug c t) ∧ pw_tree w' = Some (mk_ptree (root t') (Some f) fr) ∧
  beside (pw_nodes w') n t' ∧ pw_nodes w' !! n = pw_nodes w !! n ∧ rest w' = rest w.

Lemma beside_linked (N : gmap Z (pnode (Z * Z))) n (t : atree) : n ≠ 0 → beside N n t → linked N t.
Proof.
  intros Hn Hb. pose proof (beside_null N n [] t Hn Hb) as [H0 _]. destruct Hb as (Hs&Hnd&_).
  apply NoDup_cons in Hnd as [_ Hnd]. done.
Qed.
Lemma relinked_beside n t w t' w' : relinked t w t' w' → beside (pw_nodes w) n t → beside (pw_nodes w') n t'.
Proof.
  intros ((Hs&Hnd&_)&Hf&_&Hn) (Hs0&Hnd0&Hdom). split; [done|]. rewrite Hf. split; [done|]. intros q.
  destruct (decide (q ∈ (flat t).*1)) as [Hin|Hout].
  - split; [by right|]. intros _. eapply shape_elem; [exact Hs|by rewrite Hf].
  - by rewrite Hn, Hdom.
Qed.

(** The links after the child [t] took the place of [n]. *)
Lemma bypass_beside (N : gmap Z (pnode (Z * Z))) c n d l r t :
  holds N (plug c (T n d l r)) → (l = E ∧ t = r) ∨ (r = E ∧ t = l) →
  let N' := alter (with_parent (top c)) (root t) (alter (relink n (root t)) (top c) N) in
  beside N' n (plug c t) ∧ N' !! n = N !! n.
Proof.
  intros Hh Hlr N'. pose proof (holds_null _ _ Hh) as H0. pose proof (plug_null _ _ _ Hh) as Hz.
  apply holds_plug in Hh as (Hs&Hp&Hnd&Hdom). cbn [shape root] in Hs, Hp. destruct Hs as (Hn0&Hn&Hl&Hr).
  assert (Ht : shape N n t ∧ ∀ z, (occ z ((pre c).*1 ++ (flat (T n d l r)).*1 ++ (post c).*1) =
    occ z (n :: (pre c).*1 ++ (flat t).*1 ++ (post c).*1))%nat).
  { destruct Hlr as [[-> ->]|[-> ->]]; (split; [done|]); intros z; occ_simpl; lia. }
  destruct Ht as [Ht Hocc].
  assert (Hnd' : NoDup (n :: (pre c).*1 ++ (flat t).*1 ++ (post c).*1)).
  { eapply holds_NoDup; [exact Hnd|]. intros z. by rewrite Hocc. }
  assert (Hz' : 0 ∉ n :: (pre c).*1 ++ (flat t).*1 ++ (post c).*1).
  { rewrite elem_of_occ in Hz |- *. by rewrite <- Hocc. }
  clear Hlr Hl Hr Hnd Hz. subst N'. split.
  - apply beside_plug. split; [|split; [|split; [done|]]].
    + moved.
    + apply alter_path_frame; [|absent]. eapply path_relink; [done|apply NoDup_occ; intros z; count z|absent|done].
    + intros q. by rewrite !alter_is_Some, Hdom, !elem_of_occ, Hocc.
  - rewrite !lookup_alter_away; [done|done|intros ?; differ|by no_null|intros ?; differ].
Qed.

(** The branches on the children, for a node with one child or none. *)
Lemma only_child_links (l r t : atree) (parent : Z) :
  (root l = 0 → l = E) → (root r = 0 → r = E) → (l = E ∧ t = r) ∨ (r = E ∧ t = l) →
  ((root l =? 0) || (root r =? 0) = true) ∧
  (if negb (root l =? 0) then root l else root r) = root t ∧
  (if negb (root r =? 0) then root r else root l) = root t ∧
  (if negb (root l =? 0) then set_pn (root l) (with_parent parent)
   else if negb (root r =? 0) then set_pn (root r) (with_parent parent) else mret tt : P unit) = reparent (root t) parent ∧
  (if negb (root l =? 0) then _ ← set_pn (root l) (with_parent 0); set_root (root l)
   else if negb (root r =? 0) then _ ← set_pn (root r) (with_parent 0); set_root (root r)
   else set_root 0 : P unit) = (if root t =? 0 then set_root 0 else _ ← reparent (root t) 0; set_root (root t)).
Proof.
  intros Hl Hr [[-> ->]|[-> ->]]; cbn [root] in *; unfold reparent; rewrite Z.eqb_refl; cbn [negb orb];
    repeat match goal with |- context [?x =? 0] => destruct (Z.eqb_spec x 0) as [->|] end; by split_and!.
Qed.

Lemma unlink_ok c n d l r t w :
  tree_in (Some f) fr (plug c (T n d l r)) w → few (plug c (T n d l r)) → avl t → avl_path c →
  (l = E ∧ t = r) ∨ (r = E ∧ t = l) →
  returns (unlink_node n w) (λ '(_, w'), ∃ t', unlinked c n t w t' w').
Proof.
  intros [Ht Hh] Hf Ha Hc Hlr. pose proof (holds_null _ _ Hh) as H0.
  destruct (bypass_beside _ _ _ _ _ _ _ Hh Hlr) as [Hbes Hsame].
  pose proof Hh as (Hs&Hp&_)%holds_plug. cbn [shape root] in Hs, Hp. destruct Hs as (Hn0&Hn&Hl&Hr).
  assert (Hroot : ∀ (s : atree) par, shape (pw_nodes w) par s → root s = 0 → s = E).
  { intros [|? ? ? ?] par; [done|]. by intros (?&_). }
  destruct (only_child_links l r t (top c) (Hroot l _ Hl) (Hroot r _ Hr) Hlr) as (E1&E2&E3&E4&E5).
  assert (Hst : shape (pw_nodes w) n t) by (destruct Hlr as [[-> ->]|[-> ->]]; done).
  unfold unlink_node. go. eapply returns_load_pn; [done|]. fields. rewrite E1, E2, E3, E4, E5.
  destruct (Z.eqb_spec (top c) 0) as [E0|E0]; cbn [negb].
  - destruct c as [|g c]; [|by exfalso; eapply path_top in Hp]. cbn [plug top] in *.
    assert (Hfin : ∀ w', pw_tree w' = Some (mk_ptree (root t) (Some f) fr) → rest w' = rest w →
      pw_nodes w' = alter (with_parent 0) (root t) (pw_nodes w) → ∃ t', unlinked [] n t w t' w').
    { intros w' Ht' Hr' Hn'. exists t. unfold unlinked. rewrite (alter_null _ _ 0) in Hbes, Hsame by done. rewrite Hn'. by split_and!. }
    destruct (Z.eqb_spec (root t) 0) as [Et|Et].
    + eapply returns_set_root; [done|]. apply Hfin; [by rewrite Et|done|]. fields. by rewrite Et, alter_null.
    + go. eapply returns_reparent; [exact Hst|done|]. go. eapply returns_set_root; [done|]. by apply Hfin.
  - assert (∃ m, pw_nodes w !! top c = Some m) as [m Hm].
    { destruct c as [|[]]; simpl in *; [done|..]; destruct Hp as (_&?&_); eauto. }
    pose proof (returns_relink_child c n (root t) w (λ x, x = (tt, put_nodes (alter (relink n (root t)) (top c) (pw_nodes w)) w))
      Hp E0 eq_refl) as Hrel%returns_exact. unfold relink_child in Hrel.
    rewrite (st_bind_Ret (load_pn (top c)) _ w m w (ltac:(unfold load_pn; by rewrite Hm))) in Hrel.
    go. eapply returns_load_pn; [exact Hm|]. go. eapply returns_Ret_to; [exact Hrel|]. go.
    eapply (returns_reparent t n); [|by no_null|].
    { fields. apply alter_frame; [done|]. pose proof (plug_null _ _ _ Hh). apply holds_plug in Hh as (_&_&Hnd&_).
      destruct Hlr as [[-> ->]|[-> ->]]; absent. }
    go. rewrite put_nodes_twice. fields. set (w1 := put_nodes _ w).
    assert (Hpos : ∃ c1 p e a b, plug c t = plug c1 (T p e a b) ∧ top c = p ∧ avl a ∧ avl b ∧ avl_path c1).
    { destruct c as [|[p e s|p e s] c1]; [done|..]; cbn [avl_path] in Hc; destruct Hc; [eexists c1, p, e, t, s|eexists c1, p, e, s, t]; by split_and!. }
    destruct Hpos as (c1&p&e&a&b&Hplug&Htop&Haa&Hab&Hc1).
    assert (Hlen : few (plug c t)).
    { unfold few in *. rewrite !flat_plug, !length_app in *. cbn [flat] in Hf. rewrite length_app in Hf. cbn [length] in Hf.
      destruct Hlr as [[-> ->]|[-> ->]]; cbn [flat length] in *; lia. }
    eapply returns_mono.
    { rewrite Htop. apply (balance_ok (Some f) fr c1 p e a b); [|by rewrite <- Hplug|done..].
      rewrite <- Hplug. split; [|by apply (beside_linked _ n)]. unfold w1. fields. rewrite Ht.
      by rewrite (root_plug_any c t (T n d l r)). }
    rewrite <- Hplug. intros [[] w2] (t'&[Hrel2 Ht2]&Ha2). exists t'.
    split; [done|]. pose proof Hrel2 as (_&Hf2&Hr2&Hn2). split; [done|]. split; [done|].
    split; [by eapply relinked_beside|]. split; [|done].
    rewrite Hn2; [exact Hsame|]. destruct Hbes as (_&Hnd&_). by apply NoDup_cons in Hnd as [? _].
Qed.

(** ** The node that leaves *)

Lemma swap_items_ok p n d dn l r par ln rn parn (w : pworld (Z * Z)) Q :
  pw_nodes w !! p = Some (node_of d l r par) → pw_nodes w !! n = Some (node_of dn ln rn parn) → p ≠ n →
  Q (tt, put_nodes (alter (item d.1.1 d.1.2) n (alter (item dn.1.1 dn.1.2) p (pw_nodes w))) w) →
  returns (swap_items p n w) Q.
Proof.
  intros Hp Hn Hne HQ. unfold swap_items. assert (n ≠ p) by auto.
  go. eapply returns_load_pn; [exact Hp|]. go. eapply returns_load_pn; [exact Hn|]. fields.
  go. eapply returns_set_pn; [exact Hp|]. go. eapply returns_set_pn; [fields; by rewrite lookup_alter_eq, Hp|]. fields.
  rewrite put_nodes_twice. go. eapply returns_set_pn; [fields; by rewrite !lookup_alter_eq, Hp|]. fields. rewrite put_nodes_twice.
  go. eapply returns_set_pn; [fields; by rewrite !lookup_alter_ne|]. fields. rewrite put_nodes_twice.
  go. eapply returns_set_pn; [fields; by rewrite lookup_alter_eq, !lookup_alter_ne, Hn|]. fields. rewrite put_nodes_twice.
  go. eapply returns_set_pn; [fields; by rewrite !lookup_alter_eq, !lookup_alter_ne, Hn|]. fields. rewrite put_nodes_twice.
  rewrite !alter_alter_eq. exact HQ.
Qed.

(** [n] holds the item to remove, at a place with one child or none. *)
Definition leaving (c : apath) p (d : key * Z * (Z * Z)) (l r : atree) (w : pworld (Z * Z)) (n : Z) (w1 : pworld (Z * Z)) : Prop :=
  ∃ c1 d1 l1 r1 t1,
    tree_in (Some f) fr (plug c1 (T n d1 l1 r1)) w1 ∧ d1.1 = d.1 ∧
    ((l1 = E ∧ t1 = r1) ∨ (r1 = E ∧ t1 = l1)) ∧ avl t1 ∧ avl_path c1 ∧
    entries (plug c1 t1) = (pre c).*2 ++ entries l ++ entries r ++ (post c).*2 ∧
    (flat (plug c1 (T n d1 l1 r1))).*1 = (flat (plug c (T p d l r))).*1 ∧ rest w1 = rest w.

Lemma take_prev_ok c p d (l r : atree) n dn a c0 (w : pworld (Z * Z)) :
  tree_in (Some f) fr (plug c (T p d l r)) w → avl l → avl r → avl_path c →
  plug c0 (T n dn a E) = l → Forall goes_right c0 →
  returns (swap_items p n w) (λ '(_, w1), leaving c p d l r w n w1).
Proof.
  intros [Ht Hh] Hl Hr Hc <- Hright.
  assert (Hfocus : ∀ x s, plug c (T p x (plug c0 s) r) = plug (c0 ++ FL p x r :: c) s) by (intros; by rewrite plug_app).
  pose proof Hh as [Hp Hp0]%holds_focus. pose proof Hh as Hn. rewrite Hfocus in Hn. apply holds_focus in Hn as [Hn Hn0].
  pose proof Hh as (_&_&Hnd&_)%holds_plug.
  assert (Hne : p ≠ n) by (intros ->; cbn [flat] in Hnd; rewrite flat_plug in Hnd; count n).
  eapply swap_items_ok; [exact Hp|exact Hn|done|].
  pose proof (holds_reitem _ c p d _ r dn.1.1 dn.1.2 Hh) as Hh1. rewrite Hfocus in Hh1.
  pose proof (holds_reitem _ _ n dn a E d.1.1 d.1.2 Hh1) as Hh2.
  apply avl_plug in Hl as [Hc0 (_&_&Ha&_)].
  eexists _, (d.1.1, d.1.2, dn.2), a, E, a. split; [split; [|exact Hh2]|].
  - fields. rewrite Ht, Hfocus. f_equal. f_equal. rewrite !plug_app. cbn [plug]. by apply root_plug.
  - split; [by destruct d as [[? ?] ?]|]. split; [by right|]. split; [done|].
    split; [rewrite avl_path_app; by split|]. split; [|split; [|done]].
    + unfold entries. rewrite !flat_plug, pre_app, post_app, (goes_right_post c0), pre_FL, post_FL by done.
      cbn [flat app fst]. rewrite ?app_nil_r. destruct dn as [[? ?] ?]. cbn [fst].
      repeat first [rewrite fmap_app | rewrite fmap_cons]. cbn [fst snd].
      repeat first [rewrite <- app_assoc | rewrite <- app_comm_cons]. done.
    + rewrite Hfocus, !flat_plug, !pre_app, !post_app. cbn [pre post flat app].
      repeat first [rewrite fmap_app | rewrite fmap_cons]. done.
Qed.
Lemma take_next_ok c p d (l r : atree) n dn a c0 (w : pworld (Z * Z)) :
  tree_in (Some f) fr (plug c (T p d l r)) w → avl l → avl r → avl_path c →
  plug c0 (T n dn E a) = r → Forall goes_left c0 →
  returns (swap_items p n w) (λ '(_, w1), leaving c p d l r w n w1).
Proof.
  intros [Ht Hh] Hl Hr Hc <- Hleft.
  assert (Hfocus : ∀ x s, plug c (T p x l (plug c0 s)) = plug (c0 ++ FR p x l :: c) s) by (intros; by rewrite plug_app).
  pose proof Hh as [Hp Hp0]%holds_focus. pose proof Hh as Hn. rewrite Hfocus in Hn. apply holds_focus in Hn as [Hn Hn0].
  pose proof Hh as (_&_&Hnd&_)%holds_plug.
  assert (Hne : p ≠ n) by (intros ->; cbn [flat] in Hnd; rewrite flat_plug in Hnd; count n).
  eapply swap_items_ok; [exact Hp|exact Hn|done|].
  pose proof (holds_reitem _ c p d l _ dn.1.1 dn.1.2 Hh) as Hh1. rewrite Hfocus in Hh1.
  pose proof (holds_reitem _ _ n dn E a d.1.1 d.1.2 Hh1) as Hh2.
  apply avl_plug in Hr as [Hc0 (_&_&_&Ha)].
  eexists _, (d.1.1, d.1.2, dn.2), E, a, a. split; [split; [|exact Hh2]|].
  - fields. rewrite Ht, Hfocus. f_equal. f_equal. rewrite !plug_app. cbn [plug]. by apply root_plug.
  - split; [by destruct d as [[? ?] ?]|]. split; [by left|]. split; [done|].
    split; [rewrite avl_path_app; by split|]. split; [|split; [|done]].
    + unfold entries. rewrite !flat_plug, pre_app, post_app, (goes_left_pre c0), pre_FR, post_FR by done.
      cbn [flat app fst]. rewrite ?app_nil_r. destruct dn as [[? ?] ?]. cbn [fst].
      repeat first [rewrite fmap_app | rewrite fmap_cons]. cbn [fst snd].
      repeat first [rewrite <- app_assoc | rewrite <- app_comm_cons]. done.
    + rewrite Hfocus, !flat_plug, !pre_app, !post_app. cbn [pre post flat app].
      repeat first [rewrite fmap_app | rewrite fmap_cons]. done.
Qed.

Lemma node_to_free_ok c p d (l r : atree) (w : pworld (Z * Z)) :
  tree_in (Some f) fr (plug c (T p d l r)) w → few (plug c (T p d l r)) → avl l → avl r → avl_path c →
  returns (node_to_free p w) (λ '(n, w1), leaving c p d l r w n w1 ∧ n ≠ 0).
Proof.
  intros Hw Hf Hl Hr Hc. pose proof Hw as [Ht Hh]. pose proof Hh as (Hs&_)%holds_plug. cbn [shape] in Hs.
  destruct Hs as (Hp0&Hp&Hsl&Hsr). pose proof (few_T _ _ _ _ (few_plug _ _ Hf)) as [Hfl Hfr]. unfold few in Hfl, Hfr.
  pose proof (height_flat l). pose proof (height_flat r).
  assert (Hself : (l = E ∨ r = E) → leaving c p d l r w p w ∧ p ≠ 0).
  { intros Hlr. split; [|done]. exists c, d, l, r, (match l with E => r | _ => l end).
    split; [done|]. split; [done|]. split; [destruct Hlr as [->| ->]; [by left|destruct l; [by left|by right]]|].
    split; [by destruct l|]. split; [done|]. split; [|done].
    destruct Hlr as [->| ->]; [|destruct l]; rewrite entries_plug; cbn [app]; try done. }
  unfold node_to_free. go. eapply returns_load_pn; [done|]. fields.
  destruct l as [|q e l1 l2]; [cbn [root]; rewrite Z.eqb_refl; go; by apply Hself; left|].
  destruct r as [|q' e' r1 r2]; [cbn [root]; rewrite Z.eqb_refl, andb_false_r; go; by apply Hself; right|].
  pose proof Hsl as (Hq0&_). pose proof Hsr as (Hq0'&_). cbn [root].
  rewrite (proj2 (Z.eqb_neq q 0)), (proj2 (Z.eqb_neq q' 0)) by done. cbn [negb andb]. go.
  unfold avlt_find_prev, avlt_find_next, hl, hr. fields. destruct (d.2.2 <? d.2.1).
  - destruct (rightmost_ok [] (T q e l1 l2)) as (n&dn&a&c0&Hmost&Hplug); [done|]. cbn [plug] in Hplug.
    destruct (rightmost_path [] (T q e l1 l2)) as (c0'&Hc0&Hright). rewrite Hmost in Hc0. cbn [fst] in Hc0.
    rewrite app_nil_r in Hc0. subst c0'.
    go. eapply returns_load_pn; [exact Hp|]. fields. rewrite (proj2 (Z.eqb_neq q 0)) by done.
    eapply returns_Ret_at; [apply (rightmost_loop p [] (T q e l1 l2)); [done|done|lia]|]. rewrite Hmost. cbn [snd root].
    pose proof Hh as Hn. rewrite <- Hplug in Hn. change (T p d (plug c0 (T n dn a E)) (T q' e' r1 r2)) with
      (plug [FL p d (T q' e' r1 r2)] (plug c0 (T n dn a E))) in Hn. rewrite <- !plug_app in Hn.
    apply holds_focus in Hn as [_ Hn0]. rewrite (proj2 (Z.eqb_neq n 0)) by done. cbn [negb].
    go. eapply returns_mono; [by eapply take_prev_ok|]. intros [[] w1] Hlv. by go.
  - destruct (leftmost_ok [] (T q' e' r1 r2)) as (n&dn&a&c0&Hmost&Hplug); [done|]. cbn [plug] in Hplug.
    destruct (leftmost_path [] (T q' e' r1 r2)) as (c0'&Hc0&Hleft). rewrite Hmost in Hc0. cbn [fst] in Hc0.
    rewrite app_nil_r in Hc0. subst c0'.
    go. eapply returns_load_pn; [exact Hp|]. fields. rewrite (proj2 (Z.eqb_neq q' 0)) by done.
    eapply returns_Ret_at; [apply (leftmost_loop p [] (T q' e' r1 r2)); [done|done|lia]|]. rewrite Hmost. cbn [snd root].
    pose proof Hh as Hn. rewrite <- Hplug in Hn. change (T p d (T q e l1 l2) (plug c0 (T n dn E a))) with
      (plug [FR p d (T q e l1 l2)] (plug c0 (T n dn E a))) in Hn. rewrite <- !plug_app in Hn.
    apply holds_focus in Hn as [_ Hn0]. rewrite (proj2 (Z.eqb_neq n 0)) by done. cbn [negb].
    go. eapply returns_mono; [by eapply take_next_ok|]. intros [[] w1] Hlv. by go.
Qed.

(** ** The operation *)

(** The values given to the free callback. *)
Definition avl_freed (v : bool) (value : Z) : list Z :=
  if (if v then false else if negb (value =? 0) then fr else false) then [value] else [].

Lemma node_destroy_ok n (t : atree) d l r par (b : bool) w Q :
  beside (pw_nodes w) n t → pw_nodes w !! n = Some (node_of d l r par) → 
  (∀ w', pw_tree w' = pw_tree w → holds (pw_nodes w') t → pw_next w' = pw_next w → pw_alloc w' = pw_alloc w →
     pw_prevnext w' = pw_prevnext w →
     pw_freed w' = pw_freed w ++ (if negb (d.1.2 =? 0) && b then [d.1.2] else []) → Q (tt, w')) →
  returns (avlt_node_destroy n b w) Q.
Proof.
  intros Hb Hn HQ. unfold avlt_node_destroy. go. eapply returns_free_key; [exact Hn|done|].
  go. eapply returns_load_pn; [fields; by rewrite lookup_alter_eq, Hn|]. fields. go.
  apply returns_free_if. fields. go. eapply returns_free_pn; [fields; by rewrite lookup_alter_eq, Hn|done|].
  apply HQ; try done. by apply beside_free.
Qed.

(** The entry of [d] goes, from between [l] and [r]. *)
Definition avl_removed (c : apath) (d : key * Z * (Z * Z)) (l r : atree) (v : bool) (w : pworld (Z * Z))
    (res : Z * option Z) (w' : pworld (Z * Z)) : Prop :=
  ∃ t', avl_world t' w' ∧ res = (0, if v then Some d.1.2 else None) ∧
    entries t' = (pre c).*2 ++ entries l ++ entries r ++ (post c).*2 ∧
    pw_freed w' = pw_freed w ++ avl_freed v d.1.2 ∧ pw_next w' = pw_next w ∧ pw_prevnext w' = pw_prevnext w.

Lemma avl_remove_found_ok c p d l r (v : bool) w :
  avl_world (plug c (T p d l r)) w → few (plug c (T p d l r)) →
  returns ((to_free ← node_to_free p;
            if to_free =? 0 then mret (-1, None) else
            _ ← unlink_node to_free;
            n ← load_pn to_free;
            t ← load_ptree;
            _ ← avlt_node_destroy to_free
                  (if v then false else if negb (pn_value n =? 0) then free_value_cb t else false);
            mret (0, if v then Some (pn_value n) else None)) w) (λ '(res, w'), avl_removed c d l r v w res w').
Proof.
  intros ((Hw&Hn0&Hlt)&Ha&Ho&Hal) Hf. pose proof (avl_plug _ _ Ha) as [Hc (_&_&Hl&Hr)].
  go. eapply returns_mono; [by apply (node_to_free_ok c p d l r)|].
  intros [n w1] ((c1&d1&l1&r1&t1&Hw1&Hd1&Hlr&Ht1&Hc1&Hent&Haddr&Hr1)&Hnn0). rewrite (proj2 (Z.eqb_neq n 0)) by done.
  assert (Hf1 : few (plug c1 (T n d1 l1 r1))).
  { unfold few in *. apply (f_equal length) in Haddr. rewrite !length_fmap in Haddr. by rewrite Haddr. }
  pose proof Hw1 as [_ Hh1]. pose proof Hh1 as [Hn _]%holds_focus.
  go. eapply returns_mono; [by apply (unlink_ok c1 n d1 l1 r1 t1)|].
  intros [[] w2] (t'&Ha2&Hf2&Ht2&Hb2&Hn2&Hr2). go. eapply returns_load_pn; [by rewrite Hn2|]. fields.
  go. eapply returns_load_ptree; [done|]. cbn [free_value_cb]. go.
  eapply node_destroy_ok; [exact Hb2|by rewrite Hn2|]. intros w3 Ht3 Hh3 Hx3 Ha3 Hp3 Hfr3. go. rewrite Hd1 in *.
  injection Hr1 as Hx1 Hal1 Hfr1 Hp1. injection Hr2 as Hx2 Hal2 Hfr2 Hp2.
  assert (Hsub : ∀ z, z ∈ (flat t').*1 → z ∈ (flat (plug c (T p d l r))).*1).
  { intros z. rewrite <- Haddr, Hf2, !flat_plug, !fmap_app. cbn [flat]. intros Hz.
    destruct Hlr as [[-> ->]|[-> ->]]; count z. }
  exists t'. split; [|split; [done|split; [unfold entries; by rewrite Hf2|]]].
  - split; [split|split; [done|split]].
    + split; [by rewrite Ht3|done].
    + rewrite Hx3, Hx2, Hx1. split; [done|]. rewrite Forall_forall in Hlt |- *. auto.
    + unfold entries. rewrite Hf2. fold (entries (plug c1 t1)). rewrite Hent. rewrite entries_at in Ho.
      rewrite !Forall_app, Forall_cons, !Forall_app in Ho. rewrite !Forall_app. tauto.
    + by rewrite Ha3, Hal2, Hal1.
  - rewrite Hfr3, Hfr2, Hfr1, Hx3, Hx2, Hx1, Hp3, Hp2, Hp1. split; [|done]. f_equal. unfold avl_freed.
    destruct v, (d.1.2 =? 0), fr; done.
Qed.

Lemma avl_remove_ok k v t w :
  avl_world t w → ok k → few t →
  returns (avlt_remove k v w) (λ '(res, w'),
    match locate k [] t with
    | (c, T p d l r) => avl_removed c d l r v w res w'
    | (_, E) => res = (0, None) ∧ w' = w
    end).
Proof.
  intros Hw Hk Hf. pose proof Hw as (Htw&Ha&Ho&Hal). pose proof Htw as ([Ht Hh]&_). unfold few in Hf.
  unfold avlt_remove. go. eapply returns_load_ptree; [done|]. go. cbn [pt_root].
  eapply returns_Ret_at; [apply (remove_loop_ok k [] t w); [done|done|done|lia]|].
  pose proof (locate_ok k [] t I) as Hl. destruct (locate k [] t) as [c [|p d l r]]; cbn [snd root].
  { rewrite Z.eqb_refl. by go. }
  destruct Hl as (Hplug&_&_). cbn [plug] in Hplug. subst t.
  pose proof Hh as [_ Hp0]%holds_focus. rewrite (proj2 (Z.eqb_neq p 0)) by done.
  apply (avl_remove_found_ok c p d l r v w); [done|]. unfold few. lia.
Qed.
End delete.
