(* ===== verification/AvltreeWalk.v ===== *)
(** * AVL trees: walking and destroying

    The walk in order follows the subtrees; the other one goes level by level,
    with the list of the nodes to visit.  Destruction removes the root until
    there is none. *)

From S2P Require Import Prelude Comparators SortedDict Ptree PtreeSearch.
From S2P Require Import Avltree AvltreeShape AvltreeBalance AvltreeJoin AvltreeAdd AvltreeInsert AvltreeLoop AvltreeDelete.

Lemma avl_entries_length (t : atree) : length (entries t) = length (flat t).
Proof. apply length_fmap. Qed.
Lemma entries_node p d (l r : atree) : entries (T p d l r) = entries l ++ d.1 :: entries r.
Proof. unfold entries. cbn [flat]. by rewrite fmap_app, fmap_cons. Qed.

(** ** Levels *)

(** The items of depth [n], from left to right. *)
Fixpoint level (n : nat) (t : atree) : items :=
  match t with
  | E => []
  | T _ d l r => match n with O => [d.1] | S n => level n l ++ level n r end
  end.
Definition by_level (t : atree) : items := flat_map (λ n, level n t) (seq 0 (height t)).

(** The nodes put on the list after a visit. *)
Definition kids (t : atree) : list atree :=
  match t with
  | E => []
  | T _ _ l r => (match l with E => [] | _ => [l] end) ++ (match r with E => [] | _ => [r] end)
  end.
Definition forest_level (n : nat) (ts : list atree) : items := flat_map (level n) ts.
Definition forest_size (ts : list atree) : nat := length (flat_map flat ts).
(** The items of the first [n] levels. *)
Definition forest_levels (n : nat) (ts : list atree) : items := flat_map (λ i, forest_level i ts) (seq 0 n).

Lemma level_kids n t : forest_level n (kids t) = level (S n) t.
Proof.
  unfold forest_level. destruct t as [|p d l r]; [done|]. cbn [kids level].
  rewrite flat_map_app. by destruct l, r; destruct n; simpl; rewrite ?app_nil_r.
Qed.
Lemma forest_level_app n ts us : forest_level n (ts ++ us) = forest_level n ts ++ forest_level n us.
Proof. apply flat_map_app. Qed.
Lemma forest_level_kids n ts : forest_level n (flat_map kids ts) = forest_level (S n) ts.
Proof.
  induction ts as [|t ts IH]; [done|]. cbn [flat_map]. rewrite forest_level_app, IH, level_kids. done.
Qed.
Lemma forest_levels_S n ts :
  forest_levels (S n) ts = forest_level 0 ts ++ forest_levels n (flat_map kids ts).
Proof.
  unfold forest_levels. cbn [seq flat_map]. f_equal. rewrite <- seq_shift.
  generalize (seq 0 n). intros ns. induction ns as [|i ns IH]; [done|]. cbn [map flat_map].
  by rewrite IH, forest_level_kids.
Qed.
Lemma forest_size_app ts us : forest_size (ts ++ us) = (forest_size ts + forest_size us)%nat.
Proof. unfold forest_size. by rewrite flat_map_app, length_app. Qed.
Lemma forest_size_cons t ts : forest_size (t :: ts) = (length (flat t) + forest_size ts)%nat.
Proof. unfold forest_size. simpl. by rewrite length_app. Qed.
Lemma forest_size_kids t : t ≠ E → (S (forest_size (kids t)) = length (flat t))%nat.
Proof.
  destruct t as [|p d l r]; [done|]. intros _. cbn [kids]. rewrite length_flat_T.
  destruct l, r; unfold forest_size; simpl; rewrite ?app_nil_r; rewrite ?length_app; simpl; lia.
Qed.

Lemma forest_levels_perm n ts :
  Forall (λ t, height t ≤ n)%nat ts → forest_levels n ts ≡ₚ flat_map entries ts.
Proof.
  assert (Hk : ∀ ts, flat_map entries ts ≡ₚ forest_level 0 ts ++ flat_map entries (flat_map kids ts)).
  { intros us. induction us as [|t us IH]; [done|]. cbn [flat_map]. rewrite IH. unfold forest_level.
    cbn [flat_map]. rewrite flat_map_app. destruct t as [|p d l r]; [done|]. rewrite entries_node. cbn [level kids].
    rewrite flat_map_app. destruct l, r; cbn [flat_map app]; rewrite ?app_nil_r; solve_Permutation. }
  revert ts. induction n as [|n IH]; intros ts Hts.
  - assert (flat_map entries ts = []) as ->; [|done].
    induction Hts as [|t ts Ht _ IHts]; [done|]. simpl. rewrite IHts. destruct t; [done|simpl in Ht; lia].
  - rewrite forest_levels_S, IH; [by rewrite <- Hk|].
    induction Hts as [|t ts Ht _ IHts]; [constructor|]. cbn [flat_map]. apply Forall_app. split; [|done].
    destruct t as [|p d l r]; [constructor|]. cbn [height kids] in *.
    apply Forall_app. split; [destruct l|destruct r]; repeat constructor; lia.
Qed.
Lemma by_level_forest t : by_level t = forest_levels (height t) [t].
Proof.
  unfold by_level, forest_levels, forest_level. generalize (seq 0 (height t)). intros ns.
  induction ns as [|i ns IH]; [done|]. cbn [flat_map]. by rewrite IH, app_nil_r.
Qed.
Lemma by_level_perm t : by_level t ≡ₚ entries t.
Proof.
  rewrite by_level_forest, forest_levels_perm by (by repeat constructor). simpl. by rewrite app_nil_r.
Qed.

(** ** The walk level by level *)

Section walk.
Context {U : Type} (cbk : key → Z → U → Z * U) (Hgo : goes_on cbk).

(** A subtree that a node of the store roots. *)
Definition rooted (w : pworld (Z * Z)) (t : atree) : Prop := t ≠ E ∧ ∃ par, shape (pw_nodes w) par t.

Lemma rooted_kids w t : rooted w t → Forall (rooted w) (kids t).
Proof using Type.
  intros (Hne&par&Hs). destruct t as [|p d l r]; [done|]. destruct Hs as (_&_&Hl&Hr).
  apply Forall_app. split; [destruct l|destruct r]; repeat constructor; try done; eauto.
Qed.
Lemma kids_roots w p d (l r : atree) :
  rooted w (T p d l r) →
  (if negb (root l =? 0) then [root l] else []) ++ (if negb (root r =? 0) then [root r] else []) =
  root <$> kids (T p d l r).
Proof using Type.
  intros (_&par&_&_&Hl&Hr). cbn [kids]. rewrite fmap_app.
  f_equal; [destruct l as [|q e a b]|destruct r as [|q e a b]]; cbn [root]; try done;
    [destruct Hl as (Hq&_)|destruct Hr as (Hq&_)]; by rewrite (proj2 (Z.eqb_neq q 0)).
Qed.

Lemma walk_visit_ok w t ts cnt u :
  rooted w t → INT_MIN ≤ cnt + 1 ≤ INT_MAX →
  walk_body cbk (root t :: ts, cnt, u) w =
    Ret (inl (ts ++ (root <$> kids t), cnt + 1, call_all cbk (level 0 t) u), w).
Proof using Hgo.
  intros Hr Hc. pose proof Hr as (Hne&par&Hs). destruct t as [|p d l r]; [done|]. destruct Hs as (Hp0&Hp&_).
  apply returns_exact. unfold walk_body. cbn [root]. go. eapply returns_load_key; [done|]. go.
  eapply returns_load_pn; [done|]. cbn [pn_value node_of]. pose proof (Hgo d.1.1 d.1.2 u) as Hcb.
  cbn [level]. rewrite call_all_cons. destruct (cbk d.1.1 d.1.2 u) as [rc u1]. cbn [fst snd] in *.
  rewrite !not_elem_of_cons in Hcb. destruct Hcb as (Hc1&Hc2&Hc3&_).
  rewrite !(proj2 (Z.eqb_neq rc _)) by done. go. eapply returns_load_pn; [done|]. cbn [pn_left pn_right node_of].
  go. by rewrite (kids_roots w p d l r).
Qed.

(** The list holds the rest [ts] of a level, then the part [us] of the next. *)
Definition walks (n : nat) (ts us : list atree) (w : pworld (Z * Z)) : Prop :=
  ∀ cnt u,
  Forall (rooted w) (ts ++ us) → Forall (λ t, height t ≤ S n)%nat ts → Forall (λ t, height t ≤ n)%nat us →
  0 ≤ cnt → cnt + Z.of_nat (forest_size (ts ++ us)) ≤ INT_MAX →
  runs (loop_body (walk_body cbk)) (root <$> (ts ++ us), cnt, u, w) (Z.of_nat (forest_size (ts ++ us)))
    (cnt + Z.of_nat (forest_size (ts ++ us)),
     call_all cbk (forest_level 0 ts ++ forest_levels n (us ++ flat_map kids ts)) u, w).

Lemma forest_levels_nil n : forest_levels n [] = [].
Proof using Type. unfold forest_levels. generalize (seq 0 n). intros ns. by induction ns. Qed.
Lemma walks_nil n w : walks n [] [] w.
Proof using Type.
  intros cnt u _ _ _ _ _. apply runs_exit. cbn [flat_map app]. rewrite forest_levels_nil.
  unfold loop_body. simpl. by rewrite Z.add_0_r.
Qed.
Lemma walks_level n w : (∀ us, walks n [] us w) → ∀ ts us, walks n ts us w.
Proof using Hgo.
  intros Hnil ts. induction ts as [|t ts IH]; intros us cnt u Hr Hts Hus Hc Hmax; [by apply Hnil|].
  apply Forall_cons in Hr as [Ht Hr]. apply Forall_cons in Hts as [Hth Hts]. cbn [app] in *.
  rewrite forest_size_cons in *. pose proof (forest_size_kids t (proj1 Ht)) as Hsz.
  assert (Hk : Forall (λ t, height t ≤ n)%nat (kids t)).
  { destruct t as [|p d l r]; [by destruct Ht|]. cbn [height kids] in *.
    apply Forall_app. split; [destruct l|destruct r]; repeat constructor; lia. }
  specialize (IH (us ++ kids t) (cnt + 1) (call_all cbk (level 0 t) u)).
  rewrite (app_assoc ts us), forest_size_app in IH.
  assert (Hlen : Z.of_nat (length (flat t) + forest_size (ts ++ us)) =
    Z.of_nat (forest_size (ts ++ us) + forest_size (kids t)) + 1) by lia.
  rewrite Hlen in *. eapply runs_step.
  { unfold loop_body. cbn [fst snd fmap list_fmap]. rewrite (walk_visit_ok w t (root <$> (ts ++ us))) by (done || int_bounds; lia).
    reflexivity. }
  rewrite <- fmap_app. cbn [flat_map]. unfold forest_level in *. cbn [flat_map].
  rewrite !call_all_app in *. rewrite (app_assoc us).
  replace (cnt + (Z.of_nat (forest_size (ts ++ us) + forest_size (kids t)) + 1))
    with (cnt + 1 + Z.of_nat (forest_size (ts ++ us) + forest_size (kids t))) by lia.
  apply IH; [|done| |lia..].
  - apply Forall_app. split; [done|]. by apply rooted_kids.
  - by apply Forall_app.
Qed.
Lemma walk_runs n ts us w : walks n ts us w.
Proof using Hgo.
  revert ts us. induction n as [|n IH]; apply walks_level; intros us cnt u Hr _ Hus Hc Hmax; cbn [app flat_map] in *.
  - destruct us as [|t us]; [by apply walks_nil|]. apply Forall_cons in Hus as [Ht _].
    apply Forall_cons in Hr as [[Hne _] _]. by destruct t; [|simpl in Ht; lia].
  - specialize (IH us [] cnt u). cbn [app] in IH. rewrite app_nil_r in *. rewrite forest_levels_S.
    by apply IH.
Qed.

Lemma avlt_walk_ok cb fr t u w :
  tree_in cb fr t w → Z.of_nat (length (entries t)) ≤ INT_MAX →
  avlt_walk cbk u w = Ret (Z.of_nat (length (entries t)), call_all cbk (by_level t) u, w).
Proof using Hgo.
  intros [Ht (Hs&_)] Hsz. apply returns_exact. unfold avlt_walk. go. eapply returns_load_ptree; [done|]. cbn [pt_root].
  destruct t as [|p d l r]; cbn [root]; [by rewrite Z.eqb_refl; go|].
  pose proof Hs as (Hp0&_). rewrite (proj2 (Z.eqb_neq p 0)) by done. rewrite avl_entries_length in *.
  pose proof (walk_runs (Nat.max (height l) (height r)) [T p d l r] [] w 0 u) as Hrun. cbn [app] in Hrun.
  rewrite forest_size_cons in Hrun. unfold forest_size in Hrun. cbn [flat_map length fmap list_fmap root] in Hrun.
  rewrite Nat.add_0_r in Hrun. unfold loopS. erewrite runs_loop; [| |].
  2:{ apply Hrun; [|by repeat constructor|constructor|done|lia].
      repeat constructor; [done|by exists 0]. }
  2:{ int_bounds. lia. }
  cbn [returns]. rewrite Z.add_0_l, by_level_forest. cbn [height]. by rewrite forest_levels_S.
Qed.

(** ** The walk in order *)

Lemma returns_sorted_part (walk : Z → U → P (Z * U)) cnt par (t : atree) u w rest Q :
  shape (pw_nodes w) par t → 1 ≤ cnt → cnt + Z.of_nat (length (entries t)) ≤ INT_MAX →
  (t ≠ E → walk (root t) u w = Ret (Z.of_nat (length (entries t)), call_all cbk (entries t) u, w)) →
  returns (rest (cnt + Z.of_nat (length (entries t))) (call_all cbk (entries t) u) w) Q →
  returns (sorted_part walk cnt (root t) u rest w) Q.
Proof using Type.
  intros Hs Hc Hmax Hwalk HQ. unfold sorted_part. destruct t as [|p d l r]; cbn [root].
  - simpl in HQ. rewrite Z.add_0_r in HQ. by go.
  - destruct Hs as (Hp0&_). rewrite (proj2 (Z.eqb_neq p 0)) by done. go.
    eapply returns_Ret_at; [by apply Hwalk|]. cbv beta iota. rewrite (proj2 (Z.eqb_neq _ (-1))) by lia. go. exact HQ.
Qed.

Lemma walk_sorted_ok depth par t u w :
  shape (pw_nodes w) par t → t ≠ E → (height t ≤ depth)%nat → Z.of_nat (length (entries t)) ≤ INT_MAX →
  avt_walk_sorted_internal depth (root t) cbk u w =
    Ret (Z.of_nat (length (entries t)), call_all cbk (entries t) u, w).
Proof using Hgo.
  revert par depth u. induction t as [|p d l IHl r IHr]; intros par depth u Hs Hne Hd Hsz; [done|].
  cbn [height] in Hd. destruct depth as [|depth]; [lia|]. pose proof Hs as (Hp0&Hp&Hsl&Hsr).
  rewrite entries_node, length_app in Hsz |- *. cbn [length] in Hsz |- *.
  apply returns_exact. cbn [avt_walk_sorted_internal root]. go. eapply returns_load_pn; [done|]. cbn [pn_left node_of].
  eapply (returns_sorted_part _ 1 p l); [done|lia|lia|intros; eapply IHl; done || lia|].
  go. eapply returns_load_key; [done|]. go. eapply returns_load_pn; [done|]. cbn [pn_value node_of].
  pose proof (Hgo d.1.1 d.1.2 (call_all cbk (entries l) u)) as Hcb.
  rewrite call_all_app, call_all_cons. destruct (cbk d.1.1 d.1.2 (call_all cbk (entries l) u)) as [rc u1].
  cbn [fst snd] in *. rewrite !not_elem_of_cons in Hcb. destruct Hcb as (Hc1&Hc2&Hc3&_).
  rewrite !(proj2 (Z.eqb_neq rc _)) by done. go. eapply returns_load_pn; [done|]. cbn [pn_right node_of].
  eapply (returns_sorted_part _ _ p r); [done|lia|lia|intros; eapply IHr; done || lia|].
  go. f_equal. f_equal. f_equal. lia.
Qed.
Lemma avlt_walk_sorted_ok cb fr depth t u w :
  tree_in cb fr t w → (height t ≤ depth)%nat → Z.of_nat (length (entries t)) ≤ INT_MAX →
  avlt_walk_sorted depth cbk u w = Ret (Z.of_nat (length (entries t)), call_all cbk (entries t) u, w).
Proof using Hgo.
  intros [Ht (Hs&_)] Hd Hsz. apply returns_exact. unfold avlt_walk_sorted. go. eapply returns_load_ptree; [done|].
  cbn [pt_root]. destruct t as [|p d l r]; cbn [root]; [by rewrite Z.eqb_refl; go|].
  pose proof Hs as (Hp0&_). rewrite (proj2 (Z.eqb_neq p 0)) by done. cbn [negb].
  by rewrite (walk_sorted_ok depth 0 (T p d l r)).
Qed.
End walk.

(** ** Destruction *)

Section destroy.
Context (f : libhl_cmp_callback_t) (fr : bool) {ok : key → Prop} `{!Comparator f ok}.
Abbreviation avl_world := (avl_world f fr (ok := ok)).

(** The values that are freed: those that are not null. *)
Definition freed_values (s : items) : list Z := if fr then filter (λ v, v ≠ 0) s.*2 else [].

Lemma freed_values_nil : freed_values (entries (E : atree)) = [].
Proof. unfold freed_values, entries. cbn [flat fmap list_fmap]. rewrite filter_nil. by destruct fr. Qed.
Lemma freed_values_app s1 s2 : freed_values (s1 ++ s2) = freed_values s1 ++ freed_values s2.
Proof. unfold freed_values. rewrite fmap_app, filter_app. by destruct fr. Qed.
Lemma freed_values_item k v : freed_values [(k, v)] = avl_freed fr false v.
Proof.
  unfold freed_values, avl_freed. simpl. rewrite filter_cons, filter_nil. cbn [snd].
  by destruct fr, (Z.eqb_spec v 0); simpl; rewrite ?decide_True, ?decide_False by (done || congruence).
Qed.

(** The removal of the root. *)
Lemma destroy_step t w :
  avl_world t w → few t → t ≠ E →
  returns (avlt_destroy_body tt w) (λ '(res, w'), res = inl tt ∧ ∃ t' vs,
    avl_world t' w' ∧ (S (length (entries t')) = length (entries t))%nat ∧ pw_freed w' = pw_freed w ++ vs ∧
    freed_values (entries t) ≡ₚ vs ++ freed_values (entries t')).
Proof.
  intros Hw Hf Hne. destruct t as [|p d l r]; [done|]. pose proof Hw as (([Ht Hh]&_)&_&Ho&_).
  pose proof (holds_focus _ [] p d l r Hh) as [Hp Hp0]. unfold avlt_destroy_body. go.
  eapply returns_load_ptree; [done|]. cbn [pt_root root]. rewrite (proj2 (Z.eqb_neq p 0)) by done. go.
  eapply returns_load_key; [done|]. go. pose proof Ho as (_&Hd&_)%entries_T.
  eapply returns_mono; [by eapply (avl_remove_ok f fr d.1.1 false _ w Hw)|].
  intros [res w1]. cbn [locate]. rewrite sign_refl by done. cbn [Z.eqb]. intros (t'&Hw1&_&Hent&Hfr&_).
  go. split; [done|]. exists t', (avl_freed fr false d.1.2). cbn [pre post fmap list_fmap app] in Hent.
  rewrite app_nil_r in Hent. rewrite Hent, entries_node, !length_app. split; [done|]. split; [simpl; lia|]. split; [done|].
  change (d.1 :: entries r) with ([d.1] ++ entries r). rewrite !freed_values_app.
  destruct d as [[k v] x]. cbn [fst snd]. rewrite freed_values_item. solve_Permutation.
Qed.

Lemma destroy_runs n t w :
  avl_world t w → few t → (length (entries t) ≤ n)%nat →
  ∃ m w' vs, runs (loop_body avlt_destroy_body) (tt, w) m (tt, w') ∧ m ≤ Z.of_nat n ∧ pw_nodes w' = ∅ ∧
    vs ≡ₚ freed_values (entries t) ∧ pw_freed w' = pw_freed w ++ vs.
Proof.
  revert t w. induction n as [|n IH]; intros t w Hw Hf Hn; assert (t = E ∨ t ≠ E) as [->|Hne] by (destruct t; auto).
  1, 3: destruct Hw as (([Ht (_&_&Hdom)]&_)&_); exists 0, w, [];
    pose proof freed_values_nil as Hnil; split_and!;
    [apply runs_exit; unfold loop_body, avlt_destroy_body; cbn [fst snd]; erewrite st_bind_Ret;
       [|unfold load_ptree; by rewrite Ht]; by simpl
    |lia
    |apply map_empty; intros q; apply eq_None_not_Some; rewrite Hdom; apply not_elem_of_nil
    |by rewrite Hnil|by rewrite app_nil_r].
  { destruct t; [done|]. rewrite avl_entries_length, length_flat_T in Hn. lia. }
  destruct (returns_inv _ _ (destroy_step t w Hw Hf Hne)) as ([res w1]&Hb&->&t1&vs1&Hw1&Hlen&Hf1&Hv1).
  assert (Hfew : few t1) by (unfold few in *; rewrite !avl_entries_length in Hlen; lia).
  destruct (IH t1 w1 Hw1 Hfew ltac:(lia)) as (m&w2&vs2&Hr&Hm&HN&Hv2&Hf2).
  exists (m + 1), w2, (vs1 ++ vs2). split_and!; [|lia|done|by rewrite Hv1, Hv2|by rewrite Hf2, Hf1, app_assoc].
  eapply runs_step; [|exact Hr]. unfold loop_body. cbn [fst snd]. by rewrite Hb.
Qed.
Lemma avlt_destroy_ok t w :
  avl_world t w → few t →
  returns (avlt_destroy w) (λ '(_, w'), pw_tree w' = None ∧ pw_nodes w' = ∅ ∧
    ∃ vs, vs ≡ₚ freed_values (entries t) ∧ pw_freed w' = pw_freed w ++ vs).
Proof.
  intros Hw Hf. destruct (destroy_runs _ t w Hw Hf (reflexivity _)) as (m&w'&vs&Hr&Hm&HN&Hv&Hfr).
  unfold few in Hf. rewrite avl_entries_length in Hm. unfold avlt_destroy. go.
  eapply returns_Ret_to; [unfold loopS; apply (runs_loop _ _ m); [exact Hr|lia]|].
  unfold free_ptree. go. split; [done|]. split; [done|]. by exists vs.
Qed.
End destroy.
