(* ===== verification/AvltreeSpec.v ===== *)
(** * AVL trees keep their balance, and dictionaries when keys arrive at the ends

    The specification of src/src/avltree.c: the balance in every case, and the
    sorted dictionary when the subtree that a new node takes over is on one
    side of its key. *)

From S2P Require Import Prelude Comparators SortedDict Ptree PtreeSearch.
From S2P Require Import Avltree AvltreeShape AvltreeBalance AvltreeJoin AvltreeAdd AvltreeInsert AvltreeLoop AvltreeDelete AvltreeWalk.

(** ** Operations and results *)

Inductive aop := AAdd (k : key) (v : Z) | ARemove (k : key) (value : bool) | AWalk.
Inductive ares := RAdd (rc : Z) | RRemove (rc : Z) (v : option Z) | RWalk (n : Z) (s : items).

Section run.
Context (depth : nat).

Definition run_aop (o : aop) : P ares :=
  match o with
  | AAdd k v => rc ← avlt_add k v; mret (RAdd rc)
  | ARemove k value => '(rc, v) ← avlt_remove k value; mret (RRemove rc v)
  | AWalk => '(n, s) ← avlt_walk_sorted depth collect []; mret (RWalk n s)
  end.
Fixpoint run_aops (os : list aop) : P (list ares) :=
  match os with
  | [] => mret []
  | o :: os => r ← run_aop o; rs ← run_aops os; mret (r :: rs)
  end.
End run.

(** The logarithmic height. *)
Lemma avl_height t : avl t → (height t ≤ 2 * Nat.log2 (length (entries t) + 1) + 1)%nat.
Proof.
  intros Ha. pose proof (avl_size t _ Ha eq_refl) as Hs. rewrite avl_entries_length.
  assert (2 ^ (height t / 2) ≤ length (flat t) + 1)%nat as Hp.
  { apply Nat2Z.inj_le. rewrite Nat2Z.inj_pow, Nat2Z.inj_div. simpl Z.of_nat. lia. }
  apply Nat.log2_le_mono in Hp. rewrite Nat.log2_pow2 in Hp by lia.
  pose proof (Nat.div_mod_eq (height t) 2). pose proof (Nat.mod_upper_bound (height t) 2). lia.
Qed.

(** ** The specification *)

Section spec.
Context {cmp : libhl_cmp_callback_t} {ok : key → Prop} `{!Comparator cmp ok} (fr : bool).

(** The key comes before all those of [s], after all, or is the first or the
    last. *)
Definition at_end (k : key) (s : items) : Prop :=
  Forall (λ x, cmp_sign x.1 k ≤ 0) s ∨ Forall (λ x, 0 ≤ cmp_sign x.1 k) s.

(** The result, the dictionary after it and the values freed. *)
Definition avl_spec (s : items) (o : aop) : ares * items * list Z :=
  match o with
  | AAdd k v =>
      match dict_find k s with
      | Some _ => (RAdd (-1), s, [])
      | None => (RAdd 0, dict_insert k v s, [])
      end
  | ARemove k value =>
      match dict_find k s with
      | Some v => (RRemove 0 (if value then Some v else None), dict_remove k s, avl_freed fr value v)
      | None => (RRemove 0 None, s, [])
      end
  | AWalk => (RWalk (Z.of_nat (length s)) s, s, [])
  end.
Fixpoint avl_spec_run (s : items) (os : list aop) : list ares * items * list Z :=
  match os with
  | [] => ([], s, [])
  | o :: os =>
      let '(r, s1, f1) := avl_spec s o in
      let '(rs, s2, f2) := avl_spec_run s1 os in (r :: rs, s2, f1 ++ f2)
  end.

Definition aop_ok (s : items) (o : aop) : Prop :=
  match o with AAdd k _ => ok k ∧ at_end k s | ARemove k _ => ok k | AWalk => True end.
(** Keys arrive at the ends. *)
Fixpoint aops_ok (s : items) (os : list aop) : Prop :=
  match os with [] => True | o :: os => aop_ok s o ∧ aops_ok (avl_spec s o).1.2 os end.

Lemma insert_length k v s : (length (dict_insert k v s) ≤ S (length s))%nat.
Proof. induction s as [|[k' v'] s IH]; simpl; [done|]. repeat case_if; simpl; lia. Qed.
Lemma remove_length k s : (length (dict_remove k s) ≤ length s)%nat.
Proof. induction s as [|[k' v'] s IH]; simpl; [done|]. case_if; simpl; lia. Qed.
Lemma avl_spec_length s o : (length (avl_spec s o).1.2 ≤ S (length s))%nat.
Proof.
  destruct o as [k v|k v|]; simpl; [..|lia]; case_match; simpl; try lia; [apply insert_length|].
  pose proof (remove_length k s). lia.
Qed.

Lemma at_end_clean k t :
  ok k → Forall (λ x, ok x.1) (entries t) → at_end k (entries t) → clean_place (cmp := cmp) k t = true.
Proof.
  intros Hk Ho Hend.
  assert (Hside : ∀ t : atree, Forall (λ x, ok x.1) (entries t) →
    (Forall (λ x, cmp_sign x.1 k ≤ 0) (entries t) → clean_place (cmp := cmp) k t = true) ∧
    (Forall (λ x, 0 ≤ cmp_sign x.1 k) (entries t) → clean_place (cmp := cmp) k t = true)).
  2:{ destruct (Hside t Ho) as [Hl Hr]. destruct Hend; auto. }
  clear t Ho Hend. intros t. induction t as [|p d l IHl r IHr]; intros Ho; [done|].
  apply entries_T in Ho as (Hol&Hod&Hor). specialize (IHl Hol). specialize (IHr Hor).
  pose proof (sign_swap k d.1.1 Hk Hod). pose proof (sign_swap d.1.1 k Hod Hk).
  cbn [clean_place]. rewrite entries_node.
  split; intros Hs; apply Forall_app in Hs as [Hsl [Hsd Hsr]%Forall_cons].
  - destruct (Z.ltb_spec (cmp_sign k d.1.1) 0); [lia|]. destruct (0 <? cmp_sign k d.1.1); [|done].
    destruct r as [|q e b a]; [done|]. pose proof Hsr as Hse. rewrite entries_node in Hse.
    apply Forall_app in Hse as [_ [Hse _]%Forall_cons].
    destruct (Z.ltb_spec (cmp_sign e.1.1 k) 0); [by apply (proj1 IHr)|]. by rewrite (proj2 (Z.ltb_ge 0 _)).
  - destruct (Z.ltb_spec (cmp_sign k d.1.1) 0).
    + destruct l as [|q e a b]; [done|]. pose proof Hsl as Hse. rewrite entries_node in Hse.
      apply Forall_app in Hse as [_ [Hse _]%Forall_cons].
      destruct (Z.ltb_spec 0 (cmp_sign e.1.1 k)); [by apply (proj2 IHl)|]. by rewrite (proj2 (Z.ltb_ge (cmp_sign e.1.1 k) 0)).
    + by rewrite (proj2 (Z.ltb_ge 0 _)) by lia.
Qed.
End spec.

(** ** One operation *)

Section refine.
Context (f : libhl_cmp_callback_t) (fr : bool) {ok : key → Prop} `{!Comparator f ok}.
Abbreviation avl_world := (avl_world f fr (ok := ok)).
Abbreviation bst := (bst f ok).

(** What an addition does to the items, in the order of the keys or not. *)
Lemma added_items nn k v t rc t' :
  avl_added f nn k v t rc t' →
  (rc = -1 ∧ t' = t) ∨ (rc = 0 ∧ entries t' ≡ₚ (k, v) :: entries t).
Proof.
  unfold avl_added. destruct t as [|p d l r].
  - intros [-> Ht]. right. split; [done|]. unfold entries. by rewrite Ht.
  - destruct (grow _ _ _ _ _) as [[c t1]|] eqn:Hg; [|by left]. intros [-> Ht]. right. split; [done|].
    unfold entries. rewrite Ht. by rewrite (grow_flat _ _ _ _ _ _ _ Hg).
Qed.
Lemma added_dict nn k v t rc t' :
  avl_added f nn k v t rc t' → ok k → bst t → clean_place (cmp := f) k t = true →
  bst t' ∧ match dict_find k (entries t) with
           | Some _ => rc = -1 ∧ t' = t
           | None => rc = 0 ∧ entries t' = dict_insert k v (entries t)
           end.
Proof.
  intros Ht' Hk Hb Hc.
  assert (Hins : entries t' = dict_insert k v (entries t) → bst t').
  { unfold PtreeSearch.bst. intros ->. by apply dict_insert_dict. }
  unfold avl_added in Ht'. destruct t as [|p d l r].
  - destruct Ht' as [-> Ht]. assert (He : entries t' = [(k, v)]) by (unfold entries; by rewrite Ht). by split; [apply Hins|].
  - pose proof (grow_dict nn k v Hk [] (T p d l r) Hb I ltac:(done) Hc) as Hg. unfold grown in Hg. cbn [plug] in Hg.
    destruct (grow _ _ _ _ _) as [[c t1]|].
    + destruct Ht' as [-> Ht], Hg as [Hent ->].
      assert (He : entries t' = dict_insert k v (entries (T p d l r))) by (rewrite <- Hent; unfold entries; by rewrite Ht).
      by split; [apply Hins|].
    + destruct Ht' as [-> ->], Hg as [old ->]. done.
Qed.

Lemma add_keeps k v t w :
  avl_world t w → ok k → Z.of_nat (length (entries t)) < 2 ^ 31 - 5 →
  bst t → clean_place (cmp := f) k t = true →
  returns (avlt_add k v w) (λ '(rc, w'), ∃ t', avl_world t' w' ∧ bst t' ∧ pw_freed w' = pw_freed w ∧
    match dict_find k (entries t) with
    | Some _ => rc = -1 ∧ entries t' = entries t
    | None => rc = 0 ∧ entries t' = dict_insert k v (entries t)
    end).
Proof.
  intros Hw Hk Hf Hb Hc. rewrite avl_entries_length in Hf. eapply returns_mono; [by apply avl_add_ok|].
  intros [rc w'] (t'&Hw'&Hadd&Hfr&_). destruct (added_dict _ _ _ _ _ _ Hadd Hk Hb Hc) as [Hb' Hres].
  exists t'. split; [done|]. split; [done|]. split; [done|]. destruct (dict_find _ _); [|done]. by destruct Hres as [-> ->].
Qed.
Lemma remove_deletes k v t w :
  avl_world t w → ok k → few t → bst t →
  returns (avlt_remove k v w) (λ '(res, w'), ∃ t', avl_world t' w' ∧ bst t' ∧
    entries t' = dict_remove k (entries t) ∧
    match dict_find k (entries t) with
    | Some value => res = (0, if v then Some value else None) ∧ pw_freed w' = pw_freed w ++ avl_freed fr v value
    | None => res = (0, None) ∧ w' = w
    end).
Proof.
  intros Hw Hk Hf Hb. eapply returns_mono; [by apply avl_remove_ok|]. intros [res w'].
  pose proof (locate_ok k [] t I) as Hl. destruct (locate k [] t) as [c s]. destruct Hl as (Hplug&Hd&Hp). cbn [plug] in Hplug.
  subst t. rewrite (find_place k Hk c s Hb Hd Hp). destruct s as [|p d l r].
  - intros [-> ->]. exists (plug c E). rewrite remove_absent; [done|]. by apply (find_place k Hk c E).
  - intros (t'&Hw'&->&Hent&Hfr&_). exists t'. split; [done|].
    assert (He : entries t' = dict_remove k (entries (plug c (T p d l r)))).
    { destruct (bst_sides k Hk c p d l r Hb Hp) as [Hlo _]. rewrite Hent, entries_at, (app_assoc (pre c).*2 (entries l) (_ :: _)).
      rewrite remove_hit by done. by rewrite <- app_assoc. }
    split; [|done]. unfold PtreeSearch.bst. rewrite He. by apply dict_remove_dict.
Qed.

Lemma run_aop_ok depth t w o :
  avl_world t w → bst t → aop_ok (ok := ok) (entries t) o → (height t ≤ depth)%nat →
  Z.of_nat (length (entries t)) < 2 ^ 31 - 5 →
  returns (run_aop depth o w) (λ '(r, w'), ∃ t' freed, avl_world t' w' ∧ bst t' ∧
    avl_spec fr (entries t) o = (r, entries t', freed) ∧ pw_freed w' = pw_freed w ++ freed).
Proof.
  intros Hw Hb Hok Hd Hsz. assert (Hf : few t) by (unfold few; rewrite avl_entries_length in Hsz; lia).
  destruct o as [k v|k v|]; cbn [run_aop avl_spec aop_ok] in *; go.
  - destruct Hok as [Hk Hend]. pose proof Hw as (_&_&Ho&_).
    eapply returns_mono; [apply add_keeps; try done; by apply at_end_clean|].
    intros [rc w'] (t'&Hw'&Hb'&Hfr&Hres). go. exists t', []. rewrite app_nil_r. split; [done|]. split; [done|]. split; [|done].
    destruct (dict_find k (entries t)); by destruct Hres as [-> ->].
  - eapply returns_mono; [by apply remove_deletes|]. intros [[rc old] w'] (t'&Hw'&Hb'&Hent&Hres). go.
    destruct (dict_find k (entries t)) eqn:Hfind.
    + destruct Hres as [[= -> ->] Hfr]. exists t', (avl_freed fr v z). by rewrite <- Hent.
    + destruct Hres as [[= -> ->] ->]. exists t', []. rewrite app_nil_r. split; [done|]. split; [done|]. split; [|done].
      rewrite Hent, remove_absent; done.
  - rewrite (avlt_walk_sorted_ok collect collect_goes_on (Some f) fr depth t); [|by destruct Hw as ((?&_)&_)|done|int_bounds; lia].
    go. exists t, []. rewrite app_nil_r, call_collect. done.
Qed.

Lemma run_aops_ok depth os n t w :
  avl_world t w → bst t → aops_ok (ok := ok) fr (entries t) os → (length (entries t) + length os ≤ n)%nat →
  (2 * Nat.log2 (n + 1) < depth)%nat → Z.of_nat n < 2 ^ 31 - 5 →
  returns (run_aops depth os w) (λ '(rs, w'), ∃ t' freed, avl_world t' w' ∧ bst t' ∧
    avl_spec_run fr (entries t) os = (rs, entries t', freed) ∧ pw_freed w' = pw_freed w ++ freed).
Proof.
  revert t w. induction os as [|o os IH]; intros t w Hw Hb Hos Hn Hd Hsz; cbn [run_aops length aops_ok avl_spec_run] in *; go.
  - exists t, []. by rewrite app_nil_r.
  - destruct Hos as [Ho Hos]. pose proof Hw as (_&Ha&_). pose proof (avl_height t Ha).
    assert (Nat.log2 (length (entries t) + 1) ≤ Nat.log2 (n + 1))%nat by (apply Nat.log2_le_mono; lia).
    pose proof (avl_spec_length fr (entries t) o) as Hlen.
    eapply returns_mono; [apply run_aop_ok; try done; lia|].
    intros [r w1] (t1&f1&Hw1&Hb1&Hspec&Hf1). rewrite Hspec in *. cbn [fst snd] in *. go.
    eapply returns_mono; [apply (IH t1 w1); try done; lia|].
    intros [rs w2] (t2&f2&Hw2&Hb2&Hrun&Hf2). go. exists t2, (f1 ++ f2). rewrite Hrun. split; [done|]. split; [done|].
    by rewrite Hf2, Hf1, app_assoc.
Qed.
End refine.

(** ** The worlds of the witnesses *)

Definition no_avl : pworld (Z * Z) := mk_pworld None ∅ 1 [] [] 0.
Definition three_avl : atree :=
  T 1 (k64 20, 200, (1, 1)) (T 2 (k64 10, 100, (0, 0)) E E) (T 3 (k64 30, 300, (0, 0)) E E).
Definition three_avl_world : pworld (Z * Z) :=
  mk_pworld (Some (mk_ptree 1 (Some libhl_cmp_keys_uint64) true))
    (<[1 := node_of (k64 20, 200, (1, 1)) 2 3 0]> (<[2 := node_of (k64 10, 100, (0, 0)) 0 0 1]>
       {[3 := node_of (k64 30, 300, (0, 0)) 0 0 1]})) 4 [] [] 0.

Lemma three_avl_dict : bst libhl_cmp_keys_uint64 small_key three_avl.
Proof.
  unfold PtreeSearch.bst. change (entries three_avl) with [(k64 10, 100); (k64 20, 200); (k64 30, 300)].
  rewrite !dict_cons. split_and!; try (by apply small_le_bytes); try apply dict_nil.
  all: intros y; rewrite ?elem_of_cons, elem_of_nil; intros Hy; destruct_or?; subst; done.
Qed.
Lemma three_avl_holds : avl_world libhl_cmp_keys_uint64 true (ok := small_key) three_avl three_avl_world.
Proof.
  split; [split; [split; [done|]|split; [done|by apply (bool_decide_unpack _)]]|split; [|split]].
  - split_and!; [done..|by apply (bool_decide_unpack _)|].
    intros p. simpl. rewrite !lookup_insert_is_Some', lookup_singleton_is_Some, !elem_of_cons. set_solver.
  - simpl. split_and!; try done; lia.
  - apply three_avl_dict.
  - apply not_elem_of_nil.
Qed.

(** Three nodes in a row, not yet balanced. *)
Definition bent : atree :=
  T 1 (k64 10, 100, (0, 1)) E (T 2 (k64 20, 200, (0, 1)) E (T 3 (k64 30, 300, (0, 0)) E E)).
Definition bent_world : pworld (Z * Z) :=
  mk_pworld (Some (mk_ptree 1 (Some libhl_cmp_keys_uint64) true))
    (<[1 := node_of (k64 10, 100, (0, 1)) 0 2 0]> (<[2 := node_of (k64 20, 200, (0, 1)) 0 3 1]>
       {[3 := node_of (k64 30, 300, (0, 0)) 0 0 2]})) 4 [] [] 0.

(** ** The claims *)

Section claims.
Context (f : libhl_cmp_callback_t) (fr : bool) (ok : key → Prop) `{!Comparator f ok}.

(** C9 — a new AVL tree behaves as a sorted dictionary under any sequence of
    additions of keys at the ends, removals and walks in order: the same
    results and values freed.  An existing key is left with its value and -1 is
    returned; the removal of an absent key returns 0.  The recursion depth of
    the walks is logarithmic. *)
Theorem avlt_refines_dict os depth w :
  aops_ok (ok := ok) fr [] os → (2 * Nat.log2 (length os + 1) < depth)%nat → Z.of_nat (length os) < 2 ^ 31 - 5 →
  pw_nodes w = ∅ → 0 < pw_next w → false ∉ pw_alloc w →
  returns ((_ ← avlt_create (Some f) fr; run_aops depth os) w) (λ '(rs, w'), ∃ t freed,
    avl_world f fr (ok := ok) t w' ∧ bst f ok t ∧
    avl_spec_run fr [] os = (rs, entries t, freed) ∧ pw_freed w' = pw_freed w ++ freed).
Proof.
  intros Hos Hd Hsz HN Hn Hal. go. unfold avlt_create. go. apply returns_next_alloc. intros b Hb Hal'.
  destruct b; [|by destruct Hal; apply Hb]. cbn [negb]. go.
  change (pw_freed w) with (pw_freed (put_tree (Some (mk_ptree 0 (Some f) fr)) (put_alloc (tail (pw_alloc w)) w))).
  eapply (run_aops_ok f fr depth os (length os) E); [|apply dict_nil|done..].
  split; [split; [split; [done|]|split; [done|constructor]]|].
  - fields. rewrite HN. apply holds_E.
  - split; [done|]. split; [constructor|by intros ?%Hal'].
Qed.

(** C39 — [avlt_add] keeps a tree balanced, whatever the order of its keys and
    of the additions: the heights kept are right, those of siblings differ by
    one at most, no node is lost, one entry is added or the tree is left, and
    the height is at most [2 * log2 (n + 1) + 1]. *)
Theorem avlt_add_balanced k v t w :
  avl_world f fr (ok := ok) t w → ok k → Z.of_nat (length (entries t)) < 2 ^ 31 - 5 →
  returns (avlt_add k v w) (λ '(rc, w'), ∃ t', avl_world f fr (ok := ok) t' w' ∧
    ((rc = -1 ∧ t' = t) ∨ (rc = 0 ∧ entries t' ≡ₚ (k, v) :: entries t)) ∧
    (height t' ≤ 2 * Nat.log2 (length (entries t') + 1) + 1)%nat).
Proof.
  intros Hw Hk Hsz. rewrite avl_entries_length in Hsz. eapply returns_mono; [by apply avl_add_ok|].
  intros [rc w'] (t'&Hw'&Hadd&_). exists t'. split; [done|].
  split; [by eapply added_items|]. apply avl_height. by destruct Hw' as (_&?&_).
Qed.

(** in a search tree, where the subtree that a new node takes over is on
    one side of the key ([clean_place]), [avlt_add] inserts the entry, or
    returns -1 and leaves the entries when the key is there. *)
Theorem avlt_add_inserts k v t w :
  avl_world f fr (ok := ok) t w → ok k → Z.of_nat (length (entries t)) < 2 ^ 31 - 5 →
  bst f ok t → clean_place (cmp := f) k t = true →
  returns (avlt_add k v w) (λ '(rc, w'), ∃ t', avl_world f fr (ok := ok) t' w' ∧ bst f ok t' ∧
    pw_freed w' = pw_freed w ∧
    match dict_find k (entries t) with
    | Some _ => rc = -1 ∧ entries t' = entries t
    | None => rc = 0 ∧ entries t' = dict_insert k v (entries t)
    end).
Proof. apply add_keeps. Qed.

(** [avlt_remove] on a search tree deletes the entry, hands its value out
    or to the free callback (not a null one), and keeps the tree balanced; when
    the key is absent it changes nothing and returns 0 as well. *)
Theorem avlt_remove_deletes k v t w :
  avl_world f fr (ok := ok) t w → ok k → Z.of_nat (length (entries t)) < 2 ^ 31 - 4 → bst f ok t →
  returns (avlt_remove k v w) (λ '(res, w'), ∃ t', avl_world f fr (ok := ok) t' w' ∧ bst f ok t' ∧
    entries t' = dict_remove k (entries t) ∧
    match dict_find k (entries t) with
    | Some value => res = (0, if v then Some value else None) ∧ pw_freed w' = pw_freed w ++ avl_freed fr v value
    | None => res = (0, None) ∧ w' = w
    end).
Proof. intros Hw Hk Hsz. apply remove_deletes; [done..|]. unfold few. by rewrite <- avl_entries_length. Qed.

(** C24 — [avlt_destroy] frees every node with its key and the tree, and gives
    every value that is not null once to the free callback. *)
Theorem avlt_destroy_frees t w :
  avl_world f fr (ok := ok) t w → Z.of_nat (length (entries t)) < 2 ^ 31 - 4 →
  returns (avlt_destroy w) (λ '(_, w'), pw_tree w' = None ∧ pw_nodes w' = ∅ ∧
    ∃ vs, vs ≡ₚ (if fr then filter (λ v, v ≠ 0) (entries t).*2 else []) ∧ pw_freed w' = pw_freed w ++ vs).
Proof. intros Hw Hsz. apply (avlt_destroy_ok f fr t w Hw). unfold few. by rewrite <- avl_entries_length. Qed.

(** C34 — the loop of [avlt_balance] ends, from a node whose two sides are
    balanced trees of whatever heights, below whatever ancestors with balanced
    sides: the tree is balanced then, with the same nodes in the same order. *)
Theorem avlt_balance_terminates cb c p d l r w :
  avl_in cb fr (plug c (T p d l r)) w → Z.of_nat (length (flat (plug c (T p d l r)))) < 2 ^ 31 - 4 →
  avl l → avl r → avl_path c →
  returns (avlt_balance p w) (λ '(_, w'), ∃ t',
    avl t' ∧ flat t' = flat (plug c (T p d l r)) ∧ avl_in cb fr t' w' ∧ rest w' = rest w).
Proof.
  intros Hin Hf Hl Hr Hc. eapply returns_mono; [by apply (balance_ok cb fr c p d l r w)|].
  intros [[] w'] (t'&Hstep&Ha). exists t'. pose proof (avl_step_in _ _ _ _ _ _ Hstep).
  by destruct Hstep as [(_&?&?&_) _].
Qed.

(** the walks with a callback that neither stops nor deletes call it once
    on every entry, in order or level by level from left to right, return the
    number of the entries and leave the tree. *)
Theorem avlt_walk_visits {U} depth (cbk : key → Z → U → Z * U) cb t u w :
  goes_on cbk → tree_in cb fr t w → (height t ≤ depth)%nat → Z.of_nat (length (entries t)) ≤ INT_MAX →
  avlt_walk_sorted depth cbk u w = Ret (Z.of_nat (length (entries t)), call_all cbk (entries t) u, w) ∧
  avlt_walk cbk u w = Ret (Z.of_nat (length (entries t)), call_all cbk (by_level t) u, w) ∧
  by_level t ≡ₚ entries t.
Proof.
  intros Hgo Hin Hd Hsz. split; [by eapply avlt_walk_sorted_ok|].
  split; [by eapply avlt_walk_ok|apply by_level_perm].
Qed.
End claims.

(** ** Witnesses *)

Lemma three_avl_size : Z.of_nat (length (entries three_avl)) = 3.
Proof. reflexivity. Qed.

Lemma avlt_refines_dict_witness :
  let os := [AAdd (k64 5) 50; AAdd (k64 3) 30; AAdd (k64 9) 90; AAdd (k64 9) 95; ARemove (k64 5) false; AWalk] in
  returns ((_ ← avlt_create (Some libhl_cmp_keys_uint64) true; run_aops 9 os) no_avl) (λ '(rs, w'), ∃ t freed,
    avl_world libhl_cmp_keys_uint64 true (ok := small_key) t w' ∧ bst libhl_cmp_keys_uint64 small_key t ∧
    avl_spec_run true [] os = (rs, entries t, freed) ∧ pw_freed w' = [] ++ freed).
Proof.
  apply (avlt_refines_dict libhl_cmp_keys_uint64 true small_key
    [AAdd (k64 5) 50; AAdd (k64 3) 30; AAdd (k64 9) 90; AAdd (k64 9) 95; ARemove (k64 5) false; AWalk] 9 no_avl).
  - cbn [aops_ok aop_ok].
    split_and!; try (by apply small_le_bytes); try done; unfold at_end;
      first [left; by apply (bool_decide_unpack _)|right; by apply (bool_decide_unpack _)].
  - simpl. lia.
  - simpl. lia.
  - done.
  - done.
  - apply not_elem_of_nil.
Defined.

Lemma avlt_add_balanced_witness :
  returns (avlt_add (k64 25) 250 three_avl_world) (λ '(rc, w'), ∃ t',
    avl_world libhl_cmp_keys_uint64 true (ok := small_key) t' w' ∧
    ((rc = -1 ∧ t' = three_avl) ∨ (rc = 0 ∧ entries t' ≡ₚ (k64 25, 250) :: entries three_avl)) ∧
    (height t' ≤ 2 * Nat.log2 (length (entries t') + 1) + 1)%nat).
Proof.
  apply (avlt_add_balanced libhl_cmp_keys_uint64 true small_key (k64 25) 250 three_avl three_avl_world).
  - apply three_avl_holds.
  - by apply small_le_bytes.
  - rewrite three_avl_size. lia.
Defined.

Lemma avlt_add_inserts_witness :
  returns (avlt_add (k64 25) 250 three_avl_world) (λ '(rc, w'), ∃ t',
    avl_world libhl_cmp_keys_uint64 true (ok := small_key) t' w' ∧ bst libhl_cmp_keys_uint64 small_key t' ∧
    pw_freed w' = pw_freed three_avl_world ∧
    match dict_find (cmp := libhl_cmp_keys_uint64) (k64 25) (entries three_avl) with
    | Some _ => rc = -1 ∧ entries t' = entries three_avl
    | None => rc = 0 ∧ entries t' = dict_insert (cmp := libhl_cmp_keys_uint64) (k64 25) 250 (entries three_avl)
    end).
Proof.
  apply (avlt_add_inserts libhl_cmp_keys_uint64 true small_key (k64 25) 250 three_avl three_avl_world).
  - apply three_avl_holds.
  - by apply small_le_bytes.
  - rewrite three_avl_size. lia.
  - apply three_avl_dict.
  - reflexivity.
Defined.

Lemma avlt_remove_deletes_witness :
  returns (avlt_remove (k64 20) false three_avl_world) (λ '(res, w'), ∃ t',
    avl_world libhl_cmp_keys_uint64 true (ok := small_key) t' w' ∧ bst libhl_cmp_keys_uint64 small_key t' ∧
    entries t' = dict_remove (cmp := libhl_cmp_keys_uint64) (k64 20) (entries three_avl) ∧
    match dict_find (cmp := libhl_cmp_keys_uint64) (k64 20) (entries three_avl) with
    | Some value => res = (0, None) ∧ pw_freed w' = pw_freed three_avl_world ++ avl_freed true false value
    | None => res = (0, None) ∧ w' = three_avl_world
    end).
Proof.
  apply (avlt_remove_deletes libhl_cmp_keys_uint64 true small_key (k64 20) false three_avl three_avl_world).
  - apply three_avl_holds.
  - by apply small_le_bytes.
  - rewrite three_avl_size. lia.
  - apply three_avl_dict.
Defined.

Lemma avlt_destroy_frees_witness :
  returns (avlt_destroy three_avl_world) (λ '(_, w'), pw_tree w' = None ∧ pw_nodes w' = ∅ ∧
    ∃ vs, vs ≡ₚ filter (λ v, v ≠ 0) (entries three_avl).*2 ∧ pw_freed w' = pw_freed three_avl_world ++ vs).
Proof.
  apply (avlt_destroy_frees libhl_cmp_keys_uint64 true small_key three_avl three_avl_world).
  - apply three_avl_holds.
  - rewrite three_avl_size. lia.
Defined.

Lemma avlt_balance_terminates_witness :
  returns (avlt_balance 1 bent_world) (λ '(_, w'), ∃ t', avl t' ∧ flat t' = flat bent ∧
    avl_in (Some libhl_cmp_keys_uint64) true t' w' ∧ rest w' = rest bent_world).
Proof.
  apply (avlt_balance_terminates true (Some libhl_cmp_keys_uint64) [] 1 (k64 10, 100, (0, 1)) E
    (T 2 (k64 20, 200, (0, 1)) E (T 3 (k64 30, 300, (0, 0)) E E)) bent_world).
  - split; [done|]. split_and!; [done..|by apply (bool_decide_unpack _)|done].
  - simpl. lia.
  - done.
  - simpl. split_and!; try done; lia.
  - done.
Defined.

Lemma avlt_walk_visits_witness :
  avlt_walk_sorted 3 collect [] three_avl_world = Ret (3, call_all collect (entries three_avl) [], three_avl_world) ∧
  avlt_walk collect [] three_avl_world = Ret (3, call_all collect (by_level three_avl) [], three_avl_world) ∧
  by_level three_avl ≡ₚ entries three_avl.
Proof.
  apply (avlt_walk_visits true 3 collect (Some libhl_cmp_keys_uint64) three_avl [] three_avl_world).
  - apply collect_goes_on.
  - apply three_avl_holds.
  - simpl. lia.
  - rewrite three_avl_size. int_bounds. lia.
Defined.

(** ** Where the code does something else *)

(** Additions ([inl]) and removals ([inr]) of 64-bit keys, and their return
    codes. *)
Fixpoint avl_edits (os : list (Z + Z)) : P (list Z) :=
  match os with
  | [] => mret []
  | o :: os =>
      rc ← match o with
           | inl n => avlt_add (k64 n) (n + 100)
           | inr n => '(rc, _) ← avlt_remove (k64 n) true; mret rc
           end;
      rcs ← avl_edits os; mret (rc :: rcs)
  end.
Definition new_avl : P unit := avlt_create (Some libhl_cmp_keys_uint64) true.

(** a new node can take over keys that belong to its other side: after
    these additions 4 comes before 3, and the removal of 3 does not find it. *)
Theorem avlt_add_misorders :
  fst <$> (_ ← new_avl; rcs ← avl_edits (inl <$> [3; 8; 6; 7; 2; 1; 5; 4]);
           '(_, before) ← avlt_walk_sorted 20 collect [];
           rc ← avl_edits [inr 3];
           '(n, after) ← avlt_walk_sorted 20 collect [];
           mret (rcs, before.*2, rc, n)) no_avl =
    Ret (replicate 8 0, [101; 102; 104; 103; 105; 106; 107; 108], [0], 8).
Proof. vm_compute. reflexivity. Qed.

(** A key can be added twice: the second time below its first node. *)
Theorem avlt_add_duplicates :
  fst <$> (_ ← new_avl; rcs ← avl_edits (inl <$> [7; 8; 4; 2; 6; 3; 5; 6]);
           '(n, s) ← avlt_walk_sorted 20 collect []; mret (rcs, n, s.*2)) no_avl =
    Ret (replicate 8 0, 8, [102; 103; 104; 105; 106; 106; 107; 108]).
Proof. vm_compute. reflexivity. Qed.

(** Without a comparator the second addition calls a null pointer. *)
Theorem avlt_add_no_comparator fr k v p d (l r : atree) w :
  tree_in None fr (T p d l r) w → avlt_add k v w = Undef.
Proof.
  intros [Ht Hh]. pose proof (holds_focus _ [] p d l r Hh) as [Hp Hp0]. unfold avlt_add.
  assert (Hbody : add_body k v p w = Undef).
  { assert (Hkey : load_key p w = Ret (d.1.1, w)) by (by apply returns_exact; eapply returns_load_key).
    unfold add_body, cmp_with_node, call_cmp, mbind, st_bind. cbv beta. unfold mbind in Hkey.
    rewrite Hkey. cbn [mbind outcome_bind]. unfold load_ptree. by rewrite Ht. }
  erewrite st_bind_Ret; [|unfold load_ptree; by rewrite Ht]. cbn [pt_root root]. rewrite (proj2 (Z.eqb_neq p 0)) by done.
  apply st_bind_Undef. unfold loopS. apply loop_undef. unfold loop_body. cbn [fst snd]. by rewrite Hbody.
Qed.

Lemma avlt_add_no_comparator_witness :
  avlt_add (k64 7) 70 (mk_pworld (Some (mk_ptree 1 None true)) {[1 := node_of (k64 5, 50, (0, 0)) 0 0 0]} 2 [] [] 0) = Undef.
Proof.
  apply (avlt_add_no_comparator true (k64 7) 70 1 (k64 5, 50, (0, 0)) E E).
  split; [done|]. split_and!; [done..|by apply (bool_decide_unpack _)|].
  intros p. simpl. rewrite lookup_singleton_is_Some, !elem_of_cons, elem_of_nil. split; [intros <-|intros [->|[]]]; auto.
Defined.

(** The walk level by level reads the node that its callback had removed. *)
Theorem avlt_walk_reads_removed :
  (_ ← new_avl; _ ← avl_edits [inl 4];
   avlt_walk (λ k v u, (-1, tt)) tt) no_avl = Undef.
Proof. vm_compute. reflexivity. Qed.

(** Stopped at 1, the walk in order goes on with 4. *)
Theorem avlt_walk_stop_goes_on :
  fst <$> (_ ← new_avl; _ ← avl_edits (inl <$> [4; 2; 6; 1; 3; 5; 7]);
           avlt_walk_sorted 20 (λ k v u, (if v =? 101 then 0 else 1, u ++ [v])) []) no_avl =
    Ret (6, [101; 104; 105; 106; 107]).
Proof. vm_compute. reflexivity. Qed.

(** A walk that removes nodes with two children never gives their values to
    the free callback. *)
Theorem avlt_walk_leaks_values :
  (λ r, (r.1, pw_freed r.2)) <$> (_ ← new_avl; _ ← avl_edits (inl <$> [4; 2; 6]);
           '(n, _) ← avlt_walk_sorted 20 (λ k v u, (if v =? 104 then -2 else 1, tt)) tt;
           '(m, _) ← avlt_walk_sorted 20 collect []; mret (n, m)) no_avl = Ret (-1, 2, []).
Proof. vm_compute. reflexivity. Qed.
