(* ===== verification/Binheap.v ===== *)
(** * Binomial heaps (src/src/binheap.c, src/src/binheap.h)

    A forest of heap-ordered trees.  The roots are in a linked list of
    Linklist, in the heap of that component, which is also the allocator; the
    nodes are objects of a second store, with a pointer to their parent, an
    array of children, and a pointer to the heap they were inserted in.  A key
    is a private copy of the caller's bytes.  Null is [0]. *)

From S2P Require Import Prelude Linklist Comparators.

(** ** Data *)

Inductive binheap_mode_t := BINHEAP_MODE_MAX | BINHEAP_MODE_MIN.
#[global] Instance binheap_mode_dec : EqDecision binheap_mode_t.
Proof. solve_decision. Defined.

(** [incr] and [decr] return the new key. *)
Record binheap_callbacks_t := mk_callbacks {
  cmp : libhl_cmp_callback_t; incr : key → Z → outcome key; decr : key → Z → outcome key
}.

Record binomial_tree_node_t := mk_bnode {
  bn_key : key; bn_value : Z; bn_parent : Z; bn_children : list Z; bn_bh : Z
}.
Record binheap_t := mk_binheap {
  bh_trees : Z; bh_head : Z; bh_cbs : binheap_callbacks_t; bh_count : Z; bh_mode : binheap_mode_t
}.

(** [bw_next]: the next address of a heap or a node; those of the lists are
    counted in [bw_heap]. *)
Record bworld := mk_bworld {
  bw_heaps : gmap Z binheap_t; bw_nodes : gmap Z binomial_tree_node_t; bw_heap : heap; bw_next : Z
}.

Abbreviation B := (ST bworld).

Definition load_bh (p : Z) : B binheap_t := λ w,
  match bw_heaps w !! p with Some b => Ret (b, w) | None => Undef end.
Definition load_bn (p : Z) : B binomial_tree_node_t := λ w,
  match bw_nodes w !! p with Some n => Ret (n, w) | None => Undef end.
Definition upd_heaps (g : gmap Z binheap_t → gmap Z binheap_t) (w : bworld) : bworld :=
  mk_bworld (g (bw_heaps w)) (bw_nodes w) (bw_heap w) (bw_next w).
Definition upd_bnodes (g : gmap Z binomial_tree_node_t → gmap Z binomial_tree_node_t)
    (w : bworld) : bworld :=
  mk_bworld (bw_heaps w) (g (bw_nodes w)) (bw_heap w) (bw_next w).
Definition set_bh (p : Z) (f : binheap_t → binheap_t) : B unit :=
  b ← load_bh p; modify (upd_heaps <[p := f b]>).
Definition set_bn (p : Z) (f : binomial_tree_node_t → binomial_tree_node_t) : B unit :=
  n ← load_bn p; modify (upd_bnodes <[p := f n]>).
Definition free_bn (p : Z) : B unit :=
  _ ← load_bn p; modify (upd_bnodes (delete p)).
Definition on_list {A} (m : ST heap A) : B A := λ w,
  '(a, h) ← m (bw_heap w); Ret (a, mk_bworld (bw_heaps w) (bw_nodes w) h (bw_next w)).

(** [malloc], [calloc] or [realloc] of a block whose contents are elsewhere:
    a new address or null. *)
Definition new_block : B Z := λ w,
  let h := bw_heap w in
  let h' := mk_heap (hp h) (hp_next h) (tail (hp_alloc h)) (hp_freed h) in
  match hp_alloc h with
  | false :: _ => Ret (0, mk_bworld (bw_heaps w) (bw_nodes w) h' (bw_next w))
  | _ => Ret (bw_next w, mk_bworld (bw_heaps w) (bw_nodes w) h' (bw_next w + 1))
  end.

Definition bn_with_key (k : key) (n : binomial_tree_node_t) :=
  mk_bnode k (bn_value n) (bn_parent n) (bn_children n) (bn_bh n).
Definition bn_with_key_value (k : key) (v : Z) (n : binomial_tree_node_t) :=
  mk_bnode k v (bn_parent n) (bn_children n) (bn_bh n).
Definition bn_with_parent (p : Z) (n : binomial_tree_node_t) :=
  mk_bnode (bn_key n) (bn_value n) p (bn_children n) (bn_bh n).
Definition bn_with_children (cs : list Z) (n : binomial_tree_node_t) :=
  mk_bnode (bn_key n) (bn_value n) (bn_parent n) cs (bn_bh n).
Definition bh_with_head (h : Z) (b : binheap_t) :=
  mk_binheap (bh_trees b) h (bh_cbs b) (bh_count b) (bh_mode b).
Definition bh_with_count (c : Z) (b : binheap_t) :=
  mk_binheap (bh_trees b) (bh_head b) (bh_cbs b) c (bh_mode b).

Definition num_children (n : binomial_tree_node_t) : Z := Z.of_nat (length (bn_children n)).

(** ** Keys *)

Definition HAS_PRECEDENCE (b : binheap_t) (k1 k2 : key) : outcome bool :=
  c ← cmp (bh_cbs b) k1 k2;
  Ret (match bh_mode b with BINHEAP_MODE_MAX => 0 <=? c | BINHEAP_MODE_MIN => c <=? 0 end).

(** [memcmp]: only the sign of its result is specified. *)
Fixpoint memcmp (k1 k2 : key) : Z :=
  match k1, k2 with
  | a :: k1, b :: k2 => if a =? b then memcmp k1 k2 else if a <? b then -1 else 1
  | _, _ => 0
  end.

Definition cmp_keys_default : libhl_cmp_callback_t := λ k1 k2,
  if negb (length k1 =? length k2)%nat
  then Ret (as_int (u32 (Z.of_nat (length k1) - Z.of_nat (length k2))))
  else Ret (memcmp k1 k2).

Definition byte (v : Z) : Z := v mod 256.

(** The loop of the default callbacks: [off], [b] and the new key. *)
Fixpoint carry_loop (keep : Z → Z → bool) (next : Z → Z) (k : key) (off : nat) (b : Z) (nk : key) :
    nat * Z * key :=
  match off with
  | O => (O, b, nk)
  | S off' =>
      if keep b (k !!! off) then carry_loop keep next k off' (byte (next (k !!! off'))) (<[off := b]> nk)
      else (off, b, nk)
  end.

(** The first byte of an empty key is out of bounds. *)
Definition incr_key_default (k1 : key) (incr : Z) : outcome key :=
  _ ← check (negb (length k1 =? 0)%nat);
  let off := (length k1 - 1)%nat in
  let '(off, b, nk) :=
    carry_loop (λ b c, b <? c) (λ c, c + 1) k1 off (byte (k1 !!! off + byte incr)) k1 in
  Ret (if (off =? 0)%nat && (b <? nk !!! 0%nat) then 1 :: nk else nk).
Definition decr_key_default (k1 : key) (decr : Z) : outcome key :=
  _ ← check (negb (length k1 =? 0)%nat);
  let off := (length k1 - 1)%nat in
  let '(off, b, nk) :=
    carry_loop (λ b c, c <? b) (λ c, c - 1) k1 off (byte (k1 !!! off - byte decr)) k1 in
  Ret (if (off =? 0)%nat && (nk !!! 0%nat <? b) then 255 :: nk else nk).

Definition keys_callbacks_default : binheap_callbacks_t :=
  mk_callbacks cmp_keys_default incr_key_default decr_key_default.

(** The callbacks for an integer type: [ki += incr] overflows for a signed
    type that is not shorter than [int].  In a key longer than the type the
    bytes after the value would be indeterminate. *)
Definition add_to_key (t : int_type) (k : key) (d : Z) : outcome key :=
  _ ← check (it_size t =? length k)%nat;
  let v := int_value t k + d in
  _ ← check (negb (it_signed t) || (it_size t <? 4)%nat
             || ((- 2 ^ (it_bits t - 1) <=? v) && (v <? 2 ^ (it_bits t - 1))));
  Ret (le_bytes (it_size t) (v mod 2 ^ it_bits t)).
Definition BINHEAP_INCR_KEY_TYPE (t : int_type) (k : key) (incr : Z) : outcome key :=
  add_to_key t k incr.
Definition BINHEAP_DECR_KEY_TYPE (t : int_type) (k : key) (decr : Z) : outcome key :=
  add_to_key t k (- decr).
Definition BINHEAP_KEY_CALLBACKS_TYPE (t : int_type) : binheap_callbacks_t :=
  mk_callbacks (LIBHL_CMP_KEYS_TYPE t) (BINHEAP_INCR_KEY_TYPE t) (BINHEAP_DECR_KEY_TYPE t).

(** ** Trees *)

(** The array is extended by one; it is left alone when [realloc] fails. *)
Definition push_child (node child : Z) : B bool :=
  p ← new_block;
  if p =? 0 then mret false else
  _ ← set_bn node (λ n, bn_with_children (bn_children n ++ [child]) n);
  mret true.

Definition binomial_tree_node_add (node child : Z) : B Z :=
  ok ← push_child node child;
  if negb ok then mret (-1) else
  _ ← set_bn child (bn_with_parent node);
  mret 0.

Definition binomial_tree_merge (node1 node2 : Z) : B Z :=
  ok ← push_child node1 node2;
  if negb ok then mret (-1) else
  _ ← set_bn node2 (bn_with_parent node1);
  mret 0.

(** The index of the last child that no other precedes; [i] is the index of
    the first of [rest], [best] the one found so far. *)
Fixpoint find_child (better : Z → bool) (b : binheap_t) (children rest : list Z) (i best : Z) : B Z :=
  match rest with
  | [] => mret best
  | cur :: rest =>
      c ← load_bn cur;
      x ← load_bn (children !!! Z.to_nat best);
      d ← lift (cmp (bh_cbs b) (bn_key c) (bn_key x));
      find_child better b children rest (i + 1) (if better d then i else best)
  end.
Definition find_child_of (better : Z → bool) (node : Z) : B Z :=
  n ← load_bn node;
  if num_children n =? 0 then mret (-1) else
  b ← load_bh (bn_bh n);
  find_child better b (bn_children n) (bn_children n) 0 0.
Definition binomial_tree_node_find_min_child (node : Z) : B Z := find_child_of (λ d, d <=? 0) node.
Definition binomial_tree_node_find_max_child (node : Z) : B Z := find_child_of (λ d, 0 <=? d) node.

(** The loop of [binomial_tree_node_increase_key]: the node, its parent and
    whether something was swapped. *)
Definition sift_body (nkey : key) (x : Z * Z * bool) : B (Z * Z * bool + Z * bool) :=
  let '(node, parent, swapped) := x in
  if parent =? 0 then mret (inr (node, swapped)) else
  n ← load_bn node;
  p ← load_bn parent;
  b ← load_bh (bn_bh n);
  prec ← lift (HAS_PRECEDENCE b nkey (bn_key p));
  if negb prec then mret (inr (node, swapped)) else
  _ ← set_bn parent (bn_with_key_value nkey (bn_value n));
  _ ← set_bn node (bn_with_key_value (bn_key p) (bn_value p));
  mret (inl (parent, bn_parent p, true)).

Definition binomial_tree_node_increase_key (node incr_ : Z) : B unit :=
  if incr_ =? 0 then mret tt else
  n ← load_bn node;
  b ← load_bh (bn_bh n);
  nkey ← (if 0 <? incr_ then lift (incr (bh_cbs b) (bn_key n) incr_)
          else d ← lift (int32 (- incr_)); lift (decr (bh_cbs b) (bn_key n) d));
  '(node, swapped) ← loopS (sift_body nkey) (node, bn_parent n, false);
  if swapped : bool then mret tt else set_bn node (bn_with_key nkey).

(** ** The ends of the heap *)

(** The loop of [binheap_maxmin]; [is_min] is its argument [maxmin]. *)
Definition maxmin_body (bh : Z) (is_min : bool) (x : Z * Z * option Z) :
    B (Z * Z * option Z + Z * option Z) :=
  let '(i, node, index) := x in
  b ← load_bh bh;
  count ← on_list (list_count (bh_trees b));
  if as_int (u32 count) <=? i then mret (inr (node, index)) else
  curtree ← on_list (list_pick_value (bh_trees b) i);
  if node =? 0 then mret (inl (i + 1, curtree, Some i)) else
  c ← load_bn curtree;
  n ← load_bn node;
  d ← lift (cmp (bh_cbs b) (bn_key c) (bn_key n));
  let is_bigger := 0 <=? d in
  if (negb is_min && is_bigger) || (is_min && negb is_bigger)
  then mret (inl (i + 1, curtree, Some i)) else mret (inl (i + 1, node, index)).

(** The node and what is stored through [index]. *)
Definition binheap_maxmin (bh : Z) (is_min : bool) : B (Z * option Z) :=
  loopS (maxmin_body bh is_min) (0, 0, None).

Definition descend_body (find : Z → B Z) (root : Z) : B (Z + Z) :=
  n ← load_bn root;
  if num_children n =? 0 then mret (inr root) else
  i ← find root;
  n ← load_bn root;
  mret (inl (bn_children n !!! Z.to_nat i)).

Definition binheap_get_minimum (bh : Z) : B (Z * option Z) :=
  b ← load_bh bh;
  if bool_decide (bh_mode b = BINHEAP_MODE_MIN) && negb (bh_head b =? 0)
  then mret (bh_head b, None) else
  '(minroot, minidx) ← binheap_maxmin bh true;
  if minroot =? 0 then mret (0, minidx) else
  if bool_decide (bh_mode b ≠ BINHEAP_MODE_MIN) then
    minroot ← loopS (descend_body binomial_tree_node_find_min_child) minroot;
    mret (minroot, minidx)
  else mret (minroot, minidx).

Definition binheap_get_maximum (bh : Z) : B (Z * option Z) :=
  b ← load_bh bh;
  if bool_decide (bh_mode b = BINHEAP_MODE_MAX) && negb (bh_head b =? 0)
  then mret (bh_head b, None) else
  '(maxroot, maxidx) ← binheap_maxmin bh false;
  if maxroot =? 0 then mret (0, maxidx) else
  if bool_decide (bh_mode b ≠ BINHEAP_MODE_MAX) then
    maxroot ← loopS (descend_body binomial_tree_node_find_max_child) maxroot;
    mret (maxroot, maxidx)
  else mret (maxroot, maxidx).

Definition UPDATE_HEAD (bh : Z) : B unit :=
  _ ← set_bh bh (bh_with_head 0);
  b ← load_bh bh;
  '(head, _) ← match bh_mode b with
               | BINHEAP_MODE_MAX => binheap_get_maximum bh
               | BINHEAP_MODE_MIN => binheap_get_minimum bh
               end;
  set_bh bh (bh_with_head head).

(** ** Destroying a node *)

Definition binheap_remove_root_node (node item idx : Z) (user : unit) : Z * unit :=
  (if item =? node then -2 else 1, user).

(** The index of [node] among the children. *)
Fixpoint child_index (node : Z) (children : list Z) (i : Z) : Z :=
  match children with
  | [] => -1
  | c :: children => if c =? node then i else child_index node children (i + 1)
  end.

(** The node is a child: it leaves its parent, which is the new parent. *)
Definition detach_child (node parent : Z) : B Z :=
  p ← load_bn parent;
  let node_index := child_index node (bn_children p) 0 in
  _ ← (if 0 <=? node_index
       then set_bn parent (bn_with_children (delete (Z.to_nat node_index) (bn_children p)))
       else mret tt);
  mret parent.

(** The node is a root: it leaves the list of trees, and one of its children,
    the new parent, takes its place. *)
Definition detach_root (node rindex : Z) : B Z :=
  n ← load_bn node;
  b ← load_bh (bn_bh n);
  item_num ← (if negb (rindex =? 0) then
                _ ← on_list (list_fetch_value (bh_trees b) rindex); mret (as_int (u32 (rindex + 1)))
              else
                '(r, _) ← on_list (list_foreach_value (bh_trees b) (binheap_remove_root_node node) tt);
                mret r);
  if num_children n =? 0 then mret 0 else
  i ← match bh_mode b with
      | BINHEAP_MODE_MAX => binomial_tree_node_find_max_child node
      | BINHEAP_MODE_MIN => binomial_tree_node_find_min_child node
      end;
  if i <? 0 then mret 0 else
  let new_parent := bn_children n !!! Z.to_nat i in
  _ ← set_bn node (bn_with_children (delete (Z.to_nat i) (bn_children n)));
  _ ← set_bn new_parent (bn_with_parent 0);
  _ ← (if 0 <? item_num
       then _ ← on_list (list_insert_value (bh_trees b) new_parent (item_num - 1)); mret tt
       else mret tt);
  mret new_parent.

Fixpoint adopt (new_parent : Z) (children : list Z) : B unit :=
  match children with
  | [] => mret tt
  | c :: children =>
      _ ← (if new_parent =? 0 then set_bn c (bn_with_parent 0)
           else _ ← binomial_tree_node_add new_parent c; mret tt);
      adopt new_parent children
  end.

Definition binomial_tree_node_destroy (node rindex : Z) : B unit :=
  n ← load_bn node;
  new_parent ← (if negb (bn_parent n =? 0) then detach_child node (bn_parent n)
                else detach_root node rindex);
  n ← load_bn node;
  _ ← adopt new_parent (bn_children n);
  b ← load_bh (bn_bh n);
  _ ← (if node =? bh_head b then UPDATE_HEAD (bn_bh n) else mret tt);
  b ← load_bh (bn_bh n);
  c ← lift (int32 (bh_count b - 1));
  _ ← set_bh (bn_bh n) (bh_with_count c);
  free_bn node.

(** ** Operations *)

Definition binheap_create (keys_callbacks : option binheap_callbacks_t) (mode : binheap_mode_t) : B Z :=
  bh ← new_block;
  if bh =? 0 then mret 0 else
  trees ← on_list list_create;
  let cbs := default keys_callbacks_default keys_callbacks in
  _ ← modify (upd_heaps <[bh := mk_binheap trees 0 cbs 0 mode]>);
  mret bh.

Definition destroy_body (bh : Z) (node : Z) : B (Z + unit) :=
  if node =? 0 then mret (inr tt) else
  _ ← binomial_tree_node_destroy node 0;
  b ← load_bh bh;
  '(node, _) ← match bh_mode b with
               | BINHEAP_MODE_MIN => binheap_get_minimum bh
               | BINHEAP_MODE_MAX => binheap_get_maximum bh
               end;
  mret (inl node).
Definition binheap_destroy (bh : Z) : B unit :=
  b ← load_bh bh;
  '(node, _) ← match bh_mode b with
               | BINHEAP_MODE_MIN => binheap_get_minimum bh
               | BINHEAP_MODE_MAX => binheap_get_maximum bh
               end;
  _ ← loopS (destroy_body bh) node;
  _ ← on_list (list_destroy 1 (bh_trees b));
  modify (upd_heaps (delete bh)).

(** The loop of [binheap_insert]: the new tree, the next one of the list and
    the order reached. *)
Definition insert_body (b : binheap_t) (x : Z * Z * Z) : B (Z * Z * Z + Z * Z) :=
  let '(node, tree, order) := x in
  if tree =? 0 then mret (inr (node, tree)) else
  t ← load_bn tree;
  if negb (num_children t =? order) then mret (inr (node, tree)) else
  n ← load_bn node;
  prec ← lift (HAS_PRECEDENCE b (bn_key n) (bn_key t));
  node ← (if prec : bool then _ ← binomial_tree_merge node tree; mret node
          else _ ← binomial_tree_merge tree node; mret tree);
  tree ← on_list (list_shift_value (bh_trees b));
  mret (inl (node, tree, order + 1)).

Definition binheap_insert (bh : Z) (k : key) (value : Z) : B Z :=
  node ← new_block;
  if node =? 0 then mret (-1) else
  p ← new_block;
  if p =? 0 then mret (-1) else
  _ ← modify (upd_bnodes <[node := mk_bnode k value 0 [] bh]>);
  b ← load_bh bh;
  tree ← on_list (list_shift_value (bh_trees b));
  '(node, tree) ← loopS (insert_body b) (node, tree, 0);
  _ ← (if tree =? 0 then mret 0 else on_list (list_unshift_value (bh_trees b) tree));
  _ ← on_list (list_unshift_value (bh_trees b) node);
  c ← lift (int32 (bh_count b + 1));
  _ ← set_bh bh (bh_with_count c);
  _ ← (if bh_head b =? 0 then set_bh bh (bh_with_head node) else UPDATE_HEAD bh);
  mret 0.

(** Which of the roots, or of the children, to search for the key in. *)
Definition narrow (b : binheap_t) (k : key) (tree cur : Z) : B Z :=
  c ← load_bn cur;
  prec ← lift (HAS_PRECEDENCE b (bn_key c) k);
  if negb prec then mret tree else
  if tree =? 0 then mret cur else
  t ← load_bn tree;
  prec ← lift (HAS_PRECEDENCE b (bn_key t) (bn_key c));
  mret (if prec : bool then cur else tree).

Definition delete_root_body (bh : Z) (k : key) (x : Z * Z) : B (Z * Z + Z) :=
  let '(i, tree) := x in
  b ← load_bh bh;
  count ← on_list (list_count (bh_trees b));
  if as_int (u32 count) <=? i then mret (inr tree) else
  cur_tree ← on_list (list_pick_value (bh_trees b) i);
  tree ← narrow b k tree cur_tree;
  mret (inl (i + 1, tree)).

Fixpoint narrow_children (b : binheap_t) (k : key) (next_tree : Z) (children : list Z) : B Z :=
  match children with
  | [] => mret next_tree
  | c :: children => next_tree ← narrow b k next_tree c; narrow_children b k next_tree children
  end.

Definition delete_down_body (b : binheap_t) (k : key) (to_delete : Z) : B (Z + Z) :=
  if to_delete =? 0 then mret (inr 0) else
  n ← load_bn to_delete;
  d ← lift (cmp (bh_cbs b) (bn_key n) k);
  if d =? 0 then mret (inr to_delete) else
  next_tree ← narrow_children b k 0 (bn_children n);
  mret (inl next_tree).

(** The result and what is stored through [value] when it is not null. *)
Definition binheap_delete (bh : Z) (k : key) (value : bool) : B (Z * option Z) :=
  tree ← loopS (delete_root_body bh k) (0, 0);
  b ← load_bh bh;
  to_delete ← loopS (delete_down_body b k) tree;
  if to_delete =? 0 then mret (-1, None) else
  n ← load_bn to_delete;
  _ ← binomial_tree_node_destroy to_delete 0;
  mret (0, if value then Some (bn_value n) else None).

(** The key and the value found. *)
Definition binheap_maximum (bh : Z) : B (Z * option (key * Z)) :=
  '(maxitem, _) ← binheap_get_maximum bh;
  if maxitem =? 0 then mret (-1, None) else
  n ← load_bn maxitem;
  mret (0, Some (bn_key n, bn_value n)).
Definition binheap_minimum (bh : Z) : B (Z * option (key * Z)) :=
  '(minitem, _) ← binheap_get_minimum bh;
  if minitem =? 0 then mret (-1, None) else
  n ← load_bn minitem;
  mret (0, Some (bn_key n, bn_value n)).

Definition binheap_delete_minimum (bh : Z) : B (Z * option Z) :=
  '(minitem, minidx) ← binheap_get_minimum bh;
  if minitem =? 0 then mret (-1, None) else
  n ← load_bn minitem;
  _ ← binomial_tree_node_destroy minitem (default 0 minidx);
  mret (0, Some (bn_value n)).
Definition binheap_delete_maximum (bh : Z) : B (Z * option Z) :=
  '(maxitem, maxidx) ← binheap_get_maximum bh;
  if maxitem =? 0 then mret (-1, None) else
  n ← load_bn maxitem;
  _ ← binomial_tree_node_destroy maxitem (default 0 maxidx);
  mret (0, Some (bn_value n)).

Definition binheap_count (bh : Z) : B Z :=
  b ← load_bh bh; mret (u64 (bh_count b)).

Definition binheap_increase_maximum (bh incr_ : Z) : B unit :=
  '(maxitem, _) ← binheap_get_maximum bh;
  if maxitem =? 0 then mret tt else binomial_tree_node_increase_key maxitem incr_.
Definition binheap_decrease_maximum (bh decr_ : Z) : B unit :=
  '(maxitem, _) ← binheap_get_maximum bh;
  if maxitem =? 0 then mret tt else
  d ← lift (int32 (- decr_)); binomial_tree_node_increase_key maxitem d.
Definition binheap_increase_minimum (bh incr_ : Z) : B unit :=
  '(minitem, _) ← binheap_get_minimum bh;
  if minitem =? 0 then mret tt else binomial_tree_node_increase_key minitem incr_.
Definition binheap_decrease_minimum (bh decr_ : Z) : B unit :=
  '(minitem, _) ← binheap_get_minimum bh;
  if minitem =? 0 then mret tt else
  d ← lift (int32 (- decr_)); binomial_tree_node_increase_key minitem d.

(** ** Merging *)

Definition order_of (p : Z) : B Z := n ← load_bn p; mret (num_children n).
Definition same_order (p carry : Z) : B bool :=
  if p =? 0 then mret false else
  o ← order_of p; c ← order_of carry; mret (o =? c).
Definition higher_order (p carry : Z) : B bool :=
  if p =? 0 then mret false else
  o ← order_of p; c ← order_of carry; mret (c <? o).
Definition node_precedes (b : binheap_t) (p q : Z) : B bool :=
  x ← load_bn p; y ← load_bn q; lift (HAS_PRECEDENCE b (bn_key x) (bn_key y)).

(** The carry of the previous iteration: the nodes and the carry after it, or
    [None] when the iteration ends here. *)
Definition merge_carry (b1 : binheap_t) (new_list node1 node2 carry : Z) : B (option (Z * Z * Z)) :=
  s1 ← same_order node1 carry;
  s2 ← (if s1 : bool then mret false else same_order node2 carry);
  if negb s1 && negb s2 then
    if (node1 =? 0) && (node2 =? 0) then
      _ ← on_list (list_push_value new_list carry); mret None
    else
      h1 ← higher_order node1 carry;
      if h1 : bool then mret (Some (carry, node2, node1)) else
      h2 ← higher_order node2 carry;
      if h2 : bool then mret (Some (node1, carry, node2)) else mret (Some (node1, node2, carry))
  else
    let node := if s1 : bool then node1 else node2 in
    prec ← node_precedes b1 node carry;
    if prec : bool then _ ← binomial_tree_merge node carry; mret (Some (node1, node2, 0))
    else
      _ ← binomial_tree_merge carry node;
      mret (Some (if s1 : bool then (carry, node2, 0) else (node1, carry, 0))).

(** Two trees of the same order become the carry. *)
Definition merge_equal (b1 : binheap_t) (node1 node2 carry : Z) : B Z :=
  prec ← node_precedes b1 node1 node2;
  if prec : bool then
    _ ← binomial_tree_merge node1 node2;
    if carry =? 0 then mret node1 else
    x ← load_bn node1;
    y ← load_bn carry;
    d ← lift (cmp (bh_cbs b1) (bn_key x) (bn_key y));
    if 0 <=? d then _ ← binomial_tree_merge node1 carry; mret node1
    else _ ← binomial_tree_merge carry node1; mret carry
  else
    _ ← binomial_tree_merge node2 node1;
    if carry =? 0 then mret node2 else
    prec ← node_precedes b1 node2 carry;
    if prec : bool then _ ← binomial_tree_merge node2 carry; mret node2
    else _ ← binomial_tree_merge carry node2; mret carry.

Definition merge_body (b1 b2 : binheap_t) (new_list : Z) (x : Z * Z * Z) : B (Z * Z * Z + unit) :=
  let '(node1, node2, carry) := x in
  if (node1 =? 0) && (node2 =? 0) && (carry =? 0) then mret (inr tt) else
  r ← (if carry =? 0 then mret (Some (node1, node2, 0))
       else merge_carry b1 new_list node1 node2 carry);
  match r with
  | None => mret (inl (node1, node2, 0))
  | Some (node1, node2, carry) =>
      if negb (node1 =? 0) && (node2 =? 0) then
        _ ← on_list (list_push_value new_list node1);
        node1 ← on_list (list_shift_value (bh_trees b1));
        mret (inl (node1, node2, carry))
      else if negb (node2 =? 0) && (node1 =? 0) then
        _ ← on_list (list_push_value new_list node2);
        node2 ← on_list (list_shift_value (bh_trees b2));
        mret (inl (node1, node2, carry))
      else
        order1 ← order_of node1;
        order2 ← order_of node2;
        if order1 <? order2 then
          _ ← on_list (list_push_value new_list node1);
          node1 ← on_list (list_shift_value (bh_trees b1));
          mret (inl (node1, node2, carry))
        else if order2 <? order1 then
          _ ← on_list (list_push_value new_list node2);
          node2 ← on_list (list_shift_value (bh_trees b2));
          mret (inl (node1, node2, carry))
        else
          carry ← merge_equal b1 node1 node2 carry;
          node1 ← on_list (list_shift_value (bh_trees b1));
          node2 ← on_list (list_shift_value (bh_trees b2));
          mret (inl (node1, node2, carry))
  end.

Definition binheap_merge (bh1 bh2 : Z) : B Z :=
  b1 ← load_bh bh1;
  b2 ← load_bh bh2;
  if negb (bool_decide (bh_mode b1 = bh_mode b2)) then mret 0 else
  new_list ← on_list list_create;
  if new_list =? 0 then mret 0 else
  node1 ← on_list (list_shift_value (bh_trees b1));
  node2 ← on_list (list_shift_value (bh_trees b2));
  _ ← loopS (merge_body b1 b2 new_list) (node1, node2, 0);
  merged_heap ← new_block;
  if merged_heap =? 0 then _ ← on_list (list_destroy 1 new_list); mret 0 else
  c ← lift (int32 (bh_count b1 + bh_count b2));
  _ ← modify (upd_heaps <[merged_heap := mk_binheap new_list 0 (bh_cbs b1) c (bh_mode b1)]>);
  mret merged_heap.

(** ** Walking *)

(** The callback on key, value and state of the user. *)
Abbreviation binheap_walk_callback_t U := (key → Z → U → Z * U).

(** The loop over the children in [binomial_tree_walk]; the array of children
    may have changed at each turn. *)
Definition walk_children_body {U} (walk : Z → Z → U → B (bool * Z * U)) (node : Z)
    (x : Z * Z * U) : B (Z * Z * U + bool * Z * U) :=
  let '(i, count, priv) := x in
  n ← load_bn node;
  if num_children n <=? i then mret (inr (true, count, priv)) else
  '(proceed, count, priv) ← walk (bn_children n !!! Z.to_nat i) count priv;
  if negb proceed then mret (inr (false, count, priv)) else mret (inl (i + 1, count, priv)).

(** [proceed], the nodes counted and the state of the user; [depth] bounds the
    recursion. *)
Fixpoint binomial_tree_walk {U} (depth : nat) (cb : binheap_walk_callback_t U) (node count : Z)
    (priv : U) : B (bool * Z * U) :=
  match depth with
  | O => λ _, Diverge
  | S depth =>
      count ← lift (int32 (count + 1));
      n ← load_bn node;
      let '(rc, priv) := cb (bn_key n) (bn_value n) priv in
      let proceed := (rc =? -1) || (rc =? 1) in
      let remove := (rc =? -2) || (rc =? -1) in
      '(proceed, count, priv) ←
        (if proceed then loopS (walk_children_body (binomial_tree_walk depth cb) node) (0, count, priv)
         else mret (false, count, priv));
      _ ← (if remove then binomial_tree_node_destroy node 0 else mret tt);
      mret (proceed, count, priv)
  end.

Definition walk_roots_body {U} (depth : nat) (cb : binheap_walk_callback_t U) (bh : Z)
    (x : Z * Z * U) : B (Z * Z * U + Z * U) :=
  let '(i, cnt, priv) := x in
  b ← load_bh bh;
  count ← on_list (list_count (bh_trees b));
  if as_int (u32 count) <=? i then mret (inr (cnt, priv)) else
  curtree ← on_list (list_pick_value (bh_trees b) i);
  '(proceed, cnt, priv) ← binomial_tree_walk depth cb curtree cnt priv;
  if negb proceed then mret (inr (cnt, priv)) else mret (inl (i + 1, cnt, priv)).

Definition binheap_walk {U} (depth : nat) (bh : Z) (cb : binheap_walk_callback_t U) (priv : U) :
    B (Z * U) :=
  loopS (walk_roots_body depth cb bh) (0, 0, priv).
