(* ===== verification/BinheapForest.v ===== *)
(** * The forest of a binomial heap

    The invariant of src/src/binheap.c: the nodes form trees, each node
    precedes its children, and the roots are the items of the linked list.
    The operations on nodes and roots are proved against it and against the
    contract of the comparator. *)

From S2P Require Import Prelude Linklist LinklistRemove Comparators Binheap.

(** ** Precedence *)

Abbreviation nodes := (gmap Z binomial_tree_node_t).

Section precedence.
Context {cmp : libhl_cmp_callback_t} {ok : key → Prop} `{!Comparator cmp ok}.

Definition precedes (mode : binheap_mode_t) (k1 k2 : key) : Prop :=
  match mode with BINHEAP_MODE_MAX => cmp_sign k2 k1 ≤ 0 | BINHEAP_MODE_MIN => cmp_sign k1 k2 ≤ 0 end.

#[global] Instance precedes_dec mode k1 k2 : Decision (precedes mode k1 k2).
Proof. unfold precedes. destruct mode; apply _. Defined.

Lemma precedes_total mode k1 k2 : ok k1 → ok k2 → precedes mode k1 k2 ∨ precedes mode k2 k1.
Proof.
  intros H1 H2. pose proof (cmp_anti k1 k2 H1 H2). pose proof (cmp_anti k2 k1 H2 H1).
  destruct mode; simpl; lia.
Qed.
Lemma precedes_refl mode k : ok k → precedes mode k k.
Proof. intros Hk. by destruct (precedes_total mode k k Hk Hk). Qed.
Lemma precedes_trans mode k1 k2 k3 :
  ok k1 → ok k2 → ok k3 → precedes mode k1 k2 → precedes mode k2 k3 → precedes mode k1 k3.
Proof.
  intros H1 H2 H3. destruct mode; simpl; intros; [eapply (cmp_trans k3 k2 k1)|eapply (cmp_trans k1 k2 k3)]; done.
Qed.

(** The test of the code on the result of the comparator. *)
Definition better (mode : binheap_mode_t) (d : Z) : bool :=
  match mode with BINHEAP_MODE_MAX => 0 <=? d | BINHEAP_MODE_MIN => d <=? 0 end.

Lemma better_precedes mode k1 k2 :
  ok k1 → ok k2 → better mode (cmp_sign k1 k2) = bool_decide (precedes mode k1 k2).
Proof.
  intros H1 H2. pose proof (cmp_anti k1 k2 H1 H2). destruct mode; simpl; apply eq_bool_prop_intro;
    rewrite bool_decide_spec, Is_true_true, Z.leb_le; simpl; tauto.
Qed.

Lemma HAS_PRECEDENCE_ret b k1 k2 mode :
  Binheap.cmp (bh_cbs b) = cmp → bh_mode b = mode → ok k1 → ok k2 →
  HAS_PRECEDENCE b k1 k2 = Ret (bool_decide (precedes mode k1 k2)).
Proof.
  intros Hc Hm H1 H2. unfold HAS_PRECEDENCE. rewrite Hc, (cmp_ret k1 k2), Hm by done.
  rewrite bind_Ret. rewrite <- better_precedes by done. by destruct mode.
Qed.

(** ** The forest *)

(** The nodes [N] of the heap [bh] form trees with the roots [rs]. *)
Record forest (mode : binheap_mode_t) (bh : Z) (N : nodes) (rs : list Z) : Prop := {
  fo_root : ∀ p, p ∈ rs ↔ ∃ n, N !! p = Some n ∧ bn_parent n = 0;
  fo_nodup : NoDup rs;
  fo_node : ∀ p n, N !! p = Some n → p ≠ 0 ∧ ok (bn_key n) ∧ bn_bh n = bh ∧ NoDup (bn_children n) ∧
    ∀ c, c ∈ bn_children n ↔ ∃ nc, N !! c = Some nc ∧ bn_parent nc = p;
  fo_parent : ∀ c nc, N !! c = Some nc → bn_parent nc ≠ 0 →
    ∃ n, N !! bn_parent nc = Some n ∧ precedes mode (bn_key n) (bn_key nc);
  fo_rank : ∃ rank : Z → nat, ∀ c nc, N !! c = Some nc → bn_parent nc ≠ 0 →
    (rank c < rank (bn_parent nc))%nat
}.

(** What the client stored at each node. *)
Definition kv (n : binomial_tree_node_t) : key * Z := (bn_key n, bn_value n).
Definition contents (N : nodes) : gmap Z (key * Z) := kv <$> N.

Lemma rank_bound (N : nodes) (rank : Z → nat) :
  ∃ M, ∀ p, is_Some (N !! p) → (rank p ≤ M)%nat.
Proof.
  exists (max_list (rank <$> (map_to_list N).*1)). intros p [n Hn].
  apply max_list_elem_of_le, list_elem_of_fmap. exists p. split; [done|].
  apply list_elem_of_fmap. exists (p, n). split; [done|]. by apply elem_of_map_to_list.
Qed.

(** Every node is below a root that precedes it. *)
Lemma forest_above mode bh N rs p n :
  forest mode bh N rs → N !! p = Some n →
  ∃ r nr, r ∈ rs ∧ N !! r = Some nr ∧ precedes mode (bn_key nr) (bn_key n).
Proof.
  intros Hf. destruct (fo_rank _ _ _ _ Hf) as [rank Hrank]. destruct (rank_bound N rank) as [M HM].
  remember (M - rank p)%nat as d eqn:Hd. revert p n Hd.
  induction d as [d IH] using lt_wf_ind. intros p n Hd Hn.
  destruct (fo_node _ _ _ _ Hf _ _ Hn) as (_&Hok&_).
  destruct (decide (bn_parent n = 0)) as [E|E].
  { exists p, n. split_and!; [apply (fo_root _ _ _ _ Hf); eauto|done|by apply precedes_refl]. }
  destruct (fo_parent _ _ _ _ Hf _ _ Hn E) as (np&Hnp&Hpre).
  pose proof (Hrank _ _ Hn E). pose proof (HM (bn_parent n) ltac:(by eexists)).
  destruct (IH (M - rank (bn_parent n))%nat) with (p := bn_parent n) (n := np)
    as (r&nr&Hr&Hnr&Hrp); [lia|done|done|].
  exists r, nr. split_and!; [done|done|]. destruct (fo_node _ _ _ _ Hf _ _ Hnr) as (_&Hokr&_).
  destruct (fo_node _ _ _ _ Hf _ _ Hnp) as (_&Hokp&_).
  by eapply precedes_trans; [exact Hokr|exact Hokp|..].
Qed.

Lemma forest_perm mode bh N rs rs' : forest mode bh N rs → rs ≡ₚ rs' → forest mode bh N rs'.
Proof.
  intros [Hr Hnd Hn Hp Hk] HP. split; try done.
  - intros p. by rewrite <- HP.
  - by rewrite <- HP.
Qed.

Lemma forest_empty mode bh : forest mode bh ∅ [].
Proof.
  split.
  - intros p. split; [by intros ?%elem_of_nil|]. intros (n&Hn&_). by rewrite lookup_empty in Hn.
  - constructor.
  - intros p n Hn. by rewrite lookup_empty in Hn.
  - intros p n Hn. by rewrite lookup_empty in Hn.
  - exists (λ _, O). intros p n Hn. by rewrite lookup_empty in Hn.
Qed.

(** A new root without children. *)
Lemma forest_new mode bh N rs p k v :
  forest mode bh N rs → N !! p = None → p ≠ 0 → ok k →
  forest mode bh (<[p := mk_bnode k v 0 [] bh]> N) (p :: rs).
Proof.
  intros Hf Hp Hp0 Hk.
  assert (∀ q n c, N !! q = Some n → c ∈ bn_children n → c ≠ p) as Hnc.
  { intros q n c Hq Hc ->. destruct (fo_node _ _ _ _ Hf _ _ Hq) as (_&_&_&_&Hch).
    apply Hch in Hc as (nc&Hnc&_). congruence. }
  split.
  - intros q. rewrite elem_of_cons, lookup_insert. case_decide as E.
    + subst q. split; [intros _; by eexists|by left].
    + rewrite (fo_root _ _ _ _ Hf). split; [by intros [?|?]|by right].
  - apply NoDup_cons. split; [|by eapply fo_nodup].
    intros (n&Hn&_)%(fo_root _ _ _ _ Hf). congruence.
  - intros q n. rewrite lookup_insert. case_decide as E.
    + intros [= <-]. subst q. split_and!; try done; [constructor|]. intros c. simpl. split; [by intros ?%elem_of_nil|].
      intros (nc&Hnc'&Hpar). rewrite lookup_insert in Hnc'. case_decide; [by simplify_eq/=|].
      destruct (fo_parent _ _ _ _ Hf _ _ Hnc') as (n&Hn&_); [congruence|]. congruence.
    + intros Hq. destruct (fo_node _ _ _ _ Hf _ _ Hq) as (Hq0&Hok&Hbh&Hnd&Hch).
      split_and!; try done. intros c. rewrite Hch. split; intros (nc&Hnc'&Hpar).
      * exists nc. rewrite lookup_insert_ne; [done|]. intros <-. congruence.
      * rewrite lookup_insert in Hnc'. case_decide; [by simplify_eq/=|]. eauto.
  - intros c nc. rewrite lookup_insert. case_decide; [by intros [= <-]|]. intros Hc Hpar.
    destruct (fo_parent _ _ _ _ Hf _ _ Hc Hpar) as (n&Hn&Hpre). exists n.
    rewrite lookup_insert_ne; [done|]. intros E. rewrite E in Hp. congruence.
  - destruct (fo_rank _ _ _ _ Hf) as [rank Hrank]. exists rank. intros c nc. rewrite lookup_insert.
    case_decide; [by intros [= <-]|]. apply Hrank.
Qed.

(** [binomial_tree_merge]: the root [b] becomes a child of the root [a]. *)
Definition attach (a b : Z) (na nb : binomial_tree_node_t) (N : nodes) : nodes :=
  <[b := bn_with_parent a nb]> (<[a := bn_with_children (bn_children na ++ [b]) na]> N).

Lemma contents_attach a b na nb N :
  N !! a = Some na → N !! b = Some nb → a ≠ b → contents (attach a b na nb N) = contents N.
Proof.
  intros Ha Hb Hab. apply map_eq. intros p. unfold contents, attach. rewrite !lookup_fmap, !lookup_insert.
  repeat case_decide; subst; [by rewrite Hb|by rewrite Ha|done].
Qed.

Lemma forest_attach mode bh N a b na nb rs :
  forest mode bh N (a :: b :: rs) → N !! a = Some na → N !! b = Some nb →
  precedes mode (bn_key na) (bn_key nb) → forest mode bh (attach a b na nb N) (a :: rs).
Proof.
  intros Hf Ha Hb Hpre. pose proof (fo_nodup _ _ _ _ Hf) as Hnd.
  apply NoDup_cons in Hnd as [Hab Hnd]. apply NoDup_cons in Hnd as [Hbr Hnd].
  apply not_elem_of_cons in Hab as [Hab Har].
  assert (bn_parent na = 0 ∧ bn_parent nb = 0) as [Hpa Hpb].
  { destruct (proj1 (fo_root _ _ _ _ Hf a)) as (x&Hx&?); [by left|].
    destruct (proj1 (fo_root _ _ _ _ Hf b)) as (y&Hy&?); [by right; left|]. by simplify_eq. }
  destruct (fo_node _ _ _ _ Hf _ _ Ha) as (Ha0&Hoka&Hbha&Hnda&Hcha).
  destruct (fo_node _ _ _ _ Hf _ _ Hb) as (Hb0&Hokb&Hbhb&Hndb&Hchb).
  assert (∀ c nc, attach a b na nb N !! c = Some nc →
    ∃ n, N !! c = Some n ∧ kv nc = kv n ∧ bn_bh nc = bn_bh n ∧
      bn_parent nc = (if decide (c = b) then a else bn_parent n) ∧
      bn_children nc = bn_children n ++ (if decide (c = a) then [b] else [])) as Hat.
  { intros c nc. unfold attach. rewrite !lookup_insert. repeat case_decide; subst; try done.
    - intros [= <-]. exists nb. by rewrite app_nil_r.
    - intros [= <-]. by exists na.
    - intros Hc. exists nc. by rewrite app_nil_r. }
  assert (∀ c n, N !! c = Some n → ∃ nc, attach a b na nb N !! c = Some nc ∧
    bn_parent nc = (if decide (c = b) then a else bn_parent n) ∧ kv nc = kv n) as Hta.
  { intros c n Hc. unfold attach. rewrite !lookup_insert. repeat case_decide; subst; simplify_eq; by eexists. }
  split.
  - intros p. rewrite elem_of_cons. split.
    + intros Hp. destruct (proj1 (fo_root _ _ _ _ Hf p)) as (n&Hn&Hpar).
      { rewrite !elem_of_cons. tauto. }
      destruct (Hta _ _ Hn) as (nc&Hnc&Hpnc&_). exists nc. split; [done|]. rewrite Hpnc.
      rewrite decide_False; [done|]. intros ->. by destruct Hp as [->|?].
    + intros (nc&Hnc&Hpar). destruct (Hat _ _ Hnc) as (n&Hn&_&_&Hpn&_). rewrite Hpn in Hpar.
      case_decide; [done|]. assert (p ∈ a :: b :: rs) as Hin by (apply (fo_root _ _ _ _ Hf); eauto).
      rewrite !elem_of_cons in Hin. tauto.
  - by apply NoDup_cons.
  - intros p nc Hnc. destruct (Hat _ _ Hnc) as (n&Hn&Hkv&Hbhn&Hpn&Hcn). unfold kv in Hkv.
    destruct (fo_node _ _ _ _ Hf _ _ Hn) as (Hp0&Hok&Hbh&Hndc&Hch). injection Hkv as Hk _.
    split_and!; [done|by rewrite Hk|by rewrite Hbhn| |].
    + rewrite Hcn. case_decide; [|by rewrite app_nil_r]. subst p. apply NoDup_app.
      split_and!; [done| |apply NoDup_singleton]. intros c Hc ->%list_elem_of_singleton.
      apply Hch in Hc as (x&Hx&Hpx). congruence.
    + intros c. rewrite Hcn, elem_of_app, Hch. split.
      * intros [(x&Hx&Hpx)|Hc].
        -- destruct (Hta _ _ Hx) as (y&Hy&Hpy&_). exists y. split; [done|]. rewrite Hpy.
           rewrite decide_False; [done|]. intros ->. congruence.
        -- case_decide; [|by apply elem_of_nil in Hc]. apply list_elem_of_singleton in Hc as ->. subst p.
           destruct (Hta _ _ Hb) as (y&Hy&Hpy&_). exists y. split; [done|]. by rewrite decide_True in Hpy.
      * intros (y&Hy&Hpy). destruct (Hat _ _ Hy) as (x&Hx&_&_&Hpx&_). rewrite Hpx in Hpy.
        destruct (decide (c = b)) as [->|]; [right|left; eauto]. subst p. rewrite decide_True by done. by left.
  - intros c nc Hnc Hpar. destruct (Hat _ _ Hnc) as (n&Hn&Hkv&_&Hpn&_). unfold kv in Hkv.
    injection Hkv as Hk _. rewrite Hk, Hpn. rewrite Hpn in Hpar. case_decide.
    + subst c. destruct (Hta _ _ Ha) as (y&Hy&_&Hkvy). exists y. split; [done|].
      unfold kv in Hkvy. injection Hkvy as -> _. by simplify_eq.
    + destruct (fo_parent _ _ _ _ Hf _ _ Hn Hpar) as (m&Hm&Hpm).
      destruct (Hta _ _ Hm) as (y&Hy&_&Hkvy). exists y. split; [done|].
      unfold kv in Hkvy. by injection Hkvy as -> _.
  - destruct (fo_rank _ _ _ _ Hf) as [rank Hrank].
    exists (λ p, if decide (p = a) then S (rank a + rank b) else rank p).
    intros c nc Hnc Hpar. destruct (Hat _ _ Hnc) as (n&Hn&_&_&Hpn&_). rewrite Hpn in *.
    destruct (decide (c = b)) as [->|Hcb].
    + rewrite decide_False, decide_True by done. lia.
    + pose proof (Hrank _ _ Hn Hpar) as Hr. rewrite (decide_False (P := c = a)).
      * case_decide as E; [rewrite E in Hr; lia|done].
      * intros ->. congruence.
Qed.

(** The node [p] is removed; its children go to the new parent [g], its parent
    or the child that takes its place. *)
Definition new_parent (N : nodes) (n : binomial_tree_node_t) (mode : binheap_mode_t) (g : Z) : Prop :=
  (g = 0 ∧ bn_children n = [] ∧ bn_parent n = 0) ∨
  (g ≠ 0 ∧ bn_parent n = g) ∨
  (bn_parent n = 0 ∧ g ∈ bn_children n ∧ ∃ ng, N !! g = Some ng ∧
     ∀ c nc, c ∈ bn_children n → N !! c = Some nc → precedes mode (bn_key ng) (bn_key nc)).

(** A node after the removal. *)
Definition moved (p : Z) (n : binomial_tree_node_t) (g c : Z) (m nc : binomial_tree_node_t) : Prop :=
  kv nc = kv m ∧ bn_bh nc = bn_bh m ∧
  bn_parent nc = (if decide (bn_parent m = p) then if decide (c = g) then 0 else g else bn_parent m) ∧
  NoDup (bn_children nc) ∧
  ∀ x, x ∈ bn_children nc ↔
    if decide (c = g) then x ∈ bn_children m ∧ x ≠ p ∨ x ∈ bn_children n ∧ x ≠ g else x ∈ bn_children m.

Lemma forest_remove mode bh N N' rs rs' p n g :
  forest mode bh N rs → N !! p = Some n → new_parent N n mode g →
  (∀ c, N' !! c = None ↔ c = p ∨ N !! c = None) →
  (∀ c nc, N' !! c = Some nc → ∃ m, N !! c = Some m ∧ moved p n g c m nc) →
  (∀ x, x ∈ rs' ↔ x ∈ rs ∧ x ≠ p ∨ x = g ∧ g ≠ 0 ∧ bn_parent n = 0) → NoDup rs' →
  forest mode bh N' rs'.
Proof.
  intros Hf Hp Hg Hnone Hmov Hrs' Hnd'. destruct (fo_rank _ _ _ _ Hf) as [rank Hrank].
  destruct (fo_node _ _ _ _ Hf _ _ Hp) as (Hp0&Hokp&Hbhp&Hndp&Hchp).
  assert (bn_parent n ≠ p) as Hpp.
  { intros E. pose proof (Hrank _ _ Hp ltac:(congruence)) as Hr. rewrite E in Hr. lia. }
  assert (g ≠ p) as Hgp.
  { destruct Hg as [[-> _]|[[_ <-]|(_&Hg&_)]]; [congruence|done|]. intros ->.
    apply Hchp in Hg as (x&Hx&Hpx). congruence. }
  assert (∀ c m, N !! c = Some m → c ≠ p → ∃ nc, N' !! c = Some nc ∧ moved p n g c m nc) as Hkeep.
  { intros c m Hc Hcp. destruct (N' !! c) as [nc|] eqn:E.
    - destruct (Hmov _ _ E) as (m'&Hm'&?). exists nc. by simplify_eq.
    - apply Hnone in E as [?|?]; congruence. }
  assert (∀ c, N' !! c ≠ None → c ≠ p) as Hnp by (intros c Hc ->; apply Hc, Hnone; by left).
  assert (bn_children n ≠ [] → g ≠ 0) as Hg0.
  { destruct Hg as [(_&?&_)|[[? _]|(_&Hg&_)]]; [done|done|]. intros _ ->.
    apply Hchp in Hg as (x&Hx&_). by destruct (fo_node _ _ _ _ Hf _ _ Hx). }
  split.
  - intros x. rewrite Hrs', (fo_root _ _ _ _ Hf). split.
    + intros [[(m&Hm&Hpm) Hxp]|(->&Hg0'&Hpn)].
      * destruct (Hkeep _ _ Hm Hxp) as (nc&Hnc&_&_&Hpar&_). exists nc. split; [done|].
        rewrite Hpar, decide_False; congruence.
      * destruct Hg as [[? _]|[[_ ?]|(_&Hg&_)]]; [done|congruence|].
        apply Hchp in Hg as (m&Hm&Hpm). destruct (Hkeep _ _ Hm Hgp) as (nc&Hnc&_&_&Hpar&_).
        exists nc. split; [done|]. by rewrite Hpar, !decide_True.
    + intros (nc&Hnc&Hpar). destruct (Hmov _ _ Hnc) as (m&Hm&_&_&Hpm&_). rewrite Hpar in Hpm.
      assert (x ≠ p) by (apply Hnp; congruence).
      case_decide as E1; [|left; split; [by eexists|done]].
      assert (x ∈ bn_children n) as Hxn by (apply Hchp; eauto).
      assert (g ≠ 0) by (apply Hg0; by intros E; rewrite E in Hxn; apply elem_of_nil in Hxn).
      case_decide as E2; [|congruence]. right. split_and!; [done|done|].
      destruct Hg as [[? _]|[[_ Hg]|(?&_)]]; [done| |done]. subst g x.
      pose proof (Hrank _ _ Hp ltac:(congruence)).
      pose proof (Hrank _ _ Hm ltac:(congruence)) as Hr. rewrite E1 in Hr. lia.
  - done.
  - intros c nc Hnc. destruct (Hmov _ _ Hnc) as (m&Hm&Hkv&Hbh&Hpar&Hnd&Hch). unfold kv in Hkv.
    injection Hkv as Hk _. assert (c ≠ p) by (apply Hnp; congruence).
    destruct (fo_node _ _ _ _ Hf _ _ Hm) as (Hc0&Hok&Hbhm&_&Hchm).
    split_and!; [done|by rewrite Hk|congruence|done|]. intros x. rewrite Hch. split.
    + assert (∀ mx, N !! x = Some mx → bn_parent mx = c → x ≠ p → bn_parent mx ≠ p →
        ∃ y, N' !! x = Some y ∧ bn_parent y = c) as Hstay.
      { intros mx Hx Hpx Hxp Hxp'. destruct (Hkeep _ _ Hx Hxp) as (y&Hy&_&_&Hpy&_).
        exists y. split; [done|]. by rewrite Hpy, decide_False. }
      case_decide as Ecg.
      * intros [[(mx&Hx&Hpx)%Hchm Hxp]|[(mx&Hx&Hpx)%Hchp Hxg]]; [apply (Hstay mx); congruence|].
        destruct (Hkeep _ _ Hx) as (y&Hy&_&_&Hpy&_); [congruence|]. exists y. split; [done|].
        by rewrite Hpy, decide_True, decide_False.
      * intros (mx&Hx&Hpx)%Hchm. apply (Hstay mx); try congruence. intros ->.
        destruct Hg as [(_&_&?)|[[_ ?]|(?&_)]]; congruence.
    + intros (y&Hy&Hpy). destruct (Hmov _ _ Hy) as (mx&Hx&_&_&Hpx&_).
      assert (x ≠ p) by (apply Hnp; congruence). rewrite Hpx in Hpy.
      destruct (decide (bn_parent mx = p)) as [E1|E1].
      * destruct (decide (x = g)) as [E2|E2]; [congruence|]. rewrite decide_True by done.
        right. split; [|done]. apply Hchp. eauto.
      * assert (x ∈ bn_children m) by (apply Hchm; eauto). case_decide; [left|]; done.
  - intros c nc Hnc Hpar0. destruct (Hmov _ _ Hnc) as (m&Hm&Hkv&Hbh&Hpar&Hnd&Hch). unfold kv in Hkv.
    injection Hkv as Hk _. rewrite Hk. rewrite Hpar in *.
    assert (∀ q mq, N !! q = Some mq → q ≠ p → precedes mode (bn_key mq) (bn_key m) →
      ∃ nq, N' !! q = Some nq ∧ precedes mode (bn_key nq) (bn_key m)) as Hup.
    { intros q mq Hq Hqp Hpre. destruct (Hkeep _ _ Hq Hqp) as (y&Hy&Hkvy&_). exists y.
      split; [done|]. unfold kv in Hkvy. by injection Hkvy as -> _. }
    destruct (fo_node _ _ _ _ Hf _ _ Hm) as (_&Hokm&_).
    destruct (decide (bn_parent m = p)) as [E1|E1].
    + destruct (decide (c = g)) as [E2|E2]; [done|].
      assert (c ∈ bn_children n) as Hcn by (apply Hchp; eauto).
      destruct Hg as [(_&Hnil&_)|[[_ Hgn]|(_&_&ng&Hng&Hbest)]].
      * rewrite Hnil in Hcn. by apply elem_of_nil in Hcn.
      * destruct (fo_parent _ _ _ _ Hf _ _ Hp) as (ng&Hng&Hpg); [congruence|]. rewrite Hgn in Hng.
        apply (Hup _ _ Hng Hgp). destruct (fo_node _ _ _ _ Hf _ _ Hng) as (_&Hokg&_).
        destruct (fo_parent _ _ _ _ Hf _ _ Hm) as (n'&Hn'&Hpn); [congruence|].
        rewrite E1, Hp in Hn'. injection Hn' as <-. by eapply precedes_trans; [exact Hokg|exact Hokp|..].
      * apply (Hup _ _ Hng Hgp). by eapply Hbest.
    + destruct (fo_parent _ _ _ _ Hf _ _ Hm Hpar0) as (mq&Hmq&Hpq). by apply (Hup _ _ Hmq).
  - exists (λ x, if decide (x = g ∧ bn_parent n = 0) then rank p else rank x).
    intros c nc Hnc Hpar0. destruct (Hmov _ _ Hnc) as (m&Hm&_&_&Hpar&_). rewrite Hpar in *.
    assert (bn_parent n = 0 → g ≠ 0 → ∃ mg, N !! g = Some mg ∧ bn_parent mg = p) as Hgch.
    { intros E ?. destruct Hg as [(?&_)|[[_ ?]|(_&Hg&_)]]; [done|congruence|by apply Hchp]. }
    destruct (decide (bn_parent m = p)) as [E1|E1].
    + destruct (decide (c = g)) as [E2|E2]; [done|].
      pose proof (Hrank _ _ Hm ltac:(congruence)) as Hr. rewrite E1 in Hr.
      rewrite (decide_False (P := c = g ∧ _)) by naive_solver.
      case_decide as E; [done|]. destruct Hg as [(?&_)|[[_ Hgn]|(?&_)]]; [done| |naive_solver].
      pose proof (Hrank _ _ Hp ltac:(congruence)) as Hr'. rewrite Hgn in Hr'. lia.
    + pose proof (Hrank _ _ Hm Hpar0) as Hr. rewrite (decide_False (P := c = g ∧ _)).
      * case_decide as E; [|done]. destruct E as [E Hn0]. rewrite E in *.
        destruct Hgch as (mg&Hmg&Hpmg); [done|congruence|].
        pose proof (Hrank _ _ Hmg ltac:(congruence)) as Hr'. rewrite Hpmg in Hr'. lia.
      * intros [-> Hn0]. destruct Hgch as (mg&Hmg&Hpmg); [done| |congruence].
        by destruct (fo_node _ _ _ _ Hf _ _ Hm).
Qed.

Lemma contents_remove N N' p n g :
  (∀ c, N' !! c = None ↔ c = p ∨ N !! c = None) →
  (∀ c nc, N' !! c = Some nc → ∃ m, N !! c = Some m ∧ moved p n g c m nc) →
  contents N' = delete p (contents N).
Proof.
  intros Hnone Hmov. apply map_eq. intros c. unfold contents. rewrite lookup_delete, !lookup_fmap.
  destruct (N' !! c) as [nc|] eqn:E.
  - destruct (Hmov _ _ E) as (m&Hm&Hkv&_). rewrite decide_False, Hm; [simpl; by rewrite Hkv|].
    intros <-. assert (N' !! p = None) by (apply Hnone; by left). congruence.
  - apply Hnone in E as [->|E]; [by rewrite decide_True|]. rewrite E. by case_decide.
Qed.
End precedence.
