(* ===== verification/BinheapOps.v ===== *)
(** * The operations of a binomial heap

    The functions of src/src/binheap.c on a heap that satisfies the invariant
    of BinheapForest, whose roots are in a linked list: what they return and
    the heap they leave. *)

From S2P Require Import Prelude Linklist LinklistRemove Comparators Binheap BinheapForest.

(** ** The stores *)

Section world.
Context (Hs : gmap Z binheap_t) (N : nodes) (h : heap) (nx : Z).

Lemma returns_load_bh p b Q :
  Hs !! p = Some b → Q (b, mk_bworld Hs N h nx) → returns (load_bh p (mk_bworld Hs N h nx)) Q.
Proof. intros Hp HQ. unfold load_bh. simpl. by rewrite Hp. Qed.
Lemma returns_load_bn p n Q :
  N !! p = Some n → Q (n, mk_bworld Hs N h nx) → returns (load_bn p (mk_bworld Hs N h nx)) Q.
Proof. intros Hp HQ. unfold load_bn. simpl. by rewrite Hp. Qed.
Lemma returns_set_bh p b f Q :
  Hs !! p = Some b → Q (tt, mk_bworld (<[p := f b]> Hs) N h nx) →
  returns (set_bh p f (mk_bworld Hs N h nx)) Q.
Proof. intros Hp HQ. unfold set_bh. go. by eapply returns_load_bh. Qed.
Lemma returns_set_bn p n f Q :
  N !! p = Some n → Q (tt, mk_bworld Hs (<[p := f n]> N) h nx) →
  returns (set_bn p f (mk_bworld Hs N h nx)) Q.
Proof. intros Hp HQ. unfold set_bn. go. by eapply returns_load_bn. Qed.
Lemma returns_free_bn p n Q :
  N !! p = Some n → Q (tt, mk_bworld Hs (delete p N) h nx) →
  returns (free_bn p (mk_bworld Hs N h nx)) Q.
Proof. intros Hp HQ. unfold free_bn. go. by eapply returns_load_bn. Qed.
Lemma returns_on_list {A} (m : ST heap A) Q :
  returns (m h) (λ '(a, h'), Q (a, mk_bworld Hs N h' nx)) → returns (on_list m (mk_bworld Hs N h nx)) Q.
Proof. intros Hm. unfold on_list. go. eapply returns_mono; [exact Hm|]. by intros [a h']. Qed.
End world.

(** The heap once an allocation has been answered. *)
Definition answered (h : heap) : heap := mk_heap (hp h) (hp_next h) (tail (hp_alloc h)) (hp_freed h).

Lemma holds_answered p cb sl h ds R : holds p cb sl h ds R → holds p cb sl (answered h) ds R.
Proof.
  intros (ns&[[Hwf Ho Hc Hn] Hr Hal]&Hd). exists ns. split; [|done]. split; [by split|done|].
  unfold alloc_ok in *. simpl. destruct Hal; [constructor|done].
Qed.
Lemma returns_new_block Hs N h nx Q :
  alloc_ok h → Q (nx, mk_bworld Hs N (answered h) (nx + 1)) →
  returns (new_block (mk_bworld Hs N h nx)) Q.
Proof.
  intros Hal HQ. unfold new_block, alloc_ok, answered in *. simpl.
  destruct (hp_alloc h) as [|[] a]; [done|done|by inversion Hal].
Qed.

(** ** The list of the roots *)

Definition roots (rs : list Z) : list (Z * bool) := (λ p, (p, false)) <$> rs.

Section roots.
Context (trees : Z) (R : gmap Z obj).

(** The list at [trees] holds the roots [rs]. *)
Definition lists (h : heap) (rs : list Z) : Prop :=
  holds trees false 0 h (roots rs) R ∧ Z.of_nat (length rs) + 1 < INT_MAX.

Lemma lists_alloc h rs : lists h rs → alloc_ok h.
Proof. by intros [(ns&[_ _ ?]&_) _]. Qed.
Lemma lists_answered h rs : lists h rs → lists (answered h) rs.
Proof. intros [? ?]. split; [|done]. by apply holds_answered. Qed.

Lemma val_at_roots rs i : 0 ≤ i → Sequence.val_at (roots rs) i = default 0 (rs !! Z.to_nat i).
Proof. intros Hi. unfold Sequence.val_at, roots. rewrite list_lookup_fmap. by destruct (rs !! _). Qed.

Lemma lop_roots h rs o Q :
  lists h rs → Sequence.ok (roots rs) o →
  (∀ h', holds trees false 0 h' (Sequence.apply (roots rs) o).1 R →
     Q ((Sequence.apply (roots rs) o).2, h')) →
  returns (run_lop trees o h) Q.
Proof.
  intros [Hh _] Hok HQ. eapply returns_mono; [by apply (run_lop_returns trees false 0 h (roots rs) R o)|].
  intros [r h'] [-> Hh']. by apply HQ.
Qed.

Lemma shift_roots h rs Q :
  lists h rs → (∀ h', lists h' (tail rs) → Q (default 0 (head rs), h')) →
  returns (list_shift_value trees h) Q.
Proof.
  intros Hl HQ. pose proof Hl as [_ Hlen].
  eapply (lop_roots h rs Sequence.Shift); [done|split; [done|unfold roots; rewrite length_fmap; lia]|].
  intros h' Hh'. simpl. rewrite val_at_roots by lia. simpl.
  replace (default 0 (rs !! 0%nat)) with (default 0 (head rs)) by (by destruct rs).
  apply HQ. simpl in Hh'. split; [|by destruct rs; simpl in *; lia].
  unfold roots in *. rewrite <- fmap_drop in Hh'. by destruct rs.
Qed.
Lemma unshift_roots h rs p Q :
  lists h rs → Z.of_nat (length rs) + 2 < INT_MAX → (∀ h', lists h' (p :: rs) → Q (0, h')) →
  returns (list_unshift_value trees p h) Q.
Proof.
  intros Hl Hlen HQ.
  eapply (lop_roots h rs (Sequence.Unshift p)); [done|split; [done|unfold roots; rewrite length_fmap; lia]|].
  intros h' Hh'. apply HQ. split; [done|simpl; lia].
Qed.
Lemma pick_roots h rs i Q :
  lists h rs → 0 ≤ i < Z.of_nat (length rs) →
  (∀ h' r, rs !! Z.to_nat i = Some r → lists h' rs → Q (r, h')) →
  returns (list_pick_value trees i h) Q.
Proof.
  intros Hl Hi HQ. pose proof Hl as [_ Hlen].
  eapply (lop_roots h rs (Sequence.Pick i)); [done| |].
  { split; [int_bounds; lia|unfold roots; rewrite length_fmap; lia]. }
  intros h' Hh'. simpl. rewrite val_at_roots by lia.
  destruct (lookup_lt_is_Some_2 rs (Z.to_nat i)) as [r Hr]; [lia|]. rewrite Hr. by apply HQ.
Qed.
Lemma fetch_roots h rs i Q :
  lists h rs → 0 ≤ i < Z.of_nat (length rs) →
  (∀ h' r, rs !! Z.to_nat i = Some r → lists h' (delete (Z.to_nat i) rs) → Q (r, h')) →
  returns (list_fetch_value trees i h) Q.
Proof.
  intros Hl Hi HQ. pose proof Hl as [_ Hlen].
  eapply (lop_roots h rs (Sequence.Fetch i)); [done| |].
  { split; [int_bounds; lia|unfold roots; rewrite length_fmap; lia]. }
  intros h' Hh'. simpl. rewrite val_at_roots by lia.
  destruct (lookup_lt_is_Some_2 rs (Z.to_nat i)) as [r Hr]; [lia|]. rewrite Hr.
  apply HQ; [done|]. split; [|rewrite length_delete; [lia|by eexists]].
  simpl in Hh'. unfold roots in *. by rewrite list_fmap_delete.
Qed.
Lemma insert_roots h xs ys p Q :
  lists h (xs ++ ys) → Z.of_nat (length (xs ++ ys)) + 2 < INT_MAX →
  (∀ h', lists h' (xs ++ p :: ys) → Q (0, h')) →
  returns (list_insert_value trees p (Z.of_nat (length xs)) h) Q.
Proof.
  intros Hl Hlen HQ. rewrite length_app in Hlen.
  eapply (lop_roots h _ (Sequence.Insert p (Z.of_nat (length xs)))); [done| |].
  { split; [lia|unfold roots; rewrite length_fmap, length_app; lia]. }
  intros h' Hh'. apply HQ. split; [|rewrite length_app; simpl; lia].
  simpl in Hh'. unfold insert_at, roots in Hh'. rewrite Nat2Z.id, length_fmap, length_app in Hh'.
  replace (length xs - (length xs + length ys))%nat with 0%nat in Hh' by lia. simpl in Hh'.
  rewrite <- fmap_take, <- fmap_drop, take_app_length, drop_app_length in Hh'.
  unfold roots. by rewrite fmap_app, fmap_cons.
Qed.
Lemma remove_root h xs p ys Q :
  lists h (xs ++ p :: ys) → p ∉ xs →
  (∀ h', lists h' (xs ++ ys) → Q (Z.of_nat (length xs) + 1, tt, h')) →
  returns (list_foreach_value trees (binheap_remove_root_node p) tt h) Q.
Proof.
  intros [Hh Hlen] Hp HQ. unfold roots in Hh. rewrite fmap_app, fmap_cons in Hh.
  eapply returns_mono; [apply (foreach_remove_one _ _ _ _ _ _ p false _ R tt tt Hh)|].
  - rewrite length_app, length_cons, !length_fmap. rewrite length_app in Hlen. simpl in Hlen. lia.
  - intros i w Hw. unfold binheap_remove_root_node. rewrite <- list_fmap_compose in Hw.
    apply list_elem_of_fmap in Hw as (q&->&Hq). simpl. rewrite (proj2 (Z.eqb_neq q p)); [done|congruence].
  - intros i. unfold binheap_remove_root_node. by rewrite Z.eqb_refl.
  - intros [[r []] h']. rewrite length_fmap. intros (->&_&Hh'). apply HQ. rewrite length_app in *.
    simpl in Hlen. split; [|rewrite length_app; lia]. unfold roots. by rewrite fmap_app.
Qed.
Lemma count_roots h rs Q :
  lists h rs → (∀ h', lists h' rs → Q (Z.of_nat (length rs), h')) → returns (list_count trees h) Q.
Proof.
  intros Hl HQ. pose proof Hl as [_ Hlen].
  eapply (lop_roots h rs Sequence.Count); [done|split; [done|unfold roots; rewrite length_fmap; lia]|].
  intros h' Hh'. simpl. unfold roots. rewrite length_fmap. by apply HQ.
Qed.
End roots.

(** ** Choosing a node *)

(** The nodes [ps] are allocated and their keys are in the order's domain. *)
Definition known (ok : key → Prop) (N : nodes) (ps : list Z) : Prop :=
  ∀ p, p ∈ ps → ∃ n, N !! p = Some n ∧ ok (bn_key n).

(** [c] is one of [ps] and its key precedes theirs. *)
Definition first_of {cmp : libhl_cmp_callback_t} {ok : key → Prop} `{!Comparator cmp ok} (mode : binheap_mode_t) (N : nodes) (ps : list Z) (c : Z) : Prop :=
  c ∈ ps ∧ ∃ nc, N !! c = Some nc ∧
    ∀ p n, p ∈ ps → N !! p = Some n → precedes mode (bn_key nc) (bn_key n).

Section choose.
Context {cmp : libhl_cmp_callback_t} {ok : key → Prop} `{!Comparator cmp ok}.
Context (Hs : gmap Z binheap_t) (N : nodes).

Lemma find_child_returns mode b cs h nx Q :
  Binheap.cmp (bh_cbs b) = cmp → known ok N cs → cs ≠ [] →
  (∀ i c, cs !! Z.to_nat i = Some c → 0 ≤ i → first_of mode N cs c → Q (i, mk_bworld Hs N h nx)) →
  returns (find_child (better mode) b cs cs 0 0 (mk_bworld Hs N h nx)) Q.
Proof using All.
  intros Hcmp Hk Hne HQ.
  enough (∀ rest pre best cb, cs = pre ++ rest → 0 ≤ best → cs !! Z.to_nat best = Some cb →
    (∃ nb, N !! cb = Some nb ∧ ∀ p n, p ∈ pre → N !! p = Some n → precedes mode (bn_key nb) (bn_key n)) →
    returns (find_child (better mode) b cs rest (Z.of_nat (length pre)) best (mk_bworld Hs N h nx)) Q) as Hgen.
  { destruct cs as [|c0 cs0]; [done|]. destruct (Hk c0) as (n0&Hn0&_); [by left|].
    apply (Hgen _ [] 0 c0); [done|done|done|]. exists n0. split; [done|]. by intros p n ?%elem_of_nil. }
  induction rest as [|cur rest IH]; intros pre best cb Hcs Hb Hcb (nb&Hnb&Hbest); simpl.
  - apply (HQ best cb); [done|done|]. split; [by eapply list_elem_of_lookup_2|].
    exists nb. split; [done|]. rewrite Hcs, app_nil_r. done.
  - destruct (Hk cur) as (nc&Hnc&Hokc); [rewrite Hcs; apply elem_of_app; right; by left|].
    destruct (Hk cb) as (nb'&Hnb'&Hokb); [by eapply list_elem_of_lookup_2|]. simplify_eq.
    go. eapply returns_load_bn; [done|]. go. rewrite (list_lookup_total_correct _ _ _ Hcb).
    eapply returns_load_bn; [done|]. go. rewrite (cmp_ret (bn_key nc) (bn_key nb)) by done. go.
    rewrite better_precedes by done.
    replace (Z.of_nat (length pre) + 1) with (Z.of_nat (length (pre ++ [cur]))) by (rewrite length_app; simpl; lia).
    case_bool_decide as Hpre.
    + apply (IH _ _ cur); [by rewrite <- app_assoc|lia| |].
      { by rewrite Nat2Z.id, lookup_app_r, Nat.sub_diag by done. }
      exists nc. split; [done|]. intros p n [Hp|Hp%list_elem_of_singleton]%elem_of_app Hn.
      * destruct (Hk p) as (n'&Hn'&Hokp); [apply elem_of_app; by left|]. simplify_eq.
        eapply precedes_trans; [exact Hokc|exact Hokb| | |]; [done|done|]. by eapply Hbest.
      * simplify_eq. by apply precedes_refl.
    + apply (IH _ _ cb); [by rewrite <- app_assoc|done|done|]. exists nb. split; [done|].
      intros p n [Hp|Hp%list_elem_of_singleton]%elem_of_app Hn; [by eapply Hbest|]. simplify_eq.
      by destruct (precedes_total mode (bn_key nc) (bn_key nb)).
Qed.

Lemma find_child_of_returns mode p n b h nx Q :
  N !! p = Some n → Hs !! bn_bh n = Some b → Binheap.cmp (bh_cbs b) = cmp →
  known ok N (bn_children n) → bn_children n ≠ [] →
  (∀ i c, bn_children n !! Z.to_nat i = Some c → 0 ≤ i → first_of mode N (bn_children n) c →
     Q (i, mk_bworld Hs N h nx)) →
  returns (find_child_of (better mode) p (mk_bworld Hs N h nx)) Q.
Proof using All.
  intros Hp Hb Hcmp Hk Hne HQ. unfold find_child_of. go. eapply returns_load_bn; [done|].
  unfold num_children. rewrite (proj2 (Z.eqb_neq _ 0)) by (destruct (bn_children n); [done|simpl; lia]).
  go. eapply returns_load_bh; [done|]. by apply find_child_returns.
Qed.

(** ** The ends of the heap *)

Definition end_mode (is_min : bool) : binheap_mode_t :=
  if is_min then BINHEAP_MODE_MIN else BINHEAP_MODE_MAX.

(** The test of [binheap_maxmin]. *)
Lemma maxmin_test is_min k1 k2 :
  ok k1 → ok k2 →
  let d := 0 <=? cmp_sign k1 k2 in
  if (negb is_min && d) || (is_min && negb d) then precedes (end_mode is_min) k1 k2
  else precedes (end_mode is_min) k2 k1.
Proof using All.
  intros H1 H2. pose proof (cmp_anti k1 k2 H1 H2). pose proof (cmp_anti k2 k1 H2 H1).
  destruct is_min; simpl; destruct (Z.leb_spec 0 (cmp_sign k1 k2)); simpl; lia.
Qed.

Context (trees : Z) (R : gmap Z obj).

Lemma first_of_snoc mode ps p c n nc :
  known ok N (ps ++ [p]) → first_of mode N ps c → N !! c = Some nc → N !! p = Some n →
  (precedes mode (bn_key n) (bn_key nc) → first_of mode N (ps ++ [p]) p) ∧
  (precedes mode (bn_key nc) (bn_key n) → first_of mode N (ps ++ [p]) c).
Proof using All.
  intros Hk (Hc&nc'&Hnc'&Hall) Hnc Hn. rewrite Hnc in Hnc'. injection Hnc' as <-.
  destruct (Hk p) as (?&?&Hokn); [apply elem_of_app; right; by left|].
  destruct (Hk c) as (?&?&Hokc); [apply elem_of_app; by left|]. simplify_eq. split; intros Hpre.
  - split; [apply elem_of_app; right; by left|]. exists n. split; [done|].
    intros q m [Hq|Hq%list_elem_of_singleton]%elem_of_app Hm; [|simplify_eq; by apply precedes_refl].
    destruct (Hk q) as (m'&Hm'&Hokm); [apply elem_of_app; by left|]. simplify_eq.
    eapply precedes_trans; [exact Hokn|exact Hokc|done|done|]. by eapply Hall.
  - split; [apply elem_of_app; by left|]. exists nc. split; [done|].
    intros q m [Hq|Hq%list_elem_of_singleton]%elem_of_app Hm; [by eapply Hall|by simplify_eq].
Qed.

Definition maxmin_inv (is_min : bool) (rs : list Z) (nx : Z) (x : Z * Z * option Z) (w : bworld) : Prop :=
  let '(i, node, index) := x in
  0 ≤ i ≤ Z.of_nat (length rs) ∧
  ∃ h, w = mk_bworld Hs N h nx ∧ lists trees R h rs ∧
    (i = 0 ∧ node = 0 ∧ index = None ∨
     ∃ j, index = Some j ∧ 0 ≤ j ∧ 0 < i ∧ rs !! Z.to_nat j = Some node ∧
       first_of (end_mode is_min) N (take (Z.to_nat i) rs) node).

Lemma maxmin_returns bh is_min b h nx rs Q :
  Hs !! bh = Some b → Binheap.cmp (bh_cbs b) = cmp → bh_trees b = trees → lists trees R h rs →
  known ok N rs → 0 ∉ rs →
  (∀ h', lists trees R h' rs → rs = [] → Q (0, None, mk_bworld Hs N h' nx)) →
  (∀ h' i r, lists trees R h' rs → rs !! Z.to_nat i = Some r → 0 ≤ i →
     first_of (end_mode is_min) N rs r → Q (r, Some i, mk_bworld Hs N h' nx)) →
  returns (binheap_maxmin bh is_min (mk_bworld Hs N h nx)) Q.
Proof using All.
  intros Hb Hcmp Ht Hl Hk H0 HQ0 HQ1. unfold binheap_maxmin.
  assert (Z.of_nat (length rs) + 1 < INT_MAX) as Hlen by apply Hl. unfold INT_MAX in Hlen.
  apply (loopS_returns _ (maxmin_inv is_min rs nx) (λ '(i, _, _) _, Z.of_nat (length rs) - i)).
  - intros [[i node] index] w (Hi&h1&->&Hl1&Hinv) _. unfold maxmin_body. go.
    eapply returns_load_bh; [done|]. go. rewrite Ht. apply returns_on_list.
    apply (count_roots trees R _ rs); [done|]. intros h2 Hl2. rewrite as_int_u32 by (int_bounds; lia).
    destruct (Z.leb_spec (Z.of_nat (length rs)) i) as [Hle|Hlt].
    { go. destruct Hinv as [(->&->&->)|(j&->&Hj0&Hi0&Hj&Hfirst)].
      - apply HQ0; [done|]. destruct rs; [done|]. simpl in Hle. lia.
      - apply HQ1; try done. by rewrite take_ge in Hfirst by lia. }
    go. apply returns_on_list. apply (pick_roots trees R _ rs); [done|lia|]. intros h3 cur Hcur Hl3.
    assert (take (Z.to_nat (i + 1)) rs = take (Z.to_nat i) rs ++ [cur]) as Htake.
    { replace (Z.to_nat (i + 1)) with (S (Z.to_nat i)) by lia. by apply take_S_r. }
    destruct (Hk cur) as (nc&Hnc&Hokc); [by eapply list_elem_of_lookup_2|].
    destruct Hinv as [(->&->&->)|(j&->&Hj0&Hi0&Hj&Hfirst)].
    + rewrite Z.eqb_refl. go. split; [|lia]. split; [lia|]. exists h3. split_and!; [done|done|]. right.
      exists 0. split_and!; [done|lia|lia|done|]. rewrite Htake. simpl. split; [by left|].
      exists nc. split; [done|]. intros p n ->%list_elem_of_singleton Hn. simplify_eq. by apply precedes_refl.
    + assert (node ∈ rs) as Hin by (by eapply list_elem_of_lookup_2).
      rewrite (proj2 (Z.eqb_neq node 0)) by congruence.
      destruct (Hk node Hin) as (n&Hn&Hokn).
      go. eapply returns_load_bn; [done|]. go. eapply returns_load_bn; [done|]. go.
      rewrite Hcmp, (cmp_ret (bn_key nc) (bn_key n)) by done. go.
      pose proof (maxmin_test is_min (bn_key nc) (bn_key n) Hokc Hokn) as Htest. simpl in Htest.
      destruct (first_of_snoc (end_mode is_min) (take (Z.to_nat i) rs) cur node nc n) as [Hnew Hold]; try done.
      { rewrite <- Htake. intros p Hp. apply Hk. apply elem_of_take in Hp as (j'&Hj'&_). by eapply list_elem_of_lookup_2. }
      destruct (_ || _) eqn:E; go; (split; [|lia]); (split; [lia|]); exists h3; (split_and!; [done|done|]); right.
      * exists i. split_and!; [done|lia|lia|done|]. rewrite Htake. by apply Hnew.
      * exists j. split_and!; [done|lia|lia|done|]. rewrite Htake. by apply Hold.
  - split; [lia|]. exists h. split_and!; [done|done|]. by left.
  - lia.
Qed.
End choose.

(** The number of nodes of a lower rank: it decreases from a node to its
    children. *)
Definition below (rank : Z → nat) (N : nodes) (p : Z) : Z :=
  Z.of_nat (size (filter (λ '(q, _), (rank q < rank p)%nat) N)).

Lemma below_decreases rank (N : nodes) p c nc :
  N !! c = Some nc → (rank c < rank p)%nat → below rank N c < below rank N p.
Proof.
  intros Hc Hr. unfold below. apply inj_lt, map_subset_size, map_subset_alt. split.
  - apply map_subseteq_spec. intros q n [Hq Hlt]%map_lookup_filter_Some.
    apply map_lookup_filter_Some. split; [done|]. lia.
  - exists c. split; [apply map_lookup_filter_None; right; intros n _; lia|].
    exists nc. by apply map_lookup_filter_Some.
Qed.
Lemma below_bound rank (N : nodes) p : 0 ≤ below rank N p ≤ Z.of_nat (size N).
Proof. unfold below. split; [lia|]. apply inj_le, map_subseteq_size, map_filter_subseteq. Qed.

(** [binheap_get_minimum] and [binheap_get_maximum]. *)
Definition get_end (is_min : bool) : Z → B (Z * option Z) :=
  if is_min then binheap_get_minimum else binheap_get_maximum.

Section ends.
Context {cmp : libhl_cmp_callback_t} {ok : key → Prop} `{!Comparator cmp ok}.
Context (Hs : gmap Z binheap_t) (N : nodes) (trees : Z) (R : gmap Z obj).

(** The end the heap is ordered by, when the head is not set. *)
Lemma get_top_returns is_min bh b h nx rs Q :
  Hs !! bh = Some b → Binheap.cmp (bh_cbs b) = cmp → bh_trees b = trees → bh_head b = 0 →
  bh_mode b = end_mode is_min → lists trees R h rs → known ok N rs → 0 ∉ rs →
  (∀ h', lists trees R h' rs → rs = [] → Q (0, None, mk_bworld Hs N h' nx)) →
  (∀ h' i r, lists trees R h' rs → first_of (bh_mode b) N rs r → Q (r, Some i, mk_bworld Hs N h' nx)) →
  returns (get_end is_min bh (mk_bworld Hs N h nx)) Q.
Proof using All.
  intros Hb Hcmp Ht Hhd Hm Hl Hk H0 HQ0 HQ1. rewrite Hm in HQ1.
  assert (returns (binheap_maxmin bh is_min (mk_bworld Hs N h nx))
            (λ '(r, idx, w), Q (r, idx, w) ∧ bh_mode b = end_mode is_min)) as Hmm.
  { eapply (maxmin_returns Hs N trees R bh is_min b h nx rs); try done.
    - intros h' ??. split; [by apply HQ0|done].
    - intros h' i r ????. split; [by apply HQ1|done]. }
  destruct is_min; simpl in *; unfold binheap_get_minimum, binheap_get_maximum; go;
    (eapply returns_load_bh; [done|]); rewrite Hhd, Z.eqb_refl, andb_false_r; go;
    (eapply returns_mono; [exact Hmm|]); intros [[r idx] w] [HQ _];
    (destruct (Z.eqb_spec r 0) as [->|]; [by go|]); by rewrite bool_decide_false by congruence.
Qed.

Lemma get_head_returns is_min bh b h nx Q :
  Hs !! bh = Some b → bh_head b ≠ 0 → bh_mode b = end_mode is_min →
  Q (bh_head b, None, mk_bworld Hs N h nx) → returns (get_end is_min bh (mk_bworld Hs N h nx)) Q.
Proof.
  intros Hb Hhd Hm HQ. destruct is_min; simpl in *; unfold binheap_get_minimum, binheap_get_maximum; go;
    (eapply returns_load_bh; [done|]); by rewrite bool_decide_true, (proj2 (Z.eqb_neq _ 0)) by done.
Qed.
End ends.

(** [UPDATE_HEAD]. *)
Lemma UPDATE_HEAD_returns {cmp : libhl_cmp_callback_t} {ok : key → Prop} `{!Comparator cmp ok}
    Hs N trees R bh b h nx rs Q :
  Hs !! bh = Some b → Binheap.cmp (bh_cbs b) = cmp → bh_trees b = trees →
  lists trees R h rs → known ok N rs → 0 ∉ rs →
  (∀ h' r, lists trees R h' rs → (rs = [] ∧ r = 0 ∨ first_of (bh_mode b) N rs r) →
    Q (tt, mk_bworld (<[bh := bh_with_head r b]> Hs) N h' nx)) →
  returns (UPDATE_HEAD bh (mk_bworld Hs N h nx)) Q.
Proof.
  intros Hb Hcmp Ht Hl Hk H0 HQ. unfold UPDATE_HEAD. go. eapply returns_set_bh; [done|]. go.
  eapply returns_load_bh; [by rewrite lookup_insert_eq|]. go.
  set (is_min := match bh_mode b with BINHEAP_MODE_MIN => true | _ => false end).
  assert (bh_mode b = end_mode is_min) as Hm by (unfold is_min; by destruct (bh_mode b)).
  replace (match bh_mode (bh_with_head 0 b) with BINHEAP_MODE_MAX => binheap_get_maximum bh
    | BINHEAP_MODE_MIN => binheap_get_minimum bh end) with (get_end is_min bh)
    by (unfold is_min, bh_with_head; simpl; by destruct (bh_mode b)).
  assert (∀ r h', Q (tt, mk_bworld (<[bh := bh_with_head r b]> Hs) N h' nx) →
    returns (set_bh bh (bh_with_head r) (mk_bworld (<[bh := bh_with_head 0 b]> Hs) N h' nx)) Q) as Hset.
  { intros r h' HQ'. eapply returns_set_bh; [by rewrite lookup_insert_eq|]. by rewrite insert_insert_eq. }
  eapply (get_top_returns _ N trees R is_min bh (bh_with_head 0 b) h nx rs); try done.
  - by rewrite lookup_insert_eq.
  - intros h' Hl' Hrs. apply Hset, HQ; [done|by left].
  - intros h' i r Hl' Hr. apply Hset, HQ; [done|by right].
Qed.

Section bottom.
Context {cmp : libhl_cmp_callback_t} {ok : key → Prop} `{!Comparator cmp ok}.
Context (Hs : gmap Z binheap_t) (N : nodes) (trees : Z) (R : gmap Z obj).

(** The descent from the root [r] along [find] ends at a leaf. *)
Lemma descend_leaf mode mode' bh b rs r n h nx Q :
  forest mode bh N rs → Z.of_nat (size N) < INT_MAX → Hs !! bh = Some b → Binheap.cmp (bh_cbs b) = cmp →
  N !! r = Some n →
  (∀ p np, N !! p = Some np → bn_children np = [] → (bn_parent np = 0 → p = r) →
    Q (p, mk_bworld Hs N h nx)) →
  returns (loopS (descend_body (find_child_of (better mode'))) r (mk_bworld Hs N h nx)) Q.
Proof using All.
  intros Hf Hsz Hb Hcmp Hr HQ. destruct (fo_rank _ _ _ _ Hf) as [rank Hrank].
  pose proof (below_bound rank N r). unfold INT_MAX in Hsz.
  apply (loopS_returns _ (λ x w, w = mk_bworld Hs N h nx ∧ ∃ m, N !! x = Some m ∧ (bn_parent m = 0 → x = r))
    (λ x _, below rank N x)); [|by eauto|lia].
  intros x w (->&m&Hm&Hpar) _. unfold descend_body. go. eapply returns_load_bn; [done|]. go.
  destruct (fo_node _ _ _ _ Hf _ _ Hm) as (Hx0&_&Hbh&_&Hch). unfold num_children.
  destruct (bn_children m) as [|c0 cs] eqn:Hcs; [simpl; by apply (HQ x m)|].
  rewrite (proj2 (Z.eqb_neq _ 0)) by (simpl; lia). go.
  eapply (find_child_of_returns Hs N mode' x m b); [done|by rewrite Hbh|done| |by rewrite Hcs|].
  { intros c Hc. rewrite Hcs in Hc. apply Hch in Hc as (nc&Hnc&_). exists nc. split; [done|].
    by destruct (fo_node _ _ _ _ Hf _ _ Hnc) as (_&?&_). }
  intros i c Hc Hi _. go. eapply returns_load_bn; [done|]. go.
  rewrite (list_lookup_total_correct _ _ _ Hc).
  assert (c ∈ c0 :: cs) as Hin by (rewrite <- Hcs; by eapply list_elem_of_lookup_2).
  apply Hch in Hin as (nc&Hnc&Hp). pose proof (below_bound rank N c). split.
  - split; [done|]. exists nc. split; [done|]. congruence.
  - pose proof (below_decreases rank N x c nc Hnc) as Hdec. rewrite <- Hp in Hdec.
    specialize (Hdec (Hrank _ _ Hnc ltac:(congruence))). rewrite Hp in Hdec. lia.
Qed.

(** The other end: a leaf, with the index of its root. *)
Lemma get_bottom_returns is_min bh b h nx rs Q :
  forest (bh_mode b) bh N rs → Z.of_nat (size N) < INT_MAX → Hs !! bh = Some b →
  Binheap.cmp (bh_cbs b) = cmp → bh_trees b = trees → bh_mode b ≠ end_mode is_min →
  lists trees R h rs →
  (∀ h', lists trees R h' rs → rs = [] → Q (0, None, mk_bworld Hs N h' nx)) →
  (∀ h' i p np, lists trees R h' rs → 0 ≤ i → N !! p = Some np → bn_children np = [] →
    (bn_parent np = 0 → rs !! Z.to_nat i = Some p) → Q (p, Some i, mk_bworld Hs N h' nx)) →
  returns (get_end is_min bh (mk_bworld Hs N h nx)) Q.
Proof using All.
  intros Hf Hsz Hb Hcmp Ht Hm Hl HQ0 HQ1.
  assert (∀ p, p ∈ rs → ∃ n, N !! p = Some n ∧ ok (bn_key n) ∧ p ≠ 0) as Hrs.
  { intros p Hp. apply (fo_root _ _ _ _ Hf) in Hp as (n&Hn&_).
    destruct (fo_node _ _ _ _ Hf _ _ Hn) as (?&?&_). eauto. }
  set (P := λ '(r, idx, w), ∃ h', w = mk_bworld Hs N h' nx ∧ lists trees R h' rs ∧
    (rs = [] ∧ r = 0 ∧ idx = None ∨ ∃ i, idx = Some i ∧ 0 ≤ i ∧ rs !! Z.to_nat i = Some r)).
  assert (returns (binheap_maxmin bh is_min (mk_bworld Hs N h nx)) P) as Hmm.
  { eapply (maxmin_returns Hs N trees R bh is_min b h nx rs); try done.
    - intros p Hp. destruct (Hrs p Hp) as (n&?&?&_). eauto.
    - intros H0. by destruct (Hrs 0 H0) as (?&_&_&?).
    - intros h' ??. exists h'. split_and!; [done|done|by left].
    - intros h' i r ????. exists h'. split_and!; [done|done|right; eauto]. }
  destruct is_min; simpl in *; unfold binheap_get_minimum, binheap_get_maximum; go;
    (eapply returns_load_bh; [done|]); rewrite bool_decide_false by done; go;
    (eapply returns_mono; [exact Hmm|]); intros [[r idx] w] (h'&->&Hl'&[(?&->&->)|(i&->&Hi&Hr)]);
    try (by apply HQ0);
    (assert (r ∈ rs) as Hin by (by eapply list_elem_of_lookup_2));
    destruct (Hrs r Hin) as (n&Hn&_&Hr0); rewrite (proj2 (Z.eqb_neq r 0)), bool_decide_true by done; go;
    [eapply (descend_leaf (bh_mode b) BINHEAP_MODE_MIN bh b rs r n)
    |eapply (descend_leaf (bh_mode b) BINHEAP_MODE_MAX bh b rs r n)]; try done;
    intros p np Hp Hnil Hpar; go; apply HQ1 with np; try done; intros Hp0; by rewrite (Hpar Hp0).
Qed.
End bottom.
