(* ===== verification/BinheapRemove.v ===== *)
(** * Removing a node of a binomial heap

    [binomial_tree_node_destroy] of src/src/binheap.c on a heap that satisfies
    its invariant: the node leaves the forest, its children go to its parent
    or to the child that takes its place, and the rest of the heap keeps its
    contents and its order. *)

From S2P Require Import Prelude Linklist LinklistRemove Comparators Binheap BinheapForest BinheapOps.

(** ** The heap invariant *)

(** [r] is a root that precedes every node. *)
Definition heads {cmp : libhl_cmp_callback_t} {ok : key → Prop} `{!Comparator cmp ok}
    (mode : binheap_mode_t) (N : nodes) (r : Z) : Prop :=
  ∃ n, N !! r = Some n ∧ bn_parent n = 0 ∧
    ∀ p m, N !! p = Some m → precedes mode (bn_key n) (bn_key m).

Record heap_inv {cmp : libhl_cmp_callback_t} {ok : key → Prop} `{!Comparator cmp ok}
    (bh : Z) (b : binheap_t) (N : nodes) (rs : list Z) : Prop := {
  hi_forest : forest (ok := ok) (bh_mode b) bh N rs;
  hi_cmp : Binheap.cmp (bh_cbs b) = cmp;
  hi_count : bh_count b = Z.of_nat (size N);
  hi_size : Z.of_nat (size N) + 2 < INT_MAX;
  hi_head : N = ∅ ∧ bh_head b = 0 ∨ heads (bh_mode b) N (bh_head b)
}.

(** Distinct nodes are no more than the nodes. *)
Lemma nodes_length (N : nodes) (ps : list Z) :
  NoDup ps → (∀ p, p ∈ ps → is_Some (N !! p)) → (length ps ≤ size N)%nat.
Proof.
  intros Hnd Hps. rewrite <- size_dom, <- (size_list_to_set (C := gset Z) ps) by done.
  apply subseteq_size. intros p Hp%elem_of_list_to_set. by apply elem_of_dom, Hps.
Qed.

Section inv.
Context {cmp : libhl_cmp_callback_t} {ok : key → Prop} `{!Comparator cmp ok}.

Lemma heads_first mode bh N rs r :
  forest (ok := ok) mode bh N rs → first_of mode N rs r → heads mode N r.
Proof.
  intros Hf [Hr (n&Hn&Hall)]. exists n.
  pose proof Hr as (n'&Hn'&Hpar)%(fo_root _ _ _ _ Hf). simplify_eq. split_and!; [done|done|].
  intros p m Hm. destruct (forest_above _ _ _ _ _ _ Hf Hm) as (q&nq&Hq&Hnq&Hpre).
  destruct (fo_node _ _ _ _ Hf _ _ Hn) as (_&?&_).
  destruct (fo_node _ _ _ _ Hf _ _ Hnq) as (_&Hokq&_).
  destruct (fo_node _ _ _ _ Hf _ _ Hm) as (_&?&_).
  eapply precedes_trans; [..|exact Hpre]; try done. by eapply Hall.
Qed.

Lemma forest_no_roots mode bh N : forest (ok := ok) mode bh N [] → N = ∅.
Proof.
  intros Hf. apply map_empty. intros p. destruct (N !! p) as [n|] eqn:Hn; [|done].
  destruct (forest_above _ _ _ _ _ _ Hf Hn) as (r&_&Hr&_). by apply elem_of_nil in Hr.
Qed.

Lemma forest_known mode bh N rs : forest (ok := ok) mode bh N rs → known ok N rs ∧ 0 ∉ rs.
Proof.
  intros Hf. split.
  - intros p (n&Hn&_)%(fo_root _ _ _ _ Hf). exists n. split; [done|].
    by destruct (fo_node _ _ _ _ Hf _ _ Hn) as (_&?&_).
  - intros (n&Hn&_)%(fo_root _ _ _ _ Hf). by destruct (fo_node _ _ _ _ Hf _ _ Hn).
Qed.

Lemma forest_length mode bh N rs : forest (ok := ok) mode bh N rs → (length rs ≤ size N)%nat.
Proof.
  intros Hf. apply nodes_length; [by eapply fo_nodup|].
  intros p (n&Hn&_)%(fo_root _ _ _ _ Hf). by exists n.
Qed.
End inv.

(** ** The children of the node *)

Section adopt.
Context (Hs : gmap Z binheap_t) (trees : Z) (R : gmap Z obj) (rs : list Z).

Lemma adopt_returns g cs N ng h nx Q :
  g ≠ 0 → 0 < nx → N !! g = Some ng → NoDup cs → g ∉ cs → (∀ c, c ∈ cs → is_Some (N !! c)) →
  lists trees R h rs →
  (∀ N' h' nx', nx ≤ nx' → lists trees R h' rs →
    (∀ x, N' !! x = if decide (x = g) then Some (bn_with_children (bn_children ng ++ cs) ng)
                    else if decide (x ∈ cs) then bn_with_parent g <$> N !! x else N !! x) →
    Q (tt, mk_bworld Hs N' h' nx')) →
  returns (adopt g cs (mk_bworld Hs N h nx)) Q.
Proof using All.
  intros Hg. revert N ng h nx. induction cs as [|c cs IH]; intros N ng h nx Hnx Hng Hnd Hgc Hcs Hl HQ; simpl.
  - go. apply HQ; [lia|done|]. intros x. case_decide; [|done]. subst x. rewrite app_nil_r, Hng.
    by destruct ng.
  - apply NoDup_cons in Hnd as [Hc Hnd]. apply not_elem_of_cons in Hgc as [Hgc1 Hgc].
    destruct (Hcs c) as [nc Hnc]; [by left|].
    rewrite (proj2 (Z.eqb_neq g 0)) by done. go. unfold binomial_tree_node_add, push_child. go.
    apply returns_new_block; [by eapply lists_alloc|]. rewrite (proj2 (Z.eqb_neq nx 0)) by lia.
    go. eapply returns_set_bn; [done|]. go. go.
    eapply returns_set_bn; [by rewrite lookup_insert_ne by done|]. go.
    eapply IH; [lia|by rewrite lookup_insert_ne, lookup_insert_eq by done|done|done| | |].
    + intros x Hx. rewrite !lookup_insert. repeat case_decide; [by eexists..|]. apply Hcs. by right.
    + by apply lists_answered.
    + intros N' h' nx' Hle Hl' HN'. apply HQ; [lia|done|]. intros x. rewrite HN'.
      case_decide as E1; [simpl; by rewrite <- app_assoc|].
      destruct (decide (x = c)) as [->|Hxc].
      * rewrite decide_False, lookup_insert_eq, Hnc by done. by rewrite decide_True by (by left).
      * rewrite !lookup_insert_ne by done.
        destruct (decide (x ∈ cs)); [rewrite decide_True by (by right)|rewrite decide_False]; try done.
        by rewrite elem_of_cons; intros [?|?].
Qed.
End adopt.

(** The index of a child. *)
Lemma child_index_found p cs k :
  p ∈ cs → ∃ i : nat, child_index p cs k = k + Z.of_nat i ∧ cs !! i = Some p.
Proof.
  revert k. induction cs as [|c cs IH]; intros k; [by intros ?%elem_of_nil|]. simpl.
  destruct (Z.eqb_spec c p) as [->|Hne]; [exists 0%nat; split; [lia|done]|].
  intros [->|Hp]%elem_of_cons; [done|]. destruct (IH (k + 1) Hp) as (i&->&Hi).
  exists (S i). split; [lia|done].
Qed.

Lemma NoDup_delete (l : list Z) i p : NoDup l → l !! i = Some p → NoDup (delete i l) ∧ (p ∉ delete i l) ∧
  (∀ x, (x ∈ l) ↔ (x = p ∨ x ∈ delete i l)).
Proof.
  intros Hnd Hi. pose proof (delete_Permutation l i p Hi) as HP.
  rewrite HP in Hnd. apply NoDup_cons in Hnd as [? ?]. split_and!; [done|done|].
  intros x. by rewrite <- elem_of_cons, <- HP.
Qed.

Lemma NoDup_middle (xs ys : list Z) p : NoDup (xs ++ p :: ys) →
  NoDup (xs ++ ys) ∧ (p ∉ xs ++ ys) ∧ ∀ x, x ∈ xs ++ ys ↔ (x ∈ xs ++ p :: ys ∧ x ≠ p).
Proof.
  intros Hnd. apply (NoDup_Permutation_proper _ (p :: xs ++ ys)) in Hnd; [|by rewrite Permutation_middle].
  apply NoDup_cons in Hnd as [Hp Hnd]. split_and!; [done|done|]. intros x.
  rewrite <- Permutation_middle, elem_of_cons. split; [|by intros [[->|?] ?]].
  intros Hx. split; [by right|congruence].
Qed.

(** ** The store without the node *)

(** The node [p] is gone; its children are below [g], whose children are now
    [l], and [g] is a root if it was one of them. *)
Definition relinked (p : Z) (n : binomial_tree_node_t) (g : Z) (l : list Z) (N N' : nodes) : Prop :=
  ∀ x, N' !! x =
    if decide (x = p) then None else
    (λ m, if decide (x = g)
          then mk_bnode (bn_key m) (bn_value m) (if decide (bn_parent m = p) then 0 else bn_parent m) l (bn_bh m)
          else if decide (x ∈ bn_children n) then bn_with_parent g m else m) <$> N !! x.

Section relinked.
Context {cmp : libhl_cmp_callback_t} {ok : key → Prop} `{!Comparator cmp ok}.
Context (mode : binheap_mode_t) (bh : Z) (N N' : nodes) (rs : list Z).
Context (p : Z) (n : binomial_tree_node_t) (g : Z) (l : list Z).
Context (Hf : forest (ok := ok) mode bh N rs) (Hp : N !! p = Some n) (HN' : relinked p n g l N N').
Context (Hl : g ≠ 0 → NoDup l ∧ ∀ ng, N !! g = Some ng →
  ∀ x, x ∈ l ↔ (x ∈ bn_children ng ∧ x ≠ p ∨ x ∈ bn_children n ∧ x ≠ g)).

Lemma relinked_none c : N' !! c = None ↔ c = p ∨ N !! c = None.
Proof using HN'.
  rewrite (HN' c). clear Hf Hp HN' Hl. case_decide; [split; [by left|done]|].
  rewrite fmap_None. split; [by right|by intros [?|?]].
Qed.

Lemma relinked_moved c nc : N' !! c = Some nc → ∃ m, N !! c = Some m ∧ moved p n g c m nc.
Proof using All.
  rewrite (HN' c). case_decide as Hcp; [done|]. intros (m&Hm&->)%fmap_Some_1. exists m. split; [done|].
  destruct (fo_node _ _ _ _ Hf _ _ Hm) as (Hc0&_&_&Hnd&Hch).
  destruct (fo_node _ _ _ _ Hf _ _ Hp) as (_&_&_&_&Hchp). unfold moved.
  destruct (decide (c = g)) as [->|Hcg].
  - destruct (Hl Hc0) as [Hndl Hin]. split_and!; [done|done|done|done|]. by apply Hin.
  - case_decide as Hcn.
    + apply Hchp in Hcn as (m'&Hm'&Hpar). simplify_eq. simpl. by rewrite decide_True.
    + rewrite decide_False; [done|]. intros Hpar. apply Hcn, Hchp. eauto.
Qed.

Lemma relinked_forest rs' :
  new_parent N n mode g → NoDup rs' →
  (∀ x, x ∈ rs' ↔ (x ∈ rs ∧ x ≠ p ∨ x = g ∧ g ≠ 0 ∧ bn_parent n = 0)) →
  forest (ok := ok) mode bh N' rs'.
Proof using All.
  intros Hg Hnd Hrs'. eapply (forest_remove _ _ N N' rs rs' p n g); try done.
  - apply relinked_none.
  - apply relinked_moved.
Qed.

Lemma relinked_contents : contents N' = delete p (contents N).
Proof using All.
  apply (contents_remove N N' p n g); [apply relinked_none|apply relinked_moved].
Qed.
End relinked.

(** ** Detaching the node *)

Section detach.
Context {cmp : libhl_cmp_callback_t} {ok : key → Prop} `{!Comparator cmp ok}.
Context (Hs : gmap Z binheap_t) (bh : Z) (b : binheap_t) (R : gmap Z obj).
Context (Hb : Hs !! bh = Some b) (Hcmp : Binheap.cmp (bh_cbs b) = cmp).

Lemma detach_child_returns N p q nq h nx Q :
  N !! q = Some nq → p ∈ bn_children nq →
  (∀ i, bn_children nq !! i = Some p →
    Q (q, mk_bworld Hs (<[q := bn_with_children (delete i (bn_children nq)) nq]> N) h nx)) →
  returns (detach_child p q (mk_bworld Hs N h nx)) Q.
Proof using All.
  intros Hq Hp HQ. unfold detach_child. go. eapply returns_load_bn; [done|]. go.
  destruct (child_index_found p (bn_children nq) 0 Hp) as (i&->&Hi).
  rewrite (proj2 (Z.leb_le 0 _)) by lia. go. eapply returns_set_bn; [done|]. go.
  replace (Z.to_nat (0 + Z.of_nat i)) with i by lia. by apply HQ.
Qed.

(** The root leaves the list; what is returned is one more than its index. *)
Lemma unlink_root_returns N p rindex rs h nx (Q : Z * bworld → Prop) :
  lists (bh_trees b) R h rs → NoDup rs → p ∈ rs → 0 ≤ rindex →
  (rindex ≠ 0 → rs !! Z.to_nat rindex = Some p) →
  (∀ h' xs ys, rs = xs ++ p :: ys → lists (bh_trees b) R h' (xs ++ ys) →
    Q (Z.of_nat (length xs) + 1, mk_bworld Hs N h' nx)) →
  returns ((if negb (rindex =? 0) then
              _ ← on_list (list_fetch_value (bh_trees b) rindex); mret (as_int (u32 (rindex + 1)))
            else
              '(r, _) ← on_list (list_foreach_value (bh_trees b) (binheap_remove_root_node p) tt);
              mret r) (mk_bworld Hs N h nx)) Q.
Proof using All.
  intros Hl Hnd Hp Hi0 Hi HQ. destruct (Z.eqb_spec rindex 0) as [->|Hne]; go; apply returns_on_list.
  - destruct (list_elem_of_split rs p Hp) as (xs&ys&->).
    assert (p ∉ xs) as Hpx.
    { apply NoDup_app in Hnd as (_&Hd&_). intros Hx. apply (Hd p Hx). by left. }
    eapply (remove_root _ _ _ xs p ys); [done|done|]. intros h' Hl'. go. by apply HQ with ys.
  - specialize (Hi Hne). pose proof (lookup_lt_Some _ _ _ Hi).
    assert (Z.of_nat (length rs) + 1 < INT_MAX) as Hlen by apply Hl.
    eapply (fetch_roots _ _ _ rs); [done|lia|]. intros h' r Hr Hl'. go. simplify_eq.
    rewrite as_int_u32 by (int_bounds; lia). rewrite delete_take_drop in Hl'.
    replace (rindex + 1) with (Z.of_nat (length (take (Z.to_nat rindex) rs)) + 1) by (rewrite length_take; lia).
    apply HQ with (drop (S (Z.to_nat rindex)) rs); [|done]. by rewrite take_drop_middle.
Qed.

(** The new root is a child that precedes the others. *)
Lemma detach_root_returns N p n rindex rs h nx Q :
  forest (ok := ok) (bh_mode b) bh N rs → N !! p = Some n → bn_parent n = 0 →
  Z.of_nat (length rs) + 2 < INT_MAX → lists (bh_trees b) R h rs → 0 ≤ rindex →
  (rindex ≠ 0 → rs !! Z.to_nat rindex = Some p) →
  (∀ h' xs ys, rs = xs ++ p :: ys → lists (bh_trees b) R h' (xs ++ ys) → bn_children n = [] →
    Q (0, mk_bworld Hs N h' nx)) →
  (∀ h' xs ys i g ng, rs = xs ++ p :: ys → lists (bh_trees b) R h' (xs ++ g :: ys) →
    bn_children n !! i = Some g → first_of (bh_mode b) N (bn_children n) g → N !! g = Some ng →
    Q (g, mk_bworld Hs (<[g := bn_with_parent 0 ng]>
           (<[p := bn_with_children (delete i (bn_children n)) n]> N)) h' nx)) →
  returns (detach_root p rindex (mk_bworld Hs N h nx)) Q.
Proof using All.
  intros Hf Hp Hpar Hlen Hl Hi0 Hi HQ0 HQ1. unfold detach_root. go. eapply returns_load_bn; [done|]. go.
  destruct (fo_node _ _ _ _ Hf _ _ Hp) as (Hp0&_&Hbh&Hnd&Hch). rewrite Hbh.
  eapply returns_load_bh; [done|]. go.
  assert (p ∈ rs) as Hin by (apply (fo_root _ _ _ _ Hf); eauto).
  apply (unlink_root_returns N p rindex rs); try done; [by eapply fo_nodup|].
  intros h1 xs ys Hrs Hl1. unfold num_children. destruct (bn_children n) as [|c0 cs] eqn:Hcs.
  { simpl. by apply (HQ0 h1 xs ys). }
  rewrite (proj2 (Z.eqb_neq _ 0)) by (simpl; lia). rewrite <- Hcs in *. go.
  assert (known ok N (bn_children n)) as Hk.
  { intros c Hc. apply Hch in Hc as (nc&Hnc&_). exists nc. split; [done|].
    by destruct (fo_node _ _ _ _ Hf _ _ Hnc) as (_&?&_). }
  replace (match bh_mode b with BINHEAP_MODE_MAX => binomial_tree_node_find_max_child p
    | BINHEAP_MODE_MIN => binomial_tree_node_find_min_child p end)
    with (find_child_of (better (bh_mode b)) p) by (by destruct (bh_mode b)).
  eapply (find_child_of_returns Hs N (bh_mode b) p n b); [done|by rewrite Hbh|done|done|by rewrite Hcs|].
  intros i g Hg Hi' Hfirst. rewrite (proj2 (Z.ltb_ge i 0)) by lia. go.
  pose proof Hfirst as [Hgin (ng&Hng&_)]. pose proof Hgin as (ng'&Hng'&Hgp)%Hch. simplify_eq.
  assert (g ≠ bn_parent ng) by (intros E; rewrite <- E in *; by rewrite Hp in Hng; simplify_eq).
  eapply returns_set_bn; [done|]. go. rewrite (list_lookup_total_correct _ _ _ Hg).
  eapply returns_set_bn; [by rewrite lookup_insert_ne|]. go.
  rewrite (proj2 (Z.ltb_lt 0 _)) by lia. go. apply returns_on_list.
  rewrite Z.add_simpl_r. rewrite length_app in Hlen. simpl in Hlen.
  eapply insert_roots; [done|rewrite length_app; lia|]. intros h2 Hl2. go.
  by apply HQ1 with xs ys.
Qed.
End detach.

(** ** [binomial_tree_node_destroy] *)

(** The same heap with another head and another count. *)
Definition same_heap (b b' : binheap_t) : Prop :=
  bh_trees b' = bh_trees b ∧ bh_cbs b' = bh_cbs b ∧ bh_mode b' = bh_mode b.

Section destroy.
Context {cmp : libhl_cmp_callback_t} {ok : key → Prop} `{!Comparator cmp ok}.
Context (Hs : gmap Z binheap_t) (bh : Z) (b : binheap_t) (R : gmap Z obj) (N : nodes) (rs : list Z).
Context (Hb : Hs !! bh = Some b) (Hinv : heap_inv bh b N rs).
Context (p : Z) (n : binomial_tree_node_t) (Hp : N !! p = Some n).

(** The end of the function, once the store [N2] is that without [p] but for
    [p] itself. *)
Lemma destroy_end N2 N' n2 g l rs' h nx Q :
  N2 !! p = Some n2 → bn_bh n2 = bh → N' = delete p N2 → relinked p n g l N N' →
  (g ≠ 0 → NoDup l ∧ ∀ ng, N !! g = Some ng →
     ∀ x, x ∈ l ↔ (x ∈ bn_children ng ∧ x ≠ p ∨ x ∈ bn_children n ∧ x ≠ g)) →
  new_parent N n (bh_mode b) g → NoDup rs' →
  (∀ x, x ∈ rs' ↔ (x ∈ rs ∧ x ≠ p ∨ x = g ∧ g ≠ 0 ∧ bn_parent n = 0)) →
  lists (bh_trees b) R h rs' →
  (∀ h' b', same_heap b b' → heap_inv bh b' N' rs' → contents N' = delete p (contents N) →
    lists (bh_trees b) R h' rs' → Q (tt, mk_bworld (<[bh := b']> Hs) N' h' nx)) →
  returns ((b ← load_bh bh;
    _ ← (if p =? bh_head b then UPDATE_HEAD bh else mret tt);
    b ← load_bh bh;
    c ← lift (int32 (bh_count b - 1));
    _ ← set_bh bh (bh_with_count c);
    free_bn p) (mk_bworld Hs N2 h nx)) Q.
Proof using All.
  intros Hp2 Hbh2 HN' Hrel Hl Hg Hnd Hrs' Hlists HQ.
  pose proof (hi_forest _ _ _ _ Hinv) as Hf.
  pose proof (relinked_forest (bh_mode b) bh N N' rs p n g l Hf Hp Hrel Hl rs' Hg Hnd Hrs') as Hf'.
  pose proof (relinked_contents (bh_mode b) bh N N' rs p n g l Hf Hp Hrel Hl) as Hcont.
  destruct (forest_known _ _ _ _ Hf') as [Hk' H0'].
  assert (size N = S (size N')) as Hsz.
  { rewrite <- (map_size_fmap kv N), <- (map_size_fmap kv N'). fold (contents N) (contents N').
    rewrite Hcont, map_size_delete. unfold contents at 2. rewrite lookup_fmap, Hp. simpl.
    assert (size (contents N) ≠ 0%nat); [|lia]. unfold contents. rewrite map_size_fmap.
    intros E%map_size_empty_inv. rewrite E in Hp. by rewrite lookup_empty in Hp. }
  pose proof (hi_count _ _ _ _ Hinv) as Hcount. pose proof (hi_size _ _ _ _ Hinv) as Hsize.
  assert (∀ r h', lists (bh_trees b) R h' rs' → (N' = ∅ ∧ r = 0 ∨ heads (bh_mode b) N' r) →
    ∀ Hs', Hs' !! bh = Some (bh_with_head r b) → <[bh := bh_with_count (bh_count b - 1) (bh_with_head r b)]> Hs' =
      <[bh := bh_with_count (bh_count b - 1) (bh_with_head r b)]> Hs →
    returns ((b ← load_bh bh; c ← lift (int32 (bh_count b - 1)); _ ← set_bh bh (bh_with_count c); free_bn p)
      (mk_bworld Hs' N2 h' nx)) Q) as Hend.
  { intros r h' Hl' Hhead Hs' Hb' HHs. go. eapply returns_load_bh; [done|]. go.
    change (bh_count (bh_with_head r b)) with (bh_count b). go.
    eapply returns_set_bh; [done|]. go. eapply returns_free_bn; [done|]. simpl. rewrite HHs, <- HN'.
    apply HQ; [done| |done|done]. split; simpl; try done.
    - apply Hinv.
    - lia.
    - lia. }
  rewrite st_bind_Ret with (a := b) (w' := mk_bworld Hs N2 h nx) by (unfold load_bh; simpl; by rewrite Hb).
  destruct (Z.eqb_spec p (bh_head b)) as [Hhd|Hhd].
  - apply returns_st_bind. eapply (UPDATE_HEAD_returns Hs N2 (bh_trees b) R bh b h nx rs'); try done.
    + apply Hinv.
    + intros x Hx. destruct (Hk' x Hx) as (m&Hm&Hok). rewrite HN' in Hm.
      apply lookup_delete_Some in Hm as [_ Hm]. eauto.
    + intros h' r Hl' Hr. apply Hend with r; [done| |by rewrite lookup_insert_eq|by rewrite insert_insert_eq].
      destruct Hr as [[-> ->]|[Hr (m&Hm&Hall)]]; [left; by apply forest_no_roots in Hf'|right].
      eapply heads_first; [exact Hf'|]. split; [done|]. exists m.
      destruct (Hk' r Hr) as (m'&Hm'&_). rewrite HN' in Hm'. pose proof Hm' as [_ Hm'']%lookup_delete_Some.
      simplify_eq. split; [done|]. intros q mq Hq [_ Hmq]%lookup_delete_Some. by eapply Hall.
  - apply returns_st_bind, returns_st_ret. apply Hend with (bh_head b); [done| |by destruct b|by destruct b].
    destruct (hi_head _ _ _ _ Hinv) as [[HN _]|(m&Hm&Hpm&Hall)]; [by rewrite HN, lookup_empty in Hp|right].
    destruct (N' !! bh_head b) as [m'|] eqn:Hm'.
    2:{ apply (relinked_none N N' p n g l Hrel) in Hm' as [?|?]; congruence. }
    destruct (relinked_moved (bh_mode b) bh N N' rs p n g l Hf Hp Hrel Hl _ _ Hm') as (m0&Hm0&Hkv&_&Hpar&_).
    exists m'. split; [done|]. unfold kv in Hkv.
    rewrite Hm in Hm0. injection Hm0 as <-. split.
    + rewrite Hpar, Hpm. rewrite decide_False; [done|]. intros <-. by destruct (fo_node _ _ _ _ Hf _ _ Hp).
    + intros q mq Hmq.
      destruct (relinked_moved (bh_mode b) bh N N' rs p n g l Hf Hp Hrel Hl _ _ Hmq) as (mq0&Hmq0&Hkvq&_).
      unfold kv in Hkvq. injection Hkv as -> _. injection Hkvq as -> _. by eapply Hall.
Qed.

Lemma node_facts :
  p ≠ 0 ∧ bn_bh n = bh ∧ NoDup (bn_children n) ∧ bn_parent n ≠ p ∧
  (∀ c, c ∈ bn_children n ↔ ∃ nc, N !! c = Some nc ∧ bn_parent nc = p) ∧ p ∉ bn_children n.
Proof using All.
  pose proof (hi_forest _ _ _ _ Hinv) as Hf. destruct (fo_rank _ _ _ _ Hf) as [rank Hrank].
  destruct (fo_node _ _ _ _ Hf _ _ Hp) as (Hp0&_&Hbh&Hnd&Hch).
  assert (bn_parent n ≠ p) as Hpp.
  { intros E. pose proof (Hrank _ _ Hp ltac:(congruence)) as Hr. rewrite E in Hr. lia. }
  split_and!; try done. intros (nc&Hnc&Hpar)%Hch. congruence.
Qed.

(** A root without children. *)
Lemma destroy_leaf_root xs ys h nx Q :
  bn_parent n = 0 → bn_children n = [] → rs = xs ++ p :: ys → lists (bh_trees b) R h (xs ++ ys) →
  (∀ h' N' rs' b', same_heap b b' → heap_inv bh b' N' rs' → contents N' = delete p (contents N) →
    lists (bh_trees b) R h' rs' → Q (tt, mk_bworld (<[bh := b']> Hs) N' h' nx)) →
  returns ((b ← load_bh bh;
    _ ← (if p =? bh_head b then UPDATE_HEAD bh else mret tt);
    b ← load_bh bh;
    c ← lift (int32 (bh_count b - 1));
    _ ← set_bh bh (bh_with_count c);
    free_bn p) (mk_bworld Hs N h nx)) Q.
Proof using All.
  intros Hpar Hnil Hrs Hl HQ. destruct node_facts as (Hp0&Hbh&_&_&_&_).
  pose proof (fo_nodup _ _ _ _ (hi_forest _ _ _ _ Hinv)) as Hnd. rewrite Hrs in Hnd.
  apply NoDup_middle in Hnd as (Hnd&_&Hin).
  eapply (destroy_end N (delete p N) n 0 [] (xs ++ ys)); try done.
  - intros x. rewrite lookup_delete. repeat case_decide; subst; try done.
    + destruct (N !! 0) as [m|] eqn:Hm; [|done].
      by destruct (fo_node _ _ _ _ (hi_forest _ _ _ _ Hinv) _ _ Hm).
    + rewrite Hnil in *. by destruct (not_elem_of_nil x).
    + by destruct (N !! x).
  - by left.
  - intros x. rewrite Hrs, Hin. split; [by left|]. by intros [?|(_&?&_)].
  - intros h' b' ????. by apply HQ with (xs ++ ys).
Qed.

(** A root with children: [g] takes its place. *)
Lemma destroy_root xs ys i g ng N2 h nx Q :
  bn_parent n = 0 → rs = xs ++ p :: ys → bn_children n !! i = Some g → N !! g = Some ng →
  first_of (bh_mode b) N (bn_children n) g → lists (bh_trees b) R h (xs ++ g :: ys) →
  (∀ x, N2 !! x =
     if decide (x = g) then Some (mk_bnode (bn_key ng) (bn_value ng) 0
                                   (bn_children ng ++ delete i (bn_children n)) (bn_bh ng))
     else if decide (x ∈ delete i (bn_children n)) then bn_with_parent g <$> N !! x
     else if decide (x = p) then Some (bn_with_children (delete i (bn_children n)) n) else N !! x) →
  (∀ h' N' rs' b', same_heap b b' → heap_inv bh b' N' rs' → contents N' = delete p (contents N) →
    lists (bh_trees b) R h' rs' → Q (tt, mk_bworld (<[bh := b']> Hs) N' h' nx)) →
  returns ((b ← load_bh bh;
    _ ← (if p =? bh_head b then UPDATE_HEAD bh else mret tt);
    b ← load_bh bh;
    c ← lift (int32 (bh_count b - 1));
    _ ← set_bh bh (bh_with_count c);
    free_bn p) (mk_bworld Hs N2 h nx)) Q.
Proof using All.
  intros Hpar Hrs Hg Hng [Hgin (ng'&Hng'&Hfirst)] Hl HN2 HQ. rewrite Hng in Hng'. injection Hng' as <-.
  destruct node_facts as (Hp0&Hbh&Hndc&_&Hch&Hpn).
  pose proof (hi_forest _ _ _ _ Hinv) as Hf.
  destruct (fo_node _ _ _ _ Hf _ _ Hng) as (Hg0&_&_&Hndg&Hchg).
  pose proof (proj1 (Hch g) Hgin) as (ng'&Hng'&Hgp). rewrite Hng in Hng'. injection Hng' as <-.
  pose proof (fo_nodup _ _ _ _ Hf) as Hnd. rewrite Hrs in Hnd. apply NoDup_middle in Hnd as (Hnd&_&Hin).
  assert (g ≠ p) as Hgne by congruence.
  assert (g ∉ rs) as Hgrs.
  { intros (m&Hm&Hpm)%(fo_root _ _ _ _ Hf). rewrite Hng in Hm. injection Hm as <-. congruence. }
  destruct (NoDup_delete _ _ _ Hndc Hg) as (Hndd&Hgd&Hind).
  assert (p ∉ delete i (bn_children n)) as Hpd by (intros Hx; apply Hpn, Hind; by right).
  eapply (destroy_end N2 (delete p N2) (bn_with_children (delete i (bn_children n)) n) g
            (bn_children ng ++ delete i (bn_children n)) (xs ++ g :: ys)); try done.
  - rewrite HN2. by rewrite decide_False, decide_False, decide_True by congruence.
  - intros x. rewrite lookup_delete. destruct (decide (x = p)) as [->|Hxp]; [by rewrite decide_True|].
    rewrite (decide_False (P := p = x)), HN2 by congruence. destruct (decide (x = g)) as [->|Hxg].
    + rewrite Hng. simpl. by rewrite (decide_True (P := bn_parent ng = p)).
    + rewrite (decide_False (P := x = p)) by done. pose proof (Hind x).
      destruct (decide (x ∈ bn_children n)); [rewrite decide_True by tauto|rewrite decide_False by tauto];
        by destruct (N !! x).
  - intros _. split.
    + apply NoDup_app. split_and!; [done| |done]. intros x (m&Hm&Hpm)%Hchg Hx.
      assert (x ∈ bn_children n) as Hxn by (apply Hind; by right).
      apply Hch in Hxn as (m'&Hm'&?). congruence.
    + intros m Hm x. rewrite Hng in Hm. injection Hm as <-. rewrite elem_of_app. pose proof (Hind x). split.
      * intros [Hx|Hx]; [left|right; split; [tauto|congruence]]. split; [done|]. intros ->.
        apply Hchg in Hx as (m'&Hm'&Hpm). congruence.
      * intros [[? _]|[? ?]]; [by left|right]. tauto.
  - right. right. split_and!; [done|done|]. exists ng. split; [done|]. intros c nc Hc Hnc. by eapply Hfirst.
  - apply (NoDup_Permutation_proper _ (g :: xs ++ ys)); [by rewrite Permutation_middle|].
    apply NoDup_cons. split; [|done]. rewrite Hin, <- Hrs. tauto.
  - intros x. rewrite <- Permutation_middle, elem_of_cons, Hin, <- Hrs. tauto.
  - intros h' b' ????. by apply HQ with (xs ++ g :: ys).
Qed.

(** A child: its children go to its parent. *)
Lemma destroy_child i q nq N2 h nx Q :
  bn_parent n = q → q ≠ 0 → N !! q = Some nq → bn_children nq !! i = Some p →
  lists (bh_trees b) R h rs →
  (∀ x, N2 !! x =
     if decide (x = q) then Some (bn_with_children (delete i (bn_children nq) ++ bn_children n) nq)
     else if decide (x ∈ bn_children n) then bn_with_parent q <$> N !! x else N !! x) →
  (∀ h' N' rs' b', same_heap b b' → heap_inv bh b' N' rs' → contents N' = delete p (contents N) →
    lists (bh_trees b) R h' rs' → Q (tt, mk_bworld (<[bh := b']> Hs) N' h' nx)) →
  returns ((b ← load_bh bh;
    _ ← (if p =? bh_head b then UPDATE_HEAD bh else mret tt);
    b ← load_bh bh;
    c ← lift (int32 (bh_count b - 1));
    _ ← set_bh bh (bh_with_count c);
    free_bn p) (mk_bworld Hs N2 h nx)) Q.
Proof using All.
  intros Hpar Hq0 Hq Hi Hl HN2 HQ. destruct node_facts as (Hp0&Hbh&Hndc&Hpp&Hch&Hpn).
  pose proof (hi_forest _ _ _ _ Hinv) as Hf. destruct (fo_rank _ _ _ _ Hf) as [rank Hrank].
  destruct (fo_node _ _ _ _ Hf _ _ Hq) as (_&_&_&Hndq&Hchq).
  destruct (NoDup_delete _ _ _ Hndq Hi) as (Hndd&Hpd&Hind).
  assert (bn_parent nq ≠ p) as Hqp.
  { intros E. pose proof (Hrank _ _ Hq ltac:(congruence)) as H1. pose proof (Hrank _ _ Hp ltac:(congruence)) as H2.
    rewrite E in H1. rewrite Hpar in H2. lia. }
  assert (p ∉ rs) as Hprs by (intros (m&Hm&?)%(fo_root _ _ _ _ Hf); congruence).
  assert (q ∉ bn_children n) as Hqn by (intros (m&Hm&?)%Hch; congruence).
  eapply (destroy_end N2 (delete p N2) n q (delete i (bn_children nq) ++ bn_children n) rs); try done.
  - rewrite HN2, decide_False, decide_False by congruence. done.
  - intros x. rewrite lookup_delete. destruct (decide (x = p)) as [->|Hxp]; [by rewrite decide_True|].
    rewrite (decide_False (P := p = x)), HN2 by congruence. destruct (decide (x = q)) as [->|Hxq].
    + rewrite Hq. simpl. by rewrite (decide_False (P := bn_parent nq = p)).
    + destruct (decide (x ∈ bn_children n)); by destruct (N !! x).
  - intros _. split.
    + apply NoDup_app. split_and!; [done| |done]. intros x Hx (m&Hm&Hpm)%Hch.
      assert (x ∈ bn_children nq) as Hxq by (apply Hind; by right).
      apply Hchq in Hxq as (m'&Hm'&?). congruence.
    + intros m Hm x. rewrite Hq in Hm. injection Hm as <-. rewrite elem_of_app. pose proof (Hind x). split.
      * intros [Hx|Hx]; [left; split; [tauto|congruence]|right; split; [done|congruence]].
      * intros [[? ?]|[? _]]; [left; tauto|by right].
  - right. left. by split.
  - by eapply fo_nodup.
  - intros x. split; [intros Hx; left; split; [done|congruence]|]. by intros [[? _]|(->&?&?)]; [|congruence].
  - intros h' b' ????. by apply HQ with rs.
Qed.

Lemma node_destroy_returns rindex h nx Q :
  lists (bh_trees b) R h rs → 0 < nx → 0 ≤ rindex →
  (bn_parent n = 0 → rindex ≠ 0 → rs !! Z.to_nat rindex = Some p) →
  (∀ h' nx' N' rs' b', nx ≤ nx' → same_heap b b' → heap_inv bh b' N' rs' →
    contents N' = delete p (contents N) → lists (bh_trees b) R h' rs' →
    Q (tt, mk_bworld (<[bh := b']> Hs) N' h' nx')) →
  returns (binomial_tree_node_destroy p rindex (mk_bworld Hs N h nx)) Q.
Proof using All.
  intros Hl Hnx Hi0 Hi HQ. pose proof (hi_forest _ _ _ _ Hinv) as Hf.
  destruct node_facts as (Hp0&Hbh&Hndc&Hpp&Hch&Hpn).
  pose proof (forest_length _ _ _ _ Hf). pose proof (hi_size _ _ _ _ Hinv).
  unfold binomial_tree_node_destroy. go. eapply returns_load_bn; [done|]. go.
  destruct (Z.eqb_spec (bn_parent n) 0) as [Hpar|Hpar]; go.
  - eapply (detach_root_returns Hs bh b R Hb (hi_cmp _ _ _ _ Hinv) N p n rindex rs); try done; [lia|by apply Hi| |].
    + intros h1 xs ys Hrs Hl1 Hnil. go. eapply returns_load_bn; [done|]. go. rewrite Hnil, Hbh. simpl adopt.
      apply returns_st_ret. cbv beta iota.
      eapply (destroy_leaf_root xs ys); try done. intros. eapply HQ; [lia|done..].
    + intros h1 xs ys i g ng Hrs Hl1 Hg Hfirst Hng. go.
      destruct (NoDup_delete _ _ _ Hndc Hg) as (Hndd&Hgd&Hind).
      assert (g ∈ bn_children n) as Hgin by (apply Hind; by left).
      assert (g ≠ p) as Hgp by (intros ->; done).
      eapply returns_load_bn; [by rewrite lookup_insert_ne, lookup_insert_eq|]. go. simpl bn_children.
      eapply (adopt_returns Hs (bh_trees b) R (xs ++ g :: ys) g (delete i (bn_children n))
                _ (bn_with_parent 0 ng)); try done.
      * by destruct (fo_node _ _ _ _ Hf _ _ Hng).
      * by rewrite lookup_insert_eq.
      * intros c Hc. assert (c ∈ bn_children n) as Hcn by (apply Hind; by right).
        apply Hch in Hcn as (nc&Hnc&_). rewrite !lookup_insert. repeat case_decide; by eexists.
      * intros N2 h2 nx' Hle Hl2 HN2. cbv beta iota. simpl bn_bh. rewrite Hbh.
        eapply (destroy_root xs ys i g ng N2); try done; [|intros; by eapply HQ].
        intros x. rewrite HN2. destruct (decide (x = g)) as [->|Hxg]; [done|].
        rewrite lookup_insert_ne by done. destruct (decide (x = p)) as [->|Hxp].
        { rewrite !(decide_False (P := p ∈ _)) by (intros Hx; apply Hpn, Hind; by right).
          by rewrite lookup_insert_eq. }
        by rewrite lookup_insert_ne by done.
  - destruct (fo_parent _ _ _ _ Hf _ _ Hp Hpar) as (nq&Hq&_).
    destruct (fo_node _ _ _ _ Hf _ _ Hq) as (_&_&_&_&Hchq).
    eapply (detach_child_returns Hs bh b R Hb (hi_cmp _ _ _ _ Hinv) N p _ nq); [done|apply Hchq; eauto|].
    intros i Hpi. go. eapply returns_load_bn; [by rewrite lookup_insert_ne|]. go.
    eapply (adopt_returns Hs (bh_trees b) R rs (bn_parent n) (bn_children n)); try done.
    * by rewrite lookup_insert_eq.
    * intros (m&Hm&?)%Hch. destruct (fo_rank _ _ _ _ Hf) as [rank Hrank].
      pose proof (Hrank _ _ Hm ltac:(congruence)) as Hr1. pose proof (Hrank _ _ Hp ltac:(congruence)) as Hr2.
      replace (bn_parent m) with p in Hr1 by done. lia.
    * intros c (nc&Hnc&_)%Hch. rewrite lookup_insert. case_decide; by eexists.
    * intros N2 h2 nx' Hle Hl2 HN2. cbv beta iota. rewrite Hbh.
      eapply (destroy_child i (bn_parent n) nq N2); try done; [|intros; by eapply HQ].
      intros x. rewrite HN2. destruct (decide (x = bn_parent n)) as [->|Hxq]; [done|].
      by rewrite lookup_insert_ne by done.
Qed.
End destroy.
