(* ===== verification/BinheapInsert.v ===== *)
(** * Inserting into a binomial heap

    [binheap_insert] of src/src/binheap.c: trees of the same order are merged
    until the orders differ, and the head is recomputed. *)

From S2P Require Import Prelude Linklist LinklistRemove Comparators Binheap BinheapForest BinheapOps.
From S2P Require Import BinheapRemove.

Section insert.
Context {cmp : libhl_cmp_callback_t} {ok : key → Prop} `{!Comparator cmp ok}.
Context (Hs : gmap Z binheap_t) (bh : Z) (b : binheap_t) (R : gmap Z obj).
Context (Hb : Hs !! bh = Some b) (Hcmp : Binheap.cmp (bh_cbs b) = cmp).

Lemma merge_returns N a c na nc h nx Q :
  alloc_ok h → 0 < nx → a ≠ c → N !! a = Some na → N !! c = Some nc →
  Q (0, mk_bworld Hs (attach a c na nc N) (answered h) (nx + 1)) →
  returns (binomial_tree_merge a c (mk_bworld Hs N h nx)) Q.
Proof using All.
  intros Hal Hnx Hac Ha Hc HQ. unfold binomial_tree_merge, push_child. go.
  apply returns_new_block; [done|]. rewrite (proj2 (Z.eqb_neq nx 0)) by lia. go.
  eapply returns_set_bn; [done|]. go. go. eapply returns_set_bn; [by rewrite lookup_insert_ne|]. go. exact HQ.
Qed.

(** The new tree, the next one and the trees left in the list. *)
Definition pending (node tree : Z) (l : list Z) : list Z :=
  if decide (tree = 0) then [node] else node :: tree :: l.

Definition insert_inv (C : gmap Z (key * Z)) (M nx : Z) (x : Z * Z * Z) (w : bworld) : Prop :=
  let '(node, tree, order) := x in
  0 ≤ order ∧ ∃ N h nx' l, w = mk_bworld Hs N h nx' ∧ nx ≤ nx' ∧ lists (bh_trees b) R h l ∧
    contents N = C ∧ forest (ok := ok) (bh_mode b) bh N (pending node tree l) ∧
    (tree = 0 → l = []) ∧ Z.of_nat (length (pending node tree l)) + order ≤ M.

Lemma insert_loop_returns C M nx node tree w (Q : Z * Z * bworld → Prop) :
  0 < nx → 0 ≤ M < 2 ^ 64 → insert_inv C M nx (node, tree, 0) w →
  (∀ node' tree' N h nx' l, nx ≤ nx' → lists (bh_trees b) R h l → contents N = C →
    forest (ok := ok) (bh_mode b) bh N (pending node' tree' l) → (tree' = 0 → l = []) →
    Z.of_nat (length (pending node' tree' l)) ≤ M →
    Q (node', tree', mk_bworld Hs N h nx')) →
  returns (loopS (insert_body b) (node, tree, 0) w) Q.
Proof using All.
  intros Hnx HM HI HQ.
  apply (loopS_returns _ (insert_inv C M nx) (λ '(_, _, order) _, M - order)); [|done|lia].
  clear node tree w HI. intros [[node tree] order] w (Ho&N&h&nx'&l&->&Hnx'&Hl&HC&Hf&Hnil&Hlen) _.
  unfold insert_body. destruct (Z.eqb_spec tree 0) as [->|Ht]; [go; apply (HQ _ _ _ _ _ l); auto; lia|].
  unfold pending in Hf. rewrite decide_False in Hf by done.
  assert (∃ t, N !! tree = Some t ∧ ok (bn_key t)) as (t&Ht'&Hokt).
  { apply (forest_known _ _ _ _ Hf). right. by left. }
  assert (∃ n, N !! node = Some n ∧ ok (bn_key n)) as (n&Hn&Hokn).
  { apply (forest_known _ _ _ _ Hf). by left. }
  assert (node ≠ tree) as Hne.
  { intros ->. pose proof (fo_nodup _ _ _ _ Hf) as Hnd. apply NoDup_cons in Hnd as [Hnd _]. apply Hnd. by left. }
  go. eapply returns_load_bn; [done|]. go. destruct (negb _) eqn:E; go.
  { apply (HQ _ _ _ _ _ l); try done; [|lia]. unfold pending. by rewrite decide_False. }
  eapply returns_load_bn; [done|]. go. rewrite (HAS_PRECEDENCE_ret b _ _ (bh_mode b)) by done. go.
  assert (∀ x N', nx ≤ nx' + 1 → contents N' = C → forest (ok := ok) (bh_mode b) bh N' (x :: l) →
    returns (on_list (list_shift_value (bh_trees b)) (mk_bworld Hs N' (answered h) (nx' + 1)))
      (λ '(tree, w'), insert_inv C M nx (x, tree, order + 1) w' ∧ order + 1 ≤ M)) as Hnext.
  { intros x N' Hnx2 HC' Hf'. apply returns_on_list. eapply (shift_roots (bh_trees b) R _ l); [by apply lists_answered|].
    intros h2 Hl2. unfold pending in Hlen. rewrite decide_False in Hlen by done. simpl in Hlen.
    split; [|lia]. split; [lia|]. exists N', h2, (nx' + 1), (tail l). split_and!; try done.
    - unfold pending. destruct l as [|y l]; simpl in *; [done|]. rewrite decide_False; [done|].
      intros ->. apply (forest_known _ _ _ _ Hf'). right. by left.
    - destruct l as [|y l]; [done|]. simpl. intros ->. exfalso. apply (forest_known _ _ _ _ Hf'). right. by left.
    - unfold pending. destruct l as [|y l]; simpl in *; try case_decide; simpl; lia. }
  apply lists_alloc in Hl as Hal. case_bool_decide as Hpre; go.
  - eapply (merge_returns N node tree n t); try done; [lia|]. go.
    eapply returns_mono; [apply (Hnext node)|]; [lia|by rewrite contents_attach|by eapply forest_attach|].
    intros [tree' w'] [HI ?]. go. split; [exact HI|lia].
  - eapply (merge_returns N tree node t n); try done; [lia|]. go.
    eapply returns_mono; [apply (Hnext tree)|]; [lia|by rewrite contents_attach| |].
    + eapply forest_attach; [|done|done|by destruct (precedes_total (bh_mode b) (bn_key n) (bn_key t))].
      eapply forest_perm; [exact Hf|]. constructor.
    + intros [tree' w'] [HI ?]. go. split; [exact HI|lia].
Qed.

(** The two lists the trees left go back to. *)
Lemma unshift_pending {A} (f : B A) node tree l N h nx (Q : A * bworld → Prop) :
  lists (bh_trees b) R h l → (tree = 0 → l = []) →
  Z.of_nat (length (pending node tree l)) + 1 < INT_MAX →
  (∀ h', lists (bh_trees b) R h' (pending node tree l) → returns (f (mk_bworld Hs N h' nx)) Q) →
  returns ((_ ← (if tree =? 0 then mret 0 else on_list (list_unshift_value (bh_trees b) tree));
            _ ← on_list (list_unshift_value (bh_trees b) node); f) (mk_bworld Hs N h nx)) Q.
Proof using All.
  intros Hl Hnil Hlen HQ. unfold pending in *. destruct (Z.eqb_spec tree 0) as [->|Ht].
  - rewrite (Hnil eq_refl) in *. apply returns_st_bind, returns_st_ret, returns_st_bind, returns_on_list.
    eapply unshift_roots; [done|simpl in *; int_bounds; lia|]. intros h' Hl'. by apply HQ.
  - rewrite decide_False in * by done. simpl in Hlen. apply returns_st_bind, returns_on_list.
    eapply unshift_roots; [done|simpl in *; int_bounds; lia|]. intros h1 Hl1.
    apply returns_st_bind, returns_on_list.
    eapply unshift_roots; [done|simpl in *; int_bounds; lia|]. intros h' Hl'. by apply HQ.
Qed.

Lemma binheap_insert_returns N rs k v h nx (Q : Z * bworld → Prop) :
  heap_inv bh b N rs → lists (bh_trees b) R h rs → Z.of_nat (size N) + 3 < INT_MAX → ok k →
  0 < nx → (∀ p, is_Some (N !! p) → p < nx) →
  (∀ h' nx' N' rs' b', nx < nx' → same_heap b b' → heap_inv bh b' N' rs' →
    contents N' = <[nx := (k, v)]> (contents N) → lists (bh_trees b) R h' rs' →
    Q (0, mk_bworld (<[bh := b']> Hs) N' h' nx')) →
  returns (binheap_insert bh k v (mk_bworld Hs N h nx)) Q.
Proof using All.
  intros Hinv Hl Hsz Hk Hnx Hfresh HQ. pose proof (hi_forest _ _ _ _ Hinv) as Hf.
  pose proof (hi_count _ _ _ _ Hinv) as Hcount. pose proof (forest_length _ _ _ _ Hf) as Hlen.
  assert (N !! nx = None) as HNnx.
  { apply eq_None_not_Some. intros Hs'. specialize (Hfresh _ Hs'). lia. }
  unfold binheap_insert. go. apply returns_new_block; [by eapply lists_alloc|].
  rewrite (proj2 (Z.eqb_neq nx 0)) by lia. go.
  apply lists_answered in Hl. apply returns_new_block; [by eapply lists_alloc|]. apply lists_answered in Hl.
  rewrite (proj2 (Z.eqb_neq (nx + 1) 0)) by lia. go. simpl.
  eapply returns_load_bh; [done|]. go. apply returns_on_list.
  eapply (shift_roots _ R _ rs); [done|]. intros h1 Hl1. go.
  set (N1 := <[nx := mk_bnode k v 0 [] bh]> N).
  assert (forest (ok := ok) (bh_mode b) bh N1 (nx :: rs)) as Hf1 by (apply forest_new; [done|done|lia|done]).
  assert (contents N1 = <[nx := (k, v)]> (contents N)) as HC1 by (unfold contents, N1; by rewrite fmap_insert).
  assert (size N1 = S (size N)) as Hsz1 by (unfold N1; by rewrite map_size_insert_None).
  assert (nx :: rs = pending nx (default 0 (head rs)) (tail rs)) as Hpend.
  { unfold pending. destruct rs as [|r rs']; [done|]. simpl. rewrite decide_False; [done|].
    intros ->. apply (forest_known _ _ _ _ Hf). by left. }
  eapply (insert_loop_returns (contents N1) (Z.of_nat (S (length rs))) (nx + 1 + 1)); [lia| | |].
  { unfold INT_MAX in *. lia. }
  { split; [lia|]. exists N1, h1, (nx + 1 + 1), (tail rs). rewrite <- Hpend.
    split_and!; try done; try (simpl; lia).
    destruct rs as [|r rs']; [done|]. simpl. intros ->. exfalso. apply (forest_known _ _ _ _ Hf). by left. }
  intros node tree N' h2 nx' l Hnx' Hl2 HC' Hf' Hnil HM. cbv beta iota.
  assert (size N' = size N1) as Hsz'.
  { rewrite <- (map_size_fmap kv N'), <- (map_size_fmap kv N1). fold (contents N') (contents N1). by rewrite HC'. }
  assert (Hs !! bh = Some b) as Hb' by done.
  eapply (unshift_pending _ node tree l); [done|done|int_bounds; lia|]. intros h3 Hl3.
  go. eapply returns_set_bh; [done|]. go.
  set (b1 := bh_with_count (bh_count b + 1) b).
  assert (∀ r, heads (bh_mode b) N' r →
    heap_inv bh (bh_with_head r b1) N' (pending node tree l)) as Hinv'.
  { intros r Hr. split; simpl; try done; [lia|lia|by right]. }
  destruct (Z.eqb_spec (bh_head b) 0) as [Hhd|Hhd].
  - destruct (hi_head _ _ _ _ Hinv) as [[HN _]|(m&Hm&_)].
    2:{ rewrite Hhd in Hm. by destruct (fo_node _ _ _ _ Hf _ _ Hm). }
    go. eapply returns_set_bh; [by rewrite lookup_insert_eq|]. go. rewrite insert_insert_eq.
    assert (rs = []) as -> by (apply length_zero_iff_nil; rewrite HN, map_size_empty in Hlen; lia).
    assert (pending node tree l = [node]) as Hone.
    { simpl in HM. unfold pending in *. case_decide; [done|]. simpl in HM. lia. }
    eapply HQ; [lia|done|apply Hinv'|by rewrite HC'|done].
    eapply heads_first; [exact Hf'|]. rewrite Hone. split; [by left|].
    destruct (forest_known _ _ _ _ Hf') as [Hk' _]. destruct (Hk' node) as (m&Hm&Hokm); [rewrite Hone; by left|].
    exists m. split; [done|]. intros q mq ->%list_elem_of_singleton Hmq. simplify_eq. by apply precedes_refl.
  - go. destruct (forest_known _ _ _ _ Hf') as [Hk' H0'].
    eapply (UPDATE_HEAD_returns _ N' (bh_trees b) R bh b1); try done; [by rewrite lookup_insert_eq|].
    intros h4 r Hl4 Hr. go. rewrite insert_insert_eq. eapply HQ; [lia|done|apply Hinv'|by rewrite HC'|done].
    destruct Hr as [[Hnil' _]|Hr]; [|by eapply heads_first].
    unfold pending in Hnil'. by case_decide.
Qed.
End insert.
