(* ===== verification/BinheapSearch.v ===== *)
(** * Searching a key in a binomial heap

    The loops of [binheap_delete] of src/src/binheap.c: the root, then the
    child, that comes last among those that precede the key.  The search can
    miss a key; it does not when nothing precedes the key. *)

From S2P Require Import Prelude Linklist LinklistRemove Comparators Binheap BinheapForest BinheapOps.
From S2P Require Import BinheapRemove.

Section search.
Context {cmp : libhl_cmp_callback_t} {ok : key → Prop} `{!Comparator cmp ok}.
Context (Hs : gmap Z binheap_t) (bh : Z) (b : binheap_t) (N : nodes) (rs : list Z).
Context (Hb : Hs !! bh = Some b) (Hcmp : Binheap.cmp (bh_cbs b) = cmp).
Context (Hf : forest (ok := ok) (bh_mode b) bh N rs).
Context (k : key) (Hk : ok k).

(** What is found among the nodes [ps]: null, or one of them that precedes the
    key. *)
Definition found_in (ps : list Z) (x : Z) : Prop :=
  x = 0 ∧ (∀ p n, p ∈ ps → N !! p = Some n → ¬ precedes (bh_mode b) (bn_key n) k) ∨
  x ∈ ps ∧ ∃ n, N !! x = Some n ∧ precedes (bh_mode b) (bn_key n) k.

Lemma node_ok p n : N !! p = Some n → p ≠ 0 ∧ ok (bn_key n).
Proof using Hf. intros Hn. by destruct (fo_node _ _ _ _ Hf _ _ Hn) as (?&?&_). Qed.

Lemma narrow_returns ps tree cur h nx Q :
  found_in ps tree → is_Some (N !! cur) → (tree ≠ 0 → is_Some (N !! tree)) →
  (∀ x, found_in (ps ++ [cur]) x → Q (x, mk_bworld Hs N h nx)) →
  returns (narrow b k tree cur (mk_bworld Hs N h nx)) Q.
Proof using All.
  intros Hfound [nc Hcur] Htree HQ. destruct (node_ok _ _ Hcur) as [_ Hokc].
  unfold narrow. go. eapply returns_load_bn; [done|]. go.
  rewrite (HAS_PRECEDENCE_ret b _ _ (bh_mode b)) by done. go.
  case_bool_decide as Hpre; go.
  - assert (found_in (ps ++ [cur]) cur) as Hnew.
    { right. split; [apply elem_of_app; right; by left|]. eauto. }
    destruct (Z.eqb_spec tree 0) as [->|Ht]; go; [by apply HQ|].
    destruct (Htree Ht) as [t Ht']. destruct (node_ok _ _ Ht') as [_ Hokt].
    eapply returns_load_bn; [done|]. go. rewrite (HAS_PRECEDENCE_ret b _ _ (bh_mode b)) by done. go.
    apply HQ. case_bool_decide; [done|]. destruct Hfound as [[? _]|[Hin Hn]]; [done|].
    right. split; [apply elem_of_app; by left|done].
  - apply HQ. destruct Hfound as [[-> Hno]|[Hin Hn]]; [left|right].
    + split; [done|]. intros p n [Hp|Hp%list_elem_of_singleton]%elem_of_app Hn; [by eapply Hno|]. by simplify_eq.
    + split; [apply elem_of_app; by left|done].
Qed.

Lemma found_some ps x : found_in ps x → x ≠ 0 → is_Some (N !! x).
Proof. intros [[? _]|[_ (n&Hn&_)]] ?; [done|by eexists]. Qed.

Lemma narrow_children_returns pre cs x h nx Q :
  (∀ c, c ∈ cs → is_Some (N !! c)) → found_in pre x →
  (∀ x, found_in (pre ++ cs) x → Q (x, mk_bworld Hs N h nx)) →
  returns (narrow_children b k x cs (mk_bworld Hs N h nx)) Q.
Proof using All.
  revert pre x. induction cs as [|c cs IH]; intros pre x Hcs Hx HQ; simpl.
  - go. apply HQ. by rewrite app_nil_r.
  - go. eapply (narrow_returns pre x c); [done|apply Hcs; by left|by eapply found_some|].
    intros y Hy. eapply (IH (pre ++ [c])); [intros d Hd; apply Hcs; by right|done|].
    intros z Hz. apply HQ. by rewrite <- app_assoc in Hz.
Qed.

(** The choice of the root. *)
Lemma delete_root_returns R h nx (Q : Z * bworld → Prop) :
  lists (bh_trees b) R h rs →
  (∀ h' x, lists (bh_trees b) R h' rs → found_in rs x → Q (x, mk_bworld Hs N h' nx)) →
  returns (loopS (delete_root_body bh k) (0, 0) (mk_bworld Hs N h nx)) Q.
Proof using All.
  intros Hl HQ. assert (Z.of_nat (length rs) + 1 < INT_MAX) as Hlen by apply Hl. unfold INT_MAX in Hlen.
  apply (loopS_returns _ (λ '(i, tree) w, 0 ≤ i ≤ Z.of_nat (length rs) ∧
      ∃ h, w = mk_bworld Hs N h nx ∧ lists (bh_trees b) R h rs ∧ found_in (take (Z.to_nat i) rs) tree)
    (λ '(i, _) _, Z.of_nat (length rs) - i)); [| |lia].
  2:{ split; [lia|]. exists h. split_and!; [done|done|left]. split; [done|]. by intros p n ?%elem_of_nil. }
  intros [i tree] w (Hi&h1&->&Hl1&Hfound) _. unfold delete_root_body. go.
  eapply returns_load_bh; [done|]. go. apply returns_on_list.
  apply (count_roots _ R _ rs); [done|]. intros h2 Hl2. rewrite as_int_u32 by (int_bounds; lia).
  destruct (Z.leb_spec (Z.of_nat (length rs)) i) as [Hle|Hlt]; go.
  { apply HQ; [done|]. by rewrite take_ge in Hfound by lia. }
  apply returns_on_list. apply (pick_roots _ R _ rs); [done|lia|]. intros h3 cur Hcur Hl3. go.
  eapply (narrow_returns (take (Z.to_nat i) rs)); [done| |by eapply found_some|].
  - apply list_elem_of_lookup_2 in Hcur. apply (fo_root _ _ _ _ Hf) in Hcur as (n&Hn&_). by eexists.
  - intros x Hx. go. split; [|lia]. split; [lia|]. exists h3. split_and!; [done|done|].
    replace (Z.to_nat (i + 1)) with (S (Z.to_nat i)) by lia. by erewrite take_S_r.
Qed.

(** The descent to the key. *)
Lemma delete_down_returns x h nx (Q : Z * bworld → Prop) :
  Z.of_nat (size N) < INT_MAX → (x ≠ 0 → is_Some (N !! x)) →
  (∀ y, (y = 0 ∨ ∃ n, N !! y = Some n ∧ cmp_sign (bn_key n) k = 0) →
    (∀ n, N !! x = Some n → cmp_sign (bn_key n) k = 0 → y = x) → Q (y, mk_bworld Hs N h nx)) →
  returns (loopS (delete_down_body b k) x (mk_bworld Hs N h nx)) Q.
Proof using All.
  intros Hsz Hx HQ. destruct (fo_rank _ _ _ _ Hf) as [rank Hrank].
  pose proof (below_bound rank N x). unfold INT_MAX in Hsz.
  apply (loopS_returns _ (λ y w, w = mk_bworld Hs N h nx ∧ (y ≠ 0 → is_Some (N !! y)) ∧
      (∀ n, N !! x = Some n → cmp_sign (bn_key n) k = 0 → y = x))
    (λ y _, if y =? 0 then 0 else 1 + below rank N y)); [|done|destruct (x =? 0); lia].
  intros y w (->&Hy&Hstay) _. unfold delete_down_body.
  destruct (Z.eqb_spec y 0) as [->|Hy0]; [go; apply HQ; [by left|done]|].
  destruct (Hy Hy0) as [n Hn]. destruct (node_ok _ _ Hn) as [_ Hok].
  go. eapply returns_load_bn; [done|]. go. rewrite Hcmp, (cmp_ret (bn_key n) k) by done. go.
  destruct (Z.eqb_spec (cmp_sign (bn_key n) k) 0) as [E|E]; go; [apply HQ; [right; eauto|done]|].
  destruct (fo_node _ _ _ _ Hf _ _ Hn) as (_&_&_&_&Hch).
  assert (∀ c, c ∈ bn_children n → is_Some (N !! c)) as Hcs by (intros c (nc&Hnc&_)%Hch; by eexists).
  eapply (narrow_children_returns [] (bn_children n) 0); [done|left; split; [done|by intros p m ?%elem_of_nil]|].
  intros z Hz. go. split; [split_and!; [done|by eapply found_some|]|].
  - intros m Hm Em. rewrite (Hstay m Hm Em) in *. simplify_eq.
  - pose proof (below_bound rank N y). destruct (Z.eqb_spec z 0) as [->|Hz0]; [lia|].
    destruct Hz as [[? _]|[Hzin _]]; [done|]. apply Hch in Hzin as (nz&Hnz&Hp).
    pose proof (Hrank _ _ Hnz ltac:(congruence)) as Hr. rewrite Hp in Hr.
    pose proof (below_decreases rank N y z nz Hnz Hr). pose proof (below_bound rank N z). lia.
Qed.

(** A key that nothing precedes is not missed: the root chosen has it. *)
Lemma found_first x p n :
  N !! p = Some n → cmp_sign (bn_key n) k = 0 →
  (∀ q m, N !! q = Some m → precedes (bh_mode b) (bn_key n) (bn_key m)) →
  found_in rs x → ∃ nx, N !! x = Some nx ∧ cmp_sign (bn_key nx) k = 0.
Proof using All.
  intros Hn E Hall Hx. destruct (node_ok _ _ Hn) as [_ Hok].
  destruct (forest_above _ _ _ _ _ _ Hf Hn) as (r&nr&Hr&Hnr&Hpre).
  destruct (node_ok _ _ Hnr) as [_ Hokr].
  pose proof (cmp_anti (bn_key n) k Hok Hk) as Ha1. pose proof (cmp_anti k (bn_key n) Hk Hok) as Ha2.
  assert (precedes (bh_mode b) (bn_key n) k ∧ precedes (bh_mode b) k (bn_key n)) as [Hnk Hkn]
    by (unfold precedes; destruct (bh_mode b); split; lia).
  destruct Hx as [[_ Hno]|[_ (m&Hm&Hmk)]].
  - exfalso. eapply (Hno r nr); [done|done|]. eapply precedes_trans; [exact Hokr|exact Hok| | |]; done.
  - exists m. split; [done|]. destruct (node_ok _ _ Hm) as [_ Hokm].
    assert (precedes (bh_mode b) k (bn_key m)) as Hkm.
    { eapply precedes_trans; [exact Hk|exact Hok| | |]; [done|done|]. by eapply Hall. }
    pose proof (cmp_anti (bn_key m) k Hokm Hk). pose proof (cmp_anti k (bn_key m) Hk Hokm).
    unfold precedes in *. destruct (bh_mode b); lia.
Qed.
End search.
