(* ===== verification/BinheapSpec.v ===== *)
(** * Binomial heaps implement priority queues

    The specification of src/src/binheap.c is a queue of pairs of a key and a
    value, a multiset given by a list up to permutation.  A run of operations
    on a heap is a run of the specification; destroying the heap frees it. *)

From S2P Require Import Prelude Linklist LinklistRemove Comparators Binheap BinheapForest BinheapOps.
From S2P Require Import BinheapRemove BinheapInsert BinheapSearch.

(** ** Operations and results *)

(** [QTop] and [QDeleteTop] are those of the end the heap is ordered by,
    [QBottom] and [QDeleteBottom] those of the other one. *)
Inductive qop :=
  | QInsert (k : key) (v : Z) | QTop | QDeleteTop | QDelete (k : key) | QBottom | QDeleteBottom | QCount.
Inductive qres :=
  | RInt (rc : Z) | RItem (rc : Z) (item : option (key * Z)) | RValue (rc : Z) (v : option Z).

Definition is_min (mode : binheap_mode_t) : bool :=
  match mode with BINHEAP_MODE_MAX => false | BINHEAP_MODE_MIN => true end.
Definition end_item (is_min : bool) : Z → B (Z * option (key * Z)) :=
  if is_min then binheap_minimum else binheap_maximum.
Definition delete_end (is_min : bool) : Z → B (Z * option Z) :=
  if is_min then binheap_delete_minimum else binheap_delete_maximum.

Definition run_qop (mode : binheap_mode_t) (bh : Z) (o : qop) : B qres :=
  match o with
  | QInsert k v => rc ← binheap_insert bh k v; mret (RInt rc)
  | QTop => '(rc, i) ← end_item (is_min mode) bh; mret (RItem rc i)
  | QBottom => '(rc, i) ← end_item (negb (is_min mode)) bh; mret (RItem rc i)
  | QDeleteTop => '(rc, v) ← delete_end (is_min mode) bh; mret (RValue rc v)
  | QDeleteBottom => '(rc, v) ← delete_end (negb (is_min mode)) bh; mret (RValue rc v)
  | QDelete k => '(rc, v) ← binheap_delete bh k true; mret (RValue rc v)
  | QCount => n ← binheap_count bh; mret (RInt n)
  end.
Fixpoint run_qops (mode : binheap_mode_t) (bh : Z) (os : list qop) : B (list qres) :=
  match os with
  | [] => mret []
  | o :: os => r ← run_qop mode bh o; rs ← run_qops mode bh os; mret (r :: rs)
  end.

(** ** The specification *)

Section spec.
Context {cmp : libhl_cmp_callback_t} {ok : key → Prop} `{!Comparator cmp ok}.

Abbreviation items := (list (key * Z)).

(** The key of [x] precedes those of the queue. *)
Definition first_item (mode : binheap_mode_t) (s : items) (x : key * Z) : Prop :=
  x ∈ s ∧ ∀ y, y ∈ s → precedes mode x.1 y.1.

Inductive qstep (mode : binheap_mode_t) : items → qop → qres → items → Prop :=
  | q_insert s k v s' : s' ≡ₚ (k, v) :: s → qstep mode s (QInsert k v) (RInt 0) s'
  | q_top_empty : qstep mode [] QTop (RItem (-1) None) []
  | q_top s x : first_item mode s x → qstep mode s QTop (RItem 0 (Some x)) s
  | q_delete_top_empty : qstep mode [] QDeleteTop (RValue (-1) None) []
  | q_delete_top s x s' :
      first_item mode s x → s ≡ₚ x :: s' → qstep mode s QDeleteTop (RValue 0 (Some x.2)) s'
  | q_delete s k x s' :
      cmp_sign x.1 k = 0 → s ≡ₚ x :: s' → qstep mode s (QDelete k) (RValue 0 (Some x.2)) s'
  | q_delete_missed s k :
      (∀ x, first_item mode s x → cmp_sign x.1 k ≠ 0) →
      qstep mode s (QDelete k) (RValue (-1) None) s
  | q_bottom_empty : qstep mode [] QBottom (RItem (-1) None) []
  | q_bottom s x : x ∈ s → qstep mode s QBottom (RItem 0 (Some x)) s
  | q_delete_bottom_empty : qstep mode [] QDeleteBottom (RValue (-1) None) []
  | q_delete_bottom s x s' : s ≡ₚ x :: s' → qstep mode s QDeleteBottom (RValue 0 (Some x.2)) s'
  | q_count s : qstep mode s QCount (RInt (Z.of_nat (length s))) s.

Inductive qsteps (mode : binheap_mode_t) : items → list qop → list qres → items → Prop :=
  | qsteps_nil s : qsteps mode s [] [] s
  | qsteps_cons s o r s1 os rs s2 :
      qstep mode s o r s1 → qsteps mode s1 os rs s2 → qsteps mode s (o :: os) (r :: rs) s2.

(** The keys given to the operations are in the domain of the order. *)
Definition op_ok (o : qop) : Prop :=
  match o with QInsert k _ | QDelete k => ok k | _ => True end.

(** ** The heap of a queue *)

(** [F] and [R] are the other heaps and the rest of the store of the lists;
    the addresses of new blocks start at [lo] or later. *)
Definition queue_of (N : nodes) : items := (map_to_list (contents N)).*2.

Definition rep (bh : Z) (mode : binheap_mode_t) (trees : Z) (F : gmap Z binheap_t) (R : gmap Z obj) (lo : Z)
    (s : items) (w : bworld) : Prop :=
  ∃ b N rs, bw_heaps w !! bh = Some b ∧ delete bh (bw_heaps w) = F ∧ bw_nodes w = N ∧
    bh_mode b = mode ∧ bh_trees b = trees ∧ heap_inv (ok := ok) bh b N rs ∧ lists (bh_trees b) R (bw_heap w) rs ∧
    0 < lo ≤ bw_next w ∧ (∀ p, is_Some (N !! p) → p < bw_next w) ∧ s ≡ₚ queue_of N.

Lemma queue_elem N x : x ∈ queue_of N ↔ ∃ p n, N !! p = Some n ∧ x = kv n.
Proof.
  unfold queue_of. rewrite list_elem_of_fmap. split.
  - intros ([p y]&->&Hp%elem_of_map_to_list). unfold contents in Hp.
    apply lookup_fmap_Some in Hp as (n&<-&Hn). by exists p, n.
  - intros (p&n&Hn&->). exists (p, kv n). split; [done|]. apply elem_of_map_to_list.
    unfold contents. by rewrite lookup_fmap, Hn.
Qed.
Lemma queue_length N : length (queue_of N) = size N.
Proof. unfold queue_of. rewrite length_fmap, length_map_to_list. unfold contents. by rewrite map_size_fmap. Qed.
Lemma queue_delete N N' p n :
  N !! p = Some n → contents N' = delete p (contents N) → queue_of N ≡ₚ kv n :: queue_of N'.
Proof.
  intros Hn HC. unfold queue_of. rewrite HC, <- (map_to_list_delete (contents N) p (kv n)); [done|].
  unfold contents. by rewrite lookup_fmap, Hn.
Qed.
Lemma queue_insert N N' p k v :
  N !! p = None → contents N' = <[p := (k, v)]> (contents N) → queue_of N' ≡ₚ (k, v) :: queue_of N.
Proof.
  intros Hn HC. unfold queue_of. rewrite HC, map_to_list_insert; [done|].
  unfold contents. by rewrite lookup_fmap, Hn.
Qed.
Lemma contents_is_Some N p : is_Some (contents N !! p) ↔ is_Some (N !! p).
Proof. unfold contents. by rewrite lookup_fmap, fmap_is_Some. Qed.

Lemma heads_item mode N r :
  heads (ok := ok) mode N r → ∃ n, N !! r = Some n ∧ bn_parent n = 0 ∧ first_item mode (queue_of N) (kv n).
Proof.
  intros (n&Hn&Hpar&Hall). exists n. split_and!; [done|done|]. split; [apply queue_elem; eauto|].
  intros y (p&m&Hm&->)%queue_elem. by eapply Hall.
Qed.
Lemma first_item_perm mode s s' x : s ≡ₚ s' → first_item mode s x → first_item mode s' x.
Proof.
  intros HP [Hx Hall]. split; [by rewrite <- HP|]. intros y Hy. apply Hall. by rewrite HP.
Qed.

(** ** Each operation refines its specification *)

Section ops.
Context (bh : Z) (mode : binheap_mode_t) (trees : Z) (F : gmap Z binheap_t) (R : gmap Z obj) (lo : Z).

Lemma mode_end b : bh_mode b = mode → bh_mode b = end_mode (is_min mode).
Proof. intros ->. by destruct mode. Qed.
Lemma mode_other_end b : bh_mode b = mode → bh_mode b ≠ end_mode (negb (is_min mode)).
Proof. intros ->. by destruct mode. Qed.

(** The end the heap is ordered by is its head. *)
Lemma get_top Hs b N rs h nx (Q : Z * option Z * bworld → Prop) :
  Hs !! bh = Some b → bh_mode b = mode → heap_inv (ok := ok) bh b N rs → lists (bh_trees b) R h rs →
  (∀ h', lists (bh_trees b) R h' rs → Q (bh_head b, None, mk_bworld Hs N h' nx)) →
  returns (get_end (is_min mode) bh (mk_bworld Hs N h nx)) Q.
Proof using All.
  intros Hb Hm Hinv Hl HQ. pose proof (hi_forest _ _ _ _ Hinv) as Hf.
  destruct (forest_known _ _ _ _ Hf) as [Hk H0].
  destruct (decide (bh_head b = 0)) as [E|E].
  - assert (rs = []) as ->.
    { destruct (hi_head _ _ _ _ Hinv) as [[HN _]|(n&Hn&_)].
      - pose proof (forest_length _ _ _ _ Hf) as Hlen. rewrite HN, map_size_empty in Hlen.
        apply length_zero_iff_nil. lia.
      - rewrite E in Hn. by destruct (fo_node _ _ _ _ Hf _ _ Hn). }
    eapply (get_top_returns Hs N (bh_trees b) R _ bh b h nx []); try done.
    + apply Hinv.
    + by apply mode_end.
    + intros h' Hl' _. rewrite <- E. by apply HQ.
    + intros h' i r _ [Hr _]. by apply elem_of_nil in Hr.
  - eapply get_head_returns; [done|done|by apply mode_end|]. by apply HQ.
Qed.

(** The head is null when the queue is empty, and a first item otherwise. *)
Lemma head_item b N rs :
  bh_mode b = mode → heap_inv (ok := ok) bh b N rs →
  bh_head b = 0 ∧ queue_of N = [] ∨
  bh_head b ≠ 0 ∧ ∃ n, N !! bh_head b = Some n ∧ bn_parent n = 0 ∧ first_item mode (queue_of N) (kv n).
Proof using All.
  intros Hm Hinv. destruct (hi_head _ _ _ _ Hinv) as [[-> ->]|Hh]; [by left|right].
  rewrite Hm in Hh. destruct (heads_item _ _ _ Hh) as (n&Hn&Hpar&Hfirst).
  split; [|eauto]. by destruct (fo_node _ _ _ _ (hi_forest _ _ _ _ Hinv) _ _ Hn).
Qed.

Lemma perm_nil N (s : items) : s ≡ₚ queue_of N → queue_of N = [] → s = [].
Proof. intros HP E. rewrite E in HP. by apply Permutation_nil_r in HP. Qed.

Lemma top_refines s w :
  rep bh mode trees F R lo s w →
  returns (run_qop mode bh QTop w) (λ '(r, w'), qstep mode s QTop r s ∧ rep bh mode trees F R lo s w').
Proof using All.
  destruct w as [Hs N0 h nx]. intros (b&N&rs&Hb&HF&HN&Hm&Htr&Hinv&Hl&Hnx&Hfresh&Hs'). simpl in *. subst N0.
  assert (returns (end_item (is_min mode) bh (mk_bworld Hs N h nx)) (λ '(rc, i, w'),
    ∃ h', lists (bh_trees b) R h' rs ∧ w' = mk_bworld Hs N h' nx ∧
    (rc = -1 ∧ i = None ∧ queue_of N = [] ∨
     rc = 0 ∧ ∃ x, i = Some x ∧ first_item mode (queue_of N) x))) as Hend.
  { assert (∀ o : Z, o = bh_head b → ∀ h', lists (bh_trees b) R h' rs →
      returns ((if o =? 0 then mret (-1, None) else n ← load_bn o; mret (0, Some (bn_key n, bn_value n)))
        (mk_bworld Hs N h' nx)) (λ '(rc, i, w'),
        ∃ h', lists (bh_trees b) R h' rs ∧ w' = mk_bworld Hs N h' nx ∧
        (rc = -1 ∧ i = None ∧ queue_of N = [] ∨
         rc = 0 ∧ ∃ x, i = Some x ∧ first_item mode (queue_of N) x))) as Hget.
    { intros o -> h' Hl'. destruct (head_item b N rs Hm Hinv) as [[-> E]|[E (n&Hn&_&Hfirst)]].
      - simpl. eauto 7.
      - rewrite (proj2 (Z.eqb_neq _ 0)) by done. go. eapply returns_load_bn; [done|]. go.
        exists h'. split_and!; [done|done|]. right. eauto. }
    pose proof (get_top Hs b N rs h nx) as Hgt.
    unfold end_item. destruct (is_min mode); unfold binheap_minimum, binheap_maximum; go;
      (eapply Hgt; try done); intros h' Hl'; cbv beta iota; by apply Hget. }
  simpl. go. eapply returns_mono; [exact Hend|]. intros [[rc i] w'] (h'&Hl'&->&Hcase). go. split.
  - destruct Hcase as [(->&->&E)|(->&x&->&Hx)].
    + rewrite (perm_nil N s Hs' E). constructor.
    + apply q_top. by eapply first_item_perm.
  - exists b, N, rs. simpl. split_and!; done || lia.
Qed.

Lemma bottom_refines s w :
  rep bh mode trees F R lo s w →
  returns (run_qop mode bh QBottom w) (λ '(r, w'), qstep mode s QBottom r s ∧ rep bh mode trees F R lo s w').
Proof using All.
  destruct w as [Hs N0 h nx]. intros (b&N&rs&Hb&HF&HN&Hm&Htr&Hinv&Hl&Hnx&Hfresh&Hs'). simpl in *. subst N0.
  pose proof (hi_size _ _ _ _ Hinv) as Hsz.
  assert (returns (end_item (negb (is_min mode)) bh (mk_bworld Hs N h nx)) (λ '(rc, i, w'),
    ∃ h', lists (bh_trees b) R h' rs ∧ w' = mk_bworld Hs N h' nx ∧
    (rc = -1 ∧ i = None ∧ rs = [] ∨ rc = 0 ∧ ∃ x, i = Some x ∧ x ∈ queue_of N))) as Hend.
  { pose proof (get_bottom_returns Hs N (bh_trees b) R (negb (is_min mode)) bh b h nx rs) as Hgt.
    unfold end_item, get_end in *.
    destruct (negb (is_min mode)) eqn:Hneg; unfold binheap_minimum, binheap_maximum; go;
      (eapply Hgt; [apply Hinv|lia|done|apply Hinv|done| |done| |]);
      [rewrite <- Hneg; by apply mode_other_end| | |rewrite <- Hneg; by apply mode_other_end| |];
      try (intros h' Hl' E; cbv beta iota; simpl; exists h'; split_and!; [done|done|by left]);
      intros h' i p n Hl' _ Hn _ _; cbv beta iota;
      (destruct (fo_node _ _ _ _ (hi_forest _ _ _ _ Hinv) _ _ Hn) as [Hp0 _]);
      rewrite (proj2 (Z.eqb_neq p 0)) by done; go; (eapply returns_load_bn; [done|]); go;
      (exists h'; split_and!; [done|done|right; split; [done|]]);
      (exists (kv n); split; [done|apply queue_elem; eauto]). }
  simpl. go. eapply returns_mono; [exact Hend|]. intros [[rc i] w'] (h'&Hl'&->&Hcase). go. split.
  - destruct Hcase as [(->&->&->)|(->&x&->&Hx)].
    + rewrite (perm_nil N s Hs'); [constructor|].
      by rewrite (forest_no_roots _ _ _ (hi_forest _ _ _ _ Hinv)).
    + apply q_bottom. by rewrite Hs'.
  - exists b, N, rs. simpl. split_and!; done || lia.
Qed.

(** Destroying a node removes its item. *)
Lemma destroy_item Hs b N rs h nx p n rindex (s : items) :
  Hs !! bh = Some b → delete bh Hs = F → bh_mode b = mode → bh_trees b = trees → heap_inv (ok := ok) bh b N rs →
  lists (bh_trees b) R h rs → 0 < lo ≤ nx → (∀ q, is_Some (N !! q) → q < nx) → s ≡ₚ queue_of N →
  N !! p = Some n → 0 ≤ rindex → (bn_parent n = 0 → rindex ≠ 0 → rs !! Z.to_nat rindex = Some p) →
  returns (binomial_tree_node_destroy p rindex (mk_bworld Hs N h nx))
    (λ '(_, w'), ∃ s', s ≡ₚ kv n :: s' ∧ rep bh mode trees F R lo s' w').
Proof using All.
  intros Hb HF Hm Htr Hinv Hl Hnx Hfresh Hs' Hn Hi0 Hi.
  eapply (node_destroy_returns Hs bh b R N rs Hb Hinv p n Hn); try done; [lia|].
  intros h' nx' N' rs' b' Hle (Ht&_&Hm') Hinv' HC Hl'. exists (queue_of N'). split.
  - rewrite Hs'. by apply queue_delete with p.
  - exists b', N', rs'. simpl. rewrite lookup_insert_eq, Ht. split_and!; try done; try lia.
    + by rewrite delete_insert_eq.
    + congruence.
    + intros q Hq. apply contents_is_Some in Hq. rewrite HC in Hq. apply lookup_delete_is_Some in Hq as [_ Hq].
      apply contents_is_Some, Hfresh in Hq. lia.
Qed.

Lemma delete_top_refines s w :
  rep bh mode trees F R lo s w →
  returns (run_qop mode bh QDeleteTop w)
    (λ '(r, w'), ∃ s', qstep mode s QDeleteTop r s' ∧ rep bh mode trees F R lo s' w').
Proof using All.
  destruct w as [Hs N0 h nx]. intros (b&N&rs&Hb&HF&HN&Hm&Htr&Hinv&Hl&Hnx&Hfresh&Hs'). simpl in *. subst N0.
  assert (∀ h', lists (bh_trees b) R h' rs →
    returns ((if bh_head b =? 0 then mret (-1, None) else
              n ← load_bn (bh_head b);
              _ ← binomial_tree_node_destroy (bh_head b) (default 0 None); mret (0, Some (bn_value n)))
        (mk_bworld Hs N h' nx))
      (λ '(rc, v, w'), ∃ s', qstep mode s QDeleteTop (RValue rc v) s' ∧ rep bh mode trees F R lo s' w')) as Hdel.
  { intros h' Hl'. destruct (head_item b N rs Hm Hinv) as [[-> E]|[E (n&Hn&Hpar&Hfirst)]].
    - simpl. exists s. rewrite (perm_nil N s Hs' E). split; [constructor|]. exists b, N, rs. simpl.
      split_and!; try done; try lia. by rewrite E.
    - rewrite (proj2 (Z.eqb_neq _ 0)) by done. go. eapply returns_load_bn; [done|]. go.
      eapply returns_mono; [by eapply (destroy_item Hs b N rs h' nx (bh_head b) n 0 s)|].
      intros [[] w'] (s'&HP&Hrep). go. exists s'. split; [|done].
      apply (q_delete_top mode s (kv n) s'); [|done]. by apply (first_item_perm mode (queue_of N) s). }
  pose proof (get_top Hs b N rs h nx) as Hgt. simpl. go.
  apply returns_mono with (P := λ '(rc, v, w'), ∃ s', qstep mode s QDeleteTop (RValue rc v) s' ∧ rep bh mode trees F R lo s' w');
    [|intros [[rc v] w'] Hq; by go].
  unfold delete_end, get_end in *. destruct (is_min mode); unfold binheap_delete_minimum, binheap_delete_maximum; go;
    (eapply Hgt; [done|done|done|done|]); intros h' Hl'; cbv beta iota; by apply Hdel.
Qed.

Lemma delete_bottom_refines s w :
  rep bh mode trees F R lo s w →
  returns (run_qop mode bh QDeleteBottom w)
    (λ '(r, w'), ∃ s', qstep mode s QDeleteBottom r s' ∧ rep bh mode trees F R lo s' w').
Proof using All.
  destruct w as [Hs N0 h nx]. intros (b&N&rs&Hb&HF&HN&Hm&Htr&Hinv&Hl&Hnx&Hfresh&Hs'). simpl in *. subst N0.
  pose proof (hi_size _ _ _ _ Hinv) as Hsz.
  simpl. go.
  apply returns_mono with (P := λ '(rc, v, w'), ∃ s', qstep mode s QDeleteBottom (RValue rc v) s' ∧ rep bh mode trees F R lo s' w');
    [|intros [[rc v] w'] Hq; by go].
  pose proof (get_bottom_returns Hs N (bh_trees b) R (negb (is_min mode)) bh b h nx rs) as Hgt.
  unfold delete_end, get_end in *.
  destruct (negb (is_min mode)) eqn:Hneg; unfold binheap_delete_minimum, binheap_delete_maximum; go;
    (eapply Hgt; [apply Hinv|lia|done|apply Hinv|done| |done| |]);
    [rewrite <- Hneg; by apply mode_other_end| | |rewrite <- Hneg; by apply mode_other_end| |];
    try (intros h' Hl' E; cbv beta iota; simpl; exists s; rewrite (perm_nil N s Hs');
         [split; [constructor|]; exists b, N, rs; simpl; split_and!; try done; try lia|];
         subst rs; by rewrite (forest_no_roots _ _ _ (hi_forest _ _ _ _ Hinv)));
    intros h' i p n Hl' Hi Hn _ Hpar; cbv beta iota;
    (destruct (fo_node _ _ _ _ (hi_forest _ _ _ _ Hinv) _ _ Hn) as [Hp0 _]);
    rewrite (proj2 (Z.eqb_neq p 0)) by done; go; (eapply returns_load_bn; [done|]); go; simpl;
    (eapply returns_mono; [by eapply (destroy_item Hs b N rs h' nx p n i s); auto|]);
    intros [[] w'] (s'&HP&Hrep); go; exists s'; (split; [|done]); by apply (q_delete_bottom mode s (kv n) s').
Qed.

Lemma delete_refines s k w :
  ok k → rep bh mode trees F R lo s w →
  returns (run_qop mode bh (QDelete k) w)
    (λ '(r, w'), ∃ s', qstep mode s (QDelete k) r s' ∧ rep bh mode trees F R lo s' w').
Proof using All.
  intros Hk. destruct w as [Hs N0 h nx].
  intros (b&N&rs&Hb&HF&HN&Hm&Htr&Hinv&Hl&Hnx&Hfresh&Hs'). simpl in *. subst N0.
  pose proof (hi_forest _ _ _ _ Hinv) as Hf. pose proof (hi_cmp _ _ _ _ Hinv) as Hcmp.
  pose proof (hi_size _ _ _ _ Hinv) as Hsz.
  unfold binheap_delete. go. eapply (delete_root_returns Hs bh b N rs Hb Hcmp Hf k Hk R h nx); [done|].
  intros h1 x Hl1 Hx. go. eapply returns_load_bh; [done|]. go.
  eapply (delete_down_returns Hs bh b N rs Hb Hcmp Hf k Hk x h1 nx); [lia|by eapply found_some|].
  intros y Hy Hsame. destruct (Z.eqb_spec y 0) as [->|Hy0]; go.
  - exists s. split; [|exists b, N, rs; simpl; split_and!; done || lia].
    apply q_delete_missed. intros z Hz E. apply (first_item_perm mode s (queue_of N)) in Hz as [Hz Hall]; [|done].
    apply queue_elem in Hz as (p&n&Hn&->).
    destruct (found_first Hs bh b N rs Hb Hcmp Hf k Hk x p n Hn E) as (m&Hm'&Em); [|done|].
    { intros q mq Hmq. rewrite Hm. apply (Hall (kv mq)). apply queue_elem. eauto. }
    specialize (Hsame m Hm' Em) as <-. by destruct (fo_node _ _ _ _ Hf _ _ Hm') as [? _].
  - destruct Hy as [?|(n&Hn&E)]; [done|]. eapply returns_load_bn; [done|]. go.
    eapply returns_mono; [by eapply (destroy_item Hs b N rs h1 nx y n 0 s)|].
    intros [[] w'] (s'&HP&Hrep). go. exists s'. split; [|done]. by apply (q_delete mode s k (kv n) s').
Qed.

Lemma insert_refines s k v w :
  ok k → Z.of_nat (length s) + 3 < INT_MAX → rep bh mode trees F R lo s w →
  returns (run_qop mode bh (QInsert k v) w)
    (λ '(r, w'), ∃ s', qstep mode s (QInsert k v) r s' ∧ rep bh mode trees F R lo s' w').
Proof using All.
  intros Hk Hlen. destruct w as [Hs N0 h nx].
  intros (b&N&rs&Hb&HF&HN&Hm&Htr&Hinv&Hl&Hnx&Hfresh&Hs'). simpl in *. subst N0.
  rewrite Hs', queue_length in Hlen. go.
  eapply (binheap_insert_returns Hs bh b R Hb (hi_cmp _ _ _ _ Hinv) N rs); try done; [lia|].
  intros h' nx' N' rs' b' Hlt (Ht&_&Hm') Hinv' HC Hl'. go. exists (queue_of N'). split.
  - constructor. rewrite Hs'. apply queue_insert with nx; [|done].
    apply eq_None_not_Some. intros Hsome. specialize (Hfresh _ Hsome). lia.
  - exists b', N', rs'. simpl. rewrite lookup_insert_eq, Ht. split_and!; try done; try lia.
    + by rewrite delete_insert_eq.
    + congruence.
    + intros q Hq. apply contents_is_Some in Hq. rewrite HC in Hq.
      apply lookup_insert_is_Some in Hq as [<-|[_ Hq]]; [lia|].
      apply contents_is_Some, Hfresh in Hq. lia.
Qed.

Lemma count_refines s w :
  rep bh mode trees F R lo s w →
  returns (run_qop mode bh QCount w) (λ '(r, w'), qstep mode s QCount r s ∧ rep bh mode trees F R lo s w').
Proof using All.
  destruct w as [Hs N0 h nx]. intros (b&N&rs&Hb&HF&HN&Hm&Htr&Hinv&Hl&Hnx&Hfresh&Hs'). simpl in *. subst N0.
  pose proof (hi_size _ _ _ _ Hinv) as Hsz. unfold binheap_count. go. eapply returns_load_bh; [done|]. go.
  rewrite (hi_count _ _ _ _ Hinv), u64_small by (int_bounds; lia). split.
  - rewrite <- queue_length, <- Hs'. constructor.
  - exists b, N, rs. simpl. split_and!; done || lia.
Qed.

Lemma qop_refines s o w :
  op_ok o → Z.of_nat (length s) + 3 < INT_MAX → rep bh mode trees F R lo s w →
  returns (run_qop mode bh o w) (λ '(r, w'), ∃ s', qstep mode s o r s' ∧ rep bh mode trees F R lo s' w').
Proof using All.
  intros Ho Hlen Hrep. destruct o as [k v| | |k| | |].
  - by apply insert_refines.
  - eapply returns_mono; [by apply top_refines|]. intros [r w'] Hq. by exists s.
  - by apply delete_top_refines.
  - by apply delete_refines.
  - eapply returns_mono; [by apply bottom_refines|]. intros [r w'] Hq. by exists s.
  - by apply delete_bottom_refines.
  - eapply returns_mono; [by apply count_refines|]. intros [r w'] Hq. by exists s.
Qed.

(** The deletion of an end, as a client uses it. *)
Lemma delete_end_returns (e : bool) s w :
  rep bh mode trees F R lo s w →
  returns (delete_end e bh w) (λ '(rc, v, w'), ∃ s', rep bh mode trees F R lo s' w' ∧
    (s = [] ∧ s' = [] ∧ rc = -1 ∧ v = None ∨
     ∃ x, rc = 0 ∧ v = Some x.2 ∧ s ≡ₚ x :: s' ∧ (e = is_min mode → first_item mode s x))).
Proof using All.
  intros Hrep. destruct (decide (e = is_min mode)) as [->|He].
  - pose proof (delete_top_refines s w Hrep) as H. simpl in H. apply returns_st_bind in H.
    eapply returns_mono; [exact H|]. intros [[rc v] w'] (s'&Hs&Hrep'). exists s'. split; [done|].
    inversion Hs; subst; [by left|right; eauto 6].
  - assert (e = negb (is_min mode)) as -> by (by destruct e, (is_min mode)).
    pose proof (delete_bottom_refines s w Hrep) as H. simpl in H. apply returns_st_bind in H.
    eapply returns_mono; [exact H|]. intros [[rc v] w'] (s'&Hs&Hrep'). exists s'. split; [done|].
    inversion Hs; subst; [by left|right]. exists x. split_and!; try done.
Qed.

Lemma count_returns s w (Q : Z * bworld → Prop) :
  rep bh mode trees F R lo s w → Q (Z.of_nat (length s), w) → returns (binheap_count bh w) Q.
Proof using All.
  intros (b&N&rs&Hb&HF&HN&Hm&Htr&Hinv&Hl&Hnx&Hfresh&Hs') HQ. destruct w as [Hs N0 h nx]. simpl in *. subst N0.
  pose proof (hi_size _ _ _ _ Hinv) as Hsz. unfold binheap_count. go. eapply returns_load_bh; [done|]. go.
  rewrite (hi_count _ _ _ _ Hinv), u64_small by (int_bounds; lia). by rewrite <- queue_length, <- Hs'.
Qed.

(** An allocation of the client. *)
Lemma rep_new_block s w (Q : Z * bworld → Prop) :
  rep bh mode trees F R lo s w →
  (∀ p w', lo ≤ p → p = bw_next w → bw_next w' = p + 1 → rep bh mode trees F R (p + 1) s w' → Q (p, w')) →
  returns (new_block w) Q.
Proof using All.
  intros (b&N&rs&Hb&HF&HN&Hm&Htr&Hinv&Hl&Hnx&Hfresh&Hs') HQ. destruct w as [Hs N0 h nx]. simpl in *. subst N0.
  apply returns_new_block; [by eapply lists_alloc|]. apply HQ; [lia|done|done|].
  exists b, N, rs. simpl. split_and!; try done; try lia; [by apply lists_answered|].
  intros p Hp. specialize (Hfresh p Hp). lia.
Qed.
Lemma rep_next s w : rep bh mode trees F R lo s w → lo ≤ bw_next w ∧ rep bh mode trees F R (bw_next w) s w.
Proof using All.
  intros (b&N&rs&Hb&HF&HN&Hm&Htr&Hinv&Hl&Hnx&Hfresh&Hs'). split; [lia|].
  exists b, N, rs. split_and!; done || lia.
Qed.
Lemma rep_perm s s' w : s ≡ₚ s' → rep bh mode trees F R lo s w → rep bh mode trees F R lo s' w.
Proof using All.
  intros HP (b&N&rs&Hb&HF&HN&Hm&Htr&Hinv&Hl&Hnx&Hfresh&Hs').
  exists b, N, rs. split_and!; try done; try lia. by rewrite <- HP.
Qed.
End ops.

(** ** Runs *)

Lemma qstep_length mode s o r s' : qstep mode s o r s' → (length s' ≤ S (length s))%nat.
Proof.
  destruct 1; try (simpl; lia);
    match goal with HP : _ ≡ₚ _ |- _ => apply Permutation_length in HP; simpl in *; lia end.
Qed.

Lemma qops_refine bh mode trees F R lo os s w :
  Forall op_ok os → Z.of_nat (length s + length os) + 3 < INT_MAX → rep bh mode trees F R lo s w →
  returns (run_qops mode bh os w) (λ '(rs, w'), ∃ s', qsteps mode s os rs s' ∧ rep bh mode trees F R lo s' w').
Proof using All.
  revert s w. induction os as [|o os IH]; intros s w Ho Hlen Hrep; simpl.
  - go. exists s. split; [constructor|done].
  - inversion Ho; subst. simpl in Hlen. go. eapply returns_mono; [apply (qop_refines bh mode trees F R lo s); [done|lia|done]|].
    intros [r w1] (s1&Hs1&Hrep1). go. pose proof (qstep_length _ _ _ _ _ Hs1).
    eapply returns_mono; [apply (IH s1); [done|lia|done]|]. intros [rs w2] (s2&Hs2&Hrep2). go.
    exists s2. split; [|done]. by econstructor.
Qed.

(** A world without nodes, where no allocation fails. *)
Record fresh_world (w : bworld) : Prop := {
  fw_heap : wf_heap (bw_heap w); fw_alloc : alloc_ok (bw_heap w); fw_nodes : bw_nodes w = ∅;
  fw_next : 0 < bw_next w; fw_new : ∀ p, bw_next w ≤ p → bw_heaps w !! p = None
}.

Lemma fresh_new_block w (Q : Z * bworld → Prop) :
  fresh_world w →
  (∀ w', fresh_world w' → bw_heaps w' = bw_heaps w → hp (bw_heap w') = hp (bw_heap w) →
    bw_next w' = bw_next w + 1 → Q (bw_next w, w')) →
  returns (new_block w) Q.
Proof using Type.
  intros [Hwf Hal HN Hnx Hnew] HQ. destruct w as [Hs N h nx]. simpl in *.
  apply returns_new_block; [done|]. apply HQ; try done. split; simpl; try done; [|lia|].
  - unfold alloc_ok in *. simpl. destruct Hal; [constructor|done].
  - intros p Hp. apply Hnew. lia.
Qed.

Lemma create_rep cbs mode w :
  Binheap.cmp cbs = cmp → fresh_world w →
  returns (binheap_create (Some cbs) mode w) (λ '(bh, w'),
    bh ≠ 0 ∧ ∃ trees, rep bh mode trees (bw_heaps w) (hp (bw_heap w)) (bw_next w) [] w').
Proof using All.
  intros Hcmp [Hwf Hal HN Hnx Hnew]. destruct w as [Hs N0 h nx]. simpl in *. subst N0.
  unfold binheap_create. go. apply returns_new_block; [done|].
  rewrite (proj2 (Z.eqb_neq nx 0)) by lia. go. apply returns_on_list.
  assert (alloc_ok (answered h)) as Hal'.
  { unfold alloc_ok in *. simpl. destruct Hal; [constructor|done]. }
  eapply returns_mono; [by apply (list_create_returns (answered h))|].
  intros [trees h'] [Ht Hh]. go. split; [lia|].
  exists trees. eexists _, ∅, []. simpl. rewrite lookup_insert_eq. split_and!; try done; try lia.
  - rewrite delete_insert_id; [done|]. apply Hnew. lia.
  - split; simpl; try done; [apply forest_empty|by left].
  - intros p Hp. rewrite lookup_empty in Hp. by apply is_Some_None in Hp.
Qed.
End spec.

(** C6 — any sequence of operations on a new binomial heap, in either mode and
    with any comparator that is an order, returns what the same operations on
    a queue of key-value pairs do: the top is an item that precedes all the
    others, the items deleted are those of the queue, and a deletion by key
    misses only keys that some item precedes. *)
Theorem binheap_refines_queue {cmp : libhl_cmp_callback_t} {ok : key → Prop} `{!Comparator cmp ok}
    cbs mode os w :
  Binheap.cmp cbs = cmp → fresh_world w → Forall (op_ok (ok := ok)) os → Z.of_nat (length os) + 3 < INT_MAX →
  returns ((bh ← binheap_create (Some cbs) mode; run_qops mode bh os) w) (λ '(rs, w'),
    ∃ bh trees s, qsteps mode [] os rs s ∧ rep (ok := ok) bh mode trees (bw_heaps w) (hp (bw_heap w)) (bw_next w) s w').
Proof.
  intros Hcmp Hw Ho Hlen. go. eapply returns_mono; [by apply create_rep|]. intros [bh w1] [_ (trees&Hrep)].
  eapply returns_mono; [apply (qops_refine bh mode trees (bw_heaps w) (hp (bw_heap w)) (bw_next w) os []); [done|simpl; lia|done]|].
  intros [rs w2] (s&Hs&Hrep2). by exists bh, trees, s.
Qed.

Definition no_world : bworld := mk_bworld ∅ ∅ no_heap 1.
Lemma no_world_fresh : fresh_world no_world.
Proof. by split; repeat constructor. Qed.

Definition prio (p : Z) : key := le_bytes 8 p.

Lemma binheap_refines_queue_witness :
  returns ((bh ← binheap_create (Some (BINHEAP_KEY_CALLBACKS_TYPE uint64_t)) BINHEAP_MODE_MAX;
    run_qops BINHEAP_MODE_MAX bh
      [QInsert (prio 3) 30; QInsert (prio 7) 70; QTop; QDelete (prio 3); QDeleteTop; QCount]) no_world)
    (λ '(rs, w'), ∃ bh trees s,
      qsteps (cmp := libhl_cmp_keys_uint64) (ok := small_key) BINHEAP_MODE_MAX []
        [QInsert (prio 3) 30; QInsert (prio 7) 70; QTop; QDelete (prio 3); QDeleteTop; QCount] rs s ∧
      rep (ok := small_key) bh BINHEAP_MODE_MAX trees ∅ ∅ 1 s w').
Proof.
  apply (binheap_refines_queue (BINHEAP_KEY_CALLBACKS_TYPE uint64_t) BINHEAP_MODE_MAX _ no_world).
  - done.
  - apply no_world_fresh.
  - repeat (apply Forall_cons; split; [first [by apply small_le_bytes|exact I]|]). by apply Forall_nil.
  - done.
Defined.

(** ** Destroying a heap *)

Section destroy.
Context {cmp : libhl_cmp_callback_t} {ok : key → Prop} `{!Comparator cmp ok}.

Lemma destroy_roots trees R h rs :
  lists trees R h rs → returns (list_destroy 1 trees h) (λ '(_, h'), hp h' = R).
Proof.
  intros [(ns&Hw&Hd) Hlen].
  assert (length ns = length rs) as Hl.
  { rewrite <- (data_length ns), Hd. unfold roots. by rewrite length_fmap. }
  eapply returns_mono; [apply (destroy_returns (list_destroy 0) trees false 0 h ns R); try done|].
  - unfold short. rewrite Hl. lia.
  - assert (Forall (λ d : Z * bool, d.2 = false) (data ns)) as Ht.
    { rewrite Hd. unfold roots. apply Forall_fmap. by apply Forall_true. }
    unfold data in Ht. by apply Forall_fmap in Ht.
  - by intros [u h'] [? _].
Qed.

Lemma destroy_loop_returns bh mode trees F R lo s w :
  rep (ok := ok) bh mode trees F R lo s w → ∀ node,
  (∃ b, bw_heaps w !! bh = Some b ∧ bh_head b = node) →
  returns (loopS (destroy_body bh) node w) (λ '(_, w'), rep (ok := ok) bh mode trees F R lo [] w').
Proof using All.
  intros Hrep node Hnode.
  assert (Z.of_nat (size (bw_nodes w)) + 2 < INT_MAX) as Hsz.
  { destruct Hrep as (b&N&rs&_&_&->&_&_&Hinv&_). apply Hinv. }
  apply (loopS_returns _ (λ node w, (∃ s, rep (ok := ok) bh mode trees F R lo s w) ∧
      ∃ b, bw_heaps w !! bh = Some b ∧ bh_head b = node)
    (λ _ w, Z.of_nat (size (bw_nodes w)))); [|by eauto|int_bounds; lia].
  clear Hsz Hrep Hnode s w node. intros node w [(s&Hrep) (b0&Hb0&<-)] _.
  destruct w as [Hs N0 h nx]. pose proof Hrep as (b&N&rs&Hb&HF&HN&Hm&Htr&Hinv&Hl&Hnx&Hfresh&Hs').
  simpl in *. subst N0. rewrite Hb0 in Hb. injection Hb as ->. unfold destroy_body.
  destruct (head_item bh mode trees F R lo b N rs Hm Hinv) as [[E Enil]|[E (n&Hn&Hpar&Hfirst)]].
  - rewrite E. simpl. by rewrite (perm_nil N s Hs' Enil) in Hrep.
  - rewrite (proj2 (Z.eqb_neq _ 0)) by done. go.
    eapply returns_mono; [by eapply (destroy_item bh mode trees F R lo Hs b N rs h nx (bh_head b) n 0 s)|].
    intros [[] [Hs1 N1 h1 nx1]] (s1&HP&b1&N1'&rs1&Hb1&HF1&HN1&Hm1&Htr1&Hinv1&Hl1&Hnx1&Hfresh1&Hs1').
    simpl in *. subst N1'. go. eapply returns_load_bh; [done|]. go.
    replace (match bh_mode b1 with BINHEAP_MODE_MAX => binheap_get_maximum bh
      | BINHEAP_MODE_MIN => binheap_get_minimum bh end) with (get_end (is_min mode) bh)
      by (rewrite Hm1; by destruct mode).
    eapply (get_top bh mode trees F R lo Hs1 b1 N1 rs1 h1 nx1); try done. intros h2 Hl2. go. split.
    + split; [|by exists b1]. exists s1, b1, N1, rs1. simpl. split_and!; done || lia.
    + simpl. rewrite Hs' in HP. rewrite Hs1' in HP. apply Permutation_length in HP.
      rewrite queue_length in HP. simpl in HP. rewrite queue_length in HP. lia.
Qed.

Lemma heap_destroy_returns bh mode trees F R lo s w :
  rep (ok := ok) bh mode trees F R lo s w →
  returns (binheap_destroy bh w) (λ '(_, w'),
    bw_heaps w' = F ∧ bw_nodes w' = ∅ ∧ hp (bw_heap w') = R).
Proof using All.
  destruct w as [Hs N0 h nx]. intros (b&N&rs&Hb&HF&HN&Hm&Htr&Hinv&Hl&Hnx&Hfresh&Hs'). simpl in *. subst N0.
  unfold binheap_destroy. go. eapply returns_load_bh; [done|]. go.
  replace (match bh_mode b with BINHEAP_MODE_MAX => binheap_get_maximum bh
    | BINHEAP_MODE_MIN => binheap_get_minimum bh end) with (get_end (is_min mode) bh)
    by (rewrite Hm; by destruct mode).
  eapply (get_top bh mode trees F R lo Hs b N rs h nx); try done. intros h1 Hl1. go.
  eapply returns_mono; [apply (destroy_loop_returns bh mode trees F R lo s)|].
  { exists b, N, rs. simpl. split_and!; done || lia. }
  { simpl. by exists b. }
  intros [[] [Hs2 N2 h2 nx2]] (b2&N2'&rs2&Hb2&HF2&HN2&Hm2&Htr2&Hinv2&Hl2&_&_&Hnil). simpl in *. subst N2'.
  go. apply returns_on_list. rewrite Htr, <- Htr2.
  eapply returns_mono; [by apply (destroy_roots _ R _ rs2)|]. intros [[] h3] Hh3. go. simpl.
  split_and!; [done| |done]. apply map_size_empty_inv. by rewrite <- queue_length, <- Hnil.
Qed.
End destroy.

(** C21 — [binheap_destroy] frees every node, the list of the roots and the
    heap, and touches nothing else. *)
Theorem binheap_destroy_frees {cmp : libhl_cmp_callback_t} {ok : key → Prop} `{!Comparator cmp ok}
    bh mode trees F R lo s w :
  rep (ok := ok) bh mode trees F R lo s w →
  returns (binheap_destroy bh w) (λ '(_, w'),
    bw_heaps w' = F ∧ bw_nodes w' = ∅ ∧ hp (bw_heap w') = R).
Proof. apply heap_destroy_returns. Qed.

(** A heap with three items. *)
Definition three_items : B Z :=
  bh ← binheap_create (Some (BINHEAP_KEY_CALLBACKS_TYPE uint64_t)) BINHEAP_MODE_MAX;
  _ ← run_qops BINHEAP_MODE_MAX bh [QInsert (prio 3) 30; QInsert (prio 7) 70; QInsert (prio 5) 50];
  mret bh.

Lemma three_items_rep w0 :
  fresh_world w0 →
  returns (three_items w0) (λ '(bh, w), ∃ trees s,
    rep (cmp := libhl_cmp_keys_uint64) (ok := small_key) bh BINHEAP_MODE_MAX trees
      (bw_heaps w0) (hp (bw_heap w0)) (bw_next w0) s w).
Proof.
  intros Hw. unfold three_items. go.
  eapply returns_mono; [by apply (create_rep (cmp := libhl_cmp_keys_uint64) (ok := small_key))|].
  intros [bh w] [_ [trees Hrep]]. go.
  eapply returns_mono; [eapply (qops_refine (cmp := libhl_cmp_keys_uint64) (ok := small_key)
    bh BINHEAP_MODE_MAX trees _ _ _ _ []); [|simpl; int_bounds; lia|exact Hrep]|].
  - repeat (apply Forall_cons; split; [by apply small_le_bytes|]). by apply Forall_nil.
  - intros [rs w'] (s&_&Hs). go. by exists trees, s.
Qed.

Lemma binheap_destroy_frees_witness :
  match three_items no_world with
  | Ret (bh, w) => returns (binheap_destroy bh w) (λ '(_, w'),
      bw_heaps w' = ∅ ∧ bw_nodes w' = ∅ ∧ hp (bw_heap w') = ∅)
  | _ => False
  end.
Proof.
  pose proof (three_items_rep no_world no_world_fresh) as H. destruct (three_items no_world) as [[bh w]| |]; [|done|done].
  destruct H as (trees&s&Hrep).
  exact (binheap_destroy_frees (cmp := libhl_cmp_keys_uint64) (ok := small_key)
    bh BINHEAP_MODE_MAX trees ∅ ∅ 1 s w Hrep).
Defined.

(** ** What the functions do not do *)

Definition inserts (ps : list Z) : list qop := (λ p, QInsert (prio p) p) <$> ps.
Definition max_heap (ps : list Z) : B Z :=
  bh ← binheap_create (Some (BINHEAP_KEY_CALLBACKS_TYPE uint64_t)) BINHEAP_MODE_MAX;
  _ ← run_qops BINHEAP_MODE_MAX bh (inserts ps);
  mret bh.
Definition answer {A} (m : B A) : outcome A := r ← m no_world; Ret r.1.

(** in a heap ordered by its maximum [binheap_minimum] follows the least
    root to its least children: it returns 3 although 1 is in the heap. *)
Theorem binheap_minimum_not_least :
  answer (bh ← max_heap [1; 5; 2; 6; 3]; binheap_minimum bh) = Ret (0, Some (prio 3, 3)).
Proof. by vm_compute. Qed.

(** [binheap_delete] searches one path only, from the least root that
    precedes the key: 5, under the root 8, is not found because of the root 7. *)
Theorem binheap_delete_misses :
  answer (bh ← max_heap [5; 8; 4; 6; 7; 1]; binheap_delete bh (prio 5) true) = Ret (-1, None).
Proof. by vm_compute. Qed.

(** after [binheap_merge] the nodes still belong to the heaps they were
    inserted in: deleting the maximum of the merged heap leaves its count as
    it was and a destroyed node among its roots, so that the next access is to
    freed memory. *)
Theorem binheap_merge_stale_nodes :
  answer (b1 ← max_heap [1; 5]; b2 ← max_heap [7]; m ← binheap_merge b1 b2;
          r ← binheap_delete_maximum m; c ← binheap_count m; mret (r, c)) = Ret (0, Some 7, 3) ∧
  answer (b1 ← max_heap [1; 5]; b2 ← max_heap [7]; m ← binheap_merge b1 b2;
          _ ← binheap_delete_maximum m; binheap_maximum m) = Undef.
Proof. split; by vm_compute. Qed.

(** [binheap_decrease_maximum] leaves the item at the head: with 5
    decreased by 3 the maximum is said to be 2, with 3 in the heap. *)
Theorem binheap_decrease_maximum_stale :
  answer (bh ← max_heap [1; 5; 3]; _ ← binheap_decrease_maximum bh 3; binheap_maximum bh) =
    Ret (0, Some (prio 2, 5)).
Proof. by vm_compute. Qed.

(** the default increment loses its carry: it writes nothing unless a
    byte overflows, and then the sum is not that of the numbers. *)
Theorem incr_key_default_wrong :
  incr_key_default [1; 2; 3] 5 = Ret [1; 2; 3] ∧ incr_key_default [1; 2; 255] 5 = Ret [1; 2; 4].
Proof. split; by vm_compute. Qed.
