(* ===== verification/BinheapWalk.v ===== *)
(** * Walking a binomial heap

    [binheap_walk] of src/src/binheap.c with a callback that removes nothing:
    it is called on every item once, until it stops the walk. *)

From S2P Require Import Prelude Linklist LinklistRemove Comparators Binheap BinheapForest BinheapOps.
From S2P Require Import BinheapRemove BinheapSpec.

(** ** Ancestors *)

Section ancestors.
Context {cmp : libhl_cmp_callback_t} {ok : key → Prop} `{!Comparator cmp ok}.
Context (mode : binheap_mode_t) (bh : Z) (N : nodes) (rs : list Z).
Context (Hf : forest (ok := ok) mode bh N rs).

Definition parent_of (x : Z) : Z := match N !! x with Some n => bn_parent n | None => 0 end.
Fixpoint ancestor (k : nat) (x : Z) : Z := match k with O => x | S k => ancestor k (parent_of x) end.

Lemma parent_of_0 : parent_of 0 = 0.
Proof using Hf.
  unfold parent_of. destruct (N !! 0) as [n|] eqn:Hn; [|done]. by destruct (fo_node _ _ _ _ Hf _ _ Hn).
Qed.
Lemma ancestor_0 k : ancestor k 0 = 0.
Proof using Hf. induction k as [|k IH]; simpl; [done|]. by rewrite parent_of_0. Qed.
Lemma ancestor_add k j x : ancestor (k + j) x = ancestor j (ancestor k x).
Proof using Type. revert x. induction k as [|k IH]; intros x; simpl; [done|]. apply IH. Qed.
Lemma ancestor_S k x : ancestor (S k) x = parent_of (ancestor k x).
Proof using Type. replace (S k) with (k + 1)%nat by lia. by rewrite ancestor_add. Qed.

Lemma ancestor_rank rank k x :
  (∀ c nc, N !! c = Some nc → bn_parent nc ≠ 0 → (rank c < rank (bn_parent nc))%nat) →
  ancestor (S k) x ≠ 0 → (rank x < rank (ancestor (S k) x))%nat.
Proof using Hf.
  intros Hrank. revert x. induction k as [|k IH]; intros x Hne.
  - simpl in *. unfold parent_of in *. destruct (N !! x) as [n|] eqn:Hn; [|done]. by apply Hrank.
  - change (ancestor (S (S k)) x) with (ancestor (S k) (parent_of x)) in *.
    pose proof (IH _ Hne) as Hr. assert (parent_of x ≠ 0) as Hp.
    { intros E. rewrite E, ancestor_0 in Hne. done. }
    unfold parent_of in *. destruct (N !! x) as [n|] eqn:Hn; [|done]. specialize (Hrank _ _ Hn Hp). lia.
Qed.
Lemma no_cycle k x : x ≠ 0 → ancestor (S k) x ≠ x.
Proof using Hf.
  intros Hx E. destruct (fo_rank _ _ _ _ Hf) as [rank Hrank].
  pose proof (ancestor_rank rank k x Hrank) as Hr. rewrite E in Hr. specialize (Hr Hx). lia.
Qed.

(** Only one of the nodes with the same parent is an ancestor of a node. *)
Lemma sibling_unique x c1 c2 k1 k2 :
  c1 ≠ 0 → c2 ≠ 0 → parent_of c1 = parent_of c2 → ancestor k1 x = c1 → ancestor k2 x = c2 → c1 = c2.
Proof using Hf.
  enough (∀ k j c1 c2, c2 ≠ 0 → parent_of c1 = parent_of c2 → ancestor k x = c1 →
    ancestor (k + j) x = c2 → c1 = c2) as Hlt.
  { intros H1 H2 Hp E1 E2. destruct (decide (k1 ≤ k2)%nat).
    - apply (Hlt k1 (k2 - k1)%nat c1 c2); try done. by replace (k1 + (k2 - k1))%nat with k2 by lia.
    - symmetry. apply (Hlt k2 (k1 - k2)%nat c2 c1); try done. by replace (k2 + (k1 - k2))%nat with k1 by lia. }
  intros k j d1 d2 H2 Hp E1 E2. rewrite ancestor_add, E1 in E2.
  destruct j as [|j]; [done|]. exfalso. simpl in E2. rewrite Hp in E2.
  apply (no_cycle j d2 H2). exact E2.
Qed.

(** The nodes below the node [p], itself included. *)
Definition under (p x : Z) : Prop := is_Some (N !! x) ∧ ∃ k, ancestor k x = p.

Lemma under_self p : is_Some (N !! p) → under p p.
Proof using Type. intros Hp. split; [done|]. by exists O. Qed.
Lemma under_child p n x :
  N !! p = Some n → under p x ↔ x = p ∨ ∃ c, c ∈ bn_children n ∧ under c x.
Proof using Hf.
  intros Hp. destruct (fo_node _ _ _ _ Hf _ _ Hp) as (Hp0&_&_&_&Hch). split.
  - intros [Hx [[|k] E]]; [by left|right]. rewrite ancestor_S in E. exists (ancestor k x).
    split; [|split; [done|by exists k]]. apply Hch. unfold parent_of in E.
    destruct (N !! ancestor k x) as [m|]; [by exists m|done].
  - intros [->|(c&Hc&[Hx [k E]])]; [by apply under_self; exists n|]. split; [done|]. exists (S k).
    rewrite ancestor_S, E. apply Hch in Hc as (nc&Hnc&Hpar). unfold parent_of. by rewrite Hnc.
Qed.
Lemma not_under_child p n c : N !! p = Some n → c ∈ bn_children n → ¬ under c p.
Proof using Hf.
  intros Hp Hc [_ [k E]]. destruct (fo_node _ _ _ _ Hf _ _ Hp) as (Hp0&_&_&_&Hch).
  apply Hch in Hc as (nc&Hnc&Hpar). apply (no_cycle k p Hp0).
  rewrite ancestor_S, E. unfold parent_of. by rewrite Hnc.
Qed.
Lemma under_root x : is_Some (N !! x) → ∃ r, r ∈ rs ∧ under r x.
Proof using Hf.
  destruct (fo_rank _ _ _ _ Hf) as [rank Hrank]. destruct (rank_bound N rank) as [M HM].
  remember (M - rank x)%nat as d eqn:Hd. revert x Hd.
  induction d as [d IH] using lt_wf_ind. intros x Hd [n Hn].
  destruct (decide (bn_parent n = 0)) as [E|E].
  { exists x. split; [apply (fo_root _ _ _ _ Hf); eauto|apply under_self; by exists n]. }
  destruct (fo_parent _ _ _ _ Hf _ _ Hn E) as (np&Hnp&_).
  pose proof (Hrank _ _ Hn E). pose proof (HM (bn_parent n) ltac:(by eexists)).
  destruct (IH (M - rank (bn_parent n))%nat) with (x := bn_parent n) as (r&Hr&[_ [k Hk]]); [lia|done|by exists np|].
  exists r. split; [done|]. split; [by exists n|]. exists (S k). simpl. unfold parent_of. by rewrite Hn.
Qed.

(** [l] lists the nodes below [p], once each. *)
Definition lists_under (p : Z) (l : list Z) : Prop := NoDup l ∧ ∀ x, x ∈ l ↔ under p x.

Lemma lists_concat P cs ls :
  NoDup cs → (∀ c, c ∈ cs → c ≠ 0 ∧ parent_of c = P) → Forall2 lists_under cs ls →
  NoDup (concat ls) ∧ ∀ x, x ∈ concat ls ↔ ∃ c, c ∈ cs ∧ under c x.
Proof using Hf.
  intros Hnd Hcs Hls. induction Hls as [|c l cs ls [Hl Hin] _ IH]; simpl.
  - split; [constructor|]. intros x. split; [by intros ?%elem_of_nil|]. by intros (c&?%elem_of_nil&_).
  - apply NoDup_cons in Hnd as [Hc Hnd]. destruct IH as [IHnd IHin]; [done|intros d Hd; apply Hcs; by right|].
    destruct (Hcs c) as [Hc0 Hcp]; [by left|]. split.
    + apply NoDup_app. split_and!; [done| |done]. intros x Hx1 Hx2. apply Hin in Hx1 as [_ [k1 E1]].
      apply IHin in Hx2 as (d&Hd&[_ [k2 E2]]). destruct (Hcs d) as [Hd0 Hdp]; [by right|].
      assert (c = d) as ->; [|done]. eapply sibling_unique; [..|exact E1|exact E2]; congruence.
    + intros x. rewrite elem_of_app, Hin, IHin. split.
      * intros [Hu|(d&Hd&Hu)]; [exists c; split; [by left|done]|exists d; split; [by right|done]].
      * intros (d&[->|Hd]%elem_of_cons&Hu); [by left|right; eauto].
Qed.
End ancestors.

(** ** The walk *)

Section walk.
Context {U : Type} (cb : binheap_walk_callback_t U).

(** What the callback sees, until it stops the walk. *)
Fixpoint visit_items (l : list (key * Z)) (count : Z) (u : U) : bool * Z * U :=
  match l with
  | [] => (true, count, u)
  | x :: l =>
      let '(rc, u) := cb x.1 x.2 u in
      if rc =? 1 then visit_items l (count + 1) u else (false, count + 1, u)
  end.

Lemma visit_items_app l1 l2 count u :
  visit_items (l1 ++ l2) count u =
  let '(proceed, count, u) := visit_items l1 count u in
  if proceed : bool then visit_items l2 count u else (false, count, u).
Proof using Type.
  revert count u. induction l1 as [|x l1 IH]; intros count u; simpl; [done|].
  destruct (cb x.1 x.2 u) as [rc u']. destruct (rc =? 1); [apply IH|done].
Qed.
Lemma visit_items_count l count u : count ≤ (visit_items l count u).1.2 ≤ count + Z.of_nat (length l).
Proof using Type.
  revert count u. induction l as [|x l IH]; intros count u; simpl; [lia|].
  destruct (cb x.1 x.2 u) as [rc u']. destruct (rc =? 1); [specialize (IH (count + 1) u'); lia|simpl; lia].
Qed.

Context {cmp : libhl_cmp_callback_t} {ok : key → Prop} `{!Comparator cmp ok}.
Context (mode : binheap_mode_t) (bh : Z) (Hs : gmap Z binheap_t) (N : nodes) (rs : list Z).
Context (Hf : forest (ok := ok) mode bh N rs) (Hsz : Z.of_nat (size N) < INT_MAX).

(** The callback goes on or stops, it removes nothing. *)
Context (Hcb : ∀ p n u, N !! p = Some n → (cb (bn_key n) (bn_value n) u).1 = 1 ∨
  (cb (bn_key n) (bn_value n) u).1 = 0).

Definition item_at (p : Z) : key * Z := default ([], 0) (kv <$> N !! p).
Definition see (l : list Z) := visit_items (item_at <$> l).

(** The node is walked: the result is that of the visit of [l]. *)
Definition walks (walk : Z → Z → U → B (bool * Z * U)) (p : Z) (l : list Z) : Prop :=
  ∀ count u h nx, 0 ≤ count → count + Z.of_nat (length l) < INT_MAX →
    walk p count u (mk_bworld Hs N h nx) = Ret (see l count u, mk_bworld Hs N h nx).

Lemma walk_children_returns walk p n ls count u h nx :
  N !! p = Some n → Forall2 (walks walk) (bn_children n) ls → 0 ≤ count →
  count + Z.of_nat (length (concat ls)) < INT_MAX → Z.of_nat (length ls) < INT_MAX →
  returns (loopS (walk_children_body walk p) (0, count, u) (mk_bworld Hs N h nx))
    (λ r, r = (see (concat ls) count u, mk_bworld Hs N h nx)).
Proof using Type.
  intros Hn Hls Hc0 Hlen Hll. pose proof (Forall2_length _ _ _ Hls) as Hlength. unfold INT_MAX in *.
  apply (loopS_returns _ (λ '(i, c, v) w, w = mk_bworld Hs N h nx ∧ 0 ≤ i ≤ Z.of_nat (length ls) ∧
      see (concat (take (Z.to_nat i) ls)) count u = (true, c, v))
    (λ '(i, _, _) _, Z.of_nat (length ls) - i)); [|split_and!; try done; lia|lia].
  intros [[i c] v] w (->&Hi&Hsee) _. unfold walk_children_body. go. eapply returns_load_bn; [done|]. go.
  unfold num_children. rewrite Hlength. destruct (Z.leb_spec (Z.of_nat (length ls)) i) as [Hle|Hlt]; go.
  { rewrite take_ge in Hsee by lia. by rewrite Hsee. }
  destruct (lookup_lt_is_Some_2 ls (Z.to_nat i)) as [l Hl]; [lia|].
  destruct (lookup_lt_is_Some_2 (bn_children n) (Z.to_nat i)) as [ch Hch]; [lia|].
  rewrite (list_lookup_total_correct _ _ _ Hch).
  pose proof (Forall2_lookup_lr _ _ _ _ _ _ Hls Hch Hl) as Hwalk.
  assert (concat ls = concat (take (Z.to_nat i) ls) ++ l ++ concat (drop (S (Z.to_nat i)) ls)) as Hcat.
  { rewrite <- (take_drop_middle ls (Z.to_nat i) l Hl) at 1. by rewrite concat_app. }
  assert (c = count + (c - count) ∧ 0 ≤ c - count ≤ Z.of_nat (length (concat (take (Z.to_nat i) ls)))) as [_ Hc].
  { pose proof (visit_items_count (item_at <$> concat (take (Z.to_nat i) ls)) count u) as Hv.
    unfold see in Hsee. rewrite Hsee, length_fmap in Hv. simpl in Hv. lia. }
  rewrite Hcat, !length_app in Hlen.
  rewrite Hwalk by (unfold INT_MAX; lia). rewrite Hcat. unfold see in *. rewrite !fmap_app, visit_items_app, Hsee, visit_items_app.
  destruct (visit_items (item_at <$> l) c v) as [[proceed c'] v'] eqn:E. simpl. destruct proceed; simpl; [|done].
  split_and!; try done; try lia. replace (Z.to_nat (i + 1)) with (S (Z.to_nat i)) by lia.
  rewrite (take_S_r _ _ l Hl), concat_app, fmap_app, visit_items_app, Hsee. simpl. by rewrite app_nil_r, E.
Qed.

Lemma exists_Forall2 {A C} (P : A → C → Prop) (l : list A) :
  (∀ x, x ∈ l → ∃ y, P x y) → ∃ k, Forall2 P l k.
Proof using Type.
  induction l as [|x l IH]; intros H; [by exists []|].
  destruct (H x) as [y Hy]; [by left|]. destruct IH as [k Hk]; [intros z Hz; apply H; by right|].
  exists (y :: k). by constructor.
Qed.

Lemma tree_walk rank depth p n :
  (∀ c nc, N !! c = Some nc → bn_parent nc ≠ 0 → (rank c < rank (bn_parent nc))%nat) →
  N !! p = Some n → below rank N p < Z.of_nat depth →
  ∃ l, lists_under N p l ∧ walks (binomial_tree_walk depth cb) p l.
Proof using All.
  intros Hrank. revert p n. induction depth as [|depth IH]; intros p n Hp Hd.
  { pose proof (below_bound rank N p). lia. }
  destruct (fo_node _ _ _ _ Hf _ _ Hp) as (Hp0&_&_&Hnd&Hch).
  destruct (exists_Forall2 (λ c l, lists_under N c l ∧ walks (binomial_tree_walk depth cb) c l) (bn_children n))
    as [ls Hls].
  { intros c (nc&Hnc&Hpar)%Hch. apply (IH c nc Hnc).
    pose proof (below_decreases rank N p c nc Hnc) as Hdec. rewrite <- Hpar in Hdec.
    specialize (Hdec (Hrank _ _ Hnc ltac:(congruence))). rewrite Hpar in Hdec. lia. }
  assert (Forall2 (lists_under N) (bn_children n) ls) as Hl by (eapply Forall2_impl; [exact Hls|by intros ?? [? _]]).
  assert (Forall2 (walks (binomial_tree_walk depth cb)) (bn_children n) ls) as Hw
    by (eapply Forall2_impl; [exact Hls|by intros ?? [_ ?]]).
  destruct (lists_concat mode bh N rs Hf p (bn_children n) ls) as [Hcnd Hcin]; [done| |done|].
  { intros c (nc&Hnc&Hpar)%Hch. destruct (fo_node _ _ _ _ Hf _ _ Hnc) as [? _].
    split; [done|]. unfold parent_of. by rewrite Hnc. }
  exists (p :: concat ls). split.
  - split.
    + apply NoDup_cons. split; [|done]. intros (c&Hc&Hu)%Hcin. by eapply (not_under_child mode bh N rs Hf p n c).
    + intros x. by rewrite elem_of_cons, Hcin, (under_child mode bh N rs Hf p n x Hp).
  - intros count u h nx Hc0 Hlen. simpl in Hlen.
    assert (length ls ≤ size N)%nat as Hll.
    { rewrite <- (Forall2_length _ _ _ Hw). apply nodes_length; [done|]. intros c (nc&Hnc&_)%Hch. by exists nc. }
    enough (returns (binomial_tree_walk (S depth) cb p count u (mk_bworld Hs N h nx))
      (λ r, r = (see (p :: concat ls) count u, mk_bworld Hs N h nx))) as Hret.
    { by apply returns_inv in Hret as (r&->&->). }
    simpl. go. eapply returns_load_bn; [done|]. go. unfold see. simpl.
    assert (item_at p = kv n) as -> by (unfold item_at; by rewrite Hp). simpl.
    pose proof (Hcb p n u Hp) as Hrc. destruct (cb (bn_key n) (bn_value n) u) as [rc v]. simpl in Hrc.
    destruct Hrc as [->| ->]; [|by go]. go.
    eapply returns_mono; [apply (walk_children_returns _ p n ls (count + 1) v h nx); try done; lia|].
    intros r ->. unfold see. by destruct (visit_items _ _ _) as [[??]?].
Qed.

Lemma walk_roots_returns trees R depth b ls u h nx (Q : Z * U * bworld → Prop) :
  Hs !! bh = Some b → bh_trees b = trees → lists trees R h rs →
  Forall2 (walks (binomial_tree_walk depth cb)) rs ls → Z.of_nat (length (concat ls)) < INT_MAX →
  (∀ h', lists trees R h' rs → let '(_, c, v) := see (concat ls) 0 u in Q (c, v, mk_bworld Hs N h' nx)) →
  returns (binheap_walk depth bh cb u (mk_bworld Hs N h nx)) Q.
Proof using Type.
  intros Hb Ht Hl Hls Hlen HQ. pose proof (Forall2_length _ _ _ Hls) as Hlength. unfold binheap_walk.
  assert (Z.of_nat (length rs) + 1 < INT_MAX) as Hrs by apply Hl. unfold INT_MAX in *.
  apply (loopS_returns _ (λ '(i, c, v) w, 0 ≤ i ≤ Z.of_nat (length rs) ∧
      see (concat (take (Z.to_nat i) ls)) 0 u = (true, c, v) ∧
      ∃ h, w = mk_bworld Hs N h nx ∧ lists trees R h rs)
    (λ '(i, _, _) _, Z.of_nat (length rs) - i)); [| |lia].
  2:{ split_and!; try done; [lia|]. by exists h. }
  intros [[i c] v] w (Hi&Hsee&h1&->&Hl1) _. unfold walk_roots_body. go. eapply returns_load_bh; [done|]. go.
  rewrite Ht. apply returns_on_list. apply (count_roots trees R _ rs); [done|]. intros h2 Hl2.
  rewrite as_int_u32 by (int_bounds; lia).
  destruct (Z.leb_spec (Z.of_nat (length rs)) i) as [Hle|Hlt]; go.
  { rewrite take_ge in Hsee by lia. specialize (HQ h2 Hl2). by rewrite Hsee in HQ. }
  apply returns_on_list. apply (pick_roots trees R _ rs); [done|lia|]. intros h3 r Hr Hl3. go.
  destruct (lookup_lt_is_Some_2 ls (Z.to_nat i)) as [l Hl']; [lia|].
  pose proof (Forall2_lookup_lr _ _ _ _ _ _ Hls Hr Hl') as Hwalk.
  assert (concat ls = concat (take (Z.to_nat i) ls) ++ l ++ concat (drop (S (Z.to_nat i)) ls)) as Hcat.
  { rewrite <- (take_drop_middle ls (Z.to_nat i) l Hl') at 1. by rewrite concat_app. }
  assert (0 ≤ c ≤ Z.of_nat (length (concat (take (Z.to_nat i) ls)))) as Hc.
  { pose proof (visit_items_count (item_at <$> concat (take (Z.to_nat i) ls)) 0 u) as Hv.
    unfold see in Hsee. rewrite Hsee, length_fmap in Hv. simpl in Hv. lia. }
  rewrite Hcat, !length_app in Hlen.
  rewrite Hwalk by (unfold INT_MAX; lia). rewrite Hcat in HQ. unfold see in *.
  rewrite !fmap_app, visit_items_app, Hsee, visit_items_app in HQ.
  destruct (visit_items (item_at <$> l) c v) as [[proceed c'] v'] eqn:E. simpl.
  destruct proceed; simpl; [|by apply HQ].
  split; [|lia]. split; [lia|]. split; [|by exists h3].
  replace (Z.to_nat (i + 1)) with (S (Z.to_nat i)) by lia.
  rewrite (take_S_r _ _ l Hl'), concat_app, fmap_app, visit_items_app, Hsee. simpl. by rewrite app_nil_r, E.
Qed.

(** The nodes below the roots are all the nodes. *)
Lemma concat_items ls :
  Forall2 (lists_under N) rs ls → (item_at <$> concat ls) ≡ₚ queue_of N ∧ length (concat ls) = size N.
Proof using Hf.
  intros Hls. destruct (lists_concat mode bh N rs Hf 0 rs ls) as [Hnd Hin]; [by eapply fo_nodup| |done|].
  { intros r (n&Hn&Hpar)%(fo_root _ _ _ _ Hf). destruct (fo_node _ _ _ _ Hf _ _ Hn) as [? _].
    split; [done|]. unfold parent_of. by rewrite Hn. }
  assert (concat ls ≡ₚ (map_to_list N).*1) as HP.
  { apply NoDup_Permutation; [done|apply NoDup_fst_map_to_list|]. intros x. rewrite Hin. split.
    - intros (c&_&[[n Hn] _]). apply list_elem_of_fmap. exists (x, n). split; [done|].
      by apply elem_of_map_to_list.
    - intros ([y n]&->&Hy%elem_of_map_to_list)%list_elem_of_fmap. simpl.
      apply (under_root mode bh N rs Hf). by exists n. }
  split; [|by rewrite HP, length_fmap, length_map_to_list].
  rewrite HP. unfold queue_of, contents. rewrite map_to_list_fmap, <- !list_fmap_compose.
  erewrite list_fmap_ext; [reflexivity|]. intros j [y n] Hy. simpl.
  apply list_elem_of_lookup_2, elem_of_map_to_list in Hy. unfold item_at. by rewrite Hy.
Qed.
End walk.

Section walk_rep.
Context {cmp : libhl_cmp_callback_t} {ok : key → Prop} `{!Comparator cmp ok}.
Context {U : Type} (cb : binheap_walk_callback_t U).

Lemma walk_rep_returns bh mode trees F R lo s w depth u :
  rep (ok := ok) bh mode trees F R lo s w → (length s < depth)%nat →
  (∀ x u, x ∈ s → (cb x.1 x.2 u).1 = 1 ∨ (cb x.1 x.2 u).1 = 0) →
  returns (binheap_walk depth bh cb u w) (λ '(c, v, w'), ∃ order, order ≡ₚ s ∧
    rep (ok := ok) bh mode trees F R lo s w' ∧ (c, v) = ((visit_items cb order 0 u).1.2, (visit_items cb order 0 u).2)).
Proof using Type.
  intros (b&N&rs&Hb&HF&HN&Hm&Htr&Hinv&Hl&Hnx&Hfresh&Hs') Hdepth Hcb.
  destruct w as [Hs N0 h nx]. simpl in *. subst N0.
  pose proof (hi_forest _ _ _ _ Hinv) as Hf. pose proof (hi_size _ _ _ _ Hinv) as Hsz.
  rewrite Hs', queue_length in Hdepth. destruct (fo_rank _ _ _ _ Hf) as [rank Hrank].
  assert (∀ p n u, N !! p = Some n → (cb (bn_key n) (bn_value n) u).1 = 1 ∨
    (cb (bn_key n) (bn_value n) u).1 = 0) as Hcb'.
  { intros p n v Hn. apply (Hcb (kv n) v). rewrite Hs'. apply queue_elem. eauto. }
  destruct (exists_Forall2 (λ r l, lists_under N r l ∧ walks cb Hs N (binomial_tree_walk depth cb) r l) rs)
    as [ls Hls].
  { intros r (n&Hn&_)%(fo_root _ _ _ _ Hf). pose proof (below_bound rank N r).
    eapply (tree_walk cb (bh_mode b) bh Hs N rs Hf); try done; lia. }
  assert (Forall2 (lists_under N) rs ls) as Hl1 by (eapply Forall2_impl; [exact Hls|by intros ?? [? _]]).
  assert (Forall2 (walks cb Hs N (binomial_tree_walk depth cb)) rs ls) as Hl2
    by (eapply Forall2_impl; [exact Hls|by intros ?? [_ ?]]).
  destruct (concat_items (bh_mode b) bh N rs Hf ls Hl1) as [HP Hlen].
  eapply (walk_roots_returns cb bh Hs N rs trees R depth b ls); try done; [by rewrite <- Htr|lia|].
  intros h' Hl'. destruct (see cb N (concat ls) 0 u) as [[proceed c] v] eqn:E.
  exists (item_at N <$> concat ls). unfold see in E. rewrite E. split_and!; [by rewrite HP|..|done].
  exists b, N, rs. simpl. rewrite Htr. split_and!; done || lia.
Qed.
End walk_rep.

(** [binheap_walk] with a callback that removes nothing calls it once on
    each item of the queue, in some order, until it asks to stop; what is
    returned is the number of calls, and the heap stays the same. *)
Theorem binheap_walk_visits {cmp : libhl_cmp_callback_t} {ok : key → Prop} `{!Comparator cmp ok}
    {U : Type} (cb : binheap_walk_callback_t U) bh mode trees F R lo s w depth u :
  rep (ok := ok) bh mode trees F R lo s w → (length s < depth)%nat →
  (∀ x u, x ∈ s → (cb x.1 x.2 u).1 = 1 ∨ (cb x.1 x.2 u).1 = 0) →
  returns (binheap_walk depth bh cb u w) (λ '(c, v, w'), ∃ order, order ≡ₚ s ∧
    rep (ok := ok) bh mode trees F R lo s w' ∧
    (c, v) = ((visit_items cb order 0 u).1.2, (visit_items cb order 0 u).2)).
Proof. apply walk_rep_returns. Qed.

Lemma binheap_walk_visits_witness :
  match three_items no_world with
  | Ret (bh, w) => ∃ s, ∀ depth, (length s < depth)%nat →
      returns (binheap_walk depth bh (λ _ v seen, (1, seen ++ [v])) [] w) (λ '(c, seen, _),
        ∃ order, order ≡ₚ s ∧
          (c, seen) = ((visit_items (λ _ v seen, (1, seen ++ [v])) order 0 []).1.2,
                       (visit_items (λ _ v seen, (1, seen ++ [v])) order 0 []).2))
  | _ => False
  end.
Proof.
  pose proof (three_items_rep no_world no_world_fresh) as H.
  destruct (three_items no_world) as [[bh w]| |]; [|done|done]. destruct H as (trees&s&Hrep).
  exists s. intros depth Hd.
  eapply returns_mono; [apply (binheap_walk_visits (cmp := libhl_cmp_keys_uint64) (ok := small_key)
    (λ _ v seen, (1, seen ++ [v])) bh BINHEAP_MODE_MAX trees ∅ ∅ 1 s w depth [] Hrep Hd)|].
  - by left.
  - intros [[c seen] w'] (order&HP&_&E). by exists order.
Defined.
