(* ===== verification/Pqueue.v ===== *)
(** * Priority queues (src/src/pqueue.c, src/src/pqueue.h)

    A binomial heap whose keys are 64-bit priorities and whose values are
    items, allocated objects with the value and the priority.  The queue
    itself is one object; its lock is a Boolean. *)

From S2P Require Import Prelude Linklist Comparators Binheap.

(** ** Data *)

Inductive pqueue_mode_t := PQUEUE_MODE_HIGHEST | PQUEUE_MODE_LOWEST.

Record pqueue_item_t := mk_item { pi_value : Z; pi_prio : Z }.
Record pqueue_t := mk_pqueue {
  pq_heap : Z; pq_max_size : Z; pq_free_value_cb : bool; pq_mode : pqueue_mode_t; pq_lock : bool
}.

(** [pw_freed]: the values the free callback was called with. *)
Record pworld := mk_pworld {
  pw_pq : option pqueue_t; pw_items : gmap Z pqueue_item_t; pw_b : bworld; pw_freed : list Z
}.

Abbreviation Pq := (ST pworld).

Definition load_pq : Pq pqueue_t := λ w,
  match pw_pq w with Some q => Ret (q, w) | None => Undef end.
Definition put_pq (q : option pqueue_t) : Pq unit :=
  modify (λ w, mk_pworld q (pw_items w) (pw_b w) (pw_freed w)).
Definition on_heap {A} (m : B A) : Pq A := λ w,
  '(a, b) ← m (pw_b w); Ret (a, mk_pworld (pw_pq w) (pw_items w) b (pw_freed w)).
Definition load_item (p : Z) : Pq pqueue_item_t := λ w,
  match pw_items w !! p with Some i => Ret (i, w) | None => Undef end.
Definition set_items (g : gmap Z pqueue_item_t → gmap Z pqueue_item_t) : Pq unit :=
  modify (λ w, mk_pworld (pw_pq w) (g (pw_items w)) (pw_b w) (pw_freed w)).
Definition free_item (p : Z) : Pq unit := _ ← load_item p; set_items (delete p).
Definition pq_call_free (v : Z) : Pq unit :=
  modify (λ w, mk_pworld (pw_pq w) (pw_items w) (pw_b w) (pw_freed w ++ [v])).

Definition with_lock (l : bool) (q : pqueue_t) : pqueue_t :=
  mk_pqueue (pq_heap q) (pq_max_size q) (pq_free_value_cb q) (pq_mode q) l.

(** The mutex is not recursive: locking it twice blocks for ever. *)
Definition deadlock {A} : Pq A := λ _, Diverge.
Definition lock_pq : Pq unit :=
  q ← load_pq;
  if pq_lock q then deadlock else put_pq (Some (with_lock true q)).
Definition unlock_pq : Pq unit :=
  q ← load_pq;
  if pq_lock q then put_pq (Some (with_lock false q)) else undef.

(** ** Operations *)

Definition pqueue_create (mode : pqueue_mode_t) (size : Z) (free_value_cb : bool) : Pq bool :=
  pq ← on_heap new_block;
  if pq =? 0 then mret false else
  heap ← on_heap (binheap_create (Some (BINHEAP_KEY_CALLBACKS_TYPE uint64_t))
                    (match mode with PQUEUE_MODE_HIGHEST => BINHEAP_MODE_MAX
                                   | PQUEUE_MODE_LOWEST => BINHEAP_MODE_MIN end));
  _ ← put_pq (Some (mk_pqueue heap size free_value_cb mode false));
  mret true.

Definition drop_body (num_items : Z) (deleted : Z) : Pq (Z + unit) :=
  q ← load_pq;
  n ← on_heap (binheap_count (pq_heap q));
  if (n =? 0) || (num_items <=? deleted) then mret (inr tt) else
  '(_, v) ← on_heap (match pq_mode q with
                     | PQUEUE_MODE_HIGHEST => binheap_delete_minimum (pq_heap q)
                     | PQUEUE_MODE_LOWEST => binheap_delete_maximum (pq_heap q)
                     end);
  let deleted_item := default 0 v in
  _ ← (if deleted_item =? 0 then mret tt else
       i ← load_item deleted_item;
       _ ← (if pq_free_value_cb q then pq_call_free (pi_value i) else mret tt);
       free_item deleted_item);
  mret (inl (deleted + 1)).
Definition pqueue_drop_items (num_items : Z) : Pq unit := loopS (drop_body num_items) 0.

Definition pqueue_destroy : Pq unit :=
  q ← load_pq;
  n ← on_heap (binheap_count (pq_heap q));
  _ ← pqueue_drop_items n;
  _ ← on_heap (binheap_destroy (pq_heap q));
  put_pq None.

(** [prio] is a [uint64_t], stored in the item and copied as the key. *)
Definition pqueue_insert (prio value : Z) : Pq Z :=
  item ← on_heap new_block;
  if item =? 0 then mret (-1) else
  _ ← set_items <[item := mk_item value prio]>;
  _ ← lock_pq;
  q ← load_pq;
  rc ← on_heap (binheap_insert (pq_heap q) (le_bytes 8 prio) item);
  n ← on_heap (binheap_count (pq_heap q));
  _ ← (if pq_max_size q <? n then pqueue_drop_items (u64 (n - pq_max_size q)) else mret tt);
  _ ← unlock_pq;
  mret rc.

(** What a pull returns and stores through [value] and [prio]. *)
Definition pull (delete : pqueue_mode_t → Z → B (Z * option Z)) (value prio : bool) :
    Pq (Z * option Z * option Z) :=
  _ ← lock_pq;
  q ← load_pq;
  '(rc, v) ← on_heap (delete (pq_mode q) (pq_heap q));
  _ ← unlock_pq;
  if negb (rc =? 0) then mret (rc, None, None) else
  let item := default 0 v in
  i ← load_item item;
  _ ← (if value then mret tt
       else if pq_free_value_cb q then pq_call_free (pi_value i) else mret tt);
  _ ← free_item item;
  mret (rc, if value then Some (pi_value i) else None, if prio then Some (pi_prio i) else None).

Definition delete_highest (mode : pqueue_mode_t) : Z → B (Z * option Z) :=
  match mode with
  | PQUEUE_MODE_HIGHEST => binheap_delete_maximum
  | PQUEUE_MODE_LOWEST => binheap_delete_minimum
  end.
Definition delete_lowest (mode : pqueue_mode_t) : Z → B (Z * option Z) :=
  match mode with
  | PQUEUE_MODE_HIGHEST => binheap_delete_minimum
  | PQUEUE_MODE_LOWEST => binheap_delete_maximum
  end.
Definition pqueue_pull_highest (value prio : bool) : Pq (Z * option Z * option Z) :=
  pull delete_highest value prio.
Definition pqueue_pull_lowest (value prio : bool) : Pq (Z * option Z * option Z) :=
  pull delete_lowest value prio.

(** The callback gets the priority of the key and the value of the node. *)
Definition pqueue_walk_callback_t U := Z → Z → U → Z * U.
Definition pqueue_walk_helper {U} (cb : pqueue_walk_callback_t U) : binheap_walk_callback_t U :=
  λ k value priv, cb (int_value uint64_t k) value priv.
Definition pqueue_walk {U} (depth : nat) (cb : pqueue_walk_callback_t U) (priv : U) : Pq (Z * U) :=
  q ← load_pq;
  on_heap (binheap_walk depth (pq_heap q) (pqueue_walk_helper cb) priv).

(** Nothing sets [found]. *)
Definition pqueue_remove_helper (arg_value : Z) : pqueue_walk_callback_t bool :=
  λ prio value found, (if value =? arg_value then -2 else 1, found).
Definition pqueue_remove (depth : nat) (value : Z) : Pq Z :=
  '(_, found) ← pqueue_walk depth (pqueue_remove_helper value) false;
  mret (if found : bool then 0 else -1).

Definition pqueue_count : Pq Z :=
  _ ← lock_pq;
  q ← load_pq;
  count ← on_heap (binheap_count (pq_heap q));
  _ ← unlock_pq;
  mret count.
