(* ===== verification/PqueueSpec.v ===== *)
(** * Priority queues implement bounded bags of prioritised values

    The specification of src/src/pqueue.c is a multiset of items, a list up to
    permutation.  For priorities below [2 ^ 31], which the comparator of the
    heap orders, the operations on a queue are those on the multiset. *)

From S2P Require Import Prelude Linklist Comparators Binheap BinheapForest BinheapSpec BinheapWalk Pqueue.

#[local] Arguments le_bytes : simpl never.

(** ** Operations and results *)

Inductive pqop :=
  | PInsert (prio value : Z) | PPullHighest (value prio : bool) | PPullLowest (value prio : bool) | PCount.
Inductive pqres := PInt (rc : Z) | PItem (rc : Z) (value prio : option Z).

Definition run_pqop (o : pqop) : Pq pqres :=
  match o with
  | PInsert p v => rc ← pqueue_insert p v; mret (PInt rc)
  | PPullHighest v p => '(rc, value, prio) ← pqueue_pull_highest v p; mret (PItem rc value prio)
  | PPullLowest v p => '(rc, value, prio) ← pqueue_pull_lowest v p; mret (PItem rc value prio)
  | PCount => n ← pqueue_count; mret (PInt n)
  end.
Fixpoint run_pqops (os : list pqop) : Pq (list pqres) :=
  match os with
  | [] => mret []
  | o :: os => r ← run_pqop o; rs ← run_pqops os; mret (r :: rs)
  end.

(** ** The specification *)

Abbreviation bag := (list pqueue_item_t).

(** No item of the bag comes before [i]. *)
Definition leads (mode : pqueue_mode_t) (s : bag) (i : pqueue_item_t) : Prop :=
  i ∈ s ∧ ∀ j, j ∈ s →
    match mode with PQUEUE_MODE_HIGHEST => pi_prio j ≤ pi_prio i | PQUEUE_MODE_LOWEST => pi_prio i ≤ pi_prio j end.

Definition given (wanted : bool) (x : Z) : option Z := if wanted then Some x else None.

Section spec.
Context (mode : pqueue_mode_t) (max : Z) (cb : bool).

(** What the free callback gets for the items given up. *)
Definition released (d : bag) : list Z := if cb then pi_value <$> d else [].

(** A step with the values released by it. *)
Inductive pstep : bag → pqop → pqres → list Z → bag → Prop :=
  | p_insert s p v d s' :
      mk_item v p :: s ≡ₚ d ++ s' →
      Z.of_nat (length d) = Z.max 0 (Z.of_nat (S (length s)) - max) →
      pstep s (PInsert p v) (PInt 0) (released d) s'
  | p_highest_empty wv wp : pstep [] (PPullHighest wv wp) (PItem (-1) None None) [] []
  | p_highest s wv wp i s' :
      leads mode s i → s ≡ₚ i :: s' →
      pstep s (PPullHighest wv wp) (PItem 0 (given wv (pi_value i)) (given wp (pi_prio i)))
        (if wv then [] else released [i]) s'
  | p_lowest_empty wv wp : pstep [] (PPullLowest wv wp) (PItem (-1) None None) [] []
  | p_lowest s wv wp i s' :
      s ≡ₚ i :: s' →
      pstep s (PPullLowest wv wp) (PItem 0 (given wv (pi_value i)) (given wp (pi_prio i)))
        (if wv then [] else released [i]) s'
  | p_count s : pstep s PCount (PInt (Z.of_nat (length s))) [] s.

Inductive psteps : bag → list pqop → list pqres → list Z → bag → Prop :=
  | psteps_nil s : psteps s [] [] [] s
  | psteps_cons s o r f s1 os rs f' s2 :
      pstep s o r f s1 → psteps s1 os rs f' s2 → psteps s (o :: os) (r :: rs) (f ++ f') s2.

Definition pop_ok (o : pqop) : Prop := match o with PInsert p _ => 0 ≤ p < 2 ^ 31 | _ => True end.

(** ** The queue of a bag *)

Definition heap_mode : binheap_mode_t :=
  match mode with PQUEUE_MODE_HIGHEST => BINHEAP_MODE_MAX | PQUEUE_MODE_LOWEST => BINHEAP_MODE_MIN end.

(** The key and value in the heap of the item at [p]. *)
Definition entry (x : Z * pqueue_item_t) : key * Z := (le_bytes 8 (pi_prio x.2), x.1).
Definition entries (I : gmap Z pqueue_item_t) : list (key * Z) := entry <$> map_to_list I.
Definition bag_of (I : gmap Z pqueue_item_t) : bag := (map_to_list I).*2.

#[local] Abbreviation heap_rep := (rep (cmp := libhl_cmp_keys_uint64) (ok := small_key)).

Record pq_rep (lock : bool) (F : gmap Z binheap_t) (R : gmap Z obj) (s : bag) (w : pworld) : Prop := {
  pr_queue : ∃ bh trees lo, pw_pq w = Some (mk_pqueue bh max cb mode lock) ∧
    heap_rep bh heap_mode trees F R lo (entries (pw_items w)) (pw_b w) ∧ 0 < lo;
  pr_items : ∀ p i, pw_items w !! p = Some i → 0 < p < bw_next (pw_b w) ∧ 0 ≤ pi_prio i < 2 ^ 31;
  pr_bag : s ≡ₚ bag_of (pw_items w)
}.

Lemma entries_length I : length (entries I) = length (bag_of I).
Proof using Type. unfold entries, bag_of. by rewrite !length_fmap. Qed.
Lemma entries_insert I p i :
  I !! p = None → entries (<[p := i]> I) ≡ₚ entry (p, i) :: entries I ∧ bag_of (<[p := i]> I) ≡ₚ i :: bag_of I.
Proof using Type. intros Hp. unfold entries, bag_of. by rewrite !map_to_list_insert. Qed.
Lemma entries_delete I p i :
  I !! p = Some i → entries I ≡ₚ entry (p, i) :: entries (delete p I) ∧ bag_of I ≡ₚ i :: bag_of (delete p I).
Proof using Type. intros Hp. unfold entries, bag_of. by rewrite <- (map_to_list_delete I p i) by done. Qed.

(** An item taken from the heap is one of the bag. *)
Lemma entries_take I x s' :
  entries I ≡ₚ x :: s' → ∃ i, I !! x.2 = Some i ∧ x = entry (x.2, i) ∧ s' ≡ₚ entries (delete x.2 I).
Proof using Type.
  intros HP. assert (x ∈ entries I) as Hx by (rewrite HP; by left).
  unfold entries in Hx. apply list_elem_of_fmap in Hx as ([p i]&->&Hp%elem_of_map_to_list).
  exists i. simpl. split_and!; [done|done|]. destruct (entries_delete I p i Hp) as [HP' _].
  rewrite HP' in HP. symmetry. by apply Permutation_cons_inv in HP.
Qed.

Lemma entry_leads I x i s :
  (∀ p i, I !! p = Some i → 0 ≤ pi_prio i < 2 ^ 31) → s ≡ₚ bag_of I → I !! x.2 = Some i → x = entry (x.2, i) →
  first_item (cmp := libhl_cmp_keys_uint64) (ok := small_key) heap_mode (entries I) x → leads mode s i.
Proof using Type.
  intros Hpr HP Hi Hx [_ Hall].
  assert (∀ j, j ∈ s → ∃ p, I !! p = Some j) as Hs.
  { intros j Hj. rewrite HP in Hj. unfold bag_of in Hj. apply list_elem_of_fmap in Hj as ([p j']&->&Hp).
    exists p. by apply elem_of_map_to_list in Hp. }
  split.
  - rewrite HP. unfold bag_of. apply list_elem_of_fmap. exists (x.2, i). split; [done|].
    by apply elem_of_map_to_list.
  - intros j Hj. destruct (Hs j Hj) as [q Hq].
    assert (entry (q, j) ∈ entries I) as Hin.
    { unfold entries. apply list_elem_of_fmap. exists (q, j). split; [done|]. by apply elem_of_map_to_list. }
    specialize (Hall _ Hin). rewrite Hx in Hall. unfold entry in Hall. cbn [fst snd] in Hall.
    pose proof (Hpr _ _ Hi) as Hpi. pose proof (Hpr _ _ Hq) as Hpj.
    unfold precedes, heap_mode in *. destruct mode; cbn [cmp_sign uint64_comparator] in Hall;
      rewrite !le_value_bytes in Hall by (simpl; lia); lia.
Qed.

(** ** The operations *)

Section ops.
Context (F : gmap Z binheap_t) (R : gmap Z obj).

Lemma returns_on_heap {A} (m : B A) w Q :
  returns (m (pw_b w)) (λ '(a, b), Q (a, mk_pworld (pw_pq w) (pw_items w) b (pw_freed w))) →
  returns (on_heap m w) Q.
Proof using Type. intros Hm. unfold on_heap. go. eapply returns_mono; [exact Hm|]. by intros [a b]. Qed.

Lemma lock_returns s w (Q : unit * pworld → Prop) :
  pq_rep false F R s w →
  (∀ w', pq_rep true F R s w' → pw_freed w' = pw_freed w → pw_items w' = pw_items w → pw_b w' = pw_b w →
    Q (tt, w')) →
  returns (lock_pq w) Q.
Proof using Type.
  intros [(bh&trees&lo&Hq&Hrep&Hlo) Hit Hbag] HQ. unfold lock_pq, load_pq. go. rewrite Hq. go. simpl.
  unfold put_pq. go. apply HQ; try done. split; [|done..]. by exists bh, trees, lo.
Qed.
Lemma unlock_returns s w (Q : unit * pworld → Prop) :
  pq_rep true F R s w →
  (∀ w', pq_rep false F R s w' → pw_freed w' = pw_freed w → Q (tt, w')) →
  returns (unlock_pq w) Q.
Proof using Type.
  intros [(bh&trees&lo&Hq&Hrep&Hlo) Hit Hbag] HQ. unfold unlock_pq, load_pq. go. rewrite Hq. go. simpl.
  unfold put_pq. go. apply HQ; try done. split; [|done..]. by exists bh, trees, lo.
Qed.

(** Taking an item from the heap; the client then frees it. *)
Lemma heap_delete_returns l e s w bh :
  pq_rep l F R s w → pw_pq w = Some (mk_pqueue bh max cb mode l) →
  returns (on_heap (delete_end e bh) w) (λ '(rc, v, w'),
    pw_pq w' = pw_pq w ∧ pw_items w' = pw_items w ∧ pw_freed w' = pw_freed w ∧
    (s = [] ∧ rc = -1 ∧ v = None ∧ pq_rep l F R [] w' ∨
     ∃ i p s', rc = 0 ∧ v = Some p ∧ p ≠ 0 ∧ pw_items w !! p = Some i ∧ s ≡ₚ i :: s' ∧
       (e = is_min heap_mode → leads mode s i) ∧
       ∀ f, pq_rep l F R s' (mk_pworld (pw_pq w') (delete p (pw_items w)) (pw_b w') f))).
Proof using Type.
  intros [(bh'&trees&lo&Hq&Hrep&Hlo) Hit Hbag] Hq'. rewrite Hq in Hq'. injection Hq' as ->.
  apply returns_on_heap. apply rep_next in Hrep as [Hle Hrep].
  eapply returns_mono; [by apply (delete_end_returns bh heap_mode trees F R (bw_next (pw_b w)) e)|].
  intros [[rc v] b'] (s'&Hrep'&Hcase). apply rep_next in Hrep' as [Hle' Hrep'].
  split_and!; [done..|]. destruct Hcase as [(E&->&->&->)|(x&->&->&HP&Hfirst)].
  - left. assert (s = []) as ->.
    { apply length_zero_iff_nil. by rewrite Hbag, <- entries_length, E. }
    split_and!; try done. split; simpl; try done.
    + exists bh, trees, (bw_next b'). rewrite E. split_and!; [done|done|lia].
    + intros p i Hp. destruct (Hit p i Hp). lia.
  - right. apply entries_take in HP as (i&Hi&Hx&HP). exists i, x.2, (bag_of (delete x.2 (pw_items w))).
    destruct (Hit _ _ Hi) as [Hp0 Hpr].
    assert (∀ p j, delete x.2 (pw_items w) !! p = Some j →
      0 < p < bw_next b' ∧ 0 ≤ pi_prio j < 2 ^ 31) as Hit'.
    { intros p j [_ Hp]%lookup_delete_Some. destruct (Hit p j Hp). lia. }
    split_and!; try done; [lia| | |].
    + rewrite Hbag. by apply entries_delete.
    + intros He. apply (entry_leads (pw_items w) x i s); try done; [|by apply Hfirst].
      intros p j Hp. by destruct (Hit p j Hp).
    + intros f. split; simpl; try done. exists bh, trees, (bw_next b'). split_and!; [done| |lia].
      by apply (rep_perm bh heap_mode trees F R (bw_next b') s').
Qed.

Lemma rep_load l s w (Q : pqueue_t * pworld → Prop) :
  pq_rep l F R s w → (∀ bh, pw_pq w = Some (mk_pqueue bh max cb mode l) → Q (mk_pqueue bh max cb mode l, w)) →
  returns (load_pq w) Q.
Proof using Type.
  intros [(bh&trees&lo&Hq&_&_) _ _] HQ. unfold load_pq. rewrite Hq. by apply HQ.
Qed.
Lemma rep_count l s w bh (Q : Z * pworld → Prop) :
  pq_rep l F R s w → pw_pq w = Some (mk_pqueue bh max cb mode l) → Q (Z.of_nat (length s), w) →
  returns (on_heap (binheap_count bh) w) Q.
Proof using Type.
  intros [(bh'&trees&lo&Hq&Hrep&_) _ Hbag] Hq' HQ. rewrite Hq in Hq'. injection Hq' as ->.
  apply returns_on_heap. eapply (count_returns bh heap_mode trees F R lo); [exact Hrep|].
  rewrite entries_length, <- Hbag. by destruct w.
Qed.
Lemma rep_same l s w w' :
  pw_pq w' = pw_pq w → pw_items w' = pw_items w → pw_b w' = pw_b w →
  pq_rep l F R s w → pq_rep l F R s w'.
Proof using Type. intros E1 E2 E3 [Hq Hit Hbag]. split; rewrite ?E1, ?E2, ?E3; done. Qed.

Lemma rep_size l s w : pq_rep l F R s w → Z.of_nat (length s) + 2 < INT_MAX.
Proof using Type.
  intros [(bh&trees&lo&_&(b&N&rs&_&_&_&_&_&Hinv&_&_&_&Hs)&_) _ Hbag].
  rewrite Hbag, <- entries_length, Hs, queue_length. apply Hinv.
Qed.

(** The deletion and the freeing of an item. *)
Lemma released_app d d' : released (d ++ d') = released d ++ released d'.
Proof using Type. unfold released. destruct cb; [apply fmap_app|done]. Qed.

(** [pqueue_drop_items]: some items are dropped. *)
Lemma drop_returns l num s w (Q : unit * pworld → Prop) :
  pq_rep l F R s w → 0 ≤ num ≤ Z.of_nat (length s) →
  (∀ d s' w', s ≡ₚ d ++ s' → Z.of_nat (length d) = num → pq_rep l F R s' w' →
    pw_freed w' = pw_freed w ++ released d → pw_pq w' = pw_pq w → Q (tt, w')) →
  returns (pqueue_drop_items num w) Q.
Proof using Type.
  intros Hrep Hnum HQ. pose proof (rep_size _ _ _ Hrep) as Hsz. unfold INT_MAX in Hsz.
  unfold pqueue_drop_items.
  apply (loopS_returns _ (λ deleted w', ∃ d s', deleted = Z.of_nat (length d) ∧ deleted ≤ num ∧
      s ≡ₚ d ++ s' ∧ pq_rep l F R s' w' ∧ pw_freed w' = pw_freed w ++ released d ∧
      pw_pq w' = pw_pq w)
    (λ deleted _, num - deleted)); [| |lia].
  2:{ exists [], s. split_and!; try done; [lia|]. unfold released. destruct cb; by rewrite app_nil_r. }
  intros deleted w1 (d&s1&->&Hle&HP&Hrep1&Hfr&Hqq) _. unfold drop_body. go.
  eapply rep_load; [done|]. intros bh Hq. go. simpl pq_heap.
  eapply (rep_count l s1 w1 bh); [done|done|]. go.
  assert (length s = (length d + length s1)%nat) as Hlen by (rewrite HP; apply length_app).
  destruct (_ || _) eqn:E; go.
  { apply (HQ d s1); try done. destruct (orb_prop _ _ E); bool_prop; lia. }
  bool_prop. cbn [pq_heap pq_mode pq_free_value_cb].
  replace (match mode with PQUEUE_MODE_HIGHEST => binheap_delete_minimum bh
    | PQUEUE_MODE_LOWEST => binheap_delete_maximum bh end) with (delete_end (negb (is_min heap_mode)) bh)
    by (unfold heap_mode; by destruct mode).
  eapply returns_mono; [by apply (heap_delete_returns l (negb (is_min heap_mode)) s1 w1 bh)|].
  intros [[rc v] w2] (Hq2&Hi2&Hf2&[(->&_)|(i&p&s2&->&->&Hp0&Hi&HP2&_&Hrep2)]); [done|].
  cbv beta iota zeta. change (default 0 (Some p)) with p. rewrite (proj2 (Z.eqb_neq p 0)) by done. go. unfold load_item. rewrite Hi2, Hi. go.
  assert (returns ((_ ← (if cb then pq_call_free (pi_value i) else mret tt); free_item p) w2) (λ '(_, w'),
    pq_rep l F R s2 w' ∧ pw_freed w' = pw_freed w2 ++ released [i] ∧ pw_pq w' = pw_pq w2)) as Hfree.
  { go. apply returns_mono with (P := λ '(_, w'), w' = mk_pworld (pw_pq w2) (pw_items w2) (pw_b w2)
      (pw_freed w2 ++ released [i])).
    - unfold released, pq_call_free. destruct cb; go; [done|]. rewrite app_nil_r. by destruct w2.
    - intros [[] w'] ->. unfold free_item, load_item, set_items. go. simpl. rewrite Hi2, Hi. go. simpl.
      split; [apply Hrep2|done]. }
  apply returns_st_bind in Hfree. eapply returns_mono; [exact Hfree|]. intros [[] w3] H3. cbv beta iota in H3.
  eapply returns_mono; [exact H3|]. intros [[] w4] (Hrep4&Hf4&Hq4). go.
  split; [|lia]. exists (d ++ [i]), s2. rewrite length_app. simpl. split_and!; [lia|lia| |done| |congruence].
  - by rewrite HP, HP2, <- app_assoc.
  - by rewrite Hf4, Hf2, Hfr, released_app, app_assoc.
Qed.

(** [pqueue_pull_highest] and [pqueue_pull_lowest]. *)
Lemma pull_returns (e : bool) del wv wp s w :
  (∀ bh, del mode bh = delete_end e bh) → pq_rep false F R s w →
  returns (pull del wv wp w) (λ '(rc, v, p, w'), ∃ f s', pq_rep false F R s' w' ∧ pw_freed w' = pw_freed w ++ f ∧
    (s = [] ∧ s' = [] ∧ f = [] ∧ rc = -1 ∧ v = None ∧ p = None ∨
     ∃ i, s ≡ₚ i :: s' ∧ (e = is_min heap_mode → leads mode s i) ∧ rc = 0 ∧ v = given wv (pi_value i) ∧
       p = given wp (pi_prio i) ∧ f = if wv then [] else released [i])).
Proof using Type.
  intros Hdel Hrep. unfold pull. go. eapply lock_returns; [done|]. intros w1 Hrep1 Hf1 Hi1 Hb1. go.
  eapply rep_load; [done|]. intros bh Hq. go. cbn [pq_heap pq_mode pq_free_value_cb]. rewrite Hdel.
  eapply returns_mono; [by apply (heap_delete_returns true e s w1 bh)|].
  intros [[rc v] w2] (Hq2&Hi2&Hf2&[(->&->&->&Hrep2)|(i&p&s2&->&->&Hp0&Hi&HP2&Hlead&Hrep2)]); go.
  - eapply unlock_returns; [done|]. intros w3 Hrep3 Hf3. go. exists [], [].
    rewrite app_nil_r, Hf3, Hf2, Hf1. split_and!; [done|done|by left].
  - assert (∀ w3, pw_items w3 = pw_items w1 → (∀ f, pq_rep false F R s2
        (mk_pworld (pw_pq w3) (delete p (pw_items w1)) (pw_b w3) f)) → pw_freed w3 = pw_freed w →
      returns ((i ← load_item p;
        _ ← (if wv then mret tt else if cb then pq_call_free (pi_value i) else mret tt);
        _ ← free_item p;
        mret (0, (if wv then Some (pi_value i) else None), if wp then Some (pi_prio i) else None)) w3)
      (λ '(rc, v, q, w'), ∃ f s', pq_rep false F R s' w' ∧ pw_freed w' = pw_freed w ++ f ∧
        (s = [] ∧ s' = [] ∧ f = [] ∧ rc = -1 ∧ v = None ∧ q = None ∨
         ∃ i, s ≡ₚ i :: s' ∧ (e = is_min heap_mode → leads mode s i) ∧ rc = 0 ∧ v = given wv (pi_value i) ∧
           q = given wp (pi_prio i) ∧ f = if wv then [] else released [i]))) as Hend.
    { intros w3 Hi3 Hr3 Hf3. go. unfold load_item at 1. rewrite Hi3, Hi. go.
      apply returns_mono with (P := λ '(_, w'), w' = mk_pworld (pw_pq w3) (pw_items w3) (pw_b w3)
        (pw_freed w3 ++ if wv then [] else released [i])).
      { unfold released, pq_call_free. destruct wv, cb; go; rewrite ?app_nil_r; by destruct w3. }
      intros [[] w'] ->. unfold free_item, load_item, set_items. go. simpl. rewrite Hi3, Hi. go. simpl.
      eexists _, s2. split_and!; [apply Hr3|by rewrite Hf3|]. right. by exists i. }
    unfold unlock_pq, load_pq, put_pq. go. rewrite Hq2, Hq. go. simpl. go. rewrite Hi2.
    refine (proj1 (returns_st_bind _ _ _ _) (Hend _ _ _ _)); simpl; [done| |congruence].
    intros f. specialize (Hrep2 f). destruct Hrep2 as [(bh'&trees&lo&Hq3&Hrep3&Hlo) Hit Hbag].
    simpl in *. rewrite Hq2, Hq in Hq3. injection Hq3 as <-. split; simpl; try done.
    exists bh, trees, lo. by split_and!.
Qed.

Lemma pqueue_insert_returns p v s w :
  0 ≤ p < 2 ^ 31 → 0 ≤ max < 2 ^ 64 → Z.of_nat (length s) + 3 < INT_MAX → pq_rep false F R s w →
  returns (pqueue_insert p v w) (λ '(rc, w'), rc = 0 ∧ ∃ d s', mk_item v p :: s ≡ₚ d ++ s' ∧
    Z.of_nat (length d) = Z.max 0 (Z.of_nat (S (length s)) - max) ∧ pq_rep false F R s' w' ∧
    pw_freed w' = pw_freed w ++ released d).
Proof using Type.
  intros Hp Hmax Hlen Hrep. unfold pqueue_insert. go. pose proof Hrep as [(bh&trees&lo&Hq&Hr&Hlo) Hit Hbag].
  apply rep_next in Hr as [Hle Hr]. apply returns_on_heap.
  eapply (rep_new_block bh heap_mode trees F R); [exact Hr|]. intros item b' Hlo' -> Hb' Hr'. go.
  rewrite (proj2 (Z.eqb_neq _ 0)) by lia. go. unfold set_items. go. simpl.
  assert (pw_items w !! bw_next (pw_b w) = None) as Hnone.
  { destruct (pw_items w !! _) as [i|] eqn:E; [|done]. destruct (Hit _ _ E). lia. }
  destruct (entries_insert (pw_items w) (bw_next (pw_b w)) (mk_item v p) Hnone) as [He Hbg].
  unfold lock_pq, load_pq, put_pq. go. simpl. rewrite Hq. go. simpl. go. simpl.
  apply returns_st_bind, returns_on_heap. simpl.
  pose proof (insert_refines (cmp := libhl_cmp_keys_uint64) (ok := small_key) bh heap_mode trees F R
    (bw_next (pw_b w) + 1) (entries (pw_items w)) (le_bytes 8 p) (bw_next (pw_b w)) b') as Hins.
  simpl run_qop in Hins.
  assert (returns (binheap_insert bh (le_bytes 8 p) (bw_next (pw_b w)) b') (λ '(rc, b''), rc = 0 ∧
    heap_rep bh heap_mode trees F R (bw_next (pw_b w) + 1)
      (entries (<[bw_next (pw_b w) := mk_item v p]> (pw_items w))) b'')) as Hins'.
  { assert (Z.of_nat (length (entries (pw_items w))) + 3 < INT_MAX) as Hlen' by (by rewrite entries_length, <- Hbag).
    specialize (Hins (small_le_bytes p Hp) Hlen' Hr'). apply returns_st_bind in Hins.
    eapply returns_mono; [exact Hins|]. intros [rc b''] (s'&Hs&Hrep''). inversion Hs; subst.
    split; [done|]. eapply rep_perm; [|exact Hrep'']. by rewrite He. }
  eapply returns_mono; [exact Hins'|]. intros [rc b2] [-> Hr2].
  apply rep_next in Hr2 as [Hle2 Hr2]. rewrite <- Hbag in Hbg.
  set (w2 := mk_pworld _ _ b2 _).
  assert (pq_rep true F R (mk_item v p :: s) w2) as Hrep2.
  { split; simpl; [|intros q j; rewrite lookup_insert; case_decide as E|by rewrite Hbg].
    - exists bh, trees, (bw_next b2). split_and!; [done|done|lia].
    - intros [= <-]. simpl. lia.
    - intros Hj. destruct (Hit _ _ Hj). lia. }
  go. eapply (rep_count true _ w2 bh); [exact Hrep2|done|]. simpl length.
  assert (∀ d s' w3, mk_item v p :: s ≡ₚ d ++ s' → Z.of_nat (length d) = Z.max 0 (Z.of_nat (S (length s)) - max) →
    pq_rep true F R s' w3 → pw_freed w3 = pw_freed w ++ released d →
    returns ((_ ← unlock_pq; mret 0) w3) (λ '(rc, w'), rc = 0 ∧ ∃ d s', mk_item v p :: s ≡ₚ d ++ s' ∧
    Z.of_nat (length d) = Z.max 0 (Z.of_nat (S (length s)) - max) ∧ pq_rep false F R s' w' ∧
    pw_freed w' = pw_freed w ++ released d)) as Hend.
  { intros d s' w3 HP Hd Hr3 Hf3. go. eapply unlock_returns; [done|]. intros w4 Hr4 Hf4. go.
    split; [done|]. exists d, s'. split_and!; try done. by rewrite Hf4. }
  destruct (Z.ltb_spec max (Z.of_nat (S (length s)))) as [Hlt|Hge].
  - apply returns_st_bind. rewrite u64_small by (int_bounds; lia).
    eapply (drop_returns true _ (mk_item v p :: s) w2); [exact Hrep2|simpl; lia|].
    intros d s' w3 HP Hd Hr3 Hf3 _. apply (Hend d s'); try done. lia.
  - apply returns_st_bind, returns_st_ret. apply (Hend [] (mk_item v p :: s)); try done; [simpl; lia|].
    simpl. unfold released. destruct cb; by rewrite app_nil_r.
Qed.

Lemma pop_refines o s w :
  pop_ok o → 0 ≤ max < 2 ^ 64 → Z.of_nat (length s) + 3 < INT_MAX → pq_rep false F R s w →
  returns (run_pqop o w) (λ '(r, w'), ∃ f s', pstep s o r f s' ∧ pq_rep false F R s' w' ∧
    pw_freed w' = pw_freed w ++ f).
Proof using Type.
  intros Ho Hmax Hlen Hrep. destruct o as [p v|wv wp|wv wp|]; simpl in Ho |- *.
  - go. eapply returns_mono; [by apply (pqueue_insert_returns p v s)|].
    intros [rc w'] (->&d&s'&HP&Hd&Hrep'&Hf). go. exists (released d), s'. split_and!; [|done..].
    by constructor.
  - go. eapply returns_mono; [apply (pull_returns (is_min heap_mode) delete_highest wv wp s)|]; try done.
    { intros bh. unfold delete_highest, delete_end, heap_mode. by destruct mode. }
    intros [[[rc v] p] w'] (f&s'&Hrep'&Hf&Hcase). go. exists f, s'. split_and!; [|done..].
    destruct Hcase as [(->&->&->&->&->&->)|(i&HP&Hlead&->&->&->&->)]; constructor; auto.
  - go. eapply returns_mono; [apply (pull_returns (negb (is_min heap_mode)) delete_lowest wv wp s)|]; try done.
    { intros bh. unfold delete_lowest, delete_end, heap_mode. by destruct mode. }
    intros [[[rc v] p] w'] (f&s'&Hrep'&Hf&Hcase). go. exists f, s'. split_and!; [|done..].
    destruct Hcase as [(->&->&->&->&->&->)|(i&HP&_&->&->&->&->)]; by constructor.
  - unfold pqueue_count. go. eapply lock_returns; [done|]. intros w1 Hrep1 Hf1 _ _. go.
    eapply rep_load; [done|]. intros bh Hq. go. cbn [pq_heap].
    eapply (rep_count true s w1 bh); [done|done|]. go. eapply unlock_returns; [done|].
    intros w2 Hrep2 Hf2. go. exists [], s. rewrite app_nil_r. split_and!; [constructor|done|congruence].
Qed.

Lemma pstep_length s o r f s' : pstep s o r f s' → (length s' ≤ S (length s))%nat.
Proof using Type.
  destruct 1; try (simpl; lia);
    match goal with HP : _ ≡ₚ _ |- _ => apply Permutation_length in HP; rewrite ?length_app in HP; simpl in *; lia end.
Qed.

Lemma pops_refine os s w :
  Forall pop_ok os → 0 ≤ max < 2 ^ 64 → Z.of_nat (length s + length os) + 3 < INT_MAX → pq_rep false F R s w →
  returns (run_pqops os w) (λ '(rs, w'), ∃ f s', psteps s os rs f s' ∧ pq_rep false F R s' w' ∧
    pw_freed w' = pw_freed w ++ f).
Proof using Type.
  revert s w. induction os as [|o os IH]; intros s w Ho Hmax Hlen Hrep; simpl.
  - go. exists [], s. rewrite app_nil_r. split_and!; [constructor|done|done].
  - inversion Ho; subst. simpl in Hlen. go.
    eapply returns_mono; [apply (pop_refines o s); [done|done|lia|done]|].
    intros [r w1] (f&s1&Hs1&Hrep1&Hf1). go. pose proof (pstep_length _ _ _ _ _ Hs1).
    eapply returns_mono; [apply (IH s1); [done|done|lia|done]|]. intros [rs w2] (f'&s2&Hs2&Hrep2&Hf2). go.
    exists (f ++ f'), s2. split_and!; [by econstructor|done|]. by rewrite Hf2, Hf1, app_assoc.
Qed.

Lemma queue_destroy_returns s w :
  pq_rep false F R s w →
  returns (pqueue_destroy w) (λ '(_, w'), ∃ d, d ≡ₚ s ∧
    w' = mk_pworld None ∅ (pw_b w') (pw_freed w ++ released d) ∧
    bw_heaps (pw_b w') = F ∧ bw_nodes (pw_b w') = ∅ ∧ hp (bw_heap (pw_b w')) = R).
Proof using Type.
  intros Hrep. unfold pqueue_destroy. go. eapply rep_load; [done|]. intros bh Hq. go. cbn [pq_heap].
  eapply (rep_count false s w bh); [done|done|]. go.
  eapply (drop_returns false _ s w); [done|lia|]. intros d s' w1 HP Hd Hrep1 Hf1 Hq1. go.
  assert (s' = []) as ->.
  { apply length_zero_iff_nil. apply Permutation_length in HP. rewrite length_app in HP. lia. }
  rewrite app_nil_r in HP.
  destruct Hrep1 as [(bh'&trees&lo&Hq1'&Hr&Hlo) Hit Hbag]. rewrite Hq1, Hq in Hq1'. injection Hq1' as <-.
  apply returns_on_heap. eapply returns_mono; [by eapply (heap_destroy_returns bh heap_mode trees F R lo)|].
  intros [[] b'] (HF&HN&HR). unfold put_pq. go. simpl. exists d. rewrite Hf1. split_and!; try done.
  f_equal. apply map_size_empty_inv. apply Permutation_length in Hbag. unfold bag_of in Hbag.
  rewrite length_fmap, length_map_to_list in Hbag. by rewrite <- Hbag.
Qed.
End ops.
End spec.

(** A world without a queue. *)
Record fresh_pworld (w : pworld) : Prop := {
  fp_heap : fresh_world (pw_b w); fp_queue : pw_pq w = None; fp_items : pw_items w = ∅
}.

Lemma queue_create_returns mode max cb w :
  fresh_pworld w →
  returns (pqueue_create mode max cb w) (λ '(created, w'), created = true ∧
    pq_rep mode max cb false (bw_heaps (pw_b w)) (hp (bw_heap (pw_b w))) [] w' ∧ pw_freed w' = pw_freed w).
Proof.
  intros [Hw Hq Hi]. pose proof (fw_next _ Hw) as Hnx. unfold pqueue_create. go. apply returns_on_heap.
  apply fresh_new_block; [done|]. intros b1 Hb1 Hh1 Hp1 Hn1. rewrite (proj2 (Z.eqb_neq _ 0)) by lia. go.
  apply returns_on_heap. fold (heap_mode mode).
  eapply returns_mono; [apply (create_rep (cmp := libhl_cmp_keys_uint64) (ok := small_key));
    [reflexivity|exact Hb1]|].
  intros [bh b2] [Hbh (trees&Hrep)]. unfold put_pq. go. simpl. split_and!; [done| |done].
  simpl in Hrep. rewrite Hh1, Hp1 in Hrep. rewrite Hi. split; simpl.
  - exists bh, trees, (bw_next b1). unfold entries. rewrite map_to_list_empty. split_and!; [done|exact Hrep|].
    rewrite Hn1. lia.
  - intros p i Hp. by rewrite lookup_empty in Hp.
  - done.
Qed.

(** C7 — any sequence of insertions, pulls and counts on a new priority queue
    is one of a bag bounded by the size of the queue, for priorities below
    [2 ^ 31]: a pull of the highest item gives the largest priority, or the
    smallest in the other mode, and no item is lost but those dropped when
    the bag is full, whose values go to the free callback. *)
Theorem pqueue_refines_bag mode max cb os w :
  fresh_pworld w → Forall pop_ok os → 0 ≤ max < 2 ^ 64 → Z.of_nat (length os) + 3 < INT_MAX →
  returns ((_ ← pqueue_create mode max cb; run_pqops os) w) (λ '(rs, w'), ∃ f s,
    psteps mode max cb [] os rs f s ∧ pw_freed w' = pw_freed w ++ f ∧
    pq_rep mode max cb false (bw_heaps (pw_b w)) (hp (bw_heap (pw_b w))) s w').
Proof.
  intros Hw Ho Hmax Hlen. go. eapply returns_mono; [by apply queue_create_returns|].
  intros [c w1] (_&Hrep&Hf1).
  eapply returns_mono; [apply (pops_refine mode max cb (bw_heaps (pw_b w)) (hp (bw_heap (pw_b w))) os [] w1); [done|done|simpl; lia|exact Hrep]|].
  intros [rs w2] (f&s&Hs&Hrep2&Hf2). exists f, s. split_and!; [done|by rewrite Hf2, Hf1|done].
Qed.

Definition no_pworld : pworld := mk_pworld None ∅ no_world [].
Lemma no_pworld_fresh : fresh_pworld no_pworld.
Proof. split; [apply no_world_fresh|done|done]. Qed.

Definition sample_pqops : list pqop :=
  [PInsert 3 30; PInsert 7 70; PInsert 5 50; PPullHighest true true; PCount; PPullLowest false false].

Lemma pqueue_refines_bag_witness :
  returns ((_ ← pqueue_create PQUEUE_MODE_HIGHEST 2 true; run_pqops sample_pqops) no_pworld) (λ '(rs, w'),
    ∃ f s, psteps PQUEUE_MODE_HIGHEST 2 true [] sample_pqops rs f s ∧ pw_freed w' = [] ++ f ∧
      pq_rep PQUEUE_MODE_HIGHEST 2 true false ∅ ∅ s w').
Proof.
  apply (pqueue_refines_bag PQUEUE_MODE_HIGHEST 2 true sample_pqops no_pworld).
  - apply no_pworld_fresh.
  - by repeat constructor.
  - done.
  - done.
Defined.

(** C22 — [pqueue_destroy] frees the items, the heap with all its nodes and the
    queue, and gives every value to the free callback, if there is one,
    exactly once. *)
Theorem pqueue_destroy_frees mode max cb F R s w :
  pq_rep mode max cb false F R s w →
  returns (pqueue_destroy w) (λ '(_, w'), ∃ d, d ≡ₚ s ∧
    w' = mk_pworld None ∅ (pw_b w') (pw_freed w ++ released cb d) ∧
    bw_heaps (pw_b w') = F ∧ bw_nodes (pw_b w') = ∅ ∧ hp (bw_heap (pw_b w')) = R).
Proof. apply queue_destroy_returns. Qed.

(** A queue with two items. *)
Definition two_prios : Pq (list pqres) :=
  _ ← pqueue_create PQUEUE_MODE_HIGHEST 9 true; run_pqops [PInsert 3 30; PInsert 7 70].

Lemma two_prios_rep :
  ∃ s, match two_prios no_pworld with
       | Ret (_, w) => pq_rep PQUEUE_MODE_HIGHEST 9 true false ∅ ∅ s w | _ => False end.
Proof.
  assert (∀ w0, fresh_pworld w0 →
    returns (two_prios w0)
      (λ '(_, w), ∃ s, pq_rep PQUEUE_MODE_HIGHEST 9 true false (bw_heaps (pw_b w0)) (hp (bw_heap (pw_b w0))) s w)) as H.
  { intros w0 Hw. unfold two_prios. go. eapply returns_mono; [by apply queue_create_returns|]. intros [c w1] (_&Hrep&_).
    eapply returns_mono; [apply (pops_refine PQUEUE_MODE_HIGHEST 9 true (bw_heaps (pw_b w0)) (hp (bw_heap (pw_b w0))) _ [] w1); [by repeat constructor|done|done|exact Hrep]|].
    intros [rs w2] (f&s&_&Hrep2&_). by exists s. }
  specialize (H no_pworld no_pworld_fresh). destruct (two_prios no_pworld) as [[rs w]| |]; [|done|done].
  destruct H as [s H]. by exists s.
Qed.

Lemma pqueue_destroy_frees_witness :
  match two_prios no_pworld with
  | Ret (_, w) => returns (pqueue_destroy w) (λ '(_, w'), bw_nodes (pw_b w') = ∅)
  | _ => False
  end.
Proof.
  destruct two_prios_rep as [s H]. destruct (two_prios no_pworld) as [[rs w]| |]; [|done|done].
  eapply returns_mono; [exact (pqueue_destroy_frees PQUEUE_MODE_HIGHEST 9 true ∅ ∅ s w H)|].
  by intros [[] w'] (d&_&_&_&HN&_).
Defined.

(** ** What the functions do not do *)

Lemma remove_helper_visits value l count found :
  (visit_items (pqueue_walk_helper (pqueue_remove_helper value)) l count found).2 = found.
Proof.
  revert count. induction l as [|x l IH]; intros count; simpl; [done|].
  unfold pqueue_walk_helper, pqueue_remove_helper in *. destruct (x.2 =? value); simpl; [done|]. apply IH.
Qed.

(** [pqueue_remove] compares the addresses of the items with the value
    and never notes that it has found it: on any queue it returns -1 and
    removes nothing, for every value that is not the address of an item. *)
Theorem pqueue_remove_nothing mode max cb F R s w depth value :
  pq_rep mode max cb false F R s w → (length s < depth)%nat → pw_items w !! value = None →
  returns (pqueue_remove depth value w) (λ '(rc, w'),
    rc = -1 ∧ pq_rep mode max cb false F R s w' ∧ pw_items w' = pw_items w).
Proof.
  intros [(bh&trees&lo&Hq&Hrep&Hlo) Hit Hbag] Hd Hv. unfold pqueue_remove, pqueue_walk, load_pq. go. rewrite Hq. go.
  cbn [pq_heap]. apply returns_on_heap. apply rep_next in Hrep as [Hle Hrep].
  eapply returns_mono; [apply (walk_rep_returns (pqueue_walk_helper (pqueue_remove_helper value))
    bh _ trees F R _ _ _ depth false Hrep)|].
  - by rewrite entries_length, <- Hbag.
  - intros x found Hx. left. unfold pqueue_walk_helper, pqueue_remove_helper.
    unfold entries in Hx. apply list_elem_of_fmap in Hx as ([p i]&->&Hp%elem_of_map_to_list).
    unfold entry. cbn [fst snd]. destruct (Z.eqb_spec p value) as [->|]; [congruence|done].
  - intros [[c found] b'] (order&_&Hrep'&E). go. injection E as _ ->. rewrite remove_helper_visits.
    split_and!; [done| |done]. apply rep_next in Hrep' as [Hle' Hrep']. split; simpl; [|intros p i Hp|done].
    + exists bh, trees, (bw_next b'). split_and!; [done|done|lia].
    + destruct (Hit p i Hp). lia.
Qed.

Lemma pqueue_remove_nothing_witness :
  match two_prios no_pworld with
  | Ret (_, w) => ∃ depth, returns (pqueue_remove depth 70 w) (λ '(rc, w'), rc = -1 ∧ pw_items w' = pw_items w)
  | _ => False
  end.
Proof.
  destruct two_prios_rep as [s H]. assert (match two_prios no_pworld with
    Ret (_, w) => pw_items w !! 70 = None | _ => True end) as H70 by by vm_compute.
  destruct (two_prios no_pworld) as [[rs w]| |]; [|done|done].
  exists (S (length s)).
  eapply returns_mono; [exact (pqueue_remove_nothing PQUEUE_MODE_HIGHEST 9 true ∅ ∅ s w (S (length s)) 70 H
    (Nat.lt_succ_diag_r _) H70)|].
  by intros [rc w'] (?&_&?).
Defined.

Definition pushes (ps : list Z) : list pqop := (λ p, PInsert p p) <$> ps.
Definition pulls (n : nat) : list pqop := replicate n (PPullHighest true false).
Definition session (max : Z) (os : list pqop) : outcome (list pqres) :=
  r ← (_ ← pqueue_create PQUEUE_MODE_HIGHEST max false; run_pqops os) no_pworld; Ret r.1.
Definition pulled (v : Z) : pqres := PItem 0 (Some v) None.

(** the priorities are compared by their difference truncated to [int]:
    of 1, [2 ^ 32] and 3 the first to be pulled is 3. *)
Theorem pqueue_priorities_truncated :
  drop 3 <$> session 9 (pushes [1; 2 ^ 32; 3] ++ pulls 1) = Ret [pulled 3].
Proof. by vm_compute. Qed.

(** a full queue does not drop its lowest priority: of 1, 5, 2, 6 and 3
    in a queue of four, 3 is dropped and 1 kept. *)
Theorem pqueue_full_drops_higher :
  drop 5 <$> session 4 (pushes [1; 5; 2; 6; 3] ++ pulls 5) =
    Ret ((pulled <$> [6; 5; 2; 1]) ++ [PItem (-1) None None]).
Proof. by vm_compute. Qed.
