(* ===== verification/Skiplist.v ===== *)
(** * Skip lists (src/src/skiplist.c)

    The items are objects of a store, each with its array of wrappers, one per
    layer.  A layer is a TAILQ of wrappers: its links are modelled as they are,
    with pointers to the wrappers and to the fields that point to them, because
    the code can put a wrapper in the queue of another layer.  The path of an
    insertion is an array that only the insertion sees, hence a list. *)

From S2P Require Import Prelude Comparators SortedDict.

(** ** Data *)

(** The wrapper of the item at an address in a layer. *)
Abbreviation wptr := (option (Z * nat)).
(** What [tqe_prev] and [tqh_last] point to: the [tqh_first] of a layer, or the
    [tqe_next] of a wrapper. *)
Inductive slot := SHead (i : nat) | SNext (p : Z) (i : nat).

Record skl_item_wrapper_t := mk_wrapper { w_data : Z; w_next : wptr; w_prev : option slot }.
Record skl_item_t := mk_item {
  it_key : key; it_klen : Z; it_value : Z; it_layer_check : list bool; it_wrappers : list skl_item_wrapper_t
}.
Record layer_list := mk_layer { tqh_first : wptr; tqh_last : slot }.
Record skiplist_t := mk_skiplist {
  num_layers : Z; probability : Z; skl_cmp_keys_cb : option libhl_cmp_callback_t; skl_free_value_cb : bool;
  layers : list layer_list; skl_count : Z
}.

(** [sw_random] counts the calls of [random()], [sw_freed] lists the values
    given to the free callback. *)
Record sworld := mk_sworld {
  sw_skl : option skiplist_t; sw_items : gmap Z skl_item_t; sw_new : Z; sw_alloc : list bool;
  sw_freed : list Z; sw_random : nat
}.
Abbreviation P := (ST sworld).

(** ** The store *)

Definition put_skl (s : option skiplist_t) (w : sworld) : sworld :=
  mk_sworld s (sw_items w) (sw_new w) (sw_alloc w) (sw_freed w) (sw_random w).
Definition put_items (N : gmap Z skl_item_t) (w : sworld) : sworld :=
  mk_sworld (sw_skl w) N (sw_new w) (sw_alloc w) (sw_freed w) (sw_random w).
Definition put_salloc (a : list bool) (w : sworld) : sworld :=
  mk_sworld (sw_skl w) (sw_items w) (sw_new w) a (sw_freed w) (sw_random w).
Definition give_value (v : Z) : P unit :=
  modify (λ w, mk_sworld (sw_skl w) (sw_items w) (sw_new w) (sw_alloc w) (sw_freed w ++ [v]) (sw_random w)).

Definition load_skl : P skiplist_t := λ w, match sw_skl w with Some s => Ret (s, w) | None => Undef end.
Definition set_skl (f : skiplist_t → skiplist_t) : P unit := s ← load_skl; modify (put_skl (Some (f s))).
Definition load_item (p : Z) : P skl_item_t := λ w,
  match sw_items w !! p with Some it => Ret (it, w) | None => Undef end.
Definition set_item (p : Z) (f : skl_item_t → skl_item_t) : P unit :=
  _ ← load_item p; modify (λ w, put_items (alter f p (sw_items w)) w).

Definition with_layers (l : list layer_list) (s : skiplist_t) : skiplist_t :=
  mk_skiplist (num_layers s) (probability s) (skl_cmp_keys_cb s) (skl_free_value_cb s) l (skl_count s).
Definition with_count (n : Z) (s : skiplist_t) : skiplist_t :=
  mk_skiplist (num_layers s) (probability s) (skl_cmp_keys_cb s) (skl_free_value_cb s) (layers s) n.
Definition with_item_value (v : Z) (it : skl_item_t) : skl_item_t :=
  mk_item (it_key it) (it_klen it) v (it_layer_check it) (it_wrappers it).
Definition with_check (c : list bool) (it : skl_item_t) : skl_item_t :=
  mk_item (it_key it) (it_klen it) (it_value it) c (it_wrappers it).
Definition with_wrappers (l : list skl_item_wrapper_t) (it : skl_item_t) : skl_item_t :=
  mk_item (it_key it) (it_klen it) (it_value it) (it_layer_check it) l.
Definition with_data (p : Z) (x : skl_item_wrapper_t) : skl_item_wrapper_t := mk_wrapper p (w_next x) (w_prev x).
Definition with_next (q : wptr) (x : skl_item_wrapper_t) : skl_item_wrapper_t := mk_wrapper (w_data x) q (w_prev x).
Definition with_prev (s : option slot) (x : skl_item_wrapper_t) : skl_item_wrapper_t := mk_wrapper (w_data x) (w_next x) s.
Definition with_first (q : wptr) (l : layer_list) : layer_list := mk_layer q (tqh_last l).
Definition with_last (s : slot) (l : layer_list) : layer_list := mk_layer (tqh_first l) s.

(** Accesses within the arrays [layers], [wrappers] and [layer_check]. *)
Definition load_layer (i : nat) : P layer_list :=
  s ← load_skl; match layers s !! i with Some l => mret l | None => undef end.
Definition set_layer (i : nat) (f : layer_list → layer_list) : P unit :=
  _ ← load_layer i; set_skl (λ s, with_layers (alter f i (layers s)) s).
Definition load_wrapper (p : Z) (i : nat) : P skl_item_wrapper_t :=
  it ← load_item p; match it_wrappers it !! i with Some x => mret x | None => undef end.
Definition set_wrapper (p : Z) (i : nat) (f : skl_item_wrapper_t → skl_item_wrapper_t) : P unit :=
  _ ← load_wrapper p i; set_item p (λ it, with_wrappers (alter f i (it_wrappers it)) it).
Definition load_check (p : Z) (i : nat) : P bool :=
  it ← load_item p; match it_layer_check it !! i with Some b => mret b | None => undef end.
Definition set_check (p : Z) (i : nat) : P unit :=
  _ ← load_check p i; set_item p (λ it, with_check (<[i := true]> (it_layer_check it)) it).

(** An allocation: whether it succeeds, the next of [sw_alloc] or success. *)
Definition salloc : P bool := λ w,
  match sw_alloc w with [] => Ret (true, w) | b :: a => Ret (b, put_salloc a w) end.
(** [calloc(1, sizeof(skl_item_t))]: the arrays are allocated later. *)
Definition calloc_item : P Z := λ w,
  Ret (sw_new w, mk_sworld (sw_skl w) (<[sw_new w := mk_item [] 0 0 [] []]> (sw_items w)) (sw_new w + 1)
                           (sw_alloc w) (sw_freed w) (sw_random w)).
Definition free_item (p : Z) : P unit := _ ← load_item p; modify (λ w, put_items (delete p (sw_items w)) w).

(** ** The queue macros of bsd_queue.h, on the wrappers of a layer *)

(** [*(s) = q]. *)
Definition store_slot (s : slot) (q : wptr) : P unit :=
  match s with
  | SHead i => set_layer i (with_first q)
  | SNext p i => set_wrapper p i (with_next q)
  end.

Definition TAILQ_INSERT_AFTER (i : nat) (lp : Z) (li : nat) (ep : Z) (ei : nat) : P unit :=
  l ← load_wrapper lp li;
  _ ← set_wrapper ep ei (with_next (w_next l));
  _ ← match w_next l with
      | Some (np, ni) => set_wrapper np ni (with_prev (Some (SNext ep ei)))
      | None => set_layer i (with_last (SNext ep ei))
      end;
  _ ← set_wrapper lp li (with_next (Some (ep, ei)));
  set_wrapper ep ei (with_prev (Some (SNext lp li))).
Definition TAILQ_INSERT_TAIL (i : nat) (ep : Z) (ei : nat) : P unit :=
  _ ← set_wrapper ep ei (with_next None);
  l ← load_layer i;
  _ ← set_wrapper ep ei (with_prev (Some (tqh_last l)));
  _ ← store_slot (tqh_last l) (Some (ep, ei));
  set_layer i (with_last (SNext ep ei)).
Definition TAILQ_REMOVE (i : nat) (ep : Z) (ei : nat) : P unit :=
  e ← load_wrapper ep ei;
  match w_prev e with
  | None => undef
  | Some prev =>
      _ ← match w_next e with
          | Some (np, ni) => set_wrapper np ni (with_prev (Some prev))
          | None => set_layer i (with_last prev)
          end;
      store_slot prev (w_next e)
  end.

(** ** Operations *)

(** A call through [skl->cmp_keys_cb] on the key of an item and [k]. *)
Definition call_cmp_keys (p : Z) (k : key) : P Z :=
  s ← load_skl;
  it ← load_item p;
  match skl_cmp_keys_cb s with Some f => lift (f (it_key it) k) | None => undef end.

Definition skiplist_create (num_layers probability : Z) (cmp_keys_cb : option libhl_cmp_callback_t)
    (free_value_cb : bool) : P bool :=
  ok ← salloc;
  if negb ok then mret false else
  ok ← salloc;
  if negb (ok && (0 <=? num_layers)) then mret false else
  let init i := mk_layer None (SHead i) in
  _ ← modify (put_skl (Some (mk_skiplist num_layers probability cmp_keys_cb free_value_cb
                               (init <$> seq 0 (Z.to_nat num_layers)) 0)));
  mret true.

(** [while (item) ...] in a layer: [prev_item] at its end. *)
Definition search_body (k : key) (pi : wptr * wptr) : P (wptr * wptr + wptr) :=
  let '(prev_item, item) := pi in
  match item with
  | None => mret (inr prev_item)
  | Some (p, i) =>
      x ← load_wrapper p i;
      c ← call_cmp_keys (w_data x) k;
      if 0 <? c then mret (inr prev_item) else
      x ← load_wrapper p i; mret (inl (item, w_next x))
  end.
(** The layers [n - 1] to [0], from [prev_item]; [path] is filled on the way. *)
Fixpoint search_layers (k : key) (n : nat) (prev_item : wptr) (path : list wptr) : P (wptr * list wptr) :=
  match n with
  | O => mret (prev_item, path)
  | S i =>
      item ← match prev_item with
             | Some (p, j) =>
                 x ← load_wrapper p j; y ← load_wrapper (w_data x) i; mret (w_next y)
             | None => l ← load_layer i; mret (tqh_first l)
             end;
      prev_item ← loopS (search_body k) (prev_item, item);
      search_layers k i prev_item (<[i := prev_item]> path)
  end.
(** The item found, 0 for none. *)
Definition skiplist_search_internal (k : key) (path : list wptr) : P (Z * list wptr) :=
  s ← load_skl;
  '(prev_item, path) ← search_layers k (Z.to_nat (num_layers s)) None path;
  match prev_item with
  | Some (p, i) => x ← load_wrapper p i; mret (w_data x, path)
  | None => mret (0, path)
  end.

(** [prev_item && cmp(...) == 0]. *)
Definition is_found (prev_item : Z) (k : key) : P bool :=
  if prev_item =? 0 then mret false else c ← call_cmp_keys prev_item k; mret (c =? 0).

Definition skiplist_search (k : key) : P Z :=
  '(prev_item, _) ← skiplist_search_internal k [];
  found ← is_found prev_item k;
  if found : bool then it ← load_item prev_item; mret (it_value it) else mret 0.

Section random.
(** The results of [random()]. *)
Context (random : nat → Z).

Definition call_random : P Z := λ w,
  Ret (random (sw_random w),
       mk_sworld (sw_skl w) (sw_items w) (sw_new w) (sw_alloc w) (sw_freed w) (S (sw_random w))).

(** The layers above the first: [n] are left, [i] is the next.  [coin] is
    whether the item goes into the layer; once 0 it stays 0. *)
Definition toss (coin : Z) : P Z :=
  if coin =? 0 then mret coin else
  s ← load_skl; r ← call_random; mret (if probability s <? Z.rem r 100 then 1 else 0).
Fixpoint upper_layers (n i : nat) (coin : Z) (new_item : Z) (path : list wptr) : P unit :=
  match n with
  | O => mret tt
  | S n =>
      _ ← set_wrapper new_item i (with_data new_item);
      coin ← toss coin;
      _ ← (if coin =? 0 then mret tt else
             _ ← match path !! i with
                 | Some (Some (p, j)) => TAILQ_INSERT_AFTER i p j new_item i
                 | Some None => TAILQ_INSERT_TAIL i new_item i
                 | None => undef
                 end;
             set_check new_item i);
      upper_layers n (S i) coin new_item path
  end.

(** The item with its arrays, in no layer; [None] when an allocation fails. *)
Definition new_skl_item (k : key) (v : Z) : P (option Z) :=
  s ← load_skl;
  ok ← salloc;
  if negb ok then mret None else
  new_item ← calloc_item;
  ok ← salloc;
  if negb ok then _ ← free_item new_item; mret None else
  _ ← set_item new_item (λ it, mk_item k (Z.of_nat (length k)) v (it_layer_check it) (it_wrappers it));
  ok ← salloc;
  if negb ok then _ ← free_item new_item; mret None else
  _ ← set_item new_item (with_check (replicate (Z.to_nat (num_layers s)) false));
  ok ← salloc;
  if negb ok then _ ← free_item new_item; mret None else
  _ ← set_item new_item (with_wrappers (replicate (Z.to_nat (num_layers s)) (mk_wrapper 0 None None)));
  mret (Some new_item).

Definition skiplist_insert (k : key) (v : Z) : P Z :=
  s ← load_skl;
  ok ← salloc;
  if negb ok then mret (-1) else
  '(prev_item, path) ← skiplist_search_internal k (replicate (Z.to_nat (num_layers s)) None);
  found ← is_found prev_item k;
  if found : bool then
    it ← load_item prev_item;
    _ ← (if skl_free_value_cb s then give_value (it_value it) else mret tt);
    _ ← set_item prev_item (with_item_value v);
    mret 1
  else
    new_item ← new_skl_item k v;
    match new_item with
    | None => mret (-1)
    | Some new_item =>
        _ ← set_wrapper new_item 0 (with_data new_item);
        _ ← (if negb (prev_item =? 0) then TAILQ_INSERT_AFTER 0 prev_item 0 new_item 0
             else TAILQ_INSERT_TAIL 0 new_item 0);
        _ ← set_check new_item 0;
        _ ← upper_layers (Z.to_nat (num_layers s) - 1) 1 (-1) new_item path;
        s ← load_skl;
        _ ← set_skl (with_count (u64 (skl_count s + 1)));
        mret 0
    end.
End random.

(** The layers [i] to [i + n - 1]. *)
Fixpoint remove_layers (n i : nat) (item : Z) : P unit :=
  match n with
  | O => mret tt
  | S n =>
      c ← load_check item i;
      _ ← (if c : bool then TAILQ_REMOVE i item i else mret tt);
      remove_layers n (S i) item
  end.
(** What is stored through [value] when it is not null. *)
Definition skiplist_remove_internal (item : Z) (value : bool) : P (option Z) :=
  s ← load_skl;
  it ← load_item item;
  _ ← (if value then mret tt else if skl_free_value_cb s then give_value (it_value it) else mret tt);
  _ ← remove_layers (Z.to_nat (num_layers s)) 0 item;
  _ ← free_item item;
  mret (if value then Some (it_value it) else None).

Definition skiplist_remove (k : key) (value : bool) : P (Z * option Z) :=
  '(prev_item, _) ← skiplist_search_internal k [];
  found ← is_found prev_item k;
  if found : bool then
    v ← skiplist_remove_internal prev_item value;
    s ← load_skl;
    _ ← set_skl (with_count (u64 (skl_count s - 1)));
    mret (0, v)
  else mret (-1, None).

Definition skl_destroy_body (item : wptr) : P (wptr + unit) :=
  match item with
  | None => mret (inr tt)
  | Some (p, i) =>
      x ← load_wrapper p i;
      _ ← skiplist_remove_internal (w_data x) false;
      mret (inl (w_next x))
  end.
Definition skiplist_destroy : P unit :=
  l ← load_layer 0;
  _ ← loopS skl_destroy_body (tqh_first l);
  _ ← load_skl;
  modify (put_skl None).

Definition skiplist_count : P Z := s ← load_skl; mret (skl_count s).
