(* ===== verification/SkiplistQueue.v ===== *)
(** * Skip lists: the queue of a layer

    When the wrappers of a layer form its queue, and what the macros on it do.
    A world is seen through the wrappers, the heads of the layers and the rest
    of each item, so that a step on the links of a layer leaves the others. *)

From S2P Require Import Prelude Comparators SortedDict Skiplist.

(** ** Views of a world *)

Definition wr (w : sworld) (p : Z) (i : nat) : option skl_item_wrapper_t := it ← sw_items w !! p; it_wrappers it !! i.
Definition head_of (w : sworld) (i : nat) : option layer_list := s ← sw_skl w; layers s !! i.
(** What the links do not change. *)
Definition body_of (w : sworld) (p : Z) : option (key * Z * Z * list bool * nat) :=
  (λ it, (it_key it, it_klen it, it_value it, it_layer_check it, length (it_wrappers it))) <$> sw_items w !! p.
Definition frame_of (w : sworld) : option (Z * Z * option libhl_cmp_callback_t * bool * Z * nat) * (Z * list bool * list Z * nat) :=
  ((λ s, (num_layers s, probability s, skl_cmp_keys_cb s, skl_free_value_cb s, skl_count s, length (layers s))) <$> sw_skl w,
   (sw_new w, sw_alloc w, sw_freed w, sw_random w)).

(** The assignments to a wrapper and to the head of a layer. *)
Definition upd (p : Z) (i : nat) (f : skl_item_wrapper_t → skl_item_wrapper_t) (w : sworld) : sworld :=
  put_items (alter (λ it, with_wrappers (alter f i (it_wrappers it)) it) p (sw_items w)) w.
Definition updl (i : nat) (f : layer_list → layer_list) (w : sworld) : sworld :=
  put_skl ((λ s, with_layers (alter f i (layers s)) s) <$> sw_skl w) w.

Lemma wr_upd p i f w : wr (upd p i f w) p i = f <$> wr w p i.
Proof.
  unfold wr, upd. simpl. rewrite lookup_alter_eq. destruct (sw_items w !! p) as [it|]; simpl; [|done].
  apply list_lookup_alter_eq.
Qed.
Lemma wr_upd_ne p i f w q j : (q, j) ≠ (p, i) → wr (upd p i f w) q j = wr w q j.
Proof.
  intros Hne. unfold wr, upd. simpl. destruct (Z.eq_dec q p) as [->|Hq].
  - rewrite lookup_alter_eq. destruct (sw_items w !! p) as [it|]; simpl; [|done].
    apply list_lookup_alter_ne. congruence.
  - by rewrite lookup_alter_ne.
Qed.
Lemma wr_updl i f w q j : wr (updl i f w) q j = wr w q j.
Proof. done. Qed.
Lemma head_upd p i f w j : head_of (upd p i f w) j = head_of w j.
Proof. done. Qed.
Lemma head_updl i f w : head_of (updl i f w) i = f <$> head_of w i.
Proof. unfold head_of, updl. simpl. destruct (sw_skl w); simpl; [apply list_lookup_alter_eq|done]. Qed.
Lemma head_updl_ne i f w j : j ≠ i → head_of (updl i f w) j = head_of w j.
Proof.
  intros Hj. unfold head_of, updl. simpl. destruct (sw_skl w); simpl; [|done]. by apply list_lookup_alter_ne.
Qed.
Lemma body_upd p i f w q : body_of (upd p i f w) q = body_of w q.
Proof.
  unfold body_of, upd. simpl. destruct (Z.eq_dec q p) as [->|Hq].
  - rewrite lookup_alter_eq. destruct (sw_items w !! p); simpl; [|done]. by rewrite length_alter.
  - by rewrite lookup_alter_ne.
Qed.
Lemma frame_upd p i f w : frame_of (upd p i f w) = frame_of w.
Proof. done. Qed.
Lemma frame_updl i f w : frame_of (updl i f w) = frame_of w.
Proof. unfold frame_of, updl. simpl. destruct (sw_skl w); simpl; [|done]. by rewrite length_alter. Qed.

(** ** The rules of the accesses *)

Lemma returns_load_wrapper p i x w Q : wr w p i = Some x → Q (x, w) → returns (load_wrapper p i w) Q.
Proof.
  unfold wr, load_wrapper, load_item, mbind, st_bind. destruct (sw_items w !! p) as [it|]; [|done].
  simpl. intros ->. done.
Qed.
Lemma returns_set_wrapper p i x f w Q : wr w p i = Some x → Q (tt, upd p i f w) → returns (set_wrapper p i f w) Q.
Proof.
  intros Hx HQ. unfold set_wrapper. go. eapply returns_load_wrapper; [exact Hx|]. go.
  unfold set_item. go. unfold load_item. unfold wr in Hx. destruct (sw_items w !! p) as [it|]; [|done]. exact HQ.
Qed.
Lemma returns_load_layer i l w Q : head_of w i = Some l → Q (l, w) → returns (load_layer i w) Q.
Proof.
  unfold head_of, load_layer, load_skl, mbind, st_bind. destruct (sw_skl w) as [s|]; [|done]. simpl. intros ->. done.
Qed.
Lemma returns_set_layer i l f w Q : head_of w i = Some l → Q (tt, updl i f w) → returns (set_layer i f w) Q.
Proof.
  intros Hl HQ. unfold set_layer. go. eapply returns_load_layer; [exact Hl|]. go.
  unfold set_skl. go. unfold load_skl. unfold head_of in Hl. unfold updl in HQ. destruct (sw_skl w) as [s|]; [|done]. exact HQ.
Qed.

(** ** Queues *)

Section queue.
Context (i : nat).

Definition first_of (l : list Z) (nxt : wptr) : wptr := match l with [] => nxt | p :: _ => Some (p, i) end.
Fixpoint last_of (prev : slot) (l : list Z) : slot := match l with [] => prev | p :: l => last_of (SNext p i) l end.

(** The wrappers [l], linked from [prev] to [nxt]. *)
Fixpoint seg (w : sworld) (prev : slot) (l : list Z) (nxt : wptr) : Prop :=
  match l with
  | [] => True
  | p :: l => wr w p i = Some (mk_wrapper p (first_of l nxt) (Some prev)) ∧ seg w (SNext p i) l nxt
  end.
(** The layer [i] is the queue [l]. *)
Definition queue (w : sworld) (l : list Z) : Prop :=
  head_of w i = Some (mk_layer (first_of l None) (last_of (SHead i) l)) ∧ seg w (SHead i) l None.

Lemma last_of_app prev l1 l2 : last_of prev (l1 ++ l2) = last_of (last_of prev l1) l2.
Proof. revert prev. induction l1 as [|p l1 IH]; intros prev; [done|]. simpl. apply IH. Qed.
Lemma first_of_app l1 l2 nxt : first_of (l1 ++ l2) nxt = first_of l1 (first_of l2 nxt).
Proof. by destruct l1. Qed.
Lemma seg_app w prev l1 l2 nxt :
  seg w prev (l1 ++ l2) nxt ↔ seg w prev l1 (first_of l2 nxt) ∧ seg w (last_of prev l1) l2 nxt.
Proof.
  revert prev. induction l1 as [|p l1 IH]; intros prev; simpl; [tauto|]. rewrite IH, first_of_app. tauto.
Qed.
Lemma seg_frame w w' prev l nxt : (∀ p, p ∈ l → wr w' p i = wr w p i) → seg w prev l nxt → seg w' prev l nxt.
Proof.
  revert prev. induction l as [|p l IH]; intros prev Hw; simpl; [done|]. intros [Hp Hl].
  split; [rewrite Hw by left; done|]. apply IH; [|done]. intros q Hq. apply Hw. by right.
Qed.
Lemma seg_elem w prev l nxt p : seg w prev l nxt → p ∈ l → ∃ x, wr w p i = Some x ∧ w_data x = p.
Proof.
  revert prev. induction l as [|q l IH]; intros prev; simpl; [by intros _ ?%elem_of_nil|].
  intros [Hq Hl] [->|Hp]%elem_of_cons; [by eauto|by eapply IH].
Qed.

(** The slot before a segment is written: its first wrapper is another. *)
Lemma first_slot w prev l nxt : seg w prev l nxt → ∀ p q j, first_of l None = Some (q, j) → p ∉ l → q ≠ p ∧ j = i.
Proof. destruct l as [|q' l]; [done|]. intros _ p q j [= -> <-] Hp. split; [|done]. intros ->. apply Hp. left. Qed.

(** A step on the links of the layer [i]. *)
Definition relinks (w w' : sworld) : Prop :=
  (∀ q j, j ≠ i → wr w' q j = wr w q j) ∧ (∀ q, w_data <$> wr w' q i = w_data <$> wr w q i) ∧
  (∀ q, body_of w' q = body_of w q) ∧ (∀ j, j ≠ i → head_of w' j = head_of w j) ∧ frame_of w' = frame_of w.

Lemma relinks_refl w : relinks w w.
Proof. done. Qed.
Lemma relinks_trans w1 w2 w3 : relinks w1 w2 → relinks w2 w3 → relinks w1 w3.
Proof.
  intros (A1&A2&A3&A4&A5) (B1&B2&B3&B4&B5). split; [|split; [|split; [|split]]].
  - intros q j Hj. by rewrite B1, A1.
  - intros q. by rewrite B2, A2.
  - intros q. by rewrite B3, A3.
  - intros j Hj. by rewrite B4, A4.
  - by rewrite B5, A5.
Qed.
Lemma relinks_upd p f w w' :
  (∀ x, w_data (f x) = w_data x) → relinks w w' → relinks w (upd p i f w').
Proof.
  intros Hf (H1&H2&H3&H4&H5). split; [|split; [|split; [|split]]].
  - intros q j Hj. rewrite wr_upd_ne by congruence. by apply H1.
  - intros q. rewrite <- H2. destruct (Z.eq_dec q p) as [->|Hq].
    + rewrite wr_upd. destruct (wr w' p i); simpl; [by rewrite Hf|done].
    + by rewrite wr_upd_ne by congruence.
  - intros q. by rewrite body_upd.
  - intros j Hj. rewrite head_upd. by apply H4.
  - by rewrite frame_upd.
Qed.
Lemma relinks_updl f w w' : relinks w w' → relinks w (updl i f w').
Proof.
  intros (H1&H2&H3&H4&H5). split; [|split; [|split; [|split]]]; [done|done|done| |by rewrite frame_updl].
  intros j Hj. rewrite head_updl_ne by done. by apply H4.
Qed.
End queue.

Ltac views :=
  repeat first
    [ rewrite wr_updl | rewrite head_upd | rewrite wr_upd | rewrite head_updl
    | rewrite wr_upd_ne by congruence | rewrite head_updl_ne by congruence ].
Ltac relinked := repeat first [apply relinks_upd; [done|] | apply relinks_updl | apply relinks_refl].
(** The wrappers of a segment that the step did not touch. *)
Ltac seg_away :=
  eapply seg_frame; [|eassumption];
  let q := fresh "q" in let Hq := fresh in intros q Hq; views;
  repeat (rewrite wr_upd_ne; [views|intros ?; simplify_eq; set_solver]); done.

Section macros.
Context (i : nat).

Lemma queue_insert_after_ok w l1 p l2 n x :
  queue i w (l1 ++ p :: l2) → NoDup (l1 ++ p :: l2) → n ∉ l1 ++ p :: l2 → wr w n i = Some x → w_data x = n →
  returns (TAILQ_INSERT_AFTER i p i n i w) (λ '(_, w'), queue i w' (l1 ++ [p; n] ++ l2) ∧ relinks i w w').
Proof.
  intros [Hh Hs] Hnd Hn Hx Hdx. destruct x as [dx nx px]. cbn [w_data] in Hdx. subst dx. rewrite last_of_app in Hh. rewrite seg_app in Hs. cbn [seg last_of first_of] in *.
  destruct Hs as (Hs1&Hp&Hs2). apply NoDup_app in Hnd as (Hnd1&Hd&[Hp2 Hnd2]%NoDup_cons).
  assert ((p ∉ l1) ∧ n ≠ p ∧ (n ∉ l1) ∧ n ∉ l2) as (Hp1&Hnp&Hn1&Hn2) by set_solver.
  unfold TAILQ_INSERT_AFTER. go. eapply returns_load_wrapper; [exact Hp|]. cbn [w_next]. go.
  eapply returns_set_wrapper; [exact Hx|]. destruct l2 as [|q l2]; cbn [first_of seg last_of] in *.
  - go. eapply returns_set_layer; [rewrite head_upd; exact Hh|].
    go. eapply returns_set_wrapper; [views; exact Hp|]. eapply returns_set_wrapper; [views; by rewrite Hx|].
    split; [|relinked]. split; [views; rewrite Hh; simpl; by rewrite last_of_app, !first_of_app|].
    apply seg_app. cbn [app seg first_of last_of]. split; [seg_away|]. views. rewrite Hp, Hx. by split_and!.
  - destruct Hs2 as [Hq Hs2]. assert (q ≠ p ∧ q ≠ n ∧ (q ∉ l1) ∧ q ∉ l2) as (?&?&?&?).
    { apply NoDup_cons in Hnd2 as [? _]. set_solver. }
    go. eapply returns_set_wrapper; [views; exact Hq|].
    go. eapply returns_set_wrapper; [views; exact Hp|]. eapply returns_set_wrapper; [views; by rewrite Hx|].
    split; [|relinked]. split; [views; rewrite Hh; simpl; by rewrite last_of_app, !first_of_app|].
    apply seg_app. cbn [app seg first_of last_of]. split; [seg_away|]. views. rewrite Hp, Hx, Hq. split_and!; [done..|]. seg_away.
Qed.
Lemma queue_insert_tail_ok w l n x :
  queue i w l → NoDup l → n ∉ l → wr w n i = Some x → w_data x = n →
  returns (TAILQ_INSERT_TAIL i n i w) (λ '(_, w'), queue i w' (l ++ [n]) ∧ relinks i w w').
Proof.
  intros [Hh Hs] Hnd Hn Hx Hdx. destruct x as [dx nx px]. cbn [w_data] in Hdx. subst dx. unfold TAILQ_INSERT_TAIL. go. eapply returns_set_wrapper; [exact Hx|].
  go. eapply returns_load_layer; [views; exact Hh|]. go. eapply returns_set_wrapper; [views; by rewrite Hx|]. cbn [tqh_last].
  go. destruct l as [|p l1 _] using rev_ind.
  - cbn [last_of]. eapply returns_set_layer; [views; exact Hh|]. eapply returns_set_layer; [views; by rewrite Hh|].
    split; [|relinked]. split; [views; by rewrite Hh|]. cbn [app seg first_of]. views. rewrite Hx. by split_and!.
  - rewrite last_of_app in *. cbn [last_of store_slot]. apply seg_app in Hs as [Hs [Hp _]]. cbn [first_of] in *.
    assert ((p ∉ l1) ∧ n ≠ p ∧ n ∉ l1) as (Hp1&Hnp&Hn1).
    { apply NoDup_app in Hnd as (_&Hd&_). set_solver. }
    eapply returns_set_wrapper; [views; exact Hp|]. eapply returns_set_layer; [views; exact Hh|].
    split; [|relinked]. rewrite <- app_assoc. split; [views; rewrite Hh; simpl; by rewrite last_of_app, !first_of_app|].
    apply seg_app. cbn [app seg first_of last_of]. split; [seg_away|]. views. rewrite Hp, Hx. by split_and!.
Qed.
Lemma queue_remove_ok w l1 n l2 :
  queue i w (l1 ++ n :: l2) → NoDup (l1 ++ n :: l2) →
  returns (TAILQ_REMOVE i n i w) (λ '(_, w'), queue i w' (l1 ++ l2) ∧ relinks i w w').
Proof.
  intros [Hh Hs] Hnd. rewrite last_of_app in Hh. rewrite seg_app in Hs. cbn [seg last_of first_of] in *.
  destruct Hs as (Hs1&Hn&Hs2). apply NoDup_app in Hnd as (Hnd1&Hd&[Hn2 Hnd2]%NoDup_cons).
  assert (n ∉ l1) as Hn1 by set_solver.
  unfold TAILQ_REMOVE. go. eapply returns_load_wrapper; [exact Hn|]. cbn [w_next w_prev]. go.
  (* the slot before [n] is written *)
  assert (Hslot : ∀ w1 q la, (∀ p, p ∈ l1 → wr w1 p i = wr w p i) →
    head_of w1 i = Some (mk_layer (first_of i (l1 ++ n :: l2) None) la) →
    ∃ f, (∀ Q, Q (tt, f w1) → returns (store_slot (last_of i (SHead i) l1) q w1) Q) ∧
      relinks i w1 (f w1) ∧ (∀ p, p ∉ l1 → wr (f w1) p i = wr w1 p i) ∧
      seg i (f w1) (SHead i) l1 q ∧ head_of (f w1) i = Some (mk_layer (first_of i l1 q) la)).
  { intros w1 q la Hw1 Hla. destruct l1 as [|p l1 _] using rev_ind; cbn [last_of].
    - exists (updl i (with_first q)). split; [intros Q HQ; by eapply returns_set_layer|].
      split; [relinked|]. split; [done|]. split; [done|]. by rewrite head_updl, Hla.
    - rewrite last_of_app. cbn [last_of store_slot]. apply seg_app in Hs1 as [Hs1 [Hp _]]. cbn [first_of] in *.
      assert (p ∉ l1) as Hp1 by (apply NoDup_app in Hnd1 as (_&Hd1&_); set_solver).
      exists (upd p i (with_next q)). split; [intros Q HQ; eapply returns_set_wrapper; [|exact HQ]; rewrite Hw1; [exact Hp|set_solver]|].
      split; [relinked|]. split; [intros p' Hp'; rewrite wr_upd_ne; [done|intros [= ->]; set_solver]|].
      split; [|rewrite head_upd, Hla, !first_of_app; done].
      apply seg_app. cbn [seg first_of last_of]. split.
      + eapply seg_frame; [|exact Hs1]. intros p' Hp'. rewrite wr_upd_ne by (intros [= ->]; done). apply Hw1. set_solver.
      + rewrite wr_upd, Hw1 by set_solver. by rewrite Hp. }
  destruct l2 as [|q l2]; cbn [first_of seg last_of] in *.
  - eapply returns_set_layer; [exact Hh|].
    destruct (Hslot (updl i (with_last (last_of i (SHead i) l1)) w) None (last_of i (SHead i) l1))
      as (f&Hf&Hrel&_&Hsf&Hhf); [done|by rewrite head_updl, Hh|].
    apply Hf. rewrite app_nil_r. split; [by split|]. eapply relinks_trans; [|exact Hrel]. relinked.
  - destruct Hs2 as [Hq Hs2]. apply NoDup_cons in Hnd2 as [Hq2 Hnd2].
    assert (q ∉ l1) as Hq1 by set_solver.
    eapply returns_set_wrapper; [exact Hq|].
    destruct (Hslot (upd q i (with_prev (Some (last_of i (SHead i) l1))) w) (Some (q, i)) (last_of i (SNext q i) l2))
      as (f&Hf&Hrel&Hout&Hsf&Hhf); [intros p Hp; apply wr_upd_ne; intros [= ->]; done|by rewrite head_upd, Hh|].
    apply Hf. split; [|eapply relinks_trans; [|exact Hrel]; relinked]. split.
    { by rewrite Hhf, last_of_app, first_of_app. }
    apply seg_app. cbn [seg first_of last_of]. split; [done|]. split; [by rewrite Hout, wr_upd, Hq|].
    eapply seg_frame; [|exact Hs2]. intros p Hp. rewrite Hout by set_solver. apply wr_upd_ne. intros [= ->]. done.
Qed.
End macros.
