(* ===== verification/SkiplistSearch.v ===== *)
(** * Skip lists: the invariant and the search

    The invariant of a skip list whose layers above the second are empty, and
    the place at which a search ends. *)

From S2P Require Import Prelude Comparators SortedDict Skiplist SkiplistQueue.

(** An item: its address, key and value. *)
Abbreviation sitems := (list (Z * (key * Z))).

(** The layers: all the items in order, the items [up], and empty ones. *)
Definition layer_at (s : sitems) (up : list Z) (i : nat) : list Z :=
  match i with O => s.*1 | S O => up | _ => [] end.
(** The array [layer_check] of an item in the layers [L]. *)
Definition checks (L : nat → list Z) (m : nat) (p : Z) : list bool := (λ i, bool_decide (p ∈ L i)) <$> seq 0 m.

Section inv.
Context (f : libhl_cmp_callback_t) (fr : bool) (n prob : Z) {ok : key → Prop} `{!Comparator f ok}.
Abbreviation m := (Z.to_nat n).

(** The layers [L], with the items [s] and [count] of them. *)
Definition skl_state (L : nat → list Z) (s : sitems) (count : Z) (w : sworld) : Prop :=
  (∀ i, (i < m)%nat → queue i w (L i)) ∧
  (∀ p x, (p, x) ∈ s → body_of w p = Some (x.1, Z.of_nat (length x.1), x.2, checks L m p, m)) ∧
  (∀ p, is_Some (sw_items w !! p) ↔ p ∈ s.*1) ∧
  (frame_of w).1 = Some (n, prob, Some f, fr, count, m) ∧
  0 < sw_new w ∧ Forall (λ p, 0 < p < sw_new w) s.*1 ∧ NoDup s.*1.
Definition skl_at (s : sitems) (up : list Z) (w : sworld) : Prop :=
  skl_state (layer_at s up) s (Z.of_nat (length s)) w ∧
  up ⊆ s.*1 ∧ NoDup up ∧ 1 ≤ n ∧ (n ≤ 2 ∨ 99 ≤ prob) ∧ false ∉ sw_alloc w.

Lemma frame_skl w n' prob' cb fr' count m' :
  (frame_of w).1 = Some (n', prob', cb, fr', count, m') →
  ∃ lays, sw_skl w = Some (mk_skiplist n' prob' cb fr' lays count) ∧ length lays = m'.
Proof using Type.
  unfold frame_of. simpl. destruct (sw_skl w) as [[]|]; simpl; [|done]. intros [= -> -> -> -> -> <-]. eauto.
Qed.
Lemma returns_load_skl w n' prob' cb fr' count m' Q :
  (frame_of w).1 = Some (n', prob', cb, fr', count, m') →
  (∀ lays, sw_skl w = Some (mk_skiplist n' prob' cb fr' lays count) → Q (mk_skiplist n' prob' cb fr' lays count, w)) →
  returns (load_skl w) Q.
Proof using Type. intros (lays&Hs&_)%frame_skl HQ. unfold load_skl. rewrite Hs. by apply HQ. Qed.
Lemma returns_load_item w p b Q :
  body_of w p = Some b → (∀ it, sw_items w !! p = Some it →
    (it_key it, it_klen it, it_value it, it_layer_check it, length (it_wrappers it)) = b → Q (it, w)) →
  returns (load_item p w) Q.
Proof using Type.
  unfold body_of, load_item. destruct (sw_items w !! p) as [it|]; simpl; [|done]. intros [= <-] HQ. by apply HQ.
Qed.

Lemma state_body L s c w p : skl_state L s c w → p ∈ s.*1 → ∃ x, (p, x) ∈ s ∧ body_of w p = Some (x.1, Z.of_nat (length x.1), x.2, checks L m p, m).
Proof using Type. intros (_&Hb&_) ([q x]&->&Hin)%list_elem_of_fmap. exists x. split; [done|]. by apply Hb. Qed.

(** ** A comparison *)

Lemma returns_call_cmp_keys L s c w p x k Q :
  skl_state L s c w → (p, x) ∈ s → ok x.1 → ok k → Q (cmp_sign x.1 k, w) → returns (call_cmp_keys p k w) Q.
Proof.
  intros (_&Hb&_&Hfr&_) Hp Hx Hk HQ. unfold call_cmp_keys. go. eapply returns_load_skl; [exact Hfr|]. intros lays _. go.
  eapply returns_load_item; [by apply Hb|]. intros it _ [= Hkey _ _ _ _]. cbn [skl_cmp_keys_cb]. rewrite Hkey. go.
  by rewrite cmp_ret.
Qed.

(** ** A walk in one layer *)

(** The items [l] of a layer that do not come after [k], and where they stop. *)
Definition ends_at (k : key) (l : sitems) (l1 l2 : sitems) : Prop :=
  l = l1 ++ l2 ∧ Forall (λ x, cmp_sign x.2.1 k ≤ 0) l1 ∧
  match l2 with [] => True | x :: _ => 0 < cmp_sign x.2.1 k end.
Definition last_ptr (i : nat) (prev : wptr) (l : sitems) : wptr :=
  match last l with Some x => Some (x.1, i) | None => prev end.

Lemma last_ptr_cons i prev x l : last_ptr i prev (x :: l) = last_ptr i (Some (x.1, i)) l.
Proof using Type. unfold last_ptr. destruct l as [|y l]; [done|]. change (x :: y :: l) with ([x] ++ (y :: l)).
  rewrite last_app. destruct (last (y :: l)) eqn:E; [done|]. by apply last_None in E. Qed.

Lemma search_walk L s c w k i (l : sitems) : ∀ prev0 prev,
  skl_state L s c w → ok k → Forall (λ x, ok x.2.1) s → l ⊆ s → seg i w prev l.*1 None →
  ∃ l1 l2 r, ends_at k l l1 l2 ∧
    runs (loop_body (search_body k)) (prev0, first_of i l.*1 None, w) r (last_ptr i prev0 l1, w) ∧ r ≤ Z.of_nat (length l).
Proof.
  induction l as [|[p x] l IH]; intros prev0 prev Hst Hk Hok Hl Hseg.
  { exists [], [], 0. split; [done|]. split; [by apply runs_exit|done]. }
  destruct Hseg as [Hp Hseg]. fold (fmap (M := list) (@fst Z (key * Z)) l) in *.
  assert (Hin : (p, x) ∈ s) by (apply Hl; left). pose proof (proj1 (Forall_forall _ _) Hok _ Hin) as Hx. cbn [fst snd] in *.
  assert (Hbody : loop_body (search_body k) (prev0, Some (p, i), w) =
    if 0 <? cmp_sign x.1 k then Ret (inr (prev0, w)) else Ret (inl ((Some (p, i), first_of i l.*1 None), w))).
  { unfold loop_body. cbn [fst snd]. rewrite (returns_exact (search_body k (prev0, Some (p, i)) w)
      (if 0 <? cmp_sign x.1 k then inr prev0 else inl (Some (p, i), first_of i l.*1 None), w)); [by case_if|].
    unfold search_body. go. eapply returns_load_wrapper; [exact Hp|]. cbn [w_data]. go.
    eapply (returns_call_cmp_keys L s c w p x k); [done..|]. destruct (0 <? cmp_sign x.1 k); [by go|].
    go. eapply returns_load_wrapper; [exact Hp|]. by go. }
  destruct (Z.ltb_spec 0 (cmp_sign x.1 k)) as [Hgt|Hle].
  - exists [], ((p, x) :: l), 0. split; [by split_and!|]. split; [by apply runs_exit|lia].
  - destruct (IH (Some (p, i)) (SNext p i)) as (l1&l2&r&(->&Hle1&Hgt2)&Hr&Hlen); [done..|set_solver|done|].
    exists ((p, x) :: l1), l2, (r + 1). split; [split; [done|]; split; [by constructor|done]|].
    split; [|cbn [length]; lia]. rewrite last_ptr_cons. eapply runs_step; [exact Hbody|exact Hr].
Qed.

(** ** The search *)

(** The address a search gives for the items that do not come after the key. *)
Definition last_addr (l : sitems) : Z := match last l with Some x => x.1 | None => 0 end.
(** What the path of an insertion holds for the upper layers. *)
Definition path_ok (up : list Z) (path : list wptr) : Prop :=
  ∀ i, (1 ≤ i < m)%nat → path !! i = Some None ∨ (i = 1%nat ∧ ∃ q, q ∈ up ∧ path !! i = Some (Some (q, 1%nat))).
(** The items in order, cut at the place of [k]. *)
Definition cut_at (k : key) (s s1 s2 : sitems) : Prop :=
  s = s1 ++ s2 ∧ Forall (λ x, cmp_sign x.2.1 k ≤ 0) s1 ∧ all_after k s2.*2.

Lemma sorted_cut k (a : sitems) p x b :
  dict f ok ((a ++ (p, x) :: b).*2) → ok k → cmp_sign x.1 k ≤ 0 → Forall (λ y, cmp_sign y.2.1 k ≤ 0) (a ++ [(p, x)]).
Proof.
  intros Hd Hk Hx. rewrite fmap_app, fmap_cons in Hd. destruct x as [k0 v0]. cbn [fst snd] in *.
  apply dict_snoc_cons in Hd as (Hk0&Hd&Hl&_). apply Forall_app. split; [|by repeat constructor].
  apply Forall_forall. intros y Hy. assert (Hy2 : y.2 ∈ a.*2) by (by apply list_elem_of_fmap_2).
  apply Z.lt_le_incl, (sign_lt_le _ k0); [by eapply dict_ok, elem_of_app; eauto|done..|by apply Hl|done].
Qed.
Lemma ends_cut k (s a b c : sitems) :
  dict f ok s.*2 → ok k → s = c ++ a ++ b → Forall (λ y, cmp_sign y.2.1 k ≤ 0) c →
  Forall (λ y, cmp_sign y.2.1 k ≤ 0) a → match b with [] => True | x :: _ => 0 < cmp_sign x.2.1 k end →
  cut_at k s (c ++ a) b.
Proof.
  intros Hd Hk -> Hc Ha Hb. split; [by rewrite app_assoc|]. split; [by apply Forall_app|].
  destruct b as [|[p [k0 v0]] b]; [constructor|]. rewrite app_assoc, fmap_app, fmap_cons in Hd.
  by apply (dict_after k Hk (c ++ a).*2 k0 v0).
Qed.

(** A layer from a wrapper on, as items. *)
Lemma seg_sublist w i prev (l : list Z) (s : sitems) :
  l ⊆ s.*1 → seg i w prev l None → ∃ s', s'.*1 = l ∧ s' ⊆ s.
Proof using Type.
  revert prev. induction l as [|p l IH]; intros prev Hl Hseg; [by exists []; split; [|apply list_subseteq_nil]|].
  destruct Hseg as [_ Hseg]. destruct (IH _ ltac:(set_solver) Hseg) as (s'&<-&Hs').
  assert (p ∈ s.*1) as ([q x]&->&Hin)%list_elem_of_fmap by set_solver.
  exists ((q, x) :: s'). split; [done|]. set_solver.
Qed.

(** The body of the loop over the layers. *)
Lemma search_layer_ok L s c w k i (l : sitems) prev0 prev path :
  skl_state L s c w → ok k → Forall (λ x, ok x.2.1) s → l ⊆ s → seg i w prev l.*1 None →
  Z.of_nat (length l) < 2 ^ 64 →
  ∃ l1 l2, ends_at k l l1 l2 ∧
    (prev_item ← loopS (search_body k) (prev0, first_of i l.*1 None); search_layers k i prev_item (<[i := prev_item]> path)) w =
    search_layers k i (last_ptr i prev0 l1) (<[i := last_ptr i prev0 l1]> path) w.
Proof.
  intros Hst Hk Hok Hl Hseg Hlen. destruct (search_walk L s c w k i l prev0 prev) as (l1&l2&r&Hends&Hr&Hlr); [done..|].
  exists l1, l2. split; [done|]. erewrite st_bind_Ret; [done|]. unfold loopS. apply (runs_loop _ _ r); [done|lia].
Qed.

Context (k : key) (Hk : ok k).

Section at_world.
Context (s : sitems) (up : list Z) (w : sworld) (Hat : skl_at s up w) (Hd : dict f ok s.*2).
Context (Hsize : Z.of_nat (length s) < 2 ^ 64).

Lemma at_ok : Forall (λ x, ok x.2.1) s.
Proof using Hd.
  apply Forall_forall. intros x Hx. apply (dict_ok s.*2 x.2 Hd). by apply list_elem_of_fmap_2.
Qed.
Lemma at_queue i : (i < m)%nat → queue i w (layer_at s up i).
Proof using Hat. destruct Hat as ((Hq&_)&_). apply Hq. Qed.

(** Empty layers above the second. *)
Lemma search_empty_layers j path :
  (S (S j) ≤ m)%nat → (∀ i, <[i := None]> path = path) →
  search_layers k (S (S j)) None path w = search_layers k 2 None path w.
Proof using Hat.
  intros Hj Hpath. induction j as [|j IH]; [done|]. rewrite <- IH by lia.
  destruct (at_queue (S (S j)) ltac:(lia)) as [Hhead _]. cbn [layer_at first_of] in Hhead.
  remember (S (S j)) as i eqn:Hi. cbn [search_layers].
  assert (Hl : (l ← load_layer i; mret (tqh_first l)) w = Ret (None, w)).
  { apply returns_exact. go. eapply returns_load_layer; [exact Hhead|]. by go. }
  erewrite st_bind_Ret; [|exact Hl]. erewrite st_bind_Ret; [by rewrite Hpath|].
  unfold loopS. apply (runs_loop _ _ 0); [by apply runs_exit|done].
Qed.

Lemma search_last_none path :
  (1 ≤ m)%nat → ∃ s1 s2, cut_at k s s1 s2 ∧
    search_layers k 1 None path w = Ret (last_ptr 0 None s1, <[0%nat := last_ptr 0 None s1]> path, w).
Proof using Hat Hd Hk Hsize.
  intros Hm. destruct (at_queue 0 ltac:(lia)) as [Hhead Hseg]. cbn [layer_at] in *. pose proof Hat as (Hst&_).
  destruct (search_layer_ok _ s _ w k 0 s None (SHead 0) path Hst Hk at_ok ltac:(done) Hseg Hsize) as (s1&s2&(Hs&Hle&Hgt)&Hrun).
  exists s1, s2. split; [by apply (ends_cut k s s1 s2 [])|].
  assert (Hl : (l ← load_layer 0; mret (tqh_first l)) w = Ret (first_of 0 s.*1 None, w)).
  { apply returns_exact. go. eapply returns_load_layer; [exact Hhead|]. by go. }
  cbn [search_layers]. erewrite st_bind_Ret; [|exact Hl]. exact Hrun.
Qed.

Lemma search_last_from path p x :
  (2 ≤ m)%nat → p ∈ up → (p, x) ∈ s → cmp_sign x.1 k ≤ 0 →
  ∃ a b c, cut_at k s (c ++ (p, x) :: a) b ∧
    search_layers k 1 (Some (p, 1%nat)) path w =
      Ret (last_ptr 0 (Some (p, 1%nat)) a, <[0%nat := last_ptr 0 (Some (p, 1%nat)) a]> path, w).
Proof using Hat Hd Hk Hsize.
  intros Hm Hp Hin Hx. pose proof Hat as (Hst&_).
  destruct (at_queue 0 ltac:(lia)) as [_ Hseg]. destruct (at_queue 1 ltac:(lia)) as [_ Hseg1]. cbn [layer_at] in *.
  destruct (seg_elem _ _ _ _ _ _ Hseg1 Hp) as (y&Hy&Hdata).
  pose proof (list_elem_of_split _ _ Hin) as (c&s'&Hs). pose proof Hseg as Hseg'. rewrite Hs, fmap_app, fmap_cons in Hseg'.
  apply seg_app in Hseg' as [_ [Hp0 Hsegp]]. cbn [fst] in *.
  assert (Hc : Forall (λ y, cmp_sign y.2.1 k ≤ 0) (c ++ [(p, x)])) by (apply (sorted_cut k c p x s'); [by rewrite <- Hs|done..]).
  destruct (search_layer_ok _ s _ w k 0 s' (Some (p, 1%nat)) (SNext p 0) path Hst Hk at_ok) as (a&b&(Hab&Hle&Hgt)&Hrun);
    [rewrite Hs; set_solver|done|rewrite Hs, length_app in Hsize; simpl in Hsize; lia|].
  exists a, b, c. split.
  { replace (c ++ (p, x) :: a) with ((c ++ [(p, x)]) ++ a) by (by rewrite <- app_assoc).
    apply ends_cut; try done. by rewrite Hs, Hab, <- app_assoc. }
  assert (Hl : (x ← load_wrapper p 1; y ← load_wrapper (w_data x) 0; mret (w_next y)) w = Ret (first_of 0 s'.*1 None, w)).
  { apply returns_exact. go. eapply returns_load_wrapper; [exact Hy|]. rewrite Hdata. go.
    eapply returns_load_wrapper; [exact Hp0|]. by go. }
  cbn [search_layers]. erewrite st_bind_Ret; [|exact Hl]. exact Hrun.
Qed.

(** The second layer. *)
Lemma search_upper path :
  (2 ≤ m)%nat →
  search_layers k 2 None path w = search_layers k 1 None (<[1%nat := None]> path) w ∨
  ∃ p x, p ∈ up ∧ (p, x) ∈ s ∧ cmp_sign x.1 k ≤ 0 ∧
    search_layers k 2 None path w = search_layers k 1 (Some (p, 1%nat)) (<[1%nat := Some (p, 1%nat)]> path) w.
Proof using Hat Hd Hk Hsize.
  intros Hm. pose proof Hat as (Hst&Hup&Hnd&_). destruct (at_queue 1 ltac:(lia)) as [Hhead Hseg]. cbn [layer_at] in *.
  destruct (seg_sublist w 1 (SHead 1) up s Hup Hseg) as (l&Hl&Hls).
  assert (Hlen : Z.of_nat (length l) < 2 ^ 64).
  { rewrite <- Hl in Hnd. pose proof (submseteq_length _ _ (NoDup_submseteq l.*1 s.*1 Hnd ltac:(set_solver))).
    rewrite !length_fmap in *. lia. }
  destruct (search_layer_ok _ s _ w k 1 l None (SHead 1) path Hst Hk at_ok Hls) as (l1&l2&(Hs&Hle&_)&Hrun);
    [by rewrite Hl|done|].
  assert (Hload : (l ← load_layer 1; mret (tqh_first l)) w = Ret (first_of 1 l.*1 None, w)).
  { apply returns_exact. go. eapply returns_load_layer; [exact Hhead|]. rewrite Hl. by go. }
  assert (Hstep : search_layers k 2 None path w = search_layers k 1 (last_ptr 1 None l1) (<[1%nat := last_ptr 1 None l1]> path) w).
  { cbn [search_layers]. erewrite st_bind_Ret; [|exact Hload]. exact Hrun. }
  unfold last_ptr in Hstep. destruct (last l1) as [[p x]|] eqn:Hlast; [right|by left].
  apply last_Some_elem_of in Hlast. exists p, x. rewrite Forall_forall in Hle. split_and!.
  - rewrite <- Hl. apply list_elem_of_fmap. exists (p, x). split; [done|]. rewrite Hs. set_solver.
  - apply Hls. rewrite Hs. set_solver.
  - by apply (Hle (p, x)).
  - exact Hstep.
Qed.

Lemma search_ok path :
  (∀ i, <[i := None]> path = path) →
  ∃ s1 s2 path', cut_at k s s1 s2 ∧ skiplist_search_internal k path w = Ret (last_addr s1, path', w) ∧
    ((∀ i, (i < m)%nat → path !! i = Some None) → path_ok up path').
Proof using Hat Hd Hk Hsize.
  intros Hpath. pose proof Hat as (Hst&Hup&Hnd&Hn&_). pose proof Hst as (_&_&_&Hfr&_).
  apply frame_skl in Hfr as (lays&Hskl&_).
  assert (Hstart : ∀ prev path' d, search_layers k m None path w = Ret (prev, path', w) →
    (match prev with Some (p, i) => ∃ x, wr w p i = Some x ∧ w_data x = d | None => d = 0 end) →
    skiplist_search_internal k path w = Ret (d, path', w)).
  { intros prev path' d Hrun Hdata. apply returns_exact. unfold skiplist_search_internal. go.
    unfold load_skl at 1. rewrite Hskl. cbn [returns num_layers]. go. eapply returns_Ret_at; [exact Hrun|].
    destruct prev as [[p i]|]; [|subst d; by go]. destruct Hdata as (x&Hx&<-). go. eapply returns_load_wrapper; [exact Hx|]. by go. }
  assert (Hwr : ∀ y, y ∈ s → ∃ x, wr w y.1 0 = Some x ∧ w_data x = y.1).
  { intros y Hy. destruct (at_queue 0 ltac:(lia)) as [_ Hseg]. eapply seg_elem; [exact Hseg|].
    cbn [layer_at]. by apply list_elem_of_fmap_2. }
  assert (Hpath0 : ∀ i o, (1 ≤ i < m)%nat → path !! i = Some None → <[0%nat := o]> path !! i = Some None).
  { intros i o Hi. by rewrite list_lookup_insert_ne by lia. }
  assert (Hnone : search_layers k m None path w = search_layers k 1 None path w →
    ∃ s1 s2 path', cut_at k s s1 s2 ∧ skiplist_search_internal k path w = Ret (last_addr s1, path', w) ∧
      ((∀ i, (i < m)%nat → path !! i = Some None) → path_ok up path')).
  { intros Heq. destruct (search_last_none path ltac:(lia)) as (s1&s2&Hcut&Hrun). exists s1, s2. eexists. split; [done|]. split.
    - eapply Hstart; [by rewrite Heq|]. unfold last_ptr, last_addr. destruct (last s1) as [y|] eqn:Hy; [|done].
      apply last_Some_elem_of in Hy. apply Hwr. destruct Hcut as (->&_). set_solver.
    - intros Hp i Hi. left. apply Hpath0; [done|]. by apply Hp; lia. }
  destruct (decide (m = 1%nat)) as [Hm1|Hm1]; [by apply Hnone; rewrite Hm1|].
  destruct m as [|[|j]] eqn:Hm; [lia|done|]. rewrite <- Hm in *.
  assert (Hdown : search_layers k m None path w = search_layers k 2 None path w) by (rewrite Hm; apply search_empty_layers; [lia|done]).
  destruct (search_upper path ltac:(lia)) as [Heq|(p&x&Hp&Hin&Hx&Heq)].
  { apply Hnone. by rewrite Hdown, Heq, Hpath. }
  destruct (search_last_from (<[1%nat := Some (p, 1%nat)]> path) p x ltac:(lia) Hp Hin Hx) as (a&b&c&Hcut&Hrun).
  exists (c ++ (p, x) :: a), b. eexists. split; [done|]. split.
  - eapply Hstart; [by rewrite Hdown, Heq|]. unfold last_ptr, last_addr. rewrite last_app_cons, last_cons.
    destruct (last a) as [y|] eqn:Hy.
    + apply last_Some_elem_of in Hy. apply Hwr. destruct Hcut as (->&_). set_solver.
    + destruct (at_queue 1 ltac:(lia)) as [_ Hseg]. eapply seg_elem; [exact Hseg|done].
  - intros Hpn i Hi. rewrite list_lookup_insert_ne by lia. destruct (decide (i = 1%nat)) as [->|Hi1].
    + right. split; [done|]. exists p. split; [done|]. rewrite list_lookup_insert_eq; [done|].
      apply lookup_lt_is_Some. rewrite Hpn by lia. done.
    + left. rewrite list_lookup_insert_ne by done. apply Hpn. lia.
Qed.
End at_world.
End inv.
