(* ===== verification/SkiplistInsert.v ===== *)
(** * Skip lists: insertion

    The new item goes into the first layer at the place of its key, and into
    the second one or not, as the coin says. *)

From S2P Require Import Prelude Comparators SortedDict Skiplist SkiplistQueue SkiplistSearch.

Definition body : Type := key * Z * Z * list bool * nat.
(** What an operation on the layers does not change. *)
Definition mem_of (w : sworld) : Z * list bool * list Z := (sw_new w, sw_alloc w, sw_freed w).
Definition same_mem (w w' : sworld) : Prop := (frame_of w').1 = (frame_of w).1 ∧ mem_of w' = mem_of w.

Lemma same_mem_refl w : same_mem w w.
Proof. done. Qed.
Lemma same_mem_trans w1 w2 w3 : same_mem w1 w2 → same_mem w2 w3 → same_mem w1 w3.
Proof. intros [??] [??]. split; congruence. Qed.
Lemma frame_same_mem w w' : frame_of w' = frame_of w → same_mem w w'.
Proof. unfold frame_of, same_mem, mem_of. simpl. by intros [= -> -> -> -> _]. Qed.
Lemma relinks_same_mem i w w' : relinks i w w' → same_mem w w'.
Proof. intros (_&_&_&_&Hf). by apply frame_same_mem. Qed.
Lemma body_dom w p : is_Some (sw_items w !! p) ↔ is_Some (body_of w p).
Proof. unfold body_of. by rewrite fmap_is_Some. Qed.

(** The layers [L] of [m] are queues, and the items are [B]. *)
Definition links (m : nat) (L : nat → list Z) (B : Z → option body) (w : sworld) : Prop :=
  (∀ i, (i < m)%nat → queue i w (L i)) ∧ (∀ p, body_of w p = B p).
Definition set_at {A} (i : nat) (l : A) (L : nat → A) (j : nat) : A := if decide (j = i) then l else L j.

Lemma queue_frame i w w' l :
  (∀ p, p ∈ l → wr w' p i = wr w p i) → head_of w' i = head_of w i → queue i w l → queue i w' l.
Proof. intros Hw Hh [Hq Hs]. split; [by rewrite Hh|]. by eapply seg_frame. Qed.
Lemma links_relinks m L B i l w w' : links m L B w → queue i w' l → relinks i w w' → links m (set_at i l L) B w'.
Proof.
  intros [Hq Hb] Hl (Hwr&_&Hbody&Hhead&_). split; [|intros p; by rewrite Hbody].
  intros j Hj. unfold set_at. case_decide as Hji; [by subst|]. eapply queue_frame; [|by apply Hhead|by apply Hq]. auto.
Qed.
(** A wrapper that is in no queue. *)
Lemma links_upd m L B p i f w : links m L B w → p ∉ L i → links m L B (upd p i f w).
Proof.
  intros [Hq Hb] Hp. split; [|intros q; by rewrite body_upd]. intros j Hj. eapply queue_frame; [|by rewrite head_upd|by apply Hq].
  intros q Hq'. apply wr_upd_ne. intros [= -> ->]. done.
Qed.
Lemma links_ext m L L' B B' w :
  (∀ i, (i < m)%nat → L i = L' i) → (∀ p, B p = B' p) → links m L B w → links m L' B' w.
Proof. intros HL HB [Hq Hb]. split; [intros i Hi; rewrite <- HL by done; by apply Hq|intros p; by rewrite <- HB]. Qed.

(** [layer_check[i] = 1]. *)
Definition check_body (i : nat) (b : body) : body := let '(k, kl, v, c, m) := b in (k, kl, v, <[i := true]> c, m).
Lemma returns_set_check m L B p i b w Q :
  links m L B w → B p = Some b → (i < length b.1.2)%nat →
  (∀ w', links m L (λ q, if decide (q = p) then Some (check_body i b) else B q) w' → same_mem w w' →
     (∀ q j, wr w' q j = wr w q j) → Q (tt, w')) →
  returns (set_check p i w) Q.
Proof.
  intros [Hq HB] Hp Hi HQ. pose proof (HB p) as Hb. rewrite Hp in Hb. unfold body_of in Hb.
  destruct (sw_items w !! p) as [it|] eqn:Hit; [|done]. injection Hb as <-. cbn [fst snd] in Hi.
  destruct (lookup_lt_is_Some_2 _ _ Hi) as [c Hc].
  unfold set_check, load_check, set_item, load_item, mbind, st_bind. rewrite Hit. simpl. rewrite Hc. simpl. rewrite Hit. simpl.
  assert (Hwr : ∀ q j, wr (put_items (alter (with_check (<[i:=true]> (it_layer_check it))) p (sw_items w)) w) q j = wr w q j).
  { intros q j. unfold wr. simpl. destruct (decide (q = p)) as [->|]; [by rewrite lookup_alter_eq, Hit|by rewrite lookup_alter_ne]. }
  assert (Halter : alter (λ it0, with_check (<[i:=true]> (it_layer_check it0)) it0) p (sw_items w) =
            alter (with_check (<[i:=true]> (it_layer_check it))) p (sw_items w)).
  { apply alter_ext. intros x. rewrite Hit. by intros [= <-]. }
  rewrite Halter. apply HQ; [|done|done]. split.
  - intros j Hj. apply (queue_frame j w); [by intros; apply Hwr|done|by apply Hq].
  - intros q. unfold body_of. simpl. case_decide as Hqp.
    + subst. by rewrite lookup_alter_eq, Hit.
    + rewrite lookup_alter_ne by done. by rewrite <- HB.
Qed.

Section insert.
Context (random : nat → Z).

(** ** The upper layers *)

Lemma wr_some w p i b : body_of w p = Some b → (i < b.2)%nat → is_Some (wr w p i).
Proof using Type.
  unfold body_of, wr. destruct (sw_items w !! p) as [it|]; simpl; [|done]. intros [= <-]. simpl. apply lookup_lt_is_Some_2.
Qed.

(** Once the coin is 0, only the data pointers of the item are set. *)
Lemma upper_layers_quiet m L B n i p b path w :
  links m L B w → B p = Some b → b.2 = m → (i + n = m)%nat → (∀ j, (i ≤ j < m)%nat → p ∉ L j) →
  returns (upper_layers random n i 0 p path w) (λ '(_, w'), links m L B w' ∧ same_mem w w').
Proof.
  revert i w. induction n as [|n IH]; intros i w Hl Hp Hb Hin Hout; [by go|]. cbn [upper_layers]. go.
  destruct (wr_some w p i b) as [x Hx]; [destruct Hl as [_ HB]; by rewrite HB|lia|].
  eapply returns_set_wrapper; [exact Hx|]. unfold toss. go. rewrite Z.eqb_refl. go. rewrite Z.eqb_refl. go.
  eapply returns_mono; [apply (IH (S i)); [apply links_upd; [done|apply Hout; lia]|done|done|lia|intros; apply Hout; lia]|].
  intros [_ w'] [Hl' Hm]. split; [done|]. eapply same_mem_trans; [|exact Hm]. by apply frame_same_mem, frame_upd.
Qed.

(** The coin is tossed: 1 only when items go up at all. *)
Lemma toss_ok n prob cb fr count m w Q :
  (frame_of w).1 = Some (n, prob, cb, fr, count, m) →
  (∀ c w', c = 0 ∨ (c = 1 ∧ prob < 99) → same_mem w w' → (∀ m L B, links m L B w → links m L B w') →
     (∀ p i, wr w' p i = wr w p i) → Q (c, w')) →
  returns (toss random (-1) w) Q.
Proof.
  intros Hfr HQ. unfold toss. cbn [Z.eqb]. go. eapply returns_load_skl; [exact Hfr|]. intros lays _.
  go. unfold call_random. cbn [returns]. go. cbn [probability].
  apply HQ; [|by split|intros m' L B [Hq Hb]; split; [intros i Hi; apply (queue_frame i w); [done|done|by apply Hq]|done]|done].
  pose proof (Z.rem_bound_abs (random (sw_random w)) 100). case_if; [right; split; [done|lia]|by left].
Qed.

Section upper.
Context (n prob : Z) (cb : option libhl_cmp_callback_t) (fr : bool) (count : Z).
Abbreviation m := (Z.to_nat n).
Context (Hn : 1 ≤ n) (Hup : n ≤ 2 ∨ 99 ≤ prob).
Context (s : sitems) (up : list Z) (p : Z) (b : body) (path : list wptr).
Context (Hnd : NoDup up) (Hp : p ∉ up) (Hb : b.2 = m) (Hcheck : length b.1.2 = m) (Hpath : path_ok n up path).

(** The item goes into the second layer. *)
Lemma insert_second_ok B w :
  links m (layer_at s up) B w → B p = Some b → (1 < m)%nat → (∃ x, wr w p 1 = Some x ∧ w_data x = p) →
  returns ((_ ← match path !! 1%nat with
                | Some (Some (q, j)) => TAILQ_INSERT_AFTER 1 q j p 1
                | Some None => TAILQ_INSERT_TAIL 1 p 1
                | None => undef
                end;
            set_check p 1) w) (λ '(_, w'), ∃ up', up' ≡ₚ p :: up ∧ same_mem w w' ∧
    links m (layer_at s up') (λ q, if decide (q = p) then Some (check_body 1 b) else B q) w').
Proof using Hnd Hp Hb Hcheck Hpath.
  intros Hl HB Hm (x&Hx&Hdata). pose proof Hl as [Hq _]. pose proof (Hq 1%nat Hm) as Hq1. cbn [layer_at] in Hq1.
  assert (Hfin : ∀ up' w1, up' ≡ₚ p :: up → queue 1 w1 up' → relinks 1 w w1 →
    returns (set_check p 1 w1) (λ '(_, w'), ∃ up', up' ≡ₚ p :: up ∧ same_mem w w' ∧
      links m (layer_at s up') (λ q, if decide (q = p) then Some (check_body 1 b) else B q) w')).
  { intros up' w1 Hperm Hq1' Hrel. pose proof (links_relinks _ _ _ _ _ _ _ Hl Hq1' Hrel) as Hl1.
    eapply returns_set_check; [exact Hl1|exact HB|lia|]. intros w' Hl' Hmem _. exists up'. split; [done|].
    split; [eapply same_mem_trans; [by eapply relinks_same_mem|done]|]. eapply links_ext; [|done|exact Hl'].
    intros i _. unfold set_at. by destruct i as [|[|i]]. }
  destruct (Hpath 1%nat) as [->|(_&q&Hin&->)]; [lia|..]; go.
  - eapply returns_mono; [by eapply queue_insert_tail_ok|]. intros [_ w1] [Hq' Hrel].
    eapply Hfin; [|done|done]. by rewrite Permutation_app_comm.
  - apply list_elem_of_split in Hin as (l1&l2&->). eapply returns_mono; [by eapply queue_insert_after_ok|].
    intros [_ w1] [Hq' Hrel]. eapply Hfin; [|done|done]. cbn [app]. solve_Permutation.
Qed.

Lemma upper_layers_ok B w :
  links m (layer_at s up) B w → B p = Some b → (frame_of w).1 = Some (n, prob, cb, fr, count, m) →
  returns (upper_layers random (m - 1) 1 (-1) p path w) (λ '(_, w'), same_mem w w' ∧
    (links m (layer_at s up) B w' ∨
     ∃ up', up' ≡ₚ p :: up ∧ (1 < m)%nat ∧
       links m (layer_at s up') (λ q, if decide (q = p) then Some (check_body 1 b) else B q) w')).
Proof using Hnd Hp Hcheck Hpath Hn Hup Hb.
  intros Hl HB Hfr. destruct (m - 1)%nat as [|r] eqn:Hr.
  { cbn [upper_layers]. go. split; [done|by left]. }
  cbn [upper_layers]. go. destruct (wr_some w p 1 b) as [x Hx]; [destruct Hl as [_ Hl]; by rewrite Hl|lia|].
  eapply returns_set_wrapper; [exact Hx|]. go.
  assert (Hl1 : links m (layer_at s up) B (upd p 1 (with_data p) w)) by (by apply links_upd).
  eapply toss_ok; [rewrite frame_upd; exact Hfr|]. intros c w1 Hc Hm1 Hlinks Hwr.
  assert (Hw1 : ∃ x, wr w1 p 1 = Some x ∧ w_data x = p) by (rewrite Hwr, wr_upd, Hx; by eexists).
  assert (Hmem : same_mem w w1) by (eapply same_mem_trans; [apply frame_same_mem, frame_upd|exact Hm1]).
  specialize (Hlinks _ _ _ Hl1). destruct Hc as [->|[-> Hprob]].
  - rewrite Z.eqb_refl. go. eapply returns_mono.
    { eapply (upper_layers_quiet m); [exact Hlinks|exact HB|done|lia|]. intros [|[|j]] Hj; [lia|done|by apply not_elem_of_nil]. }
    intros [_ w2] [Hl2 Hm2]. split; [by eapply same_mem_trans|by left].
  - cbn [Z.eqb]. assert (r = 0%nat) as -> by lia. cbn [upper_layers]. go. apply returns_st_bind.
    eapply returns_mono; [eapply insert_second_ok; [exact Hlinks|done|lia|done]|].
    intros [_ w2] (up'&Hperm&Hm2&Hl2). go. split; [by eapply same_mem_trans|]. right. exists up'. split; [done|]. split; [lia|done].
Qed.
End upper.

(** ** A new item *)

Lemma returns_salloc w Q :
  false ∉ sw_alloc w → (∀ a, false ∉ a → Q (true, put_salloc a w)) → returns (salloc w) Q.
Proof using Type.
  intros Ha HQ. unfold salloc. destruct w as [skl items new [|b a] freed rnd]; cbn [sw_alloc] in *; [by apply (HQ [])|].
  destruct b; [|by destruct Ha; left]. apply HQ. intros ?. apply Ha. by right.
Qed.
Lemma returns_set_item w p it f Q :
  sw_items w !! p = Some it → Q (tt, put_items (alter f p (sw_items w)) w) → returns (set_item p f w) Q.
Proof using Type. intros Hp HQ. unfold set_item. go. unfold load_item. by rewrite Hp. Qed.

Definition new_body (m : nat) (k : key) (v : Z) : body := (k, Z.of_nat (length k), v, replicate m false, m).

Lemma new_skl_item_ok k v n prob cb fr count m w :
  (frame_of w).1 = Some (n, prob, cb, fr, count, m) → m = Z.to_nat n → false ∉ sw_alloc w →
  returns (new_skl_item k v w) (λ '(res, w'), res = Some (sw_new w) ∧ sw_skl w' = sw_skl w ∧
    sw_items w' = <[sw_new w := mk_item k (Z.of_nat (length k)) v (replicate m false) (replicate m (mk_wrapper 0 None None))]> (sw_items w) ∧
    sw_new w' = sw_new w + 1 ∧ (false ∉ sw_alloc w') ∧ sw_freed w' = sw_freed w).
Proof using Type.
  intros Hfr -> Ha. unfold new_skl_item. go. eapply returns_load_skl; [exact Hfr|]. intros lays _. cbn [num_layers].
  go. apply returns_salloc; [done|]. intros a1 Ha1. cbn [negb]. go. unfold calloc_item. cbn [returns]. go.
  apply returns_salloc; [done|]. intros a2 Ha2. cbn [negb]. go.
  eapply returns_set_item; [apply lookup_insert_eq|]. go.
  apply returns_salloc; [done|]. intros a3 Ha3. cbn [negb]. go.
  eapply returns_set_item; [cbn [sw_items put_items put_salloc]; by rewrite lookup_alter_eq, lookup_insert_eq|]. go.
  apply returns_salloc; [done|]. intros a4 Ha4. cbn [negb]. go.
  eapply returns_set_item; [cbn [sw_items put_items put_salloc]; by rewrite !lookup_alter_eq, lookup_insert_eq|]. go.
  cbn [sw_items sw_skl sw_new sw_alloc sw_freed put_items put_salloc]. split_and!; try done.
  apply map_eq. intros q. destruct (decide (q = sw_new w)) as [->|Hq].
  - by rewrite !lookup_alter_eq, !lookup_insert_eq.
  - by rewrite !lookup_alter_ne, !lookup_insert_ne.
Qed.

Lemma new_item_links m L w w' p k v :
  (∀ i, (i < m)%nat → queue i w (L i)) → sw_items w !! p = None → sw_skl w' = sw_skl w →
  sw_items w' = <[p := mk_item k (Z.of_nat (length k)) v (replicate m false) (replicate m (mk_wrapper 0 None None))]> (sw_items w) →
  links m L (λ q, if decide (q = p) then Some (new_body m k v) else body_of w q) w' ∧
  (∀ i, (i < m)%nat → p ∉ L i).
Proof using Type.
  intros Hq Hp Hskl Hit.
  assert (Hout : ∀ i, (i < m)%nat → p ∉ L i).
  { intros i Hi Hin. destruct (Hq i Hi) as [_ Hs]. destruct (seg_elem _ _ _ _ _ _ Hs Hin) as (x&Hx&_).
    unfold wr in Hx. by rewrite Hp in Hx. }
  split; [|done]. split.
  - intros i Hi. apply (queue_frame i w); [| |by apply Hq].
    + intros q Hin. unfold wr. rewrite Hit, lookup_insert_ne; [done|]. intros <-. by eapply Hout.
    + unfold head_of. by rewrite Hskl.
  - intros q. unfold body_of. rewrite Hit. case_decide as Hqp.
    + subst. rewrite lookup_insert_eq. simpl. by rewrite length_replicate.
    + by rewrite lookup_insert_ne.
Qed.
End insert.
