(* ===== verification/SkiplistOps.v ===== *)
(** * Skip lists: search and insertion as operations on a dictionary *)

From S2P Require Import Prelude Comparators SortedDict Skiplist SkiplistQueue SkiplistSearch SkiplistInsert.

Section update.
Context {cmp : libhl_cmp_callback_t} {ok : key → Prop} `{!Comparator cmp ok}.

(** The value of a key is replaced; its bytes stay. *)
Fixpoint dict_update (k : key) (v : Z) (s : items) : items :=
  match s with
  | [] => []
  | (k', v') :: s => if cmp_sign k' k =? 0 then (k', v) :: s else (k', v') :: dict_update k v s
  end.
Lemma update_hit k v s1 k0 v0 s2 :
  all_before k s1 → same_key k0 k → dict_update k v (s1 ++ (k0, v0) :: s2) = s1 ++ (k0, v) :: s2.
Proof.
  intros Hb Hs. induction Hb as [|[k' v'] s1 Hx _ IH]; simpl in *; [by rewrite Hs|].
  destruct (Z.eqb_spec (cmp_sign k' k) 0); [lia|]. by rewrite IH.
Qed.
Lemma dict_value s1 k0 v0 v s2 : dict cmp ok (s1 ++ (k0, v0) :: s2) → dict cmp ok (s1 ++ (k0, v) :: s2).
Proof. rewrite !dict_snoc_cons. tauto. Qed.
End update.

Section ops.
Context (f : libhl_cmp_callback_t) (fr : bool) (n prob : Z) {ok : key → Prop} `{!Comparator f ok}.
Abbreviation m := (Z.to_nat n).
Abbreviation skl_state := (skl_state f fr n prob).
Abbreviation skl_at := (skl_at f fr n prob).

(** ** Views *)

Lemma state_links L s c w : skl_state L s c w → links m L (body_of w) w.
Proof. intros (Hq&_). by split. Qed.
Lemma state_intro L B s c w :
  links m L B w → (∀ p x, (p, x) ∈ s → B p = Some (x.1, Z.of_nat (length x.1), x.2, checks L m p, m)) →
  (∀ p, is_Some (B p) ↔ p ∈ s.*1) → (frame_of w).1 = Some (n, prob, Some f, fr, c, m) →
  0 < sw_new w → Forall (λ p, 0 < p < sw_new w) s.*1 → NoDup s.*1 → skl_state L s c w.
Proof.
  intros [Hq HB] Hs Hdom Hf Hn Hlt Hnd. split; [done|]. split; [intros p x Hp; rewrite HB; by apply Hs|].
  split; [intros p; by rewrite body_dom, HB|done].
Qed.
(** What is not looked at can change: the values freed, the allocations. *)
Lemma at_same s up w w' :
  skl_at s up w → sw_skl w' = sw_skl w → sw_items w' = sw_items w → sw_new w' = sw_new w → false ∉ sw_alloc w' → skl_at s up w'.
Proof.
  intros ((Hq&Hb&Hdom&Hf&Hn&Hlt&Hnd)&Hrest) Hskl Hit Hnew Ha. split; [|tauto].
  assert (Hwr : ∀ p i, wr w' p i = wr w p i) by (intros; unfold wr; by rewrite Hit).
  apply (state_intro _ (body_of w)); [|exact Hb|intros p; by rewrite <- body_dom| |by rewrite Hnew|by rewrite Hnew|done].
  - split; [|intros p; unfold body_of; by rewrite Hit]. intros i Hi.
    apply (queue_frame i w); [by intros|unfold head_of; by rewrite Hskl|by apply Hq].
  - unfold frame_of in *. simpl in *. by rewrite Hskl.
Qed.

(** ** Found or not *)

Section key.
Context (k : key) (Hk : ok k).

(** The item at the end of a search is the key's, or comes before. *)
Lemma cut_cases (s s1 s2 : sitems) :
  dict f ok s.*2 → cut_at f k s s1 s2 →
  (∃ a p x, s1 = a ++ [(p, x)] ∧ cmp_sign x.1 k = 0 ∧ all_before k a.*2) ∨
  (all_before k s1.*2 ∧ match last s1 with Some x => cmp_sign x.2.1 k ≠ 0 | None => True end).
Proof using Hk.
  intros Hd (->&Hle&Hgt). destruct s1 as [|[p [k0 v0]] a _] using rev_ind; [right; by split; [constructor|]|].
  apply Forall_app in Hle as [_ [Hx _]%Forall_cons]. cbn [fst snd] in Hx. rewrite <- app_assoc, fmap_app in Hd. cbn [app] in Hd.
  rewrite fmap_cons in Hd. cbn [snd] in Hd. destruct (decide (cmp_sign k0 k = 0)) as [E0|E0].
  - left. exists a, p, (k0, v0). split; [done|]. split; [done|]. by apply (dict_split k Hk _ k0 v0 _ Hd).
  - right. rewrite fmap_app, last_snoc. split; [|done]. cbn [fmap list_fmap snd].
    apply (dict_before k Hk _ k0 v0 _ Hd). lia.
Qed.

Lemma returns_is_found L s c w (s1 : sitems) Q :
  skl_state L s c w → s1 ⊆ s → Forall (λ x, ok x.2.1) s →
  Q (match last s1 with Some x => cmp_sign x.2.1 k =? 0 | None => false end, w) →
  returns (is_found (last_addr s1) k w) Q.
Proof using Hk.
  intros Hst Hs1 Hok HQ. unfold is_found, last_addr. destruct (last s1) as [[p x]|] eqn:Hl; [|by go].
  apply last_Some_elem_of in Hl. pose proof (Hs1 _ Hl) as Hin. cbn [fst].
  destruct Hst as (Hq&Hb&Hdom&Hf&Hn&Hlt&Hnd). pose proof (proj1 (Forall_forall _ _) Hlt p) as Hp.
  rewrite (proj2 (Z.eqb_neq p 0)) by (enough (0 < p) by lia; apply Hp; by apply (list_elem_of_fmap_2 fst) in Hin).
  go. eapply (returns_call_cmp_keys f fr n prob L s c w p x k); [done|done| |done|by go].
  by apply (proj1 (Forall_forall _ _) Hok (p, x)).
Qed.

(** ** Search *)

Lemma at_ok' s : dict f ok s.*2 → Forall (λ x : Z * (key * Z), ok x.2.1) s.
Proof using Type.
  intros Hd. apply Forall_forall. intros x Hx. apply (dict_ok s.*2 x.2 Hd). by apply list_elem_of_fmap_2.
Qed.

Lemma skiplist_search_ok s up w :
  skl_at s up w → dict f ok s.*2 → Z.of_nat (length s) < 2 ^ 64 →
  skiplist_search k w = Ret (default 0 (dict_find k s.*2), w).
Proof using Hk.
  intros Hat Hd Hsz. pose proof Hat as (Hst&_). apply returns_exact. unfold skiplist_search. go.
  destruct (search_ok f fr n prob k Hk s up w Hat Hd Hsz [] ltac:(done)) as (s1&s2&path'&Hcut&Hrun&_).
  eapply returns_Ret_at; [exact Hrun|]. go. pose proof Hcut as (Hs&_&Hgt).
  eapply (returns_is_found _ s _ w s1); [exact Hst|rewrite Hs; set_solver|by apply at_ok'|].
  destruct (cut_cases s s1 s2 Hd Hcut) as [(a&p&x&->&Hx&Hb)|[Hb Hl]].
  - rewrite last_snoc. cbn [snd]. rewrite Hx, Z.eqb_refl. go. unfold last_addr. rewrite last_snoc. cbn [fst].
    destruct Hst as (_&Hbody&_). eapply returns_load_item; [apply (Hbody p x); rewrite Hs; set_solver|].
    intros it _ [= _ _ Hv _ _]. go. rewrite Hv, Hs, !fmap_app, <- app_assoc. destruct x as [k0 v0].
    cbn [fmap list_fmap snd app]. by rewrite find_hit.
  - assert (Hnone : dict_find k s.*2 = None) by (rewrite Hs, fmap_app; by apply find_miss). rewrite Hnone.
    destruct (last s1) as [x|]; [rewrite (proj2 (Z.eqb_neq _ 0)) by done|]; by go.
Qed.

(** ** Insertion *)

Lemma lookup_checks L p i : checks L m p !! i = if decide (i < m)%nat then Some (bool_decide (p ∈ L i)) else None.
Proof using Type.
  unfold checks. rewrite list_lookup_fmap. case_decide as Hi.
  - by rewrite lookup_seq_lt by done.
  - by rewrite lookup_seq_ge by lia.
Qed.
Lemma length_checks L p : length (checks L m p) = m.
Proof using Type. unfold checks. by rewrite length_fmap, length_seq. Qed.
Lemma checks_ext L L' p : (∀ i, (i < m)%nat → p ∈ L i ↔ p ∈ L' i) → checks L m p = checks L' m p.
Proof using Type.
  intros HL. apply list_eq. intros i. rewrite !lookup_checks. case_decide; [|done]. f_equal. by apply bool_decide_ext, HL.
Qed.
Lemma checks_insert L L' p i :
  (∀ j, (j < m)%nat → j ≠ i → p ∈ L j ↔ p ∈ L' j) → p ∈ L' i → <[i := true]> (checks L m p) = checks L' m p.
Proof using Type.
  intros HL Hi. apply list_eq. intros j. destruct (decide (j = i)) as [->|Hj].
  - rewrite lookup_checks. case_decide as Hm.
    + rewrite list_lookup_insert_eq by (by rewrite length_checks). by rewrite bool_decide_true.
    + apply lookup_ge_None. rewrite length_insert, length_checks. lia.
  - rewrite list_lookup_insert_ne, !lookup_checks by done. case_decide; [|done]. f_equal. apply bool_decide_ext. by apply HL.
Qed.
Lemma checks_none p : checks (λ _, []) m p = replicate m false.
Proof using Type.
  apply list_eq. intros i. rewrite lookup_checks. case_decide as Hi; [by rewrite lookup_replicate_2|].
  symmetry. apply lookup_ge_None. rewrite length_replicate. lia.
Qed.

(** The links and bodies of a list in which [p] is new. *)
Lemma inserted_state s1 s2 p x up up' c w w' :
  skl_state (layer_at (s1 ++ s2) up) (s1 ++ s2) c w → sw_items w !! p = None → sw_new w = p →
  (∀ q, q ≠ p → q ∈ up' ↔ q ∈ up) →
  links m (layer_at (s1 ++ (p, x) :: s2) up')
    (λ q, if decide (q = p) then Some (x.1, Z.of_nat (length x.1), x.2, checks (layer_at (s1 ++ (p, x) :: s2) up') m p, m) else body_of w q) w' →
  (frame_of w').1 = Some (n, prob, Some f, fr, c + 1, m) → sw_new w' = sw_new w + 1 →
  skl_state (layer_at (s1 ++ (p, x) :: s2) up') (s1 ++ (p, x) :: s2) (c + 1) w'.
Proof using Type.
  intros (Hq&Hb&Hdom&Hf&Hn&Hlt&Hnd) Hp Hnew Hup Hl Hf' Hnew'.
  assert (Hps : p ∉ (s1 ++ s2).*1) by (rewrite <- Hdom, Hp; by intros []).
  eapply state_intro; [exact Hl| | |exact Hf'|lia| |].
  - intros q y Hin. cbv beta. case_decide as Hqp.
    + subst q. enough (y = x) as -> by done. apply elem_of_app in Hin as [Hin|[[= ->]|Hin]%elem_of_cons]; [|done|];
        exfalso; apply Hps, (list_elem_of_fmap_2 fst _ (p, y)), elem_of_app; auto.
    + assert (Hin' : (q, y) ∈ s1 ++ s2).
      { apply elem_of_app in Hin as [Hin|[[= ? ?]|Hin]%elem_of_cons]; [apply elem_of_app; auto|done|apply elem_of_app; auto]. }
      rewrite (Hb q y Hin'). do 3 f_equal. apply checks_ext. intros [|[|i]] Hi; cbn [layer_at]; [|by rewrite Hup|done].
      rewrite !fmap_app, fmap_cons, !elem_of_app, elem_of_cons. cbn [fst]. naive_solver.
  - intros q. rewrite fmap_app, fmap_cons, elem_of_app, elem_of_cons. cbn [fst]. case_decide as Hqp.
    + subst. split; [by right; left|by eauto].
    + rewrite <- body_dom, Hdom, fmap_app, elem_of_app. naive_solver.
  - rewrite Hnew', fmap_app, fmap_cons. rewrite fmap_app, Forall_app in Hlt. destruct Hlt as [Hl1 Hl2].
    assert (Hweak : ∀ l, Forall (λ p, 0 < p < sw_new w) l → Forall (λ p, 0 < p < sw_new w + 1) l).
    { intros l Hl0. eapply Forall_impl; [exact Hl0|]. simpl. lia. }
    apply Forall_app. split; [by apply Hweak|]. constructor; [simpl; lia|by apply Hweak].
  - rewrite fmap_app, fmap_cons. rewrite fmap_app in Hnd, Hps. apply NoDup_app in Hnd as (?&Hd&?).
    apply not_elem_of_app in Hps as [Hp1 Hp2]. apply NoDup_app. split; [done|]. split; [|by apply NoDup_cons].
    intros q Hq1 [->|Hq2]%elem_of_cons; [done|by eapply Hd].
Qed.

Context (random : nat → Z).

(** The new item in the first layer. *)
Lemma insert_first_ok (s1 s2 : sitems) p up B b w :
  links m (layer_at (s1 ++ s2) up) B w → (1 ≤ m)%nat → s1 ≠ [] ∨ s2 = [] → Forall (λ p, 0 < p) s1.*1 →
  NoDup (s1 ++ s2).*1 → p ∉ (s1 ++ s2).*1 → B p = Some b → length b.1.2 = m →
  (∃ y, wr w p 0 = Some y ∧ w_data y = p) →
  ∀ x, returns ((_ ← (if negb (last_addr s1 =? 0) then TAILQ_INSERT_AFTER 0 (last_addr s1) 0 p 0 else TAILQ_INSERT_TAIL 0 p 0);
            set_check p 0) w) (λ '(_, w'), same_mem w w' ∧ 
    links m (layer_at (s1 ++ (p, x) :: s2) up) (λ q, if decide (q = p) then Some (check_body 0 b) else B q) w').
Proof using Type.
  intros Hl Hm Hne Hpos Hnd Hp HB Hb (y&Hy&Hdata) x. pose proof Hl as [Hq _]. pose proof (Hq 0%nat ltac:(lia)) as Hq0. cbn [layer_at] in Hq0.
  assert (Hfin : ∀ w1, queue 0 w1 (s1 ++ (p, x) :: s2).*1 → relinks 0 w w1 →
    returns (set_check p 0 w1) (λ '(_, w'), same_mem w w' ∧
      links m (layer_at (s1 ++ (p, x) :: s2) up) (λ q, if decide (q = p) then Some (check_body 0 b) else B q) w')).
  { intros w1 Hq1 Hrel. pose proof (links_relinks _ _ _ _ _ _ _ Hl Hq1 Hrel) as Hl1.
    eapply returns_set_check; [exact Hl1|exact HB|lia|]. intros w' Hl' Hmem _.
    split; [eapply same_mem_trans; [by eapply relinks_same_mem|done]|]. eapply links_ext; [|done|exact Hl'].
    intros i _. unfold set_at. by destruct i as [|[|i]]. }
  unfold last_addr. destruct s1 as [|[q z] a _] using rev_ind.
  - destruct Hne as [?| ->]; [done|]. cbn [last app] in *. rewrite Z.eqb_refl. cbn [negb]. go.
    eapply returns_mono; [by eapply queue_insert_tail_ok; [exact Hq0|exact Hnd|exact Hp|exact Hy|exact Hdata]|]. intros [_ w1] [Hq' Hrel].
    by apply Hfin.
  - rewrite last_snoc. cbn [fst]. rewrite fmap_app in Hpos. apply Forall_app in Hpos as [_ [Hq0' _]%Forall_cons].
    rewrite (proj2 (Z.eqb_neq q 0)) by (simpl in Hq0'; lia). cbn [negb]. go.
    rewrite <- app_assoc, fmap_app in Hq0, Hnd, Hp.
    eapply returns_mono; [by eapply (queue_insert_after_ok 0 w a.*1 q s2.*1)|]. intros [_ w1] [Hq' Hrel].
    apply Hfin; [|done]. by rewrite <- app_assoc, fmap_app.
Qed.

Lemma returns_count c c' w Q :
  (frame_of w).1 = Some (n, prob, Some f, fr, c, m) →
  (∀ w', (∀ L B, links m L B w → links m L B w') → (frame_of w').1 = Some (n, prob, Some f, fr, c', m) →
     mem_of w' = mem_of w → Q (tt, w')) →
  returns (set_skl (with_count c') w) Q.
Proof using Type.
  intros Hf HQ. unfold set_skl. go. eapply returns_load_skl; [exact Hf|]. intros lays Hskl. go.
  apply HQ; [| |done].
  - intros L B [Hq HB]. split; [|done]. intros i Hi. apply (queue_frame i w); [done| |by apply Hq].
    unfold head_of. simpl. by rewrite Hskl.
  - unfold frame_of in *. rewrite Hskl in Hf. simpl in *. congruence.
Qed.

Lemma insert_new_ok (s1 s2 : sitems) up path v c w :
  skl_state (layer_at (s1 ++ s2) up) (s1 ++ s2) c w → up ⊆ (s1 ++ s2).*1 → NoDup up → 1 ≤ n → (n ≤ 2 ∨ 99 ≤ prob) →
  false ∉ sw_alloc w → path_ok n up path → s1 ≠ [] ∨ s2 = [] → 0 ≤ c < 2 ^ 64 - 1 →
  returns ((new_item ← new_skl_item k v;
            match new_item with
            | None => mret (-1)
            | Some new_item =>
                _ ← set_wrapper new_item 0 (with_data new_item);
                _ ← (if negb (last_addr s1 =? 0) then TAILQ_INSERT_AFTER 0 (last_addr s1) 0 new_item 0
                     else TAILQ_INSERT_TAIL 0 new_item 0);
                _ ← set_check new_item 0;
                _ ← upper_layers random (m - 1) 1 (-1) new_item path;
                s ← load_skl;
                _ ← set_skl (with_count (u64 (skl_count s + 1)));
                mret 0
            end) w) (λ '(rc, w'), rc = 0 ∧ sw_freed w' = sw_freed w ∧ (false ∉ sw_alloc w') ∧ ∃ p up',
    skl_state (layer_at (s1 ++ (p, (k, v)) :: s2) up') (s1 ++ (p, (k, v)) :: s2) (c + 1) w' ∧
    up' ⊆ (s1 ++ (p, (k, v)) :: s2).*1 ∧ NoDup up').
Proof using Hk.
  intros Hst Hups Hndu Hn Hup Ha Hpath Hne Hc. pose proof Hst as (Hq&Hb&Hdom&Hf&Hn0&Hlt&Hnd).
  go. eapply returns_mono; [by apply (new_skl_item_ok k v n prob (Some f) fr c m)|].
  intros [res w1] (->&Hskl&Hit&Hnew&Ha1&Hf1). set (p := sw_new w) in *.
  assert (Hfresh : sw_items w !! p = None).
  { apply eq_None_not_Some. rewrite Hdom. intros Hin. pose proof (proj1 (Forall_forall _ _) Hlt _ Hin) as Hbad. cbv beta in Hbad. lia. }
  destruct (new_item_links m _ w w1 p k v Hq Hfresh Hskl Hit) as [Hl1 Hout].
  assert (Hps : p ∉ (s1 ++ s2).*1) by (rewrite <- Hdom, Hfresh; by intros []).
  assert (Hpu : p ∉ up) by (intros Hin; by apply Hps, Hups).
  assert (Hwr : ∀ i, (i < m)%nat → wr w1 p i = Some (mk_wrapper 0 None None)).
  { intros i Hi. unfold wr. rewrite Hit, lookup_insert_eq. simpl. by apply lookup_replicate_2. }
  go. eapply returns_set_wrapper; [apply Hwr; lia|]. go.
  assert (Hl2 : links m (layer_at (s1 ++ s2) up) (λ q, if decide (q = p) then Some (new_body m k v) else body_of w q) (upd p 0 (with_data p) w1)).
  { apply links_upd; [done|]. apply Hout. lia. }
  assert (Hpos : Forall (λ p, 0 < p) s1.*1).
  { rewrite fmap_app, Forall_app in Hlt. destruct Hlt as [Hlt1 _]. eapply Forall_impl; [exact Hlt1|]. simpl. lia. }
  pose proof (insert_first_ok s1 s2 p up _ (new_body m k v) _ Hl2 ltac:(lia) Hne Hpos Hnd Hps) as Hfirst.
  specialize (Hfirst ltac:(cbv beta; by rewrite decide_True) (length_replicate m false)).
  specialize (Hfirst ltac:(rewrite wr_upd, Hwr by lia; by eexists) (k, v)). apply returns_st_bind in Hfirst.
  eapply returns_mono; [exact Hfirst|]. clear Hfirst. intros [_ w2] Hset. go.
  eapply returns_mono; [exact Hset|]. clear Hset. intros [_ w3] [Hm3 Hl3]. go.
  set (b3 := check_body 0 (new_body m k v)) in *.
  assert (Hfr1 : (frame_of w1).1 = (frame_of w).1) by (unfold frame_of; simpl; by rewrite Hskl).
  assert (Hm1 : same_mem w1 w3) by (eapply same_mem_trans; [apply frame_same_mem, frame_upd|exact Hm3]).
  assert (Hf3 : (frame_of w3).1 = Some (n, prob, Some f, fr, c, m)) by (by rewrite (proj1 Hm1), Hfr1).
  eapply returns_mono.
  { eapply (upper_layers_ok random n prob (Some f) fr c Hn Hup (s1 ++ (p, (k, v)) :: s2) up p b3 path);
      [done|done|done| |done|exact Hl3|cbv beta; by rewrite decide_True|exact Hf3].
    cbn [b3 check_body new_body fst snd]. by rewrite length_insert, length_replicate. }
  intros [_ w4] [Hm4 Hcases]. go.
  assert (Hf4 : (frame_of w4).1 = Some (n, prob, Some f, fr, c, m)) by (by rewrite (proj1 Hm4)).
  eapply returns_load_skl; [exact Hf4|]. intros lays _. cbn [skl_count]. go.
  rewrite u64_small by lia. eapply returns_count; [exact Hf4|]. intros w5 Hl5 Hf5 Hm5. go.
  destruct Hm1 as [_ Hmem1], Hm4 as [_ Hmem4]. unfold mem_of in *. rewrite Hmem4, Hmem1 in Hm5. injection Hm5 as Hnew5 Ha5 Hfr5.
  split; [done|]. split; [congruence|]. split; [by rewrite Ha5|]. exists p.
  set (s' := s1 ++ (p, (k, v)) :: s2) in *.
  assert (Hps' : p ∈ s'.*1).
  { unfold s'. rewrite fmap_app, fmap_cons, elem_of_app, elem_of_cons. by right; left. }
  assert (Hsub : (s1 ++ s2).*1 ⊆ s'.*1).
  { intros q. unfold s'. rewrite !fmap_app, fmap_cons, !elem_of_app, elem_of_cons. naive_solver. }
  assert (Hfin : ∀ up' B, links m (layer_at s' up') B w4 → (∀ q, q ≠ p → q ∈ up' ↔ q ∈ up) →
    (∀ q, B q = if decide (q = p) then Some (k, Z.of_nat (length k), v, checks (layer_at s' up') m p, m) else body_of w q) →
    skl_state (layer_at s' up') s' (c + 1) w5).
  { intros up' B Hl4 Hu HB. apply (inserted_state s1 s2 p (k, v) up up' c w w5); try done; [|by rewrite Hnew5].
    apply Hl5. eapply links_ext; [done|exact HB|exact Hl4]. }
  assert (Hb3 : b3 = (k, Z.of_nat (length k), v, checks (layer_at s' up) m p, m)).
  { unfold b3, check_body, new_body. do 2 f_equal. rewrite <- (checks_none p). apply checks_insert; [|done].
    intros [|[|j]] Hj Hj0; cbn [layer_at]; [done| |done]. split; [by intros ?%elem_of_nil|done]. }
  destruct Hcases as [Hl4|(up'&Hperm&Hm2&Hl4)].
  - exists up. split; [|split; [set_solver|done]]. eapply Hfin; [exact Hl4|done|].
    intros q. cbv beta. case_decide; [by rewrite Hb3|done].
  - exists up'. split; [|split].
    + eapply Hfin; [exact Hl4| |].
      * intros q Hqp. rewrite Hperm, elem_of_cons. naive_solver.
      * intros q. cbv beta. case_decide; [|done]. rewrite Hb3. unfold check_body. do 3 f_equal.
        apply checks_insert; [|cbn [layer_at]; rewrite Hperm; left].
        intros [|[|j]] Hj Hj1; cbn [layer_at]; done.
    + intros q. rewrite Hperm, elem_of_cons. intros [->|Hin]; [done|]. by apply Hsub, Hups.
    + rewrite Hperm. by apply NoDup_cons.
Qed.

Lemma returns_give_if (b : bool) v w Q :
  (∀ w', sw_skl w' = sw_skl w → sw_items w' = sw_items w → sw_new w' = sw_new w → sw_alloc w' = sw_alloc w →
     sw_freed w' = sw_freed w ++ (if b then [v] else []) → Q (tt, w')) →
  returns ((if b then give_value v else mret tt) w) Q.
Proof using Type. intros HQ. destruct b; [unfold give_value|]; go; apply HQ; try done. by rewrite app_nil_r. Qed.
(** The value of an item is replaced. *)
Lemma value_state (a b : sitems) p x v up w :
  skl_at (a ++ (p, x) :: b) up w →
  skl_at (a ++ (p, (x.1, v)) :: b) up (put_items (alter (with_item_value v) p (sw_items w)) w).
Proof using Type.
  intros ((Hq&Hb&Hdom&Hf&Hn&Hlt&Hnd)&Hups&Hndu&Hrest).
  assert (Haddr : (a ++ (p, (x.1, v)) :: b).*1 = (a ++ (p, x) :: b).*1) by (by rewrite !fmap_app, !fmap_cons).
  assert (Hlay : layer_at (a ++ (p, (x.1, v)) :: b) up = layer_at (a ++ (p, x) :: b) up) by (unfold layer_at; by rewrite Haddr).
  unfold SkiplistSearch.skl_at. rewrite Haddr. split; [|done]. rewrite Hlay.
  assert (Hlen : length (a ++ (p, (x.1, v)) :: b) = length (a ++ (p, x) :: b)) by (by rewrite !length_app).
  rewrite Hlen. set (w' := put_items _ w).
  assert (Hwr : ∀ q i, wr w' q i = wr w q i).
  { intros q i. unfold wr, w'. simpl. destruct (decide (q = p)) as [->|]; [|by rewrite lookup_alter_ne].
    rewrite lookup_alter_eq. by destruct (sw_items w !! p). }
  apply (state_intro _ (λ q, if decide (q = p) then Some (x.1, Z.of_nat (length x.1), v, checks (layer_at (a ++ (p, x) :: b) up) m p, m) else body_of w q));
    rewrite ?Haddr; try done.
  - split; [intros i Hi; apply (queue_frame i w); [by intros|done|by apply Hq]|].
    intros q. unfold body_of, w'. simpl. case_decide as Hqp; [subst|by rewrite lookup_alter_ne].
    rewrite lookup_alter_eq. assert (Hin : (p, x) ∈ a ++ (p, x) :: b) by (apply elem_of_app; right; left).
    specialize (Hb p x Hin). unfold body_of in Hb. destruct (sw_items w !! p); [|done]. simpl in *. by injection Hb as -> -> _ -> ->.
  - intros q y Hin. cbv beta. rewrite fmap_app, fmap_cons in Hnd. apply NoDup_app in Hnd as (_&Hd&[Hpb _]%NoDup_cons).
    case_decide as Hqp.
    + subst q. enough (y = (x.1, v)) as -> by done. apply elem_of_app in Hin as [Hin|[[= ->]|Hin]%elem_of_cons]; [|done|].
      * exfalso. apply (Hd p); [by apply (list_elem_of_fmap_2 fst _ (p, y))|left].
      * exfalso. apply Hpb. by apply (list_elem_of_fmap_2 fst _ (p, y)).
    + apply Hb. apply elem_of_app in Hin as [Hin|[[= ? ?]|Hin]%elem_of_cons]; [by apply elem_of_app; left|done|].
      apply elem_of_app; right. by right.
  - intros q. cbv beta. case_decide; [subst|by rewrite <- body_dom, Hdom].
    split; [|by eauto]. intros _. rewrite fmap_app, fmap_cons. apply elem_of_app; right. left.
Qed.

(** The key is not before the first of a dictionary. *)
Definition not_first (s : items) : Prop := match s with [] => True | x :: _ => cmp_sign x.1 k ≤ 0 end.

Lemma skiplist_insert_ok v s up w :
  skl_at s up w → dict f ok s.*2 → Z.of_nat (length s) < 2 ^ 64 - 1 → not_first s.*2 →
  returns (skiplist_insert random k v w) (λ '(rc, w'), ∃ s' up', skl_at s' up' w' ∧
    match dict_find k s.*2 with
    | Some old => rc = 1 ∧ s'.*2 = dict_update k v s.*2 ∧ sw_freed w' = sw_freed w ++ (if fr then [old] else [])
    | None => rc = 0 ∧ s'.*2 = dict_insert k v s.*2 ∧ sw_freed w' = sw_freed w
    end).
Proof using Hk.
  intros Hat Hd Hsz Hnf. pose proof Hat as ((_&_&_&Hf&_)&_&_&_&_&Ha). unfold skiplist_insert. go.
  eapply returns_load_skl; [exact Hf|]. intros lays _. cbn [num_layers skl_free_value_cb].
  go. apply returns_salloc; [done|]. intros al Hal. cbn [negb]. go.
  assert (Hat0 : skl_at s up (put_salloc al w)) by (by eapply at_same).
  pose proof Hat0 as (Hst0&Hups&Hndu&Hn&Hup&_). set (w0 := put_salloc al w) in *.
  destruct (search_ok f fr n prob k Hk s up w0 Hat0 Hd ltac:(lia) (replicate m None)) as (s1&s2&path&Hcut&Hrun&Hpath).
  { intros i. apply insert_replicate. }
  specialize (Hpath ltac:(intros; by apply lookup_replicate_2)).
  eapply returns_Ret_at; [exact Hrun|]. go. pose proof Hcut as (Hs&_&Hgt).
  eapply (returns_is_found _ s _ w0 s1); [exact Hst0|rewrite Hs; set_solver|by apply at_ok'|].
  destruct (cut_cases s s1 s2 Hd Hcut) as [(a&p&x&->&Hx&Hb)|[Hb Hl]].
  - rewrite last_snoc. cbn [snd]. rewrite Hx, Z.eqb_refl. go. unfold last_addr. rewrite last_snoc. cbn [fst].
    rewrite <- app_assoc in Hs. cbn [app] in Hs. subst s.
    assert (Hfind : dict_find k (a ++ (p, x) :: s2).*2 = Some x.2).
    { rewrite fmap_app, fmap_cons. destruct x as [k0 v0]. cbn [snd]. by rewrite find_hit. }
    rewrite Hfind. destruct Hst0 as (_&Hbody&_).
    eapply returns_load_item; [apply (Hbody p x); set_solver|]. intros it Hit [= _ _ Hv _ _]. go. rewrite Hv.
    assert (Hfin : ∀ w1, skl_at (a ++ (p, x) :: s2) up w1 → sw_items w1 = sw_items w0 → sw_freed w1 = sw_freed w ++ (if fr then [x.2] else []) →
      returns (set_item p (with_item_value v) w1) (λ '(_, w'), ∃ s' up', skl_at s' up' w' ∧
        1 = 1 ∧ s'.*2 = dict_update k v (a ++ (p, x) :: s2).*2 ∧ sw_freed w' = sw_freed w ++ (if fr then [x.2] else []))).
    { intros w1 Hat1 Hit1 Hfr1. eapply returns_set_item; [by rewrite Hit1|].
      exists (a ++ (p, (x.1, v)) :: s2), up. split; [by apply value_state|]. split; [done|]. split; [|done].
      rewrite !fmap_app, !fmap_cons. destruct x as [k0 v0]. cbn [fst snd]. by rewrite update_hit. }
    apply returns_give_if. intros w1 Hskl1 Hit1 Hnew1 Ha1 Hfr1.
    go. eapply returns_mono; [apply Hfin; [apply (at_same _ _ w0); try done; by rewrite Ha1|done|done]|]. intros [_ w2] Hr. by go.
  - assert (Hnone : dict_find k s.*2 = None) by (rewrite Hs, fmap_app; by apply find_miss). rewrite Hnone.
    assert (Hfound : match last s1 with Some x => cmp_sign x.2.1 k =? 0 | None => false end = false).
    { destruct (last s1) as [x|]; [by apply Z.eqb_neq|done]. }
    rewrite Hfound. cbn [negb].
    assert (Hne : s1 ≠ [] ∨ s2 = []).
    { destruct s1; [right|by left]. subst s. cbn [app] in Hnf. destruct s2 as [|x s2]; [done|]. cbn [fmap list_fmap] in *.
      apply Forall_cons in Hgt as [Hgt _]. simpl in Hnf. lia. }
    eapply returns_mono.
    { apply (insert_new_ok s1 s2 up path v (Z.of_nat (length s)) w0); rewrite <- ?Hs; [exact Hst0|exact Hups|done|done|done|done|done|done|lia]. }
    intros [rc w1] (->&Hfr1&Ha1&p&up'&Hst1&Hups1&Hnd1). exists (s1 ++ (p, (k, v)) :: s2), up'.
    split; [|split; [done|split; [|done]]].
    + split; [|done].
      replace (Z.of_nat (length (s1 ++ (p, (k, v)) :: s2))) with (Z.of_nat (length (s1 ++ s2)) + 1); [by rewrite <- Hs|].
      rewrite !length_app. simpl. lia.
    + rewrite Hs, !fmap_app, fmap_cons. cbn [snd]. by rewrite insert_miss.
Qed.
End key.
End ops.
