(* ===== verification/SkiplistRemove.v ===== *)
(** * Skip lists: removal and destruction *)

From S2P Require Import Prelude Comparators SortedDict Skiplist SkiplistQueue SkiplistSearch SkiplistInsert SkiplistOps.

(** A list without an element. *)
Definition without_addr (p : Z) (l : list Z) : list Z := filter (λ q, q ≠ p) l.
Lemma without_absent p l : p ∉ l → without_addr p l = l.
Proof.
  unfold without_addr. induction l as [|q l IH]; intros Hp; [done|]. apply not_elem_of_cons in Hp as [Hq Hp].
  rewrite filter_cons_True by congruence. by rewrite IH.
Qed.
Lemma without_middle p l1 l2 : NoDup (l1 ++ p :: l2) → without_addr p (l1 ++ p :: l2) = l1 ++ l2.
Proof.
  intros (Hnd1&Hd&[Hp Hnd2]%NoDup_cons)%NoDup_app. unfold without_addr. rewrite filter_app, filter_cons_False by auto.
  fold (without_addr p l1) (without_addr p l2). rewrite !without_absent; [done|done|]. intros Hin. apply (Hd p Hin). left.
Qed.
Lemma elem_of_without p q l : q ∈ without_addr p l ↔ q ≠ p ∧ q ∈ l.
Proof. unfold without_addr. by rewrite list_elem_of_filter. Qed.

Section remove.
Context (f : libhl_cmp_callback_t) (fr : bool) (n prob : Z) {ok : key → Prop} `{!Comparator f ok}.
Abbreviation m := (Z.to_nat n).
Abbreviation skl_state := (skl_state f fr n prob).
Abbreviation skl_at := (skl_at f fr n prob).

Lemma returns_load_check w p i b c Q :
  body_of w p = Some b → b.1.2 !! i = Some c → Q (c, w) → returns (load_check p i w) Q.
Proof using Type.
  intros Hb Hc HQ. unfold load_check. go. eapply returns_load_item; [exact Hb|]. intros it _ <-. simpl in Hc. rewrite Hc. by go.
Qed.

(** The item leaves its layers, one after the other. *)
Lemma remove_layers_ok L B p b r : ∀ i w,
  links m (λ j, if decide (j < i)%nat then without_addr p (L j) else L j) B w →
  B p = Some b → b.1.2 = checks L m p → (∀ j, (j < m)%nat → NoDup (L j)) → (i + r = m)%nat →
  returns (remove_layers r i p w) (λ '(_, w'), links m (λ j, without_addr p (L j)) B w' ∧ same_mem w w').
Proof using Type.
  induction r as [|r IH]; intros i w Hl Hp Hb Hnd Hir.
  { go. split; [|done]. eapply links_ext; [|done|exact Hl]. intros j Hj. cbv beta. by rewrite decide_True by lia. }
  cbn [remove_layers]. go. pose proof Hl as [Hq HB].
  eapply returns_load_check; [by rewrite HB|by rewrite Hb, lookup_checks, decide_True by lia|].
  assert (Hnext : ∀ w1 l, queue i w1 l → l = without_addr p (L i) → relinks i w w1 →
    returns (remove_layers r (S i) p w1) (λ '(_, w'), links m (λ j, without_addr p (L j)) B w' ∧ same_mem w w')).
  { intros w1 l Hl1 -> Hrel. eapply returns_mono.
    - apply (IH (S i)); [|done|done|done|lia]. refine (links_ext _ _ _ _ _ _ _ _ (links_relinks _ _ _ _ _ _ _ Hl Hl1 Hrel)); [|done].
      intros j Hj. unfold set_at. cbv beta. repeat case_decide; subst; done || lia.
    - intros [_ w'] [Hl' Hm]. split; [done|]. eapply same_mem_trans; [by eapply relinks_same_mem|done]. }
  pose proof (Hq i ltac:(lia)) as Hqi. cbv beta in Hqi. rewrite decide_False in Hqi by lia.
  case_bool_decide as Hin.
  - pose proof (Hnd i ltac:(lia)) as Hndi. apply list_elem_of_split in Hin as (l1&l2&HL). rewrite HL in Hqi, Hndi.
    go. eapply returns_mono; [by apply queue_remove_ok|]. intros [_ w1] [Hq1 Hrel].
    eapply Hnext; [exact Hq1| |done]. by rewrite HL, without_middle.
  - go. eapply Hnext; [exact Hqi|by rewrite without_absent|apply relinks_refl].
Qed.

(** The item is freed. *)
Lemma free_links L B p w Q :
  links m L B w → (∀ i, (i < m)%nat → p ∉ L i) → is_Some (B p) →
  (∀ w', links m L (λ q, if decide (q = p) then None else B q) w' → same_mem w w' → Q (tt, w')) →
  returns (free_item p w) Q.
Proof using Type.
  intros [Hq HB] Hout [b Hb] HQ. unfold free_item. go. pose proof (HB p) as Hp. rewrite Hb in Hp.
  eapply returns_load_item; [exact Hp|]. intros it _ _. go. apply HQ; [|by split]. split.
  - intros i Hi. apply (queue_frame i w); [|done|by apply Hq]. intros q Hin. unfold wr. simpl.
    rewrite lookup_delete_ne; [done|]. intros <-. by apply (Hout i Hi).
  - intros q. unfold body_of. simpl. case_decide as Hqp; [subst; by rewrite lookup_delete_eq|].
    rewrite lookup_delete_ne by done. apply HB.
Qed.

Lemma remove_internal_ok (a b : sitems) p x up c (value : bool) w :
  skl_state (layer_at (a ++ (p, x) :: b) up) (a ++ (p, x) :: b) c w → NoDup up → 
  returns (skiplist_remove_internal p value w) (λ '(res, w'), res = (if value then Some x.2 else None) ∧
    skl_state (layer_at (a ++ b) (without_addr p up)) (a ++ b) c w' ∧ sw_alloc w' = sw_alloc w ∧
    sw_freed w' = sw_freed w ++ (if value then [] else if fr then [x.2] else [])).
Proof.
  intros Hst Hndu. pose proof Hst as (Hq&Hb&Hdom&Hf&Hn&Hlt&Hnd). set (s := a ++ (p, x) :: b) in *.
  assert (Hin : (p, x) ∈ s) by (apply elem_of_app; right; left).
  unfold skiplist_remove_internal. go. eapply returns_load_skl; [exact Hf|]. intros lays _. cbn [num_layers skl_free_value_cb].
  go. eapply returns_load_item; [by apply Hb|]. intros it _ [= _ _ Hv _ _]. go. rewrite Hv.
  assert (Hif : (if value then mret tt else if fr then give_value x.2 else mret tt : P unit) =
    (if (if value then false else fr) then give_value x.2 else mret tt)) by (by destruct value).
  rewrite Hif. apply returns_give_if. intros w1 Hskl1 Hit1 Hnew1 Ha1 Hfr1. go.
  assert (Hl1 : links m (layer_at s up) (body_of w) w1).
  { split; [|intros q; unfold body_of; by rewrite Hit1]. intros i Hi.
    apply (queue_frame i w); [intros; unfold wr; by rewrite Hit1|unfold head_of; by rewrite Hskl1|by apply Hq]. }
  assert (Hndl : ∀ j, (j < m)%nat → NoDup (layer_at s up j)) by (intros [|[|j]] _; [done|done|constructor]).
  eapply returns_mono.
  { eapply (remove_layers_ok (layer_at s up) (body_of w) p _ m 0 w1); [|by apply Hb|done|done|lia].
    eapply links_ext; [|done|exact Hl1]. intros i _. cbv beta. by rewrite decide_False by lia. }
  intros [_ w2] [Hl2 Hm2]. go.
  eapply free_links; [exact Hl2|intros i _; by rewrite elem_of_without; intros []|rewrite (Hb p x Hin); eauto|].
  intros w3 Hl3 Hm3. go. split; [by destruct value|]. pose proof (same_mem_trans _ _ _ Hm2 Hm3) as [Hf3 Hm]. 
  unfold mem_of in Hm. injection Hm as Hnew3 Ha3 Hfr3.
  split; [|split; [congruence|rewrite Hfr3, Hfr1; by destruct value]].
  assert (Hsplit : s.*1 = a.*1 ++ p :: b.*1) by (unfold s; by rewrite fmap_app, fmap_cons).
  rewrite Hsplit in Hnd, Hlt. assert (Hpab : p ∉ (a ++ b).*1).
  { rewrite fmap_app. pose proof (without_middle _ _ _ Hnd) as Hwm. rewrite <- Hwm, elem_of_without. by intros []. }
  assert (Hlay : ∀ i, without_addr p (layer_at s up i) = layer_at (a ++ b) (without_addr p up) i).
  { intros [|[|i]]; cbn [layer_at]; [|done|done]. by rewrite Hsplit, without_middle, fmap_app. }
  eapply state_intro.
  - eapply links_ext; [intros i _; apply Hlay|done|exact Hl3].
  - intros q y Hqin. cbv beta. rewrite decide_False; [|intros ->; apply Hpab; by apply (list_elem_of_fmap_2 fst _ (p, y))].
    rewrite (Hb q y); [|unfold s; set_solver]. do 3 f_equal. apply checks_ext. intros i _. rewrite <- Hlay, elem_of_without.
    split; [|by intros []]. intros Hqi. split; [|done]. intros ->. apply Hpab. by apply (list_elem_of_fmap_2 fst _ (p, y)).
  - intros q. cbv beta. case_decide as Hqp; [subst; split; [by intros []|done]|].
    rewrite <- body_dom, Hdom, Hsplit, fmap_app, !elem_of_app, elem_of_cons. naive_solver.
  - rewrite Hf3. unfold frame_of. simpl. rewrite Hskl1. exact Hf.
  - by rewrite Hnew3, Hnew1.
  - rewrite Hnew3, Hnew1, fmap_app. apply Forall_app in Hlt as [? [_ ?]%Forall_cons]. by apply Forall_app.
  - rewrite fmap_app, <- (without_middle _ _ _ Hnd). by apply NoDup_filter.
Qed.

(** ** The operation *)

Lemma skiplist_remove_ok k (value : bool) s up w :
  skl_at s up w → dict f ok s.*2 → ok k → Z.of_nat (length s) < 2 ^ 64 - 1 →
  returns (skiplist_remove k value w) (λ '(res, w'), ∃ s' up', skl_at s' up' w' ∧
    match dict_find k s.*2 with
    | Some v => res = (0, if value then Some v else None) ∧ s'.*2 = dict_remove k s.*2 ∧
                sw_freed w' = sw_freed w ++ (if value then [] else if fr then [v] else [])
    | None => res = (-1, None) ∧ s' = s ∧ w' = w
    end).
Proof.
  intros Hat Hd Hk Hsz. pose proof Hat as (Hst&Hups&Hndu&Hn&Hup&Ha). unfold skiplist_remove. go.
  destruct (search_ok f fr n prob k Hk s up w Hat Hd ltac:(lia) [] ltac:(done)) as (s1&s2&path'&Hcut&Hrun&_).
  eapply returns_Ret_at; [exact Hrun|]. go. pose proof Hcut as (Hs&_&Hgt).
  eapply (returns_is_found f fr n prob k Hk _ s _ w s1); [exact Hst|rewrite Hs; set_solver|by eapply at_ok'|].
  destruct (cut_cases f k Hk s s1 s2 Hd Hcut) as [(a&p&x&->&Hx&Hb)|[Hb Hl]].
  - rewrite last_snoc. cbn [snd]. rewrite Hx, Z.eqb_refl. go. unfold last_addr. rewrite last_snoc. cbn [fst].
    rewrite <- app_assoc in Hs. cbn [app] in Hs. subst s.
    assert (Hfind : dict_find k (a ++ (p, x) :: s2).*2 = Some x.2).
    { rewrite fmap_app, fmap_cons. destruct x as [k0 v0]. cbn [snd]. by rewrite find_hit. }
    rewrite Hfind. eapply returns_mono; [by apply (remove_internal_ok a s2 p x up _ value w Hst)|].
    intros [v w1] (->&Hst1&Ha1&Hfr1). pose proof Hst1 as (Hq1&_&_&Hf1&_).
    go. eapply returns_load_skl; [exact Hf1|]. intros lays _. cbn [skl_count]. go.
    assert (Hlen : length (a ++ (p, x) :: s2) = S (length (a ++ s2))) by (rewrite !length_app; simpl; lia).
    rewrite Hlen in *. rewrite u64_small by lia. replace (Z.of_nat (S (length (a ++ s2))) - 1) with (Z.of_nat (length (a ++ s2))) by lia.
    eapply returns_count; [exact Hf1|]. intros w2 Hl2 Hf2 Hm2. go. unfold mem_of in Hm2. injection Hm2 as Hnew2 Ha2 Hfr2.
    exists (a ++ s2), (without_addr p up). split; [|split; [done|split; [|by rewrite Hfr2]]].
    + split; [|split; [|split; [by apply NoDup_filter|]]].
      * pose proof Hst1 as (_&Hb1&Hdom1&_&Hn1&Hlt1&Hnd1). eapply (state_intro _ _ _ _ _ (body_of w1)); try done.
        -- by apply Hl2, (state_links f fr n prob _ (a ++ s2) (Z.of_nat (S (length (a ++ s2))))).
        -- intros q. by rewrite <- body_dom.
        -- by rewrite Hnew2.
        -- by rewrite Hnew2.
      * intros q. rewrite elem_of_without. intros [Hqp Hq]. apply Hups in Hq. rewrite fmap_app, fmap_cons in Hq.
        rewrite fmap_app. set_solver.
      * split; [done|]. split; [done|]. by rewrite Ha2, Ha1.
    + destruct x as [k0 v0]. rewrite !fmap_app, fmap_cons. cbn [snd]. by rewrite remove_hit.
  - assert (Hnone : dict_find k s.*2 = None) by (rewrite Hs, fmap_app; by apply find_miss). rewrite Hnone.
    assert (Hfound : match last s1 with Some x => cmp_sign x.2.1 k =? 0 | None => false end = false).
    { destruct (last s1) as [x|]; [by apply Z.eqb_neq|done]. }
    rewrite Hfound. go. by exists s, up.
Qed.

(** ** Destruction *)

Lemma skl_destroy_runs s : ∀ up c w,
  skl_state (layer_at s up) s c w → NoDup up → (1 ≤ m)%nat →
  ∃ r w', runs (loop_body skl_destroy_body) (first_of 0 s.*1 None, w) r (tt, w') ∧ r ≤ Z.of_nat (length s) ∧
    (∃ c' up', skl_state (layer_at [] up') [] c' w') ∧ sw_freed w' = sw_freed w ++ (if fr then s.*2.*2 else []).
Proof.
  induction s as [|[p x] s IH]; intros up c w Hst Hnd Hm.
  { exists 0, w. split; [by apply runs_exit|]. split; [done|]. split; [by exists c, up|]. destruct fr; by rewrite app_nil_r. }
  pose proof Hst as (Hq&_). destruct (Hq 0%nat ltac:(lia)) as [_ Hseg]. cbn [layer_at fmap list_fmap] in Hseg.
  destruct Hseg as [Hp _]. cbn [fst] in *.
  destruct (returns_inv _ _ (remove_internal_ok [] s p x up c false w Hst Hnd)) as ([v w1]&Hrun&_&Hst1&_&Hfr1).
  cbn [app] in *. destruct (IH (without_addr p up) c w1 Hst1) as (r&w2&Hr&Hlen&Hend&Hfr2); [by apply NoDup_filter|done|].
  exists (r + 1), w2. split; [|split; [cbn [length]; lia|split; [done|]]].
  - eapply runs_step; [|exact Hr]. unfold loop_body. cbn [fst snd fmap list_fmap first_of].
    rewrite (returns_exact (skl_destroy_body (Some (p, 0%nat)) w) (inl (first_of 0 s.*1 None), w1)); [done|].
    unfold skl_destroy_body. go. eapply returns_load_wrapper; [exact Hp|]. cbn [w_data w_next]. go.
    eapply returns_Ret_to; [exact Hrun|]. by go.
  - rewrite Hfr2, Hfr1, <- app_assoc. f_equal. destruct fr; by rewrite ?fmap_cons.
Qed.
Lemma skiplist_destroy_ok s up w :
  skl_at s up w → Z.of_nat (length s) < 2 ^ 64 - 1 →
  returns (skiplist_destroy w) (λ '(_, w'), sw_skl w' = None ∧ sw_items w' = ∅ ∧
    sw_freed w' = sw_freed w ++ (if fr then s.*2.*2 else [])).
Proof.
  intros (Hst&_&Hnd&Hn&_) Hsz. pose proof Hst as (Hq&_). destruct (Hq 0%nat ltac:(lia)) as [Hh _]. cbn [layer_at] in Hh.
  destruct (skl_destroy_runs s up _ w Hst Hnd ltac:(lia)) as (r&w1&Hr&Hlen&(c'&up'&Hend)&Hfr).
  unfold skiplist_destroy. go. eapply returns_load_layer; [exact Hh|]. cbn [tqh_first]. go.
  eapply returns_Ret_to; [unfold loopS; apply (runs_loop _ _ r); [exact Hr|lia]|]. go.
  destruct Hend as (_&_&Hdom&Hf&_). eapply returns_load_skl; [exact Hf|]. intros lays _. go.
  split; [done|]. split; [|done]. apply map_empty. intros q. apply eq_None_not_Some. simpl. rewrite Hdom. apply not_elem_of_nil.
Qed.
End remove.
