(* ===== verification/SkiplistSpec.v ===== *)
(** * Skip lists implement dictionaries, with two layers

    The specification of src/src/skiplist.c is a sorted dictionary.  It holds
    for lists of one or two layers, or whose coin never sends an item up, when
    no key comes before the first; with three layers the links of different
    layers mix. *)

From S2P Require Import Prelude Comparators SortedDict Skiplist SkiplistQueue SkiplistSearch SkiplistInsert SkiplistOps SkiplistRemove.

(** ** Operations and results *)

Inductive sop := SInsert (k : key) (v : Z) | SSearch (k : key) | SRemove (k : key) (value : bool) | SCount.
Inductive sres := SInserted (rc : Z) | SFound (v : Z) | SRemoved (rc : Z) (v : option Z) | SCounted (n : Z).

Definition run_sop (random : nat → Z) (o : sop) : P sres :=
  match o with
  | SInsert k v => rc ← skiplist_insert random k v; mret (SInserted rc)
  | SSearch k => v ← skiplist_search k; mret (SFound v)
  | SRemove k value => '(rc, v) ← skiplist_remove k value; mret (SRemoved rc v)
  | SCount => c ← skiplist_count; mret (SCounted c)
  end.
Fixpoint run_sops (random : nat → Z) (os : list sop) : P (list sres) :=
  match os with
  | [] => mret []
  | o :: os => r ← run_sop random o; rs ← run_sops random os; mret (r :: rs)
  end.

(** ** The specification *)

Section spec.
Context {cmp : libhl_cmp_callback_t} {ok : key → Prop} `{!Comparator cmp ok} (fr : bool).

(** The result, the dictionary after it and the values freed.  A key that is
    not found is searched as 0, the null pointer. *)
Definition skl_spec (s : items) (o : sop) : sres * items * list Z :=
  match o with
  | SInsert k v =>
      match dict_find k s with
      | Some old => (SInserted 1, dict_update k v s, if fr then [old] else [])
      | None => (SInserted 0, dict_insert k v s, [])
      end
  | SSearch k => (SFound (default 0 (dict_find k s)), s, [])
  | SRemove k value =>
      match dict_find k s with
      | Some v => (SRemoved 0 (if value then Some v else None), dict_remove k s,
                   if value then [] else if fr then [v] else [])
      | None => (SRemoved (-1) None, s, [])
      end
  | SCount => (SCounted (Z.of_nat (length s)), s, [])
  end.
Fixpoint skl_spec_run (s : items) (os : list sop) : list sres * items * list Z :=
  match os with
  | [] => ([], s, [])
  | o :: os =>
      let '(r, s1, f1) := skl_spec s o in
      let '(rs, s2, f2) := skl_spec_run s1 os in (r :: rs, s2, f1 ++ f2)
  end.

(** No key is inserted before the first one. *)
Definition sop_ok (s : items) (o : sop) : Prop :=
  match o with
  | SInsert k _ => ok k ∧ not_first cmp k s
  | SSearch k | SRemove k _ => ok k
  | SCount => True
  end.
Fixpoint sops_ok (s : items) (os : list sop) : Prop :=
  match os with [] => True | o :: os => sop_ok s o ∧ sops_ok (skl_spec s o).1.2 os end.

Lemma update_length k v s : length (dict_update k v s) = length s.
Proof. induction s as [|[k' v'] s IH]; simpl; [done|]. case_if; simpl; lia. Qed.
Lemma skl_insert_length k v s : (length (dict_insert k v s) ≤ S (length s))%nat.
Proof. induction s as [|[k' v'] s IH]; simpl; [done|]. repeat case_if; simpl; lia. Qed.
Lemma skl_remove_length k s : (length (dict_remove k s) ≤ length s)%nat.
Proof. induction s as [|[k' v'] s IH]; simpl; [done|]. case_if; simpl; lia. Qed.
Lemma skl_spec_length s o : (length (skl_spec s o).1.2 ≤ S (length s))%nat.
Proof.
  destruct o as [k v|k|k v|]; simpl; try lia; case_match; simpl; rewrite ?update_length; try lia; [apply skl_insert_length|].
  pose proof (skl_remove_length k s). lia.
Qed.
Lemma skl_spec_run_length s os : (length (skl_spec_run s os).1.2 ≤ length s + length os)%nat.
Proof.
  revert s. induction os as [|o os IH]; intros s; simpl; [lia|]. pose proof (skl_spec_length s o) as Ho.
  destruct (skl_spec s o) as [[r s1] f1]. specialize (IH s1). destruct (skl_spec_run s1 os) as [[rs s2] f2]. simpl in *. lia.
Qed.
Lemma skl_spec_dict s o : dict cmp ok s → sop_ok s o → dict cmp ok (skl_spec s o).1.2.
Proof.
  intros Hd Ho. destruct o as [k v|k|k v|]; simpl in *; try done; (case_match; simpl; [|try done]).
  - destruct Ho as [Hk _]. destruct (dict_place k Hk s Hd) as (s1&s2&Hb&Ha&[->|(k0&v0&Hs&->)]).
    + by rewrite find_miss in *.
    + rewrite update_hit by done. by eapply dict_value.
  - destruct Ho as [Hk _]. by apply dict_insert_dict.
  - by apply dict_remove_dict.
Qed.
End spec.

(** ** Sequences *)

Section refine.
Context (f : libhl_cmp_callback_t) (fr : bool) (n prob : Z) {ok : key → Prop} `{!Comparator f ok} (random : nat → Z).
Abbreviation skl_at := (skl_at f fr n prob).

Lemma run_sop_ok s up w o :
  skl_at s up w → dict f ok s.*2 → sop_ok (ok := ok) s.*2 o → Z.of_nat (length s) < 2 ^ 64 - 1 →
  returns (run_sop random o w) (λ '(r, w'), ∃ s' up' freed, skl_at s' up' w' ∧
    skl_spec fr s.*2 o = (r, s'.*2, freed) ∧ sw_freed w' = sw_freed w ++ freed).
Proof.
  intros Hat Hd Ho Hsz. destruct o as [k v|k|k v|]; cbn [run_sop skl_spec sop_ok] in *; go.
  - destruct Ho as [Hk Hnf]. eapply returns_mono; [by apply (skiplist_insert_ok f fr n prob k Hk random v s up w)|].
    intros [rc w'] (s'&up'&Hat'&Hres). go. exists s', up'. destruct (dict_find k s.*2) as [old|].
    + destruct Hres as (->&->&->). by exists (if fr then [old] else []).
    + destruct Hres as (->&->&->). exists []. by rewrite app_nil_r.
  - rewrite (skiplist_search_ok f fr n prob k Ho s up w) by (done || lia). go. exists s, up, []. by rewrite app_nil_r.
  - eapply returns_mono; [by apply (skiplist_remove_ok f fr n prob k v s up w)|].
    intros [[rc res] w'] (s'&up'&Hat'&Hres). go. exists s', up'. destruct (dict_find k s.*2) as [old|].
    + destruct Hres as ([= -> ->]&->&->). by eexists.
    + destruct Hres as ([= -> ->]&->&->). exists []. by rewrite app_nil_r.
  - unfold skiplist_count. pose proof Hat as ((_&_&_&Hf&_)&_). go. eapply returns_load_skl; [exact Hf|]. intros lays _. go.
    exists s, up, []. cbn [skl_count]. by rewrite length_fmap, app_nil_r.
Qed.

Lemma run_sops_ok os s up w :
  skl_at s up w → dict f ok s.*2 → sops_ok (ok := ok) fr s.*2 os → Z.of_nat (length s + length os) < 2 ^ 64 - 1 →
  returns (run_sops random os w) (λ '(rs, w'), ∃ s' up' freed, skl_at s' up' w' ∧
    skl_spec_run fr s.*2 os = (rs, s'.*2, freed) ∧ sw_freed w' = sw_freed w ++ freed).
Proof.
  revert s up w. induction os as [|o os IH]; intros s up w Hat Hd Hos Hsz; cbn [run_sops sops_ok skl_spec_run length] in *; go.
  { exists s, up, []. by rewrite app_nil_r. }
  destruct Hos as [Ho Hos]. pose proof (skl_spec_length fr s.*2 o) as Hlen. pose proof (skl_spec_dict fr s.*2 o Hd Ho) as Hd1.
  eapply returns_mono; [apply (run_sop_ok s up w o); try done; lia|].
  intros [r w1] (s1&up1&f1&Hat1&Hspec&Hf1). rewrite Hspec in *. cbn [fst snd] in *. rewrite !length_fmap in Hlen. go.
  eapply returns_mono; [apply (IH s1 up1 w1); try done; lia|].
  intros [rs w2] (s2&up2&f2&Hat2&Hrun&Hf2). go. exists s2, up2, (f1 ++ f2). rewrite Hrun. split; [done|]. split; [done|].
  by rewrite Hf2, Hf1, app_assoc.
Qed.

Lemma skiplist_create_ok w :
  1 ≤ n → (n ≤ 2 ∨ 99 ≤ prob) → sw_items w = ∅ → 0 < sw_new w → false ∉ sw_alloc w →
  returns (skiplist_create n prob (Some f) fr w) (λ '(res, w'), res = true ∧ skl_at [] [] w' ∧ sw_freed w' = sw_freed w).
Proof.
  intros Hn Hup HN Hnew Ha. unfold skiplist_create. go. apply returns_salloc; [done|]. intros a1 Ha1. cbn [negb]. go.
  apply returns_salloc; [done|]. intros a2 Ha2. cbn [andb]. rewrite (proj2 (Z.leb_le 0 n)) by lia. cbn [negb]. go.
  split; [done|]. split; [|done]. split; [|split; [done|split; [constructor|by split_and!]]].
  apply (state_intro _ _ _ _ _ (λ _, None)); [| | | |done|constructor|constructor].
  - split; [|intros p; unfold body_of; simpl; by rewrite HN]. intros i Hi.
    assert (Hl : layer_at [] [] i = []) by (by destruct i as [|[|i]]). rewrite Hl. split; [|done].
    unfold head_of. simpl. rewrite list_lookup_fmap, lookup_seq_lt by done. done.
  - intros p x ?%elem_of_nil. done.
  - intros p. split; [by intros []|by intros ?%elem_of_nil].
  - unfold frame_of. simpl. by rewrite length_fmap, length_seq.
Qed.
End refine.

(** ** Destruction *)

Section claims.
Context (f : libhl_cmp_callback_t) (fr : bool) (n prob : Z) (ok : key → Prop) `{!Comparator f ok} (random : nat → Z).
Abbreviation skl_at := (skl_at f fr n prob).

(** C10 — a new skip list of one or two layers, or whose coin always falls on
    the same side, run through any sequence of insertions (no key before the
    first), searches, removals and counts returns and frees what a sorted
    dictionary does, whatever [random] returns. *)
Theorem skiplist_refines_dict os w :
  1 ≤ n → (n ≤ 2 ∨ 99 ≤ prob) → sops_ok (cmp := f) (ok := ok) fr [] os → Z.of_nat (length os) < 2 ^ 64 - 1 →
  sw_items w = ∅ → 0 < sw_new w → false ∉ sw_alloc w →
  returns ((_ ← skiplist_create n prob (Some f) fr; run_sops random os) w) (λ '(rs, w'), ∃ s up freed,
    skl_at s up w' ∧ skl_spec_run (cmp := f) fr [] os = (rs, s.*2, freed) ∧ sw_freed w' = sw_freed w ++ freed).
Proof.
  intros Hn Hup Hos Hsz HN Hnew Ha. go.
  eapply returns_mono; [by apply (skiplist_create_ok f fr n prob)|]. intros [res w1] (_&Hat&Hf). go.
  eapply returns_mono; [apply (run_sops_ok f fr n prob random os [] [] w1); try done; apply dict_nil|].
  intros [rs w2] (s&up&freed&Hat2&Hrun&Hf2). exists s, up, freed. by rewrite Hf2, Hf.
Qed.

(** C25 — a new skip list of one or two layers, or whose coin sends nothing up,
    is run through any sequence of operations (no key before the first) and
    destroyed: every item is freed with its arrays, and the list; the values
    that were left go once to the free callback, in the order of the keys,
    after those that the operations freed.  With more layers the destruction
    can read freed memory ([skiplist_destroy_use_after_free]). *)
Theorem skiplist_destroy_frees os w :
  1 ≤ n → (n ≤ 2 ∨ 99 ≤ prob) → sops_ok (cmp := f) (ok := ok) fr [] os → Z.of_nat (length os) < 2 ^ 64 - 1 →
  sw_items w = ∅ → 0 < sw_new w → false ∉ sw_alloc w →
  let R := skl_spec_run (cmp := f) fr [] os in
  returns ((_ ← skiplist_create n prob (Some f) fr; _ ← run_sops random os; skiplist_destroy) w) (λ '(_, w'),
    sw_skl w' = None ∧ sw_items w' = ∅ ∧ sw_freed w' = sw_freed w ++ R.2 ++ (if fr then R.1.2.*2 else [])).
Proof.
  intros Hn Hup Hos Hsz HN Hnew Ha R. pose proof (skl_spec_run_length (cmp := f) fr [] os) as Hlen. fold R in Hlen.
  assert (Hrun : skl_spec_run (cmp := f) fr [] os = R) by done. clearbody R. destruct R as [[rs s] freed]. simpl in Hlen. go.
  eapply returns_mono; [by apply (skiplist_create_ok f fr n prob)|]. intros [res w1] (_&Hat&Hf). go.
  eapply returns_mono; [apply (run_sops_ok f fr n prob random os [] [] w1); try done; apply dict_nil|].
  intros [rs' w2] (s'&up&freed'&Hat2&Hrun2&Hf2). simpl in Hrun2. rewrite Hrun in Hrun2. injection Hrun2 as <- -> <-. go.
  rewrite length_fmap in Hlen.
  eapply returns_mono; [apply (skiplist_destroy_ok f fr n prob s' up w2 Hat2); lia|].
  intros [[] w3] (?&?&Hf3). split; [done|]. split; [done|]. by rewrite Hf3, Hf2, Hf, <- app_assoc.
Qed.
End claims.

(** ** Witnesses *)

Definition no_skl : sworld := mk_sworld None ∅ 1 [] [] 0.
(** Every item goes up to the second layer. *)
Definition heads : nat → Z := λ _, 99.

Lemma skiplist_refines_dict_witness :
  let os := [SInsert (k64 2) 20; SInsert (k64 7) 70; SInsert (k64 5) 50; SInsert (k64 5) 55; SSearch (k64 7);
             SRemove (k64 2) false; SSearch (k64 2); SCount] in
  returns ((_ ← skiplist_create 2 50 (Some libhl_cmp_keys_uint64) true; run_sops heads os) no_skl) (λ '(rs, w'), ∃ s up freed,
    skl_at libhl_cmp_keys_uint64 true 2 50 s up w' ∧
    skl_spec_run (cmp := libhl_cmp_keys_uint64) true [] os = (rs, s.*2, freed) ∧ sw_freed w' = [] ++ freed).
Proof.
  apply (skiplist_refines_dict libhl_cmp_keys_uint64 true 2 50 small_key heads
    [SInsert (k64 2) 20; SInsert (k64 7) 70; SInsert (k64 5) 50; SInsert (k64 5) 55; SSearch (k64 7);
     SRemove (k64 2) false; SSearch (k64 2); SCount] no_skl).
  - lia.
  - by left.
  - cbn [sops_ok sop_ok]. split_and!; try (by apply small_le_bytes); try done; by vm_compute.
  - simpl. lia.
  - done.
  - done.
  - apply not_elem_of_nil.
Defined.

(** 2 is removed, and 5 and 7 are left. *)
Lemma skiplist_destroy_frees_witness :
  let os := [SInsert (k64 2) 20; SInsert (k64 7) 70; SInsert (k64 5) 50; SRemove (k64 2) false] in
  let R := skl_spec_run (cmp := libhl_cmp_keys_uint64) true [] os in
  R.1.2.*2 = [50; 70] ∧ R.2 = [20] ∧
  returns ((_ ← skiplist_create 2 50 (Some libhl_cmp_keys_uint64) true; _ ← run_sops heads os; skiplist_destroy) no_skl)
    (λ '(_, w'), sw_skl w' = None ∧ sw_items w' = ∅ ∧ sw_freed w' = [] ++ R.2 ++ R.1.2.*2).
Proof.
  split; [by vm_compute|]. split; [by vm_compute|].
  apply (skiplist_destroy_frees libhl_cmp_keys_uint64 true 2 50 small_key heads
    [SInsert (k64 2) 20; SInsert (k64 7) 70; SInsert (k64 5) 50; SRemove (k64 2) false] no_skl).
  - lia.
  - by left.
  - cbn [sops_ok sop_ok]. split_and!; try (by apply small_le_bytes); try done; by vm_compute.
  - simpl. lia.
  - done.
  - done.
  - apply not_elem_of_nil.
Defined.

(** ** Where the code does something else *)

(** Insertions ([inl]) and removals ([inr]) of 64-bit keys with the coins [l],
    and their return codes. *)
Fixpoint skl_edits (l : list Z) (os : list (Z + Z)) : P (list Z) :=
  match os with
  | [] => mret []
  | o :: os =>
      rc ← match o with
           | inl n => skiplist_insert (λ i, nth i l 0) (k64 n) (n + 100)
           | inr n => '(rc, _) ← skiplist_remove (k64 n) true; mret rc
           end;
      rcs ← skl_edits l os; mret (rc :: rcs)
  end.
Fixpoint skl_searches (ks : list Z) : P (list Z) :=
  match ks with
  | [] => mret []
  | n :: ks => v ← skiplist_search (k64 n); vs ← skl_searches ks; mret (v :: vs)
  end.
Definition new_skl (n prob : Z) : P bool := skiplist_create n prob (Some libhl_cmp_keys_uint64) true.
(** The coins of an insertion that leaves 2 in the first of three layers, and
    sends the other items up. *)
Definition coins : list Z := [0; 99; 99; 99; 0; 99; 99].

(** A key before the first goes to the end of the layers: no key of the list
    is found then. *)
Theorem skiplist_insert_first_misplaced :
  fst <$> (_ ← new_skl 2 50; rcs ← skl_edits (replicate 8 99) (inl <$> [5; 3; 7; 2]);
           vs ← skl_searches [3; 5; 2]; c ← skiplist_count; mret (rcs, vs, c)) no_skl =
    Ret ([0; 0; 0; 0], [0; 0; 0], 4).
Proof. vm_compute. reflexivity. Qed.

(** With three layers, the path holds wrappers of other layers, and an item is
    linked after one of them: the destruction reads an item that was freed. *)
Theorem skiplist_destroy_use_after_free :
  (fst <$> (_ ← new_skl 3 50; skl_edits coins (inl <$> [0; 2; 3; 1])) no_skl = Ret [0; 0; 0; 0]) ∧
  (_ ← new_skl 3 50; _ ← skl_edits coins (inl <$> [0; 2; 3; 1]); skiplist_destroy) no_skl = Undef.
Proof. split; vm_compute; reflexivity. Qed.
Theorem skiplist_remove_use_after_free :
  (_ ← new_skl 3 50; skl_edits coins ((inl <$> [0; 2; 3; 1]) ++ [inr 2; inr 3])) no_skl = Undef.
Proof. vm_compute. reflexivity. Qed.

(** Without a comparator the second insertion calls a null pointer. *)
Theorem skiplist_insert_no_comparator :
  (_ ← skiplist_create 2 50 None true; skiplist_insert heads (k64 1) 1) no_skl <> Undef ∧
  (_ ← skiplist_create 2 50 None true; _ ← skiplist_insert heads (k64 1) 1; skiplist_insert heads (k64 2) 2) no_skl = Undef.
Proof. split; [by vm_compute|vm_compute; reflexivity]. Qed.

(** A probability of 99 or 100 sends no item up. *)
Theorem skiplist_toss_inverted random s w :
  sw_skl w = Some s → 99 ≤ probability s → toss random (-1) w =
    Ret (0, mk_sworld (sw_skl w) (sw_items w) (sw_new w) (sw_alloc w) (sw_freed w) (S (sw_random w))).
Proof.
  intros Hs Hp. unfold toss, load_skl, call_random. cbn [Z.eqb]. erewrite st_bind_Ret; [|by rewrite Hs].
  cbv [mbind st_bind]. cbn. rewrite (proj2 (Z.ltb_ge _ _)); [done|].
  pose proof (Z.rem_bound_abs (random (sw_random w)) 100). lia.
Qed.
Lemma skiplist_toss_inverted_witness :
  fst <$> toss (λ _, 99) (-1) (put_skl (Some (mk_skiplist 2 100 None false [] 0)) no_skl) = Ret 0.
Proof. by rewrite (skiplist_toss_inverted (λ _, 99) (mk_skiplist 2 100 None false [] 0)). Defined.
