(* ===== verification/Trie.v ===== *)
(** * Tries (src/src/trie.c, src/src/trie.h)

    A trie of nodes with 256 child slots and a pointer to their parent.  Nodes
    are objects of a store, addressed by pointers; null is [0], an access to
    an address without a node is undefined.  Keys are C strings: lists of
    bytes without their terminator.  A [char] is signed, and a negative one is
    an index outside of the child array.  Values are pointers; copies of
    values live in the heap of the linked-list component, which is also the
    allocator. *)

From S2P Require Import Prelude Linklist.

(** ** Data *)

Record trie_node_t := mk_trie_node {
  tn_value : Z; tn_vsize : Z; tn_is_copy : bool; tn_num_children : Z;
  tn_child : gmap Z Z;        (* absent: null *)
  tn_parent : Z; tn_pidx : Z
}.

Record trie_t := mk_trie {
  tr_count : Z; tr_node_count : Z; tr_root : Z; tr_free_value_cb : bool
}.

(** [tw_freed] are the values the free callback was called with. *)
Record tworld := mk_tworld {
  tw_trie : option trie_t; tw_nodes : gmap Z trie_node_t; tw_heap : heap; tw_freed : list Z
}.

Abbreviation T := (ST tworld).

Definition load_trie : T trie_t := λ w,
  match tw_trie w with Some t => Ret (t, w) | None => Undef end.
Definition upd_trie (f : trie_t → trie_t) : T unit := λ w,
  match tw_trie w with
  | Some t => Ret (tt, mk_tworld (Some (f t)) (tw_nodes w) (tw_heap w) (tw_freed w))
  | None => Undef
  end.
Definition load_node (p : Z) : T trie_node_t := λ w,
  match tw_nodes w !! p with Some n => Ret (n, w) | None => Undef end.
Definition set_nodes (g : gmap Z trie_node_t → gmap Z trie_node_t) (w : tworld) : tworld :=
  mk_tworld (tw_trie w) (g (tw_nodes w)) (tw_heap w) (tw_freed w).
Definition set_node (p : Z) (f : trie_node_t → trie_node_t) : T unit :=
  n ← load_node p; modify (set_nodes <[p := f n]>).
Definition free_node (p : Z) : T unit :=
  _ ← load_node p; modify (set_nodes (delete p)).
Definition in_heap {A} (m : ST heap A) : T A := λ w,
  '(a, h) ← m (tw_heap w);
  Ret (a, mk_tworld (tw_trie w) (tw_nodes w) h (tw_freed w)).
Definition call_free (v : Z) : T unit :=
  modify (λ w, mk_tworld (tw_trie w) (tw_nodes w) (tw_heap w) (tw_freed w ++ [v])).

Definition node_value (v vsize : Z) (copy : bool) (n : trie_node_t) :=
  mk_trie_node v vsize copy (tn_num_children n) (tn_child n) (tn_parent n) (tn_pidx n).
Definition node_num_children (v : Z) (n : trie_node_t) :=
  mk_trie_node (tn_value n) (tn_vsize n) (tn_is_copy n) v (tn_child n) (tn_parent n) (tn_pidx n).
Definition node_child (c v : Z) (n : trie_node_t) :=
  mk_trie_node (tn_value n) (tn_vsize n) (tn_is_copy n) (tn_num_children n)
    (<[c := v]> (tn_child n)) (tn_parent n) (tn_pidx n).
Definition node_parent (v : Z) (n : trie_node_t) :=
  mk_trie_node (tn_value n) (tn_vsize n) (tn_is_copy n) (tn_num_children n) (tn_child n) v (tn_pidx n).
Definition node_pidx (v : Z) (n : trie_node_t) :=
  mk_trie_node (tn_value n) (tn_vsize n) (tn_is_copy n) (tn_num_children n) (tn_child n)
    (tn_parent n) v.

Definition empty_node : trie_node_t := mk_trie_node 0 0 false 0 ∅ 0 0.

(** [calloc(1, sizeof(trie_node_t))]: the node or null. *)
Definition alloc_node : T Z := λ w,
  let h := tw_heap w in
  match hp_alloc h with
  | false :: a =>
      Ret (0, mk_tworld (tw_trie w) (tw_nodes w) (mk_heap (hp h) (hp_next h) a (hp_freed h)) (tw_freed w))
  | a =>
      Ret (hp_next h, mk_tworld (tw_trie w) (<[hp_next h := empty_node]> (tw_nodes w))
                        (mk_heap (hp h) (hp_next h + 1) (tail a) (hp_freed h)) (tw_freed w))
  end.

(** A byte as a signed [char]. *)
Definition schar (c : Z) : Z := if c <? 128 then c else c - 256.

(** [node->child[c]]. *)
Definition get_child (p c : Z) : T Z :=
  n ← load_node p;
  if (0 <=? c) && (c <? 256) then mret (default 0 (tn_child n !! c)) else undef.
Definition set_child (p c v : Z) : T unit :=
  if (0 <=? c) && (c <? 256) then set_node p (node_child c v) else undef.

(** [node->num_children += d] and the counters of the trie ([int]s). *)
Definition add_num_children (p d : Z) : T unit :=
  n ← load_node p;
  v ← lift (int32 (tn_num_children n + d));
  set_node p (node_num_children v).
Definition add_count (d : Z) : T unit :=
  t ← load_trie;
  v ← lift (int32 (tr_count t + d));
  upd_trie (λ t, mk_trie v (tr_node_count t) (tr_root t) (tr_free_value_cb t)).
Definition add_node_count (d : Z) : T unit :=
  t ← load_trie;
  v ← lift (int32 (tr_node_count t + d));
  upd_trie (λ t, mk_trie (tr_count t) v (tr_root t) (tr_free_value_cb t)).

(** ** Operations *)

(** The trie itself is [tw_trie]; neither allocation is checked. *)
Definition trie_create (free_value_cb : bool) : T unit := λ w,
  match hp_alloc (tw_heap w) with
  | false :: _ => Undef
  | a =>
      let h := tw_heap w in
      (root ← alloc_node;
       modify (λ w, mk_tworld (Some (mk_trie 0 0 root free_value_cb)) (tw_nodes w) (tw_heap w)
                      (tw_freed w)))
      (mk_tworld (tw_trie w) (tw_nodes w) (mk_heap (hp h) (hp_next h) (tail a) (hp_freed h))
         (tw_freed w))
  end.

(** The loop over the ancestors that hold nothing else. *)
Definition prune_body (x : Z * Z) : T (Z * Z + Z * Z) :=
  let '(parent, pidx) := x in
  t ← load_trie;
  if (parent =? 0) || (parent =? tr_root t) then mret (inr (parent, pidx)) else
  n ← load_node parent;
  if negb (tn_value n =? 0) || (1 <? tn_num_children n) then mret (inr (parent, pidx)) else
  _ ← free_node parent;
  _ ← add_node_count (-1);
  mret (inl (tn_parent n, tn_pidx n)).

Fixpoint destroy_children (destroy : Z → T unit) (node : Z) (idxs : list Z) : T unit :=
  match idxs with
  | [] => mret tt
  | i :: idxs =>
      c ← get_child node i;
      _ ← (if c =? 0 then mret tt else
           _ ← set_node c (node_parent 0);
           _ ← destroy c;
           _ ← set_child node i 0;
           add_num_children node (-1));
      destroy_children destroy node idxs
  end.

(** [depth] bounds the recursion: the length of the longest key below. *)
Fixpoint trie_node_destroy (depth : nat) (node : Z) (free_value_cb : bool) : T unit :=
  match depth with
  | O => λ _, Diverge
  | S depth =>
      n ← load_node node;
      '(parent, pidx) ← loopS prune_body (tn_parent n, tn_pidx n);
      _ ← (if parent =? 0 then mret tt else
           _ ← set_child parent pidx 0;
           add_num_children parent (-1));
      _ ← destroy_children (λ c, trie_node_destroy depth c free_value_cb) node (seqZ 0 256);
      n ← load_node node;
      _ ← (if tn_value n =? 0 then mret tt else
           _ ← add_count (-1);
           if tn_is_copy n then in_heap (free (tn_value n))
           else if free_value_cb then call_free (tn_value n) else mret tt);
      _ ← add_node_count (-1);
      free_node node
  end.

Definition free_trie : T unit :=
  modify (λ w, mk_tworld None (tw_nodes w) (tw_heap w) (tw_freed w)).
Definition trie_destroy (depth : nat) : T unit :=
  t ← load_trie;
  _ ← trie_node_destroy depth (tr_root t) (tr_free_value_cb t);
  free_trie.

(** [malloc(vsize)] and [memcpy], unchecked. *)
Definition copy_value (value vsize : Z) : T Z :=
  q ← in_heap (alloc (OBytes []));
  if q =? 0 then undef else
  s ← in_heap (load_bytes value);
  _ ← lift (check ((0 <=? vsize) && (vsize <=? Z.of_nat (length s))));
  _ ← in_heap (store q (OBytes (take (Z.to_nat vsize) s)));
  mret q.

Definition trie_node_set_value (node value vsize : Z) (copy : bool) : T unit :=
  n ← load_node node;
  t ← load_trie;
  _ ← (if tn_value n =? 0 then mret tt
       else if tn_is_copy n then in_heap (free (tn_value n))
       else if tr_free_value_cb t then call_free (tn_value n) else mret tt);
  value ← (if copy then copy_value value vsize else mret value);
  set_node node (node_value value vsize copy).

(** The first loop of [trie_insert]: the node reached and the rest of the key. *)
Fixpoint descend (node : Z) (key : cstr) : T (Z * cstr) :=
  match key with
  | [] => mret (node, [])
  | c :: rest =>
      tmp ← get_child node (schar c);
      if tmp =? 0 then mret (node, key) else descend tmp rest
  end.

(** The second loop: a node for each byte left. *)
Fixpoint create_path (node : Z) (key : cstr) (new_nodes : Z) : T (Z * Z) :=
  match key with
  | [] => mret (node, new_nodes)
  | c :: rest =>
      new_nodes ← lift (int32 (new_nodes + 1));
      _ ← add_num_children node 1;
      tmp ← alloc_node;
      _ ← set_child node (schar c) tmp;
      _ ← set_node tmp (node_parent node);
      _ ← set_node tmp (node_pidx (schar c));
      create_path tmp rest new_nodes
  end.

Definition trie_insert (key : cstr) (value vsize : Z) (copy : bool) : T Z :=
  t ← load_trie;
  '(node, rest) ← descend (tr_root t) key;
  '(node, new_nodes) ← create_path node rest 0;
  _ ← (if new_nodes =? 0 then mret tt else
       _ ← add_count 1;
       add_node_count new_nodes);
  _ ← (if node =? 0 then mret tt else trie_node_set_value node value vsize copy);
  mret new_nodes.

Fixpoint find_from (node : Z) (key : cstr) : T Z :=
  match key with
  | [] => mret node
  | c :: rest =>
      if node =? 0 then mret node else
      node ← get_child node (schar c);
      find_from node rest
  end.

Definition trie_find_internal (key : cstr) : T Z :=
  t ← load_trie; find_from (tr_root t) key.

(** The value, and what is stored through [vsize] when it is not null. *)
Definition trie_find (key : cstr) (vsize : bool) : T (Z * option Z) :=
  node ← trie_find_internal key;
  if node =? 0 then mret (0, None) else
  n ← load_node node;
  mret (tn_value n, if vsize then Some (tn_vsize n) else None).

(** The number of nodes removed, and what is stored through [value] and
    [vsize]. *)
Definition trie_remove (depth : nat) (key : cstr) (value vsize : bool) :
    T (Z * option Z * option Z) :=
  node ← trie_find_internal key;
  if node =? 0 then mret (0, None, None) else
  t ← load_trie;
  let num_nodes := tr_node_count t in
  n ← load_node node;
  _ ← trie_node_destroy depth node (if value then false else tr_free_value_cb t);
  t ← load_trie;
  r ← lift (int32 (num_nodes - tr_node_count t));
  mret (r, if value then Some (tn_value n) else None, if vsize then Some (tn_vsize n) else None).

Definition trie_find_or_insert (key : cstr) (value vsize : Z) (prev_value prev_vsize : bool)
    (copy : bool) : T (Z * option Z * option Z) :=
  node ← trie_find_internal key;
  if node =? 0 then r ← trie_insert key value vsize copy; mret (r, None, None) else
  n ← load_node node;
  mret (0, if prev_value then Some (tn_value n) else None,
        if prev_vsize then Some (tn_vsize n) else None).

Definition trie_find_and_insert (key : cstr) (value vsize : Z) (prev_value prev_vsize : bool)
    (copy : bool) : T (Z * option Z * option Z) :=
  node ← trie_find_internal key;
  if node =? 0 then r ← trie_insert key value vsize copy; mret (r, None, None) else
  n ← load_node node;
  _ ← trie_node_set_value node value vsize copy;
  mret (0, if prev_value then Some (tn_value n) else None,
        if prev_vsize then Some (tn_vsize n) else None).
