(* ===== verification/TrieMap.v ===== *)
(** * Correctness of the trie

    The representation invariant of src/src/trie.c and the refinement of its
    operations by a finite map from strings to values. *)

From S2P Require Import Prelude Linklist Trie.

(** ** Representation *)

(** A byte of a key that is a valid index. *)
Definition char (c : Z) : Prop := 0 < c < 128.

Lemma schar_char c : char c → schar c = c.
Proof. unfold char, schar. intros ?. by rewrite (proj2 (Z.ltb_lt _ _)) by lia. Qed.

(** The children of the node of [k], when [P] maps strings to their nodes. *)
Definition nchild (P : gmap cstr Z) (k : cstr) : Z :=
  Z.of_nat (length (filter (λ c, is_Some (P !! (k ++ [c]))) (seqZ 1 127))).

Lemma nchild_bounds P k : 0 ≤ nchild P k ≤ 127.
Proof.
  unfold nchild. pose proof (length_filter (λ c, is_Some (P !! (k ++ [c]))) (seqZ 1 127)) as Hl.
  rewrite length_seqZ in Hl. lia.
Qed.

Lemma filter_ext_in {A} (p q : A → Prop) `{!∀ x, Decision (p x), !∀ x, Decision (q x)} (l : list A) :
  (∀ x, x ∈ l → p x ↔ q x) → filter p l = filter q l.
Proof.
  induction l as [|x l IH]; intros Hpq; [done|].
  assert (p x ↔ q x) as Hx by (apply Hpq; by left).
  assert (filter p l = filter q l) as IHl by (apply IH; intros; apply Hpq; by right).
  destruct (decide (p x)) as [E|E].
  - rewrite !filter_cons_True by tauto. by f_equal.
  - rewrite !filter_cons_False by tauto. done.
Qed.
Lemma length_filter_add {A} (p q : A → Prop) `{!∀ x, Decision (p x), !∀ x, Decision (q x)}
    (l : list A) a :
  NoDup l → a ∈ l → ¬ p a → (∀ x, q x ↔ p x ∨ x = a) →
  length (filter q l) = S (length (filter p l)).
Proof.
  intros Hn Ha Hp Hq. induction l as [|x l IH]; [by apply elem_of_nil in Ha|].
  apply NoDup_cons in Hn as [Hx Hn]. apply elem_of_cons in Ha as [<-|Ha].
  - rewrite filter_cons_True by (apply Hq; auto). rewrite filter_cons_False by done. simpl.
    do 2 f_equal. apply filter_ext_in. intros y Hy. rewrite Hq.
    split; [|auto]. intros [?| ->]; done.
  - assert (x ≠ a) by congruence. destruct (decide (p x)) as [Hpx|Hpx].
    + rewrite !filter_cons_True by (done || apply Hq; auto). simpl. by rewrite IH.
    + rewrite !filter_cons_False by (done || rewrite Hq; tauto). by apply IH.
Qed.

(** [P] maps each string of the trie to its node, [V] to what is stored. *)
Record trep (N : gmap Z trie_node_t) (root : Z) (P : gmap cstr Z) (V : gmap cstr (Z * Z * bool)) :
    Prop := {
  tp_root : P !! [] = Some root;
  tp_inj : ∀ k1 k2 p, P !! k1 = Some p → P !! k2 = Some p → k1 = k2;
  tp_node : ∀ k p, P !! k = Some p → p ≠ 0 ∧ ∃ n, N !! p = Some n ∧
    V !! k = Some (tn_value n, tn_vsize n, tn_is_copy n) ∧
    tn_num_children n = nchild P k ∧
    (∀ c, 0 ≤ c < 256 → default 0 (tn_child n !! c) = default 0 (P !! (k ++ [c]))) ∧
    (k = [] → tn_parent n = 0) ∧
    (∀ k' c, k = k' ++ [c] → char c ∧ P !! k' = Some (tn_parent n) ∧ tn_pidx n = c);
  tp_dom : ∀ k, is_Some (V !! k) → is_Some (P !! k);
  tp_all : ∀ p, is_Some (N !! p) → ∃ k, P !! k = Some p
}.

Lemma trep_parent N root P V k c p :
  trep N root P V → P !! (k ++ [c]) = Some p → char c ∧ is_Some (P !! k).
Proof.
  intros Ht Hp. destruct (tp_node _ _ _ _ Ht _ _ Hp) as (_&n&_&_&_&_&_&Hk).
  destruct (Hk k c eq_refl) as (?&?&_). eauto.
Qed.
Lemma trep_prefix N root P V k l :
  trep N root P V → is_Some (P !! (k ++ l)) → is_Some (P !! k).
Proof.
  intros Ht. induction l as [|c l IH] using rev_ind; [by rewrite app_nil_r|].
  rewrite app_assoc. intros [p Hp]. apply IH. by eapply trep_parent.
Qed.
Lemma trep_P_V N root P V k :
  trep N root P V → is_Some (P !! k) ↔ is_Some (V !! k).
Proof.
  intros Ht. split; [|by apply (tp_dom _ _ _ _ Ht)]. intros [p Hp].
  destruct (tp_node _ _ _ _ Ht _ _ Hp) as (_&n&_&Hv&_). eauto.
Qed.

Lemma snoc_inj {A} (k k' : list A) c c' : k ++ [c] = k' ++ [c'] → k = k' ∧ c = c'.
Proof. intros H. apply app_inj_tail in H. done. Qed.

(** A node is added below the node of [k]. *)
Lemma trep_extend N root P V k p n c q :
  trep N root P V → P !! k = Some p → N !! p = Some n → char c →
  P !! (k ++ [c]) = None → N !! q = None → q ≠ 0 →
  trep (<[q := mk_trie_node 0 0 false 0 ∅ p c]>
         (<[p := node_child c q (node_num_children (nchild P k + 1) n)]> N))
    root (<[k ++ [c] := q]> P) (<[k ++ [c] := (0, 0, false)]> V).
Proof.
  intros Ht Hp Hn Hc Hnew Hq Hq0.
  assert (∀ k1 p1, P !! k1 = Some p1 → p1 ≠ q) as Hfresh.
  { intros k1 p1 H1 ->. destruct (tp_node _ _ _ _ Ht _ _ H1) as (_&n1&?&_). congruence. }
  assert (∀ k1, k1 ≠ k → nchild (<[k ++ [c] := q]> P) k1 = nchild P k1) as Hnc.
  { intros k1 Hk1. unfold nchild. do 2 f_equal. apply list_filter_iff. intros c1.
    rewrite lookup_insert_ne; [done|]. intros E. apply snoc_inj in E as [-> _]. done. }
  assert (nchild (<[k ++ [c] := q]> P) k = nchild P k + 1) as Hnk.
  { unfold nchild. rewrite (length_filter_add (λ c1, is_Some (P !! (k ++ [c1]))) _ _ c); [lia| | | |].
    - apply NoDup_seqZ.
    - apply elem_of_seqZ. unfold char in Hc. lia.
    - rewrite Hnew. by intros [? ?].
    - intros c1. rewrite lookup_insert. case_decide as E.
      + apply snoc_inj in E as [_ ->]. split; auto.
      + split; [auto|]. intros [?| ->]; [done|]. done. }
  split.
  - rewrite lookup_insert_ne; [by destruct Ht|]. by destruct k.
  - intros k1 k2 p1. rewrite !lookup_insert. repeat case_decide; subst; try done.
    + intros [= <-] H2. by apply Hfresh in H2.
    + intros H1 [= <-]. by apply Hfresh in H1.
    + apply (tp_inj _ _ _ _ Ht).
  - intros k1 p1. rewrite lookup_insert. case_decide as E.
    + intros [= <-]. subst k1. split; [done|]. rewrite lookup_insert_eq. eexists. split; [done|].
      rewrite lookup_insert_eq. split; [done|]. simpl. split_and!.
      * rewrite Hnc by (intros E%(f_equal length); rewrite length_app in E; simpl in E; lia).
        unfold nchild. rewrite (list_filter_iff _ (λ _, False)).
        -- symmetry. clear. induction (seqZ 1 127) as [|x l IH]; [done|].
           by rewrite filter_cons_False by tauto.
        -- intros c1. split; [|done]. intros Hs. rewrite <- app_assoc in Hs.
           assert (is_Some (P !! (k ++ [c]))) as [? ?]; [|congruence].
           eapply (trep_prefix _ _ _ _ _ [c1]); [done|]. by rewrite <- app_assoc.
      * intros c1 Hc1. rewrite lookup_empty, lookup_insert_ne.
        2:{ intros E%(f_equal length). rewrite !length_app in E. simpl in E. lia. }
        destruct (P !! ((k ++ [c]) ++ [c1])) eqn:E; [|done].
        assert (is_Some (P !! (k ++ [c]))) as [? ?]; [|congruence].
        eapply (trep_prefix _ _ _ _ _ [c1]); [done|eauto].
      * by destruct k.
      * intros k' c' [<- <-]%snoc_inj. rewrite lookup_insert_ne; [done|].
        intros E%(f_equal length). rewrite length_app in E. simpl in E. lia.
    + intros H1. destruct (tp_node _ _ _ _ Ht _ _ H1) as (Hp0&n1&Hn1&Hv1&Hc1&Hch1&Hr1&Hpar1).
      split; [done|]. rewrite lookup_insert_ne by (by apply not_eq_sym; eapply Hfresh).
      assert (∀ k' c', k1 = k' ++ [c'] → (<[k ++ [c] := q]> P) !! k' = P !! k') as Hpk.
      { intros k' c' ->. rewrite lookup_insert_ne; [done|]. intros <-.
        destruct (Hpar1 _ _ eq_refl) as (_&E1&_). congruence. }
      destruct (decide (k1 = k)) as [->|Hk1].
      * rewrite Hp in H1. simplify_eq. rewrite lookup_insert_eq. eexists. split; [done|].
        rewrite lookup_insert_ne by (intros ?; congruence). simpl. split_and!; try done.
        -- intros c1 Hcr. destruct (decide (c1 = c)) as [->|Hcc].
           ++ by rewrite !lookup_insert_eq.
           ++ rewrite !lookup_insert_ne; [by apply Hch1|by intros []%snoc_inj|done].
        -- intros k' c' E1. rewrite (Hpk _ _ E1). by apply Hpar1.
      * assert (p1 ≠ p) by (intros ->; apply Hk1; by eapply (tp_inj _ _ _ _ Ht)).
        rewrite lookup_insert_ne by done. exists n1. split; [done|].
        rewrite lookup_insert_ne by done. rewrite Hnc by done. split_and!; try done.
        -- intros c1 Hcr. rewrite lookup_insert_ne by (intros []%snoc_inj; done). by apply Hch1.
        -- intros k' c' E1. rewrite (Hpk _ _ E1). by apply Hpar1.
  - intros k1. rewrite !lookup_insert. case_decide; [done|]. apply (tp_dom _ _ _ _ Ht).
  - intros p1. rewrite !lookup_insert. repeat case_decide; subst.
    + exists (k ++ [c]). by rewrite lookup_insert_eq.
    + exists k. rewrite lookup_insert_ne; [done|]. intros E. rewrite <- E in Hp. congruence.
    + intros [k1 Hk1]%(tp_all _ _ _ _ Ht). exists k1. rewrite lookup_insert_ne; [done|congruence].
Qed.

(** A value is stored at the node of [k]. *)
Lemma trep_value N root P V k p n v s b :
  trep N root P V → P !! k = Some p → N !! p = Some n →
  trep (<[p := node_value v s b n]> N) root P (<[k := (v, s, b)]> V).
Proof.
  intros Ht Hp Hn. split; try by destruct Ht.
  - intros k1 p1 H1. destruct (tp_node _ _ _ _ Ht _ _ H1) as (Hp0&n1&Hn1&Hv1&Hr1).
    split; [done|]. destruct (decide (k1 = k)) as [->|Hk1].
    + rewrite Hp in H1. simplify_eq. rewrite !lookup_insert_eq. by eexists.
    + assert (p1 ≠ p) by (intros ->; apply Hk1; by eapply (tp_inj _ _ _ _ Ht)).
      rewrite !lookup_insert_ne by done. eauto.
  - intros k1. rewrite lookup_insert. case_decide; subst; [eauto|]. apply (tp_dom _ _ _ _ Ht).
  - intros p1. rewrite lookup_insert. case_decide; subst; [eauto|]. apply (tp_all _ _ _ _ Ht).
Qed.

(** ** Walking down *)

Lemma returns_load_trie t N h f Q :
  Q (t, mk_tworld (Some t) N h f) → returns (load_trie (mk_tworld (Some t) N h f)) Q.
Proof. done. Qed.
Lemma returns_add_count d t N h f Q :
  INT_MIN ≤ tr_count t + d ≤ INT_MAX →
  Q (tt, mk_tworld (Some (mk_trie (tr_count t + d) (tr_node_count t) (tr_root t)
           (tr_free_value_cb t))) N h f) →
  returns (add_count d (mk_tworld (Some t) N h f)) Q.
Proof. intros Hd HQ. unfold add_count. go. apply returns_load_trie. by go. Qed.
Lemma returns_add_node_count d t N h f Q :
  INT_MIN ≤ tr_node_count t + d ≤ INT_MAX →
  Q (tt, mk_tworld (Some (mk_trie (tr_count t) (tr_node_count t + d) (tr_root t)
           (tr_free_value_cb t))) N h f) →
  returns (add_node_count d (mk_tworld (Some t) N h f)) Q.
Proof. intros Hd HQ. unfold add_node_count. go. apply returns_load_trie. by go. Qed.

Section walk.
Context (t : option trie_t) (h : heap) (f : list Z).

Lemma returns_load_node N p n Q :
  N !! p = Some n → Q (n, mk_tworld t N h f) → returns (load_node p (mk_tworld t N h f)) Q.
Proof. intros Hn HQ. unfold load_node. simpl. by rewrite Hn. Qed.
Lemma returns_set_node N p n g Q :
  N !! p = Some n → Q (tt, mk_tworld t (<[p := g n]> N) h f) →
  returns (set_node p g (mk_tworld t N h f)) Q.
Proof. intros Hn HQ. unfold set_node. go. by eapply returns_load_node. Qed.
Lemma returns_set_child N p n c v Q :
  N !! p = Some n → char c → Q (tt, mk_tworld t (<[p := node_child c v n]> N) h f) →
  returns (set_child p c v (mk_tworld t N h f)) Q.
Proof.
  intros Hn Hc HQ. unfold set_child, char in *.
  rewrite (proj2 (Z.leb_le 0 c)), (proj2 (Z.ltb_lt c 256)) by lia. simpl.
  by eapply returns_set_node.
Qed.
Lemma returns_add_num_children N p n d Q :
  N !! p = Some n → INT_MIN ≤ tn_num_children n + d ≤ INT_MAX →
  Q (tt, mk_tworld t (<[p := node_num_children (tn_num_children n + d) n]> N) h f) →
  returns (add_num_children p d (mk_tworld t N h f)) Q.
Proof.
  intros Hn Hd HQ. unfold add_num_children. go. eapply returns_load_node; [done|]. go.
  by eapply returns_set_node.
Qed.

Lemma get_child_returns N root P V k p c Q :
  trep N root P V → P !! k = Some p → char c →
  Q (default 0 (P !! (k ++ [c])), mk_tworld t N h f) →
  returns (get_child p (schar c) (mk_tworld t N h f)) Q.
Proof.
  intros Ht Hp Hc HQ. destruct (tp_node _ _ _ _ Ht _ _ Hp) as (_&n&Hn&_&_&Hch&_).
  unfold get_child. rewrite schar_char by done. go. eapply returns_load_node; [done|].
  unfold char in Hc. rewrite (proj2 (Z.leb_le 0 c)), (proj2 (Z.ltb_lt c 256)) by lia.
  simpl. go. by rewrite Hch by lia.
Qed.

Lemma trep_nonnull N root P V k p : trep N root P V → P !! k = Some p → p ≠ 0.
Proof. intros Ht Hp. by destruct (tp_node _ _ _ _ Ht _ _ Hp). Qed.

Lemma find_from_returns N root P V k p key Q :
  trep N root P V → P !! k = Some p → Forall char key →
  Q (default 0 (P !! (k ++ key)), mk_tworld t N h f) →
  returns (find_from p key (mk_tworld t N h f)) Q.
Proof.
  intros Ht. revert k p. induction key as [|c key IH]; intros k p Hp Hc HQ; simpl.
  { rewrite app_nil_r, Hp in HQ. by go. }
  apply Forall_cons in Hc as [Hc Hk].
  rewrite (proj2 (Z.eqb_neq p 0)) by (by eapply trep_nonnull). go.
  eapply get_child_returns; [exact Ht|exact Hp|done|]. rewrite cons_middle, app_assoc in HQ.
  destruct (P !! (k ++ [c])) as [q|] eqn:Hq; simpl; [by eapply IH|].
  assert (P !! ((k ++ [c]) ++ key) = None) as Hnone.
  { destruct (P !! ((k ++ [c]) ++ key)) eqn:E; [|done].
    destruct (trep_prefix _ _ _ _ _ _ Ht (ex_intro _ _ E)). congruence. }
  rewrite Hnone in HQ. destruct key; simpl; by go.
Qed.

Lemma descend_returns N root P V k p key Q :
  trep N root P V → P !! k = Some p → Forall char key →
  (∀ pre rest q, key = pre ++ rest → P !! (k ++ pre) = Some q →
     (∀ c r, rest = c :: r → P !! (k ++ pre ++ [c]) = None) →
     Q (q, rest, mk_tworld t N h f)) →
  returns (descend p key (mk_tworld t N h f)) Q.
Proof.
  intros Ht. revert k p. induction key as [|c key IH]; intros k p Hp Hc HQ; simpl.
  { go. apply (HQ [] []); [done|by rewrite app_nil_r|done]. }
  apply Forall_cons in Hc as [Hc Hk]. go.
  eapply get_child_returns; [exact Ht|exact Hp|done|].
  destruct (P !! (k ++ [c])) as [q|] eqn:Hq; simpl.
  - rewrite (proj2 (Z.eqb_neq q 0)) by (by eapply trep_nonnull).
    eapply IH; [exact Hq|done|]. intros pre rest q' -> Hq' Hr.
    apply (HQ (c :: pre)); [done|by rewrite cons_middle, app_assoc|].
    intros c' r' E. rewrite <- app_comm_cons, cons_middle, app_assoc. by eapply Hr.
  - go. apply (HQ [] (c :: key)); [done|by rewrite app_nil_r|]. by intros ?? [= <- <-].
Qed.
End walk.

(** ** Creating nodes *)

(** [alloc_node] does not refuse; only fresh addresses are used. *)
Record fresh (N : gmap Z trie_node_t) (h : heap) : Prop := {
  fr_nodes : ∀ p n, N !! p = Some n → 0 < p < hp_next h;
  fr_heap : wf_heap h;
  fr_alloc : alloc_ok h
}.

Lemma alloc_node_returns t N h f Q :
  fresh N h →
  (∀ h', fresh (<[hp_next h := empty_node]> N) h' → hp h' = hp h → N !! hp_next h = None →
     hp_next h ≠ 0 → Q (hp_next h, mk_tworld t (<[hp_next h := empty_node]> N) h' f)) →
  returns (alloc_node (mk_tworld t N h f)) Q.
Proof.
  intros [Hf [Hn Hw] Hal] HQ. unfold alloc_node, alloc_ok in *. simpl.
  assert (N !! hp_next h = None) as Hnew.
  { destruct (N !! hp_next h) as [x|] eqn:E; [|done]. apply Hf in E. lia. }
  assert (∀ a, Forall (λ b, b = true) a →
    fresh (<[hp_next h := empty_node]> N) (mk_heap (hp h) (hp_next h + 1) a (hp_freed h))) as Hfr.
  { intros a Ha. split; simpl; [| |done].
    - intros p n. rewrite lookup_insert. case_decide; [intros; lia|]. intros E. apply Hf in E. lia.
    - split; simpl; [lia|]. intros a' x E. apply Hw in E. lia. }
  destruct (hp_alloc h) as [|b a]; [|inversion Hal; subst]; apply HQ; try done; try lia;
    by apply Hfr.
Qed.

(** The values once the nodes of [rest] below [k] exist. *)
Fixpoint new_values (V : gmap cstr (Z * Z * bool)) (k rest : cstr) : gmap cstr (Z * Z * bool) :=
  match rest with
  | [] => V
  | c :: rest => new_values (<[k ++ [c] := (0, 0, false)]> V) (k ++ [c]) rest
  end.

Lemma create_path_returns root t N h f P V k p rest nn Q :
  trep N root P V → fresh N h → P !! k = Some p → Forall char rest →
  (∀ c r, rest = c :: r → P !! (k ++ [c]) = None) →
  0 ≤ nn → nn + Z.of_nat (length rest) ≤ INT_MAX →
  (∀ N' h' P' q, trep N' root P' (new_values V k rest) → fresh N' h' → hp h' = hp h →
     P' !! (k ++ rest) = Some q →
     Q (q, nn + Z.of_nat (length rest), mk_tworld t N' h' f)) →
  returns (create_path p rest nn (mk_tworld t N h f)) Q.
Proof.
  revert N h P V k p nn. induction rest as [|c rest IH];
    intros N h P V k p nn Ht Hf Hp Hc Hnew Hnn Hmax HQ; simpl.
  { go. rewrite <- (Z.add_0_r nn). eapply HQ; [exact Ht|done|done|by rewrite app_nil_r]. }
  apply Forall_cons in Hc as [Hc Hcs]. simpl in Hmax.
  destruct (tp_node _ _ _ _ Ht _ _ Hp) as (Hp0&n&Hn&Hv&Hnum&_).
  pose proof (nchild_bounds P k) as Hb. go.
  eapply returns_add_num_children; [done|int_bounds; lia|]. go.
  assert (fresh (<[p := node_num_children (tn_num_children n + 1) n]> N) h) as Hf1.
  { destruct Hf as [Hfn ? ?]. split; try done. intros q x. rewrite lookup_insert.
    case_decide; subst; [intros _; by eapply Hfn|apply Hfn]. }
  apply alloc_node_returns; [done|]. intros h1 Hf2 Hh1 Hq Hq0. go.
  set (q := hp_next h) in *.
  assert (p ≠ q) as Hpq by (intros ->; by rewrite lookup_insert_eq in Hq).
  rewrite lookup_insert_ne in Hq by done. rewrite schar_char by done.
  eapply returns_set_child; [by rewrite lookup_insert_ne, lookup_insert_eq|done|]. go.
  eapply returns_set_node; [by rewrite lookup_insert_ne, lookup_insert_eq|]. go.
  eapply returns_set_node; [by rewrite lookup_insert_eq|]. go. rewrite insert_insert_eq.
  pose proof (trep_extend _ _ _ _ _ _ _ _ _ Ht Hp Hn Hc (Hnew _ _ eq_refl) Hq Hq0) as Ht'.
  match goal with |- returns (create_path q rest (nn + 1) (mk_tworld t ?N1 _ _)) _ =>
    assert (N1 = <[q := mk_trie_node 0 0 false 0 ∅ p c]>
      (<[p := node_child c q (node_num_children (nchild P k + 1) n)]> N)) as -> end.
  { apply map_eq. intros a. rewrite Hnum. destruct (decide (a = q)) as [->|Haq].
    - by rewrite !lookup_insert_eq.
    - rewrite !(lookup_insert_ne _ q) by done. destruct (decide (a = p)) as [->|Hap].
      + by rewrite !lookup_insert_eq.
      + by rewrite !lookup_insert_ne by done. }
  eapply (IH _ _ _ _ (k ++ [c])); [exact Ht'| |by rewrite lookup_insert_eq|done| |lia|lia|].
  - destruct Hf2 as [Hfn ? ?]. split; try done. intros a x Ha. apply (Hfn a (default empty_node
      ((<[q := empty_node]> (<[p := node_num_children (tn_num_children n + 1) n]> N)) !! a))).
    revert Ha. rewrite !lookup_insert. repeat case_decide; try done. by intros ->.
  - intros c' r' ->. rewrite lookup_insert_ne.
    + destruct (P !! ((k ++ [c]) ++ [c'])) eqn:E; [|done].
      destruct (trep_prefix _ _ _ _ _ [c'] Ht (ex_intro _ _ E)). 
      rewrite (Hnew _ _ eq_refl) in *. done.
    + intros E%(f_equal length). rewrite !length_app in E. simpl in E. lia.
  - intros N' h' P' q' Ht2 Hf3 Hh' Hq'. rewrite <- app_assoc in Hq'. simpl in Hq'.
    replace (nn + 1 + Z.of_nat (length rest)) with (nn + Z.of_nat (length (c :: rest)))
      by (simpl; lia).
    eapply HQ; [exact Ht2|done|congruence|exact Hq'].
Qed.

(** ** The map *)

(** [k] has a node: it is the root or a prefix of a key of the map. *)
Definition covered (m : gmap cstr (Z * Z)) (k : cstr) : Prop :=
  k = [] ∨ Exists (λ kv, k `prefix_of` kv.1) (map_to_list m).

#[global] Instance covered_dec m k : Decision (covered m k).
Proof. unfold covered. apply _. Defined.

Lemma covered_spec m k : covered m k ↔ k = [] ∨ ∃ k', is_Some (m !! (k ++ k')).
Proof.
  unfold covered. rewrite Exists_exists. f_equiv. split.
  - intros ([k1 v]&Hin&[k' Hk]). simpl in Hk. subst k1. apply elem_of_map_to_list in Hin. eauto.
  - intros (k'&v&Hv). exists (k ++ k', v). split; [by apply elem_of_map_to_list|]. by exists k'.
Qed.

(** The stored values [V] are the map [m]; nodes without a value lead to a
    key. *)
Record vals (V : gmap cstr (Z * Z * bool)) (m : gmap cstr (Z * Z)) : Prop := {
  va_val : ∀ k v s b, V !! k = Some (v, s, b) →
    b = false ∧ m !! k = (if v =? 0 then None else Some (v, s)) ∧ (v = 0 → s = 0);
  va_dom : ∀ k, is_Some (V !! k) ↔ covered m k
}.

Lemma vals_some V m k v s : vals V m → m !! k = Some (v, s) → V !! k = Some (v, s, false) ∧ v ≠ 0.
Proof.
  intros [Hv Hd] Hm. assert (is_Some (V !! k)) as [[[v' s'] b] HV].
  { apply Hd, covered_spec. right. exists []. rewrite app_nil_r. eauto. }
  destruct (Hv _ _ _ _ HV) as (->&E&_). rewrite Hm in E. destruct (Z.eqb_spec v' 0); [done|].
  by simplify_eq.
Qed.

Lemma vals_update V m k v s :
  vals V m → is_Some (V !! k) → v ≠ 0 → vals (<[k := (v, s, false)]> V) (<[k := (v, s)]> m).
Proof.
  intros [Hv Hd] Hk Hv0. split.
  - intros k1 v1 s1 b1. rewrite !lookup_insert. case_decide; subst; [|apply Hv].
    intros [= <- <- <-]. by rewrite (proj2 (Z.eqb_neq v 0)).
  - intros k1. transitivity (is_Some (V !! k1)).
    { rewrite lookup_insert. case_decide; subst; [|done]. split; eauto. }
    rewrite Hd, !covered_spec. split; (intros [?|(k'&x)]; [by left|]).
    + right. exists k'. rewrite lookup_insert. case_decide; [eauto|done].
    + rewrite lookup_insert in x. case_decide as E; [|right; by exists k'].
      apply Hd, covered_spec in Hk as [Hk|(k2&Hk)].
      * left. subst k. by destruct k1.
      * right. exists (k' ++ k2). by rewrite app_assoc, <- E.
Qed.

(** The nodes below [k] for the bytes of [rest]. *)
Lemma new_values_keep W k2 rest k1 x :
  (length k1 ≤ length k2)%nat → W !! k1 = Some x → new_values W k2 rest !! k1 = Some x.
Proof.
  revert W k2. induction rest as [|c rest IH]; intros W k2 Hl HW; simpl; [done|].
  apply IH; [rewrite length_app; lia|]. rewrite lookup_insert_ne; [done|].
  intros <-. rewrite length_app in Hl. simpl in Hl. lia.
Qed.
Lemma new_values_in V k rest q :
  q ≠ [] → q `prefix_of` rest → new_values V k rest !! (k ++ q) = Some (0, 0, false).
Proof.
  revert V k q. induction rest as [|c rest IH]; intros V k q Hq Hpre.
  { by apply prefix_nil_inv in Hpre. }
  destruct q as [|c' q]; [done|]. pose proof (prefix_cons_inv_1 _ _ _ _ Hpre) as ->.
  apply prefix_cons_inv_2 in Hpre. simpl. rewrite cons_middle, app_assoc.
  destruct q as [|c' q]; [|by apply IH]. rewrite app_nil_r.
  apply new_values_keep; [done|]. by rewrite lookup_insert_eq.
Qed.
Lemma new_values_out V k rest k1 :
  (∀ q, q ≠ [] → q `prefix_of` rest → k1 ≠ k ++ q) → new_values V k rest !! k1 = V !! k1.
Proof.
  revert V k. induction rest as [|c rest IH]; intros V k Hk; [done|]. simpl. rewrite IH.
  - rewrite lookup_insert_ne; [done|]. intros E. apply (Hk [c]); [done| |done].
    apply prefix_cons, prefix_nil.
  - intros q Hq Hpre E. apply (Hk (c :: q)); [done|by apply prefix_cons|].
    by rewrite E, <- app_assoc.
Qed.

Lemma prefix_app_cases (a b l : cstr) :
  a `prefix_of` b ++ l → a `prefix_of` b ∨ ∃ q, q ≠ [] ∧ q `prefix_of` l ∧ a = b ++ q.
Proof.
  revert a. induction b as [|x b IH]; intros a Ha; simpl in *.
  - destruct a as [|y a]; [left; apply prefix_nil|right]. by exists (y :: a).
  - destruct a as [|y a]; [left; apply prefix_nil|].
    pose proof (prefix_cons_inv_1 _ _ _ _ Ha) as ->. apply prefix_cons_inv_2 in Ha.
    destruct (IH a Ha) as [?|(q&?&?&->)]; [left; by apply prefix_cons|right; eauto].
Qed.

Lemma vals_extend V m pre rest v s :
  vals V m → is_Some (V !! pre) → v ≠ 0 →
  (∀ q, q ≠ [] → q `prefix_of` rest → V !! (pre ++ q) = None) →
  vals (<[pre ++ rest := (v, s, false)]> (new_values V pre rest)) (<[pre ++ rest := (v, s)]> m).
Proof.
  intros Hva Hpre Hv0 Hnew. destruct rest as [|c rest'].
  { rewrite app_nil_r. simpl. by apply vals_update. }
  set (rest := c :: rest') in *. pose proof Hva as [Hv Hd].
  assert (∀ k1, is_Some (new_values V pre rest !! k1) ↔
    is_Some (V !! k1) ∨ ∃ q, q ≠ [] ∧ q `prefix_of` rest ∧ k1 = pre ++ q) as Hdom.
  { intros k1. destruct (decide (Exists (λ n, k1 = pre ++ take n rest) (seq 1 (length rest))))
      as [E|E].
    - apply Exists_exists in E as (n&Hn&->). apply elem_of_seq in Hn.
      assert (take n rest ≠ []) as Hne by (intros E; apply (f_equal length) in E;
        rewrite length_take in E; simpl in E; lia).
      rewrite new_values_in by (done || apply prefix_take). split; [|eauto].
      intros _. right. exists (take n rest). split_and!; [done|apply prefix_take|done].
    - assert (∀ q, q ≠ [] → q `prefix_of` rest → k1 ≠ pre ++ q) as Hno.
      { intros q Hq [l Hl] ->. apply E, Exists_exists. exists (length q). split.
        - apply elem_of_seq. rewrite Hl, length_app. destruct q; [done|simpl; lia].
        - by rewrite Hl, take_app_length. }
      rewrite new_values_out by done. split; [auto|]. intros [?|(q&?&?&?)]; [done|].
      exfalso. by eapply Hno. }
  split.
  - intros k1 v1 s1 b1. rewrite !lookup_insert. case_decide as E.
    { intros [= <- <- <-]. by rewrite (proj2 (Z.eqb_neq v 0)). }
    intros Hk1. assert (is_Some (new_values V pre rest !! k1)) as [Hin|(q&Hq&Hqr&->)]%Hdom by eauto.
    + rewrite new_values_out in Hk1; [by apply Hv|]. intros q Hq Hqr ->.
      rewrite Hnew in Hin by done. by destruct Hin.
    + rewrite new_values_in in Hk1 by done. simplify_eq. split_and!; [done| |done].
      destruct (m !! (pre ++ q)) as [[v2 s2]|] eqn:Em; [|done].
      apply (vals_some _ _ _ _ _ Hva) in Em as [Em _]. by rewrite Hnew in Em.
  - intros k1. rewrite lookup_insert, covered_spec.
    transitivity (k1 = pre ++ rest ∨ is_Some (new_values V pre rest !! k1)).
    { case_decide; [|naive_solver]. split; eauto. }
    rewrite Hdom, Hd, covered_spec. split.
    + intros [->|[[?|(k'&Hk')]|(q&Hq&[l Hl]&->)]]; [|by left| |].
      * right. exists []. rewrite app_nil_r, lookup_insert_eq. eauto.
      * right. exists k'. rewrite lookup_insert. case_decide; [eauto|done].
      * right. exists l. rewrite <- app_assoc, <- Hl, lookup_insert_eq. eauto.
    + intros [->|(k'&Hk')]; [right; left; by left|]. rewrite lookup_insert in Hk'.
      case_decide as E; [|right; left; right; eauto].
      assert (k1 `prefix_of` pre ++ rest) as [Hp|?]%prefix_app_cases by (by exists k'); [|eauto].
      right; left. destruct Hp as [l ->]. apply Hd, covered_spec in Hpre as [Hpre|(k2&Hk2)].
      * left. by destruct k1.
      * right. exists (l ++ k2). by rewrite app_assoc.
Qed.

(** The strings that have a node; a trie for [m] has [nodes m] of them. *)
Definition strings (m : gmap cstr (Z * Z)) : gset cstr :=
  list_to_set ([] :: (map_to_list m ≫= λ kv, (λ n, take n kv.1) <$> seq 0 (S (length kv.1)))).
Definition nodes (m : gmap cstr (Z * Z)) : Z := Z.of_nat (size (strings m)).

Lemma elem_of_strings m k : k ∈ strings m ↔ covered m k.
Proof.
  unfold strings. rewrite elem_of_list_to_set, elem_of_cons, list_elem_of_bind, covered_spec.
  f_equiv. split.
  - intros ([k1 v]&Hk&Hin). apply list_elem_of_fmap in Hk as (n&->&_).
    apply elem_of_map_to_list in Hin. exists (drop n k1). simpl. rewrite take_drop. eauto.
  - intros (k'&v&Hv). exists (k ++ k', v). split; [|by apply elem_of_map_to_list].
    apply list_elem_of_fmap. exists (length k). unfold fst. rewrite take_app_length. split; [done|].
    apply elem_of_seq. rewrite length_app. lia.
Qed.
Lemma vals_size V m : vals V m → nodes m = Z.of_nat (size V).
Proof.
  intros [_ Hd]. unfold nodes. rewrite <- size_dom. do 2 f_equal. apply set_eq. intros k.
  by rewrite elem_of_strings, elem_of_dom, Hd.
Qed.

Lemma new_values_size V k rest :
  (∀ q, q ≠ [] → q `prefix_of` rest → V !! (k ++ q) = None) →
  size (new_values V k rest) = (size V + length rest)%nat.
Proof.
  revert V k. induction rest as [|c rest IH]; intros V k Hnew; simpl; [lia|].
  rewrite IH.
  - rewrite map_size_insert_None; [lia|]. apply Hnew; [done|]. apply prefix_cons, prefix_nil.
  - intros q Hq Hpre. rewrite <- app_assoc, lookup_insert_ne.
    + apply (Hnew (c :: q)); [done|by apply prefix_cons].
    + intros E%(f_equal length). rewrite !length_app in E. simpl in E.
      destruct q; [done|simpl in E; lia].
Qed.

(** ** Operations *)

(** The trie [t] holds the map [m]; [b] bounds its counters: [tr_count] may be
    less than the number of values (see [trie_count_drifts]). *)
Record trie_at (cb : bool) (b : Z) (m : gmap cstr (Z * Z)) (t : trie_t)
    (N : gmap Z trie_node_t) (h : heap) (P : gmap cstr Z) (V : gmap cstr (Z * Z * bool)) : Prop := {
  ta_rep : trep N (tr_root t) P V;
  ta_vals : vals V m;
  ta_fresh : fresh N h;
  ta_cb : tr_free_value_cb t = cb;
  ta_nodes : tr_node_count t = nodes m - 1;
  ta_count : Z.of_nat (size m) - b ≤ tr_count t ≤ b;
  ta_bound : tr_node_count t ≤ b
}.

Definition trie_in (cb : bool) (b : Z) (w : tworld) (m : gmap cstr (Z * Z)) : Prop :=
  ∃ t P V, tw_trie w = Some t ∧ trie_at cb b m t (tw_nodes w) (tw_heap w) P V.

Lemma trie_find_internal_returns cb b m t N h f P V key Q :
  trie_at cb b m t N h P V → Forall char key →
  Q (default 0 (P !! key), mk_tworld (Some t) N h f) →
  returns (trie_find_internal key (mk_tworld (Some t) N h f)) Q.
Proof.
  intros Ha Hk HQ. unfold trie_find_internal. go.
  pose proof (ta_rep _ _ _ _ _ _ _ _ Ha) as Hr.
  eapply (find_from_returns _ _ _ _ _ _ _ []); [exact Hr|by eapply tp_root|done|done].
Qed.

(** What is found at a string. *)
Lemma trie_at_node cb b m t N h P V key :
  trie_at cb b m t N h P V →
  (¬ covered m key ∧ P !! key = None ∧ m !! key = None) ∨
  (covered m key ∧ ∃ p n, P !! key = Some p ∧ p ≠ 0 ∧ N !! p = Some n ∧
     tn_is_copy n = false ∧ V !! key = Some (tn_value n, tn_vsize n, false) ∧
     match m !! key with
     | Some (v, s) => tn_value n = v ∧ tn_vsize n = s ∧ v ≠ 0
     | None => tn_value n = 0 ∧ tn_vsize n = 0
     end).
Proof.
  intros [Hr Hva _ _ _ _ _]. destruct (decide (covered m key)) as [Hc|Hc]; [right|left]; (split; [done|]).
  - pose proof Hc as Hp. apply (va_dom _ _ Hva), (trep_P_V _ _ _ _ _ Hr) in Hp as [p Hp].
    destruct (tp_node _ _ _ _ Hr _ _ Hp) as (Hp0&n&Hn&HV&_). exists p, n.
    destruct (va_val _ _ Hva _ _ _ _ HV) as (E&Em&Es). rewrite E in *. split_and!; try done.
    rewrite Em. destruct (Z.eqb_spec (tn_value n) 0); auto.
  - assert (V !! key = None) as HV.
    { destruct (V !! key) eqn:E; [|done]. destruct Hc. apply (va_dom _ _ Hva). eauto. }
    split.
    + destruct (P !! key) eqn:E; [|done]. assert (is_Some (V !! key)) as [? ?]; [|congruence].
      apply (trep_P_V _ _ _ _ _ Hr). eauto.
    + destruct (m !! key) as [[v s]|] eqn:E; [|done].
      apply (vals_some _ _ _ _ _ Hva) in E as [E _]. congruence.
Qed.

Definition tfreed (cb : bool) (m : gmap cstr (Z * Z)) (key : cstr) : list Z :=
  match m !! key with Some (v, _) => if cb then [v] else [] | None => [] end.

Lemma store_value_returns t N h f p n v s Q :
  N !! p = Some n → tn_is_copy n = false →
  Q (tt, mk_tworld (Some t) (<[p := node_value v s false n]> N) h
           (f ++ if tn_value n =? 0 then [] else if tr_free_value_cb t then [tn_value n] else [])) →
  returns (trie_node_set_value p v s false (mk_tworld (Some t) N h f)) Q.
Proof.
  intros Hn Hcp HQ. unfold trie_node_set_value. go. eapply returns_load_node; [done|]. go.
  apply returns_load_trie. rewrite Hcp. destruct (tn_value n =? 0).
  - go. eapply returns_set_node; [done|]. by rewrite app_nil_r in HQ.
  - destruct (tr_free_value_cb t); go; (eapply returns_set_node; [done|]);
      rewrite ?app_nil_r in HQ; exact HQ.
Qed.

Lemma fresh_insert N h p n n' : fresh N h → N !! p = Some n → fresh (<[p := n']> N) h.
Proof.
  intros [Hfn ? ?] Hn. split; try done. intros q x. rewrite lookup_insert.
  case_decide; subst; [intros _; by eapply Hfn|apply Hfn].
Qed.

Lemma size_insert_le {A} (m : gmap cstr A) k x : (size (<[k := x]> m) ≤ size m + 1)%nat.
Proof.
  destruct (m !! k) eqn:E.
  - rewrite map_size_insert_Some by (by eexists). lia.
  - rewrite map_size_insert_None by done. lia.
Qed.

Lemma nodes_pos m : 0 < nodes m.
Proof.
  unfold nodes. assert ([] ∈ strings m) as H by (apply elem_of_strings; by left).
  destruct (size (strings m)) eqn:E; [|lia]. apply size_empty_inv in E. set_solver.
Qed.

(** A reference is stored at a node that exists. *)
Lemma set_value_returns_at cb b m t N h f P V key p v s Q :
  trie_at cb b m t N h P V → P !! key = Some p → v ≠ 0 →
  (∀ N', trie_at cb (b + 1) (<[key := (v, s)]> m) t N' h P (<[key := (v, s, false)]> V) →
     nodes (<[key := (v, s)]> m) = nodes m →
     Q (tt, mk_tworld (Some t) N' h (f ++ tfreed cb m key))) →
  returns (trie_node_set_value p v s false (mk_tworld (Some t) N h f)) Q.
Proof.
  intros Ha Hp Hv HQ.
  destruct (trie_at_node _ _ _ _ _ _ _ _ key Ha) as [(_&?&_)|(_&p'&n&Hp'&Hp0&Hn&Hcp&HV&Hm)];
    [congruence|]. rewrite Hp in Hp'. simplify_eq.
  pose proof Ha as [Hr Hva Hf Hcb Hnc ? ?].
  pose proof (size_insert_le m key (v, s)) as Hsz.
  assert (vals (<[key := (v, s, false)]> V) (<[key := (v, s)]> m)) as Hva'
    by (apply vals_update; [done|by eexists|done]).
  assert (nodes (<[key := (v, s)]> m) = nodes m) as Hno.
  { rewrite (vals_size _ _ Hva), (vals_size _ _ Hva').
    by rewrite map_size_insert_Some by (by eexists). }
  eapply store_value_returns; [done|done|]. rewrite Hcb.
  replace (if tn_value n =? 0 then [] else if cb then [tn_value n] else []) with (tfreed cb m key).
  - apply HQ; [|done]. split; try done; try lia.
    + by apply trep_value.
    + by eapply fresh_insert.
  - unfold tfreed. destruct (m !! key) as [[v0 s0]|].
    + destruct Hm as (->&_&Hv0). by rewrite (proj2 (Z.eqb_neq v0 0)).
    + by destruct Hm as [-> _].
Qed.

(** What [trie_insert] knows after its first loop. *)
Record stopped (V : gmap cstr (Z * Z * bool)) (pre rest : cstr) : Prop := {
  st_pre : is_Some (V !! pre);
  st_new : ∀ q, q ≠ [] → q `prefix_of` rest → V !! (pre ++ q) = None
}.

Lemma stopped_intro N root P V pre rest q :
  trep N root P V → P !! pre = Some q → (∀ c r, rest = c :: r → P !! (pre ++ [c]) = None) →
  stopped V pre rest.
Proof.
  intros Hr Hq Hnew. split; [apply (trep_P_V _ _ _ _ _ Hr); eauto|].
  intros [|c l] Hl [r ->]; [done|]. destruct (V !! (pre ++ c :: l)) eqn:E; [|done].
  assert (is_Some (P !! (pre ++ c :: l))) as Hs by (apply (trep_P_V _ _ _ _ _ Hr); eauto).
  rewrite cons_middle, app_assoc in Hs. apply (trep_prefix _ _ _ _ _ _ Hr) in Hs as [x Hx].
  by rewrite (Hnew c _ eq_refl) in Hx.
Qed.

(** The new leaf gets its value. *)
Lemma new_leaf_at cb b m t N h P V pre rest q N1 h1 P1 n v s :
  trie_at cb b m t N h P V → stopped V pre rest → rest ≠ [] → v ≠ 0 →
  trep N1 (tr_root t) P1 (new_values V pre rest) → fresh N1 h1 →
  P1 !! (pre ++ rest) = Some q → N1 !! q = Some n →
  nodes (<[pre ++ rest := (v, s)]> m) = nodes m + Z.of_nat (length rest) ∧
  trie_at cb (b + Z.of_nat (length (pre ++ rest))) (<[pre ++ rest := (v, s)]> m)
    (mk_trie (tr_count t + 1) (tr_node_count t + Z.of_nat (length rest)) (tr_root t)
       (tr_free_value_cb t))
    (<[q := node_value v s false n]> N1) h1 P1
    (<[pre ++ rest := (v, s, false)]> (new_values V pre rest)).
Proof.
  intros [Hr Hva Hf Hcb Hnc Hc Hb] [Hpre Hnew] Hne Hv Hr1 Hf1 Hq Hn.
  assert (0 < Z.of_nat (length rest)) by (destruct rest; [done|simpl; lia]).
  pose proof (size_insert_le m (pre ++ rest) (v, s)) as Hsz.
  pose proof (vals_extend _ _ _ _ v s Hva Hpre Hv Hnew) as Hva'.
  assert (nodes (<[pre ++ rest := (v, s)]> m) = nodes m + Z.of_nat (length rest)) as Hno.
  { rewrite (vals_size _ _ Hva), (vals_size _ _ Hva').
    rewrite map_size_insert_Some by (apply (trep_P_V _ _ _ _ _ Hr1); eauto).
    rewrite new_values_size by done. lia. }
  split; [done|]. rewrite length_app. split; simpl; try done; try lia.
  - by apply trep_value.
  - by eapply fresh_insert.
Qed.

Lemma trie_at_mono cb b b' m t N h P V :
  trie_at cb b m t N h P V → b ≤ b' → trie_at cb b' m t N h P V.
Proof. intros [] ?. split; try done; lia. Qed.

Lemma trie_insert_returns cb b m t N h f P V key v s Q :
  trie_at cb b m t N h P V → Forall char key → v ≠ 0 → b + Z.of_nat (length key) < INT_MAX →
  (∀ t' N' h' P' V',
     trie_at cb (b + Z.of_nat (length key) + 1) (<[key := (v, s)]> m) t' N' h' P' V' →
     hp h' = hp h →
     Q (nodes (<[key := (v, s)]> m) - nodes m,
        mk_tworld (Some t') N' h' (f ++ tfreed cb m key))) →
  returns (trie_insert key v s false (mk_tworld (Some t) N h f)) Q.
Proof.
  intros Ha Hk Hv Hb HQ. pose proof Ha as [Hr Hva Hfr Hcb Hnc Hc Hbd].
  unfold trie_insert. go. apply returns_load_trie. go.
  eapply (descend_returns _ _ _ _ _ _ _ []); [exact Hr|by eapply tp_root|done|].
  intros pre rest q -> Hq Hnew. simpl in Hq, Hnew. apply Forall_app in Hk as [Hk1 Hk2]. go.
  pose proof (stopped_intro _ _ _ _ _ _ _ Hr Hq Hnew) as Hst. pose proof (nodes_pos m).
  rewrite length_app, Nat2Z.inj_add in Hb.
  eapply create_path_returns; [exact Hr|done|exact Hq|done|exact Hnew|done|lia|].
  intros N1 h1 P1 q1 Hr1 Hf1 Hh1 Hq1. rewrite Z.add_0_l. go.
  assert (q1 ≠ 0) as Hq0 by (by eapply trep_nonnull).
  destruct (decide (rest = [])) as [->|Hne].
  - rewrite app_nil_r in *. simpl length. rewrite Z.eqb_refl. go.
    rewrite (proj2 (Z.eqb_neq q1 0)) by done. go.
    eapply (set_value_returns_at cb b m _ N1 h1); [by split|exact Hq1|done|].
    intros N2 Ha2 Hno. go. rewrite Hno, Z.sub_diag in HQ. eapply HQ; [|done].
    eapply trie_at_mono; [exact Ha2|lia].
  - assert (0 < Z.of_nat (length rest)) by (destruct rest; [done|simpl; lia]).
    rewrite (proj2 (Z.eqb_neq _ 0)) by lia.
    destruct (tp_node _ _ _ _ Hr1 _ _ Hq1) as (_&n1&Hn1&Hv1&_).
    assert (tfreed cb m (pre ++ rest) = []) as Hno_free.
    { unfold tfreed. destruct (m !! (pre ++ rest)) as [[v0 s0]|] eqn:E; [|done].
      apply (vals_some _ _ _ _ _ Hva) in E as [E _]. by rewrite (st_new _ _ _ Hst) in E. }
    rewrite new_values_in in Hv1 by done. injection Hv1 as Ev Es Ec.
    go. apply returns_add_count; [int_bounds; lia|]. simpl.
    apply returns_add_node_count; [int_bounds; simpl; lia|]. simpl.
    rewrite (proj2 (Z.eqb_neq q1 0)) by done. go.
    eapply store_value_returns; [exact Hn1|done|].
    rewrite <- Ev, Z.eqb_refl. go. rewrite <- Hno_free.
    destruct (new_leaf_at _ _ _ _ _ _ _ _ _ _ _ _ _ _ _ v s Ha Hst Hne Hv Hr1 Hf1 Hq1 Hn1)
      as [Hno Ha'].
    replace (Z.of_nat (length rest)) with (nodes (<[pre ++ rest := (v, s)]> m) - nodes m) by lia.
    eapply HQ; [|done]. eapply trie_at_mono; [|by apply Z.le_succ_diag_r]. rewrite Hno.
    replace (nodes m + _ - nodes m) with (Z.of_nat (length rest)) by lia. exact Ha'.
Qed.
