(* ===== verification/TrieRemove.v ===== *)
(** * Removal from a trie

    [trie_node_destroy] of src/src/trie.c frees the nodes of a subtree and the
    ancestors that hold nothing else; [trie_remove] on the representation of
    TrieMap. *)

From S2P Require Import Prelude Linklist Trie TrieMap.

(** ** Parts of a map of strings *)

Definition sub {A} (k : cstr) (M : gmap cstr A) : gmap cstr A :=
  filter (λ x, k `prefix_of` x.1) M.
Definition cut {A} (k : cstr) (M : gmap cstr A) : gmap cstr A :=
  filter (λ x, ¬ k `prefix_of` x.1) M.

Lemma lookup_sub {A} (k : cstr) (M : gmap cstr A) (k1 : cstr) :
  sub k M !! k1 = if decide (k `prefix_of` k1) then M !! k1 else None.
Proof. unfold sub. rewrite map_lookup_filter. destruct (M !! k1); simpl; try case_guard; by repeat case_decide. Qed.
Lemma lookup_cut {A} (k : cstr) (M : gmap cstr A) (k1 : cstr) :
  cut k M !! k1 = if decide (k `prefix_of` k1) then None else M !! k1.
Proof.
  unfold cut. rewrite map_lookup_filter. destruct (M !! k1); simpl; try case_guard;
  by repeat case_decide.
Qed.
Lemma lookup_cut_Some {A} (k : cstr) (M : gmap cstr A) (k1 : cstr) x :
  cut k M !! k1 = Some x ↔ M !! k1 = Some x ∧ ¬ k `prefix_of` k1.
Proof. rewrite lookup_cut. case_decide; naive_solver. Qed.

(** The values below [k]. *)
Definition val_of (x : cstr * (Z * Z * bool)) : Z := x.2.1.1.
Definition values_below (k : cstr) (V : gmap cstr (Z * Z * bool)) : list Z :=
  filter (λ v, v ≠ 0) (val_of <$> map_to_list (sub k V)).

Lemma sub_split {A} (k k' : cstr) (M : gmap cstr A) :
  k `prefix_of` k' → sub k M = sub k' M ∪ sub k (cut k' M) ∧ sub k' M ##ₘ sub k (cut k' M).
Proof.
  intros Hk. split.
  - apply map_eq. intros k1. rewrite lookup_union, !lookup_sub, lookup_cut.
    repeat case_decide; try by destruct (M !! k1). by destruct H; etrans.
  - apply map_disjoint_spec. intros k1 x y. rewrite !lookup_sub, lookup_cut. by repeat case_decide.
Qed.
Lemma sub_split_size {A} (k k' : cstr) (M : gmap cstr A) :
  k `prefix_of` k' → size (sub k M) = (size (sub k' M) + size (sub k (cut k' M)))%nat.
Proof. intros [-> Hd]%(sub_split k k' M). by apply map_size_disj_union. Qed.
Lemma map_to_list_disj_union {A} (M1 M2 : gmap cstr A) :
  M1 ##ₘ M2 → map_to_list (M1 ∪ M2) ≡ₚ map_to_list M1 ++ map_to_list M2.
Proof.
  intros Hd. apply NoDup_Permutation.
  - apply NoDup_map_to_list.
  - apply NoDup_app. split_and!; [apply NoDup_map_to_list| |apply NoDup_map_to_list].
    intros [k x] H1%elem_of_map_to_list H2%elem_of_map_to_list.
    by eapply (map_disjoint_spec M1 M2).
  - intros [k x]. rewrite elem_of_app, !elem_of_map_to_list.
    rewrite lookup_union_Some by done. done.
Qed.
Lemma values_split k k' V :
  k `prefix_of` k' → values_below k V ≡ₚ values_below k' V ++ values_below k (cut k' V).
Proof.
  intros [E Hd]%(sub_split k k' V). unfold values_below. rewrite E.
  by rewrite map_to_list_disj_union, fmap_app, filter_app by done.
Qed.

Lemma prefix_snoc_inv (k l : cstr) i c : k ++ [i] `prefix_of` k ++ c :: l ↔ c = i.
Proof.
  split; [|intros ->; exists l; by rewrite <- app_assoc].
  intros H%prefix_app_inv. by apply prefix_cons_inv_1 in H.
Qed.

(** ** A subtree *)

(** The nodes [P] of the strings that begin with [k], whatever the parent of
    the node of [k]. *)
Record subtree (N : gmap Z trie_node_t) (k : cstr) (P : gmap cstr Z)
    (V : gmap cstr (Z * Z * bool)) : Prop := {
  sb_inj : ∀ l1 l2 p, P !! (k ++ l1) = Some p → P !! (k ++ l2) = Some p → l1 = l2;
  sb_node : ∀ l p, P !! (k ++ l) = Some p → p ≠ 0 ∧ ∃ n, N !! p = Some n ∧
    V !! (k ++ l) = Some (tn_value n, tn_vsize n, false) ∧ tn_is_copy n = false ∧
    tn_num_children n = nchild P (k ++ l) ∧
    (∀ c, 0 ≤ c < 256 → default 0 (tn_child n !! c) = default 0 (P !! (k ++ l ++ [c])));
  sb_prefix : ∀ l c, is_Some (P !! (k ++ l ++ [c])) → char c ∧ is_Some (P !! (k ++ l));
  sb_dom : ∀ l, is_Some (V !! (k ++ l)) → is_Some (P !! (k ++ l))
}.

Lemma trep_subtree N root P V k :
  trep N root P V → (∀ k v s b, V !! k = Some (v, s, b) → b = false) → subtree N k P V.
Proof.
  intros Ht Hb. split.
  - intros l1 l2 p H1 H2. by eapply app_inv_head, (tp_inj _ _ _ _ Ht).
  - intros l p Hp. destruct (tp_node _ _ _ _ Ht _ _ Hp) as (Hp0&n&Hn&Hv&Hc&Hch&_).
    split; [done|]. exists n. pose proof (Hb _ _ _ _ Hv) as E. rewrite E in Hv.
    split_and!; try done. intros c Hc'. by rewrite Hch, app_assoc.
  - intros l c [p Hp]. rewrite app_assoc in Hp. by eapply trep_parent.
  - intros l. apply (tp_dom _ _ _ _ Ht).
Qed.

(** The subtree depends on its own nodes, and not on their parents. *)
Lemma subtree_below N k P V l :
  subtree N k P V → subtree N (k ++ l) P V.
Proof.
  intros [Hi Hn Hp Hd]. split; setoid_rewrite <- app_assoc.
  - intros l1 l2 p H1 H2. by eapply app_inv_head, Hi.
  - intros l1 p Hp1. destruct (Hn _ _ Hp1) as (?&n&?). split; [done|]. exists n.
    by setoid_rewrite <- app_assoc in H0.
  - intros l1 c. specialize (Hp (l ++ l1) c). by rewrite <- app_assoc in Hp.
  - intros l1. apply Hd.
Qed.
Definition down (n : trie_node_t) :=
  (tn_value n, tn_vsize n, tn_is_copy n, tn_num_children n, tn_child n).

Lemma subtree_down N N' k P V :
  subtree N k P V → (∀ l p, P !! (k ++ l) = Some p → down <$> N' !! p = down <$> N !! p) →
  subtree N' k P V.
Proof.
  intros [Hi Hn Hp Hd] HN. split; try done. intros l p Hlp.
  destruct (Hn _ _ Hlp) as (?&n&Hnp&?). split; [done|].
  pose proof (HN _ _ Hlp) as E. rewrite Hnp in E. destruct (N' !! p) as [n'|]; [|done].
  injection E as E1 E2 E3 E4 E5. exists n'. by rewrite E1, E2, E3, E4, E5.
Qed.

(** ** Children of a node *)

Lemma char_range c : char c → 0 ≤ c < 256.
Proof. unfold char. lia. Qed.

Lemma nchild_cut P k i k1 :
  ¬ (k ++ [i]) `prefix_of` k1 → k1 ≠ k → nchild (cut (k ++ [i]) P) k1 = nchild P k1.
Proof.
  intros Hk Hne. unfold nchild. do 2 f_equal. apply list_filter_iff. intros c.
  rewrite lookup_cut. case_decide as E; [|done]. destruct E as [l E].
  destruct l as [|x l _] using rev_ind.
  - rewrite app_nil_r in E. by apply snoc_inj in E as [-> _].
  - rewrite app_assoc in E. apply snoc_inj in E as [-> _]. destruct Hk. by eexists.
Qed.

Lemma nchild_cut_child P k i :
  char i → is_Some (P !! (k ++ [i])) → nchild P k = nchild (cut (k ++ [i]) P) k + 1.
Proof.
  intros Hi Hs. unfold nchild.
  rewrite (length_filter_add (λ c, is_Some (cut (k ++ [i]) P !! (k ++ [c]))) _ _ i); [lia| | | |].
  - apply NoDup_seqZ.
  - apply elem_of_seqZ. unfold char in Hi. lia.
  - rewrite lookup_cut, decide_True by done. by intros [? ?].
  - intros c. rewrite lookup_cut. case_decide as E.
    + apply prefix_snoc_inv in E as ->. split; auto.
    + split; [auto|]. intros [?| ->]; done.
Qed.

Lemma nchild_leaf P k : (∀ c, char c → P !! (k ++ [c]) = None) → nchild P k = 0.
Proof.
  intros Hc. unfold nchild. rewrite (filter_ext_in _ (λ _, False)).
  - induction (seqZ 1 127) as [|x l IH]; [done|]. by rewrite filter_cons_False by tauto.
  - intros c [??]%elem_of_seqZ. rewrite Hc by (unfold char; lia). split; [by intros [? ?]|done].
Qed.

(** The child [i] of the node of [k] is gone. *)
Lemma subtree_cut N N' k P V p n i c :
  subtree N k P V → P !! k = Some p → N !! p = Some n → P !! (k ++ [i]) = Some c →
  (∀ q, q ≠ p → (∀ l, P !! ((k ++ [i]) ++ l) ≠ Some q) → N' !! q = N !! q) →
  N' !! p = Some (node_num_children (tn_num_children n + -1) (node_child i 0 n)) →
  subtree N' k (cut (k ++ [i]) P) (cut (k ++ [i]) V).
Proof.
  intros Hs Hp Hn Hc HN HNp. pose proof Hs as [Hin Hno Hpre Hdo].
  rewrite <- (app_nil_r k) in Hp.
  destruct (Hpre [] i) as [Hi _]; [by eexists|]. split.
  - intros l1 l2 q [H1 _]%lookup_cut_Some [H2 _]%lookup_cut_Some. by eapply Hin.
  - intros l q [Hq Hnp]%lookup_cut_Some. destruct (Hno _ _ Hq) as (Hq0&nq&Hnq&HVq&Hcp&Hnum&Hch).
    split; [done|]. destruct (decide (l = [])) as [->|Hl].
    + rewrite Hq in Hp. simplify_eq. rewrite app_nil_r in *. eexists. split; [done|].
      simpl. split_and!; [|done| |].
      * by rewrite lookup_cut, decide_False.
      * rewrite Hnum, (nchild_cut_child P k i) by (done || eauto). lia.
      * intros c1 Hc1. rewrite lookup_cut. destruct (decide (c1 = i)) as [->|Hci].
        -- by rewrite lookup_insert_eq, decide_True.
        -- rewrite lookup_insert_ne by done. rewrite decide_False; [by apply (Hch c1)|].
           by intros ?%prefix_snoc_inv.
    + assert (q ≠ p) by (intros ->; apply Hl; by eapply Hin).
      exists nq. split.
      { rewrite HN; [done|done|]. intros l' E. rewrite <- app_assoc in E.
        apply Hnp. apply (Hin _ _ _ Hq) in E as ->. exists l'. by rewrite <- app_assoc. }
      assert (k ++ l ≠ k) by (intros E; apply Hl; apply (app_inv_head k); by rewrite app_nil_r).
      split_and!; [by rewrite lookup_cut, decide_False|done|by rewrite nchild_cut|].
      intros c1 Hc1. rewrite lookup_cut, decide_False; [by apply Hch|].
      intros E. rewrite app_assoc in E. apply prefix_app_cases in E as [E|(r&Hr&Hrp&E)]; [done|].
      destruct r as [|x r]; [done|]. pose proof (prefix_cons_inv_1 _ _ _ _ Hrp) as ->.
      apply prefix_cons_inv_2, prefix_nil_inv in Hrp as ->.
      apply snoc_inj in E as [? _]. congruence.
  - intros l c1 [q [Hq Hnp]%lookup_cut_Some]. destruct (Hpre l c1) as [? [q' Hq']]; [by eexists|].
    split; [done|]. exists q'. apply lookup_cut_Some. split; [done|].
    intros E. apply Hnp. rewrite app_assoc. by apply prefix_app_r.
  - intros l [x [Hx Hnp]%lookup_cut_Some]. destruct (Hdo l) as [q Hq]; [by eexists|].
    exists q. by apply lookup_cut_Some.
Qed.

(** A node without children is the whole subtree. *)
Lemma sub_leaf N k P V p n :
  subtree N k P V → P !! k = Some p → N !! p = Some n → (∀ c, 0 ≤ c < 256 → P !! (k ++ [c]) = None) →
  sub k P = {[k := p]} ∧ sub k V = {[k := (tn_value n, tn_vsize n, false)]}.
Proof.
  intros [Hin Hno Hpre Hdo] Hp Hn Hc.
  assert (∀ l, l ≠ [] → P !! (k ++ l) = None) as Hnone.
  { assert (∀ c l, is_Some (P !! (k ++ c :: l)) → is_Some (P !! (k ++ [c]))) as Hup.
    { intros c l. induction l as [|x l IH] using rev_ind; [done|].
      rewrite app_comm_cons. intros [_ H]%Hpre. by apply IH. }
    assert (∀ c, P !! (k ++ [c]) = None) as Hc'.
    { intros c. destruct (P !! (k ++ [c])) eqn:E; [|done].
      destruct (Hpre [] c) as [?%char_range _]; [by eexists|]. by rewrite Hc in E. }
    intros [|c l] Hl; [done|]. destruct (P !! (k ++ c :: l)) eqn:E; [|done].
    destruct (Hup c l) as [x Hx]; [by eexists|]. by rewrite Hc' in Hx. }
  assert (V !! k = Some (tn_value n, tn_vsize n, false)) as HV.
  { rewrite <- (app_nil_r k) in Hp. destruct (Hno [] p Hp) as (_&n'&Hn'&HV&_).
    rewrite app_nil_r in HV. by simplify_eq. }
  split; apply map_eq; intros k1; rewrite lookup_sub; destruct (decide (k1 = k)) as [->|Hk].
  - by rewrite decide_True, lookup_singleton_eq.
  - rewrite lookup_singleton_ne by done. case_decide as E; [|done]. destruct E as [l ->].
    apply Hnone. intros ->. by rewrite app_nil_r in Hk.
  - by rewrite decide_True, lookup_singleton_eq.
  - rewrite lookup_singleton_ne by done. case_decide as E; [|done]. destruct E as [l ->].
    destruct (V !! (k ++ l)) eqn:EV; [|done]. destruct (Hdo l) as [x Hx]; [by eexists|].
    rewrite Hnone in Hx; [done|]. intros ->. by rewrite app_nil_r in Hk.
Qed.

(** ** Destroying a subtree *)

Definition minus (t : trie_t) (x y : nat) : trie_t :=
  mk_trie (tr_count t - Z.of_nat x) (tr_node_count t - Z.of_nat y) (tr_root t) (tr_free_value_cb t).

Lemma minus_minus t x y x' y' : minus (minus t x y) x' y' = minus t (x + x') (y + y').
Proof. unfold minus. simpl. f_equal; lia. Qed.
Lemma minus_0 t : minus t 0 0 = t.
Proof. destruct t. unfold minus. simpl. f_equal; lia. Qed.

(** The counters stay [int]s while [x] values and [y] nodes go. *)
Definition room (t : trie_t) (x y : nat) : Prop :=
  INT_MIN ≤ tr_count t - Z.of_nat x ∧ tr_count t ≤ INT_MAX ∧
  INT_MIN ≤ tr_node_count t - Z.of_nat y ∧ tr_node_count t ≤ INT_MAX.

(** The nodes of the strings [S] are freed, and no others change. *)
Definition without (N N' : gmap Z trie_node_t) (S : gmap cstr Z) : Prop :=
  ∀ q, N' !! q = if decide (map_Exists (λ _ p, p = q) S) then None else N !! q.

Lemma without_in N N' S k q : without N N' S → S !! k = Some q → N' !! q = None.
Proof. intros Hw Hk. rewrite Hw, decide_True; [done|]. by exists k, q. Qed.
Lemma without_out N N' S q : without N N' S → (∀ k, S !! k ≠ Some q) → N' !! q = N !! q.
Proof.
  intros Hw Hk. rewrite Hw, decide_False; [done|]. intros (k&p&E&->). by apply Hk in E.
Qed.

Definition freed_by (cb : bool) (vs : list Z) : list Z := if cb then vs else [].

(** Freeing the nodes of a child, unlinking it, and freeing the rest. *)
Lemma without_child N N1 N2 N3 N' k k' P p c nc n3 :
  k `prefix_of` k' → sub k' P !! k' = Some c → N1 = <[c := nc]> N → without N1 N2 (sub k' P) →
  N3 = <[p := n3]> N2 → without (delete p N3) (delete p N') (sub k (cut k' P)) →
  without (delete p N) (delete p N') (sub k P).
Proof.
  intros Hk Hc -> H12 -> H3 q. rewrite H3. destruct (sub_split k k' P Hk) as [-> _].
  destruct (decide (q = p)) as [->|Hqp].
  { rewrite !lookup_delete_eq. by repeat case_decide. }
  rewrite !lookup_delete_ne, lookup_insert_ne, H12 by done.
  assert (∀ S : gmap cstr Z, map_Exists (λ _ p, p = q) S ↔ ∃ k1, S !! k1 = Some q) as HE.
  { intros S. split; [intros (k1&?&?&->); eauto|intros [k1 ?]; by exists k1, q]. }
  destruct (decide (q = c)) as [->|Hqc].
  { rewrite (decide_True (P := map_Exists _ (sub k' P))) by (apply HE; eauto).
    rewrite (decide_True (P := map_Exists _ (_ ∪ _))); [by case_decide|].
    apply HE. exists k'. by apply lookup_union_Some_l. }
  assert (map_Exists (λ _ p, p = q) (sub k' P ∪ sub k (cut k' P)) ↔
    map_Exists (λ _ p, p = q) (sub k' P) ∨ map_Exists (λ _ p, p = q) (sub k (cut k' P))) as Hor.
  { rewrite !HE. destruct (sub_split k k' P Hk) as [_ Hd]. setoid_rewrite lookup_union_Some; [|done].
    naive_solver. }
  rewrite lookup_insert_ne by done. repeat case_decide; tauto.
Qed.

Lemma room_split t a b x y :
  room t (a + x) (b + y) → room t a b ∧ room (minus t a b) x y.
Proof. unfold room, minus. simpl. lia. Qed.

Lemma freed_by_app cb a b : freed_by cb (a ++ b) = freed_by cb a ++ freed_by cb b.
Proof. by destruct cb. Qed.
#[global] Instance freed_by_perm cb : Proper (Permutation ==> Permutation) (freed_by cb).
Proof. intros a b Hab. by destruct cb. Qed.

(** What a call of [trie_node_destroy] on a node without parent does. *)
Definition destroys (cb : bool) (depth : nat) (destroy : Z → T unit) : Prop :=
  ∀ N h f t k P V p n Q,
    subtree N k P V → P !! k = Some p → N !! p = Some n → tn_parent n = 0 →
    (∀ l, is_Some (P !! (k ++ l)) → (length l < depth)%nat) →
    room t (length (values_below k V)) (size (sub k P)) →
    (∀ N' f', without N N' (sub k P) → f' ≡ₚ freed_by cb (values_below k V) →
       Q (tt, mk_tworld (Some (minus t (length (values_below k V)) (size (sub k P)))) N' h (f ++ f'))) →
    returns (destroy p (mk_tworld (Some t) N h f)) Q.

Lemma seqZ_last (j : nat) : (j < 256)%nat →
  seqZ (256 - Z.of_nat (S j)) (Z.of_nat (S j)) =
  (256 - Z.of_nat (S j)) :: seqZ (256 - Z.of_nat j) (Z.of_nat j).
Proof. intros Hj. rewrite seqZ_cons by lia. f_equal. f_equal; lia. Qed.

Lemma get_child_subtree t N k P V p i h f Q :
  subtree N k P V → P !! k = Some p → 0 ≤ i < 256 →
  Q (default 0 (P !! (k ++ [i])), mk_tworld t N h f) →
  returns (get_child p i (mk_tworld t N h f)) Q.
Proof.
  intros Hs Hp Hi HQ. rewrite <- (app_nil_r k) in Hp.
  destruct (sb_node _ _ _ _ Hs [] p Hp) as (_&n&Hn&_&_&_&Hch).
  unfold get_child. go. eapply returns_load_node; [done|].
  rewrite (proj2 (Z.leb_le 0 i)), (proj2 (Z.ltb_lt i 256)) by lia. simpl. go. by rewrite Hch by lia.
Qed.

(** The values of the children and the value of the node. *)
Definition own (n : trie_node_t) : list Z := filter (λ v, v ≠ 0) [tn_value n].

Lemma destroy_children_returns cb depth destroy h k p j N f t P V n Q :
  destroys cb depth destroy → (j ≤ 256)%nat →
  subtree N k P V → P !! k = Some p → N !! p = Some n →
  (∀ c, 0 ≤ c < 256 - Z.of_nat j → P !! (k ++ [c]) = None) →
  (∀ l, is_Some (P !! (k ++ l)) → (length l < S depth)%nat) →
  room t (length (values_below k V)) (size (sub k P)) →
  (∀ N' n' vs f', without (delete p N) (delete p N') (sub k P) → N' !! p = Some n' →
     tn_value n' = tn_value n → tn_is_copy n' = tn_is_copy n →
     values_below k V ≡ₚ vs ++ own n → f' ≡ₚ freed_by cb vs →
     Q (tt, mk_tworld (Some (minus t (length vs) (size (sub k P) - 1))) N' h (f ++ f'))) →
  returns (destroy_children destroy p (seqZ (256 - Z.of_nat j) (Z.of_nat j))
             (mk_tworld (Some t) N h f)) Q.
Proof.
  intros Hdes. revert N f t P V n. induction j as [|j IH];
    intros N f t P V n Hj Hs Hp Hn Hnone Hdep Hroom HQ.
  { simpl. go. destruct (sub_leaf _ _ _ _ _ _ Hs Hp Hn) as [E1 E2].
    { intros c Hc. apply Hnone. lia. }
    rewrite E1, map_size_singleton in HQ. rewrite <- (app_nil_r f), <- (minus_0 t).
    eapply (HQ N n []); try done.
    - intros q. case_decide as E; [|done]. destruct E as (k1&p1&E&->).
      apply lookup_singleton_Some in E as [_ <-]. by rewrite lookup_delete_eq.
    - unfold values_below. by rewrite E2, map_to_list_singleton.
    - by destruct cb. }
  rewrite seqZ_last by lia. set (i := 256 - Z.of_nat (S j)). simpl. go.
  eapply get_child_subtree; [exact Hs|done|lia|].
  destruct (P !! (k ++ [i])) as [c|] eqn:Hc; simpl.
  2:{ go. eapply IH; try done; [lia|]. intros c Hcr.
      destruct (decide (c = i)) as [->|]; [done|]. apply Hnone. lia. }
  destruct (sb_prefix _ _ _ _ Hs [] i) as [Hi _]; [by eexists|].
  pose proof (subtree_below _ _ _ _ [i] Hs) as Hsc.
  destruct (sb_node _ _ _ _ Hs [i] c Hc) as (Hc0&nc&Hnc&_).
  pose proof (sub_split_size k (k ++ [i]) P ltac:(by eexists)) as Hsz.
  pose proof (values_split k (k ++ [i]) V ltac:(by eexists)) as Hvs.
  pose proof (Permutation_length Hvs) as Hvl. rewrite length_app in Hvl.
  rewrite Hsz, Hvl in Hroom. apply room_split in Hroom as [Hr1 Hr2].
  assert (∀ l, P !! ((k ++ [i]) ++ l) ≠ Some p) as Hpk.
  { intros l E. rewrite <- app_assoc in E. rewrite <- (app_nil_r k) in Hp.
    by apply (sb_inj _ _ _ _ Hs _ _ _ Hp) in E. }
  assert (c ≠ p) by (intros ->; apply (Hpk []); by rewrite app_nil_r).
  rewrite (proj2 (Z.eqb_neq c 0)) by done. go. eapply returns_set_node; [done|]. go.
  eapply Hdes; [eapply subtree_down; [exact Hsc|]|done|by rewrite lookup_insert_eq|done| |done|].
  { intros l q _. rewrite lookup_insert. case_decide; [subst; by rewrite Hnc|done]. }
  { intros l Hl. rewrite <- app_assoc in Hl. apply Hdep in Hl. simpl in Hl. lia. }
  intros N2 f1 HN2 Hf1. go.
  assert (∀ q, (∀ l, P !! ((k ++ [i]) ++ l) ≠ Some q) → N2 !! q = N !! q) as HN2'.
  { intros q Hq. rewrite (without_out _ _ _ _ HN2).
    - rewrite lookup_insert_ne; [done|]. intros ->. apply (Hq []). by rewrite app_nil_r.
    - intros k1. rewrite lookup_sub. case_decide as E; [|done]. destruct E as [l ->]. apply Hq. }
  pose proof (HN2' p Hpk) as HN2p. rewrite Hn in HN2p.
  eapply returns_set_child; [exact HN2p|done|]. go.
  assert (tn_num_children n = nchild P k) as Hnum.
  { rewrite <- (app_nil_r k) in Hp. destruct (sb_node _ _ _ _ Hs [] p Hp) as (_&n'&Hn'&_&_&E&_).
    rewrite app_nil_r in E. by simplify_eq. }
  pose proof (nchild_bounds P k).
  eapply returns_add_num_children; [by rewrite lookup_insert_eq|simpl; int_bounds; lia|].
  rewrite insert_insert_eq. simpl.
  set (n3 := node_num_children _ _). set (N3 := <[p := n3]> N2).
  assert (subtree N3 k (cut (k ++ [i]) P) (cut (k ++ [i]) V)) as Hs3.
  { eapply (subtree_cut N N3); [exact Hs|done|exact Hn|exact Hc| |by apply lookup_insert_eq].
    intros q Hqp Hq. unfold N3. rewrite lookup_insert_ne by done. by apply HN2'. }
  eapply IH; [lia|exact Hs3| |by apply lookup_insert_eq| | |exact Hr2|].
  - apply lookup_cut_Some. split; [done|]. apply prefix_snoc_not.
  - intros c1 Hc1. rewrite lookup_cut. case_decide as E; [done|]. apply Hnone.
    assert (c1 ≠ i); [|lia]. intros ->. by apply E.
  - intros l [q [Hq _]%lookup_cut_Some]. eauto.
  - intros N' n' vs f' Hw Hn' Hv Hcp Hvals Hf'. rewrite minus_minus, <- app_assoc.
    replace (length (values_below (k ++ [i]) V) + length vs)%nat
      with (length (values_below (k ++ [i]) V ++ vs)) by apply length_app.
    replace (size (sub (k ++ [i]) P) + (size (sub k (cut (k ++ [i]) P)) - 1))%nat
      with (size (sub k P) - 1)%nat.
    2:{ rewrite Hsz. assert (size (sub k (cut (k ++ [i]) P)) ≠ 0%nat); [|lia].
        apply map_size_non_empty_iff. intros E. apply (f_equal (lookup k)) in E.
        rewrite lookup_sub, decide_True, lookup_cut, decide_False, Hp in E; [done| |done].
        apply prefix_snoc_not. }
    eapply HQ; [|exact Hn'|exact Hv|exact Hcp| |].
    + eapply (without_child N _ N2 N3); [| |done|exact HN2|done|exact Hw].
      * by eexists.
      * by rewrite lookup_sub, decide_True.
    + by rewrite Hvs, Hvals, app_assoc.
    + by rewrite Hf1, Hf', freed_by_app.
Qed.

(** What remains of [trie_node_destroy] once the parent is dealt with. *)
Definition destroy_rest (destroy : Z → T unit) (p : Z) (cb : bool) : T unit :=
  _ ← destroy_children destroy p (seqZ 0 256);
  n ← load_node p;
  _ ← (if tn_value n =? 0 then mret tt else
       _ ← add_count (-1);
       if tn_is_copy n then in_heap (free (tn_value n))
       else if cb then call_free (tn_value n) else mret tt);
  _ ← add_node_count (-1);
  free_node p.

Lemma destroy_rest_returns cb depth destroy N h f t k P V p n Q :
  destroys cb depth destroy →
  subtree N k P V → P !! k = Some p → N !! p = Some n →
  (∀ l, is_Some (P !! (k ++ l)) → (length l < S depth)%nat) →
  room t (length (values_below k V)) (size (sub k P)) →
  (∀ N' f', without N N' (sub k P) → f' ≡ₚ freed_by cb (values_below k V) →
     Q (tt, mk_tworld (Some (minus t (length (values_below k V)) (size (sub k P)))) N' h (f ++ f'))) →
  returns (destroy_rest destroy p cb (mk_tworld (Some t) N h f)) Q.
Proof.
  intros Hdes Hs Hp Hn Hdep Hroom HQ. unfold destroy_rest. go.
  eapply (destroy_children_returns cb depth destroy h k p 256); try done.
  { intros c Hc. lia. }
  intros N1 n1 vs f1 Hw Hn1 Hv Hcp Hvals Hf1. go. eapply returns_load_node; [done|].
  assert (tn_is_copy n = false) as Hcopy.
  { rewrite <- (app_nil_r k) in Hp. destruct (sb_node _ _ _ _ Hs [] p Hp) as (_&n'&Hn'&_&E&_).
    by simplify_eq. }
  assert (size (sub k P) ≠ 0%nat) as Hsz.
  { apply map_size_non_empty_iff. intros E. apply (f_equal (lookup k)) in E.
    by rewrite lookup_sub, decide_True, Hp in E. }
  assert (without N (delete p N1) (sub k P)) as Hw'.
  { intros q. rewrite Hw. case_decide as E; [done|]. rewrite lookup_delete_ne; [done|].
    intros ->. apply E. exists k, q. split; [|done]. by rewrite lookup_sub, decide_True. }
  pose proof (Permutation_length Hvals) as Hvl. rewrite length_app in Hvl.
  rewrite Hv, Hcp, Hcopy. unfold own in *. destruct Hroom as (Hr1&Hr2&Hr3&Hr4).
  assert (∀ f2, f1 ++ f2 ≡ₚ freed_by cb (values_below k V) →
    returns (add_node_count (-1)
      (mk_tworld (Some (minus t (length (values_below k V)) (size (sub k P) - 1))) N1 h (f ++ f1 ++ f2)))
      (λ '(_, w), returns (free_node p w) Q)) as Hend.
  { intros f2 Hf2. apply returns_add_node_count; [unfold minus; simpl; int_bounds; lia|]. unfold free_node.
    go. eapply returns_load_node; [done|]. go. unfold set_nodes. simpl.
    replace (mk_trie _ _ _ _) with (minus t (length (values_below k V)) (size (sub k P))); [by apply HQ|].
    unfold minus. f_equal. lia. }
  destruct (Z.eqb_spec (tn_value n) 0) as [Ev|Ev].
  - rewrite filter_cons_False, filter_nil in * by lia. simpl in Hvl. rewrite Nat.add_0_r in Hvl.
    go. rewrite <- Hvl, <- (app_nil_r f1). apply Hend.
    by rewrite app_nil_r, Hf1, Hvals, app_nil_r.
  - rewrite filter_cons_True, filter_nil in * by done. simpl in Hvl. go.
    apply returns_add_count; [unfold minus; simpl; int_bounds; lia|].
    unfold minus at 1. simpl.
    replace (mk_trie _ _ _ _) with (minus t (length (values_below k V)) (size (sub k P) - 1))
      by (unfold minus; f_equal; lia).
    assert (f1 ++ freed_by cb [tn_value n] ≡ₚ freed_by cb (values_below k V)) as Hf2
      by (by rewrite Hf1, <- freed_by_app, Hvals).
    destruct cb; go; simpl.
    + go. rewrite <- app_assoc. by apply Hend.
    + rewrite <- (app_nil_r f1). by apply Hend.
Qed.

Definition unlink (parent pidx : Z) : T unit :=
  if parent =? 0 then mret tt else
  _ ← set_child parent pidx 0;
  add_num_children parent (-1).

Lemma trie_node_destroy_eq depth p cb :
  trie_node_destroy (S depth) p cb =
  (n ← load_node p;
   '(parent, pidx) ← loopS prune_body (tn_parent n, tn_pidx n);
   _ ← unlink parent pidx;
   destroy_rest (λ c, trie_node_destroy depth c cb) p cb).
Proof. reflexivity. Qed.

#[global] Arguments trie_node_destroy : simpl never.

Lemma trie_node_destroy_child cb depth : destroys cb depth (λ c, trie_node_destroy depth c cb).
Proof.
  induction depth as [|depth IH]; intros N h f t k P V p n Q Hs Hp Hn Hpar Hdep Hroom HQ.
  { specialize (Hdep []). rewrite app_nil_r in Hdep. exfalso. apply (Nat.nlt_0_r 0), Hdep. eauto. }
  rewrite trie_node_destroy_eq. go. eapply returns_load_node; [done|]. go. rewrite Hpar.
  unfold loopS. assert (runs (loop_body prune_body) (0, tn_pidx n, mk_tworld (Some t) N h f) 0
    ((0, tn_pidx n), mk_tworld (Some t) N h f)) as Hrun by (by constructor).
  rewrite (runs_loop _ _ _ _ Hrun) by done. go. unfold unlink. go.
  by eapply (destroy_rest_returns cb depth (λ c, trie_node_destroy depth c cb)).
Qed.

(** ** The ancestors that hold nothing else *)

Lemma sub_cut_comm {A} (k key : cstr) (M : gmap cstr A) : sub k (cut key M) = cut key (sub k M).
Proof. apply map_eq. intros k1. rewrite lookup_sub, !lookup_cut, lookup_sub. by repeat case_decide. Qed.
Lemma size_sub_cut {A} (k : cstr) (M : gmap cstr A) : size M = (size (sub k M) + size (cut k M))%nat.
Proof.
  rewrite <- map_size_disj_union.
  - f_equal. apply map_eq. intros k1. rewrite lookup_union, lookup_sub, lookup_cut.
    case_decide; by destruct (M !! k1).
  - apply map_disjoint_spec. intros k1 x y. rewrite lookup_sub, lookup_cut. by case_decide.
Qed.
Lemma size_same_dom {A B : Type} (M1 : gmap cstr A) (M2 : gmap cstr B) :
  (∀ k : cstr, is_Some (M1 !! k) ↔ is_Some (M2 !! k)) → size M1 = size M2.
Proof.
  intros H. rewrite <- !size_dom. f_equal. apply set_eq. intros k. by rewrite !elem_of_dom.
Qed.

Lemma only_child P a x c :
  nchild P a ≤ 1 → char x → char c → is_Some (P !! (a ++ [x])) → is_Some (P !! (a ++ [c])) → x = c.
Proof.
  intros Hn Hx Hc Hsx Hsc. destruct (decide (x = c)) as [|Hne]; [done|].
  rewrite (nchild_cut_child P a c) in Hn by done.
  rewrite (nchild_cut_child (cut (a ++ [c]) P) a x) in Hn; [|done|].
  - pose proof (nchild_bounds (cut (a ++ [x]) (cut (a ++ [c]) P)) a). lia.
  - rewrite lookup_cut, decide_False; [done|]. by intros ?%prefix_snoc_inv.
Qed.

(** The nodes from the child [c] of [a] down to [key], exclusive, hold nothing
    else. *)
Record pruned (P : gmap cstr Z) (V : gmap cstr (Z * Z * bool)) (key a : cstr) (c : Z) (r : cstr) :
    Prop := {
  pr_key : key = a ++ c :: r;
  pr_size : size (sub (a ++ [c]) (cut key P)) = length r;
  pr_value : ∀ k v s b, V !! k = Some (v, s, b) → (a ++ [c]) `prefix_of` k → ¬ key `prefix_of` k → v = 0
}.

Lemma pruned_refl P V a c : pruned P V (a ++ [c]) a c [].
Proof.
  split; [done| |].
  - apply map_size_empty_iff, map_eq. intros k. rewrite lookup_sub, lookup_cut, lookup_empty.
    by repeat case_decide.
  - intros k v s b _ H1 H2. done.
Qed.

(** The ancestor [a] itself, between its child and [key]. *)
Lemma between_step N root P V key a c r p :
  trep N root P V → pruned P V key a c r → P !! a = Some p → is_Some (P !! key) →
  nchild P a ≤ 1 → sub a (cut key P) = <[a := p]> (sub (a ++ [c]) (cut key P)).
Proof.
  intros Ht [Hkey _ _] Hp Hs Hn. apply map_eq. intros k. rewrite lookup_insert.
  assert (¬ key `prefix_of` a) as Hka.
  { intros [l E]. apply (f_equal length) in E. subst key. rewrite !length_app in E.
    simpl in E. lia. }
  case_decide as E.
  { subst k. by rewrite lookup_sub, decide_True, lookup_cut, decide_False. }
  rewrite !lookup_sub. destruct (decide (a `prefix_of` k)) as [Ha|Ha].
  2:{ rewrite decide_False; [done|]. intros Hc. apply Ha. etrans; [|exact Hc]. by eexists. }
  destruct (decide ((a ++ [c]) `prefix_of` k)) as [Hc|Hc]; [done|].
  rewrite lookup_cut. case_decide as Hkk; [done|]. destruct (P !! k) as [q|] eqn:Hk; [|done].
  destruct Ha as [[|x l] ->]; [by rewrite app_nil_r in E|]. exfalso. apply Hc.
  assert (is_Some (P !! (a ++ [x]))) as Hx.
  { eapply (trep_prefix _ _ _ _ _ l Ht). rewrite <- app_assoc. by eexists. }
  assert (is_Some (P !! (a ++ [c]))) as Hc1.
  { eapply (trep_prefix _ _ _ _ _ r Ht). by rewrite <- app_assoc; simpl; rewrite <- Hkey. }
  apply prefix_snoc_inv. destruct Hx as [q1 Hq1], Hc1 as [q2 Hq2].
  eapply only_child; [exact Hn| | |by eexists|by eexists]; by eapply trep_parent.
Qed.

Lemma pruned_step N root P V key a x c r p :
  trep N root P V → pruned P V key (a ++ [x]) c r → P !! (a ++ [x]) = Some p → is_Some (P !! key) →
  nchild P (a ++ [x]) ≤ 1 → (∀ v s b, V !! (a ++ [x]) = Some (v, s, b) → v = 0) →
  pruned P V key a x (c :: r).
Proof.
  intros Ht Hpr Hp Hs Hn Hv. pose proof (between_step _ _ _ _ _ _ _ _ _ Ht Hpr Hp Hs Hn) as Hb.
  destruct Hpr as [Hkey Hsz Hval]. split.
  - by rewrite Hkey, <- app_assoc.
  - rewrite Hb, map_size_insert_None, Hsz; [done|].
    rewrite lookup_sub, decide_False; [done|apply prefix_snoc_not].
  - intros k v s b Hk Hpre Hnk. destruct (decide (k = a ++ [x])) as [->|Hne]; [by eapply Hv|].
    destruct (decide (((a ++ [x]) ++ [c]) `prefix_of` k)) as [Hc|Hc]; [by eapply Hval|].
    assert (is_Some (P !! k)) as [q Hq] by (apply (trep_P_V _ _ _ _ _ Ht); by eexists).
    apply (f_equal (lookup k)) in Hb. rewrite lookup_insert_ne in Hb by done.
    by rewrite !lookup_sub, decide_True, decide_False, lookup_cut, decide_False, Hq in Hb.
Qed.

Definition between (P : gmap cstr Z) (key a : cstr) (c : Z) : gmap cstr Z :=
  sub (a ++ [c]) (cut key P).

Lemma without_nil N : without N N ∅.
Proof. intros q. rewrite decide_False; [done|]. intros (k&p&E&_). by rewrite lookup_empty in E. Qed.
Lemma without_insert N N' S k p :
  without N N' S → S !! k = None → without N (delete p N') (<[k := p]> S).
Proof.
  intros Hw E q. destruct (decide (q = p)) as [->|Hq].
  - rewrite lookup_delete_eq. rewrite decide_True; [done|]. exists k, p. by rewrite lookup_insert_eq.
  - rewrite lookup_delete_ne, Hw by done. f_equal. apply decide_ext. split.
    + intros (k1&p1&H1&->). exists k1, q. rewrite lookup_insert_ne; [done|congruence].
    + intros (k1&p1&H1&->). exists k1, q. rewrite lookup_insert in H1.
      case_decide; [congruence|done].
Qed.

Lemma prune_returns N0 P V key a0 c0 h f t p0 Q :
  trep N0 (tr_root t) P V → key = a0 ++ [c0] → P !! a0 = Some p0 → is_Some (P !! key) →
  0 ≤ tr_node_count t ≤ INT_MAX → Z.of_nat (length key) ≤ INT_MAX →
  (∀ a c r p N, pruned P V key a c r → P !! a = Some p → without N0 N (between P key a c) →
     (a = [] ∨ 1 < nchild P a ∨ ∃ v s b, V !! a = Some (v, s, b) ∧ v ≠ 0) →
     Q ((p, c), mk_tworld (Some (minus t 0 (length r))) N h f)) →
  returns (loopS prune_body (p0, c0) (mk_tworld (Some t) N0 h f)) Q.
Proof.
  intros Ht Hkey Hp0 Hs Hnc Hlen HQ.
  eapply (loopS_returns _ (λ '(p, c) w, ∃ a r N, w = mk_tworld (Some (minus t 0 (length r))) N h f ∧
      pruned P V key a c r ∧ P !! a = Some p ∧ without N0 N (between P key a c))
    (λ _ w, match tw_trie w with Some t' => tr_node_count t' - tr_node_count t + Z.of_nat (length key)
            | None => 0 end)).
  2:{ exists a0, [], N0. simpl. rewrite minus_0, Hkey. split_and!; [done|apply pruned_refl|done|].
      replace (between P (a0 ++ [c0]) a0 c0) with (∅ : gmap cstr Z); [apply without_nil|].
      symmetry. apply map_size_empty_iff, (pr_size _ _ _ _ _ _ (pruned_refl P V a0 c0)). }
  2:{ simpl. int_bounds. lia. }
  intros [p c] w (a&r&N&->&Hpr&Hp&HN) _. unfold prune_body. go. apply returns_load_trie. simpl.
  destruct (tp_node _ _ _ _ Ht _ _ Hp) as (Hpnz&n&Hn&HV&Hnum&_&_&Hpar).
  rewrite (proj2 (Z.eqb_neq p 0)) by done. destruct (Z.eqb_spec p (tr_root t)) as [->|Hroot].
  { go. eapply HQ; [done|done|done|]. left. eapply (tp_inj _ _ _ _ Ht); [done|by eapply tp_root]. }
  assert (N !! p = Some n) as HNp.
  { rewrite (without_out _ _ _ _ HN); [done|]. intros k. unfold between.
    rewrite lookup_sub. case_decide as Hk; [|done]. rewrite lookup_cut. case_decide; [done|].
    intros E. apply (tp_inj _ _ _ _ Ht _ _ _ Hp) in E as <-. by apply prefix_snoc_not in Hk. }
  go. eapply returns_load_node; [done|]. rewrite Hnum.
  destruct (negb (tn_value n =? 0) || (1 <? nchild P a)) eqn:Estop.
  { go. eapply HQ; [done|done|done|]. apply orb_true_iff in Estop as [Ev|Ec].
    - right. right. exists (tn_value n), (tn_vsize n), (tn_is_copy n). split; [done|].
      by apply negb_true_iff, Z.eqb_neq in Ev.
    - right. left. by apply Z.ltb_lt in Ec. }
  bool_prop. destruct a as [|x a _] using rev_ind.
  { rewrite (tp_root _ _ _ _ Ht) in Hp. by simplify_eq. }
  destruct (Hpar a x eq_refl) as (Hx&Hpa&Hidx).
  assert (Z.of_nat (length r) < Z.of_nat (length key)).
  { rewrite (pr_key _ _ _ _ _ _ Hpr), length_app. simpl. lia. }
  go. unfold free_node. go. eapply returns_load_node; [done|]. go. unfold set_nodes. simpl.
  apply returns_add_node_count; [unfold minus; simpl; int_bounds; lia|]. go.
  assert (nchild P (a ++ [x]) ≤ 1) as Hle by done.
  split; [|unfold minus; simpl; lia].
  exists a, (c :: r), (delete p N). rewrite Hidx. split_and!.
  - f_equal. unfold minus. simpl. do 2 f_equal. lia.
  - eapply pruned_step; [exact Ht|done|done|done|done|]. intros v s b E. rewrite HV in E. by simplify_eq.
  - done.
  - unfold between. rewrite (between_step _ _ _ _ _ _ _ _ _ Ht Hpr Hp Hs Hle).
    apply without_insert; [done|]. rewrite lookup_sub, decide_False; [done|apply prefix_snoc_not].
Qed.

(** *** The trie that remains *)

Lemma unlinked_trep N0 N N' root P V key a c r p n :
  trep N0 root P V → pruned P V key a c r → is_Some (P !! key) → P !! a = Some p → N0 !! p = Some n →
  without N0 N (between P key a c) →
  without (<[p := node_num_children (nchild P a + -1) (node_child c 0 n)]> N) N' (sub key P) →
  trep N' root (cut (a ++ [c]) P) (cut (a ++ [c]) V).
Proof.
  intros Ht Hpr Hs Hp Hn HN HN'. pose proof (pr_key _ _ _ _ _ _ Hpr) as Hkey.
  assert ((a ++ [c]) `prefix_of` key) as Hpre by (rewrite Hkey; exists r; by rewrite <- app_assoc).
  assert (is_Some (P !! (a ++ [c]))) as Hs1.
  { eapply (trep_prefix _ _ _ _ _ r Ht). rewrite <- app_assoc. simpl. by rewrite <- Hkey. }
  assert (char c) as Hc by (destruct Hs1 as [q Hq]; by eapply trep_parent).
  assert (∀ k q, P !! k = Some q → ¬ (a ++ [c]) `prefix_of` k → q ≠ p → N' !! q = N0 !! q) as Hkeep.
  { intros k q Hk Hnp Hqp. rewrite (without_out _ _ _ _ HN').
    - rewrite lookup_insert_ne by done. apply (without_out _ _ _ _ HN). intros k1.
      unfold between. rewrite lookup_sub, lookup_cut. repeat case_decide; try done.
      intros E. by apply (tp_inj _ _ _ _ Ht _ _ _ Hk) in E as <-.
    - intros k1. rewrite lookup_sub. case_decide as E; [|done]. intros E1.
      apply (tp_inj _ _ _ _ Ht _ _ _ Hk) in E1 as <-. apply Hnp. by etrans. }
  assert (N' !! p = Some (node_num_children (nchild P a + -1) (node_child c 0 n))) as HNp.
  { rewrite (without_out _ _ _ _ HN'); [by apply lookup_insert_eq|].
    intros k1. rewrite lookup_sub. case_decide as E; [|done]. intros E1.
    apply (tp_inj _ _ _ _ Ht _ _ _ Hp) in E1 as <-. apply (prefix_snoc_not a c). by etrans. }
  split.
  - apply lookup_cut_Some. split; [by eapply tp_root|]. intros E. by apply prefix_nil_inv in E; destruct a.
  - intros k1 k2 q [H1 _]%lookup_cut_Some [H2 _]%lookup_cut_Some. by eapply (tp_inj _ _ _ _ Ht).
  - intros k q [Hk Hnp]%lookup_cut_Some.
    destruct (tp_node _ _ _ _ Ht _ _ Hk) as (Hq0&nq&Hnq&HVq&Hnum&Hch&Hr1&Hpar). split; [done|].
    assert (∀ k' c', k = k' ++ [c'] → cut (a ++ [c]) P !! k' = P !! k') as Hpk.
    { intros k' c' ->. rewrite lookup_cut, decide_False; [done|]. intros E. by apply Hnp, prefix_app_r. }
    destruct (decide (k = a)) as [->|Hka].
    + rewrite Hp in Hk. simplify_eq. eexists. split; [done|]. simpl. split_and!; try done.
      * by rewrite lookup_cut, decide_False.
      * rewrite (nchild_cut_child P a c) by done. lia.
      * intros c1 Hc1. rewrite lookup_cut. destruct (decide (c1 = c)) as [->|Hcc].
        -- by rewrite lookup_insert_eq, decide_True.
        -- rewrite lookup_insert_ne by done. rewrite decide_False; [by apply Hch|].
           by intros ?%prefix_snoc_inv.
      * intros k' c' E. rewrite (Hpk _ _ E). by apply Hpar.
    + assert (q ≠ p) by (intros ->; apply Hka; by eapply (tp_inj _ _ _ _ Ht)).
      exists nq. rewrite (Hkeep k q) by done. split_and!; try done.
      * by rewrite lookup_cut, decide_False.
      * by rewrite nchild_cut.
      * intros c1 Hc1. rewrite lookup_cut, decide_False; [by apply Hch|].
        intros E. apply prefix_app_cases in E as [E|(l&Hl&Hlp&E)]; [done|].
        destruct l as [|y l]; [done|]. pose proof (prefix_cons_inv_1 _ _ _ _ Hlp) as ->.
        apply prefix_cons_inv_2, prefix_nil_inv in Hlp as ->. apply snoc_inj in E as [? _]. congruence.
      * intros k' c' E. rewrite (Hpk _ _ E). by apply Hpar.
  - intros k. rewrite !lookup_cut. case_decide; [done|]. apply (tp_dom _ _ _ _ Ht).
  - intros q [nq Hnq]. destruct (decide (q = p)) as [->|Hqp].
    { exists a. apply lookup_cut_Some. split; [done|]. apply prefix_snoc_not. }
    assert (∀ k, sub key P !! k ≠ Some q) as Hsub.
    { intros k E. by rewrite (without_in _ _ _ _ _ HN' E) in Hnq. }
    rewrite (without_out _ _ _ _ HN' Hsub), lookup_insert_ne in Hnq by done.
    assert (∀ k, between P key a c !! k ≠ Some q) as Hbet.
    { intros k E. by rewrite (without_in _ _ _ _ _ HN E) in Hnq. }
    rewrite (without_out _ _ _ _ HN Hbet) in Hnq.
    destruct (tp_all _ _ _ _ Ht q) as [k Hk]; [by eexists|]. exists k. apply lookup_cut_Some.
    split; [done|]. intros E. destruct (decide (key `prefix_of` k)) as [Hkk|Hkk].
    + apply (Hsub k). by rewrite lookup_sub, decide_True.
    + apply (Hbet k). unfold between. by rewrite lookup_sub, decide_True, lookup_cut, decide_False.
Qed.

Lemma another_child P a c : 1 < nchild P a → ∃ x, x ≠ c ∧ is_Some (P !! (a ++ [x])).
Proof.
  intros Hnc. destruct (decide (Exists (λ x, x ≠ c ∧ is_Some (P !! (a ++ [x]))) (seqZ 1 127))) as [E|E].
  { apply Exists_exists in E as (x&_&?). eauto. }
  exfalso. unfold nchild in Hnc.
  assert (length (filter (λ x, is_Some (P !! (a ++ [x]))) (seqZ 1 127)) ≤ length [c])%nat;
    [|simpl in *; lia].
  apply submseteq_length, NoDup_submseteq; [apply NoDup_filter, NoDup_seqZ|].
  intros x [Hx1 Hx2]%list_elem_of_filter. apply list_elem_of_singleton.
  destruct (decide (x = c)); [done|]. destruct E. apply Exists_exists. eauto.
Qed.

(** What the final map covers: every node that is left leads to a key. *)
Lemma unlinked_vals N root P V m key a c r :
  trep N root P V → vals V m → pruned P V key a c r → is_Some (P !! key) → is_Some (P !! a) →
  (a = [] ∨ 1 < nchild P a ∨ ∃ v s b, V !! a = Some (v, s, b) ∧ v ≠ 0) →
  vals (cut (a ++ [c]) V) (cut key m).
Proof.
  intros Ht Hva Hpr Hs Ha Hstop. pose proof (pr_key _ _ _ _ _ _ Hpr) as Hkey.
  assert ((a ++ [c]) `prefix_of` key) as Hpre by (rewrite Hkey; exists r; by rewrite <- app_assoc).
  (* a key below [a++[c]] is below [key] *)
  assert (∀ k, is_Some (m !! k) → ¬ key `prefix_of` k → ¬ (a ++ [c]) `prefix_of` k) as Hmk.
  { intros k [[v s] Hk] Hn Hc. apply (vals_some _ _ _ _ _ Hva) in Hk as [HV Hv].
    by apply Hv, (pr_value _ _ _ _ _ _ Hpr _ _ _ _ HV). }
  assert (∀ k, is_Some (m !! k) → ¬ key `prefix_of` k → is_Some (cut key m !! k)) as Hin.
  { intros k Hk Hn. by rewrite lookup_cut, decide_False. }
  (* the node of [a] leads to a key that stays *)
  assert (a = [] ∨ ∃ l, is_Some (cut key m !! (a ++ l))) as Hcov.
  { destruct Hstop as [?|[Hnc|(v&s&b&HV&Hv)]]; [by left| |]; right.
    - destruct (another_child P a c Hnc) as (x&Hxc&q&Hx).
      assert (covered m (a ++ [x])) as [?|(l&Hl)]%covered_spec.
      { apply (va_dom _ _ Hva), (trep_P_V _ _ _ _ _ Ht). by eexists. }
      { by destruct a. }
      exists ([x] ++ l). rewrite app_assoc. apply Hin; [done|]. intros E.
      assert ((a ++ [c]) `prefix_of` a ++ x :: l) as E' by (etrans; [done|by rewrite <- app_assoc in E]).
      by apply prefix_snoc_inv in E'.
    - exists []. rewrite app_nil_r. destruct b; [by destruct (va_val _ _ Hva _ _ _ _ HV)|].
      destruct (va_val _ _ Hva _ _ _ _ HV) as (_&Hm&_).
      rewrite (proj2 (Z.eqb_neq v 0)) in Hm by done. apply Hin; [by eexists|].
      intros E. apply (prefix_snoc_not a c). by etrans. }
  split.
  - intros k v s b [HV Hn]%lookup_cut_Some. destruct (va_val _ _ Hva _ _ _ _ HV) as (?&Hm&?).
    split_and!; [done| |done]. rewrite lookup_cut, decide_False; [done|].
    intros E. apply Hn. by etrans.
  - intros k. rewrite covered_spec. split.
    + intros [x [HV Hn]%lookup_cut_Some].
      assert (covered m k) as [?|(l&Hl)]%covered_spec by (apply (va_dom _ _ Hva); eauto); [by left|].
      destruct (decide (key `prefix_of` k ++ l)) as [E|E]; [|right; exists l; by apply Hin].
      assert ((a ++ [c]) `prefix_of` k ++ l) as E' by (by etrans).
      assert (k `prefix_of` a) as [l' ->].
      { apply prefix_app_cases in E' as [?|(q&Hq&_&Eq)]; [done|].
        destruct q as [|y q _] using rev_ind; [done|]. rewrite app_assoc in Eq.
        apply snoc_inj in Eq as [-> _]. by eexists. }
      destruct Hcov as [Hnil|(l2&Hl2)]; [left; by destruct k|].
      right. exists (l' ++ l2). by rewrite app_assoc.
    + intros Hk. assert (¬ (a ++ [c]) `prefix_of` k) as Hnp.
      { destruct Hk as [->|(l&[x [Hl Hn]%lookup_cut_Some])].
        - intros E. apply prefix_nil_inv in E. by destruct a.
        - intros E. apply (Hmk (k ++ l)); [by eexists|done|by apply prefix_app_r]. }
      rewrite lookup_cut, decide_False by done. apply (va_dom _ _ Hva), covered_spec.
      destruct Hk as [?|(l&[x [Hl _]%lookup_cut_Some])]; [by left|right; eauto].
Qed.

(** ** [trie_remove] *)

Definition map_values (m : gmap cstr (Z * Z)) : list Z := (λ x, x.2.1) <$> map_to_list m.

Lemma length_map_values m : length (map_values m) = size m.
Proof. unfold map_values. by rewrite length_fmap, length_map_to_list. Qed.

Lemma filter_fmap {A B : Type} (g : A → B) (p : B → Prop) `{!∀ x, Decision (p x)} (l : list A) :
  filter p (g <$> l) = g <$> filter (λ x, p (g x)) l.
Proof.
  induction l as [|x l IH]; [done|]. rewrite fmap_cons. destruct (decide (p (g x))).
  - by rewrite !filter_cons_True, IH by done.
  - by rewrite !filter_cons_False, IH by done.
Qed.

Lemma values_below_vals V m key : vals V m → values_below key V ≡ₚ map_values (sub key m).
Proof.
  intros Hva. unfold values_below, map_values. rewrite filter_fmap.
  transitivity ((λ x, x.2.1) <$> ((λ x : cstr * (Z * Z * bool), (x.1, x.2.1)) <$>
    filter (λ x, val_of x ≠ 0) (map_to_list (sub key V)))).
  { by rewrite <- list_fmap_compose. }
  apply fmap_Permutation, NoDup_Permutation.
  - apply (NoDup_fmap_1 fst). rewrite <- list_fmap_compose.
    apply (sublist_NoDup _ (fst <$> map_to_list (sub key V))); [apply NoDup_fst_map_to_list|].
    apply fmap_sublist, sublist_filter.
  - apply NoDup_map_to_list.
  - intros [k [v s]]. rewrite elem_of_map_to_list, lookup_sub, list_elem_of_fmap. split.
    + intros ([k1 [[v1 s1] b1]]&E&[Hv Hin]%list_elem_of_filter). simpl in *. simplify_eq.
      apply elem_of_map_to_list in Hin. rewrite lookup_sub in Hin. case_decide; [|done].
      destruct (va_val _ _ Hva _ _ _ _ Hin) as (_&Hm&_). by rewrite (proj2 (Z.eqb_neq v1 0)) in Hm.
    + case_decide as E; [|done]. intros Hm. pose proof (vals_some _ _ _ _ _ Hva Hm) as [HV Hv].
      exists (k, (v, s, false)). split; [done|]. apply list_elem_of_filter. split; [done|].
      apply elem_of_map_to_list. by rewrite lookup_sub, decide_True.
Qed.

Lemma unlink_returns N Na root P V key a c r pa na t h f Q :
  trep N root P V → pruned P V key a c r → is_Some (P !! key) → P !! a = Some pa →
  N !! pa = Some na → without N Na (between P key a c) →
  Q (tt, mk_tworld t (<[pa := node_num_children (nchild P a + -1) (node_child c 0 na)]> Na) h f) →
  returns (unlink pa c (mk_tworld t Na h f)) Q.
Proof.
  intros Hr Hpr Hs Hpa Hna HNa HQ. unfold unlink.
  rewrite (proj2 (Z.eqb_neq pa 0)) by (by eapply trep_nonnull). go.
  assert (char c) as Hc.
  { assert (is_Some (P !! (a ++ [c]))) as [q Hq]; [|by eapply trep_parent].
    eapply (trep_prefix _ _ _ _ _ r Hr). rewrite <- app_assoc. simpl.
    by rewrite <- (pr_key _ _ _ _ _ _ Hpr). }
  destruct (tp_node _ _ _ _ Hr _ _ Hpa) as (_&na'&Hna'&_&Hnum&_). rewrite Hna in Hna'. simplify_eq.
  assert (Na !! pa = Some na') as HNpa.
  { rewrite (without_out _ _ _ _ HNa); [done|]. intros k. unfold between. rewrite lookup_sub.
    case_decide as E; [|done]. rewrite lookup_cut. case_decide; [done|]. intros E'.
    apply (tp_inj _ _ _ _ Hr _ _ _ Hpa) in E' as <-. by apply prefix_snoc_not in E. }
  eapply returns_set_child; [exact HNpa|done|]. go. pose proof (nchild_bounds P a).
  eapply returns_add_num_children; [by rewrite lookup_insert_eq|simpl; int_bounds; lia|].
  rewrite insert_insert_eq. simpl. by rewrite Hnum.
Qed.

Lemma removed_room N root P V m key a c r :
  trep N root P V → vals V m → pruned P V key a c r →
  Z.of_nat (length r + size (sub key P)) ≤ nodes m.
Proof.
  intros Hr Hva Hpr. rewrite (vals_size _ _ Hva), <- (size_same_dom P V) by (intros; by eapply trep_P_V).
  rewrite (size_sub_cut (a ++ [c]) P), (sub_split_size (a ++ [c]) key P), (pr_size _ _ _ _ _ _ Hpr); [lia|].
  rewrite (pr_key _ _ _ _ _ _ Hpr). exists r. by rewrite <- app_assoc.
Qed.

(** The state once the subtree of [key] and the ancestors are gone. *)
Lemma removed_at cb b m t N h P V key a c r pa na Na N' :
  trie_at cb b m t N h P V → pruned P V key a c r → is_Some (P !! key) → P !! a = Some pa →
  N !! pa = Some na → without N Na (between P key a c) →
  (a = [] ∨ 1 < nchild P a ∨ ∃ v s b, V !! a = Some (v, s, b) ∧ v ≠ 0) →
  without (<[pa := node_num_children (nchild P a + -1) (node_child c 0 na)]> Na) N' (sub key P) →
  nodes m - nodes (cut key m) = Z.of_nat (length r + size (sub key P)) ∧
  trie_at cb b (cut key m)
    (minus t (length (values_below key V)) (length r + size (sub key P))) N' h
    (cut (a ++ [c]) P) (cut (a ++ [c]) V).
Proof.
  intros [Hr Hva Hfr Hcb Hnc Hct Hbd] Hpr Hs Hpa Hna HNa Hstop HN'.
  pose proof (unlinked_trep _ _ _ _ _ _ _ _ _ _ _ _ Hr Hpr Hs Hpa Hna HNa HN') as Hr'.
  pose proof (unlinked_vals _ _ _ _ _ _ _ _ _ Hr Hva Hpr Hs ltac:(by eexists) Hstop) as Hva'.
  assert ((a ++ [c]) `prefix_of` key) as Hpre.
  { rewrite (pr_key _ _ _ _ _ _ Hpr). exists r. by rewrite <- app_assoc. }
  assert (nodes m - nodes (cut key m) = Z.of_nat (length r + size (sub key P))) as Hno.
  { rewrite (vals_size _ _ Hva), (vals_size _ _ Hva'), (size_sub_cut (a ++ [c]) V).
    rewrite (size_same_dom (sub (a ++ [c]) V) (sub (a ++ [c]) P)).
    - rewrite (sub_split_size _ key) by done. rewrite (pr_size _ _ _ _ _ _ Hpr). lia.
    - intros k. rewrite !lookup_sub. case_decide; [|done]. symmetry. by eapply trep_P_V. }
  pose proof (Permutation_length (values_below_vals _ _ key Hva)) as Hvl.
  rewrite length_map_values in Hvl. pose proof (size_sub_cut key m).
  split; [done|]. split; simpl; try done; try lia.
  destruct Hfr as [Hfn ? ?]. split; try done. intros q x Hq.
  destruct (tp_all _ _ _ _ Hr' q) as [k [Hk _]%lookup_cut_Some]; [by eexists|].
  destruct (tp_node _ _ _ _ Hr _ _ Hk) as (_&y&Hy&_). by eapply Hfn.
Qed.

Lemma subtree_unlinked N Na root P V key a c r pa x :
  trep N root P V → (∀ k v s b, V !! k = Some (v, s, b) → b = false) →
  pruned P V key a c r → P !! a = Some pa → without N Na (between P key a c) →
  subtree (<[pa := x]> Na) key P V.
Proof.
  intros Hr Hb Hpr Hpa HNa. eapply subtree_down; [by eapply trep_subtree|].
  intros l q Hq. rewrite lookup_insert_ne.
  - f_equal. apply (without_out _ _ _ _ HNa). intros k. unfold between. rewrite lookup_sub, lookup_cut.
    repeat case_decide; try done. intros E. apply (tp_inj _ _ _ _ Hr _ _ _ Hq) in E as <-.
    by match goal with H : ¬ _ |- _ => apply H; eexists end.
  - intros <-. pose proof (tp_inj _ _ _ _ Hr _ _ _ Hpa Hq) as E. apply (f_equal length) in E.
    rewrite (pr_key _ _ _ _ _ _ Hpr), !length_app in E. simpl in E. lia.
Qed.

Lemma trie_remove_returns cb b m t N h f P V depth key (value vsize : bool)
    (Q : Z * option Z * option Z * tworld → Prop) :
  trie_at cb b m t N h P V → Forall char key → key ≠ [] →
  b ≤ INT_MAX → Z.of_nat (length key) ≤ INT_MAX → (∀ k : cstr, is_Some (m !! k) → (length k ≤ depth)%nat) →
  (¬ covered m key → Q ((0, None, None), mk_tworld (Some t) N h f)) →
  (covered m key → ∀ t' N' P' V' f', trie_at cb b (cut key m) t' N' h P' V' →
     f' ≡ₚ freed_by (cb && negb value) (map_values (sub key m)) →
     Q ((nodes m - nodes (cut key m), if value then Some (default (0, 0) (m !! key)).1 else None,
         if vsize then Some (default (0, 0) (m !! key)).2 else None),
        mk_tworld (Some t') N' h (f ++ f'))) →
  returns (trie_remove depth key value vsize (mk_tworld (Some t) N h f)) Q.
Proof.
  intros Ha Hk Hne Hb Hlen Hdep HQ0 HQ1. unfold trie_remove. go.
  eapply trie_find_internal_returns; [exact Ha|done|].
  destruct (trie_at_node _ _ _ _ _ _ _ _ key Ha) as [(Hc&HP&_)|(Hc&p&n&HP&Hp0&Hn&_&_&Hm)];
    rewrite HP; cbn [default from_option id].
  { go. by apply HQ0. }
  go. rewrite (proj2 (Z.eqb_neq p 0)) by done. go. apply returns_load_trie. go.
  eapply returns_load_node; [done|]. go.
  pose proof Ha as [Hr Hva Hfr Hcb Hnc Hct Hbd]. rewrite Hcb.
  replace (if value then false else cb) with (cb && negb value) by (by destruct cb, value).
  destruct depth as [|depth].
  { exfalso. apply covered_spec in Hc as [?|(k&v&Hkm)]; [done|].
    specialize (Hdep (key ++ k) (ex_intro _ _ Hkm)). rewrite length_app in Hdep. destruct key; [done|].
    simpl in Hdep. lia. }
  rewrite trie_node_destroy_eq. go. eapply returns_load_node; [done|]. go.
  destruct key as [|c0 a0 _] using rev_ind; [done|].
  destruct (tp_node _ _ _ _ Hr _ _ HP) as (_&n'&Hn'&_&_&_&_&Hpar). rewrite Hn in Hn'. simplify_eq.
  destruct (Hpar a0 c0 eq_refl) as (_&Hpa&Hidx). rewrite Hidx.
  pose proof (nodes_pos m).
  eapply (prune_returns N P V (a0 ++ [c0]) a0 c0); [exact Hr|done|done|by eexists|lia|done|].
  intros a c r pa Na Hpr Hpap HNa Hstop. go.
  destruct (tp_node _ _ _ _ Hr _ _ Hpap) as (_&na&Hna&_).
  eapply unlink_returns; [exact Hr|exact Hpr|by eexists|done|exact Hna|done|]. go.
  assert (∀ k v s b, V !! k = Some (v, s, b) → b = false) as Hcopy
    by (intros; by eapply va_val).
  pose proof (subtree_unlinked _ _ _ _ _ _ _ _ _ _
    (node_num_children (nchild P a + -1) (node_child c 0 na)) Hr Hcopy Hpr Hpap HNa) as Hsub.
  destruct (sb_node _ _ _ _ Hsub [] p) as (_&n1&Hn1&_); [by rewrite app_nil_r|].
  pose proof (Permutation_length (values_below_vals _ _ (a0 ++ [c0]) Hva)) as Hvl.
  rewrite length_map_values in Hvl. pose proof (size_sub_cut (a0 ++ [c0]) m).
  eapply destroy_rest_returns; [apply trie_node_destroy_child|exact Hsub|done|exact Hn1| | |].
  - intros l Hl. apply (trep_P_V _ _ _ _ _ Hr), (va_dom _ _ Hva), covered_spec in Hl.
    destruct Hl as [Hl|(l2&Hl)].
    + apply (f_equal length) in Hl. rewrite !length_app in Hl. simpl in Hl. lia.
    + apply Hdep in Hl. rewrite !length_app in Hl. simpl in Hl. lia.
  - pose proof (removed_room _ _ _ _ _ _ _ _ _ Hr Hva Hpr). unfold room, minus. simpl. int_bounds. lia.
  - intros N' f' HN' Hf'.
    destruct (removed_at _ _ _ _ _ _ _ _ _ _ _ _ _ _ _ N' Ha Hpr ltac:(by eexists)
      Hpap Hna HNa Hstop HN') as [Hno Ha'].
    rewrite minus_minus in *. rewrite values_below_vals in Hf' by done.
    pose proof (nodes_pos (cut (a0 ++ [c0]) m)).
    go. apply returns_load_trie. go.
    apply returns_int32; [unfold minus; simpl; int_bounds; lia|]. go.
    replace (tr_node_count t - _) with (nodes m - nodes (cut (a0 ++ [c0]) m))
      by (rewrite Hno; unfold minus; simpl; lia).
    replace (tn_value n') with (default (0, 0) (m !! (a0 ++ [c0]))).1.
    2:{ destruct (m !! (a0 ++ [c0])) as [[v0 s0]|]; by destruct Hm as [-> ?]. }
    replace (tn_vsize n') with (default (0, 0) (m !! (a0 ++ [c0]))).2.
    2:{ destruct (m !! (a0 ++ [c0])) as [[v0 s0]|]; [by destruct Hm as (_&->&_)|by destruct Hm as [_ ->]]. }
    by eapply HQ1.
Qed.
