(* ===== verification/TrieSpec.v ===== *)
(** * What the trie promises

    The trie of src/src/trie.c as a finite map from strings to values: the
    operations of a map ([map_op]), what they do in every case ([spec_op]),
    the refinement, and what the destruction of a trie frees. *)

From S2P Require Import Prelude Linklist Trie TrieMap TrieRemove.

(** ** The specification *)

(** The calls of a client that stores references; the Booleans say which
    pointers for results are not null. *)
Inductive trie_op :=
  | Find (key : cstr) (vsize : bool)
  | Insert (key : cstr) (value vsize : Z)
  | FindOrInsert (key : cstr) (value vsize : Z) (prev_value prev_vsize : bool)
  | FindAndInsert (key : cstr) (value vsize : Z) (prev_value prev_vsize : bool)
  | Remove (key : cstr) (value vsize : bool).

(** The result, and what is stored through the pointers. *)
Abbreviation trie_res := (Z * option Z * option Z)%type.

Definition run_op (depth : nat) (o : trie_op) : T trie_res :=
  match o with
  | Find key vsize => '(v, s) ← trie_find key vsize; mret (v, None, s)
  | Insert key v s => r ← trie_insert key v s false; mret (r, None, None)
  | FindOrInsert key v s pv ps => trie_find_or_insert key v s pv ps false
  | FindAndInsert key v s pv ps => trie_find_and_insert key v s pv ps false
  | Remove key pv ps => trie_remove depth key pv ps
  end.

Fixpoint run_trie (depth : nat) (os : list trie_op) : T (list trie_res) :=
  match os with
  | [] => mret []
  | o :: os => r ← run_op depth o; rs ← run_trie depth os; mret (r :: rs)
  end.

Definition get (m : gmap cstr (Z * Z)) (key : cstr) : Z * Z := default (0, 0) (m !! key).
Definition out (b : bool) (x : Z) : option Z := if b then Some x else None.

(** The result of an operation, the new map and the values given to the free
    callback. *)
Definition spec_insert (cb : bool) (m : gmap cstr (Z * Z)) (key : cstr) (v s : Z) :
    trie_res * gmap cstr (Z * Z) * list Z :=
  let m' := <[key := (v, s)]> m in
  ((nodes m' - nodes m, None, None), m', tfreed cb m key).
Definition spec_op (cb : bool) (m : gmap cstr (Z * Z)) (o : trie_op) :
    trie_res * gmap cstr (Z * Z) * list Z :=
  match o with
  | Find key vsize =>
      (((get m key).1, None, if decide (covered m key) then out vsize (get m key).2 else None), m, [])
  | Insert key v s => spec_insert cb m key v s
  | FindOrInsert key v s pv ps =>
      if decide (covered m key) then ((0, out pv (get m key).1, out ps (get m key).2), m, [])
      else spec_insert cb m key v s
  | FindAndInsert key v s pv ps =>
      if decide (covered m key) then
        ((0, out pv (get m key).1, out ps (get m key).2), <[key := (v, s)]> m, tfreed cb m key)
      else spec_insert cb m key v s
  | Remove key pv ps =>
      if decide (covered m key) then
        ((nodes m - nodes (cut key m), out pv (get m key).1, out ps (get m key).2),
         cut key m, freed_by (cb && negb pv) (map_values (sub key m)))
      else ((0, None, None), m, [])
  end.

Fixpoint spec_run (cb : bool) (m : gmap cstr (Z * Z)) (os : list trie_op) :
    list trie_res * gmap cstr (Z * Z) * list Z :=
  match os with
  | [] => ([], m, [])
  | o :: os =>
      let '(r, m1, f1) := spec_op cb m o in
      let '(rs, m2, f2) := spec_run cb m1 os in
      (r :: rs, m2, f1 ++ f2)
  end.

(** *** The operations of a finite map

    What the operations do when a key stands for itself only: removal deletes
    one key, and what is stored at other keys does not matter but for the count
    of nodes. *)
Definition map_op (cb : bool) (m : gmap cstr (Z * Z)) (o : trie_op) :
    trie_res * gmap cstr (Z * Z) * list Z :=
  match o with
  | Find key vsize =>
      match m !! key with
      | Some (v, s) => ((v, None, out vsize s), m, [])
      | None => ((0, None, None), m, [])
      end
  | Insert key v s => spec_insert cb m key v s
  | FindOrInsert key v s pv ps =>
      match m !! key with
      | Some (v0, s0) => ((0, out pv v0, out ps s0), m, [])
      | None => spec_insert cb m key v s
      end
  | FindAndInsert key v s pv ps =>
      match m !! key with
      | Some (v0, s0) => ((0, out pv v0, out ps s0), <[key := (v, s)]> m, freed_by cb [v0])
      | None => spec_insert cb m key v s
      end
  | Remove key pv ps =>
      match m !! key with
      | Some (v0, s0) =>
          ((nodes m - nodes (delete key m), out pv v0, out ps s0), delete key m, freed_by (cb && negb pv) [v0])
      | None => ((0, None, None), m, [])
      end
  end.
Fixpoint map_run (cb : bool) (m : gmap cstr (Z * Z)) (os : list trie_op) :
    list trie_res * gmap cstr (Z * Z) * list Z :=
  match os with
  | [] => ([], m, [])
  | o :: os =>
      let '(r, m1, f1) := map_op cb m o in
      let '(rs, m2, f2) := map_run cb m1 os in
      (r :: rs, m2, f1 ++ f2)
  end.

(** A key that is looked up is in the map if it is a prefix of a key that is,
    and one that is removed is not a prefix of another one. *)
Definition op_apart (m : gmap cstr (Z * Z)) (o : trie_op) : Prop :=
  match o with
  | Insert _ _ _ => True
  | Find key _ | FindOrInsert key _ _ _ _ | FindAndInsert key _ _ _ _ => covered m key → is_Some (m !! key)
  | Remove key _ _ => covered m key → is_Some (m !! key) ∧ map_Forall (λ k _, key `prefix_of` k → k = key) m
  end.
Fixpoint ops_apart (cb : bool) (m : gmap cstr (Z * Z)) (os : list trie_op) : Prop :=
  match os with
  | [] => True
  | o :: os => op_apart m o ∧ ops_apart cb (map_op cb m o).1.2 os
  end.

#[global] Instance op_apart_dec m o : Decision (op_apart m o).
Proof. destruct o; simpl; apply _. Defined.
#[global] Instance ops_apart_dec cb m os : Decision (ops_apart cb m os).
Proof. revert m. induction os as [|o os IH]; intros m; simpl; apply _. Defined.

Lemma covered_key m key : is_Some (m !! key) → covered m key.
Proof. intros Hk. apply covered_spec. right. exists []. by rewrite app_nil_r. Qed.
Lemma not_covered_None m key : ¬ covered m key → m !! key = None.
Proof. intros Hc. apply eq_None_not_Some. intros Hk. by apply Hc, covered_key. Qed.

(** A key that is not a prefix of another one is cut alone. *)
Lemma cut_one (m : gmap cstr (Z * Z)) key :
  map_Forall (λ k _, key `prefix_of` k → k = key) m → cut key m = delete key m.
Proof.
  intros Hk. apply map_eq. intros k. rewrite lookup_cut, lookup_delete. case_decide as Hp.
  - case_decide as Hkk; [done|]. symmetry. apply eq_None_not_Some. intros [x Hs]. apply Hkk. symmetry. by apply (Hk k x).
  - rewrite decide_False; [done|]. by intros ->.
Qed.
Lemma sub_one (m : gmap cstr (Z * Z)) key x :
  m !! key = Some x → map_Forall (λ k _, key `prefix_of` k → k = key) m → map_values (sub key m) = [x.1].
Proof.
  intros Hx Hk. assert (sub key m = {[key := x]}) as ->; [|unfold map_values; by rewrite map_to_list_singleton].
  apply map_eq. intros k. rewrite lookup_sub, lookup_singleton. repeat case_decide; subst; try done.
  apply eq_None_not_Some. intros [x' Hs]. by apply H0; rewrite (Hk k x').
Qed.

Lemma spec_op_map cb m o : op_apart m o → spec_op cb m o = map_op cb m o.
Proof.
  destruct o as [key vs|key v s|key v s pv ps|key v s pv ps|key pv ps]; simpl; intros Ha; try done;
    (destruct (decide (covered m key)) as [Hc|Hc]; [specialize (Ha Hc)|rewrite (not_covered_None m key Hc)]);
    unfold get, tfreed; rewrite ?(not_covered_None m key Hc); try done.
  - by destruct Ha as [[v s] ->].
  - by destruct Ha as [[v0 s0] ->].
  - destruct Ha as [[v0 s0] ->]. by destruct cb.
  - destruct Ha as [[[v0 s0] E] Hk]. rewrite E, (cut_one m key Hk), (sub_one m key _ E Hk). done.
Qed.
Lemma spec_run_map cb m os : ops_apart cb m os → spec_run cb m os = map_run cb m os.
Proof.
  revert m. induction os as [|o os IH]; intros m Ha; simpl; [done|]. destruct Ha as [Ho Hos].
  rewrite (spec_op_map cb m o Ho). destruct (map_op cb m o) as [[r m1] f1]. simpl in Hos. by rewrite (IH m1 Hos).
Qed.

(** Keys are strings of bytes from 1 to 127, values are not null, the empty
    key is not removed; [depth] is at least the length of the keys. *)
Definition op_key (o : trie_op) : cstr :=
  match o with
  | Find key _ | Insert key _ _ | FindOrInsert key _ _ _ _ | FindAndInsert key _ _ _ _
  | Remove key _ _ => key
  end.
Definition op_ok (depth : nat) (o : trie_op) : Prop :=
  Forall char (op_key o) ∧ (length (op_key o) ≤ depth)%nat ∧
  match o with
  | Find _ _ => True
  | Insert _ v _ | FindOrInsert _ v _ _ _ | FindAndInsert _ v _ _ _ => v ≠ 0
  | Remove key _ _ => key ≠ []
  end.
(** What an operation may add to the counters of the trie. *)
Definition op_cost (o : trie_op) : Z := Z.of_nat (length (op_key o)) + 1.
Definition run_cost (os : list trie_op) : Z := foldr (λ o c, op_cost o + c) 0 os.

(** ** The operations *)

Definition short (depth : nat) (m : gmap cstr (Z * Z)) : Prop :=
  ∀ k : cstr, is_Some (m !! k) → (length k ≤ depth)%nat.

Lemma short_insert depth m key x : short depth m → (length key ≤ depth)%nat → short depth (<[key := x]> m).
Proof. intros Hs Hk k. rewrite lookup_insert. case_decide; [by subst|apply Hs]. Qed.
Lemma short_cut depth m key : short depth m → short depth (cut key m).
Proof. intros Hs k [x [Hk _]%lookup_cut_Some]. eauto. Qed.

(** After an operation: [R] is its result in the specification. *)
Definition op_post (cb : bool) (b : Z) (f : list Z) (R : trie_res * gmap cstr (Z * Z) * list Z)
    (x : trie_res * tworld) : Prop :=
  x.1 = R.1.1 ∧ tw_freed x.2 ≡ₚ f ++ R.2 ∧ trie_in cb b x.2 R.1.2.

Lemma op_post_intro cb b f f' r m F t N h P V :
  trie_at cb b m t N h P V → f' ≡ₚ F → op_post cb b f (r, m, F) (r, mk_tworld (Some t) N h (f ++ f')).
Proof.
  intros Ha Hf. split_and!; [done|by simpl; rewrite Hf|]. by exists t, P, V.
Qed.
Lemma op_post_same cb b f r m t N h P V :
  trie_at cb b m t N h P V → op_post cb b f (r, m, []) (r, mk_tworld (Some t) N h f).
Proof.
  intros Ha. rewrite <- (app_nil_r f) at 2. by eapply op_post_intro.
Qed.

Section op.
Context (cb : bool) (b : Z) (m : gmap cstr (Z * Z)) (t : trie_t) (N : gmap Z trie_node_t) (h : heap)
  (f : list Z) (P : gmap cstr Z) (V : gmap cstr (Z * Z * bool)).
Context (Ha : trie_at cb b m t N h P V).

Lemma spec_insert_ok key v s :
  Forall char key → v ≠ 0 → b + Z.of_nat (length key) < INT_MAX →
  returns ((r ← trie_insert key v s false; mret (r, None, None)) (mk_tworld (Some t) N h f))
    (op_post cb (b + Z.of_nat (length key) + 1) f (spec_insert cb m key v s)).
Proof using Ha.
  intros Hk Hv Hb. go. eapply trie_insert_returns; [exact Ha|done|done|done|].
  intros t' N' h' P' V' Ha' _. go. by eapply op_post_intro.
Qed.

(** A lookup that branches on whether a node was found. *)
Lemma found_ok {A} key (g : T A) (g' : trie_node_t → Z → T A) (Q : A * tworld → Prop) :
  Forall char key →
  (¬ covered m key → returns (g (mk_tworld (Some t) N h f)) Q) →
  (∀ p n, covered m key → P !! key = Some p → N !! p = Some n →
     (tn_value n, tn_vsize n) = get m key → returns (g' n p (mk_tworld (Some t) N h f)) Q) →
  returns (trie_find_internal key (mk_tworld (Some t) N h f))
    (λ '(node, w), returns ((if node =? 0 then g else n ← load_node node; g' n node) w) Q).
Proof using Ha.
  intros Hk Hg Hg'. eapply trie_find_internal_returns; [exact Ha|done|].
  destruct (trie_at_node _ _ _ _ _ _ _ _ key Ha) as [(Hc&HP&_)|(Hc&p&n&HP&Hp0&Hn&_&_&Hm)];
    rewrite HP; cbn [default from_option id].
  - go. by apply Hg.
  - rewrite (proj2 (Z.eqb_neq p 0)) by done. go. eapply returns_load_node; [done|].
    apply Hg'; try done. unfold get. destruct (m !! key) as [[v0 s0]|]; simpl.
    + by destruct Hm as (->&->&_).
    + by destruct Hm as [-> ->].
Qed.
End op.

Lemma op_post_mono cb b b' f R x : b ≤ b' → op_post cb b f R x → op_post cb b' f R x.
Proof.
  intros Hb (?&?&(t1&P1&V1&?&?)). split_and!; try done. exists t1, P1, V1. split; [done|].
  by eapply trie_at_mono.
Qed.

Lemma trie_get_covered m key : ¬ covered m key → get m key = (0, 0).
Proof.
  intros Hc. unfold get. destruct (m !! key) eqn:E; [|done]. destruct Hc. apply covered_spec.
  right. exists []. rewrite app_nil_r. eauto.
Qed.

Lemma run_trie_op_returns cb b m w depth o :
  trie_in cb b w m → short depth m → op_ok depth o → b + op_cost o ≤ INT_MAX → 
  returns (run_op depth o w) (op_post cb (b + op_cost o) (tw_freed w) (spec_op cb m o)).
Proof.
  intros (t&P&V&Et&Ha) Hsh (Hk&Hlen&Hok) Hb. destruct w as [t0 N h f]. simpl in *. subst t0.
  destruct o as [key vs|key v s|key v s pv ps|key v s pv ps|key pv ps]; unfold op_cost in *; simpl in *.
  - unfold trie_find. go. 
    eapply (found_ok cb b m t N h f P V Ha); [done| |]; [intros Hc|intros p n Hc HP Hn Hg]; go.
    + rewrite decide_False by done. rewrite trie_get_covered by done. simpl.
      eapply op_post_mono; [|by eapply op_post_same]. lia.
    + rewrite decide_True by done. rewrite <- Hg. simpl.
      eapply op_post_mono; [|by eapply op_post_same]. lia.
  - rewrite Z.add_assoc. eapply spec_insert_ok; [done|done|done|lia].
  - unfold trie_find_or_insert. go.
    eapply (found_ok cb b m t N h f P V Ha); [done| |]; [intros Hc|intros p n Hc HP Hn Hg].
    + rewrite decide_False by done. rewrite Z.add_assoc. eapply spec_insert_ok; [done|done|done|lia].
    + rewrite decide_True by done. rewrite <- Hg. go.
      eapply op_post_mono; [|by eapply op_post_same]. lia.
  - unfold trie_find_and_insert. go.
    eapply (found_ok cb b m t N h f P V Ha); [done| |]; [intros Hc|intros p n Hc HP Hn Hg].
    + rewrite decide_False by done. rewrite Z.add_assoc. eapply spec_insert_ok; [done|done|done|lia].
    + rewrite decide_True by done. rewrite <- Hg. go.
      eapply set_value_returns_at; [exact Ha|done|done|]. intros N' Ha' _. go.
      eapply op_post_mono; [|by eapply op_post_intro]. lia.
  - pose proof (nodes_pos m). pose proof (ta_nodes _ _ _ _ _ _ _ _ Ha).
    pose proof (ta_bound _ _ _ _ _ _ _ _ Ha).
    eapply trie_remove_returns; [exact Ha|done|done|lia|lia|done| |].
    + intros Hc. rewrite decide_False by done. eapply op_post_mono; [|by eapply op_post_same]. lia.
    + intros Hc t' N' P' V' f' Ha' Hf'. rewrite decide_True by done.
      eapply op_post_mono; [|by eapply op_post_intro]. lia.
Qed.

Lemma spec_op_short cb depth m o : short depth m → op_ok depth o → short depth (spec_op cb m o).1.2.
Proof.
  intros Hs (_&Hl&_). destruct o; simpl in *; repeat case_decide; simpl;
    by auto using short_insert, short_cut.
Qed.

Lemma run_trie_returns cb b m w depth os :
  trie_in cb b w m → short depth m → Forall (op_ok depth) os → b + run_cost os ≤ INT_MAX →
  returns (run_trie depth os w) (λ '(rs, w'),
    rs = (spec_run cb m os).1.1 ∧ tw_freed w' ≡ₚ tw_freed w ++ (spec_run cb m os).2 ∧
    trie_in cb (b + run_cost os) w' (spec_run cb m os).1.2).
Proof.
  revert b m w. induction os as [|o os IH]; intros b m w Hin Hsh Hok Hb; simpl in *.
  { go. by rewrite app_nil_r, Z.add_0_r. }
  apply Forall_cons in Hok as [Ho Hos].
  assert (0 ≤ run_cost os) as Hc by (clear; induction os; simpl; unfold op_cost in *; lia).
  go. eapply returns_mono; [apply run_trie_op_returns; [exact Hin|exact Hsh|done|lia]|].
  intros [r w1] (Hr&Hf&Hin1). pose proof (spec_op_short cb depth m o Hsh Ho) as Hsh1.
  destruct (spec_op cb m o) as [[r1 m1] f1]. simpl in *. subst r. go.
  eapply returns_mono; [apply IH; [exact Hin1|done|done|lia]|].
  intros [rs w2] (->&Hf2&Hin2). go. destruct (spec_run cb m1 os) as [[rs2 m2] f2]. simpl in *.
  split_and!; [done|by rewrite Hf2, Hf, app_assoc|by rewrite Z.add_assoc].
Qed.

Lemma spec_run_short cb depth m os :
  short depth m → Forall (op_ok depth) os → short depth (spec_run cb m os).1.2.
Proof.
  revert m. induction os as [|o os IH]; intros m Hs Hos; simpl; [done|].
  apply Forall_cons in Hos as [Ho Hos]. pose proof (spec_op_short cb depth m o Hs Ho) as Hs1.
  destruct (spec_op cb m o) as [[r m1] f1]. simpl in Hs1. specialize (IH m1 Hs1 Hos).
  by destruct (spec_run cb m1 os) as [[rs m2] f2].
Qed.

(** ** A new trie *)

Lemma nodes_empty : nodes ∅ = 1.
Proof. unfold nodes. vm_compute. reflexivity. Qed.

Lemma empty_trie_at cb root h :
  root ≠ 0 → fresh (<[root := empty_node]> ∅) h →
  trie_at cb 0 ∅ (mk_trie 0 0 root cb) (<[root := empty_node]> ∅) h
    {[ [] := root ]} {[ [] := (0, 0, false) ]}.
Proof.
  intros Hr Hf. split; simpl; try done.
  - split.
    + by rewrite lookup_singleton_eq.
    + intros k1 k2 p [<- _]%lookup_singleton_Some [<- _]%lookup_singleton_Some. done.
    + intros k p [<- <-]%lookup_singleton_Some. split; [done|]. exists empty_node.
      rewrite lookup_insert_eq, lookup_singleton_eq. split_and!; try done.
      * intros c _. by rewrite lookup_singleton_ne.
      * intros k' c E. by destruct k'.
    + intros k [x [<- _]%lookup_singleton_Some]. rewrite lookup_singleton_eq. eauto.
    + intros p [n Hn]. rewrite insert_empty in Hn. apply lookup_singleton_Some in Hn as [<- _].
      exists []. by rewrite lookup_singleton_eq.
  - split.
    + intros k v s b [<- E]%lookup_singleton_Some. by simplify_eq.
    + intros k. rewrite covered_spec. split.
      * intros [x [<- _]%lookup_singleton_Some]. by left.
      * intros [->|(k'&x&E)]; [rewrite lookup_singleton_eq; eauto|by rewrite lookup_empty in E].
Qed.

Lemma trie_create_at cb w :
  tw_nodes w = ∅ → wf_heap (tw_heap w) → alloc_ok (tw_heap w) →
  returns (trie_create cb w) (λ '(_, w'), trie_in cb 0 w' ∅ ∧ tw_freed w' = tw_freed w).
Proof.
  intros Hn Hw Hal. destruct w as [t0 N h f]. simpl in *. subst N. unfold trie_create. simpl.
  assert (alloc_ok (mk_heap (hp h) (hp_next h) (tail (hp_alloc h)) (hp_freed h))) as Hal'.
  { unfold alloc_ok in *. simpl. destruct Hal; [constructor|done]. }
  unfold alloc_ok in Hal. destruct (hp_alloc h) as [|[] al] eqn:E; [| |by inversion Hal].
  all: go; apply alloc_node_returns; [split; [intros p n; by rewrite lookup_empty|done|done]|];
    intros h' Hf _ _ Hq; go; (split; [|done]); simpl in *; eexists _, _, _; split; [done|];
    by apply empty_trie_at.
Qed.

(** ** The whole trie *)

Lemma sub_nil {A} (M : gmap cstr A) : sub [] M = M.
Proof. apply map_eq. intros k. rewrite lookup_sub, decide_True; [done|apply prefix_nil]. Qed.

(** [trie_node_destroy] of the root. *)
Lemma destroy_root_returns cb b m t N h f P V fcb depth Q :
  trie_at cb b m t N h P V → short depth m → b ≤ INT_MAX →
  (∀ t' N' f', (∀ q, N' !! q = None) → f' ≡ₚ freed_by fcb (map_values m) → tr_root t' = tr_root t →
     tr_node_count t' = -1 → Q (tt, mk_tworld (Some t') N' h (f ++ f'))) →
  returns (trie_node_destroy (S depth) (tr_root t) fcb (mk_tworld (Some t) N h f)) Q.
Proof.
  intros [Hr Hva Hfr Hcb Hnc Hct Hbd] Hsh Hb HQ.
  assert (∀ k v s b, V !! k = Some (v, s, b) → b = false) as Hcopy by (intros; by eapply va_val).
  pose proof (tp_root _ _ _ _ Hr) as Hroot.
  destruct (tp_node _ _ _ _ Hr _ _ Hroot) as (_&n&Hn&_&_&_&Hpar&_).
  pose proof (values_below_vals _ _ [] Hva) as Hvals. rewrite sub_nil in Hvals.
  pose proof (Permutation_length Hvals) as Hl. rewrite length_map_values in Hl.
  assert (Z.of_nat (size P) = nodes m) as HsP.
  { rewrite (vals_size _ _ Hva). f_equal. apply size_same_dom. intros k. by eapply trep_P_V. }
  eapply (trie_node_destroy_child fcb (S depth) N h f t [] P V);
    [by eapply trep_subtree|done|exact Hn|by apply Hpar| | |].
  - intros l Hl'. simpl in Hl'. apply (trep_P_V _ _ _ _ _ Hr), (va_dom _ _ Hva), covered_spec in Hl'.
    destruct Hl' as [->|(l2&Hl')]; [simpl; lia|]. apply Hsh in Hl'. rewrite length_app in Hl'. lia.
  - rewrite sub_nil. unfold room. int_bounds. lia.
  - intros N' f' HN' Hf'. rewrite sub_nil in *. rewrite Hvals in Hf'. apply HQ; [|done|done|].
    + intros q. rewrite HN'. case_decide as E; [done|].
      destruct (N !! q) eqn:Eq; [|done]. destruct E.
      destruct (tp_all _ _ _ _ Hr q) as [k Hk]; [by eexists|]. by exists k, q.
    + unfold minus. simpl. lia.
Qed.

Definition trie_world0 : tworld := mk_tworld None ∅ (mk_heap ∅ 1 [] []) [].
Definition trie_sample_ops : list trie_op :=
  [Insert [97; 98; 99] 10 4; Insert [97; 98] 20 2; Insert [97; 120] 30 1; FindAndInsert [97; 98] 21 3 true true;
   FindOrInsert [97] 40 1 true false; Find [97; 98; 99] true; Remove [97; 98] true true;
   Find [97; 98; 99] true; Remove [97; 120] false false].

Lemma trie_world0_wf : wf_heap (tw_heap trie_world0).
Proof. split; [done|]. intros a x. simpl. by rewrite lookup_empty. Qed.

Lemma trie_sample_ops_ok : Forall (op_ok 3) trie_sample_ops.
Proof. repeat constructor; simpl; lia || done. Qed.

(** A trie with the keys "abc", "ab" and "ax". *)
Definition trie_sample_map : gmap cstr (Z * Z) := (spec_run true ∅ (take 4 trie_sample_ops)).1.2.

Lemma trie_sample_in : ∃ w, trie_in true (run_cost (take 4 trie_sample_ops)) w trie_sample_map.
Proof.
  destruct (returns_inv _ _ (trie_create_at true trie_world0 eq_refl trie_world0_wf ltac:(constructor)))
    as ([[] w]&_&Hin&_).
  destruct (returns_inv _ _ (run_trie_returns true 0 ∅ w 3 (take 4 trie_sample_ops) Hin
    ltac:(intros k [x Hk]; by rewrite lookup_empty in Hk) (Forall_take _ _ _ trie_sample_ops_ok)
    ltac:(by vm_compute))) as ([rs w']&_&_&_&Hin').
  by exists w'.
Qed.
Lemma trie_sample_short : short 3 trie_sample_map.
Proof.
  apply spec_run_short; [|apply Forall_take, trie_sample_ops_ok].
  intros k [x Hk]. by rewrite lookup_empty in Hk.
Qed.

(** ** Theorems *)

(** The results, the values freed and the trie are those of a run [R] of the
    specification. *)
Definition trie_run_post (cb : bool) (b : Z) (f : list Z) (R : list trie_res * gmap cstr (Z * Z) * list Z)
    (x : list trie_res * tworld) : Prop :=
  x.1 = R.1.1 ∧ tw_freed x.2 ≡ₚ f ++ R.2 ∧ trie_in cb b x.2 R.1.2.

(** C5 — A new trie is run through any sequence of find, insert, find-or-insert,
    find-and-insert and remove calls.  While no key that is looked up is only a
    prefix of stored keys, and no key that is removed is a prefix of another
    one ([ops_apart]), the calls return, store through their arguments and free
    what the operations of a finite map do ([map_run]).  In every case they do
    what a map of strings does where removing a key removes every key it is a
    prefix of, and find-or-insert takes a prefix of a stored key for a key that
    is there ([spec_run]; trie.h does not say so).  The trie is again a
    well-formed trie of the map: no node leaks, every node leads to a key, and
    the node count is that of the prefixes of the keys. *)
Theorem trie_refines_map cb depth os w :
  tw_nodes w = ∅ → wf_heap (tw_heap w) → alloc_ok (tw_heap w) →
  Forall (op_ok depth) os → run_cost os ≤ INT_MAX →
  returns ((_ ← trie_create cb; run_trie depth os) w) (λ x,
    (ops_apart cb ∅ os → trie_run_post cb (run_cost os) (tw_freed w) (map_run cb ∅ os) x) ∧
    trie_run_post cb (run_cost os) (tw_freed w) (spec_run cb ∅ os) x).
Proof.
  intros Hn Hw Hal Hok Hc. go. eapply returns_mono; [by apply trie_create_at|].
  intros [_ w1] [Hin <-]. eapply returns_mono; [apply (run_trie_returns cb 0 ∅ w1); [done| |done|done]|].
  { intros k [x Hk]. by rewrite lookup_empty in Hk. }
  intros [rs w2] Hrun. split; [|exact Hrun]. intros Ha. by rewrite <- (spec_run_map cb ∅ os Ha).
Qed.

(** The keys "abc", "ab" and "ax"; "abc" and "ax" are removed. *)
Definition trie_apart_ops : list trie_op :=
  [Insert [97; 98; 99] 10 4; Insert [97; 98] 20 2; Insert [97; 120] 30 1; FindAndInsert [97; 98] 21 3 true true;
   FindOrInsert [97; 121] 40 1 true false; Find [97; 98; 99] true; Remove [97; 98; 99] true true;
   Find [97; 98; 99] true; Remove [97; 120] false false].
Lemma trie_apart_ops_ok : Forall (op_ok 3) trie_apart_ops.
Proof. repeat constructor; simpl; lia || done. Qed.

(** "ab" is removed while "abc" is there, and "a" is looked up. *)
Example trie_sample_run :
  ¬ ops_apart true ∅ trie_sample_ops ∧ spec_run true ∅ trie_sample_ops =
    ([(3, None, None); (0, None, None); (1, None, None); (0, Some 20, Some 2); (0, Some 0, None);
      (10, None, Some 4); (2, Some 21, Some 3); (0, None, None); (2, None, None)], ∅, [20; 30]).
Proof. split; [apply (bool_decide_unpack _); vm_compute; exact I|by vm_compute]. Qed.

Lemma trie_refines_map_witness :
  ops_apart true ∅ trie_apart_ops ∧
  map_run true ∅ trie_apart_ops =
    ([(3, None, None); (0, None, None); (1, None, None); (0, Some 20, Some 2); (1, None, None);
      (10, None, Some 4); (1, Some 10, Some 4); (0, None, None); (1, None, None)],
     <[[97; 121] := (40, 1)]> {[ [97; 98] := (21, 3) ]}, [20; 30]) ∧
  returns ((_ ← trie_create true; run_trie 3 trie_apart_ops) trie_world0) (λ x,
    (ops_apart true ∅ trie_apart_ops → trie_run_post true (run_cost trie_apart_ops) [] (map_run true ∅ trie_apart_ops) x) ∧
    trie_run_post true (run_cost trie_apart_ops) [] (spec_run true ∅ trie_apart_ops) x).
Proof.
  split; [apply (bool_decide_unpack _); vm_compute; exact I|]. split; [by vm_compute|].
  apply (trie_refines_map true 3 trie_apart_ops trie_world0).
  - done.
  - apply trie_world0_wf.
  - constructor.
  - apply trie_apart_ops_ok.
  - vm_compute. done.
Defined.

(** C20 — trie_destroy frees every node and the trie itself, and gives every
    value of the map to the free callback exactly once (none without a
    callback); it touches no other memory. *)
Theorem trie_destroy_frees cb b m w depth :
  trie_in cb b w m → short depth m → b ≤ INT_MAX →
  returns (trie_destroy (S depth) w) (λ '(_, w'),
    tw_trie w' = None ∧ tw_nodes w' = ∅ ∧ tw_heap w' = tw_heap w ∧
    tw_freed w' ≡ₚ tw_freed w ++ freed_by cb (map_values m)).
Proof.
  intros (t&P&V&Et&Ha) Hsh Hb. destruct w as [t0 N h f]. simpl in *. subst t0.
  unfold trie_destroy. go. apply returns_load_trie. go.
  rewrite (ta_cb _ _ _ _ _ _ _ _ Ha).
  eapply (destroy_root_returns cb b m); [exact Ha|done|done|]. intros t' N' f' Hnone Hf _ _. unfold free_trie. go. simpl.
  split_and!; [done|by apply map_empty|done|by rewrite Hf].
Qed.

Lemma trie_destroy_frees_witness :
  ∃ w, map_values trie_sample_map ≡ₚ [30; 21; 10] ∧ returns (trie_destroy 4 w) (λ '(_, w'),
    tw_trie w' = None ∧ tw_nodes w' = ∅ ∧ tw_heap w' = tw_heap w ∧
    tw_freed w' ≡ₚ tw_freed w ++ freed_by true (map_values trie_sample_map)).
Proof.
  destruct trie_sample_in as [w Hin]. exists w. split; [by vm_compute; solve_Permutation|].
  by apply (trie_destroy_frees true _ _ _ 3 Hin trie_sample_short).
Defined.

(** Removing the empty key destroys the root and leaves the pointer to it
    in the trie: whatever is looked up next reads freed memory. *)
Theorem trie_remove_root_dangling cb b m w depth value vsize :
  trie_in cb b w m → short depth m → b < INT_MAX →
  returns (trie_remove (S depth) [] value vsize w) (λ '(_, w'),
    ∃ t, tw_trie w' = Some t ∧ tr_node_count t = -1 ∧
    ∀ key vsize', trie_find key vsize' w' = Undef).
Proof.
  intros (t&P&V&Et&Ha) Hsh Hb. destruct w as [t0 N h f]. simpl in *. subst t0.
  pose proof (ta_rep _ _ _ _ _ _ _ _ Ha) as Hr. pose proof (tp_root _ _ _ _ Hr) as Hroot.
  destruct (tp_node _ _ _ _ Hr _ _ Hroot) as (Hp0&n&Hn&_).
  unfold trie_remove. go. unfold trie_find_internal. go. apply returns_load_trie. simpl. go.
  rewrite (proj2 (Z.eqb_neq _ 0)) by done. go. apply returns_load_trie. go.
  eapply returns_load_node; [done|]. go.
  eapply (destroy_root_returns cb b m); [exact Ha|done|lia|].
  intros t' N' f' Hnone _ Hroot' Hcnt. go. apply returns_load_trie.
  pose proof (ta_nodes _ _ _ _ _ _ _ _ Ha). pose proof (ta_bound _ _ _ _ _ _ _ _ Ha).
  pose proof (nodes_pos m).
  go. exists t'. split_and!; [done|done|].
  intros key vs. unfold trie_find, trie_find_internal. rewrite <- Hroot' in Hp0.
  assert (∀ c, get_child (tr_root t') c (mk_tworld (Some t') N' h (f ++ f')) = Undef) as Hgc.
  { intros c. unfold get_child, load_node, mbind, st_bind. simpl. by rewrite Hnone. }
  unfold load_trie, mbind, st_bind. simpl. destruct key as [|c key]; simpl.
  - rewrite (proj2 (Z.eqb_neq _ 0)) by done. unfold load_node. simpl. by rewrite Hnone.
  - rewrite (proj2 (Z.eqb_neq _ 0)) by done. unfold mbind, st_bind. by rewrite Hgc.
Qed.

Lemma trie_remove_root_dangling_witness :
  ∃ w, returns (trie_remove 4 [] false false w) (λ '(_, w'),
    ∃ t, tw_trie w' = Some t ∧ tr_node_count t = -1 ∧
    ∀ key vsize', trie_find key vsize' w' = Undef).
Proof.
  destruct trie_sample_in as [w Hin]. exists w.
  by apply (trie_remove_root_dangling true _ _ _ 3 false false Hin trie_sample_short).
Defined.

(** The bytes 7 8 at address 5. *)
Definition two_bytes : tworld := mk_tworld None ∅ (mk_heap {[ 5 := OBytes [7; 8] ]} 6 [] []) [].

(** The trie keeps a private copy of a value inserted with [copy], but
    trie_remove frees that copy and hands its address out, although a value
    that is asked for is documented not to be freed: here the bytes 7 8 at
    address 5 are inserted under "a" and found again in a new block, whose
    address trie_remove returns after it has freed the block. *)
Theorem trie_remove_copy_dangling :
  returns ((_ ← trie_create false; _ ← trie_insert [97] 5 2 true;
            '(q, n) ← trie_find [97] true;
            s ← in_heap (load_bytes q);
            '(r, v, _) ← trie_remove 2 [97] true false;
            mret (q, n, s, r, v)) two_bytes)
    (λ '((q, n, s, r, v), w), q ≠ 5 ∧ n = Some 2 ∧ s = [7; 8] ∧ r = 1 ∧ v = Some q ∧
       hp (tw_heap w) !! q = None).
Proof. vm_compute. done. Qed.

(** A value stored at a node that existed is not counted when it is inserted
    and is when it is removed: the empty trie ends up with count -1. *)
Example trie_count_drifts :
  returns ((_ ← trie_create false;
            run_trie 3 [Insert [97; 98; 99] 10 4; Insert [97; 98] 20 2; Remove [97; 98] false false]) trie_world0)
    (λ '(_, w), tr_count <$> tw_trie w = Some (-1) ∧ tr_node_count <$> tw_trie w = Some 0).
Proof. by vm_compute. Qed.
