(* ===== verification/Graph.v ===== *)
(** * Graphs (src/src/graph.c)

    The nodes are objects of a store, each with its queue of connections; the
    hash table of the graph is that of [Hashtable], a component of the state.
    The table calls [graph_node_destroy] on the nodes it frees: the calls do
    not touch the table, and are made in their order after the call of the
    table that frees the nodes ([on_table]). *)

From S2P Require Import Prelude Linklist Hashtable.

(** ** Data *)

Definition EGRAPHNOERR : Z := 600.
Definition EGRAPHNONODE : Z := 601.
Definition EGRAPHNOLABEL : Z := 602.
Definition EGRAPHNOMEM : Z := 603.
Definition EGRAPHTABLEERR : Z := 604.
Definition EGRAPHCONNECTIONNOTFOUND : Z := 605.

(** The error messages, by their place in the array. *)
Inductive graph_message := MNoError | MNoNode | MLabelNotPresent | MAllocationFailed | MConnectionNotFound.
Definition graph_error_messages : list graph_message :=
  [MNoError; MNoNode; MLabelNotPresent; MAllocationFailed; MConnectionNotFound].

Record graph_t := mk_graph { g_label : option cstr; g_free_value_cb : bool; g_errno : Z }.
(** A chooser is a pointer to a function of the client, 0 for none. *)
Record graph_node_connection_t := mk_connection { c_destination : Z; c_chooser : Z; c_context : Z }.
(** [n_graph]: whether the pointer to the graph is set. *)
Record graph_node_t := mk_gnode {
  n_label : option cstr; n_graph : bool; n_value : Z; n_vlen : Z; n_connections : list graph_node_connection_t
}.
(** [sizeof(graph_node_t)] with 64-bit pointers. *)
Definition GRAPH_NODE_SIZE : Z := 48.

(** [gw_alloc] lists which allocations succeed, [gw_freed] the values given to
    the free callback. *)
Record gworld := mk_gworld {
  gw_graph : option graph_t; gw_table : world; gw_nodes : gmap Z graph_node_t; gw_next : Z;
  gw_alloc : list bool; gw_freed : list Z
}.
Abbreviation G := (ST gworld).

(** ** The state *)

Definition put_graph (g : option graph_t) (w : gworld) : gworld :=
  mk_gworld g (gw_table w) (gw_nodes w) (gw_next w) (gw_alloc w) (gw_freed w).
Definition put_gtable (t : world) (w : gworld) : gworld :=
  mk_gworld (gw_graph w) t (gw_nodes w) (gw_next w) (gw_alloc w) (gw_freed w).
Definition put_gnodes (N : gmap Z graph_node_t) (w : gworld) : gworld :=
  mk_gworld (gw_graph w) (gw_table w) N (gw_next w) (gw_alloc w) (gw_freed w).

Definition load_graph : G graph_t := λ w, match gw_graph w with Some g => Ret (g, w) | None => Undef end.
Definition set_errno (e : Z) : G unit :=
  g ← load_graph; modify (put_graph (Some (mk_graph (g_label g) (g_free_value_cb g) e))).
Definition load_gnode (p : Z) : G graph_node_t := λ w,
  match gw_nodes w !! p with Some n => Ret (n, w) | None => Undef end.
Definition set_gnode (p : Z) (f : graph_node_t → graph_node_t) : G unit :=
  n ← load_gnode p; modify (λ w, put_gnodes (<[p := f n]> (gw_nodes w)) w).
Definition with_connections (l : list graph_node_connection_t) (n : graph_node_t) : graph_node_t :=
  mk_gnode (n_label n) (n_graph n) (n_value n) (n_vlen n) l.
Definition with_graph (n : graph_node_t) : graph_node_t :=
  mk_gnode (n_label n) true (n_value n) (n_vlen n) (n_connections n).
(** [node->graph->errno = e]. *)
Definition set_node_errno (p e : Z) : G unit :=
  n ← load_gnode p; if n_graph n then set_errno e else undef.

(** Whether an allocation succeeds, and [strdup]. *)
Definition galloc : G bool := λ w,
  match gw_alloc w with
  | [] => Ret (true, w)
  | b :: a => Ret (b, mk_gworld (gw_graph w) (gw_table w) (gw_nodes w) (gw_next w) a (gw_freed w))
  end.
Definition gstrdup (s : cstr) : G (option cstr) := ok ← galloc; mret (if ok : bool then Some s else None).
Definition calloc_node : G Z := λ w,
  Ret (gw_next w, mk_gworld (gw_graph w) (gw_table w) (<[gw_next w := mk_gnode None false 0 0 []]> (gw_nodes w))
                            (gw_next w + 1) (gw_alloc w) (gw_freed w)).
Definition free_gnode (p : Z) : G unit := _ ← load_gnode p; modify (λ w, put_gnodes (delete p (gw_nodes w)) w).
Definition give_gvalue (v : Z) : G unit :=
  modify (λ w, mk_gworld (gw_graph w) (gw_table w) (gw_nodes w) (gw_next w) (gw_alloc w) (gw_freed w ++ [v])).

(** ** Nodes *)

(** Each connection is unlinked and freed. *)
Fixpoint free_connections (p : Z) (l : list graph_node_connection_t) : G unit :=
  match l with
  | [] => mret tt
  | _ :: l => _ ← set_gnode p (with_connections l); free_connections p l
  end.
Definition graph_node_destroy (node : Z) : G unit :=
  n ← load_gnode node;
  _ ← (if negb (n_value n =? 0) && n_graph n then
         g ← load_graph; if g_free_value_cb g then give_gvalue (n_value n) else mret tt
       else mret tt);
  _ ← free_connections node (n_connections n);
  free_gnode node.

(** A call of the hash table, and of its callback. *)
Definition run_table {A} (m : H A) : G (A * list Z) := λ w,
  let t := gw_table w in
  '(a, t') ← m (mk_world (w_table t) (w_objs t) (w_heap t) []);
  Ret ((a, w_freed t'), put_gtable t' w).
Fixpoint destroy_nodes (l : list Z) : G unit :=
  match l with
  | [] => mret tt
  | p :: l => _ ← graph_node_destroy p; destroy_nodes l
  end.
Definition on_table {A} (m : H A) : G A := '(a, freed) ← run_table m; _ ← destroy_nodes freed; mret a.

(** The new node, 0 for null. *)
Definition graph_node_create (label : option cstr) (value vlen : Z) : G Z :=
  match label with
  | None => _ ← set_errno EGRAPHNOLABEL; mret 0
  | Some label =>
      ok ← galloc;
      if negb ok then _ ← set_errno EGRAPHNOMEM; mret 0 else
      node ← calloc_node;
      l ← gstrdup label;
      _ ← set_gnode node (λ n, mk_gnode l (n_graph n) value vlen (n_connections n));
      mret node
  end.

Definition strlen (label : option cstr) : G cstr := match label with Some l => mret l | None => undef end.

Definition graph_node_add (label : option cstr) (value vsize : Z) : G Z :=
  node ← graph_node_create label value vsize;
  _ ← set_gnode node with_graph;
  _ ← set_gnode node (with_connections []);
  l ← strlen label;
  rc ← on_table (ht_set l node GRAPH_NODE_SIZE);
  if negb (rc =? 0) then
    _ ← set_errno EGRAPHTABLEERR; _ ← graph_node_destroy node; mret 0
  else mret node.

(** The nodes written to an array of [max_connections]. *)
Fixpoint write_connections (l : list graph_node_connection_t) (num max_connections : Z) : G (list Z) :=
  match l with
  | [] => mret []
  | c :: l =>
      if num =? max_connections then mret [] else
      if max_connections <? num then undef else
      ps ← write_connections l (num + 1) max_connections; mret (c_destination c :: ps)
  end.
(** [connections]: whether the array is not null. *)
Definition graph_node_connections_get (node : Z) (connections : bool) (max_connections : Z) : G (Z * list Z) :=
  if connections then
    n ← load_gnode node;
    ps ← write_connections (n_connections n) 0 max_connections;
    mret (Z.of_nat (length ps), ps)
  else mret (0, []).

Definition graph_node_delete (label : option cstr) (connections : bool) (max_connections : Z) : G (Z * list Z) :=
  let node := 0 in
  n ← load_gnode node;
  l ← strlen (n_label n);
  '(rc, out) ← on_table (ht_delete l true false);
  let node := default node (out_data out) in
  if negb (rc =? 0) then _ ← set_errno EGRAPHTABLEERR; mret (-1, [])
  else if node =? 0 then _ ← set_errno EGRAPHNONODE; mret (-1, [])
  else
    r ← graph_node_connections_get node connections max_connections;
    _ ← graph_node_destroy node;
    mret r.

Definition graph_node_connect (node1 node2 chooser context : Z) : G Z :=
  ok ← galloc;
  if negb ok then _ ← set_node_errno node1 EGRAPHNOMEM; mret (-1) else
  n ← load_gnode node1;
  _ ← set_gnode node1 (with_connections (n_connections n ++ [mk_connection node2 chooser context]));
  mret 0.

(** The queue without its first connection to [node2], if there is one. *)
Fixpoint unlink_connection (node2 : Z) (l : list graph_node_connection_t) : option (list graph_node_connection_t) :=
  match l with
  | [] => None
  | c :: l => if c_destination c =? node2 then Some l else cons c <$> unlink_connection node2 l
  end.
Definition graph_node_disconnect (node1 node2 : Z) : G Z :=
  n ← load_gnode node1;
  match unlink_connection node2 (n_connections n) with
  | Some l => _ ← set_gnode node1 (with_connections l); mret 0
  | None => _ ← set_node_errno node1 EGRAPHCONNECTIONNOTFOUND; mret (-1)
  end.

Section choose.
(** What the client's chooser (a pointer to it) answers, for a node and a
    context, during a call. *)
Context (choose : Z → Z → Z → Z).

(** [weight] and [selected_destination]. *)
Definition select (node : Z) (r : Z * Z) (c : graph_node_connection_t) : Z * Z :=
  let '(weight, selected) := r in
  if negb (c_chooser c =? 0) then
    let w := choose (c_chooser c) node (c_context c) in
    if weight <? w then (w, c_destination c) else (weight, selected)
  else if weight =? 0 then (weight, c_destination c) else (weight, selected).
Definition graph_node_next (node : Z) : G Z :=
  n ← load_gnode node;
  mret (foldl (select node) (0, 0) (n_connections n)).2.
End choose.

Definition graph_node_label_get (node : Z) : G (option cstr) :=
  n ← load_gnode node; l ← strlen (n_label n); gstrdup l.

Definition graph_node_get (label : cstr) : G Z := '(p, _) ← on_table (ht_get label false); mret p.

(** ** Graphs *)

Definition graph_strerror : G (option graph_message) :=
  g ← load_graph;
  let index := g_errno g - 600 in
  mret (if (0 <=? index) && (index <? Z.of_nat (length graph_error_messages))
        then graph_error_messages !! Z.to_nat index else None).
Definition graph_error_reset : G unit := set_errno EGRAPHNOERR.

(** [rnd] is what [random()] answers to the table. *)
Definition graph_create (label : option cstr) (free_value_cb : bool) (rnd : Z) : G bool :=
  ok ← galloc;
  if negb ok then mret false else
  l ← match label with Some s => gstrdup s | None => mret None end;
  _ ← modify (put_graph (Some (mk_graph l free_value_cb 0)));
  ok ← on_table (ht_create 8 65536 true rnd);
  if negb ok then _ ← modify (put_graph None); mret false else
  _ ← graph_error_reset;
  mret true.

Definition graph_destroy : G unit :=
  _ ← load_graph;
  _ ← on_table ht_destroy;
  modify (put_graph None).
