(* ===== verification/GraphSpec.v ===== *)
(** * Graphs implement labelled nodes with connections

    The specification of src/src/graph.c: labels, each with the pointer to its
    node, and nodes with a value and connections in order.  The theorems use
    what [HashtableSpec] proves of the table of labels. *)

From S2P Require Import Prelude Linklist Hashtable HashtableMap HashtableSpec Graph.

Lemma returns_load_graph w g Q : gw_graph w = Some g → Q (g, w) → returns (load_graph w) Q.
Proof. unfold load_graph. by intros ->. Qed.
Lemma returns_load_gnode w p n Q : gw_nodes w !! p = Some n → Q (n, w) → returns (load_gnode p w) Q.
Proof. unfold load_gnode. by intros ->. Qed.
Lemma returns_set_gnode w p n g Q :
  gw_nodes w !! p = Some n → Q (tt, put_gnodes (<[p := g n]> (gw_nodes w)) w) → returns (set_gnode p g w) Q.
Proof. intros Hp HQ. unfold set_gnode. go. by eapply returns_load_gnode. Qed.

(** ** Destruction of nodes *)

(** What the destruction of a node gives to the free callback. *)
Definition node_freed (cb : bool) (v : Z) : list Z := if cb && negb (v =? 0) then [v] else [].

Section destroy.
Context (g : graph_t) (t : world).
(** A world of the graph [g] with the table [t]. *)
Abbreviation W N next a f := (mk_gworld (Some g) t N next a f).

Lemma free_connections_returns p l n N next a f :
  N !! p = Some n → n_connections n = l →
  returns (free_connections p l (W N next a f)) (λ '(_, w'), w' = W (<[p := with_connections [] n]> N) next a f).
Proof.
  revert n N. induction l as [|c l IH]; intros n N Hp Hl; simpl; go.
  { rewrite insert_id; [done|]. rewrite Hp. destruct n; simpl in *. by subst. }
  eapply returns_set_gnode; [exact Hp|].
  eapply returns_mono; [by apply (IH (with_connections l n)); [rewrite lookup_insert_eq|]|].
  intros [[] w'] ->. by rewrite insert_insert_eq.
Qed.

Lemma graph_node_destroy_returns p n N next a f :
  N !! p = Some n → n_graph n = true →
  returns (graph_node_destroy p (W N next a f)) (λ '(_, w'),
    w' = W (delete p N) next a (f ++ node_freed (g_free_value_cb g) (n_value n))).
Proof.
  intros Hp Hg. unfold graph_node_destroy. go. eapply returns_load_gnode; [exact Hp|]. go. rewrite Hg, andb_true_r.
  match goal with |- returns ?m _ => apply (returns_mono m (λ '(_, w'),
    w' = W N next a (f ++ node_freed (g_free_value_cb g) (n_value n)))) end.
  { unfold node_freed. destruct (n_value n =? 0); go; [by rewrite andb_false_r, app_nil_r|].
    eapply returns_load_graph; [done|]. go. rewrite andb_true_r. destruct (g_free_value_cb g); go; [done|by rewrite app_nil_r]. }
  intros [[] w1] ->. go. eapply returns_mono; [by apply (free_connections_returns p _ n)|].
  intros [[] w2] ->. unfold free_gnode. go. eapply returns_load_gnode; [apply lookup_insert_eq|]. go.
  unfold put_gnodes. simpl. by rewrite delete_insert_eq.
Qed.

(** The values of nodes, in an order of their pointers. *)
Definition node_value (N : gmap Z graph_node_t) (p : Z) : Z := match N !! p with Some n => n_value n | None => 0 end.

Lemma destroy_nodes_returns ps N next a f :
  NoDup ps → (∀ p, p ∈ ps → ∃ n, N !! p = Some n ∧ n_graph n = true) →
  returns (destroy_nodes ps (W N next a f)) (λ '(_, w'), ∃ N', w' = W N' next a
    (f ++ concat (node_freed (g_free_value_cb g) ∘ node_value N <$> ps)) ∧
    ∀ q, N' !! q = if decide (q ∈ ps) then None else N !! q).
Proof.
  revert N f. induction ps as [|p ps IH]; intros N f Hnd Hin; simpl; go.
  { exists N. split; [by rewrite app_nil_r|]. done. }
  apply NoDup_cons in Hnd as [Hp Hnd]. destruct (Hin p) as (n&Hn&Hg); [left|].
  eapply returns_mono; [by apply graph_node_destroy_returns|]. intros [[] w1] ->. go.
  eapply returns_mono; [apply IH; [done|]|].
  - intros q Hq. rewrite lookup_delete_ne by (by intros ->). apply Hin. by right.
  - intros [[] w2] (N'&->&HN'). exists N'. split.
    + assert (node_freed (g_free_value_cb g) ∘ node_value (delete p N) <$> ps =
              node_freed (g_free_value_cb g) ∘ node_value N <$> ps) as ->.
      { apply list_fmap_ext. intros i q Hq%list_elem_of_lookup_2. simpl. f_equal.
        unfold node_value. by rewrite lookup_delete_ne by (by intros ->). }
      rewrite <- app_assoc. by replace (node_value N p) with (n_value n) by (unfold node_value; by rewrite Hn).
    + intros q. rewrite HN'. destruct (decide (q = p)) as [->|Hq].
      * rewrite lookup_delete_eq, (decide_True (P := p ∈ p :: ps)) by left. by case_decide.
      * rewrite lookup_delete_ne by done. apply decide_ext. rewrite elem_of_cons. tauto.
Qed.
End destroy.

(** A call of the table that frees the values [freed]. *)
Lemma on_table_returns {A} (m : H A) w g (Q : A * gworld → Prop) :
  gw_graph w = Some g →
  returns (m (mk_world (w_table (gw_table w)) (w_objs (gw_table w)) (w_heap (gw_table w)) [])) (λ '(a, t'),
    NoDup (w_freed t') ∧ (∀ p, p ∈ w_freed t' → ∃ n, gw_nodes w !! p = Some n ∧ n_graph n = true) ∧
    ∀ N', (∀ q, N' !! q = if decide (q ∈ w_freed t') then None else gw_nodes w !! q) →
      Q (a, mk_gworld (Some g) t' N' (gw_next w) (gw_alloc w)
              (gw_freed w ++ concat (node_freed (g_free_value_cb g) ∘ node_value (gw_nodes w) <$> w_freed t')))) →
  returns (on_table m w) Q.
Proof.
  intros Hg HQ. unfold on_table, run_table. go. eapply returns_mono; [exact HQ|]. intros [a t'] (Hnd&Hin&HN). go.
  unfold put_gtable. rewrite Hg. eapply returns_mono; [by apply destroy_nodes_returns|].
  intros [[] w'] (N'&->&HN'). go. by apply HN.
Qed.

(** ** The specification *)

Record snode := mk_snode { sn_label : cstr; sn_value : Z; sn_vlen : Z; sn_connections : list graph_node_connection_t }.
(** The labels, the nodes by their pointers, the next pointer and the error. *)
Record sgraph := mk_sgraph { s_labels : gmap cstr Z; s_nodes : gmap Z snode; s_next : Z; s_errno : Z }.

Inductive gop :=
  | GAdd (label : cstr) (value vlen : Z) | GGet (label : cstr)
  | GConnect (p q chooser context : Z) | GDisconnect (p q : Z)
  | GNext (p : Z) | GConnections (p max : Z) | GLabel (p : Z)
  | GStrerror | GErrorReset.
Inductive gres :=
  | RNode (p : Z) | RCode (rc : Z) | RNodes (n : Z) (ps : list Z) | RLabel (l : option cstr)
  | RMessage (m : option graph_message) | RDone.

Section spec.
Context (choose : Z → Z → Z → Z) (cb : bool).

Definition run_gop (o : gop) : G gres :=
  match o with
  | GAdd l v n => p ← graph_node_add (Some l) v n; mret (RNode p)
  | GGet l => p ← graph_node_get l; mret (RNode p)
  | GConnect p q ch ctx => rc ← graph_node_connect p q ch ctx; mret (RCode rc)
  | GDisconnect p q => rc ← graph_node_disconnect p q; mret (RCode rc)
  | GNext p => q ← graph_node_next choose p; mret (RNode q)
  | GConnections p max => '(n, ps) ← graph_node_connections_get p true max; mret (RNodes n ps)
  | GLabel p => l ← graph_node_label_get p; mret (RLabel l)
  | GStrerror => m ← graph_strerror; mret (RMessage m)
  | GErrorReset => _ ← graph_error_reset; mret RDone
  end.
Fixpoint run_gops (os : list gop) : G (list gres) :=
  match os with
  | [] => mret []
  | o :: os => r ← run_gop o; rs ← run_gops os; mret (r :: rs)
  end.

Definition with_nodes (N : gmap Z snode) (s : sgraph) : sgraph := mk_sgraph (s_labels s) N (s_next s) (s_errno s).
Definition with_errno (e : Z) (s : sgraph) : sgraph := mk_sgraph (s_labels s) (s_nodes s) (s_next s) e.
Definition relink (l : list graph_node_connection_t) (n : snode) : snode :=
  mk_snode (sn_label n) (sn_value n) (sn_vlen n) l.

(** The node chosen: the first of those that weigh most, when one weighs
    something; the last without a chooser, when none does; or none. *)
Definition weight_of (p : Z) (c : graph_node_connection_t) : Z :=
  if c_chooser c =? 0 then 0 else Z.max 0 (choose (c_chooser c) p (c_context c)).
Definition heaviest (p : Z) (l : list graph_node_connection_t) : Z := foldr (λ c m, Z.max (weight_of p c) m) 0 l.
Definition first_heaviest (p : Z) (l : list graph_node_connection_t) : option graph_node_connection_t :=
  head (filter (λ c, weight_of p c = heaviest p l) l).
Definition next_node (p : Z) (l : list graph_node_connection_t) : option Z :=
  if heaviest p l =? 0
  then c_destination <$> last (filter (λ c, c_chooser c = 0) l)
  else c_destination <$> first_heaviest p l.

Definition gspec (s : sgraph) (o : gop) : sgraph * gres * list Z :=
  let node p f := match s_nodes s !! p with Some n => f n | None => (s, RDone, []) end in
  match o with
  | GAdd l v n =>
      let p := s_next s in
      let old := s_labels s !! l in
      let N := match old with Some q => delete q (s_nodes s) | None => s_nodes s end in
      (mk_sgraph (<[l := p]> (s_labels s)) (<[p := mk_snode l v n []]> N) (p + 1) (s_errno s), RNode p,
       match old ≫= λ q, s_nodes s !! q with Some n => node_freed cb (sn_value n) | None => [] end)
  | GGet l => (s, RNode (default 0 (s_labels s !! l)), [])
  | GConnect p q ch ctx =>
      node p (λ n, (with_nodes (<[p := relink (sn_connections n ++ [mk_connection q ch ctx]) n]> (s_nodes s)) s, RCode 0, []))
  | GDisconnect p q =>
      node p (λ n, match list_find (λ c, c_destination c = q) (sn_connections n) with
                   | Some (i, _) => (with_nodes (<[p := relink (delete i (sn_connections n)) n]> (s_nodes s)) s, RCode 0, [])
                   | None => (with_errno EGRAPHCONNECTIONNOTFOUND s, RCode (-1), [])
                   end)
  | GNext p => node p (λ n, (s, RNode (default 0 (next_node p (sn_connections n))), []))
  | GConnections p max =>
      node p (λ n, let ps := take (Z.to_nat max) (c_destination <$> sn_connections n) in
                   (s, RNodes (Z.of_nat (length ps)) ps, []))
  | GLabel p => node p (λ n, (s, RLabel (Some (sn_label n)), []))
  | GStrerror => (s, RMessage (graph_error_messages !! Z.to_nat (s_errno s - 600)), [])
  | GErrorReset => (with_errno EGRAPHNOERR s, RDone, [])
  end.
Fixpoint gspec_run (s : sgraph) (os : list gop) : list gres * sgraph * list Z :=
  match os with
  | [] => ([], s, [])
  | o :: os =>
      let '(s1, r, f1) := gspec s o in
      let '(rs, s2, f2) := gspec_run s1 os in (r :: rs, s2, f1 ++ f2)
  end.

(** Labels are not empty, nodes exist, arrays have a size. *)
Definition gop_ok (s : sgraph) (o : gop) : Prop :=
  match o with
  | GAdd l _ _ => l ≠ [] ∧ Z.of_nat (size (s_labels s)) + 1 < 2 ^ 64
  | GGet l => l ≠ []
  | GConnect p _ _ _ | GDisconnect p _ | GNext p | GLabel p => is_Some (s_nodes s !! p)
  | GConnections p max => is_Some (s_nodes s !! p) ∧ 0 ≤ max
  | GStrerror | GErrorReset => True
  end.
Fixpoint gops_ok (s : sgraph) (os : list gop) : Prop :=
  match os with [] => True | o :: os => gop_ok s o ∧ gops_ok (gspec s o).1.1 os end.
End spec.

(** ** The invariant *)

Definition node_of (n : snode) : graph_node_t :=
  mk_gnode (Some (sn_label n)) true (sn_value n) (sn_vlen n) (sn_connections n).
(** The table of the labels. *)
Definition label_map (s : sgraph) : gmap cstr (Z * Z) := (λ p, (p, GRAPH_NODE_SIZE)) <$> s_labels s.

(** Labels and nodes correspond one to one. *)
Record sgraph_ok (s : sgraph) : Prop := {
  so_label : ∀ l p, s_labels s !! l = Some p → ∃ n, s_nodes s !! p = Some n ∧ sn_label n = l;
  so_node : ∀ p n, s_nodes s !! p = Some n → s_labels s !! sn_label n = Some p;
  so_fresh : ∀ p, is_Some (s_nodes s !! p) → 0 < p < s_next s;
  so_next : 0 < s_next s;
  so_errno : s_errno s = EGRAPHNOERR ∨ s_errno s = EGRAPHCONNECTIONNOTFOUND
}.
Record graph_in (label : option cstr) (cb : bool) (s : sgraph) (w : gworld) : Prop := {
  gi_graph : gw_graph w = Some (mk_graph label cb (s_errno s));
  gi_table : map_in true (gw_table w) (label_map s);
  gi_heap : alloc_ok (w_heap (gw_table w));
  gi_nodes : gw_nodes w = node_of <$> s_nodes s;
  gi_next : gw_next w = s_next s;
  gi_alloc : false ∉ gw_alloc w;
  gi_ok : sgraph_ok s
}.

(** ** Operations *)

Lemma returns_galloc w Q :
  false ∉ gw_alloc w →
  (∀ a, false ∉ a → Q (true, mk_gworld (gw_graph w) (gw_table w) (gw_nodes w) (gw_next w) a (gw_freed w))) →
  returns (galloc w) Q.
Proof.
  unfold galloc. destruct w as [g t N nx [|b a] f]; simpl; intros Ha HQ; [by apply HQ|].
  apply not_elem_of_cons in Ha as [Hb Ha]. destruct b; [|done]. by apply HQ.
Qed.

Section operations.
Context (label : option cstr) (cb : bool) (s : sgraph) (w : gworld) (Hin : graph_in label cb s w).

Lemma gi_fresh : gw_nodes w !! s_next s = None.
Proof using Hin.
  destruct Hin as [_ _ _ -> _ _ Hok]. rewrite lookup_fmap. destruct (s_nodes s !! s_next s) as [n|] eqn:E; [|done].
  destruct (so_fresh s Hok (s_next s)); [by eexists|]. lia.
Qed.
Lemma gi_lookup p n : s_nodes s !! p = Some n → gw_nodes w !! p = Some (node_of n).
Proof using Hin. destruct Hin as [_ _ _ -> _ _ _]. rewrite lookup_fmap. by intros ->. Qed.

Lemma graph_node_create_returns l v n :
  returns (graph_node_create (Some l) v n w) (λ '(p, w'), p = s_next s ∧ ∃ a, false ∉ a ∧
    w' = mk_gworld (gw_graph w) (gw_table w) (<[s_next s := mk_gnode (Some l) false v n []]> (gw_nodes w))
           (s_next s + 1) a (gw_freed w)).
Proof using Hin.
  unfold graph_node_create. go. apply returns_galloc; [by destruct Hin|]. intros a1 Ha1. go. unfold calloc_node. go.
  simpl. rewrite (gi_next _ _ _ _ Hin). unfold gstrdup. go. apply returns_galloc; [done|]. intros a2 Ha2. go. simpl.
  eapply returns_set_gnode; [apply lookup_insert_eq|]. go. split; [done|]. exists a2. split; [done|].
  unfold put_gnodes. simpl. by rewrite insert_insert_eq.
Qed.

(** A change of one node, and of the error. *)
Lemma graph_in_set p n l :
  s_nodes s !! p = Some n →
  graph_in label cb (with_nodes (<[p := relink l n]> (s_nodes s)) s)
    (put_gnodes (<[p := with_connections l (node_of n)]> (gw_nodes w)) w).
Proof using Hin.
  intros Hp. destruct Hin as [Hg Ht Hh HN Hn Ha [Hl Hno Hf Hnx He]]. split; try done.
  - simpl. by rewrite HN, fmap_insert.
  - split; try done; simpl.
    + intros l' q Hq. destruct (Hl l' q Hq) as (n'&Hn'&Hl'). destruct (decide (q = p)) as [->|Hne].
      * simplify_eq. rewrite lookup_insert_eq. by eexists.
      * rewrite lookup_insert_ne by done. by exists n'.
    + intros q n' [[<- <-]|[Hne Hq]]%lookup_insert_Some; [exact (Hno p n Hp)|by apply Hno].
    + intros q Hq. apply Hf. destruct (decide (q = p)) as [->|Hne]; [by exists n|]. by rewrite lookup_insert_ne in Hq.
Qed.
Lemma graph_in_errno e :
  e = EGRAPHNOERR ∨ e = EGRAPHCONNECTIONNOTFOUND →
  graph_in label cb (with_errno e s) (put_graph (Some (mk_graph label cb e)) w).
Proof using Hin. intros He. destruct Hin as [Hg Ht Hh HN Hn Ha []]. by split. Qed.
Lemma set_errno_returns e Q :
  Q (tt, put_graph (Some (mk_graph label cb e)) w) → returns (set_errno e w) Q.
Proof using Hin. intros HQ. unfold set_errno. go. eapply returns_load_graph; [by destruct Hin|]. by go. Qed.
Lemma graph_in_alloc a : false ∉ a →
  graph_in label cb s (mk_gworld (gw_graph w) (gw_table w) (gw_nodes w) (gw_next w) a (gw_freed w)).
Proof using Hin. by destruct Hin. Qed.
End operations.

(** The queue without its first connection to a node. *)
Lemma unlink_connection_find q l :
  unlink_connection q l = (λ '(i, _), delete i l) <$> list_find (λ c, c_destination c = q) l.
Proof.
  induction l as [|c l IH]; simpl; [done|]. destruct (Z.eqb_spec (c_destination c) q) as [E|E].
  - by rewrite decide_True.
  - rewrite decide_False, IH by done. by destruct (list_find _ l) as [[i c']|].
Qed.

Lemma write_connections_returns l num max w :
  0 ≤ num ≤ max →
  returns (write_connections l num max w) (λ '(ps, w'),
    ps = take (Z.to_nat (max - num)) (c_destination <$> l) ∧ w' = w).
Proof.
  revert num. induction l as [|c l IH]; intros num Hn; simpl; go; [by rewrite take_nil|].
  destruct (Z.eqb_spec num max) as [->|Hne]; go; [by rewrite Z.sub_diag|].
  rewrite (proj2 (Z.ltb_ge _ _)) by lia. go. eapply returns_mono; [apply IH; lia|]. intros [ps w'] [-> ->]. go.
  replace (Z.to_nat (max - num)) with (S (Z.to_nat (max - (num + 1)))) by lia. done.
Qed.

(** ** The choice of the next node *)

Section choice.
Context (choose : Z → Z → Z → Z) (p : Z).
Abbreviation weight := (weight_of choose p).
Abbreviation heaviest := (heaviest choose p).

Lemma heaviest_nonneg l : 0 ≤ heaviest l.
Proof. induction l as [|c l IH]; simpl; lia. Qed.
Lemma weight_nonneg c : 0 ≤ weight c.
Proof. unfold weight_of. case_match; lia. Qed.

Lemma select_step m d c :
  0 ≤ m → select choose p (m, d) c =
    (Z.max m (weight c),
     if m <? weight c then c_destination c else if (m =? 0) && (c_chooser c =? 0) then c_destination c else d).
Proof.
  intros Hm. unfold select, weight_of. destruct (Z.eqb_spec (c_chooser c) 0) as [E|E]; cbn [negb].
  - rewrite (proj2 (Z.ltb_ge m 0)), Z.max_l, andb_true_r by lia. by destruct (m =? 0).
  - rewrite andb_false_r. destruct (Z.ltb_spec m (choose (c_chooser c) p (c_context c))).
    + rewrite (proj2 (Z.ltb_lt _ _)) by lia. f_equal. lia.
    + rewrite (proj2 (Z.ltb_ge _ _)) by lia. f_equal. lia.
Qed.

(** The first of the heaviest connections. *)
Abbreviation first_heaviest := (first_heaviest choose p).
Lemma first_heaviest_here c l : heaviest l ≤ weight c → first_heaviest (c :: l) = Some c.
Proof. intros Hc. unfold GraphSpec.first_heaviest. rewrite filter_cons. simpl. by rewrite decide_True by lia. Qed.
Lemma first_heaviest_later c l : weight c < heaviest l → first_heaviest (c :: l) = first_heaviest l.
Proof.
  intros Hc. assert (Hm : heaviest (c :: l) = heaviest l) by (simpl; lia).
  unfold GraphSpec.first_heaviest. rewrite Hm, filter_cons, decide_False by lia. done.
Qed.
Lemma first_heaviest_some l : 0 < heaviest l → is_Some (first_heaviest l).
Proof.
  induction l as [|c l IH]; [done|]. intros Hl. destruct (decide (heaviest l ≤ weight c)) as [Hc|Hc].
  - rewrite first_heaviest_here by done. by eexists.
  - rewrite first_heaviest_later by lia. apply IH. pose proof (weight_nonneg c). lia.
Qed.

(** From a positive weight, only a heavier connection is chosen. *)
Lemma select_heavy l m d :
  0 < m → (foldl (select choose p) (m, d) l).2 =
    if m <? heaviest l then default 0 (c_destination <$> first_heaviest l) else d.
Proof.
  revert m d. induction l as [|c l IH]; intros m d Hm.
  { simpl. by rewrite (proj2 (Z.ltb_ge _ _)) by lia. }
  pose proof (heaviest_nonneg l) as Hl. cbn [foldl]. rewrite select_step, IH by lia.
  rewrite (proj2 (Z.eqb_neq m 0)) by lia. cbn [andb].
  assert (Hh : heaviest (c :: l) = Z.max (weight c) (heaviest l)) by done.
  destruct (decide (heaviest l ≤ weight c)) as [Hc|Hc].
  - rewrite (proj2 (Z.ltb_ge _ _)), Hh by lia. rewrite Z.max_l, first_heaviest_here by lia. done.
  - rewrite first_heaviest_later, Hh by lia. rewrite (Z.max_r (weight c)) by lia.
    destruct (Z.ltb_spec m (heaviest l)).
    + by rewrite (proj2 (Z.ltb_lt _ _)) by lia.
    + by rewrite (proj2 (Z.ltb_ge _ _)), (proj2 (Z.ltb_ge m _)) by lia.
Qed.

Lemma select_next l d : (foldl (select choose p) (0, d) l).2 = default d (next_node choose p l).
Proof.
  revert d. induction l as [|c l IH]; intros d; [done|].
  pose proof (heaviest_nonneg l) as Hl. pose proof (weight_nonneg c) as Hw.
  cbn [foldl]. rewrite select_step by lia. unfold next_node.
  assert (Hh : heaviest (c :: l) = Z.max (weight c) (heaviest l)) by done.
  destruct (decide (weight c = 0)) as [H0|H0].
  - rewrite H0. cbn [Z.max Z.ltb Z.compare Z.eqb andb]. rewrite IH. unfold next_node. rewrite Hh, H0, Z.max_r by lia.
    destruct (Z.eqb_spec (heaviest l) 0) as [E|E].
    + rewrite filter_cons. destruct (Z.eqb_spec (c_chooser c) 0) as [Ec|Ec].
      * rewrite decide_True, last_cons by done. by destruct (last _).
      * by rewrite decide_False by done.
    + assert (Hf : first_heaviest (c :: l) = first_heaviest l) by (apply first_heaviest_later; lia).
      rewrite Hf.
      destruct (first_heaviest_some l) as [x ->]; [lia|done].
  - rewrite (proj2 (Z.ltb_lt 0 _)), (Z.max_r 0), select_heavy by lia. rewrite Hh, (proj2 (Z.eqb_neq _ _)) by lia.
    destruct (Z.ltb_spec (weight c) (heaviest l)) as [E|E].
    + rewrite first_heaviest_later by lia. destruct (first_heaviest_some l) as [x ->]; [lia|done].
    + by rewrite first_heaviest_here by lia.
Qed.
End choice.

(** ** Each operation *)

Section steps.
Context (choose : Z → Z → Z → Z) (label : option cstr) (cb : bool).
Abbreviation graph_in := (graph_in label cb).

(** The end of an operation: the new state, its result, the values freed. *)
Definition step_ok (w : gworld) (sr : sgraph * gres * list Z) (r : gres) (w' : gworld) : Prop :=
  graph_in sr.1.1 w' ∧ r = sr.1.2 ∧ gw_freed w' = gw_freed w ++ sr.2.

Lemma graph_node_get_ok s w l :
  graph_in s w → l ≠ [] →
  returns (graph_node_get l w) (λ '(p, w'), graph_in s w' ∧ p = default 0 (s_labels s !! l) ∧ gw_freed w' = gw_freed w).
Proof.
  intros Hin Hl. unfold graph_node_get. go. eapply on_table_returns; [by destruct Hin|].
  eapply returns_mono; [eapply (ht_get_returns true); [exact (gi_table _ _ _ _ Hin)|done]|].
  intros [[q n] t'] [Hr (Hh&Hf&Hm)]. cbn [w_freed app] in Hf. rewrite Hf.
  split; [constructor|]. split; [by intros p ?%not_elem_of_nil|]. intros N' HN'. go.
  assert (N' = gw_nodes w) as -> by (apply map_eq; intros q'; by rewrite HN').
  split; [|split].
  - destruct Hin. split; try done. cbn [gw_table]. by rewrite Hh.
  - unfold label_map in Hr. rewrite lookup_fmap in Hr. destruct (s_labels s !! l); by simplify_eq/=.
  - by rewrite app_nil_r.
Qed.

Lemma label_map_add L N nx e l p : label_map (mk_sgraph (<[l := p]> L) N nx e) =
  <[l := (p, GRAPH_NODE_SIZE)]> ((λ p, (p, GRAPH_NODE_SIZE)) <$> L).
Proof. unfold label_map. simpl. by rewrite fmap_insert. Qed.
Lemma label_map_lookup s l : label_map s !! l = (λ p, (p, GRAPH_NODE_SIZE)) <$> s_labels s !! l.
Proof. apply lookup_fmap. Qed.

(** The node of a label that is replaced. *)
Definition replaced (s : sgraph) (l : cstr) : list Z := match s_labels s !! l with Some q => [q] | None => [] end.

Lemma sgraph_ok_add s l v n :
  sgraph_ok s → sgraph_ok (gspec choose cb s (GAdd l v n)).1.1.
Proof.
  intros [Hl Hno Hf Hnx He]. simpl. split; simpl; try done; [| | |lia].
  - intros l' p [[<- <-]|[Hne Hp]]%lookup_insert_Some; [by rewrite lookup_insert_eq; eexists|].
    destruct (Hl l' p Hp) as (n'&Hn'&Hl'). exists n'. split; [|done].
    destruct (Hf p); [by eexists|]. rewrite lookup_insert_ne by lia.
    destruct (s_labels s !! l) as [q|] eqn:Eq; [|done]. rewrite lookup_delete_ne; [done|].
    intros ->. destruct (Hl l p Eq) as (n''&Hn''&<-). simplify_eq.
  - intros p n' [[<- <-]|[Hne Hp]]%lookup_insert_Some; [by rewrite lookup_insert_eq|].
    assert (Hp' : s_nodes s !! p = Some n').
    { destruct (s_labels s !! l); [by apply lookup_delete_Some in Hp as [_ ?]|done]. }
    rewrite lookup_insert_ne; [by apply Hno|]. intros E. pose proof (Hno p n' Hp') as Hlab. rewrite <- E in Hlab. rewrite Hlab in Hp.
    by rewrite lookup_delete_eq in Hp.
  - intros p Hp. destruct (decide (p = s_next s)) as [->|Hne]; [lia|]. rewrite lookup_insert_ne in Hp by done.
    assert (is_Some (s_nodes s !! p)) as ?%Hf; [|lia].
    destruct (s_labels s !! l) as [q|]; [|done]. destruct Hp as [n' [_ ?]%lookup_delete_Some]. by eexists.
Qed.

(** The state after the addition of a node, whose table is [t']. *)
Lemma graph_added s w l v n a t' freed N' :
  graph_in s w → gop_ok s (GAdd l v n) → false ∉ a →
  let nd := node_of (mk_snode l v n []) in
  set_result true (mk_world (w_table (gw_table w)) (w_objs (gw_table w)) (w_heap (gw_table w)) [])
    (<[l := (s_next s, GRAPH_NODE_SIZE)]> (label_map s)) freed t' →
  (∀ q, N' !! q = if decide (q ∈ replaced s l) then None else <[s_next s := nd]> (gw_nodes w) !! q) →
  step_ok w (gspec choose cb s (GAdd l v n)) (RNode (s_next s))
    (mk_gworld (Some (mk_graph label cb (s_errno s))) t' N' (s_next s + 1) a
      (gw_freed w ++ concat (node_freed cb ∘ node_value (<[s_next s := nd]> (gw_nodes w)) <$> replaced s l))).
Proof.
  intros [_ _ _ HN _ _ Hok] [Hl Hsz] Ha nd (Hex&_&Hm) HN'. pose proof Hok as [Hlab Hno Hfr Hnx _].
  split; [|split; [done|]].
  - split; simpl; try done; [by rewrite label_map_add|by destruct Hex| |by apply sgraph_ok_add].
    apply map_eq. intros q. rewrite HN', HN. unfold replaced, nd.
    destruct (decide (q = s_next s)) as [->|Hq].
    + rewrite lookup_fmap, !lookup_insert_eq. destruct (s_labels s !! l) as [q|] eqn:E; [|done].
      destruct (Hlab l q E) as (n'&Hn'&_). destruct (Hfr q); [by eexists|].
      rewrite decide_False by (rewrite list_elem_of_singleton; lia). done.
    + rewrite lookup_fmap, !lookup_insert_ne, lookup_fmap by done. destruct (s_labels s !! l) as [q'|]; [|done].
      destruct (decide (q = q')) as [->|Hq'].
      * by rewrite decide_True, lookup_delete_eq by (by apply list_elem_of_singleton).
      * by rewrite decide_False, lookup_delete_ne by (rewrite ?list_elem_of_singleton; done).
  - simpl. f_equal. unfold replaced. destruct (s_labels s !! l) as [q|] eqn:E; [|done]. simpl. rewrite app_nil_r.
    destruct (Hlab l q E) as (n'&Hn'&_). destruct (Hfr q); [by eexists|]. rewrite Hn'. unfold node_value.
    rewrite lookup_insert_ne by lia. by rewrite HN, lookup_fmap, Hn'.
Qed.

Lemma graph_node_add_ok s w l v n :
  graph_in s w → gop_ok s (GAdd l v n) →
  returns (graph_node_add (Some l) v n w) (λ '(p, w'), step_ok w (gspec choose cb s (GAdd l v n)) (RNode p) w').
Proof.
  intros Hin Hgo. pose proof Hgo as [Hl Hsz]. unfold graph_node_add. go.
  eapply returns_mono; [by eapply graph_node_create_returns|]. intros [p w1] (->&a&Ha&->). go.
  eapply returns_set_gnode; [apply lookup_insert_eq|]. go. cbn [gw_nodes put_gnodes].
  eapply returns_set_gnode; [apply lookup_insert_eq|]. go. cbn [gw_nodes put_gnodes]. rewrite !insert_insert_eq.
  unfold strlen. go. eapply on_table_returns; [by destruct Hin|]. unfold ht_set. go.
  pose proof Hin as [Hg Ht Hh HN Hn Hal Hok]. pose proof Hok as [Hlab Hno Hfr Hnx _].
  eapply (set_value_returns true); [exact Ht|done|done|lia|by unfold label_map; rewrite map_size_fmap|].
  intros t'. unfold Spec.set. rewrite label_map_lookup.
  pose proof (λ freed N', graph_added s w l v n a t' freed N' Hin Hgo Ha) as Hfin. unfold replaced in Hfin.
  destruct (s_labels s !! l) as [q|] eqn:E; simpl.
  - intros Hr. pose proof Hr as (_&Hf&_). simpl in Hf. rewrite Hf. go. split; [apply NoDup_singleton|].
    destruct (Hlab l q E) as (n'&Hn'&_). destruct (Hfr q); [by eexists|]. split.
    + intros q' ->%list_elem_of_singleton. rewrite lookup_insert_ne by lia. exists (node_of n').
      by rewrite HN, lookup_fmap, Hn'.
    + intros N' HN'. cbn [Z.eqb negb]. go. by eapply Hfin.
  - intros Hr. pose proof Hr as (_&Hf&_). simpl in Hf. rewrite Hf. go. split; [apply NoDup_nil_2|].
    split; [by intros q ?%not_elem_of_nil|]. intros N' HN'. cbn [Z.eqb negb]. go. by eapply Hfin.
Qed.
Lemma graph_strerror_ok s : s_errno s = EGRAPHNOERR ∨ s_errno s = EGRAPHCONNECTIONNOTFOUND →
  (let index := s_errno s - 600 in
   if (0 <=? index) && (index <? Z.of_nat (length graph_error_messages))
   then graph_error_messages !! Z.to_nat index else None) = graph_error_messages !! Z.to_nat (s_errno s - 600).
Proof. by intros [-> | ->]. Qed.

Lemma run_gop_ok s w o :
  graph_in s w → gop_ok s o →
  returns (run_gop choose o w) (λ '(r, w'), step_ok w (gspec choose cb s o) r w').
Proof.
  intros Hin Ho. destruct o as [l v n|l|p q ch ctx|p q|p|p max|p| |]; simpl run_gop; go.
  - eapply returns_mono; [by apply graph_node_add_ok|]. intros [p w'] Hok. by go.
  - eapply returns_mono; [by apply (graph_node_get_ok s)|]. intros [p w'] (Hin'&->&Hf). go.
    split; [done|]. split; [done|]. simpl. by rewrite app_nil_r.
  - destruct Ho as [n Hn]. unfold graph_node_connect. go. apply returns_galloc; [by destruct Hin|]. intros a Ha. go.
    pose proof (graph_in_alloc _ _ _ _ Hin a Ha) as Hin'. pose proof (gi_lookup _ _ _ _ Hin p n Hn) as Hp.
    eapply returns_load_gnode; [exact Hp|]. go. eapply returns_set_gnode; [exact Hp|]. go.
    unfold step_ok. simpl. rewrite Hn. simpl. split; [|by rewrite app_nil_r]. apply (graph_in_set _ _ _ _ Hin' p n _ Hn).
  - destruct Ho as [n Hn]. pose proof (gi_lookup _ _ _ _ Hin p n Hn) as Hp. unfold graph_node_disconnect. go.
    eapply returns_load_gnode; [exact Hp|]. cbn [n_connections node_of]. rewrite unlink_connection_find.
    unfold step_ok. simpl. rewrite Hn. destruct (list_find _ _) as [[i c]|]; simpl; go.
    + eapply returns_set_gnode; [exact Hp|]. go. split; [|by rewrite app_nil_r]. by eapply graph_in_set.
    + unfold set_node_errno. go. eapply returns_load_gnode; [exact Hp|]. cbn [n_graph node_of].
      eapply set_errno_returns; [exact Hin|]. go. split; [|by rewrite app_nil_r]. eapply graph_in_errno; [done|by right].
  - destruct Ho as [n Hn]. pose proof (gi_lookup _ _ _ _ Hin p n Hn) as Hp. unfold graph_node_next. go.
    eapply returns_load_gnode; [exact Hp|]. go. unfold step_ok. simpl. rewrite Hn, select_next. simpl. by rewrite app_nil_r.
  - destruct Ho as [[n Hn] Hm]. pose proof (gi_lookup _ _ _ _ Hin p n Hn) as Hp. unfold graph_node_connections_get. go.
    eapply returns_load_gnode; [exact Hp|]. go. eapply returns_mono; [apply write_connections_returns; lia|].
    intros [ps w'] [-> ->]. go. unfold step_ok. simpl. rewrite Hn, Z.sub_0_r. simpl. by rewrite app_nil_r.
  - destruct Ho as [n Hn]. pose proof (gi_lookup _ _ _ _ Hin p n Hn) as Hp. unfold graph_node_label_get. go.
    eapply returns_load_gnode; [exact Hp|]. go. unfold strlen, gstrdup. simpl. go.
    apply returns_galloc; [by destruct Hin|]. intros a Ha. go. unfold step_ok. simpl. rewrite Hn. simpl.
    split; [by eapply graph_in_alloc|by rewrite app_nil_r].
  - unfold graph_strerror. go. eapply returns_load_graph; [by destruct Hin|]. go. unfold step_ok. simpl.
    split; [done|]. split; [|by rewrite app_nil_r]. f_equal. apply graph_strerror_ok. by destruct Hin as [_ _ _ _ _ _ []].
  - unfold graph_error_reset. go. eapply set_errno_returns; [exact Hin|]. go. unfold step_ok. simpl.
    split; [|by rewrite app_nil_r]. eapply graph_in_errno; [done|by left].
Qed.

Lemma run_gops_ok os s w :
  graph_in s w → gops_ok choose cb s os →
  returns (run_gops choose os w) (λ '(rs, w'), ∃ s' freed, graph_in s' w' ∧
    gspec_run choose cb s os = (rs, s', freed) ∧ gw_freed w' = gw_freed w ++ freed).
Proof.
  revert s w. induction os as [|o os IH]; intros s w Hin Hos; simpl; go.
  { exists s, []. by rewrite app_nil_r. }
  destruct Hos as [Ho Hos]. eapply returns_mono; [by apply (run_gop_ok s)|]. intros [r w1] (Hin1&->&Hf1).
  destruct (gspec choose cb s o) as [[s1 r1] f1]. simpl in *. go.
  eapply returns_mono; [by apply (IH s1)|]. intros [rs w2] (s2&f2&Hin2&Hrun&Hf2). go. exists s2, (f1 ++ f2).
  by rewrite Hrun, Hf2, Hf1, app_assoc.
Qed.

(** ** Creation and destruction *)

Definition new_sgraph (next : Z) : sgraph := mk_sgraph ∅ ∅ next EGRAPHNOERR.

(** A world with no graph and no node. *)
Definition no_graph (w : gworld) : Prop :=
  gw_nodes w = ∅ ∧ 0 < gw_next w ∧ false ∉ gw_alloc w ∧
  (∀ p x, w_objs (gw_table w) !! p = Some x → 0 < p < hp_next (w_heap (gw_table w))) ∧
  wf_heap (w_heap (gw_table w)) ∧ alloc_ok (w_heap (gw_table w)).

Lemma graph_create_ok rnd w :
  no_graph w →
  returns (graph_create label cb rnd w) (λ '(ok, w'),
    ok = true ∧ graph_in (new_sgraph (gw_next w)) w' ∧ gw_freed w' = gw_freed w).
Proof.
  intros (HN&Hnx&Ha&Hfr&Hwf&Hal). unfold graph_create. go. apply returns_galloc; [done|]. intros a1 Ha1. go.
  match goal with |- returns ?m _ => apply (returns_mono m (λ '(l, w'), l = label ∧ ∃ a, false ∉ a ∧
    w' = mk_gworld (gw_graph w) (gw_table w) (gw_nodes w) (gw_next w) a (gw_freed w))) end.
  { destruct label as [l|]; [|by go; eauto]. unfold gstrdup. go. apply returns_galloc; [done|]. intros a2 Ha2. go. eauto. }
  intros [l w1] (->&a&Ha2&->). go. eapply on_table_returns; [done|]. cbn [gw_table put_graph gw_nodes gw_next gw_alloc gw_freed].
  eapply returns_mono; [by apply (ht_create_returns 8 65536 true rnd)|]. intros [ok t'] (->&Hex&Hf&Hm).
  cbn [w_freed app] in Hf. rewrite Hf. split; [constructor|]. split; [by intros p ?%not_elem_of_nil|]. intros N' HN'. go.
  unfold graph_error_reset, set_errno. go. eapply returns_load_graph; [done|]. go. split; [done|].
  split; [|by rewrite app_nil_r]. split; simpl; try done; [by destruct Hex| |].
  - apply map_eq. intros q. by rewrite HN', HN.
  - split; simpl; try done; [by intros p [? ?]|by left].
Qed.

Lemma graph_destroy_ok s w :
  graph_in s w →
  returns (graph_destroy w) (λ '(_, w'), gw_graph w' = None ∧ gw_nodes w' = ∅ ∧ w_table (gw_table w') = None ∧
    ∃ vs, vs ≡ₚ (if cb then filter (λ v, v ≠ 0) (sn_value ∘ snd <$> map_to_list (s_nodes s)) else []) ∧
      gw_freed w' = gw_freed w ++ vs).
Proof.
  intros Hin. pose proof Hin as [Hg Ht _ HN _ _ [Hl Hno Hf _ _]]. pose proof Ht as (t&_&Hwt&_).
  unfold graph_destroy. go. eapply returns_load_graph; [done|]. go. eapply on_table_returns; [done|].
  eapply returns_mono; [eapply (ht_destroy_returns true); [exact Ht|exact Hwt]|].
  intros [[] t'] (fr&Hfr&Hfr'&Htab&_&_). cbn [w_freed app] in Hfr'. rewrite Hfr'.
  assert (Hps : fr ≡ₚ (map_to_list (s_nodes s)).*1).
  { rewrite Hfr. unfold HashtableSpec.values, label_map. rewrite map_to_list_fmap, <- list_fmap_compose.
    apply NoDup_Permutation; [|apply NoDup_fst_map_to_list|].
    - apply NoDup_fmap_2_strong; [|apply NoDup_map_to_list].
      intros [l1 p1] [l2 p2] H1%elem_of_map_to_list H2%elem_of_map_to_list. simpl. intros ->.
      destruct (Hl l1 p2 H1) as (n1&Hn1&<-), (Hl l2 p2 H2) as (n2&Hn2&<-). by simplify_eq.
    - intros p. rewrite !list_elem_of_fmap. split.
      + intros ([l q]&->&Hp%elem_of_map_to_list). destruct (Hl l q Hp) as (n&Hn&_).
        exists (q, n). split; [done|]. by apply elem_of_map_to_list.
      + intros ([q n]&->&Hp%elem_of_map_to_list). exists (sn_label n, q). split; [done|].
        apply elem_of_map_to_list. by apply Hno. }
  split; [rewrite Hps; apply NoDup_fst_map_to_list|]. split.
  { intros p. rewrite Hps. intros ([q n]&->&Hp%elem_of_map_to_list)%list_elem_of_fmap. exists (node_of n).
    simpl. by rewrite HN, lookup_fmap, Hp. }
  intros N' HN'. go. simpl. split; [done|]. split; [|split; [done|eexists; split; [|done]]].
  - apply map_eq. intros q. rewrite HN', lookup_empty. case_decide as E; [done|].
    rewrite HN, lookup_fmap. destruct (s_nodes s !! q) as [n|] eqn:Eq; [|done]. destruct E. rewrite Hps.
    apply list_elem_of_fmap. exists (q, n). split; [done|]. by apply elem_of_map_to_list.
  - rewrite Hps. rewrite <- list_fmap_compose.
    assert (∀ l : list (Z * snode), (∀ x, x ∈ l → s_nodes s !! x.1 = Some x.2) →
      concat ((node_freed cb ∘ node_value (gw_nodes w)) ∘ fst <$> l) =
      if cb then filter (λ v, v ≠ 0) (sn_value ∘ snd <$> l) else []) as ->; [|done|].
    + induction l as [|[q n] l IH]; intros Hall; [by destruct cb|]. rewrite !fmap_cons. simpl concat.
      rewrite IH by (intros x Hx; apply Hall; by right). pose proof (Hall (q, n) ltac:(left)) as Hq. simpl in Hq.
      assert (node_value (gw_nodes w) q = sn_value n) as E by (unfold node_value; by rewrite HN, lookup_fmap, Hq).
      unfold compose at 1 2. simpl. rewrite E. unfold node_freed.
      destruct cb; [|done]. simpl. rewrite filter_cons. by destruct (Z.eqb_spec (sn_value n) 0); case_decide.
    + intros [q n] Hx%elem_of_map_to_list. done.
Qed.
End steps.

(** The first element of a list that satisfies a property, and the last one. *)
Lemma head_filter_Some {A} (P : A → Prop) `{!∀ x, Decision (P x)} l x :
  head (filter P l) = Some x → ∃ l1 l2, l = l1 ++ x :: l2 ∧ P x ∧ Forall (λ y, ¬ P y) l1.
Proof.
  induction l as [|y l IH]; [done|]. rewrite filter_cons. case_decide as Hy.
  - intros [= ->]. by exists [], l.
  - intros (l1&l2&->&Hx&Hl1)%IH. exists (y :: l1), l2. by repeat constructor.
Qed.
Lemma last_filter_Some {A} (P : A → Prop) `{!∀ x, Decision (P x)} l x :
  last (filter P l) = Some x → ∃ l1 l2, l = l1 ++ x :: l2 ∧ P x ∧ Forall (λ y, ¬ P y) l2.
Proof.
  induction l as [|y l IH] using rev_ind; [done|]. rewrite filter_app, filter_cons, filter_nil. case_decide as Hy.
  - rewrite last_snoc. intros [= ->]. by exists l, [].
  - rewrite app_nil_r. intros (l1&l2&->&Hx&Hl2)%IH. exists l1, (l2 ++ [y]).
    rewrite <- app_assoc. split; [done|]. split; [done|]. apply Forall_app. by repeat constructor.
Qed.

Lemma heaviest_le choose p l : Forall (λ x, weight_of choose p x ≤ heaviest choose p l) l.
Proof.
  induction l as [|c l IH]; constructor; simpl; [lia|]. eapply Forall_impl; [exact IH|]. simpl. intros x ?. lia.
Qed.

(** The node chosen, as a place in the list. *)
Lemma next_node_spec choose p l :
  (∃ l1 c l2, l = l1 ++ c :: l2 ∧ default 0 (next_node choose p l) = c_destination c ∧ c_chooser c ≠ 0 ∧ 0 < weight_of choose p c ∧
      Forall (λ x, weight_of choose p x < weight_of choose p c) l1 ∧
      Forall (λ x, weight_of choose p x ≤ weight_of choose p c) l2) ∨
  (Forall (λ x, weight_of choose p x = 0) l ∧
      ((∃ l1 c l2, l = l1 ++ c :: l2 ∧ default 0 (next_node choose p l) = c_destination c ∧ c_chooser c = 0 ∧
          Forall (λ x, c_chooser x ≠ 0) l2) ∨
       (Forall (λ x, c_chooser x ≠ 0) l ∧ default 0 (next_node choose p l) = 0))).
Proof.
  pose proof (heaviest_le choose p l) as Hle. pose proof (heaviest_nonneg choose p l) as Hnn. unfold next_node.
  destruct (Z.eqb_spec (heaviest choose p l) 0) as [E|E].
  - right. split.
    { eapply Forall_impl; [exact Hle|]. simpl. intros x Hx. pose proof (weight_nonneg choose p x). lia. }
    destruct (last (filter (λ c, c_chooser c = 0) l)) as [c|] eqn:Ec.
    + left. apply last_filter_Some in Ec as (l1&l2&->&Hc&Hl2). by exists l1, c, l2.
    + right. split; [|done]. apply last_None in Ec. apply Forall_forall. intros x Hx H0.
      assert (x ∈ filter (λ c, c_chooser c = 0) l) as Hin by (by apply list_elem_of_filter). rewrite Ec in Hin.
      by apply not_elem_of_nil in Hin.
  - left. destruct (first_heaviest_some choose p l) as [c Hc]; [lia|]. rewrite Hc. simpl.
    apply head_filter_Some in Hc as (l1&l2&Hl&Hc&Hl1). exists l1, c, l2. rewrite Hc.
    assert (Hle' := Hle). set (m := heaviest choose p l) in *. rewrite Hl in Hle'. apply Forall_app in Hle' as [Hle1 Hle2]. apply Forall_cons in Hle2 as [_ Hle2].
    split_and!; [done|done| |lia| |done].
    + intros H0. unfold weight_of in Hc. rewrite H0 in Hc. simpl in Hc. lia.
    + apply Forall_forall. intros x Hx. rewrite Forall_forall in Hle1, Hl1.
      specialize (Hle1 x Hx). specialize (Hl1 x Hx). simpl in *. lia.
Qed.

(** ** Claims *)

Section claims.
Context (choose : Z → Z → Z → Z) (label : option cstr) (cb : bool).

(** C11 — a new graph run through any sequence of additions of nodes, lookups
    of labels, connections, disconnections, choices of the next node, listings
    of connections, and reports of errors returns and frees what the
    specification does; its table of labels and its nodes stay in one to one
    correspondence. *)
Theorem graph_refines_nodes rnd os w :
  no_graph w → gops_ok choose cb (new_sgraph (gw_next w)) os →
  returns ((_ ← graph_create label cb rnd; run_gops choose os) w) (λ '(rs, w'), ∃ s freed,
    graph_in label cb s w' ∧ gspec_run choose cb (new_sgraph (gw_next w)) os = (rs, s, freed) ∧
    gw_freed w' = gw_freed w ++ freed).
Proof.
  intros Hw Hos. go. eapply returns_mono; [by apply (graph_create_ok label cb)|]. intros [ok w1] (_&Hin&Hf). go.
  eapply returns_mono; [by apply (run_gops_ok choose label cb os _ w1 Hin)|]. intros [rs w2] (s&freed&Hin2&Hrun&Hf2).
  exists s, freed. by rewrite Hf2, Hf.
Qed.

(** C26 — [graph_destroy] frees every node with its label and connections, the
    table and the graph, and gives every value that is not null once to the
    free callback. *)
Theorem graph_destroy_frees s w :
  graph_in label cb s w →
  returns (graph_destroy w) (λ '(_, w'), gw_graph w' = None ∧ gw_nodes w' = ∅ ∧ w_table (gw_table w') = None ∧
    ∃ vs, vs ≡ₚ (if cb then filter (λ v, v ≠ 0) (sn_value ∘ snd <$> map_to_list (s_nodes s)) else []) ∧
      gw_freed w' = gw_freed w ++ vs).
Proof. apply graph_destroy_ok. Qed.

(** [graph_node_next] chooses the first of the connections whose choosers
    answer the most, when one answers something positive; otherwise the last
    connection without a chooser; otherwise none (null). *)
Theorem graph_node_next_chooses p n w :
  gw_nodes w !! p = Some n →
  let l := n_connections n in
  ∃ q, graph_node_next choose p w = Ret (q, w) ∧
    ((∃ l1 c l2, l = l1 ++ c :: l2 ∧ q = c_destination c ∧ c_chooser c ≠ 0 ∧ 0 < weight_of choose p c ∧
        Forall (λ x, weight_of choose p x < weight_of choose p c) l1 ∧
        Forall (λ x, weight_of choose p x ≤ weight_of choose p c) l2) ∨
     (Forall (λ x, weight_of choose p x = 0) l ∧
        ((∃ l1 c l2, l = l1 ++ c :: l2 ∧ q = c_destination c ∧ c_chooser c = 0 ∧ Forall (λ x, c_chooser x ≠ 0) l2) ∨
         (Forall (λ x, c_chooser x ≠ 0) l ∧ q = 0)))).
Proof.
  intros Hp l. exists (default 0 (next_node choose p l)). split.
  { unfold graph_node_next. cbv [mbind st_bind load_gnode]. rewrite Hp. simpl. by rewrite select_next. }
  apply next_node_spec.
Qed.
End claims.

(** ** Witnesses *)

Definition no_gworld : gworld := mk_gworld None (mk_world None ∅ (mk_heap ∅ 1 [] []) []) ∅ 1 [] [].
(** A chooser that answers its context. *)
Definition answer : Z → Z → Z → Z := λ _ _ context, context.

Lemma no_gworld_ok : no_graph no_gworld.
Proof.
  repeat split; simpl; try done; [apply not_elem_of_nil|constructor].
Qed.

Lemma graph_refines_nodes_witness :
  let os := [GAdd [1] 10 1; GAdd [2] 20 1; GConnect 1 2 0 0; GConnect 1 2 7 5; GNext 1; GAdd [2] 30 2; GGet [2];
             GConnections 1 1; GDisconnect 1 9; GStrerror; GLabel 3] in
  returns ((_ ← graph_create (Some [71]) true 12345; run_gops answer os) no_gworld) (λ '(rs, w'), ∃ s freed,
    graph_in (Some [71]) true s w' ∧ gspec_run answer true (new_sgraph 1) os = (rs, s, freed) ∧
    gw_freed w' = [] ++ freed).
Proof.
  apply (graph_refines_nodes answer (Some [71]) true 12345
    [GAdd [1] 10 1; GAdd [2] 20 1; GConnect 1 2 0 0; GConnect 1 2 7 5; GNext 1; GAdd [2] 30 2; GGet [2];
     GConnections 1 1; GDisconnect 1 9; GStrerror; GLabel 3] no_gworld).
  - apply no_gworld_ok.
  - cbn [gops_ok gop_ok]. split_and!; try done; by apply (bool_decide_unpack _).
Defined.

(** Two nodes, one connected to the other. *)
Definition two_nodes : list gop := [GAdd [1] 10 1; GAdd [2] 20 1; GConnect 1 2 7 5].
Definition two_nodes_world : gworld :=
  match (_ ← graph_create None true 12345; run_gops answer two_nodes) no_gworld with Ret (_, w) => w | _ => no_gworld end.
Lemma two_nodes_in : graph_in None true (gspec_run answer true (new_sgraph 1) two_nodes).1.2 two_nodes_world.
Proof.
  destruct (returns_inv _ _ (graph_create_ok None true 12345 no_gworld no_gworld_ok)) as ([ok w1]&H1&_&Hin&_).
  assert (Hok : gops_ok answer true (new_sgraph 1) two_nodes).
  { unfold two_nodes. cbn [gops_ok gop_ok]. split_and!; try done; by apply (bool_decide_unpack _). }
  destruct (returns_inv _ _ (run_gops_ok answer None true two_nodes _ w1 Hin Hok)) as ([rs w2]&H2&s&fr&Hin2&Hrun&_).
  assert (two_nodes_world = w2) as ->; [|change 1 with (gw_next no_gworld); by rewrite Hrun].
  unfold two_nodes_world. erewrite st_bind_Ret by exact H1. by rewrite H2.
Qed.

Lemma graph_destroy_frees_witness :
  returns (graph_destroy two_nodes_world) (λ '(_, w'), gw_graph w' = None ∧ gw_nodes w' = ∅ ∧ w_table (gw_table w') = None ∧
    ∃ vs, vs ≡ₚ filter (λ v, v ≠ 0)
        (sn_value ∘ snd <$> map_to_list (s_nodes (gspec_run answer true (new_sgraph 1) two_nodes).1.2)) ∧
      gw_freed w' = gw_freed two_nodes_world ++ vs).
Proof. apply (graph_destroy_frees None true _ two_nodes_world). apply two_nodes_in. Defined.

Lemma graph_node_next_chooses_witness :
  ∃ n, gw_nodes two_nodes_world !! 1 = Some n ∧
    let l := n_connections n in
    ∃ q, graph_node_next answer 1 two_nodes_world = Ret (q, two_nodes_world) ∧
    ((∃ l1 c l2, l = l1 ++ c :: l2 ∧ q = c_destination c ∧ c_chooser c ≠ 0 ∧ 0 < weight_of answer 1 c ∧
        Forall (λ x, weight_of answer 1 x < weight_of answer 1 c) l1 ∧
        Forall (λ x, weight_of answer 1 x ≤ weight_of answer 1 c) l2) ∨
     (Forall (λ x, weight_of answer 1 x = 0) l ∧
        ((∃ l1 c l2, l = l1 ++ c :: l2 ∧ q = c_destination c ∧ c_chooser c = 0 ∧ Forall (λ x, c_chooser x ≠ 0) l2) ∨
         (Forall (λ x, c_chooser x ≠ 0) l ∧ q = 0)))).
Proof.
  exists (node_of (mk_snode [1] 10 1 [mk_connection 2 7 5])).
  assert (H : gw_nodes two_nodes_world !! 1 = Some (node_of (mk_snode [1] 10 1 [mk_connection 2 7 5]))) by (by vm_compute).
  split; [exact H|]. apply (graph_node_next_chooses answer 1 _ two_nodes_world H).
Defined.

(** ** Where the code does something else *)

(** The deletion of a node reads the label of a null node. *)
Theorem graph_node_delete_null label connections max w :
  gw_nodes w !! 0 = None → graph_node_delete label connections max w = Undef.
Proof. intros H. unfold graph_node_delete. apply st_bind_Undef. unfold load_gnode. by rewrite H. Qed.
Lemma graph_node_delete_null_witness :
  gw_nodes two_nodes_world !! 0 = None ∧ graph_node_delete (Some [1]) false 0 two_nodes_world = Undef.
Proof.
  split; [by vm_compute|]. apply (graph_node_delete_null (Some [1]) false 0 two_nodes_world). by vm_compute.
Defined.

(** A node without a label, or without memory, is written to although it is null. *)
Theorem graph_node_add_null :
  (_ ← graph_create None true 12345; graph_node_add None 10 1) no_gworld = Undef ∧
  (_ ← graph_create None true 12345; graph_node_add (Some [1]) 10 1)
    (mk_gworld None (gw_table no_gworld) ∅ 1 [true; false] []) = Undef.
Proof. split; vm_compute; reflexivity. Qed.

(** A second node with a label frees the first one, and leaves the connections
    to it: [graph_node_next] then chooses a node that was freed. *)
Theorem graph_node_add_dangling :
  (λ r, (r.1, gw_freed r.2)) <$> (_ ← graph_create None true 12345;
     rs ← run_gops answer (two_nodes ++ [GAdd [2] 30 1; GNext 1]); mret rs) no_gworld =
    Ret ([RNode 1; RNode 2; RCode 0; RNode 3; RNode 2], [20]) ∧
  (_ ← graph_create None true 12345; _ ← run_gops answer (two_nodes ++ [GAdd [2] 30 1]);
   q ← graph_node_next answer 1; graph_node_label_get q) no_gworld = Undef.
Proof. split; vm_compute; reflexivity. Qed.

(** An error of the table is reported as a connection that is not found, and a
    connection that is not found has no message. *)
Theorem graph_strerror_shifted :
  fst <$> (_ ← graph_create None true 12345; p ← graph_node_add (Some []) 10 1; m ← graph_strerror;
           mret (p, m)) no_gworld = Ret (0, Some MConnectionNotFound) ∧
  fst <$> (_ ← graph_create None true 12345; run_gops answer [GAdd [1] 10 1; GDisconnect 1 1; GStrerror]) no_gworld =
    Ret [RNode 1; RCode (-1); RMessage None].
Proof. split; vm_compute; reflexivity. Qed.
