(* ===== verification/Rqueue.v ===== *)
(** * Ring queues (src/src/rqueue.c)

    Pages in a ring, and one page out of it, the reader's.  The pages are
    objects of a store; the address of a page is a multiple of 4, and the low
    bits of a [next] pointer are the flags of the code.  The operations are
    those of one thread: a compare and swap is a test and an assignment, and
    waiting for a lock that is held diverges. *)

From S2P Require Import Prelude.

(** ** Data *)

Definition RQUEUE_FLAG_HEAD : Z := 1.
Definition RQUEUE_FLAG_UPDATE : Z := 2.
Definition RQUEUE_FLAG_ALL : Z := 3.
Definition RQUEUE_FLAG_ON (addr flag : Z) : Z := Z.lor (Z.land addr (-4)) flag.
Definition RQUEUE_FLAG_OFF (addr flag : Z) : Z := Z.land addr (Z.lnot flag).
Definition RQUEUE_CHECK_FLAG (addr flag : Z) : bool := Z.land addr flag =? flag.

Definition RQUEUE_READER_MAX_RETRIES : Z := 1500.
Definition RQUEUE_WRITER_CAS_MAX_RETRIES : Z := 100.
Definition RQUEUE_BLOCKING_MAX_RETRIES : Z := 2000.
Definition RQUEUE_MIN_SIZE : Z := 2.

Inductive rqueue_retry_strategy_t :=
  RQUEUE_RETRY_FAST | RQUEUE_RETRY_PATIENT | RQUEUE_RETRY_COMPLEX | RQUEUE_RETRY_CRITICAL.
Definition RQUEUE_MODE_INVALID : Z := -1.
Definition RQUEUE_MODE_BLOCKING : Z := 0.
Definition RQUEUE_MODE_OVERWRITE : Z := 1.

Record rqueue_page_t := mk_page { pg_value : Z; pg_next : Z; pg_prev : Z }.

(** The counters kept for statistics. *)
Inductive stat :=
  | head_swap_failed | reader_next_swap_failed | queue_full_counter | overwrite_counter
  | topology_change_detected | concurrent_head_movement | commit_advancement_detected
  | concurrent_writer_detected | overwrite_state_changed | head_next_changed
  | fast_retries_succeeded | patient_retries_succeeded | complex_retries_succeeded | critical_retries_succeeded
  | total_retry_failures | total_retry_attempts | total_backoff_time_us.
#[global] Instance stat_dec : EqDecision stat.
Proof. solve_decision. Defined.

Record rqueue_t := mk_rqueue {
  rb_head : Z; rb_tail : Z; rb_commit : Z; rb_reader : Z; rb_free_value_cb : bool; rb_size : Z; rb_mode : Z;
  rb_writes : Z; rb_reads : Z; rb_read_sync : Z; rb_write_sync : Z; rb_num_writers : Z; rb_is_empty : Z;
  rb_stats : stat → Z
}.

(** The pointer to the queue: null, to a live queue, or to one that was freed. *)
Inductive rqueue_ptr := RNull | RLive (q : rqueue_t) | RDangling.

(** [rw_new] is the next address, [rw_alloc] lists which allocations succeed,
    [rw_freed] the values given to the free callback, and [rw_sleeps] counts
    the sleeps. *)
Record rworld := mk_rworld {
  rw_queue : rqueue_ptr; rw_pages : gmap Z rqueue_page_t; rw_new : Z; rw_alloc : list bool;
  rw_freed : list Z; rw_sleeps : nat
}.
Abbreviation R := (ST rworld).

(** ** The state *)

Definition put_queue (q : rqueue_ptr) (w : rworld) : rworld :=
  mk_rworld q (rw_pages w) (rw_new w) (rw_alloc w) (rw_freed w) (rw_sleeps w).
Definition put_pages (N : gmap Z rqueue_page_t) (w : rworld) : rworld :=
  mk_rworld (rw_queue w) N (rw_new w) (rw_alloc w) (rw_freed w) (rw_sleeps w).

Definition load_queue : R rqueue_t := λ w, match rw_queue w with RLive q => Ret (q, w) | _ => Undef end.
Definition set_queue (f : rqueue_t → rqueue_t) : R unit := q ← load_queue; modify (put_queue (RLive (f q))).
(** [if (rb == NULL) return null]. *)
Definition unless_null {A} (null : A) (m : R A) : R A := λ w,
  match rw_queue w with RNull => Ret (null, w) | _ => m w end.
Definition load_page (p : Z) : R rqueue_page_t := λ w,
  match rw_pages w !! p with Some x => Ret (x, w) | None => Undef end.
Definition set_page (p : Z) (f : rqueue_page_t → rqueue_page_t) : R unit :=
  x ← load_page p; modify (λ w, put_pages (<[p := f x]> (rw_pages w)) w).

Definition with_value (v : Z) (x : rqueue_page_t) : rqueue_page_t := mk_page v (pg_next x) (pg_prev x).
Definition with_next (p : Z) (x : rqueue_page_t) : rqueue_page_t := mk_page (pg_value x) p (pg_prev x).
Definition with_prev (p : Z) (x : rqueue_page_t) : rqueue_page_t := mk_page (pg_value x) (pg_next x) p.

Definition with_head (v : Z) (q : rqueue_t) : rqueue_t :=
  mk_rqueue v (rb_tail q) (rb_commit q) (rb_reader q) (rb_free_value_cb q) (rb_size q) (rb_mode q) (rb_writes q)
    (rb_reads q) (rb_read_sync q) (rb_write_sync q) (rb_num_writers q) (rb_is_empty q) (rb_stats q).
Definition with_tail (v : Z) (q : rqueue_t) : rqueue_t :=
  mk_rqueue (rb_head q) v (rb_commit q) (rb_reader q) (rb_free_value_cb q) (rb_size q) (rb_mode q) (rb_writes q)
    (rb_reads q) (rb_read_sync q) (rb_write_sync q) (rb_num_writers q) (rb_is_empty q) (rb_stats q).
Definition with_commit (v : Z) (q : rqueue_t) : rqueue_t :=
  mk_rqueue (rb_head q) (rb_tail q) v (rb_reader q) (rb_free_value_cb q) (rb_size q) (rb_mode q) (rb_writes q)
    (rb_reads q) (rb_read_sync q) (rb_write_sync q) (rb_num_writers q) (rb_is_empty q) (rb_stats q).
Definition with_reader (v : Z) (q : rqueue_t) : rqueue_t :=
  mk_rqueue (rb_head q) (rb_tail q) (rb_commit q) v (rb_free_value_cb q) (rb_size q) (rb_mode q) (rb_writes q)
    (rb_reads q) (rb_read_sync q) (rb_write_sync q) (rb_num_writers q) (rb_is_empty q) (rb_stats q).
Definition with_cb (v : bool) (q : rqueue_t) : rqueue_t :=
  mk_rqueue (rb_head q) (rb_tail q) (rb_commit q) (rb_reader q) v (rb_size q) (rb_mode q) (rb_writes q)
    (rb_reads q) (rb_read_sync q) (rb_write_sync q) (rb_num_writers q) (rb_is_empty q) (rb_stats q).
Definition with_mode (v : Z) (q : rqueue_t) : rqueue_t :=
  mk_rqueue (rb_head q) (rb_tail q) (rb_commit q) (rb_reader q) (rb_free_value_cb q) (rb_size q) v (rb_writes q)
    (rb_reads q) (rb_read_sync q) (rb_write_sync q) (rb_num_writers q) (rb_is_empty q) (rb_stats q).
Definition with_writes (v : Z) (q : rqueue_t) : rqueue_t :=
  mk_rqueue (rb_head q) (rb_tail q) (rb_commit q) (rb_reader q) (rb_free_value_cb q) (rb_size q) (rb_mode q) v
    (rb_reads q) (rb_read_sync q) (rb_write_sync q) (rb_num_writers q) (rb_is_empty q) (rb_stats q).
Definition with_reads (v : Z) (q : rqueue_t) : rqueue_t :=
  mk_rqueue (rb_head q) (rb_tail q) (rb_commit q) (rb_reader q) (rb_free_value_cb q) (rb_size q) (rb_mode q) (rb_writes q)
    v (rb_read_sync q) (rb_write_sync q) (rb_num_writers q) (rb_is_empty q) (rb_stats q).
Definition with_read_sync (v : Z) (q : rqueue_t) : rqueue_t :=
  mk_rqueue (rb_head q) (rb_tail q) (rb_commit q) (rb_reader q) (rb_free_value_cb q) (rb_size q) (rb_mode q) (rb_writes q)
    (rb_reads q) v (rb_write_sync q) (rb_num_writers q) (rb_is_empty q) (rb_stats q).
Definition with_write_sync (v : Z) (q : rqueue_t) : rqueue_t :=
  mk_rqueue (rb_head q) (rb_tail q) (rb_commit q) (rb_reader q) (rb_free_value_cb q) (rb_size q) (rb_mode q) (rb_writes q)
    (rb_reads q) (rb_read_sync q) v (rb_num_writers q) (rb_is_empty q) (rb_stats q).
Definition with_num_writers (v : Z) (q : rqueue_t) : rqueue_t :=
  mk_rqueue (rb_head q) (rb_tail q) (rb_commit q) (rb_reader q) (rb_free_value_cb q) (rb_size q) (rb_mode q) (rb_writes q)
    (rb_reads q) (rb_read_sync q) (rb_write_sync q) v (rb_is_empty q) (rb_stats q).
Definition with_is_empty (v : Z) (q : rqueue_t) : rqueue_t :=
  mk_rqueue (rb_head q) (rb_tail q) (rb_commit q) (rb_reader q) (rb_free_value_cb q) (rb_size q) (rb_mode q) (rb_writes q)
    (rb_reads q) (rb_read_sync q) (rb_write_sync q) (rb_num_writers q) v (rb_stats q).
Definition with_stats (v : stat → Z) (q : rqueue_t) : rqueue_t :=
  mk_rqueue (rb_head q) (rb_tail q) (rb_commit q) (rb_reader q) (rb_free_value_cb q) (rb_size q) (rb_mode q) (rb_writes q)
    (rb_reads q) (rb_read_sync q) (rb_write_sync q) (rb_num_writers q) (rb_is_empty q) v.

(** Atomic additions to the counters wrap at their widths. *)
Definition stat_wrap (c : stat) (z : Z) : Z :=
  match c with total_retry_attempts | total_backoff_time_us => u64 z | _ => as_int (u32 z) end.
Definition INCREASE (c : stat) (n : Z) : R unit :=
  set_queue (λ q, with_stats (λ d, if decide (d = c) then stat_wrap c (rb_stats q c + n) else rb_stats q d) q).
Definition INCREMENT (c : stat) : R unit := INCREASE c 1.

(** [ATOMIC_CAS] on the fields of the queue and of the pages. *)
Definition CAS_field (get : rqueue_t → Z) (set : Z → rqueue_t → rqueue_t) (o n : Z) : R bool :=
  q ← load_queue; if get q =? o then _ ← set_queue (set n); mret true else mret false.
Definition CAS_read_sync : Z → Z → R bool := CAS_field rb_read_sync with_read_sync.
Definition CAS_write_sync : Z → Z → R bool := CAS_field rb_write_sync with_write_sync.
Definition CAS_next (p o n : Z) : R bool :=
  x ← load_page p; if pg_next x =? o then _ ← set_page p (with_next n); mret true else mret false.
Definition CAS_value (p o n : Z) : R bool :=
  x ← load_page p; if pg_value x =? o then _ ← set_page p (with_value n); mret true else mret false.

Definition ralloc : R bool := λ w,
  match rw_alloc w with
  | [] => Ret (true, w)
  | b :: a => Ret (b, mk_rworld (rw_queue w) (rw_pages w) (rw_new w) a (rw_freed w) (rw_sleeps w))
  end.
(** [calloc] of a page: its address, 0 for null. *)
Definition calloc_page : R Z :=
  ok ← ralloc;
  if negb ok then mret 0 else
  λ w, Ret (rw_new w, mk_rworld (rw_queue w) (<[rw_new w := mk_page 0 0 0]> (rw_pages w)) (rw_new w + 4)
                               (rw_alloc w) (rw_freed w) (rw_sleeps w)).
Definition free_page (p : Z) : R unit := _ ← load_page p; modify (λ w, put_pages (delete p (rw_pages w)) w).
Definition give_rvalue (v : Z) : R unit :=
  modify (λ w, mk_rworld (rw_queue w) (rw_pages w) (rw_new w) (rw_alloc w) (rw_freed w ++ [v]) (rw_sleeps w)).

(** ** Creation and destruction *)

(** The pages of the ring, [n] of them, and the failure of an allocation. *)
Definition free_chain_body (current : Z) : R (Z + unit) :=
  if current =? 0 then mret (inr tt) else
  x ← load_page current; _ ← free_page current; mret (inl (pg_next x)).
Fixpoint create_pages (n : nat) : R bool :=
  match n with
  | O => mret true
  | S n =>
      page ← calloc_page;
      if page =? 0 then
        q ← load_queue; _ ← loopS free_chain_body (rb_head q); mret false
      else
        q ← load_queue;
        _ ← (if rb_head q =? 0 then set_queue (λ q, with_tail page (with_head page q))
             else if negb (rb_tail q =? 0) then set_page (rb_tail q) (with_next page) else mret tt);
        q ← load_queue;
        _ ← set_page page (with_prev (rb_tail q));
        _ ← set_queue (with_tail page);
        create_pages n
  end.

Definition free_ring_body (free : Z → R unit) (head page : Z) : R (Z + unit) :=
  x ← load_page page;
  let next := RQUEUE_FLAG_OFF (pg_next x) RQUEUE_FLAG_ALL in
  _ ← free page;
  mret (if next =? head then inr tt else inl next).

(** The closure of the ring, once its pages are there, and the reader's page. *)
Definition close_ring : R bool :=
  q ← load_queue;
  if (rb_head q =? 0) || (rb_tail q =? 0) then _ ← modify (put_queue RNull); mret false else
  _ ← set_page (rb_head q) (with_prev (rb_tail q));
  _ ← set_page (rb_tail q) (with_next (rb_head q));
  _ ← set_page (rb_tail q) (with_next (RQUEUE_FLAG_ON (rb_head q) RQUEUE_FLAG_HEAD));
  _ ← set_queue (with_tail (rb_head q));
  _ ← set_queue (λ q, with_commit (rb_tail q) q);
  reader ← calloc_page;
  _ ← set_queue (with_reader reader);
  if reader =? 0 then
    _ ← loopS (free_ring_body free_page (rb_head q)) (rb_head q);
    _ ← modify (put_queue RNull); mret false
  else
  h ← load_page (rb_head q);
  _ ← set_page reader (with_prev (pg_prev h));
  _ ← set_page reader (with_next (rb_head q));
  mret true.

(** Is the returned pointer not null?  The queue is then [rw_queue]. *)
Definition rqueue_create (size mode : Z) : R bool :=
  ok ← ralloc;
  if negb ok then _ ← modify (put_queue RNull); mret false else
  let size := if RQUEUE_MIN_SIZE <? size then size else RQUEUE_MIN_SIZE in
  _ ← modify (put_queue (RLive (mk_rqueue 0 0 0 0 false size mode 0 0 0 0 0 1 (λ _, 0))));
  ok ← create_pages (S (Z.to_nat size));
  if negb ok then _ ← modify (put_queue RNull); mret false else
  close_ring.

Definition rqueue_set_free_value_callback (cb : bool) : R unit := unless_null tt (set_queue (with_cb cb)).

Definition rqueue_destroy_page (p : Z) : R unit :=
  q ← load_queue;
  x ← load_page p;
  _ ← (if negb (pg_value x =? 0) && rb_free_value_cb q then give_rvalue (pg_value x) else mret tt);
  free_page p.
Definition rqueue_destroy : R unit :=
  unless_null tt (
    q ← load_queue;
    _ ← loopS (free_ring_body rqueue_destroy_page (rb_head q)) (rb_head q);
    _ ← rqueue_destroy_page (rb_reader q);
    modify (put_queue RDangling)).

(** ** Waiting *)

(** [1 << n] for an [int]. *)
Definition int_shift (n : Z) : outcome Z := if (0 <=? n) && (n <=? 30) then Ret (2 ^ n) else Undef.

(** The delay in microseconds; 0 is a yield, or nothing. *)
Definition backoff_delay (strategy : rqueue_retry_strategy_t) (retry_count : Z) : outcome Z :=
  match strategy with
  | RQUEUE_RETRY_FAST =>
      if retry_count <? 10 then Ret 0 else
      if retry_count <? 50 then d ← int_shift (Z.quot (retry_count - 10) 5); Ret (if 100 <? d then 100 else d) else Ret 0
  | RQUEUE_RETRY_PATIENT =>
      if retry_count <? 5 then Ret 0 else
      d ← int_shift (Z.quot (retry_count - 5) 10); Ret (if 10000 <? d then 10000 else d)
  | RQUEUE_RETRY_COMPLEX =>
      if retry_count <? 3 then Ret 0 else
      d ← int_shift (Z.quot (retry_count - 3) 8); d ← int32 (d * 2); Ret (if 5000 <? d then 5000 else d)
  | RQUEUE_RETRY_CRITICAL =>
      if retry_count <? 5 then Ret 0 else Ret (if 50 <? retry_count then 50 else retry_count)
  end.
(** The delay with the jitter of a random number. *)
Definition jittered (delay_us rnd : Z) : Z :=
  let jitter := Z.rem rnd (Z.quot delay_us 2 + 1) - Z.quot delay_us 4 in
  if delay_us + jitter <? 1 then 1 else delay_us + jitter.

Section environment.
(** The time that the n-th sleep takes, in microseconds, for its delay, and
    the random number drawn before it. *)
Context (elapsed : nat → Z → Z) (rand : nat → Z).

(** The new value of [backoff_time_us]. *)
Definition rqueue_backoff_with_strategy (strategy : rqueue_retry_strategy_t) (retry_count backoff_time : Z) : R Z :=
  delay_us ← lift (backoff_delay strategy retry_count);
  if 0 <? delay_us then
    n ← gets rw_sleeps;
    _ ← modify (λ w, mk_rworld (rw_queue w) (rw_pages w) (rw_new w) (rw_alloc w) (rw_freed w) (S (rw_sleeps w)));
    mret (u64 (backoff_time + elapsed n (jittered delay_us (rand n))))
  else mret backoff_time.

(** ** Reading *)

Definition rqueue_validate_reader_snapshot (head commit next : Z) : R bool :=
  q ← load_queue; h ← load_page head;
  mret ((rb_head q =? head) && (rb_commit q =? commit) && (pg_next h =? next)).

(** One attempt: the value to return, or [None] to try again, and the time
    spent. *)
Definition read_attempt (i backoff_time : Z) : R (option Z * Z) :=
  let again :=
    t ← rqueue_backoff_with_strategy RQUEUE_RETRY_COMPLEX i backoff_time;
    mret (None, t) in
  let release_again :=
    t ← rqueue_backoff_with_strategy RQUEUE_RETRY_COMPLEX i backoff_time;
    _ ← CAS_read_sync 1 0; mret (None, t) in
  _ ← INCREMENT total_retry_attempts;
  ok ← CAS_read_sync 0 1;
  if negb ok then again else
  q ← load_queue;
  let head := rb_head q in
  let commit := rb_commit q in
  h ← load_page head;
  let next := pg_next h in
  r ← load_page (rb_reader q);
  let old_next := pg_next r in
  if (rb_reader q =? commit) || negb (rb_is_empty q =? 0) then
    _ ← CAS_read_sync 1 0; mret (None, backoff_time)
  else
  valid ← rqueue_validate_reader_snapshot head commit next;
  if negb valid then
    _ ← INCREMENT topology_change_detected; _ ← CAS_read_sync 1 0; again
  else
  ok ← CAS_next (rb_reader q) old_next (RQUEUE_FLAG_ON next RQUEUE_FLAG_HEAD);
  if negb ok then _ ← INCREMENT reader_next_swap_failed; release_again else
  h ← load_page head;
  _ ← set_page (rb_reader q) (with_prev (pg_prev h));
  q' ← load_queue;
  if negb (rb_head q' =? head) then
    _ ← INCREMENT concurrent_head_movement;
    _ ← set_page (rb_reader q) (with_next old_next);
    _ ← CAS_read_sync 1 0; again
  else
  h ← load_page head;
  ok ← CAS_next (pg_prev h) (RQUEUE_FLAG_ON head RQUEUE_FLAG_HEAD) (rb_reader q);
  if negb ok then
    _ ← INCREMENT head_swap_failed;
    _ ← set_page (rb_reader q) (with_next old_next); release_again
  else
  _ ← CAS_field rb_head with_head head next;
  _ ← set_page next (with_prev (rb_reader q));
  _ ← set_queue (with_reader head);
  x ← load_page head;
  let v := pg_value x in
  if v =? 0 then _ ← CAS_read_sync 1 0; mret (None, backoff_time) else
  _ ← CAS_value head v 0;
  _ ← set_queue (λ q, with_reads (u64 (rb_reads q + 1)) q);
  q ← load_queue;
  _ ← (if rb_head q =? rb_tail q then CAS_field rb_is_empty with_is_empty 0 1 else mret false);
  _ ← CAS_read_sync 1 0;
  mret (Some v, backoff_time).

Fixpoint read_loop (n : nat) (i backoff_time : Z) : R (Z * Z) :=
  match n with
  | O => mret (0, backoff_time)
  | S n =>
      '(v, t) ← read_attempt i backoff_time;
      match v with Some v => mret (v, t) | None => read_loop n (i + 1) t end
  end.

Definition rqueue_read : R Z :=
  unless_null 0 (
    '(v, backoff_time) ← read_loop (Z.to_nat RQUEUE_READER_MAX_RETRIES) 0 0;
    _ ← INCREASE total_backoff_time_us backoff_time;
    _ ← INCREMENT (if negb (v =? 0) then complex_retries_succeeded else total_retry_failures);
    mret v).

(** ** Writing *)

Definition update_value_body (page value : Z) (_ : unit) : R (unit + Z) :=
  x ← load_page page;
  ok ← CAS_value page (pg_value x) value;
  mret (if ok : bool then inr (pg_value x) else inl tt).
Definition rqueue_update_value (page value : Z) : R unit :=
  old_value ← loopS (update_value_body page value) tt;
  q ← load_queue;
  if negb (old_value =? 0) && rb_free_value_cb q then give_rvalue old_value else mret tt.

Definition spin_write_sync (_ : unit) : R (unit + unit) :=
  ok ← CAS_write_sync 0 1; mret (if ok : bool then inr tt else inl tt).

Definition INCREMENT_writers : R unit := set_queue (λ q, with_num_writers (as_int (u32 (rb_num_writers q + 1))) q).
Definition DECREMENT_writers : R unit := set_queue (λ q, with_num_writers (as_int (u32 (rb_num_writers q - 1))) q).
Definition release_writer : R unit := _ ← DECREMENT_writers; _ ← CAS_write_sync 1 0; mret tt.

(** Leaving the lock to others before another attempt. *)
Definition reacquire_body (strategy : rqueue_retry_strategy_t) (retries backoff_time : Z) : R (Z + unit) :=
  ok ← CAS_write_sync 0 1;
  if ok : bool then mret (inr tt) else
  t ← rqueue_backoff_with_strategy strategy retries backoff_time;
  _ ← INCREASE total_backoff_time_us t;
  mret (inl t).
Definition writer_backoff (strategy : rqueue_retry_strategy_t) (retries : Z) : R unit :=
  _ ← release_writer;
  t ← rqueue_backoff_with_strategy strategy retries 0;
  _ ← INCREASE total_backoff_time_us t;
  _ ← loopS (reacquire_body strategy retries) t;
  INCREMENT_writers.
(** Giving up: the queue is full. *)
Definition refuse_write (c : stat) : R unit :=
  _ ← release_writer;
  _ ← INCREMENT queue_full_counter; _ ← INCREMENT total_retry_failures; INCREMENT c.

(** The head is moved in overwrite mode, when the reader's lock is free. *)
Definition overwrite_head (temp_page head commit : Z) : R unit :=
  _ ← INCREMENT overwrite_counter;
  q ← load_queue;
  if negb (rb_head q =? head) || negb (rb_commit q =? commit) then
    _ ← INCREMENT overwrite_state_changed; _ ← CAS_read_sync 1 0; mret tt
  else
  let current_head := rb_head q in
  x ← load_page current_head;
  let nextpp := RQUEUE_FLAG_OFF (pg_next x) RQUEUE_FLAG_ALL in
  h ← load_page head;
  if negb (nextpp =? RQUEUE_FLAG_OFF (pg_next h) RQUEUE_FLAG_ALL) then
    _ ← INCREMENT head_next_changed; _ ← CAS_read_sync 1 0; mret tt
  else
  ok ← CAS_next current_head nextpp (RQUEUE_FLAG_ON nextpp RQUEUE_FLAG_HEAD);
  _ ← (if ok : bool then
         _ ← CAS_next temp_page (RQUEUE_FLAG_ON current_head RQUEUE_FLAG_HEAD) current_head;
         set_queue (with_head nextpp)
       else mret tt);
  _ ← CAS_read_sync 1 0;
  mret tt.

(** One turn of the loop: a return code, or the new [retries] and [tail]. *)
Definition write_turn (retries tail : Z) : R (Z + Z * Z * Z) :=
  q ← load_queue;
  let temp_page := rb_tail q in
  let commit := rb_commit q in
  x ← load_page temp_page;
  let next_page := RQUEUE_FLAG_OFF (pg_next x) RQUEUE_FLAG_ALL in
  if next_page =? 0 then _ ← release_writer; mret (inl (-1)) else
  q ← load_queue;
  let head := rb_head q in
  if negb (rb_commit q =? commit) then
    _ ← INCREMENT commit_advancement_detected; mret (inr (retries, tail, temp_page))
  else if negb (rb_tail q =? temp_page) then
    _ ← INCREMENT concurrent_writer_detected; mret (inr (retries, tail, temp_page))
  else if (rb_mode q =? RQUEUE_MODE_BLOCKING) && (commit =? temp_page) && negb (temp_page =? head) && negb (next_page =? head) then
    if retries <? RQUEUE_BLOCKING_MAX_RETRIES then
      _ ← INCREMENT total_retry_attempts;
      _ ← CAS_field rb_tail with_tail temp_page next_page;
      _ ← writer_backoff RQUEUE_RETRY_PATIENT (retries + 1);
      mret (inr (retries + 1, tail, temp_page))
    else _ ← refuse_write patient_retries_succeeded; mret (inl (-2))
  else
  x ← load_page temp_page;
  q ← load_queue;
  if RQUEUE_CHECK_FLAG (pg_next x) RQUEUE_FLAG_HEAD || ((next_page =? head) && (rb_is_empty q =? 0)) then
    c ← (if rb_mode q =? RQUEUE_MODE_OVERWRITE then c ← load_page commit; mret (pg_next c =? temp_page) else mret false);
    locked ← (if c : bool then CAS_read_sync 0 1 else mret false);
    if locked : bool then
      _ ← overwrite_head temp_page head commit; mret (inr (retries, tail, temp_page))
    else if retries <? RQUEUE_WRITER_CAS_MAX_RETRIES then
      _ ← INCREMENT total_retry_attempts;
      _ ← writer_backoff RQUEUE_RETRY_FAST (retries + 1);
      mret (inr (retries + 1, tail, temp_page))
    else _ ← refuse_write fast_retries_succeeded; mret (inl (-2))
  else
  x ← load_page temp_page;
  if negb (RQUEUE_CHECK_FLAG (pg_next x) RQUEUE_FLAG_HEAD) then
    q ← load_queue;
    _ ← CAS_field rb_tail with_tail temp_page next_page;
    mret (inr (retries, rb_tail q, temp_page))
  else mret (inr (retries, tail, temp_page)).

(** The loop, with its condition; at its end a return code or [retries], the
    page to write, and [temp_page]. *)
Definition write_body (s : Z * Z) : R (Z * Z + (Z + Z * Z * Z)) :=
  let '(retries, tail) := s in
  r ← write_turn retries tail;
  match r with
  | inl rc => mret (inr (inl rc))
  | inr (retries, tail, temp_page) =>
      if tail =? temp_page then mret (inr (inr (retries, tail, temp_page)))
      else if retries <? RQUEUE_WRITER_CAS_MAX_RETRIES then mret (inl (retries + 1, tail))
      else mret (inr (inr (retries + 1, tail, temp_page)))
  end.

Definition rqueue_write (value : Z) : R Z :=
  unless_null (-1) (
    _ ← loopS spin_write_sync tt;
    _ ← INCREMENT_writers;
    r ← loopS write_body (0, 0);
    match r with
    | inl rc => mret rc
    | inr (retries, tail, temp_page) =>
        if (tail =? 0) || negb (tail =? temp_page) then _ ← release_writer; mret (-1) else
        _ ← rqueue_update_value tail value;
        _ ← set_queue (λ q, with_writes (u64 (rb_writes q + 1)) q);
        _ ← set_queue (with_is_empty 0);
        q ← load_queue;
        _ ← (if rb_num_writers q =? 1 then CAS_field rb_commit with_commit (rb_commit q) tail else mret false);
        _ ← (if 0 <? retries then INCREMENT fast_retries_succeeded else mret tt);
        _ ← release_writer;
        mret 0
    end).
End environment.

(** ** Queries *)

Definition rqueue_write_count : R Z := unless_null 0 (q ← load_queue; mret (rb_writes q)).
Definition rqueue_read_count : R Z := unless_null 0 (q ← load_queue; mret (rb_reads q)).
Definition rqueue_set_mode (mode : Z) : R unit := unless_null tt (set_queue (with_mode mode)).
Definition rqueue_mode : R Z := unless_null RQUEUE_MODE_INVALID (q ← load_queue; mret (rb_mode q)).
Definition rqueue_size : R Z := unless_null 0 (q ← load_queue; mret (rb_size q)).
Definition rqueue_isempty : R Z := unless_null (-1) (q ← load_queue; mret (rb_is_empty q)).
