(* ===== verification/RqueueRing.v ===== *)
(** * Ring queues: the ring of pages

    The flags of a pointer, and how reading, writing and overwriting change
    the ring. *)

From S2P Require Import Prelude Rqueue.

(** ** Flags *)

(** The address of a page: the low bits are free for flags. *)
Definition aligned (p : Z) : Prop := 0 < p ∧ p mod 4 = 0.
Abbreviation flagged p := (RQUEUE_FLAG_ON p RQUEUE_FLAG_HEAD).

Lemma flag_off_all x : RQUEUE_FLAG_OFF x RQUEUE_FLAG_ALL = x - x mod 4.
Proof.
  unfold RQUEUE_FLAG_OFF, RQUEUE_FLAG_ALL. rewrite <- Z.ldiff_land. change 3 with (Z.ones 2).
  rewrite Z.ldiff_ones_r, Z.shiftl_mul_pow2, Z.shiftr_div_pow2 by lia. change (2 ^ 2) with 4.
  pose proof (Z.div_mod x 4). lia.
Qed.
Lemma flagged_eq p : aligned p → flagged p = p + 1.
Proof.
  intros [Hp H4]. unfold RQUEUE_FLAG_ON, RQUEUE_FLAG_HEAD.
  change (-4) with (Z.lnot RQUEUE_FLAG_ALL). pose proof (flag_off_all p) as Ho. unfold RQUEUE_FLAG_OFF in Ho. rewrite Ho, H4, Z.sub_0_r.
  assert (Hl : Z.land p 1 = 0).
  { change 1 with (Z.ones 1) at 1. rewrite Z.land_ones by lia. change (2 ^ 1) with 2.
    pose proof (Z.div_mod p 4). replace p with (2 * (2 * (p / 4))) by lia. rewrite Z.mul_comm. by apply Z_mod_mult. }
  pose proof (Z.add_lor_land p 1). lia.
Qed.
Lemma flag_off_plain p : aligned p → RQUEUE_FLAG_OFF p RQUEUE_FLAG_ALL = p.
Proof. intros [_ H4]. rewrite flag_off_all. lia. Qed.
Lemma flag_off_flagged p : aligned p → RQUEUE_FLAG_OFF (flagged p) RQUEUE_FLAG_ALL = p.
Proof.
  intros Hp. rewrite flag_off_all, flagged_eq by done. destruct Hp as [_ H4].
  rewrite <- Z.add_mod_idemp_l, H4 by done. change ((0 + 1) mod 4) with 1. lia.
Qed.
Lemma check_flag_mod x : RQUEUE_CHECK_FLAG x RQUEUE_FLAG_HEAD = (x mod 2 =? 1).
Proof. unfold RQUEUE_CHECK_FLAG, RQUEUE_FLAG_HEAD. change 1 with (Z.ones 1) at 1. by rewrite Z.land_ones by lia. Qed.
Lemma aligned_even p : aligned p → p mod 2 = 0.
Proof.
  intros [_ H4]. pose proof (Z.div_mod p 4). replace p with (2 * (p / 4) * 2) by lia. by apply Z_mod_mult.
Qed.
Lemma check_plain p : aligned p → RQUEUE_CHECK_FLAG p RQUEUE_FLAG_HEAD = false.
Proof. intros Hp. rewrite check_flag_mod. by rewrite aligned_even. Qed.
Lemma check_flagged p : aligned p → RQUEUE_CHECK_FLAG (flagged p) RQUEUE_FLAG_HEAD = true.
Proof.
  intros Hp. rewrite check_flag_mod, flagged_eq by done. rewrite <- Z.add_mod_idemp_l, (aligned_even p) by done. done.
Qed.
Lemma flagged_plain p q : aligned p → aligned q → flagged p ≠ q.
Proof.
  intros Hp Hq E. pose proof (check_flagged p Hp) as H. rewrite E, check_plain in H by done. done.
Qed.

(** ** The ring *)

(** Pages: their addresses and values. *)
Abbreviation cells := (list (Z * Z)).

Definition first (cs : cells) (nxt : Z) : Z := match cs with [] => nxt | c :: _ => c.1 end.
Fixpoint lastp (prev : Z) (cs : cells) : Z := match cs with [] => prev | c :: cs => lastp c.1 cs end.

(** The pages [cs], linked from [prev] to [nxt]. *)
Fixpoint seg (N : gmap Z rqueue_page_t) (prev : Z) (cs : cells) (nxt : Z) : Prop :=
  match cs with
  | [] => True
  | c :: cs => N !! c.1 = Some (mk_page c.2 (first cs nxt) prev) ∧ seg N c.1 cs nxt
  end.
Definition ring (N : gmap Z rqueue_page_t) (cs : cells) : Prop := seg N (lastp 0 cs) cs (flagged (first cs 0)).

Lemma cells_first_app a b nxt : first (a ++ b) nxt = first a (first b nxt).
Proof. by destruct a. Qed.
Lemma lastp_app prev a b : lastp prev (a ++ b) = lastp (lastp prev a) b.
Proof. revert prev. induction a as [|c a IH]; intros prev; [done|]. apply IH. Qed.
Lemma cells_seg_app N prev a b nxt : seg N prev (a ++ b) nxt ↔ seg N prev a (first b nxt) ∧ seg N (lastp prev a) b nxt.
Proof. revert prev. induction a as [|c a IH]; intros prev; simpl; [tauto|]. rewrite IH, cells_first_app. tauto. Qed.
Lemma cells_seg_frame N N' prev cs nxt : (∀ p, p ∈ cs.*1 → N' !! p = N !! p) → seg N prev cs nxt → seg N' prev cs nxt.
Proof.
  revert prev. induction cs as [|c cs IH]; intros prev HN; simpl; [done|]. intros [Hc Hs].
  split; [rewrite HN by left; done|]. apply IH; [|done]. intros p Hp. apply HN. by right.
Qed.
Lemma seg_lookup N prev cs nxt p v : seg N prev cs nxt → (p, v) ∈ cs → ∃ x, N !! p = Some x ∧ pg_value x = v.
Proof.
  revert prev. induction cs as [|c cs IH]; intros prev; simpl; [by intros _ ?%not_elem_of_nil|].
  intros [Hc Hs] [<-|Hp]%elem_of_cons; [by eexists|by eapply IH].
Qed.

(** The ring, from its head [p0] and the next page [p1] to its last [pl]. *)
Lemma ring_open N p0 v0 p1 v1 mid pl vl :
  ring N ((p0, v0) :: (p1, v1) :: mid ++ [(pl, vl)]) ↔
  N !! p0 = Some (mk_page v0 p1 pl) ∧ N !! p1 = Some (mk_page v1 (first mid pl) p0) ∧
  seg N p1 mid pl ∧ N !! pl = Some (mk_page vl (flagged p0) (lastp p1 mid)).
Proof. unfold ring. simpl. rewrite lastp_app, cells_first_app, cells_seg_app. simpl. tauto. Qed.

(** Every ring of three pages or more has this form. *)
Lemma ring_form (cs : cells) : (3 ≤ length cs)%nat →
  ∃ p0 v0 p1 v1 mid pl vl, cs = (p0, v0) :: (p1, v1) :: mid ++ [(pl, vl)].
Proof.
  destruct cs as [|[p0 v0] [|[p1 v1] cs]]; simpl; try lia. intros Hlen.
  destruct cs as [|[pl vl] mid _] using rev_ind; [simpl in Hlen; lia|]. by exists p0, v0, p1, v1, mid, pl, vl.
Qed.

(** The head is replaced by the reader's page. *)
Lemma ring_read N p0 v0 p1 v1 mid pl vl r x :
  ring N ((p0, v0) :: (p1, v1) :: mid ++ [(pl, vl)]) → NoDup (r :: p0 :: p1 :: mid.*1 ++ [pl]) →
  ring (<[p0 := x]> (<[p1 := mk_page v1 (first mid pl) r]> (<[pl := mk_page vl r (lastp p1 mid)]>
         (<[r := mk_page 0 (flagged p1) pl]> N))))
       ((p1, v1) :: mid ++ [(pl, vl); (r, 0)]).
Proof.
  intros (_&H1&Hm&Hl)%ring_open Hnd.
  apply NoDup_cons in Hnd as [Hr Hnd]. apply NoDup_cons in Hnd as [H0 Hnd]. apply NoDup_cons in Hnd as [Hp1 Hnd].
  apply NoDup_app in Hnd as (Hndm&Hdis&_).
  assert (r ≠ p0 ∧ r ≠ p1 ∧ r ≠ pl ∧ p0 ≠ p1 ∧ p0 ≠ pl ∧ p1 ≠ pl) as (?&?&?&?&?&?) by set_solver.
  assert (∀ p, p ∈ mid.*1 → p ≠ r ∧ p ≠ p0 ∧ p ≠ p1 ∧ p ≠ pl) as Hmid by set_solver.
  unfold ring. simpl. rewrite lastp_app, cells_first_app, cells_seg_app. simpl. split; [|split; [|split; [|split; [|done]]]].
  - by rewrite lookup_insert_ne, lookup_insert_eq.
  - eapply cells_seg_frame; [|exact Hm]. intros p Hp. destruct (Hmid p Hp) as (?&?&?&?).
    by rewrite !lookup_insert_ne.
  - by rewrite lookup_insert_ne, lookup_insert_ne, lookup_insert_eq.
  - do 3 rewrite lookup_insert_ne by done. by rewrite lookup_insert_eq.
Qed.

(** The head is moved to the next page. *)
Lemma ring_rotate N p0 v0 p1 v1 mid pl vl :
  ring N ((p0, v0) :: (p1, v1) :: mid ++ [(pl, vl)]) → NoDup (p0 :: p1 :: mid.*1 ++ [pl]) →
  ring (<[pl := mk_page vl p0 (lastp p1 mid)]> (<[p0 := mk_page v0 (flagged p1) pl]> N))
       ((p1, v1) :: mid ++ [(pl, vl); (p0, v0)]).
Proof.
  intros (H0&H1&Hm&Hl)%ring_open Hnd.
  apply NoDup_cons in Hnd as [Hp0 Hnd]. apply NoDup_cons in Hnd as [Hp1 Hnd].
  apply NoDup_app in Hnd as (Hndm&Hdis&_).
  assert (p0 ≠ p1 ∧ p0 ≠ pl ∧ p1 ≠ pl) as (?&?&?) by set_solver.
  assert (∀ p, p ∈ mid.*1 → p ≠ p0 ∧ p ≠ p1 ∧ p ≠ pl) as Hmid by set_solver.
  unfold ring. simpl. rewrite lastp_app, cells_first_app, cells_seg_app. simpl. split; [|split; [|split; [|split; [|done]]]].
  - by rewrite !lookup_insert_ne.
  - eapply cells_seg_frame; [|exact Hm]. intros p Hp. destruct (Hmid p Hp) as (?&?&?). by rewrite !lookup_insert_ne.
  - by rewrite lookup_insert_eq.
  - by rewrite lookup_insert_ne, lookup_insert_eq.
Qed.

(** The value of a page is replaced. *)
Lemma seg_update N prev a p v b nxt v' x :
  seg N prev (a ++ (p, v) :: b) nxt → NoDup (a.*1 ++ p :: b.*1) → N !! p = Some x →
  seg (<[p := with_value v' x]> N) prev (a ++ (p, v') :: b) nxt.
Proof.
  rewrite !cells_seg_app. simpl. intros (Ha&Hp&Hb) Hnd Hx. apply NoDup_app in Hnd as (_&Hd&Hnd).
  apply NoDup_cons in Hnd as [Hpb _]. simplify_eq. split; [|split].
  - eapply cells_seg_frame; [|exact Ha]. intros q Hq. rewrite lookup_insert_ne; [done|]. intros <-. apply (Hd p Hq). left.
  - by rewrite lookup_insert_eq.
  - eapply cells_seg_frame; [|exact Hb]. intros q Hq. rewrite lookup_insert_ne; [done|]. by intros <-.
Qed.
Lemma ring_update N a p v b v' x :
  ring N (a ++ (p, v) :: b) → NoDup (a.*1 ++ p :: b.*1) → N !! p = Some x →
  ring (<[p := with_value v' x]> N) (a ++ (p, v') :: b).
Proof.
  unfold ring. rewrite !lastp_app, !cells_first_app. simpl. intros Hs Hnd Hx. by eapply seg_update.
Qed.

(** The pages around a page that is not the last one. *)
Lemma ring_next N a p v b : ring N (a ++ (p, v) :: b) →
  ∃ prev, N !! p = Some (mk_page v (first b (flagged (first (a ++ [(p, v)]) 0))) prev).
Proof.
  unfold ring. rewrite cells_seg_app. simpl. intros (_&Hp&_). eexists. rewrite Hp. rewrite !cells_first_app. done.
Qed.
