(* ===== verification/RqueueOps.v ===== *)
(** * Ring queues: reading and writing

    The invariant of a ring queue as a bounded queue, and that the operations
    of one thread implement it. *)

From S2P Require Import Prelude Rqueue RqueueRing.

(** ** Steps *)

Section steps.
Context (q : rqueue_t) (N : gmap Z rqueue_page_t) (nx : Z) (a : list bool) (f : list Z) (s : nat).
Abbreviation W q N := (mk_rworld (RLive q) N nx a f s).

Lemma returns_load_queue Q : Q (q, W q N) → returns (load_queue (W q N)) Q.
Proof. done. Qed.
Lemma returns_set_queue g Q : Q (tt, W (g q) N) → returns (set_queue g (W q N)) Q.
Proof. done. Qed.
Lemma returns_load_page p x Q : N !! p = Some x → Q (x, W q N) → returns (load_page p (W q N)) Q.
Proof. unfold load_page. simpl. by intros ->. Qed.
Lemma returns_set_page p x g Q : N !! p = Some x → Q (tt, W q (<[p := g x]> N)) → returns (set_page p g (W q N)) Q.
Proof. intros Hp HQ. unfold set_page. go. by eapply returns_load_page. Qed.
Lemma returns_CAS_field get set o n Q :
  get q = o → Q (true, W (set n q) N) → returns (CAS_field get set o n (W q N)) Q.
Proof. intros Hg HQ. unfold CAS_field. go. apply returns_load_queue. rewrite Hg, Z.eqb_refl. by go. Qed.
Lemma returns_CAS_next p x o n Q :
  N !! p = Some x → pg_next x = o → Q (true, W q (<[p := with_next n x]> N)) → returns (CAS_next p o n (W q N)) Q.
Proof.
  intros Hp Ho HQ. unfold CAS_next. go. eapply returns_load_page; [done|]. rewrite Ho, Z.eqb_refl. go.
  eapply returns_set_page; [done|]. by go.
Qed.
Lemma returns_CAS_value p x o n Q :
  N !! p = Some x → pg_value x = o → Q (true, W q (<[p := with_value n x]> N)) → returns (CAS_value p o n (W q N)) Q.
Proof.
  intros Hp Ho HQ. unfold CAS_value. go. eapply returns_load_page; [done|]. rewrite Ho, Z.eqb_refl. go.
  eapply returns_set_page; [done|]. by go.
Qed.
(** The counters are not part of the specification. *)
Lemma returns_INCREASE c n Q : (∀ st, Q (tt, W (with_stats st q) N)) → returns (INCREASE c n (W q N)) Q.
Proof. intros HQ. unfold INCREASE. apply returns_set_queue. apply HQ. Qed.
Lemma returns_INCREMENT c Q : (∀ st, Q (tt, W (with_stats st q) N)) → returns (INCREMENT c (W q N)) Q.
Proof. apply returns_INCREASE. Qed.
End steps.

(** ** The invariant *)

(** The queue holds [vs], the next page to write the old value [st] (0 for
    none).  The pages before that page, the page, and those after it form the
    ring; the last page written, or the reader's when all were read, is
    [commit]. *)
Record rq_shape (N : gmap Z rqueue_page_t) (items : cells) (pt st : Z) (free : cells) (commit r : Z) : Prop := {
  sh_ring : ring N (items ++ (pt, st) :: free);
  sh_nodup : NoDup (r :: (items ++ (pt, st) :: free).*1);
  sh_aligned : Forall aligned (r :: (items ++ (pt, st) :: free).*1);
  sh_dom : ∀ p, is_Some (N !! p) ↔ p ∈ r :: (items ++ (pt, st) :: free).*1;
  sh_reader : pg_value <$> N !! r = Some 0;
  sh_items : Forall (λ c, c.2 ≠ 0) items;
  sh_free : Forall (λ c, c.2 = 0) free;
  sh_commit : match last items with Some c => commit = c.1 | None => commit = r ∨ commit = pt end
}.

Definition rq_in (size mode : Z) (cb : bool) (vs : list Z) (st nw nr : Z) (w : rworld) : Prop :=
  ∃ items pt free commit r stats,
    rw_queue w = RLive (mk_rqueue (first (items ++ [(pt, st)]) 0) pt commit r cb size mode nw nr 0 0 0
                          (if decide (vs = []) then 1 else 0) stats) ∧
    rq_shape (rw_pages w) items pt st free commit r ∧ items.*2 = vs ∧
    2 ≤ size ∧ Z.of_nat (length (items ++ (pt, st) :: free)) = size + 1.

(** ** Reading *)

Section read.
Context (elapsed : nat → Z → Z) (rand : nat → Z).

(** An attempt on an empty queue changes the counters only. *)
Lemma read_attempt_empty i t q N nx a f s :
  rb_read_sync q = 0 → rb_is_empty q = 1 → is_Some (N !! rb_head q) → is_Some (N !! rb_reader q) →
  returns (read_attempt elapsed rand i t (mk_rworld (RLive q) N nx a f s)) (λ '(r, w'),
    r = (None, t) ∧ ∃ stats, w' = mk_rworld (RLive (with_stats stats q)) N nx a f s).
Proof.
  intros Hs He [h Hh] [x Hx]. unfold read_attempt. go. apply returns_INCREMENT. intros stats. go.
  unfold CAS_read_sync. apply returns_CAS_field; [done|]. cbn [negb]. go. apply returns_load_queue. go.
  eapply returns_load_page; [exact Hh|]. go. eapply returns_load_page; [exact Hx|]. go.
  cbn [rb_is_empty with_read_sync with_stats]. rewrite He, orb_true_r. go.
  apply returns_CAS_field; [done|]. go. split; [done|]. exists stats. destruct q; simpl in *. by subst.
Qed.
Lemma read_loop_empty n i t q N nx a f s :
  rb_read_sync q = 0 → rb_is_empty q = 1 → is_Some (N !! rb_head q) → is_Some (N !! rb_reader q) →
  returns (read_loop elapsed rand n i t (mk_rworld (RLive q) N nx a f s)) (λ '(r, w'),
    r = (0, t) ∧ ∃ stats, w' = mk_rworld (RLive (with_stats stats q)) N nx a f s).
Proof.
  revert i q. induction n as [|n IH]; intros i q Hs He Hh Hx; simpl; go.
  { split; [done|]. exists (rb_stats q). by destruct q. }
  eapply returns_mono; [by apply read_attempt_empty|]. intros [r w'] (->&st1&->). go.
  eapply returns_mono; [by apply (IH _ (with_stats st1 q))|]. intros [r w'] (->&st2&->). split; [done|]. by exists st2.
Qed.

(** An attempt on a queue with the value [v0] at its head. *)
Lemma read_attempt_some i t p0 p1 pl r pt commit cb size mode nw nr stats N nx a f s v0 v1 n1 vl ql x :
  N !! p0 = Some (mk_page v0 p1 pl) → N !! p1 = Some (mk_page v1 n1 p0) →
  N !! pl = Some (mk_page vl (flagged p0) ql) → N !! r = Some x → pg_value x = 0 →
  NoDup [r; p0; p1; pl] → v0 ≠ 0 → r ≠ commit →
  returns (read_attempt elapsed rand i t
    (mk_rworld (RLive (mk_rqueue p0 pt commit r cb size mode nw nr 0 0 0 0 stats)) N nx a f s)) (λ '(res, w'),
    res = (Some v0, t) ∧ ∃ stats', w' = mk_rworld
      (RLive (mk_rqueue p1 pt commit p0 cb size mode nw (u64 (nr + 1)) 0 0 0 (if p1 =? pt then 1 else 0) stats'))
      (<[p0 := mk_page 0 p1 pl]> (<[p1 := mk_page v1 n1 r]> (<[pl := mk_page vl r ql]>
         (<[r := mk_page 0 (flagged p1) pl]> N)))) nx a f s).
Proof.
  intros H0 H1 Hl Hr Hx Hnd Hv0 Hrc. rewrite !NoDup_cons, !not_elem_of_cons in Hnd.
  destruct Hnd as ((?&?&?&_)&(?&?&_)&(?&_)&_). destruct x as [xv xn xp]. simpl in Hx. subst xv.
  unfold read_attempt. go. apply returns_INCREMENT. intros st1. go.
  unfold CAS_read_sync. apply returns_CAS_field; [done|]. cbn [negb]. go. apply returns_load_queue. go.
  cbn [rb_head rb_commit rb_reader rb_is_empty with_read_sync with_stats].
  eapply returns_load_page; [exact H0|]. go. eapply returns_load_page; [exact Hr|]. go.
  rewrite (proj2 (Z.eqb_neq r commit)) by done. cbn [orb Z.eqb negb pg_next].
  unfold rqueue_validate_reader_snapshot. go. apply returns_load_queue. go. eapply returns_load_page; [exact H0|]. go.
  cbn [rb_head rb_commit pg_next with_read_sync with_stats]. rewrite !Z.eqb_refl. cbn [andb negb]. go.
  eapply returns_CAS_next; [exact Hr|done|]. cbn [negb]. go.
  eapply returns_load_page; [by rewrite lookup_insert_ne|]. go.
  eapply returns_set_page; [apply lookup_insert_eq|]. go. rewrite insert_insert_eq. apply returns_load_queue. go.
  cbn [rb_head with_read_sync with_stats]. rewrite Z.eqb_refl. cbn [negb]. go.
  eapply returns_load_page; [by rewrite lookup_insert_ne|]. go. cbn [pg_prev].
  eapply returns_CAS_next; [by rewrite lookup_insert_ne|done|]. cbn [negb]. go.
  apply returns_CAS_field; [done|]. go.
  eapply returns_set_page; [by rewrite !lookup_insert_ne|]. go. apply returns_set_queue. go.
  eapply returns_load_page; [by rewrite !lookup_insert_ne|]. go. cbn [pg_value].
  rewrite (proj2 (Z.eqb_neq v0 0)) by done. go.
  eapply returns_CAS_value; [by rewrite !lookup_insert_ne|done|]. go. apply returns_set_queue. go.
  apply returns_load_queue. go.
  cbn [rb_head rb_tail with_reads with_reader with_head with_read_sync with_stats].
  destruct (p1 =? pt); go.
  - apply returns_CAS_field; [done|]. go. apply returns_CAS_field; [done|]. go. split; [done|]. by eexists.
  - apply returns_CAS_field; [done|]. go. split; [done|]. by eexists.
Qed.
End read.

(** ** The pages of a queue *)

(** Once the first page is put last, the pages are the same. *)
Lemma rotate_perm {A} (r p0 : A) l : p0 :: l ++ [r] ≡ₚ r :: p0 :: l.
Proof. change (p0 :: l ++ [r]) with ((p0 :: l) ++ [r]). by rewrite Permutation_app_comm. Qed.

Lemma shape_reader_commit N items pt st free commit r :
  rq_shape N items pt st free commit r → items ≠ [] → r ≠ commit.
Proof.
  intros [_ Hnd _ _ _ _ _ Hc] Hi ->. apply NoDup_cons in Hnd as [Hr _]. apply Hr.
  destruct (last items) as [c|] eqn:El; [|by apply last_None in El]. apply last_Some in El as [l ->]. subst.
  rewrite !fmap_app. apply elem_of_app. left. apply elem_of_app. right. left.
Qed.

(** The reader takes the page at the head. *)
Lemma shape_read N p0 v0 p1 v1 mid pl vl items pt st free commit r :
  rq_shape N ((p0, v0) :: items) pt st free commit r →
  items ++ (pt, st) :: free = (p1, v1) :: mid ++ [(pl, vl)] →
  rq_shape (<[p0 := mk_page 0 p1 pl]> (<[p1 := mk_page v1 (first mid pl) r]> (<[pl := mk_page vl r (lastp p1 mid)]>
              (<[r := mk_page 0 (flagged p1) pl]> N)))) items pt st (free ++ [(r, 0)]) commit p0.
Proof.
  intros [Hring Hnd Hal Hdom Hr Hit Hfree Hc] Hcs.
  assert (Hcs' : items ++ (pt, st) :: free ++ [(r, 0)] = (p1, v1) :: mid ++ [(pl, vl); (r, 0)]).
  { transitivity ((items ++ (pt, st) :: free) ++ [(r, 0)]); [by rewrite <- app_assoc|].
    rewrite Hcs. simpl. by rewrite <- app_assoc. }
  assert (Hperm : p0 :: (items ++ (pt, st) :: free ++ [(r, 0)]).*1 ≡ₚ r :: (((p0, v0) :: items) ++ (pt, st) :: free).*1).
  { rewrite Hcs'. simpl app. rewrite Hcs. rewrite !fmap_cons, !fmap_app. simpl.
    change [pl; r] with ([pl] ++ [r]). rewrite app_assoc. apply (rotate_perm r p0 (p1 :: mid.*1 ++ [pl])). }
  split.
  - rewrite Hcs'. simpl app in *. rewrite Hcs in *. apply ring_read with (v0 := v0); [done|].
    rewrite !fmap_cons, fmap_app in Hnd. done.
  - by rewrite Hperm.
  - by rewrite Hperm.
  - intros p. rewrite Hperm, <- Hdom. simpl app in Hdom. rewrite Hcs in Hdom.
    assert (∀ p, p ∈ [p0; p1; pl; r] → is_Some (N !! p)) as Hin.
    { intros p' Hp'. apply Hdom. rewrite !fmap_cons, fmap_app. clear -Hp'. simpl. set_solver. }
    rewrite !lookup_insert_dom; [done|..]; repeat apply lookup_insert_mono; apply Hin; set_solver.
  - by rewrite lookup_insert_eq.
  - by apply Forall_cons in Hit as [_ Hit].
  - apply Forall_app. by repeat constructor.
  - rewrite last_cons in Hc. destruct (last items) as [c|]; [done|by left].
Qed.

Lemma first_head (items free : cells) pt st : first (items ++ (pt, st) :: free) 0 = first (items ++ [(pt, st)]) 0.
Proof. by rewrite !cells_first_app. Qed.

(** The page to write is at the head exactly when there is no item. *)
Lemma head_is_tail (items free : cells) pt st r :
  NoDup (r :: (items ++ (pt, st) :: free).*1) → (first (items ++ [(pt, st)]) 0 =? pt) = bool_decide (items = []).
Proof.
  intros Hnd. destruct items as [|[p0 v0] items]; simpl; [by rewrite Z.eqb_refl|].
  apply Z.eqb_neq. intros ->. simpl in Hnd. rewrite fmap_app in Hnd.
  apply NoDup_cons in Hnd as [_ Hnd]. apply NoDup_cons in Hnd as [Hp _]. apply Hp. apply elem_of_app. right. left.
Qed.

Section ops.
Context (elapsed : nat → Z → Z) (rand : nat → Z).
Context (size mode : Z) (cb : bool).
Abbreviation rq_in := (rq_in size mode cb).

Lemma unless_null_live {A} null (m : R A) w q : rw_queue w = RLive q → unless_null null m w = m w.
Proof. unfold unless_null. by intros ->. Qed.

(** The same queue, with other counters and sleeps. *)
Definition same_calls (w w' : rworld) : Prop := rw_freed w' = rw_freed w ∧ rw_alloc w' = rw_alloc w.

Lemma returns_INCREASE_in c n vs st nw nr w Q :
  rq_in vs st nw nr w → (∀ w', rq_in vs st nw nr w' → same_calls w w' → Q (tt, w')) → returns (INCREASE c n w) Q.
Proof.
  intros (items&pt&free&commit&r&stats&Hq&Hin) HQ. destruct w as [wq N nx a f s]. simpl in *. subst wq.
  apply returns_INCREASE. intros st'. apply HQ; [|done]. by exists items, pt, free, commit, r, st'.
Qed.

Lemma read_loop_ok n vs st nw nr w :
  rq_in vs st nw nr w →
  returns (read_loop elapsed rand (S n) 0 0 w) (λ '((v, t), w'), same_calls w w' ∧
    match vs with
    | [] => v = 0 ∧ rq_in vs st nw nr w'
    | v0 :: vs => v = v0 ∧ rq_in vs st nw (u64 (nr + 1)) w'
    end).
Proof.
  intros (items&pt&free&commit&r&stats&Hq&Hsh&<-&Hs&Hlen).
  destruct w as [wq N nx a f s]. simpl in Hq, Hsh. subst wq. destruct items as [|[p0 v0] items].
  { eapply returns_mono; [apply read_loop_empty; [done|done|apply Hsh; simpl; set_solver|apply Hsh; simpl; set_solver]|].
    intros [[v t] w1] ([= -> ->]&st1&->). split; [done|]. split; [done|]. by exists [], pt, free, commit, r, st1. }
  simpl read_loop. go.
  destruct (ring_form (((p0, v0) :: items) ++ (pt, st) :: free)) as (p0'&v0'&p1&v1&mid&pl&vl&Hcs); [lia|].
  simpl app in Hcs. injection Hcs as <- <- Hcs. pose proof (shape_read _ _ _ _ _ _ _ _ _ _ _ _ _ _ Hsh Hcs) as Hsh'.
  pose proof (shape_reader_commit _ _ _ _ _ _ _ Hsh ltac:(done)) as Hrc.
  pose proof Hsh as [Hring Hnd Hal Hdom Hr Hit Hfree Hc]. simpl app in Hring, Hnd, Hdom. rewrite Hcs in Hring, Hnd, Hdom.
  apply ring_open in Hring as (H0&H1&Hmid&Hpl). apply fmap_Some in Hr as (x&Hx&Hx0).
  rewrite decide_False by done.
  eapply returns_mono; [eapply (read_attempt_some elapsed rand 0 0 p0 p1 pl r); try done|].
  - eapply sublist_NoDup; [exact Hnd|]. rewrite !fmap_cons, fmap_app. do 3 apply sublist_skip. by apply sublist_inserts_l.
  - by apply Forall_cons in Hit as [? _].
  - intros [[v t] w1] ([= -> ->]&st1&->). go. split; [done|]. split; [done|].
    exists items, pt, (free ++ [(r, 0)]), commit, p0, st1. simpl. split; [|split; [exact Hsh'|split; [done|split; [done|]]]].
    + assert (p1 = first (items ++ [(pt, st)]) 0) as -> by (by rewrite <- (first_head items free), Hcs).
      do 2 f_equal. pose proof (head_is_tail items free pt st r) as Hht. rewrite Hht.
      * destruct items as [|c items]; [by rewrite bool_decide_eq_true_2|by rewrite bool_decide_eq_false_2].
      * destruct Hsh as [_ Hnd' _ _ _ _ _ _]. eapply sublist_NoDup; [exact Hnd'|]. simpl. apply sublist_skip. by apply sublist_cons.
    + rewrite length_app in Hlen |- *. simpl in *. rewrite length_app. simpl. lia.
Qed.

Lemma rqueue_read_ok vs st nw nr w :
  rq_in vs st nw nr w →
  returns (rqueue_read elapsed rand w) (λ '(v, w'), same_calls w w' ∧
    match vs with
    | [] => v = 0 ∧ rq_in vs st nw nr w'
    | v0 :: vs => v = v0 ∧ rq_in vs st nw (u64 (nr + 1)) w'
    end).
Proof.
  intros Hin. pose proof Hin as (?&?&?&?&?&?&Hq&_). unfold rqueue_read. erewrite unless_null_live by done.
  change (Z.to_nat RQUEUE_READER_MAX_RETRIES) with (S 1499). generalize 1499%nat. intros n. go.
  eapply returns_mono; [by apply read_loop_ok|]. intros [[v t] w1] [[Hf1 Ha1] Hw1].
  assert (∃ vs' nr', rq_in vs' st nw nr' w1 ∧ ∀ w', rq_in vs' st nw nr' w' → match vs with
    | [] => v = 0 ∧ rq_in vs st nw nr w'
    | v0 :: vs => v = v0 ∧ rq_in vs st nw (u64 (nr + 1)) w'
    end) as (vs'&nr'&Hin1&Hfin) by (destruct vs as [|v0 vs], Hw1; by eexists _, _).
  go. eapply returns_INCREASE_in; [exact Hin1|]. intros w2 Hin2 [Hf2 Ha2]. go.
  unfold INCREMENT. eapply returns_INCREASE_in; [exact Hin2|]. intros w3 Hin3 [Hf3 Ha3]. go.
  split; [|by apply Hfin]. split; congruence.
Qed.
End ops.
