(* ===== verification/RqueueWrite.v ===== *)
(** * Ring queues: writing

    One turn of the loop of [rqueue_write] on a queue with room, on a full
    queue that is overwritten and on a full queue that is not, and the whole
    call. *)

From S2P Require Import Prelude Rqueue RqueueRing RqueueOps.

Section turns.
Context (elapsed : nat → Z → Z) (rand : nat → Z).
Context (pt commit r : Z) (cb : bool) (size mode nw nr : Z).
(** The queue during a call of [rqueue_write]. *)
Abbreviation Q h tl e st := (mk_rqueue h tl commit r cb size mode nw nr 0 1 1 e st).
Abbreviation W q N nx a f s := (mk_rworld (RLive q) N nx a f s).

(** The page after the one to write is not the head. *)
Lemma write_turn_room retries tl h e st N nx a f s x pn :
  N !! pt = Some x → pg_next x = pn → aligned pn → pn ≠ h → commit ≠ pt ∨ pt = h →
  write_turn elapsed rand retries tl (W (Q h pt e st) N nx a f s) =
    Ret (inr (retries, pt, pt), W (Q h pn e st) N nx a f s).
Proof.
  intros Hp Hx Hal Hne Hc. apply returns_exact. unfold write_turn. go. apply returns_load_queue. go.
  eapply returns_load_page; [exact Hp|]. go. rewrite Hx, flag_off_plain by done.
  rewrite (proj2 (Z.eqb_neq pn 0)) by (destruct Hal; lia). go. apply returns_load_queue. go.
  cbn [rb_head rb_tail rb_commit rb_mode rb_is_empty]. rewrite !Z.eqb_refl. cbn [negb].
  assert (Hblock : (mode =? RQUEUE_MODE_BLOCKING) && (commit =? pt) && negb (pt =? h) && negb (pn =? h) = false).
  { destruct Hc as [Hc|Hc].
    - by rewrite (proj2 (Z.eqb_neq commit pt)), andb_false_r by done.
    - by rewrite (proj2 (Z.eqb_eq pt h)), andb_false_r by done. }
  rewrite Hblock. go. eapply returns_load_page; [exact Hp|]. go. apply returns_load_queue. go.
  rewrite Hx, check_plain, (proj2 (Z.eqb_neq pn h)) by done. go.
  eapply returns_load_page; [exact Hp|]. go. rewrite Hx, check_plain by done. go. apply returns_load_queue. go.
  by apply returns_CAS_field.
Qed.

(** In overwrite mode, the head of a full queue is moved. *)
Lemma write_turn_overwrite retries tl h e st N nx a f s x c v0 p1 pp :
  mode = RQUEUE_MODE_OVERWRITE → N !! pt = Some x → pg_next x = flagged h → aligned h → pt ≠ h →
  N !! commit = Some c → pg_next c = pt → N !! h = Some (mk_page v0 p1 pp) → aligned p1 →
  returns (write_turn elapsed rand retries tl (W (Q h pt e st) N nx a f s)) (λ '(res, w'),
    res = inr (retries, tl, pt) ∧ ∃ st', w' =
      W (Q p1 pt e st') (<[pt := with_next h x]> (<[h := mk_page v0 (flagged p1) pp]> N)) nx a f s).
Proof.
  intros -> Hp Hx Hal Hne Hcm Hcn Hh Hp1. unfold write_turn. go. apply returns_load_queue. go.
  eapply returns_load_page; [exact Hp|]. go. rewrite Hx, flag_off_flagged by done.
  rewrite (proj2 (Z.eqb_neq h 0)) by (destruct Hal; lia). go. apply returns_load_queue. go.
  cbn [rb_head rb_tail rb_commit rb_mode rb_is_empty]. rewrite !Z.eqb_refl.
  change (RQUEUE_MODE_OVERWRITE =? RQUEUE_MODE_BLOCKING) with false. cbn [negb andb]. go.
  eapply returns_load_page; [exact Hp|]. go. apply returns_load_queue. go.
  rewrite Hx, check_flagged by done. cbn [orb rb_mode]. rewrite Z.eqb_refl. go.
  eapply returns_load_page; [exact Hcm|]. go. rewrite Hcn, Z.eqb_refl. unfold CAS_read_sync. apply returns_CAS_field; [done|]. go.
  unfold overwrite_head. go. apply returns_INCREMENT. intros st1. go. apply returns_load_queue. go.
  cbn [rb_head rb_commit with_read_sync with_stats]. rewrite !Z.eqb_refl. cbn [negb orb]. go.
  eapply returns_load_page; [exact Hh|]. go. eapply returns_load_page; [exact Hh|]. go. rewrite Z.eqb_refl. cbn [negb pg_next].
  rewrite flag_off_plain by done. go. eapply returns_CAS_next; [exact Hh|done|]. go.
  eapply returns_CAS_next; [by rewrite lookup_insert_ne|done|]. go. apply returns_set_queue. go.
  unfold CAS_read_sync. apply returns_CAS_field; [done|]. go. split; [done|]. by exists st1.
Qed.

(** The delays of short waits are defined. *)
Lemma returns_backoff_fast retries t q N nx a f s P :
  0 ≤ retries → (∀ t' s', P (t', W q N nx a f s')) →
  returns (rqueue_backoff_with_strategy elapsed rand RQUEUE_RETRY_FAST retries t (W q N nx a f s)) P.
Proof.
  intros Hr HP. unfold rqueue_backoff_with_strategy. go.
  assert (returns (backoff_delay RQUEUE_RETRY_FAST retries) (λ _, True)) as (d&->&_)%returns_inv.
  { unfold backoff_delay. destruct (Z.ltb_spec retries 10); [done|]. destruct (Z.ltb_spec retries 50); [|done]. go.
    unfold int_shift. pose proof (Z.quot_pos (retries - 10) 5). pose proof (Z.quot_le_mono (retries - 10) 40 5).
    change (40 ÷ 5) with 8 in *. rewrite (proj2 (Z.leb_le _ _)), (proj2 (Z.leb_le _ _)) by lia. done. }
  go. destruct (0 <? d); go; apply HP.
Qed.

(** A full queue is not written: another attempt, or the end. *)
Lemma write_turn_full retries tl h e st N nx a f s x :
  mode ≠ RQUEUE_MODE_OVERWRITE → N !! pt = Some x → pg_next x = flagged h → aligned h → 0 ≤ retries →
  returns (write_turn elapsed rand retries tl (W (Q h pt e st) N nx a f s)) (λ '(res, w'), ∃ st' s',
    if retries <? RQUEUE_WRITER_CAS_MAX_RETRIES
    then res = inr (retries + 1, tl, pt) ∧ w' = W (Q h pt e st') N nx a f s'
    else res = inl (-2) ∧ w' = W (mk_rqueue h pt commit r cb size mode nw nr 0 0 0 e st') N nx a f s').
Proof.
  intros Hm Hp Hx Hal Hr. unfold write_turn. go. apply returns_load_queue. go.
  eapply returns_load_page; [exact Hp|]. go. rewrite Hx, flag_off_flagged by done.
  rewrite (proj2 (Z.eqb_neq h 0)) by (destruct Hal; lia). go. apply returns_load_queue. go.
  cbn [rb_head rb_tail rb_commit rb_mode rb_is_empty]. rewrite !Z.eqb_refl. cbn [negb]. rewrite andb_false_r. go.
  eapply returns_load_page; [exact Hp|]. go. apply returns_load_queue. go.
  rewrite Hx, check_flagged by done. cbn [orb rb_mode]. rewrite (proj2 (Z.eqb_neq mode _)) by done. go.
  destruct (Z.ltb_spec retries RQUEUE_WRITER_CAS_MAX_RETRIES) as [Hlt|Hge]; go.
  - apply returns_INCREMENT. intros st1. go. unfold writer_backoff, release_writer, DECREMENT_writers. go.
    apply returns_set_queue. go. unfold CAS_write_sync. apply returns_CAS_field; [done|]. go.
    apply returns_backoff_fast; [lia|]. intros t1 s1. go. apply returns_INCREASE. intros st2. go.
    apply returns_loopS_exit. unfold reacquire_body, CAS_write_sync. go. apply returns_CAS_field; [done|]. go.
    unfold INCREMENT_writers. apply returns_set_queue. go. by exists st2, s1.
  - unfold refuse_write, release_writer, DECREMENT_writers. go. apply returns_set_queue. go. unfold CAS_write_sync.
    apply returns_CAS_field; [done|]. go. do 2 (apply returns_INCREMENT; intros ?; go).
    apply returns_INCREMENT. intros st3. go. by exists st3, s.
Qed.

(** The loop gives up on a full queue. *)
Lemma write_loop_full h e st N nx a f s x :
  mode ≠ RQUEUE_MODE_OVERWRITE → N !! pt = Some x → pg_next x = flagged h → aligned h → aligned pt →
  returns (loopS (write_body elapsed rand) (0, 0) (W (Q h pt e st) N nx a f s)) (λ '(res, w'), ∃ st' s',
    res = inl (-2) ∧ w' = W (mk_rqueue h pt commit r cb size mode nw nr 0 0 0 e st') N nx a f s').
Proof.
  intros Hm Hp Hx Hal Hpt.
  apply (loopS_returns _ (λ '(retries, tl) w, tl = 0 ∧ (∃ j, retries = 2 * j ∧ 0 ≤ j ≤ 50) ∧
      ∃ st s, w = W (Q h pt e st) N nx a f s) (λ '(retries, _) _, 200 - retries)).
  - intros [retries tl] w (->&(j&->&Hj)&st1&s1&->) _. unfold write_body. go.
    eapply returns_mono; [eapply write_turn_full; [done|exact Hp|done|done|lia]|]. intros [res w'] (st2&s2&Hres).
    unfold RQUEUE_WRITER_CAS_MAX_RETRIES in *. destruct (Z.ltb_spec (2 * j) 100) as [Hlt|Hge]; destruct Hres as [-> ->]; go.
    + rewrite (proj2 (Z.eqb_neq 0 pt)), (proj2 (Z.ltb_lt _ _)) by (destruct Hpt; lia). go. split; [|lia].
      split; [done|]. split; [exists (j + 1); lia|]. by eexists _, _.
    + by exists st2, s2.
  - split; [done|]. split; [by exists 0|]. by exists st, s.
  - lia.
Qed.
End turns.

(** ** The pages after a write *)

Lemma snoc_cons {A} (l : list A) x y m : (l ++ [x]) ++ y :: m = l ++ x :: y :: m.
Proof. by rewrite <- app_assoc. Qed.

Lemma shape_write N items pt st pn vn free r x v :
  ring N (items ++ (pt, st) :: (pn, vn) :: free) →
  NoDup (r :: (items ++ (pt, st) :: (pn, vn) :: free).*1) →
  Forall aligned (r :: (items ++ (pt, st) :: (pn, vn) :: free).*1) →
  (∀ p, is_Some (N !! p) ↔ p ∈ r :: (items ++ (pt, st) :: (pn, vn) :: free).*1) →
  pg_value <$> N !! r = Some 0 → Forall (λ c, c.2 ≠ 0) items → Forall (λ c, c.2 = 0) free →
  N !! pt = Some x → v ≠ 0 →
  rq_shape (<[pt := with_value v x]> N) (items ++ [(pt, v)]) pn vn free pt r.
Proof.
  intros Hring Hnd Hal Hdom Hr Hit Hfree Hx Hv.
  assert (Heq : ((items ++ [(pt, v)]) ++ (pn, vn) :: free).*1 = (items ++ (pt, st) :: (pn, vn) :: free).*1)
    by (rewrite snoc_cons, !fmap_app; done).
  split; rewrite ?Heq; try done.
  - rewrite snoc_cons. eapply ring_update; [exact Hring| |exact Hx].
    apply NoDup_cons in Hnd as [_ Hnd]. by rewrite fmap_app in Hnd.
  - intros p. rewrite lookup_insert_dom by (by eexists). apply Hdom.
  - rewrite lookup_insert_ne; [done|]. intros ->. apply NoDup_cons in Hnd as [Hn _]. apply Hn. rewrite fmap_app. set_solver.
  - apply Forall_app. by repeat constructor.
  - rewrite last_snoc. done.
Qed.

(** The ring of a full queue, with its head moved. *)
Lemma shape_overwrite N p0 v0 items pt st commit r :
  rq_shape N ((p0, v0) :: items) pt st [] commit r → items ≠ [] →
  ∃ p1 x c, first (items ++ [(pt, st)]) 0 = p1 ∧ aligned p1 ∧ aligned p0 ∧ pt ≠ p0 ∧ p1 ≠ p0 ∧ commit ≠ pt ∧
    N !! pt = Some x ∧ pg_next x = flagged p0 ∧ pg_value x = st ∧ N !! commit = Some c ∧ pg_next c = pt ∧
    (∃ pp, N !! p0 = Some (mk_page v0 p1 pp) ∧
      let N' := <[pt := with_next p0 x]> (<[p0 := mk_page v0 (flagged p1) pp]> N) in
      ring N' (items ++ (pt, st) :: [(p0, v0)]) ∧
      (∀ p, is_Some (N' !! p) ↔ p ∈ r :: (items ++ (pt, st) :: [(p0, v0)]).*1) ∧
      NoDup (r :: (items ++ (pt, st) :: [(p0, v0)]).*1) ∧ Forall aligned (r :: (items ++ (pt, st) :: [(p0, v0)]).*1) ∧
      pg_value <$> N' !! r = Some 0).
Proof.
  intros [Hring Hnd Hal Hdom Hr Hit Hfree Hc] Hne. destruct items as [|[p1 v1] mid]; [done|].
  assert (Hperm : r :: (((p1, v1) :: mid) ++ [(pt, st); (p0, v0)]).*1 ≡ₚ r :: (((p0, v0) :: (p1, v1) :: mid) ++ [(pt, st)]).*1).
  { simpl. rewrite !fmap_app. simpl. constructor. change [pt; p0] with ([pt] ++ [p0]). rewrite app_assoc.
    apply (rotate_perm p0 p1). }
  rewrite <- Hperm in Hnd, Hal. setoid_rewrite <- Hperm in Hdom. clear Hperm.
  simpl app in *. pose proof (ring_rotate N p0 v0 p1 v1 mid pt st Hring) as Hrot.
  apply ring_open in Hring as Hopen. destruct Hopen as (H0&H1&Hmid&Hpt).
  rewrite !fmap_cons, fmap_app in Hnd, Hal. simpl in Hnd, Hal.
  assert (Hp : p1 ≠ p0 ∧ pt ≠ p0 ∧ pt ∉ p1 :: mid.*1 ∧ r ≠ p0 ∧ r ≠ pt ∧ p0 ∉ mid.*1 ∧ p1 ∉ mid.*1 ∧ NoDup (mid.*1)).
  { apply NoDup_cons in Hnd as [Hr1 Hnd]. apply NoDup_cons in Hnd as [Hp1 Hnd]. apply NoDup_app in Hnd as (Hm&Hd&Hl).
    rewrite !not_elem_of_cons, not_elem_of_app, !not_elem_of_cons in Hr1.
    rewrite not_elem_of_app, !not_elem_of_cons in Hp1.
    apply NoDup_cons in Hl as [Hl%not_elem_of_cons _]. destruct Hr1 as (?&?&?&?&_), Hp1 as (?&?&?&_), Hl as [? _].
    assert (∀ q, q ∈ mid.*1 → q ≠ pt ∧ q ≠ p0) as Hmd.
    { intros q Hq. specialize (Hd q Hq). by rewrite !not_elem_of_cons in Hd; destruct Hd as (?&?&_). }
    split_and!; try done.
    - intros [->|Hq%Hmd]%elem_of_cons; naive_solver.
    - intros Hq%Hmd. naive_solver. }
  destruct Hp as (Hp10&Hpt0&Hpt1&Hr0&Hrt&Hm0&Hm1&Hndm).
  assert (Hall : ∀ p, p ∈ [p0; p1; pt] → aligned p).
  { rewrite !Forall_cons, Forall_app, !Forall_cons in Hal. destruct Hal as (_&?&_&?&?&_).
    intros p [->|[->|[->|[]%elem_of_nil]%elem_of_cons]%elem_of_cons]%elem_of_cons; done. }
  assert (Hcommit : ∃ c, N !! commit = Some c ∧ pg_next c = pt ∧ commit ≠ pt).
  { rewrite last_cons in Hc. destruct (last ((p1, v1) :: mid)) as [[pc vc]|] eqn:El; [|by apply last_None in El].
    simpl in Hc. subst. apply last_Some in El as [l El].
    assert (Hring' : ring N (((p0, v0) :: l) ++ (pc, vc) :: [(pt, st)])).
    { simpl. change ((pc, vc) :: [(pt, st)]) with ([(pc, vc)] ++ [(pt, st)]). rewrite app_assoc, <- El. done. }
    apply ring_next in Hring' as [pp Hpc]. eexists. split; [exact Hpc|]. split; [done|]. intros ->. apply Hpt1.
    change (p1 :: mid.*1) with ((p1, v1) :: mid).*1. rewrite El, fmap_app. apply elem_of_app. right. left. }
  destruct Hcommit as (c&Hcl&Hcn&Hct).
  exists p1, (mk_page st (flagged p0) (lastp p1 mid)), c.
  split_and!; try done; try (apply Hall; repeat constructor). exists pt. split; [done|].
  split; [apply Hrot|split; [|split; [|split]]].
  - repeat (apply NoDup_cons; split); try done.
    + rewrite not_elem_of_cons, not_elem_of_app, list_elem_of_singleton. naive_solver.
    + rewrite not_elem_of_app, list_elem_of_singleton. split; [done|]. intros ->. apply Hpt1. left.
    + apply NoDup_app. split_and!; [done| |apply NoDup_singleton].
      intros p Hp ->%list_elem_of_singleton. apply Hpt1. by right.
  - intros p. rewrite <- Hdom, !lookup_insert_dom; [done| |apply lookup_insert_mono]; by eexists.
  - by rewrite !fmap_cons, fmap_app.
  - by rewrite !fmap_cons, fmap_app.
  - by rewrite !lookup_insert_ne.
Qed.

(** ** A write *)

(** The values freed when a page with the old value [st] is written. *)
Definition old_freed (cb : bool) (st : Z) : list Z := if cb && negb (st =? 0) then [st] else [].

Section write.
Context (elapsed : nat → Z → Z) (rand : nat → Z).
Context (size mode : Z) (cb : bool).
Abbreviation rq_in := (rq_in size mode cb).

Lemma rqueue_update_value_returns pt v x q N nx a f s :
  N !! pt = Some x → rb_free_value_cb q = cb →
  returns (rqueue_update_value pt v (mk_rworld (RLive q) N nx a f s)) (λ '(_, w'),
    w' = mk_rworld (RLive q) (<[pt := with_value v x]> N) nx a (f ++ old_freed cb (pg_value x)) s).
Proof.
  intros Hx Hcb. unfold rqueue_update_value. go. apply returns_loopS_exit. unfold update_value_body. go.
  eapply returns_load_page; [exact Hx|]. go. eapply returns_CAS_value; [exact Hx|done|]. go. apply returns_load_queue. go.
  rewrite Hcb. unfold old_freed. rewrite andb_comm. destruct (cb && negb (pg_value x =? 0)); [|go; by rewrite app_nil_r].
  unfold give_rvalue. by go.
Qed.

(** The end of a call that found a page to write. *)
Lemma write_end retries pt v x h pn commit r nw nr e st N nx a f s :
  N !! pt = Some x → aligned pt →
  returns ((if (pt =? 0) || negb (pt =? pt) then _ ← release_writer; mret (-1) else
        _ ← rqueue_update_value pt v;
        _ ← set_queue (λ q, with_writes (u64 (rb_writes q + 1)) q);
        _ ← set_queue (with_is_empty 0);
        q ← load_queue;
        _ ← (if rb_num_writers q =? 1 then CAS_field rb_commit with_commit (rb_commit q) pt else mret false);
        _ ← (if 0 <? retries then INCREMENT fast_retries_succeeded else mret tt);
        _ ← release_writer;
        mret 0) (mk_rworld (RLive (mk_rqueue h pn commit r cb size mode nw nr 0 1 1 e st)) N nx a f s))
    (λ '(rc, w'), rc = 0 ∧ ∃ st', w' = mk_rworld
      (RLive (mk_rqueue h pn pt r cb size mode (u64 (nw + 1)) nr 0 0 0 0 st')) (<[pt := with_value v x]> N) nx a
      (f ++ old_freed cb (pg_value x)) s).
Proof.
  intros Hx Hpt. rewrite Z.eqb_refl, (proj2 (Z.eqb_neq pt 0)) by (destruct Hpt; lia). go.
  eapply returns_mono; [by eapply rqueue_update_value_returns|]. intros [[] w'] ->. go.
  apply returns_set_queue. go. apply returns_set_queue. go. apply returns_load_queue. go.
  cbn [rb_num_writers with_is_empty with_writes Z.eqb Pos.eqb]. go. apply returns_CAS_field; [done|]. go.
  unfold release_writer, DECREMENT_writers, CAS_write_sync.
  destruct (0 <? retries); go; [apply returns_INCREMENT; intros st1; go|];
    (apply returns_set_queue; go; apply returns_CAS_field; [done|]; go; split; [done|]; by eexists).
Qed.

(** What a write does to the values. *)
Definition write_spec (vs : list Z) (st v : Z) : Z * list Z * Z * list Z :=
  if Z.of_nat (length vs) <? size then (0, vs ++ [v], 0, old_freed cb st)
  else if mode =? RQUEUE_MODE_OVERWRITE
  then (0, tail vs ++ [v], default 0 (head vs), old_freed cb st)
  else (-2, vs, st, []).

Definition write_ok (vs : list Z) (st v nw nr : Z) (w : rworld) (rc : Z) (w' : rworld) : Prop :=
  let '(rc', vs', st', freed) := write_spec vs st v in
  rc = rc' ∧ rw_freed w' = rw_freed w ++ freed ∧ rw_alloc w' = rw_alloc w ∧
  rq_in vs' st' (if rc' =? 0 then u64 (nw + 1) else nw) nr w'.

Lemma commit_not_tail N items pt st free commit r :
  rq_shape N items pt st free commit r → commit ≠ pt ∨ pt = first (items ++ [(pt, st)]) 0.
Proof.
  intros [_ Hnd _ _ _ _ _ Hc]. destruct items as [|c0 items]; [by right|]. left.
  destruct (last (c0 :: items)) as [c|] eqn:El; [|by apply last_None in El]. subst. intros E.
  apply last_Some in El as [l El]. rewrite El in Hnd. apply NoDup_cons in Hnd as [_ Hnd].
  rewrite fmap_app in Hnd. apply NoDup_app in Hnd as (_&Hd&_). apply (Hd c.1); [|rewrite E; left].
  rewrite fmap_app. apply elem_of_app. right. left.
Qed.

Lemma shape_aligned N items pt st free commit r : rq_shape N items pt st free commit r → aligned pt.
Proof.
  intros [_ _ Hal _ _ _ _ _]. apply Forall_cons in Hal as [_ Hal]. rewrite fmap_app in Hal.
  apply Forall_app in Hal as [_ Hal]. by apply Forall_cons in Hal as [? _].
Qed.

Lemma rqueue_write_ok vs st nw nr v w :
  rq_in vs st nw nr w → v ≠ 0 →
  returns (rqueue_write elapsed rand v w) (λ '(rc, w'), write_ok vs st v nw nr w rc w').
Proof.
  intros (items&pt&free&commit&r&stats&Hq&Hsh&<-&Hs&Hlen) Hv. unfold rqueue_write.
  destruct w as [wq N nx a f s]. simpl in Hq, Hsh. subst wq. erewrite unless_null_live by done. go.
  apply returns_loopS_exit. unfold spin_write_sync, CAS_write_sync. go. apply returns_CAS_field; [done|]. go.
  unfold INCREMENT_writers. apply returns_set_queue. go.
  change (with_num_writers _ _) with
    (mk_rqueue (first (items ++ [(pt, st)]) 0) pt commit r cb size mode nw nr 0 1 1 (if decide (items.*2 = []) then 1 else 0) stats).
  pose proof (shape_aligned _ _ _ _ _ _ _ Hsh) as Hpt. unfold write_ok, write_spec. rewrite length_fmap.
  destruct free as [|[pn vn] free].
  - rewrite length_app in Hlen. simpl in Hlen. rewrite (proj2 (Z.ltb_ge _ _)) by lia.
    destruct items as [|[p0 v0] items]; [simpl in Hlen; lia|]. rewrite decide_False by done.
    destruct (shape_overwrite _ _ _ _ _ _ _ _ Hsh) as (p1&x&c&Hp1&Ha1&Ha0&Hpt0&Hp10&Hcpt&Hx&Hxn&Hxv&Hc&Hcn&pp&Hp0&Hrot&Hdom&Hnd&Hal&Hr).
    { intros ->. simpl in Hlen. lia. }
    destruct (Z.eqb_spec mode RQUEUE_MODE_OVERWRITE) as [Hm|Hm].
    + apply returns_loopS_second. unfold write_body. go.
      eapply returns_mono; [by eapply write_turn_overwrite|]. intros [res w1] (->&st1&->). go.
      rewrite (proj2 (Z.eqb_neq 0 pt)) by (destruct Hpt; lia). change (0 <? RQUEUE_WRITER_CAS_MAX_RETRIES) with true. go.
      erewrite (write_turn_room elapsed rand pt commit r cb size mode nw nr) by (first [apply lookup_insert_eq|done|by left]). go.
      rewrite Z.eqb_refl. go. eapply returns_mono; [eapply write_end; [apply lookup_insert_eq|done]|].
      intros [rc w1] (->&st2&->). go. simpl rw_freed. rewrite Hxv. split; [done|]. split; [done|]. split; [done|].
      exists (items ++ [(pt, v)]), p0, [], pt, r, st2. simpl. rewrite fmap_app. split_and!; [| |done|done|].
      * rewrite decide_False, <- Hp1 by (by intros [_ ?]%app_nil). by destruct items; [simpl in Hlen; lia|].
      * eapply shape_write; try done; [by destruct Hsh as [_ _ _ _ _ Hit _ _]; apply Forall_cons in Hit as [_ ?]|apply lookup_insert_eq].
      * rewrite !length_app in *. simpl in *. lia.
    + eapply returns_mono; [by eapply write_loop_full|]. intros [res w1] (st1&s1&->&->). go.
      simpl. split; [done|]. rewrite app_nil_r. split; [done|]. split; [done|].
      exists ((p0, v0) :: items), pt, [], commit, r, st1. split; [done|]. split; [exact Hsh|]. split; [done|]. split; [done|].
      rewrite length_app. simpl in *. lia.
  - rewrite length_app in Hlen. simpl in Hlen. rewrite (proj2 (Z.ltb_lt _ _)) by lia.
    pose proof Hsh as [Hring Hnd Hal Hdom Hr Hit Hfree Hc]. apply Forall_cons in Hfree as [Hvn Hfree]. simpl in Hvn. subst vn.
    destruct (ring_next _ _ _ _ _ Hring) as [pp Hx]. simpl in Hx.
    apply returns_loopS_exit. unfold write_body. go.
    assert (aligned pn ∧ pn ≠ first (items ++ [(pt, st)]) 0) as [Hpn Hne].
    { rewrite fmap_app in Hal, Hnd. apply Forall_cons in Hal as [_ Hal]. apply Forall_app in Hal as [_ Hal].
      rewrite !fmap_cons, !Forall_cons in Hal. split; [tauto|]. intros E. apply NoDup_cons in Hnd as [_ Hnd].
      apply NoDup_app in Hnd as (_&Hd&Hnd). destruct items as [|c items]; simpl in E.
      - apply NoDup_cons in Hnd as [Hn _]. apply Hn. rewrite <- E. left.
      - apply (Hd pn); [rewrite E; left|right; left]. }
    erewrite (write_turn_room elapsed rand pt commit r cb size mode nw nr) by
      (first [exact Hx|done|by eapply commit_not_tail]). go.
    rewrite Z.eqb_refl. go. eapply returns_mono; [eapply write_end; [exact Hx|done]|].
    intros [rc w1] (->&st2&->). go. split; [done|]. split; [done|]. split; [done|].
    exists (items ++ [(pt, v)]), pn, free, pt, r, st2. simpl. rewrite fmap_app. split_and!; [| |done|done|].
    + rewrite decide_False by (by intros [_ ?]%app_nil). by rewrite snoc_cons, !cells_first_app.
    + eapply shape_write; try done; by rewrite Hx.
    + rewrite !length_app. simpl. lia.
Qed.
End write.
