(* ===== verification/RqueueSpec.v ===== *)
(** * Ring queues implement bounded queues

    Creation and destruction of the queues of src/src/rqueue.c, and the
    theorems: used by one thread, a ring queue is a bounded queue that refuses
    values, or drops the oldest one, when it is full. *)

From S2P Require Import Prelude Rqueue RqueueRing RqueueOps RqueueWrite.

(** ** Creation *)

Lemma returns_calloc_page q N nx a f s Q :
  false ∉ a → 0 < nx →
  (∀ a', false ∉ a' → Q (nx, mk_rworld q (<[nx := mk_page 0 0 0]> N) (nx + 4) a' f s)) →
  returns (calloc_page (mk_rworld q N nx a f s)) Q.
Proof.
  intros Ha Hnx HQ. unfold calloc_page. go. unfold ralloc. simpl. destruct a as [|b a]; simpl; [by apply HQ|].
  apply not_elem_of_cons in Ha as [Hb Ha]. destruct b; [|done]. simpl. by apply HQ.
Qed.

(** The pages allocated so far: a chain, whose first page is its own [prev]. *)
Record chain_at (cs : cells) (q : rqueue_t) (N : gmap Z rqueue_page_t) (nx : Z) : Prop := {
  ch_head : rb_head q = first cs 0;
  ch_tail : rb_tail q = lastp 0 cs;
  ch_seg : seg N (first cs 0) cs 0;
  ch_zero : Forall (λ c, c.2 = 0) cs;
  ch_nodup : NoDup cs.*1;
  ch_aligned : Forall (λ p, aligned p ∧ p < nx) cs.*1;
  ch_dom : ∀ p, is_Some (N !! p) ↔ p ∈ cs.*1;
  ch_next : aligned nx
}.

Lemma aligned_next p : aligned p → aligned (p + 4).
Proof. intros [? H]. split; [lia|]. rewrite <- Z.add_mod_idemp_l, H by done. done. Qed.

Lemma lastp_snoc prev cs c : lastp prev (cs ++ [c]) = c.1.
Proof. by rewrite lastp_app. Qed.

Lemma chain_at_snoc cs q N nx N' q' :
  chain_at cs q N nx → rb_head q' = first (cs ++ [(nx, 0)]) 0 → rb_tail q' = nx →
  seg N' (first (cs ++ [(nx, 0)]) 0) (cs ++ [(nx, 0)]) 0 →
  (∀ p, is_Some (N' !! p) ↔ p = nx ∨ is_Some (N !! p)) → chain_at (cs ++ [(nx, 0)]) q' N' (nx + 4).
Proof.
  intros [Hh Ht Hs Hz Hnd Hal Hdom Hnx] Hh' Ht' Hs' Hdom'. split; try done.
  - by rewrite lastp_snoc.
  - apply Forall_app. by repeat constructor.
  - rewrite fmap_app. apply NoDup_app. split_and!; [done| |apply NoDup_singleton].
    intros p Hp ->%list_elem_of_singleton. rewrite Forall_forall in Hal. destruct (Hal nx Hp). lia.
  - rewrite fmap_app. apply Forall_app. split; [|constructor; [split; [done|simpl; lia]|constructor]].
    eapply Forall_impl; [exact Hal|]. simpl. intros p [? ?]. split; [done|lia].
  - intros p. rewrite Hdom', Hdom, fmap_app, elem_of_app. simpl. rewrite list_elem_of_singleton. tauto.
  - by apply aligned_next.
Qed.

(** The fields that the creation of the pages does not touch. *)
Definition created (q q' : rqueue_t) : Prop := ∃ h t, q' = with_head h (with_tail t q).

Lemma create_pages_returns n cs q N nx a f s :
  chain_at cs q N nx → false ∉ a →
  returns (create_pages n (mk_rworld (RLive q) N nx a f s)) (λ '(ok, w'), ok = true ∧
    ∃ cs' q' N' nx' a', w' = mk_rworld (RLive q') N' nx' a' f s ∧ chain_at cs' q' N' nx' ∧ created q q' ∧
      length cs' = (length cs + n)%nat ∧ false ∉ a').
Proof.
  revert cs q N nx a. induction n as [|n IH]; intros cs q N nx a Hch Ha; simpl; go.
  { split; [done|]. exists cs, q, N, nx, a. split; [done|]. split; [done|]. split; [by exists (rb_head q), (rb_tail q); destruct q|]. split; [lia|done]. }
  pose proof Hch as [Hh Ht Hs Hz Hnd Hal Hdom Hnx]. pose proof Hnx as [Hnx0 _].
  apply returns_calloc_page; [done|done|]. intros a' Ha'. rewrite (proj2 (Z.eqb_neq nx 0)) by lia. go.
  apply returns_load_queue. go. set (N1 := <[nx := mk_page 0 0 0]> N).
  destruct cs as [|c0 cs].
  - simpl in Hh. rewrite Hh. cbn [Z.eqb]. go. apply returns_set_queue. go. apply returns_load_queue. go.
    eapply returns_set_page; [apply lookup_insert_eq|]. go. apply returns_set_queue. go.
    eapply returns_mono; [apply (IH [(nx, 0)]); [|done]|].
    + apply (chain_at_snoc [] q N nx); [done|done|done| |].
      * simpl. by rewrite lookup_insert_eq.
      * intros p. unfold N1. rewrite lookup_insert_dom by (rewrite lookup_insert_eq; by eexists).
        rewrite lookup_insert_is_Some'. naive_solver.
    + intros [ok w'] (->&cs'&q'&N'&nx'&a2&->&Hch'&(h&t&->)&Hlen&Ha2). split; [done|].
      eexists cs', _, N', nx', a2. split; [done|]. split; [done|]. split; [by exists h, t|]. split; [simpl in *; lia|done].
  - destruct (last (c0 :: cs)) as [c|] eqn:El; [|by apply last_None in El]. apply last_Some in El as [l El].
    assert (Hl : c.1 ∈ (c0 :: cs).*1) by (rewrite El, fmap_app; apply elem_of_app; right; left).
    assert (Hbound : ∀ p, p ∈ (c0 :: cs).*1 → aligned p ∧ p < nx) by (by apply Forall_forall).
    rewrite Ht, Hh. rewrite El in *. rewrite lastp_snoc in *.
    rewrite (proj2 (Z.eqb_neq (first (l ++ [c]) 0) 0)).
    2:{ destruct (Hbound (first (l ++ [c]) 0)) as [[? _] _]; [|lia]. destruct l; left. }
    rewrite (proj2 (Z.eqb_neq c.1 0)) by (destruct (Hbound c.1 Hl) as [[? _] _]; lia). cbn [negb]. go.
    apply cells_seg_app in Hs as Hs'. destruct Hs' as (Hsl&Hc&_). simpl in Hc, Hsl.
    assert (Hcn : c.1 ≠ nx) by (destruct (Hbound c.1 Hl); lia).
    eapply returns_set_page; [unfold N1; rewrite lookup_insert_ne; done|]. go. apply returns_load_queue. go. rewrite Ht.
    eapply returns_set_page; [unfold N1; rewrite lookup_insert_ne, lookup_insert_eq; done|]. go. apply returns_set_queue. go.
    set (N2 := <[nx := _]> _). eapply returns_mono; [apply (IH ((l ++ [c]) ++ [(nx, 0)]) _ N2); [|done]|].
    + apply (chain_at_snoc (l ++ [c]) q N nx); [done| |done| |].
      * simpl. rewrite Hh. by destruct l.
      * assert (Hf : first ((l ++ [c]) ++ [(nx, 0)]) 0 = first (l ++ [c]) 0) by (by rewrite !cells_first_app).
        rewrite Hf, <- app_assoc, cells_seg_app. cbn [app seg first fst snd].
        unfold N2. split_and!; [| |by rewrite lookup_insert_eq|done].
        -- eapply cells_seg_frame; [|exact Hsl]. intros p Hp. pose proof (Hbound p) as Hb. rewrite fmap_app in Hb, Hnd.
           assert (p < nx) by (apply Hb; apply elem_of_app; by left).
           assert (p ≠ c.1). { intros ->. apply NoDup_app in Hnd as (_&Hd&_). apply (Hd c.1 Hp). left. }
           unfold N1. by rewrite !lookup_insert_ne by lia.
        -- rewrite lookup_insert_ne, lookup_insert_eq by done. done.
      * intros p. unfold N2, N1. rewrite lookup_insert_dom, lookup_insert_dom, lookup_insert_is_Some'; [naive_solver| |].
        -- apply lookup_insert_mono. by eexists.
        -- apply lookup_insert_mono. rewrite lookup_insert_eq. by eexists.
    + intros [ok w'] (->&cs'&q'&N'&nx'&a2&->&Hch'&(h&t&->)&Hlen&Ha2). split; [done|].
      eexists cs', _, N', nx', a2. split; [done|]. split; [done|]. split; [by exists h, t|].
      split; [rewrite !length_app in *; simpl in *; lia|done].
Qed.

(** The chain is closed into a ring. *)
Lemma chain_close cs q N nx :
  chain_at cs q N nx → (3 ≤ length cs)%nat →
  ∃ p0 p1 mid pl, cs = (p0, 0) :: (p1, 0) :: mid ++ [(pl, 0)] ∧ p0 ≠ pl ∧
    N !! p0 = Some (mk_page 0 p1 p0) ∧ N !! pl = Some (mk_page 0 0 (lastp p1 mid)) ∧
    ring (<[pl := mk_page 0 (flagged p0) (lastp p1 mid)]> (<[p0 := mk_page 0 p1 pl]> N)) cs.
Proof.
  intros [_ _ Hs Hz Hnd Hal Hdom _] Hlen. destruct (ring_form cs Hlen) as (p0&v0&p1&v1&mid&pl&vl&->).
  rewrite !Forall_cons, Forall_app, Forall_cons in Hz. simpl in Hz. destruct Hz as (->&->&_&->&_).
  simpl in Hs. rewrite cells_first_app, cells_seg_app in Hs. simpl in Hs. destruct Hs as (H0&H1&Hm&Hl&_).
  rewrite !fmap_cons, fmap_app in Hnd. simpl in Hnd. apply NoDup_cons in Hnd as [Hp0 Hnd]. apply NoDup_cons in Hnd as [Hp1 Hnd].
  rewrite not_elem_of_cons, not_elem_of_app, not_elem_of_cons in Hp0. rewrite not_elem_of_app, not_elem_of_cons in Hp1.
  destruct Hp0 as (?&?&?&_), Hp1 as (?&?&_). apply NoDup_app in Hnd as (_&Hd&_).
  assert (∀ p, p ∈ mid.*1 → p ≠ pl) as Hmid by (intros p Hp ->; apply (Hd pl Hp); left).
  exists p0, p1, mid, pl. split_and!; try done. apply ring_open. split_and!.
  - by rewrite lookup_insert_ne, lookup_insert_eq.
  - by rewrite !lookup_insert_ne.
  - eapply cells_seg_frame; [|exact Hm]. intros p Hp. rewrite !lookup_insert_ne; [done| |]; [naive_solver|]. intros <-. by apply (Hmid _ Hp).
  - by rewrite lookup_insert_eq.
Qed.

Lemma close_ring_returns cs size mode h t N nx a f s :
  let q := mk_rqueue h t 0 0 false size mode 0 0 0 0 0 1 (λ _, 0) in
  chain_at cs q N nx → 2 ≤ size → Z.of_nat (length cs) = size + 1 → false ∉ a →
  returns (close_ring (mk_rworld (RLive q) N nx a f s)) (λ '(ok, w'), ok = true ∧ rw_freed w' = f ∧ false ∉ rw_alloc w' ∧
    rq_in size mode false [] 0 0 0 w').
Proof.
  intros q Hch Hsz Hlen Ha. destruct (chain_close _ _ _ _ Hch) as (p0&p1&mid&pl&Hcs&Hp0l&H0&Hl&Hring); [lia|].
  destruct Hch as [Hh Ht _ Hz Hnd Hal Hdom [Hnx0 Hnx4]].
  assert (Hin : p0 ∈ cs.*1 ∧ pl ∈ cs.*1).
  { rewrite Hcs, !fmap_cons, fmap_app. split; [left|]. do 2 right. apply elem_of_app. right. left. }
  assert (Hlt : ∀ p, p ∈ cs.*1 → 0 < p ∧ p ≠ nx).
  { intros p Hp. rewrite Forall_forall in Hal. destruct (Hal p Hp) as [[? _] ?]. lia. }
  destruct Hin as [Hin0 Hinl]. pose proof (Hlt p0 Hin0) as [? Hp0n]. pose proof (Hlt pl Hinl) as [? Hpln].
  assert (h = p0) as -> by (simpl in Hh; by rewrite Hh, Hcs).
  assert (t = pl) as -> by (simpl in Ht; rewrite Ht, Hcs; simpl; by rewrite lastp_app).
  unfold close_ring, q. go. apply returns_load_queue. go. cbn [rb_head rb_tail].
  rewrite (proj2 (Z.eqb_neq p0 0)), (proj2 (Z.eqb_neq pl 0)) by lia. go.
  eapply returns_set_page; [exact H0|]. go. eapply returns_set_page; [by rewrite lookup_insert_ne|]. go.
  eapply returns_set_page; [apply lookup_insert_eq|]. go. rewrite insert_insert_eq. do 2 (apply returns_set_queue; go).
  apply returns_calloc_page; [done|done|]. intros a2 Ha2. go. apply returns_set_queue. go.
  rewrite (proj2 (Z.eqb_neq nx 0)) by lia. go.
  eapply returns_load_page; [rewrite lookup_insert_ne, lookup_insert_ne, lookup_insert_eq; done|]. go.
  eapply returns_set_page; [apply lookup_insert_eq|]. go. eapply returns_set_page; [apply lookup_insert_eq|]. go.
  split; [done|]. split; [done|]. split; [done|]. rewrite !insert_insert_eq.
  exists [], p0, ((p1, 0) :: mid ++ [(pl, 0)]), p0, nx, (λ _, 0). simpl app. rewrite <- Hcs.
  split; [done|]. split; [|done]. simpl rw_pages. split; simpl app; rewrite <- ?Hcs.
  - eapply cells_seg_frame; [|exact Hring]. intros p Hp. rewrite lookup_insert_ne; [done|]. intros <-. by destruct (Hlt _ Hp).
  - apply NoDup_cons. split; [|done]. intros Hn. by destruct (Hlt _ Hn).
  - constructor; [done|]. eapply Forall_impl; [exact Hal|]. by intros p [? _].
  - intros p. rewrite lookup_insert_is_Some'. rewrite !lookup_insert_dom, Hdom; [|by eexists|apply lookup_insert_mono; by eexists].
    rewrite elem_of_cons. naive_solver.
  - by rewrite lookup_insert_eq.
  - constructor.
  - rewrite Hcs in Hz. by apply Forall_cons in Hz as [_ Hz].
  - by right.
Qed.

Lemma rqueue_create_ok size mode w :
  rw_pages w = ∅ → aligned (rw_new w) → false ∉ rw_alloc w →
  returns (rqueue_create size mode w) (λ '(ok, w'), ok = true ∧ rw_freed w' = rw_freed w ∧ false ∉ rw_alloc w' ∧
    rq_in (Z.max 2 size) mode false [] 0 0 0 w').
Proof.
  intros HN Hnx Ha. destruct w as [wq N nx a f s]. simpl in HN, Hnx, Ha |- *. subst N. unfold rqueue_create. go.
  match goal with |- returns ?m _ => apply (returns_mono m (λ '(ok, w'), ok = true ∧ ∃ a', false ∉ a' ∧ w' = mk_rworld wq ∅ nx a' f s)) end.
  { unfold ralloc. simpl. destruct a as [|b a]; simpl; [by eauto|].
    apply not_elem_of_cons in Ha as [Hb Ha]. destruct b; [by eauto|done]. }
  intros [ok w0] (->&a1&Ha1&->). go.
  replace (if RQUEUE_MIN_SIZE <? size then size else RQUEUE_MIN_SIZE) with (Z.max 2 size)
    by (unfold RQUEUE_MIN_SIZE; destruct (Z.ltb_spec 2 size); lia).
  eapply returns_mono; [apply (create_pages_returns (S (Z.to_nat (Z.max 2 size))) []); [|done]|].
  { split; [done|done|done|constructor|apply NoDup_nil_2|constructor| |exact Hnx].
    intros p. simpl. rewrite lookup_empty. split; [by intros []|by intros ?%not_elem_of_nil]. }
  intros [ok w1] (->&cs&q&N&nx1&a2&->&Hch&(h&t&->)&Hlen&Ha2). go.
  apply (close_ring_returns cs (Z.max 2 size) mode h t N nx1 a2); [done|lia| |done]. simpl in Hlen. lia.
Qed.

(** ** Destruction *)

(** What the destruction of pages gives to the free callback. *)
Definition cells_freed (cb : bool) (cs : cells) : list Z := concat (old_freed cb ∘ snd <$> cs).

Lemma cells_freed_cons cb c cs : cells_freed cb (c :: cs) = old_freed cb c.2 ++ cells_freed cb cs.
Proof. done. Qed.
Lemma cells_freed_app cb a b : cells_freed cb (a ++ b) = cells_freed cb a ++ cells_freed cb b.
Proof. unfold cells_freed. by rewrite fmap_app, concat_app. Qed.
Lemma cells_freed_zero cb cs : Forall (λ c, c.2 = 0) cs → cells_freed cb cs = [].
Proof.
  induction 1 as [|c cs Hc _ IH]; [done|]. rewrite cells_freed_cons, IH, Hc. unfold old_freed. by rewrite andb_false_r.
Qed.
Lemma cells_freed_items cb cs : Forall (λ c, c.2 ≠ 0) cs → cells_freed cb cs = if cb then cs.*2 else [].
Proof.
  induction 1 as [|c cs Hc _ IH]; [by destruct cb|]. rewrite cells_freed_cons, IH. unfold old_freed.
  rewrite (proj2 (Z.eqb_neq c.2 0)) by done. by destruct cb.
Qed.

Lemma rqueue_destroy_page_returns p x q N nx a f s :
  N !! p = Some x →
  returns (rqueue_destroy_page p (mk_rworld (RLive q) N nx a f s)) (λ '(_, w'),
    w' = mk_rworld (RLive q) (delete p N) nx a (f ++ old_freed (rb_free_value_cb q) (pg_value x)) s).
Proof.
  intros Hx. unfold rqueue_destroy_page. go. apply returns_load_queue. go. eapply returns_load_page; [exact Hx|]. go.
  unfold old_freed. rewrite andb_comm. destruct (rb_free_value_cb q && _); go.
  - unfold give_rvalue, free_page. go. by eapply returns_load_page.
  - unfold free_page. go. eapply returns_load_page; [exact Hx|]. go. by rewrite app_nil_r.
Qed.

Lemma free_ring_body_at p x h q N nx a f s :
  N !! p = Some x →
  loop_body (free_ring_body rqueue_destroy_page h) (p, mk_rworld (RLive q) N nx a f s) =
    (let next := RQUEUE_FLAG_OFF (pg_next x) RQUEUE_FLAG_ALL in
     let w' := mk_rworld (RLive q) (delete p N) nx a (f ++ old_freed (rb_free_value_cb q) (pg_value x)) s in
     Ret (if next =? h then inr (tt, w') else inl (next, w'))).
Proof.
  intros Hx. apply returns_exact. unfold loop_body, free_ring_body. simpl fst. simpl snd. go.
  eapply returns_load_page; [exact Hx|]. go. eapply returns_mono; [by apply rqueue_destroy_page_returns|].
  intros [[] w'] ->. go. by destruct (_ =? h).
Qed.

(** The pages from one on are freed, up to the head. *)
Lemma free_ring_runs c cs h q N prev nx a f s :
  seg N prev (c :: cs) (flagged h) → h ∉ cs.*1 → aligned h → Forall aligned (c :: cs).*1 → NoDup (c :: cs).*1 →
  ∃ N', runs (loop_body (free_ring_body rqueue_destroy_page h)) (c.1, mk_rworld (RLive q) N nx a f s)
      (Z.of_nat (length cs)) (tt, mk_rworld (RLive q) N' nx a (f ++ cells_freed (rb_free_value_cb q) (c :: cs)) s) ∧
    ∀ p, N' !! p = if decide (p ∈ (c :: cs).*1) then None else N !! p.
Proof.
  revert c N prev f. induction cs as [|c' cs IH]; intros c N prev f Hs Hh Hah Hal Hnd; simpl in Hs; destruct Hs as [Hc Hs].
  - exists (delete c.1 N). split.
    + apply runs_exit. rewrite (free_ring_body_at _ _ _ _ _ _ _ _ _ Hc). cbn [pg_next pg_value].
      rewrite flag_off_flagged, Z.eqb_refl by done. unfold cells_freed. simpl. by rewrite app_nil_r.
    + intros p. simpl. case_decide as E.
      * apply list_elem_of_singleton in E as ->. apply lookup_delete_eq.
      * rewrite lookup_delete_ne; [done|]. intros <-. apply E. left.
  - rewrite !fmap_cons in *. apply NoDup_cons in Hnd as [Hn Hnd]. apply Forall_cons in Hal as [Hac Hal].
    pose proof Hal as Hal'. apply Forall_cons in Hal' as [Hac' _]. apply not_elem_of_cons in Hh as [Hhc Hh].
    destruct (IH c' (delete c.1 N) c.1 (f ++ old_freed (rb_free_value_cb q) c.2)) as (N'&Hr&HN'); try done.
    { eapply (cells_seg_frame N); [|exact Hs]. intros p Hp. rewrite lookup_delete_ne; [done|]. by intros <-. }
    exists N'. split.
    + rewrite (Nat2Z.inj_succ (length cs) : Z.of_nat (length (c' :: cs)) = _). change (Z.succ ?z) with (z + 1).
      eapply runs_step.
      * rewrite (free_ring_body_at _ _ _ _ _ _ _ _ _ Hc). cbn [pg_next pg_value].
        rewrite flag_off_plain, (proj2 (Z.eqb_neq c'.1 h)) by (done || by apply not_eq_sym). done.
      * rewrite <- app_assoc in Hr. exact Hr.
    + intros p. rewrite HN'. destruct (decide (p = c.1)) as [->|Hp].
      * rewrite lookup_delete_eq, (decide_True (P := c.1 ∈ c.1 :: _)) by left. by case_decide.
      * rewrite lookup_delete_ne by done. apply decide_ext. rewrite (elem_of_cons _ p c.1). naive_solver.
Qed.

Lemma rqueue_destroy_ok size mode cb vs st nw nr w :
  rq_in size mode cb vs st nw nr w → size < 2 ^ 64 →
  returns (rqueue_destroy w) (λ '(_, w'), rw_queue w' = RDangling ∧ rw_pages w' = ∅ ∧
    rw_freed w' = rw_freed w ++ (if cb then vs else []) ++ old_freed cb st).
Proof.
  intros (items&pt&free&commit&r&stats&Hq&Hsh&<-&Hs&Hlen) Hsz. unfold rqueue_destroy.
  destruct w as [wq N nx a f s]. simpl in Hq, Hsh. subst wq. erewrite unless_null_live by done. go. apply returns_load_queue. go.
  destruct Hsh as [Hring Hnd Hal Hdom Hr Hit Hfree _]. apply NoDup_cons in Hnd as [Hnr Hnd].
  destruct (items ++ (pt, st) :: free) as [|c cs] eqn:Hcs; [simpl in Hlen; lia|].
  assert (Hhd : first (items ++ [(pt, st)]) 0 = c.1) by (by rewrite <- (first_head items free), Hcs).
  cbn [rb_head]. rewrite Hhd. pose proof Hal as Hal'. apply Forall_cons in Hal' as [_ Hal'].
  set (q := mk_rqueue _ _ _ _ _ _ _ _ _ _ _ _ _ _).
  destruct (free_ring_runs c cs c.1 q N (lastp 0 (c :: cs)) nx a f s) as (N'&Hruns&HN'); try done.
  { by apply NoDup_cons in Hnd as [? _]. }
  { by apply Forall_cons in Hal' as [? _]. }
  unfold loopS. rewrite (runs_loop _ _ _ _ Hruns) by (simpl in Hlen; lia). go.
  apply fmap_Some in Hr as (x&Hx&Hx0). eapply returns_mono; [apply (rqueue_destroy_page_returns r x)|].
  { rewrite HN'. by rewrite decide_False. }
  intros [[] w'] ->. go. simpl. split; [done|]. split.
  - apply map_eq. intros p. rewrite lookup_empty. destruct (decide (p = r)) as [->|Hp]; [apply lookup_delete_eq|].
    rewrite lookup_delete_ne, HN' by done. case_decide as E; [done|]. destruct (N !! p) eqn:Ep; [|done].
    destruct E. assert (is_Some (N !! p)) as Hin by (by eexists). apply Hdom in Hin. by apply elem_of_cons in Hin as [?|?].
  - assert (old_freed cb (pg_value x) = []) as -> by (rewrite <- Hx0; unfold old_freed; by rewrite andb_false_r).
    rewrite app_nil_r, <- Hcs, cells_freed_app, cells_freed_cons, (cells_freed_zero _ free), app_nil_r by done.
    by rewrite cells_freed_items.
Qed.

(** ** The specification *)

(** A bounded queue: its values, and the value that was dropped last and is
    still in the page to write (0 for none). *)
Record squeue := mk_squeue {
  sq_size : Z; sq_mode : Z; sq_cb : bool; sq_values : list Z; sq_old : Z; sq_writes : Z; sq_reads : Z
}.
Inductive rqop := RQWrite (v : Z) | RQRead | RQSetMode (mode : Z) | RQSetCallback (cb : bool)
  | RQMode | RQSize | RQIsEmpty | RQWriteCount | RQReadCount.

(** The result, and the values freed. *)
Definition rq_spec (s : squeue) (o : rqop) : squeue * Z * list Z :=
  let '(mk_squeue size mode cb vs st nw nr) := s in
  match o with
  | RQWrite v =>
      let '(rc, vs, st, freed) := write_spec size mode cb vs st v in
      (mk_squeue size mode cb vs st (if rc =? 0 then u64 (nw + 1) else nw) nr, rc, freed)
  | RQRead =>
      match vs with
      | [] => (s, 0, [])
      | v :: vs => (mk_squeue size mode cb vs st nw (u64 (nr + 1)), v, [])
      end
  | RQSetMode mode => (mk_squeue size mode cb vs st nw nr, 0, [])
  | RQSetCallback cb => (mk_squeue size mode cb vs st nw nr, 0, [])
  | RQMode => (s, mode, [])
  | RQSize => (s, size, [])
  | RQIsEmpty => (s, if decide (vs = []) then 1 else 0, [])
  | RQWriteCount => (s, nw, [])
  | RQReadCount => (s, nr, [])
  end.
Fixpoint rq_spec_run (s : squeue) (os : list rqop) : list Z * squeue * list Z :=
  match os with
  | [] => ([], s, [])
  | o :: os =>
      let '(s1, r, f1) := rq_spec s o in
      let '(rs, s2, f2) := rq_spec_run s1 os in (r :: rs, s2, f1 ++ f2)
  end.

(** Null pointers are not written. *)
Definition rqop_ok (o : rqop) : Prop := match o with RQWrite v => v ≠ 0 | _ => True end.
Definition rq_holds (s : squeue) (w : rworld) : Prop :=
  rq_in (sq_size s) (sq_mode s) (sq_cb s) (sq_values s) (sq_old s) (sq_writes s) (sq_reads s) w.

Section claims.
Context (elapsed : nat → Z → Z) (rand : nat → Z).

Definition run_rqop (o : rqop) : R Z :=
  match o with
  | RQWrite v => rqueue_write elapsed rand v
  | RQRead => rqueue_read elapsed rand
  | RQSetMode mode => _ ← rqueue_set_mode mode; mret 0
  | RQSetCallback cb => _ ← rqueue_set_free_value_callback cb; mret 0
  | RQMode => rqueue_mode
  | RQSize => rqueue_size
  | RQIsEmpty => rqueue_isempty
  | RQWriteCount => rqueue_write_count
  | RQReadCount => rqueue_read_count
  end.
Fixpoint run_rqops (os : list rqop) : R (list Z) :=
  match os with
  | [] => mret []
  | o :: os => r ← run_rqop o; rs ← run_rqops os; mret (r :: rs)
  end.

(** A query of a live queue. *)
Lemma returns_query {A} (null : A) (get : rqueue_t → A) w q (Q : A * rworld → Prop) :
  rw_queue w = RLive q → Q (get q, w) → returns (unless_null null (q ← load_queue; mret (get q)) w) Q.
Proof. intros Hq HQ. erewrite unless_null_live by done. go. unfold load_queue. rewrite Hq. by go. Qed.

Lemma run_rqop_ok s w o :
  rq_holds s w → rqop_ok o →
  returns (run_rqop o w) (λ '(r, w'), let '(s', r', freed) := rq_spec s o in
    r = r' ∧ rq_holds s' w' ∧ rw_freed w' = rw_freed w ++ freed).
Proof.
  intros Hin Ho. destruct s as [size mode cb vs st nw nr]. unfold rq_holds in *. simpl in *.
  pose proof Hin as (items&pt&free&commit&r&stats&Hq&Hsh&Hvs&Hs&Hlen).
  destruct o as [v| |mode'|cb'| | | | |]; simpl.
  - eapply returns_mono; [by apply rqueue_write_ok|]. intros [rc w']. unfold write_ok.
    destruct (write_spec size mode cb vs st v) as [[[rc' vs'] st'] freed]. by intros (->&?&_&?).
  - eapply returns_mono; [by apply rqueue_read_ok|]. intros [v w'] [[Hf _] Hw].
    destruct vs as [|v0 vs]; destruct Hw as [-> Hw]; rewrite app_nil_r; done.
  - go. unfold rqueue_set_mode. erewrite unless_null_live by done. unfold set_queue. go. unfold load_queue. rewrite Hq. go.
    split; [done|]. split; [|by rewrite app_nil_r]. by exists items, pt, free, commit, r, stats.
  - go. unfold rqueue_set_free_value_callback. erewrite unless_null_live by done. unfold set_queue. go. unfold load_queue. rewrite Hq. go.
    split; [done|]. split; [|by rewrite app_nil_r]. by exists items, pt, free, commit, r, stats.
  - eapply returns_query; [done|]. by rewrite app_nil_r.
  - eapply returns_query; [done|]. by rewrite app_nil_r.
  - eapply returns_query; [done|]. by rewrite app_nil_r.
  - eapply returns_query; [done|]. by rewrite app_nil_r.
  - eapply returns_query; [done|]. by rewrite app_nil_r.
Qed.

Lemma run_rqops_ok os s w :
  rq_holds s w → Forall rqop_ok os →
  returns (run_rqops os w) (λ '(rs, w'), ∃ s' freed,
    rq_spec_run s os = (rs, s', freed) ∧ rq_holds s' w' ∧ rw_freed w' = rw_freed w ++ freed).
Proof.
  revert s w. induction os as [|o os IH]; intros s w Hin Hos; simpl; go.
  { exists s, []. by rewrite app_nil_r. }
  apply Forall_cons in Hos as [Ho Hos]. eapply returns_mono; [by apply (run_rqop_ok s)|]. intros [r w1].
  destruct (rq_spec s o) as [[s1 r1] f1]. intros (->&Hin1&Hf1). go.
  eapply returns_mono; [by apply (IH s1)|]. intros [rs w2] (s2&f2&Hrun&Hin2&Hf2). go. exists s2, (f1 ++ f2).
  by rewrite Hrun, Hf2, Hf1, app_assoc.
Qed.

(** C12 — a new ring queue, used by one thread through any sequence of writes
    of pointers that are not null, reads, changes of its mode or callback and
    queries, is a bounded queue: values come out in the order they went in; a
    full one refuses a value with -2, or in overwrite mode drops its oldest
    value, which is freed by the next write; its counters are those of the
    successful operations. *)
Theorem rqueue_refines_bounded_queue size mode os w :
  rw_pages w = ∅ → aligned (rw_new w) → false ∉ rw_alloc w → Forall rqop_ok os →
  returns ((_ ← rqueue_create size mode; run_rqops os) w) (λ '(rs, w'), ∃ s freed,
    rq_spec_run (mk_squeue (Z.max 2 size) mode false [] 0 0 0) os = (rs, s, freed) ∧ rq_holds s w' ∧
    rw_freed w' = rw_freed w ++ freed).
Proof.
  intros HN Hnx Ha Hos. go. eapply returns_mono; [by apply rqueue_create_ok|]. intros [ok w1] (_&Hf&_&Hin). go.
  eapply returns_mono; [by apply (run_rqops_ok os (mk_squeue (Z.max 2 size) mode false [] 0 0 0))|].
  intros [rs w2] (s&freed&Hrun&Hin2&Hf2). exists s, freed. by rewrite Hf2, Hf.
Qed.

(** C27 — [rqueue_destroy] frees every page and the queue, and gives the values
    that are left, in their order, and one that was dropped but not yet freed
    once to the free callback. *)
Theorem rqueue_destroy_frees s w :
  rq_holds s w → sq_size s < 2 ^ 64 →
  returns (rqueue_destroy w) (λ '(_, w'), rw_queue w' = RDangling ∧ rw_pages w' = ∅ ∧
    rw_freed w' = rw_freed w ++ (if sq_cb s then sq_values s else []) ++ old_freed (sq_cb s) (sq_old s)).
Proof. apply rqueue_destroy_ok. Qed.
End claims.

(** ** Witnesses *)

Definition no_rqueue : rworld := mk_rworld RNull ∅ 4 [] [] 0.
Definition on_time : nat → Z → Z := λ _ d, d.
Definition no_rand : nat → Z := λ _, 0.
Definition rq_sample : list rqop :=
  [RQWrite 11; RQWrite 12; RQRead; RQWrite 13; RQWrite 14; RQSetCallback true; RQSetMode 1; RQWrite 15; RQRead; RQIsEmpty].

Lemma rq_sample_ok : Forall rqop_ok rq_sample.
Proof. repeat constructor; done. Qed.

Lemma rqueue_refines_bounded_queue_witness :
  (rq_spec_run (mk_squeue 2 0 false [] 0 0 0) rq_sample).1.1 = [0; 0; 11; 0; -2; 0; 0; 0; 13; 0] ∧
  returns ((_ ← rqueue_create 1 0; run_rqops on_time no_rand rq_sample) no_rqueue) (λ '(rs, w'), ∃ s freed,
    rq_spec_run (mk_squeue (Z.max 2 1) 0 false [] 0 0 0) rq_sample = (rs, s, freed) ∧ rq_holds s w' ∧
    rw_freed w' = [] ++ freed).
Proof.
  split; [by vm_compute|]. apply (rqueue_refines_bounded_queue on_time no_rand 1 0 rq_sample no_rqueue).
  - done.
  - done.
  - apply not_elem_of_nil.
  - apply rq_sample_ok.
Defined.

(** A queue of size 2 in overwrite mode that has dropped 12. *)
Definition rq_sample_world : rworld :=
  match (_ ← rqueue_create 1 0; run_rqops on_time no_rand rq_sample) no_rqueue with Ret (_, w) => w | _ => no_rqueue end.
Lemma rq_sample_holds : rq_holds (mk_squeue 2 1 true [15] 12 4 2) rq_sample_world.
Proof.
  destruct (returns_inv _ _ (rqueue_create_ok 1 0 no_rqueue eq_refl ltac:(done) ltac:(apply not_elem_of_nil)))
    as ([ok w1]&H1&_&_&_&Hin).
  destruct (returns_inv _ _ (run_rqops_ok on_time no_rand rq_sample (mk_squeue 2 0 false [] 0 0 0) w1 Hin rq_sample_ok))
    as ([rs w2]&H2&s&freed&Hrun&Hin2&_).
  assert (rq_sample_world = w2) as ->.
  { unfold rq_sample_world. erewrite st_bind_Ret by exact H1. by rewrite H2. }
  vm_compute in Hrun. injection Hrun as _ <- _. done.
Qed.

Lemma rqueue_destroy_frees_witness :
  returns (rqueue_destroy rq_sample_world) (λ '(_, w'), rw_queue w' = RDangling ∧ rw_pages w' = ∅ ∧
    rw_freed w' = rw_freed rq_sample_world ++ [15] ++ [12]).
Proof.
  apply (rqueue_destroy_frees (mk_squeue 2 1 true [15] 12 4 2) rq_sample_world).
  - apply rq_sample_holds.
  - simpl. lia.
Defined.

(** ** Where the code does something else *)

(** The delays between attempts are computed by shifts that overflow an [int]
    long before the last attempt: from the 243rd of a reader's 1500, and from
    the 315th of a blocked writer's 2000. *)
Theorem rqueue_backoff_overflows retry :
  (243 ≤ retry < RQUEUE_READER_MAX_RETRIES → backoff_delay RQUEUE_RETRY_COMPLEX retry = Undef) ∧
  (315 ≤ retry < RQUEUE_BLOCKING_MAX_RETRIES → backoff_delay RQUEUE_RETRY_PATIENT retry = Undef).
Proof.
  split; intros [Hr _]; unfold backoff_delay.
  - rewrite (proj2 (Z.ltb_ge retry 3)) by lia. unfold int_shift.
    pose proof (Z.quot_le_mono 240 (retry - 3) 8) as Hq. change (240 ÷ 8) with 30 in Hq.
    destruct (decide (Z.quot (retry - 3) 8 = 30)) as [->|Hne]; [done|].
    by rewrite (proj2 (Z.leb_gt _ 30)), andb_false_r by lia.
  - rewrite (proj2 (Z.ltb_ge retry 5)) by lia. unfold int_shift.
    pose proof (Z.quot_le_mono 310 (retry - 5) 10) as Hq. change (310 ÷ 10) with 31 in Hq.
    by rewrite (proj2 (Z.leb_gt _ 30)), andb_false_r by lia.
Qed.
Lemma rqueue_backoff_overflows_witness :
  backoff_delay RQUEUE_RETRY_COMPLEX 300 = Undef ∧ backoff_delay RQUEUE_RETRY_PATIENT 400 = Undef.
Proof. split; [apply (rqueue_backoff_overflows 300)|apply (rqueue_backoff_overflows 400)]; done. Defined.

(** A null pointer can be written; the reader skips it, and the queue is never
    empty again until another value is read. *)
Theorem rqueue_write_null :
  fst <$> (_ ← rqueue_create 2 0; run_rqops on_time no_rand
    [RQWrite 0; RQRead; RQIsEmpty; RQWriteCount; RQReadCount]) no_rqueue = Ret [0; 0; 0; 1; 0].
Proof. vm_compute. reflexivity. Qed.
