(* ===== verification/PtrQueue.v ===== *)
(** * The interface of the ring queues

    What the reference counters and the linked queues use of a queue of
    pointers, as a class; the ring queues of src/src/rqueue.c are an
    instance. *)

From S2P Require Import Prelude Rqueue RqueueRing RqueueOps RqueueWrite RqueueSpec.

(** The functions of rqueue.h; [pq_given] lists the values that the queue has
    given to its free callback. *)
Class PtrQueue (Q : Type) := {
  pq_create : Z → Z → ST Q bool;
  pq_set_free_value_callback : bool → ST Q unit;
  pq_read : ST Q Z;
  pq_write : Z → ST Q Z;
  pq_write_count : ST Q Z;
  pq_read_count : ST Q Z;
  pq_destroy : ST Q unit;
  pq_given : Q → list Z
}.

(** What they promise of a queue in blocking mode: [pq_fresh q] is a queue
    that can be created, and [pq_holds size cb vs nw nr q] one that holds [vs]
    after [nw] writes and [nr] reads. *)
Class PtrQueueLaws (Q : Type) `{PtrQueue Q} := {
  pq_fresh : Q → Prop;
  pq_holds : Z → bool → list Z → Z → Z → Q → Prop;
  pq_create_ok size q : pq_fresh q → 2 ≤ size →
    returns (pq_create size RQUEUE_MODE_BLOCKING q) (λ '(ok, q'),
      ok = true ∧ pq_holds size false [] 0 0 q' ∧ pq_given q' = pq_given q);
  pq_set_free_value_callback_ok cb' size cb vs nw nr q : pq_holds size cb vs nw nr q →
    returns (pq_set_free_value_callback cb' q) (λ '(_, q'), pq_holds size cb' vs nw nr q' ∧ pq_given q' = pq_given q);
  pq_read_ok size cb vs nw nr q : pq_holds size cb vs nw nr q →
    returns (pq_read q) (λ '(v, q'), pq_given q' = pq_given q ∧
      match vs with
      | [] => v = 0 ∧ pq_holds size cb [] nw nr q'
      | v0 :: vs => v = v0 ∧ pq_holds size cb vs nw (u64 (nr + 1)) q'
      end);
  pq_write_ok v size cb vs nw nr q : pq_holds size cb vs nw nr q → v ≠ 0 →
    returns (pq_write v q) (λ '(rc, q'), pq_given q' = pq_given q ∧
      if Z.of_nat (length vs) <? size
      then rc = 0 ∧ pq_holds size cb (vs ++ [v]) (u64 (nw + 1)) nr q'
      else rc = -2 ∧ pq_holds size cb vs nw nr q');
  pq_write_count_ok size cb vs nw nr q : pq_holds size cb vs nw nr q → pq_write_count q = Ret (nw, q);
  pq_read_count_ok size cb vs nw nr q : pq_holds size cb vs nw nr q → pq_read_count q = Ret (nr, q);
  pq_destroy_ok size cb vs nw nr q : pq_holds size cb vs nw nr q → size < 2 ^ 64 →
    returns (pq_destroy q) (λ '(_, q'), pq_given q' = pq_given q ++ (if cb then vs else []))
}.

(** ** The ring queues *)

Section rqueue.
Context (elapsed : nat → Z → Z) (rand : nat → Z).

#[export] Instance rqueue_ptr_queue : PtrQueue rworld := {|
  pq_create := rqueue_create;
  pq_set_free_value_callback := rqueue_set_free_value_callback;
  pq_read := rqueue_read elapsed rand;
  pq_write := rqueue_write elapsed rand;
  pq_write_count := rqueue_write_count;
  pq_read_count := rqueue_read_count;
  pq_destroy := rqueue_destroy;
  pq_given := rw_freed
|}.

(** No pages, and memory for some. *)
Definition rq_fresh (w : rworld) : Prop := rw_pages w = ∅ ∧ aligned (rw_new w) ∧ false ∉ rw_alloc w.
Definition rq_ptr_holds (size : Z) (cb : bool) (vs : list Z) (nw nr : Z) (w : rworld) : Prop :=
  rq_in size RQUEUE_MODE_BLOCKING cb vs 0 nw nr w.

Lemma rq_read_law size cb vs nw nr w :
  rq_ptr_holds size cb vs nw nr w →
  returns (rqueue_read elapsed rand w) (λ '(v, w'), rw_freed w' = rw_freed w ∧
    match vs with
    | [] => v = 0 ∧ rq_ptr_holds size cb [] nw nr w'
    | v0 :: vs => v = v0 ∧ rq_ptr_holds size cb vs nw (u64 (nr + 1)) w'
    end).
Proof. intros H. eapply returns_mono; [by apply rqueue_read_ok|]. intros [v w'] [[Hf _] Hw]. by destruct vs. Qed.

Lemma rq_write_law v size cb vs nw nr w :
  rq_ptr_holds size cb vs nw nr w → v ≠ 0 →
  returns (rqueue_write elapsed rand v w) (λ '(rc, w'), rw_freed w' = rw_freed w ∧
    if Z.of_nat (length vs) <? size
    then rc = 0 ∧ rq_ptr_holds size cb (vs ++ [v]) (u64 (nw + 1)) nr w'
    else rc = -2 ∧ rq_ptr_holds size cb vs nw nr w').
Proof.
  intros H Hv. eapply returns_mono; [by apply rqueue_write_ok|]. intros [rc w']. unfold write_ok, write_spec.
  destruct (_ <? _); simpl.
  - intros (->&Hf&_&Hin). unfold old_freed in Hf. by rewrite andb_false_r, app_nil_r in Hf.
  - intros (->&Hf&_&Hin). by rewrite app_nil_r in Hf.
Qed.

#[export, refine] Instance rqueue_ptr_queue_laws : PtrQueueLaws rworld := { pq_fresh := rq_fresh; pq_holds := rq_ptr_holds }.
Proof.
  - intros size w (HN&Hnx&Ha) Hs. eapply returns_mono; [by apply rqueue_create_ok|]. intros [ok w'] (->&Hf&_&Hin).
    by rewrite Z.max_r in Hin.
  - intros cb' size cb vs nw nr w (items&pt&free&commit&r&stats&Hq&Hin). simpl. unfold rqueue_set_free_value_callback.
    erewrite unless_null_live by done. unfold set_queue. go. unfold load_queue. rewrite Hq. go.
    split; [|done]. by exists items, pt, free, commit, r, stats.
  - intros. by apply rq_read_law.
  - intros. by apply rq_write_law.
  - intros size cb vs nw nr w (items&pt&free&commit&r&stats&Hq&_). simpl. unfold rqueue_write_count.
    erewrite unless_null_live by done. apply returns_exact. go. unfold load_queue. rewrite Hq. by go.
  - intros size cb vs nw nr w (items&pt&free&commit&r&stats&Hq&_). simpl. unfold rqueue_read_count.
    erewrite unless_null_live by done. apply returns_exact. go. unfold load_queue. rewrite Hq. by go.
  - intros size cb vs nw nr w H Hs. eapply returns_mono; [by apply (rqueue_destroy_ok _ _ _ _ _ _ _ _ H)|].
    intros [[] w'] (_&_&Hf). simpl. rewrite Hf. unfold old_freed. by rewrite andb_false_r, app_nil_r.
Defined.
End rqueue.
