(* ===== verification/Refcnt.v ===== *)
(** * Reference counters (src/src/refcnt.c)

    Counted nodes, with a queue of the nodes that nobody references any more
    and a pool of nodes to use again.  The two queues are used through the
    interface [PtrQueue], which the ring queues implement.  The links of the
    client, which hold references, are cells of a store; its callbacks are
    recorded with their arguments.  The operations are those of one thread: an
    atomic operation is its effect. *)

From S2P Require Import Prelude Rqueue PtrQueue.

(** ** Data *)

Definition REFCNT_MARK_ON (p : Z) : Z := Z.lor p 1.
Definition REFCNT_MARK_OFF (p : Z) : Z := Z.land p (-2).

(** [RQUEUE_MIN_SIZE] of refcnt.c, and the size of the pool. *)
Definition FREE_LIST_MIN_SIZE : Z := Z.shiftl 1 8.
Definition NODE_POOL_SIZE : Z := Z.shiftl 1 16.

Record refcnt_node_t := mk_cnode { cn_ptr : Z; cn_priv : Z; cn_count : Z; cn_updating : Z }.
Record refcnt_t := mk_refcnt { terminate_node_cb : bool; free_node_ptr_cb : bool; gc_threshold : Z }.
Inductive refcnt_ptr := CNull | CLive (c : refcnt_t) | CDangling.

Section refcnt.
Context {Q : Type} `{!PtrQueue Q}.

(** [cw_links] holds the links, [cw_terminated] the nodes that were given to
    [terminate_node_cb] with their [priv], and [cw_given] the pointers given to
    [free_node_ptr_cb]. *)
Record cworld := mk_cworld {
  cw_refcnt : refcnt_ptr; cw_free_list : Q; cw_node_pool : Q; cw_nodes : gmap Z refcnt_node_t;
  cw_links : gmap Z Z; cw_new : Z; cw_alloc : list bool;
  cw_terminated : list (Z * Z); cw_given : list Z
}.
Abbreviation C := (ST cworld).

(** ** The state *)

Definition put_refcnt (c : refcnt_ptr) (w : cworld) : cworld :=
  mk_cworld c (cw_free_list w) (cw_node_pool w) (cw_nodes w) (cw_links w) (cw_new w) (cw_alloc w) (cw_terminated w) (cw_given w).
Definition put_free_list (q : Q) (w : cworld) : cworld :=
  mk_cworld (cw_refcnt w) q (cw_node_pool w) (cw_nodes w) (cw_links w) (cw_new w) (cw_alloc w) (cw_terminated w) (cw_given w).
Definition put_node_pool (q : Q) (w : cworld) : cworld :=
  mk_cworld (cw_refcnt w) (cw_free_list w) q (cw_nodes w) (cw_links w) (cw_new w) (cw_alloc w) (cw_terminated w) (cw_given w).
Definition put_cnodes (N : gmap Z refcnt_node_t) (w : cworld) : cworld :=
  mk_cworld (cw_refcnt w) (cw_free_list w) (cw_node_pool w) N (cw_links w) (cw_new w) (cw_alloc w) (cw_terminated w) (cw_given w).
Definition put_links (L : gmap Z Z) (w : cworld) : cworld :=
  mk_cworld (cw_refcnt w) (cw_free_list w) (cw_node_pool w) (cw_nodes w) L (cw_new w) (cw_alloc w) (cw_terminated w) (cw_given w).

Definition load_refcnt : C refcnt_t := λ w, match cw_refcnt w with CLive c => Ret (c, w) | _ => Undef end.
Definition load_cnode (p : Z) : C refcnt_node_t := λ w,
  match cw_nodes w !! p with Some n => Ret (n, w) | None => Undef end.
Definition set_cnode (p : Z) (f : refcnt_node_t → refcnt_node_t) : C unit :=
  n ← load_cnode p; modify (λ w, put_cnodes (<[p := f n]> (cw_nodes w)) w).
Definition with_count (c : Z) (n : refcnt_node_t) : refcnt_node_t := mk_cnode (cn_ptr n) (cn_priv n) c (cn_updating n).
Definition with_updating (u : Z) (n : refcnt_node_t) : refcnt_node_t := mk_cnode (cn_ptr n) (cn_priv n) (cn_count n) u.
Definition load_link (l : Z) : C Z := λ w, match cw_links w !! l with Some p => Ret (p, w) | None => Undef end.
Definition store_link (l p : Z) : C unit := _ ← load_link l; modify (λ w, put_links (<[l := p]> (cw_links w)) w).

(** Calls of the two queues. *)
Definition on_free_list {A} (m : ST Q A) : C A := λ w,
  '(a, q) ← m (cw_free_list w); Ret (a, put_free_list q w).
Definition free_cnode (p : Z) : C unit := _ ← load_cnode p; modify (λ w, put_cnodes (delete p (cw_nodes w)) w).
Fixpoint free_cnodes (ps : list Z) : C unit :=
  match ps with [] => mret tt | p :: ps => _ ← free_cnode p; free_cnodes ps end.
(** The callback of the pool is [free]: it is called on the nodes that the
    pool gives up. *)
Definition on_node_pool {A} (m : ST Q A) : C A :=
  before ← gets (λ w, length (pq_given (cw_node_pool w)));
  a ← (λ w, '(a, q) ← m (cw_node_pool w); Ret (a, put_node_pool q w));
  given ← gets (λ w, drop before (pq_given (cw_node_pool w)));
  _ ← free_cnodes given;
  mret a.

Definition calloc_cnode : C Z := λ w,
  let fresh a := Ret (cw_new w, mk_cworld (cw_refcnt w) (cw_free_list w) (cw_node_pool w)
                     (<[cw_new w := mk_cnode 0 0 0 0]> (cw_nodes w)) (cw_links w) (cw_new w + 4) a (cw_terminated w) (cw_given w)) in
  match cw_alloc w with
  | [] => fresh []
  | true :: a => fresh a
  | false :: a => Ret (0, mk_cworld (cw_refcnt w) (cw_free_list w) (cw_node_pool w) (cw_nodes w) (cw_links w) (cw_new w)
                                    a (cw_terminated w) (cw_given w))
  end.
Definition calloc_refcnt : C bool := λ w,
  match cw_alloc w with
  | [] => Ret (true, w)
  | b :: a => Ret (b, mk_cworld (cw_refcnt w) (cw_free_list w) (cw_node_pool w) (cw_nodes w) (cw_links w) (cw_new w)
                                a (cw_terminated w) (cw_given w))
  end.

Definition call_terminate (ref priv : Z) : C unit :=
  modify (λ w, mk_cworld (cw_refcnt w) (cw_free_list w) (cw_node_pool w) (cw_nodes w) (cw_links w) (cw_new w) (cw_alloc w)
                         (cw_terminated w ++ [(ref, priv)]) (cw_given w)).
Definition call_free_ptr (ptr : Z) : C unit :=
  modify (λ w, mk_cworld (cw_refcnt w) (cw_free_list w) (cw_node_pool w) (cw_nodes w) (cw_links w) (cw_new w) (cw_alloc w)
                         (cw_terminated w) (cw_given w ++ [ptr])).

(** ** Creation and collection *)

Definition free_list_size (threshold : Z) : Z :=
  let rqueue_size := as_int (u32 (threshold + threshold / 2)) in
  if rqueue_size <? FREE_LIST_MIN_SIZE then FREE_LIST_MIN_SIZE else rqueue_size.

Definition refcnt_create (threshold : Z) (terminate_cb free_cb : bool) : C bool :=
  ok ← calloc_refcnt;
  if negb ok then _ ← modify (put_refcnt CNull); mret false else
  _ ← modify (put_refcnt (CLive (mk_refcnt terminate_cb free_cb threshold)));
  _ ← on_free_list (pq_create (free_list_size threshold) RQUEUE_MODE_BLOCKING);
  _ ← on_node_pool (pq_create NODE_POOL_SIZE RQUEUE_MODE_BLOCKING);
  _ ← on_node_pool (pq_set_free_value_callback true);
  mret true.

(** The nodes in the free list. *)
Definition waiting : C Z :=
  writes ← on_free_list pq_write_count;
  reads ← on_free_list pq_read_count;
  mret (u64 (writes - reads)).

Definition gc_body (limit : Z) (_ : unit) : C (unit + unit) :=
  n ← waiting;
  if negb (limit <? n) then mret (inr tt) else
  ref ← on_free_list pq_read;
  if ref =? 0 then mret (inr tt) else
  c ← load_refcnt;
  _ ← (if free_node_ptr_cb c then n ← load_cnode ref; call_free_ptr (cn_ptr n) else mret tt);
  rc ← on_node_pool (pq_write ref);
  _ ← (if negb (rc =? 0) then free_cnode ref else mret tt);
  mret (inl tt).
Definition gc (force : bool) : C unit :=
  c ← load_refcnt;
  loopS (gc_body (if force then 0 else gc_threshold c / 2)) tt.

Definition refcnt_destroy : C unit :=
  _ ← gc true;
  _ ← on_free_list pq_destroy;
  _ ← on_node_pool pq_destroy;
  modify (put_refcnt CDangling).

(** ** References *)

(** A reference to the node that [node], the value of a link, points to; 0 for
    none. *)
Definition deref_value (node : Z) (skip_deleted : bool) : C Z :=
  let marked := node =? REFCNT_MARK_ON node in
  if marked && skip_deleted then mret 0 else
  let node := if marked then REFCNT_MARK_OFF node else node in
  if node =? 0 then mret 0 else
  n ← load_cnode node;
  if (cn_updating n =? 1) && (cn_count n =? 0) then mret 0 else
  _ ← set_cnode node (λ n, with_count (u32 (cn_count n + 1)) n);
  mret node.
Definition deref_link_internal (link : Z) (skip_deleted : bool) : C Z :=
  node ← load_link link; deref_value node skip_deleted.
Definition deref_link_d (link : Z) : C Z := deref_link_internal link false.
Definition deref_link (link : Z) : C Z := deref_link_internal link true.

(** The link of [retain_ref] is its argument. *)
Definition retain_ref (ref : Z) : C Z := deref_value ref true.

(** [ref] is terminated when nothing refers to it: 0 is returned then. *)
Definition try_terminate (ref : Z) : C bool :=
  n ← load_cnode ref;
  if negb (cn_updating n =? 0) then mret false else
  _ ← set_cnode ref (with_updating 1);
  n ← load_cnode ref;
  if cn_count n =? 0 then
    c ← load_refcnt;
    _ ← (if terminate_node_cb c then call_terminate ref (cn_priv n) else mret tt);
    _ ← on_free_list (pq_write ref);
    mret true
  else _ ← set_cnode ref (with_updating 0); mret false.
Definition release_ref (ref : Z) : C Z := λ w,
  match cw_refcnt w with
  | CNull => Ret (0, w)
  | _ => (
      n ← load_cnode ref;
      _ ← (if 0 <? cn_count n then set_cnode ref (λ n, with_count (u32 (cn_count n - 1)) n) else mret tt);
      terminated ← try_terminate ref;
      n ← waiting;
      c ← load_refcnt;
      _ ← (if gc_threshold c <? n then gc false else mret tt);
      mret (if terminated : bool then 0 else ref)) w
  end.

(** 1 when the link was [old] and is [ref] now. *)
Definition compare_and_swap_ref (link old ref : Z) : C Z :=
  p ← load_link link;
  if negb (p =? old) then mret 0 else
  _ ← store_link link ref;
  _ ← (if negb (ref =? 0) then set_cnode ref (λ n, with_count (u32 (cn_count n + 1)) n) else mret tt);
  _ ← (if negb (old =? 0) then set_cnode old (λ n, with_count (u32 (cn_count n - 1)) n) else mret tt);
  mret 1.

Definition store_ref_body (link ref : Z) (_ : unit) : C (unit + Z) :=
  old ← load_link link;
  p ← load_link link;
  if p =? old then _ ← store_link link ref; mret (inr old) else mret (inl tt).
Definition store_ref (link ref : Z) : C unit :=
  old ← loopS (store_ref_body link ref) tt;
  _ ← (if negb (ref =? 0) then retain_ref ref else mret 0);
  _ ← (if negb (old =? 0) then release_ref (REFCNT_MARK_OFF old) else mret 0);
  mret tt.

Definition new_node (ptr priv : Z) : C Z :=
  _ ← load_refcnt;
  node ← on_node_pool pq_read;
  node ← (if node =? 0 then calloc_cnode else mret node);
  if node =? 0 then mret 0 else
  _ ← set_cnode node (λ _, mk_cnode ptr priv 1 0);
  mret node.

Definition get_node_ptr (node : Z) : C Z := if negb (node =? 0) then n ← load_cnode node; mret (cn_ptr n) else mret 0.
Definition get_node_refcount (node : Z) : C Z := n ← load_cnode node; mret (as_int (cn_count n)).
End refcnt.
Arguments cworld : clear implicits.
