(* ===== verification/RefcntOps.v ===== *)
(** * Reference counters as counted objects

    When a store of nodes, a free list and a pool are the state of some
    counted objects, and what each operation of src/src/refcnt.c does to
    them. *)

From S2P Require Import Prelude Rqueue PtrQueue Refcnt.

(** ** Counted objects *)

Record object := mk_object { ob_ptr : Z; ob_priv : Z; ob_count : Z }.

(** The objects in use, those that wait for the collector with their
    pointers, the links of the client, and the calls of its callbacks. *)
Record refs := mk_refs {
  rs_live : gmap Z object; rs_waiting : list (Z * Z); rs_links : gmap Z Z;
  rs_terminated : list (Z * Z); rs_given : list Z
}.

Definition live_node (o : object) : refcnt_node_t := mk_cnode (ob_ptr o) (ob_priv o) (ob_count o) 0.
Definition put_live (L : gmap Z object) (s : refs) : refs :=
  mk_refs L (rs_waiting s) (rs_links s) (rs_terminated s) (rs_given s).
Definition put_rlinks (L : gmap Z Z) (s : refs) : refs :=
  mk_refs (rs_live s) (rs_waiting s) L (rs_terminated s) (rs_given s).
Definition put_count (c : Z) (o : object) : object := mk_object (ob_ptr o) (ob_priv o) c.

(** An object gains a reference. *)
Definition gain (n : Z) (s : refs) : refs := put_live (alter (λ o, put_count (ob_count o + 1) o) n (rs_live s)) s.

Definition is_node (p : Z) : Prop := 0 < p ∧ p mod 2 = 0.

(** The store holds the objects in use, those that wait, and the pool. *)
Record stored (s : refs) (pool : list Z) (N : gmap Z refcnt_node_t) (nx : Z) : Prop := {
  st_nodup : NoDup ((rs_waiting s).*1 ++ pool);
  st_apart : ∀ n, n ∈ (rs_waiting s).*1 ++ pool → rs_live s !! n = None;
  st_dom : ∀ n, is_Some (N !! n) ↔ is_Some (rs_live s !! n) ∨ n ∈ (rs_waiting s).*1 ++ pool;
  st_live : ∀ n o, rs_live s !! n = Some o → N !! n = Some (live_node o);
  st_waiting : ∀ n p, (n, p) ∈ rs_waiting s → ∃ priv, N !! n = Some (mk_cnode p priv 0 1);
  st_nodes : ∀ n, is_Some (N !! n) → is_node n ∧ n < nx;
  st_new : is_node nx
}.

Section ops.
Context {Q : Type} `{PtrQueueLaws Q}.
Context (threshold : Z) (tcb fcb : bool).
Abbreviation C := (ST (cworld Q)).

(** The counters that hold objects: the free list takes one object more than
    the threshold. *)
Definition counts (s : refs) (w : cworld Q) : Prop := ∃ size pool nw nr pw pr,
  cw_refcnt w = CLive (mk_refcnt tcb fcb threshold) ∧
  (pq_holds size false (rs_waiting s).*1 nw nr (cw_free_list w) ∧ u64 (nw - nr) = Z.of_nat (length (rs_waiting s)) ∧
    0 ≤ threshold < size ∧ size < 2 ^ 32) ∧
  pq_holds NODE_POOL_SIZE true pool pw pr (cw_node_pool w) ∧
  stored s pool (cw_nodes w) (cw_new w) ∧
  cw_links w = rs_links s ∧ cw_terminated w = rs_terminated s ∧ cw_given w = rs_given s ∧ false ∉ cw_alloc w.

(** ** Marked pointers *)

Lemma mark_off_eq v : REFCNT_MARK_OFF v = v - v mod 2.
Proof.
  unfold REFCNT_MARK_OFF. change (-2) with (Z.lnot 1). rewrite <- Z.ldiff_land. change 1 with (Z.ones 1).
  rewrite Z.ldiff_ones_r, Z.shiftl_mul_pow2, Z.shiftr_div_pow2 by lia. change (2 ^ 1) with 2. pose proof (Z.div_mod v 2). lia.
Qed.
Lemma mark_on_eq v : REFCNT_MARK_ON v = v + 1 - v mod 2.
Proof.
  unfold REFCNT_MARK_ON. pose proof (Z.add_lor_land v 1) as Hv.
  assert (Z.land v 1 = v mod 2) by (by apply (Z.land_ones v 1)). lia.
Qed.
Lemma marked_eq v : (v =? REFCNT_MARK_ON v) = (v mod 2 =? 1).
Proof. rewrite mark_on_eq. destruct (Z.eqb_spec (v mod 2) 1) as [->|Hv]; [apply Z.eqb_eq; lia|apply Z.eqb_neq; lia]. Qed.
Lemma mark_off_node n : is_node n → REFCNT_MARK_OFF n = n.
Proof. intros [_ Hn]. rewrite mark_off_eq. lia. Qed.

(** ** The store *)

(** An object in use gets another count. *)
Lemma stored_count n o c s pool N nx :
  stored s pool N nx → rs_live s !! n = Some o →
  stored (put_live (<[n := put_count c o]> (rs_live s)) s) pool (<[n := live_node (put_count c o)]> N) nx.
Proof.
  intros [Hnd Hap Hdom Hl Hw Hn Hx] Ho. assert (Hin : is_Some (N !! n)) by (apply Hdom; left; by eexists). split; simpl; try done.
  - intros m Hm. rewrite lookup_insert_ne; [by apply Hap|]. intros <-. by rewrite Hap in Ho.
  - intros m. rewrite !lookup_insert_dom by (done || by eexists). apply Hdom.
  - intros m o' Hm. destruct (decide (m = n)) as [->|Hne].
    + rewrite lookup_insert_eq in Hm. rewrite lookup_insert_eq. by injection Hm as <-.
    + rewrite lookup_insert_ne in Hm by done. rewrite lookup_insert_ne by done. by apply Hl.
  - intros m p Hm. rewrite lookup_insert_ne; [by apply Hw|]. intros <-. rewrite Hap in Ho; [done|].
    apply elem_of_app. left. by apply (list_elem_of_fmap_2 fst) in Hm.
  - intros m. rewrite lookup_insert_dom by done. apply Hn.
Qed.

(** An object is terminated. *)
Lemma stored_terminated n o s pool N nx :
  stored s pool N nx → rs_live s !! n = Some o →
  stored (mk_refs (delete n (rs_live s)) (rs_waiting s ++ [(n, ob_ptr o)]) (rs_links s) (rs_terminated s) (rs_given s)) pool
    (<[n := mk_cnode (ob_ptr o) (ob_priv o) 0 1]> N) nx.
Proof.
  intros [Hnd Hap Hdom Hl Hw Hn Hx] Ho. assert (Hin : is_Some (N !! n)) by (apply Hdom; left; by eexists).
  assert (Hnw : n ∉ (rs_waiting s).*1 ++ pool) by (intros Hm; by rewrite Hap in Ho).
  assert (Hperm : (rs_waiting s ++ [(n, ob_ptr o)]).*1 ++ pool ≡ₚ n :: (rs_waiting s).*1 ++ pool).
  { rewrite fmap_app, <- app_assoc. simpl. by rewrite <- Permutation_middle. }
  split; simpl; try done.
  - rewrite Hperm. by constructor.
  - intros m. rewrite Hperm, elem_of_cons. intros [->|Hm]; [apply lookup_delete_eq|].
    rewrite lookup_delete_ne; [by apply Hap|]. by intros <-.
  - intros m. rewrite lookup_insert_dom, Hdom, Hperm, elem_of_cons by done.
    destruct (decide (m = n)) as [->|Hne].
    + split; [intros _; right; by left|intros _; left; by eexists].
    + rewrite lookup_delete_ne by done. naive_solver.
  - intros m o' Hm. apply lookup_delete_Some in Hm as [Hne Hm]. rewrite lookup_insert_ne by done. by apply Hl.
  - intros m p. rewrite elem_of_app, list_elem_of_singleton. intros [Hm|[= -> ->]].
    + rewrite lookup_insert_ne; [by apply Hw|]. intros <-. apply Hnw, elem_of_app. left. by apply (list_elem_of_fmap_2 fst) in Hm.
    + rewrite lookup_insert_eq. by eexists.
  - intros m. rewrite lookup_insert_dom by done. apply Hn.
Qed.

(** An object that waits is put into the pool, or freed. *)
Definition collected (s : refs) (W : list (Z * Z)) : refs :=
  mk_refs (rs_live s) W (rs_links s) (rs_terminated s) (rs_given s).
Lemma stored_pooled n p W s pool N nx :
  stored s pool N nx → rs_waiting s = (n, p) :: W → stored (collected s W) (pool ++ [n]) N nx.
Proof.
  intros [Hnd Hap Hdom Hl Hw Hn Hx] HW. rewrite HW in *. simpl in *.
  assert (Hperm : W.*1 ++ pool ++ [n] ≡ₚ n :: W.*1 ++ pool) by (by rewrite (Permutation_app_comm pool); simpl; rewrite <- Permutation_middle).
  split; simpl; try done.
  - by rewrite Hperm.
  - intros m. rewrite Hperm. apply Hap.
  - intros m. rewrite Hperm. apply Hdom.
  - intros m q Hm. apply Hw. by right.
Qed.
Lemma stored_freed n p W s pool N nx :
  stored s pool N nx → rs_waiting s = (n, p) :: W → stored (collected s W) pool (delete n N) nx.
Proof.
  intros [Hnd Hap Hdom Hl Hw Hn Hx] HW. rewrite HW in *. simpl in *. apply NoDup_cons in Hnd as [Hnn Hnd].
  split; simpl; try done.
  - intros m Hm. apply Hap. by right.
  - intros m. destruct (decide (m = n)) as [->|Hne].
    + rewrite lookup_delete_eq. split; [by intros []|]. intros [[? Hs]|Hm]; [|done]. rewrite Hap in Hs; [done|left].
    + rewrite lookup_delete_ne, Hdom, elem_of_cons by done. naive_solver.
  - intros m o Hm. rewrite lookup_delete_ne; [by apply Hl|]. intros <-. rewrite Hap in Hm; [done|left].
  - intros m q Hm. rewrite lookup_delete_ne; [apply Hw; by right|]. intros <-. apply Hnn, elem_of_app. left.
    by apply (list_elem_of_fmap_2 fst) in Hm.
  - intros m Hm. apply Hn. destruct (decide (m = n)) as [->|Hne]; [by rewrite lookup_delete_eq in Hm; destruct Hm|].
    by rewrite lookup_delete_ne in Hm.
Qed.

(** An object is created, at an address that is not used. *)
Lemma stored_created n o s pool N nx pool' nx' :
  stored s pool N nx → rs_live s !! n = None → n ∉ (rs_waiting s).*1 ++ pool' →
  NoDup ((rs_waiting s).*1 ++ pool') → pool' ⊆ pool →
  (∀ m, is_Some (<[n := live_node o]> N !! m) ↔ m = n ∨ is_Some (rs_live s !! m) ∨ m ∈ (rs_waiting s).*1 ++ pool') →
  is_node n → n < nx' → nx ≤ nx' → is_node nx' →
  stored (put_live (<[n := o]> (rs_live s)) s) pool' (<[n := live_node o]> N) nx'.
Proof.
  intros [_ Hap Hdom Hl Hw Hn Hx] Hnl Hnw Hnd Hsub Hdom' Hin Hlt Hle Hx'. split; simpl; try done.
  - intros m Hm. rewrite lookup_insert_ne by (intros <-; done). apply Hap. rewrite elem_of_app in Hm |- *. set_solver.
  - intros m. rewrite Hdom', lookup_insert_is_Some'. naive_solver.
  - intros m o' Hm. destruct (decide (m = n)) as [->|Hne].
    + rewrite lookup_insert_eq in Hm. rewrite lookup_insert_eq. by injection Hm as <-.
    + rewrite lookup_insert_ne in Hm by done. rewrite lookup_insert_ne by done. by apply Hl.
  - intros m p Hm. rewrite lookup_insert_ne; [by apply Hw|]. intros <-. apply Hnw, elem_of_app. left.
    by apply (list_elem_of_fmap_2 fst) in Hm.
  - intros m. rewrite lookup_insert_is_Some'. intros [<-|Hm]; [done|]. destruct (Hn m Hm). split; [done|lia].
Qed.

(** ** Steps of the code *)

Lemma returns_load_cnode p n (w : cworld Q) (P : refcnt_node_t * cworld Q → Prop) :
  cw_nodes w !! p = Some n → P (n, w) → returns (load_cnode p w) P.
Proof. intros Hn HP. unfold load_cnode. by rewrite Hn. Qed.
Lemma returns_set_cnode p f n (w : cworld Q) (P : unit * cworld Q → Prop) :
  cw_nodes w !! p = Some n → P (tt, put_cnodes (<[p := f n]> (cw_nodes w)) w) → returns (set_cnode p f w) P.
Proof. intros Hn HP. unfold set_cnode. go. by eapply returns_load_cnode. Qed.
Lemma returns_free_cnode p n (w : cworld Q) (P : unit * cworld Q → Prop) :
  cw_nodes w !! p = Some n → P (tt, put_cnodes (delete p (cw_nodes w)) w) → returns (free_cnode p w) P.
Proof. intros Hn HP. unfold free_cnode. go. by eapply returns_load_cnode. Qed.
Lemma returns_load_refcnt c (w : cworld Q) (P : refcnt_t * cworld Q → Prop) :
  cw_refcnt w = CLive c → P (c, w) → returns (load_refcnt w) P.
Proof. intros Hc HP. unfold load_refcnt. by rewrite Hc. Qed.
Lemma returns_load_link l v (w : cworld Q) (P : Z * cworld Q → Prop) :
  cw_links w !! l = Some v → P (v, w) → returns (load_link l w) P.
Proof. intros Hl HP. unfold load_link. by rewrite Hl. Qed.
Lemma returns_store_link l v p (w : cworld Q) (P : unit * cworld Q → Prop) :
  cw_links w !! l = Some v → P (tt, put_links (<[l := p]> (cw_links w)) w) → returns (store_link l p w) P.
Proof. intros Hl HP. unfold store_link. go. by eapply returns_load_link. Qed.

Lemma returns_on_free_list {A} (m : ST Q A) (w : cworld Q) (P : A * cworld Q → Prop) :
  returns (m (cw_free_list w)) (λ '(a, q), P (a, put_free_list q w)) → returns (on_free_list m w) P.
Proof. intros Hm. unfold on_free_list. apply returns_bind. eapply returns_mono; [exact Hm|]. by intros [a q]. Qed.
(** The pool gives nothing up. *)
Lemma returns_on_node_pool {A} (m : ST Q A) (w : cworld Q) (P : A * cworld Q → Prop) :
  returns (m (cw_node_pool w)) (λ '(a, q), pq_given q = pq_given (cw_node_pool w) ∧ P (a, put_node_pool q w)) →
  returns (on_node_pool m w) P.
Proof.
  intros Hm. unfold on_node_pool. go. apply returns_bind, returns_bind. eapply returns_mono; [exact Hm|]. intros [a q] [Hg HP]. go.
  simpl. by rewrite Hg, drop_all.
Qed.

Lemma put_free_list_id (w : cworld Q) : put_free_list (cw_free_list w) w = w.
Proof. by destruct w. Qed.

Lemma waiting_ok s w : counts s w → waiting w = Ret (Z.of_nat (length (rs_waiting s)), w).
Proof.
  intros (size&pool&nw&nr&pw&pr&Hc&(Hq&Hn&Ht&Hs)&Hw). apply returns_exact. unfold waiting. go.
  apply returns_on_free_list. rewrite (pq_write_count_ok _ _ _ _ _ _ Hq). go. rewrite put_free_list_id.
  apply returns_on_free_list. rewrite (pq_read_count_ok _ _ _ _ _ _ Hq). go. by rewrite put_free_list_id, Hn.
Qed.

(** ** Collection *)

Definition gc_spec (limit : Z) (s : refs) : refs :=
  let n := Z.to_nat (Z.of_nat (length (rs_waiting s)) - limit) in
  mk_refs (rs_live s) (drop n (rs_waiting s)) (rs_links s) (rs_terminated s)
    (rs_given s ++ if fcb then (take n (rs_waiting s)).*2 else []).

Definition collect_first (p : Z) (W : list (Z * Z)) (s : refs) : refs :=
  mk_refs (rs_live s) W (rs_links s) (rs_terminated s) (rs_given s ++ if fcb then [p] else []).

Lemma gc_spec_step limit n p W s :
  rs_waiting s = (n, p) :: W → 0 ≤ limit < Z.of_nat (length (rs_waiting s)) →
  gc_spec limit (collect_first p W s) = gc_spec limit s.
Proof.
  intros HW Hl. unfold gc_spec. simpl. rewrite HW in *. simpl length in *.
  replace (Z.to_nat (Z.of_nat (S (length W)) - limit)) with (S (Z.to_nat (Z.of_nat (length W) - limit))) by lia.
  simpl. by destruct fcb; rewrite <- ?app_assoc, ?app_nil_r.
Qed.
Lemma gc_spec_done limit s : Z.of_nat (length (rs_waiting s)) ≤ limit → gc_spec limit s = s.
Proof.
  intros Hl. unfold gc_spec. replace (Z.to_nat _) with 0%nat by lia. destruct s. simpl. by destruct fcb; rewrite app_nil_r.
Qed.

Lemma u64_read nw nr n : u64 (nw - nr) = Z.succ n → 0 ≤ n < 2 ^ 64 → u64 (nw - u64 (nr + 1)) = n.
Proof.
  unfold u64. intros Hn Hb. rewrite Zminus_mod_idemp_r. replace (nw - (nr + 1)) with ((nw - nr) - 1) by lia.
  rewrite <- Zminus_mod_idemp_l, Hn. rewrite Z.mod_small; lia.
Qed.
Lemma u64_write nw nr n : u64 (nw - nr) = n → n + 1 < 2 ^ 64 → u64 (u64 (nw + 1) - nr) = n + 1.
Proof.
  unfold u64. intros Hn Hb. rewrite Zminus_mod_idemp_l. replace (nw + 1 - nr) with ((nw - nr) + 1) by lia.
  rewrite <- Zplus_mod_idemp_l, Hn. pose proof (Z.mod_pos_bound (nw - nr) (2 ^ 64)). rewrite Z.mod_small; lia.
Qed.

Lemma gc_body_ok limit n p W s w :
  counts s w → rs_waiting s = (n, p) :: W → 0 ≤ limit < Z.of_nat (length (rs_waiting s)) →
  returns (gc_body limit tt w) (λ '(r, w'), r = inl tt ∧ counts (collect_first p W s) w').
Proof.
  intros Hw HW Hl. unfold gc_body. go. apply (returns_Ret_at _ _ _ _ (waiting_ok s w Hw)). go.
  rewrite (proj2 (Z.ltb_lt _ _)) by lia. go.
  destruct Hw as (size&pool&nw&nr&pw&pr&Hc&(Hq&Hn&Ht&Hs)&Hp&Hst&Hli&Hte&Hgi&Hal). rewrite HW in Hq, Hn.
  assert (∃ priv, cw_nodes w !! n = Some (mk_cnode p priv 0 1)) as [priv Hnode].
  { eapply st_waiting; [exact Hst|]. rewrite HW. left. }
  assert (Hn0 : is_node n) by (eapply st_nodes; [exact Hst|]; by eexists). destruct Hn0 as [Hn0 _].
  apply returns_on_free_list. eapply returns_mono; [exact (pq_read_ok _ _ _ _ _ _ Hq)|].
  intros [v q] [_ [-> Hq']]. simpl in Hq' |- *. go. rewrite (proj2 (Z.eqb_neq n 0)) by lia. go.
  eapply returns_load_refcnt; [exact Hc|]. go. cbn [free_node_ptr_cb].
  apply (returns_mono _ (λ '(_, w'), w' = mk_cworld (cw_refcnt w) q (cw_node_pool w) (cw_nodes w) (cw_links w) (cw_new w)
           (cw_alloc w) (cw_terminated w) (cw_given w ++ if fcb then [p] else []))).
  { destruct fcb; go; [by eapply returns_load_cnode|]. by rewrite app_nil_r. }
  intros [[] w1] ->. go. apply returns_on_node_pool. simpl cw_node_pool.
  eapply returns_mono; [apply (pq_write_ok n _ _ _ _ _ _ Hp); lia|]. intros [rc q2] [Hg Hq2]. split; [done|]. go.
  assert (Hlen : u64 (nw - u64 (nr + 1)) = Z.of_nat (length W)).
  { apply u64_read; [by rewrite Hn; simpl length; lia|]. unfold u64 in Hn. simpl length in Hn.
    pose proof (Z.mod_pos_bound (nw - nr) (2 ^ 64)). lia. }
  assert (Hst' : rs_waiting s = (n, p) :: W) by done.
  destruct (_ <? _); destruct Hq2 as [-> Hq2]; cbn [Z.eqb negb]; go.
  - split; [done|]. exists size, (pool ++ [n]), nw, (u64 (nr + 1)), (u64 (pw + 1)), pr. simpl.
    split_and!; try first [done|lia]; [|by rewrite Hgi]. destruct (stored_pooled _ _ _ _ _ _ _ Hst HW). by split.
  - eapply returns_free_cnode; [exact Hnode|]. go.
    split; [done|]. exists size, pool, nw, (u64 (nr + 1)), pw, pr. simpl.
    split_and!; try first [done|lia]; [|by rewrite Hgi]. destruct (stored_freed _ _ _ _ _ _ _ Hst HW). by split.
Qed.

Lemma counts_length s w : counts s w → Z.of_nat (length (rs_waiting s)) < 2 ^ 64.
Proof. intros (size&pool&nw&nr&pw&pr&_&(_&Hn&_)&_). rewrite <- Hn. unfold u64. pose proof (Z.mod_pos_bound (nw - nr) (2 ^ 64)). lia. Qed.

Lemma gc_body_stop limit s w :
  counts s w → Z.of_nat (length (rs_waiting s)) ≤ limit → gc_body limit tt w = Ret (inr tt, w).
Proof.
  intros Hw Hl. unfold gc_body. erewrite (st_bind_Ret _ _ _ _ _ (waiting_ok s w Hw)). cbv beta.
  by rewrite (proj2 (Z.ltb_ge _ _)) by lia.
Qed.

Lemma gc_runs limit s w :
  counts s w → 0 ≤ limit →
  ∃ w' m, runs (loop_body (gc_body limit)) (tt, w) m (tt, w') ∧ counts (gc_spec limit s) w' ∧ m ≤ Z.of_nat (length (rs_waiting s)).
Proof.
  intros Hw Hl. remember (rs_waiting s) as W eqn:HW. revert s w Hw HW. induction W as [|[n p] W IH]; intros s w Hw HW.
  - exists w, 0. assert (Z.of_nat (length (rs_waiting s)) ≤ limit) by (rewrite <- HW; simpl; lia).
    split; [|split; [by rewrite gc_spec_done by done|done]].
    apply runs_exit. unfold loop_body. simpl. by rewrite (gc_body_stop limit s).
  - destruct (decide (limit < Z.of_nat (length (rs_waiting s)))) as [Hlt|Hge].
    + destruct (returns_inv _ _ (gc_body_ok limit n p W s w Hw (eq_sym HW) (conj Hl Hlt))) as ([r w1]&Hb&->&Hw1).
      destruct (IH (collect_first p W s) w1 Hw1 eq_refl) as (w'&m&Hr&Hw'&Hm). exists w', (m + 1).
      rewrite (gc_spec_step limit n) in Hw' by (done || lia). split; [|split; [done|simpl length; lia]].
      eapply runs_step; [|exact Hr]. unfold loop_body. simpl. by rewrite Hb.
    + exists w, 0. split; [|split; [by rewrite gc_spec_done by lia|lia]].
      apply runs_exit. unfold loop_body. simpl. by rewrite (gc_body_stop limit s) by (done || lia).
Qed.

Lemma gc_ok force s w :
  counts s w → returns (gc force w) (λ '(_, w'), counts (gc_spec (if force : bool then 0 else threshold / 2) s) w').
Proof.
  intros Hw. pose proof (counts_length s w Hw) as Hlen. pose proof Hw as (size&pool&nw&nr&pw&pr&Hc&(_&_&Ht&_)&_).
  unfold gc. go. eapply returns_load_refcnt; [exact Hc|]. cbn [gc_threshold].
  set (limit := if force then 0 else threshold / 2). assert (0 ≤ limit) by (unfold limit; destruct force; [lia|apply Z.div_pos; lia]).
  destruct (gc_runs limit s w) as (w'&m&Hr&Hw'&Hm); [done|done|].
  unfold loopS. rewrite (runs_loop _ _ _ _ Hr) by lia. by apply returns_Ret.
Qed.

(** ** References *)

(** No more objects wait than the threshold. *)
Definition calm (s : refs) : Prop := Z.of_nat (length (rs_waiting s)) ≤ threshold.

Definition terminate (n : Z) (o : object) (s : refs) : refs :=
  mk_refs (delete n (rs_live s)) (rs_waiting s ++ [(n, ob_ptr o)]) (rs_links s)
    (rs_terminated s ++ if tcb then [(n, ob_priv o)] else []) (rs_given s).
Definition collect (s : refs) : refs :=
  if threshold <? Z.of_nat (length (rs_waiting s)) then gc_spec (threshold / 2) s else s.
(** A reference to [n] is lost. *)
Definition lose (n : Z) (s : refs) : refs :=
  match rs_live s !! n with
  | None => s
  | Some o =>
      if ob_count o <=? 1 then collect (terminate n o s)
      else put_live (<[n := put_count (ob_count o - 1) o]> (rs_live s)) s
  end.

Lemma calm_collect s : 0 ≤ threshold → calm (collect s).
Proof.
  intros Ht. unfold calm, collect. destruct (Z.ltb_spec threshold (Z.of_nat (length (rs_waiting s)))); [|done].
  simpl. rewrite length_drop. pose proof (Z.div_le_upper_bound threshold 2 threshold). pose proof (Z.div_pos threshold 2). lia.
Qed.
Lemma calm_lose n s : 0 ≤ threshold → calm s → calm (lose n s).
Proof. intros Ht Hs. unfold lose. destruct (rs_live s !! n); [|done]. case_if; [by apply calm_collect|done]. Qed.

(** The count of a live object. *)
Lemma counts_count n o c s w :
  counts s w → rs_live s !! n = Some o →
  counts (put_live (<[n := put_count c o]> (rs_live s)) s) (put_cnodes (<[n := live_node (put_count c o)]> (cw_nodes w)) w).
Proof.
  intros (size&pool&nw&nr&pw&pr&Hc&Hq&Hp&Hst&Hrest) Ho. exists size, pool, nw, nr, pw, pr. split; [done|]. split; [done|].
  split; [done|]. split; [|done]. by apply stored_count.
Qed.
Lemma counts_node n o s w : counts s w → rs_live s !! n = Some o → cw_nodes w !! n = Some (live_node o).
Proof. intros (size&pool&nw&nr&pw&pr&_&_&_&Hst&_). by apply st_live with pool (cw_new w). Qed.
Lemma counts_is_node n o s w : counts s w → rs_live s !! n = Some o → is_node n.
Proof.
  intros (size&pool&nw&nr&pw&pr&_&_&_&Hst&_) Ho. eapply st_nodes; [exact Hst|]. eapply st_dom; [exact Hst|]. left. by eexists.
Qed.

Lemma try_terminate_ok n o s w :
  counts (put_live (<[n := put_count 0 o]> (rs_live s)) s) w → rs_live s !! n = Some o → calm s →
  returns (try_terminate n w) (λ '(r, w'), r = true ∧ counts (terminate n o s) w').
Proof.
  intros Hw Ho Hca. pose proof (counts_node n _ _ _ Hw (lookup_insert_eq _ _ _)) as Hn.
  pose proof (counts_is_node n _ _ _ Hw (lookup_insert_eq _ _ _)) as [Hn0 _].
  unfold try_terminate. go. eapply returns_load_cnode; [exact Hn|]. go. simpl. go.
  eapply returns_set_cnode; [exact Hn|]. go. eapply returns_load_cnode; [apply lookup_insert_eq|]. go. simpl. go.
  destruct Hw as (size&pool&nw&nr&pw&pr&Hc&(Hq&Hnw&Ht&Hs)&Hp&Hst&Hli&Hte&Hgi&Hal). simpl in Hli, Hte, Hgi.
  eapply returns_load_refcnt; [exact Hc|]. go. cbn [terminate_node_cb].
  set (N := <[n := _]> (cw_nodes w)). apply (returns_mono _ (λ '(_, w'), w' = mk_cworld (cw_refcnt w) (cw_free_list w) (cw_node_pool w) N
    (cw_links w) (cw_new w) (cw_alloc w) (cw_terminated w ++ if tcb then [(n, ob_priv o)] else []) (cw_given w))).
  { destruct tcb; go; [done|]. by rewrite app_nil_r. }
  intros [[] w1] ->. go. apply returns_on_free_list. simpl cw_free_list.
  eapply returns_mono; [apply (pq_write_ok n _ _ _ _ _ _ Hq); lia|]. intros [rc q] [_ Hq2]. simpl in Hq2. go.
  unfold calm in Hca. rewrite length_fmap, (proj2 (Z.ltb_lt _ _)) in Hq2 by lia. destruct Hq2 as [-> Hq2]. split; [done|].
  exists size, pool, (u64 (nw + 1)), nr, pw, pr. unfold terminate. simpl. split_and!; try first [done|lia].
  - by rewrite fmap_app.
  - rewrite (u64_write nw nr (Z.of_nat (length (rs_waiting s)))) by (done || lia). rewrite length_app. simpl. lia.
  - pose proof (stored_terminated n (put_count 0 o) _ _ _ _ Hst (lookup_insert_eq _ _ _)) as Hst'. simpl in Hst'.
    rewrite delete_insert_eq in Hst'. unfold N. destruct Hst'. by split.
  - by rewrite Hte.
Qed.

Lemma put_live_put_live L L' s : put_live L (put_live L' s) = put_live L s.
Proof. done. Qed.
Lemma put_live_id s : put_live (rs_live s) s = s.
Proof. by destruct s. Qed.

Lemma release_ref_ok n o s w :
  counts s w → calm s → rs_live s !! n = Some o → 0 ≤ ob_count o < 2 ^ 32 →
  returns (release_ref n w) (λ '(r, w'), r = (if ob_count o <=? 1 then 0 else n) ∧ counts (lose n s) w').
Proof.
  intros Hw Hca Ho Hcnt. pose proof (counts_node n o s w Hw Ho) as Hn. pose proof Hw as (size&pool&nw&nr&pw&pr&Hc&_).
  unfold release_ref. rewrite Hc. go. eapply returns_load_cnode; [exact Hn|]. go. change (cn_count (live_node o)) with (ob_count o).
  set (c := if 0 <? ob_count o then ob_count o - 1 else ob_count o).
  apply (returns_mono _ (λ '(_, w'), counts (put_live (<[n := put_count c o]> (rs_live s)) s) w')).
  { unfold c. destruct (Z.ltb_spec 0 (ob_count o)); go.
    - eapply returns_set_cnode; [exact Hn|]. unfold with_count. simpl. rewrite u32_small by lia. by apply counts_count.
    - replace (put_count (ob_count o) o) with o by (by destruct o). by rewrite insert_id, put_live_id. }
  intros [[] w1] Hw1. go.
  apply (returns_mono _ (λ '(r, w'), r = (ob_count o <=? 1) ∧
    counts (if ob_count o <=? 1 then terminate n o s else put_live (<[n := put_count (ob_count o - 1) o]> (rs_live s)) s) w')).
  { unfold c in Hw1. clear c. destruct (Z.leb_spec (ob_count o) 1) as [Hle|Hgt].
    - replace (if 0 <? ob_count o then ob_count o - 1 else ob_count o) with 0 in Hw1
        by (destruct (Z.ltb_spec 0 (ob_count o)); lia). by apply try_terminate_ok.
    - rewrite (proj2 (Z.ltb_lt _ _)) in Hw1 by lia. set (s' := put_live _ s) in *.
      assert (Ho' : rs_live s' !! n = Some (put_count (ob_count o - 1) o)) by apply lookup_insert_eq.
      pose proof (counts_node n _ _ _ Hw1 Ho') as Hn1.
      unfold try_terminate. go. eapply returns_load_cnode; [exact Hn1|]. go. cbn [cn_updating live_node Z.eqb negb]. go.
      eapply returns_set_cnode; [exact Hn1|]. go. eapply returns_load_cnode; [apply lookup_insert_eq|]. go.
      unfold with_updating. cbn [cn_count live_node put_count ob_count].
      rewrite (proj2 (Z.eqb_neq _ _)) by lia. go. eapply returns_set_cnode; [apply lookup_insert_eq|]. go. split; [done|].
      simpl. rewrite insert_insert_eq. rewrite insert_id; [by destruct w1|]. exact Hn1. }
  intros [r w2] [-> Hw2]. set (s2 := if ob_count o <=? 1 then _ else _) in *. go.
  apply (returns_Ret_at _ _ _ _ (waiting_ok s2 w2 Hw2)). go. pose proof Hw2 as (size2&pool2&nw2&nr2&pw2&pr2&Hc2&_).
  eapply returns_load_refcnt; [exact Hc2|]. go. cbn [gc_threshold].
  apply (returns_mono _ (λ '(_, w'), counts (collect s2) w')).
  { unfold collect. case_if; go; [by apply (gc_ok false)|done]. }
  intros [[] w3] Hw3. go. split; [done|]. unfold lose, s2 in *. rewrite Ho. destruct (ob_count o <=? 1); [done|].
  unfold collect in Hw3. simpl rs_waiting in Hw3. rewrite (proj2 (Z.ltb_ge _ _)) in Hw3 by exact Hca. done.
Qed.

Lemma live_null s w : counts s w → rs_live s !! 0 = None.
Proof. intros Hw. destruct (rs_live s !! 0) as [o|] eqn:Ho; [|done]. by destruct (counts_is_node _ _ _ _ Hw Ho). Qed.
Lemma gain_live n o s :
  rs_live s !! n = Some o → gain n s = put_live (<[n := put_count (ob_count o + 1) o]> (rs_live s)) s.
Proof.
  intros Ho. unfold gain. f_equal. apply map_eq. intros m. rewrite lookup_alter, lookup_insert.
  destruct (decide (n = m)) as [->|Hne]; [by rewrite Ho|done].
Qed.
Lemma gain_none n s : rs_live s !! n = None → gain n s = s.
Proof.
  intros Hn. unfold gain. transitivity (put_live (rs_live s) s); [|apply put_live_id]. f_equal. apply map_eq. intros m.
  rewrite lookup_alter. case_decide; [by subst m; rewrite Hn|done].
Qed.

(** [n] is null, or an object whose count can be incremented. *)
Definition ref_to (s : refs) (n : Z) : Prop := n = 0 ∨ ∃ o, rs_live s !! n = Some o ∧ 0 ≤ ob_count o < 2 ^ 32 - 1.

Lemma returns_gain n o s w (P : unit * cworld Q → Prop) :
  counts s w → rs_live s !! n = Some o → 0 ≤ ob_count o < 2 ^ 32 - 1 → (∀ w', counts (gain n s) w' → P (tt, w')) →
  returns (set_cnode n (λ n, with_count (u32 (cn_count n + 1)) n) w) P.
Proof.
  intros Hw Ho Hb HP. eapply returns_set_cnode; [by eapply counts_node|]. apply HP. unfold with_count. simpl.
  rewrite u32_small, (gain_live n o) by (done || lia). by apply counts_count.
Qed.

Lemma deref_value_ok v skip s w :
  counts s w → ref_to s (REFCNT_MARK_OFF v) →
  returns (deref_value v skip w) (λ '(r, w'), let n := if (v mod 2 =? 1) && skip then 0 else REFCNT_MARK_OFF v in
    r = n ∧ counts (gain n s) w').
Proof.
  intros Hw Hv. unfold deref_value. rewrite marked_eq.
  replace (if v mod 2 =? 1 then REFCNT_MARK_OFF v else v) with (REFCNT_MARK_OFF v).
  2:{ rewrite mark_off_eq. pose proof (Z.mod_pos_bound v 2). destruct (Z.eqb_spec (v mod 2) 1); lia. }
  destruct ((v mod 2 =? 1) && skip); go; [by rewrite gain_none by (by eapply live_null)|].
  destruct Hv as [->|(o&Ho&Hb)]; go; [by rewrite gain_none by (by eapply live_null)|].
  destruct (counts_is_node _ _ _ _ Hw Ho) as [Hpos _]. rewrite (proj2 (Z.eqb_neq _ _)) by lia. go.
  eapply returns_load_cnode; [by eapply counts_node|]. go. cbn [cn_updating live_node Z.eqb andb]. go.
  by apply (returns_gain _ o s).
Qed.

Lemma deref_link_internal_ok l v skip s w :
  counts s w → rs_links s !! l = Some v → ref_to s (REFCNT_MARK_OFF v) →
  returns (deref_link_internal l skip w) (λ '(r, w'), let n := if (v mod 2 =? 1) && skip then 0 else REFCNT_MARK_OFF v in
    r = n ∧ counts (gain n s) w').
Proof.
  intros Hw Hl Hv. pose proof Hw as (size&pool&nw&nr&pw&pr&_&_&_&_&Hli&_). unfold deref_link_internal. go.
  eapply returns_load_link; [by rewrite Hli|]. go. by apply deref_value_ok.
Qed.
Lemma retain_ref_ok n s w :
  counts s w → ref_to s n → returns (retain_ref n w) (λ '(r, w'), r = n ∧ counts (gain n s) w').
Proof.
  intros Hw Hn. assert (n mod 2 = 0) as Hn2.
  { destruct Hn as [->|(o&Ho&_)]; [done|]. by destruct (counts_is_node _ _ _ _ Hw Ho). }
  assert (REFCNT_MARK_OFF n = n) as Hoff by (rewrite mark_off_eq; lia). unfold retain_ref.
  eapply returns_mono; [apply (deref_value_ok n true s); [done|by rewrite Hoff]|]. by rewrite Hn2, Hoff.
Qed.

Lemma counts_links L s w : counts s w → counts (put_rlinks L s) (put_links L w).
Proof.
  intros (size&pool&nw&nr&pw&pr&Hc&Hq&Hp&Hst&Hli&Hrest). exists size, pool, nw, nr, pw, pr. simpl. split; [done|]. split; [done|].
  split; [done|]. split; [by destruct Hst; split|done].
Qed.

(** [ref] replaces what the link holds. *)
Definition store_spec (l ref : Z) (s : refs) : refs :=
  let old := default 0 (rs_links s !! l) in
  lose (REFCNT_MARK_OFF old) (gain ref (put_rlinks (<[l := ref]> (rs_links s)) s)).

Lemma ref_to_gain m n s : (∀ o, rs_live s !! n = Some o → 0 ≤ ob_count o < 2 ^ 32 - 2) → ref_to s m → ref_to (gain n s) m.
Proof.
  intros Hn [->|(o&Ho&Hb)]; [by left|]. right. destruct (decide (n = m)) as [->|Hne].
  - rewrite (gain_live m o) by done. simpl. rewrite lookup_insert_eq. eexists. split; [done|]. specialize (Hn o Ho). simpl. lia.
  - exists o. split; [|done]. simpl. by rewrite lookup_alter_ne.
Qed.

Lemma lose_null s w : counts s w → lose 0 s = s.
Proof. intros Hw. unfold lose. by rewrite (live_null s w). Qed.

Lemma store_ref_ok l ref old s w :
  counts s w → calm s → rs_links s !! l = Some old → old = 0 ∨ old ≠ 1 →
  ref_to s ref → (∀ o, rs_live s !! ref = Some o → 0 ≤ ob_count o < 2 ^ 32 - 2) → ref_to s (REFCNT_MARK_OFF old) →
  returns (store_ref l ref w) (λ '(_, w'), counts (store_spec l ref s) w').
Proof.
  intros Hw Hca Hl Hold1 Href Hrefb Hold. pose proof Hw as (size&pool&nw&nr&pw&pr&_&_&_&_&Hli&_). unfold store_ref. go.
  apply returns_loopS_exit. unfold store_ref_body. go. do 2 (eapply returns_load_link; [by rewrite Hli|]; go).
  rewrite Z.eqb_refl. go. eapply returns_store_link; [by rewrite Hli|]. go.
  set (s1 := put_rlinks (<[l := ref]> (rs_links s)) s). set (w1 := put_links _ w).
  assert (Hw1 : counts s1 w1) by (unfold s1, w1; rewrite Hli; by apply counts_links).
  apply (returns_mono _ (λ '(_, w'), counts (gain ref s1) w')).
  { destruct (Z.eqb_spec ref 0) as [->|Hr]; go; [by rewrite gain_none by (by eapply live_null)|].
    eapply returns_mono; [by apply (retain_ref_ok ref s1)|]. by intros [r w'] [_ ?]. }
  intros [r w2] Hw2. go. unfold store_spec. rewrite Hl. simpl default. fold s1.
  destruct (Z.eqb_spec old 0) as [->|Ho]; go; [change (REFCNT_MARK_OFF 0) with 0; by rewrite (lose_null _ _ Hw2)|].
  destruct Hold1 as [?|Hold1]; [done|].
  destruct (ref_to_gain (REFCNT_MARK_OFF old) ref s1 Hrefb Hold) as [Hn|(o&Ho1&Hb)].
  { rewrite mark_off_eq in Hn. pose proof (Z.mod_pos_bound old 2). lia. }
  eapply returns_mono; [apply (release_ref_ok _ o (gain ref s1)); [done|done|done|lia]|]. intros [r2 w3] [_ Hw3]. by go.
Qed.

(** ** Compare and swap *)

(** The count of an object that is not referenced by a link any more. *)
Definition weaken (n : Z) (s : refs) : refs := put_live (alter (λ o, put_count (ob_count o - 1) o) n (rs_live s)) s.
Definition cas_spec (l old ref : Z) (s : refs) : refs := weaken old (gain ref (put_rlinks (<[l := ref]> (rs_links s)) s)).

Lemma weaken_live n o s :
  rs_live s !! n = Some o → weaken n s = put_live (<[n := put_count (ob_count o - 1) o]> (rs_live s)) s.
Proof.
  intros Ho. unfold weaken. f_equal. apply map_eq. intros m. rewrite lookup_alter, lookup_insert.
  destruct (decide (n = m)) as [->|Hne]; [by rewrite Ho|done].
Qed.
Lemma weaken_none n s : rs_live s !! n = None → weaken n s = s.
Proof.
  intros Hn. unfold weaken. transitivity (put_live (rs_live s) s); [|apply put_live_id]. f_equal. apply map_eq. intros m.
  rewrite lookup_alter. case_decide; [by subst m; rewrite Hn|done].
Qed.

Lemma compare_and_swap_ref_ok l old ref p s w :
  counts s w → rs_links s !! l = Some p → ref_to s ref →
  old = 0 ∨ (∃ o, rs_live s !! old = Some o ∧ 1 ≤ ob_count o < 2 ^ 32 - 1) →
  returns (compare_and_swap_ref l old ref w) (λ '(r, w'),
    if p =? old then r = 1 ∧ counts (cas_spec l old ref s) w' else r = 0 ∧ counts s w').
Proof.
  intros Hw Hl Href Hold. pose proof Hw as (size&pool&nw&nr&pw&pr&_&_&_&_&Hli&_). unfold compare_and_swap_ref. go.
  eapply returns_load_link; [by rewrite Hli|]. go. destruct (p =? old) eqn:Ep; go; [|done].
  eapply returns_store_link; [by rewrite Hli|]. go.
  set (s1 := put_rlinks (<[l := ref]> (rs_links s)) s). set (w1 := put_links _ w).
  assert (Hw1 : counts s1 w1) by (unfold s1, w1; rewrite Hli; by apply counts_links).
  apply (returns_mono _ (λ '(_, w'), counts (gain ref s1) w')).
  { destruct Href as [->|(o&Ho&Hb)]; go; [by rewrite gain_none by (by eapply live_null)|].
    destruct (counts_is_node _ _ _ _ Hw Ho) as [Hpos _]. rewrite (proj2 (Z.eqb_neq _ _)) by lia. go.
    by apply (returns_gain _ o s1). }
  intros [[] w2] Hw2. go. unfold cas_spec. fold s1.
  destruct Hold as [->|(o&Ho&Hb)]; go; [by rewrite weaken_none by (by eapply live_null)|].
  destruct (counts_is_node _ _ _ _ Hw Ho) as [Hpos _]. rewrite (proj2 (Z.eqb_neq _ _)) by lia. go.
  assert (∃ o', rs_live (gain ref s1) !! old = Some o' ∧ 1 ≤ ob_count o' < 2 ^ 32) as (o'&Ho'&Hb').
  { destruct (decide (ref = old)) as [->|Hne].
    - rewrite (gain_live old o) by done. simpl. rewrite lookup_insert_eq. eexists. split; [done|]. simpl. lia.
    - exists o. split; [|lia]. simpl. by rewrite lookup_alter_ne. }
  eapply returns_set_cnode; [by eapply counts_node|]. go. split; [done|]. rewrite (weaken_live old o') by done.
  unfold with_count. cbn [cn_ptr cn_priv cn_count cn_updating live_node]. rewrite u32_small by lia.
  by apply (counts_count old o' (ob_count o' - 1) (gain ref s1) w2).
Qed.

(** ** Nodes *)

Definition create_spec (n ptr priv : Z) (s : refs) : refs := put_live (<[n := mk_object ptr priv 1]> (rs_live s)) s.

Lemma new_node_ok ptr priv s w :
  counts s w →
  returns (new_node ptr priv w) (λ '(n, w'), is_node n ∧ rs_live s !! n = None ∧ n ∉ (rs_waiting s).*1 ∧
    counts (create_spec n ptr priv s) w').
Proof.
  intros (size&pool&nw&nr&pw&pr&Hc&Hq&Hp&Hst&Hli&Hte&Hgi&Hal). unfold new_node. go.
  eapply returns_load_refcnt; [exact Hc|]. go. apply returns_on_node_pool.
  eapply returns_mono; [exact (pq_read_ok _ _ _ _ _ _ Hp)|]. intros [v q] [Hg Hv]. split; [done|]. go.
  destruct pool as [|n pool].
  - destruct Hv as [-> Hq']. cbn [Z.eqb]. go.
    apply (returns_mono _ (λ '(n, w'), n = cw_new w ∧ ∃ a, false ∉ a ∧ w' = mk_cworld (cw_refcnt w) (cw_free_list w) q
      (<[n := mk_cnode 0 0 0 0]> (cw_nodes w)) (cw_links w) (n + 4) a (cw_terminated w) (cw_given w))).
    { unfold calloc_cnode. simpl. destruct (cw_alloc w) as [|b a] eqn:Ea; [apply returns_Ret; by eauto|].
      apply not_elem_of_cons in Hal as [Hb Ha]. destruct b; [apply returns_Ret; by eauto|done]. }
    intros [n w1] (->&a&Ha&->). destruct (st_new _ _ _ _ Hst) as [Hx0 Hx2]. go. rewrite (proj2 (Z.eqb_neq _ 0)) by lia. go.
    eapply returns_set_cnode; [apply lookup_insert_eq|]. go. simpl. rewrite insert_insert_eq.
    assert (Hfresh : ∀ m, is_Some (cw_nodes w !! m) → m ≠ cw_new w).
    { intros m Hm ->. destruct (st_nodes _ _ _ _ Hst _ Hm). lia. }
    assert (Hnl : rs_live s !! cw_new w = None).
    { destruct (rs_live s !! cw_new w) as [o|] eqn:Eo; [|done]. destruct (Hfresh (cw_new w)); [|done].
      eapply st_dom; [exact Hst|]. left. by eexists. }
    assert (Hnw : cw_new w ∉ (rs_waiting s).*1 ++ []).
    { intros Hm. destruct (Hfresh (cw_new w)); [|done]. eapply st_dom; [exact Hst|]. by right. }
    split; [done|]. split; [done|]. split; [by rewrite app_nil_r in Hnw|].
    exists size, [], nw, nr, pw, pr. simpl. split; [done|]. split; [done|]. split; [done|]. split; [|done].
    eapply (stored_created (cw_new w) (mk_object ptr priv 1) s []); try done.
    + by apply st_nodup in Hst.
    + intros m. rewrite lookup_insert_is_Some', (st_dom _ _ _ _ Hst). naive_solver.
    + lia.
    + lia.
    + split; [lia|]. by rewrite <- Z.add_mod_idemp_l, Hx2.
  - destruct Hv as [-> Hq'].
    assert (Hin : n ∈ (rs_waiting s).*1 ++ n :: pool) by (apply elem_of_app; right; left).
    assert (Hdom : is_Some (cw_nodes w !! n)) by (eapply st_dom; [exact Hst|]; by right).
    destruct (st_nodes _ _ _ _ Hst _ Hdom) as [Hn Hlt]. destruct Hdom as [x Hx]. pose proof Hn as [Hn0 Hn2].
    rewrite (proj2 (Z.eqb_neq _ 0)) by lia. go. rewrite (proj2 (Z.eqb_neq _ 0)) by lia. go.
    eapply returns_set_cnode; [exact Hx|]. go. simpl.
    pose proof (st_nodup _ _ _ _ Hst) as Hnd. rewrite <- Permutation_middle in Hnd. apply NoDup_cons in Hnd as [Hnw Hnd].
    assert (rs_live s !! n = None) by (by eapply st_apart).
    split; [done|]. split; [done|]. split; [set_solver|].
    exists size, pool, nw, nr, pw, (u64 (pr + 1)). simpl. split; [done|]. split; [done|]. split; [done|]. split; [|done].
    eapply (stored_created n (mk_object ptr priv 1) s (n :: pool)); try done.
    + set_solver.
    + intros m. rewrite lookup_insert_is_Some', (st_dom _ _ _ _ Hst). set_solver.
    + by apply st_new in Hst.
Qed.

Lemma get_node_ptr_ok n o s w : counts s w → rs_live s !! n = Some o → get_node_ptr n w = Ret (ob_ptr o, w).
Proof.
  intros Hw Ho. apply returns_exact. unfold get_node_ptr. destruct (counts_is_node _ _ _ _ Hw Ho) as [Hn _].
  rewrite (proj2 (Z.eqb_neq _ 0)) by lia. go. by eapply returns_load_cnode; [by eapply counts_node|].
Qed.
Lemma get_node_refcount_ok n o s w :
  counts s w → rs_live s !! n = Some o → get_node_refcount n w = Ret (as_int (ob_count o), w).
Proof.
  intros Hw Ho. apply returns_exact. unfold get_node_refcount. go. by eapply returns_load_cnode; [by eapply counts_node|].
Qed.

(** ** Creation and destruction *)

(** No counters yet, and memory for some. *)
Definition no_counts (w : cworld Q) : Prop :=
  pq_fresh (cw_free_list w) ∧ pq_fresh (cw_node_pool w) ∧ cw_nodes w = ∅ ∧ is_node (cw_new w) ∧ false ∉ cw_alloc w.

(** The thresholds whose free list is large enough. *)
Definition good_threshold : Prop := 0 ≤ threshold ∧ threshold + threshold / 2 ≤ INT_MAX.

Lemma free_list_size_ok : good_threshold → threshold < free_list_size threshold ∧ 256 ≤ free_list_size threshold < 2 ^ 32.
Proof.
  unfold INT_MAX, free_list_size, good_threshold. change FREE_LIST_MIN_SIZE with 256. intros [Hpos Hmax].
  unfold INT_MAX in Hmax. pose proof (Z.div_pos threshold 2). rewrite as_int_u32 by (unfold INT_MIN, INT_MAX in *; lia).
  pose proof (Z.div_mod threshold 2). pose proof (Z.mod_pos_bound threshold 2).
  destruct (Z.ltb_spec (threshold + threshold / 2) 256); lia.
Qed.

Lemma refcnt_create_ok w :
  no_counts w → good_threshold →
  returns (refcnt_create threshold tcb fcb w) (λ '(ok, w'), ok = true ∧
    counts (mk_refs ∅ [] (cw_links w) (cw_terminated w) (cw_given w)) w').
Proof.
  intros (Hq&Hp&HN&Hx&Ha) Ht. destruct (free_list_size_ok Ht) as (Hlt&Hs). unfold refcnt_create. go.
  apply (returns_mono _ (λ '(ok, w'), ok = true ∧ ∃ a, false ∉ a ∧ w' = mk_cworld (cw_refcnt w) (cw_free_list w) (cw_node_pool w)
    (cw_nodes w) (cw_links w) (cw_new w) a (cw_terminated w) (cw_given w))).
  { unfold calloc_refcnt. destruct (cw_alloc w) as [|b a] eqn:Ea.
    - apply returns_Ret. split; [done|]. exists []. split; [done|]. destruct w; simpl in *. by rewrite Ea.
    - apply not_elem_of_cons in Ha as [Hb Ha]. destruct b; [apply returns_Ret; by eauto|done]. }
  intros [ok w1] (->&a&Ha'&->). go. apply returns_on_free_list. simpl cw_free_list.
  eapply returns_mono; [apply (pq_create_ok _ _ Hq); lia|]. intros [ok q] (->&Hq1&_). go.
  apply returns_on_node_pool. simpl cw_node_pool.
  eapply returns_mono; [apply (pq_create_ok NODE_POOL_SIZE _ Hp); done|]. intros [ok p] (->&Hp1&Hg). split; [done|]. go.
  apply returns_on_node_pool. simpl cw_node_pool.
  eapply returns_mono; [exact (pq_set_free_value_callback_ok true _ _ _ _ _ _ Hp1)|]. intros [[] p2] [Hp2 Hg2]. split; [done|]. go.
  split; [done|]. exists (free_list_size threshold), [], 0, 0, 0, 0. simpl. destruct Ht as [Hpos _].
  split; [done|]. split; [split; [done|]; split; [done|lia]|]. split; [done|]. split; [|done]. rewrite HN. split; simpl; try done.
  - apply NoDup_nil_2.
  - intros n. rewrite !lookup_empty. split; [by intros []|]. intros [[]|Hn]; [done|]. by apply not_elem_of_nil in Hn.
  - by intros n p' ?%not_elem_of_nil.
  - intros n. rewrite lookup_empty. by intros [].
Qed.

Lemma free_cnodes_ok ps (w : cworld Q) :
  NoDup ps → (∀ p, p ∈ ps → is_Some (cw_nodes w !! p)) →
  returns (free_cnodes ps w) (λ '(_, w'), ∃ N', w' = put_cnodes N' w ∧
    ∀ p, N' !! p = if decide (p ∈ ps) then None else cw_nodes w !! p).
Proof.
  revert w. induction ps as [|p ps IH]; intros w Hnd Hps; simpl.
  - apply returns_mret. exists (cw_nodes w). split; [by destruct w|]. done.
  - apply NoDup_cons in Hnd as [Hp Hnd]. destruct (Hps p) as [x Hx]; [left|]. go. eapply returns_free_cnode; [exact Hx|].
    eapply returns_mono; [apply IH; [done|]|].
    + intros m Hm. simpl. rewrite lookup_delete_ne by (by intros <-). apply Hps. by right.
    + intros [[] w'] (N'&->&HN'). exists N'. split; [done|]. intros m. rewrite HN'. simpl.
      destruct (decide (m = p)) as [->|Hne].
      * rewrite lookup_delete_eq, (decide_True (P := p ∈ p :: ps)) by left. by case_decide.
      * rewrite lookup_delete_ne by done. apply decide_ext. rewrite elem_of_cons. naive_solver.
Qed.

Lemma refcnt_destroy_ok s w :
  counts s w →
  returns (refcnt_destroy w) (λ '(_, w'), cw_refcnt w' = CDangling ∧ cw_nodes w' = live_node <$> rs_live s ∧
    cw_links w' = rs_links s ∧ cw_terminated w' = rs_terminated s ∧
    cw_given w' = rs_given s ++ if fcb then (rs_waiting s).*2 else []).
Proof.
  intros Hw. unfold refcnt_destroy. go. eapply returns_mono; [by apply (gc_ok true s)|]. intros [[] w1] Hw1. go.
  destruct Hw1 as (size&pool&nw&nr&pw&pr&Hc&(Hq&Hnw&Ht&Hs)&Hp&Hst&Hli&Hte&Hgi&Hal).
  unfold gc_spec in *. rewrite Z.sub_0_r, Nat2Z.id, drop_all in *. rewrite firstn_all in Hgi. simpl in *.
  apply returns_on_free_list. eapply returns_mono; [apply (pq_destroy_ok _ _ _ _ _ _ Hq); lia|]. intros [[] q] _. go.
  unfold on_node_pool at 1. go. apply returns_bind, returns_bind. simpl cw_node_pool.
  eapply returns_mono; [by apply (pq_destroy_ok _ _ _ _ _ _ Hp)|]. intros [[] p] Hg. go. simpl. rewrite Hg, drop_app_length.
  go. destruct Hst as [Hnd Hap Hdom Hlive _ _ _]. simpl in *.
  eapply returns_mono; [apply free_cnodes_ok; [done|]|].
  { intros m Hm. simpl. apply Hdom. by right. }
  intros [[] w'] (N'&->&HN'). go. simpl. split; [done|]. split; [|done]. apply map_eq. intros m. rewrite HN', lookup_fmap. simpl.
  case_decide as Hm; [by rewrite Hap|]. destruct (rs_live s !! m) as [o|] eqn:Ho; [by rewrite (Hlive _ _ Ho)|].
  destruct (cw_nodes w1 !! m) as [x|] eqn:Ex; [|done]. exfalso.
  assert (is_Some (cw_nodes w1 !! m)) as Hd by (by eexists). apply Hdom in Hd. rewrite Ho in Hd. destruct Hd as [[]|?]; done.
Qed.
End ops.
