(* ===== verification/RefcntSpec.v ===== *)
(** * Reference counters count references

    A client of src/src/refcnt.c with registers, which own the references that
    the functions return, and links.  What it sees is a collection of objects
    that are terminated when no register and no link refers to them, and whose
    pointers are then freed, some of them later. *)

From S2P Require Import Prelude Rqueue RqueueRing RqueueOps RqueueSpec PtrQueue Refcnt RefcntOps.

(** ** Counting references *)

Abbreviation target v := (REFCNT_MARK_OFF v).
(** How many of the places refer to [n]. *)
Definition occ (m : gmap Z Z) (n : Z) : Z := Z.of_nat (size (filter (λ kv, target kv.2 = n) m)).

Lemma occ_insert_new m k v n : m !! k = None → occ (<[k := v]> m) n = occ m n + Z.b2z (target v =? n).
Proof.
  intros Hk. unfold occ. destruct (Z.eqb_spec (target v) n) as [Hv|Hv]; cbn [Z.b2z].
  - rewrite map_filter_insert_True by done. rewrite map_size_insert_None; [lia|].
    apply map_lookup_filter_None. by left.
  - rewrite map_filter_insert_False by done. rewrite delete_id by done. lia.
Qed.
Lemma occ_insert m k old v n :
  m !! k = Some old → occ (<[k := v]> m) n = occ m n - Z.b2z (target old =? n) + Z.b2z (target v =? n).
Proof.
  intros Hk. rewrite <- (insert_delete_id m k old Hk) at 2. rewrite <- insert_delete_eq.
  rewrite !occ_insert_new by apply lookup_delete_eq. lia.
Qed.
Lemma occ_pos m k v : m !! k = Some v → 0 < occ m (target v).
Proof.
  intros Hk. rewrite <- (insert_delete_id m k v Hk), occ_insert_new by apply lookup_delete_eq.
  rewrite Z.eqb_refl. unfold occ. simpl. lia.
Qed.
Lemma occ_bound m n : 0 ≤ occ m n ≤ Z.of_nat (size m).
Proof.
  unfold occ. split; [lia|]. apply Nat2Z.inj_le. apply map_subseteq_size. apply map_filter_subseteq.
Qed.

(** ** The specification *)

(** The registers and links of a client, and its objects: those in use with
    their pointers and private data, those that wait for the collector, and
    the calls of the callbacks. *)
Record client := mk_client {
  cl_regs : gmap Z Z; cl_links : gmap Z Z; cl_live : gmap Z (Z * Z); cl_waiting : list (Z * Z);
  cl_terminated : list (Z * Z); cl_given : list Z
}.
Definition put_regs (m : gmap Z Z) (c : client) : client :=
  mk_client m (cl_links c) (cl_live c) (cl_waiting c) (cl_terminated c) (cl_given c).
Definition put_clinks (m : gmap Z Z) (c : client) : client :=
  mk_client (cl_regs c) m (cl_live c) (cl_waiting c) (cl_terminated c) (cl_given c).

Definition refcount (c : client) (n : Z) : Z := occ (cl_regs c) n + occ (cl_links c) n.

(** [CNew] stores a new reference into an empty register, [CDeref] and
    [CDerefMarked] one that a link holds, and [CRetain] one that another
    register has. *)
Inductive cop := CNew (k ptr priv : Z) | CDeref (k l : Z) | CDerefMarked (k l : Z) | CRetain (k j : Z) | CRelease (k : Z)
  | CStore (l k : Z) | CSwap (l j k : Z) | CMark (l : Z) | CPtr (k : Z) | CCount (k : Z).

Section spec.
Context (threshold : Z) (tcb fcb : bool).

Definition collect_client (c : client) : client :=
  let W := cl_waiting c in
  if threshold <? Z.of_nat (length W) then
    let n := Z.to_nat (Z.of_nat (length W) - threshold / 2) in
    mk_client (cl_regs c) (cl_links c) (cl_live c) (drop n W) (cl_terminated c)
      (cl_given c ++ if fcb then (take n W).*2 else [])
  else c.
(** [n] has lost a reference: was it the last one? *)
Definition settle (n : Z) (c : client) : client :=
  match cl_live c !! n with
  | Some (ptr, priv) =>
      if refcount c n =? 0 then
        collect_client (mk_client (cl_regs c) (cl_links c) (delete n (cl_live c)) (cl_waiting c ++ [(n, ptr)])
          (cl_terminated c ++ if tcb then [(n, priv)] else []) (cl_given c))
      else c
  | None => c
  end.

(** [n] is the address of a new object.  An operation whose register is not
    empty, or is, as it should not be, is not run: -1. *)
Definition cop_spec (n : Z) (o : cop) (c : client) : client * Z :=
  let regs := cl_regs c in let links := cl_links c in
  match o with
  | CNew k ptr priv =>
      if decide (regs !! k = Some 0) then
        (mk_client (<[k := n]> regs) links (<[n := (ptr, priv)]> (cl_live c)) (cl_waiting c) (cl_terminated c) (cl_given c), n)
      else (c, -1)
  | CDeref k l =>
      match links !! l with
      | Some v =>
          if decide (regs !! k = Some 0) then
            let r := if v mod 2 =? 1 then 0 else v in (put_regs (<[k := r]> regs) c, r)
          else (c, -1)
      | None => (c, -1)
      end
  | CDerefMarked k l =>
      match links !! l with
      | Some v => if decide (regs !! k = Some 0) then (put_regs (<[k := target v]> regs) c, target v) else (c, -1)
      | None => (c, -1)
      end
  | CRetain k j =>
      let v := default 0 (regs !! j) in
      if decide (regs !! k = Some 0) then (put_regs (<[k := v]> regs) c, v) else (c, -1)
  | CRelease k =>
      let v := default 0 (regs !! k) in
      if v =? 0 then (c, -1) else
      let c1 := put_regs (<[k := 0]> regs) c in
      (settle v c1, if refcount c1 v =? 0 then 0 else v)
  | CStore l k =>
      match links !! l with
      | Some old => (settle (target old) (put_clinks (<[l := default 0 (regs !! k)]> links) c), 0)
      | None => (c, -1)
      end
  | CSwap l j k =>
      match links !! l with
      | Some v =>
          if v =? default 0 (regs !! j) then (put_clinks (<[l := default 0 (regs !! k)]> links) c, 1) else (c, 0)
      | None => (c, -1)
      end
  | CMark l =>
      match links !! l with
      | Some v => if v =? 0 then (c, -1) else (put_clinks (<[l := REFCNT_MARK_ON v]> links) c, 0)
      | None => (c, -1)
      end
  | CPtr k => (c, fst (default (0, 0) (cl_live c !! default 0 (regs !! k))))
  | CCount k => let v := default 0 (regs !! k) in (c, if v =? 0 then -1 else refcount c v)
  end.

(** The address of a new object is not used. *)
Definition cop_fresh (n : Z) (o : cop) (c : client) : Prop :=
  match o with
  | CNew k _ _ => cl_regs c !! k = Some 0 → is_node n ∧ cl_live c !! n = None ∧ n ∉ (cl_waiting c).*1
  | _ => True
  end.
Inductive csteps : client → list cop → list Z → client → Prop :=
  | csteps_nil c : csteps c [] [] c
  | csteps_cons n o c r c1 os rs c2 :
      cop_fresh n o c → cop_spec n o c = (c1, r) → csteps c1 os rs c2 → csteps c (o :: os) (r :: rs) c2.
End spec.

(** ** The client of the code *)

Section client.
Context {Q : Type} `{PtrQueueLaws Q}.
Context (threshold : Z) (tcb fcb : bool).
Abbreviation C := (ST (cworld Q)).

(** The registers after an operation, and its result. *)
Definition run_cop (o : cop) (regs : gmap Z Z) : C (gmap Z Z * Z) :=
  let has_link l := gets (λ w : cworld Q, bool_decide (is_Some (cw_links w !! l))) in
  let reg k := default 0 (regs !! k) in
  let skip := mret (regs, -1) in
  match o with
  | CNew k ptr priv =>
      if decide (regs !! k = Some 0) then n ← new_node ptr priv; mret (<[k := n]> regs, n) else skip
  | CDeref k l =>
      b ← has_link l; if negb b then skip else
      if decide (regs !! k = Some 0) then n ← deref_link l; mret (<[k := n]> regs, n) else skip
  | CDerefMarked k l =>
      b ← has_link l; if negb b then skip else
      if decide (regs !! k = Some 0) then n ← deref_link_d l; mret (<[k := n]> regs, n) else skip
  | CRetain k j => if decide (regs !! k = Some 0) then n ← retain_ref (reg j); mret (<[k := n]> regs, n) else skip
  | CRelease k => if reg k =? 0 then skip else r ← release_ref (reg k); mret (<[k := 0]> regs, r)
  | CStore l k => b ← has_link l; if negb b then skip else _ ← store_ref l (reg k); mret (regs, 0)
  | CSwap l j k => b ← has_link l; if negb b then skip else r ← compare_and_swap_ref l (reg j) (reg k); mret (regs, r)
  | CMark l =>
      b ← has_link l; if negb b then skip else
      v ← load_link l; if v =? 0 then skip else _ ← store_link l (REFCNT_MARK_ON v); mret (regs, 0)
  | CPtr k => p ← get_node_ptr (reg k); mret (regs, p)
  | CCount k => if reg k =? 0 then skip else r ← get_node_refcount (reg k); mret (regs, r)
  end.
Fixpoint run_cops (os : list cop) (regs : gmap Z Z) : C (gmap Z Z * list Z) :=
  match os with
  | [] => mret (regs, [])
  | o :: os => '(regs, r) ← run_cop o regs; '(regs, rs) ← run_cops os regs; mret (regs, r :: rs)
  end.

(** ** Objects with their counts *)

Definition refs_with (f : Z → Z) (c : client) : refs :=
  mk_refs (map_imap (λ n x, Some (mk_object x.1 x.2 (f n))) (cl_live c)) (cl_waiting c) (cl_links c)
    (cl_terminated c) (cl_given c).
Definition refs_of (c : client) : refs := refs_with (refcount c) c.

Lemma lookup_refs_with f c n :
  rs_live (refs_with f c) !! n = (λ x, mk_object x.1 x.2 (f n)) <$> cl_live c !! n.
Proof. simpl. rewrite map_lookup_imap. by destruct (cl_live c !! n). Qed.
Lemma refs_eq s s' :
  (∀ n, rs_live s !! n = rs_live s' !! n) → put_live ∅ s = put_live ∅ s' → s = s'.
Proof.
  destruct s, s'. unfold put_live. simpl. intros Hl [= -> -> -> ->]. f_equal. by apply map_eq.
Qed.
Lemma refs_with_ext f g c : (∀ n, is_Some (cl_live c !! n) → f n = g n) → refs_with f c = refs_with g c.
Proof.
  intros Hfg. apply refs_eq; [|done]. intros n. rewrite !lookup_refs_with. destruct (cl_live c !! n) eqn:E; [|done].
  simpl. by rewrite Hfg.
Qed.
Lemma gain_refs_with n f c : gain n (refs_with f c) = refs_with (λ m, f m + Z.b2z (n =? m)) c.
Proof.
  apply refs_eq; [|done]. intros m. unfold gain. simpl rs_live at 1. rewrite lookup_alter.
  change (map_imap _ (cl_live c)) with (rs_live (refs_with f c)). rewrite !lookup_refs_with.
  destruct (Z.eqb_spec n m) as [->|Hne]; [rewrite decide_True by done|rewrite decide_False by done].
  - by destruct (cl_live c !! m).
  - cbn [Z.b2z]. by rewrite Z.add_0_r.
Qed.
Lemma weaken_refs_with n f c : weaken n (refs_with f c) = refs_with (λ m, f m - Z.b2z (n =? m)) c.
Proof.
  apply refs_eq; [|done]. intros m. unfold weaken. simpl rs_live at 1. rewrite lookup_alter.
  change (map_imap _ (cl_live c)) with (rs_live (refs_with f c)). rewrite !lookup_refs_with.
  destruct (Z.eqb_spec n m) as [->|Hne]; [rewrite decide_True by done|rewrite decide_False by done].
  - by destruct (cl_live c !! m).
  - cbn [Z.b2z]. by rewrite Z.sub_0_r.
Qed.

Lemma refcount_nonneg c n : 0 ≤ refcount c n.
Proof. unfold refcount. pose proof (occ_bound (cl_regs c) n). pose proof (occ_bound (cl_links c) n). lia. Qed.
Lemma refcount_put_reg c k old v n :
  cl_regs c !! k = Some old →
  refcount (put_regs (<[k := v]> (cl_regs c)) c) n = refcount c n - Z.b2z (target old =? n) + Z.b2z (target v =? n).
Proof. intros Hk. unfold refcount. simpl. rewrite (occ_insert _ k old) by done. lia. Qed.
Lemma refcount_put_link c l old v n :
  cl_links c !! l = Some old →
  refcount (put_clinks (<[l := v]> (cl_links c)) c) n = refcount c n - Z.b2z (target old =? n) + Z.b2z (target v =? n).
Proof. intros Hl. unfold refcount. simpl. rewrite (occ_insert _ l old) by done. lia. Qed.

Lemma refs_of_collect c : collect threshold fcb (refs_of c) = refs_of (collect_client threshold fcb c).
Proof. unfold collect, collect_client, gc_spec. simpl. by destruct (_ <? _). Qed.

(** Losing a reference that is no longer in a place. *)
Lemma lose_refs_with n c :
  lose threshold tcb fcb n (refs_with (λ m, refcount c m + Z.b2z (n =? m)) c) = refs_of (settle threshold tcb fcb n c).
Proof.
  unfold lose, settle. rewrite lookup_refs_with. destruct (cl_live c !! n) as [[ptr priv]|] eqn:En; simpl.
  - rewrite Z.eqb_refl. cbn [Z.b2z]. pose proof (refcount_nonneg c n) as Hn.
    destruct (Z.eqb_spec (refcount c n) 0) as [E|E].
    + rewrite (proj2 (Z.leb_le _ _)) by lia. rewrite <- refs_of_collect. f_equal. apply refs_eq; [|done]. intros m. unfold terminate.
      change (map_imap _ (cl_live c)) with (rs_live (refs_with (λ m, refcount c m + Z.b2z (n =? m)) c)).
      simpl rs_live at 1. unfold refs_of at 1. rewrite lookup_refs_with. simpl cl_live.
      destruct (decide (m = n)) as [->|Hne]; [by rewrite !lookup_delete_eq|]. rewrite !lookup_delete_ne by done.
      fold (rs_live (refs_with (λ m, refcount c m + Z.b2z (n =? m)) c)).
      rewrite map_lookup_imap. destruct (cl_live c !! m); [|done]. simpl. rewrite (proj2 (Z.eqb_neq n m)) by done.
      cbn [Z.b2z]. by rewrite Z.add_0_r.
    + rewrite (proj2 (Z.leb_gt _ _)) by lia. apply refs_eq; [|done]. intros m. simpl. rewrite lookup_insert, !map_lookup_imap.
      case_decide as Hm; [subst m; rewrite En; unfold put_count; simpl; do 2 f_equal; lia|].
      destruct (cl_live c !! m); [|done]. simpl. rewrite (proj2 (Z.eqb_neq n m)) by done. cbn [Z.b2z]. by rewrite Z.add_0_r.
  - apply refs_with_ext. intros m [x Hm]. rewrite (proj2 (Z.eqb_neq n m)) by congruence. cbn [Z.b2z]. lia.
Qed.

(** ** Well-formed clients *)

(** Every place refers to an object, and every object but [n] is referred
    to. *)
Record client_but (n : Z) (c : client) : Prop := {
  wf_reg : ∀ k v, cl_regs c !! k = Some v → v = 0 ∨ is_Some (cl_live c !! v);
  wf_link : ∀ l v, cl_links c !! l = Some v → v = 0 ∨ is_Some (cl_live c !! target v);
  wf_count : ∀ m, is_Some (cl_live c !! m) → m ≠ n → 0 < refcount c m;
  wf_small : Z.of_nat (size (cl_regs c) + size (cl_links c)) < INT_MAX;
  wf_calm : Z.of_nat (length (cl_waiting c)) ≤ threshold;
  wf_node : ∀ m, is_Some (cl_live c !! m) → is_node m
}.
(** The null pointer is not an object. *)
Definition client_wf : client → Prop := client_but 0.

Lemma but_wf n c : client_but n c → 0 < refcount c n ∨ n = 0 → client_wf c.
Proof.
  intros [Hr Hl Hc Hs Hca Hn] Hp. split; [done|done| |done|done|done]. intros m Hm Hm0. destruct (decide (m = n)) as [->|Hne]; [|by apply Hc].
  by destruct Hp.
Qed.
Lemma client_collect c :
  0 ≤ threshold → (∀ W, Z.of_nat (length W) ≤ threshold →
    client_wf (mk_client (cl_regs c) (cl_links c) (cl_live c) W (cl_terminated c) (cl_given c))) → client_wf (collect_client threshold fcb c).
Proof.
  intros Ht Hc. unfold collect_client. destruct (Z.ltb_spec threshold (Z.of_nat (length (cl_waiting c)))) as [Hlt|Hge].
  - set (W := drop _ _). destruct (Hc W) as [Hr Hl Hco Hs Hca Hn]; [|by split].
    unfold W. rewrite length_drop. pose proof (Z.div_le_upper_bound threshold 2 threshold). pose proof (Z.div_pos threshold 2). lia.
  - destruct (Hc (cl_waiting c)) as [Hr Hl Hco Hs Hca Hn]; [done|]. by split.
Qed.
Lemma occ_no m n k v : occ m n = 0 → m !! k = Some v → target v ≠ n.
Proof. intros Ho Hk <-. pose proof (occ_pos m k v Hk). lia. Qed.
Lemma client_settle n c : 0 ≤ threshold → client_but n c → client_wf (settle threshold tcb fcb n c).
Proof.
  intros Ht Hwf. unfold settle. destruct (cl_live c !! n) as [[ptr priv]|] eqn:En.
  - destruct (Z.eqb_spec (refcount c n) 0) as [E|E].
    + destruct Hwf as [Hr Hl Hc Hs Hca Hn]. pose proof (refcount_nonneg c n) as Hnn. unfold refcount in E.
      pose proof (occ_bound (cl_regs c) n). pose proof (occ_bound (cl_links c) n).
      apply client_collect; [done|]. intros W HW. simpl. split; simpl; try done.
      * intros k v Hk. destruct (Hr k v Hk) as [->|Hv]; [by left|]. right. rewrite lookup_delete_ne; [done|]. intros <-.
        destruct (occ_no (cl_regs c) n k n); [lia|done|]. apply mark_off_node, Hn. by eexists.
      * intros l v Hk. destruct (Hl l v Hk) as [->|Hv]; [by left|]. right. rewrite lookup_delete_ne; [done|]. intros Heq.
        by destruct (occ_no (cl_links c) n l v); [lia|..].
      * intros m Hm _. destruct (decide (m = n)) as [->|Hne]; [by rewrite lookup_delete_eq in Hm; destruct Hm|].
        rewrite lookup_delete_ne in Hm by done. by apply Hc.
      * intros m Hm. destruct (decide (m = n)) as [->|Hne]; [by rewrite lookup_delete_eq in Hm; destruct Hm|].
        rewrite lookup_delete_ne in Hm by done. by apply Hn.
    + apply (but_wf n); [done|]. left. pose proof (refcount_nonneg c n). lia.
  - destruct Hwf as [Hr Hl Hc Hs Hca Hn]. split; try done. intros m Hm _. apply Hc; [done|]. intros ->. rewrite En in Hm. by destruct Hm.
Qed.

(** ** Changing a place *)

Lemma wf_target c v : client_wf c → v = 0 ∨ is_Some (cl_live c !! v) → target v = v.
Proof. intros Hwf [->|Hv]; [done|]. apply mark_off_node. by eapply wf_node. Qed.
Lemma wf_reg_target c k v : client_wf c → cl_regs c !! k = Some v → target v = v.
Proof. intros Hwf Hk. apply (wf_target c v Hwf). by eapply wf_reg. Qed.

Lemma wf_put_reg k old v c :
  client_wf c → cl_regs c !! k = Some old → v = 0 ∨ is_Some (cl_live c !! v) →
  client_but old (put_regs (<[k := v]> (cl_regs c)) c).
Proof.
  intros Hwf Hk Hv. pose proof (wf_reg_target c k old Hwf Hk) as Hold. destruct Hwf as [Hr Hl Hc Hs Hca Hn]. split; simpl; try done.
  - intros j u Hj. destruct (decide (j = k)) as [->|Hne].
    + rewrite lookup_insert_eq in Hj. by injection Hj as <-.
    + rewrite lookup_insert_ne in Hj by done. by eapply Hr.
  - intros m Hm Hne. rewrite (refcount_put_reg c k old) by done. rewrite Hold, (proj2 (Z.eqb_neq old m)) by done. cbn [Z.b2z].
    destruct (decide (m = 0)) as [->|Hm0]; [by destruct (Hn 0 Hm)|]. specialize (Hc m Hm Hm0).
    pose proof (Z.b2z_bit0 (target v =? m)). destruct (target v =? m); cbn [Z.b2z]; lia.
  - by rewrite map_size_insert_Some by (by eexists).
Qed.
Lemma wf_put_link l old v c :
  client_wf c → cl_links c !! l = Some old → v = 0 ∨ is_Some (cl_live c !! target v) →
  client_but (target old) (put_clinks (<[l := v]> (cl_links c)) c).
Proof.
  intros [Hr Hl Hc Hs Hca Hn] Hk Hv. split; simpl; try done.
  - intros j u Hj. destruct (decide (j = l)) as [->|Hne].
    + rewrite lookup_insert_eq in Hj. by injection Hj as <-.
    + rewrite lookup_insert_ne in Hj by done. by eapply Hl.
  - intros m Hm Hne. rewrite (refcount_put_link c l old) by done. rewrite (proj2 (Z.eqb_neq (target old) m)) by done. cbn [Z.b2z].
    destruct (decide (m = 0)) as [->|Hm0]; [by destruct (Hn 0 Hm)|]. specialize (Hc m Hm Hm0).
    destruct (target v =? m); cbn [Z.b2z]; lia.
  - by rewrite map_size_insert_Some by (by eexists).
Qed.
Lemma wf_fill_reg k v c :
  client_wf c → cl_regs c !! k = Some 0 → v = 0 ∨ is_Some (cl_live c !! v) → client_wf (put_regs (<[k := v]> (cl_regs c)) c).
Proof. intros Hwf Hk Hv. by apply (wf_put_reg k 0 v c). Qed.

Lemma wf_new k n ptr priv c :
  client_wf c → cl_regs c !! k = Some 0 → is_node n → cl_live c !! n = None →
  client_wf (mk_client (<[k := n]> (cl_regs c)) (cl_links c) (<[n := (ptr, priv)]> (cl_live c)) (cl_waiting c) (cl_terminated c) (cl_given c)).
Proof.
  intros [Hr Hl Hc Hs Hca Hn] Hk Hnode Hnl. split; simpl; try done.
  - intros j u Hj. destruct (decide (j = k)) as [->|Hne].
    + rewrite lookup_insert_eq in Hj. injection Hj as <-. right. by rewrite lookup_insert_eq.
    + rewrite lookup_insert_ne in Hj by done. destruct (Hr j u Hj) as [->|Hu]; [by left|]. right.
      rewrite lookup_insert_is_Some'. by right.
  - intros l u Hj. destruct (Hl l u Hj) as [->|Hu]; [by left|]. right. rewrite lookup_insert_is_Some'. by right.
  - intros m Hm Hm0. unfold refcount. simpl. rewrite (occ_insert _ k 0) by done. change (target 0) with 0.
    rewrite (proj2 (Z.eqb_neq 0 m)) by done. cbn [Z.b2z]. rewrite (mark_off_node n Hnode).
    destruct (Z.eqb_spec n m) as [->|Hne]; cbn [Z.b2z].
    + pose proof (occ_bound (cl_regs c) m). pose proof (occ_bound (cl_links c) m). lia.
    + rewrite lookup_insert_ne in Hm by done. specialize (Hc m Hm Hm0). unfold refcount in Hc. lia.
  - by rewrite map_size_insert_Some by (by eexists).
  - intros m. rewrite lookup_insert_is_Some'. intros [<-|Hm]; [done|by apply Hn].
Qed.

Lemma refcount_bound c n : client_wf c → refcount c n < INT_MAX.
Proof.
  intros Hwf. pose proof (wf_small _ _ Hwf). unfold refcount. pose proof (occ_bound (cl_regs c) n).
  pose proof (occ_bound (cl_links c) n). lia.
Qed.
Lemma refs_of_live c n x : cl_live c !! n = Some x → rs_live (refs_of c) !! n = Some (mk_object x.1 x.2 (refcount c n)).
Proof. intros Hn. unfold refs_of. by rewrite lookup_refs_with, Hn. Qed.
Lemma refs_of_live_inv c n o : rs_live (refs_of c) !! n = Some o → is_Some (cl_live c !! n) ∧ ob_count o = refcount c n.
Proof.
  unfold refs_of. rewrite lookup_refs_with. destruct (cl_live c !! n); [|done]. simpl. intros [= <-]. split; [by eexists|done].
Qed.
Lemma refs_of_none c n : rs_live (refs_of c) !! n = None → cl_live c !! n = None.
Proof. unfold refs_of. rewrite lookup_refs_with. by destruct (cl_live c !! n). Qed.
Lemma wf_ref_to c v : client_wf c → v = 0 ∨ is_Some (cl_live c !! v) → ref_to (refs_of c) v.
Proof.
  intros Hwf [->|[x Hx]]; [by left|right]. rewrite (refs_of_live c v x Hx). eexists. split; [done|]. simpl.
  pose proof (refcount_nonneg c v). pose proof (refcount_bound c v Hwf). unfold INT_MAX in *. lia.
Qed.

(** A reference is put into an empty register. *)
Lemma gain_reg k n c :
  client_wf c → cl_regs c !! k = Some 0 → n = 0 ∨ is_Some (cl_live c !! n) →
  gain n (refs_of c) = refs_of (put_regs (<[k := n]> (cl_regs c)) c).
Proof.
  intros Hwf Hk Hn. unfold refs_of. rewrite gain_refs_with. transitivity (refs_with (λ m, refcount c m + Z.b2z (n =? m)) (put_regs (<[k := n]> (cl_regs c)) c)); [done|].
  apply refs_with_ext. simpl. intros m Hm. rewrite (refcount_put_reg c k 0) by done. rewrite (wf_target c n Hwf Hn).
  destruct (wf_node _ _ Hwf m Hm) as [Hm0 _]. change (target 0) with 0. rewrite (proj2 (Z.eqb_neq 0 m)) by lia. cbn [Z.b2z]. lia.
Qed.

(** ** Every operation *)

Definition stands (c : client) (w : cworld Q) : Prop := client_wf c ∧ counts threshold tcb fcb (refs_of c) w.
(** What a step leaves: the registers [regs'], the result and the world of the
    specification. *)
Definition step_ok (o : cop) (c : client) (regs' : gmap Z Z) (r : Z) (w' : cworld Q) : Prop := ∃ n,
  cop_fresh n o c ∧ let '(c', r') := cop_spec threshold tcb fcb n o c in
  regs' = cl_regs c' ∧ r = r' ∧ stands c' w'.

(** An operation that is not run, and one without a new object. *)
Lemma step_skip o c w : stands c w → cop_spec threshold tcb fcb 2 o c = (c, -1) → cop_fresh 2 o c → step_ok o c (cl_regs c) (-1) w.
Proof. intros Hw Ho Hf. exists 2. by rewrite Ho. Qed.
Lemma step_is o c c' regs r w :
  cop_fresh 2 o c → cop_spec threshold tcb fcb 2 o c = (c', r) → stands c' w → regs = cl_regs c' → step_ok o c regs r w.
Proof. intros Hf Ho Hw ->. exists 2. by rewrite Ho. Qed.

Lemma stands_links c w : stands c w → cw_links w = cl_links c.
Proof. by intros [_ (size&pool&nw&nr&pw&pr&_&_&_&_&Hli&_)]. Qed.
Lemma stands_threshold c w : stands c w → 0 ≤ threshold.
Proof. intros [_ (size&pool&nw&nr&pw&pr&_&(_&_&Ht&_)&_)]. lia. Qed.

Lemma occ_zero m n : (∀ k v, m !! k = Some v → target v ≠ n) → occ m n = 0.
Proof.
  intros Hm. unfold occ. rewrite map_empty_filter_2; [done|]. intros k v Hk. by apply (Hm k v).
Qed.
Lemma refcount_dead c n : client_wf c → n ≠ 0 → cl_live c !! n = None → refcount c n = 0.
Proof.
  intros Hwf Hn Hnl. unfold refcount. rewrite !occ_zero; [done| |].
  - intros l v Hl E. destruct (wf_link _ _ Hwf l v Hl) as [->|Hv]; [by apply Hn|]. rewrite E, Hnl in Hv. by destruct Hv.
  - intros k v Hk E. rewrite (wf_reg_target c k) in E by done. subst v.
    destruct (wf_reg _ _ Hwf k n Hk) as [?|Hv]; [done|]. rewrite Hnl in Hv. by destruct Hv.
Qed.

Lemma create_refs_of k n ptr priv c :
  client_wf c → cl_regs c !! k = Some 0 → is_node n → cl_live c !! n = None →
  create_spec n ptr priv (refs_of c) = refs_of (mk_client (<[k := n]> (cl_regs c)) (cl_links c)
    (<[n := (ptr, priv)]> (cl_live c)) (cl_waiting c) (cl_terminated c) (cl_given c)).
Proof.
  intros Hwf Hk Hn Hnl. set (c' := mk_client _ _ _ _ _ _). destruct (Hn) as [Hn0 _].
  assert (Hcount : ∀ m, refcount c' m = refcount c m - Z.b2z (0 =? m) + Z.b2z (n =? m)).
  { intros m. unfold refcount, c'. cbn [cl_regs cl_links]. rewrite (occ_insert _ k 0) by done. rewrite (mark_off_node n) by done. change (target 0) with 0. lia. }
  apply refs_eq; [|done]. intros m. unfold create_spec.
  change (<[n := mk_object ptr priv 1]> (rs_live (refs_of c)) !! m = rs_live (refs_of c') !! m).
  unfold refs_of. rewrite lookup_insert, !lookup_refs_with. simpl cl_live. rewrite lookup_insert. case_decide as Hm.
  - subst m. simpl. do 2 f_equal. rewrite Hcount, (refcount_dead c n) by (done || lia).
    by rewrite Z.eqb_refl, (proj2 (Z.eqb_neq 0 n)) by lia.
  - destruct (cl_live c !! m) as [x|] eqn:Em; [|done]. simpl. do 2 f_equal. rewrite Hcount.
    destruct (wf_node _ _ Hwf m) as [Hm0 _]; [by eexists|].
    rewrite (proj2 (Z.eqb_neq 0 m)), (proj2 (Z.eqb_neq n m)) by (done || lia). cbn [Z.b2z]. lia.
Qed.

Definition cop_ok (o : cop) : Prop := ∀ c w, stands c w →
  returns (run_cop o (cl_regs c) w) (λ '((regs', r), w'), step_ok o c regs' r w').

Lemma new_ok k ptr priv : cop_ok (CNew k ptr priv).
Proof.
  intros c w Hw. simpl. case_decide as Hk; go.
  - destruct Hw as [Hwf Hw]. eapply returns_mono; [by apply (new_node_ok threshold tcb fcb ptr priv (refs_of c))|].
    intros [n w1] (Hn&Hnl&Hnw&Hw1). apply refs_of_none in Hnl. go. exists n. split; [done|]. simpl. rewrite decide_True by done.
    split; [done|]. split; [done|]. split; [by apply wf_new|]. by rewrite <- create_refs_of.
  - apply step_skip; [done|simpl; by rewrite decide_False|done].
Qed.

(** A reference that is put into an empty register. *)
Lemma returns_fill (m : C Z) k v c w :
  stands c w → cl_regs c !! k = Some 0 → v = 0 ∨ is_Some (cl_live c !! v) →
  returns (m w) (λ '(n, w'), n = v ∧ counts threshold tcb fcb (gain v (refs_of c)) w') →
  returns (m w) (λ '(n, w'), n = v ∧ stands (put_regs (<[k := v]> (cl_regs c)) c) w').
Proof.
  intros [Hwf Hw] Hk Hv Hm. eapply returns_mono; [exact Hm|]. intros [n w'] [-> Hw']. split; [done|].
  split; [by apply wf_fill_reg|]. by rewrite <- gain_reg.
Qed.

Lemma deref_result v : (if (v mod 2 =? 1) && true then 0 else target v) = if v mod 2 =? 1 then 0 else v.
Proof. rewrite andb_true_r, mark_off_eq. pose proof (Z.mod_pos_bound v 2). destruct (Z.eqb_spec (v mod 2) 1); lia. Qed.

Lemma link_live c l v : client_wf c → cl_links c !! l = Some v → target v = 0 ∨ is_Some (cl_live c !! target v).
Proof. intros Hwf Hl. destruct (wf_link _ _ Hwf l v Hl) as [->|Hv]; [by left|by right]. Qed.

Lemma deref_ok k l : cop_ok (CDeref k l).
Proof.
  intros c w Hw. simpl. go. rewrite (stands_links c w Hw). destruct (cl_links c !! l) as [v|] eqn:El.
  - rewrite bool_decide_true by (by eexists). cbn [negb]. case_decide as Hk; go.
    + pose proof Hw as [Hwf Hcw]. pose proof (link_live c l v Hwf El) as Hv.
      set (r := if v mod 2 =? 1 then 0 else v).
      assert (Hr : r = 0 ∨ is_Some (cl_live c !! r)).
      { unfold r. rewrite <- deref_result. destruct (_ && _); [by left|done]. }
      eapply returns_mono; [apply (returns_fill _ k r c); [done|done|done|]|].
      * unfold r. rewrite <- deref_result. eapply deref_link_internal_ok; [done|done|]. by apply wf_ref_to.
      * intros [n w'] [-> Hw']. go. apply (step_is (CDeref k l) c (put_regs (<[k := r]> (cl_regs c)) c)); [done| |done|done].
        simpl. by rewrite El, decide_True.
    + apply step_skip; [done|simpl; by rewrite El, decide_False|done].
  - rewrite bool_decide_false by (by intros []). go. apply step_skip; [done|simpl; by rewrite El|done].
Qed.
Lemma deref_marked_ok k l : cop_ok (CDerefMarked k l).
Proof.
  intros c w Hw. simpl. go. rewrite (stands_links c w Hw). destruct (cl_links c !! l) as [v|] eqn:El.
  - rewrite bool_decide_true by (by eexists). cbn [negb]. case_decide as Hk; go.
    + pose proof Hw as [Hwf Hcw]. pose proof (link_live c l v Hwf El) as Hv.
      eapply returns_mono; [apply (returns_fill _ k (target v) c); [done|done|done|]|].
      * eapply returns_mono; [eapply (deref_link_internal_ok threshold tcb fcb l v false); [done|done|by apply wf_ref_to]|].
        intros [n w']. by rewrite andb_false_r.
      * intros [n w'] [-> Hw']. go. apply (step_is (CDerefMarked k l) c (put_regs (<[k := target v]> (cl_regs c)) c)); [done| |done|done].
        simpl. by rewrite El, decide_True.
    + apply step_skip; [done|simpl; by rewrite El, decide_False|done].
  - rewrite bool_decide_false by (by intros []). go. apply step_skip; [done|simpl; by rewrite El|done].
Qed.
Lemma reg_live c k : client_wf c → default 0 (cl_regs c !! k) = 0 ∨ is_Some (cl_live c !! default 0 (cl_regs c !! k)).
Proof. intros Hwf. destruct (cl_regs c !! k) as [v|] eqn:E; [by eapply wf_reg|by left]. Qed.
Lemma retain_ok k j : cop_ok (CRetain k j).
Proof.
  intros c w Hw. simpl. pose proof Hw as [Hwf Hcw]. pose proof (reg_live c j Hwf) as Hv. case_decide as Hk.
  - go. eapply returns_mono; [apply (returns_fill _ k (default 0 (cl_regs c !! j)) c); [done|done|done|]|].
    + apply retain_ref_ok; [done|by apply wf_ref_to].
    + intros [n w'] [-> Hw']. go. apply (step_is (CRetain k j) c (put_regs (<[k := default 0 (cl_regs c !! j)]> (cl_regs c)) c)); [done| |done|done].
      simpl. by rewrite decide_True.
  - go. apply step_skip; [done|simpl; by rewrite decide_False|done].
Qed.

(** An operation on a link. *)
Lemma on_link o l c w (m : C (gmap Z Z * Z)) :
  stands c w → cop_fresh 2 o c → (cl_links c !! l = None → cop_spec threshold tcb fcb 2 o c = (c, -1)) →
  (∀ v, cl_links c !! l = Some v → returns (m w) (λ '((regs', r), w'), step_ok o c regs' r w')) →
  returns ((b ← gets (λ w : cworld Q, bool_decide (is_Some (cw_links w !! l)));
            if negb b then mret (cl_regs c, -1) else m) w) (λ '((regs', r), w'), step_ok o c regs' r w').
Proof.
  intros Hw Hf Hs Hm. go. rewrite (stands_links c w Hw). destruct (cl_links c !! l) as [v|] eqn:El.
  - rewrite bool_decide_true by (by eexists). by apply (Hm v).
  - rewrite bool_decide_false by (by intros []). go. apply step_skip; [done|by apply Hs|done].
Qed.

Lemma settle_regs n c : cl_regs (settle threshold tcb fcb n c) = cl_regs c.
Proof. unfold settle, collect_client. destruct (cl_live c !! n) as [[ptr priv]|]; [|done]. repeat case_if; done. Qed.

Lemma release_ok k : cop_ok (CRelease k).
Proof.
  intros c w Hw. simpl. pose proof Hw as [Hwf Hcw]. destruct (Z.eqb_spec (default 0 (cl_regs c !! k)) 0) as [E|E]; go.
  { apply step_skip; [done| |done]. simpl. by rewrite E. }
  destruct (cl_regs c !! k) as [n|] eqn:Ek; [simpl in E|by destruct E]. simpl default.
  destruct (wf_reg _ _ Hwf k n Ek) as [?|Hn]; [done|]. pose proof Hn as [x Hx]. pose proof (refs_of_live c n x Hx) as Ho.
  pose proof (refcount_nonneg c n). pose proof (refcount_bound c n Hwf).
  set (c1 := put_regs (<[k := 0]> (cl_regs c)) c).
  assert (Hc1 : ∀ m, is_Some (cl_live c !! m) → refcount c m = refcount c1 m + Z.b2z (n =? m)).
  { intros m Hm. unfold c1. rewrite (refcount_put_reg c k n) by done. rewrite (wf_reg_target c k n Hwf Ek).
    destruct (wf_node _ _ Hwf m Hm) as [Hm0 _]. change (target 0) with 0. rewrite (proj2 (Z.eqb_neq 0 m)) by lia. cbn [Z.b2z]. lia. }
  eapply returns_mono; [eapply (release_ref_ok threshold tcb fcb n _ (refs_of c)); [done| |exact Ho|]|].
  { apply (wf_calm _ _ Hwf). }
  { simpl. unfold INT_MAX in *. lia. }
  intros [r w1] [-> Hw1]. go. apply (step_is (CRelease k) c (settle threshold tcb fcb n c1)); [done| | |].
  - simpl. rewrite Ek. simpl default. rewrite (proj2 (Z.eqb_neq n 0)) by done. f_equal. fold c1.
    specialize (Hc1 n Hn). rewrite Z.eqb_refl in Hc1. cbn [Z.b2z] in Hc1. pose proof (refcount_nonneg c1 n).
    destruct (Z.eqb_spec (refcount c1 n) 0), (Z.leb_spec (refcount c n) 1); try done; lia.
  - split.
    + apply client_settle; [by eapply stands_threshold|]. apply wf_put_reg; [done|done|by left].
    + rewrite <- lose_refs_with. replace (refs_with (λ m, refcount c1 m + Z.b2z (n =? m)) c1) with (refs_of c); [done|].
      change (refs_with ?f c1) with (refs_with f c). by apply refs_with_ext.
  - by rewrite settle_regs.
Qed.

Lemma put_link_count c l old v m :
  client_wf c → cl_links c !! l = Some old → v = 0 ∨ is_Some (cl_live c !! v) →
  refcount c m + Z.b2z (v =? m) = refcount (put_clinks (<[l := v]> (cl_links c)) c) m + Z.b2z (target old =? m).
Proof. intros Hwf Hl Hv. rewrite (refcount_put_link c l old) by done. rewrite (wf_target c v Hwf Hv). lia. Qed.
Lemma link_not_marked_null c l v : client_wf c → cl_links c !! l = Some v → v = 0 ∨ v ≠ 1.
Proof.
  intros Hwf Hl. destruct (wf_link _ _ Hwf l v Hl) as [->|Hv]; [by left|]. right. intros ->.
  by destruct (wf_node _ _ Hwf _ Hv).
Qed.
Lemma store_ok l k : cop_ok (CStore l k).
Proof.
  intros c w Hw. apply (on_link _ l); [done|done|by intros E; simpl; rewrite E|]. intros old Hl.
  pose proof Hw as [Hwf Hcw]. pose proof (reg_live c k Hwf) as Hv. set (v := default 0 (cl_regs c !! k)) in *.
  set (c1 := put_clinks (<[l := v]> (cl_links c)) c). go.
  eapply returns_mono; [eapply (store_ref_ok threshold tcb fcb l v old (refs_of c)); [done|apply (wf_calm _ _ Hwf)|done| | | |]|].
  - by eapply link_not_marked_null.
  - by apply wf_ref_to.
  - intros o Ho. apply refs_of_live_inv in Ho as [_ ->]. pose proof (refcount_nonneg c v). pose proof (refcount_bound c v Hwf).
    unfold INT_MAX in *. lia.
  - apply wf_ref_to; [done|]. by eapply link_live.
  - intros [[] w1] Hw1. go. apply (step_is (CStore l k) c (settle threshold tcb fcb (target old) c1)); [done| | |].
    + simpl. by rewrite Hl.
    + split.
      * apply client_settle; [by eapply stands_threshold|]. apply wf_put_link; [done|done|].
        rewrite (wf_target c v Hwf Hv). done.
      * rewrite <- lose_refs_with. unfold store_spec in Hw1. simpl rs_links in Hw1. rewrite Hl in Hw1. simpl default in Hw1.
        change (put_rlinks _ (refs_of c)) with (refs_with (refcount c) c1) in Hw1. rewrite gain_refs_with in Hw1.
        erewrite refs_with_ext; [exact Hw1|]. intros m _. simpl. symmetry. by apply put_link_count.
    + by rewrite settle_regs.
Qed.

Lemma swap_ok l j k : cop_ok (CSwap l j k).
Proof.
  intros c w Hw. apply (on_link _ l); [done|done|by intros E; simpl; rewrite E|]. intros v Hl.
  pose proof Hw as [Hwf Hcw]. pose proof (reg_live c k Hwf) as Hk. pose proof (reg_live c j Hwf) as Hj.
  set (ref := default 0 (cl_regs c !! k)) in *. set (old := default 0 (cl_regs c !! j)) in *.
  set (c1 := put_clinks (<[l := ref]> (cl_links c)) c). go.
  eapply returns_mono; [apply (compare_and_swap_ref_ok threshold tcb fcb l old ref v (refs_of c)); [done|done|by apply wf_ref_to|]|].
  { destruct Hj as [->|[x Hx]]; [by left|right]. rewrite (refs_of_live c old x Hx). eexists. split; [done|]. simpl.
    destruct (wf_node _ _ Hwf old) as [Hold _]; [by eexists|]. pose proof (wf_count _ _ Hwf old (ex_intro _ x Hx)).
    pose proof (refcount_bound c old Hwf). unfold INT_MAX in *. lia. }
  intros [r w1] Hr. destruct (Z.eqb_spec v old) as [->|Hne]; destruct Hr as [-> Hw1]; go.
  - apply (step_is (CSwap l j k) c c1); [done| | |done].
    + simpl. rewrite Hl. fold old. by rewrite Z.eqb_refl.
    + split.
      * apply (but_wf (target old)); [by apply wf_put_link; [..|rewrite (wf_target c ref)]|].
        destruct (cl_regs c !! j) as [u|] eqn:Ej; [|by right]. left. unfold refcount. simpl.
        pose proof (occ_pos _ _ _ Ej). pose proof (occ_bound (<[l := ref]> (cl_links c)) (target old)). unfold old in *. simpl in *. lia.
      * unfold cas_spec in Hw1. change (put_rlinks _ (refs_of c)) with (refs_with (refcount c) c1) in Hw1.
        rewrite gain_refs_with, weaken_refs_with in Hw1. unfold refs_of. erewrite refs_with_ext; [exact Hw1|]. intros m _.
        simpl. rewrite (put_link_count c l old) by done. fold c1. rewrite (wf_target c old Hwf Hj). lia.
  - apply (step_is (CSwap l j k) c c); [done| |done|done]. simpl. rewrite Hl. fold old. by rewrite (proj2 (Z.eqb_neq v old)).
Qed.

Lemma target_mark_on v : target (REFCNT_MARK_ON v) = target v.
Proof.
  rewrite !mark_off_eq, mark_on_eq. replace ((v + 1 - v mod 2) mod 2) with 1; [lia|]. symmetry.
  pose proof (Z.div_mod v 2). replace (v + 1 - v mod 2) with (1 + v / 2 * 2) by lia. by rewrite Z.mod_add.
Qed.
Lemma mark_ok l : cop_ok (CMark l).
Proof.
  intros c w Hw. apply (on_link _ l); [done|done|by intros E; simpl; rewrite E|]. intros v Hl.
  pose proof Hw as [Hwf Hcw]. pose proof (stands_links c w Hw) as Hli. go. eapply returns_load_link; [by rewrite Hli|]. go.
  destruct (Z.eqb_spec v 0) as [->|Hv]; go.
  { apply step_skip; [done| |done]. simpl. by rewrite Hl. }
  eapply returns_store_link; [by rewrite Hli|]. go. set (c1 := put_clinks (<[l := REFCNT_MARK_ON v]> (cl_links c)) c).
  apply (step_is (CMark l) c c1); [done| | |done].
  - simpl. rewrite Hl. by rewrite (proj2 (Z.eqb_neq v 0)).
  - assert (Hcount : ∀ m, refcount c m = refcount c1 m).
    { intros m. unfold c1. rewrite (refcount_put_link c l v) by done. rewrite target_mark_on. lia. }
    split.
    + apply (but_wf (target v)).
      * apply wf_put_link; [done|done|]. rewrite target_mark_on. right. by destruct (wf_link _ _ Hwf l v Hl).
      * left. rewrite <- Hcount. apply (wf_count _ _ Hwf); destruct (wf_link _ _ Hwf l v Hl) as [?|Hlv]; try done.
        destruct (wf_node _ _ Hwf _ Hlv). lia.
    + rewrite Hli. change (refs_of c1) with (refs_with (refcount c1) c1).
      rewrite <- (refs_with_ext (refcount c) (refcount c1)) by done. apply (counts_links threshold tcb fcb _ (refs_of c)). done.
Qed.

Lemma ptr_ok k : cop_ok (CPtr k).
Proof.
  intros c w Hw. simpl. pose proof Hw as [Hwf Hcw]. pose proof (reg_live c k Hwf) as Hv.
  set (v := default 0 (cl_regs c !! k)) in *. go.
  assert (get_node_ptr v w = Ret (fst (default (0, 0) (cl_live c !! v)), w)) as Hp.
  { destruct Hv as [E|[x Hx]].
    - rewrite E. destruct (cl_live c !! 0) eqn:E0; [|done]. assert (is_Some (cl_live c !! 0)) as Hl by (by eexists).
      by destruct (wf_node _ _ Hwf 0 Hl).
    - rewrite Hx. exact (get_node_ptr_ok threshold tcb fcb v _ _ w Hcw (refs_of_live c v x Hx)). }
  apply (returns_Ret_at _ _ _ _ Hp). go. by apply (step_is (CPtr k) c c).
Qed.
Lemma count_ok k : cop_ok (CCount k).
Proof.
  intros c w Hw. simpl. pose proof Hw as [Hwf Hcw]. pose proof (reg_live c k Hwf) as Hv.
  set (v := default 0 (cl_regs c !! k)) in *. destruct (Z.eqb_spec v 0) as [E|E]; go.
  { apply step_skip; [done| |done]. simpl. fold v. by rewrite E. }
  destruct Hv as [?|[x Hx]]; [done|]. pose proof (refcount_bound c v Hwf).
  apply (returns_Ret_at _ _ _ _ (get_node_refcount_ok threshold tcb fcb v _ _ w Hcw (refs_of_live c v x Hx))). go.
  apply (step_is (CCount k) c c); [done| |done|done]. simpl. fold v. rewrite (proj2 (Z.eqb_neq v 0)) by done.
  pose proof (refcount_nonneg c v). by rewrite as_int_small by lia.
Qed.

Lemma run_cop_ok o : cop_ok o.
Proof.
  destruct o; [apply new_ok|apply deref_ok|apply deref_marked_ok|apply retain_ok|apply release_ok|apply store_ok|apply swap_ok
    |apply mark_ok|apply ptr_ok|apply count_ok].
Qed.

Lemma run_cops_ok os c w :
  stands c w →
  returns (run_cops os (cl_regs c) w) (λ '((regs', rs), w'), ∃ c',
    csteps threshold tcb fcb c os rs c' ∧ regs' = cl_regs c' ∧ stands c' w').
Proof.
  revert c w. induction os as [|o os IH]; intros c w Hw; simpl; go.
  { exists c. split; [constructor|done]. }
  eapply returns_mono; [by apply (run_cop_ok o c)|]. intros [[regs r] w1] (n&Hf&Hs). go.
  destruct (cop_spec threshold tcb fcb n o c) as [c1 r'] eqn:Ec. destruct Hs as (->&->&Hw1).
  eapply returns_mono; [by apply (IH c1)|]. intros [[regs rs] w2] (c2&Hst&->&Hw2). go. exists c2.
  split; [by econstructor|done].
Qed.
End client.

(** ** What the counters promise *)

Section claims.
Context (elapsed : nat → Z → Z) (rand : nat → Z).
#[local] Instance rqueues : PtrQueue rworld := rqueue_ptr_queue elapsed rand.
#[local] Instance rqueues_laws : PtrQueueLaws rworld := rqueue_ptr_queue_laws elapsed rand.
Context (threshold : Z) (tcb fcb : bool).

(** No references yet. *)
Definition null_places (m : gmap Z Z) : Prop := map_Forall (λ _ v, v = 0) m.
Definition new_client (regs : gmap Z Z) (w : cworld rworld) : client :=
  mk_client regs (cw_links w) ∅ [] (cw_terminated w) (cw_given w).

Lemma new_client_stands regs w w' :
  good_threshold threshold → null_places regs → null_places (cw_links w) →
  Z.of_nat (size regs + size (cw_links w)) < INT_MAX →
  counts threshold tcb fcb (mk_refs ∅ [] (cw_links w) (cw_terminated w) (cw_given w)) w' →
  stands threshold tcb fcb (new_client regs w) w'.
Proof.
  intros [Ht _] Hr Hl Hs Hw. split; [split; simpl; try done|].
  - intros k v Hk. left. by apply (Hr k v).
  - intros l v Hk. left. by apply (Hl l v).
  - intros m. rewrite lookup_empty. by intros [].
  - intros m. rewrite lookup_empty. by intros [].
  - replace (refs_of (new_client regs w)) with (mk_refs ∅ [] (cw_links w) (cw_terminated w) (cw_given w)); [done|].
    apply refs_eq; [|done]. intros n. unfold refs_of. rewrite lookup_refs_with. simpl. by rewrite !lookup_empty.
Qed.

(** C13 — the counters, over ring queues, count references: in any sequence of
    creations of objects, copies and releases of references by registers and
    links, stores, swaps and marks, an object is live while a register or a
    link refers to it; it is terminated when the last one is gone, and its
    pointer freed after that, in the same order, when more objects wait than
    the threshold. *)
Theorem refcnt_refines_objects os regs w :
  no_counts w → good_threshold threshold → null_places regs → null_places (cw_links w) →
  Z.of_nat (size regs + size (cw_links w)) < INT_MAX →
  returns ((_ ← refcnt_create threshold tcb fcb; run_cops os regs) w) (λ '((regs', rs), w'), ∃ c,
    csteps threshold tcb fcb (new_client regs w) os rs c ∧ regs' = cl_regs c ∧ stands threshold tcb fcb c w').
Proof.
  intros Hw Ht Hr Hl Hs. go. eapply returns_mono; [by apply (refcnt_create_ok threshold tcb fcb)|].
  intros [ok w1] [-> Hw1]. go. by apply (run_cops_ok threshold tcb fcb os (new_client regs w)), new_client_stands.
Qed.

(** C28 — [refcnt_destroy] frees the pointers of the objects that wait, in the
    order of their termination, the queues and the nodes in them; the nodes
    that are left are those of the objects that the client still refers to. *)
Theorem refcnt_destroy_frees c w :
  stands threshold tcb fcb c w →
  returns (refcnt_destroy w) (λ '(_, w'), cw_refcnt w' = CDangling ∧ dom (cw_nodes w') = dom (cl_live c) ∧
    cw_terminated w' = cl_terminated c ∧ cw_given w' = cl_given c ++ (if fcb then (cl_waiting c).*2 else [])).
Proof.
  intros [_ Hw]. eapply returns_mono; [by apply (refcnt_destroy_ok threshold tcb fcb (refs_of c))|].
  intros [[] w'] (Hc&HN&_&Ht&Hg). rewrite HN, Hc. split; [done|]. split; [|done]. apply set_eq. intros n.
  rewrite !elem_of_dom, lookup_fmap. unfold refs_of. rewrite lookup_refs_with. by rewrite !fmap_is_Some.
Qed.
End claims.

(** ** Witnesses *)

(** Three links, and three registers. *)
Definition null_three : gmap Z Z := {[ 8 := 0; 16 := 0; 24 := 0 ]}.
Definition no_refcnt : cworld rworld := mk_cworld CNull no_rqueue no_rqueue ∅ null_three 4 [] [] [].
Lemma no_refcnt_no_counts : no_counts (H := rqueue_ptr_queue on_time no_rand) (H0 := rqueue_ptr_queue_laws on_time no_rand) no_refcnt.
Proof. repeat split; try done; apply not_elem_of_nil. Qed.
Lemma null_three_null : null_places null_three.
Proof. intros k v Hk. unfold null_three in Hk. repeat (apply lookup_insert_Some in Hk as [[_ <-]|[_ Hk]]; [done|]). by apply lookup_singleton_Some in Hk as [_ <-]. Qed.

(** An object is created, stored, retained, and loses its references. *)
Definition cop_sample : list cop :=
  [CNew 8 100 7; CStore 8 8; CRetain 16 8; CDeref 24 8; CCount 8; CRelease 8; CRelease 16; CMark 8; CRelease 24;
   CDeref 8 8; CStore 8 8; CNew 8 200 7; CSwap 16 16 8; CPtr 8].

Lemma refcnt_refines_objects_witness :
  returns ((_ ← refcnt_create (PtrQueue0 := rqueue_ptr_queue on_time no_rand) 0 true true;
            run_cops (H := rqueue_ptr_queue on_time no_rand) cop_sample null_three) no_refcnt) (λ '((regs', rs), w'), ∃ c,
    csteps 0 true true (new_client null_three no_refcnt) cop_sample rs c ∧ regs' = cl_regs c ∧
    stands (H0 := rqueue_ptr_queue_laws on_time no_rand) 0 true true c w').
Proof.
  apply (refcnt_refines_objects on_time no_rand 0 true true cop_sample null_three no_refcnt).
  - apply no_refcnt_no_counts.
  - done.
  - apply null_three_null.
  - apply null_three_null.
  - done.
Defined.

Lemma refcnt_sample_stands : ∃ c w, stands (H0 := rqueue_ptr_queue_laws on_time no_rand) 1 true true c w.
Proof.
  destruct (returns_inv _ _ (refcnt_create_ok (H0 := rqueue_ptr_queue_laws on_time no_rand) 1 true true no_refcnt no_refcnt_no_counts ltac:(done)))
    as ([ok w]&_&_&Hw).
  exists (new_client null_three no_refcnt), w.
  by apply (new_client_stands on_time no_rand 1 true true null_three no_refcnt w); [..|exact Hw]; try apply null_three_null.
Qed.
Lemma refcnt_destroy_frees_witness : ∃ c w,
  returns (refcnt_destroy (PtrQueue0 := rqueue_ptr_queue on_time no_rand) w) (λ '(_, w'), cw_refcnt w' = CDangling ∧
    dom (cw_nodes w') = dom (cl_live c) ∧ cw_terminated w' = cl_terminated c ∧ cw_given w' = cl_given c ++ (cl_waiting c).*2).
Proof.
  destruct refcnt_sample_stands as (c&w&Hw). exists c, w. apply (refcnt_destroy_frees on_time no_rand 1 true true c w). exact Hw.
Defined.

(** ** Where the code does something else *)

(** [compare_and_swap_ref] can drop the last reference to an object: its count
    is 0 then, but it is not terminated, and stays in the store. *)
Theorem compare_and_swap_ref_drops_last {Q : Type} `{PtrQueueLaws Q} threshold tcb fcb (s : refs) (w : cworld Q) l n o :
  counts threshold tcb fcb s w → rs_links s !! l = Some n → rs_live s !! n = Some o → ob_count o = 1 →
  returns (compare_and_swap_ref l n 0 w) (λ '(r, w'), r = 1 ∧ cw_links w' !! l = Some 0 ∧
    cw_nodes w' !! n = Some (mk_cnode (ob_ptr o) (ob_priv o) 0 0) ∧ cw_terminated w' = cw_terminated w).
Proof.
  intros Hw Hl Ho Hc. eapply returns_mono; [apply (compare_and_swap_ref_ok threshold tcb fcb l n 0 n s); [done|done|by left|]|].
  { right. exists o. split; [done|lia]. }
  intros [r w']. rewrite Z.eqb_refl. intros [-> Hw']. split; [done|]. unfold cas_spec in Hw'.
  rewrite gain_none in Hw' by (by apply (live_null threshold tcb fcb s w)). rewrite (weaken_live n o) in Hw' by done.
  pose proof (counts_node threshold tcb fcb n _ _ _ Hw' (lookup_insert_eq _ _ _)) as Hn.
  destruct Hw as (?&?&?&?&?&?&_&_&_&_&_&Hte&_). destruct Hw' as (?&?&?&?&?&?&_&_&_&_&Hli&Hte'&_).
  rewrite Hli, Hte, Hte', Hn. simpl. rewrite lookup_insert_eq. unfold live_node, put_count. simpl. by rewrite Hc.
Qed.

(** The free list of a large threshold is smaller than the threshold: objects
    that are terminated when it is full are lost. *)
Theorem free_list_too_small threshold : 1431655766 ≤ threshold < 2 ^ 32 → free_list_size threshold < threshold.
Proof.
  intros Ht. unfold free_list_size. change FREE_LIST_MIN_SIZE with 256. pose proof (Z.div_mod threshold 2).
  pose proof (Z.mod_pos_bound threshold 2). pose proof (as_int_le (u32 (threshold + threshold / 2))).
  assert (as_int (u32 (threshold + threshold / 2)) < threshold).
  { unfold as_int, INT_MAX, u32 in *. destruct (decide (threshold + threshold / 2 < 2 ^ 32)).
    - rewrite Z.mod_small by lia. destruct (Z.leb_spec (threshold + threshold / 2) 2147483647); lia.
    - replace (threshold + threshold / 2) with (threshold + threshold / 2 - 2 ^ 32 + 1 * 2 ^ 32) by lia.
      rewrite Z.mod_add, Z.mod_small by lia. destruct (Z.leb_spec (threshold + threshold / 2 - 2 ^ 32) 2147483647); lia. }
  destruct (_ <? 256); lia.
Qed.
