(* ===== verification/Queue.v ===== *)
(** * Linked queues (src/src/queue.c)

    A double-ended queue: entries linked in both directions between two
    sentinels, by references that src/src/refcnt.c counts, and a pool of entries
    to use again.  The operations are those of one thread: an atomic operation
    is its effect, and waiting for another thread diverges. *)

From S2P Require Import Prelude Rqueue PtrQueue Refcnt.

(** ** Data *)

(** An entry; its fields [prev] and [next] are links of the reference
    counters, at the addresses [at_prev] and [at_next].  [en_queue] is true
    when it points to the queue. *)
Record queue_entry_t := mk_entry { en_node : Z; en_value : Z; en_queue : bool }.
Definition at_prev (entry : Z) : Z := 2 * entry.
Definition at_next (entry : Z) : Z := 2 * entry + 1.

Record queue_t := mk_queue {
  q_head : Z; q_tail : Z; q_length : Z; q_free : bool; q_free_value_cb : bool; q_bpool : bool; q_bpool_size : Z
}.
(** The pointer to the queue: null, to a live queue, or to one that was freed. *)
Inductive queue_ptr := QNull | QLive (q : queue_t) | QDangling.

Section queue.
Context {Q : Type} `{!PtrQueue Q}.
(** A pool that is not created yet. *)
Context (no_pool : Q).

(** [qw_refcnt] is the state of the reference counters, [qw_bpool] that of the
    pool, and [qw_values] the values given to the free callback. *)
Record qworld := mk_qworld {
  qw_queue : queue_ptr; qw_refcnt : cworld Q; qw_bpool : Q; qw_entries : gmap Z queue_entry_t;
  qw_new : Z; qw_alloc : list bool; qw_values : list Z
}.
Abbreviation M := (ST qworld).

(** ** The state *)

Definition put_q (q : queue_ptr) (w : qworld) : qworld :=
  mk_qworld q (qw_refcnt w) (qw_bpool w) (qw_entries w) (qw_new w) (qw_alloc w) (qw_values w).
Definition put_rc (c : cworld Q) (w : qworld) : qworld :=
  mk_qworld (qw_queue w) c (qw_bpool w) (qw_entries w) (qw_new w) (qw_alloc w) (qw_values w).
Definition put_bpool (p : Q) (w : qworld) : qworld :=
  mk_qworld (qw_queue w) (qw_refcnt w) p (qw_entries w) (qw_new w) (qw_alloc w) (qw_values w).
Definition put_entries (E : gmap Z queue_entry_t) (w : qworld) : qworld :=
  mk_qworld (qw_queue w) (qw_refcnt w) (qw_bpool w) E (qw_new w) (qw_alloc w) (qw_values w).

Definition load_q : M queue_t := λ w, match qw_queue w with QLive q => Ret (q, w) | _ => Undef end.
Definition set_q (f : queue_t → queue_t) : M unit := q ← load_q; modify (put_q (QLive (f q))).
Definition load_entry (e : Z) : M queue_entry_t := λ w,
  match qw_entries w !! e with Some x => Ret (x, w) | None => Undef end.
Definition set_entry (e : Z) (f : queue_entry_t → queue_entry_t) : M unit :=
  x ← load_entry e; modify (λ w, put_entries (<[e := f x]> (qw_entries w)) w).
Definition with_node (n : Z) (x : queue_entry_t) : queue_entry_t := mk_entry n (en_value x) (en_queue x).
Definition with_qvalue (v : Z) (x : queue_entry_t) : queue_entry_t := mk_entry (en_node x) v (en_queue x).
Definition with_queue (x : queue_entry_t) : queue_entry_t := mk_entry (en_node x) (en_value x) true.
Definition with_qhead (h : Z) (q : queue_t) : queue_t :=
  mk_queue h (q_tail q) (q_length q) (q_free q) (q_free_value_cb q) (q_bpool q) (q_bpool_size q).
Definition with_qtail (t : Z) (q : queue_t) : queue_t :=
  mk_queue (q_head q) t (q_length q) (q_free q) (q_free_value_cb q) (q_bpool q) (q_bpool_size q).
Definition with_length (n : Z) (q : queue_t) : queue_t :=
  mk_queue (q_head q) (q_tail q) n (q_free q) (q_free_value_cb q) (q_bpool q) (q_bpool_size q).
Definition with_free (q : queue_t) : queue_t :=
  mk_queue (q_head q) (q_tail q) (q_length q) true (q_free_value_cb q) (q_bpool q) (q_bpool_size q).
Definition with_value_cb (cb : bool) (q : queue_t) : queue_t :=
  mk_queue (q_head q) (q_tail q) (q_length q) (q_free q) cb (q_bpool q) (q_bpool_size q).
Definition with_bpool (b : bool) (q : queue_t) : queue_t :=
  mk_queue (q_head q) (q_tail q) (q_length q) (q_free q) (q_free_value_cb q) b (q_bpool_size q).
Definition with_bpool_size (n : Z) (q : queue_t) : queue_t :=
  mk_queue (q_head q) (q_tail q) (q_length q) (q_free q) (q_free_value_cb q) (q_bpool q) n.

(** The allocation and the release of an entry, with its links. *)
Definition qalloc : M bool := λ w,
  match qw_alloc w with
  | [] => Ret (true, w)
  | b :: a => Ret (b, mk_qworld (qw_queue w) (qw_refcnt w) (qw_bpool w) (qw_entries w) (qw_new w) a (qw_values w))
  end.
Definition calloc_entry : M Z :=
  ok ← qalloc;
  if negb ok then mret 0 else
  λ w, let e := qw_new w in let c := qw_refcnt w in
       Ret (e, mk_qworld (qw_queue w) (put_links (<[at_next e := 0]> (<[at_prev e := 0]> (cw_links c))) c) (qw_bpool w)
                 (<[e := mk_entry 0 0 false]> (qw_entries w)) (e + 1) (qw_alloc w) (qw_values w)).
Definition free_entry (e : Z) : M unit :=
  _ ← load_entry e;
  modify (λ w, let c := qw_refcnt w in
    put_entries (delete e (qw_entries w)) (put_rc (put_links (delete (at_next e) (delete (at_prev e) (cw_links c))) c) w)).
Fixpoint free_entries (es : list Z) : M unit :=
  match es with [] => mret tt | e :: es => _ ← free_entry e; free_entries es end.
Definition give_qvalue (v : Z) : M unit :=
  modify (λ w, mk_qworld (qw_queue w) (qw_refcnt w) (qw_bpool w) (qw_entries w) (qw_new w) (qw_alloc w) (qw_values w ++ [v])).

(** A call of the pool, whose callback is [free]: it is called on the entries
    that the pool gives up. *)
Definition on_bpool {A} (m : ST Q A) : M A :=
  before ← gets (λ w, length (pq_given (qw_bpool w)));
  a ← (λ w, '(a, p) ← m (qw_bpool w); Ret (a, put_bpool p w));
  given ← gets (λ w, drop before (pq_given (qw_bpool w)));
  _ ← free_entries given;
  mret a.

(** A queue that is not, or no longer, the pool is destroyed. *)
Definition destroy_pool (p : Q) : M unit :=
  '(_, p') ← lift (pq_destroy p);
  free_entries (drop (length (pq_given p)) (pq_given p')).

(** ** Entries *)

Definition queue_reusable_entry (entry : Z) : M unit :=
  _ ← set_entry entry (with_node 0);
  x ← load_entry entry;
  if negb (en_queue x) then undef else
  q ← load_q;
  rc ← (if negb (q_bpool q) then mret (-1) else on_bpool (pq_write entry));
  if negb (rc =? 0) then free_entry entry else mret tt.
Fixpoint queue_reusable_entries (es : list Z) : M unit :=
  match es with [] => mret tt | e :: es => _ ← queue_reusable_entry e; queue_reusable_entries es end.

(** A call of the reference counters, whose callback is [queue_reusable_entry]:
    it does not touch the counters, so it is called on the pointers they have
    freed when they return. *)
Definition on_links {A} (m : ST (cworld Q) A) : M A := λ w, '(a, c) ← m (qw_refcnt w); Ret (a, put_rc c w).
Definition on_refcnt {A} (m : ST (cworld Q) A) : M A :=
  before ← gets (λ w, length (cw_given (qw_refcnt w)));
  a ← on_links m;
  given ← gets (λ w, drop before (cw_given (qw_refcnt w)));
  _ ← queue_reusable_entries given;
  mret a.
(** [ATOMIC_CAS] on a link. *)
Definition CAS_link (l o n : Z) : M bool :=
  on_links (p ← load_link l; if p =? o then _ ← store_link l n; mret true else mret false).

Definition node_of (entry : Z) : M Z := x ← load_entry entry; mret (en_node x).
Definition release (n : Z) : M unit := _ ← on_refcnt (release_ref n); mret tt.
Definition retain (n : Z) : M unit := _ ← on_refcnt (retain_ref n); mret tt.

Definition create_entry : M Z :=
  new_entry ← calloc_entry;
  if new_entry =? 0 then mret 0 else
  n ← on_refcnt (new_node new_entry 0);
  _ ← set_entry new_entry (with_node n);
  _ ← set_entry new_entry with_queue;
  mret new_entry.
Definition dequeue_reusable_entry : M Z :=
  q ← load_q;
  entry ← (if q_bpool q then on_bpool pq_read else mret 0);
  if negb (entry =? 0) then n ← on_refcnt (new_node entry 0); _ ← set_entry entry (with_node n); mret entry
  else create_entry.
Definition destroy_entry (entry : Z) : M unit :=
  if negb (entry =? 0) then n ← node_of entry; release n else mret tt.

(** ** Creation *)

Definition queue_init : M unit :=
  _ ← modify (put_q (QLive (mk_queue 0 0 0 false false false 0)));
  _ ← on_refcnt (refcnt_create (Z.shiftl 1 10) false true);
  head ← create_entry;
  _ ← set_q (with_qhead head);
  tail ← create_entry;
  _ ← set_q (with_qtail tail);
  _ ← load_entry head;
  n ← node_of tail;
  _ ← on_refcnt (store_ref (at_next head) n);
  n ← node_of head;
  on_refcnt (store_ref (at_prev tail) n).
(** Is the returned pointer not null?  The queue is then [qw_queue]. *)
Definition queue_create : M bool :=
  ok ← qalloc;
  if negb ok then _ ← modify (put_q QNull); mret false else
  _ ← queue_init;
  _ ← set_q with_free;
  mret true.

Definition queue_set_bpool_size (size : Z) : M Z :=
  '(ok, new_queue) ← lift (pq_create size RQUEUE_MODE_BLOCKING no_pool);
  '(_, new_queue) ← lift (pq_set_free_value_callback true new_queue);
  q ← load_q;
  let old_size := q_bpool_size q in
  if old_size =? size then _ ← destroy_pool new_queue; mret old_size else
  old_queue ← gets qw_bpool;
  _ ← modify (put_bpool new_queue);
  _ ← set_q (with_bpool ok);
  _ ← set_q (with_bpool_size size);
  _ ← (if q_bpool q then destroy_pool old_queue else mret tt);
  mret old_size.

Definition queue_count : M Z := q ← load_q; mret (q_length q).
Definition queue_set_free_value_callback (cb : bool) : M unit := set_q (with_value_cb cb).

Definition mark_prev_body (entry : Z) (_ : unit) : M (unit + unit) :=
  link ← on_links (load_link (at_prev entry));
  if link =? REFCNT_MARK_ON link then mret (inr tt) else
  ok ← CAS_link (at_prev entry) link (REFCNT_MARK_ON link);
  mret (if ok : bool then inr tt else inl tt).
Definition mark_prev (entry : Z) : M unit := loopS (mark_prev_body entry) tt.

(** ** Insertion

    The two ends are treated alike: [fwd] is the field that leads away from the
    sentinel [a] and [bwd] the one that leads back to it. *)

Section ends.
Context (fwd bwd : Z → Z).

(** The entry that a reference taken from a link points to. *)
Definition deref_entry (link : Z) : M Z := n ← on_refcnt (deref_link link); on_refcnt (get_node_ptr n).

(** The link of the sentinel is set, from the value that it has. *)
Definition push_link_body (a entry next : Z) : M (Z + Z) :=
  n ← node_of next; e ← node_of entry;
  ok ← CAS_link (fwd a) n e;
  if ok : bool then mret (inr next) else
  _ ← (n ← node_of next; release n);
  next2 ← deref_entry (fwd a);
  n ← node_of next2;
  _ ← on_refcnt (store_ref (fwd entry) n);
  mret (inl next2).
Definition push_body (a entry : Z) (_ : unit) : M (unit + unit) :=
  next ← deref_entry (fwd a);
  if next =? 0 then mret (inl tt) else
  n ← node_of a; _ ← on_refcnt (store_ref (bwd entry) n);
  n ← node_of next; _ ← on_refcnt (store_ref (fwd entry) n);
  back ← on_links (load_link (bwd entry)); e ← node_of entry;
  ok ← CAS_link (bwd next) (REFCNT_MARK_OFF back) e;
  if ok : bool then
    _ ← (n ← node_of a; release n);
    _ ← (n ← node_of entry; retain n);
    next ← loopS (push_link_body a entry) next;
    _ ← (n ← node_of next; release n);
    _ ← (n ← node_of entry; retain n);
    _ ← (n ← node_of next; release n);
    mret (inr tt)
  else
    _ ← (n ← node_of next; release n);
    _ ← on_refcnt (store_ref (at_next entry) 0);
    _ ← on_refcnt (store_ref (at_prev entry) 0);
    mret (inl tt).
Definition push (sentinel : queue_t → Z) (value : Z) : M Z :=
  entry ← create_entry;
  _ ← set_entry entry (with_qvalue value);
  q ← load_q;
  _ ← loopS (push_body (sentinel q) entry) tt;
  _ ← set_q (λ q, with_length (u64 (q_length q + 1)) q);
  mret 0.

(** ** Removal *)

(** The link back of the entry is marked; [skip_null] is true when the loop
    also waits for one that is not null. *)
Definition mark_back_body (skip_null : bool) (entry : Z) (_ : unit) : M (unit + unit) :=
  link2 ← on_links (load_link (bwd entry));
  if skip_null && (link2 =? 0) then mret (inl tt) else
  ok ← CAS_link (bwd entry) link2 (REFCNT_MARK_ON link2);
  mret (if ok : bool then inr tt else inl tt).
(** The entry after the one that is removed is linked to the sentinel. *)
Definition skip_body (a entry next : Z) : M (Z + Z) :=
  _ ← (if negb (next =? 0) then n ← node_of next; release n else mret tt);
  n ← on_refcnt (deref_link_d (fwd entry)); next ← on_refcnt (get_node_ptr n);
  if next =? 0 then mret (inl next) else
  e ← node_of entry; n ← node_of a;
  ok ← CAS_link (bwd next) e n;
  mret (if ok : bool then inr next else inl next).
(** The entry that is removed and its value, or [None] for an empty queue. *)
Definition pop_body (skip_null : bool) (a z : Z) (_ : unit) : M (unit + option (Z * Z)) :=
  entry_node ← on_refcnt (deref_link (fwd a));
  entry ← on_refcnt (get_node_ptr entry_node);
  if (entry =? 0) || (entry =? z) then
    _ ← (if negb (entry_node =? 0) then release entry_node else mret tt);
    mret (inr None)
  else
  back ← on_links (load_link (bwd entry)); n ← node_of a;
  if negb (back =? n) then _ ← (n ← node_of entry; release n); mret (inl tt) else
  link1 ← on_links (load_link (fwd entry));
  if REFCNT_MARK_OFF link1 =? 0 then _ ← (n ← node_of entry; release n); mret (inl tt) else
  ok ← CAS_link (fwd entry) (REFCNT_MARK_OFF link1) (REFCNT_MARK_ON link1);
  if ok : bool then
    _ ← loopS (mark_back_body skip_null entry) tt;
    next ← loopS (skip_body a entry) 0;
    _ ← (n ← node_of entry; release n);
    _ ← (n ← node_of a; retain n);
    e ← node_of entry; n ← node_of next;
    ok ← CAS_link (fwd a) e n;
    _ ← (if ok : bool then
           _ ← (n ← node_of entry; release n);
           (n ← node_of next; retain n)
         else mret tt);
    _ ← (n ← node_of next; release n);
    x ← load_entry entry;
    _ ← (n ← node_of entry; release n);
    mret (inr (Some (entry, en_value x)))
  else _ ← (n ← node_of entry; release n); mret (inl tt).
Definition pop (skip_null : bool) (sentinel other : queue_t → Z) : M Z :=
  q ← load_q;
  if sentinel q =? 0 then mret 0 else
  r ← loopS (pop_body skip_null (sentinel q) (other q)) tt;
  match r with
  | None => mret 0
  | Some (entry, v) =>
      _ ← set_q (λ q, with_length (u64 (q_length q - 1)) q);
      _ ← on_refcnt (store_ref (at_next entry) 0);
      _ ← on_refcnt (store_ref (at_prev entry) 0);
      _ ← destroy_entry entry;
      mret v
  end.
End ends.

Definition queue_push_left : Z → M Z := push at_next at_prev q_head.
Definition queue_push_right : Z → M Z := push at_prev at_next q_tail.
Definition queue_pop_left : M Z := pop at_next at_prev true q_head q_tail.
Definition queue_pop_right : M Z := pop at_prev at_next false q_tail q_head.

(** ** Destruction *)

Definition clear_body (_ : unit) : M (unit + unit) :=
  v ← queue_pop_left;
  if v =? 0 then mret (inr tt) else
  q ← load_q;
  _ ← (if q_free_value_cb q then give_qvalue v else mret tt);
  mret (inl tt).
Definition queue_clear : M unit := loopS clear_body tt.

Definition destroy_bpool : M unit := q ← load_q; if q_bpool q then on_bpool pq_destroy else mret tt.
Definition queue_destroy : M unit := λ w,
  match qw_queue w with
  | QNull => Ret (tt, w)
  | _ => (
      _ ← destroy_bpool;
      _ ← set_q (with_bpool false);
      _ ← queue_clear;
      q ← load_q;
      _ ← on_refcnt (store_ref (at_next (q_head q)) 0);
      _ ← destroy_entry (q_head q);
      _ ← on_refcnt (store_ref (at_prev (q_tail q)) 0);
      _ ← destroy_entry (q_tail q);
      _ ← destroy_bpool;
      _ ← on_refcnt refcnt_destroy;
      if q_free q then modify (put_q QDangling) else mret tt) w
  end.
End queue.
Arguments qworld : clear implicits.
