(* ===== verification/QueueOps.v ===== *)
(** * The state of a linked queue

    The entries of a queue, their nodes and links, and what the calls of the
    reference counters do to them while no object loses its last reference. *)

From S2P Require Import Prelude Rqueue PtrQueue Refcnt RefcntOps RefcntSpec Queue.

(** ** Entries in a row *)

Record qcell := mk_qcell { c_entry : Z; c_node : Z; c_value : Z }.
#[global] Instance qcell_dec : EqDecision qcell.
Proof. solve_decision. Defined.

(** The node of the first cell, [x] when there is none. *)
Definition first_node (F : list qcell) (x : Z) : Z := match F with [] => x | k :: _ => c_node k end.
(** The links of the cells, in both directions, from [p] to [x]. *)
Fixpoint dseg (fwd bwd : Z → Z) (L : gmap Z Z) (p : Z) (F : list qcell) (x : Z) : Prop :=
  match F with
  | [] => True
  | k :: F => L !! bwd (c_entry k) = Some p ∧ L !! fwd (c_entry k) = Some (first_node F x) ∧ dseg fwd bwd L (c_node k) F x
  end.
Definition last_node (p : Z) (F : list qcell) : Z := default p (c_node <$> last F).

Lemma last_node_cons p k F : last_node p (k :: F) = last_node (c_node k) F.
Proof. unfold last_node. rewrite last_cons. by destruct (last F). Qed.
Lemma last_node_snoc p k F : last_node p (F ++ [k]) = c_node k.
Proof. unfold last_node. by rewrite last_snoc. Qed.
Lemma first_node_app F G x : first_node (F ++ G) x = first_node F (first_node G x).
Proof. by destruct F. Qed.

Lemma dseg_app fwd bwd L p F G x :
  dseg fwd bwd L p (F ++ G) x ↔ dseg fwd bwd L p F (first_node G x) ∧ dseg fwd bwd L (last_node p F) G x.
Proof.
  revert p. induction F as [|k F IH]; intros p; [simpl; tauto|]. rewrite last_node_cons. simpl. rewrite first_node_app, IH. tauto.
Qed.
Lemma first_node_rev F x : first_node (rev F) x = last_node x F.
Proof.
  induction F as [|k F IH] using rev_ind; [done|]. by rewrite rev_app_distr, last_node_snoc.
Qed.
Lemma last_node_rev p F : last_node p (rev F) = first_node F p.
Proof. destruct F as [|k F]; [done|]. simpl. apply last_node_snoc. Qed.
(** The links in the other direction. *)
Lemma dseg_rev fwd bwd L p F x : dseg fwd bwd L p F x → dseg bwd fwd L x (rev F) p.
Proof.
  revert p. induction F as [|k F IH]; intros p; [done|]. simpl. intros (Hb&Hf&Hs). apply dseg_app. split; [by apply IH|].
  simpl. by rewrite last_node_rev.
Qed.

(** The addresses of fields of entries are different. *)
Class Fields (fwd bwd : Z → Z) : Prop := {
  fwd_inj : ∀ e e', fwd e = fwd e' → e = e';
  bwd_inj : ∀ e e', bwd e = bwd e' → e = e';
  fwd_bwd : ∀ e e', fwd e ≠ bwd e';
  fwd_or_bwd : (fwd = at_next ∧ bwd = at_prev) ∨ (fwd = at_prev ∧ bwd = at_next)
}.
#[global] Instance fields_next : Fields at_next at_prev.
Proof. split; [unfold at_next, at_prev; lia..|by left]. Qed.
#[global] Instance fields_prev : Fields at_prev at_next.
Proof. split; [unfold at_next, at_prev; lia..|by right]. Qed.

Lemma dseg_frame fwd bwd L L' p F x :
  (∀ e, e ∈ c_entry <$> F → L' !! fwd e = L !! fwd e ∧ L' !! bwd e = L !! bwd e) → dseg fwd bwd L p F x → dseg fwd bwd L' p F x.
Proof.
  revert p. induction F as [|k F IH]; intros p HL; [done|]. simpl. intros (Hb&Hf&Hs). destruct (HL (c_entry k)) as [-> ->]; [left|].
  split; [done|]. split; [done|]. apply IH; [|done]. intros e He. apply HL. by right.
Qed.

(** ** The state *)

Section state.
Context {Q : Type} `{PtrQueueLaws Q}.
Abbreviation M := (ST (qworld Q)).
Abbreviation counts := (counts 1024 false true).
(** The values freed, and entries that the counters have freed. *)
Context (gv G : list Z).

(** The entries of [F], with the counts [f] of their nodes; [c] is the state
    of the reference counters, and [P] lists the entries in the pool. *)
Record qinv (q : queue_t) (F : list qcell) (f : Z → Z) (c : client) (P : list Z) (w : qworld Q) : Prop := {
  qi_queue : qw_queue w = QLive q;
  qi_counts : counts (refs_with f c) (qw_refcnt w);
  qi_live : ∀ n x, cl_live c !! n = Some x ↔ ∃ k, k ∈ F ∧ c_node k = n ∧ x = (c_entry k, 0);
  qi_nodes : NoDup (c_node <$> F);
  qi_nodup : NoDup ((c_entry <$> F) ++ (cl_waiting c).*2 ++ G ++ P);
  qi_dom : ∀ e, is_Some (qw_entries w !! e) ↔ e ∈ (c_entry <$> F) ++ (cl_waiting c).*2 ++ G ++ P;
  qi_cell : ∀ k, k ∈ F → qw_entries w !! c_entry k = Some (mk_entry (c_node k) (c_value k) true);
  qi_waiting : ∀ e, e ∈ (cl_waiting c).*2 ++ G → ∃ n v, qw_entries w !! e = Some (mk_entry n v true);
  qi_pool : if q_bpool q then ∃ size nw nr, pq_holds size true P nw nr (qw_bpool w) ∧ size < 2 ^ 64 else P = [];
  qi_new : ∀ e, is_Some (qw_entries w !! e) → 0 < e < qw_new w;
  qi_pos : 0 < qw_new w;
  qi_calm : Z.of_nat (length (cl_waiting c)) ≤ 1024;
  qi_alloc : false ∉ qw_alloc w;
  qi_values : qw_values w = gv
}.

Lemma qi_object q F f c P w k : qinv q F f c P w → k ∈ F → cl_live c !! c_node k = Some (c_entry k, 0).
Proof. intros Hw Hk. apply (qi_live _ _ _ _ _ _ Hw). by exists k. Qed.
Lemma qi_ref q F f c P w k :
  qinv q F f c P w → k ∈ F → rs_live (refs_with f c) !! c_node k = Some (mk_object (c_entry k) 0 (f (c_node k))).
Proof. intros Hw Hk. by rewrite lookup_refs_with, (qi_object _ _ _ _ _ _ _ Hw Hk). Qed.
Lemma qi_node q F f c P w k : qinv q F f c P w → k ∈ F → is_node (c_node k).
Proof. intros Hw Hk. eapply counts_is_node; [by apply (qi_counts _ _ _ _ _ _ Hw)|by eapply qi_ref]. Qed.
Lemma qi_links q F f c P w : qinv q F f c P w → cw_links (qw_refcnt w) = cl_links c.
Proof. intros Hw. by destruct (qi_counts _ _ _ _ _ _ Hw) as (?&?&?&?&?&?&_&_&_&_&Hli&_). Qed.
Lemma qi_given q F f c P w : qinv q F f c P w → cw_given (qw_refcnt w) = cl_given c.
Proof. intros Hw. by destruct (qi_counts _ _ _ _ _ _ Hw) as (?&?&?&?&?&?&_&_&_&_&_&_&Hg&_). Qed.

(** ** Steps without callbacks *)

Lemma returns_on_links {A} (m : ST (cworld Q) A) (w : qworld Q) (R : A * qworld Q → Prop) :
  returns (m (qw_refcnt w)) (λ '(a, c), R (a, put_rc c w)) → returns (on_links m w) R.
Proof. intros Hm. unfold on_links. apply returns_bind. eapply returns_mono; [exact Hm|]. by intros [a c]. Qed.
Lemma returns_on_refcnt {A} (m : ST (cworld Q) A) (w : qworld Q) (R : A * qworld Q → Prop) :
  returns (m (qw_refcnt w)) (λ '(a, c), cw_given c = cw_given (qw_refcnt w) ∧ R (a, put_rc c w)) →
  returns (on_refcnt m w) R.
Proof.
  intros Hm. unfold on_refcnt. go. apply returns_on_links. eapply returns_mono; [exact Hm|]. intros [a c] [Hg HR]. go.
  simpl. by rewrite Hg, drop_all.
Qed.

Lemma returns_load_q q (w : qworld Q) (R : queue_t * qworld Q → Prop) :
  qw_queue w = QLive q → R (q, w) → returns (load_q w) R.
Proof. intros Hq HR. unfold load_q. by rewrite Hq. Qed.
Lemma returns_load_qentry e x (w : qworld Q) (R : queue_entry_t * qworld Q → Prop) :
  qw_entries w !! e = Some x → R (x, w) → returns (load_entry e w) R.
Proof. intros He HR. unfold load_entry. by rewrite He. Qed.
Lemma returns_set_qentry e f x (w : qworld Q) (R : unit * qworld Q → Prop) :
  qw_entries w !! e = Some x → R (tt, put_entries (<[e := f x]> (qw_entries w)) w) → returns (set_entry e f w) R.
Proof. intros He HR. unfold set_entry. go. by eapply returns_load_qentry. Qed.

(** Counts and links have changed. *)
Lemma qinv_step q F f c P w f' L cw :
  qinv q F f c P w → counts (refs_with f' (put_clinks L c)) cw → qinv q F f' (put_clinks L c) P (put_rc cw w).
Proof. intros [] Hc. by split. Qed.
Lemma qinv_ext q F f c P w f' : qinv q F f c P w → (∀ k, k ∈ F → f (c_node k) = f' (c_node k)) → qinv q F f' c P w.
Proof.
  intros Hw Hf. pose proof Hw as Hw'. destruct Hw'. split; try done. erewrite refs_with_ext; [done|].
  intros n [x Hx]. apply qi_live0 in Hx as (k&Hk&<-&_). symmetry. by apply Hf.
Qed.
Lemma counts_given s s' (w w' : cworld Q) : counts s w → counts s' w' → rs_given s = rs_given s' → cw_given w' = cw_given w.
Proof. intros (?&?&?&?&?&?&_&_&_&_&_&_&Hg&_) (?&?&?&?&?&?&_&_&_&_&_&_&Hg'&_) E. by rewrite Hg', Hg, E. Qed.

Lemma put_clinks_id c : put_clinks (cl_links c) c = c.
Proof. by destruct c. Qed.
Lemma put_clinks_twice L L' c : put_clinks L (put_clinks L' c) = put_clinks L c.
Proof. done. Qed.
(** Only counts have changed. *)
Lemma qinv_counts q F f c P w f' cw :
  qinv q F f c P w → counts (refs_with f' c) cw → qinv q F f' c P (put_rc cw w) ∧ cw_given cw = cw_given (qw_refcnt w).
Proof.
  intros Hw Hc. split; [|by eapply counts_given; [by apply (qi_counts _ _ _ _ _ _ Hw)|exact Hc|]].
  rewrite <- (put_clinks_id c). rewrite <- (put_clinks_id c) in Hc. by apply (qinv_step q F f c P w).
Qed.

(** The count of a node can be incremented. *)
Definition in_range (x : Z) : Prop := 0 ≤ x < 2 ^ 32 - 2.

Lemma qi_ref_to q F f c P w k : qinv q F f c P w → k ∈ F → in_range (f (c_node k)) → ref_to (refs_with f c) (c_node k).
Proof. intros Hw Hk Hr. right. eexists. split; [by eapply qi_ref|]. unfold in_range in Hr. simpl. lia. Qed.

Lemma node_of_ok q F f c P w k (R : Z * qworld Q → Prop) :
  qinv q F f c P w → k ∈ F → R (c_node k, w) → returns (node_of (c_entry k) w) R.
Proof.
  intros Hw Hk HR. unfold node_of, load_entry. go. rewrite (qi_cell _ _ _ _ _ _ Hw k Hk). go. exact HR.
Qed.

Lemma retain_ok' q F f c P w k (R : unit * qworld Q → Prop) :
  qinv q F f c P w → k ∈ F → in_range (f (c_node k)) →
  (∀ w', qinv q F (λ m, f m + Z.b2z (c_node k =? m)) c P w' → R (tt, w')) → returns (retain (c_node k) w) R.
Proof.
  intros Hw Hk Hr HR. unfold retain. go. apply returns_on_refcnt.
  eapply returns_mono; [apply (retain_ref_ok 1024 false true _ (refs_with f c)); [by apply (qi_counts _ _ _ _ _ _ Hw)|by eapply qi_ref_to]|].
  intros [n cw] [_ Hcw]. rewrite gain_refs_with in Hcw. destruct (qinv_counts _ _ _ _ _ _ _ _ Hw Hcw) as [Hw' Hg]. split; [done|].
  go. by apply HR.
Qed.
Lemma lose_with f c n x :
  cl_live c !! n = Some x → 2 ≤ f n → lose 1024 false true n (refs_with f c) = refs_with (λ m, f m - Z.b2z (n =? m)) c.
Proof.
  intros Hx Hf. rewrite <- (weaken_refs_with n f c). unfold lose. rewrite lookup_refs_with, Hx. simpl fmap. cbn [ob_count].
  rewrite (proj2 (Z.leb_gt _ _)) by lia. symmetry. rewrite (weaken_live n (mk_object x.1 x.2 (f n))); [done|].
  by rewrite lookup_refs_with, Hx.
Qed.
Lemma release_ok' q F f c P w k (R : unit * qworld Q → Prop) :
  qinv q F f c P w → k ∈ F → 2 ≤ f (c_node k) → in_range (f (c_node k)) →
  (∀ w', qinv q F (λ m, f m - Z.b2z (c_node k =? m)) c P w' → R (tt, w')) → returns (release (c_node k) w) R.
Proof.
  intros Hw Hk Hf Hr HR. unfold release. go. apply returns_on_refcnt. unfold in_range in Hr.
  eapply returns_mono; [eapply (release_ref_ok 1024 false true _ _ (refs_with f c)); [by apply (qi_counts _ _ _ _ _ _ Hw)|exact (qi_calm _ _ _ _ _ _ Hw)|by eapply qi_ref|]|].
  { simpl. lia. }
  intros [n cw] [_ Hcw]. rewrite (lose_with _ _ _ _ (qi_object _ _ _ _ _ _ _ Hw Hk)) in Hcw by done.
  destruct (qinv_counts _ _ _ _ _ _ _ _ Hw Hcw) as [Hw' Hg]. split; [done|]. go. by apply HR.
Qed.
Lemma get_node_ptr_ok' q F f c P w k (R : Z * qworld Q → Prop) :
  qinv q F f c P w → k ∈ F → R (c_entry k, w) → returns (on_refcnt (get_node_ptr (c_node k)) w) R.
Proof.
  intros Hw Hk HR. apply returns_on_refcnt.
  rewrite (get_node_ptr_ok 1024 false true _ _ _ _ (qi_counts _ _ _ _ _ _ Hw) (qi_ref _ _ _ _ _ _ _ Hw Hk)).
  apply returns_Ret. split; [done|]. by destruct w.
Qed.
Lemma deref_ok' q F f c P w l v k skip (R : Z * qworld Q → Prop) :
  qinv q F f c P w → cl_links c !! l = Some v → k ∈ F → target v = c_node k → (v = c_node k ∨ skip = false) → in_range (f (c_node k)) →
  (∀ w', qinv q F (λ m, f m + Z.b2z (c_node k =? m)) c P w' → R (c_node k, w')) →
  returns (on_refcnt (deref_link_internal l skip) w) R.
Proof.
  intros Hw Hl Hk Hv Hs Hr HR. apply returns_on_refcnt.
  eapply returns_mono; [apply (deref_link_internal_ok 1024 false true l v skip (refs_with f c)); [by apply (qi_counts _ _ _ _ _ _ Hw)|done|]|].
  { rewrite Hv. by eapply qi_ref_to. }
  intros [n cw]. assert ((v mod 2 =? 1) && skip = false) as ->.
  { destruct Hs as [->| ->]; [|by rewrite andb_false_r]. destruct (qi_node _ _ _ _ _ _ _ Hw Hk) as [_ Hn]. by rewrite Hn. }
  cbv beta iota zeta. rewrite Hv, gain_refs_with. intros [-> Hcw]. destruct (qinv_counts _ _ _ _ _ _ _ _ Hw Hcw) as [Hw' Hg]. split; [done|]. by apply HR.
Qed.
Lemma deref_entry_ok q F f c P w l k (R : Z * qworld Q → Prop) :
  qinv q F f c P w → cl_links c !! l = Some (c_node k) → k ∈ F → in_range (f (c_node k)) →
  (∀ w', qinv q F (λ m, f m + Z.b2z (c_node k =? m)) c P w' → R (c_entry k, w')) → returns (deref_entry l w) R.
Proof.
  intros Hw Hl Hk Hr HR. unfold deref_entry. go.
  eapply (deref_ok' _ _ _ _ _ _ l _ k true); [exact Hw|done|done| |by left|done|].
  { apply mark_off_node. by eapply qi_node. }
  intros w' Hw'. go. eapply get_node_ptr_ok'; [exact Hw'|done|]. by apply HR.
Qed.
Lemma load_link_ok q F f c P w l v (R : Z * qworld Q → Prop) :
  qinv q F f c P w → cl_links c !! l = Some v → R (v, w) → returns (on_links (load_link l) w) R.
Proof.
  intros Hw Hl HR. apply returns_on_links. eapply returns_load_link; [by rewrite (qi_links _ _ _ _ _ _ Hw)|]. by destruct w.
Qed.
Lemma CAS_link_ok q F f c P w l o n (R : bool * qworld Q → Prop) :
  qinv q F f c P w → cl_links c !! l = Some o →
  (∀ w', qinv q F f (put_clinks (<[l := n]> (cl_links c)) c) P w' → R (true, w')) → returns (CAS_link l o n w) R.
Proof.
  intros Hw Hl HR. pose proof (qi_links _ _ _ _ _ _ Hw) as Hli. unfold CAS_link. apply returns_on_links. go.
  eapply returns_load_link; [by rewrite Hli|]. go. rewrite Z.eqb_refl. go. eapply returns_store_link; [by rewrite Hli|]. go. apply HR.
  apply (qinv_step q F f c P w); [done|]. rewrite Hli.
  apply (counts_links 1024 false true _ (refs_with f c)). by apply (qi_counts _ _ _ _ _ _ Hw).
Qed.
(** A null link is set, or one that is set is nulled. *)
Lemma store_new_ok q F f c P w l k (R : unit * qworld Q → Prop) :
  qinv q F f c P w → cl_links c !! l = Some 0 → k ∈ F → in_range (f (c_node k)) →
  (∀ w', qinv q F (λ m, f m + Z.b2z (c_node k =? m)) (put_clinks (<[l := c_node k]> (cl_links c)) c) P w' → R (tt, w')) →
  returns (on_refcnt (store_ref l (c_node k)) w) R.
Proof.
  intros Hw Hl Hk Hr HR. pose proof (qi_counts _ _ _ _ _ _ Hw) as Hc. apply returns_on_refcnt.
  eapply returns_mono; [eapply (store_ref_ok 1024 false true l (c_node k) 0 (refs_with f c));
    [done|exact (qi_calm _ _ _ _ _ _ Hw)|done|by left|by eapply qi_ref_to| |by left]|].
  { intros o Ho. rewrite (qi_ref _ _ _ _ _ _ _ Hw Hk) in Ho. injection Ho as <-. exact Hr. }
  intros [[] cw] Hcw. unfold store_spec in Hcw. simpl rs_links in Hcw. rewrite Hl in Hcw. simpl default in Hcw. change (target 0) with 0 in Hcw.
  change (put_rlinks _ (refs_with f c)) with (refs_with f (put_clinks (<[l := c_node k]> (cl_links c)) c)) in Hcw.
  rewrite gain_refs_with in Hcw.
  assert (Hnull : lose 1024 false true 0 (refs_with (λ m, f m + Z.b2z (c_node k =? m)) (put_clinks (<[l := c_node k]> (cl_links c)) c))
    = refs_with (λ m, f m + Z.b2z (c_node k =? m)) (put_clinks (<[l := c_node k]> (cl_links c)) c)).
  { unfold lose. rewrite lookup_refs_with. pose proof (live_null 1024 false true _ _ Hc) as H0n. rewrite lookup_refs_with in H0n.
    change (cl_live (put_clinks ?L c)) with (cl_live c). by destruct (cl_live c !! 0). }
  rewrite Hnull in Hcw. split; [by eapply counts_given; [exact Hc|exact Hcw|]|]. apply HR. by eapply qinv_step.
Qed.
Lemma store_null_ok q F f c P w l old k (R : unit * qworld Q → Prop) :
  qinv q F f c P w → cl_links c !! l = Some old → k ∈ F → target old = c_node k → 2 ≤ f (c_node k) → in_range (f (c_node k)) →
  (∀ w', qinv q F (λ m, f m - Z.b2z (c_node k =? m)) (put_clinks (<[l := 0]> (cl_links c)) c) P w' → R (tt, w')) →
  returns (on_refcnt (store_ref l 0) w) R.
Proof.
  intros Hw Hl Hk Hold Hf Hr HR. pose proof (qi_counts _ _ _ _ _ _ Hw) as Hc. apply returns_on_refcnt.
  pose proof (qi_node _ _ _ _ _ _ _ Hw Hk) as [Hn0 _]. pose proof (live_null 1024 false true _ _ Hc) as H0n.
  eapply returns_mono; [eapply (store_ref_ok 1024 false true l 0 old (refs_with f c));
    [done|exact (qi_calm _ _ _ _ _ _ Hw)|done| |by left| |]|].
  { right. intros ->. rewrite mark_off_eq in Hold. change (1 - 1 mod 2) with 0 in Hold. lia. }
  { intros o Ho. by rewrite H0n in Ho. }
  { rewrite Hold. by eapply qi_ref_to. }
  intros [[] cw] Hcw. unfold store_spec in Hcw. simpl rs_links in Hcw. rewrite Hl in Hcw. simpl default in Hcw. rewrite Hold in Hcw.
  change (put_rlinks _ (refs_with f c)) with (refs_with f (put_clinks (<[l := 0]> (cl_links c)) c)) in Hcw.
  rewrite gain_none in Hcw by exact H0n. rewrite (lose_with _ _ _ (c_entry k, 0)) in Hcw; [|exact (qi_object _ _ _ _ _ _ _ Hw Hk)|done].
  split; [by eapply counts_given; [exact Hc|exact Hcw|]|]. apply HR. by eapply qinv_step.
Qed.
End state.
