(* ===== verification/QueueEntries.v ===== *)
(** * The entries of a linked queue

    The creation of an entry, and the release of the last reference to one,
    which can make the collector free entries that wait. *)

From S2P Require Import Prelude Rqueue PtrQueue Refcnt RefcntOps RefcntSpec Queue QueueOps.

Section entries.
Context {Q : Type} `{PtrQueueLaws Q}.
Abbreviation M := (ST (qworld Q)).
Abbreviation counts := (counts 1024 false true).

(** The fields of entries that are in use keep their links. *)
Definition same_links (es : list Z) (L L' : gmap Z Z) : Prop :=
  ∀ e, e ∈ es → L' !! at_prev e = L !! at_prev e ∧ L' !! at_next e = L !! at_next e.

Lemma same_links_trans es L1 L2 L3 : same_links es L1 L2 → same_links es L2 L3 → same_links es L1 L3.
Proof. intros H1 H2 e He. destruct (H1 e He) as [<- <-]. by apply H2. Qed.

(** ** Entries that the counters have freed *)

Lemma free_entry_ok gv e G q F f c P w (R : unit * qworld Q → Prop) :
  qinv gv (e :: G) q F f c P w →
  (∀ w' L', same_links (c_entry <$> F) (cl_links c) L' → qinv gv G q F f (put_clinks L' c) P w' → R (tt, w')) →
  returns (free_entry e w) R.
Proof.
  intros Hw HR. pose proof (qi_links _ _ _ _ _ _ _ _ Hw) as Hli. destruct Hw.
  assert (Hperm : (c_entry <$> F) ++ (cl_waiting c).*2 ++ (e :: G) ++ P ≡ₚ e :: (c_entry <$> F) ++ (cl_waiting c).*2 ++ G ++ P) by solve_Permutation.
  rewrite Hperm in qi_nodup. apply NoDup_cons in qi_nodup as [Hn Hnd].
  destruct (qw_entries w !! e) as [x|] eqn:Ex.
  2:{ assert (is_Some (qw_entries w !! e)) as []; [apply qi_dom; rewrite Hperm; left|congruence]. }
  unfold free_entry. go. eapply returns_load_qentry; [exact Ex|]. go. simpl.
  set (L' := delete (at_next e) (delete (at_prev e) (cw_links (qw_refcnt w)))). apply (HR _ L').
  - intros e' He'. assert (e' ≠ e) by (intros ->; apply Hn, elem_of_app; by left). unfold L', at_prev, at_next.
    rewrite !lookup_delete_ne by lia. by rewrite Hli.
  - split; simpl; try done.
    + by apply (counts_links 1024 false true L' (refs_with f c)).
    + intros e'. destruct (decide (e' = e)) as [->|Hne].
      * rewrite lookup_delete_eq. split; [by intros []|done].
      * rewrite lookup_delete_ne, qi_dom, Hperm, elem_of_cons by done. naive_solver.
    + intros k Hk. rewrite lookup_delete_ne; [by apply qi_cell|]. intros ->. apply Hn, elem_of_app. left. by apply list_elem_of_fmap_2.
    + intros e' He'. rewrite lookup_delete_ne; [apply qi_waiting; set_solver|]. intros ->. apply Hn. set_solver.
    + intros e' He'. apply qi_new. destruct (decide (e' = e)) as [->|Hne]; [by rewrite lookup_delete_eq in He'; destruct He'|].
      by rewrite lookup_delete_ne in He'.
Qed.

Lemma reusable_ok gv e G q F f c P w (R : unit * qworld Q → Prop) :
  qinv gv (e :: G) q F f c P w →
  (∀ w' P' L', same_links (c_entry <$> F) (cl_links c) L' → qinv gv G q F f (put_clinks L' c) P' w' → R (tt, w')) →
  returns (queue_reusable_entry e w) R.
Proof.
  intros Hw HR. pose proof Hw as Hw'. destruct Hw'.
  assert (Hperm : (c_entry <$> F) ++ (cl_waiting c).*2 ++ (e :: G) ++ P ≡ₚ e :: (c_entry <$> F) ++ (cl_waiting c).*2 ++ G ++ P) by solve_Permutation.
  pose proof qi_nodup as Hnd. rewrite Hperm in Hnd. apply NoDup_cons in Hnd as [Hn Hnd].
  destruct (qi_waiting e) as (n&v&Ee); [set_solver|].
  unfold queue_reusable_entry. go. eapply returns_set_qentry; [exact Ee|]. go.
  eapply returns_load_qentry; [apply lookup_insert_eq|]. go. cbn [en_queue with_node negb]. go.
  eapply returns_load_q; [exact qi_queue|]. go.
  set (w1 := put_entries (<[e := with_node 0 (mk_entry n v true)]> (qw_entries w)) w).
  assert (Hw1 : qinv gv (e :: G) q F f c P w1).
  { split; simpl; try done.
    - intros e'. rewrite lookup_insert_dom by (by eexists). apply qi_dom.
    - intros k Hk. rewrite lookup_insert_ne; [by apply qi_cell|]. intros ->. apply Hn, elem_of_app. left. by apply list_elem_of_fmap_2.
    - intros e' He'. destruct (decide (e' = e)) as [->|Hne]; [rewrite lookup_insert_eq; by eexists _, _|].
      rewrite lookup_insert_ne by done. by apply qi_waiting.
    - intros e'. rewrite lookup_insert_dom by (by eexists). apply qi_new. }
  destruct (q_bpool q) eqn:Eb; go.
  - destruct qi_pool as (size&nw&nr&Hp&Hs). unfold on_bpool. go. apply returns_bind, returns_bind. simpl qw_bpool.
    eapply returns_mono; [apply (pq_write_ok e _ _ _ _ _ _ Hp)|].
    { assert (0 < e); [|lia]. apply qi_new. by eexists. }
    intros [rc p] [Hg Hrc]. go. simpl. rewrite Hg, drop_all. go.
    destruct (Z.of_nat (length P) <? size).
    + destruct Hrc as [-> Hp']. go. apply (HR _ (P ++ [e]) (cl_links c)); [by intros ?|]. rewrite put_clinks_id. destruct Hw1. split; try done.
      * assert ((c_entry <$> F) ++ (cl_waiting c).*2 ++ G ++ P ++ [e] ≡ₚ e :: (c_entry <$> F) ++ (cl_waiting c).*2 ++ G ++ P) as -> by solve_Permutation.
        by constructor.
      * intros e'. rewrite (qi_dom0 e'). set_solver.
      * intros e' He'. apply qi_waiting0. set_solver.
      * rewrite Eb. by eexists size, _, _.
    + destruct Hrc as [-> Hp']. cbn [Z.eqb negb]. eapply free_entry_ok; [|intros w' L' HL Hw'; by apply (HR w' P L')].
      destruct Hw1. split; try done. rewrite Eb. by eexists size, _, _.
  - cbn [Z.eqb negb]. eapply free_entry_ok; [exact Hw1|]. intros w' L' HL Hw'. by apply (HR w' P L').
Qed.

Lemma reusables_ok gv G q F f c P w :
  qinv gv G q F f c P w →
  returns (queue_reusable_entries G w) (λ '(_, w'), ∃ P' L',
    same_links (c_entry <$> F) (cl_links c) L' ∧ qinv gv [] q F f (put_clinks L' c) P' w').
Proof.
  revert c P w. induction G as [|e G IH]; intros c P w Hw; simpl; go.
  - exists P, (cl_links c). split; [by intros ?|]. by rewrite put_clinks_id.
  - eapply reusable_ok; [exact Hw|]. intros w1 P1 L1 HL1 Hw1. eapply returns_mono; [by eapply (IH (put_clinks L1 c))|].
    intros [[] w2] (P2&L2&HL2&Hw2). exists P2, L2. split; [|done]. by eapply same_links_trans.
Qed.

(** ** The last reference to an entry *)

Lemma collect_shape s :
  ∃ j, collect 1024 true s = mk_refs (rs_live s) (drop j (rs_waiting s)) (rs_links s) (rs_terminated s) (rs_given s ++ (take j (rs_waiting s)).*2) ∧
    Z.of_nat (length (drop j (rs_waiting s))) ≤ 1024.
Proof.
  unfold collect. destruct (Z.ltb_spec 1024 (Z.of_nat (length (rs_waiting s)))).
  - eexists. split; [reflexivity|]. rewrite length_drop. change (1024 / 2) with 512. lia.
  - exists 0%nat. split; [|done]. destruct s. simpl. by rewrite app_nil_r.
Qed.

(** An entry that is not referred to waits; some that waited are given. *)
Lemma qinv_terminated gv q k F f c P w j L cw :
  let W := cl_waiting c ++ [(c_node k, c_entry k)] in
  let c1 := mk_client (cl_regs c) L (delete (c_node k) (cl_live c)) (drop j W) (cl_terminated c)
    (cl_given c ++ (take j W).*2) in
  qinv gv [] q (k :: F) f c P w → counts (refs_with f c1) cw → Z.of_nat (length (drop j W)) ≤ 1024 →
  qinv gv (take j W).*2 q F f c1 P (put_rc cw w).
Proof.
  intros W c1 Hw Hc Hj. destruct Hw.
  assert (Hsplit : (drop j W).*2 ++ (take j W).*2 ≡ₚ c_entry k :: (cl_waiting c).*2).
  { rewrite Permutation_app_comm, <- fmap_app, take_drop. unfold W. rewrite fmap_app. simpl. symmetry. apply Permutation_cons_append. }
  assert (Hperm : (c_entry <$> F) ++ (drop j W).*2 ++ (take j W).*2 ++ P ≡ₚ (c_entry <$> k :: F) ++ (cl_waiting c).*2 ++ [] ++ P).
  { rewrite (app_assoc (drop j W).*2), Hsplit. simpl. by rewrite <- Permutation_middle. }
  pose proof qi_nodes as Hnd. rewrite fmap_cons in Hnd. apply NoDup_cons in Hnd as [Hn Hnd].
  split; simpl; try done.
  - intros n x. rewrite lookup_delete_Some, qi_live. split.
    + intros [Hne (k'&Hk'&Hkn&Hx)]. apply elem_of_cons in Hk' as [->|Hk']; [done|]. by exists k'.
    + intros (k'&Hk'&Hkn&Hx). split; [|exists k'; split; [by right|done]]. intros <-. apply Hn. rewrite <- Hkn. by apply list_elem_of_fmap_2.
  - by rewrite Hperm.
  - intros e. by rewrite Hperm, qi_dom.
  - intros k' Hk'. apply qi_cell. by right.
  - intros e. rewrite Hsplit, elem_of_cons. intros [->|He].
    + eexists _, _. apply qi_cell. left.
    + apply qi_waiting. by rewrite app_nil_r.
Qed.

(** A call of the counters by which [k] loses its last reference. *)
Lemma on_refcnt_last {A} (m : ST (cworld Q) A) gv q k F f c P w L :
  qinv gv [] q (k :: F) f c P w → f (c_node k) = 1 →
  returns (m (qw_refcnt w)) (λ '(_, cw), counts (lose 1024 false true (c_node k) (refs_with f (put_clinks L c))) cw) →
  returns (on_refcnt m w) (λ '(_, w'), ∃ c' P', qinv gv [] q F f c' P' w' ∧ same_links (c_entry <$> F) L (cl_links c')).
Proof.
  intros Hw Hf Hm. assert (Hk : k ∈ k :: F) by left.
  pose proof (qi_object _ _ _ _ _ _ _ _ _ Hw Hk) as Hlive. pose proof (qi_given _ _ _ _ _ _ _ _ Hw) as Hg.
  unfold on_refcnt. go. apply returns_on_links. eapply returns_mono; [exact Hm|].
  intros [r cw] Hcw. go. unfold lose in Hcw. rewrite lookup_refs_with in Hcw. simpl cl_live in Hcw. rewrite Hlive in Hcw.
  simpl fmap in Hcw. cbn [ob_count] in Hcw. rewrite Hf in Hcw. cbn [Z.leb Z.compare Pos.compare Pos.compare_cont] in Hcw.
  set (s := terminate false (c_node k) _ _) in Hcw. destruct (collect_shape s) as (j&Ej&Hj). rewrite Ej in Hcw.
  set (W := cl_waiting c ++ [(c_node k, c_entry k)]).
  set (c1 := mk_client (cl_regs c) L (delete (c_node k) (cl_live c)) (drop j W) (cl_terminated c) (cl_given c ++ (take j W).*2)).
  assert (Hc1 : counts (refs_with f c1) cw).
  { replace (refs_with f c1) with (mk_refs (rs_live s) (drop j (rs_waiting s)) (rs_links s) (rs_terminated s)
      (rs_given s ++ (take j (rs_waiting s)).*2)); [done|]. unfold refs_with, c1, s, terminate. simpl. rewrite app_nil_r. f_equal.
    by rewrite map_imap_delete. }
  assert (Hgiven : drop (length (cw_given (qw_refcnt w))) (cw_given cw) = (take j W).*2).
  { destruct Hc1 as (?&?&?&?&?&?&_&_&_&_&_&_&Hg1&_). rewrite Hg, Hg1. apply drop_app_length. }
  simpl. rewrite Hgiven.
  pose proof (qinv_terminated gv q k F f c P w j L cw Hw Hc1 Hj) as Hw1.
  eapply returns_mono; [by eapply reusables_ok|]. intros [[] w'] (P'&L'&HL&Hw'). go. by exists (put_clinks L' c1), P'.
Qed.

Lemma release_last_ok gv q k F f c P w :
  qinv gv [] q (k :: F) f c P w → f (c_node k) = 1 →
  returns (release (c_node k) w) (λ '(_, w'), ∃ c' P', qinv gv [] q F f c' P' w' ∧
    same_links (c_entry <$> F) (cl_links c) (cl_links c')).
Proof.
  intros Hw Hf. assert (Hk : k ∈ k :: F) by left. unfold release. go.
  eapply returns_mono; [apply (on_refcnt_last _ gv q k F f c P w (cl_links c) Hw Hf)|by intros [r w']].
  eapply returns_mono; [eapply (release_ref_ok 1024 false true _ _ (refs_with f c));
    [exact (qi_counts _ _ _ _ _ _ _ _ Hw)|exact (qi_calm _ _ _ _ _ _ _ _ Hw)|by eapply qi_ref|]|].
  { simpl. rewrite Hf. lia. }
  intros [r cw] [_ Hcw]. by rewrite put_clinks_id.
Qed.
(** A link to it is nulled. *)
Lemma store_last_ok gv q k F f c P w l :
  qinv gv [] q (k :: F) f c P w → f (c_node k) = 1 → cl_links c !! l = Some (c_node k) →
  returns (on_refcnt (store_ref l 0) w) (λ '(_, w'), ∃ c' P', qinv gv [] q F f c' P' w' ∧
    same_links (c_entry <$> F) (<[l := 0]> (cl_links c)) (cl_links c')).
Proof.
  intros Hw Hf Hl. assert (Hk : k ∈ k :: F) by left. pose proof (qi_counts _ _ _ _ _ _ _ _ Hw) as Hc.
  pose proof (qi_node _ _ _ _ _ _ _ _ _ Hw Hk) as Hn. pose proof (live_null 1024 false true _ _ Hc) as H0n.
  assert (Ht : target (c_node k) = c_node k) by (by apply mark_off_node).
  apply (on_refcnt_last _ gv q k F f c P w (<[l := 0]> (cl_links c)) Hw Hf).
  eapply returns_mono; [eapply (store_ref_ok 1024 false true l 0 (c_node k) (refs_with f c));
    [done|exact (qi_calm _ _ _ _ _ _ _ _ Hw)|done| |by left| |]|].
  { right. destruct Hn as [_ Hn]. intros E. by rewrite E in Hn. }
  { intros o Ho. by rewrite H0n in Ho. }
  { rewrite Ht. eapply qi_ref_to; [exact Hw|done|]. unfold in_range. lia. }
  intros [[] cw] Hcw. unfold store_spec in Hcw. simpl rs_links in Hcw. rewrite Hl in Hcw. simpl default in Hcw. rewrite Ht in Hcw.
  by rewrite gain_none in Hcw by exact H0n.
Qed.

(** ** A new entry *)

Lemma create_spec_with n e f c :
  cl_live c !! n = None →
  create_spec n e 0 (refs_with f c) =
    refs_with (λ m, if decide (m = n) then 1 else f m)
      (mk_client (cl_regs c) (cl_links c) (<[n := (e, 0)]> (cl_live c)) (cl_waiting c) (cl_terminated c) (cl_given c)).
Proof.
  intros Hn. apply refs_eq; [|done]. intros m. unfold create_spec.
  change (<[n := mk_object e 0 1]> (rs_live (refs_with f c)) !! m =
    rs_live (refs_with (λ m, if decide (m = n) then 1 else f m)
      (mk_client (cl_regs c) (cl_links c) (<[n := (e, 0)]> (cl_live c)) (cl_waiting c) (cl_terminated c) (cl_given c))) !! m).
  rewrite lookup_insert, !lookup_refs_with. simpl cl_live. rewrite lookup_insert. case_decide as Hm.
  - subst m. simpl. by rewrite decide_True.
  - destruct (cl_live c !! m); [|done]. simpl. by rewrite decide_False by (by intros ->).
Qed.

Lemma create_entry_ok gv q F f c P w :
  qinv gv [] q F f c P w →
  returns (create_entry w) (λ '(e, w'), ∃ n f' c', qinv gv [] q (mk_qcell e n 0 :: F) f' c' P w' ∧ f' n = 1 ∧
    (∀ k, k ∈ F → f' (c_node k) = f (c_node k)) ∧ cl_links c' = <[at_next e := 0]> (<[at_prev e := 0]> (cl_links c))).
Proof.
  intros Hw. pose proof (qi_links _ _ _ _ _ _ _ _ Hw) as Hli. pose proof (qi_given _ _ _ _ _ _ _ _ Hw) as Hg. destruct Hw.
  unfold create_entry, calloc_entry. go.
  apply (returns_mono _ (λ '(ok, w'), ok = true ∧ ∃ a, false ∉ a ∧ w' = mk_qworld (qw_queue w) (qw_refcnt w) (qw_bpool w) (qw_entries w)
    (qw_new w) a (qw_values w))).
  { unfold qalloc. destruct (qw_alloc w) as [|b a] eqn:Ea.
    - apply returns_Ret. split; [done|]. exists []. split; [done|]. destruct w; simpl in *. by rewrite Ea.
    - apply not_elem_of_cons in qi_alloc as [Hb Ha]. destruct b; [apply returns_Ret; by eauto|done]. }
  intros [ok w1] (->&a&Ha&->). go. simpl. set (e := qw_new w) in *.
  set (L := <[at_next e := 0]> (<[at_prev e := 0]> (cw_links (qw_refcnt w)))).
  rewrite (proj2 (Z.eqb_neq e 0)) by lia. go.
  assert (Hc1 : counts (refs_with f (put_clinks L c)) (put_links L (qw_refcnt w))) by (by apply (counts_links 1024 false true L (refs_with f c))).
  apply returns_on_refcnt. simpl qw_refcnt.
  eapply returns_mono; [exact (new_node_ok 1024 false true e 0 _ _ Hc1)|]. intros [n cw] (Hn&Hnl&_&Hcw). go.
  rewrite lookup_refs_with in Hnl. assert (Hnone : cl_live c !! n = None) by (simpl in Hnl; by destruct (cl_live c !! n)).
  rewrite create_spec_with in Hcw by done.
  set (c2 := mk_client _ _ _ _ _ _) in Hcw. set (f' := λ m, if decide (m = n) then 1 else f m) in Hcw.
  split. { destruct Hcw as (?&?&?&?&?&?&_&_&_&_&_&_&Hg1&_). rewrite Hg1. simpl. by rewrite Hg. }
  go. eapply returns_set_qentry; [simpl; apply lookup_insert_eq|]. go. eapply returns_set_qentry; [simpl; apply lookup_insert_eq|]. go.
  simpl. rewrite !insert_insert_eq.
  assert (He : qw_entries w !! e = None).
  { destruct (qw_entries w !! e) eqn:Ee; [|done]. assert (0 < e < e) by (apply qi_new; by eexists). lia. }
  assert (Hen : e ∉ (c_entry <$> F) ++ (cl_waiting c).*2 ++ [] ++ P) by (rewrite <- qi_dom, He; by intros []).
  assert (Hnn : n ∉ c_node <$> F).
  { intros (k&Hk&Hin)%list_elem_of_fmap. assert (cl_live c !! n = Some (c_entry k, 0)) by (apply qi_live; by exists k). congruence. }
  exists n, f', c2. split; [|split; [|split]].
  - split; simpl; try done.
    + intros m x. rewrite lookup_insert_Some, qi_live. split.
      * intros [[<- <-]|[Hne (k&Hk&Hkm&Hx)]]; [eexists; split; [left|done]|]. exists k. split; [by right|done].
      * intros (k&Hk&Hkm&Hx). apply elem_of_cons in Hk as [->|Hk]; [by left|]. right. split; [|by exists k].
        intros <-. apply Hnn. rewrite <- Hkm. by apply list_elem_of_fmap_2.
    + by constructor.
    + by constructor.
    + intros e'. rewrite lookup_insert_is_Some', qi_dom, elem_of_cons. naive_solver.
    + intros k [->|Hk]%elem_of_cons; [simpl; by rewrite lookup_insert_eq|]. rewrite lookup_insert_ne; [by apply qi_cell|].
      intros ->. apply Hen, elem_of_app. left. by apply list_elem_of_fmap_2.
    + intros e' He'. rewrite lookup_insert_ne; [by apply qi_waiting|]. intros <-. apply Hen. set_solver.
    + intros e'. rewrite lookup_insert_is_Some'. intros [<-|He']; [lia|]. specialize (qi_new e' He'). lia.
    + lia.
  - unfold f'. by rewrite decide_True.
  - intros k Hk. unfold f'. rewrite decide_False; [done|]. intros <-. apply Hnn. by apply list_elem_of_fmap_2.
  - simpl. unfold L. by rewrite Hli.
Qed.

Lemma set_value_ok gv q e n v0 v F f c P w (R : unit * qworld Q → Prop) :
  qinv gv [] q (mk_qcell e n v0 :: F) f c P w → (∀ w', qinv gv [] q (mk_qcell e n v :: F) f c P w' → R (tt, w')) →
  returns (set_entry e (with_qvalue v) w) R.
Proof.
  intros Hw HR. destruct Hw. assert (Hk : mk_qcell e n v0 ∈ mk_qcell e n v0 :: F) by left. pose proof (qi_cell _ Hk) as He. simpl in He.
  eapply returns_set_qentry; [exact He|]. apply HR. apply NoDup_cons in qi_nodup as Hnd. destruct Hnd as [Hn Hnd].
  split; simpl; try done.
  - intros m x. rewrite qi_live. split; intros (k&Hk'&Hkm); apply elem_of_cons in Hk' as [->|Hk'];
      [exists (mk_qcell e n v)|exists k|exists (mk_qcell e n v0)|exists k]; (split; [by constructor|exact Hkm]).
  - intros e'. rewrite lookup_insert_dom by (by eexists). apply qi_dom.
  - intros k [->|Hk']%elem_of_cons; [simpl; by rewrite lookup_insert_eq|]. rewrite lookup_insert_ne; [apply qi_cell; by right|].
    intros ->. apply Hn, elem_of_app. left. simpl. by apply list_elem_of_fmap_2.
  - intros e' He'. rewrite lookup_insert_ne; [by apply qi_waiting|]. intros <-. apply Hn. set_solver.
  - intros e'. rewrite lookup_insert_dom by (by eexists). apply qi_new.
Qed.
End entries.
