(* ===== verification/QueueEnds.v ===== *)
(** * Insertion and removal at the ends of a linked queue

    An entry is inserted after a sentinel, in either direction, or removed
    from there: the counts of its neighbours are unchanged in the end. *)

From S2P Require Import Prelude Rqueue PtrQueue Refcnt RefcntOps RefcntSpec Queue QueueOps QueueEntries.

(** Counts that were changed by references to distinct nodes. *)
Ltac nodes_differ := first [assumption | apply not_eq_sym; assumption | congruence].
Ltac counting :=
  unfold in_range in *; cbv beta; rewrite ?Z.eqb_refl;
  repeat match goal with |- context [?x =? ?y] => rewrite (proj2 (Z.eqb_neq x y)) by nodes_differ end;
  cbn [Z.b2z]; lia.
(** Links to distinct fields. *)
Ltac fields_differ :=
  first [ apply fwd_bwd | apply not_eq_sym, fwd_bwd
        | let E := fresh in intros E; apply fwd_inj in E; congruence
        | let E := fresh in intros E; apply bwd_inj in E; congruence ].
Ltac links :=
  cbn [cl_links put_clinks];
  repeat first [rewrite lookup_insert_eq | rewrite lookup_insert_ne by fields_differ]; try done.

Section ends.
Context {Q : Type} `{PtrQueueLaws Q}.
Abbreviation M := (ST (qworld Q)).
Context (fwd bwd : Z → Z) `{!Fields fwd bwd}.

Lemma qinv_perm gv G q F F' f c P (w : qworld Q) : F ≡ₚ F' → qinv gv G q F f c P w → qinv gv G q F' f c P w.
Proof.
  intros HF []. split; try done.
  - intros n x. rewrite qi_live. by setoid_rewrite HF.
  - by rewrite <- HF.
  - by rewrite <- HF.
  - intros e. by rewrite <- HF.
  - intros k. rewrite <- HF. apply qi_cell.
Qed.

(** What is known of the first cells. *)
Lemma qinv_distinct gv G q k k' F f c P (w : qworld Q) :
  qinv gv G q (k :: F) f c P w → k' ∈ F → c_node k ≠ c_node k' ∧ c_entry k ≠ c_entry k'.
Proof.
  intros Hw Hk'. pose proof (qi_nodes _ _ _ _ _ _ _ _ Hw) as Hn. pose proof (qi_nodup _ _ _ _ _ _ _ _ Hw) as He.
  simpl in Hn, He. apply NoDup_cons in Hn as [Hn _]. apply NoDup_cons in He as [He _].
  split; intros E; [apply Hn; rewrite E; by apply list_elem_of_fmap_2|].
  apply He, elem_of_app. left. rewrite E. by apply list_elem_of_fmap_2.
Qed.

Lemma push_body_ok gv q k a b r f c P w :
  qinv gv [] q (k :: a :: b :: r) f c P w → dseg fwd bwd (cl_links c) 0 (a :: b :: r) 0 →
  cl_links c !! fwd (c_entry k) = Some 0 → cl_links c !! bwd (c_entry k) = Some 0 →
  f (c_node k) = 1 → 1 ≤ f (c_node a) ≤ 3 → 1 ≤ f (c_node b) ≤ 3 →
  returns (push_body fwd bwd (c_entry a) (c_entry k) tt w) (λ '(s, w'), s = inr tt ∧ ∃ c',
    qinv gv [] q (k :: a :: b :: r) (λ m, f m + 2 * Z.b2z (c_node k =? m)) c' P w' ∧
    dseg fwd bwd (cl_links c') 0 (a :: k :: b :: r) 0).
Proof.
  intros Hw Hd Hkf Hkb Hfk Hfa Hfb. set (F := k :: a :: b :: r) in *.
  assert (Hk : k ∈ F) by left. assert (Ha : a ∈ F) by (right; left). assert (Hb : b ∈ F) by (right; right; left).
  destruct (qinv_distinct _ _ _ _ a _ _ _ _ _ Hw) as [Hka Eka]; [left|].
  destruct (qinv_distinct _ _ _ _ b _ _ _ _ _ Hw) as [Hkb' Ekb]; [right; left|].
  destruct (qinv_distinct gv [] q a b (k :: b :: r) f c P w) as [Hab Eab]; [eapply qinv_perm; [apply Permutation_swap|exact Hw]|right; left|].
  pose proof Hd as (Hdb&Hdf&Hbb&Hbf&Hr). simpl in Hdf.
  unfold push_body. go. eapply deref_entry_ok; [exact Hw|done|done|counting|]. intros w1 Hw1. go.
  assert (0 < c_entry b) as Hb0.
  { apply (qi_new _ _ _ _ _ _ _ _ Hw). rewrite (qi_cell _ _ _ _ _ _ _ _ Hw b Hb). by eexists. }
  rewrite (proj2 (Z.eqb_neq (c_entry b) 0)) by lia. go.
  eapply node_of_ok; [exact Hw1|done|]. go.
  eapply store_new_ok; [exact Hw1|links|done|counting|]. intros w2 Hw2. go.
  eapply node_of_ok; [exact Hw2|done|]. go.
  eapply store_new_ok; [exact Hw2|links|done|counting|]. intros w3 Hw3. go.
  eapply load_link_ok; [exact Hw3|links|]. go. eapply node_of_ok; [exact Hw3|done|]. go.
  rewrite (mark_off_node (c_node a)) by (by eapply qi_node).
  eapply CAS_link_ok; [exact Hw3|links|]. intros w4 Hw4. go.
  eapply node_of_ok; [exact Hw4|done|]. go.
  eapply release_ok'; [exact Hw4|done|counting|counting|]. intros w5 Hw5. go.
  eapply node_of_ok; [exact Hw5|done|]. go.
  eapply retain_ok'; [exact Hw5|done|counting|]. intros w6 Hw6. go.
  apply returns_loopS_exit. unfold push_link_body. go.
  eapply node_of_ok; [exact Hw6|done|]. go. eapply node_of_ok; [exact Hw6|done|]. go.
  eapply CAS_link_ok; [exact Hw6|links|]. intros w7 Hw7. go.
  eapply node_of_ok; [exact Hw7|done|]. go.
  eapply release_ok'; [exact Hw7|done|counting|counting|]. intros w8 Hw8. go.
  eapply node_of_ok; [exact Hw8|done|]. go.
  eapply retain_ok'; [exact Hw8|done|counting|]. intros w9 Hw9. go.
  eapply node_of_ok; [exact Hw9|done|]. go.
  eapply release_ok'; [exact Hw9|done|counting|counting|]. intros w10 Hw10. go.
  split; [done|]. eexists. split; [eapply qinv_ext; [exact Hw10|]|].
  - intros k' _. cbv beta. lia.
  - simpl. split_and!; try (by links). eapply dseg_frame; [|exact Hr]. intros e He.
    assert (∀ x, x ∈ [k; a; b] → e ≠ c_entry x) as Hne.
    { intros x Hx ->. pose proof (qi_nodup _ _ _ _ _ _ _ _ Hw) as Hnd. unfold F in Hnd. simpl in Hnd.
      rewrite !NoDup_cons, !not_elem_of_cons, !not_elem_of_app in Hnd. set_solver. }
    assert (e ≠ c_entry k ∧ e ≠ c_entry a ∧ e ≠ c_entry b) as (?&?&?) by (split_and!; apply Hne; set_solver).
    split; links.
Qed.

(** The other cells of a chain are not the first three. *)
Lemma chain_apart gv G q k a b r f c P (w : qworld Q) e :
  qinv gv G q (k :: a :: b :: r) f c P w → e ∈ c_entry <$> r → e ≠ c_entry k ∧ e ≠ c_entry a ∧ e ≠ c_entry b.
Proof.
  intros Hw He. pose proof (qi_nodup _ _ _ _ _ _ _ _ Hw) as Hnd. simpl in Hnd.
  rewrite !NoDup_cons, !not_elem_of_cons, !not_elem_of_app in Hnd. split_and!; intros ->; naive_solver.
Qed.

Lemma mark_on_target n : is_node n → target (REFCNT_MARK_ON n) = n.
Proof. intros Hn. by rewrite target_mark_on, mark_off_node. Qed.

Lemma qinv_entry_pos gv G q F f c P (w : qworld Q) k : qinv gv G q F f c P w → k ∈ F → 0 < c_entry k.
Proof. intros Hw Hk. apply (qi_new _ _ _ _ _ _ _ _ Hw). rewrite (qi_cell _ _ _ _ _ _ _ _ Hw k Hk). by eexists. Qed.

Lemma pop_body_ok gv q skip z k a b r f c P w :
  qinv gv [] q (k :: a :: b :: r) f c P w → dseg fwd bwd (cl_links c) 0 (a :: k :: b :: r) 0 → z ≠ c_entry k →
  f (c_node k) = 3 → 1 ≤ f (c_node a) ≤ 3 → 1 ≤ f (c_node b) ≤ 3 →
  returns (pop_body fwd bwd skip (c_entry a) z tt w) (λ '(s, w'), s = inr (Some (c_entry k, c_value k)) ∧ ∃ c',
    qinv gv [] q (k :: a :: b :: r)
      (λ m, f m - 2 * Z.b2z (c_node k =? m) + Z.b2z (c_node a =? m) + Z.b2z (c_node b =? m)) c' P w' ∧
    dseg fwd bwd (cl_links c') 0 (a :: b :: r) 0 ∧
    cl_links c' !! fwd (c_entry k) = Some (REFCNT_MARK_ON (c_node b)) ∧
    cl_links c' !! bwd (c_entry k) = Some (REFCNT_MARK_ON (c_node a))).
Proof.
  intros Hw Hd Hz Hfk Hfa Hfb. set (F := k :: a :: b :: r) in *.
  assert (Hk : k ∈ F) by left. assert (Ha : a ∈ F) by (right; left). assert (Hb : b ∈ F) by (right; right; left).
  destruct (qinv_distinct _ _ _ _ a _ _ _ _ _ Hw) as [Hka Eka]; [left|].
  destruct (qinv_distinct _ _ _ _ b _ _ _ _ _ Hw) as [Hkb' Ekb]; [right; left|].
  destruct (qinv_distinct gv [] q a b (k :: b :: r) f c P w) as [Hab Eab]; [eapply qinv_perm; [apply Permutation_swap|exact Hw]|right; left|].
  pose proof Hd as (Hda&Hdf&Hkb&Hkf&Hbb&Hbf&Hr). simpl in Hdf, Hkf.
  pose proof (qi_node _ _ _ _ _ _ _ _ _ Hw Hk) as Nk. pose proof (qi_node _ _ _ _ _ _ _ _ _ Hw Ha) as Na.
  pose proof (qi_node _ _ _ _ _ _ _ _ _ Hw Hb) as Nb. pose proof (qinv_entry_pos _ _ _ _ _ _ _ _ _ Hw Hk) as Pk.
  pose proof (qinv_entry_pos _ _ _ _ _ _ _ _ _ Hw Hb) as Pb.
  unfold pop_body. go. eapply (deref_ok' _ _ _ _ _ _ _ _ _ _ k true); [exact Hw|done|done|by apply mark_off_node|by left|counting|].
  intros w1 Hw1. go. eapply get_node_ptr_ok'; [exact Hw1|done|]. go.
  rewrite (proj2 (Z.eqb_neq (c_entry k) 0)), (proj2 (Z.eqb_neq (c_entry k) z)) by (done || lia). go.
  eapply load_link_ok; [exact Hw1|done|]. go. eapply node_of_ok; [exact Hw1|done|]. go. rewrite Z.eqb_refl. go.
  eapply load_link_ok; [exact Hw1|done|]. go. rewrite (mark_off_node (c_node b)) by done.
  destruct Nb as [Nb0 Nb2]. rewrite (proj2 (Z.eqb_neq (c_node b) 0)) by lia. go.
  eapply CAS_link_ok; [exact Hw1|done|]. intros w2 Hw2. go.
  apply returns_loopS_exit. unfold mark_back_body. go. eapply load_link_ok; [exact Hw2|links|]. go.
  rewrite (proj2 (Z.eqb_neq (c_node a) 0)) by (destruct Na; lia). rewrite andb_false_r. go.
  eapply CAS_link_ok; [exact Hw2|links|]. intros w3 Hw3. go.
  apply returns_loopS_exit. unfold skip_body. cbn [Z.eqb negb]. go.
  eapply (deref_ok' _ _ _ _ _ _ _ _ _ _ b false); [exact Hw3|links|done|by apply mark_on_target|by right|counting|].
  intros w4 Hw4. go. eapply get_node_ptr_ok'; [exact Hw4|done|]. go. rewrite (proj2 (Z.eqb_neq (c_entry b) 0)) by lia. go.
  eapply node_of_ok; [exact Hw4|done|]. go. eapply node_of_ok; [exact Hw4|done|]. go.
  eapply CAS_link_ok; [exact Hw4|links|]. intros w5 Hw5. go.
  eapply node_of_ok; [exact Hw5|done|]. go.
  eapply release_ok'; [exact Hw5|done|counting|counting|]. intros w6 Hw6. go.
  eapply node_of_ok; [exact Hw6|done|]. go.
  eapply retain_ok'; [exact Hw6|done|counting|]. intros w7 Hw7. go.
  eapply node_of_ok; [exact Hw7|done|]. go. eapply node_of_ok; [exact Hw7|done|]. go.
  eapply CAS_link_ok; [exact Hw7|links|]. intros w8 Hw8. go.
  eapply node_of_ok; [exact Hw8|done|]. go.
  eapply release_ok'; [exact Hw8|done|counting|counting|]. intros w9 Hw9. go.
  eapply node_of_ok; [exact Hw9|done|]. go.
  eapply retain_ok'; [exact Hw9|done|counting|]. intros w10 Hw10. go.
  eapply node_of_ok; [exact Hw10|done|]. go.
  eapply release_ok'; [exact Hw10|done|counting|counting|]. intros w11 Hw11. go.
  eapply returns_load_qentry; [exact (qi_cell _ _ _ _ _ _ _ _ Hw11 k Hk)|]. go.
  eapply node_of_ok; [exact Hw11|done|]. go.
  eapply release_ok'; [exact Hw11|done|counting|counting|]. intros w12 Hw12. go.
  split; [done|]. eexists. split; [eapply qinv_ext; [exact Hw12|]|split; [|split]].
  - intros k' _. cbv beta. lia.
  - simpl. split_and!; try (by links). eapply dseg_frame; [|exact Hr]. intros e He.
    destruct (chain_apart _ _ _ _ _ _ _ _ _ _ _ e Hw He) as (?&?&?). split; links.
  - links.
  - links.
Qed.

(** The queue is empty: the next entry is the other sentinel. *)
Lemma pop_body_empty_ok gv q skip a z r f c P w :
  qinv gv [] q (a :: z :: r) f c P w → cl_links c !! fwd (c_entry a) = Some (c_node z) → 1 ≤ f (c_node z) ≤ 3 →
  returns (pop_body fwd bwd skip (c_entry a) (c_entry z) tt w) (λ '(s, w'), s = inr None ∧ qinv gv [] q (a :: z :: r) f c P w').
Proof.
  intros Hw Hl Hf. assert (Hz : z ∈ a :: z :: r) by (right; left). pose proof (qi_node _ _ _ _ _ _ _ _ _ Hw Hz) as Nz.
  unfold pop_body. go. eapply (deref_ok' _ _ _ _ _ _ _ _ _ _ z true); [exact Hw|done|done|by apply mark_off_node|by left|counting|].
  intros w1 Hw1. go. eapply get_node_ptr_ok'; [exact Hw1|done|]. go. rewrite Z.eqb_refl, orb_true_r. go.
  rewrite (proj2 (Z.eqb_neq (c_node z) 0)) by (destruct Nz; lia). go.
  eapply release_ok'; [exact Hw1|done|counting|counting|]. intros w2 Hw2. go. split; [done|].
  eapply qinv_ext; [exact Hw2|]. intros k' _. cbv beta. lia.
Qed.

(** The links of the entry that was removed are nulled. *)
Lemma null_links_ok gv q k a b r f c P w :
  qinv gv [] q (k :: a :: b :: r) f c P w → cl_links c !! fwd (c_entry k) = Some (REFCNT_MARK_ON (c_node b)) →
  cl_links c !! bwd (c_entry k) = Some (REFCNT_MARK_ON (c_node a)) →
  2 ≤ f (c_node a) ≤ 4 → 2 ≤ f (c_node b) ≤ 4 →
  returns (on_refcnt (store_ref (at_next (c_entry k)) 0) w) (λ '(_, w1),
    returns (on_refcnt (store_ref (at_prev (c_entry k)) 0) w1) (λ '(_, w'), ∃ c',
      qinv gv [] q (k :: a :: b :: r) (λ m, f m - Z.b2z (c_node a =? m) - Z.b2z (c_node b =? m)) c' P w' ∧
      ∀ e, e ≠ c_entry k → cl_links c' !! fwd e = cl_links c !! fwd e ∧ cl_links c' !! bwd e = cl_links c !! bwd e)).
Proof.
  intros Hw Hf Hb Ha2 Hb2. set (F := k :: a :: b :: r) in *.
  assert (Ha : a ∈ F) by (right; left). assert (Hbin : b ∈ F) by (right; right; left).
  destruct (qinv_distinct gv [] q a b (k :: b :: r) f c P w) as [Hab Eab]; [eapply qinv_perm; [apply Permutation_swap|exact Hw]|right; left|].
  pose proof (mark_on_target _ (qi_node _ _ _ _ _ _ _ _ _ Hw Ha)) as Ta. pose proof (mark_on_target _ (qi_node _ _ _ _ _ _ _ _ _ Hw Hbin)) as Tb.
  assert (Hne : ∀ e, e ≠ c_entry k → ∀ L : gmap Z Z, <[bwd (c_entry k) := 0]> (<[fwd (c_entry k) := 0]> L) !! fwd e = L !! fwd e ∧
    <[bwd (c_entry k) := 0]> (<[fwd (c_entry k) := 0]> L) !! bwd e = L !! bwd e) by (intros e He L; split; links).
  destruct (fwd_or_bwd (fwd := fwd) (bwd := bwd)) as [[Ef Eb]|[Ef Eb]]; rewrite <- Ef, <- Eb.
  - eapply store_null_ok; [exact Hw|done|exact Hbin|done|counting|counting|]. intros w1 Hw1. go.
    eapply store_null_ok; [exact Hw1|links|exact Ha|done|counting|counting|]. intros w2 Hw2.
    eexists. split; [eapply qinv_ext; [exact Hw2|]; intros k' _; cbv beta; lia|]. intros e He. simpl. by apply Hne.
  - eapply store_null_ok; [exact Hw|done|exact Ha|done|counting|counting|]. intros w1 Hw1. go.
    eapply store_null_ok; [exact Hw1|links|exact Hbin|done|counting|counting|]. intros w2 Hw2.
    eexists. split; [eapply qinv_ext; [exact Hw2|]; intros k' _; cbv beta; lia|]. intros e He. simpl.
    rewrite insert_insert_ne by (apply fwd_bwd). by apply Hne.
Qed.

(** ** Chains *)

(** A queue between the sentinels [a] and [z], in this direction. *)
Definition chain (gv : list Z) (q : queue_t) (a : qcell) (its : list qcell) (z : qcell) (w : qworld Q) : Prop := ∃ f c P,
  qinv gv [] q (a :: its ++ [z]) f c P w ∧ dseg fwd bwd (cl_links c) 0 (a :: its ++ [z]) 0 ∧
  f (c_node a) = 2 ∧ f (c_node z) = 2 ∧ (∀ k, k ∈ its → f (c_node k) = 3).

Lemma qinv_set_q gv G q q' F f c P (w : qworld Q) :
  qinv gv G q F f c P w → q_bpool q' = q_bpool q → qinv gv G q' F f c P (put_q (QLive q') w).
Proof. intros [] Hq. split; try done. simpl. by rewrite Hq. Qed.
Lemma set_q_ok gv G q F f c P w g (R : unit * qworld Q → Prop) :
  qinv gv G q F f c P w → q_bpool (g q) = q_bpool q → (∀ w', qinv gv G (g q) F f c P w' → R (tt, w')) → returns (set_q g w) R.
Proof.
  intros Hw Hg HR. unfold set_q. go. eapply returns_load_q; [exact (qi_queue _ _ _ _ _ _ _ _ Hw)|]. go. apply HR.
  by eapply qinv_set_q.
Qed.

(** The second cell of a chain. *)
Lemma chain_second its (z : qcell) : ∃ b r, its ++ [z] = b :: r.
Proof. destruct its; simpl; eauto. Qed.

Lemma push_ok gv q a its z sentinel v w :
  chain gv q a its z w → sentinel q = c_entry a →
  returns (push fwd bwd sentinel v w) (λ '(r, w'), r = 0 ∧ ∃ k, c_value k = v ∧
    chain gv (with_length (u64 (q_length q + 1)) q) a (k :: its) z w').
Proof.
  intros (f&c&P&Hw&Hd&Hfa&Hfz&Hfi) Hs. unfold push. go. eapply returns_mono; [by eapply create_entry_ok|].
  intros [e w1] (n&f1&c1&Hw1&Hfn&Hf1&Hli). go. eapply set_value_ok; [exact Hw1|]. intros w2 Hw2. go.
  eapply returns_load_q; [exact (qi_queue _ _ _ _ _ _ _ _ Hw2)|]. go. rewrite Hs.
  destruct (chain_second its z) as (b&r&Er). set (k := mk_qcell e n v) in *.
  assert (Hmem : ∀ x, x ∈ a :: its ++ [z] → f1 (c_node x) = f (c_node x)) by exact Hf1.
  assert (Hb : 1 ≤ f (c_node b) ≤ 3).
  { assert (b ∈ its ++ [z]) as Hb by (rewrite Er; left). apply elem_of_app in Hb as [Hb|Hb%list_elem_of_singleton].
    - rewrite Hfi by done. lia.
    - subst b. lia. }
  rewrite Er in Hw2, Hd. rewrite Er in Hmem.
  assert (He : e ∉ c_entry <$> a :: b :: r).
  { pose proof (qi_nodup _ _ _ _ _ _ _ _ Hw2) as Hnd. rewrite fmap_cons in Hnd. apply NoDup_cons in Hnd as [Hnd _].
    intros Hin. apply Hnd, elem_of_app. by left. }
  apply returns_loopS_exit. change e with (c_entry k). eapply returns_mono; [apply (push_body_ok gv q k a b r f1 c1 P w2)|].
  - exact Hw2.
  - eapply dseg_frame; [|exact Hd]. intros e' He'. assert (e' ≠ e) by (by intros ->). rewrite Hli.
    destruct (fwd_or_bwd (fwd := fwd) (bwd := bwd)) as [[-> ->]|[-> ->]]; unfold at_next, at_prev; rewrite !lookup_insert_ne by lia; done.
  - rewrite Hli. destruct (fwd_or_bwd (fwd := fwd) (bwd := bwd)) as [[-> ->]|[-> ->]]; simpl; unfold at_next, at_prev.
    + by rewrite lookup_insert_eq.
    + by rewrite lookup_insert_ne, lookup_insert_eq by lia.
  - rewrite Hli. destruct (fwd_or_bwd (fwd := fwd) (bwd := bwd)) as [[-> ->]|[-> ->]]; simpl; unfold at_next, at_prev.
    + by rewrite lookup_insert_ne, lookup_insert_eq by lia.
    + by rewrite lookup_insert_eq.
  - done.
  - rewrite Hmem by left. lia.
  - rewrite Hmem by (right; left). lia.
  - intros [s w3] (->&c3&Hw3&Hd3). go.
    eapply set_q_ok; [exact Hw3|done|]. intros w4 Hw4. go. split; [done|]. exists k. split; [done|].
    eexists _, c3, P. simpl app. rewrite Er. split; [eapply qinv_perm; [apply Permutation_swap|exact Hw4]|]. split; [exact Hd3|].
    assert (Hdiff : ∀ x, x ∈ a :: b :: r → c_node k ≠ c_node x) by (intros x Hx; by eapply (qinv_distinct _ _ _ k x)).
    cbv beta. split; [|split].
    + rewrite (proj2 (Z.eqb_neq _ _)) by (apply Hdiff; left). rewrite Hmem by left. cbn [Z.b2z]. lia.
    + assert (z ∈ b :: r) as Hz by (rewrite <- Er; apply elem_of_app; right; left).
      rewrite (proj2 (Z.eqb_neq _ _)) by (apply Hdiff; by right). rewrite Hmem by (by right). cbn [Z.b2z]. lia.
    + intros x [->|Hx]%elem_of_cons; [simpl c_node; rewrite Z.eqb_refl, Hfn; cbn [Z.b2z]; lia|].
      assert (x ∈ b :: r) as Hx' by (rewrite <- Er; apply elem_of_app; by left).
      rewrite (proj2 (Z.eqb_neq _ _)) by (apply Hdiff; by right). rewrite Hmem by (by right). rewrite Hfi by done. cbn [Z.b2z]. lia.
Qed.

Lemma dseg_same_links L L' p F x :
  same_links (c_entry <$> F) L L' → dseg fwd bwd L p F x → dseg fwd bwd L' p F x.
Proof.
  intros HL. apply dseg_frame. intros e He. destruct (HL e He).
  by destruct (fwd_or_bwd (fwd := fwd) (bwd := bwd)) as [[-> ->]|[-> ->]].
Qed.

Lemma pop_ok gv q a its z skip sentinel other w :
  chain gv q a its z w → sentinel q = c_entry a → other q = c_entry z →
  returns (pop fwd bwd skip sentinel other w) (λ '(v, w'),
    match its with
    | [] => v = 0 ∧ chain gv q a [] z w'
    | k :: its => v = c_value k ∧ chain gv (with_length (u64 (q_length q - 1)) q) a its z w'
    end).
Proof.
  intros (f&c&P&Hw&Hd&Hfa&Hfz&Hfi) Hs Ho. unfold pop. go. eapply returns_load_q; [exact (qi_queue _ _ _ _ _ _ _ _ Hw)|]. go.
  assert (Pa : 0 < c_entry a) by (eapply qinv_entry_pos; [exact Hw|left]). rewrite Hs, Ho.
  rewrite (proj2 (Z.eqb_neq (c_entry a) 0)) by lia. go. destruct its as [|k its].
  - apply returns_loopS_exit. pose proof Hd as (_&Hf&_). simpl in Hf.
    eapply returns_mono; [eapply (pop_body_empty_ok gv q skip a z []); [exact Hw|done|lia]|]. intros [s w1] [-> Hw1]. go.
    split; [done|]. by exists f, c, P.
  - destruct (chain_second its z) as (b&r&Er). simpl app in Hw, Hd. rewrite Er in Hw, Hd.
    apply (qinv_perm _ _ _ _ (k :: a :: b :: r)) in Hw; [|apply Permutation_swap].
    assert (Hz : z ∈ b :: r) by (rewrite <- Er; apply elem_of_app; right; left).
    assert (Hb : 1 ≤ f (c_node b) ≤ 3 ∧ 2 ≤ f (c_node b)).
    { assert (b ∈ its ++ [z]) as Hb by (rewrite Er; left). apply elem_of_app in Hb as [Hb|Hb%list_elem_of_singleton].
      - rewrite Hfi by (by right). lia.
      - subst b. lia. }
    assert (Hfk : f (c_node k) = 3) by (apply Hfi; left).
    assert (Hdiff : ∀ x, x ∈ a :: b :: r → c_node k ≠ c_node x ∧ c_entry k ≠ c_entry x) by (intros x Hx; by eapply qinv_distinct).
    apply returns_loopS_exit.
    eapply returns_mono; [eapply (pop_body_ok gv q skip (c_entry z) k a b r f c P w); [exact Hw|exact Hd| | |lia|lia]|].
    { apply not_eq_sym. apply Hdiff. by right. }
    { apply Hfi. left. }
    intros [s w1] (->&c1&Hw1&Hd1&Hlf&Hlb). go.
    eapply set_q_ok; [exact Hw1|done|]. intros w2 Hw2. go.
    destruct (Hdiff a) as [Hka _]; [left|]. destruct (Hdiff b) as [Hkb _]; [right; left|].
    assert (Hab : c_node a ≠ c_node b).
    { apply (qinv_distinct gv [] q a b (k :: b :: r) f c P w); [eapply qinv_perm; [apply Permutation_swap|exact Hw]|right; left]. }
    eapply returns_mono; [eapply (null_links_ok gv _ k a b r); [exact Hw2|exact Hlf|exact Hlb|counting|counting]|].
    intros [[] w3] Hw3. go. eapply returns_mono; [exact Hw3|]. intros [[] w4] (c4&Hw4&Hsame). go. clear Hw3.
    unfold destroy_entry. assert (Pk : 0 < c_entry k) by (eapply qinv_entry_pos; [exact Hw4|left]).
    rewrite (proj2 (Z.eqb_neq (c_entry k) 0)) by lia. go. eapply node_of_ok; [exact Hw4|left|]. go.
    eapply returns_mono; [eapply release_last_ok; [exact Hw4|counting]|]. intros [[] w5] (c5&P5&Hw5&Hlinks). go.
    split; [done|]. eexists _, c5, P5. rewrite Er. split; [exact Hw5|]. split; [|split; [|split]].
    + eapply dseg_same_links; [exact Hlinks|]. eapply dseg_frame; [|exact Hd1]. intros e He. apply Hsame.
      intros ->. apply list_elem_of_fmap in He as (x&Ex&Hx). by destruct (Hdiff x Hx).
    + counting.
    + destruct (Hdiff z) as [Hkz _]; [by right|]. assert (c_node a ≠ c_node z).
      { apply (qinv_distinct gv [] q a z (k :: b :: r) f c P w); [eapply qinv_perm; [apply Permutation_swap|exact Hw]|by right]. }
      rewrite (proj2 (Z.eqb_neq (c_node k) (c_node z))) by done. cbn [Z.b2z]. lia.
    + intros x Hx. assert (x ∈ b :: r) as Hx' by (rewrite <- Er; apply elem_of_app; by left).
      destruct (Hdiff x) as [Hkx _]; [by right|]. rewrite (proj2 (Z.eqb_neq (c_node k) (c_node x))) by done. cbn [Z.b2z].
      rewrite Hfi by (by right). lia.
Qed.
End ends.
