(* ===== verification/QueueLife.v ===== *)
(** * The life of a linked queue

    Its creation, its pool of entries, and the steps of its destruction. *)

From S2P Require Import Prelude Rqueue PtrQueue Refcnt RefcntOps RefcntSpec Queue QueueOps QueueEntries QueueEnds.

(** The sentinels are exchanged in the other direction. *)
Lemma chain_rev {Q : Type} `{PtrQueueLaws Q} fwd bwd gv q a its z (w : qworld Q) :
  chain fwd bwd gv q a its z w → chain bwd fwd gv q z (rev its) a w.
Proof.
  intros (f&c&P&Hw&Hd&Hfa&Hfz&Hfi). exists f, c, P. apply dseg_rev in Hd.
  assert (Hrev : rev (a :: its ++ [z]) = z :: rev its ++ [a]) by (simpl; by rewrite rev_app_distr).
  rewrite Hrev in Hd. split; [eapply qinv_perm; [|exact Hw]; rewrite <- Hrev; apply Permutation_rev|].
  split; [done|]. split; [done|]. split; [done|]. intros k Hk. apply Hfi. by rewrite <- Permutation_rev in Hk.
Qed.

Section life.
Context {Q : Type} `{PtrQueueLaws Q}.
Abbreviation M := (ST (qworld Q)).
Abbreviation counts := (counts 1024 false true).

(** ** Creation *)

(** No queue, no counters and no entries yet, and memory for some. *)
Definition no_queue (w : qworld Q) : Prop :=
  no_counts (qw_refcnt w) ∧ qw_entries w = ∅ ∧ 0 < qw_new w ∧ false ∉ qw_alloc w.

(** The values [vs] are in the queue. *)
Definition queue_has (gv : list Z) (q : queue_t) (vs : list Z) (w : qworld Q) : Prop := ∃ a its z,
  chain at_next at_prev gv q a its z w ∧ q_head q = c_entry a ∧ q_tail q = c_entry z ∧ c_value <$> its = vs ∧
  q_length q = Z.of_nat (length vs).

Lemma queue_init_ok w :
  no_queue w → returns (queue_init w) (λ '(_, w'), ∃ h t,
    queue_has (qw_values w) (mk_queue h t 0 false false false 0) [] w').
Proof.
  intros (Hn&HE&Hnew&Ha). unfold queue_init. go. unfold on_refcnt at 1. go. apply returns_on_links. simpl qw_refcnt.
  eapply returns_mono; [apply (refcnt_create_ok 1024 false true); [done|by vm_compute]|]. intros [ok cw] [_ Hcw]. go. simpl.
  assert (cw_given cw = cw_given (qw_refcnt w)) as -> by (by destruct Hcw as (?&?&?&?&?&?&_&_&_&_&_&_&Hg&_)).
  rewrite drop_all. simpl. go. set (q0 := mk_queue 0 0 0 false false false 0).
  set (c0 := mk_client ∅ (cw_links (qw_refcnt w)) ∅ [] (cw_terminated (qw_refcnt w)) (cw_given (qw_refcnt w))).
  assert (Hc0 : counts (refs_with (λ _, 0) c0) cw).
  { replace (refs_with (λ _, 0) c0) with (mk_refs ∅ [] (cw_links (qw_refcnt w)) (cw_terminated (qw_refcnt w)) (cw_given (qw_refcnt w))); [done|].
    apply refs_eq; [|done]. intros n. rewrite lookup_refs_with. simpl. by rewrite !lookup_empty. }
  set (w0 := put_rc _ _). assert (Hw0 : qinv (qw_values w) [] q0 [] (λ _, 0) c0 [] w0).
  { split; simpl; try done.
    - intros n x. rewrite lookup_empty. split; [done|]. intros (k&Hk&_). by apply not_elem_of_nil in Hk.
    - constructor.
    - constructor.
    - intros e. rewrite HE, lookup_empty. split; [by intros []|]. by intros ?%not_elem_of_nil.
    - intros k ?%not_elem_of_nil. done.
    - intros e ?%not_elem_of_nil. done.
    - intros e. rewrite HE, lookup_empty. by intros []. }
  eapply returns_mono; [by apply (create_entry_ok _ _ _ _ _ _ _ Hw0)|]. intros [h w1] (nh&f1&c1&Hw1&Hfh&_&Hl1). go.
  eapply set_q_ok; [exact Hw1|done|]. intros w2 Hw2. go.
  eapply returns_mono; [by apply (create_entry_ok _ _ _ _ _ _ _ Hw2)|]. intros [t w3] (nt&f2&c2&Hw3&Hft&Hf2&Hl2). go.
  eapply set_q_ok; [exact Hw3|done|]. intros w4 Hw4. go.
  set (kh := mk_qcell h nh 0) in *. set (kt := mk_qcell t nt 0) in *. set (F := [kt; kh]) in *.
  assert (Hh : kh ∈ F) by (right; left). assert (Ht : kt ∈ F) by left.
  destruct (qinv_distinct _ _ _ kt kh _ _ _ _ _ Hw4) as [Hnn Hee]; [left|]. simpl in Hnn, Hee.
  assert (f2 nh = 1) as Hfh2 by (rewrite <- Hfh; apply (Hf2 kh); left).
  eapply returns_load_qentry; [exact (qi_cell _ _ _ _ _ _ _ _ Hw4 kh Hh)|]. go.
  eapply (node_of_ok _ _ _ _ _ _ _ _ kt); [exact Hw4|done|]. go.
  assert (Hlinks : cl_links c2 !! at_next h = Some 0 ∧ cl_links c2 !! at_prev h = Some 0 ∧
                   cl_links c2 !! at_next t = Some 0 ∧ cl_links c2 !! at_prev t = Some 0).
  { rewrite Hl2, Hl1. unfold at_next, at_prev. split_and!;
      repeat first [rewrite lookup_insert_eq; done | rewrite lookup_insert_ne by lia]. }
  destruct Hlinks as (Lhn&Lhp&Ltn&Ltp).
  eapply (store_new_ok _ _ _ _ _ _ _ _ (at_next h) kt); [exact Hw4|done|done|simpl; rewrite Hft; counting|]. intros w5 Hw5. go.
  eapply (node_of_ok _ _ _ _ _ _ _ _ kh); [exact Hw5|done|]. go.
  eapply (store_new_ok _ _ _ _ _ _ _ _ (at_prev t) kh); [exact Hw5| |done| |].
  { simpl. unfold at_next, at_prev in *. by rewrite lookup_insert_ne by lia. }
  { simpl. unfold in_range. rewrite (proj2 (Z.eqb_neq nt nh)), Hfh2 by done. simpl. lia. }
  intros w6 Hw6. exists h, t. exists kh, [], kt. split; [|done]. eexists _, _, [].
  split; [eapply qinv_perm; [|exact Hw6]; apply Permutation_swap|]. split; [|split; [|split]].
  - simpl. unfold at_next, at_prev in *. split_and!; try done;
      repeat first [rewrite lookup_insert_eq; done | rewrite lookup_insert_ne by lia]; done.
  - simpl. rewrite (proj2 (Z.eqb_neq nt nh)), Z.eqb_refl, Hfh2 by done. done.
  - simpl. rewrite (proj2 (Z.eqb_neq nh nt)), Z.eqb_refl, Hft by done. done.
  - by intros k ?%not_elem_of_nil.
Qed.

(** ** The pool *)

Lemma free_entries_run es (w : qworld Q) :
  NoDup es → (∀ e, e ∈ es → is_Some (qw_entries w !! e)) →
  returns (free_entries es w) (λ '(_, w'), ∃ E' L', w' = put_entries E' (put_rc (put_links L' (qw_refcnt w)) w) ∧
    (∀ e, E' !! e = if decide (e ∈ es) then None else qw_entries w !! e) ∧
    ∀ e, e ∉ es → L' !! at_prev e = cw_links (qw_refcnt w) !! at_prev e ∧ L' !! at_next e = cw_links (qw_refcnt w) !! at_next e).
Proof.
  revert w. induction es as [|e es IH]; intros w Hnd Hes; simpl; go.
  - exists (qw_entries w), (cw_links (qw_refcnt w)). split; [by destruct w as [? [] ? ? ? ? ?]|]. split; [|done].
    done.
  - apply NoDup_cons in Hnd as [He Hnd]. destruct (Hes e) as [x Hx]; [left|].
    unfold free_entry. go. eapply returns_load_qentry; [exact Hx|]. go.
    eapply returns_mono; [apply IH; [done|]|].
    { intros e' He'. simpl. rewrite lookup_delete_ne by (by intros <-). apply Hes. by right. }
    intros [[] w'] (E'&L'&->&HE'&HL'). exists E', L'. simpl in *. split; [done|]. split.
    + intros e'. rewrite HE'. destruct (decide (e' = e)) as [->|Hne].
      * rewrite lookup_delete_eq, (decide_True (P := e ∈ e :: es)) by left. by case_decide.
      * rewrite lookup_delete_ne by done. apply decide_ext. rewrite elem_of_cons. naive_solver.
    + intros e' [Hne He']%not_elem_of_cons. destruct (HL' e' He') as [-> ->]. unfold at_prev, at_next.
      by rewrite !lookup_delete_ne by lia.
Qed.

Definition new_pool (q : queue_t) (p : Q) : Prop :=
  if q_bpool q then ∃ size nw nr, pq_holds size true [] nw nr p ∧ size < 2 ^ 64 else True.

Lemma pool_dropped gv q q' F f c P w E' L' p :
  qinv gv [] q F f c P w → (∀ e, E' !! e = if decide (e ∈ P) then None else qw_entries w !! e) →
  (∀ e, e ∉ P → L' !! at_prev e = cw_links (qw_refcnt w) !! at_prev e ∧ L' !! at_next e = cw_links (qw_refcnt w) !! at_next e) →
  new_pool q' p →
  same_links (c_entry <$> F) (cl_links c) L' ∧
  qinv gv [] q' F f (put_clinks L' c) [] (put_q (QLive q') (put_bpool p (put_entries E' (put_rc (put_links L' (qw_refcnt w)) w)))).
Proof.
  intros Hw HE HL Hp. pose proof (qi_links _ _ _ _ _ _ _ _ Hw) as Hli. destruct Hw.
  pose proof qi_nodup as Hnd. rewrite app_assoc in Hnd. simpl in Hnd. apply NoDup_app in Hnd as (Hnd&Hd&_).
  assert (Hkeep : ∀ e, e ∈ (c_entry <$> F) ++ (cl_waiting c).*2 → E' !! e = qw_entries w !! e).
  { intros e He. rewrite HE, decide_False; [done|]. by apply Hd. }
  split. { intros e He. rewrite <- Hli. apply HL, Hd, elem_of_app. by left. }
  split; simpl; try done.
  - by apply (counts_links 1024 false true L' (refs_with f c)).
  - by rewrite app_nil_r.
  - intros e. rewrite app_nil_r, HE. case_decide as He.
    + split; [by intros []|]. intros Hin. by destruct (Hd e Hin).
    + rewrite qi_dom. simpl. rewrite app_assoc, elem_of_app. naive_solver.
  - intros k Hk. rewrite Hkeep; [by apply qi_cell|]. apply elem_of_app. left. by apply list_elem_of_fmap_2.
  - intros e He. rewrite app_nil_r in He. rewrite Hkeep by (apply elem_of_app; by right). apply qi_waiting. by rewrite app_nil_r.
  - unfold new_pool in Hp. by destruct (q_bpool q').
  - intros e He. apply qi_new. rewrite HE in He. case_decide; [by destruct He|done].
Qed.

Lemma drop_bpool_ok gv q F f c P w :
  qinv gv [] q F f c P w →
  returns ((if q_bpool q then on_bpool pq_destroy else mret tt) w) (λ '(_, w'), qw_queue w' = QLive q ∧ ∃ L',
    same_links (c_entry <$> F) (cl_links c) L' ∧
    ∀ q' p, new_pool q' p → qinv gv [] q' F f (put_clinks L' c) [] (put_q (QLive q') (put_bpool p w'))).
Proof.
  intros Hw. pose proof (qi_pool _ _ _ _ _ _ _ _ Hw) as Hp. pose proof (qi_queue _ _ _ _ _ _ _ _ Hw) as Hq.
  pose proof (qi_nodup _ _ _ _ _ _ _ _ Hw) as Hnd. pose proof (qi_dom _ _ _ _ _ _ _ _ Hw) as Hdom.
  destruct (q_bpool q).
  - destruct Hp as (size&nw&nr&Hp&Hs). unfold on_bpool. go. apply returns_bind, returns_bind.
    eapply returns_mono; [by apply (pq_destroy_ok _ _ _ _ _ _ Hp)|]. intros [[] p0] Hg. go. simpl. rewrite Hg, drop_app_length. go.
    eapply returns_mono; [apply free_entries_run|].
    { rewrite app_assoc in Hnd. by apply NoDup_app in Hnd as (_&_&?). }
    { intros e He. apply Hdom. rewrite !elem_of_app. by right; right; right. }
    intros [[] w'] (E'&L'&->&HE&HL). go. split; [done|]. exists L'. simpl in HE, HL.
    assert (∀ q' p, new_pool q' p → same_links (c_entry <$> F) (cl_links c) L' ∧
      qinv gv [] q' F f (put_clinks L' c) [] (put_q (QLive q') (put_bpool p (put_entries E' (put_rc (put_links L' (qw_refcnt w)) w))))) as Hall.
    { intros q' p Hp'. by eapply pool_dropped. }
    split; [|intros q' p Hp'; by apply Hall]. by apply (Hall (mk_queue 0 0 0 false false false 0) p0).
  - subst P. go. split; [done|]. exists (cl_links c). split; [by intros ?|]. rewrite put_clinks_id. intros q' p Hp'.
    destruct Hw. split; try done. simpl. unfold new_pool in Hp'. by destruct (q_bpool q').
Qed.

(** The old pool [w] had is destroyed when there is a new one. *)
Lemma destroy_old_ok gv q q' F f c P p w (w1 := put_q (QLive q') (put_bpool p w)) :
  qinv gv [] q F f c P w → new_pool q' p →
  returns ((if q_bpool q then destroy_pool (qw_bpool w) else mret tt) w1) (λ '(_, w'), ∃ L',
    same_links (c_entry <$> F) (cl_links c) L' ∧ qinv gv [] q' F f (put_clinks L' c) [] w').
Proof.
  intros Hw Hnew. pose proof (qi_pool _ _ _ _ _ _ _ _ Hw) as Hp.
  pose proof (qi_nodup _ _ _ _ _ _ _ _ Hw) as Hnd. pose proof (qi_dom _ _ _ _ _ _ _ _ Hw) as Hdom.
  destruct (q_bpool q).
  - destruct Hp as (size&nw&nr&Hp&Hs). unfold destroy_pool. go.
    eapply returns_mono; [by apply (pq_destroy_ok _ _ _ _ _ _ Hp)|]. intros [[] p0] Hg. go. rewrite Hg, drop_app_length.
    eapply returns_mono; [apply (free_entries_run P w1)|].
    { rewrite app_assoc in Hnd. by apply NoDup_app in Hnd as (_&_&?). }
    { intros e He. apply Hdom. rewrite !elem_of_app. by right; right; right. }
    intros [[] w'] (E'&L'&->&HE&HL). exists L'. by apply (pool_dropped gv q q' F f c P w E' L' p).
  - subst P. go. exists (cl_links c). split; [by intros ?|]. rewrite put_clinks_id.
    destruct Hw. split; try done. simpl. unfold new_pool in Hnew. by destruct (q_bpool q').
Qed.

Lemma queue_set_bpool_size_ok no_pool size gv q vs w :
  pq_fresh no_pool → 2 ≤ size < 2 ^ 64 → queue_has gv q vs w →
  returns (queue_set_bpool_size no_pool size w) (λ '(r, w'), r = q_bpool_size q ∧
    queue_has gv (if q_bpool_size q =? size then q else with_bpool_size size (with_bpool true q)) vs w').
Proof.
  intros Hf Hs (a&its&z&(f&c&P&Hw&Hd&Hfs)&Hh&Ht&Hv&Hl). unfold queue_set_bpool_size. go.
  eapply returns_mono; [apply (pq_create_ok _ _ Hf); lia|]. intros [ok p] (->&Hp&_). go.
  eapply returns_mono; [exact (pq_set_free_value_callback_ok true _ _ _ _ _ _ Hp)|]. intros [[] p1] [Hp1 _]. go.
  eapply returns_load_q; [exact (qi_queue _ _ _ _ _ _ _ _ Hw)|]. go. destruct (q_bpool_size q =? size); go.
  - unfold destroy_pool. go. eapply returns_mono; [apply (pq_destroy_ok _ _ _ _ _ _ Hp1); lia|].
    intros [[] p2] Hg. go. rewrite Hg, drop_app_length. go. split; [done|].
    exists a, its, z. split; [by exists f, c, P|done].
  - unfold set_q. go. eapply returns_load_q; [exact (qi_queue _ _ _ _ _ _ _ _ Hw)|]. go. eapply returns_load_q; [done|]. go.
    set (q' := with_bpool_size size (with_bpool true q)).
    eapply returns_mono; [apply (destroy_old_ok gv q q' (a :: its ++ [z]) f c P p1 w Hw)|].
    { unfold new_pool. simpl. exists size, 0, 0. split; [done|lia]. }
    intros [[] w1] (L'&HL&Hw1). go. split; [done|]. exists a, its, z. split; [|done]. exists f, (put_clinks L' c), [].
    split; [done|]. split; [exact (dseg_same_links at_next at_prev _ _ _ _ _ HL Hd)|exact Hfs].
Qed.

(** ** The ends *)

Lemma queue_push_left_ok gv q vs v w :
  queue_has gv q vs w → Z.of_nat (length vs) + 1 < 2 ^ 64 →
  returns (queue_push_left v w) (λ '(r, w'), r = 0 ∧ queue_has gv (with_length (q_length q + 1) q) (v :: vs) w').
Proof.
  intros (a&its&z&Hw&Hh&Ht&<-&Hl) Hb. eapply returns_mono; [by apply (push_ok at_next at_prev gv q a its z q_head v)|].
  intros [r w'] (->&k&<-&Hw'). split; [done|]. rewrite u64_small in Hw' by lia. exists a, (k :: its), z.
  split; [done|]. split; [done|]. split; [done|]. split; [done|]. simpl. lia.
Qed.
Lemma queue_push_right_ok gv q vs v w :
  queue_has gv q vs w → Z.of_nat (length vs) + 1 < 2 ^ 64 →
  returns (queue_push_right v w) (λ '(r, w'), r = 0 ∧ queue_has gv (with_length (q_length q + 1) q) (vs ++ [v]) w').
Proof.
  intros (a&its&z&Hw&Hh&Ht&<-&Hl) Hb. apply chain_rev in Hw.
  eapply returns_mono; [by apply (push_ok at_prev at_next gv q z (rev its) a q_tail v)|].
  intros [r w'] (->&k&<-&Hw'). split; [done|]. rewrite u64_small in Hw' by lia. apply chain_rev in Hw'. simpl in Hw'.
  rewrite rev_involutive in Hw'. exists a, (its ++ [k]), z.
  split; [done|]. split; [done|]. split; [done|]. split; [by rewrite fmap_app|]. rewrite length_app. simpl. lia.
Qed.
Lemma queue_pop_left_ok gv q vs w :
  queue_has gv q vs w → Z.of_nat (length vs) < 2 ^ 64 →
  returns (queue_pop_left w) (λ '(r, w'), match vs with
    | [] => r = 0 ∧ queue_has gv q [] w'
    | v :: vs => r = v ∧ queue_has gv (with_length (q_length q - 1) q) vs w'
    end).
Proof.
  intros (a&its&z&Hw&Hh&Ht&<-&Hl) Hb. eapply returns_mono; [by apply (pop_ok at_next at_prev gv q a its z true q_head q_tail)|].
  intros [r w']. destruct its as [|k its]; simpl; intros [-> Hw']; split; try done.
  - by exists a, [], z.
  - simpl in Hl, Hb. rewrite u64_small in Hw' by lia. exists a, its, z.
    split; [done|]. split; [done|]. split; [done|]. split; [done|]. simpl. lia.
Qed.
Lemma queue_pop_right_ok gv q vs v w :
  queue_has gv q (vs ++ [v]) w → Z.of_nat (length (vs ++ [v])) < 2 ^ 64 →
  returns (queue_pop_right w) (λ '(r, w'), r = v ∧ queue_has gv (with_length (q_length q - 1) q) vs w').
Proof.
  intros (a&its&z&Hw&Hh&Ht&Hv&Hl) Hb. apply chain_rev in Hw. destruct its as [|k its _] using rev_ind; [by destruct vs|].
  rewrite fmap_app in Hv. simpl in Hv. apply app_inj_tail in Hv as [<- <-]. rewrite rev_app_distr in Hw. simpl in Hw.
  eapply returns_mono; [by apply (pop_ok at_prev at_next gv q z (k :: rev its) a false q_tail q_head)|].
  intros [r w'] [-> Hw']. split; [done|]. rewrite length_app in Hl, Hb. simpl in Hl, Hb.
  rewrite u64_small in Hw' by lia. apply chain_rev in Hw'. rewrite rev_involutive in Hw'. exists a, its, z.
  split; [done|]. split; [done|]. split; [done|]. split; [done|]. simpl. lia.
Qed.
Lemma queue_pop_right_empty_ok gv q w :
  queue_has gv q [] w → returns (queue_pop_right w) (λ '(r, w'), r = 0 ∧ queue_has gv q [] w').
Proof.
  intros (a&its&z&Hw&Hh&Ht&Hv&Hl). destruct its as [|k its]; [|done]. apply chain_rev in Hw. simpl in Hw.
  eapply returns_mono; [by apply (pop_ok at_prev at_next gv q z [] a false q_tail q_head)|].
  intros [r w'] [-> Hw']. split; [done|]. apply chain_rev in Hw'. simpl in Hw'. by exists a, [], z.
Qed.

(** ** Destruction *)

(** The values that are left after [queue_clear], which stops after a null
    one, and the number of those before it. *)
Fixpoint clear_rest (vs : list Z) : list Z :=
  match vs with [] => [] | v :: vs => if v =? 0 then vs else clear_rest vs end.
Fixpoint cleared (vs : list Z) : list Z :=
  match vs with [] => [] | v :: vs => if v =? 0 then [] else v :: cleared vs end.

Lemma queue_has_given gv q vs v w :
  queue_has gv q vs w → queue_has (gv ++ [v]) q vs
    (mk_qworld (qw_queue w) (qw_refcnt w) (qw_bpool w) (qw_entries w) (qw_new w) (qw_alloc w) (qw_values w ++ [v])).
Proof.
  intros (a&its&z&(f&c&P&[]&Hd&Hf)&Hrest). exists a, its, z. split; [|done]. exists f, c, P. split; [|done].
  split; try done. simpl. by f_equal.
Qed.
Lemma queue_has_live gv q vs w : queue_has gv q vs w → qw_queue w = QLive q.
Proof. intros (a&its&z&(f&c&P&Hw&_)&_). by apply (qi_queue _ _ _ _ _ _ _ _ Hw). Qed.
Lemma queue_has_length gv q vs w : queue_has gv q vs w → q_length q = Z.of_nat (length vs).
Proof. by intros (a&its&z&_&_&_&_&?). Qed.

Lemma clear_runs gv q vs w :
  queue_has gv q vs w → Z.of_nat (length vs) < 2 ^ 64 →
  ∃ w' m, runs (loop_body clear_body) (tt, w) m (tt, w') ∧ m ≤ Z.of_nat (length vs) ∧
    queue_has (gv ++ if q_free_value_cb q then cleared vs else []) (with_length (Z.of_nat (length (clear_rest vs))) q) (clear_rest vs) w'.
Proof.
  revert gv q w. induction vs as [|v vs IH]; intros gv q w Hw Hb.
  - destruct (returns_inv _ _ (queue_pop_left_ok gv q [] w Hw Hb)) as ([r w1]&Hp&->&Hw1). exists w1, 0. split; [|split; [done|]].
    + apply runs_exit. unfold loop_body, clear_body. simpl. by rewrite (st_bind_Ret _ _ _ _ _ Hp).
    + simpl. pose proof (queue_has_length _ _ _ _ Hw) as Hl. simpl in Hl. destruct q as [? ? n ? cb ? ?]. simpl in *. subst n.
      by destruct cb; rewrite app_nil_r.
  - destruct (returns_inv _ _ (queue_pop_left_ok gv q (v :: vs) w Hw Hb)) as ([r w1]&Hp&->&Hw1).
    pose proof (queue_has_length _ _ _ _ Hw1) as Hl1. simpl in Hl1. simpl clear_rest. simpl cleared.
    destruct (Z.eqb_spec v 0) as [->|Hv].
    + exists w1, 0. split; [|split; [lia|]].
      * apply runs_exit. unfold loop_body, clear_body. simpl. by rewrite (st_bind_Ret _ _ _ _ _ Hp).
      * rewrite <- Hl1. destruct (q_free_value_cb q); by rewrite app_nil_r.
    + set (w2 := if q_free_value_cb q then mk_qworld (qw_queue w1) (qw_refcnt w1) (qw_bpool w1) (qw_entries w1) (qw_new w1)
                   (qw_alloc w1) (qw_values w1 ++ [v]) else w1).
      set (gv2 := if q_free_value_cb q then gv ++ [v] else gv).
      assert (Hw2 : queue_has gv2 (with_length (q_length q - 1) q) vs w2).
      { unfold gv2, w2. destruct (q_free_value_cb q); [by apply queue_has_given|done]. }
      destruct (IH gv2 (with_length (q_length q - 1) q) w2 Hw2) as (w'&m&Hr&Hm&Hw'); [simpl in Hb; lia|].
      exists w', (m + 1). split; [|split; [simpl length; lia|]].
      * eapply runs_step; [|exact Hr]. unfold loop_body, clear_body. simpl. rewrite (st_bind_Ret _ _ _ _ _ Hp).
        rewrite (proj2 (Z.eqb_neq v 0)) by done.
        assert (Hq : load_q w1 = Ret (with_length (q_length q - 1) q, w1)) by (unfold load_q; by rewrite (queue_has_live _ _ _ _ Hw1)).
        rewrite (st_bind_Ret _ _ _ _ _ Hq). simpl. unfold w2. by destruct (q_free_value_cb q).
      * unfold gv2 in Hw'. simpl in Hw'. destruct (q_free_value_cb q); [by rewrite <- app_assoc in Hw'|done].
Qed.
Lemma queue_clear_ok gv q vs w :
  queue_has gv q vs w → Z.of_nat (length vs) < 2 ^ 64 →
  returns (queue_clear w) (λ '(_, w'),
    queue_has (gv ++ if q_free_value_cb q then cleared vs else []) (with_length (Z.of_nat (length (clear_rest vs))) q) (clear_rest vs) w').
Proof.
  intros Hw Hb. destruct (clear_runs gv q vs w Hw Hb) as (w'&m&Hr&Hm&Hw'). unfold queue_clear, loopS.
  rewrite (runs_loop _ _ _ _ Hr) by lia. by apply returns_Ret.
Qed.
End life.
