(* ===== verification/QueueDestroy.v ===== *)
(** * The destruction of a linked queue

    The values are cleared, the sentinels released, and the counters
    destroyed: they give up the entries that still wait. *)

From S2P Require Import Prelude Rqueue PtrQueue Refcnt RefcntOps RefcntSpec.
From S2P Require Import Queue QueueOps QueueEntries QueueEnds QueueLife.

Section destroy.
Context {Q : Type} `{PtrQueueLaws Q}.
Abbreviation M := (ST (qworld Q)).
Abbreviation counts := (counts 1024 false true).

(** ** Creation *)

Lemma queue_create_ok w :
  no_queue w → returns (queue_create w) (λ '(ok, w'), ok = true ∧ ∃ h t,
    queue_has (qw_values w) (mk_queue h t 0 true false false 0) [] w').
Proof.
  intros (Hn&HE&Hnew&Ha). unfold queue_create. go.
  apply (returns_mono _ (λ '(ok, w'), ok = true ∧ no_queue w' ∧ qw_values w' = qw_values w)).
  { unfold qalloc. destruct (qw_alloc w) as [|b a] eqn:Ea; [apply returns_Ret; unfold no_queue; by rewrite Ea|].
    apply not_elem_of_cons in Ha as [Hb Ha]. destruct b; [by apply returns_Ret|done]. }
  intros [ok w1] (->&Hw1&Hv). go. eapply returns_mono; [by apply queue_init_ok|].
  intros [[] w2] (h&t&a&its&z&(f&c&P&Hw2&Hd)&Hh&Ht&Hvs&Hl). go. rewrite Hv in Hw2.
  eapply set_q_ok; [exact Hw2|done|]. intros w3 Hw3. go. split; [done|]. exists h, t, a, its, z.
  split; [by exists f, c, P|done].
Qed.

(** ** Entries given up by the counters when there is no pool *)

Lemma reusable_entries_run es q (w : qworld Q) :
  qw_queue w = QLive q → q_bpool q = false → NoDup es →
  (∀ e, e ∈ es → ∃ n v, qw_entries w !! e = Some (mk_entry n v true)) →
  returns (queue_reusable_entries es w) (λ '(_, w'), ∃ E' L', w' = put_entries E' (put_rc (put_links L' (qw_refcnt w)) w) ∧
    ∀ e, E' !! e = if decide (e ∈ es) then None else qw_entries w !! e).
Proof.
  revert w. induction es as [|e es IH]; intros w Hq Hb Hnd Hes; simpl; go.
  - exists (qw_entries w), (cw_links (qw_refcnt w)). split; [by destruct w as [? [] ? ? ? ? ?]|done].
  - apply NoDup_cons in Hnd as [He Hnd]. destruct (Hes e) as (n&v&Hx); [left|].
    unfold queue_reusable_entry. go. eapply returns_set_qentry; [exact Hx|]. go.
    eapply returns_load_qentry; [apply lookup_insert_eq|]. go. cbn [en_queue with_node negb]. go.
    eapply returns_load_q; [exact Hq|]. go. rewrite Hb. cbn [negb Z.eqb]. go. cbn [negb Z.eqb].
    unfold free_entry. go. eapply returns_load_qentry; [apply lookup_insert_eq|]. go.
    eapply returns_mono; [apply IH; [done|done|done|]|].
    { intros e' He'. simpl. rewrite lookup_delete_ne, lookup_insert_ne by (by intros <-). apply Hes. by right. }
    intros [[] w'] (E'&L'&->&HE'). exists E', L'. simpl in *. split; [done|].
    intros e'. rewrite HE'. destruct (decide (e' = e)) as [->|Hne].
    + rewrite lookup_delete_eq, (decide_True (P := e ∈ e :: es)) by left. by case_decide.
    + rewrite lookup_delete_ne, lookup_insert_ne by done. apply decide_ext. rewrite elem_of_cons. naive_solver.
Qed.

(** ** Destruction *)

(** Nothing is left of the queue. *)
Definition destroyed (vs : list Z) (w : qworld Q) : Prop :=
  qw_entries w = ∅ ∧ cw_nodes (qw_refcnt w) = ∅ ∧ cw_refcnt (qw_refcnt w) = CDangling ∧ qw_values w = vs.

Lemma refcnt_destroy_last gv q f c P w :
  qinv gv [] q [] f c P w → q_bpool q = false →
  returns (on_refcnt refcnt_destroy w) (λ '(_, w'), destroyed gv w' ∧ qw_queue w' = QLive q).
Proof.
  intros Hw Hb. pose proof (qi_given _ _ _ _ _ _ _ _ Hw) as Hg. destruct Hw. rewrite Hb in qi_pool. subst P.
  rewrite !app_nil_r in *. simpl in *. unfold on_refcnt. go. apply returns_on_links.
  eapply returns_mono; [by apply (refcnt_destroy_ok 1024 false true _ _ qi_counts)|].
  intros [[] cw] (Hc&HN&_&_&Hgi). go. simpl. simpl in Hgi. rewrite Hgi, Hg, drop_app_length.
  eapply returns_mono; [apply (reusable_entries_run _ q)|]; [done|done|done|exact qi_waiting|].
  intros [[] w'] (E'&L'&->&HE). go. split; [|done]. split; [|split; [|done]].
  - apply map_eq. intros e. simpl. rewrite HE, lookup_empty. simpl. case_decide as He; [done|].
    destruct (qw_entries w !! e) eqn:Ee; [|done]. destruct He. apply qi_dom. by eexists.
  - simpl. rewrite HN. apply map_eq. intros n. rewrite lookup_fmap, lookup_refs_with, lookup_empty.
    destruct (cl_live c !! n) as [x|] eqn:En; [|done]. apply qi_live in En as (k&?%not_elem_of_nil&_). done.
Qed.

Lemma sentinels_ok gv q w (k : M unit) R :
  queue_has gv q [] w → q_bpool q = false →
  (∀ f c P w', qinv gv [] q [] f c P w' → returns (k w') R) →
  returns ((_ ← on_refcnt (store_ref (at_next (q_head q)) 0);
            _ ← destroy_entry (q_head q);
            _ ← on_refcnt (store_ref (at_prev (q_tail q)) 0);
            _ ← destroy_entry (q_tail q);
            k) w) R.
Proof.
  intros (a&its&z&(f&c&P&Hw&Hd&Hfa&Hfz&_)&Hh&Ht&Hv&_) Hb HR. destruct its as [|? ?]; [|done]. simpl in Hw, Hd.
  destruct Hd as (_&Hnext&Hprev&_). simpl in Hnext. rewrite Hh, Ht.
  assert (Ha : a ∈ [a; z]) by left. assert (Hz : z ∈ [a; z]) by (right; left).
  destruct (qinv_distinct _ _ _ a z _ _ _ _ _ Hw) as [Haz Eaz]; [left|].
  pose proof (qinv_entry_pos _ _ _ _ _ _ _ _ _ Hw Ha) as Pa. pose proof (qinv_entry_pos _ _ _ _ _ _ _ _ _ Hw Hz) as Pz.
  go. eapply (store_null_ok _ _ _ _ _ _ _ _ _ _ z); [exact Hw|done|done|apply mark_off_node; by eapply qi_node|lia|unfold in_range; lia|].
  intros w1 Hw1. go. unfold destroy_entry. rewrite (proj2 (Z.eqb_neq (c_entry a) 0)) by lia. go.
  eapply node_of_ok; [exact Hw1|done|]. go.
  eapply release_ok'; [exact Hw1|done|counting|counting|]. intros w2 Hw2. go.
  eapply returns_mono; [eapply (store_last_ok _ _ a [z]); [exact Hw2|counting|]|].
  { simpl. rewrite lookup_insert_ne by (unfold at_next, at_prev; lia). done. }
  intros [[] w3] (c3&P3&Hw3&_). go. rewrite (proj2 (Z.eqb_neq (c_entry z) 0)) by lia. go.
  eapply node_of_ok; [exact Hw3|left|]. go.
  eapply returns_mono; [eapply (release_last_ok _ _ z []); [exact Hw3|counting]|].
  intros [[] w4] (c4&P4&Hw4&_). go. by eapply HR.
Qed.

Lemma clear_rest_all vs : Forall (λ v, v ≠ 0) vs → clear_rest vs = [] ∧ cleared vs = vs.
Proof.
  induction 1 as [|v vs Hv Hvs IH]; [done|]. simpl. rewrite (proj2 (Z.eqb_neq v 0)) by done. destruct IH as [-> ->]. done.
Qed.

Lemma queue_destroy_ok gv q vs w :
  queue_has gv q vs w → Forall (λ v, v ≠ 0) vs → Z.of_nat (length vs) < 2 ^ 64 →
  returns (queue_destroy w) (λ '(_, w'), destroyed (gv ++ if q_free_value_cb q then vs else []) w' ∧
    (q_free q = true → qw_queue w' = QDangling)).
Proof.
  intros Hw Hvs Hb. unfold queue_destroy. rewrite (queue_has_live _ _ _ _ Hw). destruct (clear_rest_all vs Hvs) as [Er Ec].
  destruct Hw as (a&its&z&(f&c&P&Hw&Hd&Hfs)&Hh&Ht&Hv&Hl). go. unfold destroy_bpool at 1. go.
  eapply returns_load_q; [exact (qi_queue _ _ _ _ _ _ _ _ Hw)|]. go.
  eapply returns_mono; [by eapply drop_bpool_ok|]. intros [[] w1] (Hq1&L'&HL&Hw1). go.
  unfold set_q. go. eapply returns_load_q; [exact Hq1|]. go.
  assert (Hw2 : queue_has gv (with_bpool false q) vs (put_q (QLive (with_bpool false q)) w1)).
  { exists a, its, z. split; [|done]. exists f, (put_clinks L' c), [].
    split; [|split; [exact (dseg_same_links at_next at_prev _ _ _ _ _ HL Hd)|exact Hfs]].
    specialize (Hw1 (with_bpool false q) (qw_bpool w1) I). by destruct w1. }
  eapply returns_mono; [by eapply queue_clear_ok|]. intros [[] w2] Hw3. go. rewrite Er, Ec in Hw3. simpl in Hw3.
  set (q' := with_length 0 (with_bpool false q)) in *.
  eapply returns_load_q; [exact (queue_has_live _ _ _ _ Hw3)|]. cbv beta iota.
  eapply (sentinels_ok _ q'); [exact Hw3|done|]. intros f3 c3 P3 w3 Hw4. unfold destroy_bpool. go.
  eapply returns_load_q; [exact (qi_queue _ _ _ _ _ _ _ _ Hw4)|]. go. cbn [q_bpool q' with_length with_bpool]. go.
  eapply returns_mono; [by apply (refcnt_destroy_last _ _ _ _ _ _ Hw4)|]. intros [[] w4] [Hd4 Hq4].
  cbn [q_free q' with_length with_bpool]. destruct (q_free q); go; by split.
Qed.
End destroy.
