(* ===== verification/QueueSpec.v ===== *)
(** * Linked queues are double-ended queues

    What src/src/queue.c promises to one thread: a sequence with insertion and
    removal at both ends, whose destruction leaves no entry and no node
    behind. *)

From S2P Require Import Prelude Rqueue RqueueRing RqueueOps RqueueSpec PtrQueue Refcnt RefcntOps RefcntSpec.
From S2P Require Import Queue QueueOps QueueEntries QueueEnds QueueLife QueueDestroy.

(** ** The specification *)

(** The values, from left to right, the size set for the pool, is the callback
    set, and the values given to it. *)
Record deque := mk_deque { dq_values : list Z; dq_size : Z; dq_cb : bool; dq_given : list Z }.
Definition put_values (vs : list Z) (d : deque) : deque := mk_deque vs (dq_size d) (dq_cb d) (dq_given d).

Inductive qop := QPushLeft (v : Z) | QPushRight (v : Z) | QPopLeft | QPopRight | QCount
  | QSetCallback (cb : bool) | QSetPoolSize (size : Z) | QClear.

(** The new state and the value returned, 0 for none. *)
Definition qop_spec (o : qop) (d : deque) : deque * Z :=
  let vs := dq_values d in
  match o with
  | QPushLeft v => (put_values (v :: vs) d, 0)
  | QPushRight v => (put_values (vs ++ [v]) d, 0)
  | QPopLeft => match vs with [] => (d, 0) | v :: vs => (put_values vs d, v) end
  | QPopRight => match rev vs with [] => (d, 0) | v :: us => (put_values (rev us) d, v) end
  | QCount => (d, Z.of_nat (length vs))
  | QSetCallback cb => (mk_deque vs (dq_size d) cb (dq_given d), 0)
  | QSetPoolSize size => (mk_deque vs size (dq_cb d) (dq_given d), dq_size d)
  | QClear => (mk_deque (clear_rest vs) (dq_size d) (dq_cb d) (dq_given d ++ if dq_cb d then cleared vs else []), 0)
  end.
Fixpoint qops_spec (os : list qop) (d : deque) : deque * list Z :=
  match os with
  | [] => (d, [])
  | o :: os => let '(d, r) := qop_spec o d in let '(d, rs) := qops_spec os d in (d, r :: rs)
  end.
Definition new_deque (given : list Z) : deque := mk_deque [] 0 false given.

(** The sizes of pools. *)
Definition qop_pre (o : qop) : Prop := match o with QSetPoolSize size => 2 ≤ size < 2 ^ 64 | _ => True end.

(** ** The operations of the code *)

Section ops.
Context {Q : Type} `{PtrQueueLaws Q} (no_pool : Q).
Abbreviation M := (ST (qworld Q)).

Definition run_qop (o : qop) : M Z :=
  match o with
  | QPushLeft v => queue_push_left v
  | QPushRight v => queue_push_right v
  | QPopLeft => queue_pop_left
  | QPopRight => queue_pop_right
  | QCount => queue_count
  | QSetCallback cb => _ ← queue_set_free_value_callback cb; mret 0
  | QSetPoolSize size => queue_set_bpool_size no_pool size
  | QClear => _ ← queue_clear; mret 0
  end.
Fixpoint run_qops (os : list qop) : M (list Z) :=
  match os with [] => mret [] | o :: os => r ← run_qop o; rs ← run_qops os; mret (r :: rs) end.

(** The queue holds the values of [d]. *)
Definition queue_is (d : deque) (w : qworld Q) : Prop := ∃ q,
  queue_has (dq_given d) q (dq_values d) w ∧ q_free q = true ∧ q_free_value_cb q = dq_cb d ∧ q_bpool_size q = dq_size d.

Lemma queue_has_set gv q q' vs w :
  queue_has gv q vs w → q_head q' = q_head q → q_tail q' = q_tail q → q_length q' = q_length q → q_bpool q' = q_bpool q →
  queue_has gv q' vs (put_q (QLive q') w).
Proof.
  intros (a&its&z&(f&c&P&Hw&Hd)&Hh&Ht&Hv&Hl) Eh Et El Hb. exists a, its, z. rewrite Eh, Et, El. split; [|done].
  exists f, c, P. split; [by eapply qinv_set_q|done].
Qed.

Lemma run_qop_ok o d w :
  pq_fresh no_pool → queue_is d w → qop_pre o → Z.of_nat (length (dq_values d)) + 1 < 2 ^ 64 →
  returns (run_qop o w) (λ '(r, w'), r = (qop_spec o d).2 ∧ queue_is (qop_spec o d).1 w').
Proof.
  intros Hp (q&Hw&Hf&Hcb&Hs) Ho Hb. destruct d as [vs size cb given]. simpl in *. destruct o; simpl.
  - eapply returns_mono; [by apply queue_push_left_ok|]. intros [r w'] [-> Hw']. split; [done|]. by eexists.
  - eapply returns_mono; [by apply queue_push_right_ok|]. intros [r w'] [-> Hw']. split; [done|]. by eexists.
  - eapply returns_mono; [apply (queue_pop_left_ok _ _ _ _ Hw); lia|]. intros [r w']. destruct vs; intros [-> Hw'];
      (split; [done|]); by eexists.
  - destruct vs as [|v vs _] using rev_ind.
    + eapply returns_mono; [by apply queue_pop_right_empty_ok|]. intros [r w'] [-> Hw']. split; [done|]. by eexists.
    + rewrite rev_app_distr. simpl. rewrite rev_involutive.
      eapply returns_mono; [apply (queue_pop_right_ok _ _ _ _ _ Hw); lia|]. intros [r w'] [-> Hw']. split; [done|]. by eexists.
  - unfold queue_count. go. eapply returns_load_q; [by eapply queue_has_live|]. go.
    split; [by eapply queue_has_length|]. by eexists.
  - unfold queue_set_free_value_callback, set_q. go. eapply returns_load_q; [by eapply queue_has_live|]. go. split; [done|].
    exists (with_value_cb cb0 q). split; [by eapply queue_has_set|done].
  - eapply returns_mono; [exact (queue_set_bpool_size_ok no_pool _ _ _ _ _ Hp Ho Hw)|]. intros [r w'] [-> Hw'].
    split; [done|]. eexists. split; [exact Hw'|]. destruct (Z.eqb_spec (q_bpool_size q) size0); by subst.
  - go. eapply returns_mono; [apply (queue_clear_ok _ _ _ _ Hw); lia|]. intros [[] w'] Hw'. go. split; [done|].
    rewrite Hcb in Hw'. by eexists.
Qed.

Lemma qop_spec_length o d : (length (dq_values (qop_spec o d).1) ≤ S (length (dq_values d)))%nat.
Proof.
  destruct d as [vs size cb given]. destruct o; simpl; try lia.
  - rewrite length_app. simpl. lia.
  - destruct vs; simpl; lia.
  - destruct vs as [|v vs _] using rev_ind; [simpl; lia|]. rewrite rev_app_distr. simpl. rewrite rev_involutive, length_app. simpl. lia.
  - induction vs as [|v vs IH]; [simpl; lia|]. simpl. destruct (v =? 0); lia.
Qed.

Lemma run_qops_ok os d w :
  pq_fresh no_pool → queue_is d w → Forall qop_pre os → Z.of_nat (length (dq_values d) + length os) < 2 ^ 64 →
  returns (run_qops os w) (λ '(rs, w'), rs = (qops_spec os d).2 ∧ queue_is (qops_spec os d).1 w').
Proof.
  intros Hp. revert d w. induction os as [|o os IH]; intros d w Hw Hos Hb; simpl; go; [done|].
  apply Forall_cons in Hos as [Ho Hos]. simpl in Hb. eapply returns_mono; [apply (run_qop_ok o d w Hp Hw Ho); lia|].
  intros [r w1] [Hr Hw1]. go. pose proof (qop_spec_length o d). destruct (qop_spec o d) as [d1 r1]. simpl in *. subst r1.
  eapply returns_mono; [apply (IH d1 w1 Hw1 Hos); lia|]. intros [rs w2] [-> Hw2]. go.
  by destruct (qops_spec os d1) as [d2 rs2].
Qed.
End ops.

(** ** What the queue promises *)

Section claims.
Context (elapsed : nat → Z → Z) (rand : nat → Z).
#[local] Instance qrqueues : PtrQueue rworld := rqueue_ptr_queue elapsed rand.
#[local] Instance qrqueues_laws : PtrQueueLaws rworld := rqueue_ptr_queue_laws elapsed rand.
Context (no_pool : rworld).

(** C14 — a linked queue, over the reference counters and ring queues of the
    library, is a double-ended queue: in any sequence of insertions and removals
    at its ends, counts, settings of the callback and of the size of the pool, and
    clearings, every operation returns what it does on a sequence of values, and
    the values given to the callback are those cleared, in order. *)
Theorem queue_refines_deque os w :
  no_queue w → rq_fresh no_pool → Forall qop_pre os → Z.of_nat (length os) < 2 ^ 64 →
  returns ((ok ← queue_create; rs ← run_qops no_pool os; mret (ok, rs)) w) (λ '((ok, rs), w'), ok = true ∧
    rs = (qops_spec os (new_deque (qw_values w))).2 ∧ queue_is (qops_spec os (new_deque (qw_values w))).1 w').
Proof.
  intros Hw Hp Hos Hb. go. eapply returns_mono; [by apply queue_create_ok|]. intros [ok w1] (->&h&t&Hw1). go.
  eapply returns_mono; [apply (run_qops_ok (H0 := qrqueues_laws) no_pool os (new_deque (qw_values w)) w1 Hp); [by eexists|done|done]|].
  by intros [rs w2] [-> Hw2].
Qed.

(** C29 — a queue without null values can be used and destroyed: every entry and
    every node of a counter is freed, and the values left are given to the
    callback if it is set, after those that were cleared. *)
Theorem queue_destroy_frees os w :
  no_queue w → rq_fresh no_pool → Forall qop_pre os → Z.of_nat (length os) < 2 ^ 64 →
  let d := (qops_spec os (new_deque (qw_values w))).1 in
  Forall (λ v, v ≠ 0) (dq_values d) →
  returns ((_ ← queue_create; _ ← run_qops no_pool os; queue_destroy) w) (λ '(_, w'),
    destroyed (dq_given d ++ if dq_cb d then dq_values d else []) w' ∧ qw_queue w' = QDangling).
Proof.
  intros Hw Hp Hos Hb d Hd. go. eapply returns_mono; [by apply queue_create_ok|]. intros [ok w1] (->&h&t&Hw1). go.
  eapply returns_mono; [apply (run_qops_ok (H0 := qrqueues_laws) no_pool os (new_deque (qw_values w)) w1 Hp); [by eexists|done|done]|].
  intros [rs w2] (_&q&Hw2&Hf&Hcb&_). go. fold d in Hw2, Hcb. rewrite <- Hcb.
  assert (Hl : ∀ os d, (length (dq_values (qops_spec os d).1) ≤ length (dq_values d) + length os)%nat).
  { clear. induction os as [|o os IH]; intros d; simpl; [lia|]. pose proof (qop_spec_length o d) as Ho.
    destruct (qop_spec o d) as [d1 r]. specialize (IH d1). destruct (qops_spec os d1). simpl in *. lia. }
  specialize (Hl os (new_deque (qw_values w))). change (length (dq_values d) ≤ length os)%nat in Hl.
  eapply returns_mono; [apply (queue_destroy_ok _ q _ w2 Hw2 Hd); lia|]. intros [[] w3] [Hw3 Hq]. split; [done|by apply Hq].
Qed.
End claims.

(** ** Witnesses *)

Definition queue_start : qworld rworld :=
  mk_qworld QNull (mk_cworld CNull no_rqueue no_rqueue ∅ ∅ 4 [] [] []) no_rqueue ∅ 4 [] [].
Lemma queue_start_no_queue : no_queue (H := rqueue_ptr_queue on_time no_rand) (H0 := rqueue_ptr_queue_laws on_time no_rand) queue_start.
Proof. repeat split; try done; apply not_elem_of_nil. Qed.
(** Both ends, with a pool and the callback. *)
Definition qop_sample : list qop :=
  [QSetPoolSize 2; QPushLeft 5; QPushRight 6; QPushLeft 4; QPopRight; QCount; QPopLeft; QPopLeft; QPopLeft;
   QSetCallback true; QPushRight 7; QPushRight 8; QClear; QPushLeft 9].
Lemma qop_sample_pre : Forall qop_pre qop_sample.
Proof. repeat constructor; done. Qed.

Lemma queue_refines_deque_witness :
  returns ((ok ← queue_create (PtrQueue0 := rqueue_ptr_queue on_time no_rand);
            rs ← run_qops (H := rqueue_ptr_queue on_time no_rand) no_rqueue qop_sample; mret (ok, rs)) queue_start)
    (λ '((ok, rs), w'), ok = true ∧ rs = [0; 0; 0; 0; 6; 2; 4; 5; 0; 0; 0; 0; 0; 0] ∧
      queue_is (H0 := rqueue_ptr_queue_laws on_time no_rand) (mk_deque [9] 2 true [7; 8]) w').
Proof.
  apply (queue_refines_deque on_time no_rand no_rqueue qop_sample queue_start).
  - apply queue_start_no_queue.
  - repeat split; try done; apply not_elem_of_nil.
  - apply qop_sample_pre.
  - done.
Defined.

Lemma queue_destroy_frees_witness :
  returns ((_ ← queue_create (PtrQueue0 := rqueue_ptr_queue on_time no_rand);
            _ ← run_qops (H := rqueue_ptr_queue on_time no_rand) no_rqueue qop_sample;
            queue_destroy (PtrQueue0 := rqueue_ptr_queue on_time no_rand)) queue_start)
    (λ '(_, w'), destroyed [7; 8; 9] w' ∧ qw_queue w' = QDangling).
Proof.
  apply (queue_destroy_frees on_time no_rand no_rqueue qop_sample queue_start).
  - apply queue_start_no_queue.
  - repeat split; try done; apply not_elem_of_nil.
  - apply qop_sample_pre.
  - done.
  - repeat constructor; done.
Defined.

(** ** Where the code does something else *)

Section errors.
Context {Q : Type} `{PtrQueueLaws Q}.

(** An insertion without memory dereferences the null entry; queue.h says that
    it returns -1. *)
Theorem queue_push_no_memory v a (w : qworld Q) :
  qw_alloc w = false :: a → qw_entries w !! 0 = None → queue_push_left v w = Undef.
Proof.
  intros Ha He. unfold queue_push_left, push, create_entry, calloc_entry, qalloc. simpl. unfold mbind, st_bind. simpl. rewrite Ha.
  simpl. unfold set_entry, load_entry, mbind, st_bind. simpl. by rewrite He.
Qed.

(** [queue_clear] stops after a null value: the values behind it stay in the
    queue. *)
Theorem queue_clear_stops_at_null gv q us vs (w : qworld Q) :
  queue_has gv q (us ++ 0 :: vs) w → Forall (λ v, v ≠ 0) us → Z.of_nat (length (us ++ 0 :: vs)) < 2 ^ 64 →
  returns (queue_clear w) (λ '(_, w'),
    queue_has (gv ++ if q_free_value_cb q then us else []) (with_length (Z.of_nat (length vs)) q) vs w').
Proof.
  intros Hw Hus Hb. assert (Hr : clear_rest (us ++ 0 :: vs) = vs ∧ cleared (us ++ 0 :: vs) = us).
  { clear Hw Hb. induction Hus as [|u us Hu Hus [IH1 IH2]]; [done|]. simpl. rewrite (proj2 (Z.eqb_neq u 0)) by done.
    by rewrite IH1, IH2. }
  destruct Hr as [Hr Hc]. eapply returns_mono; [by apply (queue_clear_ok _ _ _ _ Hw)|]. intros [[] w']. by rewrite Hr, Hc.
Qed.
End errors.
